(* ===== verification/_CoqProject ===== *)
-Q . S2P
Prelude.v
Hlc.v
Events.v
AlloyExample.v
CommitmentLinks.v
ConsistencyChecker.v
ConsistencyProps.v
AccusationVoting.v
AccusationInv.v
AccusationProps.v
SlashingPipeline.v
Sortition.v
OwnerShortlist.v
Failover.v
NodeRegistry.v
AddressExample.v
RegistryProps.v
RegistryHistory.v
SelectionBackend.v
SelectionProps.v
Admission.v
AdmissionProps.v
ParityMatrix.v
NullSpace.v
ParityProps.v
Actor.v
Orchestration.v
OrchestrationExample.v
DkgAttestation.v
PublicKeyAggregation.v
PublicKeyInv.v
PublicKeySteps.v
PublicKeyProps.v
PublicKeyExample.v
PlaintextAggregation.v
PlaintextInv.v
PlaintextSteps.v
PlaintextProps.v
Hamt.v
HamtProps.v
KvStore.v
KvStoreProps.v
KvStoreExample.v
SnapshotBuffer.v
SnapshotProps.v
SnapshotOrder.v
SnapshotStore.v
EventLog.v
EventStore.v
EventStoreProps.v
EventQueries.v
EventRouter.v
EventExample.v
NetSync.v
NetSyncProps.v
NetServe.v
NetFetch.v
NetHistory.v
NetStored.v
KeyshareTiming.v
KeyshareEvents.v
Tally.v
KeyCollector.v
ShareCollector.v
C4Collector.v
DkgRoster.v
CanonicalKeys.v
Keyshare.v
KeysharePlan.v
ReadyReports.v
KeyshareWork.v
KeyshareShares.v
KeyshareActor.v
KeyshareRounds.v
KeyshareInv.v
KeyshareSteps.v
KeyshareProps.v
KeyshareExample.v
ChainReader.v
ChainGateway.v
