(* ===== verification/Prelude.v ===== *)
(** * Interfold ciphernode: verification development

    ** The program

    Interfold runs encrypted computations ("E3"s) with committees of ciphernodes.  A node learns
    from the chain which E3s were requested, takes part in the sortition that picks a committee,
    runs distributed key generation and threshold decryption with zero-knowledge proofs, and
    accuses members whose proofs fail or contradict each other.  The Rust code keeps the decisions
    in synchronous cores (plain state and functions that return actions or errors), wrapped by
    actors that deliver messages, arm timers and persist snapshots.  This development models the
    following subsystems and proves what each promises:

    - the hybrid logical clock that orders events (crates/events/src/hlc.rs);
    - the slashing pipeline: commitment links between proofs (crates/zk/config/src,
      crates/zk/prover/src/commitment_links), the commitment-consistency checker and the
      accusation-voting protocol (crates/orchestration/slashing/src);
    - sortition: tickets, committees and the owner shortlist, the node registry, bond owners,
      admission, the submission rank and aggregator failover
      (crates/orchestration/sortition/src), over the membership list
      (crates/committee/src/membership.rs);
    - the parity matrices that the share circuits are checked with (crates/parity-matrix/src);
    - distributed key generation as the aggregator sees it: fold attestations and public-key
      aggregation (crates/orchestration/aggregator/src/public_key_aggregation);
    - threshold decryption (crates/orchestration/aggregator/src/plaintext_aggregation);
    - distributed key generation as a committee member sees it: the threshold keyshare with its
      collectors, rosters and recovery (crates/orchestration/keyshare/src), over the canonical
      public keys (crates/state/request/src/canonical_key.rs);
    - state: persistable snapshots, the hash array mapped trie, key-value stores, and the
      snapshot buffer that writes them in the order of the events;
    - events at rest: logs, timestamp indexes, event stores, their router and queries;
    - historical sync between peers (crates/net/src/net_sync);
    - EVM ingestion: the chain reader, the pipeline of router, parsers and order fixer, and the
      chain gateway (crates/evm/runtime/src).

    They interact as in the code: verified proofs feed the consistency checker; its violations
    become accusations of the voting core (SlashingPipeline.v composes them); the registry and the
    bond owners give the request-time view that the admission rules filter and the selection
    backend ranks; the committee that is finalized then carries the failover order of the
    aggregator; the aggregators keep their state in persistables, whose writes go through the
    snapshot buffer to a store (SnapshotStore.v composes them); a peer's event store serves the
    pages that another node fetches, checks, merges and stores (NetServe.v, NetStored.v); a chain
    reader's logs pass router, parsers and order fixer to the gateway, which gives the history to
    the startup sync and publishes the rest under the clock of the bus, stamped with the positions
    that the registry orders by.  The keyshare
    starts its collectors and takes their batches, plans the calculation over the accepted roster,
    and answers the verdicts of the proof verifier.

    ** Files

    Foundations
    - Prelude.v: results ([result] with [let?]), machine integers as [Z] with their width written
      out, big-endian bytes, slices and chunks, tactics and list lemmas.
    - Hlc.v: [HlcTimestamp], [Hlc] and all operations ([tick], [receive], [seed_from_history],
      packing).  The physical clock reading is an input of each operation.
    - Events.v: identifiers, circuits, proof types, proof payloads and the events exchanged by the
      slashing components, with the digests that are signed; committee configurations.  Hashing,
      ABI encoding and ECDSA are the class [AlloyOps], with [AlloyLaws] stating that recovering a
      signature gives its signer.  AlloyExample.v instantiates both and holds example data.

    Slashing
    - CommitmentLinks.v: output layouts of the circuits, field extraction from public signals, the
      [CommitmentLink] records and the twelve registered links.
    - ConsistencyChecker.v: the checker's state (proof cache, dealer roster, dirty flag), link
      evaluation in the three link scopes, the two handlers, snapshot and restore, as in
      commitment_consistency/workflow.rs.  ConsistencyProps.v holds its theorems over [run]s.
    - AccusationVoting.v: the voting core of accusation_voting/ (state.rs, admission and the
      transitions initiation, incoming accusations, votes, quorum, re-verification, expulsion,
      timeouts, snapshots) as functions from a state to a state and a list of actions.
      AccusationInv.v holds its invariants, AccusationProps.v its theorems.
    - SlashingPipeline.v: from a violation of the checker to a published accusation.

    Sortition
    - Sortition.v, OwnerShortlist.v: ticket.rs and ticket_selection.rs.
    - Failover.v: failover.rs and membership.rs.
    - NodeRegistry.v: node_registry.rs and chain_position.rs; RegistryProps.v proves the capacity
      accounting, RegistryHistory.v that histories answer for the past.  Address text is the
      class [AddressText], instantiated in AddressExample.v.
    - SelectionBackend.v: bond_owners.rs, selection_backend.rs and the time limit of
      eligibility.rs; SelectionProps.v holds its theorems.
    - Admission.v: admission.rs and the rank of this node (get_node_index of actor.rs), which
      composes admission, identity policy, registry, owners and backend; AdmissionProps.v holds
      its theorems.

    Parity matrices
    - ParityMatrix.v: modular arithmetic, generator, elimination and verification of
      crates/parity-matrix, with the extended Euclidean algorithm; NullSpace.v: the elimination;
      ParityProps.v: the theorems.

    Key generation and decryption
    - Actor.v: the monad of a message handler (state, published messages, refused writes, early
      returns and errors) with [Persistable] and its operations, and its laws.
    - Orchestration.v: event contexts, stages, share-verification messages, committee hash and
      decryption domain; OrchestrationExample.v instantiates its parameters.
    - DkgAttestation.v: fold attestations and their bundle.
    - PublicKeyAggregation.v: state, transitions, effects and handlers of the aggregator;
      PublicKeyInv.v its selections and its invariant, PublicKeySteps.v that every handler keeps
      it, PublicKeyProps.v the theorems, PublicKeyExample.v a run with a forged message and the
      witnesses.  The BFV computations are [PublicKeyOps].
    - PlaintextAggregation.v, PlaintextInv.v, PlaintextSteps.v, PlaintextProps.v: the same for
      threshold decryption, over [PlaintextOps].

    State
    - Hamt.v, HamtProps.v: the hash array mapped trie of crates/hamt, over [KeyHash].
    - KvStore.v: store messages, the store in memory and the store on disk (over [SledTree]) with
      their actors; KvStoreProps.v compares them and treats the snapshot cursors,
      KvStoreExample.v has the instances.
    - SnapshotBuffer.v: batch router, batches, timelock queue and drain as a system of actors;
      SnapshotProps.v, SnapshotOrder.v its invariants, SnapshotStore.v its composition with the
      store and the witnesses.

    Events at rest
    - EventLog.v: the interfaces [EventLog] and [SequenceIndex] as classes with
      laws, the implementations in memory and the index on disk.
    - EventStore.v: storing, queries and reconciliation, proved against the two interfaces in
      EventStoreProps.v and EventQueries.v.
    - EventRouter.v: the router and the aggregation of sub-queries.
      EventExample.v instantiates everything.

    Historical sync
    - NetSync.v: policy, readiness, batches, the responder and the page loop; NetSyncProps.v its
      bounds; NetServe.v runs the loop against an honest peer.
    - NetFetch.v: validation, merging, choice of sources and the fetch of the whole history with
      its recovery rounds; NetHistory.v its theorems; NetStored.v reserves the timestamps of the
      startup's chain events, stores both histories together and holds the witnesses.

    Keyshare
    - KeyshareTiming.v: timeout_policy.rs.  KeyshareEvents.v: the DKG messages with the digests
      that are signed, over [DkgBytes].
    - Tally.v, KeyCollector.v, ShareCollector.v, C4Collector.v: the collectors of encryption keys,
      threshold shares and C4 bundles (collect_*.rs and their actors).
    - DkgRoster.v: roster.rs.  ReadyReports.v: the functions on Ready reports of
      coordinate_roster.rs.  CanonicalKeys.v: canonical_key.rs, over [KeyCheck].
    - Keyshare.v: state.rs, recovery_state.rs and the plan of derive_decryption_key.rs, over
      [KeyshareOps]; KeysharePlan.v: that the plan is exact.
    - KeyshareWork.v, KeyshareShares.v, KeyshareActor.v: the actor [ThresholdKeyshare] in the monad
      of Actor.v, with the file of each group of handlers in their headers; [handle] dispatches a
      message, [restart] loads the snapshots.  Event and payload names are [KeyshareHash].
    - KeyshareRounds.v: the rounds of share verification end.  KeyshareInv.v: the invariant [C] of
      the actor as named conjuncts, and rules for handlers.  KeyshareSteps.v: every handler keeps
      it.  KeyshareProps.v: runs and the theorems.  KeyshareExample.v: a run from selection to the
      published keyshare, the witnesses, and a run whose refused writes split two rosters.

    EVM ingestion
    - ChainReader.v: log_fetching/ and chain_reader/: the adaptive block window, the fetch and
      dispatch of chunks, the historical sync, the backfill, the live loop, provider recovery and
      the reader's session as a step function.  A provider is the class [LogProvider]; what it
      promises is [CanonicalProvider] and [CappedProvider], both instantiated.
    - ChainGateway.v: event_router.rs, event_decoding/actor.rs, historical_order/, the mailboxes
      between them, chain_gateway/ and the collector of collect_history.rs, over [BloomFilter].

    ** What the theorems show

    - Clock: issued timestamps strictly increase over any sequence of operations, also after
      seeding from history; receiving accepts exactly the admissible times and moves past both
      clocks; packing is a bijection that preserves the order.
    - Links: each link accepts exactly the field relation it stands for, for plain and doubled
      buffers.
    - Checker: both handlers report exactly the contradictions of the cache; every reported
      violation of a run contradicts the cache that the run itself has built from submitted proofs;
      accusations by absence wait for the whole roster; snapshots lose nothing that decisions depend
      on.
    - Voting: quorums are backed by authenticated, in-window votes of committee members; votes in
      a state are authentic; an accusation leaves the state only with a published decision, at the
      vote that completes the quorum or at its timeout; a node accuses once; published messages are admitted by peers; restoring a snapshot gives back the
      live accusations; expelled members lose their votes.  Two theorems record runs in which a
      re-verification result counts a vote that the admission rules would reject.
    - Pipeline: a violation makes the voting core publish one accusation of the right party when
      that party is another committee member not yet accused of the proof, and none otherwise.
    - Sortition: the committee is the top of the score ranking and independent of the order of
      nodes; the owner shortlist spreads seats over owners; a submission is backed by a ticket and
      its rank is unshared; without complete owner history no eligible node is lost.
    - Registry: capacity counters agree with open committees over any run; duty transitions are
      idempotent; startup releases exactly the finished E3s; past balances, activity and owners
      are those of the chain's log, late events left out; the backend implements a set.
    - Admission: the admission policy and the starts in force at a time are those of the event log,
      and the identity policy is determined by the recorded changes, in whatever order they were
      caught up; a rank passes every gate.
    - Failover: a callback moves the role by one step or has no effect; when nobody publishes the
      role visits every eligible member once and then stops; replays are harmless.
    - Parity: the parity-check matrix accepts exactly the code words of the generator; the
      elimination always finds a null space of the right size; modular inverses exist exactly for
      coprime values.
    - Aggregation: over any run of handlers, with any writes refused and restarts in between that may
      have lost the last writes, what the aggregators publish is backed by verified shares and proofs
      of the roster, each in the slot of its signer and for its ciphertext; requests follow the phases,
      verdicts are applied to the whole batch, and a value in memory is never ahead of the write that
      the store accepted.
    - State: the trie refines a finite map; the two stores answer alike; a cursor never moves
      back; no write is lost or invented by the buffer, snapshots of one aggregate leave in
      sequence and all of them are applied when the clock does not step back.
    - Events: each event is stored once, under a fresh sequence number; a restart repairs an index
      that missed writes unless the index refuses them again; queries by sequence and by timestamp
      read the log from one record on, within their limits, and pages in timestamp order search all
      of it; a routed query is complete.
    - Sync: a fetch is bounded in pages, events and bytes; an honest peer is fetched completely;
      the merged history does not depend on the order of peers; what is fetched fits the budget
      and can be stored together with the chain events of the startup.
    - Keyshare: over any run of messages, refused writes and publications, and restarts that may lose
      the last writes: an accepted roster is authentic and supported by an own Ready report; every
      requested calculation takes exactly the dealers of an accepted roster, with signed shares and a
      verdict for each dealer; the keyshare is published after C4 only, or alone when no other honest
      party takes part; a restart always succeeds and restores the point that had reached the disk.
      Between restarts that lose writes, rosters, reports and phases only improve; such a restart can
      replace a fixed roster ([lost_write_replaces_fixed_roster]).  The collectors report at most once
      and exactly what they received; the roster search is complete and canonical; held Ready
      updates settle; admission tests and timers agree.
    - Ingestion: whatever requests fail, lag or are refused, a reader sends the settled logs of
      the chain in order, once and without a gap, with one marker between history and later
      blocks; it finds any range cap of a provider by itself; the order fixer releases a marker
      with the event that it names; with one contract the gateway is sent the chain in order, and the
      marker is early only by a false positive of the bloom filter; while the bus is open a gateway
      neither loses nor reorders an event; it is ready only when its backlog is published,
      and never publishes the replacement of its SlashingManager; positions survive the bus.

    ** Modelling choices

    A [uN] is a [Z]; additions that saturate, wrap or are checked are written so.  [Result] is
    [result], [Option] is [option].  Maps and sets are stdpp's [gmap] and [gset]; where the source
    iterates a [HashMap], theorems are about the set of results or the order is irrelevant.
    Handlers are whole: every early return of the source is a branch.  Runs are lists of
    operations folded over a state, so that all interleavings are covered.  A write that the store
    refuses is an input of the run.  A write that was accepted may still be lost: it is durable once
    the snapshot buffer has flushed it, so a restart may find the snapshots of an earlier point of the
    run.  All snapshots of an actor then come from the same point; that one of them is newer than
    another, or refused as stale, is not part of these runs.

    Recursion is structural where it can be.  Elsewhere it has fuel, and the fuel is shown to
    suffice: the length of the slice for [chunks] ([chunks_concat]); one more than the sum of the
    bit lengths of the two arguments for the Euclidean algorithm; 32 levels for the trie, whose
    64-bit hashes need 27; one round per event for the loops of the event store; the head of the
    log for reconciliation; the pages left in the budget plus one for the fetch loop; one round per
    record plus one for the stored identifiers; one round per held update for their settlement;
    one round per waiting verdict plus one for share verification ([verify_rounds_terminate]); one
    request per bit of the window and three attempts for a chunk of logs, and one chunk per block
    for a range of them ([chunk_returns], [sync_run_spec], [backfill_spec]).

    Code outside the repository is a parameter with its documented laws: alloy (hashing, ABI,
    ECDSA, address text), the fhe.rs computations, hashers of map keys, the sled tree, and the
    bincode encoding of events, RPC providers and the bloom filter.  Each class of laws has an instance with concrete functions.

    ** What the code does not do

    The manifest's findings record where the code departs from its intent.  Each is evaluated on a
    concrete run: votes counted twice or from the accused after a late re-verification; an
    unsigned fold that blocks aggregation; a keyshare without proof that stays honest; a trie that
    panics on a collision node; a clock step that loses a snapshot; a query answered twice; two
    refused writes after which a keyshare calculates with a replaced roster; a sync marker that
    overtakes a historical event of another contract; a query by timestamp that misses events.

    ** Not modelled

    The actix runtime (mailboxes are modelled where their order matters); the libp2p swarm; chain
    writers and the decoding of contract logs; the commit log's file format and tail recovery; key and share generation
    inside the keyshare, which drives the BFV library; the threshold-BFV and
    Noir tool chains; command line, SDKs, bindings, contracts and circuits.  They are I/O,
    third-party code, other languages, or left for later.

    ** Plan

    Next: the commit log's tail recovery, peer admission and document publishing, the retry
    decisions of the chain writers. *)

From stdpp Require Export base tactics gmap list numbers strings sorting option fin_maps.
From Stdlib Require Export ZArith Lia.

(** ** Results

    Rust's [Result<T, E>]. *)

Inductive result (T E : Type) : Type :=
| Ok (t : T)
| Err (e : E).
Arguments Ok {T E} t.
Arguments Err {T E} e.

Definition is_ok {T E} (r : result T E) : bool :=
  match r with Ok _ => true | Err _ => false end.

Declare Scope interfold_scope.
Delimit Scope interfold_scope with interfold.

Notation "'let?' x ':=' r 'in' k" :=
  (match r with Ok x => k | Err e => Err e end)
  (at level 10, x pattern, r at level 100, k at level 200) : interfold_scope.
Open Scope interfold_scope.

(** ** Machine integers

    A [uN] value is a [Z] in [0, 2^N).  The arithmetic of the standard library that the
    sources use is written out at its width. *)

Definition U8_MAX : Z := 2 ^ 8 - 1.
Definition U32_MAX : Z := 2 ^ 32 - 1.
Definition U64_MAX : Z := 2 ^ 64 - 1.

Definition in_u (w : Z) (z : Z) : Prop := (0 <= z < 2 ^ w)%Z.

Global Instance in_u_dec w z : Decision (in_u w z).
Proof. unfold in_u. apply _. Defined.

(** [checked_add] at maximum [m]. *)
Definition checked_add (m a b : Z) : option Z :=
  if (a + b <=? m)%Z then Some (a + b)%Z else None.

Definition saturating_add (m a b : Z) : Z := Z.min m (a + b).
Definition saturating_sub (a b : Z) : Z := Z.max 0 (a - b).

(** ** Big-endian byte strings: [uN::to_be_bytes], [uN::from_be_bytes] *)

Fixpoint to_be_bytes (n : nat) (z : Z) : list Z :=
  match n with
  | O => []
  | S n' => ((z / 256 ^ Z.of_nat n') mod 256)%Z :: to_be_bytes n' z
  end.

Fixpoint from_be_bytes_acc (acc : Z) (l : list Z) : Z :=
  match l with
  | [] => acc
  | b :: l' => from_be_bytes_acc (acc * 256 + b)%Z l'
  end.
Definition from_be_bytes (l : list Z) : Z := from_be_bytes_acc 0 l.

Definition is_byte (b : Z) : Prop := in_u 8 b.

(** Lexicographic comparison of byte arrays, the order of Rust's [[u8; N]]. *)
Fixpoint lex_compare (a b : list Z) : comparison :=
  match a, b with
  | [], [] => Eq
  | [], _ => Lt
  | _, [] => Gt
  | x :: a', y :: b' =>
      match (x ?= y)%Z with Eq => lex_compare a' b' | c => c end
  end.

(** ** Slices *)

(** [s[i .. i + n]]; the callers check the bounds that Rust would panic on. *)
Definition slice {A} (i n : nat) (s : list A) : list A := take n (drop i s).

(** [s.chunks(n)] for [n > 0]: the last chunk may be shorter.  The fuel, the length of the
    slice, is never exhausted: each chunk takes at least one element. *)
Fixpoint chunks_fuel {A} (fuel n : nat) (s : list A) : list (list A) :=
  match fuel, s with
  | S fuel', _ :: _ => take n s :: chunks_fuel fuel' n (drop n s)
  | _, _ => []
  end.
Definition chunks {A} (n : nat) (s : list A) : list (list A) := chunks_fuel (length s) n s.

(** [iter().position(..)]. *)
Fixpoint position {A} (f : A → bool) (l : list A) : option nat :=
  match l with
  | [] => None
  | x :: l' => if f x then Some O else S <$> position f l'
  end.

(** ** Tactics *)

(** Case analysis on the scrutinee of the first [match] or [if] of a hypothesis. *)
Ltac case_in H :=
  match type of H with
  | context [match ?x with _ => _ end] => destruct x eqn:?
  end.

(** Unfold a guard chain: keep splitting a hypothesis until it is an equation between
    constructors, closing the branches that disagree. *)
Ltac branches H := repeat (case_in H; try discriminate H); simplify_eq/=.

Ltac split_and_all := repeat match goal with |- _ ∧ _ => split end.

(** Turn boolean integer comparisons of the context into propositions. *)
Ltac bool_to_prop :=
  repeat match goal with
  | H : (_ <=? _)%Z = true |- _ => apply Z.leb_le in H
  | H : (_ <=? _)%Z = false |- _ => apply Z.leb_gt in H
  | H : (_ <? _)%Z = true |- _ => apply Z.ltb_lt in H
  | H : (_ <? _)%Z = false |- _ => apply Z.ltb_ge in H
  | H : (_ =? _)%Z = true |- _ => apply Z.eqb_eq in H
  | H : (_ =? _)%Z = false |- _ => apply Z.eqb_neq in H
  | H : (_ <=? _)%nat = true |- _ => apply Nat.leb_le in H
  | H : (_ <=? _)%nat = false |- _ => apply Nat.leb_gt in H
  | H : (_ <? _)%nat = true |- _ => apply Nat.ltb_lt in H
  | H : (_ <? _)%nat = false |- _ => apply Nat.ltb_ge in H
  | H : (_ =? _)%nat = true |- _ => apply Nat.eqb_eq in H
  | H : (_ =? _)%nat = false |- _ => apply Nat.eqb_neq in H
  | H : andb _ _ = true |- _ => apply andb_true_iff in H as [? ?]
  | H : orb _ _ = false |- _ => apply orb_false_iff in H as [? ?]
  | H : negb _ = true |- _ => apply negb_true_iff in H
  | H : negb _ = false |- _ => apply negb_false_iff in H
  | H : bool_decide _ = true |- _ => apply bool_decide_eq_true_1 in H
  | H : bool_decide _ = false |- _ => apply bool_decide_eq_false_1 in H
  end.

Create HintDb interfold.

(** ** Lemmas on machine integers *)

Lemma checked_add_Some m a b c :
  checked_add m a b = Some c ↔ c = (a + b)%Z ∧ (a + b <= m)%Z.
Proof. unfold checked_add. case_match; bool_to_prop; naive_solver lia. Qed.

Lemma checked_add_None m a b : checked_add m a b = None ↔ (m < a + b)%Z.
Proof. unfold checked_add. case_match; bool_to_prop; naive_solver lia. Qed.

(** ** Lemmas on big-endian bytes *)

Lemma length_to_be_bytes n z : length (to_be_bytes n z) = n.
Proof. induction n; simpl; congruence. Qed.

Lemma to_be_bytes_is_byte n z : Forall is_byte (to_be_bytes n z).
Proof.
  induction n; simpl; constructor; [|done].
  unfold is_byte, in_u. change (2 ^ 8)%Z with 256%Z. apply Z.mod_pos_bound. lia.
Qed.

Lemma from_be_bytes_acc_spec acc l :
  from_be_bytes_acc acc l = (acc * 256 ^ Z.of_nat (length l) + from_be_bytes l)%Z.
Proof.
  unfold from_be_bytes. revert acc. induction l as [|b l IH]; intros acc.
  { simpl. lia. }
  cbn [from_be_bytes_acc length]. rewrite IH, (IH (0 * 256 + b)%Z).
  rewrite Nat2Z.inj_succ, Z.pow_succ_r by lia. ring.
Qed.

Lemma from_be_bytes_cons b l :
  from_be_bytes (b :: l) = (b * 256 ^ Z.of_nat (length l) + from_be_bytes l)%Z.
Proof. unfold from_be_bytes at 1. simpl. apply from_be_bytes_acc_spec. Qed.

Lemma from_be_bytes_app l1 l2 :
  from_be_bytes (l1 ++ l2)
  = (from_be_bytes l1 * 256 ^ Z.of_nat (length l2) + from_be_bytes l2)%Z.
Proof.
  induction l1 as [|b l1 IH]; simpl app.
  { change (from_be_bytes []) with 0%Z. lia. }
  rewrite !from_be_bytes_cons, IH, length_app, Nat2Z.inj_add, Z.pow_add_r by lia. ring.
Qed.

Lemma from_be_bytes_bound l :
  Forall is_byte l → (0 <= from_be_bytes l < 256 ^ Z.of_nat (length l))%Z.
Proof.
  induction 1 as [|b l Hb _ IH]; [done|].
  rewrite from_be_bytes_cons. cbn [length]. rewrite Nat2Z.inj_succ, Z.pow_succ_r by lia.
  unfold is_byte, in_u in Hb. change (2 ^ 8)%Z with 256%Z in Hb. nia.
Qed.

Lemma from_to_be_bytes n z :
  (0 <= z)%Z → from_be_bytes (to_be_bytes n z) = (z mod 256 ^ Z.of_nat n)%Z.
Proof.
  intros Hz. induction n as [|n IH].
  { simpl. change (from_be_bytes []) with 0%Z. by rewrite Z.mod_1_r. }
  cbn [to_be_bytes]. rewrite from_be_bytes_cons, length_to_be_bytes, IH.
  rewrite Nat2Z.inj_succ, Z.pow_succ_r by lia.
  rewrite (Z.mul_comm 256), Z.rem_mul_r by lia. ring.
Qed.

Lemma to_be_bytes_mod n m z :
  (n <= m)%nat → to_be_bytes n (z mod 256 ^ Z.of_nat m) = to_be_bytes n z.
Proof.
  induction n as [|n IH]; intros Hle; [done|].
  cbn [to_be_bytes]. rewrite IH by lia. f_equal.
  replace (Z.of_nat m) with (Z.of_nat n + (Z.of_nat (m - n)))%Z by lia.
  rewrite Z.pow_add_r by lia. rewrite Z.rem_mul_r by lia.
  rewrite Z.add_comm, (Z.mul_comm (256 ^ Z.of_nat n)), Z.div_add_l by lia.
  rewrite (Z.div_small (z mod _)) by (apply Z.mod_pos_bound; lia).
  rewrite Z.add_0_r.
  replace (Z.of_nat (m - n)) with (1 + Z.of_nat (m - n - 1))%Z by lia.
  rewrite Z.pow_add_r, Z.rem_mul_r by lia. change (256 ^ 1)%Z with 256%Z.
  rewrite (Z.mul_comm 256), Z.mod_add, Z.mod_mod by lia. done.
Qed.

Lemma to_from_be_bytes l :
  Forall is_byte l → to_be_bytes (length l) (from_be_bytes l) = l.
Proof.
  induction 1 as [|b l Hb Hl IH]; [done|].
  cbn [length to_be_bytes]. rewrite from_be_bytes_cons.
  pose proof (from_be_bytes_bound l Hl) as Hbd. unfold is_byte, in_u in Hb.
  change (2 ^ 8)%Z with 256%Z in Hb.
  f_equal.
  - rewrite Z.div_add_l, (Z.div_small (from_be_bytes l)), Z.add_0_r by lia.
    by apply Z.mod_small.
  - rewrite <-(to_be_bytes_mod _ (length l)) by lia.
    rewrite Z.add_comm, Z.mod_add, Z.mod_small by lia. done.
Qed.

(** Big-endian encoding preserves the order: arrays of the same length compare
    lexicographically as their values do. *)
Lemma lex_compare_from_be_bytes a b :
  length a = length b → Forall is_byte a → Forall is_byte b →
  lex_compare a b = (from_be_bytes a ?= from_be_bytes b)%Z.
Proof.
  revert b. induction a as [|x a IH]; intros [|y b] Hlen Ha Hb; try done.
  inversion Ha as [|?? Hx Ha']; inversion Hb as [|?? Hy Hb']; subst.
  simpl in Hlen. injection Hlen as Hlen.
  pose proof (from_be_bytes_bound a Ha'). pose proof (from_be_bytes_bound b Hb').
  cbn [lex_compare]. rewrite !from_be_bytes_cons, <-Hlen in *.
  set (P := (256 ^ Z.of_nat (length a))%Z) in *.
  destruct (Z.compare_spec x y) as [->|Hlt|Hgt].
  - rewrite (IH b) by done. destruct (Z.compare_spec (from_be_bytes a) (from_be_bytes b)).
    + symmetry. apply Z.compare_eq_iff. lia.
    + symmetry. apply Z.compare_lt_iff. lia.
    + symmetry. apply Z.compare_gt_iff. lia.
  - symmetry. apply Z.compare_lt_iff. nia.
  - symmetry. apply Z.compare_gt_iff. nia.
Qed.

(** ** Lemmas on lists *)

Lemma NoDup_map_fst_filter {A B} (f : A * B → bool) (l : list (A * B)) :
  List.NoDup (fst <$> l) → List.NoDup (fst <$> List.filter f l).
Proof.
  rewrite <-!NoDup_ListNoDup. induction l as [|x l IH]; simpl; [done|].
  rewrite NoDup_cons. intros [Hn Hd]. destruct (f x); simpl; [|auto].
  apply NoDup_cons. split; [|auto]. intros (y & E & Hy)%list_elem_of_fmap. apply Hn.
  apply list_elem_of_fmap. exists y. split; [done|].
  apply list_elem_of_In, filter_In in Hy as [Hy _]. by apply list_elem_of_In.
Qed.

Lemma NoDup_fmap_ext {A B} (f g : A → B) (l : list A) :
  (∀ x, x ∈ l → g x = f x) → NoDup (f <$> l) → NoDup (g <$> l).
Proof. intros Hext Hnd. by rewrite (list_fmap_ext g f l); [|intros i x Hi; apply Hext, list_elem_of_lookup; eauto]. Qed.

Lemma position_Some {A} (f : A → bool) (l : list A) i :
  position f l = Some i ↔
  ∃ x, l !! i = Some x ∧ f x = true ∧ ∀ j y, (j < i)%nat → l !! j = Some y → f y = false.
Proof.
  revert i. induction l as [|a l IH]; intros i; simpl; [naive_solver|].
  destruct (f a) eqn:Hfa.
  - split; [intros [= <-]; exists a; split_and!; [done..|lia]|].
    intros (x & Hl & Hx & Hmin). destruct i as [|i]; [done|].
    specialize (Hmin O a ltac:(lia) eq_refl). congruence.
  - rewrite fmap_Some. split.
    + intros (k & Hk & ->). apply IH in Hk as (x & Hl & Hx & Hmin). exists x.
      split_and!; [done..|]. intros [|j] y Hj Hy; simpl in Hy; [congruence|]. eapply Hmin; [|done]. lia.
    + intros (x & Hl & Hx & Hmin). destruct i as [|i]; simpl in Hl; [congruence|]. exists i. split; [|done].
      apply IH. exists x. split_and!; [done..|]. intros j y Hj Hy.
      apply (Hmin (S j)); [lia|done].
Qed.

Lemma position_is_Some {A} (f : A → bool) (l : list A) :
  is_Some (position f l) ↔ ∃ x, x ∈ l ∧ f x = true.
Proof.
  induction l as [|a l IH]; simpl.
  - split; [intros [? ?]; done|]. intros (x & Hx & _). by apply not_elem_of_nil in Hx.
  - destruct (f a) eqn:Hfa.
    + split; [|by eexists]. intros _. exists a. split; [apply list_elem_of_here|done].
    + rewrite fmap_is_Some, IH. split.
      * intros (x & Hx & ?). exists x. split; [by apply list_elem_of_further|done].
      * intros (x & [->|Hx]%elem_of_cons & ?); [congruence|eauto].
Qed.

(** Slices of a concatenation of blocks of one length are the blocks. *)
Lemma length_concat_blocks {A} n (bs : list (list A)) :
  Forall (λ b, length b = n) bs → length (concat bs) = (length bs * n)%nat.
Proof. induction 1; simpl; [done|]. rewrite length_app. lia. Qed.

Lemma slice_concat_block {A} n i (bs : list (list A)) b rest :
  Forall (λ b, length b = n) bs → bs !! i = Some b → slice (i * n) n (concat bs ++ rest) = b.
Proof.
  intros Hbs. revert i. induction Hbs as [|a bs Ha Hbs IH]; intros i Hi; [done|].
  destruct i as [|i]; simplify_eq/=; unfold slice in *.
  - rewrite drop_0, <-app_assoc. by rewrite take_app_length.
  - rewrite <-app_assoc, <-drop_drop, drop_app_length. by apply IH.
Qed.

Lemma slice_concat_out {A} n i (bs : list (list A)) rest :
  (0 < n)%nat → Forall (λ b, length b = n) bs → (i < length bs)%nat →
  ∃ b, bs !! i = Some b ∧ slice (i * n) n (concat bs ++ rest) = b.
Proof.
  intros Hn Hbs Hi. apply lookup_lt_is_Some in Hi as [b Hb]. exists b. split; [done|].
  by apply slice_concat_block.
Qed.

Lemma chunks_fuel_concat {A} n fuel (bs : list (list A)) :
  (0 < n)%nat → Forall (λ b, length b = n) bs → (length bs <= fuel)%nat →
  chunks_fuel fuel n (concat bs) = bs.
Proof.
  intros Hn Hbs. revert fuel. induction Hbs as [|b bs Hb Hbs IH]; intros fuel Hf.
  { by destruct fuel. }
  destruct fuel as [|fuel]; simpl in Hf; [lia|].
  destruct b as [|x b]; simpl in Hb; [lia|]. simpl concat. cbn [chunks_fuel app].
  change (x :: b ++ concat bs) with ((x :: b) ++ concat bs).
  rewrite (take_app_length' (x :: b)), (drop_app_length' (x :: b)) by done.
  rewrite IH by lia. done.
Qed.

Lemma chunks_concat {A} n (bs : list (list A)) :
  (0 < n)%nat → Forall (λ b, length b = n) bs → chunks n (concat bs) = bs.
Proof.
  intros Hn Hbs. apply chunks_fuel_concat; [done..|].
  rewrite (length_concat_blocks n) by done. nia.
Qed.

Lemma elem_of_flat_map {A B} (f : A → list B) (l : list A) y :
  y ∈ flat_map f l ↔ ∃ x, x ∈ l ∧ y ∈ f x.
Proof.
  rewrite list_elem_of_In, in_flat_map. split; intros (x & Hx & Hy); exists x;
    by rewrite <-?list_elem_of_In in *.
Qed.

Lemma existsb_elem_of {A} (f : A → bool) (l : list A) :
  existsb f l = true ↔ ∃ x, x ∈ l ∧ f x = true.
Proof.
  rewrite existsb_exists. split; intros (x & Hx & Hf); exists x; by rewrite <-?list_elem_of_In in *.
Qed.

Lemma existsb_false {A} (f : A → bool) (l : list A) :
  existsb f l = false ↔ ∀ x, x ∈ l → f x = false.
Proof.
  rewrite <-not_true_iff_false, existsb_elem_of. split.
  - intros Hn x Hx. destruct (f x) eqn:E; [|done]. exfalso. eauto.
  - intros Hf (x & Hx & E). rewrite Hf in E by done. done.
Qed.

Lemma elem_of_filter_bool {A} (f : A → bool) (l : list A) x :
  x ∈ List.filter f l ↔ x ∈ l ∧ f x = true.
Proof. by rewrite !list_elem_of_In, filter_In. Qed.

(** ** Filters *)

Lemma filter_sublist {A} (f : A → bool) l : List.filter f l `sublist_of` l.
Proof. induction l as [|x l IH]; cbn; [done|]. destruct (f x); by constructor. Qed.

Lemma sorted_filter {A} (R : A → A → Prop) f (l : list A) : StronglySorted R l → StronglySorted R (List.filter f l).
Proof.
  induction 1 as [|x l _ IH Hall]; cbn; [constructor|]. destruct (f x); [|done]. constructor; [done|].
  rewrite Forall_forall in Hall |- *. intros y. rewrite list_elem_of_In, filter_In, <- list_elem_of_In. intros [? _]. auto.
Qed.
