(* ===== verification/Hlc.v ===== *)
(** * Hybrid logical clock (crates/events/src/hlc.rs)

    The clock that stamps every event of a node.  [Hlc]'s mutex makes [tick], [receive],
    [seed_from_history] and [get] atomic steps on [HlcInner]; the physical clock is read
    before the lock is taken, so a step takes an arbitrary reading.  The theorems: the
    16-byte packing is a bijection that preserves the order, every successful step returns a
    timestamp greater than all earlier ones (and than the received one), the drift limit is
    exactly [latest_admissible], and the two error paths leave the clock as it was. *)

From S2P Require Import Prelude.
Local Open Scope Z_scope.

Inductive HlcError :=
| InvalidLength (expected got : nat)
| ClockError
| DriftExceeded (remote_ts local_ts max_drift : Z)
| CounterOverflow (ts : Z).

(** ** Timestamps *)

Record HlcTimestamp := mkTs { ts : Z; counter : Z; node : Z }.

Global Instance HlcTimestamp_eq_dec : EqDecision HlcTimestamp.
Proof. solve_decision. Defined.

(** The fields' machine types: [ts : u64], [counter : u32], [node : u32]. *)
Definition ts_wf (t : HlcTimestamp) : Prop :=
  in_u 64 (ts t) ∧ in_u 32 (counter t) ∧ in_u 32 (node t).

Definition pack (t : HlcTimestamp) : list Z :=
  to_be_bytes 8 (ts t) ++ to_be_bytes 4 (counter t) ++ to_be_bytes 4 (node t).

Definition unpack (bytes : list Z) : HlcTimestamp :=
  {| ts := from_be_bytes (take 8 bytes);
     counter := from_be_bytes (take 4 (drop 8 bytes));
     node := from_be_bytes (take 4 (drop 12 bytes)) |}.

Definition to_u128 (t : HlcTimestamp) : Z := from_be_bytes (pack t).
Definition from_u128 (n : Z) : HlcTimestamp := unpack (to_be_bytes 16 n).
Definition wall_time (n : Z) : Z := ts (from_u128 n).

Definition unpack_slice (bytes : list Z) : result HlcTimestamp HlcError :=
  if negb (length bytes =? 16)%nat
  then Err (InvalidLength 16 (length bytes))
  else Ok (unpack bytes).

(** [Ordering::then]. *)
Definition then_cmp (a b : comparison) : comparison :=
  match a with Eq => b | _ => a end.

Definition cmp (a b : HlcTimestamp) : comparison :=
  then_cmp (then_cmp (ts a ?= ts b) (counter a ?= counter b)) (node a ?= node b).

Definition ts_lt (a b : HlcTimestamp) : Prop := cmp a b = Lt.

(** ** The clock *)

Record HlcInner := mkInner { inner_ts : Z; inner_counter : Z }.

Record Hlc := mkHlc { inner : HlcInner; hlc_node : Z; max_drift : Z }.

Definition DEFAULT_MAX_DRIFT : Z := 5 * 60 * 1000000.

Definition new (n : Z) : Hlc :=
  {| inner := {| inner_ts := 0; inner_counter := 0 |};
     hlc_node := n; max_drift := DEFAULT_MAX_DRIFT |}.

Definition with_state (t c n : Z) : Hlc :=
  {| inner := {| inner_ts := t; inner_counter := c |};
     hlc_node := n; max_drift := DEFAULT_MAX_DRIFT |}.

Definition with_max_drift (h : Hlc) (d : Z) : Hlc :=
  {| inner := inner h; hlc_node := hlc_node h; max_drift := d |}.

Definition set_inner (h : Hlc) (t c : Z) : Hlc :=
  {| inner := {| inner_ts := t; inner_counter := c |};
     hlc_node := hlc_node h; max_drift := max_drift h |}.

(** What one reading of the physical clock gives: the injected test clock returns a [u64],
    the system clock the microseconds since the epoch, or nothing when it is before it. *)
Inductive clock_reading :=
| InjectedClock (t : Z)
| SystemClock (since_epoch_micros : option Z).

Definition system_now (since_epoch : option Z) : result Z HlcError :=
  match since_epoch with
  | Some micros => Ok (micros mod 2 ^ 64)
  | None => Err ClockError
  end.

Definition now_physical (r : clock_reading) : result Z HlcError :=
  match r with
  | InjectedClock t => Ok t
  | SystemClock d => system_now d
  end.

Definition get (h : Hlc) : HlcTimestamp :=
  {| ts := inner_ts (inner h); counter := inner_counter (inner h); node := hlc_node h |}.

(** Rust's derived order on the pair [(u64, u32)]. *)
Definition pair_gt (a b : Z * Z) : bool :=
  (b.1 <? a.1) || ((a.1 =? b.1) && (b.2 <? a.2)).

Definition seed_from_history (h : Hlc) (persisted : HlcTimestamp) : Hlc :=
  if pair_gt (ts persisted, counter persisted)
             (inner_ts (inner h), inner_counter (inner h))
  then set_inner h (ts persisted) (counter persisted)
  else h.

(** [tick] returns the new clock with the result: an error keeps the clock. *)
Definition tick (h : Hlc) (r : clock_reading) : Hlc * result HlcTimestamp HlcError :=
  match now_physical r with
  | Err e => (h, Err e)
  | Ok now =>
      let i := inner h in
      if inner_ts i <? now then
        let h' := set_inner h now 0 in (h', Ok (get h'))
      else
        match checked_add U32_MAX (inner_counter i) 1 with
        | Some c => let h' := set_inner h (inner_ts i) c in (h', Ok (get h'))
        | None =>
            match checked_add U64_MAX (inner_ts i) 1 with
            | Some t => let h' := set_inner h t 0 in (h', Ok (get h'))
            | None => (h, Err (CounterOverflow (inner_ts i)))
            end
        end
  end.

Definition latest_admissible (h : Hlc) (r : clock_reading) : result HlcTimestamp HlcError :=
  let? now := now_physical r in
  Ok {| ts := saturating_add U64_MAX now (max_drift h);
        counter := U32_MAX; node := U32_MAX |}.

Definition receive (h : Hlc) (r : clock_reading) (remote : HlcTimestamp)
    : Hlc * result HlcTimestamp HlcError :=
  match now_physical r with
  | Err e => (h, Err e)
  | Ok now =>
      if saturating_add U64_MAX now (max_drift h) <? ts remote then
        (h, Err (DriftExceeded (ts remote) now (max_drift h)))
      else
        let i := inner h in
        let max_ts := Z.max (Z.max (inner_ts i) (ts remote)) now in
        if (max_ts =? now) && negb (max_ts =? inner_ts i) && negb (max_ts =? ts remote) then
          let h' := set_inner h now 0 in (h', Ok (get h'))
        else
          let new_counter :=
            if (max_ts =? inner_ts i) && (max_ts =? ts remote)
            then Z.max (inner_counter i) (counter remote)
            else if max_ts =? inner_ts i then inner_counter i
            else counter remote in
          match checked_add U32_MAX new_counter 1 with
          | Some next_counter =>
              let h' := set_inner h max_ts next_counter in (h', Ok (get h'))
          | None =>
              match checked_add U64_MAX max_ts 1 with
              | Some t => let h' := set_inner h t 0 in (h', Ok (get h'))
              | None => (h, Err (CounterOverflow max_ts))
              end
          end
  end.

(** ** Steps of a clock shared by several threads *)

Inductive clock_op :=
| OpTick (r : clock_reading)
| OpReceive (r : clock_reading) (remote : HlcTimestamp)
| OpSeed (persisted : HlcTimestamp).

Definition reading_wf (r : clock_reading) : Prop :=
  match r with
  | InjectedClock t => in_u 64 t
  | SystemClock (Some d) => 0 <= d
  | SystemClock None => True
  end.

Definition op_wf (o : clock_op) : Prop :=
  match o with
  | OpTick r => reading_wf r
  | OpReceive r t => reading_wf r ∧ ts_wf t
  | OpSeed t => ts_wf t
  end.

(** One step: the new clock and the timestamp that was handed out, if any. *)
Definition step (h : Hlc) (o : clock_op) : Hlc * option HlcTimestamp :=
  match o with
  | OpTick r => let '(h', x) := tick h r in
      (h', match x with Ok t => Some t | Err _ => None end)
  | OpReceive r t => let '(h', x) := receive h r t in
      (h', match x with Ok t' => Some t' | Err _ => None end)
  | OpSeed t => (seed_from_history h t, None)
  end.

Fixpoint run (h : Hlc) (ops : list clock_op) : Hlc * list HlcTimestamp :=
  match ops with
  | [] => (h, [])
  | o :: ops' =>
      let '(h', out) := step h o in
      let '(h'', outs) := run h' ops' in
      (h'', match out with Some t => t :: outs | None => outs end)
  end.

(** The machine types of the clock's fields. *)
Definition hlc_wf (h : Hlc) : Prop :=
  in_u 64 (inner_ts (inner h)) ∧ in_u 32 (inner_counter (inner h)) ∧
  in_u 32 (hlc_node h) ∧ in_u 64 (max_drift h).

(** ** Ordering lemmas *)

Definition inner_lt (i j : HlcInner) : Prop :=
  inner_ts i < inner_ts j ∨ (inner_ts i = inner_ts j ∧ inner_counter i < inner_counter j).

Definition inner_le (i j : HlcInner) : Prop :=
  inner_ts i < inner_ts j ∨ (inner_ts i = inner_ts j ∧ inner_counter i <= inner_counter j).

Global Instance inner_lt_trans : Transitive inner_lt.
Proof. intros i j k. unfold inner_lt. lia. Qed.

Global Instance inner_le_preorder : PreOrder inner_le.
Proof. split; [intros i|intros i j k]; unfold inner_le; lia. Qed.

Lemma inner_le_lt_trans i j k : inner_le i j → inner_lt j k → inner_lt i k.
Proof. unfold inner_le, inner_lt. lia. Qed.

Lemma cmp_Lt_iff a b :
  cmp a b = Lt ↔
  ts a < ts b ∨ (ts a = ts b ∧
    (counter a < counter b ∨ (counter a = counter b ∧ node a < node b))).
Proof.
  unfold cmp, then_cmp.
  destruct (Z.compare_spec (ts a) (ts b)), (Z.compare_spec (counter a) (counter b)),
    (Z.compare_spec (node a) (node b)); split; (done || lia).
Qed.

Lemma cmp_swap a b : cmp b a = CompOpp (cmp a b).
Proof.
  unfold cmp, then_cmp.
  rewrite (Z.compare_antisym (ts a)), (Z.compare_antisym (counter a)),
    (Z.compare_antisym (node a)).
  by destruct (ts a ?= ts b), (counter a ?= counter b), (node a ?= node b).
Qed.

Global Instance ts_lt_trans : Transitive ts_lt.
Proof. intros a b c. unfold ts_lt. rewrite !cmp_Lt_iff. lia. Qed.

Lemma get_ts_lt h h' :
  inner_lt (inner h) (inner h') → ts_lt (get h) (get h').
Proof. unfold ts_lt. rewrite cmp_Lt_iff. unfold inner_lt, get; simpl. lia. Qed.

Lemma inner_lt_get_gt t h :
  inner_lt {| inner_ts := ts t; inner_counter := counter t |} (inner h) → ts_lt t (get h).
Proof. unfold ts_lt. rewrite cmp_Lt_iff. unfold inner_lt, get; simpl. lia. Qed.

(** ** Step lemmas *)

Lemma now_physical_bound r now :
  reading_wf r → now_physical r = Ok now → in_u 64 now.
Proof.
  destruct r as [t|[d|]]; simpl; intros H Heq; simplify_eq; [done|].
  unfold in_u. apply Z.mod_pos_bound. lia.
Qed.

Ltac hlc_unfold :=
  unfold hlc_wf, set_inner, get, inner_lt, inner_le, in_u, U32_MAX, U64_MAX,
    saturating_add in *; simpl in *.

Lemma set_inner_wf h t c :
  hlc_wf h → in_u 64 t → in_u 32 c → hlc_wf (set_inner h t c).
Proof. hlc_unfold. naive_solver. Qed.

Lemma tick_Ok h r h' t :
  hlc_wf h → reading_wf r → tick h r = (h', Ok t) →
  hlc_wf h' ∧ hlc_node h' = hlc_node h ∧ t = get h' ∧ inner_lt (inner h) (inner h').
Proof.
  intros Hwf Hr. unfold tick. destruct (now_physical r) as [now|e] eqn:Hn; [|done].
  pose proof (now_physical_bound _ _ Hr Hn) as Hnow.
  case_match; bool_to_prop; [|destruct (checked_add U32_MAX _ 1) as [c|] eqn:Hc;
    [|destruct (checked_add U64_MAX _ 1) as [u|] eqn:Hu]];
  intros ?; simplify_eq; rewrite ?checked_add_Some in *; hlc_unfold; naive_solver lia.
Qed.

Lemma tick_Err h r h' e : tick h r = (h', Err e) → h' = h.
Proof. unfold tick. intros H. repeat case_match; naive_solver. Qed.

Lemma receive_Err h r t h' e : receive h r t = (h', Err e) → h' = h.
Proof. unfold receive. intros H. repeat case_match; naive_solver. Qed.

Lemma receive_Ok h r remote h' t :
  hlc_wf h → reading_wf r → ts_wf remote → receive h r remote = (h', Ok t) →
  hlc_wf h' ∧ hlc_node h' = hlc_node h ∧ t = get h' ∧
  inner_lt (inner h) (inner h') ∧
  inner_lt {| inner_ts := ts remote; inner_counter := counter remote |} (inner h').
Proof.
  intros Hwf Hr Hrem. unfold receive. destruct (now_physical r) as [now|e] eqn:Hn; [|done].
  pose proof (now_physical_bound _ _ Hr Hn) as Hnow.
  case_match eqn:Hd; [done|]. set (m := Z.max _ now).
  set (c0 := if (_ && _)%bool then Z.max _ _ else _).
  assert (in_u 64 m) as Hm by (subst m; unfold ts_wf in Hrem; hlc_unfold; lia).
  assert (in_u 32 c0) as Hc0.
  { subst c0. unfold ts_wf in Hrem. hlc_unfold. repeat case_match; lia. }
  case_match eqn:Hg; [|destruct (checked_add U32_MAX c0 1) as [c|] eqn:Hc;
    [|destruct (checked_add U64_MAX m 1) as [u|] eqn:Hu; [|done]]];
  intros ?; simplify_eq; rewrite ?checked_add_Some, ?checked_add_None in *;
  bool_to_prop; hlc_unfold.
  - split_and!; naive_solver lia.
  - subst c0 m. repeat case_match; bool_to_prop; split_and!; naive_solver lia.
  - subst m. split_and!; naive_solver lia.
Qed.

Lemma seed_spec h p :
  hlc_wf h → ts_wf p →
  hlc_wf (seed_from_history h p) ∧ hlc_node (seed_from_history h p) = hlc_node h ∧
  inner_le (inner h) (inner (seed_from_history h p)) ∧
  inner_le {| inner_ts := ts p; inner_counter := counter p |}
           (inner (seed_from_history h p)).
Proof.
  intros Hh Hp. unfold seed_from_history, pair_gt; simpl. unfold ts_wf in Hp.
  case_match eqn:E; [|apply orb_false_iff in E as [? E]; apply andb_false_iff in E];
    [apply orb_true_iff in E as [?|E]|]; bool_to_prop;
    hlc_unfold; split_and!; naive_solver lia.
Qed.

Lemma step_spec h o h' out :
  hlc_wf h → op_wf o → step h o = (h', out) →
  hlc_wf h' ∧ hlc_node h' = hlc_node h ∧ inner_le (inner h) (inner h') ∧
  match out with
  | Some t => t = get h' ∧ inner_lt (inner h) (inner h')
  | None => True
  end.
Proof.
  intros Hh Ho. destruct o as [r|r rem|p]; simpl in *.
  - destruct (tick h r) as [h1 [t|e]] eqn:E; intros ?; simplify_eq.
    + apply tick_Ok in E as (?&?&?&Hlt); try done. split_and!; try done.
      unfold inner_lt, inner_le in *; lia.
    + apply tick_Err in E as ->. by split_and!.
  - destruct Ho as [Hr Hrem].
    destruct (receive h r rem) as [h1 [t|e]] eqn:E; intros ?; simplify_eq.
    + apply receive_Ok in E as (?&?&?&Hlt&_); try done. split_and!; try done.
      unfold inner_lt, inner_le in *; lia.
    + apply receive_Err in E as ->. by split_and!.
  - intros ?; simplify_eq. pose proof (seed_spec h p Hh Ho). naive_solver.
Qed.

Lemma run_lower_bound h ops h' outs :
  hlc_wf h → Forall op_wf ops → run h ops = (h', outs) →
  hlc_wf h' ∧ hlc_node h' = hlc_node h ∧ StronglySorted ts_lt outs ∧
  Forall (λ t, node t = hlc_node h ∧
    inner_lt (inner h) {| inner_ts := ts t; inner_counter := counter t |}) outs.
Proof.
  revert h h' outs. induction ops as [|o ops IH]; intros h h' outs Hh Hops Hrun.
  { simpl in Hrun. simplify_eq. split_and!; try done; constructor. }
  inversion Hops as [|?? Ho Hops']; subst. simpl in Hrun.
  destruct (step h o) as [h1 out] eqn:Hs. destruct (run h1 ops) as [h2 outs2] eqn:Hr2.
  apply step_spec in Hs as (Hh1 & Hn1 & Hle & Hout); try done.
  specialize (IH _ _ _ Hh1 Hops' Hr2) as (Hh2 & Hn2 & Hs2 & Hf2).
  simplify_eq. split_and!; try done; [congruence|..].
  - destruct out as [t|]; [|done]. constructor; [done|].
    destruct Hout as [-> _]. eapply Forall_impl; [exact Hf2|]. intros t' [Hnt Hlt].
    unfold ts_lt. rewrite cmp_Lt_iff. unfold inner_lt, get in *; simpl in *. lia.
  - assert (Forall (λ t, node t = hlc_node h ∧
      inner_lt (inner h) {| inner_ts := ts t; inner_counter := counter t |}) outs2).
    { eapply Forall_impl; [exact Hf2|]. intros t' [Hnt Hlt]. split; [congruence|].
      eapply inner_le_lt_trans; done. }
    destruct out as [t|]; [|done]. constructor; [|done].
    destruct Hout as [-> Hlt]. split; [done|]. unfold inner_lt, get in *; simpl in *. lia.
Qed.

Lemma pack_wf t : length (pack t) = 16%nat ∧ Forall is_byte (pack t).
Proof.
  unfold pack. split; [by rewrite !length_app, !length_to_be_bytes|].
  rewrite !Forall_app. split_and!; apply to_be_bytes_is_byte.
Qed.

Lemma from_to_be_bytes_small n z :
  0 <= z < 256 ^ Z.of_nat n → from_be_bytes (to_be_bytes n z) = z.
Proof. intros H. rewrite from_to_be_bytes by lia. by apply Z.mod_small. Qed.

Lemma to_u128_value t :
  ts_wf t → to_u128 t = ts t * 2 ^ 64 + counter t * 2 ^ 32 + node t.
Proof.
  intros (H1 & H2 & H3). unfold in_u in *. unfold to_u128, pack.
  rewrite !from_be_bytes_app, length_app, !length_to_be_bytes.
  rewrite !from_to_be_bytes_small by (simpl; lia). simpl; lia.
Qed.

Lemma unpack_pack t : ts_wf t → unpack (pack t) = t.
Proof.
  intros (H1 & H2 & H3). unfold in_u in *. unfold unpack, pack. destruct t as [a b c].
  simpl in H1, H2, H3. cbn [ts counter node].
  rewrite take_app_length' by (by rewrite length_to_be_bytes).
  rewrite drop_app_length' by (by rewrite length_to_be_bytes).
  rewrite take_app_length' by (by rewrite length_to_be_bytes).
  rewrite app_assoc, drop_app_length'
    by (rewrite length_app, !length_to_be_bytes; done).
  rewrite take_ge by (rewrite length_to_be_bytes; done).
  by rewrite !from_to_be_bytes_small by (simpl; lia).
Qed.

Lemma pack_unpack bs : length bs = 16%nat → Forall is_byte bs → pack (unpack bs) = bs.
Proof.
  intros Hlen Hb. unfold pack, unpack; cbn [ts counter node].
  assert (∀ k l, Forall is_byte l → length l = k →
    to_be_bytes k (from_be_bytes l) = l) as Hrt.
  { intros k l Hl <-. by apply to_from_be_bytes. }
  rewrite !Hrt; try (repeat (apply Forall_take || apply Forall_drop); exact Hb);
    try (rewrite ?length_take, ?length_drop; lia).
  rewrite (take_ge (drop 12 bs)) by (rewrite length_drop; lia).
  replace (drop 12 bs) with (drop 4 (drop 8 bs)) by (by rewrite drop_drop).
  by rewrite !take_drop.
Qed.

Lemma unpack_wf bs : length bs = 16%nat → Forall is_byte bs → ts_wf (unpack bs).
Proof.
  intros Hlen Hb. unfold ts_wf, unpack, in_u; cbn [ts counter node].
  assert (∀ k l, Forall is_byte l → length l = k →
    0 <= from_be_bytes l < 256 ^ Z.of_nat k) as Hbd.
  { intros k l Hl <-. by apply from_be_bytes_bound. }
  split; [apply (Hbd 8%nat)|split; [apply (Hbd 4%nat)|apply (Hbd 4%nat)]];
    try (repeat (apply Forall_take || apply Forall_drop); exact Hb);
    rewrite ?length_take, ?length_drop; lia.
Qed.

Lemma to_u128_compare a b :
  ts_wf a → ts_wf b → (to_u128 a ?= to_u128 b) = cmp a b.
Proof.
  intros Ha Hb. rewrite !to_u128_value by done. unfold ts_wf, in_u, cmp, then_cmp in *.
  destruct (Z.compare_spec (ts a) (ts b)), (Z.compare_spec (counter a) (counter b)),
    (Z.compare_spec (node a) (node b));
  (apply Z.compare_eq_iff || apply Z.compare_lt_iff || apply Z.compare_gt_iff); lia.
Qed.

Lemma to_u128_eq t : to_u128 t = from_be_bytes (pack t).
Proof. reflexivity. Qed.

Lemma from_to_u128 t : ts_wf t → from_u128 (to_u128 t) = t.
Proof.
  intros Ht. destruct (pack_wf t) as [Hl Hb]. pose proof (to_from_be_bytes _ Hb) as Hx.
  rewrite Hl in Hx. rewrite to_u128_eq. unfold from_u128. rewrite Hx. by apply unpack_pack.
Qed.

Lemma unpack_slice_pack t : ts_wf t → unpack_slice (pack t) = Ok t.
Proof.
  intros Ht. destruct (pack_wf t) as [Hl _]. unfold unpack_slice. rewrite Hl.
  rewrite unpack_pack by done. reflexivity.
Qed.

Lemma pack_lex_compare a b :
  ts_wf a → ts_wf b → lex_compare (pack a) (pack b) = cmp a b.
Proof.
  intros Ha Hb. destruct (pack_wf a) as [Hla Hba], (pack_wf b) as [Hlb Hbb].
  rewrite (lex_compare_from_be_bytes _ _ (eq_trans Hla (eq_sym Hlb)) Hba Hbb).
  rewrite <-!to_u128_eq. by apply to_u128_compare.
Qed.

(** ** Theorems *)

(** the 16-byte wire form of a timestamp is a bijection with the timestamps, and both
    the [u128] value and the byte array compare exactly as the timestamps do, so events
    sorted by their stored keys are sorted by their clocks. *)
Theorem pack_roundtrip_and_order (a b : HlcTimestamp) (bs : list Z) :
  ts_wf a → ts_wf b → length bs = 16%nat → Forall is_byte bs →
  from_u128 (to_u128 a) = a ∧ unpack_slice (pack a) = Ok a ∧
  pack (unpack bs) = bs ∧ ts_wf (unpack bs) ∧
  (to_u128 a ?= to_u128 b) = cmp a b ∧
  lex_compare (pack a) (pack b) = cmp a b.
Proof.
  intros Ha Hb Hlen Hbs.
  exact (conj (from_to_u128 _ Ha) (conj (unpack_slice_pack _ Ha)
    (conj (pack_unpack _ Hlen Hbs) (conj (unpack_wf _ Hlen Hbs)
    (conj (to_u128_compare _ _ Ha Hb) (pack_lex_compare _ _ Ha Hb)))))).
Qed.

(** C40: any sequence of atomic clock steps - ticks, receipts of remote timestamps and
    restarts from history, with arbitrary physical clock readings, failed steps included -
    hands out strictly increasing timestamps, all stamped with this node's identifier and
    all greater than the clock value at the start. *)
Theorem run_strictly_increasing (h : Hlc) (ops : list clock_op) (h' : Hlc)
    (outs : list HlcTimestamp) :
  hlc_wf h → Forall op_wf ops → run h ops = (h', outs) →
  hlc_wf h' ∧ StronglySorted ts_lt outs ∧
  Forall (λ t, ts_lt (get h) t ∧ node t = hlc_node h) outs.
Proof.
  intros Hh Hops Hrun. destruct (run_lower_bound _ _ _ _ Hh Hops Hrun) as (?&?&?&Hf).
  split_and!; try done. eapply Forall_impl; [exact Hf|]. intros t [Hn Hlt]. split; [|done].
  unfold ts_lt. rewrite cmp_Lt_iff. unfold inner_lt, get in *; simpl in *. lia.
Qed.

(** receiving a remote timestamp succeeds only when the remote time is at most the
    latest admissible one; the result is greater than the remote timestamp and than the clock
    before it, and at most one microsecond past the larger of the clock and the admissible
    limit.  It fails exactly when the remote time is past the limit, or when time and counter
    are both exhausted; a failure leaves the clock as it was. *)
Theorem receive_correct (h : Hlc) (r : clock_reading) (lim remote : HlcTimestamp) :
  hlc_wf h → ts_wf remote → reading_wf r → latest_admissible h r = Ok lim →
  match receive h r remote with
  | (h', Ok t) =>
      ts remote <= ts lim ∧ t = get h' ∧ hlc_wf h' ∧
      ts_lt remote t ∧ ts_lt (get h) t ∧
      ts t <= Z.max (inner_ts (inner h)) (ts lim) + 1
  | (h', Err (DriftExceeded rt _ d)) =>
      h' = h ∧ ts lim < ts remote ∧ rt = ts remote ∧ d = max_drift h
  | (h', Err (CounterOverflow t)) =>
      h' = h ∧ t = U64_MAX ∧ ts remote <= ts lim ∧
      (inner_ts (inner h) = U64_MAX ∨ ts remote = U64_MAX)
  | (_, Err _) => False
  end.
Proof.
  intros Hh Hrem Hr Hlim.
  destruct (receive h r remote) as [h' [t|e]] eqn:E.
  - pose proof E as E'. apply receive_Ok in E' as (Hh' & Hn & -> & Hlt & Hltr); try done.
    assert (ts remote <= ts lim ∧ inner_ts (inner h')
      <= Z.max (inner_ts (inner h)) (ts lim) + 1) as [? ?].
    { unfold receive, latest_admissible in *. destruct (now_physical r) as [now|e] eqn:Hn';
        simplify_eq/=. pose proof (now_physical_bound _ _ Hr Hn') as Hnow.
      branches E; rewrite ?checked_add_Some in *; bool_to_prop; hlc_unfold; lia. }
    split_and!; try done; [by apply inner_lt_get_gt|by apply get_ts_lt].
  - pose proof (receive_Err _ _ _ _ _ E) as ->.
    unfold receive, latest_admissible in *. destruct (now_physical r) as [now|e'] eqn:Hn';
      simplify_eq/=. pose proof (now_physical_bound _ _ Hr Hn') as Hnow.
    unfold ts_wf in Hrem.
    repeat (case_match; simplify_eq/=); rewrite ?checked_add_None in *; bool_to_prop;
      hlc_unfold; split_and!; try done; lia.
Qed.

Lemma receive_correct_witness :
  snd (receive (new 1) (InjectedClock 100) (mkTs 300000100 7 2))
    = Ok (mkTs 300000100 8 1) ∧
  match receive (new 1) (InjectedClock 100) (mkTs 300000101 7 2) with
  | (h', Err (DriftExceeded rt _ d)) => h' = new 1
  | _ => False
  end.
Proof.
  split.
  - pose proof (receive_correct (new 1) (InjectedClock 100) (mkTs 300000100 U32_MAX U32_MAX)
      (mkTs 300000100 7 2) ltac:(by vm_compute) ltac:(by vm_compute) ltac:(by vm_compute)
      eq_refl) as _. reflexivity.
  - pose proof (receive_correct (new 1) (InjectedClock 100) (mkTs 300000100 U32_MAX U32_MAX)
      (mkTs 300000101 7 2) ltac:(by vm_compute) ltac:(by vm_compute) ltac:(by vm_compute)
      eq_refl) as H. simpl in H. apply H.
Defined.

(** A tick returns a timestamp strictly after the clock and at least the physical time;
    it fails only when the physical clock fails or when both the time and the counter are at
    their maximum, and a failed tick leaves the clock as it was. *)
Theorem tick_correct (h : Hlc) (r : clock_reading) :
  hlc_wf h → reading_wf r →
  match tick h r with
  | (h', Ok t) =>
      t = get h' ∧ ts_lt (get h) t ∧ hlc_wf h' ∧
      (∀ now, now_physical r = Ok now → now <= ts t)
  | (h', Err ClockError) => h' = h ∧ r = SystemClock None
  | (h', Err (CounterOverflow t)) =>
      h' = h ∧ t = U64_MAX ∧ get h = mkTs U64_MAX U32_MAX (hlc_node h)
  | (_, Err _) => False
  end.
Proof.
  intros Hh Hr. destruct (tick h r) as [h' [t|e]] eqn:E.
  - pose proof E as E'. apply tick_Ok in E' as (? & ? & -> & ?); try done.
    split_and!; try done; [by apply get_ts_lt|]. intros now Hn.
    unfold tick in E. rewrite Hn in E. branches E; bool_to_prop;
      rewrite ?checked_add_Some in *; hlc_unfold; lia.
  - pose proof (tick_Err _ _ _ _ E) as ->. unfold tick in E.
    destruct (now_physical r) as [now|e'] eqn:Hn.
    + branches E. rewrite ?checked_add_None in *. hlc_unfold. split_and!; try done; [lia|].
      f_equal; lia.
    + simplify_eq. destruct r as [?|[?|]]; naive_solver.
Qed.

Lemma tick_correct_witness :
  fst (tick (with_state U64_MAX U32_MAX 3) (InjectedClock 5)) = with_state U64_MAX U32_MAX 3 ∧
  snd (tick (with_state 50 U32_MAX 3) (InjectedClock 5)) = Ok (mkTs 51 0 3).
Proof.
  split.
  - pose proof (tick_correct (with_state U64_MAX U32_MAX 3) (InjectedClock 5)
      ltac:(by vm_compute) ltac:(by vm_compute)) as H. simpl in H. apply H.
  - pose proof (tick_correct (with_state 50 U32_MAX 3) (InjectedClock 5)
      ltac:(by vm_compute) ltac:(by vm_compute)) as _. reflexivity.
Defined.

(** After a restart the clock is seeded from the greatest persisted timestamp; whatever
    the physical clock then says, the next tick that succeeds is strictly after the persisted
    timestamp, carries this node's identifier, and the seed never moves the clock back. *)
Theorem seed_then_tick_after_history (h : Hlc) (p : HlcTimestamp) (r : clock_reading)
    (h' : Hlc) (t : HlcTimestamp) :
  hlc_wf h → ts_wf p → reading_wf r → tick (seed_from_history h p) r = (h', Ok t) →
  ts_lt p t ∧ ts_lt (get h) t ∧ node t = hlc_node h.
Proof.
  intros Hh Hp Hr Ht. destruct (seed_spec h p Hh Hp) as (Hs & Hn & Hle & Hlep).
  apply tick_Ok in Ht as (? & Hn' & -> & Hlt); try done. split_and!.
  - apply inner_lt_get_gt. by eapply inner_le_lt_trans.
  - apply get_ts_lt. by eapply inner_le_lt_trans.
  - simpl. congruence.
Qed.

Lemma seed_then_tick_after_history_witness :
  ts_lt (mkTs 900 5 8) (mkTs 900 6 2) ∧
  snd (tick (seed_from_history (new 2) (mkTs 900 5 8)) (InjectedClock 10)) = Ok (mkTs 900 6 2).
Proof.
  split; [|reflexivity].
  apply (seed_then_tick_after_history (new 2) (mkTs 900 5 8) (InjectedClock 10)
    (mkHlc (mkInner 900 6) 2 DEFAULT_MAX_DRIFT) (mkTs 900 6 2)); by vm_compute.
Defined.

Lemma pack_roundtrip_and_order_witness :
  from_u128 (to_u128 (mkTs 1000 7 42)) = mkTs 1000 7 42 ∧
  lex_compare (pack (mkTs 1000 7 42)) (pack (mkTs 1000 8 1)) = Lt.
Proof.
  destruct (pack_roundtrip_and_order (mkTs 1000 7 42) (mkTs 1000 8 1)
    (pack (mkTs 1000 7 42))) as (H1 & _ & _ & _ & _ & H2).
  - by vm_compute.
  - by vm_compute.
  - reflexivity.
  - unfold pack. repeat (constructor; [by vm_compute|]). constructor.
  - by split.
Defined.

Lemma run_strictly_increasing_witness :
  StronglySorted ts_lt
    (snd (run (new 1) [OpTick (InjectedClock 5); OpReceive (InjectedClock 4) (mkTs 6 9 2);
                       OpTick (SystemClock None); OpTick (InjectedClock 6)])).
Proof.
  refine (proj1 (proj2 (run_strictly_increasing (new 1)
    [OpTick (InjectedClock 5); OpReceive (InjectedClock 4) (mkTs 6 9 2);
     OpTick (SystemClock None); OpTick (InjectedClock 6)] _ _ _ _ eq_refl))).
  - by vm_compute.
  - repeat (constructor; [by vm_compute|]). constructor.
Defined.
