(* ===== verification/Events.v ===== *)
(** * Event vocabulary of the slashing pipeline

    The identifiers, proof payloads and events that the accusation protocol and the
    commitment-consistency checker exchange (crates/events/src, crates/zk/config/src/circuit.rs,
    crates/committee/src/lib.rs), with the digests that are signed.  Hashing, ABI encoding and
    ECDSA belong to the alloy crates: they are the operations of the class [AlloyOps], and
    what the protocol relies on is [AlloyLaws]. *)

From S2P Require Import Prelude.
Local Open Scope Z_scope.

(** Addresses (20 bytes), hashes ([u8; 32]) and [U256] words are their big-endian values;
    [Bytes] and [ArcBytes] are lists of byte values. *)
Abbreviation Address := Z.
Abbreviation B256 := Z.
Abbreviation Bytes := (list Z).

(** ** Committee configurations (crates/committee/src/lib.rs) *)

Inductive CiphernodesCommitteeSize := Minimum | Micro | Small.

Global Instance CiphernodesCommitteeSize_eq_dec : EqDecision CiphernodesCommitteeSize.
Proof. solve_decision. Defined.

Record CiphernodesCommittee := mkCommittee { cc_n : nat; cc_h : nat; cc_threshold : nat }.

Definition values (size : CiphernodesCommitteeSize) : CiphernodesCommittee :=
  match size with
  | Minimum => mkCommittee 3 2 1
  | Micro => mkCommittee 9 5 4
  | Small => mkCommittee 19 14 9
  end.

Definition ALL_SIZES : list CiphernodesCommitteeSize := [Minimum; Micro; Small].

(** The [for size in Self::ALL { if .. return Ok(size) } bail!(..)] loops. *)
Definition from_threshold (threshold_m threshold_n : nat) : option CiphernodesCommitteeSize :=
  List.find (λ size, bool_decide
    ((cc_threshold (values size), cc_n (values size)) = (threshold_m, threshold_n))) ALL_SIZES.

Definition from_n_h (n h : nat) : option CiphernodesCommitteeSize :=
  List.find (λ size, bool_decide ((cc_n (values size), cc_h (values size)) = (n, h))) ALL_SIZES.

(** ** Identifiers and proofs *)

Record E3id := mkE3id { e3_num : string; chain_id : Z }.

Global Instance E3id_eq_dec : EqDecision E3id.
Proof. solve_decision. Defined.

Global Instance E3id_countable : Countable E3id :=
  inj_countable' (λ e, (e3_num e, chain_id e)) (λ p, mkE3id p.1 p.2)
    ltac:(by intros [? ?]).

Inductive CircuitName :=
| PkBfv | PkGeneration | SkShareComputation | ESmShareComputation | ShareEncryption
| DkgShareDecryption | PkAggregation | ThresholdShareDecryption | DecryptedSharesAggregation
| C3Fold | C3FoldKernel | C6Fold | C6FoldKernel | C2abFold | C3abFold | C4abFold
| NodeFold | NodesFold | NodesFoldKernel | DkgAggregator | DecryptionAggregator.

Global Instance CircuitName_eq_dec : EqDecision CircuitName.
Proof. solve_decision. Defined.

Inductive ProofType :=
| C0PkBfv | C1PkGeneration | C2aSkShareComputation | C2bESmShareComputation
| C3aSkShareEncryption | C3bESmShareEncryption | C4aSkShareDecryption
| C4bESmShareDecryption | C5PkAggregation | C6ThresholdShareDecryption
| C7DecryptedSharesAggregation.

Global Instance ProofType_eq_dec : EqDecision ProofType.
Proof. solve_decision. Defined.

(** [proof_type as u8]. *)
Definition proof_type_u8 (p : ProofType) : Z :=
  match p with
  | C0PkBfv => 0 | C1PkGeneration => 1 | C2aSkShareComputation => 2
  | C2bESmShareComputation => 3 | C3aSkShareEncryption => 4 | C3bESmShareEncryption => 5
  | C4aSkShareDecryption => 6 | C4bESmShareDecryption => 7 | C5PkAggregation => 8
  | C6ThresholdShareDecryption => 9 | C7DecryptedSharesAggregation => 10
  end.

Definition proof_type_of_u8 (z : Z) : ProofType :=
  match z with
  | 0 => C0PkBfv | 1 => C1PkGeneration | 2 => C2aSkShareComputation
  | 3 => C2bESmShareComputation | 4 => C3aSkShareEncryption | 5 => C3bESmShareEncryption
  | 6 => C4aSkShareDecryption | 7 => C4bESmShareDecryption | 8 => C5PkAggregation
  | 9 => C6ThresholdShareDecryption | _ => C7DecryptedSharesAggregation
  end.

Lemma proof_type_of_to_u8 p : proof_type_of_u8 (proof_type_u8 p) = p.
Proof. by destruct p. Qed.

Global Instance ProofType_countable : Countable ProofType :=
  inj_countable' proof_type_u8 proof_type_of_u8 proof_type_of_to_u8.

Definition circuit_names (p : ProofType) : list CircuitName :=
  match p with
  | C0PkBfv => [PkBfv]
  | C1PkGeneration => [PkGeneration]
  | C2aSkShareComputation => [SkShareComputation]
  | C2bESmShareComputation => [ESmShareComputation]
  | C3aSkShareEncryption => [ShareEncryption]
  | C3bESmShareEncryption => [ShareEncryption]
  | C4aSkShareDecryption | C4bESmShareDecryption => [DkgShareDecryption]
  | C6ThresholdShareDecryption => [ThresholdShareDecryption]
  | C7DecryptedSharesAggregation => [DecryptedSharesAggregation]
  | C5PkAggregation => [PkAggregation]
  end.

Record Proof_ := mkProof { circuit : CircuitName; data : Bytes; public_signals : Bytes }.

Global Instance Proof_eq_dec : EqDecision Proof_.
Proof. solve_decision. Defined.

Record ProofPayload := mkPayload
  { pp_e3_id : E3id; pp_proof_type : ProofType; pp_proof : Proof_ }.

Global Instance ProofPayload_eq_dec : EqDecision ProofPayload.
Proof. solve_decision. Defined.

Record SignedProofPayload := mkSigned { payload : ProofPayload; sp_signature : Bytes }.

Global Instance SignedProofPayload_eq_dec : EqDecision SignedProofPayload.
Proof. solve_decision. Defined.

(** ** Operations of the alloy crates *)

(** The Solidity values that the sources ABI-encode. *)
Inductive AbiValue :=
| AbiUint (z : Z)
| AbiAddress (a : Address)
| AbiBytes32 (h : B256)
| AbiBytes (b : Bytes)
| AbiUints (l : list Z)
| AbiBytes32s (l : list B256).

Class AlloyOps := {
  keccak256 : Bytes → B256;
  abi_encode : list AbiValue → Bytes;
  abi_encode_packed : list AbiValue → Bytes;
  (** [U256::from_str_radix(s, 10)] *)
  u256_from_decimal : string → option Z;
  PrivateKeySigner : Type;
  signer_address : PrivateKeySigner → Address;
  sign_message_sync : PrivateKeySigner → Bytes → option Bytes;
  sign_hash_sync : PrivateKeySigner → B256 → option Bytes;
  (** [Signature::try_from] followed by the recovery; [None] when either fails *)
  recover_address_from_msg : Bytes → Bytes → option Address;
  recover_address_from_prehash : Bytes → B256 → option Address;
}.

(** A signature made by a key recovers to the address of that key. *)
Class AlloyLaws `{AlloyOps} := {
  recover_sign_hash : ∀ k h sig,
    sign_hash_sync k h = Some sig →
    recover_address_from_prehash sig h = Some (signer_address k);
  recover_sign_message : ∀ k m sig,
    sign_message_sync k m = Some sig →
    recover_address_from_msg sig m = Some (signer_address k);
}.

(** The bytes of a string literal. *)
Definition str_bytes (s : string) : Bytes :=
  (λ a, Z.of_N (Ascii.N_of_ascii a)) <$> String.list_ascii_of_string s.

(** A [[u8; 32]] as bytes. *)
Definition b256_bytes (h : B256) : Bytes := to_be_bytes 32 h.

Section Digests.
Context `{AlloyOps}.

Definition typehash : B256 :=
  keccak256 (str_bytes "ProofPayload(uint256 chainId,uint256 e3Id,uint256 proofType,bytes zkProof,bytes publicSignals)").

(** [ProofPayload::digest]: [None] when the E3 id is not a decimal [U256]. *)
Definition digest (p : ProofPayload) : option B256 :=
  e3 ← u256_from_decimal (e3_num (pp_e3_id p));
  Some (keccak256 (abi_encode
    [AbiBytes32 typehash; AbiUint (chain_id (pp_e3_id p)); AbiUint e3;
     AbiUint (proof_type_u8 (pp_proof_type p));
     AbiBytes32 (keccak256 (data (pp_proof p)));
     AbiBytes32 (keccak256 (public_signals (pp_proof p)))])).

(** [SignedProofPayload::sign]. *)
Definition sign_payload (p : ProofPayload) (signer : PrivateKeySigner)
    : option SignedProofPayload :=
  d ← digest p;
  sig ← sign_message_sync signer (b256_bytes d);
  Some {| payload := p; sp_signature := sig |}.

(** [SignedProofPayload::recover_address]. *)
Definition recover_address (sp : SignedProofPayload) : option Address :=
  d ← digest (payload sp);
  recover_address_from_msg (sp_signature sp) (b256_bytes d).

Definition verify_address (sp : SignedProofPayload) (expected : Address) : option bool :=
  recovered ← recover_address sp; Some (bool_decide (recovered = expected)).

(** [(Bytes(proof.data), Bytes(public_signals)).abi_encode()], the evidence preimage. *)
Definition evidence_of (d ps : Bytes) : Bytes := abi_encode [AbiBytes d; AbiBytes ps].

End Digests.

(** ** Events *)

Record ProofVerificationFailed := mkPVF {
  pvf_e3_id : E3id; pvf_accused_party_id : Z; pvf_accused_address : Address;
  pvf_proof_type : ProofType; pvf_data_hash : B256; pvf_signed_payload : SignedProofPayload }.

Record ProofVerificationPassed := mkPVP {
  pvp_e3_id : E3id; pvp_party_id : Z; pvp_address : Address; pvp_proof_type : ProofType;
  pvp_data_hash : B256; pvp_public_signals : Bytes; pvp_proof_data : Bytes }.

Record CommitmentConsistencyViolation := mkCCV {
  ccv_e3_id : E3id; ccv_accused_party_id : Z; ccv_accused_address : Address;
  ccv_proof_type : ProofType; ccv_data_hash : B256; ccv_evidence : Bytes }.

Record CommitteeMemberExpelled := mkExpelled {
  cme_e3_id : E3id; cme_node : Address; cme_reason : B256;
  cme_active_count_after : Z; cme_party_id : option Z }.

Record ProofFailureAccusation := mkAccusation {
  pfa_e3_id : E3id; accuser : Address; accused : Address; accused_party_id : Z;
  pfa_proof_type : ProofType; pfa_data_hash : B256; pfa_issued_at : Z; pfa_deadline : Z;
  signed_payload : option SignedProofPayload; pfa_signature : Bytes }.

Global Instance ProofFailureAccusation_eq_dec : EqDecision ProofFailureAccusation.
Proof. solve_decision. Defined.

Record AccusationVote := mkVote {
  v_e3_id : E3id; accusation_id : B256; voter : Address; v_data_hash : B256;
  v_issued_at : Z; v_deadline : Z; v_signature : Bytes }.

Global Instance AccusationVote_eq_dec : EqDecision AccusationVote.
Proof. solve_decision. Defined.

Inductive AccusationOutcome := AccusedFaulted | Equivocation | Inconclusive.

Global Instance AccusationOutcome_eq_dec : EqDecision AccusationOutcome.
Proof. solve_decision. Defined.

Record AccusationQuorumReached := mkQuorum {
  q_e3_id : E3id; q_accuser : Address; q_accused : Address; q_proof_type : ProofType;
  q_votes_for : list AccusationVote; q_outcome : AccusationOutcome; q_evidence : Bytes }.

(** ** Lemmas *)

Lemma proof_type_u8_inj p q : proof_type_u8 p = proof_type_u8 q → p = q.
Proof. intros H. by rewrite <-(proof_type_of_to_u8 p), H, proof_type_of_to_u8. Qed.

Section DigestLemmas.
Context `{AlloyLaws}.

Lemma recover_sign_payload p k sp :
  sign_payload p k = Some sp → payload sp = p ∧ recover_address sp = Some (signer_address k).
Proof.
  unfold sign_payload, recover_address. intros Hs.
  destruct (digest p) as [d|] eqn:Hd; simpl in Hs; [|done].
  destruct (sign_message_sync k (b256_bytes d)) as [sig|] eqn:Hsig; simpl in Hs; simplify_eq.
  simpl. rewrite Hd. simpl. split; [done|]. by apply recover_sign_message.
Qed.

End DigestLemmas.

(** ** Theorems *)

(** The honest quorum, the size and the threshold of every supported committee identify
    it - the two reverse lookups return exactly the configuration they were given and fail on
    every other pair - and in each configuration at least [T + 1] of the [N] members are
    required to be honest, with [T] a minority. *)
Theorem committee_lookup_exact (size : CiphernodesCommitteeSize) (a b : nat) :
  from_threshold (cc_threshold (values size)) (cc_n (values size)) = Some size ∧
  from_n_h (cc_n (values size)) (cc_h (values size)) = Some size ∧
  (from_threshold a b = Some size ↔ (cc_threshold (values size), cc_n (values size)) = (a, b)) ∧
  (from_n_h a b = Some size ↔ (cc_n (values size), cc_h (values size)) = (a, b)) ∧
  (cc_threshold (values size) < cc_h (values size) ≤ cc_n (values size))%nat ∧
  (2 * cc_threshold (values size) < cc_n (values size))%nat.
Proof.
  unfold from_threshold, from_n_h, ALL_SIZES.
  destruct size; simpl; split_and!; try done; try lia; try (split; intros Heq);
    repeat (case_bool_decide; simplify_eq/=); try done; naive_solver.
Qed.

(** A proof payload signed with a node's key recovers to that node's address, so
    [verify_address] accepts the signer and rejects every other address. *)
Theorem signed_payload_recovers `{AlloyLaws} (p : ProofPayload) (k : PrivateKeySigner)
    (sp : SignedProofPayload) (expected : Address) :
  sign_payload p k = Some sp →
  payload sp = p ∧ recover_address sp = Some (signer_address k) ∧
  verify_address sp expected = Some (bool_decide (signer_address k = expected)).
Proof.
  intros Hs. apply recover_sign_payload in Hs as [Hp Hr].
  unfold verify_address. rewrite Hr. done.
Qed.
