(* ===== verification/AlloyExample.v ===== *)
(** * A concrete instance of the cryptographic operations

    The theorems about signatures take [AlloyOps] and [AlloyLaws] as parameters.  This file
    instantiates them with small computable functions, so that the hypotheses are seen to be
    satisfiable and the witnesses can be evaluated: a key is its address, a signature is the
    key followed by what was signed, and the hash is a polynomial hash. *)

From S2P Require Import Prelude Events.
Local Open Scope Z_scope.

Definition ex_keccak (bs : list Z) : Z :=
  foldl (λ acc b, (acc * 1000003 + b + 7) mod (2 ^ 61 - 1)) 5381 bs.

Definition ex_abi_value (v : AbiValue) : list Z :=
  match v with
  | AbiUint z => [1; z]
  | AbiAddress a => [2; a]
  | AbiBytes32 h => [3; h]
  | AbiBytes b => 4 :: Z.of_nat (length b) :: b
  | AbiUints l => 5 :: Z.of_nat (length l) :: l
  | AbiBytes32s l => 6 :: Z.of_nat (length l) :: l
  end.

Definition ex_decimal (s : string) : option Z :=
  foldl (λ acc c, z ← acc;
      let d := Z.of_N (Ascii.N_of_ascii c) - 48 in
      if (0 <=? d) && (d <=? 9) then Some (10 * z + d) else None)
    (Some 0) (String.list_ascii_of_string s).

#[export] Instance ex_alloy : AlloyOps := {
  keccak256 := ex_keccak;
  abi_encode := mbind ex_abi_value;
  abi_encode_packed := mbind ex_abi_value;
  u256_from_decimal := ex_decimal;
  PrivateKeySigner := Z;
  signer_address := id;
  sign_message_sync := λ k m, Some (k :: m);
  sign_hash_sync := λ k h, Some [k; h];
  recover_address_from_msg := λ sg m,
    match sg with k :: m' => if bool_decide (m' = m) then Some k else None | [] => None end;
  recover_address_from_prehash := λ sg h,
    match sg with [k; h'] => if h' =? h then Some k else None | _ => None end;
}.

#[export] Instance ex_alloy_laws : AlloyLaws.
Proof.
  constructor; simpl; intros k h sg Hs; simplify_eq.
  - by rewrite Z.eqb_refl.
  - by rewrite bool_decide_eq_true_2.
Qed.

Definition ex_key (k : Z) : @PrivateKeySigner ex_alloy := k.

(** A payload signed by its prover, with the example keys. *)
Definition ex_payload (e : E3id) (pt : ProofType) (c : CircuitName) (d ps : Bytes) : ProofPayload :=
  {| pp_e3_id := e; pp_proof_type := pt;
     pp_proof := {| circuit := c; data := d; public_signals := ps |} |}.

Lemma signed_payload_recovers_witness :
  ∃ sp, sign_payload (ex_payload (mkE3id "7" 1) C0PkBfv PkBfv [1; 2] [3]) (ex_key 77)
          = Some sp ∧
        recover_address sp = Some 77 ∧ verify_address sp 78 = Some false.
Proof.
  eexists. split; [reflexivity|].
  split.
  - apply (signed_payload_recovers (ex_payload (mkE3id "7" 1) C0PkBfv PkBfv [1; 2] [3])
      (ex_key 77) _ 78). reflexivity.
  - apply (signed_payload_recovers (ex_payload (mkE3id "7" 1) C0PkBfv PkBfv [1; 2] [3])
      (ex_key 77) _ 78). reflexivity.
Defined.
