(* ===== verification/CommitmentLinks.v ===== *)
(** * Commitment links between the proofs of a DKG

    Model of the public-signal layouts (crates/zk/config/src/output_layout.rs and
    circuit.rs), of the [CommitmentLink] interface
    (crates/orchestration/slashing/src/commitment_consistency/link.rs) and of the twelve links
    that are registered by default (crates/zk/prover/src/commitment_links).

    A trait object is a record of its methods.  Public signals are byte strings; a field
    element is a string of 32 bytes. *)

From S2P Require Import Prelude Events.
Open Scope Z_scope.

(** ** Layouts (output_layout.rs) *)

Definition FIELD_BYTE_LEN : nat := 32.
Definition MAX_MSG_NON_ZERO_COEFFS : nat := 50.

Abbreviation FieldValue := Bytes.

(** An [OutputField] is its name. *)
Inductive CircuitOutputLayout :=
| OutputFixed (fields : list string)
| OutputNone
| OutputDynamic.

Inductive CircuitInputLayout :=
| InputFixed (fields : list string)
| InputNone.

Definition output_field_count (l : CircuitOutputLayout) : option nat :=
  match l with
  | OutputFixed fields => Some (length fields)
  | OutputNone => Some O
  | OutputDynamic => None
  end.

Definition input_field_count (l : CircuitInputLayout) : option nat :=
  match l with InputFixed fields => Some (length fields) | InputNone => Some O end.

(** Outputs are indexed from the tail of the signals. *)
Definition extract_output (l : CircuitOutputLayout) (signals : Bytes) (name : string)
  : option Bytes :=
  match l with
  | OutputFixed fields =>
      match position (λ f, bool_decide (f = name)) fields with
      | None => None
      | Some idx =>
          let total := (length fields * FIELD_BYTE_LEN)%nat in
          if (length signals <? total)%nat then None
          else
            let start := (length signals - total)%nat in
            Some (slice (start + idx * FIELD_BYTE_LEN) FIELD_BYTE_LEN signals)
      end
  | _ => None
  end.

(** Inputs are indexed from the head. *)
Definition extract_input (l : CircuitInputLayout) (signals : Bytes) (name : string)
  : option Bytes :=
  match l with
  | InputFixed fields =>
      match position (λ f, bool_decide (f = name)) fields with
      | None => None
      | Some idx =>
          let offset := (idx * FIELD_BYTE_LEN)%nat in
          if (length signals <? offset + FIELD_BYTE_LEN)%nat then None
          else Some (slice offset FIELD_BYTE_LEN signals)
      end
  | InputNone => None
  end.

Definition THRESHOLD_SHARE_DECRYPTION_INPUTS : list string :=
  ["expected_sk_commitment"; "expected_e_sm_commitment"; "ct_commitment"; "domain_hi";
   "domain_lo"]%string.
Definition SHARE_ENCRYPTION_OUTPUTS : list string := ["ct_commitment"]%string.
Definition PK_BFV_OUTPUTS : list string := ["pk_commitment"]%string.
Definition PK_GENERATION_OUTPUTS : list string :=
  ["sk_commitment"; "pk_commitment"; "e_sm_commitment"]%string.
Definition DKG_SHARE_DECRYPTION_OUTPUTS : list string := ["commitment"]%string.
Definition PK_AGGREGATION_OUTPUTS : list string := ["commitment"]%string.
Definition THRESHOLD_SHARE_DECRYPTION_OUTPUTS : list string := ["d_commitment"]%string.
Definition SHARE_ENCRYPTION_INPUTS : list string :=
  ["expected_pk_commitment"; "expected_message_commitment"]%string.

(** [CircuitName::output_layout] and [CircuitName::input_layout]. *)
Definition output_layout (c : CircuitName) : CircuitOutputLayout :=
  match c with
  | PkBfv => OutputFixed PK_BFV_OUTPUTS
  | PkGeneration => OutputFixed PK_GENERATION_OUTPUTS
  | SkShareComputation | ESmShareComputation => OutputDynamic
  | DkgShareDecryption => OutputFixed DKG_SHARE_DECRYPTION_OUTPUTS
  | PkAggregation => OutputFixed PK_AGGREGATION_OUTPUTS
  | ThresholdShareDecryption => OutputFixed THRESHOLD_SHARE_DECRYPTION_OUTPUTS
  | ShareEncryption => OutputFixed SHARE_ENCRYPTION_OUTPUTS
  | DecryptedSharesAggregation => OutputNone
  | C3Fold | C3FoldKernel | C6Fold | C6FoldKernel | C2abFold | C3abFold | C4abFold
  | NodeFold | NodesFold | NodesFoldKernel | DkgAggregator | DecryptionAggregator => OutputNone
  end.

Definition input_layout (c : CircuitName) : CircuitInputLayout :=
  match c with
  | ShareEncryption => InputFixed SHARE_ENCRYPTION_INPUTS
  | ThresholdShareDecryption => InputFixed THRESHOLD_SHARE_DECRYPTION_INPUTS
  | _ => InputNone
  end.

(** ** The link interface (link.rs) *)

Inductive LinkScope := SameParty | CrossParty | SourceMustExistInTargets.

Global Instance LinkScope_eq_dec : EqDecision LinkScope.
Proof. solve_decision. Defined.

Record CommitmentLink := mkLink {
  link_name : string;
  source_proof_type : ProofType;
  target_proof_type : ProofType;
  scope : LinkScope;
  extract_source_values : Bytes → list FieldValue;
  check_consistency : list FieldValue → Bytes → Z → Z → bool }.

(** The trait's default [check_consistency]: party ids are not looked at. *)
Definition by_signals (check_signals : list FieldValue → Bytes → bool)
    (source_values : list FieldValue) (target : Bytes) (_ _ : Z) : bool :=
  check_signals source_values target.

Definition of_field (o : option Bytes) : list FieldValue :=
  match o with Some bytes => [bytes] | None => [] end.

(** ** C3 to C0 (c0_to_c3.rs) *)

Definition extract_expected_pk_commitment (signals : Bytes) : list FieldValue :=
  of_field (extract_input (input_layout ShareEncryption) signals "expected_pk_commitment").

Definition check_pk_exists_in_c0 (source_values : list FieldValue) (target : Bytes) : bool :=
  match source_values with
  | [] => false
  | v :: _ =>
      match extract_output (output_layout PkBfv) target "pk_commitment" with
      | None => false
      | Some target_bytes => bool_decide (target_bytes = v)
      end
  end.

Definition C3aToC0PkCommitmentLink : CommitmentLink :=
  mkLink "C3a->C0 pk_commitment" C3aSkShareEncryption C0PkBfv SourceMustExistInTargets
    extract_expected_pk_commitment (by_signals check_pk_exists_in_c0).

Definition C3bToC0PkCommitmentLink : CommitmentLink :=
  mkLink "C3b->C0 pk_commitment" C3bESmShareEncryption C0PkBfv SourceMustExistInTargets
    extract_expected_pk_commitment (by_signals check_pk_exists_in_c0).

(** ** C1 to C2 (c1_to_c2.rs) *)

(** Both [check_signals] bodies. *)
Definition check_expected_secret (source_values : list FieldValue) (target : Bytes) : bool :=
  match source_values with
  | [] => false
  | v :: _ =>
      if (length target <? FIELD_BYTE_LEN)%nat then false
      else bool_decide (slice 0 FIELD_BYTE_LEN target = v)
  end.

Definition C1ToC2aSkCommitmentLink : CommitmentLink :=
  mkLink "C1->C2a sk_commitment" C1PkGeneration C2aSkShareComputation SameParty
    (λ signals, of_field (extract_output (output_layout PkGeneration) signals "sk_commitment"))
    (by_signals check_expected_secret).

Definition C1ToC2bESmCommitmentLink : CommitmentLink :=
  mkLink "C1->C2b e_sm_commitment" C1PkGeneration C2bESmShareComputation SameParty
    (λ signals, of_field (extract_output (output_layout PkGeneration) signals "e_sm_commitment"))
    (by_signals check_expected_secret).

(** The loop [for i in 0..n { if signals[i*32 .. i*32+32] == *v { return true; } } false]. *)
Definition in_first_fields (n : nat) (signals : Bytes) (v : FieldValue) : bool :=
  existsb (λ i, bool_decide (slice (i * FIELD_BYTE_LEN) FIELD_BYTE_LEN signals = v)) (seq 0 n).

(** ** C1 to C5 (c1_to_c5.rs) *)

Definition check_pk_in_c5 (source_values : list FieldValue) (target : Bytes) : bool :=
  match source_values with
  | [] => false
  | v :: _ =>
      let output_count := default 1%nat (output_field_count (output_layout PkAggregation)) in
      let total_fields := (length target / FIELD_BYTE_LEN)%nat in
      if (total_fields <=? output_count)%nat then false
      else in_first_fields (total_fields - output_count) target v
  end.

Definition C1ToC5PkCommitmentLink : CommitmentLink :=
  mkLink "C1->C5 pk_commitment" C1PkGeneration C5PkAggregation CrossParty
    (λ signals, of_field (extract_output (output_layout PkGeneration) signals "pk_commitment"))
    (by_signals check_pk_in_c5).

(** ** C3 to C2 (c2_to_c3.rs) *)

Definition extract_message_commitment (signals : Bytes) : list FieldValue :=
  of_field (extract_input (input_layout ShareEncryption) signals "expected_message_commitment").

(** A buffer that is its first half twice is cut to that half. *)
Definition deduplicate (signals : Bytes) : Bytes :=
  if (2 * FIELD_BYTE_LEN <=? length signals)%nat
     && (length signals mod (2 * FIELD_BYTE_LEN) =? 0)%nat
  then
    let half := (length signals / 2)%nat in
    if bool_decide (take half signals = drop half signals) then take half signals else signals
  else signals.

Definition commitment_in_c2_outputs (source_values : list FieldValue) (target : Bytes) : bool :=
  match source_values with
  | [] => false
  | expected :: _ =>
      let signals := deduplicate target in
      if (length signals <? 2 * FIELD_BYTE_LEN)%nat then false
      else existsb (λ chunk, bool_decide (chunk = expected))
             (chunks FIELD_BYTE_LEN (drop FIELD_BYTE_LEN signals))
  end.

Definition C3aToC2aShareEncryptionLink : CommitmentLink :=
  mkLink "C3a->C2a expected_message_commitment" C3aSkShareEncryption C2aSkShareComputation
    SameParty extract_message_commitment (by_signals commitment_in_c2_outputs).

Definition C3bToC2bShareEncryptionLink : CommitmentLink :=
  mkLink "C3b->C2b expected_message_commitment" C3bESmShareEncryption C2bESmShareComputation
    SameParty extract_message_commitment (by_signals commitment_in_c2_outputs).

(** ** C2 to C4 (c2_to_c4/mod.rs) *)

Definition extract_share_commitments (signals : Bytes) : list FieldValue :=
  if (length signals <? 2 * FIELD_BYTE_LEN)%nat then []
  else List.filter (λ chunk, (length chunk =? FIELD_BYTE_LEN)%nat)
         (chunks FIELD_BYTE_LEN (drop FIELD_BYTE_LEN signals)).

(** The products of party ids with [l] are exact here: [usize] holds them for every party id
    below [2^48] and [l] up to [2^10] (lemma [check_exact_indices_fit]). *)
Definition check_exact_l_commitments (l : nat) (source_values : list FieldValue)
    (target : Bytes) (src_party_id tgt_party_id : Z) : bool :=
  if (match source_values with [] => true | _ => false end) || (l =? 0)%nat then false
  else
    let tgt_idx := Z.to_nat tgt_party_id in
    let src_idx := Z.to_nat src_party_id in
    let c2_start := (tgt_idx * l)%nat in
    let c2_end := (c2_start + l)%nat in
    if (length source_values <? c2_end)%nat then false
    else
      let c2_block := slice c2_start l source_values in
      let c4_row_start := (src_idx * l * FIELD_BYTE_LEN)%nat in
      let c4_row_end := (c4_row_start + l * FIELD_BYTE_LEN)%nat in
      if (length target <? c4_row_end + FIELD_BYTE_LEN)%nat then false
      else
        forallb (λ '(i, expected),
            bool_decide (slice (c4_row_start + i * FIELD_BYTE_LEN) FIELD_BYTE_LEN target
                         = expected))
          (zip (seq 0 (length c2_block)) c2_block).

Definition C2aToC4aShareCommitmentLink (l : nat) : CommitmentLink :=
  mkLink "C2a->C4a share commitments" C2aSkShareComputation C4aSkShareDecryption
    SourceMustExistInTargets extract_share_commitments (check_exact_l_commitments l).

Definition C2bToC4bShareCommitmentLink (l : nat) : CommitmentLink :=
  mkLink "C2b->C4b share commitments" C2bESmShareComputation C4bESmShareDecryption
    SourceMustExistInTargets extract_share_commitments (check_exact_l_commitments l).

(** ** C6 to C7 (c6_to_c7.rs) *)

Definition check_d_in_c7 (source_values : list FieldValue) (target : Bytes) : bool :=
  match source_values with
  | [] => false
  | v :: _ =>
      if negb (length target mod FIELD_BYTE_LEN =? 0)%nat then false
      else
        let total_fields := (length target / FIELD_BYTE_LEN)%nat in
        if (total_fields <? MAX_MSG_NON_ZERO_COEFFS)%nat then false
        else
          let rem := (total_fields - MAX_MSG_NON_ZERO_COEFFS)%nat in
          if negb (rem mod 2 =? 0)%nat then false
          else if (rem / 2 =? 0)%nat then false
          else in_first_fields (rem / 2) target v
  end.

Definition C6ToC7DCommitmentLink : CommitmentLink :=
  mkLink "C6->C7 d_commitment" C6ThresholdShareDecryption C7DecryptedSharesAggregation CrossParty
    (λ signals,
       of_field (extract_output (output_layout ThresholdShareDecryption) signals "d_commitment"))
    (by_signals check_d_in_c7).

(** ** C4 to C6 (c4a_to_c6.rs, c4b_to_c6.rs) *)

Definition check_c6_input (name : string) (source_values : list FieldValue) (target : Bytes)
  : bool :=
  match source_values with
  | [] => false
  | v :: _ =>
      match extract_input (input_layout ThresholdShareDecryption) target name with
      | Some extracted => bool_decide (extracted = v)
      | None => false
      end
  end.

Definition C4aToC6SkCommitmentLink : CommitmentLink :=
  mkLink "C4a->C6 sk_commitment" C4aSkShareDecryption C6ThresholdShareDecryption SameParty
    (λ signals,
       of_field (extract_output (output_layout DkgShareDecryption) signals "commitment"))
    (by_signals (check_c6_input "expected_sk_commitment")).

Definition C4bToC6ESmCommitmentLink : CommitmentLink :=
  mkLink "C4b->C6 e_sm_commitment" C4bESmShareDecryption C6ThresholdShareDecryption SameParty
    (λ signals,
       of_field (extract_output (output_layout DkgShareDecryption) signals "commitment"))
    (by_signals (check_c6_input "expected_e_sm_commitment")).

(** [default_links] for a preset with [l] threshold moduli. *)
Definition default_links (l : nat) : list CommitmentLink :=
  [C3aToC0PkCommitmentLink; C3bToC0PkCommitmentLink; C1ToC2aSkCommitmentLink;
   C1ToC2bESmCommitmentLink; C1ToC5PkCommitmentLink; C3aToC2aShareEncryptionLink;
   C3bToC2bShareEncryptionLink; C2aToC4aShareCommitmentLink l; C2bToC4bShareCommitmentLink l;
   C6ToC7DCommitmentLink; C4aToC6SkCommitmentLink; C4bToC6ESmCommitmentLink].

(** ** Lemmas *)

Definition is_field (b : Bytes) : Prop := length b = FIELD_BYTE_LEN.

Lemma length_fields (fs : list Bytes) :
  Forall is_field fs → length (concat fs) = (length fs * FIELD_BYTE_LEN)%nat.
Proof. apply length_concat_blocks. Qed.

Lemma fields_count (fs : list Bytes) :
  Forall is_field fs → (length (concat fs) / FIELD_BYTE_LEN)%nat = length fs.
Proof. intros Hf. rewrite length_fields by done. by apply Nat.div_mul. Qed.

Lemma position_name (names : list string) i n :
  NoDup names → names !! i = Some n → position (λ f, bool_decide (f = n)) names = Some i.
Proof.
  intros Hnd Hi. apply position_Some. exists n. split_and!; [done|by rewrite bool_decide_eq_true_2|].
  intros j y Hj Hy. apply bool_decide_eq_false_2. intros ->.
  pose proof (NoDup_lookup _ _ _ _ Hnd Hi Hy). lia.
Qed.

(** A named output is found at its place in the tail, whatever precedes the outputs. *)
Lemma extract_output_field (names : list string) (ins : Bytes) (outs : list Bytes) i n v :
  NoDup names → Forall is_field outs → length outs = length names →
  names !! i = Some n → outs !! i = Some v →
  extract_output (OutputFixed names) (ins ++ concat outs) n = Some v.
Proof.
  intros Hnd Ho Hlen Hi Hv. unfold extract_output. rewrite (position_name _ i) by done.
  rewrite length_app, length_fields by done.
  destruct (Nat.ltb_spec (length ins + length outs * FIELD_BYTE_LEN)
    (length names * FIELD_BYTE_LEN)) as [?|_]; [rewrite Hlen in *; lia|].
  f_equal. rewrite Hlen, Nat.add_sub. unfold slice. rewrite <-drop_drop, drop_app_length.
  rewrite <-(app_nil_r (concat outs)). by apply (slice_concat_block FIELD_BYTE_LEN).
Qed.

(** A named input is found at its place in the head, whatever follows the inputs. *)
Lemma extract_input_field (names : list string) (ins : list Bytes) (rest : Bytes) i n v :
  NoDup names → Forall is_field ins → names !! i = Some n → ins !! i = Some v →
  extract_input (InputFixed names) (concat ins ++ rest) n = Some v.
Proof.
  intros Hnd Ho Hi Hv. unfold extract_input. rewrite (position_name _ i) by done.
  rewrite length_app, length_fields by done.
  pose proof (lookup_lt_Some _ _ _ Hv).
  destruct (Nat.ltb_spec (length ins * FIELD_BYTE_LEN + length rest)
    (i * FIELD_BYTE_LEN + FIELD_BYTE_LEN)) as [?|_]; [nia|].
  f_equal. by apply (slice_concat_block FIELD_BYTE_LEN).
Qed.

Lemma in_first_fields_spec n (fs : list Bytes) (rest : Bytes) v :
  Forall is_field fs → (n <= length fs)%nat →
  in_first_fields n (concat fs ++ rest) v = true ↔ v ∈ take n fs.
Proof.
  intros Hf Hn. unfold in_first_fields. rewrite existsb_exists, list_elem_of_lookup. split.
  - intros (i & Hi & Hv). apply in_seq in Hi. apply bool_decide_eq_true_1 in Hv.
    destruct (lookup_lt_is_Some_2 fs i) as [b Hb]; [lia|].
    rewrite (slice_concat_block FIELD_BYTE_LEN i fs b) in Hv by done. subst.
    exists i. rewrite lookup_take_lt by lia. done.
  - intros (i & Hi). apply lookup_take_Some in Hi as [Hi Hlt]. exists i. split.
    + apply in_seq. lia.
    + apply bool_decide_eq_true_2. by apply (slice_concat_block FIELD_BYTE_LEN).
Qed.

Lemma chunks_fields (fs : list Bytes) : Forall is_field fs → chunks FIELD_BYTE_LEN (concat fs) = fs.
Proof. intros Hf. apply chunks_concat; [unfold FIELD_BYTE_LEN; lia|done]. Qed.

Lemma concat_fields_inj (fs gs : list Bytes) :
  Forall is_field fs → Forall is_field gs → concat fs = concat gs → fs = gs.
Proof.
  intros Hf Hg E. apply (f_equal (chunks FIELD_BYTE_LEN)) in E.
  by rewrite !chunks_fields in E.
Qed.

Lemma drop_concat_fields m (fs : list Bytes) :
  Forall is_field fs → drop (m * FIELD_BYTE_LEN) (concat fs) = concat (drop m fs).
Proof.
  intros Hf. revert m. induction Hf as [|b fs Hb Hf IH]; intros m; [by simpl; rewrite !drop_nil|].
  destruct m as [|m]; [done|]. cbn [concat Nat.mul]. rewrite <-drop_drop.
  rewrite (drop_app_length' b) by done. by rewrite IH.
Qed.

Lemma take_concat_fields m (fs : list Bytes) :
  Forall is_field fs → take (m * FIELD_BYTE_LEN) (concat fs) = concat (take m fs).
Proof.
  intros Hf. revert m. induction Hf as [|b fs Hb Hf IH]; intros m; [by simpl; rewrite !take_nil|].
  destruct m as [|m]; [done|]. cbn [concat Nat.mul take].
  rewrite take_app, (take_ge b) by (rewrite Hb; lia).
  rewrite <-IH. do 2 f_equal. rewrite Hb. lia.
Qed.

Lemma existsb_elem (v : Bytes) (l : list Bytes) :
  existsb (λ c, bool_decide (c = v)) l = true ↔ v ∈ l.
Proof.
  rewrite existsb_exists, list_elem_of_In. split.
  - intros (x & Hx & E). by apply bool_decide_eq_true_1 in E as ->.
  - intros Hx. exists v. split; [done|]. by apply bool_decide_eq_true_2.
Qed.

Lemma Forall_is_field_filter (fs : list Bytes) :
  Forall is_field fs → List.filter (λ c, (length c =? FIELD_BYTE_LEN)%nat) fs = fs.
Proof.
  induction 1 as [|b fs Hb _ IH]; [done|]. cbn [List.filter].
  rewrite (proj2 (Nat.eqb_eq _ _) Hb). by rewrite IH.
Qed.

Lemma drop_first_field (b : Bytes) (s : Bytes) : is_field b → drop FIELD_BYTE_LEN (b ++ s) = s.
Proof. intros Hb. by apply drop_app_length'. Qed.

(** Share commitments are read back from a C2 buffer, the secret commitment left out. *)
Lemma extract_share_commitments_fields (secret : Bytes) (fs : list Bytes) :
  is_field secret → Forall is_field fs →
  extract_share_commitments (concat (secret :: fs)) = fs.
Proof.
  intros Hs Hf. unfold extract_share_commitments.
  rewrite (length_fields (secret :: fs)) by auto. cbn [length].
  destruct fs as [|b fs]; [done|].
  destruct (Nat.ltb_spec (S (length (b :: fs)) * FIELD_BYTE_LEN) (2 * FIELD_BYTE_LEN)) as [?|_];
    [simpl in *; nia|].
  cbn [concat]. rewrite drop_first_field by done. change (b ++ concat fs) with (concat (b :: fs)).
  rewrite chunks_fields by done. by apply Forall_is_field_filter.
Qed.

Lemma forallb_zip_slices (target : Bytes) (block : list Bytes) (start k : nat) :
  forallb (λ '(i, expected),
      bool_decide (slice (start + i * FIELD_BYTE_LEN) FIELD_BYTE_LEN target = expected))
    (zip (seq k (length block)) block) = true ↔
  ∀ i v, block !! i = Some v →
    slice (start + (k + i) * FIELD_BYTE_LEN) FIELD_BYTE_LEN target = v.
Proof.
  revert k. induction block as [|b block IH]; intros k.
  { split; [|done]. intros _ i v Hi. by rewrite lookup_nil in Hi. }
  cbn [length seq zip zip_with forallb]. rewrite andb_true_iff, IH, bool_decide_eq_true. split.
  - intros [E H] [|i] v Hi; simplify_eq/=; [by rewrite Nat.add_0_r|].
    rewrite <-(H i) by done. by rewrite Nat.add_succ_r.
  - intros H. split; [rewrite <-(H O b) by done; by rewrite Nat.add_0_r|].
    intros i v Hi. rewrite <-(H (S i) v) by done. by rewrite Nat.add_succ_r.
Qed.

Definition is_row (l : nat) (row : list FieldValue) : Prop := length row = l ∧ Forall is_field row.

Lemma is_row_lengths l rows : Forall (is_row l) rows → Forall (λ r, length r = l) rows.
Proof. intros H. eapply Forall_impl; [exact H|]. by intros r [? _]. Qed.

Lemma is_row_fields l rows : Forall (is_row l) rows → Forall is_field (concat rows).
Proof.
  induction 1 as [|r rows [_ Hr] _ IH]; simpl; [constructor|]. by apply Forall_app.
Qed.

(** Entry [i] of row [x] of a row-major matrix. *)
Lemma lookup_concat_rows l x i (rows : list (list FieldValue)) row :
  Forall (is_row l) rows → rows !! x = Some row → (i < l)%nat →
  concat rows !! (x * l + i)%nat = row !! i.
Proof.
  intros Hr Hx Hi.
  pose proof (slice_concat_block l x rows row [] (is_row_lengths _ _ Hr) Hx) as E.
  rewrite app_nil_r in E. rewrite <-E. unfold slice.
  by rewrite lookup_take_lt, lookup_drop by lia.
Qed.

(** The check compares row [r] of the C2 matrix with row [x] of the C4 matrix. *)
Lemma check_exact_rows l c2rows c4rows extra agg (x r : nat) :
  (0 < l)%nat → Forall (is_row l) c2rows → Forall (is_row l) c4rows → is_field agg →
  (extra = [] ∨ (r < length c2rows)%nat) →
  check_exact_l_commitments l (concat c2rows ++ extra) (concat (concat c4rows ++ [agg]))
    (Z.of_nat x) (Z.of_nat r) = true ↔
  ∃ row, c2rows !! r = Some row ∧ c4rows !! x = Some row.
Proof.
  intros Hl H2 H4 Ha He. unfold check_exact_l_commitments. rewrite !Nat2Z.id.
  assert (Forall is_field (concat c4rows ++ [agg])) as Hc4.
  { apply Forall_app. split; [by apply (is_row_fields l)|by constructor]. }
  pose proof (length_concat_blocks l c2rows (is_row_lengths _ _ H2)) as L2.
  pose proof (length_concat_blocks l c4rows (is_row_lengths _ _ H4)) as L4.
  rewrite (length_fields _ Hc4), !length_app, L2, L4. simpl (length [agg]).
  rewrite (proj2 (Nat.eqb_neq l 0)) by lia. rewrite orb_false_r.
  destruct (concat c2rows ++ extra) eqn:Ev.
  { apply app_eq_nil in Ev as [Ev ->]. rewrite Ev in L2. split; [done|].
    intros (row & Hr & _). apply lookup_lt_Some in Hr. simpl in L2. nia. }
  rewrite <-Ev.
  destruct (Nat.ltb_spec (length c2rows * l + length extra) (r * l + l)) as [Hs|Hs].
  { split; [done|]. intros (row & Hr & _). apply lookup_lt_Some in Hr. nia. }
  assert (r < length c2rows)%nat as Hr by (destruct He as [->|?]; simpl in *; nia).
  destruct (Nat.ltb_spec ((length c4rows * l + 1) * FIELD_BYTE_LEN)
    (x * l * FIELD_BYTE_LEN + l * FIELD_BYTE_LEN + FIELD_BYTE_LEN)) as [Ht|Ht].
  { split; [done|]. intros (row & _ & Hx). apply lookup_lt_Some in Hx.
    unfold FIELD_BYTE_LEN in Ht. nia. }
  assert (x < length c4rows)%nat as Hx by (unfold FIELD_BYTE_LEN in Ht; nia).
  apply lookup_lt_is_Some in Hr as [row2 Hr], Hx as [row4 Hx].
  rewrite (slice_concat_block l r c2rows row2) by (by apply is_row_lengths || done).
  rewrite (forallb_zip_slices _ row2 _ 0).
  pose proof (Forall_lookup_1 _ _ _ _ H2 Hr) as [E2 _].
  pose proof (Forall_lookup_1 _ _ _ _ H4 Hx) as [E4 _].
  transitivity (row2 = row4); [|rewrite Hr, Hx; naive_solver].
  assert (∀ i, (i < l)%nat → ∃ v, row4 !! i = Some v ∧
    slice (x * l * FIELD_BYTE_LEN + (0 + i) * FIELD_BYTE_LEN) FIELD_BYTE_LEN
      (concat (concat c4rows ++ [agg])) = v) as Hsl.
  { intros i Hi. destruct (lookup_lt_is_Some_2 row4 i) as [v Hv]; [lia|]. exists v. split; [done|].
    replace (x * l * FIELD_BYTE_LEN + (0 + i) * FIELD_BYTE_LEN)%nat
      with ((x * l + i) * FIELD_BYTE_LEN)%nat by lia.
    rewrite <-(app_nil_r (concat (concat c4rows ++ [agg]))).
    apply slice_concat_block; [done|]. apply lookup_app_l_Some.
    etransitivity; [by eapply lookup_concat_rows|done]. }
  split.
  - intros H. apply list_eq_same_length with l; [lia..|].
    intros i u v Hi Hu Hv. destruct (Hsl i Hi) as (w & Hw & E).
    pose proof (H i u Hu) as E'. rewrite Hw in Hv. injection Hv as <-.
    exact (eq_trans (eq_sym E') E).
  - intros -> i v Hv. pose proof (lookup_lt_Some _ _ _ Hv).
    destruct (Hsl i ltac:(lia)) as (w & Hw & E). rewrite Hw in Hv. injection Hv as <-. exact E.
Qed.

Lemma existsb_dedup_doubled (s : Bytes) :
  (FIELD_BYTE_LEN <= length s)%nat → (length s mod FIELD_BYTE_LEN = 0)%nat →
  deduplicate (s ++ s) = s.
Proof.
  intros Hl Hm. unfold deduplicate. rewrite length_app.
  rewrite (proj2 (Nat.leb_le _ _)) by lia.
  replace (length s + length s)%nat with (2 * length s)%nat by lia.
  rewrite Nat.Div0.mul_mod_distr_l, Hm, Nat.mul_0_r. simpl (_ && _).
  rewrite (Nat.mul_comm 2 (length s)), Nat.div_mul by lia.
  rewrite take_app_length, drop_app_length. by rewrite bool_decide_eq_true_2.
Qed.

(** A buffer of fields is kept, or it is its first half of fields twice. *)
Lemma deduplicate_fields (fs : list Bytes) :
  Forall is_field fs →
  deduplicate (concat fs) = concat fs ∨
  ∃ hs, fs = hs ++ hs ∧ deduplicate (concat fs) = concat hs.
Proof.
  intros Hf. unfold deduplicate. rewrite length_fields by done.
  destruct (_ && _) eqn:Hc; [|by left]. apply andb_true_iff in Hc as [_ Hm].
  apply Nat.eqb_eq, Nat.Div0.mod_divides in Hm as [k Hk].
  assert (length fs = 2 * k)%nat as E by (unfold FIELD_BYTE_LEN in Hk; lia).
  replace (length fs * FIELD_BYTE_LEN / 2)%nat with (k * FIELD_BYTE_LEN)%nat.
  2:{ rewrite E. replace (2 * k * FIELD_BYTE_LEN)%nat with (k * FIELD_BYTE_LEN * 2)%nat by lia.
      by rewrite Nat.div_mul. }
  rewrite take_concat_fields, drop_concat_fields by done.
  case_bool_decide as Heq; [|by left]. right. exists (take k fs). split; [|done].
  apply concat_fields_inj in Heq; [|by apply Forall_take|by apply Forall_drop].
  rewrite Heq at 2. by rewrite take_drop.
Qed.

Lemma commitment_in_c2_fields (target : Bytes) (secret : Bytes) (shares : list Bytes) v :
  is_field secret → Forall is_field shares →
  deduplicate target = concat (secret :: shares) →
  commitment_in_c2_outputs [v] target = true ↔ v ∈ shares.
Proof.
  intros Hs Hf E. unfold commitment_in_c2_outputs. rewrite E.
  rewrite (length_fields (secret :: shares)) by auto.
  destruct shares as [|b shares].
  { simpl. split; [done|]. by intros ?%not_elem_of_nil. }
  destruct (Nat.ltb_spec (length (secret :: b :: shares) * FIELD_BYTE_LEN) (2 * FIELD_BYTE_LEN))
    as [?|_]; [simpl in *; nia|].
  cbn [concat]. rewrite drop_first_field by done.
  change (b ++ concat shares) with (concat (b :: shares)).
  rewrite chunks_fields by done. apply existsb_elem.
Qed.

(** The product [(party id + 1) * l * 32] and the offsets below it fit [usize]. *)
Lemma check_exact_indices_fit (l : nat) (party_id : Z) :
  0 <= party_id < 2 ^ 48 → (l <= 1024)%nat →
  (party_id + 1) * Z.of_nat l * Z.of_nat FIELD_BYTE_LEN + Z.of_nat FIELD_BYTE_LEN <= U64_MAX.
Proof. unfold U64_MAX, FIELD_BYTE_LEN. intros. nia. Qed.

(** ** Theorems *)

(** the C2-to-C4 links accept exactly when the sender's [L] share commitments for the
    recipient are the recipient's row of that sender: for C2 signals with one row of [L]
    commitments per party and C4 signals with one row per selected dealer, the check at dealer
    row [x] and recipient [r] holds iff C2's row [r] exists and equals C4's row [x]; a C2
    buffer that the prover doubled gives the same answer for every recipient of the committee. *)
Theorem c2_to_c4_exact (l : nat) (link : CommitmentLink) (secret agg : Bytes)
    (c2rows c4rows : list (list FieldValue)) (signals : Bytes) (x r : nat) :
  link ∈ [C2aToC4aShareCommitmentLink l; C2bToC4bShareCommitmentLink l] →
  (0 < l)%nat → is_field secret → is_field agg →
  Forall (is_row l) c2rows → Forall (is_row l) c4rows →
  let c2 := concat (secret :: concat c2rows) in
  let c4 := concat (concat c4rows ++ [agg]) in
  signals = c2 ∨ (signals = c2 ++ c2 ∧ (r < length c2rows)%nat) →
  check_consistency link (extract_source_values link signals) c4 (Z.of_nat x) (Z.of_nat r) = true
  ↔ ∃ row, c2rows !! r = Some row ∧ c4rows !! x = Some row.
Proof.
  intros Hlink Hl Hs Ha H2 H4 c2 c4 Hsig.
  assert (extract_source_values link signals = extract_share_commitments signals ∧
    check_consistency link = check_exact_l_commitments l) as [-> ->].
  { apply elem_of_cons in Hlink as [->|[->|[]%not_elem_of_nil]%elem_of_cons]; done. }
  pose proof (is_row_fields l c2rows H2) as Hf2. destruct Hsig as [->|[-> Hr]].
  - subst c2. rewrite extract_share_commitments_fields by done.
    rewrite <-(app_nil_r (concat c2rows)). apply check_exact_rows; auto.
  - subst c2. rewrite <-concat_app. cbn [app].
    rewrite extract_share_commitments_fields; [|done|].
    2:{ apply Forall_app. split; [done|]. by constructor. }
    apply check_exact_rows; auto.
Qed.

Definition ex_field (z : Z) : Bytes := to_be_bytes 32 z.

Lemma c2_to_c4_exact_witness :
  check_consistency (C2aToC4aShareCommitmentLink 1)
    (extract_source_values (C2aToC4aShareCommitmentLink 1)
      (concat (ex_field 9 :: concat [[ex_field 1]; [ex_field 2]])))
    (concat (concat [[ex_field 2]] ++ [ex_field 8])) 0 1 = true.
Proof.
  apply (c2_to_c4_exact 1 (C2aToC4aShareCommitmentLink 1) (ex_field 9) (ex_field 8)
    [[ex_field 1]; [ex_field 2]] [[ex_field 2]]
    (concat (ex_field 9 :: concat [[ex_field 1]; [ex_field 2]])) 0 1); try done.
  - apply elem_of_cons. by left.
  - lia.
  - by repeat constructor.
  - by repeat constructor.
  - by left.
  - exists [ex_field 2]. done.
Defined.

(** the C3-to-C2 links accept exactly the share commitments: for C2 signals of a secret
    commitment and share commitments, doubled by the prover or not, a C3 proof whose expected
    message commitment is not the secret commitment passes iff that commitment is among the
    share commitments. *)
Theorem c3_to_c2_exact (link : CommitmentLink) (pk msg secret : Bytes) (shares : list Bytes)
    (rest target : Bytes) (p q : Z) :
  link ∈ [C3aToC2aShareEncryptionLink; C3bToC2bShareEncryptionLink] →
  is_field pk → is_field msg → is_field secret → Forall is_field shares →
  let c2 := concat (secret :: shares) in
  target = c2 ∨ target = c2 ++ c2 →
  msg ≠ secret →
  check_consistency link (extract_source_values link (concat [pk; msg] ++ rest)) target p q = true
  ↔ msg ∈ shares.
Proof.
  intros Hlink Hpk Hm Hs Hf c2 Htgt Hne.
  assert (extract_source_values link (concat [pk; msg] ++ rest) = [msg] ∧
    ∀ vs t, check_consistency link vs t p q = commitment_in_c2_outputs vs t) as [-> ->].
  { assert (extract_message_commitment (concat [pk; msg] ++ rest) = [msg]) as E.
    { unfold extract_message_commitment, input_layout, SHARE_ENCRYPTION_INPUTS.
      rewrite (extract_input_field _ [pk; msg] rest 1 _ msg); try done;
        [by apply (bool_decide_unpack _)|by repeat constructor]. }
    apply elem_of_cons in Hlink as [->|[->|[]%not_elem_of_nil]%elem_of_cons]; done. }
  assert (Forall is_field (secret :: shares)) as Hf' by auto.
  destruct Htgt as [->| ->].
  - destruct (deduplicate_fields (secret :: shares) Hf') as [E|([|h hs] & E & Ed)]; [|done|].
    + by apply (commitment_in_c2_fields _ secret).
    + subst c2. injection E as <- ->. apply Forall_app in Hf as [Hh Hhs].
      rewrite (commitment_in_c2_fields _ secret hs) by done.
      rewrite elem_of_app, elem_of_cons. naive_solver.
  - apply (commitment_in_c2_fields _ secret); [done..|]. apply existsb_dedup_doubled.
    + subst c2. rewrite length_fields by done. cbn [length]. nia.
    + subst c2. rewrite length_fields by done. by apply Nat.Div0.mod_mul.
Qed.

Lemma c3_to_c2_exact_witness :
  check_consistency C3aToC2aShareEncryptionLink
    (extract_source_values C3aToC2aShareEncryptionLink (concat [ex_field 5; ex_field 2] ++ []))
    (concat [ex_field 9; ex_field 1; ex_field 2]) 0 0 = true.
Proof.
  apply (c3_to_c2_exact C3aToC2aShareEncryptionLink (ex_field 5) (ex_field 2) (ex_field 9)
    [ex_field 1; ex_field 2] [] (concat [ex_field 9; ex_field 1; ex_field 2]) 0 0); try done.
  - apply elem_of_cons. by left.
  - by repeat constructor.
  - by left.
  - apply list_elem_of_In. simpl. auto.
Defined.

Lemma extract_last_output c n (ins : list Bytes) v :
  output_layout c = OutputFixed [n] → is_field v →
  of_field (extract_output (output_layout c) (concat (ins ++ [v])) n) = [v].
Proof.
  intros -> Hv. rewrite concat_app.
  rewrite (extract_output_field [n] (concat ins) [v] 0 n v); try done;
    [apply NoDup_singleton|by repeat constructor].
Qed.

Lemma extract_pk_generation i n (sk pk esm v : Bytes) :
  is_field sk → is_field pk → is_field esm →
  PK_GENERATION_OUTPUTS !! i = Some n → [sk; pk; esm] !! i = Some v →
  of_field (extract_output (output_layout PkGeneration) (concat [sk; pk; esm]) n) = [v].
Proof.
  intros. rewrite <-(app_nil_l (concat _)). unfold output_layout.
  rewrite (extract_output_field PK_GENERATION_OUTPUTS [] [sk; pk; esm] i n v); try done.
  - by apply (bool_decide_unpack _).
  - by repeat constructor.
Qed.

(** the two links from a party's proof to an aggregator's proof accept exactly the listed
    commitments: a C1 public-key commitment passes C5 iff it is one of the [H] expected
    commitments (never the aggregate), and a C6 decryption commitment passes C7 iff it is one
    of the [T + 1] expected commitments (never a party id or a message coefficient). *)
Theorem membership_links_exact (sk pk esm agg d : Bytes) (pks ins ds ids msg : list Bytes)
    (p q : Z) :
  Forall is_field [sk; pk; esm; agg; d] → Forall is_field pks →
  Forall is_field ds → Forall is_field ids → Forall is_field msg →
  length ids = length ds → length msg = MAX_MSG_NON_ZERO_COEFFS →
  (check_consistency C1ToC5PkCommitmentLink
     (extract_source_values C1ToC5PkCommitmentLink (concat [sk; pk; esm]))
     (concat (pks ++ [agg])) p q = true ↔ pk ∈ pks) ∧
  (check_consistency C6ToC7DCommitmentLink
     (extract_source_values C6ToC7DCommitmentLink (concat (ins ++ [d])))
     (concat (ds ++ ids ++ msg)) p q = true ↔ d ∈ ds).
Proof.
  intros Hfs Hpks Hds Hids Hmsg Eids Emsg.
  rewrite !Forall_cons in Hfs. destruct Hfs as (Hsk & Hpk & Hesm & Hagg & Hd & _). split.
  - cbn [check_consistency extract_source_values C1ToC5PkCommitmentLink].
    rewrite (extract_pk_generation 1 _ sk pk esm pk) by done.
    unfold by_signals, check_pk_in_c5. simpl (default _ _).
    assert (Forall is_field (pks ++ [agg])) as Hf by (apply Forall_app; auto).
    rewrite fields_count, length_app by done. simpl (length [agg]). rewrite Nat.add_sub.
    destruct (Nat.leb_spec (length pks + 1) 1) as [Hl|_].
    { destruct pks; [|simpl in Hl; lia]. split; [done|]. by intros ?%not_elem_of_nil. }
    rewrite <-(app_nil_r (concat _)), in_first_fields_spec by (rewrite ?length_app; lia || done).
    by rewrite take_app_length.
  - cbn [check_consistency extract_source_values C6ToC7DCommitmentLink].
    rewrite (extract_last_output _ _ ins d) by done.
    unfold by_signals, check_d_in_c7. cbv zeta.
    assert (Forall is_field (ds ++ ids ++ msg)) as Hf by (by rewrite !Forall_app).
    rewrite fields_count, length_fields, !length_app, Eids, Emsg by done.
    rewrite (proj2 (Nat.eqb_eq _ _)) by (apply Nat.Div0.mod_mul). cbn [negb].
    destruct (Nat.ltb_spec (length ds + (length ds + MAX_MSG_NON_ZERO_COEFFS))
      MAX_MSG_NON_ZERO_COEFFS) as [?|_]; [lia|].
    replace (length ds + (length ds + MAX_MSG_NON_ZERO_COEFFS) - MAX_MSG_NON_ZERO_COEFFS)%nat
      with (length ds * 2)%nat by lia.
    rewrite Nat.Div0.mod_mul, Nat.div_mul by lia. cbn [negb Nat.eqb].
    destruct (Nat.eqb_spec (length ds) 0) as [E|E].
    { destruct ds; [|done]. split; [done|]. by intros ?%not_elem_of_nil. }
    rewrite <-(app_nil_r (concat _)), in_first_fields_spec by (rewrite ?length_app; lia || done).
    by rewrite take_app_length.
Qed.

Lemma membership_links_exact_witness :
  check_consistency C1ToC5PkCommitmentLink
    (extract_source_values C1ToC5PkCommitmentLink (concat [ex_field 1; ex_field 2; ex_field 3]))
    (concat ([ex_field 7; ex_field 2] ++ [ex_field 8])) 0 0 = true.
Proof.
  apply (membership_links_exact (ex_field 1) (ex_field 2) (ex_field 3) (ex_field 8) (ex_field 0)
    [ex_field 7; ex_field 2] [] [] [] (replicate MAX_MSG_NON_ZERO_COEFFS (ex_field 0)) 0 0);
    try done; by repeat constructor.
Defined.

(** The links that compare two fields accept exactly equal fields: C1's secret-key and
    smudging commitments with the secret commitments of C2a and C2b, the aggregated commitments
    of C4a and C4b with the expected ones of C6, and C3's recipient key with C0's key. *)
Theorem equality_links_exact (sk pk esm secret agg sk' esm' key msg key0 : Bytes)
    (shares c4rows c0ins : list Bytes) (c6rest c3rest : Bytes) (p q : Z) :
  Forall is_field [sk; pk; esm; secret; agg; sk'; esm'; key; msg; key0] →
  let check link src tgt := check_consistency link (extract_source_values link src) tgt p q in
  let c1 := concat [sk; pk; esm] in
  let c2 := concat (secret :: shares) in
  let c4 := concat (c4rows ++ [agg]) in
  let c6 := concat [sk'; esm'] ++ c6rest in
  let c3 := concat [key; msg] ++ c3rest in
  let c0 := concat (c0ins ++ [key0]) in
  (check C1ToC2aSkCommitmentLink c1 c2 = true ↔ sk = secret) ∧
  (check C1ToC2bESmCommitmentLink c1 c2 = true ↔ esm = secret) ∧
  (check C4aToC6SkCommitmentLink c4 c6 = true ↔ agg = sk') ∧
  (check C4bToC6ESmCommitmentLink c4 c6 = true ↔ agg = esm') ∧
  (check C3aToC0PkCommitmentLink c3 c0 = true ↔ key = key0) ∧
  (check C3bToC0PkCommitmentLink c3 c0 = true ↔ key = key0).
Proof.
  intros Hfs check c1 c2 c4 c6 c3 c0. rewrite !Forall_cons in Hfs.
  destruct Hfs as (Hsk & Hpk & Hesm & Hsec & Hagg & Hsk' & Hesm' & Hkey & Hmsg & Hkey0 & _).
  assert (∀ v, check_expected_secret [v] c2 = true ↔ v = secret) as Hc2.
  { intros v. unfold check_expected_secret, c2. cbn [concat].
    rewrite length_app, (proj2 (Nat.ltb_ge _ _)) by (rewrite Hsec; lia).
    rewrite bool_decide_eq_true. unfold slice. rewrite drop_0, take_app_length' by done.
    split; congruence. }
  assert (∀ i n v f, THRESHOLD_SHARE_DECRYPTION_INPUTS !! i = Some n → [sk'; esm'] !! i = Some f →
    check_c6_input n [v] c6 = true ↔ v = f) as Hc6.
  { intros i n v f Hn Hf. unfold check_c6_input, c6, input_layout.
    rewrite (extract_input_field _ [sk'; esm'] c6rest i n f); try done.
    - rewrite bool_decide_eq_true. split; congruence.
    - by apply (bool_decide_unpack _).
    - by repeat constructor. }
  assert (extract_expected_pk_commitment c3 = [key]) as Hc3.
  { unfold extract_expected_pk_commitment, c3, input_layout.
    rewrite (extract_input_field _ [key; msg] c3rest 0 _ key); try done;
      [by apply (bool_decide_unpack _)|by repeat constructor]. }
  assert (check_pk_exists_in_c0 [key] c0 = true ↔ key = key0) as Hc0.
  { unfold check_pk_exists_in_c0, c0.
    pose proof (extract_last_output PkBfv _ c0ins key0 eq_refl Hkey0) as E.
    destruct (extract_output _ _ _); simplify_eq/=. rewrite bool_decide_eq_true.
    split; congruence. }
  subst check. cbn [check_consistency extract_source_values C1ToC2aSkCommitmentLink
    C1ToC2bESmCommitmentLink C4aToC6SkCommitmentLink C4bToC6ESmCommitmentLink
    C3aToC0PkCommitmentLink C3bToC0PkCommitmentLink]. unfold by_signals.
  rewrite Hc3, (extract_pk_generation 0 _ sk pk esm sk), (extract_pk_generation 2 _ sk pk esm esm)
    by done.
  rewrite (extract_last_output _ _ c4rows agg) by done.
  split_and!; [apply Hc2|apply Hc2|by apply (Hc6 0%nat)|by apply (Hc6 1%nat)|done|done].
Qed.

Lemma equality_links_exact_witness :
  check_consistency C4bToC6ESmCommitmentLink
    (extract_source_values C4bToC6ESmCommitmentLink (concat ([ex_field 3] ++ [ex_field 5])))
    (concat [ex_field 4; ex_field 5] ++ []) 0 0 = true.
Proof.
  apply (equality_links_exact (ex_field 0) (ex_field 0) (ex_field 0) (ex_field 0) (ex_field 5)
    (ex_field 4) (ex_field 5) (ex_field 0) (ex_field 0) (ex_field 0) [] [ex_field 3] [] [] [] 0 0);
    [by repeat constructor|reflexivity].
Defined.
