(* ===== verification/ConsistencyChecker.v ===== *)
(** * Commitment consistency checker

    Model of crates/orchestration/slashing/src/commitment_consistency/workflow.rs: the
    synchronous core that caches verified proofs, evaluates the registered links and reports
    violations.

    The cache is a [HashMap]; its iteration order is not specified.  The model iterates in the
    order of [map_to_list]; the theorems speak about the members of the resulting lists, never
    about their order.  [dyn CommitmentLink] objects are [CommitmentLink] records. *)

From S2P Require Import Prelude Events CommitmentLinks.
Open Scope Z_scope.

(** ** Events *)

Inductive VerificationKind := ShareProofs | DecryptionProofs | ThresholdDecryptionProofs | PkGenerationProofs.

Record PartyProofData := mkPartyProofs {
  ppd_party_id : Z; ppd_address : Address;
  ppd_proofs : list (ProofType * Bytes * B256 * Bytes) }.

Record CommitmentConsistencyCheckRequested := mkCheckRequested {
  cr_e3_id : E3id; cr_kind : VerificationKind; cr_correlation_id : Z;
  cr_party_proofs : list PartyProofData }.

(** [inconsistent_parties] is a [BTreeSet<u64>]. *)
Record CommitmentConsistencyCheckComplete := mkCheckComplete {
  cc_e3_id : E3id; cc_kind : VerificationKind; cc_correlation_id : Z;
  inconsistent_parties : gset Z }.

Record CommitmentRosterSelected := mkRosterSelected { rs_e3_id : E3id; party_ids : list Z }.

(** ** State *)

Definition COMMITMENT_CONSISTENCY_SNAPSHOT_VERSION : Z := 1.

Record VerifiedProofData := mkVerified {
  party_id : Z; address : Address; vp_public_signals : Bytes; data_hash : B256;
  proof_data : Bytes }.

Global Instance VerifiedProofData_eq_dec : EqDecision VerifiedProofData.
Proof. solve_decision. Defined.

Record CommitmentConsistencySnapshot := mkCCSnapshot {
  cs_version : Z;
  cs_roster : option (list Z);
  cs_entries : list (Address * ProofType * list VerifiedProofData) }.

Definition default_snapshot : CommitmentConsistencySnapshot :=
  mkCCSnapshot COMMITMENT_CONSISTENCY_SNAPSHOT_VERSION None [].

Definition validate (s : CommitmentConsistencySnapshot) : bool :=
  cs_version s =? COMMITMENT_CONSISTENCY_SNAPSHOT_VERSION.

Record Mismatch := mkMismatch {
  m_party_id : Z; m_address : Address; m_proof_type : ProofType; m_data_hash : B256;
  m_proof_data : Bytes; m_public_signals : Bytes }.

Record PreZkOutcome := mkPreZk {
  violations : list CommitmentConsistencyViolation;
  complete : CommitmentConsistencyCheckComplete }.

Record CommitmentConsistency := mkChecker {
  e3_id : E3id;
  links : list CommitmentLink;
  committee_h : nat;
  roster : option (list Z);
  verified : gmap (Address * ProofType) (list VerifiedProofData);
  dirty : bool }.

Definition set_roster (s : CommitmentConsistency) (r : option (list Z)) (d : bool) :=
  mkChecker (e3_id s) (links s) (committee_h s) r (verified s) d.
Definition set_verified (s : CommitmentConsistency)
    (v : gmap (Address * ProofType) (list VerifiedProofData)) (d : bool) :=
  mkChecker (e3_id s) (links s) (committee_h s) (roster s) v d.

Definition new (e3 : E3id) (ls : list CommitmentLink) (h : nat) : CommitmentConsistency :=
  mkChecker e3 ls h None ∅ false.

(** ** Snapshots *)

Definition hash_le (a b : VerifiedProofData) : Prop := data_hash a <= data_hash b.
Global Instance hash_le_dec : RelDecision hash_le.
Proof. intros a b. unfold hash_le. apply _. Defined.

(** The sort key [( *address, *proof_type as u8)]. *)
Definition entry_le (a b : Address * ProofType * list VerifiedProofData) : Prop :=
  a.1.1 < b.1.1 ∨ (a.1.1 = b.1.1 ∧ proof_type_u8 a.1.2 <= proof_type_u8 b.1.2).
Global Instance entry_le_dec : RelDecision entry_le.
Proof. intros a b. unfold entry_le. apply _. Defined.

Definition snapshot (s : CommitmentConsistency) : CommitmentConsistencySnapshot :=
  mkCCSnapshot COMMITMENT_CONSISTENCY_SNAPSHOT_VERSION (roster s)
    (merge_sort entry_le
       ((λ '(k, entries), (k, merge_sort hash_le entries)) <$> map_to_list (verified s))).

Definition take_snapshot_if_changed (s : CommitmentConsistency)
    : CommitmentConsistency * option CommitmentConsistencySnapshot :=
  if negb (dirty s) then (s, None)
  else let s' := set_verified s (verified s) false in (s', Some (snapshot s')).

Definition retry_snapshot (s : CommitmentConsistency) : CommitmentConsistency :=
  set_verified s (verified s) true.

(** [collect] into a [HashMap]: a later entry of the same key wins. *)
Definition restore (s : CommitmentConsistency) (snap : CommitmentConsistencySnapshot)
    : option CommitmentConsistency :=
  if negb (validate snap) then None
  else Some (mkChecker (e3_id s) (links s) (committee_h s) (cs_roster snap)
    (foldl (λ m '(k, entries), <[k := entries]> m) ∅ (cs_entries snap)) false).

Definition cached_proof_count (s : CommitmentConsistency) : nat :=
  sum_list (length ∘ snd <$> map_to_list (verified s)).

Definition link_count (s : CommitmentConsistency) : nat := length (links s).

(** ** Link evaluation *)

(** The pairs of proof types whose source row is a roster position. *)
Definition is_c2_to_c4 (src tgt : ProofType) : bool :=
  match src, tgt with
  | C2aSkShareComputation, C4aSkShareDecryption
  | C2bESmShareComputation, C4bESmShareDecryption => true
  | _, _ => false
  end.

Definition is_c3_to_c0 (src tgt : ProofType) : bool :=
  match tgt, src with
  | C0PkBfv, C3aSkShareEncryption | C0PkBfv, C3bESmShareEncryption => true
  | _, _ => false
  end.

Definition source_row (s : CommitmentConsistency) (link : CommitmentLink) (pid : Z) : option Z :=
  if is_c2_to_c4 (source_proof_type link) (target_proof_type link) then
    r ← roster s;
    index ← position (λ selected, selected =? pid) r;
    Some (Z.of_nat index)
  else Some pid.

Definition insert_verified (s : CommitmentConsistency) (addr : Address) (pt : ProofType)
    (d : VerifiedProofData) : CommitmentConsistency :=
  let entries := default [] (verified s !! (addr, pt)) in
  if negb (existsb (λ e, data_hash e =? data_hash d) entries)
  then set_verified s (<[(addr, pt) := entries ++ [d]]> (verified s)) true
  else set_verified s (<[(addr, pt) := entries]> (verified s)) (dirty s).

Definition mismatch_of (addr : Address) (pt : ProofType) (src : VerifiedProofData) : Mismatch :=
  mkMismatch (party_id src) addr pt (data_hash src) (proof_data src) (vp_public_signals src).

(** The entries of one proof type, of every address. *)
Definition all_of_type (s : CommitmentConsistency) (pt : ProofType) : list VerifiedProofData :=
  flat_map snd (List.filter (λ e, bool_decide (e.1.2 = pt)) (map_to_list (verified s))).

(** The loop over the sources of the two scopes with a set of targets. *)
Definition unmatched_sources (s : CommitmentConsistency) (link : CommitmentLink)
    (all_targets : list VerifiedProofData) : list Mismatch :=
  flat_map (λ '((_, pt), srcs),
    if negb (bool_decide (pt = source_proof_type link)) then []
    else flat_map (λ src,
      match source_row s link (party_id src) with
      | None => []
      | Some src_row =>
          let vals := extract_source_values link (vp_public_signals src) in
          if (match vals with [] => true | _ => false end) then []
          else if existsb (λ tgt,
              check_consistency link vals (vp_public_signals tgt) src_row (party_id tgt))
              all_targets
          then []
          else [mismatch_of (address src) (source_proof_type link) src]
      end) srcs) (map_to_list (verified s)).

Definition find_mismatches (s : CommitmentConsistency) (link : CommitmentLink) : list Mismatch :=
  let src_type := source_proof_type link in
  let tgt_type := target_proof_type link in
  match scope link with
  | SameParty =>
      flat_map (λ '((addr, pt), srcs),
        if negb (bool_decide (pt = src_type)) then []
        else match verified s !! (addr, tgt_type) with
        | None => []
        | Some tgts =>
            flat_map (λ src,
              match source_row s link (party_id src) with
              | None => []
              | Some src_row =>
                  let vals := extract_source_values link (vp_public_signals src) in
                  if existsb (λ tgt, negb (check_consistency link vals (vp_public_signals tgt)
                       src_row (party_id tgt))) tgts
                  then [mismatch_of addr src_type src]
                  else []
              end) srcs
        end) (map_to_list (verified s))
  | CrossParty =>
      match all_of_type s tgt_type with
      | [] => []
      | all_targets => unmatched_sources s link all_targets
      end
  | SourceMustExistInTargets =>
      if is_c3_to_c0 src_type tgt_type then []
      else match all_of_type s tgt_type with
      | [] => []
      | all_targets =>
          if is_c2_to_c4 src_type tgt_type then
            match roster s with
            | None => []
            | Some r =>
                let received : gset Z := list_to_set
                  (List.filter (λ p, bool_decide (p ∈ r)) (party_id <$> all_targets)) in
                if (size received <? committee_h s)%nat then []
                else unmatched_sources s link all_targets
            end
          else unmatched_sources s link all_targets
      end
  end.

(** ** Handlers *)

Section Handlers.
Context `{AlloyOps}.

Definition build_violation (s : CommitmentConsistency) (m : Mismatch)
    : CommitmentConsistencyViolation :=
  mkCCV (e3_id s) (m_party_id m) (m_address m) (m_proof_type m) (m_data_hash m)
    (evidence_of (m_proof_data m) (m_public_signals m)).

Definition check_links (s : CommitmentConsistency) (new_proof_type : ProofType)
    : list CommitmentConsistencyViolation :=
  flat_map (λ link,
    if negb (bool_decide (new_proof_type = source_proof_type link))
       && negb (bool_decide (new_proof_type = target_proof_type link))
    then []
    else flat_map (λ m, if m_data_hash m =? 0 then [] else [build_violation s m])
           (find_mismatches s link)) (links s).

Definition on_proof_verified (s : CommitmentConsistency) (d : ProofVerificationPassed)
    : CommitmentConsistency * list CommitmentConsistencyViolation :=
  if negb (bool_decide (pvp_e3_id d = e3_id s)) then (s, [])
  else
    let s1 := insert_verified s (pvp_address d) (pvp_proof_type d)
      (mkVerified (pvp_party_id d) (pvp_address d) (pvp_public_signals d) (pvp_data_hash d)
         (pvp_proof_data d)) in
    (s1, check_links s1 (pvp_proof_type d)).

(** [windows(2).all(|pair| pair[0] < pair[1])] *)
Fixpoint strictly_increasing (l : list Z) : bool :=
  match l with
  | a :: (b :: _) as l' => (a <? b) && strictly_increasing l'
  | _ => true
  end.

Definition on_roster_selected (s : CommitmentConsistency) (event : CommitmentRosterSelected)
    : CommitmentConsistency * list CommitmentConsistencyViolation :=
  if negb (bool_decide (rs_e3_id event = e3_id s)) then (s, [])
  else if negb (length (party_ids event) =? committee_h s)%nat then (s, [])
  else if negb (strictly_increasing (party_ids event)) then (s, [])
  else match roster s with
  | Some _ => (s, [])
  | None =>
      let s1 := set_roster s (Some (party_ids event)) true in
      (s1, check_links s1 C4aSkShareDecryption ++ check_links s1 C4bESmShareDecryption)
  end.

Definition cache_party (s : CommitmentConsistency) (party : PartyProofData)
    : CommitmentConsistency :=
  foldl (λ s '(pt, signals, hash, pdata),
    insert_verified s (ppd_address party) pt
      (mkVerified (ppd_party_id party) (ppd_address party) signals hash pdata))
    s (ppd_proofs party).

(** [verified.retain(|_, entries| { entries.retain(..); !entries.is_empty() })] *)
Definition retain_parties (bad : gset Z) (entries : list VerifiedProofData)
    : option (list VerifiedProofData) :=
  match List.filter (λ v, negb (bool_decide (party_id v ∈ bad))) entries with
  | [] => None
  | l => Some l
  end.

Definition on_check_requested (s : CommitmentConsistency)
    (d : CommitmentConsistencyCheckRequested) : CommitmentConsistency * option PreZkOutcome :=
  if negb (bool_decide (cr_e3_id d = e3_id s)) then (s, None)
  else
    let s1 := foldl cache_party s (cr_party_proofs d) in
    let mismatches := flat_map (find_mismatches s1) (links s1) in
    let bad : gset Z := list_to_set (m_party_id <$> mismatches) in
    let s2 :=
      if bool_decide (bad = ∅) then s1
      else
        let s' := set_verified s1 (omap (retain_parties bad) (verified s1)) (dirty s1) in
        set_verified s' (verified s')
          (dirty s1 || negb (cached_proof_count s' =? cached_proof_count s1)%nat) in
    (s2, Some (mkPreZk (build_violation s1 <$> mismatches)
           (mkCheckComplete (cr_e3_id d) (cr_kind d) (cr_correlation_id d) bad))).

(** ** Runs *)

Inductive CheckerInput :=
| RosterSelected (e : CommitmentRosterSelected)
| ProofVerified (d : ProofVerificationPassed)
| CheckRequested (d : CommitmentConsistencyCheckRequested)
| TakeSnapshot
| SnapshotFailed.

Definition step (s : CommitmentConsistency) (i : CheckerInput)
    : CommitmentConsistency * list CommitmentConsistencyViolation :=
  match i with
  | RosterSelected e => on_roster_selected s e
  | ProofVerified d => on_proof_verified s d
  | CheckRequested d =>
      let '(s', o) := on_check_requested s d in
      (s', match o with Some out => violations out | None => [] end)
  | TakeSnapshot => ((take_snapshot_if_changed s).1, [])
  | SnapshotFailed => (retry_snapshot s, [])
  end.

Fixpoint run (s : CommitmentConsistency) (inputs : list CheckerInput)
    : CommitmentConsistency * list CommitmentConsistencyViolation :=
  match inputs with
  | [] => (s, [])
  | i :: rest =>
      let '(s1, v1) := step s i in
      let '(s2, v2) := run s1 rest in
      (s2, v1 ++ v2)
  end.

End Handlers.

(** ** Specification *)

(** [e] is a cached proof of type [pt] by [addr]. *)
Definition cached (s : CommitmentConsistency) (pt : ProofType) (addr : Address)
    (e : VerifiedProofData) : Prop :=
  ∃ es, verified s !! (addr, pt) = Some es ∧ e ∈ es.

Definition accepts (link : CommitmentLink) (row : Z) (src tgt : VerifiedProofData) : bool :=
  check_consistency link (extract_source_values link (vp_public_signals src))
    (vp_public_signals tgt) row (party_id tgt).

(** When an absent match is evidence: never from C3 to C0, from C2 to C4 only once every dealer
    of the accepted roster has a cached C4 proof. *)
Definition targets_ready (s : CommitmentConsistency) (link : CommitmentLink) : Prop :=
  match scope link with
  | SameParty | CrossParty => True
  | SourceMustExistInTargets =>
      is_c3_to_c0 (source_proof_type link) (target_proof_type link) = false ∧
      (is_c2_to_c4 (source_proof_type link) (target_proof_type link) = true →
       ∃ r, roster s = Some r ∧
         ∀ p, p ∈ r → ∃ addr tgt, cached s (target_proof_type link) addr tgt ∧ party_id tgt = p)
  end.

(** The proof [src] of [addr] contradicts the cached targets of the link. *)
Definition Mismatched (s : CommitmentConsistency) (link : CommitmentLink) (addr : Address)
    (src : VerifiedProofData) : Prop :=
  cached s (source_proof_type link) addr src ∧
  ∃ row, source_row s link (party_id src) = Some row ∧
  match scope link with
  | SameParty =>
      ∃ tgt, cached s (target_proof_type link) addr tgt ∧ accepts link row src tgt = false
  | _ =>
      targets_ready s link ∧ extract_source_values link (vp_public_signals src) ≠ [] ∧
      (∃ addr' tgt, cached s (target_proof_type link) addr' tgt) ∧
      ∀ addr' tgt, cached s (target_proof_type link) addr' tgt → accepts link row src tgt = false
  end.

(** Well-formed states: entries are filed under their own address, a key has entries with
    pairwise different hashes, and the roster is canonical. *)
Record wf (s : CommitmentConsistency) : Prop := mkWf {
  wf_cache : ∀ k es, verified s !! k = Some es →
    es ≠ [] ∧ NoDup (data_hash <$> es) ∧ Forall (λ e, address e = k.1) es;
  wf_roster : ∀ r, roster s = Some r →
    length r = committee_h s ∧ strictly_increasing r = true }.

(** ** Lemmas *)

Lemma strictly_increasing_NoDup r : strictly_increasing r = true → NoDup r.
Proof.
  intros Hr. cut (∀ a, strictly_increasing (a :: r) = true → Forall (Z.lt a) r ∧ NoDup r).
  { intros Hc. destruct r as [|a r]; [constructor|].
    apply (Hc (a - 1)). cbn [strictly_increasing]. apply andb_true_iff.
    split; [apply Z.ltb_lt; lia|done]. }
  clear Hr. induction r as [|b r IH]; intros a Ha; [by split; constructor|].
  cbn [strictly_increasing] in Ha. apply andb_true_iff in Ha as [Hab Hr]. apply Z.ltb_lt in Hab.
  destruct (IH b Hr) as [Hf Hnd]. split.
  - constructor; [done|]. eapply Forall_impl; [exact Hf|]. simpl. lia.
  - constructor; [|done]. intros Hin. rewrite Forall_forall in Hf. specialize (Hf b Hin). lia.
Qed.

Lemma elem_of_all_of_type s pt e : e ∈ all_of_type s pt ↔ ∃ addr, cached s pt addr e.
Proof.
  unfold all_of_type, cached. rewrite elem_of_flat_map. split.
  - intros ([[addr pt'] es] & Hin & He). apply elem_of_filter_bool in Hin as [Hin Hpt].
    apply bool_decide_eq_true_1 in Hpt. simpl in Hpt. subst.
    apply elem_of_map_to_list in Hin. eauto.
  - intros (addr & es & Hl & He). exists ((addr, pt), es). split; [|done].
    apply elem_of_filter_bool. split; [by apply elem_of_map_to_list|].
    by apply bool_decide_eq_true_2.
Qed.

Lemma all_of_type_nil s pt :
  all_of_type s pt = [] ↔ ¬ ∃ addr e, cached s pt addr e.
Proof.
  split.
  - intros E (addr & e & Hc). assert (e ∈ all_of_type s pt) as Hin
      by (apply elem_of_all_of_type; eauto). rewrite E in Hin. by apply not_elem_of_nil in Hin.
  - intros Hn. destruct (all_of_type s pt) as [|e l] eqn:E; [done|]. exfalso. apply Hn.
    assert (e ∈ all_of_type s pt) as Hin by (rewrite E; apply list_elem_of_here).
    apply elem_of_all_of_type in Hin as [addr Hc]. eauto.
Qed.

(** All dealers answered: the count of received roster members reaches [H] exactly when every
    member of a canonical roster is among the targets. *)
Lemma received_all s r (targets : list Z) :
  wf s → roster s = Some r →
  (size (list_to_set (List.filter (λ p, bool_decide (p ∈ r)) targets) : gset Z)
     <? committee_h s)%nat = false ↔ ∀ p, p ∈ r → p ∈ targets.
Proof.
  intros Hwf Hr. destruct (wf_roster _ Hwf r Hr) as [Hlen Hinc].
  apply strictly_increasing_NoDup in Hinc. set (rec := list_to_set _).
  assert (rec ⊆ (list_to_set r : gset Z)) as Hsub.
  { intros p. subst rec. rewrite !elem_of_list_to_set, elem_of_filter_bool.
    intros [_ Hp]. by apply bool_decide_eq_true_1 in Hp. }
  assert (size (list_to_set r : gset Z) = committee_h s) as Hsz
    by (rewrite size_list_to_set; done).
  rewrite Nat.ltb_ge. split.
  - intros Hge p Hp. destruct (decide (p ∈ rec)) as [Hin|Hn].
    + subst rec. apply elem_of_list_to_set, elem_of_filter_bool in Hin. apply Hin.
    + assert (rec ⊂ (list_to_set r : gset Z)) as Hlt.
      { split; [done|]. intros Hc. apply Hn, Hc. by apply elem_of_list_to_set. }
      apply subset_size in Hlt. lia.
  - intros Hall. rewrite <-Hsz. apply subseteq_size. intros p Hp.
    apply elem_of_list_to_set in Hp. subst rec. apply elem_of_list_to_set, elem_of_filter_bool.
    split; [by apply Hall|]. by apply bool_decide_eq_true_2.
Qed.

Lemma elem_of_unmatched s link targets m :
  m ∈ unmatched_sources s link targets ↔
  ∃ addr src row, m = mismatch_of (address src) (source_proof_type link) src ∧
    cached s (source_proof_type link) addr src ∧ source_row s link (party_id src) = Some row ∧
    extract_source_values link (vp_public_signals src) ≠ [] ∧
    ∀ tgt, tgt ∈ targets → accepts link row src tgt = false.
Proof.
  unfold unmatched_sources, cached. rewrite elem_of_flat_map. split.
  - intros ([[addr pt] es] & Hin & Hm). apply elem_of_map_to_list in Hin.
    case_bool_decide as Hpt; simpl in Hm; [subst pt|by apply not_elem_of_nil in Hm].
    apply elem_of_flat_map in Hm as (src & Hsrc & Hm).
    destruct (source_row s link (party_id src)) as [row|] eqn:Hrow; [|by apply not_elem_of_nil in Hm].
    destruct (extract_source_values link (vp_public_signals src)) as [|v vs] eqn:Hv;
      [by apply not_elem_of_nil in Hm|]. rewrite <-Hv in Hm.
    destruct (existsb _ targets) eqn:Hex; [by apply not_elem_of_nil in Hm|].
    apply list_elem_of_singleton in Hm as ->.
    exists addr, src, row. split_and!; [done|eauto|done|congruence|].
    intros tgt Htgt. unfold accepts. rewrite existsb_false in Hex. by apply (Hex tgt).
  - intros (addr & src & row & -> & (es & Hl & Hsrc) & Hrow & Hv & Hall).
    exists ((addr, source_proof_type link), es). split; [by apply elem_of_map_to_list|].
    rewrite bool_decide_eq_true_2 by done. simpl. apply elem_of_flat_map. exists src.
    split; [done|]. rewrite Hrow.
    destruct (extract_source_values link (vp_public_signals src)) as [|v vs] eqn:Ev; [done|].
    rewrite <-Ev. rewrite (proj2 (existsb_false _ _)); [by apply list_elem_of_singleton|].
    intros tgt Htgt. apply (Hall tgt Htgt).
Qed.

Lemma wf_cached_address s pt addr e : wf s → cached s pt addr e → address e = addr.
Proof.
  intros Hwf (es & Hl & He). destruct (wf_cache _ Hwf _ _ Hl) as (_ & _ & Hf).
  rewrite Forall_forall in Hf. by apply (Hf e).
Qed.

Lemma unmatched_exact s link m :
  wf s → scope link ≠ SameParty → targets_ready s link →
  (∃ addr tgt, cached s (target_proof_type link) addr tgt) →
  m ∈ unmatched_sources s link (all_of_type s (target_proof_type link)) ↔
  ∃ addr src, Mismatched s link addr src ∧ m = mismatch_of addr (source_proof_type link) src.
Proof.
  intros Hwf Hsc Hready Hne. rewrite elem_of_unmatched. split.
  - intros (addr & src & row & -> & Hc & Hrow & Hv & Hall). exists addr, src.
    split; [|by rewrite (wf_cached_address _ _ _ _ Hwf Hc)]. split; [done|]. exists row.
    split; [done|]. destruct (scope link); [done|..];
      (split_and!; [done..|]; intros addr' tgt Ht; apply Hall, elem_of_all_of_type; eauto).
  - intros (addr & src & [Hc (row & Hrow & Hm)] & ->). exists addr, src, row.
    rewrite (wf_cached_address _ _ _ _ Hwf Hc).
    destruct (scope link); [done|..]; destruct Hm as (_ & Hv & _ & Hall);
      (split_and!; [done..|]; intros tgt [addr' Ht]%elem_of_all_of_type; by eapply Hall).
Qed.

(** The guards of the two scopes with a set of targets, as one test. *)
Definition targets_ready_b (s : CommitmentConsistency) (link : CommitmentLink) : bool :=
  match scope link with
  | SourceMustExistInTargets =>
      negb (is_c3_to_c0 (source_proof_type link) (target_proof_type link)) &&
      (negb (is_c2_to_c4 (source_proof_type link) (target_proof_type link)) ||
       match roster s with
       | None => false
       | Some r =>
           negb (size (list_to_set (List.filter (λ p, bool_decide (p ∈ r))
             (party_id <$> all_of_type s (target_proof_type link))) : gset Z)
             <? committee_h s)%nat
       end)
  | _ => true
  end.

Lemma find_mismatches_set s link :
  scope link ≠ SameParty →
  find_mismatches s link =
  match all_of_type s (target_proof_type link) with
  | [] => []
  | all_targets => if targets_ready_b s link then unmatched_sources s link all_targets else []
  end.
Proof.
  intros Hsc. unfold find_mismatches, targets_ready_b. destruct (scope link); [done|done|].
  destruct (is_c3_to_c0 _ _); [by destruct (all_of_type _ _)|].
  destruct (all_of_type _ _) as [|t ts]; [done|]. destruct (is_c2_to_c4 _ _); [|done].
  destruct (roster s); [|done]. simpl negb. by destruct (_ <? _)%nat.
Qed.

Lemma targets_ready_spec s link : wf s → targets_ready_b s link = true ↔ targets_ready s link.
Proof.
  intros Hwf. unfold targets_ready_b, targets_ready. destruct (scope link); [done..|].
  rewrite andb_true_iff, negb_true_iff, orb_true_iff, negb_true_iff.
  apply and_iff_compat_l. destruct (is_c2_to_c4 _ _); [|naive_solver].
  destruct (roster s) as [r|] eqn:Hr; [|naive_solver].
  rewrite negb_true_iff, (received_all s r) by done. split.
  - intros [?|Hall] _; [done|]. exists r. split; [done|]. intros p Hp.
    apply Hall, list_elem_of_fmap in Hp as (tgt & -> & [addr Ht]%elem_of_all_of_type). eauto.
  - intros Hall. right. intros p Hp. destruct (Hall eq_refl) as (r' & [= <-] & Hc).
    destruct (Hc p Hp) as (addr & tgt & Ht & <-). apply list_elem_of_fmap_2.
    apply elem_of_all_of_type. eauto.
Qed.

Lemma find_mismatches_same_party s link m :
  scope link = SameParty →
  m ∈ find_mismatches s link ↔
  ∃ addr src, Mismatched s link addr src ∧ m = mismatch_of addr (source_proof_type link) src.
Proof.
  intros Hsc. unfold find_mismatches. rewrite Hsc, elem_of_flat_map. split.
  - intros ([[addr pt] es] & Hin & Hm). apply elem_of_map_to_list in Hin.
    case_bool_decide as Hpt; simpl in Hm; [subst pt|by apply not_elem_of_nil in Hm].
    destruct (verified s !! (addr, target_proof_type link)) as [tgts|] eqn:Ht;
      [|by apply not_elem_of_nil in Hm].
    apply elem_of_flat_map in Hm as (src & Hsrc & Hm).
    destruct (source_row s link (party_id src)) as [row|] eqn:Hrow;
      [|by apply not_elem_of_nil in Hm].
    destruct (existsb _ tgts) eqn:Hex; [|by apply not_elem_of_nil in Hm].
    apply list_elem_of_singleton in Hm as ->. exists addr, src. split; [|done].
    split; [by exists es|]. exists row. split; [done|]. rewrite Hsc.
    apply existsb_elem_of in Hex as (tgt & Htgt & Hf). exists tgt.
    split; [by exists tgts|]. by apply negb_true_iff in Hf.
  - intros (addr & src & [(es & Hl & Hsrc) (row & Hrow & Hm)] & ->). rewrite Hsc in Hm.
    destruct Hm as (tgt & (tgts & Ht & Htgt) & Hf).
    exists ((addr, source_proof_type link), es). split; [by apply elem_of_map_to_list|].
    rewrite bool_decide_eq_true_2 by done. simpl. rewrite Ht. apply elem_of_flat_map.
    exists src. split; [done|]. rewrite Hrow.
    rewrite (proj2 (existsb_elem_of _ _)); [by apply list_elem_of_singleton|].
    exists tgt. split; [done|]. by apply negb_true_iff.
Qed.

(** The reported mismatches are exactly the mismatched proofs. *)
Lemma find_mismatches_exact s link m :
  wf s →
  m ∈ find_mismatches s link ↔
  ∃ addr src, Mismatched s link addr src ∧ m = mismatch_of addr (source_proof_type link) src.
Proof.
  intros Hwf. destruct (decide (scope link = SameParty)) as [Hsc|Hsc];
    [by apply find_mismatches_same_party|].
  assert (∀ addr src, Mismatched s link addr src →
    targets_ready s link ∧ ∃ addr' tgt, cached s (target_proof_type link) addr' tgt) as Hneed.
  { intros addr src [_ (row & _ & Hm)]. destruct (scope link); [done|..]; naive_solver. }
  rewrite find_mismatches_set by done.
  destruct (all_of_type s (target_proof_type link)) as [|t ts] eqn:Hall.
  - split; [by intros ?%not_elem_of_nil|]. apply all_of_type_nil in Hall.
    intros (addr & src & Hm & _). by destruct (Hneed _ _ Hm) as [_ ?].
  - rewrite <-Hall. destruct (targets_ready_b s link) eqn:Hr.
    + apply targets_ready_spec in Hr; [|done]. apply unmatched_exact; [done..|].
      assert (t ∈ all_of_type s (target_proof_type link)) as Hin
        by (rewrite Hall; apply list_elem_of_here).
      apply elem_of_all_of_type in Hin as [addr Hc]. eauto.
    + split; [by intros ?%not_elem_of_nil|]. intros (addr & src & Hm & _).
      destruct (Hneed _ _ Hm) as [Hr' _]. apply targets_ready_spec in Hr'; [|done]. congruence.
Qed.

(** ** Preservation *)

Lemma data_hash_fresh (es : list VerifiedProofData) d :
  existsb (λ e, data_hash e =? data_hash d) es = false ↔ data_hash d ∉ data_hash <$> es.
Proof.
  rewrite existsb_false. split.
  - intros Hf (e & E & He)%list_elem_of_fmap. specialize (Hf e He). apply Z.eqb_neq in Hf. congruence.
  - intros Hn e He. apply Z.eqb_neq. intros E. apply Hn. rewrite <-E. by apply list_elem_of_fmap_2.
Qed.

Lemma insert_verified_wf s addr pt d :
  wf s → address d = addr → wf (insert_verified s addr pt d).
Proof.
  intros [Hc Hr] Ha. unfold insert_verified.
  destruct (existsb _ _) eqn:Hex; simpl; (split; [|exact Hr]); simpl; intros k es.
  - destruct (verified s !! (addr, pt)) as [es0|] eqn:Hl; [|done].
    simpl. rewrite insert_id by done. apply Hc.
  - rewrite lookup_insert. case_decide as Hk; [subst k|apply Hc]. intros [= <-].
    apply data_hash_fresh in Hex. split; [by destruct (default _ _)|].
    destruct (verified s !! (addr, pt)) as [es0|] eqn:Hl; simpl in *.
    + destruct (Hc _ _ Hl) as (_ & Hnd & Hf). rewrite fmap_app, NoDup_app, Forall_app. simpl.
      split_and!; [done| |apply NoDup_singleton|done|by constructor].
      intros x Hx ->%list_elem_of_singleton. done.
    + by split; [apply NoDup_singleton|constructor].
Qed.

(** The fields that no cache update touches. *)
Definition same_frame (s s' : CommitmentConsistency) : Prop :=
  e3_id s' = e3_id s ∧ links s' = links s ∧ committee_h s' = committee_h s ∧ roster s' = roster s.

Global Instance same_frame_preorder : PreOrder same_frame.
Proof. split; [done|]. unfold same_frame. intros s1 s2 s3. naive_solver congruence. Qed.

Lemma insert_verified_frame s addr pt d : same_frame s (insert_verified s addr pt d).
Proof. unfold insert_verified. by destruct (negb _). Qed.

Lemma cached_insert s addr pt d pt' addr' e :
  cached (insert_verified s addr pt d) pt' addr' e →
  cached s pt' addr' e ∨ (pt' = pt ∧ addr' = addr ∧ e = d).
Proof.
  unfold insert_verified, cached. intros (es & Hl & He).
  destruct (negb _) eqn:Hex; simpl in Hl; apply lookup_insert_Some in Hl as [[[= <- <-] Hes]|[_ Hl]];
    [|by left; eauto| |by left; eauto].
  - subst es. apply elem_of_app in He as [He| ->%list_elem_of_singleton]; [left|by right].
    destruct (verified s !! (addr, pt)) as [es0|]; [by eauto|by apply not_elem_of_nil in He].
  - subst es. left. destruct (verified s !! (addr, pt)) as [es0|]; [by eauto|].
    by apply not_elem_of_nil in He.
Qed.

Lemma cached_insert_mono s addr pt d pt' addr' e :
  cached s pt' addr' e → cached (insert_verified s addr pt d) pt' addr' e.
Proof.
  intros (es & Hl & He). unfold insert_verified, cached.
  destruct (negb _); simpl; destruct (decide ((addr, pt) = (addr', pt'))) as [[= <- <-]|Hne];
    rewrite ?lookup_insert_eq, ?lookup_insert_ne by done; eauto.
  - rewrite Hl. simpl. eexists. split; [done|]. apply elem_of_app. by left.
  - rewrite Hl. simpl. eauto.
Qed.

(** After an insertion the key holds an entry with the inserted hash. *)
Lemma cached_insert_hash s addr pt d :
  ∃ e, cached (insert_verified s addr pt d) pt addr e ∧ data_hash e = data_hash d.
Proof.
  unfold insert_verified, cached. destruct (existsb _ _) eqn:Hex; simpl; rewrite lookup_insert_eq.
  - apply existsb_elem_of in Hex as (e & He & E%Z.eqb_eq). eauto.
  - exists d. split; [|done]. eexists. split; [done|]. apply elem_of_app. right.
    by apply list_elem_of_singleton.
Qed.

Lemma insert_verified_clean s addr pt d :
  dirty (insert_verified s addr pt d) = false →
  dirty s = false ∧ verified (insert_verified s addr pt d) = verified s.
Proof.
  unfold insert_verified. destruct (existsb _ _) eqn:Hex; [|done]. simpl. intros Hd.
  split; [done|]. destruct (verified s !! (addr, pt)) as [es|] eqn:Hl; [|done].
  by rewrite insert_id.
Qed.

(** The cache entry of a proof of a requested check. *)
Definition entry_of (party : PartyProofData) (p : ProofType * Bytes * B256 * Bytes)
    : VerifiedProofData :=
  let '(pt, signals, hash, pdata) := p in
  mkVerified (ppd_party_id party) (ppd_address party) signals hash pdata.

Definition type_of (p : ProofType * Bytes * B256 * Bytes) : ProofType := p.1.1.1.

Definition cache_one (party : PartyProofData) (s : CommitmentConsistency)
    (p : ProofType * Bytes * B256 * Bytes) : CommitmentConsistency :=
  insert_verified s (ppd_address party) (type_of p) (entry_of party p).

Lemma cache_party_eq s party : cache_party s party = foldl (cache_one party) s (ppd_proofs party).
Proof.
  unfold cache_party. generalize s. induction (ppd_proofs party) as [|[[[pt sg] h] pd] ps IH];
    intros s'; [done|]. apply IH.
Qed.

(** A property that the insertions of an entry list keep holds after caching the parties. *)
Lemma cache_party_ind (P : CommitmentConsistency → Prop) party :
  (∀ s p, p ∈ ppd_proofs party → P s → P (cache_one party s p)) →
  ∀ s, P s → P (cache_party s party).
Proof.
  intros Hstep s Hs. rewrite cache_party_eq.
  assert (∀ ps s, (∀ p, p ∈ ps → p ∈ ppd_proofs party) → P s → P (foldl (cache_one party) s ps))
    as Hall; [|by apply Hall].
  induction ps as [|p ps IH]; intros s' Hin HP; [done|]. simpl. apply IH.
  - intros q Hq. apply Hin. by apply list_elem_of_further.
  - apply Hstep; [|done]. apply Hin, list_elem_of_here.
Qed.

Lemma cache_parties_ind (P : CommitmentConsistency → Prop) parties :
  (∀ s party p, party ∈ parties → p ∈ ppd_proofs party → P s → P (cache_one party s p)) →
  ∀ s, P s → P (foldl cache_party s parties).
Proof.
  intros Hstep s Hs.
  assert (∀ ps s, (∀ p, p ∈ ps → p ∈ parties) → P s → P (foldl cache_party s ps)) as Hall;
    [|by apply Hall].
  induction ps as [|q ps IH]; intros s' Hin HP; [done|]. simpl. apply IH.
  - intros x Hx. apply Hin. by apply list_elem_of_further.
  - apply cache_party_ind; [|done]. intros s2 p Hp. apply Hstep; [|done].
    apply Hin, list_elem_of_here.
Qed.

Lemma entry_of_address party p : address (entry_of party p) = ppd_address party.
Proof. by destruct p as [[[pt sg] h] pd]. Qed.

Lemma cache_parties_wf s parties : wf s → wf (foldl cache_party s parties).
Proof.
  apply cache_parties_ind. intros s' party p _ _ Hwf.
  apply insert_verified_wf; [done|apply entry_of_address].
Qed.

Lemma cache_parties_frame s parties : same_frame s (foldl cache_party s parties).
Proof.
  apply (cache_parties_ind (same_frame s)); [|done]. intros s' party p _ _ Hf.
  etransitivity; [exact Hf|]. apply insert_verified_frame.
Qed.

Lemma cache_parties_clean s parties :
  dirty (foldl cache_party s parties) = false →
  dirty s = false ∧ verified (foldl cache_party s parties) = verified s.
Proof.
  apply (cache_parties_ind (λ s', dirty s' = false → dirty s = false ∧ verified s' = verified s));
    [|done].
  intros s' party p _ _ IH Hd. apply insert_verified_clean in Hd as [Hd E]. unfold cache_one.
  rewrite E. by apply IH.
Qed.
