(* ===== verification/ConsistencyProps.v ===== *)
(** * Properties of the commitment consistency checker

    Preservation of the cache invariant, exactness of the reported violations, provenance of
    every accusation over runs, the purge of inconsistent parties, dirty tracking and the
    snapshot round trip. *)

From S2P Require Import Prelude Events AlloyExample CommitmentLinks ConsistencyChecker.
Open Scope Z_scope.

(** ** The purge of inconsistent parties *)

Lemma retain_parties_Some bad es es' :
  retain_parties bad es = Some es' ↔
  es' ≠ [] ∧ es' = List.filter (λ v, negb (bool_decide (party_id v ∈ bad))) es.
Proof.
  unfold retain_parties. destruct (List.filter _ es) eqn:E; split; naive_solver.
Qed.

Definition purge (s : CommitmentConsistency) (bad : gset Z) (d : bool) : CommitmentConsistency :=
  set_verified s (omap (retain_parties bad) (verified s)) d.

Lemma cached_purge s bad d pt addr e :
  cached (purge s bad d) pt addr e ↔ cached s pt addr e ∧ party_id e ∉ bad.
Proof.
  unfold cached, purge. simpl. split.
  - intros (es & Hl & He). apply lookup_omap_Some in Hl as (es0 & Hr & Hl).
    apply retain_parties_Some in Hr as [_ ->]. apply elem_of_filter_bool in He as [He Hn].
    apply negb_true_iff, bool_decide_eq_false_1 in Hn. eauto.
  - intros [(es & Hl & He) Hn].
    assert (e ∈ List.filter (λ v, negb (bool_decide (party_id v ∈ bad))) es) as Hin.
    { apply elem_of_filter_bool. split; [done|]. by rewrite bool_decide_eq_false_2. }
    eexists. split; [|exact Hin]. apply lookup_omap_Some. exists es. split; [|done].
    apply retain_parties_Some. split; [|done]. intros E. rewrite E in Hin.
    by apply not_elem_of_nil in Hin.
Qed.

Lemma sublist_filter {A} (f : A → bool) (l : list A) : List.filter f l `sublist_of` l.
Proof.
  induction l as [|x l IH]; simpl; [constructor|]. destruct (f x); by constructor.
Qed.

Lemma filter_same_length {A} (f : A → bool) (l : list A) :
  length (List.filter f l) = length l → List.filter f l = l.
Proof.
  induction l as [|x l IH]; simpl; [done|]. destruct (f x); simpl; intros E.
  - f_equal. apply IH. lia.
  - pose proof (filter_length_le f l). lia.
Qed.

Lemma purge_wf s bad d : wf s → wf (purge s bad d).
Proof.
  intros [Hc Hr]. split; [|exact Hr]. simpl. intros k es Hl.
  apply lookup_omap_Some in Hl as (es0 & Hret & Hl). destruct (Hc _ _ Hl) as (_ & Hnd & Hf).
  apply retain_parties_Some in Hret as [Hne ->]. split_and!; [done|..].
  - eapply sublist_NoDup; [exact Hnd|]. apply fmap_sublist, sublist_filter.
  - rewrite Forall_forall in *. intros e [He _]%elem_of_filter_bool. by apply Hf.
Qed.

Definition count_of (v : gmap (Address * ProofType) (list VerifiedProofData)) : nat :=
  map_fold (λ _ es n, (length es + n)%nat) O v.

Lemma cached_proof_count_fold s : cached_proof_count s = count_of (verified s).
Proof.
  unfold cached_proof_count, count_of. rewrite map_fold_foldr.
  induction (map_to_list (verified s)) as [|[k es] l IH]; simpl; [done|]. by f_equal.
Qed.

Lemma count_of_insert v k es :
  v !! k = None → count_of (<[k := es]> v) = (length es + count_of v)%nat.
Proof. intros Hk. unfold count_of. rewrite map_fold_insert_L; [done| |done]. intros. lia. Qed.

(** Dropping entries without lowering the count drops nothing. *)
Lemma purge_count (bad : gset Z) (v : gmap (Address * ProofType) (list VerifiedProofData)) :
  (count_of (omap (retain_parties bad) v) <= count_of v)%nat ∧
  (map_Forall (λ _ es, es ≠ []) v →
   count_of (omap (retain_parties bad) v) = count_of v → omap (retain_parties bad) v = v).
Proof.
  induction v as [|k es v Hk [IHle IH]] using map_ind.
  { rewrite omap_empty. split; [lia|done]. }
  pose proof (filter_length_le (λ v, negb (bool_decide (party_id v ∈ bad))) es) as Hlen.
  assert (omap (retain_parties bad) v !! k = None) as Hk' by (rewrite lookup_omap, Hk; done).
  rewrite (count_of_insert v) by done. destruct (retain_parties bad es) as [es'|] eqn:Hret.
  - rewrite (omap_insert_Some _ _ _ _ es') by done. rewrite count_of_insert by done.
    apply retain_parties_Some in Hret as [_ ->]. split; [lia|].
    rewrite map_Forall_insert by done. intros [_ Hne] E. rewrite IH by (done || lia).
    f_equal. apply filter_same_length. lia.
  - rewrite omap_insert_None by done. split; [rewrite delete_id by done; lia|].
    rewrite map_Forall_insert by done. intros [Hes Hne]. rewrite delete_id by done. intros E.
    destruct es; [done|]. simpl in E. lia.
Qed.

Section Checker.
Context `{AlloyOps}.

(** ** The handlers *)

(** The state after caching the proofs of a requested check, and the parties it excludes. *)
Definition after_caching (s : CommitmentConsistency) (d : CommitmentConsistencyCheckRequested) :=
  foldl cache_party s (cr_party_proofs d).

Definition mismatches_of (s : CommitmentConsistency) : list Mismatch :=
  flat_map (find_mismatches s) (links s).

Definition bad_parties (s : CommitmentConsistency) : gset Z :=
  list_to_set (m_party_id <$> mismatches_of s).

Lemma purge_empty s d : wf s → purge s ∅ d = set_verified s (verified s) d.
Proof.
  intros Hwf. unfold purge. f_equal. apply map_eq. intros k. rewrite lookup_omap.
  destruct (verified s !! k) as [es|] eqn:Hl; [|done]. simpl.
  apply retain_parties_Some. split; [by apply (wf_cache _ Hwf _ _ Hl)|].
  symmetry. clear. induction es as [|e es IH]; [done|]. cbn [List.filter].
  rewrite bool_decide_eq_false_2 by apply not_elem_of_empty. simpl. by rewrite IH.
Qed.

(** The state after a check is the caching state without the excluded parties. *)
Lemma on_check_requested_state s d :
  wf s → cr_e3_id d = e3_id s →
  ∃ b, (on_check_requested s d).1 = purge (after_caching s d) (bad_parties (after_caching s d)) b ∧
    (b = false → dirty s = false ∧
       omap (retain_parties (bad_parties (after_caching s d))) (verified (after_caching s d))
         = verified s).
Proof.
  intros Hwf He3. unfold on_check_requested. rewrite bool_decide_eq_true_2 by done. simpl.
  fold (mismatches_of (after_caching s d)). fold (after_caching s d).
  change (flat_map _ _) with (mismatches_of (after_caching s d)).
  fold (bad_parties (after_caching s d)).
  pose proof (cache_parties_wf s (cr_party_proofs d) Hwf) as Hwf1. fold (after_caching s d) in Hwf1.
  pose proof (cache_parties_clean s (cr_party_proofs d)) as Hcl. fold (after_caching s d) in Hcl.
  case_bool_decide as Hb.
  - rewrite Hb. exists (dirty (after_caching s d)). rewrite purge_empty by done.
    split; [by destruct (after_caching s d)|]. intros Hd.
    pose proof (f_equal verified (purge_empty _ true Hwf1)) as E. simpl in E. rewrite E. auto.
  - eexists. split; [done|]. intros [Hd Hc]%orb_false_iff. apply negb_false_iff, Nat.eqb_eq in Hc.
    rewrite !cached_proof_count_fold in Hc. simpl in Hc.
    destruct (Hcl Hd) as [Hd' Hv]. split; [done|]. rewrite <-Hv.
    apply (purge_count (bad_parties (after_caching s d))); [|done].
    intros k es Hl. apply (wf_cache _ Hwf1 _ _ Hl).
Qed.

Lemma on_check_requested_other s d :
  cr_e3_id d ≠ e3_id s → on_check_requested s d = (s, None).
Proof. intros Hn. unfold on_check_requested. by rewrite bool_decide_eq_false_2. Qed.

Lemma on_roster_selected_state s e :
  (on_roster_selected s e).1 = s ∨
  (roster s = None ∧ length (party_ids e) = committee_h s ∧
   strictly_increasing (party_ids e) = true ∧
   (on_roster_selected s e).1 = set_roster s (Some (party_ids e)) true).
Proof.
  unfold on_roster_selected. destruct (negb _); [by left|].
  destruct (Nat.eqb_spec (length (party_ids e)) (committee_h s)); [|by left]. simpl.
  destruct (strictly_increasing (party_ids e)); [|by left]. simpl.
  destruct (roster s); [by left|by right].
Qed.

Lemma step_wf s i : wf s → wf (step s i).1.
Proof.
  intros Hwf. destruct i as [e|d|d| |]; simpl.
  - destruct (on_roster_selected_state s e) as [->|(_ & Hl & Hi & ->)]; [done|].
    split; [apply Hwf|]. simpl. intros r [= <-]. done.
  - unfold on_proof_verified. destruct (negb _); [done|]. by apply insert_verified_wf.
  - destruct (on_check_requested s d) as [s' o] eqn:E. simpl.
    destruct (decide (cr_e3_id d = e3_id s)) as [He|Hn].
    + destruct (on_check_requested_state s d Hwf He) as (b & Eb & _). rewrite E in Eb. simpl in Eb.
      subst s'. by apply purge_wf, cache_parties_wf.
    + rewrite on_check_requested_other in E by done. by injection E as <- <-.
  - unfold take_snapshot_if_changed. destruct (negb _); [done|]. split; apply Hwf.
  - split; apply Hwf.
Qed.

(** What a transition leaves alone; a roster is set at most once. *)
Lemma step_frame s i :
  let s' := (step s i).1 in
  e3_id s' = e3_id s ∧ links s' = links s ∧ committee_h s' = committee_h s ∧
  (∀ r, roster s = Some r → roster s' = Some r).
Proof.
  destruct i as [e|d|d| |]; simpl.
  - destruct (on_roster_selected_state s e) as [->|(Hn & _ & _ & ->)]; [done|]. simpl.
    split_and!; [done..|]. congruence.
  - unfold on_proof_verified. destruct (negb _); [done|]. simpl.
    destruct (insert_verified_frame s (pvp_address d) (pvp_proof_type d) (mkVerified (pvp_party_id d)
      (pvp_address d) (pvp_public_signals d) (pvp_data_hash d) (pvp_proof_data d)))
      as (-> & -> & -> & ->). done.
  - pose proof (cache_parties_frame s (cr_party_proofs d)) as (E1 & E2 & E3 & E4).
    unfold on_check_requested. destruct (negb _); [done|]. simpl.
    destruct (bool_decide _); simpl; rewrite E1, E2, E3, E4; done.
  - unfold take_snapshot_if_changed. by destruct (negb _).
  - done.
Qed.

(** ** Violations *)

(** The violation reported for a mismatched proof. *)
Definition violation_for (e3 : E3id) (link : CommitmentLink) (addr : Address)
    (src : VerifiedProofData) : CommitmentConsistencyViolation :=
  mkCCV e3 (party_id src) addr (source_proof_type link) (data_hash src)
    (evidence_of (proof_data src) (vp_public_signals src)).

Lemma elem_of_check_links s pt v :
  wf s →
  v ∈ check_links s pt ↔
  ∃ link addr src, link ∈ links s ∧ (pt = source_proof_type link ∨ pt = target_proof_type link) ∧
    Mismatched s link addr src ∧ data_hash src ≠ 0 ∧ v = violation_for (e3_id s) link addr src.
Proof.
  intros Hwf. unfold check_links. rewrite elem_of_flat_map. split.
  - intros (link & Hlink & Hv). destruct (_ && _) eqn:Hg; [by apply not_elem_of_nil in Hv|].
    apply elem_of_flat_map in Hv as (m & Hm & Hv).
    destruct (Z.eqb_spec (m_data_hash m) 0) as [|Hne]; [by apply not_elem_of_nil in Hv|].
    apply list_elem_of_singleton in Hv as ->.
    apply find_mismatches_exact in Hm as (addr & src & Hm & ->); [|done].
    exists link, addr, src. split_and!; try done.
    apply andb_false_iff in Hg as [Hg|Hg]; apply negb_false_iff, bool_decide_eq_true_1 in Hg; auto.
  - intros (link & addr & src & Hlink & Hpt & Hm & Hh & ->). exists link. split; [done|].
    replace (_ && _) with false.
    2:{ symmetry. apply andb_false_iff.
        destruct Hpt as [Hpt|Hpt]; [left|right]; by rewrite bool_decide_eq_true_2. }
    apply elem_of_flat_map. exists (mismatch_of addr (source_proof_type link) src). split.
    + apply find_mismatches_exact; [done|eauto].
    + simpl. rewrite (proj2 (Z.eqb_neq _ _)) by done. by apply list_elem_of_singleton.
Qed.

Lemma elem_of_mismatches_of s m :
  wf s →
  m ∈ mismatches_of s ↔
  ∃ link addr src, link ∈ links s ∧ Mismatched s link addr src ∧
    m = mismatch_of addr (source_proof_type link) src.
Proof.
  intros Hwf. unfold mismatches_of. rewrite elem_of_flat_map. split.
  - intros (link & Hl & Hm). apply find_mismatches_exact in Hm as (addr & src & ? & ?); eauto 10.
  - intros (link & addr & src & Hl & Hm & ->). exists link. split; [done|].
    apply find_mismatches_exact; eauto.
Qed.

Lemma elem_of_bad_parties s p :
  wf s →
  p ∈ bad_parties s ↔ ∃ link addr src, link ∈ links s ∧ Mismatched s link addr src ∧ party_id src = p.
Proof.
  intros Hwf. unfold bad_parties. rewrite elem_of_list_to_set, list_elem_of_fmap. split.
  - intros (m & -> & Hm). apply elem_of_mismatches_of in Hm as (link & addr & src & ? & ? & ->);
      [|done]. eauto 10.
  - intros (link & addr & src & Hl & Hm & <-).
    exists (mismatch_of addr (source_proof_type link) src). split; [done|].
    apply elem_of_mismatches_of; eauto 10.
Qed.

(** [e] is a proof of type [pt] that input [i] brings for E3 [e3]. *)
Definition submitted (e3 : E3id) (i : CheckerInput) (pt : ProofType) (e : VerifiedProofData)
    : Prop :=
  match i with
  | ProofVerified d => pvp_e3_id d = e3 ∧ pt = pvp_proof_type d ∧
      e = mkVerified (pvp_party_id d) (pvp_address d) (pvp_public_signals d) (pvp_data_hash d)
            (pvp_proof_data d)
  | CheckRequested d => cr_e3_id d = e3 ∧ ∃ party p, party ∈ cr_party_proofs d ∧
      p ∈ ppd_proofs party ∧ pt = type_of p ∧ e = entry_of party p
  | _ => False
  end.

(** The state in which the handler of [i] evaluates the links. *)
Definition evaluated (s : CommitmentConsistency) (i : CheckerInput) : CommitmentConsistency :=
  match i with
  | CheckRequested d => if bool_decide (cr_e3_id d = e3_id s) then after_caching s d else s
  | _ => (step s i).1
  end.

Lemma evaluated_wf s i : wf s → wf (evaluated s i).
Proof.
  intros Hwf. pose proof (step_wf s i Hwf). destruct i; try done. simpl.
  case_bool_decide; [by apply cache_parties_wf|done].
Qed.

Lemma evaluated_cached s i pt addr e :
  cached (evaluated s i) pt addr e → cached s pt addr e ∨ submitted (e3_id s) i pt e.
Proof.
  destruct i as [r|d|d| |]; simpl.
  - destruct (on_roster_selected_state s r) as [->|(_ & _ & _ & ->)]; auto.
  - unfold on_proof_verified. case_bool_decide as He; [|auto]. simpl.
    intros [?|(-> & _ & ->)]%cached_insert; [by left|by right].
  - case_bool_decide as He; [|auto]. revert pt addr e. unfold after_caching.
    apply (cache_parties_ind (λ s1, ∀ pt a e, cached s1 pt a e →
      cached s pt a e ∨ submitted (e3_id s) (CheckRequested d) pt e)); [|auto].
    intros s1 party p Hparty Hp IH pt a e Hc. apply cached_insert in Hc as [Hc|(-> & -> & ->)];
      [by eauto|]. right. split; [done|]. eauto 10.
  - unfold take_snapshot_if_changed. destruct (negb _); auto.
  - auto.
Qed.

Lemma evaluated_config s i :
  e3_id (evaluated s i) = e3_id s ∧ links (evaluated s i) = links s.
Proof.
  destruct (step_frame s i) as (E1 & E2 & _). destruct i as [r|d|d| |]; try done. simpl.
  case_bool_decide; [|done].
  destruct (cache_parties_frame s (cr_party_proofs d)) as (F1 & F2 & _). done.
Qed.

(** Every violation of a transition is for a mismatched proof of a registered link. *)
Lemma step_violation s i v :
  wf s → v ∈ (step s i).2 →
  ∃ link addr src, link ∈ links s ∧ Mismatched (evaluated s i) link addr src ∧
    v = violation_for (e3_id s) link addr src.
Proof.
  intros Hwf Hv. pose proof (evaluated_wf s i Hwf) as Hwf'.
  destruct (evaluated_config s i) as [E1 E2].
  assert (∀ pt, v ∈ check_links (evaluated s i) pt → ∃ link addr src, link ∈ links s ∧
    Mismatched (evaluated s i) link addr src ∧ v = violation_for (e3_id s) link addr src) as Hcl.
  { intros pt (link & addr & src & Hl & _ & Hm & _ & ->)%elem_of_check_links; [|done].
    rewrite E1, E2 in *. eauto 10. }
  destruct i as [r|d|d| |]; simpl in Hv; try by apply not_elem_of_nil in Hv.
  - enough (∃ pt, v ∈ check_links (evaluated s (RosterSelected r)) pt) as [pt ?] by eauto.
    clear Hcl Hwf' E1 E2. simpl. unfold on_roster_selected in *.
    repeat (destruct (negb _); [by apply not_elem_of_nil in Hv|]).
    destruct (roster s); [by apply not_elem_of_nil in Hv|]. apply elem_of_app in Hv as [Hv|Hv]; eauto.
  - enough (∃ pt, v ∈ check_links (evaluated s (ProofVerified d)) pt) as [pt ?] by eauto.
    clear Hcl Hwf' E1 E2. simpl. unfold on_proof_verified in *.
    destruct (negb _); [by apply not_elem_of_nil in Hv|]. eauto.
  - simpl in Hwf', E1, E2 |- *. unfold on_check_requested in Hv.
    case_bool_decide; simpl in Hv; [|by apply not_elem_of_nil in Hv]. fold (after_caching s d) in Hv.
    apply list_elem_of_fmap in Hv as (m & -> & Hm).
    apply elem_of_mismatches_of in Hm as (link & addr & src & Hlk & Hm & ->); [|done].
    rewrite E2 in Hlk. exists link, addr, src. split_and!; [done..|].
    unfold build_violation, violation_for. simpl. by rewrite E1.
Qed.

Lemma step_cached s i pt addr e :
  wf s → cached (step s i).1 pt addr e → cached s pt addr e ∨ submitted (e3_id s) i pt e.
Proof.
  intros Hwf. destruct i as [r|d|d| |];
    [exact (evaluated_cached s (RosterSelected r) pt addr e)
    |exact (evaluated_cached s (ProofVerified d) pt addr e)|
    |exact (evaluated_cached s TakeSnapshot pt addr e)
    |exact (evaluated_cached s SnapshotFailed pt addr e)].
  simpl. destruct (on_check_requested s d) as [s' o] eqn:E. simpl.
  destruct (decide (cr_e3_id d = e3_id s)) as [He|Hn].
  - destruct (on_check_requested_state s d Hwf He) as (b & Eb & _). rewrite E in Eb. simpl in Eb.
    subst s'. intros [Hc _]%cached_purge. apply (evaluated_cached s (CheckRequested d)). simpl.
    by rewrite bool_decide_eq_true_2.
  - rewrite on_check_requested_other in E by done. injection E as <- <-. auto.
Qed.

(** ** Runs *)

Lemma run_cons s i inputs :
  run s (i :: inputs) =
  ((run (step s i).1 inputs).1, (step s i).2 ++ (run (step s i).1 inputs).2).
Proof. simpl. destruct (step s i) as [s1 v1]. simpl. by destruct (run s1 inputs). Qed.

Lemma run_wf s inputs : wf s → wf (run s inputs).1.
Proof.
  revert s. induction inputs as [|i inputs IH]; intros s Hwf; [done|].
  rewrite run_cons. by apply IH, step_wf.
Qed.

Lemma run_frame s inputs :
  let s' := (run s inputs).1 in
  e3_id s' = e3_id s ∧ links s' = links s ∧ committee_h s' = committee_h s ∧
  (∀ r, roster s = Some r → roster s' = Some r).
Proof.
  revert s. induction inputs as [|i inputs IH]; intros s; [done|].
  rewrite run_cons. simpl. destruct (step_frame s i) as (E1 & E2 & E3 & E4).
  destruct (IH (step s i).1) as (F1 & F2 & F3 & F4). split_and!; try congruence. auto.
Qed.

Lemma new_wf e3 ls h : wf (new e3 ls h).
Proof. split; simpl; intros *; [by rewrite lookup_empty|done]. Qed.

(** A violation of a run is one of its transitions. *)
Lemma run_violation_at s inputs v :
  v ∈ (run s inputs).2 →
  ∃ before i after, inputs = before ++ i :: after ∧ v ∈ (step (run s before).1 i).2.
Proof.
  revert s. induction inputs as [|i inputs IH]; intros s Hv; [by apply not_elem_of_nil in Hv|].
  rewrite run_cons in Hv. simpl in Hv. apply elem_of_app in Hv as [Hv|Hv]; [by exists [], i, inputs|].
  destruct (IH _ Hv) as (before & j & after & -> & Hj). exists (i :: before), j, after. by rewrite run_cons.
Qed.

(** What is cached after a run was there or was submitted. *)
Lemma run_cached s inputs pt addr e :
  wf s → cached (run s inputs).1 pt addr e → cached s pt addr e ∨ ∃ i, i ∈ inputs ∧ submitted (e3_id s) i pt e.
Proof.
  revert s. induction inputs as [|i inputs IH]; intros s Hwf; [by left|]. rewrite run_cons. simpl.
  destruct (step_frame s i) as (E1 & _). intros [Hc|(j & Hj & Hs)]%IH; [| |by apply step_wf].
  - apply step_cached in Hc as [?|Hs]; [by left|right|done]. exists i. split; [apply list_elem_of_here|done].
  - right. exists j. rewrite E1 in Hs. split; [by apply list_elem_of_further|done].
Qed.

(** Where a violation of a run comes from: the links are evaluated on what the run cached. *)
Lemma run_violation s inputs v :
  wf s → v ∈ (run s inputs).2 →
  ∃ before i after link addr src, inputs = before ++ i :: after ∧ link ∈ links s ∧
    Mismatched (evaluated (run s before).1 i) link addr src ∧ v = violation_for (e3_id s) link addr src ∧
    ∀ pt a e, cached (evaluated (run s before).1 i) pt a e →
      cached s pt a e ∨ ∃ j, j ∈ before ++ [i] ∧ submitted (e3_id s) j pt e.
Proof.
  intros Hwf (before & i & after & -> & Hv)%run_violation_at.
  destruct (run_frame s before) as (E1 & E2 & _). pose proof (run_wf s before Hwf) as Hwf1.
  apply step_violation in Hv as (link & addr & src & Hl & Hm & ->); [|done]. rewrite E1. rewrite E2 in Hl.
  exists before, i, after, link, addr, src. split_and!; [done..|]. intros pt a e [Hc|Hs]%evaluated_cached.
  - apply run_cached in Hc as [?|(j & Hj & Hs)]; [by left| |done]. right. exists j. split; [apply elem_of_app; by left|done].
  - right. exists i. rewrite E1 in Hs. split; [apply elem_of_app; right; apply list_elem_of_here|done].
Qed.

(** A transition other than taking a snapshot that ends clean started clean and changed
    nothing that a snapshot holds. *)
Lemma step_clean s i :
  wf s → i ≠ TakeSnapshot → dirty (step s i).1 = false →
  dirty s = false ∧ verified (step s i).1 = verified s ∧ roster (step s i).1 = roster s.
Proof.
  intros Hwf Hi Hd. destruct i as [r|d|d| |]; try done; simpl in *.
  - destruct (on_roster_selected_state s r) as [E|(_ & _ & _ & E)]; rewrite E in *; done.
  - unfold on_proof_verified in *. destruct (negb _); [done|]. simpl in *.
    destruct (insert_verified_frame s (pvp_address d) (pvp_proof_type d) (mkVerified (pvp_party_id d)
      (pvp_address d) (pvp_public_signals d) (pvp_data_hash d) (pvp_proof_data d)))
      as (_ & _ & _ & Er). apply insert_verified_clean in Hd as [? ?]. done.
  - destruct (on_check_requested s d) as [s' o] eqn:E. simpl in *.
    destruct (decide (cr_e3_id d = e3_id s)) as [He|Hn].
    + destruct (on_check_requested_state s d Hwf He) as (b & Eb & Hb). rewrite E in Eb.
      simpl in Eb. subst s'. simpl in *. subst b. destruct (Hb eq_refl) as [Hd' Hv].
      split_and!; [done..|].
      by destruct (cache_parties_frame s (cr_party_proofs d)) as (_ & _ & _ & ?).
    + rewrite on_check_requested_other in E by done. by injection E as <- <-.
Qed.

(** ** Snapshots *)

(** Two states that hold the same proofs in another order. *)
Definition cache_equiv (s s' : CommitmentConsistency) : Prop :=
  e3_id s' = e3_id s ∧ links s' = links s ∧ committee_h s' = committee_h s ∧
  roster s' = roster s ∧ ∀ pt addr e, cached s' pt addr e ↔ cached s pt addr e.

Global Instance cache_equiv_equivalence : Equivalence cache_equiv.
Proof.
  split.
  - by intros s.
  - intros s s' (? & ? & ? & ? & Hc). unfold cache_equiv. split_and!; done.
  - intros s1 s2 s3 (A1 & A2 & A3 & A4 & A5) (B1 & B2 & B3 & B4 & B5).
    split_and!; try congruence. intros. by rewrite B5, A5.
Qed.

(** What is a mismatch depends on the held proofs only. *)
Global Instance Mismatched_proper :
  Proper (cache_equiv ==> eq ==> eq ==> eq ==> iff) Mismatched.
Proof.
  assert (∀ s s' link addr src, cache_equiv s s' → Mismatched s link addr src →
    Mismatched s' link addr src) as Hmono.
  { intros s s' link addr src (E1 & E2 & E3 & E4 & Hc) [Hsrc (row & Hrow & Hm)].
    split; [by apply Hc|]. exists row. split; [by unfold source_row in *; rewrite E4|].
    assert (targets_ready s link → targets_ready s' link) as Hr.
    { unfold targets_ready. rewrite E4. destruct (scope link); [done..|].
      intros [? Hr]. split; [done|]. intros H24. destruct (Hr H24) as (r & ? & Hp). exists r.
      split; [done|]. intros p Hin. destruct (Hp p Hin) as (a & t & Ht & ?). exists a, t.
      by rewrite Hc. }
    destruct (scope link).
    - destruct Hm as (tgt & Ht & Hf). exists tgt. by rewrite Hc.
    - destruct Hm as (Hrd & Hv & (a & t & Ht) & Hall). split_and!; [by apply Hr|done| |].
      + exists a, t. by rewrite Hc.
      + intros a' t'. rewrite Hc. apply Hall.
    - destruct Hm as (Hrd & Hv & (a & t & Ht) & Hall). split_and!; [by apply Hr|done| |].
      + exists a, t. by rewrite Hc.
      + intros a' t'. rewrite Hc. apply Hall. }
  intros s s' He link ? <- addr ? <- src ? <-. split; apply Hmono; [done|by symmetry].
Qed.

Lemma foldl_insert_lookup {V} (l : list ((Address * ProofType) * V))
    (m : gmap (Address * ProofType) V) k v :
  NoDup l.*1 →
  foldl (λ m '(k, v), <[k := v]> m) m l !! k = Some v ↔
  (k, v) ∈ l ∨ (k ∉ l.*1 ∧ m !! k = Some v).
Proof.
  revert m. induction l as [|[k' v'] l IH]; intros m Hnd; simpl.
  { rewrite elem_of_nil. set_solver. }
  apply NoDup_cons in Hnd as [Hn Hnd]. rewrite IH by done. rewrite lookup_insert_Some.
  rewrite !elem_of_cons. split.
  - intros [?|(Hk & [[-> ->]|[Hne Hm]])]; [by auto|by auto|]. right. split; [|done].
    intros [?|?]; [by subst|done].
  - intros [[[= -> ->]|?]|(Hk & Hm)]; [right; auto|by auto|]. right. split; [naive_solver|].
    right. split; [|done]. intros ->. apply Hk. by left.
Qed.

(** The entries of a snapshot are the cache, each list sorted. *)
Lemma snapshot_entries s k es :
  (k, es) ∈ cs_entries (snapshot s) ↔
  ∃ es0, verified s !! k = Some es0 ∧ es = merge_sort hash_le es0.
Proof.
  simpl. rewrite merge_sort_Permutation, list_elem_of_fmap. split.
  - intros ([k' es0] & [= -> ->] & Hin). apply elem_of_map_to_list in Hin. eauto.
  - intros (es0 & Hl & ->). exists (k, es0). split; [done|]. by apply elem_of_map_to_list.
Qed.

Lemma snapshot_keys_nodup s : NoDup ((cs_entries (snapshot s)).*1).
Proof.
  simpl. rewrite merge_sort_Permutation, <-list_fmap_compose.
  rewrite (list_fmap_ext _ fst); [apply NoDup_fst_map_to_list|]. by intros i [k es] _.
Qed.

Lemma restore_cached s0 s s' :
  restore s0 (snapshot s) = Some s' →
  ∀ pt addr e, cached s' pt addr e ↔ cached s pt addr e.
Proof.
  intros Hr pt addr e. unfold restore in Hr. simpl in Hr. injection Hr as <-.
  unfold cached. simpl. split.
  - intros (es & Hl & He). apply foldl_insert_lookup in Hl; [|apply snapshot_keys_nodup].
    destruct Hl as [Hin|[_ Hl]]; [|by rewrite lookup_empty in Hl].
    apply snapshot_entries in Hin as (es0 & Hl & ->). exists es0.
    by rewrite merge_sort_Permutation in He.
  - intros (es & Hl & He). exists (merge_sort hash_le es).
    split; [|by rewrite merge_sort_Permutation].
    apply foldl_insert_lookup; [apply snapshot_keys_nodup|]. left.
    apply snapshot_entries. eauto.
Qed.

Lemma restore_wf s0 s s' :
  wf s → committee_h s0 = committee_h s → restore s0 (snapshot s) = Some s' → wf s'.
Proof.
  intros [Hc Hro] Hh Hr. unfold restore in Hr. simpl in Hr. injection Hr as <-. split; simpl.
  - intros k es Hl. apply foldl_insert_lookup in Hl; [|apply snapshot_keys_nodup].
    destruct Hl as [Hin|[_ Hl]]; [|by rewrite lookup_empty in Hl].
    apply snapshot_entries in Hin as (es0 & Hl & ->). destruct (Hc _ _ Hl) as (Hne & Hnd & Hf).
    split_and!.
    + intros E. apply Hne. apply Permutation_nil. rewrite <-E. apply merge_sort_Permutation.
    + by rewrite merge_sort_Permutation.
    + by rewrite merge_sort_Permutation.
  - intros r Hro'. rewrite Hh. by apply Hro.
Qed.

(** ** Theorems *)

(** a verified proof is cached and reported against exactly: after it is handled a proof
    with its hash is cached, and the violations are precisely those of the cached proofs that
    contradict, by a registered link in which the new proof type takes part, the cached
    targets (with a resolved hash), each with its own hash and evidence preimage. *)
Theorem proof_verified_reports_exactly (s : CommitmentConsistency) (d : ProofVerificationPassed)
    (v : CommitmentConsistencyViolation) :
  wf s → pvp_e3_id d = e3_id s →
  let s1 := (on_proof_verified s d).1 in
  (∃ e, cached s1 (pvp_proof_type d) (pvp_address d) e ∧ data_hash e = pvp_data_hash d) ∧
  (v ∈ (on_proof_verified s d).2 ↔
   ∃ link addr src, link ∈ links s ∧
     (pvp_proof_type d = source_proof_type link ∨ pvp_proof_type d = target_proof_type link) ∧
     Mismatched s1 link addr src ∧ data_hash src ≠ 0 ∧
     v = violation_for (e3_id s) link addr src).
Proof.
  intros Hwf He s1. subst s1. unfold on_proof_verified. rewrite bool_decide_eq_true_2 by done.
  simpl. set (x := mkVerified _ _ _ _ _). split; [apply (cached_insert_hash _ _ _ x)|].
  destruct (insert_verified_frame s (pvp_address d) (pvp_proof_type d) x) as (E1 & E2 & _).
  rewrite elem_of_check_links by (by apply insert_verified_wf). by rewrite E1, E2.
Qed.

(** the pre-ZK check excludes exactly the contradicted parties: it answers only requests
    for this E3; the excluded parties are those of the mismatched proofs in the cache with
    the submitted proofs added, one violation is reported for each such proof, and afterwards
    the cache holds exactly the proofs of the parties that were not excluded. *)
Theorem check_requested_excludes_exactly (s s' : CommitmentConsistency)
    (d : CommitmentConsistencyCheckRequested) (out : PreZkOutcome) :
  wf s → on_check_requested s d = (s', Some out) →
  let s1 := foldl cache_party s (cr_party_proofs d) in
  cr_e3_id d = e3_id s ∧ cc_correlation_id (complete out) = cr_correlation_id d ∧
  (∀ p, p ∈ inconsistent_parties (complete out) ↔
     ∃ link addr src, link ∈ links s ∧ Mismatched s1 link addr src ∧ party_id src = p) ∧
  (∀ v, v ∈ violations out ↔
     ∃ link addr src, link ∈ links s ∧ Mismatched s1 link addr src ∧
       v = violation_for (e3_id s) link addr src) ∧
  (∀ pt addr e, cached s' pt addr e ↔
     cached s1 pt addr e ∧ party_id e ∉ inconsistent_parties (complete out)).
Proof.
  intros Hwf E s1. destruct (decide (cr_e3_id d = e3_id s)) as [He|Hn];
    [|by rewrite on_check_requested_other in E].
  pose proof (cache_parties_wf s (cr_party_proofs d) Hwf) as Hwf1.
  destruct (cache_parties_frame s (cr_party_proofs d)) as (E1 & E2 & _).
  destruct (on_check_requested_state s d Hwf He) as (b & Eb & _). rewrite E in Eb. simpl in Eb.
  assert (out = mkPreZk (build_violation s1 <$> mismatches_of s1)
    (mkCheckComplete (cr_e3_id d) (cr_kind d) (cr_correlation_id d) (bad_parties s1))) as ->.
  { unfold on_check_requested in E. rewrite bool_decide_eq_true_2 in E by done.
    by injection E as _ <-. }
  simpl. fold s1 in Hwf1, E1, E2. split_and!; [done..| | |].
  - intros p. rewrite elem_of_bad_parties by done. by rewrite E2.
  - intros v. rewrite list_elem_of_fmap. unfold violation_for. split.
    + intros (m & -> & (link & addr & src & ? & ? & ->)%elem_of_mismatches_of); [|done].
      exists link, addr, src. rewrite E2 in *. split_and!; [done..|].
      unfold build_violation. simpl. by rewrite E1.
    + intros (link & addr & src & Hl & Hm & ->).
      exists (mismatch_of addr (source_proof_type link) src).
      unfold build_violation. simpl. rewrite E1. split; [done|].
      apply elem_of_mismatches_of; [done|]. rewrite E2. by exists link, addr, src.
  - intros pt addr e. subst s'. apply cached_purge.
Qed.

(** C9: Every accusation has its evidence: a violation reported in any run of a fresh checker is
    reported at one input, for a proof that contradicts by a registered link the proofs that the
    checker holds there, and all of these, the accused one included, were submitted for this E3 by
    the inputs up to that one; when the submitted hashes are those of their evidence, the violation's
    hash is the hash of its evidence. *)
Theorem run_violations_sound (e3 : E3id) (ls : list CommitmentLink) (h : nat)
    (inputs : list CheckerInput) (v : CommitmentConsistencyViolation) :
  v ∈ (run (new e3 ls h) inputs).2 →
  (∃ before i after link addr src, inputs = before ++ i :: after ∧ link ∈ ls ∧
     let holds := evaluated (run (new e3 ls h) before).1 i in
     Mismatched holds link addr src ∧ v = violation_for e3 link addr src ∧
     (∃ j, j ∈ before ++ [i] ∧ submitted e3 j (source_proof_type link) src) ∧
     ∀ pt a e, cached holds pt a e → ∃ j, j ∈ before ++ [i] ∧ submitted e3 j pt e) ∧
  ((∀ i pt e, i ∈ inputs → submitted e3 i pt e →
      data_hash e = keccak256 (evidence_of (proof_data e) (vp_public_signals e))) →
   ccv_data_hash v = keccak256 (ccv_evidence v)).
Proof.
  intros (before & i & after & link & addr & src & -> & Hl & Hm & -> & Hc)%run_violation; [|apply new_wf].
  assert (∀ pt a e, cached (evaluated (run (new e3 ls h) before).1 i) pt a e → ∃ j, j ∈ before ++ [i] ∧ submitted e3 j pt e) as Hc'.
  { intros pt a e Hcached. destruct (Hc pt a e Hcached) as [(es & Hes & _)|?]; [|done]. simpl in Hes. by rewrite lookup_empty in Hes. }
  destruct (Hc' _ _ _ (proj1 Hm)) as (j & Hj & Hs). split.
  - exists before, i, after, link, addr, src. do 2 (split; [done|]). split; [exact Hm|]. split; [done|].
    split; [by exists j|done].
  - intros Hh. apply (Hh j (source_proof_type link) src); [|done]. rewrite cons_middle, app_assoc. apply elem_of_app. by left.
Qed.

(** in every run from a fresh checker the cache files proofs under their own address
    without repeated hashes or empty lists, and the roster is canonical; an accepted roster is
    never replaced. *)
Theorem run_keeps_cache_and_roster (e3 : E3id) (ls : list CommitmentLink) (h : nat)
    (before after : list CheckerInput) :
  let s := (run (new e3 ls h) before).1 in
  wf s ∧ committee_h s = h ∧
  ∀ r, roster s = Some r → length r = h ∧ NoDup r ∧ roster (run s after).1 = Some r.
Proof.
  intros s. pose proof (run_wf _ before (new_wf e3 ls h)) as Hwf. fold s in Hwf.
  destruct (run_frame (new e3 ls h) before) as (_ & _ & Hh & _). fold s in Hh.
  split_and!; [done..|]. intros r Hr. destruct (wf_roster _ Hwf r Hr) as [Hlen Hinc].
  split_and!; [by rewrite Hlen|by apply strictly_increasing_NoDup|].
  by apply (run_frame s after).
Qed.

(** accusations by absence wait for everyone: with the default links, a proof that is
    reported because no target matches is a C2 proof of a dealer in the accepted roster, and
    every dealer of that roster has a cached C4 proof; C3 proofs are never reported for a
    missing C0. *)
Theorem absence_waits_for_roster (s : CommitmentConsistency) (l : nat) (link : CommitmentLink)
    (m : Mismatch) :
  wf s → link ∈ default_links l → scope link = SourceMustExistInTargets →
  m ∈ find_mismatches s link →
  is_c2_to_c4 (source_proof_type link) (target_proof_type link) = true ∧
  m_proof_type m = source_proof_type link ∧
  ∃ r, roster s = Some r ∧ length r = committee_h s ∧ m_party_id m ∈ r ∧
    ∀ p, p ∈ r → ∃ addr tgt, cached s (target_proof_type link) addr tgt ∧ party_id tgt = p.
Proof.
  intros Hwf Hlink Hsc Hm. apply find_mismatches_exact in Hm as (addr & src & Hm & ->); [|done].
  destruct Hm as [_ (row & Hrow & Hm)]. rewrite Hsc in Hm. destruct Hm as [Hready _].
  unfold targets_ready in Hready. rewrite Hsc in Hready. destruct Hready as [H30 Hready].
  assert (is_c2_to_c4 (source_proof_type link) (target_proof_type link) = true) as H24.
  { apply list_elem_of_In in Hlink. repeat destruct Hlink as [<-|Hlink]; done. }
  destruct (Hready H24) as (r & Hr & Hall). split_and!; [done..|]. exists r.
  destruct (wf_roster _ Hwf r Hr) as [Hlen _]. split_and!; [done..| |done].
  unfold source_row in Hrow. rewrite H24, Hr in Hrow. simpl in Hrow.
  destruct (position _ r) as [i|] eqn:Hp; [|done].
  apply position_Some in Hp as (x & Hx & E%Z.eqb_eq & _). subst x.
  by apply list_elem_of_lookup_2 in Hx.
Qed.

(** nothing unsaved is lost: if a run without snapshots ends with the dirty flag down, it
    started with the flag down and the state a snapshot would write is unchanged. *)
Theorem clean_state_is_saved (s : CommitmentConsistency) (inputs : list CheckerInput) :
  wf s → TakeSnapshot ∉ inputs → dirty (run s inputs).1 = false →
  dirty s = false ∧ snapshot (run s inputs).1 = snapshot s.
Proof.
  intros Hwf Hin Hd. cut (dirty s = false ∧ verified (run s inputs).1 = verified s ∧
    roster (run s inputs).1 = roster s).
  { intros (? & Ev & Er). split; [done|]. unfold snapshot. by rewrite Ev, Er. }
  revert s Hwf Hd. induction inputs as [|i inputs IH]; intros s Hwf Hd; [done|].
  rewrite run_cons in *. simpl in *. rewrite not_elem_of_cons in Hin. destruct Hin as [Hi Hin].
  destruct (IH Hin _ (step_wf s i Hwf) Hd) as (Hd' & Ev & Er).
  destruct (step_clean s i Hwf) as (? & Ev' & Er'); [congruence|done|]. rewrite Ev, Er. done.
Qed.

(** a restart does not change decisions: a checker for the same E3 that restores the
    snapshot of a state holds the same proofs and the same roster, is clean, and reports
    exactly the same mismatches for every link. *)
Theorem restart_keeps_decisions (s s0 s' : CommitmentConsistency) :
  wf s → e3_id s0 = e3_id s → links s0 = links s → committee_h s0 = committee_h s →
  restore s0 (snapshot s) = Some s' →
  cache_equiv s s' ∧ wf s' ∧ dirty s' = false ∧
  ∀ link m, m ∈ find_mismatches s' link ↔ m ∈ find_mismatches s link.
Proof.
  intros Hwf E1 E2 E3 Hr. pose proof (restore_wf s0 s s' Hwf E3 Hr) as Hwf'.
  assert (cache_equiv s s') as He.
  { pose proof (restore_cached s0 s s' Hr). unfold restore in Hr. simpl in Hr.
    injection Hr as <-. split_and!; done. }
  split_and!; [done..| |].
  - unfold restore in Hr. simpl in Hr. by injection Hr as <-.
  - intros link m. rewrite !find_mismatches_exact by done. split.
    + intros (addr & src & Hm & ->). exists addr, src. by rewrite He.
    + intros (addr & src & Hm & ->). exists addr, src. by rewrite <-He.
Qed.

End Checker.

(** ** Examples *)

Section CheckerExample.

Definition ex_chk_e3 : E3id := mkE3id "7" 1.

Definition ex_hash (d ps : Bytes) : B256 := keccak256 (evidence_of d ps).

Definition ex_passed (pid addr : Z) (pt : ProofType) (fs : list Z) : ProofVerificationPassed :=
  let signals := concat (ex_field <$> fs) in
  mkPVP ex_chk_e3 pid addr pt (ex_hash [Z.of_nat (length fs)] signals) signals
    [Z.of_nat (length fs)].

Definition ex_checker : CommitmentConsistency := new ex_chk_e3 (default_links 1) 2.

(** Party 1 commits to secret 1 in C1 and splits secret 2 in C2a. *)
Definition ex_contradiction : list CheckerInput :=
  [ProofVerified (ex_passed 1 30 C1PkGeneration [1; 5; 6]);
   ProofVerified (ex_passed 1 30 C2aSkShareComputation [2; 8; 9])].

Definition ex_before : CommitmentConsistency :=
  (run ex_checker [ProofVerified (ex_passed 1 30 C1PkGeneration [1; 5; 6])]).1.

Lemma ex_before_wf : wf ex_before.
Proof. apply run_wf, new_wf. Qed.

Definition ex_violation : CommitmentConsistencyViolation :=
  default (mkCCV ex_chk_e3 0 0 C0PkBfv 0 []) (head (run ex_checker ex_contradiction).2).

Lemma ex_violation_reported :
  ex_violation ∈ (on_proof_verified ex_before (ex_passed 1 30 C2aSkShareComputation [2; 8; 9])).2.
Proof. apply list_elem_of_lookup. exists O. vm_compute. reflexivity. Qed.

Lemma proof_verified_reports_exactly_witness :
  ∃ link addr src, link ∈ default_links 1 ∧
    ex_violation = violation_for ex_chk_e3 link addr src ∧ data_hash src ≠ 0.
Proof.
  destruct (proj1 (proj2 (proof_verified_reports_exactly ex_before
    (ex_passed 1 30 C2aSkShareComputation [2; 8; 9]) ex_violation ex_before_wf eq_refl))
    ex_violation_reported) as (link & addr & src & Hl & _ & _ & Hh & Hv).
  exists link, addr, src. exact (conj Hl (conj Hv Hh)).
Defined.

Definition ex_request : CommitmentConsistencyCheckRequested :=
  mkCheckRequested ex_chk_e3 ShareProofs 4
    [mkPartyProofs 1 30 [(C2aSkShareComputation, concat (ex_field <$> [2; 8; 9]), 77, [3])];
     mkPartyProofs 2 40 [(C2aSkShareComputation, concat (ex_field <$> [3; 8; 9]), 78, [3])]].

Definition ex_out : PreZkOutcome :=
  default (mkPreZk [] (mkCheckComplete ex_chk_e3 ShareProofs 0 ∅))
    (on_check_requested ex_before ex_request).2.

Lemma check_requested_excludes_exactly_witness :
  inconsistent_parties (complete ex_out) = {[1]} ∧
  ∃ link addr src, link ∈ default_links 1 ∧
    Mismatched (foldl cache_party ex_before (cr_party_proofs ex_request)) link addr src ∧
    party_id src = 1.
Proof.
  assert (inconsistent_parties (complete ex_out) = {[1]}) as E by (vm_compute; reflexivity).
  split; [exact E|].
  assert (on_check_requested ex_before ex_request
    = ((on_check_requested ex_before ex_request).1, Some ex_out)) as Hr
    by (vm_compute; reflexivity).
  apply (check_requested_excludes_exactly ex_before _ ex_request ex_out ex_before_wf Hr).
  rewrite E. by apply elem_of_singleton.
Defined.

Lemma ex_violation_in_run : ex_violation ∈ (run ex_checker ex_contradiction).2.
Proof. apply list_elem_of_lookup. exists O. vm_compute. reflexivity. Qed.

Lemma run_violations_sound_witness :
  ccv_accused_address ex_violation = 30 ∧
  (∃ before i after link addr src, ex_contradiction = before ++ i :: after ∧
     Mismatched (evaluated (run (new ex_chk_e3 (default_links 1) 2) before).1 i) link addr src) ∧
  ccv_data_hash ex_violation = keccak256 (ccv_evidence ex_violation).
Proof.
  destruct (run_violations_sound ex_chk_e3 (default_links 1) 2 ex_contradiction ex_violation
    ex_violation_in_run) as [(before & i & after & link & addr & src & Hin & _ & Hm & _) Hhash].
  split; [vm_compute; reflexivity|]. split; [exists before, i, after, link, addr, src; exact (conj Hin Hm)|]. clear Hin Hm. apply Hhash.
  intros i' pt e Hi. apply list_elem_of_In in Hi. destruct Hi as [<-|[<-|[]]];
    intros (_ & _ & ->); reflexivity.
Defined.

Definition ex_rostered : list CheckerInput := [RosterSelected (mkRosterSelected ex_chk_e3 [0; 2])].

Lemma run_keeps_cache_and_roster_witness :
  roster (run (run ex_checker ex_rostered).1
    [RosterSelected (mkRosterSelected ex_chk_e3 [1; 2])]).1 = Some [0; 2].
Proof.
  apply (run_keeps_cache_and_roster ex_chk_e3 (default_links 1) 2 ex_rostered
    [RosterSelected (mkRosterSelected ex_chk_e3 [1; 2])]). vm_compute. reflexivity.
Defined.

(** Both selected dealers sent C4a rows that do not match dealer 0's C2a commitments. *)
Definition ex_absent : CommitmentConsistency :=
  (run ex_checker (ex_rostered ++
    [ProofVerified (ex_passed 0 20 C2aSkShareComputation [1; 5; 6; 7]);
     ProofVerified (ex_passed 0 20 C4aSkShareDecryption [9; 9; 4]);
     ProofVerified (ex_passed 2 40 C4aSkShareDecryption [9; 9; 4])])).1.

Definition ex_absent_mismatch : Mismatch :=
  default (mkMismatch 0 0 C0PkBfv 0 [] [])
    (head (find_mismatches ex_absent (C2aToC4aShareCommitmentLink 1))).

Lemma absence_waits_for_roster_witness :
  m_party_id ex_absent_mismatch = 0 ∧ m_proof_type ex_absent_mismatch = C2aSkShareComputation.
Proof.
  split; [vm_compute; reflexivity|].
  apply (absence_waits_for_roster ex_absent 1 (C2aToC4aShareCommitmentLink 1) ex_absent_mismatch).
  - apply run_wf, new_wf.
  - apply list_elem_of_lookup. exists 7%nat. reflexivity.
  - reflexivity.
  - apply list_elem_of_lookup. exists O. vm_compute. reflexivity.
Defined.

Lemma clean_state_is_saved_witness :
  snapshot (run (take_snapshot_if_changed ex_before).1
    [ProofVerified (ex_passed 1 30 C1PkGeneration [1; 5; 6])]).1
  = snapshot (take_snapshot_if_changed ex_before).1.
Proof.
  apply (clean_state_is_saved (take_snapshot_if_changed ex_before).1
    [ProofVerified (ex_passed 1 30 C1PkGeneration [1; 5; 6])]).
  - apply (step_wf ex_before TakeSnapshot ex_before_wf).
  - rewrite not_elem_of_cons. split; [done|apply not_elem_of_nil].
  - vm_compute. reflexivity.
Defined.

Definition ex_restored_checker : CommitmentConsistency :=
  default ex_checker (restore ex_checker (snapshot ex_absent)).

Lemma restart_keeps_decisions_witness :
  ex_absent_mismatch ∈ find_mismatches ex_restored_checker (C2aToC4aShareCommitmentLink 1).
Proof.
  apply (restart_keeps_decisions ex_absent ex_checker ex_restored_checker); try reflexivity.
  - apply run_wf, new_wf.
  - apply list_elem_of_lookup. exists O. vm_compute. reflexivity.
Defined.

End CheckerExample.
