(* ===== verification/AccusationVoting.v ===== *)
(** * Accusation voting: the protocol core

    [AccusationVoting] of crates/orchestration/slashing/src/accusation_voting: the state
    (state.rs), construction, digests, snapshots and deadlines (transitions/setup.rs), the
    admission checks (transitions/admission.rs), local failures (transitions/
    initiate_accusation.rs), peer accusations (transitions/incoming_accusations.rs), votes,
    quorum and timeouts (transitions/vote.rs), expulsion and re-verification
    (transitions/reverify_proofs.rs).

    Every transition is a function on the state that also returns the [VoteAction]s it asks
    the actor to perform, in order.  The injected [Clock] is the state field [clock]: the Unix
    time that [unix_now_secs] returns, constant during one synchronous transition and moved
    between transitions by [set_clock].  [CorrelationId::new] is an argument.  Event contexts
    and the BFV preset are only passed through: their types are parameters.  An E3 id that is
    not a decimal [U256] makes the Rust code panic; the model hashes 0 for it. *)

From S2P Require Import Prelude Events.
Local Open Scope Z_scope.

(** Why an input does not reach the accusation state. *)
Inductive Rejection :=
| OtherE3
| SelfAccusation
| Own
| UnforwardableProof
| UnsignedFailure
| ViolationAgainstNonMember (acc : Address) (e : E3id)
| DeadlineOutsideWindow (acc : Address) (deadline now vote_validity_secs skew_secs : Z)
| AccuserNotInCommittee (a : Address)
| AccusedNotInCommittee (a : Address)
| InvalidAccusationSignature (a : Address)
| VoterNotInCommittee (a : Address)
| InvalidVoteSignature (a : Address).

Definition DEFAULT_VOTE_TIMEOUT : Z := 300.
Definition ACCUSATION_VOTES_SNAPSHOT_VERSION : Z := 1.

(** The result kinds of a compute request that the re-verification handler tells apart. *)
Inductive ComputeResponseKind :=
| ZkVerifyShareProofs (party_results_all_verified : list bool)
| OtherResponse.

Section Voting.
Context `{AlloyOps}.
(** [EventContext<Sequenced>] and [BfvPreset]. *)
Context {EC Preset : Type} `{!EqDecision EC}.

(** ** State (state.rs) *)

(** [ComputeRequest::zk(ZkRequest::ReverifyAccusedProof(..))]. *)
Record ReverifyRequest := mkReverify {
  rr_party_proofs : list (Z * list SignedProofPayload);
  rr_params_preset : Preset;
  rr_committee_size : CiphernodesCommitteeSize;
  rr_correlation_id : Z;
  rr_e3_id : E3id }.

Inductive VoteAction :=
| PublishAccusation (acc : ProofFailureAccusation) (ec : EC) (dedup_key : Address * ProofType)
| PublishVote (vote : AccusationVote) (ec : EC)
| PublishQuorum (quorum : AccusationQuorumReached) (ec : EC)
| DispatchZk (request : ReverifyRequest) (ec : EC) (correlation_id : Z)
| StartTimeout (id : B256)
| CancelTimeout (id : B256).

Record DeferredAccusation := mkDeferred {
  da_accused_address : Address; da_accused_party_id : Z; da_proof_type : ProofType;
  da_data_hash : B256; da_forwarded_payload : option SignedProofPayload; da_ec : EC }.

Record PendingAccusation := mkPending {
  pa_accusation : ProofFailureAccusation; votes_for : list AccusationVote;
  pa_ec : EC; timeout_at : Z }.

Record SavedFailedProof := mkFailedProof { sfp_data_hash : B256; sfp_evidence : Bytes }.

#[global] Instance SavedFailedProof_eq_dec : EqDecision SavedFailedProof.
Proof using Type. solve_decision. Defined.

Record SavedAccusation := mkSaved {
  sa_accusation : ProofFailureAccusation; sa_votes_for : list AccusationVote;
  sa_ec : EC; sa_timeout_at : Z; sa_failed_proof : option SavedFailedProof }.

#[global] Instance SavedAccusation_eq_dec : EqDecision SavedAccusation.
Proof using EqDecision0. solve_decision. Defined.

Record AccusationVotesSnapshot := mkSnapshot {
  version : Z; snap_pending : list SavedAccusation;
  snap_accused_proofs : list (Address * ProofType) }.

#[global] Instance AccusationVotesSnapshot_eq_dec : EqDecision AccusationVotesSnapshot.
Proof using EqDecision0. solve_decision. Defined.

Definition default_snapshot : AccusationVotesSnapshot :=
  {| version := ACCUSATION_VOTES_SNAPSHOT_VERSION; snap_pending := [];
     snap_accused_proofs := [] |}.

Definition validate (s : AccusationVotesSnapshot) : bool :=
  version s =? ACCUSATION_VOTES_SNAPSHOT_VERSION.

Record ReceivedProofData := mkReceived {
  rd_data_hash : B256; verification_passed : bool; rd_evidence : Bytes }.

Record PendingReVerification := mkReverif {
  rv_accusation_id : B256; rv_data_hash : B256; rv_accused : Address;
  rv_proof_type : ProofType; rv_evidence : Bytes }.

Record AccusationVoting := mkVoting {
  e3_id : E3id;
  my_address : Address;
  signer : PrivateKeySigner;
  slashing_manager : Address;
  committee : list Address;
  committee_party_ids : gmap Address Z;
  finalized_committee : list Address;
  circuit_threshold_t : nat;
  vote_quorum_h : nat;
  committee_n : nat;
  pending : gmap B256 PendingAccusation;
  accused_proofs : gset (Address * ProofType);
  received_data : gmap (Address * ProofType) ReceivedProofData;
  buffered_votes : gmap B256 (list AccusationVote);
  window_movers : gset (B256 * Address);
  pending_reverifications : gmap Z PendingReVerification;
  vote_timeout : Z;
  vote_validity_secs : Z;
  accusation_deadline_skew_secs : Z;
  clock : Z;
  params_preset : Preset;
  effects_enabled : bool;
  deferred_accusations : list DeferredAccusation;
  restored_timeouts : list B256;
  saved : option AccusationVotesSnapshot }.

Definition set_committee (s : AccusationVoting) (x : list Address) : AccusationVoting :=
  {| e3_id := e3_id s; my_address := my_address s; signer := signer s;
     slashing_manager := slashing_manager s; committee := x;
     committee_party_ids := committee_party_ids s;
     finalized_committee := finalized_committee s;
     circuit_threshold_t := circuit_threshold_t s; vote_quorum_h := vote_quorum_h s;
     committee_n := committee_n s; pending := pending s; accused_proofs := accused_proofs s;
     received_data := received_data s; buffered_votes := buffered_votes s;
     window_movers := window_movers s; pending_reverifications := pending_reverifications s;
     vote_timeout := vote_timeout s; vote_validity_secs := vote_validity_secs s;
     accusation_deadline_skew_secs := accusation_deadline_skew_secs s; clock := clock s;
     params_preset := params_preset s; effects_enabled := effects_enabled s;
     deferred_accusations := deferred_accusations s; restored_timeouts := restored_timeouts s;
     saved := saved s |}.

Definition set_pending (s : AccusationVoting) (x : gmap B256 PendingAccusation) : AccusationVoting :=
  {| e3_id := e3_id s; my_address := my_address s; signer := signer s;
     slashing_manager := slashing_manager s; committee := committee s;
     committee_party_ids := committee_party_ids s;
     finalized_committee := finalized_committee s;
     circuit_threshold_t := circuit_threshold_t s; vote_quorum_h := vote_quorum_h s;
     committee_n := committee_n s; pending := x; accused_proofs := accused_proofs s;
     received_data := received_data s; buffered_votes := buffered_votes s;
     window_movers := window_movers s; pending_reverifications := pending_reverifications s;
     vote_timeout := vote_timeout s; vote_validity_secs := vote_validity_secs s;
     accusation_deadline_skew_secs := accusation_deadline_skew_secs s; clock := clock s;
     params_preset := params_preset s; effects_enabled := effects_enabled s;
     deferred_accusations := deferred_accusations s; restored_timeouts := restored_timeouts s;
     saved := saved s |}.

Definition set_accused_proofs (s : AccusationVoting) (x : gset (Address * ProofType)) : AccusationVoting :=
  {| e3_id := e3_id s; my_address := my_address s; signer := signer s;
     slashing_manager := slashing_manager s; committee := committee s;
     committee_party_ids := committee_party_ids s;
     finalized_committee := finalized_committee s;
     circuit_threshold_t := circuit_threshold_t s; vote_quorum_h := vote_quorum_h s;
     committee_n := committee_n s; pending := pending s; accused_proofs := x;
     received_data := received_data s; buffered_votes := buffered_votes s;
     window_movers := window_movers s; pending_reverifications := pending_reverifications s;
     vote_timeout := vote_timeout s; vote_validity_secs := vote_validity_secs s;
     accusation_deadline_skew_secs := accusation_deadline_skew_secs s; clock := clock s;
     params_preset := params_preset s; effects_enabled := effects_enabled s;
     deferred_accusations := deferred_accusations s; restored_timeouts := restored_timeouts s;
     saved := saved s |}.

Definition set_received_data (s : AccusationVoting) (x : gmap (Address * ProofType) ReceivedProofData) : AccusationVoting :=
  {| e3_id := e3_id s; my_address := my_address s; signer := signer s;
     slashing_manager := slashing_manager s; committee := committee s;
     committee_party_ids := committee_party_ids s;
     finalized_committee := finalized_committee s;
     circuit_threshold_t := circuit_threshold_t s; vote_quorum_h := vote_quorum_h s;
     committee_n := committee_n s; pending := pending s; accused_proofs := accused_proofs s;
     received_data := x; buffered_votes := buffered_votes s; window_movers := window_movers s;
     pending_reverifications := pending_reverifications s; vote_timeout := vote_timeout s;
     vote_validity_secs := vote_validity_secs s;
     accusation_deadline_skew_secs := accusation_deadline_skew_secs s; clock := clock s;
     params_preset := params_preset s; effects_enabled := effects_enabled s;
     deferred_accusations := deferred_accusations s; restored_timeouts := restored_timeouts s;
     saved := saved s |}.

Definition set_buffered_votes (s : AccusationVoting) (x : gmap B256 (list AccusationVote)) : AccusationVoting :=
  {| e3_id := e3_id s; my_address := my_address s; signer := signer s;
     slashing_manager := slashing_manager s; committee := committee s;
     committee_party_ids := committee_party_ids s;
     finalized_committee := finalized_committee s;
     circuit_threshold_t := circuit_threshold_t s; vote_quorum_h := vote_quorum_h s;
     committee_n := committee_n s; pending := pending s; accused_proofs := accused_proofs s;
     received_data := received_data s; buffered_votes := x; window_movers := window_movers s;
     pending_reverifications := pending_reverifications s; vote_timeout := vote_timeout s;
     vote_validity_secs := vote_validity_secs s;
     accusation_deadline_skew_secs := accusation_deadline_skew_secs s; clock := clock s;
     params_preset := params_preset s; effects_enabled := effects_enabled s;
     deferred_accusations := deferred_accusations s; restored_timeouts := restored_timeouts s;
     saved := saved s |}.

Definition set_window_movers (s : AccusationVoting) (x : gset (B256 * Address)) : AccusationVoting :=
  {| e3_id := e3_id s; my_address := my_address s; signer := signer s;
     slashing_manager := slashing_manager s; committee := committee s;
     committee_party_ids := committee_party_ids s;
     finalized_committee := finalized_committee s;
     circuit_threshold_t := circuit_threshold_t s; vote_quorum_h := vote_quorum_h s;
     committee_n := committee_n s; pending := pending s; accused_proofs := accused_proofs s;
     received_data := received_data s; buffered_votes := buffered_votes s; window_movers := x;
     pending_reverifications := pending_reverifications s; vote_timeout := vote_timeout s;
     vote_validity_secs := vote_validity_secs s;
     accusation_deadline_skew_secs := accusation_deadline_skew_secs s; clock := clock s;
     params_preset := params_preset s; effects_enabled := effects_enabled s;
     deferred_accusations := deferred_accusations s; restored_timeouts := restored_timeouts s;
     saved := saved s |}.

Definition set_pending_reverifications (s : AccusationVoting) (x : gmap Z PendingReVerification) : AccusationVoting :=
  {| e3_id := e3_id s; my_address := my_address s; signer := signer s;
     slashing_manager := slashing_manager s; committee := committee s;
     committee_party_ids := committee_party_ids s;
     finalized_committee := finalized_committee s;
     circuit_threshold_t := circuit_threshold_t s; vote_quorum_h := vote_quorum_h s;
     committee_n := committee_n s; pending := pending s; accused_proofs := accused_proofs s;
     received_data := received_data s; buffered_votes := buffered_votes s;
     window_movers := window_movers s; pending_reverifications := x;
     vote_timeout := vote_timeout s; vote_validity_secs := vote_validity_secs s;
     accusation_deadline_skew_secs := accusation_deadline_skew_secs s; clock := clock s;
     params_preset := params_preset s; effects_enabled := effects_enabled s;
     deferred_accusations := deferred_accusations s; restored_timeouts := restored_timeouts s;
     saved := saved s |}.

Definition set_clock (s : AccusationVoting) (x : Z) : AccusationVoting :=
  {| e3_id := e3_id s; my_address := my_address s; signer := signer s;
     slashing_manager := slashing_manager s; committee := committee s;
     committee_party_ids := committee_party_ids s;
     finalized_committee := finalized_committee s;
     circuit_threshold_t := circuit_threshold_t s; vote_quorum_h := vote_quorum_h s;
     committee_n := committee_n s; pending := pending s; accused_proofs := accused_proofs s;
     received_data := received_data s; buffered_votes := buffered_votes s;
     window_movers := window_movers s; pending_reverifications := pending_reverifications s;
     vote_timeout := vote_timeout s; vote_validity_secs := vote_validity_secs s;
     accusation_deadline_skew_secs := accusation_deadline_skew_secs s; clock := x;
     params_preset := params_preset s; effects_enabled := effects_enabled s;
     deferred_accusations := deferred_accusations s; restored_timeouts := restored_timeouts s;
     saved := saved s |}.

Definition set_effects_enabled (s : AccusationVoting) (x : bool) : AccusationVoting :=
  {| e3_id := e3_id s; my_address := my_address s; signer := signer s;
     slashing_manager := slashing_manager s; committee := committee s;
     committee_party_ids := committee_party_ids s;
     finalized_committee := finalized_committee s;
     circuit_threshold_t := circuit_threshold_t s; vote_quorum_h := vote_quorum_h s;
     committee_n := committee_n s; pending := pending s; accused_proofs := accused_proofs s;
     received_data := received_data s; buffered_votes := buffered_votes s;
     window_movers := window_movers s; pending_reverifications := pending_reverifications s;
     vote_timeout := vote_timeout s; vote_validity_secs := vote_validity_secs s;
     accusation_deadline_skew_secs := accusation_deadline_skew_secs s; clock := clock s;
     params_preset := params_preset s; effects_enabled := x;
     deferred_accusations := deferred_accusations s; restored_timeouts := restored_timeouts s;
     saved := saved s |}.

Definition set_deferred_accusations (s : AccusationVoting) (x : list DeferredAccusation) : AccusationVoting :=
  {| e3_id := e3_id s; my_address := my_address s; signer := signer s;
     slashing_manager := slashing_manager s; committee := committee s;
     committee_party_ids := committee_party_ids s;
     finalized_committee := finalized_committee s;
     circuit_threshold_t := circuit_threshold_t s; vote_quorum_h := vote_quorum_h s;
     committee_n := committee_n s; pending := pending s; accused_proofs := accused_proofs s;
     received_data := received_data s; buffered_votes := buffered_votes s;
     window_movers := window_movers s; pending_reverifications := pending_reverifications s;
     vote_timeout := vote_timeout s; vote_validity_secs := vote_validity_secs s;
     accusation_deadline_skew_secs := accusation_deadline_skew_secs s; clock := clock s;
     params_preset := params_preset s; effects_enabled := effects_enabled s;
     deferred_accusations := x; restored_timeouts := restored_timeouts s; saved := saved s |}.

Definition set_restored_timeouts (s : AccusationVoting) (x : list B256) : AccusationVoting :=
  {| e3_id := e3_id s; my_address := my_address s; signer := signer s;
     slashing_manager := slashing_manager s; committee := committee s;
     committee_party_ids := committee_party_ids s;
     finalized_committee := finalized_committee s;
     circuit_threshold_t := circuit_threshold_t s; vote_quorum_h := vote_quorum_h s;
     committee_n := committee_n s; pending := pending s; accused_proofs := accused_proofs s;
     received_data := received_data s; buffered_votes := buffered_votes s;
     window_movers := window_movers s; pending_reverifications := pending_reverifications s;
     vote_timeout := vote_timeout s; vote_validity_secs := vote_validity_secs s;
     accusation_deadline_skew_secs := accusation_deadline_skew_secs s; clock := clock s;
     params_preset := params_preset s; effects_enabled := effects_enabled s;
     deferred_accusations := deferred_accusations s; restored_timeouts := x; saved := saved s |}.

Definition set_saved (s : AccusationVoting) (x : option AccusationVotesSnapshot) : AccusationVoting :=
  {| e3_id := e3_id s; my_address := my_address s; signer := signer s;
     slashing_manager := slashing_manager s; committee := committee s;
     committee_party_ids := committee_party_ids s;
     finalized_committee := finalized_committee s;
     circuit_threshold_t := circuit_threshold_t s; vote_quorum_h := vote_quorum_h s;
     committee_n := committee_n s; pending := pending s; accused_proofs := accused_proofs s;
     received_data := received_data s; buffered_votes := buffered_votes s;
     window_movers := window_movers s; pending_reverifications := pending_reverifications s;
     vote_timeout := vote_timeout s; vote_validity_secs := vote_validity_secs s;
     accusation_deadline_skew_secs := accusation_deadline_skew_secs s; clock := clock s;
     params_preset := params_preset s; effects_enabled := effects_enabled s;
     deferred_accusations := deferred_accusations s; restored_timeouts := restored_timeouts s;
     saved := x |}.

(** ** Construction, deadlines, digests (transitions/setup.rs) *)

(** [committee.iter().enumerate().map(|(i, a)| (a, i)).collect()]: a later duplicate wins. *)
Definition party_ids_of (committee : list Address) : gmap Address Z :=
  foldl (λ m p, <[p.2 := Z.of_nat p.1]> m) ∅ (imap pair committee).

Definition new (e3 : E3id) (k : PrivateKeySigner) (manager : Address)
    (members : list Address) (threshold_t quorum_h : nat) (validity skew : Z)
    (preset : Preset) (now : Z) : AccusationVoting :=
  {| e3_id := e3; my_address := signer_address k; signer := k; slashing_manager := manager;
     committee := members; committee_party_ids := party_ids_of members;
     finalized_committee := members; circuit_threshold_t := threshold_t;
     vote_quorum_h := quorum_h; committee_n := length members; pending := ∅;
     accused_proofs := ∅; received_data := ∅; buffered_votes := ∅; window_movers := ∅;
     pending_reverifications := ∅; vote_timeout := DEFAULT_VOTE_TIMEOUT;
     vote_validity_secs := validity; accusation_deadline_skew_secs := skew; clock := now;
     params_preset := preset; effects_enabled := true; deferred_accusations := [];
     restored_timeouts := []; saved := Some default_snapshot |}.

Definition timeout_from_now (s : AccusationVoting) : Z :=
  saturating_add U64_MAX (clock s) (vote_timeout s).

Definition vote_timeout_for (s : AccusationVoting) (id : B256) : option Z :=
  p ← pending s !! id; Some (saturating_sub (timeout_at p) (clock s)).

Definition compute_vote_window (s : AccusationVoting) : Z * Z :=
  (clock s, saturating_add U64_MAX (clock s) (vote_validity_secs s)).

Definition is_peer_deadline_acceptable (issued_at deadline now validity skew : Z) : bool :=
  if validity =? 0 then false
  else (issued_at <=? saturating_add U64_MAX now skew) && (issued_at <=? deadline)
       && (saturating_sub deadline issued_at <=? validity) && (now <? deadline).

(** [e3_id.try_into().expect(..)]. *)
Definition e3_id_u256 (e : E3id) : Z := default 0 (u256_from_decimal (e3_num e)).

Definition accusation_id_of (a : ProofFailureAccusation) : B256 :=
  keccak256 (abi_encode_packed
    [AbiUint (chain_id (pfa_e3_id a)); AbiUint (e3_id_u256 (pfa_e3_id a));
     AbiAddress (accused a); AbiUint (proof_type_u8 (pfa_proof_type a))]).

Definition accusation_digest (a : ProofFailureAccusation) : B256 :=
  let typehash := keccak256 (str_bytes
    "ProofFailureAccusation(uint256 chainId,uint256 e3Id,address accuser,address accused,uint256 proofType,bytes32 dataHash,uint256 issuedAt,uint256 deadline)") in
  keccak256 (abi_encode
    [AbiBytes32 typehash; AbiUint (chain_id (pfa_e3_id a)); AbiUint (e3_id_u256 (pfa_e3_id a));
     AbiAddress (accuser a); AbiAddress (accused a); AbiUint (proof_type_u8 (pfa_proof_type a));
     AbiBytes32 (pfa_data_hash a); AbiUint (pfa_issued_at a); AbiUint (pfa_deadline a)]).

Definition sign_accusation_digest (s : AccusationVoting) (a : ProofFailureAccusation)
    : option Bytes :=
  sign_message_sync (signer s) (b256_bytes (accusation_digest a)).

Definition verify_accusation_signature (a : ProofFailureAccusation) : bool :=
  bool_decide (recover_address_from_msg (pfa_signature a) (b256_bytes (accusation_digest a))
    = Some (accuser a)).

Definition VOTE_DOMAIN_NAME : string := "InterfoldSlashing".
Definition VOTE_DOMAIN_VERSION : string := "1".
Definition VOTE_TYPEHASH_STR : string :=
  "AccusationVote(uint256 e3Id,bytes32 accusationId,address voter,bytes32 dataHash,uint256 issuedAt,uint256 deadline)".

Definition vote_domain_separator (chain : Z) (verifying_contract : Address) : B256 :=
  keccak256 (abi_encode
    [AbiBytes32 (keccak256 (str_bytes
       "EIP712Domain(string name,string version,uint256 chainId,address verifyingContract)"));
     AbiBytes32 (keccak256 (str_bytes VOTE_DOMAIN_NAME));
     AbiBytes32 (keccak256 (str_bytes VOTE_DOMAIN_VERSION));
     AbiUint chain; AbiAddress verifying_contract]).

Definition vote_digest (v : AccusationVote) (verifying_contract : Address) : B256 :=
  let struct_hash := keccak256 (abi_encode
    [AbiBytes32 (keccak256 (str_bytes VOTE_TYPEHASH_STR)); AbiUint (e3_id_u256 (v_e3_id v));
     AbiBytes32 (accusation_id v); AbiAddress (voter v); AbiBytes32 (v_data_hash v);
     AbiUint (v_issued_at v); AbiUint (v_deadline v)]) in
  let domain := vote_domain_separator (chain_id (v_e3_id v)) verifying_contract in
  keccak256 ([25; 1] ++ b256_bytes domain ++ b256_bytes struct_hash).

Definition sign_vote_digest (s : AccusationVoting) (v : AccusationVote) : option Bytes :=
  sign_hash_sync (signer s) (vote_digest v (slashing_manager s)).

Definition verify_vote_signature (s : AccusationVoting) (v : AccusationVote) : bool :=
  bool_decide (recover_address_from_prehash (v_signature v)
    (vote_digest v (slashing_manager s)) = Some (voter v)).

Definition compute_payload_hash (sp : SignedProofPayload) : B256 :=
  keccak256 (evidence_of (data (pp_proof (payload sp)))
                         (public_signals (pp_proof (payload sp)))).

Definition cache_verification_result (s : AccusationVoting) (acc : Address) (pt : ProofType)
    (data_hash : B256) (passed : bool) (evidence : Bytes) : AccusationVoting :=
  set_received_data s (<[(acc, pt) :=
    {| rd_data_hash := data_hash; verification_passed := passed; rd_evidence := evidence |}]>
    (received_data s)).

Definition on_proof_verification_passed (s : AccusationVoting) (d : ProofVerificationPassed)
    : AccusationVoting :=
  if negb (bool_decide (pvp_e3_id d = e3_id s)) then s
  else if negb (bool_decide (pvp_address d ∈ committee s)) then s
  else cache_verification_result s (pvp_address d) (pvp_proof_type d) (pvp_data_hash d) true
         (evidence_of (pvp_proof_data d) (pvp_public_signals d)).

Definition rollback_initiation (s : AccusationVoting) (key : Address * ProofType)
    : AccusationVoting :=
  set_accused_proofs s (accused_proofs s ∖ {[key]}).

Definition discard_reverification (s : AccusationVoting) (cid : Z) : AccusationVoting :=
  set_pending_reverifications s (delete cid (pending_reverifications s)).

Definition hold_accusations_until_effects (s : AccusationVoting) : AccusationVoting :=
  set_effects_enabled s false.

(** ** Snapshots (transitions/setup.rs) *)

Definition holds_own_vote (s : AccusationVoting) (votes : list AccusationVote) : bool :=
  existsb (λ v, voter v =? my_address s) votes.

Definition saved_of (s : AccusationVoting) (p : PendingAccusation) : SavedAccusation :=
  let key := (accused (pa_accusation p), pfa_proof_type (pa_accusation p)) in
  {| sa_accusation := pa_accusation p; sa_votes_for := votes_for p; sa_ec := pa_ec p;
     sa_timeout_at := timeout_at p;
     sa_failed_proof :=
       match received_data s !! key with
       | Some r => if verification_passed r then None
                   else Some {| sfp_data_hash := rd_data_hash r;
                                sfp_evidence := rd_evidence r |}
       | None => None
       end |}.

Definition id_le (a b : B256 * SavedAccusation) : Prop := a.1 <= b.1.
#[global] Instance id_le_dec : RelDecision id_le.
Proof using Type. intros a b. unfold id_le. apply _. Defined.

(** The key of an accused proof, address then proof type as [u8], in Rust's tuple order. *)
Definition proof_key_le (a b : Address * ProofType) : Prop :=
  a.1 < b.1 ∨ (a.1 = b.1 ∧ proof_type_u8 a.2 <= proof_type_u8 b.2).
#[global] Instance proof_key_le_dec : RelDecision proof_key_le.
Proof using Type. intros a b. unfold proof_key_le. apply _. Defined.

Definition snapshot (s : AccusationVoting) : AccusationVotesSnapshot :=
  let held := List.filter (λ p : B256 * PendingAccusation, holds_own_vote s (votes_for p.2))
                (map_to_list (pending s)) in
  {| version := ACCUSATION_VOTES_SNAPSHOT_VERSION;
     snap_pending :=
       snd <$> merge_sort id_le ((λ p : B256 * PendingAccusation, (p.1, saved_of s p.2)) <$> held);
     snap_accused_proofs := merge_sort proof_key_le (elements (accused_proofs s)) |}.

Definition take_snapshot_if_changed (s : AccusationVoting)
    : AccusationVoting * option AccusationVotesSnapshot :=
  let snap := snapshot s in
  if bool_decide (saved s = Some snap) then (s, None)
  else (set_saved s (Some snap), Some snap).

Definition retry_snapshot (s : AccusationVoting) : AccusationVoting := set_saved s None.

Definition restore_one (s : AccusationVoting) (sv : SavedAccusation) : AccusationVoting :=
  let id := accusation_id_of (sa_accusation sv) in
  let s1 := set_restored_timeouts s (restored_timeouts s ++ [id]) in
  let s2 := match sa_failed_proof sv with
    | Some fp => cache_verification_result s1 (accused (sa_accusation sv))
                   (pfa_proof_type (sa_accusation sv)) (sfp_data_hash fp) false (sfp_evidence fp)
    | None => s1
    end in
  set_pending s2 (<[id := {| pa_accusation := sa_accusation sv; votes_for := sa_votes_for sv;
                             pa_ec := sa_ec sv; timeout_at := sa_timeout_at sv |}]> (pending s2)).

Definition restore (s : AccusationVoting) (snap : AccusationVotesSnapshot)
    : option AccusationVoting :=
  if negb (validate snap) then None
  else
    let s1 := foldl restore_one s (snap_pending snap) in
    let s2 := set_accused_proofs s1 (accused_proofs s1 ∪ list_to_set (snap_accused_proofs snap)) in
    Some (set_saved s2 (Some (snapshot s2))).

(** ** Admission (transitions/admission.rs) *)

Definition can_forward_proof (pt : ProofType) : bool :=
  match pt with C3aSkShareEncryption | C3bESmShareEncryption => true | _ => false end.

Definition is_self_accusation (s : AccusationVoting) (by_ against : Address) (party_id : Z) : bool :=
  bool_decide (by_ = against) || bool_decide (committee_party_ids s !! by_ = Some party_id).

Definition admit_local_failure (s : AccusationVoting) (event : ProofVerificationFailed)
    : result ProofVerificationFailed Rejection :=
  if negb (bool_decide (pvf_e3_id event = e3_id s)) then Err OtherE3
  else
    let acc := pvf_accused_address event in
    let expected := finalized_committee s !! Z.to_nat (pvf_accused_party_id event) in
    let sp := pvf_signed_payload event in
    if negb (bool_decide (acc ∈ committee s))
       || negb (bool_decide (expected = Some acc))
       || negb (bool_decide (pp_e3_id (payload sp) = e3_id s))
       || negb (bool_decide (pp_proof_type (payload sp) = pvf_proof_type event))
       || negb (bool_decide (recover_address sp = Some acc))
       || negb (compute_payload_hash sp =? pvf_data_hash event)
    then Err UnsignedFailure
    else if is_self_accusation s (my_address s) acc (pvf_accused_party_id event)
    then Err SelfAccusation
    else Ok event.

Definition admit_violation (s : AccusationVoting) (d : CommitmentConsistencyViolation)
    : result CommitmentConsistencyViolation Rejection :=
  if negb (bool_decide (ccv_e3_id d = e3_id s)) then Err OtherE3
  else if negb (bool_decide (ccv_accused_address d ∈ committee s))
  then Err (ViolationAgainstNonMember (ccv_accused_address d) (e3_id s))
  else if is_self_accusation s (my_address s) (ccv_accused_address d) (ccv_accused_party_id d)
  then Err SelfAccusation
  else Ok d.

Definition admit_own_replayed_accusation (s : AccusationVoting) (a : ProofFailureAccusation)
    : option (Address * ProofType) :=
  if negb (effects_enabled s) && bool_decide (pfa_e3_id a = e3_id s)
     && (accuser a =? my_address s) && verify_accusation_signature a
  then Some (accused a, pfa_proof_type a) else None.

Definition admit_accusation (s : AccusationVoting) (a : ProofFailureAccusation)
    : result ProofFailureAccusation Rejection :=
  if negb (bool_decide (pfa_e3_id a = e3_id s)) then Err OtherE3
  else if accuser a =? accused a then Err SelfAccusation
  else if bool_decide (is_Some (signed_payload a)) && negb (can_forward_proof (pfa_proof_type a))
  then Err UnforwardableProof
  else if negb (is_peer_deadline_acceptable (pfa_issued_at a) (pfa_deadline a) (clock s)
                  (vote_validity_secs s) (accusation_deadline_skew_secs s))
  then Err (DeadlineOutsideWindow (accuser a) (pfa_deadline a) (clock s)
              (vote_validity_secs s) (accusation_deadline_skew_secs s))
  else if negb (bool_decide (accuser a ∈ committee s)) then Err (AccuserNotInCommittee (accuser a))
  else if negb (bool_decide (accused a ∈ committee s)) then Err (AccusedNotInCommittee (accused a))
  else if accuser a =? my_address s then Err Own
  else if negb (verify_accusation_signature a) then Err (InvalidAccusationSignature (accuser a))
  else Ok a.

Definition admit_vote (s : AccusationVoting) (v : AccusationVote)
    : result AccusationVote Rejection :=
  if negb (bool_decide (v_e3_id v = e3_id s)) then Err OtherE3
  else if negb (bool_decide (voter v ∈ committee s)) then Err (VoterNotInCommittee (voter v))
  else if voter v =? my_address s then Err Own
  else if negb (verify_vote_signature s v) then Err (InvalidVoteSignature (voter v))
  else Ok v.

(** ** Votes, quorum, timeouts (transitions/vote.rs) *)

(** [votes_for.iter().map(|v| v.data_hash).collect::<HashSet<_>>().len()]. *)
Definition agree_hashes (votes : list AccusationVote) : nat :=
  size (list_to_set (v_data_hash <$> votes) : gset B256).

Definition quorum_of (s : AccusationVoting) (p : PendingAccusation) (outcome : AccusationOutcome)
    : AccusationQuorumReached :=
  {| q_e3_id := e3_id s; q_accuser := accuser (pa_accusation p);
     q_accused := accused (pa_accusation p); q_proof_type := pfa_proof_type (pa_accusation p);
     q_votes_for := votes_for p; q_outcome := outcome;
     q_evidence := default [] (rd_evidence <$>
       received_data s !! (accused (pa_accusation p), pfa_proof_type (pa_accusation p))) |}.

Definition emit_quorum_reached (s : AccusationVoting) (id : B256) (outcome : AccusationOutcome)
    (ec : EC) (actions : list VoteAction) : AccusationVoting * list VoteAction :=
  match pending s !! id with
  | None => (s, actions)
  | Some p =>
      let s' := set_pending s (delete id (pending s)) in
      (s', actions ++ [CancelTimeout id; PublishQuorum (quorum_of s' p outcome) ec])
  end.

Definition check_quorum (s : AccusationVoting) (id : B256) (ec : EC)
    (actions : list VoteAction) : AccusationVoting * list VoteAction :=
  match pending s !! id with
  | None => (s, actions)
  | Some p =>
      let agree_count := length (votes_for p) in
      if (agree_count <? vote_quorum_h s)%nat then (s, actions)
      else if (1 <? agree_hashes (votes_for p))%nat
      then emit_quorum_reached s id Equivocation ec actions
      else emit_quorum_reached s id AccusedFaulted ec actions
  end.

Definition on_vote_timeout (s : AccusationVoting) (id : B256)
    : AccusationVoting * option (AccusationQuorumReached * EC) :=
  match pending s !! id with
  | None => (s, None)
  | Some p =>
      let s' := set_pending s (delete id (pending s)) in
      let outcome :=
        if (vote_quorum_h s <=? length (votes_for p))%nat then
          if (1 <? agree_hashes (votes_for p))%nat then Equivocation else AccusedFaulted
        else Inconclusive in
      (s', Some (quorum_of s' p outcome, pa_ec p))
  end.

Definition set_votes (p : PendingAccusation) (vs : list AccusationVote) : PendingAccusation :=
  {| pa_accusation := pa_accusation p; votes_for := vs; pa_ec := pa_ec p;
     timeout_at := timeout_at p |}.

Definition on_vote_received_inner (s : AccusationVoting) (vote0 : AccusationVote) (ec : EC)
    (actions : list VoteAction) : AccusationVoting * list VoteAction :=
  match admit_vote s vote0 with
  | Err _ => (s, actions)
  | Ok vote =>
      let id := accusation_id vote in
      match pending s !! id with
      | None =>
          let buf := default [] (buffered_votes s !! id) in
          let buf' := if (length buf <? length (committee s))%nat then buf ++ [vote] else buf in
          (set_buffered_votes s (<[id := buf']> (buffered_votes s)), actions)
      | Some p =>
          let a := pa_accusation p in
          if negb (bool_decide ((v_issued_at vote, v_deadline vote)
                                = (pfa_issued_at a, pfa_deadline a))) then
            if (pfa_issued_at a <? v_issued_at vote) && (pfa_deadline a <? v_deadline vote)
               && negb (voter vote =? accused a) then
              let buf := default [] (buffered_votes s !! id) in
              let buf' := List.filter (λ v, negb (voter v =? voter vote)) buf ++ [vote] in
              (set_buffered_votes s (<[id := buf']> (buffered_votes s)), actions)
            else (s, actions)
          else if voter vote =? accused a then (s, actions)
          else if existsb (λ v, voter v =? voter vote) (votes_for p) then (s, actions)
          else if (voter vote =? accuser a) && negb (v_data_hash vote =? pfa_data_hash a)
          then (s, actions)
          else
            let s' := set_pending s
              (<[id := set_votes p (votes_for p ++ [vote])]> (pending s)) in
            check_quorum s' id ec actions
      end
  end.

Definition on_vote_received (s : AccusationVoting) (vote : AccusationVote) (ec : EC)
    : AccusationVoting * list VoteAction :=
  on_vote_received_inner s vote ec [].

(** [if let Some(buffered) = self.buffered_votes.remove(&id) { for vote in buffered { .. } }] *)
Definition replay_buffered (s : AccusationVoting) (id : B256) (ec : EC)
    (actions : list VoteAction) : AccusationVoting * list VoteAction :=
  match buffered_votes s !! id with
  | None => (s, actions)
  | Some buffered =>
      foldl (λ sa vote, on_vote_received_inner sa.1 vote ec sa.2)
        (set_buffered_votes s (delete id (buffered_votes s)), actions) buffered
  end.

Definition own_vote (s : AccusationVoting) (id data_hash : B256) (issued_at deadline : Z)
    : AccusationVote :=
  {| v_e3_id := e3_id s; accusation_id := id; voter := my_address s; v_data_hash := data_hash;
     v_issued_at := issued_at; v_deadline := deadline; v_signature := [] |}.

Definition vote_with_signature (v : AccusationVote) (sig : Bytes) : AccusationVote :=
  {| v_e3_id := v_e3_id v; accusation_id := accusation_id v; voter := voter v;
     v_data_hash := v_data_hash v; v_issued_at := v_issued_at v; v_deadline := v_deadline v;
     v_signature := sig |}.

Definition accusation_with_signature (a : ProofFailureAccusation) (sig : Bytes)
    : ProofFailureAccusation :=
  {| pfa_e3_id := pfa_e3_id a; accuser := accuser a; accused := accused a;
     accused_party_id := accused_party_id a; pfa_proof_type := pfa_proof_type a;
     pfa_data_hash := pfa_data_hash a; pfa_issued_at := pfa_issued_at a;
     pfa_deadline := pfa_deadline a; signed_payload := signed_payload a; pfa_signature := sig |}.

(** ** Local failures (transitions/initiate_accusation.rs) *)

Definition initiate_accusation (s : AccusationVoting) (accused_address : Address)
    (party_id : Z) (pt : ProofType) (data_hash : B256)
    (forwarded_payload : option SignedProofPayload) (ec : EC) (actions : list VoteAction)
    : AccusationVoting * list VoteAction :=
  if negb (bool_decide (accused_address ∈ committee s)) then (s, actions)
  else
    let key := (accused_address, pt) in
    if bool_decide (key ∈ accused_proofs s) then (s, actions)
    else
      let s1 := set_accused_proofs s ({[key]} ∪ accused_proofs s) in
      if vote_validity_secs s =? 0
      then (set_accused_proofs s1 (accused_proofs s1 ∖ {[key]}), actions)
      else
        let '(issued_at, deadline) := compute_vote_window s1 in
        let accusation0 :=
          {| pfa_e3_id := e3_id s; accuser := my_address s; accused := accused_address;
             accused_party_id := party_id; pfa_proof_type := pt; pfa_data_hash := data_hash;
             pfa_issued_at := issued_at; pfa_deadline := deadline;
             signed_payload := forwarded_payload; pfa_signature := [] |} in
        match sign_accusation_digest s1 accusation0 with
        | None => (set_accused_proofs s1 (accused_proofs s1 ∖ {[key]}), actions)
        | Some sig =>
            let accusation := accusation_with_signature accusation0 sig in
            let id := accusation_id_of accusation in
            let s2 := set_pending_reverifications s1
              (filter (λ kr, rv_accusation_id kr.2 ≠ id) (pending_reverifications s1)) in
            let actions1 := actions ++ [PublishAccusation accusation ec key] in
            let vote0 := own_vote s2 id data_hash issued_at deadline in
            match sign_vote_digest s2 vote0 with
            | None => (set_accused_proofs s2 (accused_proofs s2 ∖ {[key]}), actions1)
            | Some vsig =>
                let vote := vote_with_signature vote0 vsig in
                let actions2 := actions1 ++ [PublishVote vote ec; StartTimeout id] in
                let s3 := set_pending s2 (<[id :=
                  {| pa_accusation := accusation; votes_for := [vote]; pa_ec := ec;
                     timeout_at := timeout_from_now s2 |}]> (pending s2)) in
                let '(s4, actions3) := replay_buffered s3 id ec actions2 in
                check_quorum s4 id ec actions3
            end
        end.

Definition initiate_deferred (s : AccusationVoting) (d : DeferredAccusation)
    (actions : list VoteAction) : AccusationVoting * list VoteAction :=
  initiate_accusation s (da_accused_address d) (da_accused_party_id d) (da_proof_type d)
    (da_data_hash d) (da_forwarded_payload d) (da_ec d) actions.

Definition accuse_when_effects_run (s : AccusationVoting) (d : DeferredAccusation)
    : AccusationVoting * list VoteAction :=
  if negb (effects_enabled s) then
    if existsb (λ held, bool_decide ((da_accused_address held, da_proof_type held)
                                     = (da_accused_address d, da_proof_type d)))
         (deferred_accusations s)
    then (s, [])
    else (set_deferred_accusations s (deferred_accusations s ++ [d]), [])
  else initiate_deferred s d [].

Definition on_local_proof_failure (s : AccusationVoting) (event0 : ProofVerificationFailed)
    (ec : EC) : AccusationVoting * list VoteAction :=
  match admit_local_failure s event0 with
  | Err _ => (s, [])
  | Ok event =>
      let sp := pvf_signed_payload event in
      let s1 := cache_verification_result s (pvf_accused_address event) (pvf_proof_type event)
        (pvf_data_hash event) false
        (evidence_of (data (pp_proof (payload sp))) (public_signals (pp_proof (payload sp)))) in
      accuse_when_effects_run s1
        {| da_accused_address := pvf_accused_address event;
           da_accused_party_id := pvf_accused_party_id event;
           da_proof_type := pvf_proof_type event; da_data_hash := pvf_data_hash event;
           da_forwarded_payload :=
             if can_forward_proof (pvf_proof_type event) then Some sp else None;
           da_ec := ec |}
  end.

Definition on_consistency_violation (s : AccusationVoting)
    (d0 : CommitmentConsistencyViolation) (ec : EC) : AccusationVoting * list VoteAction :=
  match admit_violation s d0 with
  | Err _ => (s, [])
  | Ok d =>
      let s1 := cache_verification_result s (ccv_accused_address d) (ccv_proof_type d)
        (ccv_data_hash d) false (ccv_evidence d) in
      accuse_when_effects_run s1
        {| da_accused_address := ccv_accused_address d;
           da_accused_party_id := ccv_accused_party_id d;
           da_proof_type := ccv_proof_type d; da_data_hash := ccv_data_hash d;
           da_forwarded_payload := None; da_ec := ec |}
  end.

(** [self.pending.values().any(..)] of [on_effects_enabled]. *)
Definition pending_with_own_vote (s : AccusationVoting) (key : Address * ProofType) : bool :=
  existsb (λ ip : B256 * PendingAccusation,
      bool_decide ((accused (pa_accusation ip.2), pfa_proof_type (pa_accusation ip.2)) = key)
      && holds_own_vote s (votes_for ip.2))
    (map_to_list (pending s)).

Definition run_deferred (sa : AccusationVoting * list VoteAction) (d : DeferredAccusation)
    : AccusationVoting * list VoteAction :=
  let '(s, actions) := sa in
  let key := (da_accused_address d, da_proof_type d) in
  if pending_with_own_vote s key
  then (set_accused_proofs s ({[key]} ∪ accused_proofs s), actions)
  else initiate_deferred s d actions.

Definition on_effects_enabled (s : AccusationVoting) : AccusationVoting * list VoteAction :=
  if effects_enabled s then (s, [])
  else
    let s1 := set_effects_enabled s true in
    let '(s2, actions) :=
      foldl run_deferred (set_deferred_accusations s1 [], []) (deferred_accusations s1) in
    let s3 := set_restored_timeouts s2 [] in
    (s3, actions ++ (StartTimeout <$>
           List.filter (λ id, bool_decide (is_Some (pending s3 !! id))) (restored_timeouts s2))).

(** ** Peer accusations (transitions/incoming_accusations.rs) *)

(** Move the own vote to another window. *)
Definition vote_with_window (v : AccusationVote) (issued_at deadline : Z) : AccusationVote :=
  {| v_e3_id := v_e3_id v; accusation_id := accusation_id v; voter := voter v;
     v_data_hash := v_data_hash v; v_issued_at := issued_at; v_deadline := deadline;
     v_signature := v_signature v |}.

Definition adopt_later_vote_window (s : AccusationVoting) (id : B256)
    (incoming : ProofFailureAccusation) (ec : EC) (actions : list VoteAction)
    : AccusationVoting * list VoteAction :=
  match pending s !! id with
  | None => (s, actions)
  | Some p =>
      let held := pa_accusation p in
      if (pfa_issued_at incoming <=? pfa_issued_at held)
         || (pfa_deadline incoming <=? pfa_deadline held) then (s, actions)
      else if bool_decide ((id, accuser incoming) ∈ window_movers s) then (s, actions)
      else
        let s1 := set_window_movers s ({[(id, accuser incoming)]} ∪ window_movers s) in
        (* the pending record after the own vote was re-signed, or [None] on a signing error *)
        let resigned :=
          match List.find (λ v, voter v =? my_address s) (votes_for p) with
          | None => Some ([], actions)
          | Some v0 =>
              let v1 := vote_with_window v0 (pfa_issued_at incoming) (pfa_deadline incoming) in
              sig ← sign_vote_digest s1 v1;
              let v2 := vote_with_signature v1 sig in
              Some ([v2], actions ++ [PublishVote v2 ec])
          end in
        match resigned with
        | None => (s1, actions)
        | Some (votes, actions1) =>
            let p' := {| pa_accusation := incoming; votes_for := votes; pa_ec := pa_ec p;
                         timeout_at := timeout_from_now s1 |} in
            let s2 := set_pending s1 (<[id := p']> (pending s1)) in
            let actions2 := actions1 ++ [CancelTimeout id; StartTimeout id] in
            let '(s3, actions3) := replay_buffered s2 id ec actions2 in
            check_quorum s3 id ec actions3
        end
  end.

(** The checks on a forwarded C3 proof, from the signer to the data hash. *)
Definition forwarded_payload_valid (s : AccusationVoting) (a : ProofFailureAccusation)
    (forwarded : SignedProofPayload) : bool :=
  match recover_address forwarded with
  | None => false
  | Some addr =>
      if negb (addr =? accused a) then false
      else if negb (bool_decide (pp_e3_id (payload forwarded) = e3_id s)) then false
      else bool_decide (circuit (pp_proof (payload forwarded))
             ∈ circuit_names (pp_proof_type (payload forwarded)))
  end.

(** The re-verification branch: the accusation is pending without this node's vote. *)
Definition dispatch_reverification (s : AccusationVoting) (a : ProofFailureAccusation)
    (id : B256) (forwarded : SignedProofPayload) (ec : EC) (cid : Z)
    (actions : list VoteAction) : AccusationVoting * list VoteAction :=
  if negb (forwarded_payload_valid s a forwarded) then (s, actions)
  else if negb (bool_decide (pp_proof_type (payload forwarded) = pfa_proof_type a))
  then (s, actions)
  else if negb (compute_payload_hash forwarded =? pfa_data_hash a) then (s, actions)
  else
    let data_hash := compute_payload_hash forwarded in
    let evidence := evidence_of (data (pp_proof (payload forwarded)))
                      (public_signals (pp_proof (payload forwarded))) in
    match from_threshold (circuit_threshold_t s) (committee_n s) with
    | None => (s, actions)
    | Some committee_size =>
        let s1 := set_pending s (<[id :=
          {| pa_accusation := a; votes_for := []; pa_ec := ec;
             timeout_at := timeout_from_now s |}]> (pending s)) in
        let '(s2, actions1) := replay_buffered s1 id ec (actions ++ [StartTimeout id]) in
        let s3 := set_pending_reverifications s2 (<[cid :=
          {| rv_accusation_id := id; rv_data_hash := data_hash; rv_accused := accused a;
             rv_proof_type := pfa_proof_type a; rv_evidence := evidence |}]>
          (pending_reverifications s2)) in
        (s3, actions1 ++ [DispatchZk
           {| rr_party_proofs := [(accused_party_id a, [forwarded])];
              rr_params_preset := params_preset s; rr_committee_size := committee_size;
              rr_correlation_id := cid; rr_e3_id := e3_id s |} ec cid])
    end.

Definition agree_with_accusation (s : AccusationVoting) (a : ProofFailureAccusation)
    (id : B256) (our_data_hash : B256) (ec : EC) (actions : list VoteAction)
    : AccusationVoting * list VoteAction :=
  let vote0 := own_vote s id our_data_hash (pfa_issued_at a) (pfa_deadline a) in
  match sign_vote_digest s vote0 with
  | None => (s, actions)
  | Some sig =>
      let vote := vote_with_signature vote0 sig in
      let actions1 := actions ++ [PublishVote vote ec; StartTimeout id] in
      let s1 := set_pending s (<[id :=
        {| pa_accusation := a; votes_for := [vote]; pa_ec := ec;
           timeout_at := timeout_from_now s |}]> (pending s)) in
      let '(s2, actions2) := replay_buffered s1 id ec actions1 in
      check_quorum s2 id ec actions2
  end.

Definition on_accusation_received_inner (s : AccusationVoting) (a0 : ProofFailureAccusation)
    (ec : EC) (cid : Z) (actions : list VoteAction) : AccusationVoting * list VoteAction :=
  match admit_own_replayed_accusation s a0 with
  | Some key => (set_accused_proofs s ({[key]} ∪ accused_proofs s), actions)
  | None =>
      match admit_accusation s a0 with
      | Err _ => (s, actions)
      | Ok a =>
          let id := accusation_id_of a in
          if bool_decide (is_Some (pending s !! id))
          then adopt_later_vote_window s id a ec actions
          else
            match received_data s !! (accused a, pfa_proof_type a) with
            | Some received =>
                if verification_passed received then (s, actions)
                else agree_with_accusation s a id (rd_data_hash received) ec actions
            | None =>
                match signed_payload a with
                | Some forwarded => dispatch_reverification s a id forwarded ec cid actions
                | None => (s, actions)
                end
            end
      end
  end.

Definition on_accusation_received (s : AccusationVoting) (a : ProofFailureAccusation)
    (ec : EC) (cid : Z) : AccusationVoting * list VoteAction :=
  on_accusation_received_inner s a ec cid [].

(** ** Expulsion and re-verification results (transitions/reverify_proofs.rs) *)

Definition drop_votes_of (node : Address) (vs : list AccusationVote) : list AccusationVote :=
  List.filter (λ v, negb (voter v =? node)) vs.

Definition on_member_expelled (s : AccusationVoting) (d : CommitteeMemberExpelled)
    : AccusationVoting :=
  if negb (bool_decide (cme_e3_id d = e3_id s)) then s
  else
    let committee' := List.filter (λ a, negb (a =? cme_node d)) (committee s) in
    let s1 := set_committee s committee' in
    if (length committee' <? length (committee s))%nat then
      let s2 := set_pending s1
        ((λ p, set_votes p (drop_votes_of (cme_node d) (votes_for p))) <$> pending s1) in
      set_buffered_votes s2 (drop_votes_of (cme_node d) <$> buffered_votes s2)
    else s1.

Definition handle_reverification_response (s : AccusationVoting) (cid : Z)
    (response : ComputeResponseKind) : AccusationVoting * list VoteAction :=
  match pending_reverifications s !! cid with
  | None => (s, [])
  | Some rv =>
      let s1 := set_pending_reverifications s (delete cid (pending_reverifications s)) in
      match response with
      | OtherResponse => (s1, [])
      | ZkVerifyShareProofs [] => (s1, [])
      | ZkVerifyShareProofs (zk_passed :: _) =>
          let s2 := cache_verification_result s1 (rv_accused rv) (rv_proof_type rv)
                      (rv_data_hash rv) zk_passed (rv_evidence rv) in
          if zk_passed then (s2, [])
          else
            match pending s2 !! rv_accusation_id rv with
            | None => (s2, [])
            | Some p =>
                let vote0 := own_vote s2 (rv_accusation_id rv) (rv_data_hash rv)
                  (pfa_issued_at (pa_accusation p)) (pfa_deadline (pa_accusation p)) in
                match sign_vote_digest s2 vote0 with
                | None => (s2, [])
                | Some sig =>
                    let vote := vote_with_signature vote0 sig in
                    let s3 := set_pending s2 (<[rv_accusation_id rv :=
                      set_votes p (votes_for p ++ [vote])]> (pending s2)) in
                    check_quorum s3 (rv_accusation_id rv) (pa_ec p) [PublishVote vote (pa_ec p)]
                end
            end
      end
  end.

(** A failed re-verification request changes nothing: the pending work survives a restart. *)
Definition handle_reverification_error (s : AccusationVoting) (cid : Z) : AccusationVoting := s.

(** ** The inputs of the protocol core *)

Inductive VotingInput :=
| LocalFailure (e : ProofVerificationFailed) (ec : EC)
| VerificationPassed (e : ProofVerificationPassed)
| PeerAccusation (a : ProofFailureAccusation) (ec : EC) (fresh_cid : Z)
| PeerVote (v : AccusationVote) (ec : EC)
| Violation (d : CommitmentConsistencyViolation) (ec : EC)
| Reverified (cid : Z) (r : ComputeResponseKind)
| ReverifyError (cid : Z)
| Expelled (d : CommitteeMemberExpelled)
| EffectsEnabled
| VoteTimeout (id : B256)
| PublishFailed (key : Address * ProofType)
| DispatchFailed (cid : Z)
| ClockMoves (now : Z).

Definition step (s : AccusationVoting) (i : VotingInput) : AccusationVoting * list VoteAction :=
  match i with
  | LocalFailure e ec => on_local_proof_failure s e ec
  | VerificationPassed e => (on_proof_verification_passed s e, [])
  | PeerAccusation a ec cid => on_accusation_received s a ec cid
  | PeerVote v ec => on_vote_received s v ec
  | Violation d ec => on_consistency_violation s d ec
  | Reverified cid r => handle_reverification_response s cid r
  | ReverifyError cid => (handle_reverification_error s cid, [])
  | Expelled d => (on_member_expelled s d, [])
  | EffectsEnabled => on_effects_enabled s
  | VoteTimeout id =>
      let '(s', q) := on_vote_timeout s id in
      (s', match q with Some (quorum, ec) => [PublishQuorum quorum ec] | None => [] end)
  | PublishFailed key => (rollback_initiation s key, [])
  | DispatchFailed cid => (discard_reverification s cid, [])
  | ClockMoves now => (set_clock s now, [])
  end.

(** A run of the protocol core: the state and all actions, in order.  The theorems over runs start from a
    fresh core; what a restored core holds is [restore_snapshot] of AccusationProps.v. *)
Definition run (s : AccusationVoting) (inputs : list VotingInput)
    : AccusationVoting * list VoteAction :=
  foldl (λ sa i, let '(s', acts) := step sa.1 i in (s', sa.2 ++ acts)) (s, []) inputs.

End Voting.

Arguments AccusationVoting {H} EC Preset.
Arguments VotingInput EC : clear implicits.
Arguments VoteAction EC Preset : clear implicits.
Arguments PendingAccusation EC : clear implicits.
