(* ===== verification/AccusationInv.v ===== *)
(** * Accusation voting: invariants of every run

    The state invariant [Inv] (each pending accusation is filed under its own id, and each
    vote held for it is a signed agreement for that id, in the accusation's window, from a
    committee member other than the accused, or this node's own), the guarantees [action_ok]
    on everything the core asks the actor to publish, and their preservation by every
    transition.  The properties of the manifest are in AccusationProps.v. *)

From S2P Require Import Prelude Events AccusationVoting.
Local Open Scope Z_scope.

(** Case analysis on the signing call of the goal. *)
Ltac case_sign sg Hs :=
  match goal with
  | |- context [sign_accusation_digest ?x ?y] =>
      destruct (sign_accusation_digest x y) as [sg|] eqn:Hs
  | |- context [sign_vote_digest ?x ?y] => destruct (sign_vote_digest x y) as [sg|] eqn:Hs
  end.

Section Inv.
Context `{Hlaws : AlloyLaws}.
Context {EC Preset : Type} `{!EqDecision EC}.
Notation AV := (AccusationVoting EC Preset).
Notation Action := (VoteAction EC Preset).
Implicit Types (s : AV) (v : AccusationVote) (id : B256) (acts : list Action).

(** ** Configuration that no transition changes *)

Record same_config (s0 s : AV) : Prop := {
  sc_e3 : e3_id s = e3_id s0;
  sc_me : my_address s = my_address s0;
  sc_signer : signer s = signer s0;
  sc_manager : slashing_manager s = slashing_manager s0;
  sc_final : finalized_committee s = finalized_committee s0;
  sc_h : vote_quorum_h s = vote_quorum_h s0;
}.

Lemma same_config_refl s : same_config s s.
Proof. by constructor. Qed.

Lemma same_config_trans s1 s2 s3 : same_config s1 s2 → same_config s2 s3 → same_config s1 s3.
Proof. intros [] []. constructor; congruence. Qed.

(** ** The invariant *)

(** A vote held for the accusation [a] filed under [id]. *)
Record vote_in (s : AV) (id : B256) (a : ProofFailureAccusation) (v : AccusationVote) : Prop := {
  vi_e3 : v_e3_id v = e3_id s;
  vi_id : accusation_id v = id;
  vi_window : (v_issued_at v, v_deadline v) = (pfa_issued_at a, pfa_deadline a);
  vi_sig : verify_vote_signature s v = true;
  vi_voter : voter v = my_address s ∨ (voter v ∈ committee s ∧ voter v ≠ accused a);
}.

Record pending_ok (s : AV) (id : B256) (p : PendingAccusation EC) : Prop := {
  po_id : accusation_id_of (pa_accusation p) = id;
  po_e3 : pfa_e3_id (pa_accusation p) = e3_id s;
  po_votes : Forall (vote_in s id (pa_accusation p)) (votes_for p);
}.

Record Inv (s : AV) : Prop := {
  inv_signer : my_address s = signer_address (signer s);
  inv_committee : ∀ a, a ∈ committee s → a ∈ finalized_committee s;
  inv_pending : ∀ id p, pending s !! id = Some p → pending_ok s id p;
}.

(** ** What a published action guarantees *)

Definition vote_valid (s : AV) (v : AccusationVote) : Prop :=
  v_e3_id v = e3_id s ∧ verify_vote_signature s v = true ∧
  (voter v = my_address s ∨ voter v ∈ finalized_committee s).

(** What an outcome says about the votes it was decided from. *)
Definition outcome_ok (h : nat) (votes : list AccusationVote) (o : AccusationOutcome) : Prop :=
  match o with
  | Inconclusive => (length votes < h)%nat
  | AccusedFaulted => (h ≤ length votes)%nat ∧
      ∀ v w, v ∈ votes → w ∈ votes → v_data_hash v = v_data_hash w
  | Equivocation => (h ≤ length votes)%nat ∧
      ∃ v w, v ∈ votes ∧ w ∈ votes ∧ v_data_hash v ≠ v_data_hash w
  end.

Record quorum_ok (s : AV) (q : AccusationQuorumReached) : Prop := {
  qo_e3 : q_e3_id q = e3_id s;
  qo_valid : Forall (vote_valid s) (q_votes_for q);
  qo_accused : Forall (λ v, voter v = my_address s ∨ voter v ≠ q_accused q) (q_votes_for q);
  qo_window : ∃ id issued deadline, Forall (λ v, accusation_id v = id ∧
    v_issued_at v = issued ∧ v_deadline v = deadline) (q_votes_for q);
  qo_outcome : outcome_ok (vote_quorum_h s) (q_votes_for q) (q_outcome q);
}.

Definition action_ok (s : AV) (act : Action) : Prop :=
  match act with
  | PublishQuorum q _ => quorum_ok s q
  | PublishVote v _ => voter v = my_address s ∧ v_e3_id v = e3_id s ∧
                       verify_vote_signature s v = true
  | PublishAccusation a _ key =>
      accuser a = my_address s ∧ pfa_e3_id a = e3_id s ∧
      verify_accusation_signature a = true ∧ accused a ∈ finalized_committee s ∧
      key = (accused a, pfa_proof_type a)
  | _ => True
  end.

(** A transition result is good: the invariant, the actions' guarantees, the configuration. *)
Record good (s0 : AV) (sa : AV * list Action) : Prop := {
  g_config : same_config s0 sa.1;
  g_inv : Inv sa.1;
  g_acts : Forall (action_ok s0) sa.2;
}.

(** ** Transport along unchanged configuration *)

Lemma verify_vote_signature_config s0 s v :
  same_config s0 s → verify_vote_signature s v = verify_vote_signature s0 v.
Proof. intros Hc. unfold verify_vote_signature. by rewrite (sc_manager _ _ Hc). Qed.

Lemma vote_in_config s0 s id a v :
  same_config s0 s → (∀ x, x ∈ committee s0 → x ∈ committee s) →
  vote_in s0 id a v → vote_in s id a v.
Proof.
  intros Hc Hsub []. pose proof (verify_vote_signature_config s0 s v Hc). destruct Hc.
  constructor; naive_solver congruence.
Qed.

Lemma pending_ok_config s0 s id p :
  same_config s0 s → (∀ x, x ∈ committee s0 → x ∈ committee s) →
  pending_ok s0 id p → pending_ok s id p.
Proof.
  intros Hc Hsub [? ? Hv]. constructor; [done|by destruct Hc; congruence|].
  eapply Forall_impl; [exact Hv|]. intros v. by apply vote_in_config.
Qed.

Lemma action_ok_config s0 s act : same_config s0 s → action_ok s act → action_ok s0 act.
Proof.
  intros Hc. pose proof (λ v, verify_vote_signature_config s0 s v Hc) as Hvs.
  destruct Hc; destruct act as [a ec key|v ec|q ec|?|?|?]; simpl; try done.
  - intros (?&?&?&?&?). split_and!; congruence.
  - intros (?&?&?). rewrite <-Hvs. split_and!; congruence.
  - intros [He Hval Hacc Hwin Hout]. constructor; [congruence| | |done|].
    + eapply Forall_impl; [exact Hval|]. intros v (?&?&?). unfold vote_valid.
      rewrite <-Hvs. split_and!; [congruence|done|]. naive_solver congruence.
    + eapply Forall_impl; [exact Hacc|]. simpl. intros v. naive_solver congruence.
    + by rewrite <-sc_h0.
Qed.

(** ** The set of data hashes *)

Lemma agree_hashes_le_1 (vs : list AccusationVote) :
  (agree_hashes vs ≤ 1)%nat ↔ ∀ v w, v ∈ vs → w ∈ vs → v_data_hash v = v_data_hash w.
Proof.
  unfold agree_hashes. split.
  - intros Hs v w Hv Hw.
    destruct (decide (v_data_hash v = v_data_hash w)) as [|Hne]; [done|exfalso].
    assert (({[v_data_hash v; v_data_hash w]} : gset B256)
      ⊆ list_to_set (v_data_hash <$> vs)) as Hsub.
    { intros x. rewrite elem_of_union, !elem_of_singleton, elem_of_list_to_set.
      rewrite list_elem_of_fmap. naive_solver. }
    apply subseteq_size in Hsub. rewrite size_union in Hsub by set_solver.
    rewrite !size_singleton in Hsub. lia.
  - intros Hall. destruct vs as [|v vs]; [vm_compute; lia|].
    assert ((list_to_set (v_data_hash <$> v :: vs) : gset B256) ⊆ {[v_data_hash v]}) as Hsub.
    { intros x. rewrite elem_of_singleton, elem_of_list_to_set, list_elem_of_fmap.
      intros (w & -> & Hw). apply Hall; [done|left]. }
    apply subseteq_size in Hsub. by rewrite size_singleton in Hsub.
Qed.

Lemma agree_hashes_gt_1 (vs : list AccusationVote) :
  (1 < agree_hashes vs)%nat ↔ ∃ v w, v ∈ vs ∧ w ∈ vs ∧ v_data_hash v ≠ v_data_hash w.
Proof.
  split.
  - intros Hgt. destruct (decide (Exists (λ v, Exists (λ w, v_data_hash v ≠ v_data_hash w) vs) vs))
      as [Hex|Hno].
    + apply Exists_exists in Hex as (v & ? & (w & ? & ?)%Exists_exists). eauto.
    + exfalso. assert (agree_hashes vs ≤ 1)%nat; [|lia]. apply agree_hashes_le_1.
      intros v w Hv Hw. destruct (decide (v_data_hash v = v_data_hash w)); [done|].
      destruct Hno. apply Exists_exists. exists v. split; [done|]. apply Exists_exists. eauto.
  - intros (v & w & Hv & Hw & Hne). destruct (decide (agree_hashes vs ≤ 1)%nat) as [Hle|]; [|lia].
    rewrite agree_hashes_le_1 in Hle. by destruct Hne; auto.
Qed.

(** ** Signatures of this node *)

Lemma own_vote_signature s v sig :
  my_address s = signer_address (signer s) → voter v = my_address s →
  sign_vote_digest s v = Some sig →
  verify_vote_signature s (vote_with_signature v sig) = true.
Proof.
  intros Hk Hv Hs. unfold verify_vote_signature. apply bool_decide_eq_true_2. simpl.
  unfold sign_vote_digest in Hs. apply recover_sign_hash in Hs.
  rewrite Hv, Hk, <-Hs. done.
Qed.

Lemma own_accusation_signature s a sig :
  my_address s = signer_address (signer s) → accuser a = my_address s →
  sign_accusation_digest s a = Some sig →
  verify_accusation_signature (accusation_with_signature a sig) = true.
Proof.
  intros Hk Ha Hs. unfold verify_accusation_signature. apply bool_decide_eq_true_2. simpl.
  unfold sign_accusation_digest in Hs. apply recover_sign_message in Hs.
  rewrite Ha, Hk, <-Hs. done.
Qed.

(** ** Good results are closed under the state updates of the transitions *)

Lemma good_frame s0 s s' acts acts' :
  good s0 (s, acts) → same_config s s' → Inv s' → Forall (action_ok s0) acts' →
  good s0 (s', acts ++ acts').
Proof.
  intros [] ? ? ?. constructor; simpl in *; [by eapply same_config_trans|done|].
  by apply Forall_app.
Qed.

(** An update that leaves configuration, committee and pending accusations alone. *)
Lemma inv_irrelevant s s' :
  same_config s s' → committee s' = committee s → pending s' = pending s → Inv s → Inv s'.
Proof.
  intros Hc Hco Hp [Hs Hsub Hpe]. constructor.
  - destruct Hc; congruence.
  - destruct Hc. rewrite Hco, sc_final0. done.
  - intros id p. rewrite Hp. intros Hl. apply (pending_ok_config s); [done|by rewrite Hco|auto].
Qed.

Lemma inv_set_pending s m :
  Inv s → (∀ id p, m !! id = Some p → pending_ok s id p) → Inv (set_pending s m).
Proof.
  intros [Hs Hsub Hpe] Hm. constructor; simpl; [done|done|].
  intros id p Hl. eapply (pending_ok_config s); [by constructor|done|]. by apply Hm.
Qed.

Lemma inv_insert_pending s id p :
  Inv s → pending_ok s id p → Inv (set_pending s (<[id := p]> (pending s))).
Proof.
  intros Hinv Hp. apply inv_set_pending; [done|]. intros id' p'.
  rewrite lookup_insert_Some. intros [[<- <-]|[_ Hl]]; [done|]. by apply (inv_pending s).
Qed.

Lemma inv_delete_pending s id : Inv s → Inv (set_pending s (delete id (pending s))).
Proof.
  intros Hinv. apply inv_set_pending; [done|]. intros id' p'.
  rewrite lookup_delete_Some. intros [_ Hl]. by apply (inv_pending s).
Qed.

(** ** Quorum *)

Lemma quorum_of_ok s m id p o :
  Inv s → pending s !! id = Some p → outcome_ok (vote_quorum_h s) (votes_for p) o →
  quorum_ok s (quorum_of (set_pending s m) p o).
Proof.
  intros Hinv Hp Ho. destruct (inv_pending s Hinv id p Hp) as [Hid He3 Hv].
  rewrite Forall_forall in Hv.
  constructor; simpl; try done.
  - apply Forall_forall. intros v Hin. destruct (Hv v Hin). split_and!; try done.
    destruct vi_voter0 as [|[? _]]; [by left|right]. by apply (inv_committee s Hinv).
  - apply Forall_forall. intros v Hin. destruct (Hv v Hin). naive_solver.
  - exists id, (pfa_issued_at (pa_accusation p)), (pfa_deadline (pa_accusation p)).
    apply Forall_forall. intros v Hin. destruct (Hv v Hin). naive_solver.
Qed.

Lemma emit_quorum_reached_good s0 s id o ec acts :
  good s0 (s, acts) →
  (∀ p, pending s !! id = Some p → outcome_ok (vote_quorum_h s) (votes_for p) o) →
  good s0 (emit_quorum_reached s id o ec acts).
Proof.
  intros Hg Ho. unfold emit_quorum_reached.
  destruct (pending s !! id) as [p|] eqn:Hp; [|done].
  destruct Hg as [Hc Hi Ha]; simpl in *. constructor; simpl.
  - eapply same_config_trans; [exact Hc|by constructor].
  - by apply inv_delete_pending.
  - apply Forall_app. split; [done|]. constructor; [done|]. constructor; [|done].
    apply (action_ok_config s0 s _ Hc). simpl. eapply quorum_of_ok; eauto.
Qed.

Lemma check_quorum_good s0 s id ec acts :
  good s0 (s, acts) → good s0 (check_quorum s id ec acts).
Proof.
  intros Hg. unfold check_quorum. destruct (pending s !! id) as [p|] eqn:Hp; [|done].
  repeat case_match; bool_to_prop; try done; apply emit_quorum_reached_good; try done;
    intros p' Hp'; simplify_eq; simpl; (split; [lia|]).
  - by apply agree_hashes_gt_1.
  - by apply agree_hashes_le_1.
Qed.

Lemma on_vote_timeout_good s0 s id :
  good s0 (s, []) → good s0 (step s (VoteTimeout id)).
Proof.
  intros Hg. simpl. unfold on_vote_timeout. destruct (pending s !! id) as [p|] eqn:Hp; [|done].
  destruct Hg as [Hc Hi Ha]; simpl in *. constructor; simpl.
  - eapply same_config_trans; [exact Hc|by constructor].
  - by apply inv_delete_pending.
  - constructor; [|done]. apply (action_ok_config s0 s _ Hc). simpl.
    eapply quorum_of_ok; eauto. repeat case_match; bool_to_prop; simpl.
    + split; [lia|]. by apply agree_hashes_gt_1.
    + split; [lia|]. by apply agree_hashes_le_1.
    + lia.
Qed.

(** ** Votes *)

(** An update of the state that the invariant does not see. *)
Lemma good_irrelevant s0 s s' acts :
  good s0 (s, acts) → same_config s s' → committee s' = committee s →
  pending s' = pending s → good s0 (s', acts).
Proof.
  intros [Hc Hi Ha] Hs Hco Hp. simpl in *. constructor; simpl; [|by eapply inv_irrelevant|done].
  by eapply same_config_trans.
Qed.

Lemma good_insert s0 s id p acts acts' :
  good s0 (s, acts) → pending_ok s id p → Forall (action_ok s) acts' →
  good s0 (set_pending s (<[id := p]> (pending s)), acts ++ acts').
Proof.
  intros Hg Hp Ha. pose proof (g_config _ _ Hg) as Hc. simpl in Hc.
  eapply good_frame; [exact Hg|by constructor| |].
  - apply inv_insert_pending; [apply (g_inv _ _ Hg)|done].
  - eapply Forall_impl; [exact Ha|]. intros act. by apply action_ok_config.
Qed.

Lemma good_insert_nil s0 s id p acts :
  good s0 (s, acts) → pending_ok s id p →
  good s0 (set_pending s (<[id := p]> (pending s)), acts).
Proof. intros Hg Hp. rewrite <-(app_nil_r acts). by apply good_insert. Qed.

Lemma admit_vote_Ok s v w :
  admit_vote s v = Ok w →
  w = v ∧ v_e3_id v = e3_id s ∧ voter v ∈ committee s ∧ voter v ≠ my_address s ∧
  verify_vote_signature s v = true.
Proof. unfold admit_vote. intros Hok. branches Hok; bool_to_prop; naive_solver. Qed.

Lemma on_vote_received_inner_good s0 s v ec acts :
  good s0 (s, acts) → good s0 (on_vote_received_inner s v ec acts).
Proof.
  intros Hg. unfold on_vote_received_inner.
  destruct (admit_vote s v) as [w|e] eqn:Hadm; [|done].
  apply admit_vote_Ok in Hadm as (-> & He3 & Hmem & Hme & Hsig).
  destruct (pending s !! accusation_id v) as [p|] eqn:Hp.
  2: { eapply good_irrelevant; [exact Hg|by constructor|done|done]. }
  repeat case_match; try done; bool_to_prop.
  { eapply good_irrelevant; [exact Hg|by constructor|done|done]. }
  all: apply check_quorum_good, good_insert_nil; [done|].
  all: destruct (inv_pending s (g_inv _ _ Hg) _ _ Hp) as [Hid Hpe3 Hv].
  all: constructor; simpl; [done|done|].
  all: apply Forall_app; split; [done|]; constructor; [|done].
  all: constructor; try done; right; split; [done|]; naive_solver.
Qed.

Lemma foldl_good {A} s0 (f : AV * list Action → A → AV * list Action) (l : list A) sa :
  (∀ sa x, x ∈ l → good s0 sa → good s0 (f sa x)) → good s0 sa → good s0 (foldl f sa l).
Proof.
  revert sa. induction l as [|x l IH]; intros sa Hf Hg; [done|]. simpl.
  apply IH; [|apply Hf; [left|done]]. intros sa' y Hy. apply Hf. by right.
Qed.

Lemma replay_buffered_good s0 s id ec acts :
  good s0 (s, acts) → good s0 (replay_buffered s id ec acts).
Proof.
  intros Hg. unfold replay_buffered. destruct (buffered_votes s !! id) as [buf|]; [|done].
  apply foldl_good.
  - intros [s1 a1] v _ Hg1. by apply on_vote_received_inner_good.
  - eapply good_irrelevant; [exact Hg|by constructor|done|done].
Qed.

(** Collect, replay, decide: the tail of every transition that files an accusation. *)
Lemma file_accusation_good s0 s id p ec acts acts' :
  good s0 (s, acts) → pending_ok s id p → Forall (action_ok s) acts' →
  good s0 (let '(s4, a4) := replay_buffered
                 (set_pending s (<[id := p]> (pending s))) id ec (acts ++ acts') in
           check_quorum s4 id ec a4).
Proof.
  intros Hg Hp Ha. pose proof (good_insert s0 s id p acts acts' Hg Hp Ha) as Hg'.
  pose proof (replay_buffered_good s0 _ id ec _ Hg') as Hg''.
  destruct (replay_buffered _ _ _ _) as [s4 a4]. by apply check_quorum_good.
Qed.

(** ** This node's votes *)

Lemma own_vote_in s id a data_hash sig :
  Inv s → sign_vote_digest s (own_vote s id data_hash (pfa_issued_at a) (pfa_deadline a)) = Some sig →
  vote_in s id a (vote_with_signature
    (own_vote s id data_hash (pfa_issued_at a) (pfa_deadline a)) sig).
Proof.
  intros Hi Hs. constructor; try done; [|by left].
  by apply own_vote_signature; [apply Hi| |].
Qed.

Lemma publish_own_ok s v ec (rest : list Action) :
  verify_vote_signature s v = true → voter v = my_address s → v_e3_id v = e3_id s →
  Forall (action_ok s) rest → Forall (action_ok s) (PublishVote v ec :: rest).
Proof. intros. constructor; [|done]. simpl. done. Qed.

(** ** Local failures *)

Lemma initiate_accusation_good s0 s acc pid pt dh fwd ec acts :
  good s0 (s, acts) → good s0 (initiate_accusation s acc pid pt dh fwd ec acts).
Proof.
  intros Hg. unfold initiate_accusation. case_match eqn:Hm; [done|]. bool_to_prop.
  case_match eqn:Hdup; [done|]. case_match.
  { eapply good_irrelevant; [exact Hg|by constructor|done|done]. }
  unfold compute_vote_window. cbv beta iota zeta. case_sign sg Hsig.
  2: { eapply good_irrelevant; [exact Hg|by constructor|done|done]. }
  set (a := accusation_with_signature _ sg). set (id := accusation_id_of a).
  set (s2 := set_pending_reverifications _ _).
  pose proof (g_inv _ _ Hg) as Hi. simpl in Hi.
  assert (good s0 (s2, acts ++ [PublishAccusation a ec (acc, pt)])) as Hg2.
  { eapply good_frame; [exact Hg|by constructor| |].
    - eapply (inv_irrelevant s); [by constructor|done|done|done].
    - constructor; [|done]. apply (action_ok_config s0 s _ (g_config _ _ Hg)). simpl.
      split_and!; try done.
      + eapply (own_accusation_signature s); [apply Hi|done|exact Hsig].
      + by apply (inv_committee s Hi). }
  case_sign vsig Hvs.
  - set (a1 := acts ++ [PublishAccusation a ec (acc, pt)]) in *.
    pose proof (own_vote_in s2 id a dh vsig (g_inv _ _ Hg2) Hvs) as Hv.
    apply (file_accusation_good s0 s2 id _ ec a1
      [PublishVote (vote_with_signature (own_vote s2 id dh (pfa_issued_at a) (pfa_deadline a)) vsig)
         ec; StartTimeout id]); [done| |].
    + constructor; [done|done|]. constructor; [exact Hv|constructor].
    + apply publish_own_ok; [apply Hv|done|done|]. by repeat constructor.
  - eapply good_irrelevant; [exact Hg2|by constructor|done|done].
Qed.

Lemma accuse_when_effects_run_good s0 s d :
  good s0 (s, []) → good s0 (accuse_when_effects_run s d).
Proof.
  intros Hg. unfold accuse_when_effects_run. repeat case_match; try done.
  - eapply good_irrelevant; [exact Hg|by constructor|done|done].
  - by apply initiate_accusation_good.
Qed.

Lemma cache_good s0 s acc pt dh b ev acts :
  good s0 (s, acts) → good s0 (cache_verification_result s acc pt dh b ev, acts).
Proof. intros Hg. eapply good_irrelevant; [exact Hg|by constructor|done|done]. Qed.

Lemma run_deferred_good s0 sa d : good s0 sa → good s0 (run_deferred sa d).
Proof.
  destruct sa as [s acts]. intros Hg. unfold run_deferred. case_match.
  - eapply good_irrelevant; [exact Hg|by constructor|done|done].
  - by apply initiate_accusation_good.
Qed.

Lemma on_effects_enabled_good s0 s :
  good s0 (s, []) → good s0 (on_effects_enabled s).
Proof.
  intros Hg. unfold on_effects_enabled. case_match; [done|]. cbv zeta.
  assert (good s0 (foldl run_deferred
    (set_deferred_accusations (set_effects_enabled s true) [], [])
    (deferred_accusations (set_effects_enabled s true)))) as Hf.
  { apply foldl_good; [intros sa d _; apply run_deferred_good|].
    eapply good_irrelevant; [exact Hg|by constructor|done|done]. }
  destruct (foldl run_deferred _ _) as [s2 acts]. 
  eapply (good_frame s0 s2); [exact Hf|by constructor| |apply Forall_fmap, Forall_true; done].
  eapply (inv_irrelevant s2); [by constructor|done|done|apply (g_inv _ _ Hf)].
Qed.

(** ** Peer accusations *)

Lemma admit_accusation_Ok s a b :
  admit_accusation s a = Ok b →
  b = a ∧ pfa_e3_id a = e3_id s ∧ accuser a ≠ accused a ∧ accuser a ∈ committee s ∧
  accused a ∈ committee s ∧ accuser a ≠ my_address s ∧ verify_accusation_signature a = true ∧
  is_peer_deadline_acceptable (pfa_issued_at a) (pfa_deadline a) (clock s)
    (vote_validity_secs s) (accusation_deadline_skew_secs s) = true.
Proof. unfold admit_accusation. intros Hok. branches Hok; bool_to_prop; naive_solver. Qed.

Lemma adopt_good s0 s id a ec acts :
  accusation_id_of a = id → pfa_e3_id a = e3_id s →
  good s0 (s, acts) → good s0 (adopt_later_vote_window s id a ec acts).
Proof.
  intros Hid He3 Hg. unfold adopt_later_vote_window.
  destruct (pending s !! id) as [p|] eqn:Hp; [|done].
  case_match; [done|]. case_match; [done|].
  set (s1 := set_window_movers s _).
  assert (good s0 (s1, acts)) as Hg1.
  { eapply good_irrelevant; [exact Hg|by constructor|done|done]. }
  pose proof (g_inv _ _ Hg1) as Hi1. simpl in Hi1.
  destruct (List.find _ (votes_for p)) as [v0|] eqn:Hf.
  - apply find_some in Hf as [Hin Hme]. bool_to_prop.
    case_sign sg Hs; simpl; [|done].
    set (v2 := vote_with_signature _ sg).
    pose proof (inv_pending s1 Hi1 id p Hp) as [_ _ Hv].
    rewrite Forall_forall in Hv. apply list_elem_of_In in Hin. destruct (Hv _ Hin).
    assert (verify_vote_signature s1 v2 = true) as Hv2.
    { apply own_vote_signature; [apply Hi1|done|exact Hs]. }
    rewrite <-app_assoc.
    apply (file_accusation_good s0 s1 id _ ec acts
      [PublishVote v2 ec; CancelTimeout id; StartTimeout id]); [done| |].
    + constructor; simpl; [done|done|]. constructor; [|constructor].
      constructor; simpl; try done. by left.
    + apply publish_own_ok; [done|done|done|]. by repeat constructor.
  - apply (file_accusation_good s0 s1 id _ ec acts [CancelTimeout id; StartTimeout id]);
      [done| |by repeat constructor].
    constructor; simpl; [done|done|constructor].
Qed.

Lemma agree_good s0 s a id dh ec acts :
  accusation_id_of a = id → pfa_e3_id a = e3_id s →
  good s0 (s, acts) → good s0 (agree_with_accusation s a id dh ec acts).
Proof.
  intros Hid He3 Hg. unfold agree_with_accusation.
  case_sign sg Hs; [|done].
  pose proof (own_vote_in s id a dh sg (g_inv _ _ Hg) Hs) as Hv.
  apply (file_accusation_good s0 s id _ ec acts [PublishVote _ ec; StartTimeout id]); [done| |].
  - constructor; simpl; [done|done|]. constructor; [exact Hv|constructor].
  - apply publish_own_ok; [apply Hv|done|done|]. by repeat constructor.
Qed.

Lemma dispatch_good s0 s a id fwd ec cid acts :
  accusation_id_of a = id → pfa_e3_id a = e3_id s →
  good s0 (s, acts) → good s0 (dispatch_reverification s a id fwd ec cid acts).
Proof.
  intros Hid He3 Hg. unfold dispatch_reverification. repeat (case_match; [done|]).
  destruct (from_threshold _ _) as [size|]; [|done].
  set (p := mkPending _ _ _ _).
  assert (good s0 (set_pending s (<[id := p]> (pending s)), acts ++ [StartTimeout id])) as Hg1.
  { apply good_insert; [done| |by repeat constructor]. constructor; simpl; [done|done|constructor]. }
  pose proof (replay_buffered_good s0 _ id ec _ Hg1) as Hg2.
  destruct (replay_buffered _ _ _ _) as [s2 a2].
  eapply (good_frame s0 s2); [exact Hg2|by constructor| |by repeat constructor].
  eapply (inv_irrelevant s2); [by constructor|done|done|apply (g_inv _ _ Hg2)].
Qed.

Lemma on_accusation_received_good s0 s a ec cid :
  good s0 (s, []) → good s0 (on_accusation_received s a ec cid).
Proof.
  intros Hg. unfold on_accusation_received, on_accusation_received_inner.
  case_match.
  { eapply good_irrelevant; [exact Hg|by constructor|done|done]. }
  destruct (admit_accusation s a) as [b|e] eqn:Hadm; [|done].
  apply admit_accusation_Ok in Hadm as (-> & He3 & _).
  repeat case_match; try done;
    first [by apply adopt_good|by apply agree_good|by apply dispatch_good].
Qed.

(** ** Expulsion and re-verification *)

Lemma drop_votes_of_in node vs v : v ∈ drop_votes_of node vs ↔ v ∈ vs ∧ voter v ≠ node.
Proof.
  unfold drop_votes_of. rewrite !list_elem_of_In, filter_In, negb_true_iff, Z.eqb_neq. done.
Qed.

Lemma committee_filter_in node (l : list Address) x :
  x ∈ List.filter (λ a, negb (a =? node)) l ↔ x ∈ l ∧ x ≠ node.
Proof. rewrite !list_elem_of_In, filter_In, negb_true_iff, Z.eqb_neq. done. Qed.

Lemma filter_length_not_lt {A} (f : A → bool) (l : list A) :
  (length l ≤ length (List.filter f l))%nat → List.filter f l = l.
Proof.
  induction l as [|x l IH]; simpl; [done|]. pose proof (filter_length_le f l).
  destruct (f x); simpl; intros; [f_equal; apply IH|]; lia.
Qed.

Lemma on_member_expelled_inv s d : Inv s → Inv (on_member_expelled s d).
Proof.
  intros Hi. unfold on_member_expelled. case_match; [done|]. bool_to_prop.
  set (c' := List.filter _ _). case_match eqn:Hlt; bool_to_prop.
  - constructor; simpl; [apply Hi| |].
    + intros a Ha. apply committee_filter_in in Ha as [Ha _]. by apply (inv_committee s Hi).
    + intros id p. rewrite lookup_fmap. intros Hl.
      destruct (pending s !! id) as [p0|] eqn:Hp; simplify_eq/=.
      destruct (inv_pending s Hi id p0 Hp) as [? ? Hv]. constructor; simpl; [done|done|].
      rewrite Forall_forall in Hv. apply Forall_forall. intros v Hv'.
      apply drop_votes_of_in in Hv' as [Hin Hne]. destruct (Hv v Hin).
      constructor; simpl; try done. destruct vi_voter0 as [?|[? ?]]; [by left|right].
      split; [|done]. apply committee_filter_in. done.
  - eapply (inv_irrelevant s); [by constructor| |done|done]. simpl. subst c'.
    by apply filter_length_not_lt.
Qed.

Lemma handle_reverification_response_good s0 s cid r :
  good s0 (s, []) → good s0 (handle_reverification_response s cid r).
Proof.
  intros Hg. unfold handle_reverification_response.
  destruct (pending_reverifications s !! cid) as [rv|]; [|done].
  set (s1 := set_pending_reverifications s _).
  assert (good s0 (s1, [])) as Hg1.
  { eapply good_irrelevant; [exact Hg|by constructor|done|done]. }
  destruct r as [[|zk rs]|]; try done. cbv zeta. set (s2 := cache_verification_result s1 _ _ _ _ _).
  assert (good s0 (s2, [])) as Hg2 by (by apply cache_good).
  destruct zk; [done|]. destruct (pending s2 !! rv_accusation_id rv) as [p|] eqn:Hp; [|done].
  case_sign sg Hs; [|done].
  pose proof (own_vote_in s2 _ (pa_accusation p) _ sg (g_inv _ _ Hg2) Hs) as Hv.
  apply check_quorum_good. destruct (inv_pending s2 (g_inv _ _ Hg2) _ _ Hp) as [? ? Hvs].
  apply (good_insert s0 s2 (rv_accusation_id rv) _ [] [PublishVote _ (pa_ec p)]); [done| |].
  - constructor; simpl; [done|done|]. apply Forall_app. split; [done|].
    constructor; [exact Hv|constructor].
  - apply publish_own_ok; [apply Hv|done|done|constructor].
Qed.

(** ** Every transition, every run *)

Lemma step_good s0 s i : good s0 (s, []) → good s0 (step s i).
Proof.
  intros Hg. destruct i; try (by apply on_vote_timeout_good); simpl.
  - unfold on_local_proof_failure. case_match; [|done].
    by apply accuse_when_effects_run_good, cache_good.
  - unfold on_proof_verification_passed. repeat case_match; try done. by apply cache_good.
  - by apply on_accusation_received_good.
  - by apply on_vote_received_inner_good.
  - unfold on_consistency_violation. case_match; [|done].
    by apply accuse_when_effects_run_good, cache_good.
  - by apply handle_reverification_response_good.
  - done.
  - constructor; simpl; [|apply on_member_expelled_inv, (g_inv _ _ Hg)|done].
    eapply same_config_trans; [apply (g_config _ _ Hg)|].
    unfold on_member_expelled. repeat case_match; by constructor.
  - by apply on_effects_enabled_good.
  - eapply good_irrelevant; [exact Hg|by constructor|done|done].
  - eapply good_irrelevant; [exact Hg|by constructor|done|done].
  - eapply good_irrelevant; [exact Hg|by constructor|done|done].
Qed.

(** Induction over a run, with the invariant available at every step. *)
Lemma run_ind (P : AV * list Action → Prop) s0 inputs :
  good s0 (s0, []) → P (s0, []) →
  (∀ s acts i, i ∈ inputs → good s0 (s, acts) → P (s, acts) →
     P ((step s i).1, acts ++ (step s i).2)) →
  good s0 (run s0 inputs) ∧ P (run s0 inputs).
Proof.
  intros Hg HP Hstep. unfold run.
  assert (∀ sa, good s0 sa → P sa →
    good s0 (foldl (λ sa i, let '(s', acts) := step sa.1 i in (s', sa.2 ++ acts)) sa inputs) ∧
    P (foldl (λ sa i, let '(s', acts) := step sa.1 i in (s', sa.2 ++ acts)) sa inputs)) as Hall;
    [|by apply Hall].
  induction inputs as [|i l IH]; intros [s acts] Hg1 HP1; [done|]. simpl.
  assert (good s0 (s, [])) as Hg1' by (destruct Hg1; by constructor; [| |constructor]).
  pose proof (step_good s0 s i Hg1') as Hs. assert (P ((step s i).1, acts ++ (step s i).2)) as HP2 by (apply Hstep; [left|done|done]).
  destruct (step s i) as [s' acts'].
  apply IH; [intros s3 a3 i3 Hi3; apply Hstep; by right| |exact HP2].
  destruct Hs, Hg1. constructor; simpl in *; [done|done|]. by apply Forall_app.
Qed.

Lemma run_good s0 inputs : good s0 (s0, []) → good s0 (run s0 inputs).
Proof. intros Hg. by apply (run_ind (λ _, True)). Qed.

Lemma new_good e3 k manager members t h validity skew preset now :
  let s := new e3 k manager members t h validity skew preset now in
  good s (s : AV, []).
Proof.
  intros s. constructor; simpl; [apply same_config_refl| |constructor].
  constructor; simpl; [done|done|]. intros id p. rewrite lookup_empty. done.
Qed.

End Inv.

#[export] Hint Resolve same_config_refl : interfold.
