(* ===== verification/AccusationProps.v ===== *)
(** * Accusation voting: the properties

    What a committee gets from the accusation protocol, over all runs of the core from a
    fresh state: sound quorums, decisions as soon as the quorum is there, at most one
    accusation per proof, votes and accusations that honest peers accept, vote windows that
    only move forward, snapshots that restore the vote state, and the condition under which
    the voters of a quorum are distinct. *)

From S2P Require Import Prelude Events AlloyExample AccusationVoting AccusationInv.
Local Open Scope Z_scope.

Section Props.
Context `{Hlaws : AlloyLaws}.
Context {EC Preset : Type} `{!EqDecision EC}.
Notation AV := (AccusationVoting EC Preset).
Notation Action := (VoteAction EC Preset).
Implicit Types (s : AV) (v : AccusationVote) (id : B256) (acts : list Action).

(** ** Decisions are immediate *)

(** Every pending accusation outside [P] holds fewer votes than the quorum. *)
Definition below_ex (P : B256 → Prop) (s : AV) : Prop :=
  ∀ id p, ¬ P id → pending s !! id = Some p → (length (votes_for p) < vote_quorum_h s)%nat.

Definition below (s : AV) : Prop := below_ex (λ _, False) s.

Lemma emit_pending s id o ec acts :
  pending (emit_quorum_reached s id o ec acts).1 = delete id (pending s) ∧
  vote_quorum_h (emit_quorum_reached s id o ec acts).1 = vote_quorum_h s.
Proof.
  unfold emit_quorum_reached. destruct (pending s !! id) eqn:E; simpl; [done|].
  by rewrite delete_id.
Qed.

Lemma check_quorum_below s id ec acts P :
  below_ex (λ x, x = id ∨ P x) s → below_ex P (check_quorum s id ec acts).1.
Proof.
  intros Hb. unfold check_quorum. destruct (pending s !! id) as [p|] eqn:Hp.
  2: { intros id' p' HP Hl. simpl in Hl. apply (Hb id'); [|done]. naive_solver. }
  repeat case_match; bool_to_prop; simpl.
  { intros id' p' HP Hl. destruct (decide (id' = id)) as [->|]; [naive_solver|].
    apply (Hb id'); naive_solver. }
  all: intros id' p' HP; destruct (emit_pending s id Equivocation ec acts) as [He Hh];
    destruct (emit_pending s id AccusedFaulted ec acts) as [He' Hh'];
    rewrite ?He, ?Hh, ?He', ?Hh', lookup_delete_Some; intros [? Hl]; apply (Hb id'); naive_solver.
Qed.

Lemma on_vote_received_inner_below s v ec acts P :
  below_ex P s → below_ex P (on_vote_received_inner s v ec acts).1.
Proof.
  intros Hb. unfold on_vote_received_inner. destruct (admit_vote s v) as [w|]; [|done].
  destruct (pending s !! accusation_id w) as [p|] eqn:Hp; [|done].
  repeat case_match; try done; apply check_quorum_below; intros id' p' HP; simpl;
    rewrite lookup_insert_ne by naive_solver; intros Hl; apply (Hb id'); naive_solver.
Qed.

Lemma foldl_below {A} (f : AV * list Action → A → AV * list Action) (l : list A) sa P :
  (∀ sa x, below_ex P sa.1 → below_ex P (f sa x).1) → below_ex P sa.1 →
  below_ex P (foldl f sa l).1.
Proof. revert sa. induction l as [|x l IH]; intros sa Hf Hg; [done|]. simpl. auto. Qed.

Lemma replay_buffered_below s id ec acts P :
  below_ex P s → below_ex P (replay_buffered s id ec acts).1.
Proof.
  intros Hb. unfold replay_buffered. destruct (buffered_votes s !! id); [|done].
  apply foldl_below; [|done]. intros sa v. apply on_vote_received_inner_below.
Qed.

(** Collect, replay, decide. *)
Lemma file_accusation_below s id p ec acts :
  below s →
  below (let '(s4, a4) := replay_buffered (set_pending s (<[id := p]> (pending s))) id ec acts in
         check_quorum s4 id ec a4).1.
Proof.
  intros Hb.
  assert (below_ex (λ x, x = id ∨ False) (set_pending s (<[id := p]> (pending s)))) as Hb'.
  { intros id' p' HP. simpl. rewrite lookup_insert_ne by naive_solver. apply Hb. naive_solver. }
  apply (replay_buffered_below _ id ec acts) in Hb'.
  destruct (replay_buffered _ _ _ _) as [s4 a4]. by apply check_quorum_below.
Qed.

Lemma initiate_accusation_below s acc pid pt dh fwd ec acts :
  below s → below (initiate_accusation s acc pid pt dh fwd ec acts).1.
Proof.
  intros Hb. unfold initiate_accusation. repeat (case_match; [done|]).
  unfold compute_vote_window. cbv beta iota zeta.
  case_sign sg Hs; [|done]. case_sign vs Hv; [|done]. by apply file_accusation_below.
Qed.

Lemma accuse_when_effects_run_below s d : below s → below (accuse_when_effects_run s d).1.
Proof.
  intros Hb. unfold accuse_when_effects_run. repeat case_match; try done.
  by apply initiate_accusation_below.
Qed.

Lemma on_effects_enabled_below s : below s → below (on_effects_enabled s).1.
Proof.
  intros Hb. unfold on_effects_enabled. case_match; [done|]. cbv zeta.
  assert (below (foldl run_deferred (set_deferred_accusations (set_effects_enabled s true) [], [])
    (deferred_accusations (set_effects_enabled s true))).1) as Hf.
  { apply foldl_below; [|done]. intros [s' a'] d Hb'. unfold run_deferred. case_match; [done|].
    by apply initiate_accusation_below. }
  by destruct (foldl _ _ _).
Qed.

Lemma adopt_below s id a ec acts : below s → below (adopt_later_vote_window s id a ec acts).1.
Proof.
  intros Hb. unfold adopt_later_vote_window. destruct (pending s !! id) as [p|]; [|done].
  repeat (case_match; [done|]). set (s1 := set_window_movers s _).
  assert (below s1) by done. clearbody s1.
  destruct (List.find _ _); [case_sign sg Hs; [|done]|]; simpl; by apply file_accusation_below.
Qed.

Lemma dispatch_below s a id fwd ec cid acts :
  (0 < vote_quorum_h s)%nat → below s →
  below (dispatch_reverification s a id fwd ec cid acts).1.
Proof.
  intros Hh Hb. unfold dispatch_reverification. repeat (case_match; [done|]).
  destruct (from_threshold _ _); [|done].
  match goal with |- context [replay_buffered ?x ?i ?e ?l] =>
    assert (below (replay_buffered x i e l).1) as Hr end.
  { apply replay_buffered_below. intros id' p' _. simpl. rewrite lookup_insert_Some.
    intros [[_ <-]|[_ Hl]]; [simpl in *; lia|]. apply (Hb id'); naive_solver. }
  by destruct (replay_buffered _ _ _ _).
Qed.

Lemma on_accusation_received_below s a ec cid :
  (0 < vote_quorum_h s)%nat → below s → below (on_accusation_received s a ec cid).1.
Proof.
  intros Hh Hb. unfold on_accusation_received, on_accusation_received_inner.
  repeat case_match; try done.
  - by apply adopt_below.
  - unfold agree_with_accusation. case_sign sg Hs; [|done]. by apply file_accusation_below.
  - by apply dispatch_below.
Qed.

Lemma on_member_expelled_below s d : below s → below (on_member_expelled s d).
Proof.
  intros Hb. unfold on_member_expelled. repeat case_match; try done.
  intros id p _. simpl. rewrite lookup_fmap. intros Hl.
  destruct (pending s !! id) as [p0|] eqn:Hp; simplify_eq/=.
  specialize (Hb id p0 (λ f, f) Hp). unfold drop_votes_of.
  pose proof (filter_length_le (λ v, negb (voter v =? cme_node d)) (votes_for p0)). simpl in *. lia.
Qed.

Lemma reverification_below s cid r :
  below s → below (handle_reverification_response s cid r).1.
Proof.
  intros Hb. unfold handle_reverification_response.
  destruct (pending_reverifications s !! cid) as [rv|]; [|done].
  destruct r as [[|[] rs]|]; try done. cbv zeta.
  case_match eqn:Hp; [|done]. case_sign sg Hs; [|done].
  apply check_quorum_below. intros id' p' HP. simpl. rewrite lookup_insert_ne by naive_solver.
  apply Hb. naive_solver.
Qed.

Lemma step_below s i : (0 < vote_quorum_h s)%nat → below s → below (step s i).1.
Proof.
  intros Hh Hb. destruct i; simpl; try done.
  - unfold on_local_proof_failure. case_match; [|done]. by apply accuse_when_effects_run_below.
  - unfold on_proof_verification_passed. by repeat case_match.
  - by apply on_accusation_received_below.
  - by apply on_vote_received_inner_below.
  - unfold on_consistency_violation. case_match; [|done]. by apply accuse_when_effects_run_below.
  - by apply reverification_below.
  - by apply on_member_expelled_below.
  - by apply on_effects_enabled_below.
  - unfold on_vote_timeout. destruct (pending s !! id) eqn:E; [|done]. simpl.
    intros id' p' _. simpl. rewrite lookup_delete_Some. intros [_ Hl]. apply (Hb id'); naive_solver.
Qed.

Lemma run_below s inputs :
  good s (s, []) → (0 < vote_quorum_h s)%nat → below s → below (run s inputs).1.
Proof.
  intros Hg Hh Hb. apply (run_ind (λ sa, below sa.1)); [done|done|].
  intros s1 acts i _ Hg1 Hb1. apply step_below; [|done].
  pose proof (sc_h _ _ (g_config _ _ Hg1)) as E. simpl in E. lia.
Qed.

(** ** Decisions are published *)

(** A decision on the accusation filed under [id]: a published quorum for its accused and proof,
    over at least [h] votes, with the outcome that they show. *)
Definition decision (h : nat) (id : B256) (acts : list Action) : Prop :=
  ∃ q ec a, PublishQuorum q ec ∈ acts ∧ accusation_id_of a = id ∧ q_accused q = accused a ∧
    q_proof_type q = pfa_proof_type a ∧ (h ≤ length (q_votes_for q))%nat ∧
    outcome_ok h (q_votes_for q) (q_outcome q).

(** Since [s0]: an accusation that was pending or whose vote was opened is pending or decided. *)
Record settles (s0 : AV) (sa : AV * list Action) : Prop := {
  se_h : vote_quorum_h sa.1 = vote_quorum_h s0;
  se_keys : ∀ id p, pending sa.1 !! id = Some p → accusation_id_of (pa_accusation p) = id;
  se_open : ∀ id, is_Some (pending s0 !! id) ∨ StartTimeout id ∈ sa.2 →
    is_Some (pending sa.1 !! id) ∨ decision (vote_quorum_h s0) id sa.2 }.

Lemma decision_app h id acts acts' : decision h id acts → decision h id (acts ++ acts').
Proof. intros (q & ec & a & Hin & Hrest). exists q, ec, a. split; [apply elem_of_app; by left|done]. Qed.

(** Other parts of the state, and actions that open no vote. *)
Lemma settles_set s0 s s' acts acts' :
  settles s0 (s, acts) → pending s' = pending s → vote_quorum_h s' = vote_quorum_h s →
  (∀ id, StartTimeout id ∉ acts') → settles s0 (s', acts ++ acts').
Proof.
  intros [Hh Hk Ho] Ep Eh Hn. split; simpl in *; [congruence|by rewrite Ep|]. intros id Hid. rewrite Ep.
  destruct (Ho id) as [?|Hd]; [|by left|right; by apply decision_app].
  destruct Hid as [?|[?|Hs]%elem_of_app]; [by left|by right|]. by destruct (Hn id).
Qed.

Lemma settles_state s0 s s' acts :
  settles s0 (s, acts) → pending s' = pending s → vote_quorum_h s' = vote_quorum_h s → settles s0 (s', acts).
Proof. intros Hs Ep Eh. rewrite <-(app_nil_r acts). eapply settles_set; [done..|]. intros id. apply not_elem_of_nil. Qed.

(** An accusation is filed and its vote opened. *)
Lemma settles_file s0 s id p acts acts' :
  settles s0 (s, acts) → accusation_id_of (pa_accusation p) = id → (∀ id', StartTimeout id' ∈ acts' → id' = id) →
  settles s0 (set_pending s (<[id := p]> (pending s)), acts ++ acts').
Proof.
  intros [Hh Hk Ho] Hid Hn. split; simpl in *; [done| |].
  - intros id' p'. rewrite lookup_insert_Some. intros [[<- <-]|[_ Hl]]; [done|by apply Hk].
  - intros id' Hid'. destruct (decide (id = id')) as [<-|Hne]; [rewrite lookup_insert_eq; by left; eexists|].
    rewrite lookup_insert_ne by done. destruct (Ho id') as [?|Hd]; [|by left|right; by apply decision_app].
    destruct Hid' as [?|[?|Hs]%elem_of_app]; [by left|by right|]. by destruct Hne; symmetry; apply Hn.
Qed.

(** The accusation is closed with the outcome of its votes. *)
Lemma emit_settles s0 s id p o ec acts :
  settles s0 (s, acts) → pending s !! id = Some p → (vote_quorum_h s ≤ length (votes_for p))%nat →
  outcome_ok (vote_quorum_h s) (votes_for p) o → settles s0 (emit_quorum_reached s id o ec acts).
Proof.
  intros [Hh Hk Ho] Hp Hlen Hout. unfold emit_quorum_reached. rewrite Hp. split; simpl in *; [done| |].
  - intros id' p'. rewrite lookup_delete_Some. intros [_ Hl]. by apply Hk.
  - intros id' Hid'. destruct (decide (id = id')) as [<-|Hne].
    + right. eexists _, ec, (pa_accusation p). rewrite <-Hh. split; [apply elem_of_app; right; right; left|].
      split_and!; [by apply Hk|done..].
    + rewrite lookup_delete_ne by done. destruct (Ho id') as [?|Hd]; [|by left|right; by apply decision_app].
      destruct Hid' as [?|[?|Hs]%elem_of_app]; [by left|by right|].
      by apply elem_of_cons in Hs as [?|[?|?%elem_of_nil]%elem_of_cons].
Qed.

Lemma check_quorum_settles s0 s id ec acts : settles s0 (s, acts) → settles s0 (check_quorum s id ec acts).
Proof.
  intros Hs. unfold check_quorum. destruct (pending s !! id) as [p|] eqn:Hp; [|done]. cbv zeta.
  destruct (Nat.ltb_spec (length (votes_for p)) (vote_quorum_h s)); [done|].
  destruct (Nat.ltb_spec 1 (agree_hashes (votes_for p))); (eapply emit_settles; [done..|]); (split; [done|]).
  - by apply agree_hashes_gt_1.
  - by apply agree_hashes_le_1.
Qed.

Lemma on_vote_received_inner_settles s0 s v ec acts :
  settles s0 (s, acts) → settles s0 (on_vote_received_inner s v ec acts).
Proof.
  intros Hs. unfold on_vote_received_inner. destruct (admit_vote s v) as [w|]; [|done].
  destruct (pending s !! accusation_id w) as [p|] eqn:Hp; [|by eapply settles_state].
  repeat case_match; try done; try (by eapply settles_state). apply check_quorum_settles.
  rewrite <-(app_nil_r acts). apply settles_file; [done| |by intros id' ?%elem_of_nil].
  simpl. by apply (se_keys _ _ Hs).
Qed.

Lemma foldl_settles {A} s0 (f : AV * list Action → A → AV * list Action) (l : list A) sa :
  (∀ sa x, settles s0 sa → settles s0 (f sa x)) → settles s0 sa → settles s0 (foldl f sa l).
Proof. revert sa. induction l as [|x l IH]; intros sa Hf Hs; [done|]. simpl. auto. Qed.

Lemma replay_buffered_settles s0 s id ec acts : settles s0 (s, acts) → settles s0 (replay_buffered s id ec acts).
Proof.
  intros Hs. unfold replay_buffered. destruct (buffered_votes s !! id); [|done].
  apply foldl_settles; [|by eapply settles_state]. intros [s1 a1] v. apply on_vote_received_inner_settles.
Qed.

Lemma file_accusation_settles s0 s id p ec acts acts' :
  settles s0 (s, acts) → accusation_id_of (pa_accusation p) = id → (∀ id', StartTimeout id' ∈ acts' → id' = id) →
  settles s0 (let '(s4, a4) := replay_buffered (set_pending s (<[id := p]> (pending s))) id ec (acts ++ acts') in
    check_quorum s4 id ec a4).
Proof.
  intros Hs Hid Hn. pose proof (replay_buffered_settles s0 _ id ec _ (settles_file _ _ _ p _ acts' Hs Hid Hn)) as Hr.
  destruct (replay_buffered _ _ _ _) as [s4 a4]. by apply check_quorum_settles.
Qed.

(** The actions that go with the filing of one accusation. *)
Ltac only_opens := intros ? Hin; repeat (apply elem_of_cons in Hin as [?|Hin]; [by simplify_eq|]); by apply elem_of_nil in Hin.

Lemma initiate_accusation_settles s0 s acc pid pt dh fwd ec acts :
  settles s0 (s, acts) → settles s0 (initiate_accusation s acc pid pt dh fwd ec acts).
Proof.
  intros Hs. unfold initiate_accusation. repeat (case_match; [by try eapply settles_state|]).
  unfold compute_vote_window. cbv beta iota zeta.
  case_sign sg Hsg; [|by eapply settles_state]. case_sign vs Hv; [|eapply settles_set; [done..|]; only_opens].
  rewrite <-app_assoc. apply file_accusation_settles; [by eapply settles_state|done|]. simpl. only_opens.
Qed.

Lemma accuse_when_effects_run_settles s0 s d : settles s0 (s, []) → settles s0 (accuse_when_effects_run s d).
Proof.
  intros Hs. unfold accuse_when_effects_run. repeat case_match; try done; try (by eapply settles_state).
  by apply initiate_accusation_settles.
Qed.

Lemma on_effects_enabled_settles s0 s : settles s0 (s, []) → settles s0 (on_effects_enabled s).
Proof.
  intros Hs. unfold on_effects_enabled. case_match; [done|]. cbv zeta.
  assert (settles s0 (foldl run_deferred (set_deferred_accusations (set_effects_enabled s true) [], [])
    (deferred_accusations (set_effects_enabled s true)))) as Hf.
  { apply foldl_settles; [|by eapply settles_state]. intros [s' a'] d Hs'. unfold run_deferred.
    case_match; [by eapply settles_state|]. by apply initiate_accusation_settles. }
  destruct (foldl _ _ _) as [s2 a2]. destruct Hf as [Hh Hk Ho]. split; simpl in *; [done|done|].
  intros id Hid. assert (is_Some (pending s2 !! id) ∨ (is_Some (pending s0 !! id) ∨ StartTimeout id ∈ a2)) as [?|Hid'].
  { destruct Hid as [?|[?|(id' & E & Hin)%list_elem_of_fmap]%elem_of_app]; [by right; left|by right; right|].
    injection E as <-. left. apply list_elem_of_In, filter_In in Hin as [_ Hp]. by apply bool_decide_eq_true in Hp. }
  { by left. }
  destruct (Ho id Hid') as [?|?]; [by left|]. right. by apply decision_app.
Qed.

Lemma adopt_settles s0 s id a ec :
  settles s0 (s, []) → accusation_id_of a = id → settles s0 (adopt_later_vote_window s id a ec []).
Proof.
  intros Hs Hid. unfold adopt_later_vote_window. destruct (pending s !! id) as [p|]; [|done].
  repeat (case_match; [done|]). set (s1 := set_window_movers s _).
  assert (settles s0 (s1, [])) as Hs1 by by eapply settles_state. clearbody s1.
  destruct (List.find _ _); [case_sign sg Hsg; [|done]|]; simpl.
  - apply (file_accusation_settles s0 s1 id _ ec [] [_; _; _]); [done..|]. only_opens.
  - apply (file_accusation_settles s0 s1 id _ ec [] [_; _]); [done..|]. only_opens.
Qed.

Lemma dispatch_settles s0 s a id fwd ec cid :
  settles s0 (s, []) → accusation_id_of a = id → settles s0 (dispatch_reverification s a id fwd ec cid []).
Proof.
  intros Hs Hid. unfold dispatch_reverification. repeat (case_match; [done|]).
  destruct (from_threshold _ _); [|done]. cbv zeta.
  match goal with |- context [replay_buffered ?x ?i ?e ?l] =>
    assert (settles s0 (replay_buffered x i e l)) as Hr; [|destruct (replay_buffered x i e l) as [s2 a2]] end.
  { apply replay_buffered_settles. apply (settles_file s0 s id _ [] [_]); [done..|]. only_opens. }
  eapply settles_set; [done..|]. only_opens.
Qed.

Lemma on_accusation_received_settles s0 s a ec cid :
  settles s0 (s, []) → settles s0 (on_accusation_received s a ec cid).
Proof.
  intros Hs. unfold on_accusation_received, on_accusation_received_inner.
  case_match; [by eapply settles_state|]. case_match; [|done]. repeat case_match; try done.
  - by apply adopt_settles.
  - unfold agree_with_accusation. case_sign sg Hsg; [|done]. cbv zeta.
    apply (file_accusation_settles s0 s _ _ ec [] [_; _]); [done..|]. only_opens.
  - by apply dispatch_settles.
Qed.

Lemma on_member_expelled_settles s0 s d : settles s0 (s, []) → settles s0 (on_member_expelled s d, []).
Proof.
  intros Hs. unfold on_member_expelled. repeat case_match; try done; try (by eapply settles_state).
  destruct Hs as [Hh Hk Ho]. split; simpl in *; [done| |].
  - intros id p. rewrite lookup_fmap. intros (p0 & Hp & ->)%fmap_Some_1. simpl. by apply (Hk id p0).
  - intros id Hid. rewrite lookup_fmap, fmap_is_Some. by apply Ho.
Qed.

Lemma reverification_settles s0 s cid r :
  settles s0 (s, []) → settles s0 (handle_reverification_response s cid r).
Proof.
  intros Hs. unfold handle_reverification_response.
  destruct (pending_reverifications s !! cid) as [rv|]; [|done].
  destruct r as [[|[] rs]|]; try (by eapply settles_state). cbv zeta.
  match goal with |- context [pending ?x !! _] => set (s2 := x) end.
  assert (settles s0 (s2, [])) as Hs2 by by eapply settles_state. clearbody s2.
  destruct (pending s2 !! rv_accusation_id rv) as [p|] eqn:Hp; [|done].
  case_sign sg Hsg; [|done]. apply check_quorum_settles.
  apply (settles_file s0 s2 _ _ [] [_]); [done| |only_opens]. simpl. by apply (se_keys _ _ Hs2).
Qed.

(** Every transition but the timeout of the vote itself. *)
Lemma step_settles s i :
  settles s (s, []) → (∀ id, i ≠ VoteTimeout id) → settles s (step s i).
Proof.
  intros Hs Hi. destruct i; simpl; try (by eapply settles_state).
  - unfold on_local_proof_failure. case_match; [|done]. apply accuse_when_effects_run_settles. by eapply settles_state.
  - unfold on_proof_verification_passed. repeat case_match; try done. by eapply settles_state.
  - by apply on_accusation_received_settles.
  - by apply on_vote_received_inner_settles.
  - unfold on_consistency_violation. case_match; [|done]. apply accuse_when_effects_run_settles. by eapply settles_state.
  - by apply reverification_settles.
  - by apply on_member_expelled_settles.
  - by apply on_effects_enabled_settles.
  - by destruct (Hi id).
Qed.

Lemma settles_start s : Inv s → settles s (s, []).
Proof.
  intros Hinv. split; simpl; [done| |].
  - intros id p Hp. by apply (po_id _ _ _ (inv_pending _ Hinv id p Hp)).
  - intros id [?|?%elem_of_nil]; [by left|done].
Qed.

(** ** Distinct voters *)

Definition distinct (vs : list AccusationVote) : Prop := NoDup (voter <$> vs).

Definition distinct_action (act : Action) : Prop :=
  match act with PublishQuorum q _ => distinct (q_votes_for q) | _ => True end.

(** Every pending accusation and every published quorum has distinct voters. *)
Record dgood (sa : AV * list Action) : Prop := {
  dg_pending : ∀ id p, pending sa.1 !! id = Some p → distinct (votes_for p);
  dg_acts : Forall distinct_action sa.2;
}.

Lemma dgood_state s s' acts : dgood (s, acts) → pending s' = pending s → dgood (s', acts).
Proof. intros [Hp Ha] E. constructor; simpl in *; [by rewrite E|done]. Qed.

Lemma dgood_acts s acts acts' :
  dgood (s, acts) → Forall distinct_action acts' → dgood (s, acts ++ acts').
Proof. intros [Hp Ha] Hf. constructor; simpl in *; [done|]. by apply Forall_app. Qed.

Lemma dgood_insert s id p acts :
  dgood (s, acts) → distinct (votes_for p) →
  dgood (set_pending s (<[id := p]> (pending s)), acts).
Proof.
  intros [Hp Ha] Hd. constructor; simpl in *; [|done]. intros id' p'.
  rewrite lookup_insert_Some. naive_solver.
Qed.

Lemma check_quorum_dgood s id ec acts : dgood (s, acts) → dgood (check_quorum s id ec acts).
Proof.
  intros Hg. unfold check_quorum, emit_quorum_reached.
  destruct (pending s !! id) as [p|] eqn:Hp; [|done]. destruct Hg as [Hd Ha]; simpl in *.
  repeat case_match; try done; constructor; simpl; try done;
    first [apply Forall_app; split; [done|]; repeat constructor; simpl; naive_solver
          |intros id' p'; rewrite lookup_delete_Some; naive_solver].
Qed.

Lemma distinct_snoc vs v :
  distinct vs → existsb (λ w, voter w =? voter v) vs = false → distinct (vs ++ [v]).
Proof.
  unfold distinct. intros Hd Hex. rewrite fmap_app. apply NoDup_app. split; [done|].
  split; [|apply NoDup_singleton]. intros x (w & -> & Hw)%list_elem_of_fmap.
  simpl. rewrite list_elem_of_singleton. intros E.
  assert (existsb (λ w, voter w =? voter v) vs = true); [|congruence].
  apply existsb_exists. exists w. split; [by apply list_elem_of_In|]. by apply Z.eqb_eq.
Qed.

Lemma on_vote_received_inner_dgood s v ec acts :
  dgood (s, acts) → dgood (on_vote_received_inner s v ec acts).
Proof.
  intros Hg. unfold on_vote_received_inner. destruct (admit_vote s v) as [w|]; [|done].
  destruct (pending s !! accusation_id w) as [p|] eqn:Hp.
  2: by eapply dgood_state.
  repeat case_match; try done; try (by eapply dgood_state).
  all: apply check_quorum_dgood, dgood_insert; [done|]; apply distinct_snoc; [|done].
  all: by apply (dg_pending _ Hg (accusation_id w)).
Qed.

Lemma foldl_dgood {A} (f : AV * list Action → A → AV * list Action) (l : list A) sa :
  (∀ sa x, dgood sa → dgood (f sa x)) → dgood sa → dgood (foldl f sa l).
Proof. revert sa. induction l as [|x l IH]; intros sa Hf Hg; [done|]. simpl. auto. Qed.

Lemma replay_buffered_dgood s id ec acts :
  dgood (s, acts) → dgood (replay_buffered s id ec acts).
Proof.
  intros Hg. unfold replay_buffered. destruct (buffered_votes s !! id); [|done].
  apply foldl_dgood; [|by eapply dgood_state]. intros [s1 a1] v. apply on_vote_received_inner_dgood.
Qed.

Lemma file_accusation_dgood s id p ec acts acts' :
  dgood (s, acts) → distinct (votes_for p) → Forall distinct_action acts' →
  dgood (let '(s4, a4) := replay_buffered
               (set_pending s (<[id := p]> (pending s))) id ec (acts ++ acts') in
         check_quorum s4 id ec a4).
Proof.
  intros Hg Hd Ha.
  assert (dgood (replay_buffered (set_pending s (<[id := p]> (pending s))) id ec (acts ++ acts')))
    as Hr by (by apply replay_buffered_dgood, dgood_acts; [apply dgood_insert|]).
  destruct (replay_buffered _ _ _ _). by apply check_quorum_dgood.
Qed.

Lemma initiate_accusation_dgood s acc pid pt dh fwd ec acts :
  dgood (s, acts) → dgood (initiate_accusation s acc pid pt dh fwd ec acts).
Proof.
  intros Hg. unfold initiate_accusation. repeat (case_match; [try done; by eapply dgood_state|]).
  unfold compute_vote_window. cbv beta iota zeta.
  case_sign sg Hs; [|by eapply dgood_state].
  set (s2 := set_pending_reverifications _ _).
  set (a1 := PublishAccusation _ _ _).
  assert (dgood (s2, acts ++ [a1])) as Hg2.
  { apply dgood_acts; [by eapply dgood_state|by repeat constructor]. }
  case_sign vs Hv; [|by eapply dgood_state].
  apply file_accusation_dgood; [done|apply NoDup_singleton|by repeat constructor].
Qed.

Lemma accuse_when_effects_run_dgood s d : dgood (s, []) → dgood (accuse_when_effects_run s d).
Proof.
  intros Hg. unfold accuse_when_effects_run. repeat case_match; try (by eapply dgood_state).
  by apply initiate_accusation_dgood.
Qed.

Lemma on_effects_enabled_dgood s : dgood (s, []) → dgood (on_effects_enabled s).
Proof.
  intros Hg. unfold on_effects_enabled. case_match; [done|]. cbv zeta.
  assert (dgood (foldl run_deferred (set_deferred_accusations (set_effects_enabled s true) [], [])
    (deferred_accusations (set_effects_enabled s true)))) as Hf.
  { apply foldl_dgood; [|by eapply dgood_state]. intros [s' a'] d Hb'. unfold run_deferred.
    case_match; [by eapply dgood_state|]. by apply initiate_accusation_dgood. }
  destruct (foldl _ _ _) as [s2 a2]. apply dgood_acts; [by eapply dgood_state|].
  apply Forall_fmap, Forall_true. done.
Qed.

Lemma adopt_dgood s id a ec acts : dgood (s, acts) → dgood (adopt_later_vote_window s id a ec acts).
Proof.
  intros Hg. unfold adopt_later_vote_window. destruct (pending s !! id) as [p|]; [|done].
  repeat (case_match; [done|]). set (s1 := set_window_movers s _).
  assert (dgood (s1, acts)) as Hg1 by (by eapply dgood_state). clearbody s1.
  destruct (List.find _ _); [case_sign sg Hs; [|done]|]; simpl.
  - rewrite <-app_assoc. apply file_accusation_dgood; [done|apply NoDup_singleton|].
    by repeat constructor.
  - apply file_accusation_dgood; [done|apply NoDup_nil_2|]. by repeat constructor.
Qed.

Lemma on_accusation_received_dgood s a ec cid :
  dgood (s, []) → dgood (on_accusation_received s a ec cid).
Proof.
  intros Hg. unfold on_accusation_received, on_accusation_received_inner.
  repeat case_match; try done; try (by eapply dgood_state).
  - by apply adopt_dgood.
  - unfold agree_with_accusation. case_sign sg Hs; [|done].
    apply (file_accusation_dgood s _ _ ec [] [_; _]);
      [done|apply NoDup_singleton|by repeat constructor].
  - unfold dispatch_reverification. repeat (case_match; [done|]).
    destruct (from_threshold _ _); [|done].
    match goal with |- context [replay_buffered ?x ?i ?e ?l] =>
      assert (dgood (replay_buffered x i e l)) as Hr end.
    { apply replay_buffered_dgood, dgood_acts; [|by repeat constructor].
      apply dgood_insert; [done|apply NoDup_nil_2]. }
    destruct (replay_buffered _ _ _ _) as [s2 a2].
    apply dgood_acts; [by eapply dgood_state|by repeat constructor].
Qed.

Lemma distinct_drop node vs : distinct vs → distinct (drop_votes_of node vs).
Proof.
  unfold distinct, drop_votes_of. induction vs as [|v vs IH]; simpl; [done|].
  rewrite NoDup_cons. intros [Hn Hd]. destruct (negb _); simpl; [|auto].
  apply NoDup_cons. split; [|auto]. intros (w & E & Hw)%list_elem_of_fmap. apply Hn.
  apply list_elem_of_fmap. exists w. split; [done|].
  by apply (drop_votes_of_in node vs w).
Qed.

Lemma on_member_expelled_dgood s d : dgood (s, []) → dgood (on_member_expelled s d, []).
Proof.
  intros Hg. unfold on_member_expelled. repeat case_match; try (by eapply dgood_state).
  destruct Hg as [Hp _]. constructor; simpl in *; [|constructor].
  intros id p. rewrite lookup_fmap. intros Hl.
  destruct (pending s !! id) as [p0|] eqn:E; simplify_eq/=. by apply distinct_drop, (Hp id).
Qed.

(** The re-verification result is the one input that adds this node's vote to a tally without
    looking for an earlier one. *)
Definition votes_once (s : AV) (i : VotingInput EC) : Prop :=
  match i with
  | Reverified cid _ => ∀ rv p, pending_reverifications s !! cid = Some rv →
      pending s !! rv_accusation_id rv = Some p →
      holds_own_vote s (votes_for p) = false
  | _ => True
  end.

Lemma reverification_dgood s cid r :
  votes_once s (Reverified cid r) → dgood (s, []) → dgood (handle_reverification_response s cid r).
Proof.
  intros Ho Hg. unfold handle_reverification_response.
  destruct (pending_reverifications s !! cid) as [rv|] eqn:Hrv; [|done].
  destruct r as [[|[] rs]|]; try (by eapply dgood_state). cbv zeta.
  case_match eqn:Hp; [|by eapply dgood_state]. case_sign sg Hs; [|by eapply dgood_state].
  apply check_quorum_dgood, dgood_insert.
  - apply (dgood_acts _ [] [_]); [by eapply dgood_state|by repeat constructor].
  - apply distinct_snoc; [by apply (dg_pending _ Hg (rv_accusation_id rv))|].
    by apply (Ho rv).
Qed.

Lemma step_dgood s i : votes_once s i → dgood (s, []) → dgood (step s i).
Proof.
  intros Ho Hg. destruct i; simpl; try (by eapply dgood_state).
  - unfold on_local_proof_failure. case_match; [|done].
    apply accuse_when_effects_run_dgood. by eapply dgood_state.
  - unfold on_proof_verification_passed. repeat case_match; by eapply dgood_state.
  - by apply on_accusation_received_dgood.
  - by apply on_vote_received_inner_dgood.
  - unfold on_consistency_violation. case_match; [|done].
    apply accuse_when_effects_run_dgood. by eapply dgood_state.
  - by apply reverification_dgood.
  - by apply on_member_expelled_dgood.
  - by apply on_effects_enabled_dgood.
  - unfold on_vote_timeout. destruct (pending s !! id) eqn:E; [|done].
    destruct Hg as [Hp _]. constructor; simpl in *.
    + intros id' p'. rewrite lookup_delete_Some. naive_solver.
    + repeat constructor. simpl. by apply (Hp id).
Qed.

(** ** Accusations of this node *)

Definition pub_of (act : Action) : option (ProofFailureAccusation * (Address * ProofType)) :=
  match act with PublishAccusation a _ key => Some (a, key) | _ => None end.

Definition pubs (acts : list Action) := omap pub_of acts.
Definition pub_keys (acts : list Action) : list (Address * ProofType) := snd <$> pubs acts.

(** A part of a transition that neither accuses nor touches what accusations depend on. *)
Record keeps (sa sa' : AV * list Action) : Prop := {
  k_accused : accused_proofs sa'.1 = accused_proofs sa.1;
  k_deferred : deferred_accusations sa'.1 = deferred_accusations sa.1;
  k_clock : clock sa'.1 = clock sa.1;
  k_me : my_address sa'.1 = my_address sa.1;
  k_validity : vote_validity_secs sa'.1 = vote_validity_secs sa.1;
  k_pubs : pubs sa'.2 = pubs sa.2;
}.

Lemma keeps_refl sa : keeps sa sa.
Proof. by constructor. Qed.

Lemma keeps_trans sa1 sa2 sa3 : keeps sa1 sa2 → keeps sa2 sa3 → keeps sa1 sa3.
Proof. intros [] []. constructor; congruence. Qed.

Lemma k_keys sa sa' : keeps sa sa' → pub_keys sa'.2 = pub_keys sa.2.
Proof. intros []. unfold pub_keys. congruence. Qed.

Lemma pubs_app acts acts' : pubs (acts ++ acts') = pubs acts ++ pubs acts'.
Proof. apply omap_app. Qed.

Lemma pub_keys_app acts acts' : pub_keys (acts ++ acts') = pub_keys acts ++ pub_keys acts'.
Proof. unfold pub_keys. by rewrite pubs_app, fmap_app. Qed.

Lemma pubs_timeouts (ids : list B256) : pubs (StartTimeout <$> ids) = [].
Proof. induction ids as [|x ids IH]; [done|exact IH]. Qed.

Lemma check_quorum_keeps s id ec acts : keeps (s, acts) (check_quorum s id ec acts).
Proof.
  unfold check_quorum, emit_quorum_reached. repeat case_match; constructor; simpl; try done;
    rewrite pubs_app; simpl; by rewrite app_nil_r.
Qed.

Lemma on_vote_received_inner_keeps s v ec acts :
  keeps (s, acts) (on_vote_received_inner s v ec acts).
Proof.
  unfold on_vote_received_inner. destruct (admit_vote s v) as [w|]; [|apply keeps_refl].
  repeat case_match; try (by constructor);
    (eapply keeps_trans; [|apply check_quorum_keeps]; by constructor).
Qed.

Lemma replay_buffered_keeps s id ec acts : keeps (s, acts) (replay_buffered s id ec acts).
Proof.
  unfold replay_buffered. destruct (buffered_votes s !! id) as [buf|]; [|apply keeps_refl].
  assert (∀ sa, keeps (s, acts) sa →
    keeps (s, acts) (foldl (λ sa vote, on_vote_received_inner sa.1 vote ec sa.2) sa buf)) as Hf;
    [|apply Hf; by constructor].
  induction buf as [|v buf IH]; intros [s2 a2] Hk; [done|]. simpl. apply IH.
  eapply keeps_trans; [exact Hk|apply on_vote_received_inner_keeps].
Qed.

Lemma file_accusation_keeps s id p ec acts :
  keeps (s, acts) (let '(s4, a4) := replay_buffered (set_pending s (<[id := p]> (pending s)))
                                      id ec acts in check_quorum s4 id ec a4).
Proof.
  pose proof (replay_buffered_keeps (set_pending s (<[id := p]> (pending s))) id ec acts) as Hk.
  destruct (replay_buffered _ _ _ _) as [s4 a4].
  eapply keeps_trans; [|apply check_quorum_keeps]. destruct Hk. by constructor.
Qed.

(** The accusations of [acts] are for different proofs, none of them accused at [s0], all of
    them held as accused at [s]. *)
Record once (s0 : AV) (sa : AV * list Action) : Prop := {
  on_grows : accused_proofs s0 ⊆ accused_proofs sa.1;
  on_nodup : NoDup (pub_keys sa.2);
  on_fresh : ∀ k, k ∈ pub_keys sa.2 → k ∉ accused_proofs s0 ∧ k ∈ accused_proofs sa.1;
}.

Lemma once_eq s0 sa sa' :
  accused_proofs sa'.1 = accused_proofs sa.1 → pub_keys sa'.2 = pub_keys sa.2 →
  once s0 sa → once s0 sa'.
Proof. intros Ha Hp []. constructor; rewrite ?Hp, ?Ha; done. Qed.

Lemma once_keeps s0 sa sa' : keeps sa sa' → once s0 sa → once s0 sa'.
Proof. intros Hk. apply once_eq; [apply Hk|by apply k_keys]. Qed.

Lemma once_refl s s' : accused_proofs s ⊆ accused_proofs s' → once s (s', []).
Proof. intros Hs. constructor; simpl; [done|apply NoDup_nil_2|]. intros k. by rewrite elem_of_nil. Qed.

Lemma once_same s s' acts :
  accused_proofs s' = accused_proofs s → pub_keys acts = [] → once s (s', acts).
Proof.
  intros Ha Hp. constructor; simpl; rewrite ?Hp, ?Ha; [done|apply NoDup_nil_2|].
  intros k. by rewrite elem_of_nil.
Qed.

Lemma once_set s0 s s' acts :
  accused_proofs s' = accused_proofs s → once s0 (s, acts) → once s0 (s', acts).
Proof. intros E. by apply once_eq. Qed.

Lemma initiate_accusation_once s0 s acc pid pt dh fwd ec acts :
  (∀ k h, is_Some (sign_hash_sync k h)) →
  once s0 (s, acts) → once s0 (initiate_accusation s acc pid pt dh fwd ec acts).
Proof.
  intros Hsign Ho. unfold initiate_accusation. case_match; [done|].
  case_match eqn:Hdup; [done|]. bool_to_prop.
  assert (once s0 (set_accused_proofs s (({[(acc, pt)]} ∪ accused_proofs s) ∖ {[(acc, pt)]}), acts))
    as Hrb by (eapply once_set; [|exact Ho]; simpl; set_solver).
  case_match; [exact Hrb|]. unfold compute_vote_window. cbv beta iota zeta.
  case_sign sg Hs; [|exact Hrb].
  case_sign vs Hv.
  2: { unfold sign_vote_digest in Hv.
       match type of Hv with sign_hash_sync ?k ?h = None => destruct (Hsign k h); congruence end. }
  eapply once_keeps; [apply file_accusation_keeps|]. destruct Ho as [Hg Hn Hk]. simpl in *.
  assert (∀ v i a, pub_keys ((acts ++ [PublishAccusation a ec (acc, pt)]) ++
    [PublishVote v ec; StartTimeout i]) = pub_keys acts ++ [(acc, pt)]) as Hkeys
    by (intros; by rewrite !pub_keys_app, app_nil_r).
  constructor; simpl; rewrite ?Hkeys; [set_solver| |].
  - apply NoDup_app. split_and!; [done| |apply NoDup_singleton].
    intros k Hin. rewrite list_elem_of_singleton. intros ->. by apply Hdup, Hk.
  - intros k. rewrite elem_of_app, list_elem_of_singleton. set_solver.
Qed.

Lemma accuse_when_effects_run_once s0 s d :
  (∀ k h, is_Some (sign_hash_sync k h)) → accused_proofs s = accused_proofs s0 →
  once s0 (accuse_when_effects_run s d).
Proof.
  intros Hsign E. unfold accuse_when_effects_run. repeat case_match; try (by apply once_same).
  apply initiate_accusation_once; [done|]. by apply once_same.
Qed.

Lemma on_effects_enabled_once s :
  (∀ k h, is_Some (sign_hash_sync k h)) → once s (on_effects_enabled s).
Proof.
  intros Hsign. unfold on_effects_enabled. case_match; [by apply once_refl|]. cbv zeta.
  assert (∀ l sa, once s sa → once s (foldl run_deferred sa l)) as Hf.
  { induction l as [|d l IH]; intros [s1 a1] Ho; [done|]. simpl. apply IH. unfold run_deferred.
    case_match; [|by apply initiate_accusation_once].
    destruct Ho as [Hg Hn Hk]. constructor; simpl in *; [set_solver|done|set_solver]. }
  match goal with |- context [foldl run_deferred ?x ?l] => specialize (Hf l x) end.
  destruct (foldl _ _ _) as [s2 a2]. eapply once_eq; [| |apply Hf; by apply once_refl]; [done|].
  simpl. unfold pub_keys. by rewrite pubs_app, pubs_timeouts, app_nil_r.
Qed.

Lemma adopt_once s id a ec : once s (adopt_later_vote_window s id a ec []).
Proof.
  unfold adopt_later_vote_window. destruct (pending s !! id) as [p|]; [|by apply once_refl].
  repeat (case_match; [by apply once_refl|]). set (s1 := set_window_movers s _).
  assert (accused_proofs s1 = accused_proofs s) as Hg1 by done. clearbody s1.
  destruct (List.find _ _); [case_sign sg Hs; [|by apply once_same]|]; simpl;
    (eapply once_keeps; [apply file_accusation_keeps|]); by apply once_same.
Qed.

Lemma on_accusation_received_once s a ec cid : once s (on_accusation_received s a ec cid).
Proof.
  unfold on_accusation_received, on_accusation_received_inner.
  case_match; [apply once_refl; simpl; set_solver|].
  repeat case_match; try (by apply once_refl).
  - apply adopt_once.
  - unfold agree_with_accusation. case_sign sg Hs; [|by apply once_refl].
    eapply once_keeps; [apply file_accusation_keeps|]. by apply once_same.
  - unfold dispatch_reverification. repeat (case_match; [by apply once_refl|]).
    destruct (from_threshold _ _); [|by apply once_refl].
    match goal with |- context [replay_buffered ?x ?i ?e ?l] =>
      pose proof (replay_buffered_keeps x i e l) as Hk end.
    destruct (replay_buffered _ _ _ _) as [s2 a2].
    apply once_same; [apply (k_accused _ _ Hk)|]. rewrite pub_keys_app.
    pose proof (k_keys _ _ Hk) as Hp. simpl in Hp. by rewrite Hp.
Qed.

Definition not_rollback (i : VotingInput EC) : Prop :=
  match i with PublishFailed _ => False | _ => True end.

Lemma step_once s i :
  (∀ k h, is_Some (sign_hash_sync k h)) → not_rollback i → once s (step s i).
Proof.
  intros Hsign Hr. destruct i; simpl; try done; try (by apply once_refl).
  - unfold on_local_proof_failure. case_match; [|by apply once_refl].
    by apply accuse_when_effects_run_once.
  - unfold on_proof_verification_passed. repeat case_match; by apply once_refl.
  - apply on_accusation_received_once.
  - eapply once_keeps; [apply on_vote_received_inner_keeps|by apply once_refl].
  - unfold on_consistency_violation. case_match; [|by apply once_refl].
    by apply accuse_when_effects_run_once.
  - unfold handle_reverification_response. repeat case_match; try (by apply once_refl).
    eapply once_keeps; [apply check_quorum_keeps|by apply once_same].
  - unfold on_member_expelled. repeat case_match; by apply once_refl.
  - by apply on_effects_enabled_once.
  - unfold on_vote_timeout. repeat case_match; simplify_eq; by apply once_same.
Qed.

Lemma run_once s inputs :
  good s (s, []) → (∀ k h, is_Some (sign_hash_sync k h)) → Forall not_rollback inputs →
  once s (run s inputs).
Proof.
  intros Hg Hsign Hr. rewrite Forall_forall in Hr.
  apply (run_ind (once s)); [done|by apply once_refl|]. intros s1 acts i Hi _ [Hgr Hn Hk].
  destruct (step_once s1 i Hsign (Hr i Hi)) as [Hgr' Hn' Hk'].
  simpl in *. constructor; simpl; rewrite ?pub_keys_app; [set_solver| |].
  - apply NoDup_app. split_and!; [done| |done]. intros k H1 H2. naive_solver.
  - intros k. rewrite elem_of_app. set_solver.
Qed.

(** What every accusation of this node satisfies: it accuses another node, its window starts
    now and lasts the configured validity, and only C3 proofs are forwarded with it. *)
Definition pub_ok (s0 : AV) (a : ProofFailureAccusation) : Prop :=
  accused a ≠ my_address s0 ∧ pfa_issued_at a = clock s0 ∧
  pfa_deadline a = saturating_add U64_MAX (clock s0) (vote_validity_secs s0) ∧
  vote_validity_secs s0 ≠ 0 ∧
  (is_Some (signed_payload a) → can_forward_proof (pfa_proof_type a) = true).

Definition deferred_ok (s0 : AV) (d : DeferredAccusation (EC := EC)) : Prop :=
  da_accused_address d ≠ my_address s0 ∧
  (is_Some (da_forwarded_payload d) → can_forward_proof (da_proof_type d) = true).

Record pgood (s0 : AV) (sa : AV * list Action) : Prop := {
  pg_clock : clock sa.1 = clock s0;
  pg_me : my_address sa.1 = my_address s0;
  pg_validity : vote_validity_secs sa.1 = vote_validity_secs s0;
  pg_deferred : Forall (deferred_ok s0) (deferred_accusations sa.1);
  pg_pubs : Forall (λ p, pub_ok s0 p.1) (pubs sa.2);
}.

Lemma pgood_keeps s0 sa sa' : keeps sa sa' → pgood s0 sa → pgood s0 sa'.
Proof. intros [] []. constructor; congruence. Qed.

Lemma pgood_set s0 s s' acts :
  pgood s0 (s, acts) → clock s' = clock s → my_address s' = my_address s →
  vote_validity_secs s' = vote_validity_secs s →
  deferred_accusations s' = deferred_accusations s → pgood s0 (s', acts).
Proof. intros [] E1 E2 E3 E4. constructor; simpl in *; congruence. Qed.

Lemma initiate_deferred_pgood s0 s d acts :
  deferred_ok s0 d → pgood s0 (s, acts) → pgood s0 (initiate_deferred s d acts).
Proof.
  intros [Hne Hf] Hg. unfold initiate_deferred, initiate_accusation.
  case_match; [done|]. case_match; [done|].
  case_match eqn:Hz; [by eapply pgood_set|]. bool_to_prop.
  unfold compute_vote_window. cbv beta iota zeta.
  case_sign sg Hs; [|by eapply pgood_set].
  set (s2 := set_pending_reverifications _ _). set (pa := PublishAccusation _ _ _).
  assert (pgood s0 (s2, acts ++ [pa])) as Hg2.
  { destruct Hg as [E1 E2 E3 Hd Hp]. constructor; simpl in *; try done.
    rewrite pubs_app. apply Forall_app. split; [done|]. constructor; [|constructor].
    unfold pub_ok; simpl. rewrite E1, E3. rewrite E3 in Hz. split_and!; try done. }
  case_sign vs Hv; [|by eapply pgood_set].
  eapply pgood_keeps; [apply file_accusation_keeps|].
  destruct Hg2. constructor; simpl in *; try done. by rewrite pubs_app, Forall_app.
Qed.

Lemma accuse_when_effects_run_pgood s0 s d :
  deferred_ok s0 d → pgood s0 (s, []) → pgood s0 (accuse_when_effects_run s d).
Proof.
  intros Hd Hg. unfold accuse_when_effects_run. repeat case_match; try done.
  - destruct Hg. constructor; simpl in *; try done.
    apply Forall_app. split; [done|]. constructor; [done|constructor].
  - by apply initiate_deferred_pgood.
Qed.

Lemma admit_local_failure_Ok s e e' :
  admit_local_failure s e = Ok e' →
  e' = e ∧ pvf_e3_id e = e3_id s ∧ pvf_accused_address e ∈ committee s ∧
  pvf_accused_address e ≠ my_address s ∧
  recover_address (pvf_signed_payload e) = Some (pvf_accused_address e) ∧
  compute_payload_hash (pvf_signed_payload e) = pvf_data_hash e.
Proof.
  unfold admit_local_failure, is_self_accusation. cbv zeta. intros Hok.
  branches Hok. bool_to_prop. naive_solver.
Qed.

Lemma admit_violation_Ok s d d' :
  admit_violation s d = Ok d' →
  d' = d ∧ ccv_e3_id d = e3_id s ∧ ccv_accused_address d ∈ committee s ∧
  ccv_accused_address d ≠ my_address s.
Proof.
  unfold admit_violation, is_self_accusation. intros Hok.
  branches Hok; bool_to_prop; naive_solver.
Qed.

Lemma step_pgood s i :
  (∀ now, i ≠ ClockMoves now) → pgood s (s, []) → pgood s (step s i).
Proof.
  intros Hc Hg. destruct i; simpl; try (by eapply pgood_set).
  - unfold on_local_proof_failure.
    destruct (admit_local_failure s e) as [e'|] eqn:Ha; [|done].
    apply admit_local_failure_Ok in Ha as (-> & _ & _ & Hne & _).
    apply accuse_when_effects_run_pgood; [|by eapply pgood_set].
    split; [done|]. simpl. intros [? ?]. by case_match.
  - unfold on_proof_verification_passed. repeat case_match; by eapply pgood_set.
  - unfold on_accusation_received, on_accusation_received_inner.
    repeat case_match; try (by eapply pgood_set).
    + unfold adopt_later_vote_window. case_match; [|done]. repeat (case_match; [done|]).
      set (s1 := set_window_movers s _).
      assert (pgood s (s1, [])) as Hg1 by (by eapply pgood_set). clearbody s1.
      destruct (List.find _ _); [case_sign sg Hs; [|done]|]; simpl;
        (eapply pgood_keeps; [apply file_accusation_keeps|]); destruct Hg1; by constructor.
    + unfold agree_with_accusation. case_sign sg Hs; [|done].
      eapply pgood_keeps; [apply file_accusation_keeps|]. destruct Hg; by constructor.
    + unfold dispatch_reverification. repeat (case_match; [done|]).
      destruct (from_threshold _ _); [|done].
      match goal with |- context [replay_buffered ?x ?i ?e ?l] =>
        pose proof (replay_buffered_keeps x i e l) as Hk end.
      destruct (replay_buffered _ _ _ _) as [s2 a2].
      destruct Hk, Hg. simpl in *. constructor; simpl; try congruence.
      rewrite pubs_app, k_pubs0. by constructor.
  - eapply pgood_keeps; [apply on_vote_received_inner_keeps|done].
  - unfold on_consistency_violation.
    destruct (admit_violation s d) as [d'|] eqn:Ha; [|done].
    apply admit_violation_Ok in Ha as (-> & _ & _ & Hne).
    apply accuse_when_effects_run_pgood; [|by eapply pgood_set].
    split; [done|]. simpl. by intros [? ?].
  - unfold handle_reverification_response. repeat case_match; try (by eapply pgood_set).
    eapply pgood_keeps; [apply check_quorum_keeps|]. destruct Hg; by constructor.
  - unfold on_member_expelled. repeat case_match; by eapply pgood_set.
  - unfold on_effects_enabled. case_match; [done|]. cbv zeta.
    assert (∀ l sa, Forall (deferred_ok s) l → pgood s sa → pgood s (foldl run_deferred sa l)) as Hf.
    { induction l as [|d l IH]; intros [s1 a1] Hl Ho; [done|]. inversion Hl; subst. simpl.
      apply IH; [done|]. unfold run_deferred. case_match; [by eapply pgood_set|].
      by apply initiate_deferred_pgood. }
    match goal with |- context [foldl run_deferred ?x ?l] => specialize (Hf l x) end.
    destruct Hg as [E1 E2 E3 Hd Hp]. simpl in *.
    destruct (foldl _ _ _) as [s2 a2].
    destruct Hf as [F1 F2 F3 Fd Fp]; [done|by constructor|]. simpl in *.
    constructor; simpl; try done. rewrite pubs_app, pubs_timeouts, app_nil_r. done.
  - unfold on_vote_timeout. repeat case_match; simplify_eq; destruct Hg; by constructor.
  - by destruct (Hc now).
Qed.


(** ** Filed accusations change only by adoption *)

Lemma check_quorum_pending s id ec acts id' p' :
  pending (check_quorum s id ec acts).1 !! id' = Some p' → pending s !! id' = Some p'.
Proof.
  unfold check_quorum, emit_quorum_reached. intros Hl.
  repeat case_match; simplify_eq; simpl in *; try done; by apply lookup_delete_Some in Hl as [_ ?].
Qed.

Lemma check_quorum_movers s id ec acts :
  window_movers (check_quorum s id ec acts).1 = window_movers s.
Proof. unfold check_quorum, emit_quorum_reached. by repeat case_match. Qed.

(** Same accusation, same collection round, maybe more votes. *)
Definition same_round (p p' : PendingAccusation EC) : Prop :=
  pa_accusation p' = pa_accusation p ∧ timeout_at p' = timeout_at p ∧
  ∃ more, votes_for p' = votes_for p ++ more.

Lemma same_round_refl p : same_round p p.
Proof. split_and!; [done|done|exists []; by rewrite app_nil_r]. Qed.

Lemma same_round_trans p1 p2 p3 : same_round p1 p2 → same_round p2 p3 → same_round p1 p3.
Proof.
  intros (E1 & E2 & m1 & Ev1) (F1 & F2 & m2 & Ev2). split_and!; [congruence|congruence|].
  exists (m1 ++ m2). by rewrite Ev2, Ev1, app_assoc.
Qed.

Lemma on_vote_received_inner_round s v ec acts id p' :
  pending (on_vote_received_inner s v ec acts).1 !! id = Some p' →
  ∃ p, pending s !! id = Some p ∧ same_round p p'.
Proof.
  unfold on_vote_received_inner. destruct (admit_vote s v) as [w|];
    [|intros Hl; eexists; split; [exact Hl|apply same_round_refl]].
  intros Hl. repeat case_match; simpl in Hl;
    try (eexists; split; [exact Hl|apply same_round_refl]);
  apply check_quorum_pending in Hl; simpl in Hl;
  apply lookup_insert_Some in Hl as [[<- <-]|[_ Hl]];
    try (eexists; split; [exact Hl|apply same_round_refl]);
  (eexists; split; [eassumption|]; split_and!; [done|done|eexists; done]).
Qed.

Lemma on_vote_received_inner_movers s v ec acts :
  window_movers (on_vote_received_inner s v ec acts).1 = window_movers s.
Proof.
  unfold on_vote_received_inner. destruct (admit_vote s v); [|done].
  by repeat case_match; rewrite ?check_quorum_movers.
Qed.

Lemma replay_buffered_round s id ec acts :
  window_movers (replay_buffered s id ec acts).1 = window_movers s ∧
  ∀ id' p', pending (replay_buffered s id ec acts).1 !! id' = Some p' →
  ∃ p, pending s !! id' = Some p ∧ same_round p p'.
Proof.
  unfold replay_buffered. destruct (buffered_votes s !! id) as [buf|].
  2: { split; [done|]. intros id' p' Hl. eexists; split; [exact Hl|apply same_round_refl]. }
  set (s1 := set_buffered_votes s _).
  assert (∀ sa : AV * list Action, window_movers sa.1 = window_movers s →
    (∀ id' p', pending sa.1 !! id' = Some p' → ∃ p, pending s !! id' = Some p ∧ same_round p p') →
    window_movers (foldl (λ sa vote, on_vote_received_inner sa.1 vote ec sa.2) sa buf).1
      = window_movers s ∧
    ∀ id' p', pending (foldl (λ sa vote, on_vote_received_inner sa.1 vote ec sa.2) sa buf).1
      !! id' = Some p' → ∃ p, pending s !! id' = Some p ∧ same_round p p') as Hf.
  { induction buf as [|v buf IH]; intros sa Hm Hr; [done|]. simpl. apply IH.
    - by rewrite on_vote_received_inner_movers.
    - intros id' p' Hl. apply on_vote_received_inner_round in Hl as (p & Hl & Hs).
      destruct (Hr _ _ Hl) as (p0 & ? & ?). exists p0. split; [done|]. by eapply same_round_trans. }
  apply Hf; [done|]. intros id' p' Hl. eexists; split; [exact Hl|apply same_round_refl].
Qed.

Lemma file_accusation_round s id p ec acts :
  let r := (let '(s4, a4) := replay_buffered (set_pending s (<[id := p]> (pending s)))
              id ec acts in check_quorum s4 id ec a4) in
  window_movers r.1 = window_movers s ∧
  ∀ p', pending r.1 !! id = Some p' → same_round p p'.
Proof.
  destruct (replay_buffered_round (set_pending s (<[id := p]> (pending s))) id ec acts) as [Hm Hr].
  destruct (replay_buffered _ _ _ _) as [s4 a4]. simpl in *. split.
  - by rewrite check_quorum_movers.
  - intros p' Hl%check_quorum_pending. apply Hr in Hl as (p0 & Hl & Hs).
    rewrite lookup_insert_eq in Hl. by simplify_eq.
Qed.

(** ** Restoring a snapshot *)

Definition pending_of (sv : SavedAccusation (EC := EC)) : PendingAccusation EC :=
  {| pa_accusation := sa_accusation sv; votes_for := sa_votes_for sv; pa_ec := sa_ec sv;
     timeout_at := sa_timeout_at sv |}.

Definition sv_id (sv : SavedAccusation (EC := EC)) : B256 := accusation_id_of (sa_accusation sv).

Lemma restore_fold_frame s l :
  accused_proofs (foldl restore_one s l) = accused_proofs s ∧
  restored_timeouts (foldl restore_one s l) = restored_timeouts s ++ (sv_id <$> l).
Proof.
  revert s. induction l as [|sv l IH]; intros s; [by rewrite app_nil_r|]. simpl.
  destruct (IH (restore_one s sv)) as [E1 E2]. rewrite E1, E2. unfold restore_one.
  split; [by destruct (sa_failed_proof sv)|].
  destruct (sa_failed_proof sv); simpl; by rewrite <-app_assoc.
Qed.

Lemma restore_fold_absent s l id :
  id ∉ (sv_id <$> l) → pending (foldl restore_one s l) !! id = pending s !! id.
Proof.
  revert s. induction l as [|sv l IH]; intros s Hn; [done|]. simpl.
  rewrite fmap_cons, not_elem_of_cons in Hn. destruct Hn as [Hne Hn]. rewrite (IH _ Hn).
  unfold restore_one. destruct (sa_failed_proof sv); simpl; by rewrite lookup_insert_ne.
Qed.

Lemma restore_fold_present s l sv :
  NoDup (sv_id <$> l) → sv ∈ l →
  pending (foldl restore_one s l) !! sv_id sv = Some (pending_of sv).
Proof.
  revert s. induction l as [|sv' l IH]; intros s Hnd Hin; [by apply elem_of_nil in Hin|].
  rewrite fmap_cons, NoDup_cons in Hnd. destruct Hnd as [Hn Hnd]. simpl.
  apply elem_of_cons in Hin as [->|Hin]; [|by apply IH].
  rewrite (restore_fold_absent _ _ _ Hn). unfold restore_one.
  destruct (sa_failed_proof sv'); simpl; by rewrite lookup_insert_eq.
Qed.

(** The saved list, as the accusations that hold this node's vote. *)
Lemma snapshot_elem s sv :
  Inv s → sv ∈ snap_pending (snapshot s) ↔
  ∃ p, pending s !! sv_id sv = Some p ∧ holds_own_vote s (votes_for p) = true ∧ sv = saved_of s p.
Proof.
  intros Hi. unfold snapshot. simpl. rewrite list_elem_of_fmap.
  setoid_rewrite (merge_sort_Permutation id_le). setoid_rewrite list_elem_of_fmap.
  setoid_rewrite list_elem_of_In. setoid_rewrite filter_In.
  setoid_rewrite <-list_elem_of_In. split.
  - intros ([id' sv'] & -> & ([id p] & [= -> ->] & Hl & Hown)). simpl in *.
    apply elem_of_map_to_list in Hl. exists p.
    destruct (inv_pending s Hi _ _ Hl) as [Hid _ _]. unfold sv_id; simpl. by rewrite Hid.
  - intros (p & Hl & Hown & ->). exists (sv_id (saved_of s p), saved_of s p). split; [done|].
    exists (sv_id (saved_of s p), p). split_and!; [done| |done].
    by apply elem_of_map_to_list.
Qed.

Lemma snapshot_ids_nodup s : Inv s → NoDup (sv_id <$> snap_pending (snapshot s)).
Proof.
  intros Hi. unfold snapshot. simpl. rewrite (merge_sort_Permutation id_le).
  rewrite <-!list_fmap_compose.
  assert (NoDup (fst <$> List.filter (λ p : B256 * PendingAccusation EC,
    holds_own_vote s (votes_for p.2)) (map_to_list (pending s)))) as Hnd.
  { apply NoDup_ListNoDup, NoDup_map_fst_filter, NoDup_ListNoDup, NoDup_fst_map_to_list. }
  eapply (NoDup_fmap_ext fst); [|exact Hnd]. intros [id p] Hin. simpl.
  apply list_elem_of_In, filter_In in Hin as [Hin _].
  apply list_elem_of_In, elem_of_map_to_list in Hin.
  destruct (inv_pending s Hi _ _ Hin) as [Hid _ _]. done.
Qed.

(** ** Theorems *)

(** C10: in every run of the protocol core from a fresh state, each pending accusation is filed
    under its own id, and each vote held for it is for this E3 and this id, in the
    accusation's window, with a signature that verifies for its voter, and comes from this
    node or from a current committee member other than the accused. *)
Theorem run_votes_authentic (e3 : E3id) (k : PrivateKeySigner) (manager : Address)
    (members : list Address) (t h : nat) (validity skew : Z) (preset : Preset) (now : Z)
    (inputs : list (VotingInput EC)) (id : B256) (p : PendingAccusation EC) :
  let s := (run (new e3 k manager members t h validity skew preset now) inputs).1 in
  pending s !! id = Some p →
  accusation_id_of (pa_accusation p) = id ∧ pfa_e3_id (pa_accusation p) = e3 ∧
  Forall (λ v, v_e3_id v = e3 ∧ accusation_id v = id ∧
    (v_issued_at v, v_deadline v)
      = (pfa_issued_at (pa_accusation p), pfa_deadline (pa_accusation p)) ∧
    recover_address_from_prehash (v_signature v) (vote_digest v manager) = Some (voter v) ∧
    (voter v = signer_address k ∨
     (voter v ∈ committee s ∧ voter v ≠ accused (pa_accusation p)))) (votes_for p).
Proof.
  intros s Hl.
  pose proof (run_good _ inputs (new_good e3 k manager members t h validity skew preset now)) as Hg.
  destruct (inv_pending _ (g_inv _ _ Hg) _ _ Hl) as [Hid He3 Hv].
  pose proof (g_config _ _ Hg) as [Ce3 Cme _ Cman _ _]. fold s in Ce3, Cme, Cman, He3, Hv.
  simpl in Ce3, Cme, Cman. split_and!; [done|congruence|].
  eapply Forall_impl; [exact Hv|]. intros v [V1 V2 V3 V4 V5].
  unfold verify_vote_signature in V4. bool_to_prop. rewrite Cman in V4.
  split_and!; try done; [congruence|]. by rewrite <-Cme.
Qed.

(** C1: every quorum that a run publishes is sound: its votes are signed agreements of
    committee members (or of this node) for one accusation and one window; a decided outcome
    has at least [H] of them, [AccusedFaulted] only if all name the same data,
    [Equivocation] only if two of them name different data, and [Inconclusive] only below
    [H]. *)
Theorem run_quorum_sound (e3 : E3id) (k : PrivateKeySigner) (manager : Address)
    (members : list Address) (t h : nat) (validity skew : Z) (preset : Preset) (now : Z)
    (inputs : list (VotingInput EC)) (q : AccusationQuorumReached) (ec : EC) :
  PublishQuorum q ec ∈ (run (new e3 k manager members t h validity skew preset now) inputs).2 →
  Forall (λ v, v_e3_id v = e3 ∧
    recover_address_from_prehash (v_signature v) (vote_digest v manager) = Some (voter v) ∧
    (voter v = signer_address k ∨ (voter v ∈ members ∧ voter v ≠ q_accused q))) (q_votes_for q) ∧
  (∃ id issued deadline, Forall (λ v, accusation_id v = id ∧ v_issued_at v = issued ∧
     v_deadline v = deadline) (q_votes_for q)) ∧
  outcome_ok h (q_votes_for q) (q_outcome q).
Proof.
  intros Hin.
  pose proof (run_good _ inputs (new_good e3 k manager members t h validity skew preset now)) as Hg.
  pose proof (g_acts _ _ Hg) as Ha. rewrite Forall_forall in Ha.
  destruct (Ha _ Hin) as [He3 Hv Hacc Hw Ho]. split_and!; try done.
  rewrite Forall_forall in Hv, Hacc. apply Forall_forall. intros v Hvin.
  destruct (Hv v Hvin) as (V1 & V2 & V3). unfold verify_vote_signature in V2. bool_to_prop.
  simpl in *. specialize (Hacc v Hvin). simpl in Hacc. split_and!; naive_solver.
Qed.

(** C27: The core decides as soon as it can, and says so.  After any run no pending accusation holds
    [H] or more votes.  In every next transition, an accusation that is pending, or whose vote opens,
    is pending afterwards unless the transition publishes its decision: at least [H] votes, with the
    outcome that their hashes show; only the timeout of its vote closes it with fewer votes, and then
    an inconclusive outcome is published. *)
Theorem run_decides_at_quorum (e3 : E3id) (k : PrivateKeySigner) (manager : Address)
    (members : list Address) (t h : nat) (validity skew : Z) (preset : Preset) (now : Z)
    (inputs : list (VotingInput EC)) :
  (0 < h)%nat →
  let s := (run (new e3 k manager members t h validity skew preset now) inputs).1 in
  (∀ id p, pending s !! id = Some p → (length (votes_for p) < h)%nat) ∧
  ∀ i id, is_Some (pending s !! id) ∨ StartTimeout id ∈ (step s i).2 →
    is_Some (pending (step s i).1 !! id) ∨ decision h id (step s i).2 ∨
    (i = VoteTimeout id ∧ ∃ q ec a, PublishQuorum q ec ∈ (step s i).2 ∧ accusation_id_of a = id ∧
       q_accused q = accused a ∧ q_proof_type q = pfa_proof_type a ∧ q_outcome q = Inconclusive).
Proof.
  intros Hh s.
  pose proof (new_good (EC := EC) e3 k manager members t h validity skew preset now) as Hn.
  pose proof (run_below _ inputs Hn Hh) as Hb.
  specialize (Hb ltac:(intros ? ? _; simpl; by rewrite lookup_empty)).
  pose proof (run_good _ inputs Hn) as Hg. fold s in Hb. pose proof (sc_h _ _ (g_config _ _ Hg)) as E. fold s in E. simpl in E.
  assert (∀ id p, pending s !! id = Some p → (length (votes_for p) < h)%nat) as Hlt.
  { intros id p Hp. rewrite <-E. apply (Hb id p); naive_solver. }
  split; [done|]. intros i id Hid. destruct (settles_start s (g_inv _ _ Hg)) as [_ Hkey _].
  assert ((∃ id', i = VoteTimeout id') ∨ ∀ id', i ≠ VoteTimeout id') as [[id' ->]|Hi].
  { destruct i; try (by right); left; by eexists. }
  - simpl in *. unfold on_vote_timeout in *. destruct (pending s !! id') as [p|] eqn:Hp; simpl in *.
    2: { destruct Hid as [?|?%elem_of_nil]; [by left|done]. }
    destruct Hid as [Hid|[?|?%elem_of_nil]%elem_of_cons]; [|done..].
    destruct (decide (id' = id)) as [->|Hne]; [|rewrite lookup_delete_ne by done; by left].
    right. right. split; [done|]. pose proof (Hlt id p Hp) as Hl.
    rewrite (proj2 (Nat.leb_gt _ _)) by lia. eexists _, (pa_ec p), (pa_accusation p).
    split; [apply list_elem_of_here|]. split_and!; [by apply Hkey|done..].
  - destruct (step_settles s i (settles_start s (g_inv _ _ Hg)) Hi) as [_ _ Ho].
    destruct (Ho id Hid) as [?|?]; [by left|]. right. left. by rewrite <-E.
Qed.

(** a transition keeps the voters of every pending accusation distinct, and the voters of
    every quorum it publishes, provided that a failed re-verification finds no earlier vote of
    this node for its accusation (the handler does not look for one). *)
Theorem step_voters_distinct (s : AV) (i : VotingInput EC) :
  (∀ id p, pending s !! id = Some p → NoDup (voter <$> votes_for p)) →
  (∀ cid r rv p, i = Reverified cid r → pending_reverifications s !! cid = Some rv →
     pending s !! rv_accusation_id rv = Some p → holds_own_vote s (votes_for p) = false) →
  (∀ id p, pending (step s i).1 !! id = Some p → NoDup (voter <$> votes_for p)) ∧
  (∀ q ec, PublishQuorum q ec ∈ (step s i).2 → NoDup (voter <$> q_votes_for q)).
Proof.
  intros Hd Ho.
  destruct (step_dgood s i) as [Hp Ha].
  - destruct i; simpl; try done. intros rv p Hrv Hp. by eapply Ho.
  - constructor; simpl; [exact Hd|constructor].
  - split; [exact Hp|]. intros q ec Hin. rewrite Forall_forall in Ha. exact (Ha _ Hin).
Qed.

(** a node accuses a proof at most once: over any run in which signing works and no
    publication fails, the published accusations are for pairwise different
    (accused, proof type) pairs. *)
Theorem run_accuses_once (e3 : E3id) (k : PrivateKeySigner) (manager : Address)
    (members : list Address) (t h : nat) (validity skew : Z) (preset : Preset) (now : Z)
    (inputs : list (VotingInput EC)) :
  (∀ k' d, is_Some (sign_hash_sync k' d)) →
  (∀ key, PublishFailed key ∉ inputs) →
  NoDup (pub_keys (run (new e3 k manager members t h validity skew preset now) inputs).2).
Proof.
  intros Hsign Hf. apply (on_nodup (new e3 k manager members t h validity skew preset now)).
  apply run_once; [apply new_good|done|]. apply Forall_forall. intros i Hi.
  destruct i; simpl; try done. by eapply Hf.
Qed.

(** votes convince: every vote that a run of one node publishes passes the admission
    check of any other node of the same E3 that counts the sender among its committee and
    uses the same slashing contract. *)
Theorem published_vote_admitted (e3 : E3id) (k : PrivateKeySigner) (manager : Address)
    (members : list Address) (t h : nat) (validity skew : Z) (preset : Preset) (now : Z)
    (inputs : list (VotingInput EC)) (v : AccusationVote) (ec : EC) (peer : AV) :
  PublishVote v ec ∈ (run (new e3 k manager members t h validity skew preset now) inputs).2 →
  e3_id peer = e3 → slashing_manager peer = manager →
  signer_address k ∈ committee peer → my_address peer ≠ signer_address k →
  admit_vote peer v = Ok v.
Proof.
  intros Hin E1 E2 Hmem Hne.
  pose proof (g_acts _ _ (run_good _ inputs
    (new_good e3 k manager members t h validity skew preset now))) as Ha.
  rewrite Forall_forall in Ha. destruct (Ha _ Hin) as (Hvot & He3 & Hsig). simpl in *.
  assert (verify_vote_signature peer v = true) as Hs.
  { unfold verify_vote_signature in *. by rewrite E2. }
  unfold admit_vote. rewrite Hs, Hvot, He3, E1, !bool_decide_eq_true_2 by done. simpl.
  by rewrite (proj2 (Z.eqb_neq _ _)).
Qed.

(** accusations convince: an accusation that a transition publishes is admitted by any
    other node of the E3 with the same committee view and validity period whose clock is
    before the accusation's deadline and at most the skew behind the accuser's. *)
Theorem published_accusation_admitted (s : AV) (i : VotingInput EC) (a : ProofFailureAccusation)
    (ec : EC) (key : Address * ProofType) (peer : AV) :
  Inv s → Forall (deferred_ok s) (deferred_accusations s) →
  PublishAccusation a ec key ∈ (step s i).2 →
  0 <= clock s → 0 <= vote_validity_secs s →
  e3_id peer = e3_id s → vote_validity_secs peer = vote_validity_secs s →
  my_address s ∈ committee peer → accused a ∈ committee peer → my_address peer ≠ my_address s →
  clock s <= clock peer + accusation_deadline_skew_secs peer →
  clock s <= U64_MAX → clock peer < pfa_deadline a →
  admit_accusation peer a = Ok a.
Proof.
  intros Hi Hd Hin Hc0 Hv0 E1 E2 Hm Hacc Hne Hskew Hmax Hdl.
  assert (good s (s, [])) as Hg by (by constructor; [apply same_config_refl| |constructor]).
  pose proof (g_acts _ _ (step_good s s i Hg)) as Ha. rewrite Forall_forall in Ha.
  destruct (Ha _ Hin) as (Hac & He3 & Hsig & _ & _).
  assert (pub_ok s a) as (Hself & Hiss & Hdead & Hval & Hfwd).
  { assert (∀ now, i ≠ ClockMoves now) as Hn.
    { intros now0 ->. simpl in Hin. by apply elem_of_nil in Hin. }
    assert (pgood s (s, [])) as Hp by (by constructor; [..|constructor]).
    pose proof (pg_pubs _ _ (step_pgood s i Hn Hp)) as Hpub. rewrite Forall_forall in Hpub.
    apply (Hpub (a, key)). unfold pubs. apply list_elem_of_omap. eexists. by split. }
  unfold admit_accusation, is_peer_deadline_acceptable.
  rewrite Hsig, Hac, He3, E1, E2, !bool_decide_eq_true_2 by done. simpl.
  rewrite !(proj2 (Z.eqb_neq _ _)) by done. simpl. rewrite andb_comm.
  replace (negb (can_forward_proof (pfa_proof_type a)) && _) with false
    by (destruct (signed_payload a); [rewrite Hfwd by eauto; done|by rewrite andb_comm]).
  unfold saturating_add, saturating_sub, U64_MAX in *.
  repeat match goal with |- context [?x <=? ?y] => replace (x <=? y) with true by lia end.
  replace (clock peer <? pfa_deadline a) with true by lia. simpl.
  rewrite (bool_decide_eq_true_2 (my_address s ∈ committee peer)) by done.
  by rewrite (bool_decide_eq_true_2 (accused a ∈ committee peer)).
Qed.

(** vote windows only move forward, and no accuser moves one twice: when a peer's
    accusation of an already pending fault is handled and the fault stays pending, either the
    round goes on with the same window, or the new window starts and ends strictly later and
    that accuser had not moved it before and cannot move it again. *)
Theorem adopted_window_later (s : AV) (a : ProofFailureAccusation) (ec : EC)
    (acts : list Action) (id : B256) (p p' : PendingAccusation EC) :
  let s' := (adopt_later_vote_window s id a ec acts).1 in
  pending s !! id = Some p → pending s' !! id = Some p' →
  same_round p p' ∨
  (pa_accusation p' = a ∧
   pfa_issued_at (pa_accusation p) < pfa_issued_at a ∧
   pfa_deadline (pa_accusation p) < pfa_deadline a ∧
   (id, accuser a) ∉ window_movers s ∧ (id, accuser a) ∈ window_movers s' ∧
   window_movers s ⊆ window_movers s').
Proof.
  intros s' Hp. subst s'. unfold adopt_later_vote_window. rewrite Hp.
  case_match eqn:Hw.
  { simpl. intros ?; simplify_eq. left. apply same_round_refl. }
  case_match eqn:Hmv.
  { simpl. intros ?; simplify_eq. left. apply same_round_refl. }
  bool_to_prop. set (s1 := set_window_movers s _).
  assert (window_movers s1 = {[(id, accuser a)]} ∪ window_movers s) as Hm1 by done.
  assert (pending s1 !! id = Some p) as Hp1 by done. clearbody s1.
  destruct (List.find _ _); [case_sign sg Hs|]; simpl.
  - match goal with |- context [replay_buffered (set_pending s1 (<[id := ?q]> _)) id ec ?l] =>
      destruct (file_accusation_round s1 id q ec l) as [Hm Hr] end.
    intros Hl. right. apply Hr in Hl as (Hacc & _). rewrite Hm, Hm1. simpl in Hacc.
    split_and!; (done || lia || set_solver).
  - intros Hl. left. rewrite Hp1 in Hl. simplify_eq. apply same_round_refl.
  - match goal with |- context [replay_buffered (set_pending s1 (<[id := ?q]> _)) id ec ?l] =>
      destruct (file_accusation_round s1 id q ec l) as [Hm Hr] end.
    intros Hl. right. apply Hr in Hl as (Hacc & _). rewrite Hm, Hm1. simpl in Hacc.
    split_and!; (done || lia || set_solver).
Qed.

(** a restart keeps the vote state: restoring the snapshot of any state that satisfies the
    invariant into a fresh core gives back exactly the pending accusations that hold this
    node's vote, with their votes, contexts and timeouts, and the accused proofs, and marks
    exactly those accusations for a restarted vote timer. *)
Theorem restore_snapshot (s s0 s' : AV) :
  Inv s → pending s0 = ∅ → accused_proofs s0 = ∅ → restored_timeouts s0 = [] →
  restore s0 (snapshot s) = Some s' →
  (∀ id, pending s' !! id = (p ← pending s !! id;
     if holds_own_vote s (votes_for p) then Some p else None)) ∧
  accused_proofs s' = accused_proofs s ∧
  (∀ id, id ∈ restored_timeouts s' ↔ is_Some (pending s' !! id)).
Proof.
  intros Hi Hp0 Ha0 Ht0 Hr. unfold restore in Hr.
  replace (negb (validate (snapshot s))) with false in Hr by done. injection Hr as <-.
  destruct (restore_fold_frame s0 (snap_pending (snapshot s))) as [Ea Et].
  assert (∀ id, pending (foldl restore_one s0 (snap_pending (snapshot s))) !! id =
    (p ← pending s !! id; if holds_own_vote s (votes_for p) then Some p else None)) as Hpend.
  { intros id. destruct (decide (id ∈ (sv_id <$> snap_pending (snapshot s)))) as [Hin|Hn].
    - apply list_elem_of_fmap in Hin as (sv & -> & Hin).
      rewrite (restore_fold_present _ _ sv) by (by try apply snapshot_ids_nodup).
      apply snapshot_elem in Hin as (p & Hl & Hown & Hsv); [|done].
      rewrite Hl. simpl. rewrite Hown, Hsv. by destruct p.
    - rewrite (restore_fold_absent _ _ _ Hn), Hp0, lookup_empty.
      destruct (pending s !! id) as [p|] eqn:Hl; [|done]. simpl.
      destruct (holds_own_vote s (votes_for p)) eqn:Hown; [|done]. destruct Hn.
      destruct (inv_pending s Hi _ _ Hl) as [Hid _ _].
      apply list_elem_of_fmap. exists (saved_of s p). unfold sv_id at 1; simpl.
      split; [done|]. apply snapshot_elem; [done|]. exists p. unfold sv_id; simpl. by rewrite Hid. }
  set (s1 := foldl restore_one s0 _) in *. clearbody s1.
  assert (∀ key, key ∈ snap_accused_proofs (snapshot s) ↔ key ∈ accused_proofs s) as Hacc.
  { intros key. unfold snapshot; simpl.
    by rewrite (merge_sort_Permutation proof_key_le), elem_of_elements. }
  cbn [accused_proofs pending restored_timeouts set_saved set_accused_proofs].
  split_and!; [done| |].
  - rewrite Ea, Ha0. apply set_eq. intros key. rewrite elem_of_union, elem_of_list_to_set, Hacc.
    set_solver.
  - intros id. rewrite Et, Ht0, Hpend. change ([] ++ ?l) with l.
    rewrite list_elem_of_fmap. split.
    + intros (sv & -> & Hin). apply snapshot_elem in Hin as (p & Hl & Hown & _); [|done].
      rewrite Hl. simpl. by rewrite Hown.
    + intros [p Hl]. destruct (pending s !! id) as [p0|] eqn:Hp; [|done]. simpl in Hl.
      case_match eqn:Hown; simplify_eq. exists (saved_of s p).
      destruct (inv_pending s Hi _ _ Hp) as [Hid _ _]. unfold sv_id at 1; simpl.
      split; [done|]. apply snapshot_elem; [done|]. exists p. unfold sv_id; simpl. by rewrite Hid.
Qed.

(** an expelled member leaves nothing behind: after its expulsion from this E3 it is not
    a committee member, no tally and no buffer holds a vote of it, every other member and
    every other vote stays, and its next vote is rejected. *)
Theorem expelled_member_gone (s : AV) (d : CommitteeMemberExpelled) (v : AccusationVote) :
  let s' := on_member_expelled s d in
  cme_e3_id d = e3_id s → cme_node d ∈ committee s → voter v = cme_node d → v_e3_id v = e3_id s →
  committee s' = List.filter (λ a, negb (a =? cme_node d)) (committee s) ∧
  pending s' = (λ p, set_votes p (drop_votes_of (cme_node d) (votes_for p))) <$> pending s ∧
  buffered_votes s' = drop_votes_of (cme_node d) <$> buffered_votes s ∧
  admit_vote s' v = Err (VoterNotInCommittee (cme_node d)).
Proof.
  intros s' He3 Hmem Hv Hve. subst s'. unfold on_member_expelled.
  rewrite bool_decide_eq_true_2 by done. simpl.
  set (c' := List.filter _ (committee s)).
  assert (length c' < length (committee s))%nat as Hlt.
  { destruct (decide (length (committee s) ≤ length c')%nat) as [Hle|]; [|lia].
    apply filter_length_not_lt in Hle. fold c' in Hle. rewrite <-Hle in Hmem.
    apply committee_filter_in in Hmem as [_ Hne]. done. }
  rewrite (proj2 (Nat.ltb_lt _ _)) by done. split_and!; try done.
  unfold admit_vote. simpl. rewrite bool_decide_eq_true_2 by done. simpl.
  rewrite bool_decide_eq_false_2; [simpl; by rewrite Hv|].
  rewrite Hv. intros Hin. apply committee_filter_in in Hin as [_ Hne]. done.
Qed.

End Props.

(** ** A concrete committee *)

Section Example.

Definition ex_e3 : E3id := mkE3id "7" 1.

(** Node [me] of a minimum committee ([N = 3], [H = 2], [T = 1]); contexts are numbers. *)
Definition ex_node (me : Z) : AccusationVoting Z unit :=
  new ex_e3 (ex_key me) 999 [10; 20; 30] 1 2 1800 60 tt 1000.

(** A C3a proof signed by [prover]. *)
Definition ex_signed (prover : Z) : SignedProofPayload :=
  let p := ex_payload ex_e3 C3aSkShareEncryption ShareEncryption [1; 2] [3; 4] in
  {| payload := p; sp_signature := prover :: b256_bytes (default 0 (digest p)) |}.

(** [by_] accuses [against] of that proof, at [now], forwarding it. *)
Definition ex_accusation (by_ against now : Z) : ProofFailureAccusation :=
  let a := {| pfa_e3_id := ex_e3; accuser := by_; accused := against; accused_party_id := 2;
              pfa_proof_type := C3aSkShareEncryption;
              pfa_data_hash := compute_payload_hash (ex_signed against);
              pfa_issued_at := now; pfa_deadline := now + 1800;
              signed_payload := Some (ex_signed against); pfa_signature := [] |} in
  accusation_with_signature a (by_ :: b256_bytes (accusation_digest a)).

Definition ex_id (against : Z) : B256 := accusation_id_of (ex_accusation 20 against 1000).

Definition ex_vote (by_ against now : Z) : AccusationVote :=
  let v := {| v_e3_id := ex_e3; accusation_id := ex_id against; voter := by_;
              v_data_hash := compute_payload_hash (ex_signed against); v_issued_at := now;
              v_deadline := now + 1800; v_signature := [] |} in
  vote_with_signature v [by_; vote_digest v 999].

Definition ex_failure (against : Z) : ProofVerificationFailed :=
  {| pvf_e3_id := ex_e3; pvf_accused_party_id := 2; pvf_accused_address := against;
     pvf_proof_type := C3aSkShareEncryption;
     pvf_data_hash := compute_payload_hash (ex_signed against);
     pvf_signed_payload := ex_signed against |}.

(** The decided quorums of a run: outcome, accused and voters. *)
Definition decided {EC Preset} (acts : list (VoteAction EC Preset))
    : list (AccusationOutcome * Address * list Address) :=
  omap (λ act, match act with
    | PublishQuorum q _ => Some (q_outcome q, q_accused q, voter <$> q_votes_for q)
    | _ => None end) acts.

(** A node that detects the fault itself and hears one agreeing peer. *)
Definition ex_inputs : list (VotingInput Z) :=
  [LocalFailure (ex_failure 30) 1; PeerVote (ex_vote 20 30 1000) 2].

Lemma ex_inputs_decided :
  decided (run (ex_node 10) ex_inputs).2 = [(AccusedFaulted, 30, [10; 20])].
Proof. vm_compute. reflexivity. Qed.

Definition ex_pending : PendingAccusation Z :=
  default (mkPending (ex_accusation 20 30 1000) [] 0 0)
    (pending (run (ex_node 10) [LocalFailure (ex_failure 30) 1]).1 !! ex_id 30).

Lemma run_votes_authentic_witness :
  (voter <$> votes_for ex_pending) = [10] ∧
  accusation_id_of (pa_accusation ex_pending) = ex_id 30.
Proof.
  split; [vm_compute; reflexivity|].
  refine (proj1 (run_votes_authentic ex_e3 (ex_key 10) 999 [10; 20; 30] 1 2 1800 60 tt 1000
    [LocalFailure (ex_failure 30) 1] (ex_id 30) ex_pending _)).
  vm_compute. reflexivity.
Defined.

Definition ex_quorum : AccusationQuorumReached * Z :=
  match last (run (ex_node 10) ex_inputs).2 with
  | Some (PublishQuorum q ec) => (q, ec)
  | _ => (mkQuorum ex_e3 0 0 C0PkBfv [] Inconclusive [], 0)
  end.

Lemma ex_quorum_published :
  PublishQuorum ex_quorum.1 ex_quorum.2 ∈ (run (ex_node 10) ex_inputs).2.
Proof.
  apply list_elem_of_lookup. exists 4%nat. vm_compute. reflexivity.
Qed.

Lemma run_quorum_sound_witness :
  q_outcome ex_quorum.1 = AccusedFaulted ∧
  outcome_ok 2 (q_votes_for ex_quorum.1) (q_outcome ex_quorum.1).
Proof.
  split; [vm_compute; reflexivity|].
  exact (proj2 (proj2 (run_quorum_sound ex_e3 (ex_key 10) 999 [10; 20; 30] 1 2 1800 60 tt 1000
    ex_inputs ex_quorum.1 ex_quorum.2 ex_quorum_published))).
Defined.

(** The accusation waits with one vote, and the second vote publishes the decision. *)
Lemma run_decides_at_quorum_witness :
  (length (votes_for ex_pending) < 2)%nat ∧
  decision 2 (ex_id 30) (step (run (ex_node 10) [LocalFailure (ex_failure 30) 1]).1 (PeerVote (ex_vote 20 30 1000) 2)).2.
Proof.
  destruct (run_decides_at_quorum ex_e3 (ex_key 10) 999 [10; 20; 30] 1 2 1800 60 tt 1000
    [LocalFailure (ex_failure 30) 1] ltac:(lia)) as [Hlt Hdec].
  assert (pending (run (ex_node 10) [LocalFailure (ex_failure 30) 1]).1 !! ex_id 30 = Some ex_pending) as Hp
    by (vm_compute; reflexivity).
  split; [exact (Hlt (ex_id 30) ex_pending Hp)|].
  destruct (Hdec (PeerVote (ex_vote 20 30 1000) 2) (ex_id 30) (or_introl (ex_intro _ _ Hp))) as [Hs|[Hd|[Hi _]]].
  - exfalso. assert (pending (step (run (ex_node 10) [LocalFailure (ex_failure 30) 1]).1
      (PeerVote (ex_vote 20 30 1000) 2)).1 !! ex_id 30 = None) as Hnone by (vm_compute; reflexivity).
    destruct Hs as [x Hx]. exact (eq_ind (Some x) (λ o, match o with Some _ => True | None => False end) I None (eq_trans (eq_sym Hx) Hnone)).
  - exact Hd.
  - discriminate Hi.
Defined.

Lemma step_voters_distinct_witness :
  pending (step (ex_node 10) (LocalFailure (ex_failure 30) 1)).1 !! ex_id 30 = Some ex_pending ∧
  NoDup (voter <$> votes_for ex_pending).
Proof.
  assert (pending (step (ex_node 10) (LocalFailure (ex_failure 30) 1)).1 !! ex_id 30
    = Some ex_pending) as Hp by (vm_compute; reflexivity).
  split; [exact Hp|]. revert Hp.
  apply (step_voters_distinct (ex_node 10) (LocalFailure (ex_failure 30) 1)).
  - intros id p. simpl. rewrite lookup_empty. done.
  - done.
Defined.

Lemma run_accuses_once_witness :
  pub_keys (run (ex_node 10) [LocalFailure (ex_failure 30) 1; LocalFailure (ex_failure 30) 2]).2
    = [(30, C3aSkShareEncryption)] ∧
  NoDup (pub_keys (run (ex_node 10)
    [LocalFailure (ex_failure 30) 1; LocalFailure (ex_failure 30) 2]).2).
Proof.
  split; [vm_compute; reflexivity|].
  apply (run_accuses_once ex_e3 (ex_key 10) 999 [10; 20; 30] 1 2 1800 60 tt 1000).
  - intros k' d. by eexists.
  - intros key. by rewrite !not_elem_of_cons; split_and!; [..|apply not_elem_of_nil].
Defined.

Lemma published_vote_admitted_witness :
  admit_vote (ex_node 20) (ex_vote 10 30 1000) = Ok (ex_vote 10 30 1000).
Proof.
  apply (published_vote_admitted ex_e3 (ex_key 10) 999 [10; 20; 30] 1 2 1800 60 tt 1000
    [LocalFailure (ex_failure 30) 1] (ex_vote 10 30 1000) 1 (ex_node 20)); try done.
  - apply list_elem_of_lookup. exists 1%nat. vm_compute. reflexivity.
  - apply list_elem_of_In. simpl. auto.
Defined.

(** The example accusation, issued by this node. *)
Definition ex_own_accusation : ProofFailureAccusation := ex_accusation 10 30 1000.

Lemma published_accusation_admitted_witness :
  admit_accusation (ex_node 20) ex_own_accusation = Ok ex_own_accusation.
Proof.
  apply (published_accusation_admitted (ex_node 10) (LocalFailure (ex_failure 30) 1)
    ex_own_accusation 1 (30, C3aSkShareEncryption) (ex_node 20)); try done.
  - apply list_elem_of_lookup. exists 0%nat. vm_compute. reflexivity.
  - apply list_elem_of_In. simpl. auto.
  - apply list_elem_of_In. simpl. auto.
Defined.

(** The node waits for its re-verification; a second peer's accusation has a later window. *)
Definition ex_waiting : AccusationVoting Z unit :=
  (run (ex_node 10) [PeerAccusation (ex_accusation 20 30 1000) 1 100]).1.

Definition ex_at (s : AccusationVoting Z unit) (id : B256) : PendingAccusation Z :=
  default (mkPending (ex_accusation 20 30 1000) [] 0 0) (pending s !! id).

Definition ex_adopted : AccusationVoting Z unit :=
  (adopt_later_vote_window ex_waiting (ex_id 30) (ex_accusation 20 30 1050) 2 []).1.

Lemma adopted_window_later_witness :
  pfa_issued_at (pa_accusation (ex_at ex_adopted (ex_id 30))) = 1050 ∧
  (same_round (ex_at ex_waiting (ex_id 30)) (ex_at ex_adopted (ex_id 30)) ∨
   (ex_id 30, 20) ∈ window_movers ex_adopted).
Proof.
  split; [vm_compute; reflexivity|].
  assert (pending ex_waiting !! ex_id 30 = Some (ex_at ex_waiting (ex_id 30))) as H1
    by (vm_compute; reflexivity).
  assert (pending ex_adopted !! ex_id 30 = Some (ex_at ex_adopted (ex_id 30))) as H2
    by (vm_compute; reflexivity).
  pose proof (adopted_window_later ex_waiting (ex_accusation 20 30 1050) 2 [] (ex_id 30)
    (ex_at ex_waiting (ex_id 30)) (ex_at ex_adopted (ex_id 30)) H1 H2) as [Hs|Hl].
  - by left.
  - right. exact (proj1 (proj2 (proj2 (proj2 (proj2 Hl))))).
Defined.

Definition ex_voted : AccusationVoting Z unit :=
  (run (ex_node 10) [LocalFailure (ex_failure 30) 1]).1.

Definition ex_restored : AccusationVoting Z unit :=
  default (ex_node 10) (restore (ex_node 10) (snapshot ex_voted)).

Lemma restore_snapshot_witness :
  is_Some (pending ex_restored !! ex_id 30) ∧ accused_proofs ex_restored = accused_proofs ex_voted.
Proof.
  destruct (restore_snapshot ex_voted (ex_node 10) ex_restored) as (_ & Ha & _).
  - apply (g_inv _ _ (run_good _ [LocalFailure (ex_failure 30) 1]
      (new_good ex_e3 (ex_key 10) 999 [10; 20; 30] 1 2 1800 60 tt 1000))).
  - reflexivity.
  - reflexivity.
  - reflexivity.
  - reflexivity.
  - split; [|exact Ha]. vm_compute. by eexists.
Defined.

Lemma expelled_member_gone_witness :
  admit_vote (on_member_expelled ex_voted (mkExpelled ex_e3 20 0 2 None)) (ex_vote 20 30 1000)
    = Err (VoterNotInCommittee 20).
Proof.
  apply (expelled_member_gone ex_voted (mkExpelled ex_e3 20 0 2 None) (ex_vote 20 30 1000));
    try (vm_compute; reflexivity).
  apply list_elem_of_lookup. exists 1%nat. vm_compute. reflexivity.
Defined.

(** two re-verifications of one fault count this node twice.  A peer's accusation starts
    a re-verification; the vote timeout removes the accusation but not the re-verification; a
    repeated accusation starts another one; when both fail, this node's vote is counted twice
    and a committee with [H = 2] publishes [AccusedFaulted] on one node's word. *)
Theorem double_vote_reaches_quorum :
  decided (run (ex_node 10)
    [PeerAccusation (ex_accusation 20 30 1000) 1 100; ClockMoves 1300; VoteTimeout (ex_id 30);
     PeerAccusation (ex_accusation 20 30 1000) 2 200;
     Reverified 100 (ZkVerifyShareProofs [false]);
     Reverified 200 (ZkVerifyShareProofs [false])]).2
  = [(Inconclusive, 30, []); (AccusedFaulted, 30, [10; 10])].
Proof. vm_compute. reflexivity. Qed.

(** the accused can be counted against itself.  A vote of the accused is rejected when it
    arrives from the network, but the accused node's own failed re-verification of its
    forwarded proof is counted in its own tally and completes the quorum. *)
Theorem accused_own_vote_counted :
  decided (run (ex_node 30)
    [PeerAccusation (ex_accusation 20 30 1000) 1 100; PeerVote (ex_vote 20 30 1000) 2;
     Reverified 100 (ZkVerifyShareProofs [false])]).2
  = [(AccusedFaulted, 30, [20; 30])] ∧
  decided (run (ex_node 10)
    [LocalFailure (ex_failure 30) 1; PeerVote (ex_vote 30 30 1000) 2]).2 = [].
Proof. split; vm_compute; reflexivity. Qed.

End Example.
