(* ===== verification/SlashingPipeline.v ===== *)
(** * From a contradicted proof to a published accusation

    The commitment consistency checker publishes violations; the accusation voting core
    consumes them.  This file composes the two components: the events of the first are inputs
    of the second. *)

From S2P Require Import Prelude Events AlloyExample CommitmentLinks ConsistencyChecker.
From S2P Require Import ConsistencyProps AccusationVoting AccusationInv AccusationProps.
Open Scope Z_scope.

Section Pipeline.
Context `{Hlaws : AlloyLaws}.
Context {EC Preset : Type} `{!EqDecision EC}.
Notation AV := (AccusationVoting EC Preset).

(** An initiation that nothing blocks publishes one accusation, with the given content. *)
Lemma initiate_accusation_publishes (s : AV) acc pid pt dh fwd ec :
  (∀ k d, is_Some (sign_hash_sync k d)) → (∀ k m, is_Some (sign_message_sync k m)) →
  acc ∈ committee s → vote_validity_secs s ≠ 0 → (acc, pt) ∉ accused_proofs s →
  ∃ a, pubs (initiate_accusation s acc pid pt dh fwd ec []).2 = [(a, (acc, pt))] ∧
    accuser a = my_address s ∧ accused a = acc ∧ accused_party_id a = pid ∧
    pfa_proof_type a = pt ∧ pfa_data_hash a = dh.
Proof.
  intros Hsign Hmsg Hmem Hval Hnew. unfold initiate_accusation.
  rewrite bool_decide_eq_true_2 by done. cbn [negb].
  rewrite bool_decide_eq_false_2 by done. rewrite (proj2 (Z.eqb_neq _ _)) by done.
  unfold compute_vote_window. cbv beta iota zeta.
  case_sign sg Hs.
  2: { unfold sign_accusation_digest in Hs.
       match type of Hs with sign_message_sync ?k ?h = None => destruct (Hmsg k h); congruence end. }
  case_sign vs Hv.
  2: { unfold sign_vote_digest in Hv.
       match type of Hv with sign_hash_sync ?k ?h = None => destruct (Hsign k h); congruence end. }
  rewrite (k_pubs _ _ (file_accusation_keeps _ _ _ _ _)). simpl. by eexists.
Qed.

(** Whom this node can accuse: a committee member other than itself that it has not accused of the
    proof yet, when accusations have a time to live. *)
Definition accusable (s : AV) (v : CommitmentConsistencyViolation) : Prop :=
  ccv_accused_address v ∈ committee s ∧
  is_self_accusation s (my_address s) (ccv_accused_address v) (ccv_accused_party_id v) = false ∧
  (ccv_accused_address v, ccv_proof_type v) ∉ accused_proofs s ∧ vote_validity_secs s ≠ 0.

Lemma initiate_blocked (s : AV) acc pid pt dh fwd ec :
  acc ∉ committee s ∨ (acc, pt) ∈ accused_proofs s ∨ vote_validity_secs s = 0 →
  pubs (initiate_accusation s acc pid pt dh fwd ec []).2 = [].
Proof.
  intros Hb. unfold initiate_accusation. case_bool_decide; cbn [negb]; [|done].
  case_bool_decide; [done|]. destruct (Z.eqb_spec (vote_validity_secs s) 0); [done|]. naive_solver.
Qed.

(** C28: A contradicted proof ends in an accusation that can be slashed: take a violation that a run
    of the checker reports, whose inputs carry the hashes of their evidence, and the voting core of
    the same E3 with its effects running and a working signer.  When the accused is a committee
    member other than this node that the core has not accused of that proof, and votes have a
    validity, the core publishes exactly one accusation, of the party that submitted the proof,
    whose data hash is the hash of the violation's evidence; otherwise it publishes none. *)
Theorem violation_becomes_accusation (e3 : E3id) (ls : list CommitmentLink) (h : nat)
    (inputs : list CheckerInput) (v : CommitmentConsistencyViolation) (s : AV) (ec : EC) :
  v ∈ (ConsistencyChecker.run (ConsistencyChecker.new e3 ls h) inputs).2 →
  (∀ i pt e, i ∈ inputs → submitted e3 i pt e →
     data_hash e = keccak256 (evidence_of (proof_data e) (vp_public_signals e))) →
  (∀ k d, is_Some (sign_hash_sync k d)) → (∀ k m, is_Some (sign_message_sync k m)) →
  e3_id s = e3 → effects_enabled s = true →
  (accusable s v →
   ∃ a i src, i ∈ inputs ∧ submitted e3 i (pfa_proof_type a) src ∧
     pubs (on_consistency_violation s v ec).2
       = [(a, (ccv_accused_address v, ccv_proof_type v))] ∧
     accuser a = my_address s ∧ accused a = address src ∧ accused_party_id a = party_id src ∧
     pfa_data_hash a = keccak256 (ccv_evidence v)) ∧
  (~ accusable s v → pubs (on_consistency_violation s v ec).2 = []).
Proof.
  intros Hv Hhash Hsign Hmsg He Heff.
  destruct (run_violation (ConsistencyChecker.new e3 ls h) inputs v)
    as (before & i0 & after & link & addr & src & -> & Hl & [Hc Hm] & -> & Hsub); [apply new_wf|done|].
  pose proof (wf_cached_address _ _ _ _ (evaluated_wf _ i0 (run_wf _ before (new_wf e3 ls h))) Hc) as <-.
  destruct (Hsub _ _ _ Hc) as [(es & Hes & _)|(i & Hi & Hs)]; [simpl in Hes; by rewrite lookup_empty in Hes|].
  assert (i ∈ before ++ i0 :: after) as Hin by (rewrite cons_middle, app_assoc; apply elem_of_app; by left).
  clear Hc Hm Hsub. simpl in *.
  unfold accusable, on_consistency_violation, admit_violation. simpl.
  rewrite bool_decide_eq_true_2 by done. split.
  - intros (Hmem & Hself & Hnew & Hval). rewrite bool_decide_eq_true_2 by done. simpl. rewrite Hself.
    unfold accuse_when_effects_run. set (s2 := cache_verification_result s _ _ _ _ _).
    assert (effects_enabled s2 = true) as -> by done. simpl negb. unfold initiate_deferred. simpl.
    destruct (initiate_accusation_publishes s2 (address src) (party_id src)
      (source_proof_type link) (data_hash src) None ec)
      as (a & Hp & E1 & E2 & E3 & E4 & E5); [done..|].
    exists a, i, src. rewrite E4, E5. split_and!; try done. exact (Hhash i _ src Hin Hs).
  - intros Hno. case_bool_decide as Hmem; simpl; [|done].
    destruct (is_self_accusation _ _ _ _) eqn:Hself; [done|].
    unfold accuse_when_effects_run. set (s2 := cache_verification_result s _ _ _ _ _).
    assert (effects_enabled s2 = true) as -> by done. apply initiate_blocked. simpl.
    destruct (decide ((address src, source_proof_type link) ∈ accused_proofs s)); [by right; left|].
    destruct (decide (vote_validity_secs s = 0)); [by right; right|]. by destruct Hno.
Qed.

End Pipeline.

Lemma violation_becomes_accusation_witness :
  ∃ a i src, i ∈ ex_contradiction ∧ submitted ex_chk_e3 i (pfa_proof_type a) src ∧
    pubs (on_consistency_violation (ex_node 10) ex_violation 1).2
      = [(a, (30, C1PkGeneration))] ∧
    accuser a = 10 ∧ accused a = address src ∧ accused_party_id a = party_id src ∧
    pfa_data_hash a = keccak256 (ccv_evidence ex_violation).
Proof.
  apply (violation_becomes_accusation ex_chk_e3 (default_links 1) 2 ex_contradiction ex_violation
    (ex_node 10) 1).
  - exact ex_violation_in_run.
  - intros i pt e Hi. apply list_elem_of_In in Hi. destruct Hi as [<-|[<-|[]]];
      intros (_ & _ & ->); reflexivity.
  - intros k d. by eexists.
  - intros k m. by eexists.
  - reflexivity.
  - reflexivity.
  - split; [apply list_elem_of_In; vm_compute; auto|]. split; [vm_compute; reflexivity|].
    split; [apply not_elem_of_empty|done].
Defined.
