(* ===== verification/Sortition.v ===== *)
(** * Ticket scores and committee selection

    Model of crates/orchestration/sortition/src/ticket.rs and ticket_selection.rs: scoring of
    tickets, the best ticket of a node, the top-N committee, the owner shortlist and the size
    of the candidate buffer.

    Hashing and ABI packing are the operations of [AlloyOps].  A failed [expect] on the E3 id
    is the error [InvalidE3id].  [sort_unstable_by] is [merge_sort]: the keys are pairwise
    different wherever the sources sort, so stability makes no difference.  Ratios of
    [calculate_buffer_size] are IEEE doubles, computed with the Standard Library's
    specification of binary64. *)

From S2P Require Import Prelude Events.
From Stdlib Require Import SpecFloat.
Open Scope Z_scope.

(** ** Tickets (ticket.rs) *)

Record RegisteredNode := mkNode { rn_address : Address; tickets : list Z }.

Record WinnerTicket := mkWinner { w_address : Address; ticket_id : Z; score : Z }.

Global Instance WinnerTicket_eq_dec : EqDecision WinnerTicket.
Proof. solve_decision. Defined.

Inductive SortitionError := NoTickets | NoWinningTicket | InvalidE3id | MissingOwner.

(** [score < cur.score || (score == cur.score && ticket_id < cur.ticket_id)] *)
Definition better (sc tid : Z) (cur : WinnerTicket) : bool :=
  (sc <? score cur) || ((sc =? score cur) && (tid <? ticket_id cur)).

Section Scores.
Context `{AlloyOps}.

(** The seed is its 32 bytes; [U256::from_le_bytes] reads them backwards. *)
Definition hash_to_score (address : Address) (tid : Z) (e3 : E3id) (seed : list Z)
    : result Z SortitionError :=
  match u256_from_decimal (e3_num e3) with
  | None => Err InvalidE3id
  | Some e3_u256 =>
      Ok (keccak256 (abi_encode_packed
        [AbiAddress address; AbiUint tid; AbiUint e3_u256; AbiUint (from_be_bytes (rev seed))]))
  end.

(** The loop over the tickets of one node. *)
Fixpoint best_ticket_loop (e3 : E3id) (seed : list Z) (address : Address)
    (best : option WinnerTicket) (ts : list Z) : result (option WinnerTicket) SortitionError :=
  match ts with
  | [] => Ok best
  | tid :: rest =>
      let? sc := hash_to_score address tid e3 seed in
      best_ticket_loop e3 seed address
        (match best with
         | None => Some (mkWinner address tid sc)
         | Some cur => if better sc tid cur then Some (mkWinner address tid sc) else Some cur
         end) rest
  end.

Definition calculate_best_ticket_for_node (e3 : E3id) (seed : list Z) (n : RegisteredNode)
    : result WinnerTicket SortitionError :=
  match tickets n with
  | [] => Err NoTickets
  | _ =>
      let? best := best_ticket_loop e3 seed (rn_address n) None (tickets n) in
      match best with Some w => Ok w | None => Err NoWinningTicket end
  end.

(** ** Committee selection (ticket_selection.rs) *)

(** The loop that keeps the best ticket of every address. *)
Fixpoint best_map_loop (e3 : E3id) (seed : list Z) (best_map : gmap Address WinnerTicket)
    (nodes : list RegisteredNode) : result (gmap Address WinnerTicket) SortitionError :=
  match nodes with
  | [] => Ok best_map
  | n :: rest =>
      match tickets n with
      | [] => best_map_loop e3 seed best_map rest
      | _ =>
          let? w := calculate_best_ticket_for_node e3 seed n in
          best_map_loop e3 seed
            (match best_map !! w_address w with
             | None => <[w_address w := w]> best_map
             | Some cur =>
                 if better (score w) (ticket_id w) cur
                 then <[w_address w := w]> best_map else best_map
             end) rest
      end
  end.

(** The order of the committee: score, ticket id, address. *)
Definition winner_le (a b : WinnerTicket) : Prop :=
  score a < score b ∨ (score a = score b ∧
    (ticket_id a < ticket_id b ∨ (ticket_id a = ticket_id b ∧ w_address a <= w_address b))).
Global Instance winner_le_dec : RelDecision winner_le.
Proof using Type. intros a b. unfold winner_le. apply _. Defined.

Definition get_committee (size : nat) (e3 : E3id) (seed : list Z) (nodes : list RegisteredNode)
    : result (list WinnerTicket) SortitionError :=
  match nodes, size with
  | [], _ | _, O => Ok []
  | _, _ =>
      let? best_map := best_map_loop e3 seed ∅ nodes in
      let items := merge_sort winner_le (snd <$> map_to_list best_map) in
      Ok (take (Nat.min size (length items)) items)
  end.

(** The order of the owner shortlist: score, then address. *)
Definition operator_le (a b : WinnerTicket) : Prop :=
  score a < score b ∨ (score a = score b ∧ w_address a <= w_address b).
Global Instance operator_le_dec : RelDecision operator_le.
Proof using Type. intros a b. unfold operator_le. apply _. Defined.

Notation Rank := (nat * nat)%type.

Definition rank_le (a b : Rank * WinnerTicket) : Prop :=
  (a.1.1 < b.1.1)%nat ∨ (a.1.1 = b.1.1 ∧ (a.1.2 <= b.1.2)%nat).
Global Instance rank_le_dec : RelDecision rank_le.
Proof using Type. intros a b. unfold rank_le. apply _. Defined.

(** The loop over the ranked operators: [groups] maps an owner to its rank and the number of
    its candidates so far. *)
Fixpoint owner_loop (size : nat) (owners : gmap Address Address)
    (groups : gmap Address (nat * nat)) (candidates : list (Rank * WinnerTicket))
    (winners : list WinnerTicket) : result (list (Rank * WinnerTicket)) SortitionError :=
  match winners with
  | [] => Ok candidates
  | w :: rest =>
      match owners !! w_address w with
      | None => Err MissingOwner
      | Some owner =>
          let next_rank := base.size groups in
          let '(owner_rank, member_rank) := default (next_rank, O) (groups !! owner) in
          if (owner_rank <? size)%nat then
            owner_loop size owners (<[owner := (owner_rank, S member_rank)]> groups)
              (candidates ++ [((member_rank, owner_rank), w)]) rest
          else
            owner_loop size owners (<[owner := (owner_rank, member_rank)]> groups) candidates rest
      end
  end.

Definition get_owner_candidates (size : nat) (e3 : E3id) (seed : list Z)
    (nodes : list RegisteredNode) (owners : gmap Address Address)
    : result (list WinnerTicket) SortitionError :=
  let? winners0 := get_committee (length nodes) e3 seed nodes in
  let winners := merge_sort operator_le winners0 in
  let? candidates := owner_loop size owners ∅ [] winners in
  Ok (snd <$> merge_sort rank_le candidates).

End Scores.

(** ** The candidate buffer *)

Definition f64_of_usize (n : Z) : spec_float := binary_normalize 53 1024 n 0 false.
Definition f64_0_8 : spec_float := S754_finite false 7205759403792794 (-53).
Definition f64_0_6 : spec_float := S754_finite false 5404319552844595 (-53).

Definition calculate_buffer_size (threshold_m threshold_n : Z) : Z :=
  if threshold_n =? 0 then 0
  else
    let base_buffer := saturating_sub threshold_n threshold_m in
    let ratio := SFdiv 53 1024 (f64_of_usize threshold_m) (f64_of_usize threshold_n) in
    let safety_margin :=
      if SFleb f64_0_8 ratio then 3 else if SFleb f64_0_6 ratio then 2 else 1 in
    base_buffer + safety_margin.

(** ** Lemmas *)

Global Instance winner_le_trans : Transitive winner_le.
Proof. intros a b c. unfold winner_le. lia. Qed.
Global Instance winner_le_total : Total winner_le.
Proof. intros a b. unfold winner_le. lia. Qed.
Global Instance winner_le_antisym : AntiSymm eq winner_le.
Proof.
  intros [a1 a2 a3] [b1 b2 b3]. unfold winner_le. simpl. intros.
  assert (a1 = b1 ∧ a2 = b2 ∧ a3 = b3) by lia. naive_solver.
Qed.
Global Instance winner_le_refl : Reflexive winner_le.
Proof. intros a. unfold winner_le. lia. Qed.

Global Instance rank_le_total : Total rank_le.
Proof. intros a b. unfold rank_le. lia. Qed.
Global Instance rank_le_trans : Transitive rank_le.
Proof. intros a b c. unfold rank_le. lia. Qed.
Global Instance operator_le_total : Total operator_le.
Proof. intros a b. unfold operator_le. lia. Qed.
Global Instance operator_le_trans : Transitive operator_le.
Proof. intros a b c. unfold operator_le. lia. Qed.

(** [better] compares a ticket with the best one of the same address. *)
Lemma better_spec (w cur : WinnerTicket) :
  w_address w = w_address cur →
  if better (score w) (ticket_id w) cur then winner_le w cur ∧ w ≠ cur else winner_le cur w.
Proof.
  intros Ha. unfold better, winner_le.
  destruct (Z.ltb_spec (score w) (score cur)); simpl; [split; [lia|intros ->; lia]|].
  destruct (Z.eqb_spec (score w) (score cur)); simpl; [|lia].
  destruct (Z.ltb_spec (ticket_id w) (ticket_id cur)); [split; [lia|intros ->; lia]|lia].
Qed.

Section Selection.
Context `{AlloyOps}.
Context (e3 : E3id) (seed : list Z) (e3_u256 : Z).
Context (He3 : u256_from_decimal (e3_num e3) = Some e3_u256).

Definition ticket_score (address tid : Z) : Z :=
  keccak256 (abi_encode_packed
    [AbiAddress address; AbiUint tid; AbiUint e3_u256; AbiUint (from_be_bytes (rev seed))]).

Definition scored (address tid : Z) : WinnerTicket :=
  mkWinner address tid (ticket_score address tid).

Lemma hash_to_score_eq address tid :
  hash_to_score address tid e3 seed = Ok (ticket_score address tid).
Proof using He3. unfold hash_to_score. by rewrite He3. Qed.

(** The least of a candidate set: a member that is below all members. *)
Definition least (P : WinnerTicket → Prop) (w : WinnerTicket) : Prop :=
  P w ∧ ∀ w', P w' → winner_le w w'.

Lemma least_unique P w w' : least P w → least P w' → w = w'.
Proof. intros [H1 H2] [H3 H4]. apply (anti_symm winner_le); auto. Qed.

Lemma best_ticket_loop_least address ts best :
  (∀ w, best = Some w → w_address w = address) →
  ∃ r, best_ticket_loop e3 seed address best ts = Ok r ∧
    (r = None ↔ best = None ∧ ts = []) ∧
    ∀ w, r = Some w → w_address w = address ∧
      least (λ x, best = Some x ∨ ∃ tid, tid ∈ ts ∧ x = scored address tid) w.
Proof using He3.
  revert best. induction ts as [|tid ts IH]; intros best Hb; simpl.
  { exists best. split_and!; [done|naive_solver|]. intros w ->. split; [by apply Hb|].
    split; [by left|]. intros w' [[= ->]|(tid & Hin & _)]; [done|by apply not_elem_of_nil in Hin]. }
  rewrite hash_to_score_eq. fold (scored address tid).
  set (best' := match best with None => _ | _ => _ end).
  assert (∃ b, best' = Some b ∧ w_address b = address ∧
    least (λ x, best = Some x ∨ x = scored address tid) b) as (b & Eb & Hba & Hleast).
  { subst best'. destruct best as [cur|].
    - specialize (Hb cur eq_refl). pose proof (better_spec (scored address tid) cur) as Hbs.
      simpl in Hbs. rewrite Hb in Hbs. specialize (Hbs eq_refl).
      destruct (better _ _ _); eexists; (split; [done|]); (split; [done|]).
      + destruct Hbs as [Hle _]. split; [by right|]. intros w' [[= <-]| ->]; done.
      + split; [by left|]. intros w' [[= <-]| ->]; done.
    - exists (scored address tid). split_and!; [done..|]. split; [by right|].
      intros w' [?| ->]; done. }
  rewrite Eb. destruct (IH (Some b)) as (r & Er & Hn & Hr); [naive_solver|].
  exists r. split_and!; [done| |].
  - rewrite Hn. split; [by intros [? _]|by intros [_ ?]].
  - intros w Hw. destruct (Hr w Hw) as [Ha [Hin Hmin]]. split; [done|].
    destruct Hleast as [Hbin Hbmin]. split.
    + destruct Hin as [[= <-]|(t & Ht & ->)].
      * destruct Hbin as [?| ->]; [by left|]. right. exists tid. split; [apply list_elem_of_here|done].
      * right. exists t. split; [by apply list_elem_of_further|done].
    + intros w' [Hw'|(t & [->|Ht]%elem_of_cons & ->)].
      * etransitivity; [apply Hmin; by left|]. apply Hbmin. by left.
      * etransitivity; [apply Hmin; by left|]. apply Hbmin. by right.
      * apply Hmin. right. eauto.
Qed.

Lemma calculate_best_ticket_least n :
  tickets n ≠ [] →
  ∃ w, calculate_best_ticket_for_node e3 seed n = Ok w ∧ w_address w = rn_address n ∧
    least (λ x, ∃ tid, tid ∈ tickets n ∧ x = scored (rn_address n) tid) w.
Proof using He3.
  intros Hn. unfold calculate_best_ticket_for_node.
  destruct (best_ticket_loop_least (rn_address n) (tickets n) None) as (r & Er & Hnone & Hr); [done|].
  destruct (tickets n) as [|t ts] eqn:Et; [done|]. rewrite <-Et in *. rewrite Er.
  destruct r as [w|]; [|naive_solver].
  destruct (Hr w eq_refl) as [Ha [Hin Hmin]]. exists w. split_and!; [done..|].
  split; [naive_solver|]. intros w' Hw'. apply Hmin. by right.
Qed.

(** The candidates of an address among the nodes. *)
Definition candidate (nodes : list RegisteredNode) (a : Address) (w : WinnerTicket) : Prop :=
  ∃ n tid, n ∈ nodes ∧ rn_address n = a ∧ tid ∈ tickets n ∧ w = scored a tid.

Definition best_of (nodes : list RegisteredNode) (a : Address) : WinnerTicket → Prop :=
  least (candidate nodes a).

(** Replacing a set by its dominating members does not change the least element. *)
Lemma least_absorb (P Q R : WinnerTicket → Prop) x :
  (∀ y, R y → P y) → (∀ y, P y → ∃ z, R z ∧ winner_le z y) →
  least (λ y, R y ∨ Q y) x ↔ least (λ y, P y ∨ Q y) x.
Proof using Type.
  intros Hsub Hdom. split.
  - intros [Hx Hmin]. split; [naive_solver|]. intros y [Hy|Hy]; [|auto].
    destruct (Hdom y Hy) as (z & Hz & Hle). etransitivity; [|exact Hle]. auto.
  - intros [Hx Hmin]. split; [|naive_solver]. destruct Hx as [Hx|Hx]; [|by right]. left.
    destruct (Hdom x Hx) as (z & Hz & Hle).
    assert (x = z) as -> by (apply (anti_symm winner_le); auto). done.
Qed.

Definition keep_best (m : gmap Address WinnerTicket) (w : WinnerTicket) :=
  match m !! w_address w with
  | None => <[w_address w := w]> m
  | Some cur =>
      if better (score w) (ticket_id w) cur then <[w_address w := w]> m else m
  end.

Lemma keep_best_spec m w :
  (∀ a x, m !! a = Some x → w_address x = a) →
  (∀ a x, keep_best m w !! a = Some x → w_address x = a) ∧
  (∀ a x, keep_best m w !! a = Some x → m !! a = Some x ∨ (a = w_address w ∧ x = w)) ∧
  (∀ a x, m !! a = Some x → ∃ z, keep_best m w !! a = Some z ∧ winner_le z x) ∧
  (∃ z, keep_best m w !! w_address w = Some z ∧ winner_le z w).
Proof using Type.
  intros Hm. unfold keep_best. destruct (m !! w_address w) as [cur|] eqn:Hcur.
  - pose proof (better_spec w cur) as Hb. rewrite (Hm _ _ Hcur) in Hb. specialize (Hb eq_refl).
    destruct (better _ _ _).
    + destruct Hb as [Hle _]. split_and!.
      * intros a x. rewrite lookup_insert_Some. naive_solver.
      * intros a x. rewrite lookup_insert_Some. naive_solver.
      * intros a x Hx. destruct (decide (a = w_address w)) as [->|Hne].
        -- rewrite lookup_insert_eq. rewrite Hcur in Hx. injection Hx as <-. by exists w.
        -- rewrite lookup_insert_ne by done. by exists x.
      * rewrite lookup_insert_eq. by exists w.
    + split_and!; [done|by auto| |by exists cur]. intros a x Hx. by exists x.
  - split_and!.
    + intros a x. rewrite lookup_insert_Some. naive_solver.
    + intros a x. rewrite lookup_insert_Some. naive_solver.
    + intros a x Hx. rewrite lookup_insert_ne by congruence. by exists x.
    + rewrite lookup_insert_eq. by exists w.
Qed.

Lemma candidate_cons n nodes a x :
  candidate (n :: nodes) a x ↔
  (∃ tid, rn_address n = a ∧ tid ∈ tickets n ∧ x = scored a tid) ∨ candidate nodes a x.
Proof using Type.
  unfold candidate. split.
  - intros (n' & tid & [->|Hn']%elem_of_cons & Ha & Htid & ->); [left|right]; eauto 10.
  - intros [(tid & Ha & Htid & ->)|(n' & tid & Hn' & Ha & Htid & ->)].
    + exists n, tid. split; [apply list_elem_of_here|done].
    + exists n', tid. split; [by apply list_elem_of_further|done].
Qed.

Lemma best_map_loop_spec nodes m :
  (∀ a w, m !! a = Some w → w_address w = a) →
  ∃ m', best_map_loop e3 seed m nodes = Ok m' ∧
    (∀ a w, m' !! a = Some w → w_address w = a) ∧
    ∀ a w, m' !! a = Some w ↔ least (λ x, m !! a = Some x ∨ candidate nodes a x) w.
Proof using He3.
  revert m. induction nodes as [|n nodes IH]; intros m Hm; simpl.
  { exists m. split_and!; [done..|]. intros a w. split.
    - intros Hw. split; [by left|]. intros w' [Hw'|(? & ? & Hin & _)];
        [by simplify_eq|by apply not_elem_of_nil in Hin].
    - intros [[?|(? & ? & Hin & _)] _]; [done|by apply not_elem_of_nil in Hin]. }
  destruct (decide (tickets n = [])) as [Ht|Ht].
  { rewrite Ht. destruct (IH m Hm) as (m' & E & Hk & Hs). exists m'. split_and!; [done..|].
    intros a w. rewrite Hs. unfold least.
    assert (∀ x, candidate (n :: nodes) a x ↔ candidate nodes a x) as Hc.
    { intros x. rewrite candidate_cons, Ht. split; [|auto].
      intros [(? & _ & Hin & _)|?]; [by apply not_elem_of_nil in Hin|done]. }
    naive_solver. }
  destruct (calculate_best_ticket_least n Ht) as (w & Ew & Ha & [(tw & Htw & Hw) Hmin]).
  destruct (tickets n) as [|t ts] eqn:Et; [done|]. rewrite <-Et in *. rewrite Ew.
  fold (keep_best m w). destruct (keep_best_spec m w Hm) as (Hk & Hsub & Hdom & Hdomw).
  destruct (IH (keep_best m w) Hk) as (m' & E & Hk' & Hs). exists m'. split_and!; [done..|].
  intros a x. rewrite Hs.
  rewrite (least_absorb (λ y, m !! a = Some y ∨
    (∃ tid, rn_address n = a ∧ tid ∈ tickets n ∧ y = scored a tid))).
  - unfold least. setoid_rewrite candidate_cons. naive_solver.
  - intros y [?|[-> ->]]%Hsub; [by left|]. right. exists tw. rewrite Ha. done.
  - intros y [Hy|(tid & <- & Hin & ->)]; [by eauto|]. rewrite <-Ha.
    destruct Hdomw as (z & Hz & Hle). exists z. split; [done|]. etransitivity; [exact Hle|].
    rewrite Ha. apply Hmin. eauto.
Qed.

(** All winners of a node set, in committee order; a committee is a prefix of them. *)
Lemma committee_items nodes :
  ∃ items, (∀ size, get_committee size e3 seed nodes = Ok (take size items)) ∧
    StronglySorted winner_le items ∧ NoDup (w_address <$> items) ∧
    ∀ w, w ∈ items ↔ best_of nodes (w_address w) w.
Proof using He3.
  destruct (best_map_loop_spec nodes ∅) as (m & Em & Hk & Hs).
  { intros a w. by rewrite lookup_empty. }
  exists (merge_sort winner_le (snd <$> map_to_list m)).
  assert (∀ w, w ∈ merge_sort winner_le (snd <$> map_to_list m) ↔ best_of nodes (w_address w) w)
    as Helem.
  { intros w. rewrite merge_sort_Permutation, list_elem_of_fmap. split.
    - intros ([a w'] & -> & Hin). simpl. apply elem_of_map_to_list in Hin.
      pose proof (Hk _ _ Hin) as <-. apply Hs in Hin. unfold best_of, least in *.
      setoid_rewrite lookup_empty in Hin. naive_solver.
    - intros Hb. exists (w_address w, w). split; [done|]. apply elem_of_map_to_list, Hs.
      unfold best_of, least in *. setoid_rewrite lookup_empty. naive_solver. }
  split_and!; [|by apply StronglySorted_merge_sort; apply _| |done].
  - intros size. unfold get_committee. destruct nodes as [|n nodes]; [|destruct size].
    + destruct (merge_sort _ _) as [|w l] eqn:E; [by rewrite take_nil|]. exfalso.
      assert (w ∈ w :: l) as Hw by apply list_elem_of_here.
      apply Helem in Hw as [(? & ? & Hin & _) _]. by apply not_elem_of_nil in Hin.
    + done.
    + rewrite Em. f_equal. destruct (Nat.min_spec (S size)
        (length (merge_sort winner_le (snd <$> map_to_list m)))) as [[_ ->]|[Hle ->]]; [done|].
      by rewrite !take_ge.
  - rewrite merge_sort_Permutation, <-list_fmap_compose.
    rewrite (list_fmap_ext _ fst); [apply NoDup_fst_map_to_list|].
    intros i [a w] Hi. apply list_elem_of_lookup_2, elem_of_map_to_list in Hi. simpl.
    by apply Hk.
Qed.

Lemma best_of_perm nodes nodes' a w :
  (∀ n, n ∈ nodes ↔ n ∈ nodes') → best_of nodes a w ↔ best_of nodes' a w.
Proof using Type.
  intros Hp. unfold best_of, least, candidate. setoid_rewrite Hp. done.
Qed.

Lemma sorted_winners_unique l l' :
  StronglySorted winner_le l → StronglySorted winner_le l' → NoDup l → NoDup l' →
  (∀ w, w ∈ l ↔ w ∈ l') → l = l'.
Proof using Type.
  intros. apply (Sorted_unique winner_le); [by apply StronglySorted_Sorted..|].
  by apply NoDup_Permutation.
Qed.

Lemma StronglySorted_app_le {A} (R : relation A) l1 l2 x y :
  StronglySorted R (l1 ++ l2) → x ∈ l1 → y ∈ l2 → R x y.
Proof using Type.
  induction l1 as [|z l1 IH]; simpl; [by intros _ ?%not_elem_of_nil|].
  intros Hs. inversion Hs as [|?? Hs' Hall]; subst. intros [->|Hx]%elem_of_cons Hy; [|by auto].
  rewrite Forall_forall in Hall. apply Hall, elem_of_app. by right.
Qed.

End Selection.

(** ** Theorems *)

(** The best ticket of a node is the least by (score, ticket id) among its tickets, with
    its own score, and a node without tickets is an error. *)
Theorem best_ticket_is_least `{AlloyOps} (e3 : E3id) (seed : list Z) (n : RegisteredNode)
    (e3_u256 : Z) :
  u256_from_decimal (e3_num e3) = Some e3_u256 →
  match calculate_best_ticket_for_node e3 seed n with
  | Ok w =>
      w_address w = rn_address n ∧ ticket_id w ∈ tickets n ∧
      hash_to_score (rn_address n) (ticket_id w) e3 seed = Ok (score w) ∧
      ∀ tid sc, tid ∈ tickets n → hash_to_score (rn_address n) tid e3 seed = Ok sc →
        score w < sc ∨ (score w = sc ∧ ticket_id w <= tid)
  | Err e => e = NoTickets ∧ tickets n = []
  end.
Proof.
  intros He. destruct (decide (tickets n = [])) as [Hn|Hn].
  { unfold calculate_best_ticket_for_node. by rewrite Hn. }
  destruct (calculate_best_ticket_least e3 seed e3_u256 He n Hn) as (w & -> & Ha & [(t & Ht & ->) Hmin]).
  split_and!; [done|done|by apply hash_to_score_eq|].
  intros tid sc Htid Hsc. rewrite (hash_to_score_eq e3 seed e3_u256 He) in Hsc.
  injection Hsc as <-. pose proof (Hmin (scored seed e3_u256 (rn_address n) tid)) as Hle.
  unfold winner_le in Hle. simpl in *. destruct Hle; [eauto|lia..].
Qed.

(** C30: every node selects the same committee: selection succeeds whenever the E3 id is a
    number, does not depend on the order (or repetition) in which nodes are stored, gives each
    address at most one seat, by its best ticket, in committee order, leaves out an eligible
    address only when all seats are taken by better tickets, and a smaller committee is a
    prefix of a larger one. *)
Theorem committee_is_top_n `{AlloyOps} (size : nat) (e3 : E3id) (seed : list Z)
    (nodes nodes' : list RegisteredNode) (e3_u256 : Z) :
  u256_from_decimal (e3_num e3) = Some e3_u256 →
  (∀ n, n ∈ nodes ↔ n ∈ nodes') →
  ∃ c, get_committee size e3 seed nodes = Ok c ∧ get_committee size e3 seed nodes' = Ok c ∧
    StronglySorted winner_le c ∧ NoDup (w_address <$> c) ∧ (length c <= size)%nat ∧
    (∀ w, w ∈ c → best_of seed e3_u256 nodes (w_address w) w) ∧
    (∀ w, best_of seed e3_u256 nodes (w_address w) w → w ∉ c →
       length c = size ∧ ∀ w', w' ∈ c → winner_le w' w) ∧
    ∀ k, (k <= size)%nat → get_committee k e3 seed nodes = Ok (take k c).
Proof.
  intros He Hp.
  destruct (committee_items e3 seed e3_u256 He nodes) as (l & Hl & Hs & Hnd & Hin).
  destruct (committee_items e3 seed e3_u256 He nodes') as (l' & Hl' & Hs' & Hnd' & Hin').
  assert (l = l') as <-.
  { apply sorted_winners_unique; [done..|by eapply NoDup_fmap_1|by eapply NoDup_fmap_1|].
    intros w. rewrite Hin, Hin'. by apply best_of_perm. }
  exists (take size l). split_and!; [done|done|..].
  - rewrite <-(take_drop size l) in Hs. by apply StronglySorted_app_1_l in Hs.
  - rewrite fmap_take. by eapply sublist_NoDup; [exact Hnd|apply sublist_take].
  - rewrite length_take. lia.
  - intros w Hw. apply Hin. rewrite <-(take_drop size l). apply elem_of_app. by left.
  - intros w Hb Hn. apply Hin in Hb. rewrite <-(take_drop size l) in Hb.
    apply elem_of_app in Hb as [?|Hb]; [done|]. split.
    + rewrite length_take. enough (size < length l)%nat by lia.
      destruct (decide (size < length l)%nat) as [?|Hge]; [done|].
      rewrite drop_ge in Hb by lia. by apply not_elem_of_nil in Hb.
    + intros w' Hw'. eapply StronglySorted_app_le; [|exact Hw'|exact Hb]. by rewrite take_drop.
  - intros k Hk. rewrite Hl, take_take. by rewrite Nat.min_l.
Qed.
