(* ===== verification/OwnerShortlist.v ===== *)
(** * The owner shortlist of the sortition

    Correctness of [get_owner_candidates] (crates/orchestration/sortition/src/
    ticket_selection.rs): which owners are shortlisted, which operators are kept as fallbacks
    and in which order they are ranked. *)

From S2P Require Import Prelude Events AlloyExample Sortition.
Open Scope Z_scope.

Section OwnerLoop.
Context (size : nat) (owners : gmap Address Address).

Definition owner_of (w : WinnerTicket) : Address := default 0 (owners !! w_address w).

Notation Group := (nat * nat)%type.
Notation Ranked := (nat * nat * WinnerTicket)%type.

(** What holds after the operators [p] were visited in order. *)
Record visited (groups : gmap Address Group) (cs : list Ranked) (p : list WinnerTicket) : Prop := {
  v_rank : ∀ o r c, groups !! o = Some (r, c) → (r < base.size groups)%nat;
  v_inj : ∀ o o' r c c', groups !! o = Some (r, c) → groups !! o' = Some (r, c') → o = o';
  v_surj : ∀ r, (r < base.size groups)%nat → ∃ o c, groups !! o = Some (r, c);
  v_known : ∀ w, w ∈ p → is_Some (groups !! owner_of w);
  v_cand : ∀ m r w, ((m, r), w) ∈ cs →
    w ∈ p ∧ (r < size)%nat ∧ ∃ c, groups !! owner_of w = Some (r, c) ∧ (m < c)%nat;
  v_kept : ∀ w r c, w ∈ p → groups !! owner_of w = Some (r, c) → (r < size)%nat →
    ∃ m, ((m, r), w) ∈ cs;
  v_first : ∀ o r c, groups !! o = Some (r, c) → (r < size)%nat →
    ∃ w, ((O, r), w) ∈ cs ∧ owner_of w = o ∧ ∀ w', w' ∈ p → owner_of w' = o → operator_le w w';
  v_order : ∀ w w' r r' c, w ∈ p → groups !! owner_of w = Some (r, c) →
    ((O, r'), w') ∈ cs → (r' < r)%nat → operator_le w' w;
  v_keys : NoDup cs.*1;
  v_sub : cs.*2 `sublist_of` p }.

Lemma visited_nil : visited ∅ [] [].
Proof using Type.
  constructor; try (intros *; rewrite lookup_empty; done);
    try (intros *; rewrite map_size_empty; lia);
    try (intros * Hin; by apply not_elem_of_nil in Hin); constructor.
Qed.

(** A further operator of a known owner that is past the shortlist. *)
Lemma visited_skip groups cs p w r c :
  visited groups cs p → groups !! owner_of w = Some (r, c) → (size <= r)%nat →
  (∀ x, x ∈ p → operator_le x w) →
  visited groups cs (p ++ [w]).
Proof using Type.
  intros [] Hg Hr Hle. constructor; try done.
  - intros x [Hx| ->%list_elem_of_singleton]%elem_of_app; [auto|by eexists].
  - intros m r' x Hx. destruct (v_cand0 m r' x Hx) as (? & ? & ?).
    split_and!; [apply elem_of_app; by left|done..].
  - intros x r' c' [Hx| ->%list_elem_of_singleton]%elem_of_app Hg' Hr'; [by eauto|].
    rewrite Hg in Hg'. injection Hg' as -> ->. lia.
  - intros o r' c' Hg' Hr'. destruct (v_first0 o r' c' Hg' Hr') as (x & Hx & <- & Hmin).
    exists x. split_and!; [done..|].
    intros y [Hy| ->%list_elem_of_singleton]%elem_of_app E; [auto|].
    rewrite <-E, Hg in Hg'. injection Hg' as -> ->. lia.
  - intros x y r' r'' c' [Hx| ->%list_elem_of_singleton]%elem_of_app Hg' Hy Hlt; [by eauto|].
    apply Hle. by destruct (v_cand0 _ _ _ Hy).
  - by apply sublist_inserts_r.
Qed.

(** An operator of a new owner, past the shortlist. *)
Lemma visited_skip_new groups cs p w :
  visited groups cs p → groups !! owner_of w = None → (size <= base.size groups)%nat →
  (∀ x, x ∈ p → operator_le x w) →
  visited (<[owner_of w := (base.size groups, O)]> groups) cs (p ++ [w]).
Proof using Type.
  intros [] Hg Hsz Hle.
  assert (∀ x, x ∈ p → owner_of x ≠ owner_of w) as Hne.
  { intros x Hx E. destruct (v_known0 x Hx). congruence. }
  assert (∀ m r x, ((m, r), x) ∈ cs → x ∈ p) as Hcp by (intros; by eapply v_cand0).
  constructor; rewrite ?map_size_insert_None by done.
  - intros o r c. rewrite lookup_insert_Some. intros [[_ [= <- _]]|[_ Ho]]; [lia|].
    apply v_rank0 in Ho. lia.
  - intros o o' r c c'. rewrite !lookup_insert_Some.
    intros [[<- [= <- _]]|[_ Ho]] [[<- E]|[_ Ho']]; [done| | |by eauto].
    + apply v_rank0 in Ho'. lia.
    + injection E as <- _. apply v_rank0 in Ho. lia.
  - intros r Hr. destruct (decide (r = base.size groups)) as [->|Hn].
    + exists (owner_of w), O. by rewrite lookup_insert_eq.
    + destruct (v_surj0 r) as (o & c & Ho); [lia|]. exists o, c.
      rewrite lookup_insert_ne; [done|]. congruence.
  - intros x [Hx| ->%list_elem_of_singleton]%elem_of_app.
    + rewrite lookup_insert_ne by (by apply not_eq_sym, Hne). auto.
    + rewrite lookup_insert_eq. by eexists.
  - intros m r x Hx. destruct (v_cand0 m r x Hx) as (Hp & ? & c & ? & ?).
    split_and!; [apply elem_of_app; by left|done|]. exists c.
    by rewrite lookup_insert_ne by (by apply not_eq_sym, Hne).
  - intros x r c [Hx| ->%list_elem_of_singleton]%elem_of_app.
    + rewrite lookup_insert_ne by (by apply not_eq_sym, Hne). eauto.
    + rewrite lookup_insert_eq. intros [= <- _] ?. lia.
  - intros o r c. rewrite lookup_insert_Some. intros [[_ [= <- _]]|[Hn Ho]] Hr; [lia|].
    destruct (v_first0 o r c Ho Hr) as (x & Hx & <- & Hmin). exists x. split_and!; [done..|].
    intros y [Hy| ->%list_elem_of_singleton]%elem_of_app E; [auto|]. by destruct Hn.
  - intros x y r r' c [Hx| ->%list_elem_of_singleton]%elem_of_app.
    + rewrite lookup_insert_ne by (by apply not_eq_sym, Hne). eauto.
    + intros _ Hy _. apply Hle. eauto.
  - done.
  - by apply sublist_inserts_r.
Qed.

(** A further operator of a shortlisted owner. *)
Lemma visited_add_old groups cs p w r m :
  visited groups cs p → groups !! owner_of w = Some (r, m) → (r < size)%nat →
  (∀ x, x ∈ p → operator_le x w) →
  visited (<[owner_of w := (r, S m)]> groups) (cs ++ [((m, r), w)]) (p ++ [w]).
Proof using Type.
  intros [] Hg Hr Hle.
  assert (∀ m r x, ((m, r), x) ∈ cs → x ∈ p) as Hcp by (intros; by eapply v_cand0).
  assert (∀ o r' c', <[owner_of w := (r, S m)]> groups !! o = Some (r', c') →
    ∃ c, groups !! o = Some (r', c) ∧ (c <= c')%nat) as Hold.
  { intros o r' c'. rewrite lookup_insert_Some. intros [[<- [= <- <-]]|[_ Ho]]; eauto. }
  assert (∀ o r' c, groups !! o = Some (r', c) →
    ∃ c', <[owner_of w := (r, S m)]> groups !! o = Some (r', c') ∧ (c <= c')%nat) as Hnew.
  { intros o r' c Ho. destruct (decide (o = owner_of w)) as [->|Hn].
    - rewrite lookup_insert_eq. rewrite Hg in Ho. injection Ho as -> ->. eauto.
    - rewrite lookup_insert_ne by done. eauto. }
  destruct (v_first0 _ _ _ Hg Hr) as (x0 & Hx0 & Eo & Hmin0).
  constructor; rewrite ?map_size_insert_Some by (by eexists).
  - intros o r' c (c' & Ho & _)%Hold. eauto.
  - intros o o' r' c c' (d & Ho & _)%Hold (d' & Ho' & _)%Hold. eauto.
  - intros r' (o & c & Ho)%v_surj0. destruct (Hnew _ _ _ Ho) as (c' & ? & _). eauto.
  - intros x [Hx| ->%list_elem_of_singleton]%elem_of_app; [|rewrite lookup_insert_eq; by eexists].
    destruct (v_known0 x Hx) as [[r' c] Hc]. destruct (Hnew _ _ _ Hc) as (c' & ? & _). by eexists.
  - intros m' r' x [Hx|[= -> -> ->]%list_elem_of_singleton]%elem_of_app.
    + destruct (v_cand0 m' r' x Hx) as (Hp & ? & c & Hc & ?).
      split_and!; [apply elem_of_app; by left|done|].
      destruct (Hnew _ _ _ Hc) as (c' & ? & ?). exists c'. split; [done|lia].
    + split_and!; [apply elem_of_app; right; by apply list_elem_of_singleton|done|].
      exists (S m). rewrite lookup_insert_eq. split; [done|lia].
  - intros x r' c [Hx| ->%list_elem_of_singleton]%elem_of_app (c' & Ho & _)%Hold Hr'.
    + destruct (v_kept0 _ _ _ Hx Ho Hr') as (m' & ?). exists m'. apply elem_of_app. by left.
    + rewrite Hg in Ho. injection Ho as <- _. exists m. apply elem_of_app. right.
      by apply list_elem_of_singleton.
  - intros o r' c (c' & Ho & _)%Hold Hr'. destruct (v_first0 o r' _ Ho Hr') as (x & Hx & <- & Hmin).
    exists x. split_and!; [apply elem_of_app; by left|done|].
    intros y [Hy| ->%list_elem_of_singleton]%elem_of_app E; [auto|]. apply Hle. eauto.
  - intros x y r' r'' c [Hx| ->%list_elem_of_singleton]%elem_of_app (c' & Ho & _)%Hold
      [Hy|[= <- -> ->]%list_elem_of_singleton]%elem_of_app Hlt.
    + eauto.
    + exfalso. apply v_cand0 in Hx0 as (_ & _ & d & Hd & ?). rewrite Eo, Hg in Hd.
      injection Hd as <-. lia.
    + apply Hle. eauto.
    + rewrite Hg in Ho. injection Ho as <- _. lia.
  - rewrite fmap_app. apply NoDup_app. split_and!; [done| |apply NoDup_singleton].
    intros k Hk ->%list_elem_of_singleton. apply list_elem_of_fmap in Hk as ([[m' r'] x] & [= <- <-] & Hx).
    apply v_cand0 in Hx as (_ & _ & d & Hd & ?). pose proof (v_inj0 _ _ _ _ _ Hg Hd) as E.
    rewrite <-E, Hg in Hd. injection Hd as <-. lia.
  - rewrite fmap_app. by apply sublist_app.
Qed.

(** The first operator of an owner that still fits the shortlist. *)
Lemma visited_add_new groups cs p w :
  visited groups cs p → groups !! owner_of w = None → (base.size groups < size)%nat →
  (∀ x, x ∈ p → operator_le x w) →
  visited (<[owner_of w := (base.size groups, 1%nat)]> groups)
    (cs ++ [((O, base.size groups), w)]) (p ++ [w]).
Proof using Type.
  intros [] Hg Hsz Hle.
  assert (∀ x, x ∈ p → owner_of x ≠ owner_of w) as Hne.
  { intros x Hx E. destruct (v_known0 x Hx). congruence. }
  assert (∀ m r x, ((m, r), x) ∈ cs → x ∈ p ∧ (r < base.size groups)%nat) as Hcp.
  { intros m r x Hx. destruct (v_cand0 _ _ _ Hx) as (? & _ & c & Hc & _). eauto. }
  constructor; rewrite ?map_size_insert_None by done.
  - intros o r c. rewrite lookup_insert_Some. intros [[_ [= <- _]]|[_ Ho]]; [lia|].
    apply v_rank0 in Ho. lia.
  - intros o o' r c c'. rewrite !lookup_insert_Some.
    intros [[<- [= <- _]]|[_ Ho]] [[<- E]|[_ Ho']]; [done| | |by eauto].
    + apply v_rank0 in Ho'. lia.
    + injection E as <- _. apply v_rank0 in Ho. lia.
  - intros r Hr. destruct (decide (r = base.size groups)) as [->|Hn].
    + exists (owner_of w), 1%nat. by rewrite lookup_insert_eq.
    + destruct (v_surj0 r) as (o & c & Ho); [lia|]. exists o, c.
      rewrite lookup_insert_ne; [done|]. congruence.
  - intros x [Hx| ->%list_elem_of_singleton]%elem_of_app.
    + rewrite lookup_insert_ne by (by apply not_eq_sym, Hne). auto.
    + rewrite lookup_insert_eq. by eexists.
  - intros m r x [Hx|[= -> -> ->]%list_elem_of_singleton]%elem_of_app.
    + destruct (v_cand0 m r x Hx) as (Hp & ? & c & ? & ?).
      split_and!; [apply elem_of_app; by left|done|]. exists c.
      by rewrite lookup_insert_ne by (by apply not_eq_sym, Hne).
    + split_and!; [apply elem_of_app; right; by apply list_elem_of_singleton|done|].
      exists 1%nat. rewrite lookup_insert_eq. split; [done|lia].
  - intros x r c [Hx| ->%list_elem_of_singleton]%elem_of_app.
    + rewrite lookup_insert_ne by (by apply not_eq_sym, Hne). intros Ho Hr.
      destruct (v_kept0 _ _ _ Hx Ho Hr) as (m' & ?). exists m'. apply elem_of_app. by left.
    + rewrite lookup_insert_eq. intros [= <- _] ?. exists O. apply elem_of_app. right.
      by apply list_elem_of_singleton.
  - intros o r c. rewrite lookup_insert_Some. intros [[<- [= <- _]]|[Hn Ho]] Hr.
    + exists w. split_and!; [apply elem_of_app; right; by apply list_elem_of_singleton|done|].
      intros y [Hy| ->%list_elem_of_singleton]%elem_of_app E; [|unfold operator_le; lia].
      by destruct (Hne y Hy).
    + destruct (v_first0 o r c Ho Hr) as (x & Hx & <- & Hmin). exists x.
      split_and!; [apply elem_of_app; by left|done|].
      intros y [Hy| ->%list_elem_of_singleton]%elem_of_app E; [auto|]. by destruct Hn.
  - intros x y r r' c [Hx| ->%list_elem_of_singleton]%elem_of_app.
    + rewrite lookup_insert_ne by (by apply not_eq_sym, Hne). intros Ho
        [Hy|[= -> ->]%list_elem_of_singleton]%elem_of_app Hlt; [by eauto|].
      apply v_rank0 in Ho. lia.
    + rewrite lookup_insert_eq. intros [= <- _]
        [Hy|[= -> ->]%list_elem_of_singleton]%elem_of_app Hlt; [|lia].
      apply Hle. by destruct (Hcp _ _ _ Hy).
  - rewrite fmap_app. apply NoDup_app. split_and!; [done| |apply NoDup_singleton].
    intros k Hk ->%list_elem_of_singleton.
    apply list_elem_of_fmap in Hk as ([[m' r'] x] & [= <- <-] & Hx).
    destruct (Hcp _ _ _ Hx). lia.
  - rewrite fmap_app. by apply sublist_app.
Qed.

(** The whole loop. *)
Lemma owner_loop_visited ws : ∀ groups cs p cs',
  visited groups cs p → StronglySorted operator_le (p ++ ws) →
  owner_loop size owners groups cs ws = Ok cs' →
  ∃ groups', visited groups' cs' (p ++ ws) ∧ ∀ w, w ∈ ws → owners !! w_address w = Some (owner_of w).
Proof using Type.
  induction ws as [|w ws IH]; intros groups cs p cs' Hv Hs; simpl.
  { intros [= <-]. exists groups. rewrite app_nil_r. split; [done|].
    by intros w ?%not_elem_of_nil. }
  destruct (owners !! w_address w) as [owner|] eqn:Ho; [|done].
  assert (owner = owner_of w) as -> by (unfold owner_of; by rewrite Ho).
  assert (∀ x, x ∈ p → operator_le x w) as Hle.
  { intros x Hx. eapply StronglySorted_app_le; [exact Hs|done|apply list_elem_of_here]. }
  assert (p ++ w :: ws = (p ++ [w]) ++ ws) as Eapp by (by rewrite <-app_assoc).
  rewrite Eapp in Hs.
  assert (∀ g c, visited g c (p ++ [w]) → owner_loop size owners g c ws = Ok cs' →
    ∃ groups', visited groups' cs' (p ++ w :: ws) ∧
      ∀ x, x ∈ w :: ws → owners !! w_address x = Some (owner_of x)) as Hgo.
  { intros g c Hg Hl. destruct (IH _ _ _ _ Hg Hs Hl) as (g' & Hg' & Hw). exists g'.
    rewrite Eapp. split; [done|]. intros x [->|Hx]%elem_of_cons; [done|auto]. }
  destruct (groups !! owner_of w) as [[r m]|] eqn:Hg; simpl.
  - destruct (Nat.ltb_spec r size).
    + apply Hgo. by apply visited_add_old.
    + apply Hgo. rewrite insert_id by done. by eapply visited_skip.
  - destruct (Nat.ltb_spec (base.size groups) size).
    + apply Hgo. by apply visited_add_new.
    + apply Hgo. by apply visited_skip_new.
Qed.

(** ** The ranked list *)

Definition is_first (x : Ranked) : bool := (x.1.1 =? 0)%nat.

Lemma ranked_split (l : list Ranked) :
  StronglySorted rank_le l →
  l = List.filter is_first l ++ List.filter (λ x, negb (is_first x)) l.
Proof using Type.
  induction 1 as [|x l Hs IH Hall]; [done|]. cbn [List.filter].
  destruct (is_first x) eqn:E; cbn [negb app]; [by f_equal|].
  assert (List.filter is_first l = []) as Hnil.
  { clear Hs IH. induction l as [|y l IH]; [done|]. inversion Hall as [|?? Hxy Hall']; subst.
    cbn [List.filter]. unfold rank_le in Hxy. unfold is_first at 1 in E. apply Nat.eqb_neq in E.
    replace (is_first y) with false by (symmetry; apply Nat.eqb_neq; lia). by apply IH. }
  rewrite Hnil in *. simpl in *. by f_equal.
Qed.

Lemma NoDup_fmap_weaken {A B C} (f : A → B) (g : A → C) (l : list A) :
  NoDup (f <$> l) → (∀ x y, x ∈ l → y ∈ l → g x = g y → f x = f y) → NoDup (g <$> l).
Proof using Type.
  induction l as [|x l IH]; simpl; [constructor|]. rewrite NoDup_cons. intros [Hn Hnd] Hinj.
  constructor.
  - intros (y & E & Hy)%list_elem_of_fmap. apply Hn. apply list_elem_of_fmap. exists y.
    split; [|done]. apply Hinj; [apply list_elem_of_here|by apply list_elem_of_further|done].
  - apply IH; [done|]. intros y z Hy Hz. apply Hinj; by apply list_elem_of_further.
Qed.

Lemma filter_bool_Permutation {A} (f : A → bool) (l l' : list A) :
  l ≡ₚ l' → List.filter f l ≡ₚ List.filter f l'.
Proof using Type.
  induction 1 as [|x l l' _ IH|x y l|l1 l2 l3 _ IH1 _ IH2]; simpl.
  - done.
  - destruct (f x); [by constructor|done].
  - destruct (f x), (f y); (done || constructor).
  - by etransitivity.
Qed.

Lemma elem_of_firsts (l : list Ranked) w :
  w ∈ (List.filter is_first l).*2 ↔ ∃ r, ((O, r), w) ∈ l.
Proof using Type.
  rewrite list_elem_of_fmap. split.
  - intros ([[m r] x] & -> & [Hin Hf]%elem_of_filter_bool). unfold is_first in Hf. simpl in Hf.
    apply Nat.eqb_eq in Hf as ->. eauto.
  - intros (r & Hin). exists ((O, r), w). split; [done|]. by apply elem_of_filter_bool.
Qed.

(** The ranks of the first operators are the ranks below the shortlist size that exist. *)
Lemma firsts_ranks groups cs p :
  visited groups cs p →
  (snd ∘ fst <$> List.filter is_first cs) ≡ₚ seq 0 (Nat.min size (base.size groups)).
Proof using Type.
  intros []. apply NoDup_Permutation.
  - apply (NoDup_fmap_weaken fst).
    + eapply sublist_NoDup; [exact v_keys0|]. apply fmap_sublist. clear.
      induction cs as [|x cs IH]; simpl; [done|]. destruct (is_first x); by constructor.
    + intros [[m r] x] [[m' r'] y] [_ H1]%elem_of_filter_bool [_ H2]%elem_of_filter_bool.
      unfold is_first in *. simpl in *. apply Nat.eqb_eq in H1, H2. naive_solver.
  - apply NoDup_seq.
  - intros r. rewrite elem_of_seq, list_elem_of_fmap. split.
    + intros ([[m r'] x] & -> & [Hin _]%elem_of_filter_bool). simpl.
      destruct (v_cand0 _ _ _ Hin) as (_ & ? & c & Hc & _). apply v_rank0 in Hc. lia.
    + intros [_ Hr]. destruct (v_surj0 r) as (o & c & Ho); [lia|].
      destruct (v_first0 o r c Ho) as (w & Hw & _); [lia|]. exists ((O, r), w). split; [done|].
      by apply elem_of_filter_bool.
Qed.

(** What the shortlist promises, for the operators [ws] in order. *)
Record shortlist_ok (ws cs : list WinnerTicket) (firsts rest : list WinnerTicket) : Prop := {
  sl_split : cs = firsts ++ rest;
  sl_owners : NoDup (owner_of <$> firsts);
  sl_size : (length firsts <= size)%nat;
  sl_best : ∀ w w', w ∈ firsts → w' ∈ ws → owner_of w' = owner_of w → operator_le w w';
  sl_members : ∀ w, w ∈ cs ↔ w ∈ ws ∧ ∃ w', w' ∈ firsts ∧ owner_of w' = owner_of w;
  sl_excluded : ∀ w, w ∈ ws → w ∉ cs →
    length firsts = size ∧ ∀ w', w' ∈ firsts → operator_le w' w }.

Lemma visited_shortlist groups cs ws :
  visited groups cs ws →
  let l := merge_sort rank_le cs in
  shortlist_ok ws l.*2 (List.filter is_first l).*2
    (List.filter (λ x, negb (is_first x)) l).*2.
Proof using Type.
  intros Hv l. pose proof (merge_sort_Permutation rank_le cs) as Hp. fold l in Hp.
  assert (∀ x, x ∈ l ↔ x ∈ cs) as Hin by (intros x; by rewrite Hp).
  assert (List.filter is_first l ≡ₚ List.filter is_first cs) as Hpf.
  { by apply filter_bool_Permutation. }
  assert (length (List.filter is_first l) = Nat.min size (base.size groups)) as Hlen.
  { rewrite Hpf. rewrite <-(length_seq (Nat.min size (base.size groups)) 0).
    rewrite <-(firsts_ranks _ _ _ Hv). by rewrite length_fmap. }
  assert (∀ w r, ((O, r), w) ∈ l → ∃ c, groups !! owner_of w = Some (r, c) ∧ (r < size)%nat) as Hgr.
  { intros w r Hw. apply Hin in Hw. destruct (v_cand _ _ _ Hv _ _ _ Hw) as (_ & ? & c & ? & _). eauto. }
  constructor.
  - rewrite <-fmap_app. f_equal. apply ranked_split. apply StronglySorted_merge_sort; apply _.
  - rewrite <-list_fmap_compose. apply (NoDup_fmap_weaken (snd ∘ fst)).
    + rewrite Hpf, (firsts_ranks _ _ _ Hv). apply NoDup_seq.
    + intros [[m r] x] [[m' r'] y] [H1 F1]%elem_of_filter_bool [H2 F2]%elem_of_filter_bool E.
      unfold is_first in *. simpl in *. apply Nat.eqb_eq in F1 as ->, F2 as ->.
      destruct (Hgr _ _ H1) as (c & Hc & _), (Hgr _ _ H2) as (c' & Hc' & _). congruence.
  - rewrite length_fmap. lia.
  - intros w w' (r & Hw)%elem_of_firsts Hw' E. destruct (Hgr _ _ Hw) as (c & Hc & Hr).
    destruct (v_first _ _ _ Hv _ _ _ Hc Hr) as (x & Hx & Ex & Hmin).
    enough (x = w) as -> by (by apply Hmin).
    pose proof (v_keys _ _ _ Hv) as Hnd. apply Hin in Hw.
    apply list_elem_of_lookup in Hx as [i Hi], Hw as [j Hj].
    assert (i = j) as ->.
    { eapply NoDup_lookup; [exact Hnd| |]; rewrite list_lookup_fmap, ?Hi, ?Hj; done. }
    congruence.
  - intros w. split.
    + intros ([[m r] x] & -> & Hx)%list_elem_of_fmap. simpl. apply Hin in Hx.
      destruct (v_cand _ _ _ Hv _ _ _ Hx) as (Hp' & Hr & c & Hc & _). split; [done|].
      destruct (v_first _ _ _ Hv _ _ _ Hc Hr) as (y & Hy & Ey & _). exists y.
      split; [|done]. apply elem_of_firsts. exists r. by apply Hin.
    + intros [Hw (w' & (r & Hw')%elem_of_firsts & E)]. destruct (Hgr _ _ Hw') as (c & Hc & Hr).
      rewrite E in Hc. destruct (v_kept _ _ _ Hv _ _ _ Hw Hc Hr) as (m & Hm).
      apply list_elem_of_fmap. exists ((m, r), w). split; [done|]. by apply Hin.
  - intros w Hw Hn. destruct (v_known _ _ _ Hv w Hw) as [[r c] Hc].
    assert (size <= r)%nat as Hr.
    { destruct (decide (r < size)%nat) as [Hlt|]; [|lia]. exfalso. apply Hn.
      destruct (v_kept _ _ _ Hv _ _ _ Hw Hc Hlt) as (m & Hm).
      apply list_elem_of_fmap. exists ((m, r), w). split; [done|]. by apply Hin. }
    pose proof (v_rank _ _ _ Hv _ _ _ Hc) as Hrk. split; [rewrite length_fmap; lia|].
    intros w' (r' & Hw')%elem_of_firsts. destruct (Hgr _ _ Hw') as (c' & Hc' & Hr').
    apply (v_order _ _ _ Hv w w' r r' c Hw Hc); [by apply Hin|lia].
Qed.

End OwnerLoop.

Lemma owner_candidates_spec `{AlloyOps} (size : nat) (e3 : E3id) (seed : list Z)
    (nodes : list RegisteredNode) (owners : gmap Address Address) (cs : list WinnerTicket) :
  get_owner_candidates size e3 seed nodes owners = Ok cs →
  ∃ all firsts rest, get_committee (length nodes) e3 seed nodes = Ok all ∧
    (∀ w, w ∈ all → owners !! w_address w = Some (owner_of owners w)) ∧
    shortlist_ok size owners all cs firsts rest.
Proof.
  unfold get_owner_candidates. destruct (get_committee _ _ _ _) as [all|]; [|done].
  destruct (owner_loop _ _ _ _ _) as [l|] eqn:El; [|done]. intros [= <-].
  destruct (owner_loop_visited size owners (merge_sort operator_le all) ∅ [] [] l)
    as (groups & Hv & Hw); [apply visited_nil|by apply StronglySorted_merge_sort; apply _|done|].
  pose proof (visited_shortlist _ _ _ _ _ Hv) as Hs. simpl in Hs.
  exists all. eexists _, _. split; [done|]. split.
  - intros w Hin. apply Hw. by rewrite merge_sort_Permutation.
  - destruct Hs as [S1 S2 S3 S4 S5 S6].
    assert (∀ w, w ∈ merge_sort operator_le all ↔ w ∈ all) as Hm
      by (intros w; by rewrite merge_sort_Permutation).
    constructor; [exact S1|exact S2|exact S3|..].
    + intros w w' ? ?%Hm. by apply S4.
    + intros w. rewrite <-Hm. apply S5.
    + intros w ?%Hm. by apply S6.
Qed.

(** C31: the owner shortlist spreads seats over owners: the candidates are the operators of the
    [size] best owners (all owners when there are fewer); they begin with one operator per
    shortlisted owner, its best one, and keep every other operator of those owners as a
    fallback; an operator is left out only when [size] owners with better best operators are
    shortlisted. *)
Theorem owner_shortlist_correct `{AlloyOps} (size : nat) (e3 : E3id) (seed : list Z)
    (nodes : list RegisteredNode) (owners : gmap Address Address) (cs : list WinnerTicket) :
  get_owner_candidates size e3 seed nodes owners = Ok cs →
  ∃ all firsts rest, get_committee (length nodes) e3 seed nodes = Ok all ∧
    (∀ w, w ∈ all → owners !! w_address w = Some (owner_of owners w)) ∧
    shortlist_ok size owners all cs firsts rest.
Proof. apply owner_candidates_spec. Qed.

(** ** Buffer size *)

(** The candidate buffer is at least one and at most three above [N - T] for every
    threshold, and for the supported committees it gives 3, 6 and 11 backups. *)
Theorem buffer_size_bounds (m n : Z) :
  0 <= m → 0 < n →
  Z.max 0 (n - m) + 1 <= calculate_buffer_size m n <= Z.max 0 (n - m) + 3 ∧
  (λ sz, calculate_buffer_size (Z.of_nat (cc_threshold (values sz))) (Z.of_nat (cc_n (values sz))))
    <$> ALL_SIZES = [3; 6; 11].
Proof.
  intros Hm Hn. split; [|vm_compute; reflexivity].
  unfold calculate_buffer_size, saturating_sub. rewrite (proj2 (Z.eqb_neq _ _)) by lia.
  repeat case_match; lia.
Qed.

(** ** Examples *)

Section Example.

Definition ex_sort_e3 : E3id := mkE3id "7" 1.
Definition ex_seed : list Z := replicate 32 5.
Definition ex_nodes : list RegisteredNode :=
  [mkNode 10 [1; 2]; mkNode 20 [1]; mkNode 30 [1; 2; 3]].
Definition ex_owners : gmap Address Address := {[10 := 100; 20 := 100; 30 := 300]}.

Lemma best_ticket_is_least_witness :
  match calculate_best_ticket_for_node ex_sort_e3 ex_seed (mkNode 10 [1; 2]) with
  | Ok w => ticket_id w ∈ [1; 2]
  | Err _ => False
  end.
Proof.
  assert (u256_from_decimal (e3_num ex_sort_e3) = Some 7) as He by (vm_compute; reflexivity).
  pose proof (best_ticket_is_least ex_sort_e3 ex_seed (mkNode 10 [1; 2]) 7 He) as Hb.
  destruct (calculate_best_ticket_for_node ex_sort_e3 ex_seed (mkNode 10 [1; 2])).
  - apply Hb.
  - by destruct Hb.
Defined.

Lemma committee_is_top_n_witness :
  ∃ c, get_committee 2 ex_sort_e3 ex_seed ex_nodes = Ok c ∧
    get_committee 2 ex_sort_e3 ex_seed (rev ex_nodes) = Ok c ∧ NoDup (w_address <$> c).
Proof.
  assert (u256_from_decimal (e3_num ex_sort_e3) = Some 7) as He by (vm_compute; reflexivity).
  destruct (committee_is_top_n 2 ex_sort_e3 ex_seed ex_nodes (rev ex_nodes) 7 He)
    as (c & H1 & H2 & _ & H3 & _).
  - intros n. rewrite !list_elem_of_In. apply in_rev.
  - exists c. exact (conj H1 (conj H2 H3)).
Defined.

Definition ex_candidates : list WinnerTicket :=
  match get_owner_candidates 1 ex_sort_e3 ex_seed ex_nodes ex_owners with
  | Ok cs => cs
  | Err _ => []
  end.

Lemma owner_shortlist_correct_witness :
  ∃ all firsts rest, get_committee 3 ex_sort_e3 ex_seed ex_nodes = Ok all ∧
    shortlist_ok 1 ex_owners all ex_candidates firsts rest.
Proof.
  assert (get_owner_candidates 1 ex_sort_e3 ex_seed ex_nodes ex_owners = Ok ex_candidates) as E
    by (vm_compute; reflexivity).
  destruct (owner_shortlist_correct 1 ex_sort_e3 ex_seed ex_nodes ex_owners ex_candidates E)
    as (all & firsts & rest & H1 & _ & H2).
  exists all, firsts, rest. exact (conj H1 H2).
Defined.

Lemma buffer_size_bounds_witness : 2 + 1 <= calculate_buffer_size 1 3 <= 2 + 3.
Proof. apply (buffer_size_bounds 1 3); lia. Defined.

End Example.
