(* ===== verification/Failover.v ===== *)
(** * Aggregator failover

    Model of crates/orchestration/sortition/src/failover.rs and of the committee membership
    list (crates/committee/src/membership.rs): which committee member aggregates, and how the
    role moves on when a durable deadline passes.

    Deadlines are Unix seconds as [u64], additions saturate.  Addresses are text; lower-casing
    is modelled on ASCII, which covers hexadecimal addresses. *)

From S2P Require Import Prelude Events.
Open Scope Z_scope.

(** ** Committee membership (membership.rs) *)

Definition ascii_lower (a : Ascii.ascii) : Ascii.ascii :=
  let n := Ascii.N_of_ascii a in
  if (65 <=? n)%N && (n <=? 90)%N then Ascii.ascii_of_N (n + 32) else a.

Fixpoint to_lowercase (s : string) : string :=
  match s with
  | EmptyString => EmptyString
  | String.String a s' => String.String (ascii_lower a) (to_lowercase s')
  end.

(** The index is a cache of the member list: a later member with the same address wins. *)
Record Committee := mkMembers { members : list string; index : gmap string Z }.

Definition new (ms : list string) : Committee :=
  mkMembers ms (list_to_map (rev (imap (λ i addr, (to_lowercase addr, Z.of_nat i)) ms))).

Definition party_id_for (c : Committee) (addr : string) : option Z := index c !! to_lowercase addr.
Definition contains (c : Committee) (addr : string) : bool := bool_decide (is_Some (party_id_for c addr)).
Definition len (c : Committee) : nat := length (members c).
Definition is_empty (c : Committee) : bool := match members c with [] => true | _ => false end.

(** [0..committee.len() as u64] *)
Definition parties (c : Committee) : list Z := Z.of_nat <$> seq 0 (len c).

(** ** Selection (failover.rs) *)

Inductive AggregatorPhase := PublicKey | Plaintext | DkgRoster.
Global Instance AggregatorPhase_eq_dec : EqDecision AggregatorPhase.
Proof. solve_decision. Defined.

Inductive E3Stage :=
| StageNone | Requested | CommitteeFinalized | KeyPublished | CiphertextReady | Complete | Failed.

Definition AGGREGATOR_FAILOVER_SCHEMA_VERSION : Z := 3.
Definition LEGACY_EARLY_TIMER_SCHEMA_VERSION : Z := 1.

Definition skips (skipped : list Z) (p : Z) : bool := bool_decide (p ∈ skipped).

Definition active_aggregator_party_id (c : Committee) (skipped : list Z) : option Z :=
  List.find (λ p, negb (skips skipped p)) (parties c).

Definition effective_aggregator (c : Committee) (my_addr : string) (expelled unresponsive : list Z)
    : bool :=
  match active_aggregator_party_id c (expelled ++ unresponsive) with
  | None => false
  | Some p =>
      match members c !! Z.to_nat p with
      | None => false
      | Some addr => bool_decide (to_lowercase addr = to_lowercase my_addr)
      end
  end.

Definition aggregator_standbys (c : Committee) (skipped : list Z) (limit : nat)
    : list (Z * string) :=
  omap (λ p, (λ addr, (p, addr)) <$> members c !! Z.to_nat p)
    (take limit (List.filter (λ p, negb (skips skipped p)) (parties c))).

(** ** Durable state *)

Record AggregatorFailoverRound := mkRound {
  phase : AggregatorPhase; active_party_id : option Z; deadline_unix_secs : Z; exhausted : bool }.

Global Instance AggregatorFailoverRound_eq_dec : EqDecision AggregatorFailoverRound.
Proof. solve_decision. Defined.

Record AggregatorFailoverState := mkFailover {
  schema_version : Z;
  rounds : gmap E3id AggregatorFailoverRound;
  unresponsive : gmap E3id (list Z) }.

Definition default_state : AggregatorFailoverState :=
  mkFailover AGGREGATOR_FAILOVER_SCHEMA_VERSION ∅ ∅.

Definition has_supported_schema (s : AggregatorFailoverState) : bool :=
  schema_version s =? AGGREGATOR_FAILOVER_SCHEMA_VERSION.

Definition migrate_early_timer_schema (s : AggregatorFailoverState)
    : AggregatorFailoverState * bool :=
  if negb (schema_version s =? LEGACY_EARLY_TIMER_SCHEMA_VERSION) then (s, false)
  else (mkFailover AGGREGATOR_FAILOVER_SCHEMA_VERSION ∅ ∅, true).

(** Budgets in seconds. *)
Record FailoverPolicy := mkPolicy { timeout_secs : Z; public_key_timeout : Z }.

Definition new_policy (t : Z) : FailoverPolicy := mkPolicy t t.
Definition with_public_key_timeout (p : FailoverPolicy) (t : Z) : FailoverPolicy :=
  mkPolicy (timeout_secs p) t.
Definition timeout (p : FailoverPolicy) (ph : AggregatorPhase) : Z :=
  match ph with PublicKey => public_key_timeout p | _ => timeout_secs p end.

Inductive FailoverDecision :=
| Hold
| Promote (demote promote_to : Z) (new_addr : string)
| Exhausted (active : Z).

Record ExpectedFailoverDeadline := mkExpected { ex_phase : AggregatorPhase; unix_secs : Z }.

Definition phase_for_stage (stage : E3Stage) : option AggregatorPhase :=
  match stage with
  | CommitteeFinalized => Some DkgRoster
  | CiphertextReady => Some Plaintext
  | _ => None
  end.

Definition set_round (s : AggregatorFailoverState) (e : E3id) (r : AggregatorFailoverRound) :=
  mkFailover (schema_version s) (<[e := r]> (rounds s)) (unresponsive s).

(** ** Transitions *)

Definition reconcile_phase (s : AggregatorFailoverState) (e : E3id)
    (ph : option AggregatorPhase) (now : Z) (policy : FailoverPolicy) : AggregatorFailoverState :=
  match ph with
  | None => mkFailover (schema_version s) (delete e (rounds s)) (delete e (unresponsive s))
  | Some ph =>
      let unchanged :=
        match rounds s !! e with Some r => bool_decide (phase r = ph) | None => false end in
      if unchanged then s
      else
        mkFailover (schema_version s)
          (<[e := mkRound ph None (saturating_add U64_MAX now (timeout policy ph)) false]> (rounds s))
          (delete e (unresponsive s))
  end.

Definition reconcile_active_party (s : AggregatorFailoverState) (e : E3id)
    (active : option Z) (now : Z) (policy : FailoverPolicy) : AggregatorFailoverState :=
  match rounds s !! e with
  | None => s
  | Some r =>
      if bool_decide (active_party_id r = active) then s
      else set_round s e
        (mkRound (phase r) active (saturating_add U64_MAX now (timeout policy (phase r))) false)
  end.

Definition apply_due_timeout (s : AggregatorFailoverState) (e : E3id)
    (expected : ExpectedFailoverDeadline) (now : Z) (policy : FailoverPolicy) (c : Committee)
    (expelled : list Z) : AggregatorFailoverState * FailoverDecision :=
  match rounds s !! e with
  | None => (s, Hold)
  | Some r =>
      if negb (bool_decide (phase r = ex_phase expected))
         || negb (deadline_unix_secs r =? unix_secs expected)
         || exhausted r || (now <? deadline_unix_secs r)
      then (s, Hold)
      else
        let unresp := default [] (unresponsive s !! e) in
        let skipped := expelled ++ unresp in
        match active_aggregator_party_id c skipped with
        | None => (s, Hold)
        | Some active =>
            if negb (bool_decide (active_party_id r = Some active)) then (s, Hold)
            else
              let standbys := aggregator_standbys c skipped (len c) in
              match List.find (λ '(p, _), active <? p) standbys with
              | None =>
                  (set_round s e (mkRound (phase r) (active_party_id r) (deadline_unix_secs r) true),
                   Exhausted active)
              | Some (promote_to, new_addr) =>
                  let skipped_for_e3 :=
                    if bool_decide (active ∈ unresp) then unresp
                    else merge_sort Z.le (unresp ++ [active]) in
                  (mkFailover (schema_version s)
                     (<[e := mkRound (phase r) (Some promote_to)
                          (saturating_add U64_MAX now (timeout policy (phase r))) (exhausted r)]>
                        (rounds s))
                     (<[e := skipped_for_e3]> (unresponsive s)),
                   Promote active promote_to new_addr)
              end
        end
  end.

(** ** Lemmas *)

(** The parties that may still aggregate this E3, in promotion order. *)
Definition waiting (s : AggregatorFailoverState) (e : E3id) (c : Committee) (expelled : list Z)
    : list Z :=
  List.filter (λ p, negb (skips (expelled ++ default [] (unresponsive s !! e)) p)) (parties c).

Lemma find_head_filter {A} (f : A → bool) (l : list A) : List.find f l = head (List.filter f l).
Proof. induction l as [|x l IH]; simpl; [done|]. by destruct (f x). Qed.

Lemma StronglySorted_filter_bool {A} (R : relation A) (f : A → bool) (l : list A) :
  StronglySorted R l → StronglySorted R (List.filter f l).
Proof.
  induction 1 as [|x l Hs IH Hall]; simpl; [constructor|]. destruct (f x); [|done].
  constructor; [done|]. rewrite Forall_forall in *. intros y [Hy _]%elem_of_filter_bool. auto.
Qed.

Lemma parties_sorted c : StronglySorted Z.lt (parties c).
Proof.
  unfold parties. generalize O. induction (len c) as [|n IH]; intros k; simpl; [constructor|].
  constructor; [apply IH|]. apply Forall_forall. intros p (i & -> & Hi)%list_elem_of_fmap.
  apply elem_of_seq in Hi. lia.
Qed.

Lemma waiting_sorted s e c expelled : StronglySorted Z.lt (waiting s e c expelled).
Proof. apply StronglySorted_filter_bool, parties_sorted. Qed.

Lemma active_is_head c skipped :
  active_aggregator_party_id c skipped
  = head (List.filter (λ p, negb (skips skipped p)) (parties c)).
Proof. apply find_head_filter. Qed.

Definition addr_of (c : Committee) (p : Z) : string := default EmptyString (members c !! Z.to_nat p).

Lemma party_has_address c p : p ∈ parties c → members c !! Z.to_nat p = Some (addr_of c p).
Proof.
  unfold parties, addr_of. intros (i & -> & Hi)%list_elem_of_fmap. apply elem_of_seq in Hi.
  rewrite Nat2Z.id. destruct (lookup_lt_is_Some_2 (members c) i) as [a ->]; [unfold len in *; lia|].
  done.
Qed.

(** With the whole committee as the limit, the standbys are the waiting parties. *)
Lemma standbys_all c skipped :
  aggregator_standbys c skipped (len c)
  = (λ p, (p, addr_of c p)) <$> List.filter (λ p, negb (skips skipped p)) (parties c).
Proof.
  unfold aggregator_standbys. rewrite take_ge.
  2:{ etransitivity; [apply filter_length_le|]. unfold parties. by rewrite length_fmap, length_seq. }
  assert (∀ p, p ∈ List.filter (λ p, negb (skips skipped p)) (parties c) → p ∈ parties c) as Hin
    by (by intros p [? _]%elem_of_filter_bool).
  induction (List.filter _ _) as [|p l IH]; [done|]. cbn [omap list_omap fmap list_fmap].
  rewrite (party_has_address c p) by (apply Hin, list_elem_of_here). simpl. f_equal.
  apply IH. intros q Hq. apply Hin. by apply list_elem_of_further.
Qed.

(** In a sorted list the first element above the head is the second one. *)
Lemma find_next c a rest :
  StronglySorted Z.lt (a :: rest) →
  List.find (λ '(p, _), a <? p) ((λ p, (p, addr_of c p)) <$> a :: rest)
  = (λ p, (p, addr_of c p)) <$> head rest.
Proof.
  intros Hs. inversion Hs as [|?? _ Hall]; subst. cbn [fmap list_fmap List.find].
  rewrite (proj2 (Z.ltb_ge a a)) by lia. destruct rest as [|b rest]; [done|]. simpl.
  inversion Hall; subst. by rewrite (proj2 (Z.ltb_lt a b)).
Qed.

Lemma skips_app l l' p : skips (l ++ l') p = skips l p || skips l' p.
Proof. unfold skips. rewrite <- bool_decide_or. apply bool_decide_ext, elem_of_app. Qed.

(** Skipping the head of a sorted list drops it. *)
Lemma filter_skip_head (l skipped skipped' : list Z) a rest :
  List.filter (λ p, negb (skips skipped p)) l = a :: rest → StronglySorted Z.lt (a :: rest) →
  (∀ p, p ∈ skipped' ↔ p ∈ skipped ∨ p = a) →
  List.filter (λ p, negb (skips skipped' p)) l = rest.
Proof.
  intros E Hs Hsk.
  assert (∀ p, skips skipped' p = skips skipped p || (p =? a)) as Hp.
  { intros p. apply eq_true_iff_eq. unfold skips. rewrite orb_true_iff, !bool_decide_eq_true, Z.eqb_eq.
    apply Hsk. }
  assert (List.filter (λ p, negb (skips skipped' p)) l
    = List.filter (λ p, negb (p =? a)) (List.filter (λ p, negb (skips skipped p)) l)) as ->.
  { clear E Hs. induction l as [|x l IH]; [done|]. cbn [List.filter]. rewrite Hp.
    destruct (skips skipped x); cbn [negb orb List.filter]; [done|].
    destruct (x =? a); cbn [negb]; [done|]. by f_equal. }
  rewrite E. cbn [List.filter]. rewrite Z.eqb_refl. cbn [negb].
  inversion Hs as [|?? _ Hall]; subst. clear -Hall. induction Hall as [|b rest Hb _ IH]; [done|].
  cbn [List.filter]. rewrite (proj2 (Z.eqb_neq b a)) by lia. simpl. by f_equal.
Qed.

(** The timer that [expected] names is due and belongs to the waiting head. *)
Definition due (s : AggregatorFailoverState) (e : E3id) (expected : ExpectedFailoverDeadline)
    (now : Z) (c : Committee) (expelled : list Z) (r : AggregatorFailoverRound) : Prop :=
  rounds s !! e = Some r ∧ phase r = ex_phase expected ∧
  deadline_unix_secs r = unix_secs expected ∧ exhausted r = false ∧
  deadline_unix_secs r <= now ∧
  is_Some (active_party_id r) ∧ active_party_id r = head (waiting s e c expelled).

Lemma apply_due_timeout_due s e expected now policy c expelled r :
  due s e expected now c expelled r →
  ∃ a rest, waiting s e c expelled = a :: rest ∧
    apply_due_timeout s e expected now policy c expelled =
    match rest with
    | [] => (set_round s e (mkRound (phase r) (active_party_id r) (deadline_unix_secs r) true),
             Exhausted a)
    | b :: _ =>
        (mkFailover (schema_version s)
           (<[e := mkRound (phase r) (Some b)
                (saturating_add U64_MAX now (timeout policy (phase r))) false]> (rounds s))
           (<[e := merge_sort Z.le (default [] (unresponsive s !! e) ++ [a])]> (unresponsive s)),
         Promote a b (addr_of c b))
    end.
Proof.
  intros (Hr & Hph & Hd & Hex & Hnow & [a Ha] & Hact). pose proof (waiting_sorted s e c expelled) as Hs.
  rewrite Ha in Hact. destruct (waiting s e c expelled) as [|a' rest] eqn:Hw; [done|].
  injection Hact as <-. exists a, rest. split; [done|]. unfold apply_due_timeout. rewrite Hr.
  rewrite bool_decide_eq_true_2, (proj2 (Z.eqb_eq _ _)), Hex, (proj2 (Z.ltb_ge _ _)) by done.
  cbn [negb orb]. rewrite active_is_head. fold (waiting s e c expelled). rewrite Hw. cbn [head].
  rewrite bool_decide_eq_true_2 by done. cbn [negb]. rewrite standbys_all.
  fold (waiting s e c expelled). rewrite Hw, find_next by done. destruct rest as [|b rest]; [done|].
  cbn [head fmap option_fmap option_map].
  assert (a ∉ default [] (unresponsive s !! e)) as Hn.
  { intros Hin. assert (a ∈ waiting s e c expelled) as Hwa by (rewrite Hw; apply list_elem_of_here).
    apply elem_of_filter_bool in Hwa as [_ Hneg]. rewrite skips_app in Hneg. unfold skips in Hneg.
    rewrite (bool_decide_eq_true_2 (a ∈ default [] _)), orb_true_r in Hneg by done. done. }
  by rewrite bool_decide_eq_false_2.
Qed.

Lemma apply_due_timeout_not_due s e expected now policy c expelled :
  (∀ r, ¬ due s e expected now c expelled r) →
  apply_due_timeout s e expected now policy c expelled = (s, Hold).
Proof.
  intros Hn. unfold apply_due_timeout. destruct (rounds s !! e) as [r|] eqn:Hr; [|done].
  destruct (_ || _) eqn:Hg; [done|]. rewrite active_is_head. fold (waiting s e c expelled).
  bool_to_prop. destruct (head (waiting s e c expelled)) as [a|] eqn:Hw; [|done].
  case_bool_decide as Ha; [|done]. exfalso. apply (Hn r). unfold due. rewrite Hw, Ha.
  split_and!; done.
Qed.

Lemma waiting_after_promotion s e c expelled a rest s' :
  waiting s e c expelled = a :: rest →
  unresponsive s' !! e = Some (merge_sort Z.le (default [] (unresponsive s !! e) ++ [a])) →
  waiting s' e c expelled = rest.
Proof.
  intros Hw Hu. pose proof (waiting_sorted s e c expelled) as Hs. rewrite Hw in Hs.
  unfold waiting in *. rewrite Hu. simpl. eapply filter_skip_head; [exact Hw|done|].
  intros p. rewrite !elem_of_app, merge_sort_Permutation, elem_of_app, list_elem_of_singleton.
  tauto.
Qed.

Lemma due_dec s e expected now c expelled :
  (∃ r, due s e expected now c expelled r) ∨ ∀ r, ¬ due s e expected now c expelled r.
Proof.
  destruct (rounds s !! e) as [r|] eqn:Hr; [|right; intros r [? _]; congruence].
  destruct (decide (phase r = ex_phase expected ∧ deadline_unix_secs r = unix_secs expected ∧
    exhausted r = false ∧ deadline_unix_secs r <= now ∧ is_Some (active_party_id r) ∧
    active_party_id r = head (waiting s e c expelled))) as [H|H]; [left; by exists r|right].
  intros r' [Hr' H']. rewrite Hr in Hr'. injection Hr' as <-. done.
Qed.

(** ** Theorems *)

(** A timer callback moves the aggregator role by exactly one step.  It holds, without
    touching the state, unless it names the phase and deadline of a live round of this E3, the
    deadline has passed and the round is bound to the lowest eligible party.  A due callback
    promotes the next eligible party in ascending order, gives it a full budget and skips the old
    one; when nobody is left it only marks the round exhausted and keeps the last party active.
    No other E3 is affected. *)
Theorem timeout_promotes_next s e expected now policy c expelled :
  let s' := (apply_due_timeout s e expected now policy c expelled).1 in
  (∀ e', e' ≠ e → rounds s' !! e' = rounds s !! e' ∧ unresponsive s' !! e' = unresponsive s !! e') ∧
  match (apply_due_timeout s e expected now policy c expelled).2 with
  | Hold => s' = s ∧ ∀ r, ¬ due s e expected now c expelled r
  | Exhausted a =>
      ∃ r, due s e expected now c expelled r ∧ waiting s e c expelled = [a] ∧
        waiting s' e c expelled = [a] ∧ unresponsive s' = unresponsive s ∧
        rounds s' !! e = Some (mkRound (phase r) (Some a) (deadline_unix_secs r) true)
  | Promote a b addr =>
      ∃ r rest, due s e expected now c expelled r ∧ waiting s e c expelled = a :: b :: rest ∧
        waiting s' e c expelled = b :: rest ∧ members c !! Z.to_nat b = Some addr ∧
        rounds s' !! e =
          Some (mkRound (phase r) (Some b) (saturating_add U64_MAX now (timeout policy (phase r))) false)
  end.
Proof.
  destruct (due_dec s e expected now c expelled) as [[r Hdue]|Hn].
  2:{ by rewrite apply_due_timeout_not_due. }
  destruct (apply_due_timeout_due s e expected now policy c expelled r Hdue) as (a & rest & Hw & ->).
  assert (active_party_id r = Some a) as Ha
    by (destruct Hdue as (_ & _ & _ & _ & _ & _ & ->); by rewrite Hw).
  destruct rest as [|b rest]; cbn [fst snd set_round rounds unresponsive]; (split;
    [intros e' He'; rewrite ?lookup_insert_ne by done; done|]).
  - exists r. rewrite lookup_insert_eq, Ha. done.
  - exists r, rest. rewrite lookup_insert_eq. split_and!; try done.
    + eapply waiting_after_promotion; [exact Hw|]. cbn [unresponsive]. apply lookup_insert_eq.
    + apply party_has_address. assert (b ∈ waiting s e c expelled) as Hb by (rewrite Hw; set_solver).
      by apply elem_of_filter_bool in Hb as [??].
Qed.

Section Replay.

Context (policy : FailoverPolicy) (c : Committee) (expelled : list Z) (e : E3id).

(** The callback of the timer armed for the current round, run at time [now]. *)
Definition fire (s : AggregatorFailoverState) (now : Z) : AggregatorFailoverState * FailoverDecision :=
  match rounds s !! e with
  | None => (s, Hold)
  | Some r =>
      apply_due_timeout s e (mkExpected (phase r) (deadline_unix_secs r)) now policy c expelled
  end.

Fixpoint fire_all (s : AggregatorFailoverState) (nows : list Z)
    : AggregatorFailoverState * list FailoverDecision :=
  match nows with
  | [] => (s, [])
  | now :: nows => let '(s1, d) := fire s now in let '(s2, ds) := fire_all s1 nows in (s2, d :: ds)
  end.

(** Nobody publishes: each callback runs no earlier than the deadline of its round. *)
Fixpoint late (ph : AggregatorPhase) (start : Z) (nows : list Z) : Prop :=
  match nows with
  | [] => True
  | now :: nows => saturating_add U64_MAX start (timeout policy ph) <= now ∧ late ph now nows
  end.

Fixpoint handover (es : list Z) : list FailoverDecision :=
  match es with
  | [] => []
  | [a] => [Exhausted a]
  | a :: ((b :: _) as rest) => Promote a b (addr_of c b) :: handover rest
  end.

Definition eligible : list Z := List.filter (λ p, negb (skips expelled p)) (parties c).

Lemma fire_all_waiting ph rest : ∀ a s start nows,
  waiting s e c expelled = a :: rest →
  rounds s !! e
    = Some (mkRound ph (Some a) (saturating_add U64_MAX start (timeout policy ph)) false) →
  length nows = S (length rest) → late ph start nows →
  (fire_all s nows).2 = handover (a :: rest) ∧
  ∃ d, rounds (fire_all s nows).1 !! e = Some (mkRound ph (last (a :: rest)) d true).
Proof.
  induction rest as [|b rest IH]; intros a s start nows Hw Hr Hl Hlate;
    (destruct nows as [|now nows]; [done|]); destruct Hlate as [Hd Hlate]; injection Hl as Hl.
  all: assert (due s e (mkExpected ph (saturating_add U64_MAX start (timeout policy ph)))
         now c expelled (mkRound ph (Some a) (saturating_add U64_MAX start (timeout policy ph)) false))
         as Hdue by (unfold due; rewrite Hr, Hw; by repeat (split; [done|])).
  all: apply (apply_due_timeout_due _ _ _ _ policy) in Hdue as (a' & rest' & Hw' & E);
    rewrite Hw in Hw'; injection Hw' as <- <-; cbn [phase active_party_id deadline_unix_secs] in E;
    cbn [fire_all]; unfold fire; rewrite Hr; cbn [phase deadline_unix_secs]; rewrite E.
  - destruct nows; [|done]. split; [done|]. eexists. apply lookup_insert_eq.
  - set (s1 := mkFailover _ _ _).
    destruct (IH b s1 now nows) as [E1 E2]; [| |done|done|].
    + eapply waiting_after_promotion; [exact Hw|]. apply lookup_insert_eq.
    + apply lookup_insert_eq.
    + destruct (fire_all s1 nows) as [s2 ds]. cbn [fst snd] in *. subst ds. split; [done|].
      by rewrite last_cons_cons.
Qed.
End Replay.

(** Entering a phase and binding its round to the lowest eligible party. *)
Definition start_phase (s : AggregatorFailoverState) (e : E3id) (ph : AggregatorPhase) (t0 : Z)
    (policy : FailoverPolicy) (c : Committee) (expelled : list Z) : AggregatorFailoverState :=
  reconcile_active_party (reconcile_phase s e (Some ph) t0 policy) e
    (active_aggregator_party_id c expelled) t0 policy.

Lemma start_phase_fresh s e ph t0 policy c expelled :
  (∀ r, rounds s !! e = Some r → phase r ≠ ph) →
  let s1 := start_phase s e ph t0 policy c expelled in
  waiting s1 e c expelled = eligible c expelled ∧
  rounds s1 !! e = Some (mkRound ph (head (eligible c expelled))
                           (saturating_add U64_MAX t0 (timeout policy ph)) false).
Proof.
  intros Hf. unfold start_phase, reconcile_phase.
  assert (match rounds s !! e with Some r => bool_decide (phase r = ph) | None => false end = false) as ->.
  { destruct (rounds s !! e) as [r|]; [|done]. by apply bool_decide_eq_false_2, Hf. }
  unfold reconcile_active_party. cbn [rounds]. rewrite lookup_insert_eq. cbn [active_party_id phase].
  rewrite active_is_head. fold (eligible c expelled). unfold waiting.
  case_bool_decide as Hh; cbn [set_round rounds unresponsive].
  - rewrite lookup_insert_eq, lookup_delete_eq, <- Hh. cbn [default]. by rewrite app_nil_r.
  - rewrite lookup_insert_eq, lookup_delete_eq. cbn [default]. by rewrite app_nil_r.
Qed.

(** If no aggregator ever publishes, the role visits every eligible committee member exactly
    once, in ascending party order: starting a phase and letting each timer expire yields the
    promotions along that order followed by one exhaustion, after which the last member stays
    active and every further callback holds. *)
Theorem failover_visits_everyone s e ph t0 policy c expelled nows later :
  (∀ r, rounds s !! e = Some r → phase r ≠ ph) →
  length nows = length (eligible c expelled) → late policy ph t0 nows →
  let s' := fire_all policy c expelled e (start_phase s e ph t0 policy c expelled) nows in
  s'.2 = handover c (eligible c expelled) ∧
  (eligible c expelled ≠ [] →
   (∃ d, rounds s'.1 !! e = Some (mkRound ph (last (eligible c expelled)) d true)) ∧
   ∀ expected, apply_due_timeout s'.1 e expected later policy c expelled = (s'.1, Hold)).
Proof.
  intros Hf Hl Hlate. destruct (start_phase_fresh s e ph t0 policy c expelled Hf) as [Hw Hr].
  destruct (eligible c expelled) as [|a rest] eqn:He; cbn [length] in Hl.
  { destruct nows; [|done]. split; [done|]. intros ?. done. }
  destruct (fire_all_waiting policy c expelled e ph rest a _ t0 nows Hw Hr Hl Hlate) as [E1 (d & E2)].
  cbn zeta. split; [exact E1|]. intros _. split; [by exists d|].
  intros expected. apply apply_due_timeout_not_due. intros r (Hr' & _ & _ & Hex & _).
  rewrite E2 in Hr'. injection Hr' as <-. done.
Qed.

(** Replays are harmless.  Reporting the same phase or the same active party again leaves the
    deadline, the skip set and everything else alone, at any time and under any policy; and once a
    callback has run with time left on the clock, delivering the same callback again holds. *)
Theorem replays_are_harmless s e ph p t t' policy policy' expected now later c expelled :
  0 < timeout policy (ex_phase expected) → now < U64_MAX →
  let s1 := reconcile_phase s e (Some ph) t policy in
  let s2 := reconcile_active_party s e p t policy in
  let s3 := (apply_due_timeout s e expected now policy c expelled).1 in
  reconcile_phase s1 e (Some ph) t' policy' = s1 ∧
  reconcile_active_party s2 e p t' policy' = s2 ∧
  ((apply_due_timeout s e expected now policy c expelled).2 ≠ Hold →
   apply_due_timeout s3 e expected later policy c expelled = (s3, Hold)).
Proof.
  intros Ht Hnow. cbn zeta. split; [|split].
  - unfold reconcile_phase. destruct (rounds s !! e) as [r|] eqn:Hr; [case_bool_decide as Hp|].
    + by rewrite Hr, bool_decide_eq_true_2.
    + cbn [rounds]. rewrite lookup_insert_eq. by rewrite bool_decide_eq_true_2.
    + cbn [rounds]. rewrite lookup_insert_eq. by rewrite bool_decide_eq_true_2.
  - unfold reconcile_active_party. destruct (rounds s !! e) as [r|] eqn:Hr; [case_bool_decide as Hp|].
    + by rewrite Hr, bool_decide_eq_true_2.
    + cbn [set_round rounds]. rewrite lookup_insert_eq. by rewrite bool_decide_eq_true_2.
    + by rewrite Hr.
  - intros Hact. destruct (due_dec s e expected now c expelled) as [[r Hdue]|Hn].
    2:{ by rewrite apply_due_timeout_not_due in Hact. }
    apply apply_due_timeout_not_due. intros r'.
    pose proof Hdue as (_ & Hph & Hd & Hex & Hle & _).
    destruct (apply_due_timeout_due s e expected now policy c expelled r Hdue) as (a & rest & _ & ->).
    intros (Hr' & Hph' & Hd' & Hex' & _). destruct rest as [|b rest];
      cbn [fst set_round rounds] in Hr'; rewrite lookup_insert_eq in Hr'; injection Hr' as <-.
    + done.
    + cbn [deadline_unix_secs phase] in *. rewrite <- Hph in Ht. unfold saturating_add in Hd'. lia.
Qed.

Section FailoverExample.

Definition ex_e42 : E3id := mkE3id "42" 1.
Definition ex_abc : Committee := new ["0xa"; "0xb"; "0xc"]%string.
Definition ex_sixty : FailoverPolicy := new_policy 60.

Lemma failover_visits_everyone_witness :
  (fire_all ex_sixty ex_abc [1] ex_e42 (start_phase default_state ex_e42 Plaintext 100 ex_sixty ex_abc [1]) [160; 300]).2
  = [Promote 0 2 "0xc"%string; Exhausted 2].
Proof.
  refine (proj1 (failover_visits_everyone default_state ex_e42 Plaintext 100 ex_sixty ex_abc [1] [160; 300] 400 _ _ _)).
  - intros r Hr. discriminate Hr.
  - reflexivity.
  - cbn. unfold saturating_add, U64_MAX. lia.
Defined.

Lemma replays_are_harmless_witness :
  let s := start_phase default_state ex_e42 Plaintext 100 ex_sixty ex_abc [] in
  let s3 := (apply_due_timeout s ex_e42 (mkExpected Plaintext 160) 160 ex_sixty ex_abc []).1 in
  apply_due_timeout s3 ex_e42 (mkExpected Plaintext 160) 220 ex_sixty ex_abc [] = (s3, Hold).
Proof.
  refine (proj2 (proj2 (replays_are_harmless
    (start_phase default_state ex_e42 Plaintext 100 ex_sixty ex_abc []) ex_e42 Plaintext (Some 0) 100 120
    ex_sixty ex_sixty (mkExpected Plaintext 160) 160 220 ex_abc [] _ _)) _).
  - cbn. lia.
  - unfold U64_MAX. lia.
  - vm_compute. discriminate.
Defined.
End FailoverExample.
