(* ===== verification/NodeRegistry.v ===== *)
(** * The sortition node registry

    Model of crates/orchestration/sortition/src/node_registry.rs and of the chain positions of
    crates/events/src/chain_position.rs: per chain, the operators with their ticket balances and
    activity over time, the ticket price, and the committees that hold local capacity.

    Counters and timepoints are [Z].  The counter of active jobs is at most the number of open
    committees, a theorem of RegistryProps.v, so that its [+= 1] stays within [u64].  Both [HashMap]s
    and [HashSet]s are finite maps and sets; the loops over them visit each key once and their
    updates of different keys commute.  Logging is left out.  The text form of an address
    belongs to the alloy crates and is the class [AddressText]. *)

From S2P Require Import Prelude Hlc Events.
From stdpp Require Import pretty.
Open Scope Z_scope.

(** ** Chain positions (chain_position.rs) *)

Record ChainPosition := mkPos { timepoint : Z; log_index : Z }.

Global Instance ChainPosition_eq_dec : EqDecision ChainPosition.
Proof. solve_decision. Defined.

(** The derived order: fields in declaration order. *)
Definition pos_lt (a b : ChainPosition) : Prop :=
  timepoint a < timepoint b ∨ (timepoint a = timepoint b ∧ log_index a < log_index b).
Global Instance pos_lt_dec : RelDecision pos_lt.
Proof. intros a b. unfold pos_lt. apply _. Defined.

Definition from_log_timestamp (timestamp : Z) : ChainPosition :=
  let source := from_u128 timestamp in mkPos (ts source / 1000000) (counter source).

(** ** Histories *)

Record StateCheckpoint (T : Type) := mkCheckpoint { cp_timepoint : Z; cp_value : T }.
Arguments mkCheckpoint {T} _ _.
Arguments cp_timepoint {T} _.
Arguments cp_value {T} _.

(** [history.partition_point(|c| c.timepoint <= t)] on a history in ascending order: the
    length of the prefix that satisfies the predicate. *)
Fixpoint partition_point {A} (f : A → bool) (l : list A) : nat :=
  match l with
  | [] => O
  | x :: l' => if f x then S (partition_point f l') else O
  end.

Definition checkpoint_value {T} (history : list (StateCheckpoint T)) (t : Z) : option T :=
  match partition_point (λ c, cp_timepoint c <=? t) history with
  | O => None
  | S i => cp_value <$> history !! i
  end.

(** Returns the history, the latest log index and whether the position was accepted. *)
Definition push_checkpoint {T} (history : list (StateCheckpoint T)) (latest_log_index : Z)
    (position : ChainPosition) (value : T) : list (StateCheckpoint T) * Z * bool :=
  match last history with
  | Some l =>
      if bool_decide (pos_lt position (mkPos (cp_timepoint l) latest_log_index))
      then (history, latest_log_index, false)
      else if cp_timepoint l =? timepoint position
      then (removelast history ++ [mkCheckpoint (cp_timepoint l) value], log_index position, true)
      else (history ++ [mkCheckpoint (timepoint position) value], log_index position, true)
  | None => (history ++ [mkCheckpoint (timepoint position) value], log_index position, true)
  end.

(** ** Node state *)

Record SortitionSnapshot := mkSnapshot { request_block : Z; snap_ticket_price : Z }.

Record NodeState := mkNodeState {
  ticket_balance : Z;
  active_jobs : Z;
  active : bool;
  ticket_balance_history : list (StateCheckpoint Z);
  active_history : list (StateCheckpoint bool);
  ticket_balance_log_index : Z;
  active_log_index : Z }.

Definition default_node : NodeState := mkNodeState 0 0 false [] [] 0 0.

Definition ticket_balance_at (n : NodeState) (t : Z) : Z :=
  default 0 (checkpoint_value (ticket_balance_history n) t).
Definition active_at (n : NodeState) (t : Z) : bool :=
  default false (checkpoint_value (active_history n) t).

Definition set_active (n : NodeState) (a : bool) (position : ChainPosition) : NodeState * bool :=
  let '(h, li, accepted) := push_checkpoint (active_history n) (active_log_index n) position a in
  if negb accepted then (n, false)
  else (mkNodeState (ticket_balance n) (active_jobs n) a (ticket_balance_history n) h
          (ticket_balance_log_index n) li, true).

Definition with_jobs (n : NodeState) (j : Z) : NodeState :=
  mkNodeState (ticket_balance n) j (active n) (ticket_balance_history n) (active_history n)
    (ticket_balance_log_index n) (active_log_index n).

Record NodeStateStore := mkStore {
  nodes : gmap string NodeState;
  ticket_price : Z;
  ticket_price_position : ChainPosition;
  e3_committees : gmap string (list string);
  sortition_snapshots : gmap string SortitionSnapshot }.

Definition default_store : NodeStateStore := mkStore ∅ 0 (mkPos 0 0) ∅ ∅.

Definition set_nodes (st : NodeStateStore) (ns : gmap string NodeState) : NodeStateStore :=
  mkStore ns (ticket_price st) (ticket_price_position st) (e3_committees st) (sortition_snapshots st).

(** [format!("{}:{}", chain_id, e3_id)] *)
Definition committee_key (e : E3id) : string :=
  pretty (chain_id e) +:+ ":"%string +:+ e3_num e.

(** The text form of addresses. *)
Class AddressText := {
  address_to_string : Address → string;
  parse_address : string → option Address }.

(** Printing an address and parsing it back gives the address. *)
Class AddressTextLaws `{AddressText} : Prop := {
  parse_to_string : ∀ a, parse_address (address_to_string a) = Some a }.

Definition is_operator_of `{AddressText} (operators : gset Address) (address : string) : bool :=
  match parse_address address with
  | Some operator => bool_decide (operator ∈ operators)
  | None => false
  end.

Definition retain_operators `{AddressText} (st : NodeStateStore) (operators : gset Address)
    : NodeStateStore :=
  set_nodes st (filter (λ kv, Is_true (is_operator_of operators kv.1)) (nodes st)).

Definition sortition_snapshot (st : NodeStateStore) (e : E3id) : option SortitionSnapshot :=
  sortition_snapshots st !! committee_key e.

Definition has_job_for_e3 (st : NodeStateStore) (e : E3id) (operator : string) : bool :=
  match e3_committees st !! committee_key e with
  | Some ms => existsb (λ m, String.eqb m operator) ms
  | None => false
  end.

(** ** Transitions *)

Abbreviation Registry := (gmap Z NodeStateStore).

(** [store.entry(chain_id).or_default()], updated by [f]. *)
Definition on_chain (f : NodeStateStore → NodeStateStore) (chain : Z) (store : Registry) : Registry :=
  <[chain := f (default default_store (store !! chain))]> store.

(** [nodes.entry(address).or_default()], updated by [f]. *)
Definition on_node (f : NodeState → NodeState) (address : string) (st : NodeStateStore)
    : NodeStateStore :=
  set_nodes st (<[address := f (default default_node (nodes st !! address))]> (nodes st)).

Definition add_node (store : Registry) (chain : Z) (address : string) : Registry :=
  on_chain (on_node id address) chain store.

Definition remove_node (store : Registry) (chain : Z) (address : string) : Registry :=
  match store !! chain with
  | Some st => <[chain := set_nodes st (delete address (nodes st))]> store
  | None => store
  end.

Definition update_balance (new_balance : Z) (position : ChainPosition) (n : NodeState) : NodeState :=
  let '(h, li, accepted) :=
    push_checkpoint (ticket_balance_history n) (ticket_balance_log_index n) position new_balance in
  if negb accepted then n
  else mkNodeState new_balance (active_jobs n) (active n) h (active_history n) li (active_log_index n).

Definition set_ticket_balance (store : Registry) (chain : Z) (operator : string)
    (new_balance : Z) (position : ChainPosition) : Registry :=
  on_chain (on_node (update_balance new_balance position) operator) chain store.

Definition set_operator_active (store : Registry) (chain : Z) (operator : string) (a : bool)
    (position : ChainPosition) : Registry :=
  on_chain (on_node (λ n, (set_active n a position).1) operator) chain store.

Definition set_ticket_price (store : Registry) (chain : Z) (new_price : Z) (position : ChainPosition)
    : Registry :=
  on_chain (λ st,
    if bool_decide (pos_lt position (ticket_price_position st)) then st
    else mkStore (nodes st) new_price position (e3_committees st) (sortition_snapshots st)) chain store.

Definition invalidate_operator_activity (store : Registry) (chain : Z) (position : ChainPosition)
    : Registry :=
  on_chain (λ st, set_nodes st ((λ n, (set_active n false position).1) <$> nodes st)) chain store.

Record ConfigurationUpdated := mkConfiguration {
  parameter : string; old_value : Z; new_value : Z; cfg_chain_id : Z }.

Definition affects_eligibility (c : ConfigurationUpdated) : bool :=
  existsb (String.eqb (parameter c))
    ["ticketPrice"; "requiredCiphernodeBond"; "ciphernodeBondActiveBps"; "minTicketBalance"]%string.

Definition update_configuration (store : Registry) (c : ConfigurationUpdated)
    (position : ChainPosition) : Registry :=
  if negb (affects_eligibility c) then store
  else
    let store :=
      if String.eqb (parameter c) "ticketPrice"
      then set_ticket_price store (cfg_chain_id c) (new_value c) position else store in
    invalidate_operator_activity store (cfg_chain_id c) position.

Definition update_eligibility_version (store : Registry) (chain : Z) (position : ChainPosition)
    : Registry :=
  invalidate_operator_activity store chain position.

Definition update_bonding_asset_config (store : Registry) (chain : Z) (price : Z)
    (position : ChainPosition) : Registry :=
  set_ticket_price store chain price position.

Definition record_sortition_snapshot (store : Registry) (e : E3id) (request_block price : Z)
    : Registry :=
  on_chain (λ st,
    mkStore (nodes st) (ticket_price st) (ticket_price_position st) (e3_committees st)
      (<[committee_key e := mkSnapshot request_block price]> (sortition_snapshots st)))
    (chain_id e) store.

(** [node.active_jobs += 1] on an entry, and the saturating decrement of a known node. *)
Definition take_slot (ns : gmap string NodeState) (a : string) : gmap string NodeState :=
  let n := default default_node (ns !! a) in <[a := with_jobs n (active_jobs n + 1)]> ns.
Definition free_slot (ns : gmap string NodeState) (a : string) : gmap string NodeState :=
  alter (λ n, with_jobs n (saturating_sub (active_jobs n) 1)) a ns.

Definition reserve_committee_job (store : Registry) (e : E3id) (operator : string) : Registry * bool :=
  let st := default default_store (store !! chain_id e) in
  let key := committee_key e in
  match e3_committees st !! key with
  | None =>
      (<[chain_id e := mkStore (take_slot (nodes st) operator) (ticket_price st)
           (ticket_price_position st) (<[key := [operator]]> (e3_committees st))
           (sortition_snapshots st)]> store, true)
  | Some ms =>
      (<[chain_id e := st]> store, existsb (λ m, String.eqb m operator) ms)
  end.

Definition reconcile_committee_jobs (store : Registry) (e : E3id) (roster : list string) : Registry :=
  on_chain (λ st,
    let key := committee_key e in
    let previous_set : gset string := list_to_set (default [] (e3_committees st !! key)) in
    let next_set : gset string := list_to_set roster in
    let ns := foldl free_slot (nodes st) (elements (previous_set ∖ next_set)) in
    let ns := foldl take_slot ns (elements (next_set ∖ previous_set)) in
    mkStore ns (ticket_price st) (ticket_price_position st) (<[key := roster]> (e3_committees st))
      (sortition_snapshots st)) (chain_id e) store.

Definition release_committee_jobs (store : Registry) (e : E3id) : Registry :=
  match store !! chain_id e with
  | None => store
  | Some st =>
      let key := committee_key e in
      let snaps := delete key (sortition_snapshots st) in
      match e3_committees st !! key with
      | None =>
          <[chain_id e := mkStore (nodes st) (ticket_price st) (ticket_price_position st)
              (e3_committees st) snaps]> store
      | Some committee_nodes =>
          <[chain_id e := mkStore (foldl free_slot (nodes st) committee_nodes) (ticket_price st)
              (ticket_price_position st) (delete key (e3_committees st)) snaps]> store
      end
  end.

Definition holds_slots (store : Registry) (e : E3id) : bool :=
  match store !! chain_id e with
  | Some st => bool_decide (is_Some (e3_committees st !! committee_key e))
  | None => false
  end.

Definition release_finished_committees (store : Registry) (finished : list E3id) : Registry * nat :=
  foldl (λ '(store, released) e,
    if holds_slots store e then (release_committee_jobs store e, S released)
    else (store, released)) (store, O) finished.

Record OpenCommittee := mkOpen { oc_chain_id : Z; oc_key : string; oc_members : list string }.

Definition open_committees (store : Registry) : list OpenCommittee :=
  flat_map (λ '(chain, st), (λ '(key, ms), mkOpen chain key ms) <$> map_to_list (e3_committees st))
    (map_to_list store).
