(* ===== verification/AddressExample.v ===== *)
(** * A concrete text form of addresses

    The theorems about addresses take [AddressText] and [AddressTextLaws] as parameters.  Here an
    address is a sign followed by its absolute value in unary, so that the laws are seen to be
    satisfiable and the witnesses can be evaluated. *)

From S2P Require Import Prelude Events NodeRegistry.
Local Open Scope Z_scope.

Fixpoint ex_unary (n : nat) : string :=
  match n with O => EmptyString | S n' => String.String (Ascii.ascii_of_nat 49) (ex_unary n') end.
Definition ex_print (a : Address) : string :=
  String.String (if a <? 0 then Ascii.ascii_of_nat 45 else Ascii.ascii_of_nat 43) (ex_unary (Z.abs_nat a)).
Definition ex_parse (s : string) : option Address :=
  match s with
  | String.String c s' =>
      let k := Z.of_nat (String.length s') in
      if bool_decide (c = Ascii.ascii_of_nat 45) then Some (- k) else Some k
  | EmptyString => None
  end.
#[export] Instance ex_unary_text : AddressText := {| address_to_string := ex_print; parse_address := ex_parse |}.

Lemma ex_unary_length n : String.length (ex_unary n) = n.
Proof. induction n; simpl; congruence. Qed.

#[export] Instance ex_unary_laws : AddressTextLaws.
Proof.
  constructor. intros a. cbn. rewrite ex_unary_length. destruct (Z.ltb_spec a 0); cbn; f_equal; lia.
Qed.
