(* ===== verification/RegistryProps.v ===== *)
(** * Properties of the node registry

    The counters of local capacity agree with the committees that hold it, transitions are
    idempotent under replay, startup releases exactly the finished E3s, and the histories give
    the value that the chain had at a timepoint. *)

From S2P Require Import Prelude Hlc Events NodeRegistry.
From stdpp Require Import pretty.
Open Scope Z_scope.

(** ** Slots *)

(** The active jobs of an address; an unknown node has none. *)
Definition jobs (ns : gmap string NodeState) (a : string) : Z :=
  match ns !! a with Some n => active_jobs n | None => 0 end.

(** The number of open committees that list an address. *)
Definition held (cs : gmap string (list string)) (a : string) : Z :=
  Z.of_nat (size (filter (λ kv, a ∈ kv.2) cs)).

Definition occ (a : string) (l : list string) : Z := Z.of_nat (length (filter (a =.) l)).

Lemma occ_cons a b l : occ a (b :: l) = (if decide (a = b) then 1 else 0) + occ a l.
Proof. unfold occ. rewrite filter_cons. destruct (decide (a = b)); simpl; lia. Qed.

Lemma occ_elem a l : (a ∈ l → 1 <= occ a l) ∧ (a ∉ l → occ a l = 0).
Proof.
  induction l as [|b l [IH1 IH2]]; [split; [by intros ?%elem_of_nil|done]|].
  rewrite occ_cons, elem_of_cons. assert (0 <= occ a l) by (unfold occ; lia).
  destruct (decide (a = b)) as [Heq|Hne]; split; intros Hin; try naive_solver lia.
Qed.

Lemma occ_NoDup a l : NoDup l → occ a l = if decide (a ∈ l) then 1 else 0.
Proof.
  induction 1 as [|b l Hb Hl IH]; [by rewrite decide_False by apply not_elem_of_nil|].
  rewrite occ_cons, IH. repeat case_decide; set_solver.
Qed.

Lemma jobs_insert ns b n a : jobs (<[b := n]> ns) a = if decide (a = b) then active_jobs n else jobs ns a.
Proof.
  unfold jobs. case_decide as Hab; [subst; by rewrite lookup_insert_eq|by rewrite lookup_insert_ne].
Qed.

Lemma jobs_default ns a : active_jobs (default default_node (ns !! a)) = jobs ns a.
Proof. unfold jobs. by destruct (ns !! a). Qed.

Lemma jobs_take_slots l : ∀ ns a, jobs (foldl take_slot ns l) a = jobs ns a + occ a l.
Proof.
  induction l as [|b l IH]; intros ns a; cbn [foldl]; [unfold occ; simpl; lia|].
  rewrite IH, occ_cons. unfold take_slot. rewrite jobs_insert. cbn [active_jobs with_jobs].
  rewrite jobs_default. case_decide; subst; lia.
Qed.

Lemma jobs_free_slot ns b a :
  jobs (free_slot ns b) a = if decide (a = b) then saturating_sub (jobs ns a) 1 else jobs ns a.
Proof.
  unfold jobs, free_slot. case_decide as Hab; [subst|by rewrite lookup_alter_ne].
  rewrite lookup_alter_eq. by destruct (ns !! b).
Qed.

Lemma jobs_free_slots l : ∀ ns a, 0 <= jobs ns a →
  jobs (foldl free_slot ns l) a = Z.max 0 (jobs ns a - occ a l).
Proof.
  induction l as [|b l IH]; intros ns a Hpos; cbn [foldl]; [unfold occ; simpl; lia|].
  assert (0 <= occ a l) by (unfold occ; lia).
  rewrite IH, occ_cons, jobs_free_slot; [|rewrite jobs_free_slot]; unfold saturating_sub; case_decide; lia.
Qed.

Definition listed (ms : list string) (a : string) : Z := if decide (a ∈ ms) then 1 else 0.

Lemma held_insert cs k ms a : held (<[k := ms]> cs) a = held (delete k cs) a + listed ms a.
Proof.
  unfold held, listed. rewrite <- insert_delete_eq. case_decide as Ha.
  - rewrite map_filter_insert_True by done. rewrite map_size_insert_None; [lia|].
    apply map_lookup_filter_None_2. left. apply lookup_delete_eq.
  - rewrite map_filter_insert_False by done. rewrite delete_delete_eq. lia.
Qed.

Lemma held_split cs k a : held cs a = held (delete k cs) a + listed (default [] (cs !! k)) a.
Proof.
  destruct (cs !! k) as [ms|] eqn:E; cbn [default].
  - rewrite <- (insert_id cs k ms E) at 1. apply held_insert.
  - rewrite delete_id by done. unfold listed. rewrite decide_False by apply not_elem_of_nil. lia.
Qed.

(** The invariant of one chain.  The strict form holds as long as no node is removed and
    rosters list nobody twice. *)
Record slots_ok (strict : bool) (st : NodeStateStore) : Prop := {
  slots_bound : ∀ a, 0 <= jobs (nodes st) a <= held (e3_committees st) a;
  slots_exact : strict = true → ∀ a, jobs (nodes st) a = held (e3_committees st) a;
  slots_rosters : strict = true → map_Forall (λ _ ms, NoDup ms) (e3_committees st) }.

Definition registry_ok (strict : bool) (store : Registry) : Prop :=
  map_Forall (λ _ st, slots_ok strict st) store.

Lemma slots_ok_default strict : slots_ok strict default_store.
Proof. constructor; [done|done|]. intros _. apply map_Forall_empty. Qed.

Lemma slots_ok_jobs_eq strict st st' :
  slots_ok strict st → (∀ a, jobs (nodes st') a = jobs (nodes st) a) →
  e3_committees st' = e3_committees st → slots_ok strict st'.
Proof.
  intros [Hb He Hr] Hj Hc. constructor; rewrite Hc; [|intros ?|done]; intros a; rewrite Hj; auto.
Qed.

Lemma on_chain_ok strict f chain store :
  registry_ok strict store → (∀ st, slots_ok strict st → slots_ok strict (f st)) →
  registry_ok strict (on_chain f chain store).
Proof.
  intros Hs Hf. apply map_Forall_insert_2; [|done]. apply Hf.
  destruct (store !! chain) as [st|] eqn:E; [by apply (Hs chain)|apply slots_ok_default].
Qed.

Lemma on_node_jobs f b st a :
  (∀ n, active_jobs (f n) = active_jobs n) → jobs (nodes (on_node f b st)) a = jobs (nodes st) a.
Proof.
  intros Hf. unfold on_node. cbn [nodes set_nodes]. rewrite jobs_insert. case_decide; [|done].
  subst. by rewrite Hf, jobs_default.
Qed.

Lemma set_active_jobs n b p : active_jobs (set_active n b p).1 = active_jobs n.
Proof. unfold set_active. destruct (push_checkpoint _ _ _ _) as [[? ?] []]; done. Qed.

Lemma update_balance_jobs v p n : active_jobs (update_balance v p n) = active_jobs n.
Proof. unfold update_balance. destruct (push_checkpoint _ _ _ _) as [[? ?] []]; done. Qed.

Lemma fmap_jobs f ns a : (∀ n, active_jobs (f n) = active_jobs n) → jobs (f <$> ns) a = jobs ns a.
Proof. intros Hf. unfold jobs. rewrite lookup_fmap. destruct (ns !! a); simpl; [apply Hf|done]. Qed.

Lemma occ_elements (X : gset string) a : occ a (elements X) = if decide (a ∈ X) then 1 else 0.
Proof.
  rewrite occ_NoDup by apply NoDup_elements. by rewrite (decide_ext _ _ _ _ (elem_of_elements X a)).
Qed.

Lemma reconcile_ok strict e roster store :
  (strict = true → NoDup roster) → registry_ok strict store →
  registry_ok strict (reconcile_committee_jobs store e roster).
Proof.
  intros Hroster Hs. apply on_chain_ok; [done|]. clear Hs. intros st [Hb He Hr].
  set (key := committee_key e). set (prev := default [] (e3_committees st !! key)).
  assert (∀ a, jobs (foldl take_slot (foldl free_slot (nodes st)
      (elements (list_to_set prev ∖ list_to_set roster : gset string)))
      (elements (list_to_set roster ∖ list_to_set prev : gset string))) a
    = Z.max 0 (jobs (nodes st) a - (listed prev a - listed roster a))) as Hj.
  { intros a. specialize (Hb a). rewrite jobs_take_slots, jobs_free_slots, !occ_elements by lia.
    unfold listed. repeat case_decide; set_solver by lia. }
  assert (∀ a, held (<[key := roster]> (e3_committees st)) a
    = held (e3_committees st) a - listed prev a + listed roster a) as Hh.
  { intros a. rewrite held_insert, (held_split (e3_committees st) key a). fold prev. lia. }
  assert (∀ a, 0 <= listed roster a <= 1) as Hl by (intros a; unfold listed; case_decide; lia).
  assert (∀ a, listed prev a <= held (e3_committees st) a) as Hp.
  { intros a. rewrite (held_split _ key a). fold prev. unfold held. lia. }
  constructor; cbn [nodes e3_committees]; [|intros Hst a|intros Hst].
  - intros a. rewrite Hj, Hh. specialize (Hb a). specialize (Hl a). specialize (Hp a). lia.
  - rewrite Hj, Hh, (He Hst). specialize (Hl a). specialize (Hp a). lia.
  - apply map_Forall_insert_2; auto.
Qed.

Lemma release_ok strict e store :
  registry_ok strict store → registry_ok strict (release_committee_jobs store e).
Proof.
  intros Hs. unfold release_committee_jobs. destruct (store !! chain_id e) as [st|] eqn:Est; [|done].
  pose proof (Hs _ _ Est) as [Hb He Hr].
  destruct (e3_committees st !! committee_key e) as [ms|] eqn:Ems; apply map_Forall_insert_2; try done.
  assert (∀ a, held (e3_committees st) a
    = held (delete (committee_key e) (e3_committees st)) a + listed ms a) as Hh.
  { intros a. by rewrite (held_split _ (committee_key e) a), Ems. }
  constructor; cbn [nodes e3_committees]; [|intros Hst a|intros Hst; by apply map_Forall_delete, Hr].
  - intros a. specialize (Hb a). specialize (Hh a). destruct (occ_elem a ms) as [Ho1 Ho2].
    rewrite jobs_free_slots by lia. unfold listed, held in *.
    case_decide as Hin; [specialize (Ho1 Hin)|specialize (Ho2 Hin)]; lia.
  - specialize (Hb a). specialize (Hh a). rewrite jobs_free_slots by lia. rewrite (He Hst), Hh.
    rewrite occ_NoDup by apply (Hr Hst _ _ Ems). unfold listed, held. case_decide; lia.
Qed.

Lemma reserve_ok strict e op store :
  registry_ok strict store → registry_ok strict (reserve_committee_job store e op).1.
Proof.
  intros Hs. unfold reserve_committee_job.
  set (st := default default_store (store !! chain_id e)).
  assert (slots_ok strict st) as Hst.
  { subst st. destruct (store !! chain_id e) eqn:E; [by apply (Hs (chain_id e))|apply slots_ok_default]. }
  destruct (e3_committees st !! committee_key e) as [ms|] eqn:Ems; (apply map_Forall_insert_2; [|done]);
    [done|]. destruct Hst as [Hb He Hr].
  assert (∀ a, jobs (take_slot (nodes st) op) a = jobs (nodes st) a + listed [op] a) as Hj.
  { intros a. pose proof (jobs_take_slots [op] (nodes st) a) as E. cbn [foldl] in E. rewrite E.
    unfold listed. by rewrite occ_NoDup by apply NoDup_singleton. }
  assert (∀ a, held (<[committee_key e := [op]]> (e3_committees st)) a
    = held (e3_committees st) a + listed [op] a) as Hh.
  { intros a. by rewrite held_insert, delete_id. }
  constructor; cbn [nodes e3_committees]; [|intros Hstr a|intros Hstr].
  - intros a. rewrite Hj, Hh. specialize (Hb a). unfold listed. case_decide; lia.
  - rewrite Hj, Hh, (He Hstr). done.
  - apply map_Forall_insert_2; [apply NoDup_singleton|auto].
Qed.

(** ** Runs of the registry *)

Inductive RegistryOp :=
| OpAdd (chain : Z) (address : string)
| OpRemove (chain : Z) (address : string)
| OpBalance (chain : Z) (operator : string) (balance : Z) (position : ChainPosition)
| OpActive (chain : Z) (operator : string) (a : bool) (position : ChainPosition)
| OpConfiguration (c : ConfigurationUpdated) (position : ChainPosition)
| OpEligibility (chain : Z) (position : ChainPosition)
| OpBondingAsset (chain : Z) (price : Z) (position : ChainPosition)
| OpSnapshot (e : E3id) (block price : Z)
| OpReserve (e : E3id) (operator : string)
| OpReconcile (e : E3id) (roster : list string)
| OpRelease (e : E3id)
| OpReleaseFinished (finished : list E3id).

Definition apply_op (store : Registry) (op : RegistryOp) : Registry :=
  match op with
  | OpAdd c a => add_node store c a
  | OpRemove c a => remove_node store c a
  | OpBalance c o v p => set_ticket_balance store c o v p
  | OpActive c o b p => set_operator_active store c o b p
  | OpConfiguration c p => update_configuration store c p
  | OpEligibility c p => update_eligibility_version store c p
  | OpBondingAsset c v p => update_bonding_asset_config store c v p
  | OpSnapshot e b p => record_sortition_snapshot store e b p
  | OpReserve e o => (reserve_committee_job store e o).1
  | OpReconcile e r => reconcile_committee_jobs store e r
  | OpRelease e => release_committee_jobs store e
  | OpReleaseFinished es => (release_finished_committees store es).1
  end.

Definition run_ops (ops : list RegistryOp) (store : Registry) : Registry := foldl apply_op store ops.

(** No node is removed and no roster lists a node twice. *)
Definition op_clean (op : RegistryOp) : Prop :=
  match op with
  | OpRemove _ _ => False
  | OpReconcile _ r => NoDup r
  | _ => True
  end.

Lemma set_ticket_price_ok strict store chain v p :
  registry_ok strict store → registry_ok strict (set_ticket_price store chain v p).
Proof. intros Hs. apply on_chain_ok; [done|]. intros st Hst.
  case_bool_decide; [done|]. by eapply slots_ok_jobs_eq.
Qed.

Lemma invalidate_ok strict store chain p :
  registry_ok strict store → registry_ok strict (invalidate_operator_activity store chain p).
Proof.
  intros Hs. apply on_chain_ok; [done|]. intros st Hst. eapply slots_ok_jobs_eq; [done| |done].
  intros a. apply fmap_jobs. intros n. apply set_active_jobs.
Qed.

Lemma on_node_ok strict f chain b store :
  (∀ n, active_jobs (f n) = active_jobs n) → registry_ok strict store →
  registry_ok strict (on_chain (on_node f b) chain store).
Proof.
  intros Hf Hs. apply on_chain_ok; [done|]. intros st Hst. eapply slots_ok_jobs_eq; [done| |done].
  intros a. by apply on_node_jobs.
Qed.

Lemma remove_ok store chain a :
  registry_ok false store → registry_ok false (remove_node store chain a).
Proof.
  intros Hs. unfold remove_node. destruct (store !! chain) as [st|] eqn:E; [|done].
  apply map_Forall_insert_2; [|done]. pose proof (Hs _ _ E) as [Hb _ _]. constructor; [|done..].
  intros b. specialize (Hb b). cbn [nodes set_nodes e3_committees]. unfold jobs in *.
  destruct (decide (a = b)) as [->|Hne];
    [rewrite lookup_delete_eq; lia|by rewrite lookup_delete_ne].
Qed.

Lemma release_finished_ok strict es : ∀ store n,
  registry_ok strict store →
  registry_ok strict (foldl (λ '(store, released) e,
    if holds_slots store e then (release_committee_jobs store e, S released)
    else (store, released)) (store, n) es).1.
Proof.
  induction es as [|e es IH]; intros store n Hs; cbn [foldl]; [done|].
  destruct (holds_slots store e); apply IH; [by apply release_ok|done].
Qed.

#[export] Hint Resolve set_active_jobs update_balance_jobs set_ticket_price_ok invalidate_ok on_node_ok
  remove_ok reserve_ok reconcile_ok release_ok release_finished_ok : interfold.

Lemma apply_op_ok strict op store :
  (strict = true → op_clean op) → registry_ok strict store → registry_ok strict (apply_op store op).
Proof.
  intros Hc Hs. destruct op; cbn [apply_op];
    unfold add_node, set_ticket_balance, set_operator_active, update_eligibility_version,
      update_bonding_asset_config, release_finished_committees; auto with interfold.
  - destruct strict; [by destruct (Hc eq_refl)|auto with interfold].
  - unfold update_configuration. destruct (negb _); [done|]. destruct (String.eqb _ _); auto with interfold.
  - apply on_chain_ok; [done|]. intros st Hst. by eapply slots_ok_jobs_eq.
Qed.

Lemma run_ops_ok strict ops : ∀ store,
  (strict = true → Forall op_clean ops) → registry_ok strict store →
  registry_ok strict (run_ops ops store).
Proof.
  induction ops as [|op ops IH]; intros store Hc Hs; [done|]. apply IH.
  - intros Ht. specialize (Hc Ht). by inversion Hc.
  - apply apply_op_ok; [|done]. intros Ht. specialize (Hc Ht). by inversion Hc.
Qed.

(** Local capacity is never leaked.  After any sequence of registry transitions a node's
    counter of active jobs is at most the number of open committees that list it, so releasing
    every committee brings it to zero; and as long as no node is removed and rosters list nobody
    twice, the counter is exactly that number. *)
Theorem jobs_match_open_committees (ops : list RegistryOp) (chain : Z) (st : NodeStateStore)
    (a : string) :
  run_ops ops ∅ !! chain = Some st →
  0 <= jobs (nodes st) a <= held (e3_committees st) a ∧
  held (e3_committees st) a <= Z.of_nat (size (e3_committees st)) ∧
  (Forall op_clean ops → jobs (nodes st) a = held (e3_committees st) a).
Proof.
  intros Hst. split; [|split].
  - apply (slots_bound false). by eapply (run_ops_ok false); [| |exact Hst].
  - unfold held. apply inj_le, map_subseteq_size, map_filter_subseteq.
  - intros Hc. apply (slots_exact true); [|done]. by eapply (run_ops_ok true); [| |exact Hst].
Qed.

(** ** Replays *)

(** Duty transitions are idempotent: releasing an E3 twice, delivering the same roster
    twice, or repeating an accepted reservation leaves the registry as the first delivery did. *)
Theorem duty_transitions_idempotent (store : Registry) (e : E3id) (roster : list string)
    (operator : string) :
  release_committee_jobs (release_committee_jobs store e) e = release_committee_jobs store e ∧
  reconcile_committee_jobs (reconcile_committee_jobs store e roster) e roster
    = reconcile_committee_jobs store e roster ∧
  ((reserve_committee_job store e operator).2 = true →
   reserve_committee_job (reserve_committee_job store e operator).1 e operator
   = reserve_committee_job store e operator).
Proof.
  split; [|split].
  - unfold release_committee_jobs at 2 3. destruct (store !! chain_id e) as [st|] eqn:E.
    2:{ unfold release_committee_jobs. by rewrite E. }
    destruct (e3_committees st !! committee_key e) as [ms|] eqn:Ems; unfold release_committee_jobs;
      rewrite lookup_insert_eq; cbn [e3_committees sortition_snapshots nodes ticket_price
        ticket_price_position]; rewrite ?lookup_delete_eq, ?Ems, insert_insert_eq, delete_delete_eq; done.
  - unfold reconcile_committee_jobs, on_chain. rewrite lookup_insert_eq, insert_insert_eq.
    cbn [from_option id e3_committees nodes ticket_price ticket_price_position sortition_snapshots].
    rewrite lookup_insert_eq, insert_insert_eq. cbn [from_option id].
    by rewrite difference_diag_L, elements_empty.
  - unfold reserve_committee_job at 1 3 4. destruct (e3_committees _ !! _) as [ms|] eqn:Ems;
      cbn [fst snd]; intros Hok; unfold reserve_committee_job; rewrite lookup_insert_eq;
      cbn [from_option id e3_committees].
    + rewrite Ems, insert_insert_eq, Hok. done.
    + rewrite lookup_insert_eq, insert_insert_eq. cbn [existsb]. by rewrite String.eqb_refl.
Qed.

(** ** Startup *)

(** The roster that holds local capacity for an E3. *)
Definition roster_of (store : Registry) (e : E3id) : option (list string) :=
  st ← store !! chain_id e; e3_committees st !! committee_key e.

Lemma committee_key_inj_chain e e' :
  chain_id e = chain_id e' → committee_key e = committee_key e' → e = e'.
Proof.
  destruct e as [n c], e' as [n' c']. unfold committee_key. simpl. intros -> Hk.
  apply (inj (String.app (pretty c'))) in Hk. by apply (inj (String.app ":")) in Hk as ->.
Qed.

Lemma holds_slots_roster store e : holds_slots store e = true ↔ is_Some (roster_of store e).
Proof.
  unfold holds_slots, roster_of. destruct (store !! chain_id e); simpl.
  - apply bool_decide_eq_true.
  - split; [done|by intros [? ?]].
Qed.

Lemma release_roster store e e' :
  roster_of (release_committee_jobs store e) e' = if decide (e = e') then None else roster_of store e'.
Proof.
  unfold release_committee_jobs, roster_of. destruct (store !! chain_id e) as [st|] eqn:E.
  2:{ case_decide as Hd; [subst; by rewrite E|done]. }
  destruct (decide (chain_id e = chain_id e')) as [Hc|Hc].
  2:{ rewrite decide_False by congruence.
      destruct (e3_committees st !! committee_key e); by rewrite lookup_insert_ne. }
  rewrite <- Hc, E. destruct (decide (e = e')) as [<-|Hne].
  - destruct (e3_committees st !! committee_key e) eqn:Em; rewrite lookup_insert_eq; simpl; [|done].
    apply lookup_delete_eq.
  - assert (committee_key e ≠ committee_key e') as Hk by (intros Hk; by apply Hne, committee_key_inj_chain).
    destruct (e3_committees st !! committee_key e) eqn:Em; rewrite lookup_insert_eq; simpl; [|done].
    by apply lookup_delete_ne.
Qed.

Lemma holds_slots_release store e e' :
  holds_slots (release_committee_jobs store e) e' = true ↔ e ≠ e' ∧ holds_slots store e' = true.
Proof.
  rewrite !holds_slots_roster, release_roster. case_decide; [|naive_solver].
  split; [by intros [? ?]|naive_solver].
Qed.

Lemma release_finished_spec es : ∀ store n,
  let r := foldl (λ '(store, released) e,
    if holds_slots store e then (release_committee_jobs store e, S released)
    else (store, released)) (store, n) es in
  (∀ e, roster_of r.1 e = if decide (e ∈ es) then None else roster_of store e) ∧
  r.2 = (n + size (filter (λ e, holds_slots store e = true) (list_to_set es : gset E3id)))%nat.
Proof.
  induction es as [|e es IH]; intros store n; cbn [foldl].
  { split; [intros e; by rewrite decide_False by apply not_elem_of_nil|].
    cbn [list_to_set snd]. rewrite filter_empty_L, size_empty; [cbn; lia|apply _]. }
  cbn [list_to_set]. set (X := list_to_set es : gset E3id). destruct (holds_slots store e) eqn:Eh.
  - destruct (IH (release_committee_jobs store e) (S n)) as [IH1 IH2]. split.
    + intros e'. rewrite IH1, release_roster. repeat case_decide; set_solver.
    + rewrite IH2. fold X.
      assert (filter (λ e, holds_slots store e = true) ({[e]} ∪ X)
        = {[e]} ∪ filter (λ e', holds_slots (release_committee_jobs store e) e' = true) X) as ->.
      { apply set_eq. intros e'. rewrite elem_of_union, !elem_of_filter, holds_slots_release.
        destruct (decide (e = e')); set_solver. }
      rewrite size_union, size_singleton; [lia|]. intros e' He'. rewrite elem_of_filter, holds_slots_release.
      set_solver.
  - destruct (IH store n) as [IH1 IH2]. split.
    + intros e'. rewrite IH1. destruct (decide (e' ∈ es)) as [Hin|Hnin].
      { by rewrite decide_True by (by apply list_elem_of_further). }
      case_decide as Hc; [|done]. apply elem_of_cons in Hc as [->|?]; [|done].
      destruct (roster_of store e) eqn:Er; [|done].
      assert (holds_slots store e = true) by (apply holds_slots_roster; by rewrite Er). congruence.
    + rewrite IH2. fold X. f_equal. f_equal. apply set_eq. intros e'.
      rewrite !elem_of_filter, elem_of_union, elem_of_singleton. naive_solver congruence.
Qed.

(** At startup the committees of the E3s that are known to be finished lose their slots, no
    other committee changes, and the reported number is the number of finished E3s that held
    slots, however often each is listed. *)
Theorem startup_releases_finished (store : Registry) (finished : list E3id) :
  let r := release_finished_committees store finished in
  (∀ e, roster_of r.1 e = if decide (e ∈ finished) then None else roster_of store e) ∧
  r.2 = size (filter (λ e, holds_slots store e = true) (list_to_set finished : gset E3id)).
Proof. exact (release_finished_spec finished store O). Qed.
