(* ===== verification/RegistryHistory.v ===== *)
(** * Histories of the node registry

    The checkpoints that the registry keeps answer "what did the chain say at time t" for every
    operator: [ticket_balance_at] and [active_at] agree with the log of events, whatever else the
    registry does in between. *)

From S2P Require Import Prelude Hlc Events NodeRegistry RegistryProps.
Open Scope Z_scope.

(** ** The reference: the last event at or before a timepoint *)

Definition value_at {T} (events : list (ChainPosition * T)) (t : Z) : option T :=
  snd <$> last (filter (λ ev, timepoint ev.1 <= t) events).

(** Events in chain order; events of one position may repeat. *)
Definition in_order {T} (a b : ChainPosition * T) : Prop := ¬ pos_lt b.1 a.1.

Lemma value_at_snoc {T} (l : list (ChainPosition * T)) ev t :
  value_at (l ++ [ev]) t = if decide (timepoint ev.1 <= t) then Some ev.2 else value_at l t.
Proof.
  unfold value_at. rewrite filter_app, filter_cons, filter_nil.
  destruct (decide (timepoint ev.1 <= t)); [by rewrite last_snoc|by rewrite app_nil_r].
Qed.

(** ** One history *)

Section History.

Context {T : Type}.
Implicit Types (h : list (StateCheckpoint T)) (c : StateCheckpoint T).

Lemma checkpoint_value_cons c h t :
  checkpoint_value (c :: h) t
  = if cp_timepoint c <=? t
    then Some (default (cp_value c) (checkpoint_value h t)) else None.
Proof.
  unfold checkpoint_value. cbn [partition_point]. destruct (cp_timepoint c <=? t); [|done].
  destruct (partition_point _ h) as [|i] eqn:E; [done|]. change ((c :: h) !! S i) with (h !! i).
  assert (i < length h)%nat as [x Hx]%lookup_lt_is_Some_2; [|by rewrite Hx].
  revert i E. induction h as [|y h IH]; intros i; cbn [partition_point]; [done|].
  destruct (cp_timepoint y <=? t); [|done]. intros [= E].
  destruct i as [|i]; [simpl; lia|]. simpl. specialize (IH i). lia.
Qed.

Lemma checkpoint_value_snoc h c t :
  Forall (λ x, cp_timepoint x < cp_timepoint c) h →
  checkpoint_value (h ++ [c]) t
  = if decide (cp_timepoint c <= t) then Some (cp_value c) else checkpoint_value h t.
Proof.
  induction 1 as [|x h Hx _ IH]; cbn [app]; rewrite checkpoint_value_cons.
  - case_decide; [rewrite (proj2 (Z.leb_le _ _)) by done|rewrite (proj2 (Z.leb_gt _ _)) by lia]; done.
  - rewrite IH. case_decide.
    + by rewrite (proj2 (Z.leb_le _ _)) by lia.
    + by rewrite checkpoint_value_cons.
Qed.

(** A history and its log index represent a log of events.  As long as nothing was pushed, the
    log may hold events with the default value. *)
Definition represents (d : T) (l : list (ChainPosition * T)) (h : list (StateCheckpoint T))
    (li : Z) : Prop :=
  (∀ t, default d (checkpoint_value h t) = default d (value_at l t)) ∧
  ((h = [] ∧ Forall (λ ev, ev.2 = d) l) ∨
   ∃ h0 p v, last l = Some (p, v) ∧ h = h0 ++ [mkCheckpoint (timepoint p) v] ∧ li = log_index p ∧
     Forall (λ x, cp_timepoint x < timepoint p) h0).

Lemma represents_nil d : represents d [] [] 0.
Proof. split; [done|]. left. done. Qed.

(** An event that is not pushed because there is nothing to push to. *)
Lemma represents_skip d l p li :
  represents d l [] li → represents d (l ++ [(p, d)]) [] li.
Proof.
  intros [Hv [[_ Hd]|(h0 & q & v & _ & E & _)]]; [|by destruct h0]. split.
  - intros t. rewrite value_at_snoc. case_decide; [done|apply Hv].
  - left. split; [done|]. apply Forall_app. split; [done|]. by constructor.
Qed.

Lemma represents_push d l h li p v :
  represents d l h li → (∀ y, last l = Some y → in_order y (p, v)) →
  let r := push_checkpoint h li p v in represents d (l ++ [(p, v)]) r.1.1 r.1.2.
Proof.
  intros [Hv Hh] Hord.
  assert (∀ h' h0 t, (∀ t, timepoint p <= t ∨ default d (checkpoint_value h0 t) = default d (value_at l t)) →
    h' = h0 ++ [mkCheckpoint (timepoint p) v] → Forall (λ x, cp_timepoint x < timepoint p) h0 →
    default d (checkpoint_value h' t) = default d (value_at (l ++ [(p, v)]) t)) as Hval.
  { intros h' h0 t H0 -> Hall. rewrite checkpoint_value_snoc, value_at_snoc by done.
    cbn [cp_timepoint cp_value fst snd]. case_decide; [done|]. destruct (H0 t); [lia|done]. }
  destruct Hh as [[-> Hd]|(h0 & q & w & Hlast & -> & -> & Hall)]; cbn zeta; unfold push_checkpoint.
  { cbn [last fst snd]. split.
    - intros t. apply (Hval _ []); [|done|constructor]. intros t'. right. apply Hv.
    - right. exists [], p, v. rewrite last_snoc. done. }
  rewrite last_snoc. cbn [cp_timepoint].
  assert (¬ pos_lt p q) as Hpq.
  { by apply (Hord (q, w)). }
  rewrite bool_decide_eq_false_2 by (destruct q; exact Hpq).
  destruct (Z.eqb_spec (timepoint q) (timepoint p)) as [Heq|Hne]; cbn [fst snd].
  - rewrite removelast_last, Heq. rewrite Heq in Hall. split.
    + intros t. apply (Hval _ h0); [|done|done]. intros t'.
      destruct (Z.le_gt_cases (timepoint p) t') as [?|Hgt]; [by left|right].
      rewrite <- Hv, checkpoint_value_snoc by (cbn; by rewrite Heq). cbn [cp_timepoint].
      by rewrite decide_False by lia.
    + right. exists h0, p, v. rewrite last_snoc. done.
  - assert (Forall (λ x, cp_timepoint x < timepoint p) (h0 ++ [mkCheckpoint (timepoint q) w])) as Hall'.
    { unfold pos_lt in Hpq. apply Forall_app. split; [|repeat constructor; cbn; lia].
      eapply Forall_impl; [exact Hall|]. cbn. lia. }
    split.
    + intros t. eapply Hval; [|done|done]. intros t'. right. apply Hv.
    + right. eexists _, p, v. rewrite last_snoc. done.
Qed.

(** An event joins a log unless it is older than the last one there. *)
Definition arrive (l : list (ChainPosition * T)) (ev : ChainPosition * T) : list (ChainPosition * T) :=
  match last l with Some x => if decide (pos_lt ev.1 x.1) then l else l ++ [ev] | None => l ++ [ev] end.

Definition holds (d : T) (l : list (ChainPosition * T)) h (li : Z) : Prop := represents d l h li ∧ (h = [] → l = []).

Lemma holds_nil d : holds d [] [] 0.
Proof. split; [apply represents_nil|done]. Qed.

Lemma holds_push d l h li p v : holds d l h li →
  let r := push_checkpoint h li p v in holds d (arrive l (p, v)) r.1.1 r.1.2.
Proof.
  intros [Hr Hnil] r. unfold arrive. assert ((∀ y, last l = Some y → in_order y (p, v)) → holds d (l ++ [(p, v)]) r.1.1 r.1.2) as Hpush.
  { intros Hord. split; [by apply represents_push|]. unfold r, push_checkpoint. repeat case_match; cbn [fst]; subst; try (by intros [_ ?]%app_nil). by intros ->. }
  destruct (last l) as [[q w]|] eqn:El; [|by apply Hpush]. cbn [fst]. case_decide as Hlt; [|by apply Hpush; intros y [= <-]].
  destruct Hr as [Hv [[-> _]|(h0 & q' & w' & El' & -> & -> & Hall)]]; [by rewrite Hnil in El|]. rewrite El in El'. injection El' as <- <-.
  unfold r, push_checkpoint. rewrite last_snoc. cbn [cp_timepoint]. rewrite bool_decide_eq_true_2 by (by destruct q). cbn [fst snd]. split; [|done].
  split; [done|]. right. by exists h0, q, w.
Qed.
End History.

(** ** One operator of the registry *)

Definition node_of (ns : gmap string NodeState) (o : string) : NodeState :=
  default default_node (ns !! o).

(** An operator of a chain; the default state when the registry does not know it. *)
Definition operator_state (store : Registry) (chain : Z) (o : string) : NodeState :=
  node_of (nodes (default default_store (store !! chain))) o.

Definition hists (n : NodeState) :=
  (ticket_balance_history n, ticket_balance_log_index n, active_history n, active_log_index n).

Lemma node_of_insert ns a n o : node_of (<[a := n]> ns) o = if decide (a = o) then n else node_of ns o.
Proof.
  unfold node_of. case_decide; [subst; by rewrite lookup_insert_eq|by rewrite lookup_insert_ne].
Qed.

Lemma hists_take_slots l : ∀ ns o, hists (node_of (foldl take_slot ns l) o) = hists (node_of ns o).
Proof.
  induction l as [|a l IH]; intros ns o; [done|]. cbn [foldl]. rewrite IH. unfold take_slot.
  rewrite node_of_insert. case_decide; [by subst|done].
Qed.

Lemma hists_free_slots l : ∀ ns o, hists (node_of (foldl free_slot ns l) o) = hists (node_of ns o).
Proof.
  induction l as [|a l IH]; intros ns o; [done|]. cbn [foldl]. rewrite IH. unfold free_slot, node_of.
  destruct (decide (a = o)) as [->|Hne]; [rewrite lookup_alter_eq|by rewrite lookup_alter_ne].
  by destruct (ns !! o).
Qed.

Lemma operator_state_on_chain f c store chain o :
  operator_state (on_chain f c store) chain o
  = if decide (c = chain) then node_of (nodes (f (default default_store (store !! c)))) o
    else operator_state store chain o.
Proof.
  unfold operator_state, on_chain. case_decide; [subst; by rewrite lookup_insert_eq|].
  by rewrite lookup_insert_ne.
Qed.

Lemma operator_state_on_node f a c store chain o :
  operator_state (on_chain (on_node f a) c store) chain o
  = if decide (c = chain ∧ a = o) then f (operator_state store chain o)
    else operator_state store chain o.
Proof.
  rewrite operator_state_on_chain. unfold on_node. cbn [nodes set_nodes]. rewrite node_of_insert.
  destruct (decide (c = chain)) as [->|Hc]; [|by rewrite decide_False by naive_solver].
  destruct (decide (a = o)) as [->|Ha]; [by rewrite decide_True by done|].
  by rewrite decide_False by naive_solver.
Qed.

(** Transitions that leave every operator's histories alone. *)
Definition keeps_hists (f : Registry → Registry) : Prop :=
  ∀ store chain o, hists (operator_state (f store) chain o) = hists (operator_state store chain o).

Lemma on_chain_keeps f c :
  (∀ st o, hists (node_of (nodes (f st)) o) = hists (node_of (nodes st) o)) →
  keeps_hists (on_chain f c).
Proof. intros Hf store chain o. rewrite operator_state_on_chain. case_decide; [by subst|done]. Qed.

Lemma insert_as_on_chain store c st : <[c := st]> store = on_chain (λ _, st) c store.
Proof. done. Qed.

Lemma release_keeps e : keeps_hists (λ store, release_committee_jobs store e).
Proof.
  intros store chain o. unfold release_committee_jobs. destruct (store !! chain_id e) as [st|] eqn:E; [|done].
  destruct (e3_committees st !! committee_key e) as [ms|]; rewrite insert_as_on_chain,
    operator_state_on_chain; case_decide as Hc; try done; subst; unfold operator_state; rewrite E; [|done].
  apply hists_free_slots.
Qed.

Lemma reserve_keeps e op : keeps_hists (λ store, (reserve_committee_job store e op).1).
Proof.
  intros store chain o. unfold reserve_committee_job.
  destruct (e3_committees _ !! _) as [ms|]; cbn [fst];
    rewrite insert_as_on_chain, operator_state_on_chain; case_decide; try done; subst; [done|].
  apply (hists_take_slots [op]).
Qed.

Lemma release_finished_keeps es : keeps_hists (λ store, (release_finished_committees store es).1).
Proof.
  intros store chain o. unfold release_finished_committees. generalize O. revert store.
  induction es as [|e es IH]; intros store n; [done|]. cbn [foldl].
  destruct (holds_slots store e); rewrite IH; [apply release_keeps|done].
Qed.

Lemma remove_other store c a chain o :
  (c, a) ≠ (chain, o) → operator_state (remove_node store c a) chain o = operator_state store chain o.
Proof.
  intros Hne. unfold remove_node. destruct (store !! c) as [st|] eqn:E; [|done].
  rewrite insert_as_on_chain, operator_state_on_chain. case_decide as Hc; [|done]. subst.
  unfold operator_state. rewrite E. cbn [from_option id nodes set_nodes]. unfold node_of.
  rewrite lookup_delete_ne; [done|]. congruence.
Qed.

Lemma set_ticket_price_keeps c v p : keeps_hists (λ store, set_ticket_price store c v p).
Proof. apply on_chain_keeps. intros st o. by case_bool_decide. Qed.

#[export] Hint Resolve release_keeps reserve_keeps release_finished_keeps set_ticket_price_keeps : interfold.

Lemma push_rejected {T} h li p (v : T) h' li' :
  push_checkpoint h li p v = (h', li', false) → h' = h ∧ li' = li.
Proof. unfold push_checkpoint. destruct (last h); repeat case_match; naive_solver. Qed.

Lemma set_active_hists n b p :
  hists (set_active n b p).1
  = (ticket_balance_history n, ticket_balance_log_index n,
     (push_checkpoint (active_history n) (active_log_index n) p b).1.1,
     (push_checkpoint (active_history n) (active_log_index n) p b).1.2).
Proof.
  unfold set_active. destruct (push_checkpoint _ _ _ _) as [[h li] []] eqn:E; [done|].
  by apply push_rejected in E as [-> ->].
Qed.

Lemma update_balance_hists n v p :
  hists (update_balance v p n)
  = ((push_checkpoint (ticket_balance_history n) (ticket_balance_log_index n) p v).1.1,
     (push_checkpoint (ticket_balance_history n) (ticket_balance_log_index n) p v).1.2,
     active_history n, active_log_index n).
Proof.
  unfold update_balance. destruct (push_checkpoint _ _ _ _) as [[h li] []] eqn:E; [done|].
  by apply push_rejected in E as [-> ->].
Qed.

Section Operator.

Context (chain : Z) (o : string).

(** The registry lists the operator. *)
Definition listed (store : Registry) : bool := bool_decide (is_Some (nodes (default default_store (store !! chain)) !! o)).

(** The balance events and the activity events of the operator, as an operation at a registry adds to
    them.  A policy change makes every operator inactive that its chain lists then; a removal starts
    the operator's logs anew; an event that is older than the last one is left out. *)
Definition log_op (store : Registry) (logs : list (ChainPosition * Z) * list (ChainPosition * bool)) (op : RegistryOp)
    : list (ChainPosition * Z) * list (ChainPosition * bool) :=
  let '(bl, al) := logs in
  match op with
  | OpRemove c o' => if decide (c = chain ∧ o' = o) then ([], []) else (bl, al)
  | OpBalance c o' v p => if decide (c = chain ∧ o' = o) then (arrive bl (p, v), al) else (bl, al)
  | OpActive c o' b p => if decide (c = chain ∧ o' = o) then (bl, arrive al (p, b)) else (bl, al)
  | OpConfiguration cfg p =>
      if affects_eligibility cfg && (cfg_chain_id cfg =? chain) && listed store then (bl, arrive al (p, false)) else (bl, al)
  | OpEligibility c p => if (c =? chain) && listed store then (bl, arrive al (p, false)) else (bl, al)
  | _ => (bl, al)
  end.

Fixpoint logs_of (store : Registry) (logs : list (ChainPosition * Z) * list (ChainPosition * bool)) (ops : list RegistryOp)
    : list (ChainPosition * Z) * list (ChainPosition * bool) :=
  match ops with [] => logs | op :: rest => logs_of (apply_op store op) (log_op store logs op) rest end.

Definition balance_log (ops : list RegistryOp) : list (ChainPosition * Z) := (logs_of ∅ ([], []) ops).1.
Definition active_log (ops : list RegistryOp) : list (ChainPosition * bool) := (logs_of ∅ ([], []) ops).2.

Definition logged (logs : list (ChainPosition * Z) * list (ChainPosition * bool)) (n : NodeState) : Prop :=
  holds 0 logs.1 (ticket_balance_history n) (ticket_balance_log_index n) ∧
  holds false logs.2 (active_history n) (active_log_index n).

Lemma logged_default : logged ([], []) default_node.
Proof. split; apply holds_nil. Qed.

Lemma logged_hists logs n n' : hists n' = hists n → logged logs n → logged logs n'.
Proof. intros [= E1 E2 E3 E4]. unfold logged. by rewrite E1, E2, E3, E4. Qed.

Lemma logged_keeps f logs store :
  keeps_hists f → logged logs (operator_state store chain o) → logged logs (operator_state (f store) chain o).
Proof. intros Hf. apply logged_hists, Hf. Qed.

Lemma logged_active bl al n p b : logged (bl, al) n → logged (bl, arrive al (p, b)) (set_active n b p).1.
Proof.
  intros [Hb Ha]. pose proof (set_active_hists n b p) as [= E1 E2 E3 E4]. unfold logged.
  rewrite E1, E2, E3, E4. split; [done|]. by apply holds_push.
Qed.

Lemma logged_balance bl al n p v : logged (bl, al) n → logged (arrive bl (p, v), al) (update_balance v p n).
Proof.
  intros [Hb Ha]. pose proof (update_balance_hists n v p) as [= E1 E2 E3 E4]. unfold logged.
  rewrite E1, E2, E3, E4. split; [|done]. by apply holds_push.
Qed.

(** Invalidating a chain reaches the operator if the registry lists it. *)
Lemma logged_invalidate bl al store c p : logged (bl, al) (operator_state store chain o) →
  logged (if (c =? chain) && listed store then (bl, arrive al (p, false)) else (bl, al))
    (operator_state (invalidate_operator_activity store c p) chain o).
Proof.
  intros Hl. unfold invalidate_operator_activity. rewrite operator_state_on_chain.
  destruct (Z.eqb_spec c chain) as [->|Hne]; [rewrite decide_True by done|by rewrite decide_False by done].
  unfold operator_state in Hl. unfold listed. cbn [andb nodes set_nodes]. unfold node_of in *. rewrite lookup_fmap.
  destruct (nodes _ !! o) as [n|]; cbn [fmap option_fmap option_map from_option id] in *.
  - rewrite bool_decide_eq_true_2 by done. by apply logged_active.
  - rewrite bool_decide_eq_false_2 by (by intros [? ?]). done.
Qed.

(** A removed operator is not listed. *)
Lemma remove_same store : operator_state (remove_node store chain o) chain o = default_node.
Proof.
  unfold remove_node. destruct (store !! chain) as [st|] eqn:E; [|by unfold operator_state; rewrite E].
  rewrite insert_as_on_chain, operator_state_on_chain, decide_True by done. cbn [nodes set_nodes]. unfold node_of. by rewrite lookup_delete_eq.
Qed.

Lemma listed_set_price store c v p : listed (set_ticket_price store c v p) = listed store.
Proof.
  unfold listed, set_ticket_price, on_chain. destruct (decide (c = chain)) as [->|]; [rewrite lookup_insert_eq|by rewrite lookup_insert_ne].
  cbn [from_option id]. by destruct (bool_decide (pos_lt _ _)).
Qed.

Lemma logged_op logs store op : logged logs (operator_state store chain o) →
  logged (log_op store logs op) (operator_state (apply_op store op) chain o).
Proof.
  destruct logs as [bl al]. intros Hl. destruct op; cbn [apply_op log_op] in *.
  - unfold add_node. rewrite operator_state_on_node. by case_decide.
  - case_decide as Hc; [destruct Hc as [-> ->]; rewrite remove_same; apply logged_default|rewrite remove_other; [done|by intros [= -> ->]; apply Hc]].
  - unfold set_ticket_balance. rewrite operator_state_on_node. case_decide; [by apply logged_balance|done].
  - unfold set_operator_active. rewrite operator_state_on_node. case_decide; [by apply logged_active|done].
  - unfold update_configuration. destruct (affects_eligibility c); cbn [negb andb] in *; [|done]. destruct (String.eqb _ _); [|by apply logged_invalidate].
    rewrite <- (listed_set_price store (cfg_chain_id c) (new_value c) position). apply logged_invalidate.
    apply (logged_keeps (λ s, set_ticket_price s _ _ _)); auto with interfold.
  - by apply logged_invalidate.
  - apply (logged_keeps (λ s, set_ticket_price s chain0 price position)); auto with interfold.
  - eapply logged_keeps; [|exact Hl]. by apply (on_chain_keeps _ (chain_id e)).
  - apply (logged_keeps (λ s, (reserve_committee_job s e operator).1)); auto with interfold.
  - eapply logged_keeps; [|exact Hl]. apply (on_chain_keeps _ (chain_id e)). intros st o'.
    cbn [nodes]. by rewrite hists_take_slots, hists_free_slots.
  - apply (logged_keeps (λ s, release_committee_jobs s e)); auto with interfold.
  - apply (logged_keeps (λ s, (release_finished_committees s finished).1)); auto with interfold.
Qed.

Lemma sorted_app_inv {A} (R : relation A) (l k : list A) :
  StronglySorted R (l ++ k) → StronglySorted R l ∧ ∀ x y, x ∈ l → y ∈ k → R x y.
Proof.
  induction l as [|z l IH]; cbn [app]; intros Hs; [split; [constructor|by intros ?? ?%elem_of_nil]|].
  inversion Hs as [|?? Hs' Hall]; subst. apply IH in Hs' as [Hl Hlk].
  rewrite Forall_app in Hall. destruct Hall as [Hz Hzk]. split; [by constructor|].
  intros x y [->|Hx]%elem_of_cons Hy; [|by apply Hlk]. rewrite Forall_forall in Hzk. by apply Hzk.
Qed.

Lemma logged_run ops : ∀ store logs, logged logs (operator_state store chain o) →
  logged (logs_of store logs ops) (operator_state (run_ops ops store) chain o).
Proof. induction ops as [|op ops IH]; intros store logs Hl; [done|]. cbn [run_ops foldl logs_of]. by apply IH, logged_op. Qed.
End Operator.

(** C37: The registry answers for the past as the chain would.  After any run of the registry, the ticket
    balance of an operator at a time is the one of its last balance event up to that time, and it was
    active at a time exactly when its last activation or policy-change event up to that time says so,
    whatever happened to other operators, prices, snapshots and committees in between.  What counts are
    the events since the operator was last removed, of policy changes those that found it listed, and
    of these the ones that were not older than one before: a late event never rewrites the past. *)
Theorem registry_answers_for_the_past (ops : list RegistryOp) (chain : Z) (o : string) (t : Z) :
  ticket_balance_at (operator_state (run_ops ops ∅) chain o) t
    = default 0 (value_at (balance_log chain o ops) t) ∧
  active_at (operator_state (run_ops ops ∅) chain o) t
    = default false (value_at (active_log chain o ops) t).
Proof.
  assert (operator_state ∅ chain o = default_node) as E by (unfold operator_state, node_of; by rewrite !lookup_empty).
  destruct (logged_run chain o ops ∅ ([], [])) as [[[Eb _] _] [[Ea _] _]]; [rewrite E; apply logged_default|]. split; [apply Eb|apply Ea].
Qed.

(** ** Example: an operator with two balances, an activation, a policy change and one duty. *)
Section RegistryExample.

Definition ex_e7 : E3id := mkE3id "7" 1.
Definition ex_registry_log : list RegistryOp :=
  [OpAdd 1 "0xA"; OpBalance 1 "0xA" 50 (mkPos 10 0); OpActive 1 "0xA" true (mkPos 10 1);
   OpReserve ex_e7 "0xA"; OpBalance 1 "0xB" 70 (mkPos 12 0); OpBalance 1 "0xA" 30 (mkPos 20 4);
   OpEligibility 1 (mkPos 30 0); OpReconcile ex_e7 ["0xA"; "0xB"]]%string.

Lemma jobs_match_open_committees_witness :
  match run_ops ex_registry_log ∅ !! 1 with
  | Some st => jobs (nodes st) "0xB" = held (e3_committees st) "0xB"
  | None => False
  end.
Proof.
  destruct (run_ops ex_registry_log ∅ !! 1) as [st|] eqn:E; [|vm_compute in E; discriminate E].
  apply (jobs_match_open_committees ex_registry_log 1 st "0xB" E). unfold ex_registry_log.
  rewrite !Forall_cons. cbn [op_clean]. split_and!; try exact I; [|apply Forall_nil_2].
  apply (bool_decide_unpack _). vm_compute. exact I.
Defined.

(** A late balance is left out, and a removal starts anew. *)
Example ex_registry_late : ticket_balance_at (operator_state (run_ops (ex_registry_log ++ [OpBalance 1 "0xA" 99 (mkPos 15 0)]) ∅) 1 "0xA") 19 = 50 ∧
  balance_log 1 "0xA" (ex_registry_log ++ [OpBalance 1 "0xA" 99 (mkPos 15 0)]) = [(mkPos 10 0, 50); (mkPos 20 4, 30)] ∧
  balance_log 1 "0xA" (ex_registry_log ++ [OpRemove 1 "0xA"; OpBalance 1 "0xA" 99 (mkPos 15 0)]) = [(mkPos 15 0, 99)].
Proof. vm_compute. done. Qed.

Lemma registry_answers_for_the_past_witness :
  ticket_balance_at (operator_state (run_ops ex_registry_log ∅) 1 "0xA") 19 = 50 ∧
  active_at (operator_state (run_ops ex_registry_log ∅) 1 "0xA") 29 = true.
Proof.
  destruct (registry_answers_for_the_past ex_registry_log 1 "0xA" 19) as [-> _].
  destruct (registry_answers_for_the_past ex_registry_log 1 "0xA" 29) as [_ ->].
  split; reflexivity.
Defined.
End RegistryExample.
