(* ===== verification/SelectionBackend.v ===== *)
(** * Bond owners and the selection backend

    Model of crates/orchestration/sortition/src/bond_owners.rs, selection_backend.rs and the time
    limit of eligibility.rs: who owned an operator's bond at request time, which registered
    operators hold tickets in the request-time view, and at which rank this node submits its
    ticket.

    [Result] errors are [SubmissionError].  [swap_remove] is written out.  The address text is
    the class [AddressText] of the registry. *)

From S2P Require Import Prelude Hlc Events Sortition NodeRegistry.
Open Scope Z_scope.

(** ** Bond owners (bond_owners.rs) *)

Definition BOND_OWNER_SCHEMA_VERSION : Z := 2.

Record BondOwnerState := mkOwners {
  bo_schema_version : Z;
  chains : gmap Z (gmap Address (list (StateCheckpoint Address))) }.

Definition default_owners : BondOwnerState := mkOwners BOND_OWNER_SCHEMA_VERSION ∅.

Inductive OwnerError := UnsupportedSchema | BadAddress | ZeroOwner | OutOfOrder.

Definition validate (s : BondOwnerState) : result unit OwnerError :=
  if bo_schema_version s =? BOND_OWNER_SCHEMA_VERSION then Ok () else Err UnsupportedSchema.

Record BondOwnerSet := mkBondOwnerSet { bos_operator : string; bond_owner : string; bos_chain_id : Z }.

Section Text.
Context `{AddressText}.

(** The state is unchanged on an error: only a history that has entries can refuse one. *)
Definition record (s : BondOwnerState) (event : BondOwnerSet) (timepoint : Z)
    : result BondOwnerState OwnerError :=
  match parse_address (bos_operator event) with
  | None => Err BadAddress
  | Some operator =>
      match parse_address (bond_owner event) with
      | None => Err BadAddress
      | Some owner =>
          if owner =? 0 then Err ZeroOwner
          else
            let chain := default ∅ (chains s !! bos_chain_id event) in
            let history := default [] (chain !! operator) in
            let store h :=
              mkOwners (bo_schema_version s)
                (<[bos_chain_id event := <[operator := h]> chain]> (chains s)) in
            match last history with
            | Some l =>
                if negb (cp_timepoint l <=? timepoint) then Err OutOfOrder
                else if cp_timepoint l =? timepoint
                then Ok (store (removelast history ++ [mkCheckpoint (cp_timepoint l) owner]))
                else Ok (store (history ++ [mkCheckpoint timepoint owner]))
            | None => Ok (store (history ++ [mkCheckpoint timepoint owner]))
            end
      end
  end.

Definition owner_at (s : BondOwnerState) (chain : Z) (operator : Address) (timepoint : Z)
    : option Address :=
  operators ← chains s !! chain;
  history ← operators !! operator;
  match partition_point (λ c, cp_timepoint c <=? timepoint) history with
  | O => None
  | S i => cp_value <$> history !! i
  end.

(** ** Time limit of an eligibility read (eligibility.rs) *)

Definition ELIGIBILITY_READ_TIMEOUT : Z := 20.
Definition SUBMISSION_RESERVE_SECS : Z := 20.

Definition checked_sub (a b : Z) : option Z := if b <=? a then Some (a - b) else None.

Definition read_limit (deadline now : Z) : option Z :=
  left0 ← checked_sub deadline now;
  left ← checked_sub left0 SUBMISSION_RESERVE_SECS;
  if 0 <? left then Some (Z.min ELIGIBILITY_READ_TIMEOUT left) else None.

(** ** The score backend (selection_backend.rs) *)

Record ScoreBackend := mkBackend { registered : list RegisteredNode }.

(** [(balance / price).try_into().unwrap_or(0u64)] *)
Definition ticket_count (balance price : Z) : Z :=
  let q := balance / price in if q <=? U64_MAX then q else 0.

Definition build_node (st : NodeStateStore) (snapshot : SortitionSnapshot) (timepoint : Z)
    (n : RegisteredNode) : option RegisteredNode :=
  ns ← nodes st !! address_to_string (rn_address n);
  if negb (active_at ns timepoint) then None
  else
    let ticket_balance := ticket_balance_at ns timepoint in
    let total_tickets :=
      if snap_ticket_price snapshot =? 0 then 0
      else ticket_count ticket_balance (snap_ticket_price snapshot) in
    if total_tickets =? 0 then None
    else Some (mkNode (rn_address n) (seqZ 1 total_tickets)).

Definition build_nodes_from_state (b : ScoreBackend) (st : NodeStateStore)
    (snapshot : SortitionSnapshot) : list RegisteredNode :=
  match checked_sub (request_block snapshot) 1 with
  | None => []
  | Some timepoint => omap (build_node st snapshot timepoint) (registered b)
  end.

Definition has_local_capacity (st : NodeStateStore) (e3 : E3id) (local_address : Address)
    (snapshot : SortitionSnapshot) : bool :=
  let local_address := address_to_string local_address in
  if has_job_for_e3 st e3 local_address then true
  else
    match checked_sub (request_block snapshot) 1 with
    | None => false
    | Some timepoint =>
        match nodes st !! local_address with
        | None => false
        | Some state =>
            if snap_ticket_price snapshot =? 0 then false
            else active_jobs state <?
                 ticket_count (ticket_balance_at state timepoint) (snap_ticket_price snapshot)
        end
    end.

Definition add (b : ScoreBackend) (address : string) : ScoreBackend :=
  match parse_address address with
  | Some addr =>
      if negb (existsb (λ n, rn_address n =? addr) (registered b))
      then mkBackend (registered b ++ [mkNode addr []]) else b
  | None => b
  end.

(** [Vec::swap_remove]: the last element takes the place of the removed one. *)
Definition swap_remove {A} (i : nat) (l : list A) : list A :=
  match last l with
  | Some x => removelast (<[i := x]> l)
  | None => l
  end.

Definition remove (b : ScoreBackend) (address : string) : ScoreBackend :=
  match parse_address address with
  | Some addr =>
      match position (λ n, rn_address n =? addr) (registered b) with
      | Some i => mkBackend (swap_remove i (registered b))
      | None => b
      end
  | None => b
  end.

Definition backend_nodes (b : ScoreBackend) : list string :=
  (λ n, address_to_string (rn_address n)) <$> registered b.

(** ** The submission rank *)

Inductive SubmissionError := InvalidAddress | Selection (e : SortitionError).

Definition lift {T} (r : result T SortitionError) : result T SubmissionError :=
  match r with Ok t => Ok t | Err e => Err (Selection e) end.

(** The owners that the history knows, by operator. *)
Definition known_owners (owner_state : BondOwnerState) (chain timepoint : Z)
    (ns : list RegisteredNode) : gmap Address Address :=
  list_to_map (rev (omap (λ n, (λ owner, (rn_address n, owner)) <$>
                             owner_at owner_state chain (rn_address n) timepoint) ns)).

(** [iter().enumerate().find_map(..)]: the rank and ticket of the first winner at an address. *)
Definition rank_of (want : Address) (winners : list WinnerTicket) : option (Z * option Z) :=
  i ← position (λ w, w_address w =? want) winners;
  w ← winners !! i;
  Some (Z.of_nat i, Some (ticket_id w)).

Definition get_submission_index `{AlloyOps} (b : ScoreBackend) (e3 : E3id) (seed : list Z)
    (address : string) (chain : Z) (st : NodeStateStore) (snapshot : SortitionSnapshot)
    (candidate_owners : nat) (owner_state : BondOwnerState) (owner_shortlist : bool)
    : result (option (Z * option Z)) SubmissionError :=
  match parse_address address with
  | None => Err InvalidAddress
  | Some want =>
      if negb (has_local_capacity st e3 want snapshot) then Ok None
      else
        let ns := build_nodes_from_state b st snapshot in
        match checked_sub (request_block snapshot) 1 with
        | None => Ok None
        | Some timepoint =>
            let owners := known_owners owner_state chain timepoint ns in
            let missing_owners := (length ns - size owners)%nat in
            let? winners := lift
              (if negb owner_shortlist then get_committee (length ns) e3 seed ns
               else if (missing_owners =? 0)%nat
               then get_owner_candidates candidate_owners e3 seed ns owners
               else get_committee (length ns) e3 seed ns) in
            Ok (rank_of want winners)
        end
  end.

End Text.
