(* ===== verification/SelectionProps.v ===== *)
(** * Properties of bond owners and the selection backend *)

From S2P Require Import Prelude Hlc Events Sortition OwnerShortlist AlloyExample NodeRegistry RegistryProps RegistryHistory SelectionBackend.
Open Scope Z_scope.

(** ** The backend is a set of addresses *)

Lemma swap_remove_Permutation {A} (i : nat) (l : list A) : (i < length l)%nat → swap_remove i l ≡ₚ delete i l.
Proof.
  intros Hi. unfold swap_remove. destruct l as [|x l _] using rev_ind; [simpl in Hi; lia|].
  rewrite last_snoc. rewrite length_app in Hi. simpl in Hi.
  destruct (decide (i = length l)) as [->|Hne].
  - rewrite insert_app_r_alt, Nat.sub_diag by lia. cbn [insert list_insert]. rewrite removelast_last.
    rewrite delete_middle, app_nil_r. done.
  - rewrite insert_app_l by lia. rewrite removelast_last.
    rewrite (delete_take_drop (l ++ [x])), take_app_le, drop_app_le by lia.
    rewrite insert_take_drop by lia. rewrite app_assoc, <- Permutation_cons_append. solve_Permutation.
Qed.

Section Backend.
Context `{AddressText}.

Definition addresses (b : ScoreBackend) : list Address := rn_address <$> registered b.

Inductive BackendOp := Add (address : string) | Remove (address : string).

Definition apply_backend (b : ScoreBackend) (op : BackendOp) : ScoreBackend :=
  match op with Add a => add b a | Remove a => remove b a end.

(** The abstract backend: a set of addresses; text that is no address is ignored. *)
Definition apply_set (X : gset Address) (op : BackendOp) : gset Address :=
  match op with
  | Add a => match parse_address a with Some x => {[x]} ∪ X | None => X end
  | Remove a => match parse_address a with Some x => X ∖ {[x]} | None => X end
  end.

Lemma add_addresses b a x :
  parse_address a = Some x → NoDup (addresses b) →
  NoDup (addresses (add b a)) ∧ ∀ y, y ∈ addresses (add b a) ↔ y = x ∨ y ∈ addresses b.
Proof.
  intros Hx Hnd. unfold add. rewrite Hx.
  assert (existsb (λ n, rn_address n =? x) (registered b) = bool_decide (x ∈ addresses b)) as ->.
  { apply eq_true_iff_eq. rewrite existsb_elem_of, bool_decide_eq_true. unfold addresses.
    rewrite list_elem_of_fmap. setoid_rewrite Z.eqb_eq. naive_solver. }
  case_bool_decide as Hin; cbn [negb]; [naive_solver|].
  unfold addresses in *. cbn [registered]. rewrite fmap_app. cbn. split.
  - apply NoDup_app. split_and!; [done|set_solver|apply NoDup_singleton].
  - set_solver.
Qed.

Lemma remove_addresses b a x :
  parse_address a = Some x → NoDup (addresses b) →
  NoDup (addresses (remove b a)) ∧ ∀ y, y ∈ addresses (remove b a) ↔ y ≠ x ∧ y ∈ addresses b.
Proof.
  intros Hx Hnd. unfold remove. rewrite Hx.
  destruct (position (λ n, rn_address n =? x) (registered b)) as [i|] eqn:Hp.
  - apply position_Some in Hp as (n & Hn & Hnx & _). apply Z.eqb_eq in Hnx.
    unfold addresses in *. cbn [registered].
    assert (rn_address <$> registered b ≡ₚ x :: (rn_address <$> swap_remove i (registered b))) as Hperm.
    { rewrite swap_remove_Permutation by (by eapply lookup_lt_Some).
      rewrite (delete_Permutation (registered b) i n Hn) at 1. cbn. by rewrite Hnx. }
    rewrite Hperm in Hnd. apply NoDup_cons in Hnd as [Hni Hnd]. split; [done|].
    intros y. rewrite Hperm, elem_of_cons. set_solver.
  - split; [done|]. intros y. split; [|naive_solver]. intros Hy. split; [|done]. intros ->.
    apply list_elem_of_fmap in Hy as (n & -> & Hn).
    destruct (proj2 (position_is_Some (λ m, rn_address m =? rn_address n) (registered b))) as [i Hi]; [|congruence].
    exists n. split; [done|]. apply Z.eqb_refl.
Qed.

(** The score backend implements a set of addresses: after any sequence of registrations and
    removals it lists no address twice, and it lists exactly the addresses that a set with the
    same insertions and deletions holds. *)
Theorem backend_refines_set (ops : list BackendOp) :
  let b := foldl apply_backend (mkBackend []) ops in
  NoDup (addresses b) ∧ ∀ a, a ∈ addresses b ↔ a ∈ foldl apply_set (∅ : gset Address) ops.
Proof.
  induction ops as [|op ops [IHn IHe]] using rev_ind; [split; [constructor|set_solver]|].
  cbn zeta in *. rewrite !foldl_app. cbn [foldl]. destruct op as [a|a]; cbn [apply_backend apply_set].
  - destruct (parse_address a) as [x|] eqn:E; [|unfold add; by rewrite E].
    destruct (add_addresses _ a x E IHn) as [Hn He]. split; [done|]. intros y. rewrite He. set_solver.
  - destruct (parse_address a) as [x|] eqn:E; [|unfold remove; by rewrite E].
    destruct (remove_addresses _ a x E IHn) as [Hn He]. split; [done|]. intros y. rewrite He. set_solver.
Qed.
End Backend.

(** ** Submission ranks *)

Section Ranks.
Context `{AlloyOps} `{AddressText}.
Context (b : ScoreBackend) (e3 : E3id) (seed : list Z) (chain : Z) (st : NodeStateStore)
  (snapshot : SortitionSnapshot) (candidate_owners : nat) (owner_state : BondOwnerState)
  (owner_shortlist : bool).

Definition view : list RegisteredNode := build_nodes_from_state b st snapshot.

(** The shortlist applies: it is switched on and the owner of every node in view is known. *)
Definition shortlisted : bool :=
  owner_shortlist &&
  ((length view - size (known_owners owner_state chain (request_block snapshot - 1) view)) =? 0)%nat.

Definition winners : result (list WinnerTicket) SortitionError :=
  if shortlisted
  then get_owner_candidates candidate_owners e3 seed view
         (known_owners owner_state chain (request_block snapshot - 1) view)
  else get_committee (length view) e3 seed view.

Definition submission (address : string) :=
  get_submission_index b e3 seed address chain st snapshot candidate_owners owner_state owner_shortlist.

Lemma submission_eq address want :
  parse_address address = Some want → has_local_capacity st e3 want snapshot = true →
  1 <= request_block snapshot →
  submission address = let? ws := lift winners in Ok (rank_of want ws).
Proof.
  intros Hp Hc Hr. unfold submission, get_submission_index, winners, shortlisted. rewrite Hp, Hc.
  unfold checked_sub. rewrite (proj2 (Z.leb_le _ _)) by done. cbn [negb]. fold view.
  destruct owner_shortlist; cbn [negb andb]; [|done]. by destruct (_ =? _)%nat.
Qed.

Lemma winners_from_view ws w :
  (∃ x, u256_from_decimal (e3_num e3) = Some x) → winners = Ok ws → w ∈ ws →
  ∃ n, n ∈ view ∧ rn_address n = w_address w ∧ ticket_id w ∈ tickets n.
Proof.
  intros [x Hx] Hw Hin.
  destruct (committee_items e3 seed x Hx view) as (items & Hi & _ & _ & Hbest).
  assert (w ∈ items) as Hit.
  { unfold winners in Hw. destruct shortlisted.
    - apply owner_candidates_spec in Hw as (all & firsts & rest & Hall & _ & Hsl).
      rewrite Hi in Hall. injection Hall as <-. apply (sl_members _ _ _ _ _ _ Hsl) in Hin as [Hin _].
      by eapply elem_of_take in Hin as (i & Hin%list_elem_of_lookup_2 & _).
    - rewrite Hi in Hw. injection Hw as <-. by eapply elem_of_take in Hin as (i & Hin%list_elem_of_lookup_2 & _). }
  apply Hbest in Hit as [(n & tid & Hn & Ha & Ht & ->) _]. exists n. done.
Qed.

Lemma rank_of_Some want ws rank tid :
  rank_of want ws = Some (rank, tid) →
  ∃ i w, rank = Z.of_nat i ∧ ws !! i = Some w ∧ w_address w = want ∧ tid = Some (ticket_id w).
Proof.
  unfold rank_of. destruct (position _ ws) as [i|] eqn:Hp; [|done]. cbn [mbind option_bind].
  apply position_Some in Hp as (w & Hw & Hwa & _). rewrite Hw. cbn [mbind option_bind]. intros [= <- <-].
  apply Z.eqb_eq in Hwa. naive_solver.
Qed.

Lemma view_elem n :
  n ∈ view → 1 <= request_block snapshot ∧ ∃ ns,
    rn_address n ∈ addresses b ∧ nodes st !! address_to_string (rn_address n) = Some ns ∧
    active_at ns (request_block snapshot - 1) = true ∧ snap_ticket_price snapshot ≠ 0 ∧
    tickets n = seqZ 1 (ticket_count (ticket_balance_at ns (request_block snapshot - 1))
                          (snap_ticket_price snapshot)).
Proof.
  unfold view, build_nodes_from_state, checked_sub.
  destruct (Z.leb_spec 1 (request_block snapshot)) as [Hle|Hlt]; [|by intros ?%elem_of_nil].
  intros (m & Hm & Hb)%list_elem_of_omap. split; [done|]. unfold build_node in Hb.
  destruct (nodes st !! _) as [ns|] eqn:Hns; [|done]. cbn [mbind option_bind] in Hb. exists ns.
  destruct (active_at ns _) eqn:Hact; [|done]. cbn [negb] in Hb.
  destruct (Z.eqb_spec (snap_ticket_price snapshot) 0) as [?|Hp]; [done|].
  destruct (_ =? 0); [done|]. injection Hb as <-. cbn [rn_address tickets]. split_and!; try done.
  by apply list_elem_of_fmap_2.
Qed.

(** The store and the snapshot hold [U256] values. *)
Definition amounts_ok : Prop :=
  0 <= snap_ticket_price snapshot ∧
  map_Forall (λ _ ns, Forall (λ c, 0 <= cp_value c) (ticket_balance_history ns)) (nodes st).

Lemma balance_nonneg ns t :
  Forall (λ c, 0 <= cp_value c) (ticket_balance_history ns) → 0 <= ticket_balance_at ns t.
Proof.
  intros Hall. unfold ticket_balance_at, checkpoint_value. destruct (partition_point _ _) as [|i]; [done|].
  destruct (_ !! i) as [c|] eqn:E; [|done]. cbn. rewrite Forall_lookup in Hall. by apply (Hall i).
Qed.

Lemma view_tickets n : amounts_ok → n ∈ view → 1 ∈ tickets n.
Proof.
  intros [Hp Hb]. unfold view, build_nodes_from_state. destruct (checked_sub _ _) as [t|]; [|by intros ?%elem_of_nil].
  intros (m & Hm & Hn)%list_elem_of_omap. unfold build_node in Hn.
  destruct (nodes st !! _) as [ns|] eqn:Hns; [|done]. cbn [mbind option_bind] in Hn.
  destruct (active_at ns t); [|done]. cbn [negb] in Hn.
  destruct (Z.eqb_spec (snap_ticket_price snapshot) 0); [done|].
  destruct (Z.eqb_spec (ticket_count (ticket_balance_at ns t) (snap_ticket_price snapshot)) 0) as [|Hne]; [done|].
  injection Hn as <-. cbn [tickets]. apply elem_of_seqZ.
  assert (0 <= ticket_balance_at ns t / snap_ticket_price snapshot)
    by (apply Z.div_pos; [by apply balance_nonneg, (Hb _ _ Hns)|lia]).
  unfold ticket_count in *. case_match; lia.
Qed.

Lemma omap_full {A B} (f : A → option B) (l : list A) :
  (length l <= length (omap f l))%nat → ∀ x, x ∈ l → is_Some (f x).
Proof.
  induction l as [|y l IH]; [by intros _ x ?%elem_of_nil|].
  assert (length (omap f l) <= length l)%nat as Hle.
  { clear. induction l as [|z l IH]; cbn; [lia|]. destruct (f z); cbn; lia. }
  cbn [omap list_omap length]. destruct (f y) eqn:E; cbn [length]; [|lia]. intros Hl x [->|Hx]%elem_of_cons.
  - by rewrite E.
  - apply IH; [lia|done].
Qed.

Lemma known_owners_all t :
  (length view - size (known_owners owner_state chain t view) = 0)%nat →
  ∀ n, n ∈ view → is_Some (known_owners owner_state chain t view !! rn_address n).
Proof.
  unfold known_owners. set (f := λ n, _ <$> owner_at _ _ _ _). intros Hl n Hn.
  assert (∀ l : list (Address * Address), size (list_to_map l : gmap Address Address) <= length l)%nat as Hs.
  { clear. induction l as [|[k v] l IH]; [done|]. rewrite list_to_map_cons, map_size_insert.
    cbn [length]. destruct (_ !! _); unfold id; lia. }
  specialize (Hs (rev (omap f view))). rewrite length_rev in Hs.
  destruct (omap_full f view ltac:(lia) n Hn) as [[k o] Ho].
  destruct (list_to_map _ !! _) eqn:E; [done|]. apply not_elem_of_list_to_map in E. exfalso. apply E.
  apply list_elem_of_fmap. exists (k, o). split.
  - unfold f in Ho. destruct (owner_at _ _ _ _); [|done]. by injection Ho as <- <-.
  - apply list_elem_of_In, in_rev. rewrite rev_involutive. apply list_elem_of_In, list_elem_of_omap. eauto.
Qed.

Lemma owner_loop_total size owners : ∀ ws groups cs,
  (∀ w, w ∈ ws → is_Some (owners !! w_address w)) →
  ∃ r, owner_loop size owners groups cs ws = Ok r.
Proof.
  induction ws as [|w ws IH]; intros groups cs Ho; cbn [owner_loop]; [by eexists|].
  destruct (Ho w (list_elem_of_here _ _)) as [o ->]. destruct (default _ _) as [r m].
  assert (∀ w, w ∈ ws → is_Some (owners !! w_address w)) by (intros; by apply Ho, list_elem_of_further).
  by destruct (_ <? _)%nat; apply IH.
Qed.

(** With a readable E3 id the selection has a result. *)
Lemma winners_total :
  (∃ x, u256_from_decimal (e3_num e3) = Some x) → ∃ ws, winners = Ok ws.
Proof.
  intros [x Hx]. destruct (committee_items e3 seed x Hx view) as (items & Hi & _ & _ & Hbest).
  unfold winners. destruct shortlisted eqn:Hs; [|rewrite Hi; by eexists].
  unfold shortlisted in Hs. apply andb_true_iff in Hs as [_ Hs%Nat.eqb_eq].
  unfold get_owner_candidates. rewrite Hi.
  destruct (owner_loop_total candidate_owners
    (known_owners owner_state chain (request_block snapshot - 1) view)
    (merge_sort operator_le (take (length view) items)) ∅ []) as [r ->]; [|by eexists].
  intros w Hw. rewrite merge_sort_Permutation in Hw.
  apply elem_of_take in Hw as (i & Hw%list_elem_of_lookup_2 & _).
  apply Hbest in Hw as [(n & tid & Hn & Ha & _) _]. rewrite <- Ha. by apply known_owners_all.
Qed.
Lemma submission_inv address rank tid :
  submission address = Ok (Some (rank, tid)) →
  ∃ want ws, parse_address address = Some want ∧ has_local_capacity st e3 want snapshot = true ∧
    winners = Ok ws ∧ rank_of want ws = Some (rank, tid).
Proof.
  intros Hsub. destruct (parse_address address) as [want|] eqn:Hp.
  2:{ unfold submission, get_submission_index in Hsub. by rewrite Hp in Hsub. }
  destruct (has_local_capacity st e3 want snapshot) eqn:Hc.
  2:{ unfold submission, get_submission_index in Hsub. by rewrite Hp, Hc in Hsub. }
  destruct (Z.le_gt_cases 1 (request_block snapshot)) as [Hr|Hr].
  2:{ unfold submission, get_submission_index, checked_sub in Hsub. rewrite Hp, Hc in Hsub.
      cbn [negb] in Hsub. by rewrite (proj2 (Z.leb_gt _ _)) in Hsub. }
  rewrite (submission_eq address want Hp Hc Hr) in Hsub.
  destruct winners as [ws|] eqn:Hw; cbn [lift] in Hsub; [|done].
  exists want, ws. split_and!; [done..|]. by injection Hsub.
Qed.

(** In the view an address has one ticket list, so its best ticket is the one of its node. *)
Lemma view_best x n :
  u256_from_decimal (e3_num e3) = Some x → amounts_ok → n ∈ view →
  ∃ w, w_address w = rn_address n ∧ ticket_id w ∈ tickets n ∧ best_of seed x view (rn_address n) w.
Proof.
  intros Hx Ham Hn. pose proof (view_tickets n Ham Hn) as H1.
  destruct (calculate_best_ticket_least e3 seed x Hx n) as (w & _ & Hwa & Hmem & Hmin);
    [by intros E; rewrite E in H1; apply elem_of_nil in H1|].
  destruct Hmem as (tid & Htid & Ew). exists w. split; [done|]. split; [by rewrite Ew|]. split.
  - exists n, tid. done.
  - intros w' (n' & tid' & Hn' & Ha' & Ht' & ->). apply Hmin. exists tid'. split; [|by rewrite <- Ha'].
    apply view_elem in Hn as (_ & ns & _ & Hns & _ & _ & ->).
    apply view_elem in Hn' as (_ & ns' & _ & Hns' & _ & _ & E). rewrite E in Ht'.
    rewrite Ha', Hns in Hns'. by injection Hns' as <-.
Qed.

(** The committee of the whole view ranks every node in view. *)
Lemma view_ranked x n ws :
  u256_from_decimal (e3_num e3) = Some x → amounts_ok → n ∈ view →
  get_committee (length view) e3 seed view = Ok ws →
  ∃ rank t, rank_of (rn_address n) ws = Some (rank, Some t) ∧ t ∈ tickets n ∧
    0 <= rank < Z.of_nat (length view).
Proof.
  intros Hx Ham Hn Hws. destruct (view_best x n Hx Ham Hn) as (w & Hwa & Hwt & Hwb).
  destruct (committee_items e3 seed x Hx view) as (items & Hi & _ & Hnd & Hbest).
  assert (length items <= length view)%nat as Hlen.
  { rewrite <- (length_fmap w_address items), <- (length_fmap rn_address view).
    apply submseteq_length, NoDup_submseteq; [done|]. intros a (v & -> & Hv)%list_elem_of_fmap.
    apply Hbest in Hv as [(m & tid & Hm & <- & _) _]. by apply list_elem_of_fmap_2. }
  rewrite Hi, take_ge in Hws by done. injection Hws as <-.
  assert (w ∈ items) as Hw by (apply Hbest; by rewrite Hwa).
  destruct (proj2 (position_is_Some (λ v, w_address v =? rn_address n) items)) as [i Hp].
  { exists w. split; [done|]. by apply Z.eqb_eq. }
  unfold rank_of. rewrite Hp. apply position_Some in Hp as (v & Hv & Hva%Z.eqb_eq & _).
  assert (v = w) as ->.
  { apply list_elem_of_lookup in Hw as [j Hj].
    assert (i = j) as ->; [|congruence].
    eapply (NoDup_lookup (w_address <$> items)); [done|by rewrite list_lookup_fmap, Hv|].
    rewrite list_lookup_fmap, Hj. cbn. congruence. }
  cbn [mbind option_bind]. rewrite Hv. cbn [mbind option_bind]. eexists _, _. split; [done|].
  split; [done|]. apply lookup_lt_Some in Hv. lia.
Qed.

(** A rank is backed by a registered, active operator with a ticket. *)
Lemma submission_backed address rank tid x :
  u256_from_decimal (e3_num e3) = Some x → submission address = Ok (Some (rank, tid)) →
  ∃ want ns t, parse_address address = Some want ∧ has_local_capacity st e3 want snapshot = true ∧
    want ∈ addresses b ∧ nodes st !! address_to_string want = Some ns ∧
    active_at ns (request_block snapshot - 1) = true ∧ tid = Some t ∧
    1 <= t <= ticket_balance_at ns (request_block snapshot - 1) / snap_ticket_price snapshot.
Proof.
  intros Hx (want & ws & Hp & Hc & Hws & Hrank)%submission_inv.
  apply rank_of_Some in Hrank as (i & w & -> & Hw & <- & ->).
  destruct (winners_from_view ws w) as (n & Hn & Ha & Ht);
    [by exists x|done|by eapply list_elem_of_lookup_2|].
  apply view_elem in Hn as (Hr & ns & Hreg & Hns & Hact & Hpr & Htk). rewrite Ha in Hreg, Hns.
  rewrite Htk in Ht. apply elem_of_seqZ in Ht. exists (w_address w), ns, (ticket_id w).
  do 6 (split; [done|]). unfold ticket_count in Ht. case_match; lia.
Qed.

(** Equal ranks from one view belong to one address. *)
Lemma submission_rank_unshared address address' rank tid tid' :
  submission address = Ok (Some (rank, tid)) → submission address' = Ok (Some (rank, tid')) →
  parse_address address' = parse_address address.
Proof.
  intros (want & ws & Hp & _ & Hws & Hr)%submission_inv (want' & ws' & Hp' & _ & Hws' & Hr')%submission_inv.
  rewrite Hws in Hws'. injection Hws' as <-. rewrite Hp, Hp'.
  apply rank_of_Some in Hr as (i & w & -> & Hw & <- & _).
  apply rank_of_Some in Hr' as (j & w' & Hj & Hw' & <- & _). apply Nat2Z.inj in Hj. subst j. congruence.
Qed.
End Ranks.

(** A submission is legitimate and its rank is unshared.  When the backend answers with a rank
    and a ticket, the address is registered and free to take the duty, was active just before the
    request, and the ticket is one of the tickets its balance bought at the request's price; and
    no other address can obtain the same rank from the same view. *)
Theorem submission_sound `{AlloyOps} `{AddressText} b e3 seed chain st snapshot candidate_owners
    owner_state owner_shortlist address rank tid (e3_u256 : Z) :
  u256_from_decimal (e3_num e3) = Some e3_u256 →
  get_submission_index b e3 seed address chain st snapshot candidate_owners owner_state
    owner_shortlist = Ok (Some (rank, tid)) →
  ∃ want ns t, parse_address address = Some want ∧ has_local_capacity st e3 want snapshot = true ∧
    want ∈ addresses b ∧ nodes st !! address_to_string want = Some ns ∧
    active_at ns (request_block snapshot - 1) = true ∧ tid = Some t ∧
    1 <= t <= ticket_balance_at ns (request_block snapshot - 1) / snap_ticket_price snapshot ∧
    ∀ address' tid',
      get_submission_index b e3 seed address' chain st snapshot candidate_owners owner_state
        owner_shortlist = Ok (Some (rank, tid')) →
      parse_address address' = Some want.
Proof.
  intros Hx Hsub. destruct (submission_backed _ _ _ _ _ _ _ _ _ _ _ _ _ Hx Hsub)
    as (want & ns & t & Hp & Hc & Hreg & Hns & Hact & Ht & Hle).
  exists want, ns, t. do 7 (split; [done|]). intros address' tid' Hsub'. rewrite <- Hp.
  exact (submission_rank_unshared _ _ _ _ _ _ _ _ _ _ _ _ _ _ Hsub Hsub').
Qed.

(** The fallback loses nobody.  When the owner shortlist is off, or the owner of some node in
    view is unknown, every node in view that has local capacity is given a rank, below the number
    of nodes in view, and one of its tickets; with the shortlist on and complete the backend still
    answers, never with an error. *)
Theorem eligible_nodes_submit `{AlloyOps} `{AddressText} b e3 seed chain st snapshot candidate_owners
    owner_state owner_shortlist address want n (e3_u256 : Z) :
  u256_from_decimal (e3_num e3) = Some e3_u256 → amounts_ok st snapshot →
  parse_address address = Some want → has_local_capacity st e3 want snapshot = true →
  n ∈ build_nodes_from_state b st snapshot → rn_address n = want →
  ∃ r, get_submission_index b e3 seed address chain st snapshot candidate_owners owner_state
         owner_shortlist = Ok r ∧
    (shortlisted b chain st snapshot owner_state owner_shortlist = false →
     ∃ rank t, r = Some (rank, Some t) ∧ t ∈ tickets n ∧
       0 <= rank < Z.of_nat (length (build_nodes_from_state b st snapshot))).
Proof.
  intros Hx Ham Hp Hc Hn Ha. pose proof (view_elem b st snapshot n Hn) as [Hr _].
  pose proof (submission_eq b e3 seed chain st snapshot candidate_owners owner_state owner_shortlist
    address want Hp Hc Hr) as E. unfold submission in E. rewrite E.
  destruct (winners_total b e3 seed chain st snapshot candidate_owners owner_state owner_shortlist)
    as [ws Hws]; [by exists e3_u256|]. rewrite Hws. cbn [lift]. eexists. split; [done|].
  intros Hs. unfold winners in Hws. rewrite Hs in Hws. subst want.
  by apply (view_ranked b e3 seed st snapshot e3_u256 n ws).
Qed.

(** ** Bond owners *)

Section Owners.
Context `{AddressText}.

Fixpoint record_all (s : BondOwnerState) (events : list (BondOwnerSet * Z))
    : result BondOwnerState OwnerError :=
  match events with
  | [] => Ok s
  | (ev, t) :: rest => let? s' := record s ev t in record_all s' rest
  end.

(** The owners that a list of events gives an operator. *)
Definition owner_event (chain : Z) (operator : Address) (ev : BondOwnerSet * Z)
    : list (ChainPosition * Address) :=
  if decide (bos_chain_id ev.1 = chain ∧ parse_address (bos_operator ev.1) = Some operator)
  then match parse_address (bond_owner ev.1) with Some o => [(mkPos ev.2 0, o)] | None => [] end
  else [].

Definition owner_history (s : BondOwnerState) (chain : Z) (operator : Address) :=
  default [] (operators ← chains s !! chain; operators !! operator).

Lemma owner_at_history s chain operator t :
  owner_at s chain operator t = checkpoint_value (owner_history s chain operator) t.
Proof.
  unfold owner_at, owner_history, checkpoint_value. destruct (chains s !! chain) as [m|]; [|done].
  cbn [mbind option_bind]. by destruct (m !! operator).
Qed.

(** A recorded event is a checkpoint pushed at log index 0. *)
Lemma record_push s ev t s' :
  record s ev t = Ok s' →
  ∃ operator owner, parse_address (bos_operator ev) = Some operator ∧
    parse_address (bond_owner ev) = Some owner ∧ owner ≠ 0 ∧
    (∀ c, last (owner_history s (bos_chain_id ev) operator) = Some c → cp_timepoint c <= t) ∧
    ∀ chain a, owner_history s' chain a
      = if decide (bos_chain_id ev = chain ∧ operator = a)
        then (push_checkpoint (owner_history s chain a) 0 (mkPos t 0) owner).1.1
        else owner_history s chain a.
Proof.
  unfold record. destruct (parse_address (bos_operator ev)) as [op|]; [|done].
  destruct (parse_address (bond_owner ev)) as [o|]; [|done].
  destruct (Z.eqb_spec o 0) as [|Hne]; [done|].
  assert (default [] (default ∅ (chains s !! bos_chain_id ev) !! op)
    = owner_history s (bos_chain_id ev) op) as Eh.
  { unfold owner_history. by destruct (chains s !! bos_chain_id ev). }
  cbn zeta. rewrite Eh.
  set (put h := mkOwners (bo_schema_version s)
    (<[bos_chain_id ev := <[op := h]> (default ∅ (chains s !! bos_chain_id ev))]> (chains s))).
  intros Hrec.
  assert (s' = put (push_checkpoint (owner_history s (bos_chain_id ev) op) 0 (mkPos t 0) o).1.1 ∧
    (∀ c, last (owner_history s (bos_chain_id ev) op) = Some c → cp_timepoint c <= t)) as [-> Hlast].
  { unfold push_checkpoint. destruct (last (owner_history s _ op)) as [c|] eqn:El.
    2:{ split; [|done]. by injection Hrec as <-. }
    destruct (Z.leb_spec (cp_timepoint c) t) as [Hle|]; [|done]. cbn [negb] in Hrec.
    rewrite bool_decide_eq_false_2 by (unfold pos_lt; cbn; lia). cbn [timepoint log_index].
    split; [|by intros ? [= <-]]. destruct (cp_timepoint c =? t); by injection Hrec as <-. }
  exists op, o. split_and!; [done..|]. intros chain a. unfold owner_history at 1. subst put. cbn [chains].
  destruct (decide (bos_chain_id ev = chain)) as [<-|Hc].
  2:{ by rewrite lookup_insert_ne, decide_False by naive_solver. }
  rewrite lookup_insert_eq. cbn [mbind option_bind]. destruct (decide (op = a)) as [<-|Ha].
  - by rewrite lookup_insert_eq, decide_True.
  - rewrite lookup_insert_ne, decide_False by naive_solver. unfold owner_history.
    by destruct (chains s !! bos_chain_id ev).
Qed.

(** The history of an operator represents its events, whatever the default. *)
Definition owners_ok (l : list (ChainPosition * Address)) (h : list (StateCheckpoint Address)) : Prop :=
  (∀ d, represents d l h 0) ∧
  ∀ y, y ∈ l → log_index y.1 = 0 ∧ ∀ ev, last l = Some ev → timepoint y.1 <= timepoint ev.1.

Lemma owners_ok_last l h c : owners_ok l h → last h = Some c → ∃ v, last l = Some (mkPos (cp_timepoint c) 0, v).
Proof.
  intros [Hr Hl] Hc. destruct (Hr 0) as [_ [[-> _]|(h0 & p & v & Hp & -> & Hli & _)]]; [done|].
  rewrite last_snoc in Hc. injection Hc as <-. exists v. rewrite Hp. cbn. by destruct p; cbn in *; subst.
Qed.

Lemma owners_ok_nil l : owners_ok l [] → l = [].
Proof.
  intros [Hr _]. destruct (Hr 0) as [_ [[_ H0]|(h0 & ? & ? & _ & E & _)]]; [|by destruct h0].
  destruct (Hr 1) as [_ [[_ H1]|(h0 & ? & ? & _ & E & _)]]; [|by destruct h0].
  destruct l as [|ev l]; [done|]. inversion H0; inversion H1; subst. congruence.
Qed.

Lemma owners_ok_push l h t o :
  owners_ok l h → (∀ c, last h = Some c → cp_timepoint c <= t) →
  owners_ok (l ++ [(mkPos t 0, o)]) (push_checkpoint h 0 (mkPos t 0) o).1.1.
Proof.
  intros Hok Ht. pose proof Hok as [Hr Hl].
  assert (∀ y, y ∈ l → log_index y.1 = 0 ∧ timepoint y.1 <= t) as Hle.
  { intros y Hy. destruct (Hl y Hy) as [H0 Hy']. split; [done|].
    destruct (last h) as [c|] eqn:Ec.
    - destruct (owners_ok_last l h c Hok Ec) as [v Hv]. specialize (Hy' _ Hv). specialize (Ht c eq_refl).
      cbn in Hy'. lia.
    - apply last_None in Ec as ->. apply owners_ok_nil in Hok as ->. by apply elem_of_nil in Hy. }
  assert ((push_checkpoint h 0 (mkPos t 0) o).1.2 = 0) as Hli.
  { unfold push_checkpoint. repeat case_match; done. }
  split.
  - intros d. pose proof (represents_push d l h 0 (mkPos t 0) o (Hr d)) as Hp. cbn zeta in Hp.
    rewrite Hli in Hp. apply Hp. intros y Hy. destruct (Hle y (last_Some_elem_of _ _ Hy)). unfold in_order, pos_lt. cbn. lia.
  - intros y Hy. rewrite last_snoc. assert (log_index y.1 = 0 ∧ timepoint y.1 <= t) as [Hy0 Hyt].
    { apply elem_of_app in Hy as [Hy|Hy]; [by apply Hle|]. apply list_elem_of_singleton in Hy as ->.
      cbn. lia. }
    split; [done|]. by intros ev [= <-].
Qed.

Lemma record_all_owners chain a events : ∀ s s' l,
  owners_ok l (owner_history s chain a) → record_all s events = Ok s' →
  owners_ok (l ++ flat_map (owner_event chain a) events) (owner_history s' chain a).
Proof.
  induction events as [|[ev t] events IH]; intros s s' l Hok; cbn [record_all flat_map].
  { intros [= <-]. by rewrite app_nil_r. }
  destruct (record s ev t) as [s1|] eqn:E; [|done]. intros Hrec. rewrite app_assoc.
  apply (IH s1 s'); [|done].
  apply record_push in E as (op & o & Hop & Ho & _ & Hlast & Hh). rewrite Hh.
  unfold owner_event. cbn [fst snd]. rewrite Hop, Ho.
  destruct (decide (bos_chain_id ev = chain ∧ op = a)) as [[<- <-]|Hne].
  - rewrite decide_True by done. by apply owners_ok_push.
  - rewrite decide_False by naive_solver. by rewrite app_nil_r.
Qed.
End Owners.

(** The owner that counts is the owner at request time.  Once a list of bond-owner events has
    been accepted, the owner of an operator at a time is the owner set by its last event on that
    chain up to that time, and none before its first event; later transfers never rewrite the
    past, and events of other chains and operators do not matter. *)
Theorem owner_at_request_time `{AddressText} (events : list (BondOwnerSet * Z)) (s : BondOwnerState)
    (chain : Z) (operator : Address) (t : Z) :
  record_all default_owners events = Ok s →
  owner_at s chain operator t = value_at (flat_map (owner_event chain operator) events) t.
Proof.
  intros Hrec. rewrite owner_at_history.
  destruct (record_all_owners chain operator events default_owners s []) as [Hr _]; [|done|].
  - split; [intros d; apply represents_nil|by intros y ?%elem_of_nil].
  - cbn [app] in Hr. destruct (Hr 0) as [H0 _]. destruct (Hr 1) as [H1 _].
    specialize (H0 t). specialize (H1 t).
    destruct (checkpoint_value _ t), (value_at _ t); cbn in *; congruence.
Qed.

(** An eligibility read ends in time to submit the ticket: it is started only when more than
    the reserve is left before the deadline, and then it is bounded by its own timeout and by the
    moment the reserve begins. *)
Theorem eligibility_read_leaves_reserve (deadline now : Z) :
  match read_limit deadline now with
  | Some limit => 0 < limit <= ELIGIBILITY_READ_TIMEOUT ∧ now + limit + SUBMISSION_RESERVE_SECS <= deadline
  | None => deadline <= now + SUBMISSION_RESERVE_SECS
  end.
Proof.
  unfold read_limit, checked_sub, ELIGIBILITY_READ_TIMEOUT, SUBMISSION_RESERVE_SECS.
  repeat (case_match; bool_to_prop; simplify_option_eq); lia.
Qed.

(** ** Example: two registered operators, decimal text for addresses. *)
Section SelectionExample.

Definition ex_text : AddressText :=
  {| address_to_string := λ a, if a =? 10 then "10"%string else "20"%string;
     parse_address := λ s, if String.eqb s "10" then Some 10
                           else if String.eqb s "20" then Some 20 else None |}.
Local Existing Instance ex_text.

Definition ex_owner_events : list (BondOwnerSet * Z) :=
  [(mkBondOwnerSet "10" "20" 1, 5); (mkBondOwnerSet "10" "10" 1, 9)]%string.
Definition ex_recorded : BondOwnerState :=
  match record_all default_owners ex_owner_events with Ok s => s | Err _ => default_owners end.

Lemma owner_at_request_time_witness : owner_at ex_recorded 1 10 8 = Some 20.
Proof.
  assert (record_all default_owners ex_owner_events = Ok ex_recorded) as E by reflexivity.
  rewrite (owner_at_request_time ex_owner_events ex_recorded 1 10 8 E). reflexivity.
Defined.

Definition ex_registry_ops : list RegistryOp :=
  [OpBalance 1 "10" 30 (mkPos 1 0); OpActive 1 "10" true (mkPos 1 1);
   OpBalance 1 "20" 10 (mkPos 2 0); OpActive 1 "20" true (mkPos 2 1)]%string.
Definition ex_store : NodeStateStore := default default_store (run_ops ex_registry_ops ∅ !! 1).
Definition ex_backend : ScoreBackend := foldl apply_backend (mkBackend []) [Add "10"; Add "20"]%string.
Definition ex_snap : SortitionSnapshot := mkSnapshot 10 10.

Lemma submission_sound_witness :
  match get_submission_index ex_backend ex_sort_e3 ex_seed "20" 1 ex_store ex_snap 5 default_owners true with
  | Ok (Some (rank, Some t)) => 1 <= t <= 1
  | _ => False
  end.
Proof.
  assert (u256_from_decimal (e3_num ex_sort_e3) = Some 7) as He by (vm_compute; reflexivity).
  destruct (get_submission_index ex_backend ex_sort_e3 ex_seed "20" 1 ex_store ex_snap 5 default_owners true)
    as [[[rank [t|]]|]|] eqn:E; try (vm_compute in E; discriminate E).
  destruct (submission_sound ex_backend ex_sort_e3 ex_seed 1 ex_store ex_snap 5 default_owners true "20" rank (Some t) 7 He E)
    as (want & ns & t' & Hp & _ & _ & Hns & _ & Ht & Hb & _).
  injection Ht as <-. vm_compute in Hp. injection Hp as <-. vm_compute in Hns. injection Hns as <-.
  exact Hb.
Defined.

Lemma eligible_nodes_submit_witness :
  match get_submission_index ex_backend ex_sort_e3 ex_seed "10" 1 ex_store ex_snap 5 default_owners false with
  | Ok (Some (rank, Some t)) => t ∈ [1; 2; 3] ∧ 0 <= rank < 2
  | _ => False
  end.
Proof.
  assert (u256_from_decimal (e3_num ex_sort_e3) = Some 7) as He by (vm_compute; reflexivity).
  assert (amounts_ok ex_store ex_snap) as Ham.
  { split; [done|]. apply (bool_decide_unpack _). vm_compute. exact I. }
  destruct (eligible_nodes_submit ex_backend ex_sort_e3 ex_seed 1 ex_store ex_snap 5 default_owners false "10" 10
    (mkNode 10 [1; 2; 3]) 7 He Ham) as (r & -> & Hr); [reflexivity|reflexivity| |reflexivity|].
  - change (build_nodes_from_state ex_backend ex_store ex_snap) with [mkNode 10 [1; 2; 3]; mkNode 20 [1]].
    apply list_elem_of_here.
  - destruct Hr as (rank & t & -> & Ht & Hb); [reflexivity|]. exact (conj Ht Hb).
Defined.
End SelectionExample.
