(* ===== verification/Admission.v ===== *)
(** * Historical admission rules

    Model of crates/orchestration/sortition/src/admission.rs: the admission policy and the start
    times of operators over time, the bond-owner identity policy, and the rank of this node under
    them (get_node_index and identity_required of actor.rs).

    [Result] of an update is paired with the state it leaves, since a chain entry is created
    before an update can fail.  [Cow] is the store it stands for.  Of the
    actor, the record keeps the persisted parts and the address that the rank depends on; each is
    present once the actor has loaded it. *)

From S2P Require Import Prelude Hlc Events Sortition NodeRegistry SelectionBackend.
Open Scope Z_scope.

(** ** Histories (at and record of admission.rs) *)

Definition history_at {T} (d : T) (history : list (StateCheckpoint T)) (t : Z) : T :=
  match partition_point (λ c, cp_timepoint c <=? t) history with
  | O => d
  | S i => default d (cp_value <$> history !! i)
  end.

Definition record_entry {T} (history : list (StateCheckpoint T)) (t : Z) (v : T)
    : list (StateCheckpoint T) * bool :=
  match last history with
  | Some l =>
      if negb (cp_timepoint l <=? t) then (history, false)
      else if cp_timepoint l =? t
      then (removelast history ++ [mkCheckpoint (cp_timepoint l) v], true)
      else (history ++ [mkCheckpoint t v], true)
  | None => (history ++ [mkCheckpoint t v], true)
  end.

(** ** Admission *)

Record AdmissionPolicy := mkAdmissionPolicy {
  cooldown_enabled : bool; admissions_paused : bool; cooldown_duration : Z; pause_timepoint : Z;
  pause_cooldown_enabled : bool; pause_cooldown_duration : Z }.

Definition default_policy : AdmissionPolicy := mkAdmissionPolicy false false 0 0 false 0.

Inductive AdmissionChange :=
| Policy (p : AdmissionPolicy)
| Started (operator : string).

Record AdmissionUpdated := mkAdmissionUpdated {
  au_chain_id : Z; au_timepoint : Z; change : AdmissionChange }.

Record ChainAdmission := mkChainAdmission {
  policies : list (StateCheckpoint AdmissionPolicy);
  starts : gmap Address (list (StateCheckpoint Z)) }.

Definition default_chain : ChainAdmission := mkChainAdmission [] ∅.

Record AdmissionState := mkAdmission {
  adm_schema_version : Z; adm_chains : gmap Z ChainAdmission }.

Definition default_admission : AdmissionState := mkAdmission 2 ∅.

Definition validate_admission (s : AdmissionState) : bool := adm_schema_version s =? 2.

Definition allowed (since t : Z) (policy : AdmissionPolicy) (node : NodeState) : bool :=
  if admissions_paused policy && negb (active_at node (pause_timepoint policy)) then false
  else
    let '(boundary, enabled, duration) :=
      if admissions_paused policy
      then (pause_timepoint policy, pause_cooldown_enabled policy, pause_cooldown_duration policy)
      else (t, cooldown_enabled policy, cooldown_duration policy) in
    (since <=? boundary) && ((since =? 0) || negb enabled || (duration <=? boundary - since)).

Section Text.
Context `{AddressText}.

(** The flag is [true] on success. *)
Definition record_admission (s : AdmissionState) (event : AdmissionUpdated) : AdmissionState * bool :=
  let chain := default default_chain (adm_chains s !! au_chain_id event) in
  let put c := mkAdmission (adm_schema_version s) (<[au_chain_id event := c]> (adm_chains s)) in
  match change event with
  | Policy policy =>
      let '(h, ok) := record_entry (policies chain) (au_timepoint event) policy in
      (put (mkChainAdmission h (starts chain)), ok)
  | Started operator =>
      match parse_address operator with
      | None => (put chain, false)
      | Some o =>
          let '(h, ok) :=
            record_entry (default [] (starts chain !! o)) (au_timepoint event) (au_timepoint event) in
          (put (mkChainAdmission (policies chain) (<[o := h]> (starts chain))), ok)
      end
  end.

Definition admits (chain : ChainAdmission) (policy : AdmissionPolicy) (t : Z) (address : string)
    (node : NodeState) : bool :=
  match parse_address address with
  | None => false
  | Some operator =>
      let since := default 0 ((λ h, history_at 0 h t) <$> starts chain !! operator) in
      allowed since t policy node
  end.

Definition admission_filter (s : AdmissionState) (chain_id t : Z) (st : NodeStateStore)
    : NodeStateStore :=
  match adm_chains s !! chain_id with
  | None => st
  | Some chain =>
      let policy := history_at default_policy (policies chain) t in
      if negb (cooldown_enabled policy) && negb (admissions_paused policy) then st
      else set_nodes st (filter (λ kv, Is_true (admits chain policy t kv.1 kv.2)) (nodes st))
  end.

Definition pause_cutoff (s : AdmissionState) (chain_id t : Z) : option Z :=
  chain ← adm_chains s !! chain_id;
  let policy := history_at default_policy (policies chain) t in
  if admissions_paused policy then Some (pause_timepoint policy) else None.

(** ** Identity policy *)

Record IdentityPolicyState := mkIdentity {
  id_schema_version : Z;
  id_chains : gmap Z (list (StateCheckpoint bool));
  replayed : gmap Z Z;
  unknown : gset Z }.

Definition default_identity : IdentityPolicyState := mkIdentity 1 ∅ ∅ ∅.

Definition validate_identity (s : IdentityPolicyState) : bool := id_schema_version s =? 1.

Record IdentityPolicyChange := mkIdentityChange {
  ic_chain_id : Z; ic_timepoint : Z; required : bool }.

Definition put_history (s : IdentityPolicyState) (chain : Z) (h : list (StateCheckpoint bool)) :=
  mkIdentity (id_schema_version s) (<[chain := h]> (id_chains s)) (replayed s) (unknown s).

Definition record_identity (s : IdentityPolicyState) (c : IdentityPolicyChange)
    : IdentityPolicyState * bool :=
  let '(h, ok) := record_entry (default [] (id_chains s !! ic_chain_id c)) (ic_timepoint c) (required c) in
  (put_history s (ic_chain_id c) h, ok).

(** The flag tells whether the history changed. *)
Definition catch_up (s : IdentityPolicyState) (c : IdentityPolicyChange) : IdentityPolicyState * bool :=
  let history := default [] (id_chains s !! ic_chain_id c) in
  let index := partition_point (λ e, cp_timepoint e <? ic_timepoint c) history in
  let insert :=
    (put_history s (ic_chain_id c)
       (take index history ++ mkCheckpoint (ic_timepoint c) (required c) :: drop index history), true) in
  match history !! index with
  | Some entry =>
      if cp_timepoint entry =? ic_timepoint c
      then (put_history s (ic_chain_id c)
              (<[index := mkCheckpoint (cp_timepoint entry) (required c)]> history),
            negb (Bool.eqb (cp_value entry) (required c)))
      else insert
  | None => insert
  end.

Definition required_at (s : IdentityPolicyState) (chain t : Z) : bool :=
  bool_decide (chain ∈ unknown s)
  || match id_chains s !! chain with Some h => history_at false h t | None => false end.

Definition required_for_selection (s : IdentityPolicyState) (chain t : Z) (cutoff : option Z) : bool :=
  required_at s chain t
  || match cutoff with Some c => required_at s chain c | None => false end.

(** ** The rank of this node (actor.rs) *)

Record Sortition := mkSortition {
  backends : gmap Z ScoreBackend;
  node_state : Registry;
  bond_owners : BondOwnerState;
  admission : AdmissionState;
  identity_policy : IdentityPolicyState;
  address : string }.

Definition identity_required (a : Sortition) (chain : Z) (snapshot : SortitionSnapshot) : option bool :=
  t ← checked_sub (request_block snapshot) 1;
  Some (required_for_selection (identity_policy a) chain t (pause_cutoff (admission a) chain t)).

(** An error of the backend is reported and ranks nobody. *)
Definition get_node_index `{AlloyOps} (a : Sortition) (e3 : E3id) (seed : list Z) (chain : Z)
    (snapshot : SortitionSnapshot) (candidate_owners : nat) (eligible : option (gset Address))
    : option (Z * option Z) :=
  backend ← backends a !! chain;
  st ← node_state a !! chain;
  t ← checked_sub (request_block snapshot) 1;
  let st := admission_filter (admission a) chain t st in
  req ← identity_required a chain snapshot;
  let '(st, owner_shortlist) :=
    match req, eligible with
    | false, _ => (st, true)
    | true, Some operators => (retain_operators st operators, true)
    | true, None => (st, false)
    end in
  match get_submission_index backend e3 seed (address a) chain st snapshot candidate_owners
          (bond_owners a) owner_shortlist with
  | Ok r => r
  | Err _ => None
  end.

End Text.
