(* ===== verification/AdmissionProps.v ===== *)
(** * Properties of the admission rules

    Histories implement timelines: a map from timepoints to values, read at the latest timepoint
    that is not later.  Live records and catch-up of missed changes both write the timeline, so
    decisions depend on the recorded changes and not on the order in which they arrived. *)

From S2P Require Import Prelude Hlc Events Sortition OwnerShortlist AlloyExample NodeRegistry AddressExample RegistryProps RegistryHistory SelectionBackend SelectionProps Admission.
Open Scope Z_scope.

(** ** Timelines *)

Section Timeline.
Context {T : Type}.
Implicit Types (h : list (StateCheckpoint T)) (M : gmap Z T) (v d : T).

Definition earlier (a b : StateCheckpoint T) : Prop := cp_timepoint a < cp_timepoint b.

(** The history lists the timeline in ascending order. *)
Definition timeline h M : Prop :=
  StronglySorted earlier h ∧ ∀ t v, mkCheckpoint t v ∈ h ↔ M !! t = Some v.

(** [v] is in force at [t]: it was set at the latest set timepoint up to [t], or it is the
    default and nothing was set. *)
Definition in_force d M (t : Z) v : Prop :=
  (∃ t0, t0 <= t ∧ M !! t0 = Some v ∧ ∀ t1, t0 < t1 <= t → M !! t1 = None) ∨
  (v = d ∧ ∀ t1, t1 <= t → M !! t1 = None).

Lemma in_force_unique d M t v v' : in_force d M t v → in_force d M t v' → v = v'.
Proof.
  intros [(t0 & H0 & E0 & N0)|[-> N0]] [(t1 & H1 & E1 & N1)|[-> N1]].
  - destruct (Z.lt_trichotomy t0 t1) as [?|[->|?]]; [|congruence|].
    + rewrite (N0 t1) in E1 by lia. done.
    + rewrite (N1 t0) in E0 by lia. done.
  - by rewrite (N1 t0) in E0 by lia.
  - by rewrite (N0 t1) in E1 by lia.
  - done.
Qed.

Lemma history_at_checkpoint d h t : history_at d h t = default d (checkpoint_value h t).
Proof. unfold history_at, checkpoint_value. by destruct (partition_point _ h). Qed.

(** The value at a time is the one of the latest checkpoint up to it. *)
Lemma checkpoint_value_latest h t :
  StronglySorted earlier h →
  match checkpoint_value h t with
  | Some v => ∃ t0, mkCheckpoint t0 v ∈ h ∧ t0 <= t ∧ ∀ c, c ∈ h → cp_timepoint c <= t → cp_timepoint c <= t0
  | None => ∀ c, c ∈ h → t < cp_timepoint c
  end.
Proof.
  induction 1 as [|c h Hs IH Hall]; [by intros c ?%elem_of_nil|]. rewrite checkpoint_value_cons.
  rewrite Forall_forall in Hall. unfold earlier in Hall.
  destruct (Z.leb_spec (cp_timepoint c) t) as [Hle|Hgt].
  - destruct (checkpoint_value h t) as [v|]; cbn [default].
    + destruct IH as (t0 & Hin & Ht0 & Hmax). exists t0. split; [by apply list_elem_of_further|].
      split; [done|]. intros c' [->|Hc']%elem_of_cons Hc't; [|by apply Hmax].
      specialize (Hall _ Hin). cbn in Hall. lia.
    + exists (cp_timepoint c). split; [destruct c; apply list_elem_of_here|]. split; [done|].
      intros c' [->|Hc']%elem_of_cons Hc't; [lia|]. specialize (IH _ Hc'). lia.
  - intros c' [->|Hc']%elem_of_cons; [done|]. specialize (Hall _ Hc'). lia.
Qed.

Lemma timeline_at d h M t : timeline h M → in_force d M t (history_at d h t).
Proof.
  intros [Hs HM]. rewrite history_at_checkpoint. pose proof (checkpoint_value_latest h t Hs) as Hc.
  destruct (checkpoint_value h t) as [v|]; cbn [default].
  - destruct Hc as (t0 & Hin & Ht0 & Hmax). left. exists t0. split; [done|]. split; [by apply HM|].
    intros t1 Ht1. destruct (M !! t1) as [v1|] eqn:E; [|done]. apply HM in E.
    specialize (Hmax _ E). cbn in Hmax. lia.
  - right. split; [done|]. intros t1 Ht1. destruct (M !! t1) as [v1|] eqn:E; [|done].
    apply HM in E. specialize (Hc _ E). cbn in Hc. lia.
Qed.

Lemma timeline_nil : timeline [] ∅.
Proof. split; [constructor|]. intros t v. rewrite lookup_empty. split; [by intros ?%elem_of_nil|done]. Qed.

(** Replacing or inserting the checkpoint of a timepoint between the earlier and the later ones
    writes the timeline. *)
Lemma timeline_write h1 h2 h M t v :
  timeline h M → Forall (λ c, cp_timepoint c < t) h1 → Forall (λ c, t < cp_timepoint c) h2 →
  (∀ c, c ∈ h1 ++ h2 ↔ c ∈ h ∧ cp_timepoint c ≠ t) → StronglySorted earlier (h1 ++ h2) →
  timeline (h1 ++ mkCheckpoint t v :: h2) (<[t := v]> M).
Proof.
  intros [Hs HM] H1 H2 Hin Hs12. split.
  - clear Hin. induction h1 as [|c h1 IH]; cbn [app] in *.
    + constructor; [done|]. exact H2.
    + inversion H1; inversion Hs12; subst. constructor; [by apply IH|].
      rewrite Forall_app in *. naive_solver.
  - intros t' v'. rewrite elem_of_app, elem_of_cons. rewrite lookup_insert_Some.
    specialize (Hin (mkCheckpoint t' v')). rewrite elem_of_app in Hin. cbn in Hin. rewrite <- HM.
    split; [intros [?|[[= -> ->]|?]]; naive_solver|]. intros [[-> ->]|[? ?]]; naive_solver.
Qed.

Lemma timeline_record h M t v :
  timeline h M →
  if (record_entry h t v).2 then timeline (record_entry h t v).1 (<[t := v]> M)
  else (record_entry h t v).1 = h.
Proof.
  intros Ht. pose proof Ht as [Hs HM]. unfold record_entry.
  destruct h as [|l h0 _] using rev_ind; cbn [last].
  { cbn [fst snd app]. apply (timeline_write [] [] [] M); [done|constructor..| |constructor].
    intros c. cbn. set_solver. }
  rewrite last_snoc. destruct (Z.leb_spec (cp_timepoint l) t) as [Hle|]; [|done]. cbn [negb].
  apply sorted_app_inv in Hs as [Hs0 Hl].
  assert (Forall (λ c, cp_timepoint c < cp_timepoint l) h0) as Hall.
  { apply Forall_forall. intros c Hc. apply (Hl c l Hc), list_elem_of_here. }
  destruct (Z.eqb_spec (cp_timepoint l) t) as [<-|Hne]; cbn [fst snd].
  - rewrite removelast_last. apply (timeline_write h0 [] (h0 ++ [l]) M); [done..| |by rewrite app_nil_r].
    intros c. rewrite app_nil_r, elem_of_app, list_elem_of_singleton. rewrite Forall_forall in Hall.
    split; [intros Hc; specialize (Hall c Hc); split; [by left|lia]|naive_solver].
  - assert (Forall (λ c, cp_timepoint c < t) (h0 ++ [l])) as Hlt.
    { apply Forall_app. split; [eapply Forall_impl; [exact Hall|]; cbn; lia|repeat constructor; lia]. }
    apply (timeline_write (h0 ++ [l]) [] (h0 ++ [l]) M); [done..| |rewrite app_nil_r; apply Ht].
    intros c. rewrite app_nil_r. rewrite Forall_forall in Hlt. split; [|naive_solver].
    intros Hc. specialize (Hlt c Hc). split; [done|lia].
Qed.

(** The timeline of a log of changes, in the order of arrival: a change replaces an earlier one at its
    own timepoint, and one that is older than a change before it comes too late. *)
Definition in_time (latest : option Z) (t : Z) : bool := match latest with Some l => l <=? t | None => true end.

Definition log_write (line : option Z * gmap Z T) (x : Z * T) : option Z * gmap Z T :=
  if in_time line.1 x.1 then (Some x.1, <[x.1 := x.2]> line.2) else line.

Definition log_line (changes : list (Z * T)) : gmap Z T := (foldl log_write (None, ∅) changes).2.

Definition writes h (line : option Z * gmap Z T) : Prop := timeline h line.2 ∧ cp_timepoint <$> last h = line.1.

Lemma record_writes h line t v : writes h line → writes (record_entry h t v).1 (log_write line (t, v)).
Proof.
  intros [Ht Hl]. pose proof (timeline_record h line.2 t v Ht) as Hr. unfold record_entry, log_write, in_time in *. cbn [fst snd]. rewrite <- Hl.
  destruct (last h) as [l|] eqn:El; cbn [fmap option_fmap option_map]; [|split; [done|by cbn [fst snd]; rewrite last_snoc]].
  destruct (Z.leb_spec (cp_timepoint l) t); cbn [negb] in *; [|split; [done|cbn [fst]; by rewrite El]].
  destruct (Z.eqb_spec (cp_timepoint l) t) as [->|]; (split; [done|by cbn [fst]; rewrite last_snoc]).
Qed.

(** The checkpoints before the partition point are earlier, those from it on are not. *)
Lemma partition_sorted h t :
  StronglySorted earlier h →
  Forall (λ c, cp_timepoint c < t) (take (partition_point (λ c, cp_timepoint c <? t) h) h) ∧
  Forall (λ c, t <= cp_timepoint c) (drop (partition_point (λ c, cp_timepoint c <? t) h) h).
Proof.
  induction 1 as [|c h Hs [IH1 IH2] Hall]; [split; constructor|]. cbn [partition_point].
  destruct (Z.ltb_spec (cp_timepoint c) t) as [Hlt|Hge]; cbn [take drop].
  - split; [by constructor|done].
  - split; [constructor|]. constructor; [done|]. eapply Forall_impl; [exact Hall|].
    unfold earlier. lia.
Qed.
End Timeline.

Lemma StronglySorted_remove_middle {A} (R : relation A) (l : list A) x k :
  StronglySorted R (l ++ x :: k) → StronglySorted R (l ++ k).
Proof.
  induction l as [|y l IH]; cbn [app]; intros Hs; inversion Hs as [|?? Hs' Hall]; subst; [done|].
  constructor; [by apply IH|]. rewrite Forall_app, Forall_cons in Hall. rewrite Forall_app. naive_solver.
Qed.

(** Catching up writes the timeline wherever the timepoint lies. *)
Lemma timeline_catch_up s c M :
  timeline (default [] (id_chains s !! ic_chain_id c)) M →
  timeline (default [] (id_chains (catch_up s c).1 !! ic_chain_id c)) (<[ic_timepoint c := required c]> M).
Proof.
  intros Ht. pose proof Ht as [Hs HM]. unfold catch_up.
  set (h := default [] (id_chains s !! ic_chain_id c)) in *.
  set (i := partition_point _ h). destruct (partition_sorted h (ic_timepoint c) Hs) as [Hlo Hhi].
  fold i in Hlo, Hhi.
  assert (∀ h2, Forall (λ x, ic_timepoint c < cp_timepoint x) h2 → (∀ x, x ∈ h2 → x ∈ h) →
    (∀ x, x ∈ drop i h → cp_timepoint x ≠ ic_timepoint c → x ∈ h2) →
    StronglySorted earlier (take i h ++ h2) →
    timeline (take i h ++ mkCheckpoint (ic_timepoint c) (required c) :: h2)
      (<[ic_timepoint c := required c]> M)) as Hw.
  { intros h2 H2 Hsub Hsup Hsorted. eapply timeline_write; [exact Ht|done..| |done].
    intros x. rewrite Forall_forall in Hlo, H2. rewrite <- (take_drop i h) at 2. rewrite !elem_of_app.
    split.
    - intros [Hx|Hx]; [specialize (Hlo x Hx); split; [by left|lia]|].
      specialize (H2 x Hx). split; [|lia]. rewrite <- elem_of_app, take_drop. by apply Hsub.
    - intros [[Hx|Hx] Hne]; [by left|right; by apply Hsup]. }
  destruct (h !! i) as [entry|] eqn:Ei.
  2:{ cbn [fst put_history id_chains]. rewrite lookup_insert_eq. cbn [from_option id].
      apply lookup_ge_None_1 in Ei. rewrite drop_ge by done. 
      apply Hw; [apply Forall_nil_2|by intros x ?%elem_of_nil| |by rewrite app_nil_r, take_ge].
      intros x Hx. by rewrite drop_ge in Hx. }
  rewrite (drop_S h entry i Ei) in Hhi, Hw. inversion Hhi as [|?? Hentry Hhi']; subst.
  assert (StronglySorted earlier (take i h ++ entry :: drop (S i) h)) as Hs'
    by (by rewrite <- (drop_S h entry i Ei), take_drop).
  pose proof (sorted_app_inv _ _ _ Hs') as [_ Hcross].
  assert (Forall (λ x, cp_timepoint entry < cp_timepoint x) (drop (S i) h)) as Hrest.
  { clear -Hs'. induction (take i h) as [|y l IH]; cbn [app] in Hs'; inversion Hs'; subst; auto. }
  destruct (Z.eqb_spec (cp_timepoint entry) (ic_timepoint c)) as [Heq|Hne]; cbn [fst put_history id_chains];
    rewrite lookup_insert_eq; cbn [from_option id].
  - rewrite insert_take_drop by (by eapply lookup_lt_Some). rewrite Heq. rewrite Heq in Hrest. apply Hw; [done| | |].
    + intros x Hx. rewrite <- (take_drop (S i) h). apply elem_of_app. by right.
    + intros x [->|Hx]%elem_of_cons ?; [congruence|done].
    + eapply StronglySorted_remove_middle; exact Hs'.
  - rewrite (drop_S h entry i Ei). apply Hw; [| |by intros|done].
    + constructor; [lia|]. eapply Forall_impl; [exact Hrest|]. cbn. lia.
    + intros x Hx. rewrite <- (take_drop i h), (drop_S h entry i Ei). apply elem_of_app. by right.
Qed.

(** ** Identity policy *)

Inductive IdentityOp :=
| Live (c : IdentityPolicyChange)
| CatchUp (c : IdentityPolicyChange).

Definition apply_identity (s : IdentityPolicyState) (op : IdentityOp) : IdentityPolicyState * bool :=
  match op with
  | Live c => record_identity s c
  | CatchUp c => ((catch_up s c).1, true)
  end.

Definition change_of (op : IdentityOp) : IdentityPolicyChange :=
  match op with Live c | CatchUp c => c end.

(** The timeline that a run writes for a chain: live changes that are out of order are refused. *)
Fixpoint identity_line (chain : Z) (s : IdentityPolicyState) (ops : list IdentityOp)
    (M : gmap Z bool) : gmap Z bool :=
  match ops with
  | [] => M
  | op :: rest =>
      let '(s', ok) := apply_identity s op in
      identity_line chain s' rest
        (if ok && (ic_chain_id (change_of op) =? chain)
         then <[ic_timepoint (change_of op) := required (change_of op)]> M else M)
  end.

Definition run_identity (s : IdentityPolicyState) (ops : list IdentityOp) : IdentityPolicyState :=
  foldl (λ s op, (apply_identity s op).1) s ops.

Lemma apply_identity_other s op chain :
  ic_chain_id (change_of op) ≠ chain →
  id_chains (apply_identity s op).1 !! chain = id_chains s !! chain.
Proof.
  intros Hne. destruct op as [c|c]; cbn [apply_identity change_of fst] in *.
  - unfold record_identity. destruct (record_entry _ _ _). cbn. by apply lookup_insert_ne.
  - unfold catch_up. repeat case_match; cbn; by apply lookup_insert_ne.
Qed.

Lemma apply_identity_unknown s op : unknown (apply_identity s op).1 = unknown s.
Proof.
  destruct op as [c|c]; cbn [apply_identity fst].
  - unfold record_identity. by destruct (record_entry _ _ _).
  - unfold catch_up. by repeat case_match.
Qed.

Lemma apply_identity_timeline s op M chain :
  timeline (default [] (id_chains s !! chain)) M →
  timeline (default [] (id_chains (apply_identity s op).1 !! chain))
    (if (apply_identity s op).2 && (ic_chain_id (change_of op) =? chain)
     then <[ic_timepoint (change_of op) := required (change_of op)]> M else M).
Proof.
  intros Ht. destruct (Z.eqb_spec (ic_chain_id (change_of op)) chain) as [<-|Hne].
  2:{ rewrite andb_false_r. by rewrite apply_identity_other. }
  rewrite andb_true_r. destruct op as [c|c]; cbn [apply_identity change_of fst snd] in *.
  - unfold record_identity. pose proof (timeline_record _ M (ic_timepoint c) (required c) Ht) as Hr.
    destruct (record_entry _ _ _) as [h ok]. cbn [fst snd put_history id_chains] in *.
    rewrite lookup_insert_eq. cbn [from_option id]. destruct ok; [done|]. by rewrite Hr.
  - by apply timeline_catch_up.
Qed.

Lemma run_identity_timeline chain ops : ∀ s M,
  timeline (default [] (id_chains s !! chain)) M →
  timeline (default [] (id_chains (run_identity s ops) !! chain)) (identity_line chain s ops M) ∧
  unknown (run_identity s ops) = unknown s.
Proof.
  induction ops as [|op ops IH]; intros s M Ht; cbn [run_identity foldl identity_line]; [done|].
  pose proof (apply_identity_timeline s op M chain Ht) as Ht'.
  pose proof (apply_identity_unknown s op) as Hu.
  destruct (apply_identity s op) as [s' ok]. cbn [fst snd] in *. rewrite <- Hu. by apply IH.
Qed.

(** The identity policy in force at a time depends only on the changes and their timepoints.
    Whatever mix of live changes and caught-up older changes arrived, the policy reads at a time
    as the value set at the latest recorded timepoint up to it, and as not required before the
    first one, on every chain whose history is known. *)
Theorem identity_policy_in_force (ops : list IdentityOp) (chain t : Z) :
  in_force false (identity_line chain default_identity ops ∅) t
    (required_at (run_identity default_identity ops) chain t).
Proof.
  destruct (run_identity_timeline chain ops default_identity ∅) as [Ht Hu]; [apply timeline_nil|].
  unfold required_at. rewrite Hu. rewrite bool_decide_eq_false_2 by apply not_elem_of_empty. cbn [orb].
  pose proof (timeline_at false _ _ t Ht) as Hf. by destruct (id_chains _ !! chain).
Qed.

(** ** Admission *)

Section Admission.
Context `{AddressText}.

Definition run_admission (s : AdmissionState) (events : list AdmissionUpdated) : AdmissionState :=
  foldl (λ s ev, (record_admission s ev).1) s events.

(** What an event of the log says on a chain: a policy, or a start of an operator. *)
Definition policy_change (chain : Z) (ev : AdmissionUpdated) : option (Z * AdmissionPolicy) :=
  match change ev with
  | Policy p => if au_chain_id ev =? chain then Some (au_timepoint ev, p) else None
  | Started _ => None
  end.

Definition start_change (chain : Z) (o : Address) (ev : AdmissionUpdated) : option (Z * Z) :=
  match change ev with
  | Policy _ => None
  | Started a =>
      if (au_chain_id ev =? chain) && bool_decide (parse_address a = Some o) then Some (au_timepoint ev, au_timepoint ev) else None
  end.

(** The timelines of a log. *)
Definition policy_line (chain : Z) (events : list AdmissionUpdated) : gmap Z AdmissionPolicy := log_line (omap (policy_change chain) events).
Definition start_line (chain : Z) (o : Address) (events : list AdmissionUpdated) : gmap Z Z := log_line (omap (start_change chain o) events).

Definition chain_of (s : AdmissionState) (chain : Z) : ChainAdmission :=
  default default_chain (adm_chains s !! chain).
Definition starts_of (s : AdmissionState) (chain : Z) (o : Address) : list (StateCheckpoint Z) :=
  default [] (starts (chain_of s chain) !! o).

Lemma chain_of_put v m k c chain :
  chain_of (mkAdmission v (<[k := c]> m)) chain = if decide (k = chain) then c else chain_of (mkAdmission v m) chain.
Proof.
  unfold chain_of. cbn [adm_chains]. case_decide; [subst; by rewrite lookup_insert_eq|].
  by rewrite lookup_insert_ne.
Qed.

Lemma record_policies s ev chain line : writes (policies (chain_of s chain)) line →
  writes (policies (chain_of (record_admission s ev).1 chain)) (from_option (log_write line) line (policy_change chain ev)).
Proof.
  intros Ht. unfold record_admission, policy_change. fold (chain_of s (au_chain_id ev)). destruct (change ev) as [p|a].
  - pose proof (record_writes (policies (chain_of s (au_chain_id ev))) line (au_timepoint ev) p) as Hr.
    destruct (record_entry _ _ _) as [h ok]. cbn [fst snd] in *. rewrite chain_of_put.
    destruct (decide (au_chain_id ev = chain)) as [<-|Hne]; [rewrite Z.eqb_refl; by apply Hr|].
    rewrite (proj2 (Z.eqb_neq _ _)) by done. by destruct s.
  - destruct (parse_address a) as [o|]; [destruct (record_entry _ _ _) as [h ok]|]; cbn [fst snd];
      rewrite chain_of_put; case_decide; subst; by destruct s.
Qed.

Lemma record_starts s ev chain o line : writes (starts_of s chain o) line →
  writes (starts_of (record_admission s ev).1 chain o) (from_option (log_write line) line (start_change chain o ev)).
Proof.
  intros Ht. unfold record_admission, start_change. fold (chain_of s (au_chain_id ev)). destruct (change ev) as [p|a].
  - destruct (record_entry _ _ _) as [h ok]. cbn [fst snd]. unfold starts_of in *. rewrite chain_of_put. case_decide; subst; by destruct s.
  - destruct (parse_address a) as [o'|] eqn:Ea.
    2:{ cbn [fst snd]. rewrite bool_decide_eq_false_2, andb_false_r by done. unfold starts_of in *. rewrite chain_of_put. case_decide; subst; by destruct s. }
    fold (starts_of s (au_chain_id ev) o').
    pose proof (record_writes (starts_of s (au_chain_id ev) o') line (au_timepoint ev) (au_timepoint ev)) as Hr.
    destruct (record_entry _ _ _) as [h ok]. cbn [fst snd] in *. unfold starts_of at 1. rewrite chain_of_put.
    destruct (decide (au_chain_id ev = chain)) as [<-|Hne]; [|rewrite (proj2 (Z.eqb_neq _ _)) by done; by destruct s].
    rewrite Z.eqb_refl. cbn [starts andb]. destruct (decide (o' = o)) as [->|Ho].
    + rewrite lookup_insert_eq, bool_decide_eq_true_2 by done. cbn [from_option id]. by apply Hr.
    + rewrite lookup_insert_ne, bool_decide_eq_false_2 by naive_solver. done.
Qed.

Lemma run_admission_lines chain o events : ∀ s lp ls,
  writes (policies (chain_of s chain)) lp → writes (starts_of s chain o) ls →
  writes (policies (chain_of (run_admission s events) chain)) (foldl log_write lp (omap (policy_change chain) events)) ∧
  writes (starts_of (run_admission s events) chain o) (foldl log_write ls (omap (start_change chain o) events)).
Proof.
  induction events as [|ev events IH]; intros s lp ls HP HS; [done|]. cbn [run_admission foldl omap list_omap].
  pose proof (record_policies s ev chain lp HP) as HP'. pose proof (record_starts s ev chain o ls HS) as HS'.
  destruct (IH _ _ _ HP' HS') as [HP'' HS'']. split; [by destruct (policy_change chain ev)|by destruct (start_change chain o ev)].
Qed.

(** A start is held at its own timepoint. *)
Lemma start_line_key chain o events k v : start_line chain o events !! k = Some v → v = k.
Proof.
  unfold start_line, log_line. assert (∀ line : option Z * gmap Z Z, (∀ k v, line.2 !! k = Some v → v = k) →
    ∀ k v, (foldl log_write line (omap (start_change chain o) events)).2 !! k = Some v → v = k) as Hgen; [|by apply Hgen].
  induction events as [|ev events IH]; intros line Hl; [done|]. cbn [omap list_omap]. destruct (start_change chain o ev) as [x|] eqn:E; [|by apply IH].
  apply IH. unfold log_write. destruct (in_time _ _); [|done]. cbn [snd]. intros k' v' [[<- <-]|[_ ?]]%lookup_insert_Some; [|by apply Hl].
  unfold start_change in E. destruct (change ev); [done|]. case_match; [|done]. by injection E as <-.
Qed.
End Admission.

(** The rule of a policy for an operator that last started at [since] (0: never): a pause admits
    only who was active, started and cooled down at its cutoff; otherwise only the cooldown counts. *)
Definition admission_rule (p : AdmissionPolicy) (since t : Z) (n : NodeState) : Prop :=
  if admissions_paused p then
    active_at n (pause_timepoint p) = true ∧ since <= pause_timepoint p ∧
    (since = 0 ∨ pause_cooldown_enabled p = false ∨ since + pause_cooldown_duration p <= pause_timepoint p)
  else cooldown_enabled p = false ∨ since = 0 ∨ since + cooldown_duration p <= t.

Lemma allowed_rule p since t n :
  since <= t → allowed since t p n = true ↔ admission_rule p since t n.
Proof.
  intros Hle. unfold allowed, admission_rule. destruct (admissions_paused p); cbn [andb].
  - destruct (active_at n (pause_timepoint p)); cbn [negb]; [|naive_solver].
    rewrite andb_true_iff, !orb_true_iff, negb_true_iff, !Z.leb_le, Z.eqb_eq. intuition lia.
  - rewrite andb_true_iff, !orb_true_iff, negb_true_iff, !Z.leb_le, Z.eqb_eq. intuition lia.
Qed.

(** What the filter keeps, in terms of the histories. *)
Lemma admission_filter_lookup `{AddressText} s chain t st a n o :
  parse_address a = Some o → history_at 0 (starts_of s chain o) t <= t →
  nodes (admission_filter s chain t st) !! a = Some n ↔
  nodes st !! a = Some n ∧
  (let p := history_at default_policy (policies (chain_of s chain)) t in
   cooldown_enabled p = false ∧ admissions_paused p = false ∨
   admission_rule p (history_at 0 (starts_of s chain o) t) t n).
Proof.
  intros Ha Hle. unfold admission_filter, starts_of, chain_of in *.
  destruct (adm_chains s !! chain) as [ch|]; cbn [from_option id] in *; [|cbn; tauto].
  set (p := history_at default_policy (policies ch) t). cbn zeta.
  destruct (negb (cooldown_enabled p) && negb (admissions_paused p)) eqn:Hp.
  { apply andb_true_iff in Hp as [?%negb_true_iff ?%negb_true_iff]. tauto. }
  cbn [nodes set_nodes]. rewrite map_lookup_filter_Some. cbn [fst snd]. unfold admits. rewrite Ha.
  assert (default 0 ((λ h, history_at 0 h t) <$> starts ch !! o)
    = history_at 0 (default [] (starts ch !! o)) t) as -> by (by destruct (starts ch !! o)).
  rewrite Is_true_true, allowed_rule by done.
  split; [tauto|]. intros [? [[Hc Hps]|?]]; [|done]. by rewrite Hc, Hps in Hp.
Qed.

(** C36: Admission follows the log.  After any events of admission, an operator of the store stays in the
    request-time view exactly when the policy in force at that time asks nothing, or its rule accepts
    the operator's last start up to that time; in particular a pause is decided at its cutoff and
    cannot be entered later.  In force is the latest change of the log up to that time, of two at one
    timepoint the later one; changes that arrive after a newer one are left out. *)
Theorem admission_follows_the_log `{AddressText} (events : list AdmissionUpdated) (chain t : Z)
    (st : NodeStateStore) (a : string) (o : Address) (n : NodeState) :
  parse_address a = Some o → 0 <= t →
  let s := run_admission default_admission events in
  ∃ p since,
    in_force default_policy (policy_line chain events) t p ∧
    in_force 0 (start_line chain o events) t since ∧
    (nodes (admission_filter s chain t st) !! a = Some n ↔
     nodes st !! a = Some n ∧
     (cooldown_enabled p = false ∧ admissions_paused p = false ∨ admission_rule p since t n)).
Proof.
  intros Ha Ht s. destruct (run_admission_lines chain o events default_admission (None, ∅) (None, ∅)) as [[HP _] [HS _]];
    [split; [apply timeline_nil|done]..|].
  fold s in HP, HS. pose proof (timeline_at 0 _ _ t HS) as Hsince.
  eexists _, _. split; [exact (timeline_at _ _ _ t HP)|]. split; [exact Hsince|].
  apply admission_filter_lookup; [done|].
  destruct Hsince as [(t0 & ? & E & _)|[-> _]]; [|done]. by apply (start_line_key chain o events) in E as ->.
Qed.

(** ** This node's rank *)

Lemma admission_filter_subset `{AddressText} s chain t st a n :
  nodes (admission_filter s chain t st) !! a = Some n → nodes st !! a = Some n.
Proof.
  unfold admission_filter. destruct (adm_chains s !! chain); [|done]. case_match; [done|].
  cbn [nodes set_nodes]. by intros [? _]%map_lookup_filter_Some.
Qed.

(** A rank respects every gate.  When this node is given a rank for a request, its address is
    registered on the chain, its state is the one the registry holds, it was active just before
    the request and holds the ticket, it was let through by the admission rules at that time, and,
    if a verified owner is required and an eligibility read is at hand, the read names it. *)
Theorem rank_respects_admission `{AlloyOps} `{AddressTextLaws} a e3 seed chain snapshot
    candidate_owners eligible rank tid (e3_u256 : Z) :
  u256_from_decimal (e3_num e3) = Some e3_u256 →
  get_node_index a e3 seed chain snapshot candidate_owners eligible = Some (rank, tid) →
  ∃ want b st n t, parse_address (address a) = Some want ∧ backends a !! chain = Some b ∧
    want ∈ addresses b ∧ node_state a !! chain = Some st ∧
    nodes st !! address_to_string want = Some n ∧
    active_at n (request_block snapshot - 1) = true ∧ tid = Some t ∧
    1 <= t <= ticket_balance_at n (request_block snapshot - 1) / snap_ticket_price snapshot ∧
    nodes (admission_filter (admission a) chain (request_block snapshot - 1) st)
      !! address_to_string want = Some n ∧
    (identity_required a chain snapshot = Some true → ∀ ops, eligible = Some ops → want ∈ ops).
Proof.
  intros Hx. unfold get_node_index.
  destruct (backends a !! chain) as [b|]; [|done]. cbn [mbind option_bind].
  destruct (node_state a !! chain) as [st|]; [|done]. cbn [mbind option_bind].
  destruct (checked_sub (request_block snapshot) 1) as [t0|] eqn:Et0; [|done]. cbn [mbind option_bind].
  assert (t0 = request_block snapshot - 1) as -> by (unfold checked_sub in Et0; case_match; naive_solver).
  destruct (identity_required a chain snapshot) as [req|]; [|done]. cbn [mbind option_bind].
  set (st1 := admission_filter _ _ _ _).
  assert (∀ st2 sh, (∀ n w, nodes st2 !! address_to_string w = Some n → nodes st1 !! address_to_string w = Some n ∧
      (Some req = Some true → ∀ ops, eligible = Some ops → w ∈ ops)) →
    match get_submission_index b e3 seed (address a) chain st2 snapshot candidate_owners (bond_owners a) sh
    with Ok r => r | Err _ => None end = Some (rank, tid) →
    ∃ want b' st' n t, parse_address (address a) = Some want ∧ Some b = Some b' ∧ want ∈ addresses b' ∧
      Some st = Some st' ∧ nodes st' !! address_to_string want = Some n ∧
      active_at n (request_block snapshot - 1) = true ∧ tid = Some t ∧
      1 <= t <= ticket_balance_at n (request_block snapshot - 1) / snap_ticket_price snapshot ∧
      nodes (admission_filter (admission a) chain (request_block snapshot - 1) st')
        !! address_to_string want = Some n ∧
      (Some req = Some true → ∀ ops, eligible = Some ops → want ∈ ops)) as Hmain.
  { intros st2 sh Hsub. destruct (get_submission_index _ _ _ _ _ _ _ _ _ _) as [r|] eqn:E; [|done]. intros ->.
    destruct (submission_backed b e3 seed chain st2 snapshot candidate_owners (bond_owners a) sh _ _ _ _ Hx E)
      as (want & n & t & Hp & _ & Hreg & Hns & Hact & Ht & Hle).
    destruct (Hsub _ _ Hns) as [Hn1 Hel]. exists want, b, st, n, t. do 4 (split; [done|]).
    split; [by eapply admission_filter_subset|]. done. }
  destruct req; [destruct eligible as [ops|]|]; apply Hmain; intros n w Hn; split; try done.
  - unfold retain_operators in Hn. cbn [nodes set_nodes] in Hn. by apply map_lookup_filter_Some in Hn as [? _].
  - intros _ ? [= <-]. unfold retain_operators in Hn. cbn [nodes set_nodes] in Hn.
    apply map_lookup_filter_Some in Hn as [_ Hop]. cbn [fst] in Hop. unfold is_operator_of in Hop.
    rewrite parse_to_string in Hop. by apply bool_decide_unpack in Hop.
Qed.

(** ** Example: addresses in unary text, a cooldown policy, two operators. *)
Section AdmissionExample.

Definition ex_policy : AdmissionPolicy := mkAdmissionPolicy true false 4 0 false 0.
Definition ex_admission_events : list AdmissionUpdated :=
  [mkAdmissionUpdated 1 2 (Policy ex_policy); mkAdmissionUpdated 1 3 (Started (ex_print 10));
   mkAdmissionUpdated 1 8 (Started (ex_print 20))].
Definition ex_unary_ops : list RegistryOp :=
  [OpBalance 1 (ex_print 10) 30 (mkPos 1 0); OpActive 1 (ex_print 10) true (mkPos 1 1);
   OpBalance 1 (ex_print 20) 10 (mkPos 2 0); OpActive 1 (ex_print 20) true (mkPos 2 1)].
Definition ex_actor : Admission.Sortition :=
  mkSortition {[1 := mkBackend [mkNode 10 []; mkNode 20 []]]} (run_ops ex_unary_ops ∅) default_owners
    (run_admission default_admission ex_admission_events) default_identity (ex_print 10).
Definition ex_unary_store : NodeStateStore := default default_store (node_state ex_actor !! 1).

(** Operator 20 started at 8 and is still cooling down at 9. *)
Lemma admission_follows_the_log_witness :
  nodes (admission_filter (admission ex_actor) 1 9 ex_unary_store) !! ex_print 20 = None ∧
  ∃ p since n,
    in_force default_policy (policy_line 1 ex_admission_events) 9 p ∧
    in_force 0 (start_line 1 20 ex_admission_events) 9 since ∧
    ¬ (cooldown_enabled p = false ∧ admissions_paused p = false ∨ admission_rule p since 9 n).
Proof.
  assert (parse_address (ex_print 20) = Some 20) as Hp by reflexivity.
  destruct (nodes ex_unary_store !! ex_print 20) as [n|] eqn:En; [|vm_compute in En; discriminate En].
  destruct (admission_follows_the_log ex_admission_events 1 9 ex_unary_store (ex_print 20) 20 n Hp ltac:(lia))
    as (p & since & Hpol & Hsince & Hiff).
  assert (nodes (admission_filter (admission ex_actor) 1 9 ex_unary_store) !! ex_print 20 = None) as Hnone
    by (vm_compute; reflexivity).
  split; [exact Hnone|]. exists p, since, n. split; [exact Hpol|]. split; [exact Hsince|].
  intros Hrule. assert (nodes (admission_filter (admission ex_actor) 1 9 ex_unary_store) !! ex_print 20 = Some n) as Hs
    by (apply Hiff; split; [exact En|exact Hrule]).
  rewrite Hnone in Hs. discriminate Hs.
Defined.

Lemma rank_respects_admission_witness :
  match get_node_index ex_actor ex_sort_e3 ex_seed 1 (mkSnapshot 10 10) 5 None with
  | Some (rank, Some t) => 1 <= t <= 3
  | _ => False
  end.
Proof.
  assert (u256_from_decimal (e3_num ex_sort_e3) = Some 7) as He by (vm_compute; reflexivity).
  destruct (get_node_index ex_actor ex_sort_e3 ex_seed 1 (mkSnapshot 10 10) 5 None)
    as [[rank [t|]]|] eqn:E; try (vm_compute in E; discriminate E).
  destruct (rank_respects_admission ex_actor ex_sort_e3 ex_seed 1 (mkSnapshot 10 10) 5 None rank (Some t) 7 He E)
    as (want & b & st & n & t' & Hp & _ & _ & Hst & Hn & _ & Ht & Hle & _).
  injection Ht as <-. assert (want = 10) as -> by (vm_compute in Hp; injection Hp as <-; reflexivity).
  vm_compute in Hst. injection Hst as <-. vm_compute in Hn. injection Hn as <-. exact Hle.
Defined.
End AdmissionExample.
