(* ===== verification/ParityMatrix.v ===== *)
(** * Parity matrices

    Model of crates/parity-matrix/src/math.rs and matrix.rs: modular arithmetic, the generator
    matrix of polynomial evaluations and its null space by Gaussian elimination.

    [BigUint] is a non-negative [Z].  [BigUint::modpow] and the arithmetic operators belong to
    the num crates and are the integer operations they document.  Error messages are the
    constructors of [ParityMatrixError] with the values they print.  The loop of [mod_inverse]
    runs on fuel; that it always leaves through its own condition is a theorem. *)

From S2P Require Import Prelude.
From Stdlib Require Import Zdiv Znumtheory.
Open Scope Z_scope.

Inductive ParityMatrixError :=
| NoModularInverse (a modulus : Z)
| InvalidModulus (modulus : Z)
| DegreeConstraint (t n max_t : nat)
| DimensionMismatch (expected actual : nat)
| Verification (i j : nat) (sum : Z).

(** ** math.rs *)

Definition mod_pow (base : Z) (exp : nat) (modulus : Z) : Z :=
  if modulus =? 1 then 0 else base ^ Z.of_nat exp mod modulus.

(** The value of a polynomial at one point, by the inner loop over its coefficients. *)
Definition evaluate_at (coeffs : list Z) (q x : Z) : Z :=
  foldl (λ val '(i, coeff), (val + coeff * mod_pow x i q) mod q) 0 (imap pair coeffs).

Definition evaluate_polynomial (coeffs : list Z) (n : nat) (q : Z) : list Z :=
  (λ j, evaluate_at coeffs q (Z.of_nat j)) <$> seq 0 (S n).

(** A signed number as [(is_positive, abs_value)]. *)
Abbreviation Signed := (bool * Z)%type.

(** [old_s - quotient * s] on signed pairs. *)
Definition signed_sub (old_s s : Signed) (prod : Z) : Signed :=
  if Bool.eqb old_s.1 s.1 then
    if prod <=? old_s.2 then (old_s.1, old_s.2 - prod) else (negb old_s.1, prod - old_s.2)
  else (old_s.1, old_s.2 + prod).

Record EuclidState := mkEuclid { old_r : Z; r : Z; old_s : Signed; s : Signed }.

Definition euclid_step (e : EuclidState) : EuclidState :=
  let quotient := old_r e / r e in
  mkEuclid (r e) (old_r e - quotient * r e) (s e)
    (signed_sub (old_s e) (s e) (quotient * (s e).2)).

(** [while !r.is_zero() { .. }] *)
Fixpoint euclid_loop (fuel : nat) (e : EuclidState) : EuclidState :=
  match fuel with
  | O => e
  | S fuel' => if r e =? 0 then e else euclid_loop fuel' (euclid_step e)
  end.

Definition euclid_fuel (a m : Z) : nat := Z.to_nat (Z.log2 a + Z.log2 m + 3).

Definition mod_inverse (a modulus : Z) : result Z ParityMatrixError :=
  if modulus =? 0 then Err (InvalidModulus modulus)
  else if modulus =? 1 then Err (InvalidModulus modulus)
  else
    let a_reduced := a mod modulus in
    if a_reduced =? 0 then Err (NoModularInverse a modulus)
    else
      let e := euclid_loop (euclid_fuel a_reduced modulus)
                 (mkEuclid a_reduced modulus (true, 1) (true, 0)) in
      if negb (old_r e =? 1) then Err (NoModularInverse a modulus)
      else if (old_s e).1 then Ok ((old_s e).2 mod modulus)
      else
        let abs_mod := (old_s e).2 mod modulus in
        if abs_mod =? 0 then Ok 0 else Ok (modulus - abs_mod).

Definition dot_product_mod (a b : list Z) (modulus : Z) : Z :=
  foldl (λ acc '(x, y), (acc + x * y) mod modulus) 0 (zip a b).

Definition matrix_vector_mult_mod (matrix : list (list Z)) (vector : list Z) (modulus : Z) : list Z :=
  (λ row, dot_product_mod row vector modulus) <$> matrix.

(** ** matrix.rs *)

Record ParityMatrix := mkMatrix { data : list (list Z); rows : nat; cols : nat }.

Definition new (d : list (list Z)) : result ParityMatrix ParityMatrixError :=
  match d with
  | [] => Ok (mkMatrix [] 0 0)
  | row0 :: _ =>
      match List.find (λ row, negb (length row =? length row0)%nat) d with
      | Some row => Err (DimensionMismatch (length row0) (length row))
      | None => Ok (mkMatrix d (length d) (length row0))
      end
  end.

Definition zeros (rows cols : nat) : ParityMatrix :=
  mkMatrix (replicate rows (replicate cols 0)) rows cols.

Record ParityMatrixConfig := mkConfig { q : Z; t : nat; n : nat }.

Definition build_generator_matrix (config : ParityMatrixConfig)
    : result ParityMatrix ParityMatrixError :=
  if (q config =? 0) || (q config =? 1) then Err (InvalidModulus (q config))
  else
    let max_t := ((n config - 1) / 2)%nat in
    if (max_t <? t config)%nat then Err (DegreeConstraint (t config) (n config) max_t)
    else
      let num_coeffs := S (t config) in
      new ((λ i, (λ j, mod_pow (Z.of_nat j) i (q config)) <$> seq 0 (S (n config)))
             <$> seq 0 num_coeffs).

(** [v[i]] for an index in range. *)
Definition cell (row : list Z) (i : nat) : Z := default 0 (row !! i).

(** The augmented matrix: the transpose of the input next to the identity. *)
Definition augmented (m : ParityMatrix) : list (list Z) :=
  (λ i, ((λ row, cell row i) <$> data m) ++ <[i := 1]> (replicate (cols m) 0)) <$> seq 0 (cols m).

(** [slice.swap(i, j)] *)
Definition swap {A} (i j : nat) (l : list A) : list A :=
  match l !! i, l !! j with
  | Some x, Some y => <[j := x]> (<[i := y]> l)
  | _, _ => l
  end.

Definition scale_row (inv q : Z) (row : list Z) : list Z := (λ x, x * inv mod q) <$> row.

Definition eliminate_row (q : Z) (col : nat) (pivot row : list Z) : list Z :=
  let factor := cell row col in
  zip_with (λ x p, (q + x - factor * p mod q) mod q) row pivot.

(** The elimination of one column: [None] when the column has no pivot. *)
Definition eliminate_col (q : Z) (aug : list (list Z)) (pivot_row col : nat)
    : result (option (list (list Z))) ParityMatrixError :=
  match List.find (λ row, negb (cell (default [] (aug !! row)) col =? 0))
          (seq pivot_row (length aug - pivot_row)) with
  | None => Ok None
  | Some row =>
      let aug := swap pivot_row row aug in
      let? inv := mod_inverse (cell (default [] (aug !! pivot_row)) col) q in
      let pivot := scale_row inv q (default [] (aug !! pivot_row)) in
      let aug := <[pivot_row := pivot]> aug in
      Ok (Some (imap (λ i row, if (i =? pivot_row)%nat || (cell row col =? 0) then row
                               else eliminate_row q col pivot row) aug))
  end.

(** The loop over the columns, with [continue] without a pivot and [break] after the last row. *)
Fixpoint eliminate (q : Z) (aug : list (list Z)) (pivot_row : nat) (columns : list nat)
    : result (list (list Z) * nat) ParityMatrixError :=
  match columns with
  | [] => Ok (aug, pivot_row)
  | col :: rest =>
      let? step := eliminate_col q aug pivot_row col in
      match step with
      | None => eliminate q aug pivot_row rest
      | Some aug' =>
          if (length aug <=? S pivot_row)%nat then Ok (aug', S pivot_row)
          else eliminate q aug' (S pivot_row) rest
      end
  end.

Definition is_zero_vec (l : list Z) : bool := forallb (λ x, x =? 0) l.

(** The right part of a row that is zero on the left and not zero on the right. *)
Definition null_vector (rows : nat) (row : list Z) : option (list Z) :=
  if is_zero_vec (take rows row) && negb (is_zero_vec (drop rows row)) then Some (drop rows row) else None.

Definition null_space (m : ParityMatrix) (q : Z) : result ParityMatrix ParityMatrixError :=
  if (rows m =? 0)%nat then Ok (zeros 0 0)
  else
    let? (aug, _) := eliminate q (augmented m) 0 (seq 0 (rows m)) in
    new (omap (null_vector (rows m)) aug).

(** The first entry of H G^T that is not zero. *)
Definition verify_parity_matrix (m h : ParityMatrix) (q : Z) : result bool ParityMatrixError :=
  if (rows h =? 0)%nat || (rows m =? 0)%nat then Ok true
  else if negb (cols h =? cols m)%nat then Err (DimensionMismatch (cols m) (cols h))
  else
    match List.find (λ '(_, _, sum), negb (sum =? 0))
      (concat (imap (λ i h_row, imap (λ j row, (i, j, dot_product_mod h_row row q)) (data m)) (data h))) with
    | Some (i, j, sum) => Err (Verification i j sum)
    | None => Ok true
    end.

(** ** Modular inverses

    Correctness and termination of the extended Euclidean algorithm of
    crates/parity-matrix/src/math.rs. *)

(** ** Congruence modulo q, as a setoid *)

Definition cong (q a b : Z) : Prop := (q | a - b).

Global Instance cong_equivalence q : Equivalence (cong q).
Proof.
  split; unfold cong.
  - intros a. rewrite Z.sub_diag. apply Z.divide_0_r.
  - intros a b H. replace (b - a) with (- (a - b)) by ring. by apply Z.divide_opp_r.
  - intros a b c H1 H2. replace (a - c) with ((a - b) + (b - c)) by ring. by apply Z.divide_add_r.
Qed.

Global Instance cong_add q : Proper (cong q ==> cong q ==> cong q) Z.add.
Proof.
  intros a a' Ha b b' Hb. unfold cong in *. replace (a + b - (a' + b')) with ((a - a') + (b - b')) by ring.
  by apply Z.divide_add_r.
Qed.

Global Instance cong_mul q : Proper (cong q ==> cong q ==> cong q) Z.mul.
Proof.
  intros a a' Ha b b' Hb. unfold cong in *.
  replace (a * b - a' * b') with ((a - a') * b + a' * (b - b')) by ring.
  apply Z.divide_add_r; [by apply Z.divide_mul_l|by apply Z.divide_mul_r].
Qed.

Global Instance cong_opp q : Proper (cong q ==> cong q) Z.opp.
Proof. intros a b H. unfold cong in *. replace (- a - - b) with (- (a - b)) by ring. by apply Z.divide_opp_r. Qed.

Global Instance cong_sub q : Proper (cong q ==> cong q ==> cong q) Z.sub.
Proof. intros a a' Ha b b' Hb. rewrite <- !Z.add_opp_r. by rewrite Ha, Hb. Qed.

Lemma cong_mod q a : cong q (a mod q) a.
Proof.
  unfold cong. destruct (Z.eq_dec q 0) as [->|Hq].
  - rewrite Zmod_0_r, Z.sub_diag. apply Z.divide_0_r.
  - rewrite Z.mod_eq by done. exists (- (a / q)). ring.
Qed.

Lemma cong_self q : cong q q 0.
Proof. unfold cong. rewrite Z.sub_0_r. apply Z.divide_refl. Qed.

Lemma cong_mod_eq q a b : q ≠ 0 → cong q a b ↔ a mod q = b mod q.
Proof.
  intros Hq. split.
  - intros [k Hk]. replace a with (b + k * q) by lia. apply Z_mod_plus_full.
  - intros E. rewrite <- (cong_mod q a), <- (cong_mod q b). by rewrite E.
Qed.

Lemma cong_0 q a : q ≠ 0 → cong q a 0 ↔ a mod q = 0.
Proof. intros Hq. rewrite cong_mod_eq by done. by rewrite Zmod_0_l. Qed.

(** ** Signed pairs *)

(** The integer that a signed pair stands for. *)
Definition signed_value (x : Signed) : Z := if x.1 then x.2 else - x.2.

Lemma signed_sub_value o x k :
  signed_value (signed_sub o x (k * x.2)) = signed_value o - k * signed_value x.
Proof.
  destruct o as [[] o], x as [[] x]; unfold signed_sub, signed_value; cbn [fst snd Bool.eqb];
    try (destruct (Z.leb_spec (k * x) o)); cbn [fst snd negb]; lia.
Qed.

Lemma signed_sub_nonneg o x p : 0 <= o.2 → 0 <= p → 0 <= (signed_sub o x p).2.
Proof.
  intros Ho Hp. unfold signed_sub. destruct (Bool.eqb _ _); [|cbn; lia].
  destruct (Z.leb_spec p o.2); cbn; lia.
Qed.

(** ** The loop *)

Section Euclid.
Context (a m : Z).

(** The remainders are combinations of the inputs and keep their greatest common divisor. *)
Record euclid_ok (e : EuclidState) : Prop := {
  eu_old : cong m (signed_value (old_s e) * a) (old_r e);
  eu_new : cong m (signed_value (s e) * a) (r e);
  eu_gcd : Z.gcd (old_r e) (r e) = Z.gcd a m;
  eu_r : 0 <= r e;
  eu_old_r : 0 <= old_r e;
  eu_s : 0 <= (s e).2;
  eu_old_s : 0 <= (old_s e).2 }.

Lemma euclid_init : 0 <= a → 0 <= m → euclid_ok (mkEuclid a m (true, 1) (true, 0)).
Proof.
  intros Ha Hm. constructor; cbn; try lia.
  - unfold signed_value. cbn. by rewrite Z.mul_1_l.
  - unfold signed_value. cbn. symmetry. apply cong_self.
Qed.

Lemma euclid_step_r e : 0 < r e → r (euclid_step e) = old_r e mod r e.
Proof. intros Hr. cbn. rewrite Z.mod_eq by lia. lia. Qed.

Lemma euclid_step_ok e : 0 < r e → euclid_ok e → euclid_ok (euclid_step e).
Proof.
  intros Hr [H1 H2 H3 H4 H5 H6 H7]. pose proof (euclid_step_r e Hr) as Er.
  assert (0 <= old_r e / r e) as Hq by (apply Z.div_pos; lia).
  constructor; rewrite ?Er; cbn [euclid_step old_r old_s s]; try done.
  - rewrite signed_sub_value, Z.mul_sub_distr_r, <- Z.mul_assoc. rewrite H1, H2.
    rewrite Z.mod_eq, (Z.mul_comm (r e)) by lia. done.
  - by rewrite Z.gcd_comm, Z.gcd_mod, Z.gcd_comm by lia.
  - apply Z.mod_pos_bound. lia.
  - apply signed_sub_nonneg; [done|]. apply Z.mul_nonneg_nonneg; lia.
Qed.

Lemma euclid_loop_ok fuel : ∀ e, euclid_ok e → euclid_ok (euclid_loop fuel e).
Proof.
  induction fuel as [|fuel IH]; intros e He; cbn [euclid_loop]; [done|].
  destruct (Z.eqb_spec (r e) 0); [done|]. apply IH, euclid_step_ok; [|done].
  pose proof (eu_r e He). lia.
Qed.

(** Every round lowers the sum of the logarithms. *)
Lemma euclid_loop_ends fuel : ∀ e,
  0 <= r e <= old_r e → r e = 0 ∨ Z.log2 (old_r e) + Z.log2 (r e) < Z.of_nat fuel →
  r (euclid_loop fuel e) = 0.
Proof.
  induction fuel as [|fuel IH]; intros e Hle [H0|Hf]; cbn [euclid_loop]; try done.
  - pose proof (Z.log2_nonneg (old_r e)). pose proof (Z.log2_nonneg (r e)). lia.
  - by rewrite H0.
  - destruct (Z.eqb_spec (r e) 0) as [|Hne]; [done|].
    assert (0 < r e) as Hr by lia. pose proof (euclid_step_r e Hr) as Er.
    pose proof (Z.mod_pos_bound (old_r e) (r e) Hr) as Hb.
    assert (r e + old_r e mod r e <= old_r e) as Hs.
    { rewrite (Z.div_mod (old_r e) (r e)) at 2 by lia.
      assert (1 <= old_r e / r e) by (apply Z.div_le_lower_bound; lia). nia. }
    apply IH; rewrite Er; cbn [old_r euclid_step]; [lia|].
    destruct (Z.eq_dec (old_r e mod r e) 0) as [|Hm]; [by left|right].
    assert (Z.log2 (2 * (old_r e mod r e)) <= Z.log2 (old_r e)) as Hlog by (apply Z.log2_le_mono; lia).
    rewrite Z.log2_double in Hlog by lia. lia.
Qed.

(** More fuel than the loop needs changes nothing. *)
Lemma euclid_loop_more fuel extra : ∀ e,
  r (euclid_loop fuel e) = 0 → euclid_loop (fuel + extra) e = euclid_loop fuel e.
Proof.
  induction fuel as [|fuel IH]; intros e H0; cbn [euclid_loop Nat.add] in *.
  - destruct extra; cbn [euclid_loop]; [done|]. by rewrite H0.
  - destruct (r e =? 0); [done|]. by apply IH.
Qed.

Lemma euclid_from_start :
  0 < a → a < m → r (euclid_loop (euclid_fuel a m) (mkEuclid a m (true, 1) (true, 0))) = 0.
Proof.
  intros Ha Hm. unfold euclid_fuel. pose proof (Z.log2_nonneg a). pose proof (Z.log2_nonneg m).
  replace (Z.to_nat (Z.log2 a + Z.log2 m + 3)) with (S (Z.to_nat (Z.log2 a + Z.log2 m + 2))) by lia.
  cbn [euclid_loop r]. destruct (Z.eqb_spec m 0); [lia|].
  apply euclid_loop_ends; cbn [euclid_step r old_r]; rewrite Z.div_small by lia; [lia|right].
  rewrite Z.mul_0_l, Z.sub_0_r. lia.
Qed.
End Euclid.

(** ** The theorems *)

(** The loop of the extended Euclidean algorithm ends through its own condition within a
    number of rounds logarithmic in its inputs, so a larger bound would not change the result,
    and it ends with the greatest common divisor. *)
Theorem euclid_terminates (a m : Z) (extra : nat) :
  0 < a → a < m →
  let start := mkEuclid a m (true, 1) (true, 0) in
  r (euclid_loop (euclid_fuel a m) start) = 0 ∧
  old_r (euclid_loop (euclid_fuel a m) start) = Z.gcd a m ∧
  euclid_loop (euclid_fuel a m + extra) start = euclid_loop (euclid_fuel a m) start.
Proof.
  intros Ha Hm start. pose proof (euclid_from_start a m Ha Hm) as H0. fold start in H0.
  split; [done|]. split; [|by apply euclid_loop_more].
  destruct (euclid_loop_ok a m (euclid_fuel a m) start) as [_ _ Hg _ Hpos _ _];
    [apply euclid_init; lia|]. rewrite H0, Z.gcd_0_r in Hg. lia.
Qed.

Lemma mod_inverse_cases (a m : Z) :
  2 <= m →
  if decide (Z.gcd a m = 1)
  then ∃ x, mod_inverse a m = Ok x ∧ 0 <= x < m ∧ a * x mod m = 1
  else mod_inverse a m = Err (NoModularInverse a m).
Proof.
  intros Hm. unfold mod_inverse.
  destruct (Z.eqb_spec m 0); [lia|]. destruct (Z.eqb_spec m 1); [lia|].
  pose proof (Z.mod_pos_bound a m ltac:(lia)) as Hb.
  assert (Z.gcd (a mod m) m = Z.gcd a m) as Hgm by (rewrite Z.gcd_mod, Z.gcd_comm by lia; done).
  destruct (Z.eqb_spec (a mod m) 0) as [H0|Hne].
  { rewrite H0, Z.gcd_0_l in Hgm. by rewrite decide_False by lia. }
  set (e := euclid_loop _ _).
  destruct (euclid_loop_ok (a mod m) m (euclid_fuel (a mod m) m)
    (mkEuclid (a mod m) m (true, 1) (true, 0))) as [Ho _ Hg _ Hpos _ Hso]; [apply euclid_init; lia|].
  rewrite (euclid_from_start (a mod m) m) in Hg by lia. fold e in Ho, Hg, Hpos, Hso.
  rewrite Z.gcd_0_r, Z.abs_eq, Hgm in Hg by done. rewrite Hg.
  case_decide as Hd; [|by rewrite (proj2 (Z.eqb_neq _ _))]. rewrite Hd. cbn [Z.eqb negb Pos.eqb].
  rewrite Hg, Hd in Ho.
  assert (a * signed_value (old_s e) mod m = 1) as Hinv.
  { rewrite <- (Z.mod_1_l m) by lia. apply cong_mod_eq; [lia|].
    rewrite Z.mul_comm, <- Ho. by rewrite cong_mod. }
  destruct (old_s e) as [[] v]; unfold signed_value in Hinv; cbn [fst snd] in *.
  - exists (v mod m). split; [done|]. split; [apply Z.mod_pos_bound; lia|]. by rewrite Zmult_mod_idemp_r.
  - pose proof (Z.mod_pos_bound v m ltac:(lia)) as Hv.
    assert (a * (m - v mod m) mod m = 1) as Hx.
    { replace (a * (m - v mod m)) with (a * - v + (a + a * (v / m)) * m) by (rewrite Z.mod_eq by lia; ring).
      by rewrite Z_mod_plus_full. }
    destruct (Z.eqb_spec (v mod m) 0) as [Hz|Hz].
    + rewrite Hz, Z.sub_0_r, Z_mod_mult in Hx. discriminate Hx.
    + exists (m - v mod m). split; [done|]. split; [lia|done].
Qed.

(** A modular inverse is computed exactly when it exists.  For a modulus of at least two the
    function returns the inverse, reduced, if the argument is coprime to the modulus, and the
    error that names both numbers otherwise; the moduli zero and one are refused. *)
Theorem mod_inverse_correct (a m : Z) :
  0 <= a → 0 <= m →
  match mod_inverse a m with
  | Ok x => 2 <= m ∧ Z.gcd a m = 1 ∧ 0 <= x < m ∧ a * x mod m = 1
  | Err e => (m < 2 ∧ e = InvalidModulus m) ∨ (2 <= m ∧ Z.gcd a m ≠ 1 ∧ e = NoModularInverse a m)
  end.
Proof.
  intros Ha Hm. destruct (Z.le_gt_cases 2 m) as [H2|H2].
  - pose proof (mod_inverse_cases a m H2) as Hc. case_decide.
    + destruct Hc as (x & -> & ? & ?). done.
    + rewrite Hc. right. done.
  - assert (m = 0 ∨ m = 1) as [-> | ->] by lia; left; done.
Qed.

Lemma euclid_terminates_witness :
  old_r (euclid_loop (euclid_fuel 12 30) (mkEuclid 12 30 (true, 1) (true, 0))) = 6.
Proof. exact (proj1 (proj2 (euclid_terminates 12 30 5 ltac:(lia) ltac:(lia)))). Defined.

Lemma mod_inverse_correct_witness :
  match mod_inverse 3 11 with Ok x => 3 * x mod 11 = 1 | Err _ => False end.
Proof.
  pose proof (mod_inverse_correct 3 11 ltac:(lia) ltac:(lia)) as Hc.
  destruct (mod_inverse 3 11) as [x|e] eqn:E; [apply Hc|vm_compute in E; discriminate E].
Defined.
