(* ===== verification/NullSpace.v ===== *)
(** * The null space of a matrix

    Gaussian elimination of crates/parity-matrix/src/matrix.rs computes exactly the null space:
    every row of the result is orthogonal to the input, and every orthogonal vector is a
    combination of the rows of the result. *)

From S2P Require Import Prelude ParityMatrix.
From Stdlib Require Import Znumtheory.
Open Scope Z_scope.

(** ** Finite sums *)

Fixpoint sumn (k : nat) (f : nat → Z) : Z :=
  match k with O => 0 | S k' => sumn k' f + f k' end.

Lemma sumn_ext k f g : (∀ i, (i < k)%nat → f i = g i) → sumn k f = sumn k g.
Proof. induction k as [|k IH]; intros H; cbn; [done|]. rewrite IH, H by (intros; auto with lia); auto with lia. Qed.

Lemma sumn_cong q k f g : (∀ i, (i < k)%nat → cong q (f i) (g i)) → cong q (sumn k f) (sumn k g).
Proof.
  induction k as [|k IH]; intros H; cbn; [done|].
  apply cong_add; [apply IH; intros i Hi; apply H; lia|apply H; lia].
Qed.

Lemma sumn_add k f g : sumn k (λ i, f i + g i) = sumn k f + sumn k g.
Proof. induction k as [|k IH]; cbn; lia. Qed.

Lemma sumn_mul k c f : sumn k (λ i, c * f i) = c * sumn k f.
Proof. induction k as [|k IH]; cbn; lia. Qed.

Lemma sumn_0 k f : (∀ i, (i < k)%nat → f i = 0) → sumn k f = 0.
Proof. induction k as [|k IH]; intros H; cbn; [done|]. rewrite IH, H by (intros; auto with lia); auto with lia. Qed.

Lemma sumn_delta k j f : (j < k)%nat → sumn k (λ i, if (i =? j)%nat then f i else 0) = f j.
Proof.
  induction k as [|k IH]; intros Hj; [lia|]. cbn [sumn]. destruct (Nat.eq_dec j k) as [->|Hne].
  - rewrite sumn_0, Nat.eqb_refl; [lia|]. intros i Hi. by rewrite (proj2 (Nat.eqb_neq _ _)) by lia.
  - rewrite IH, (proj2 (Nat.eqb_neq _ _)) by lia. lia.
Qed.

Lemma sumn_swap k l f : sumn k (λ i, sumn l (λ j, f i j)) = sumn l (λ j, sumn k (λ i, f i j)).
Proof.
  induction k as [|k IH]; cbn [sumn]; [symmetry; by apply sumn_0|]. by rewrite IH, <- sumn_add.
Qed.

Lemma sumn_S k f : sumn (S k) f = f O + sumn k (λ i, f (S i)).
Proof. induction k as [|k IH]; [cbn; lia|]. cbn [sumn] in *. lia. Qed.

(** ** Cells *)

Lemma cell_app_l l k i : (i < length l)%nat → cell (l ++ k) i = cell l i.
Proof. intros. unfold cell. by rewrite lookup_app_l. Qed.

Lemma cell_app_r l k i : cell (l ++ k) (length l + i) = cell k i.
Proof. unfold cell. rewrite lookup_app_r by lia. do 2 f_equal. lia. Qed.

Lemma cell_drop l k i : cell (drop k l) i = cell l (k + i).
Proof. unfold cell. by rewrite lookup_drop. Qed.

Lemma cell_take l k i : (i < k)%nat → cell (take k l) i = cell l i.
Proof. intros. unfold cell. by rewrite lookup_take_lt. Qed.

Lemma cell_out l i : (length l <= i)%nat → cell l i = 0.
Proof. intros. unfold cell. by rewrite lookup_ge_None_2. Qed.

Lemma cell_fmap (f : Z → Z) l i : f 0 = 0 → cell (f <$> l) i = f (cell l i).
Proof. intros. unfold cell. rewrite list_lookup_fmap. by destruct (l !! i). Qed.

Lemma cell_zip_with f l k i :
  (i < length l)%nat → length k = length l → cell (zip_with f l k) i = f (cell l i) (cell k i).
Proof.
  intros Hi Hk. unfold cell. rewrite lookup_zip_with.
  destruct (lookup_lt_is_Some_2 l i) as [x ->]; [lia|]. destruct (lookup_lt_is_Some_2 k i) as [y ->]; [lia|].
  done.
Qed.

Lemma is_zero_vec_cells l : is_zero_vec l = true ↔ ∀ i, cell l i = 0.
Proof.
  unfold is_zero_vec. rewrite forallb_forall. split.
  - intros H i. unfold cell. destruct (l !! i) as [x|] eqn:E; [|done]. cbn.
    apply Z.eqb_eq, H. apply list_elem_of_In. by eapply list_elem_of_lookup_2.
  - intros H x Hx. apply list_elem_of_In, list_elem_of_lookup in Hx as [i Hi]. apply Z.eqb_eq.
    specialize (H i). unfold cell in H. by rewrite Hi in H.
Qed.

(** The dot product loop computes the sum of products. *)
Lemma dot_loop q a : ∀ b acc, length b = length a → 0 < q → 0 <= acc < q →
  foldl (λ acc '(x, y), (acc + x * y) mod q) acc (zip a b)
  = (acc + sumn (length a) (λ i, cell a i * cell b i)) mod q.
Proof.
  induction a as [|x a IH]; intros [|y b] acc Hl Hq Hacc; try done.
  { cbn. by rewrite Z.add_0_r, Z.mod_small. }
  cbn [zip foldl length]. injection Hl as Hl. change (zip_with pair a b) with (zip a b).
  rewrite IH; [|done|done|apply Z.mod_pos_bound; done]. rewrite sumn_S.
  change (cell (x :: a) 0) with x. change (cell (y :: b) 0) with y.
  rewrite Zplus_mod_idemp_l. by rewrite <- Z.add_assoc.
Qed.

Lemma dot_product_sum q a b : length b = length a → 0 < q →
  dot_product_mod a b q = sumn (length a) (λ i, cell a i * cell b i) mod q.
Proof. intros. unfold dot_product_mod. rewrite dot_loop by (done || lia). by rewrite Z.add_0_l. Qed.

(** ** Linear combinations of rows *)

Section Spans.
Context (q : Z).

Definition row (l : list (list Z)) (k : nat) : list Z := default [] (l !! k).

(** The vector [v], on its first [N] places, is a combination of the rows modulo [q]. *)
Definition spans (N : nat) (l : list (list Z)) (v : nat → Z) : Prop :=
  ∃ a : nat → Z, ∀ c, (c < N)%nat →
    cong q (v c) (sumn (length l) (λ k, a k * cell (row l k) c)).

Lemma row_elem l k : (k < length l)%nat → row l k ∈ l.
Proof.
  intros Hk. unfold row. destruct (lookup_lt_is_Some_2 l k Hk) as [x Hx]. rewrite Hx.
  by eapply list_elem_of_lookup_2.
Qed.

Lemma spans_ext N l v w : (∀ c, (c < N)%nat → cong q (v c) (w c)) → spans N l w → spans N l v.
Proof. intros E [a Ha]. exists a. intros c Hc. rewrite (E c Hc). by apply Ha. Qed.

Lemma spans_0 N l v : (∀ c, (c < N)%nat → cong q (v c) 0) → spans N l v.
Proof.
  intros E. exists (λ _, 0). intros c Hc. rewrite (E c Hc), sumn_0; [done|]. intros. lia.
Qed.

Lemma spans_add N l v w : spans N l v → spans N l w → spans N l (λ c, v c + w c).
Proof.
  intros [a Ha] [b Hb]. exists (λ k, a k + b k). intros c Hc. rewrite (Ha c Hc), (Hb c Hc), <- sumn_add.
  apply sumn_cong. intros k _. by rewrite Z.mul_add_distr_r.
Qed.

Lemma spans_mul N l x v : spans N l v → spans N l (λ c, x * v c).
Proof.
  intros [a Ha]. exists (λ k, x * a k). intros c Hc. rewrite (Ha c Hc), <- sumn_mul.
  apply sumn_cong. intros k _. by rewrite Z.mul_assoc.
Qed.

Lemma spans_elem N l x : x ∈ l → spans N l (cell x).
Proof.
  intros [i Hi]%list_elem_of_lookup. exists (λ k, if (k =? i)%nat then 1 else 0). intros c Hc.
  pose proof (lookup_lt_Some _ _ _ Hi) as Hlt.
  rewrite <- (sumn_delta (length l) i (λ k, cell x c)) by done. apply sumn_cong. intros k _.
  destruct (Nat.eqb_spec k i) as [->|]; [|by rewrite Z.mul_0_l]. unfold row. rewrite Hi. cbn. by rewrite Z.mul_1_l.
Qed.

Lemma spans_sum N l n (f : nat → nat → Z) :
  (∀ k, (k < n)%nat → spans N l (f k)) → spans N l (λ c, sumn n (λ k, f k c)).
Proof.
  induction n as [|n IH]; intros Hf; cbn [sumn]; [by apply spans_0|].
  apply spans_add; [apply IH; intros; apply Hf|apply Hf]; lia.
Qed.

Lemma spans_trans N l l' v :
  (∀ x, x ∈ l → spans N l' (cell x)) → spans N l v → spans N l' v.
Proof.
  intros Hx [a Ha]. eapply spans_ext; [exact Ha|]. cbn beta.
  apply (spans_sum N l' (length l) (λ k c, a k * cell (row l k) c)). intros k Hk.
  apply spans_mul, Hx. by apply row_elem.
Qed.

(** A property of vectors that is stable under combinations. *)
Class Linear (N : nat) (P : (nat → Z) → Prop) : Prop := {
  lin_ext v w : (∀ c, (c < N)%nat → cong q (v c) (w c)) → P w → P v;
  lin_0 : P (λ _, 0);
  lin_add v w : P v → P w → P (λ c, v c + w c);
  lin_mul x v : P v → P (λ c, x * v c) }.

#[local] Hint Mode Linear - ! : typeclass_instances.

Lemma spans_linear N P `{!Linear N P} l v : (∀ x, x ∈ l → P (cell x)) → spans N l v → P v.
Proof.
  intros Hx [a Ha]. eapply lin_ext; [exact Ha|]. cbn beta.
  assert (∀ n, (n <= length l)%nat → P (λ c, sumn n (λ k, a k * cell (row l k) c))) as H; [|by apply H].
  induction n as [|n IH]; intros Hn; cbn [sumn]; [apply lin_0|].
  apply (lin_add (λ c, sumn n (λ k, a k * cell (row l k) c)) (λ c, a n * cell (row l n) c)); [apply IH; lia|].
  apply (lin_mul (a n) (cell (row l n))), Hx, row_elem. lia.
Qed.

Global Instance spans_is_linear N l : Linear N (spans N l).
Proof.
  split; [apply spans_ext|by apply spans_0|apply spans_add|intros; by apply spans_mul].
Qed.
End Spans.

#[export] Hint Mode Linear - - ! : typeclass_instances.

(** ** Row operations *)

Lemma row_insert l i x k : (i < length l)%nat → row (<[i := x]> l) k = if (k =? i)%nat then x else row l k.
Proof.
  intros Hi. unfold row. destruct (Nat.eqb_spec k i) as [->|Hne].
  - by rewrite list_lookup_insert_eq.
  - by rewrite list_lookup_insert_ne by done.
Qed.

Lemma length_swap {A} i j (l : list A) : length (swap i j l) = length l.
Proof. unfold swap. destruct (l !! i), (l !! j); by rewrite ?length_insert. Qed.

Lemma row_swap l i j k : (i < length l)%nat → (j < length l)%nat →
  row (swap i j l) k = if (k =? j)%nat then row l i else if (k =? i)%nat then row l j else row l k.
Proof.
  intros Hi Hj. unfold swap. destruct (lookup_lt_is_Some_2 l i Hi) as [x Hx].
  destruct (lookup_lt_is_Some_2 l j Hj) as [y Hy]. rewrite Hx, Hy.
  rewrite !row_insert by (rewrite ?length_insert; done). unfold row. by rewrite Hx, Hy.
Qed.

Lemma row_imap f l k : (k < length l)%nat → row (imap f l) k = f k (row l k).
Proof.
  intros Hk. unfold row. rewrite list_lookup_imap. by destruct (lookup_lt_is_Some_2 l k Hk) as [x ->].
Qed.

Lemma elem_row l x : x ∈ l → ∃ k, (k < length l)%nat ∧ x = row l k.
Proof.
  intros [k Hk]%list_elem_of_lookup. exists k. split; [by eapply lookup_lt_Some|]. unfold row. by rewrite Hk.
Qed.

Lemma eliminate_col_None q aug pr col :
  eliminate_col q aug pr col = Ok None → ∀ k, (pr <= k < length aug)%nat → cell (row aug k) col = 0.
Proof.
  unfold eliminate_col. destruct (List.find _ _) eqn:E.
  { cbn zeta. destruct (mod_inverse _ _); cbn; intros ?; simplify_eq. }
  intros _ k Hk. pose proof (List.find_none _ _ E k) as Hn. apply Z.eqb_eq.
  destruct (cell (row aug k) col =? 0) eqn:Ek; [done|]. unfold row in Ek. cbn beta in Hn. rewrite Ek in Hn.
  discriminate Hn. apply in_seq. lia.
Qed.

(** The rewriting of the rows once the pivot row is in place. *)
Definition clear_column (q : Z) (pivot_row col : nat) (pivot : list Z) (aug : list (list Z)) : list (list Z) :=
  imap (λ i row, if (i =? pivot_row)%nat || (cell row col =? 0) then row
                 else eliminate_row q col pivot row) aug.

Lemma eliminate_col_Some q aug pr col aug' :
  2 <= q → eliminate_col q aug pr col = Ok (Some aug') →
  ∃ r inv, (pr <= r < length aug)%nat ∧ cell (row aug r) col * inv mod q = 1 ∧
    let pivot := scale_row inv q (row aug r) in
    aug' = clear_column q pr col pivot (<[pr := pivot]> (swap pr r aug)).
Proof.
  intros Hq. unfold eliminate_col. destruct (List.find _ _) as [r|] eqn:E; [|done].
  apply List.find_some in E as [Hr _]. apply in_seq in Hr. cbn zeta.
  assert (default [] (swap pr r aug !! pr) = row aug r) as Hrow.
  { pose proof (row_swap aug pr r pr ltac:(lia) ltac:(lia)) as Hs. unfold row at 1 in Hs. rewrite Hs.
    rewrite Nat.eqb_refl. by destruct (Nat.eqb_spec pr r) as [<-|]. }
  rewrite Hrow. pose proof (mod_inverse_cases (cell (row aug r) col) q Hq) as Hc.
  case_decide; [destruct Hc as (inv & -> & _ & Hinv)|by rewrite Hc].
  cbn. intros [= <-]. exists r, inv. split; [lia|]. done.
Qed.

(** ** The invariant of the elimination *)

Section Elimination.
Context (q : Z) (Hq : 2 <= q) (R C : nat) (P : (nat → Z) → Prop) `{!Linear q (R + C) P}.

(** [C] rows of [R + C] entries that generate the vectors with property [P]; the first [pr] rows
    have the pivot columns [pc], and the columns of [finished] are zero below them. *)
Record elim_inv (aug : list (list Z)) (pr : nat) (finished : list nat) (pc : nat → nat) : Prop := {
  ei_len : length aug = C;
  ei_rows x : x ∈ aug → length x = (R + C)%nat;
  ei_sound x : x ∈ aug → P (cell x);
  ei_complete u : P u → spans q (R + C) aug u;
  ei_pc p : (p < pr)%nat → (pc p < R)%nat ∧
    ∀ k, (k < length aug)%nat → cell (row aug k) (pc p) = if (k =? p)%nat then 1 else 0;
  ei_finished c k : c ∈ finished → (pr <= k < length aug)%nat → cell (row aug k) c = 0;
  ei_pr : (pr <= C)%nat }.

Lemma elim_inv_swap aug pr finished pc r :
  (pr <= r < length aug)%nat → elim_inv aug pr finished pc → elim_inv (swap pr r aug) pr finished pc.
Proof.
  intros Hr [Hl Hw Hs Hc Hp Hf Hle].
  assert (∀ x, x ∈ swap pr r aug ↔ x ∈ aug) as Hin.
  { intros x. split; intros (k & Hk & ->)%elem_row; rewrite ?length_swap in Hk.
    - rewrite row_swap by lia. destruct (k =? r)%nat; [apply row_elem; lia|].
      destruct (k =? pr)%nat; apply row_elem; lia.
    - pose proof (row_swap aug pr r k ltac:(lia) ltac:(lia)) as E1.
      pose proof (row_swap aug pr r pr ltac:(lia) ltac:(lia)) as E2.
      pose proof (row_swap aug pr r r ltac:(lia) ltac:(lia)) as E3. rewrite Nat.eqb_refl in E2, E3.
      destruct (Nat.eqb_spec k r) as [->|].
      + destruct (Nat.eqb_spec pr r) as [->|]; [rewrite <- E1|rewrite <- E2]; apply row_elem; rewrite length_swap; lia.
      + destruct (Nat.eqb_spec k pr) as [->|]; [rewrite <- E3|rewrite <- E1]; apply row_elem; rewrite length_swap; lia. }
  constructor; rewrite ?length_swap; try done.
  - intros x Hx. apply Hw. by apply Hin.
  - intros x Hx. apply Hs. by apply Hin.
  - intros u Hu. eapply spans_trans; [|by apply Hc]. intros x Hx. by apply spans_elem, Hin.
  - intros p Hlt. destruct (Hp p Hlt) as [Hb Hcell]. split; [done|]. intros k Hk.
    rewrite row_swap by lia. rewrite <- (Hcell k Hk).
    destruct (Nat.eqb_spec k r) as [->|]; [|destruct (Nat.eqb_spec k pr) as [->|]; [|done]];
      rewrite !Hcell by lia; by rewrite !(proj2 (Nat.eqb_neq _ _)) by lia.
  - intros c k Hc' Hk. rewrite row_swap by lia. destruct (k =? r)%nat; [by apply Hf; [|lia]|].
    destruct (k =? pr)%nat; by apply Hf; [|lia].
Qed.

Lemma cell_scale inv x c : cell (scale_row inv q x) c = cell x c * inv mod q.
Proof. unfold scale_row. by rewrite cell_fmap. Qed.

Lemma elim_inv_scale aug pr finished pc inv y :
  (pr < length aug)%nat → y * inv mod q = 1 → elim_inv aug pr finished pc →
  elim_inv (<[pr := scale_row inv q (row aug pr)]> aug) pr finished pc.
Proof.
  intros Hr Hinv [Hl Hw Hs Hc Hp Hf Hle].
  assert (cong q (y * inv) 1) as Hy by (rewrite <- (cong_mod q (y * inv)), Hinv; done).
  assert (∀ x, x ∈ <[pr := scale_row inv q (row aug pr)]> aug → x ∈ aug ∨ x = scale_row inv q (row aug pr)) as Hin.
  { intros x (k & Hk & ->)%elem_row. rewrite length_insert in Hk. rewrite row_insert by done.
    destruct (k =? pr)%nat; [by right|left; by apply row_elem]. }
  constructor; rewrite ?length_insert; try done.
  - intros x [Hx | ->]%Hin; [by apply Hw|]. unfold scale_row. rewrite length_fmap. by apply Hw, row_elem.
  - intros x [Hx | ->]%Hin; [by apply Hs|].
    apply (lin_ext q _ (λ c, inv * cell (row aug pr) c)); [|by apply (lin_mul q inv), Hs, row_elem].
    intros c _. by rewrite cell_scale, cong_mod, Z.mul_comm.
  - intros u Hu. eapply spans_trans; [|by apply Hc]. intros x (k & Hk & ->)%elem_row.
    destruct (Nat.eq_dec k pr) as [->|Hne].
    + eapply spans_ext, (spans_mul q _ _ y), (spans_elem q _ _ (scale_row inv q (row aug pr))).
      * intros c _. cbn beta. rewrite cell_scale, cong_mod.
        rewrite (Z.mul_comm (cell _ _)), Z.mul_assoc, Hy. by rewrite Z.mul_1_l.
      * apply list_elem_of_lookup. exists pr. by rewrite list_lookup_insert_eq.
    + apply spans_elem, list_elem_of_lookup. exists k. rewrite list_lookup_insert_ne by done.
      unfold row. destruct (lookup_lt_is_Some_2 aug k Hk) as [z Hz]. by rewrite Hz.
  - intros p Hlt. destruct (Hp p Hlt) as [Hb Hcell]. split; [done|]. intros k Hk.
    rewrite row_insert by done. rewrite <- (Hcell k Hk). destruct (Nat.eqb_spec k pr) as [->|]; [|done].
    rewrite cell_scale, Hcell, (proj2 (Nat.eqb_neq _ _)) by lia. done.
  - intros c k Hc' Hk. rewrite row_insert by done. destruct (Nat.eqb_spec k pr) as [->|]; [|by apply Hf].
    by rewrite cell_scale, (Hf c pr Hc').
Qed.

(** The place and value of a row after the elimination. *)
Lemma cell_eliminate col pivot x c :
  length pivot = length x → (c < length x)%nat →
  cell (eliminate_row q col pivot x) c = (q + cell x c - cell x col * cell pivot c mod q) mod q.
Proof. intros. unfold eliminate_row. cbn zeta. by rewrite cell_zip_with. Qed.

Lemma cong_eliminate col pivot x c :
  length pivot = length x → (c < length x)%nat →
  cong q (cell (eliminate_row q col pivot x) c) (cell x c + - cell x col * cell pivot c).
Proof.
  intros. rewrite cell_eliminate, cong_mod, cong_mod by done. exists 1. ring.
Qed.

Lemma row_clear pr col piv aug k : (k < length aug)%nat →
  row (clear_column q pr col piv aug) k =
  if (k =? pr)%nat || (cell (row aug k) col =? 0) then row aug k else eliminate_row q col piv (row aug k).
Proof. intros. unfold clear_column. by rewrite row_imap. Qed.

Section Clear.
Context (aug : list (list Z)) (pr col : nat) (piv : list Z).
Context (Hw : ∀ x, x ∈ aug → length x = (R + C)%nat) (Hpiv : length piv = (R + C)%nat).

Lemma length_clear k : (k < length aug)%nat → length (row (clear_column q pr col piv aug) k) = (R + C)%nat.
Proof.
  intros Hk. pose proof (Hw _ (row_elem _ _ Hk)) as El. rewrite row_clear by done. destruct (_ || _); [done|].
  unfold eliminate_row. rewrite length_zip_with. lia.
Qed.

(** A cleared column is exactly zero outside the pivot row. *)
Lemma clear_own k : (col < R)%nat → (k < length aug)%nat → k ≠ pr → cell piv col = 1 →
  cell (row (clear_column q pr col piv aug) k) col = 0.
Proof.
  intros Hcol Hk Hne H1. pose proof (Hw _ (row_elem _ _ Hk)) as El.
  rewrite row_clear, (proj2 (Nat.eqb_neq _ _)) by done. cbn [orb].
  destruct (Z.eqb_spec (cell (row aug k) col) 0) as [|Hnz]; [done|].
  rewrite cell_eliminate, H1, Z.mul_1_r by (rewrite ?El; auto; lia).
  set (v := cell _ _). rewrite (Z.mod_eq v) by lia.
  replace (q + v - (v - q * (v / q))) with ((1 + v / q) * q) by ring. apply Z_mod_mult.
Qed.

(** A column where the pivot row is zero keeps its reduced entries. *)
Lemma clear_keep k c : (k < length aug)%nat → cell piv c = 0 → 0 <= cell (row aug k) c < q →
  cell (row (clear_column q pr col piv aug) k) c = cell (row aug k) c.
Proof.
  intros Hk E0 Hb. pose proof (Hw _ (row_elem _ _ Hk)) as El.
  destruct (Nat.lt_ge_cases c (R + C)) as [Hc|Hc];
    [|rewrite !cell_out; [done|lia|by rewrite length_clear]].
  rewrite row_clear by done. destruct (_ || _); [done|].
  rewrite cell_eliminate, E0, Z.mul_0_r, Zmod_0_l, Z.sub_0_r by (rewrite ?El; auto).
  rewrite <- (Z.mod_small (cell (row aug k) c) q) at 2 by done.
  rewrite <- (Z_mod_plus_full (cell (row aug k) c) 1 q). f_equal. lia.
Qed.

(** A new row is the old one plus a multiple of the pivot. *)
Definition factor_of (k : nat) : Z := if (k =? pr)%nat then 0 else - cell (row aug k) col.

Lemma clear_cong k c : (k < length aug)%nat → (c < R + C)%nat →
  cong q (cell (row (clear_column q pr col piv aug) k) c) (cell (row aug k) c + factor_of k * cell piv c).
Proof.
  intros Hk Hc. pose proof (Hw _ (row_elem _ _ Hk)) as El. rewrite row_clear by done. unfold factor_of.
  destruct (k =? pr)%nat; cbn [orb]; [by rewrite Z.mul_0_l, Z.add_0_r|].
  destruct (Z.eqb_spec (cell (row aug k) col) 0) as [->|_]; [by rewrite Z.mul_0_l, Z.add_0_r|].
  apply cong_eliminate; lia.
Qed.
End Clear.

Lemma elim_inv_clear aug pr finished pc col :
  (pr < length aug)%nat → (col < R)%nat → cell (row aug pr) col = 1 → elim_inv aug pr finished pc →
  elim_inv (clear_column q pr col (row aug pr) aug) (S pr) (col :: finished)
    (λ p, if (p =? pr)%nat then col else pc p).
Proof.
  intros Hr Hcol H1 [Hl Hw Hs Hc Hp Hf Hle]. set (piv := row aug pr) in *.
  assert (piv ∈ aug) as Hpiv by by apply row_elem. pose proof (Hw _ Hpiv) as Hpl.
  assert (length (clear_column q pr col piv aug) = length aug) as Hlen by apply length_imap.
  assert (row (clear_column q pr col piv aug) pr = piv) as Hown by (by rewrite row_clear, Nat.eqb_refl).
  constructor; rewrite ?Hlen; try done; try lia.
  - intros x (k & Hk & ->)%elem_row. rewrite Hlen in Hk. by apply length_clear.
  - intros x (k & Hk & ->)%elem_row. rewrite Hlen in Hk.
    apply (lin_ext q _ (λ c, cell (row aug k) c + factor_of aug pr col k * cell piv c));
      [intros c Hlt; by apply clear_cong|].
    apply (lin_add q (cell (row aug k)) (λ c, factor_of aug pr col k * cell piv c)); [by apply Hs, row_elem|].
    by apply (lin_mul q), Hs.
  - intros u Hu. eapply spans_trans; [|by apply Hc]. intros x (k & Hk & ->)%elem_row.
    assert (∀ k, (k < length aug)%nat → spans q (R + C) (clear_column q pr col piv aug)
      (cell (row (clear_column q pr col piv aug) k))) as Hel
      by (intros; by apply spans_elem, row_elem; rewrite Hlen).
    pose proof (Hel pr Hr) as Hsp. rewrite Hown in Hsp.
    eapply spans_ext, spans_add, (spans_mul q _ _ (- factor_of aug pr col k)), Hsp; [|exact (Hel k Hk)].
    intros c Hlt. cbn beta. rewrite (clear_cong aug pr col piv Hw Hpl k c Hk Hlt).
    replace (cell (row aug k) c) with
      (cell (row aug k) c + factor_of aug pr col k * cell piv c + - factor_of aug pr col k * cell piv c) at 1
      by ring. done.
  - intros p Hlt. destruct (Nat.eqb_spec p pr) as [->|Hne].
    + split; [done|]. intros k Hk. destruct (Nat.eqb_spec k pr) as [->|Hne]; [by rewrite Hown|].
      by apply clear_own.
    + destruct (Hp p ltac:(lia)) as [Hb Hcell]. split; [done|]. intros k Hk.
      rewrite clear_keep; [by apply Hcell|done|done|done| |].
      * unfold piv. by rewrite Hcell, (proj2 (Nat.eqb_neq _ _)) by lia.
      * rewrite Hcell by done. destruct (k =? p)%nat; lia.
  - intros c k Hin Hk. apply elem_of_cons in Hin as [->|Hin]; [apply clear_own; (done || lia)|].
    rewrite clear_keep; [apply Hf; [done|lia]|done|done|lia|apply Hf; [done|lia]|].
    rewrite Hf by (done || lia). lia.
Qed.

Lemma elim_inv_step aug pr finished pc col aug' :
  (col < R)%nat → elim_inv aug pr finished pc → eliminate_col q aug pr col = Ok (Some aug') →
  ∃ pc', elim_inv aug' (S pr) (col :: finished) pc'.
Proof.
  intros Hcol Hi (r & inv & Hr & Hinv & ->)%eliminate_col_Some; [|done]. cbn zeta.
  apply (elim_inv_swap _ _ _ _ r) in Hi; [|done].
  assert (row (swap pr r aug) pr = row aug r) as Hrow.
  { rewrite row_swap, Nat.eqb_refl by lia. by destruct (Nat.eqb_spec pr r) as [->|]. }
  assert (pr < length (swap pr r aug))%nat as Hlt by (rewrite length_swap; lia).
  apply (elim_inv_scale _ _ _ _ inv (cell (row aug r) col)) in Hi; [|done|done]. rewrite Hrow in Hi.
  set (B := <[pr := _]> _) in *. assert (row B pr = scale_row inv q (row aug r)) as HB
    by (unfold B; by rewrite row_insert, Nat.eqb_refl).
  eexists. rewrite <- HB. apply elim_inv_clear; [|done| |exact Hi].
  - unfold B. by rewrite length_insert.
  - by rewrite HB, cell_scale.
Qed.

Lemma elim_inv_skip aug pr finished pc col :
  elim_inv aug pr finished pc → eliminate_col q aug pr col = Ok None → elim_inv aug pr (col :: finished) pc.
Proof.
  intros [Hl Hw Hs Hc Hp Hf Hle] E. constructor; try done. intros c k [->|Hin]%elem_of_cons Hk; [|by apply Hf].
  by eapply eliminate_col_None.
Qed.

(** The loop ends with every column finished, or with every row a pivot row. *)
Lemma eliminate_inv columns : ∀ aug pr finished pc aug' pr',
  Forall (λ c, c < R)%nat columns → elim_inv aug pr finished pc →
  eliminate q aug pr columns = Ok (aug', pr') →
  ∃ finished' pc', elim_inv aug' pr' finished' pc' ∧
    (pr' = C ∨ ∀ c, c ∈ finished ∨ c ∈ columns → c ∈ finished').
Proof.
  induction columns as [|col rest IH]; intros aug pr finished pc aug' pr' Hall Hi E; cbn [eliminate] in E.
  { simplify_eq. exists finished, pc. split; [done|]. right. set_solver. }
  apply Forall_cons in Hall as [Hcol Hall].
  destruct (eliminate_col q aug pr col) as [[aug1|]|] eqn:Ec; cbn in E; [|..|done].
  - pose proof (ei_len _ _ _ _ Hi) as Hl. destruct (elim_inv_step _ _ _ _ _ _ Hcol Hi Ec) as [pc1 Hi1].
    destruct (Nat.leb_spec (length aug) (S pr)) as [Hle|Hle].
    + simplify_eq. eexists _, _. split; [done|]. left. pose proof (ei_pr _ _ _ _ Hi1). lia.
    + destruct (IH _ _ _ _ _ _ Hall Hi1 E) as (f & p & Hi' & Hd). exists f, p. split; [done|].
      destruct Hd as [Hd|Hd]; [by left|right; set_solver].
  - destruct (IH _ _ _ _ _ _ Hall (elim_inv_skip _ _ _ _ _ Hi Ec) E) as (f & p & Hi' & Hd).
    exists f, p. split; [done|]. destruct Hd as [Hd|Hd]; [by left|right; set_solver].
Qed.

(** A row past the pivots is zero on the left, once the loop has ended. *)
Lemma final_row_zero aug pr finished pc k c :
  elim_inv aug pr finished pc → (pr = C ∨ ∀ c, (c < R)%nat → c ∈ finished) →
  (pr <= k < length aug)%nat → (c < R)%nat → cell (row aug k) c = 0.
Proof.
  intros Hi [->|Hd] Hk Hc; [pose proof (ei_len _ _ _ _ Hi); lia|]. by eapply ei_finished; [|apply Hd|].
Qed.

(** A vector with property [P] that is zero on the left is a combination of the null vectors. *)
Lemma null_rows_complete aug pr finished pc u :
  elim_inv aug pr finished pc → (pr = C ∨ ∀ c, (c < R)%nat → c ∈ finished) →
  P u → (∀ c, (c < R)%nat → cong q (u c) 0) →
  spans q C (omap (null_vector R) aug) (λ c, u (R + c)%nat).
Proof.
  intros Hi Hd Hu Hz. destruct (ei_complete _ _ _ _ Hi u Hu) as [a Ha].
  eapply (spans_ext _ _ _ _ (λ c, sumn (length aug) (λ k, a k * cell (row aug k) (R + c)))).
  { intros c Hc. apply Ha. lia. }
  apply (spans_sum q C _ (length aug) (λ k c, a k * cell (row aug k) (R + c)%nat)). intros k Hk.
  destruct (Nat.lt_ge_cases k pr) as [Hlt|Hge].
  - destruct (ei_pc _ _ _ _ Hi k Hlt) as [Hb Hcell].
    assert (cong q (a k) 0) as Hak.
    { rewrite <- (Hz _ Hb), (Ha (pc k)) by lia. rewrite <- (sumn_delta (length aug) k a) by done.
      apply sumn_cong. intros i Hlti. rewrite Hcell by done.
      destruct (Nat.eqb_spec i k); [by rewrite Z.mul_1_r|by rewrite Z.mul_0_r]. }
    apply spans_0. intros c _. by rewrite Hak, Z.mul_0_l.
  - apply spans_mul. set (x := row aug k).
    eapply (spans_ext _ _ _ _ (cell (drop R x))); [intros c _; by rewrite cell_drop|].
    assert (is_zero_vec (take R x) = true) as Hzero.
    { apply is_zero_vec_cells. intros i. destruct (Nat.lt_ge_cases i R) as [HiR|HiR].
      - rewrite cell_take by done. by eapply final_row_zero.
      - apply cell_out. rewrite length_take. lia. }
    destruct (is_zero_vec (drop R x)) eqn:Ed.
    + apply spans_0. intros c _. by rewrite (proj1 (is_zero_vec_cells _) Ed).
    + apply spans_elem, list_elem_of_omap. exists x. split; [by apply row_elem|].
      unfold null_vector. by rewrite Hzero, Ed.
Qed.

Lemma null_vector_row aug pr finished pc x :
  elim_inv aug pr finished pc → x ∈ omap (null_vector R) aug →
  length x = C ∧ ∃ u, P u ∧ (∀ c, (c < R)%nat → u c = 0) ∧ ∀ c, cell x c = u (R + c)%nat.
Proof.
  intros Hi (y & Hy & Hn)%list_elem_of_omap. unfold null_vector in Hn.
  destruct (is_zero_vec (take R y)) eqn:Ez; [|done]. destruct (negb _); [|done]. cbn in Hn. simplify_eq.
  split; [rewrite length_drop, (ei_rows _ _ _ _ Hi _ Hy); lia|].
  exists (cell y). split; [by eapply ei_sound|]. split; [|intros; apply cell_drop].
  intros c Hc. rewrite <- (cell_take y R) by done. by apply is_zero_vec_cells.
Qed.
End Elimination.

(** ** The null space *)

Definition matrix_wf (m : ParityMatrix) : Prop :=
  length (data m) = rows m ∧ Forall (λ g, length g = cols m) (data m).

(** [v] is orthogonal to every row of the matrix. *)
Definition orthogonal (q : Z) (m : ParityMatrix) (v : list Z) : Prop :=
  Forall (λ g, dot_product_mod v g q = 0) (data m).

Section NullSpace.
Context (m : ParityMatrix) (q : Z) (Hq : 2 <= q) (Hwf : matrix_wf m).

(** The left part of the vector holds the products of its right part with the rows. *)
Definition augments (u : nat → Z) : Prop :=
  ∀ i, (i < rows m)%nat →
    cong q (u i) (sumn (cols m) (λ j, u (rows m + j)%nat * cell (row (data m) i) j)).

Lemma augments_linear : Linear q (rows m + cols m) augments.
Proof.
  split; unfold augments.
  - intros v w E Hw i Hi. rewrite (E i), Hw by lia. apply sumn_cong. intros j Hj. by rewrite (E (rows m + j)%nat) by lia.
  - intros i _. by rewrite sumn_0.
  - intros v w Hv Hw i Hi. rewrite Hv, Hw by done. rewrite <- sumn_add. apply sumn_cong. intros j _.
    by rewrite Z.mul_add_distr_r.
  - intros x v Hv i Hi. rewrite Hv by done. rewrite <- sumn_mul. apply sumn_cong. intros j _. by rewrite Z.mul_assoc.
Qed.

Lemma cell_delta k j c : (j < k)%nat → cell (<[j := 1]> (replicate k 0)) c = if (c =? j)%nat then 1 else 0.
Proof.
  intros Hj. unfold cell. destruct (Nat.eqb_spec c j) as [->|Hne].
  - by rewrite list_lookup_insert_eq by by rewrite length_replicate.
  - rewrite list_lookup_insert_ne by done. destruct (replicate k 0 !! c) as [x|] eqn:E; [|done].
    by apply lookup_replicate in E as [-> _].
Qed.

Lemma row_augmented k : (k < cols m)%nat →
  row (augmented m) k = ((λ g, cell g k) <$> data m) ++ <[k := 1]> (replicate (cols m) 0).
Proof. intros Hk. unfold row, augmented. by rewrite list_lookup_fmap, lookup_seq_lt. Qed.

Lemma length_augmented : length (augmented m) = cols m.
Proof. unfold augmented. by rewrite length_fmap, length_seq. Qed.

Lemma augmented_left k i : (k < cols m)%nat → (i < rows m)%nat →
  cell (row (augmented m) k) i = cell (row (data m) i) k.
Proof.
  intros Hk Hi. destruct Hwf as [Hl _]. rewrite row_augmented, cell_app_l by (rewrite ?length_fmap; lia).
  unfold cell at 1, row. rewrite list_lookup_fmap. by destruct (lookup_lt_is_Some_2 (data m) i) as [g ->]; [lia|].
Qed.

Lemma augmented_right k j : (k < cols m)%nat →
  cell (row (augmented m) k) (rows m + j) = if (j =? k)%nat then 1 else 0.
Proof.
  intros Hk. rewrite row_augmented by done. destruct Hwf as [Hl _].
  replace (rows m) with (length ((λ g, cell g k) <$> data m)) by by rewrite length_fmap.
  by rewrite cell_app_r, cell_delta.
Qed.

Lemma elim_inv_augmented : elim_inv q (rows m) (cols m) augments (augmented m) 0 [] id.
Proof.
  constructor; try lia; try set_solver; [apply length_augmented|..].
  - intros x (k & Hk & ->)%elem_row. rewrite length_augmented in Hk. rewrite row_augmented by done.
    rewrite length_app, length_fmap, length_insert, length_replicate. by rewrite (proj1 Hwf).
  - intros x (k & Hk & ->)%elem_row. rewrite length_augmented in Hk. intros i Hi.
    rewrite augmented_left by done.
    rewrite <- (sumn_delta (cols m) k (λ j, cell (row (data m) i) j)) by done.
    apply sumn_cong. intros j _. rewrite augmented_right by done.
    destruct (j =? k)%nat; [by rewrite Z.mul_1_l|by rewrite Z.mul_0_l].
  - intros u Hu. exists (λ k, u (rows m + k)%nat). rewrite length_augmented. intros c Hc.
    destruct (Nat.lt_ge_cases c (rows m)) as [Hlt|Hge].
    + rewrite (Hu c Hlt). apply sumn_cong. intros k Hk. by rewrite augmented_left.
    + replace c with (rows m + (c - rows m))%nat by lia.
      rewrite <- (sumn_delta (cols m) (c - rows m)%nat (λ k, u (rows m + k)%nat)) by lia.
      apply sumn_cong. intros k Hk. rewrite augmented_right, (Nat.eqb_sym k) by done.
      destruct (_ =? k)%nat; [by rewrite Z.mul_1_r|by rewrite Z.mul_0_r].
Qed.

(** The vectors that are zero on the left are the orthogonal ones. *)
Definition lift (v : nat → Z) (c : nat) : Z := if (c <? rows m)%nat then 0 else v (c - rows m)%nat.

Lemma orthogonal_sum v : length v = cols m →
  orthogonal q m v ↔ ∀ i, (i < rows m)%nat → cong q 0 (sumn (cols m) (λ j, cell v j * cell (row (data m) i) j)).
Proof.
  intros Hv. destruct Hwf as [Hl Hrows]. unfold orthogonal. rewrite Forall_forall in *. split.
  - intros H i Hi. symmetry. apply cong_0; [lia|].
    pose proof (row_elem (data m) i ltac:(lia)) as Hg. rewrite <- Hv, <- dot_product_sum; [by apply H|by rewrite Hv, Hrows|lia].
  - intros H x (i & Hi & ->)%elem_row. rewrite dot_product_sum; [|by rewrite Hrows by by apply row_elem|lia].
    apply cong_0; [lia|]. symmetry. rewrite Hv. apply H. lia.
Qed.

Lemma augments_lift v : length v = cols m → orthogonal q m v ↔ augments (lift (cell v)).
Proof.
  intros Hv. rewrite orthogonal_sum by done. unfold augments, lift.
  split; intros H i Hi; specialize (H i Hi); rewrite (proj2 (Nat.ltb_lt _ _)) in * by done;
    (etransitivity; [exact H|]); apply sumn_cong; intros j _;
    rewrite (proj2 (Nat.ltb_ge _ _)) by lia; by replace (rows m + j - rows m)%nat with j by lia.
Qed.

Lemma null_space_shape h : (0 < rows m)%nat → null_space m q = Ok h →
  ∃ aug pr finished pc, elim_inv q (rows m) (cols m) augments aug pr finished pc ∧
    (pr = cols m ∨ ∀ c, (c < rows m)%nat → c ∈ finished) ∧
    data h = omap (null_vector (rows m)) aug.
Proof.
  intros Hr E. unfold null_space in E. rewrite (proj2 (Nat.eqb_neq _ _)) in E by lia.
  destruct (eliminate _ _ _ _) as [[aug pr]|] eqn:Ee; cbn in E; [|done].
  assert (Forall (λ c, c < rows m)%nat (seq 0 (rows m))) as Hcols
    by (apply Forall_forall; intros c Hc%elem_of_seq; lia).
  pose proof augments_linear as Hlin.
  destruct (eliminate_inv q Hq _ _ augments _ _ _ _ _ _ _ Hcols elim_inv_augmented Ee) as (f & p & Hi & Hd).
  exists aug, pr, f, p. split; [done|]. split.
  - destruct Hd as [Hd|Hd]; [by left|right]. intros c Hc. apply Hd. right. apply elem_of_seq. lia.
  - unfold new in E. destruct (omap _ _); [by simplify_eq|]. destruct (List.find _ _); by simplify_eq.
Qed.
End NullSpace.
