(* ===== verification/ParityProps.v ===== *)
(** * Correctness of the parity matrices

    The null space computed in crates/parity-matrix/src/matrix.rs contains exactly the orthogonal
    vectors, and multiplying by it accepts exactly the vectors of the row space.  For the
    generator matrix these are the evaluations of the polynomials of bounded degree. *)

From S2P Require Import Prelude ParityMatrix NullSpace.
From Stdlib Require Import Znumtheory.
Open Scope Z_scope.

(** ** Orthogonality *)

Section Dual.
Context (m : ParityMatrix) (q : Z) (Hq : 2 <= q) (Hwf : matrix_wf m) (Hrows : (0 < rows m)%nat).
Context (h : ParityMatrix) (Hh : null_space m q = Ok h).
#[local] Existing Instance augments_linear.

Lemma cols_data g : g ∈ data m → length g = cols m.
Proof. destruct Hwf as [_ Hw]. rewrite Forall_forall in Hw. apply Hw. Qed.

Lemma null_row_length x : x ∈ data h → length x = cols m.
Proof.
  intros Hx. destruct (null_space_shape m q Hq Hwf h Hrows Hh) as (aug & pr & f & pc & Hi & _ & Hd).
  rewrite Hd in Hx. by eapply null_vector_row.
Qed.

Lemma null_row_orthogonal x : x ∈ data h → orthogonal q m x.
Proof.
  intros Hx. apply orthogonal_sum; [done|done|by apply null_row_length|]. intros i Hi.
  destruct (null_space_shape m q Hq Hwf h Hrows Hh) as (aug & pr & f & pc & Hinv & _ & Hd).
  rewrite Hd in Hx. destruct (null_vector_row _ _ _ _ _ _ _ _ _ Hinv Hx) as (_ & u & Hu & Hz & Hc).
  rewrite <- (Hz i Hi) at 1. rewrite (Hu i Hi). apply sumn_cong. intros j _. by rewrite Hc.
Qed.

(** Vectors, as functions, that are orthogonal to the rows of the matrix. *)
Definition orth_fun (v : nat → Z) : Prop :=
  ∀ i, (i < rows m)%nat → cong q 0 (sumn (cols m) (λ j, v j * cell (row (data m) i) j)).

#[local] Instance orth_fun_linear : Linear q (cols m) orth_fun.
Proof.
  split; unfold orth_fun.
  - intros v w E Hv i Hi. rewrite (Hv i Hi) at 1. apply sumn_cong. intros j Hj. by rewrite (E j Hj).
  - intros i _. by rewrite sumn_0.
  - intros v w Hv Hw i Hi. rewrite <- (Z.add_0_l 0). rewrite (Hv i Hi), (Hw i Hi) at 1. rewrite <- sumn_add.
    apply sumn_cong. intros j _. by rewrite Z.mul_add_distr_r.
  - intros x v Hv i Hi. rewrite <- (Z.mul_0_r x). rewrite (Hv i Hi) at 1. rewrite <- sumn_mul.
    apply sumn_cong. intros j _. by rewrite Z.mul_assoc.
Qed.

Lemma orthogonal_spanned v : length v = cols m →
  orthogonal q m v ↔ spans q (cols m) (data h) (cell v).
Proof.
  intros Hv. split.
  - intros Ho%augments_lift; [|done..].
    destruct (null_space_shape m q Hq Hwf h Hrows Hh) as (aug & pr & f & pc & Hinv & Hend & ->).
    eapply spans_ext, (null_rows_complete q _ _ (augments m q) aug pr f pc (lift m (cell v)) Hinv Hend Ho).
    + intros c Hc. unfold lift. rewrite (proj2 (Nat.ltb_ge _ _)) by lia. by replace (rows m + c - rows m)%nat with c by lia.
    + intros c Hc. unfold lift. by rewrite (proj2 (Nat.ltb_lt _ _)).
  - intros Hs. apply orthogonal_sum; [done..|].
    apply (spans_linear q (cols m) orth_fun (data h) (cell v)); [|done].
    intros x Hx. refine (proj1 (orthogonal_sum m q Hq Hwf x _) _);
      [by apply null_row_length|by apply null_row_orthogonal].
Qed.

(** *** The rows of the matrix are recovered from its null space *)

(** The product of the right part of a vector with [v]. *)
Definition right_dot (v u : nat → Z) : Z := sumn (cols m) (λ j, u (rows m + j)%nat * v j).

Lemma right_dot_linear v w :
  Linear q (rows m + cols m) (λ u, cong q (right_dot v u) (right_dot w u)).
Proof.
  assert (∀ v u u', (∀ c, (c < rows m + cols m)%nat → cong q (u c) (u' c)) →
    cong q (right_dot v u) (right_dot v u')) as Hext.
  { intros v' u u' E. apply sumn_cong. intros j Hj. by rewrite (E (rows m + j)%nat) by lia. }
  split.
  - intros u u' E H. by rewrite (Hext v u u' E), (Hext w u u' E).
  - unfold right_dot. by rewrite !sumn_0.
  - intros u u' H H'. unfold right_dot in *.
    rewrite !(sumn_ext (cols m) (λ j, (u (rows m + j)%nat + u' (rows m + j)%nat) * _)
      (λ j, u (rows m + j)%nat * _ j + u' (rows m + j)%nat * _ j)) by (intros; apply Z.mul_add_distr_r).
    rewrite !sumn_add. by rewrite H, H'.
  - intros x u H. unfold right_dot in *.
    rewrite !(sumn_ext (cols m) (λ j, x * u (rows m + j)%nat * _) (λ j, x * (u (rows m + j)%nat * _ j)))
      by (intros; symmetry; apply Z.mul_assoc).
    rewrite !sumn_mul. by rewrite H.
Qed.

(** Swapping the two sums of a product with a combination of rows. *)
Lemma right_dot_combination u x : augments m q u →
  cong q (right_dot (λ j, sumn (rows m) (λ i, x i * cell (row (data m) i) j)) u)
    (sumn (rows m) (λ i, u i * x i)).
Proof.
  intros Hu. unfold right_dot.
  rewrite (sumn_ext (cols m) _ (λ j, sumn (rows m) (λ i, x i * (u (rows m + j)%nat * cell (row (data m) i) j))))
    by (intros j _; rewrite <- sumn_mul; apply sumn_ext; intros; ring).
  rewrite <- sumn_swap. apply sumn_cong. intros i Hi. rewrite sumn_mul, <- (Hu i Hi). by rewrite Z.mul_comm.
Qed.

Section Recover.
Context (aug : list (list Z)) (pr : nat) (f : list nat) (pc : nat → nat) (v : nat → Z).
Context (Hinv : elim_inv q (rows m) (cols m) (augments m q) aug pr f pc).
Context (Hend : pr = cols m ∨ ∀ c, (c < rows m)%nat → c ∈ f).
Context (Hnull : ∀ k, (pr <= k < length aug)%nat → cong q (right_dot v (cell (row aug k))) 0).

Definition coeff (i : nat) : Z :=
  sumn pr (λ p, if (i =? pc p)%nat then right_dot v (cell (row aug p)) else 0).

(** The coefficients solve the reduced system. *)
Lemma coeff_solves k : (k < length aug)%nat →
  cong q (right_dot v (cell (row aug k))) (sumn (rows m) (λ i, cell (row aug k) i * coeff i)).
Proof.
  intros Hk. destruct (Nat.lt_ge_cases k pr) as [Hlt|Hge].
  - assert (∀ i, cell (row aug k) i * coeff i = sumn pr (λ p, if (i =? pc p)%nat
        then cell (row aug k) i * right_dot v (cell (row aug p)) else 0)) as E.
    { intros i. unfold coeff. rewrite <- sumn_mul. apply sumn_ext. intros p _. destruct (_ =? _)%nat; lia. }
    rewrite (sumn_ext (rows m) _ _ (λ i _, E i)), sumn_swap.
    rewrite (sumn_ext pr _ (λ p, if (p =? k)%nat then right_dot v (cell (row aug p)) else 0)).
    { by rewrite sumn_delta. }
    intros p Hp. destruct (ei_pc _ _ _ _ _ _ _ _ Hinv p Hp) as [Hb Hcell].
    rewrite (sumn_delta (rows m) (pc p) (λ i, cell (row aug k) i * right_dot v (cell (row aug p)))) by done.
    rewrite Hcell, Nat.eqb_sym by done. destruct (p =? k)%nat; lia.
  - rewrite (Hnull k) by lia. rewrite sumn_0; [done|]. intros i Hi.
    rewrite (final_row_zero q _ _ (augments m q) aug pr f pc k i) by done || lia. lia.
Qed.

Lemma recovered j : (j < cols m)%nat →
  cong q (v j) (sumn (rows m) (λ i, coeff i * cell (row (data m) i) j)).
Proof.
  intros Hj. set (w := λ j, sumn (rows m) (λ i, coeff i * cell (row (data m) i) j)).
  assert (cong q (right_dot v (cell (row (augmented m) j))) (right_dot w (cell (row (augmented m) j)))) as H.
  { pose proof (right_dot_linear v w) as Hlin.
    assert (row (augmented m) j ∈ augmented m) as Hin by (apply row_elem; by rewrite length_augmented).
    pose proof (ei_sound _ _ _ _ _ _ _ _ (elim_inv_augmented m q Hq Hwf) _ Hin) as Hs.
    pose proof (ei_complete _ _ _ _ _ _ _ _ Hinv _ Hs) as Hsp.
    refine (spans_linear q _ (λ u, cong q (right_dot v u) (right_dot w u)) aug _ _ Hsp). intros x (k & Hk & ->)%elem_row.
    rewrite (coeff_solves k Hk). symmetry. apply right_dot_combination.
    by eapply ei_sound, row_elem. }
  assert (∀ v, right_dot v (cell (row (augmented m) j)) = v j) as Hpick.
  { intros v'. unfold right_dot. rewrite <- (sumn_delta (cols m) j v') by done. apply sumn_ext. intros i _.
    rewrite augmented_right by done. destruct (i =? j)%nat; lia. }
  by rewrite !Hpick in H.
Qed.
End Recover.
End Dual.

Lemma matrix_vector_sum q m v : 0 < q → (∀ x, x ∈ data m → length x = length v) →
  Forall (λ y, y = 0) (matrix_vector_mult_mod (data m) v q) ↔
  ∀ x, x ∈ data m → cong q (sumn (length v) (λ j, cell x j * cell v j)) 0.
Proof.
  intros Hq Hl. unfold matrix_vector_mult_mod. rewrite Forall_fmap, Forall_forall.
  apply forall_proper. intros x. split; intros H Hx; specialize (H Hx); cbn in *.
  - apply cong_0; [lia|]. rewrite <- (Hl x Hx), <- dot_product_sum; [done|by rewrite (Hl x Hx)|done].
  - rewrite dot_product_sum, (Hl x Hx); [|by rewrite (Hl x Hx)|done]. by apply cong_0; [lia|].
Qed.

(** The product with the null space is zero exactly on the combinations of the rows. *)
Lemma parity_check_rows m q h v :
  2 <= q → matrix_wf m → (0 < rows m)%nat → null_space m q = Ok h → length v = cols m →
  Forall (λ y, y = 0) (matrix_vector_mult_mod (data h) v q) ↔ spans q (cols m) (data m) (cell v).
Proof.
  intros Hq Hwf Hr Hh Hv.
  rewrite matrix_vector_sum; [|lia|intros x Hx; rewrite Hv; by eapply null_row_length]. rewrite Hv.
  destruct (null_space_shape m q Hq Hwf h Hr Hh) as (aug & pr & f & pc & Hinv & Hend & Hd).
  split.
  - intros H. exists (coeff m aug pr pc (cell v)). intros j Hj. rewrite (proj1 Hwf).
    apply (recovered m q Hq Hwf Hr aug pr f pc); try done. intros k Hk.
    set (x := row aug k). unfold right_dot.
    rewrite (sumn_ext _ _ (λ j, cell (drop (rows m) x) j * cell v j)) by (intros; by rewrite cell_drop).
    destruct (null_vector (rows m) x) as [y|] eqn:En.
    + rewrite <- (H y); [unfold null_vector in En; by destruct (_ && _); simplify_eq|].
      rewrite Hd. apply list_elem_of_omap. exists x. split; [apply row_elem; lia|done].
    + unfold null_vector in En. destruct (is_zero_vec (take _ _)) eqn:Ez.
      * destruct (is_zero_vec (drop _ _)) eqn:Ed; [|done].
        rewrite sumn_0; [done|]. intros i _. by rewrite (proj1 (is_zero_vec_cells _) Ed).
      * exfalso. apply not_true_iff_false in Ez. apply Ez, is_zero_vec_cells. intros i.
        destruct (Nat.lt_ge_cases i (rows m)).
        -- rewrite cell_take by done. unfold x. by eapply final_row_zero.
        -- apply cell_out. rewrite length_take. lia.
  - intros [a Ha] x Hx.
    rewrite (sumn_cong q _ _ (λ j, sumn (rows m) (λ i, a i * (cell x j * cell (row (data m) i) j)))).
    2:{ intros j Hj. rewrite (Ha j Hj), (proj1 Hwf), <- sumn_mul. apply sumn_cong. intros i _.
        rewrite !Z.mul_assoc. by rewrite (Z.mul_comm (cell x j)). }
    rewrite <- sumn_swap. rewrite sumn_cong; [by rewrite (sumn_0 (rows m) (λ _, 0))|]. intros i Hi. cbn beta.
    rewrite sumn_mul. assert (orthogonal q m x) as Ho by by eapply null_row_orthogonal.
    rewrite (orthogonal_sum m q Hq Hwf x) in Ho by by eapply null_row_length.
    by rewrite <- (Ho i Hi), Z.mul_0_r.
Qed.

(** ** The generator matrix *)

Lemma evaluate_loop coeffs : ∀ q x k acc, 2 <= q → 0 <= acc < q →
  foldl (λ val '(i, coeff), (val + coeff * mod_pow x i q) mod q) acc (imap (λ i c, (k + i, c)%nat) coeffs)
  = (acc + sumn (length coeffs) (λ i, cell coeffs i * mod_pow x (k + i) q)) mod q.
Proof.
  induction coeffs as [|c coeffs IH]; intros q x k acc Hq Hacc.
  { cbn. by rewrite Z.add_0_r, Z.mod_small. }
  rewrite imap_cons. cbn [foldl length]. rewrite sumn_S, Nat.add_0_r.
  rewrite (imap_ext _ (λ i c, (S k + i, c)%nat)) by (intros; cbn; f_equal; lia).
  rewrite IH; [|done|apply Z.mod_pos_bound; lia]. rewrite Zplus_mod_idemp_l, <- Z.add_assoc.
  change (cell (c :: coeffs) 0) with c. do 3 f_equal. apply sumn_ext. intros i _.
  change (cell (c :: coeffs) (S i)) with (cell coeffs i). do 2 f_equal. lia.
Qed.

Lemma evaluate_at_sum coeffs q x : 2 <= q →
  evaluate_at coeffs q x = sumn (length coeffs) (λ i, cell coeffs i * mod_pow x i q) mod q.
Proof. intros Hq. unfold evaluate_at. apply (evaluate_loop coeffs q x 0 0); [done|lia]. Qed.

Lemma new_same_length d c : Forall (λ g : list Z, length g = c) d → d ≠ [] → new d = Ok (mkMatrix d (length d) c).
Proof.
  intros Hall Hne. destruct d as [|r0 d]; [done|]. pose proof (Forall_inv Hall) as H0. unfold new. rewrite H0.
  destruct (List.find _ _) as [x|] eqn:E; [|done]. apply List.find_some in E as [Hin Hx].
  rewrite Forall_forall in Hall. rewrite (Hall x), Nat.eqb_refl in Hx by by apply list_elem_of_In. done.
Qed.

Lemma generator_matrix cfg g : build_generator_matrix cfg = Ok g →
  q cfg ≠ 0 ∧ q cfg ≠ 1 ∧ (t cfg <= (n cfg - 1) / 2)%nat ∧ matrix_wf g ∧
  rows g = S (t cfg) ∧ cols g = S (n cfg) ∧
  ∀ i j, (i < rows g)%nat → (j < cols g)%nat → cell (row (data g) i) j = mod_pow (Z.of_nat j) i (q cfg).
Proof.
  unfold build_generator_matrix. destruct (Z.eqb_spec (q cfg) 0) as [|Hq0]; [done|].
  destruct (Z.eqb_spec (q cfg) 1) as [|Hq1]; [done|]. cbn [orb].
  destruct (Nat.ltb_spec ((n cfg - 1) / 2) (t cfg)); [done|].
  set (d := _ <$> seq 0 (S (t cfg))).
  assert (Forall (λ g, length g = S (n cfg)) d) as Hall.
  { apply Forall_fmap, Forall_true. intros i. unfold compose. by rewrite length_fmap, length_seq. }
  assert (length d = S (t cfg)) as Hd by (unfold d; by rewrite length_fmap, length_seq).
  rewrite (new_same_length d (S (n cfg))) by (done || by intros ->). rewrite Hd. intros [= <-].
  split; [done|]. split; [done|]. split; [done|]. split; [done|]. split; [done|]. split; [done|].
  cbn [rows cols data]. intros i j Hi Hj. unfold row, cell at 1, d.
  rewrite list_lookup_fmap, lookup_seq_lt by done. cbn [fmap option_fmap option_map from_option id default].
  by rewrite list_lookup_fmap, lookup_seq_lt by done.
Qed.

(** ** Totality over a prime modulus *)

Definition reduced (q : Z) (l : list Z) : Prop := Forall (λ x, 0 <= x < q) l.

Lemma reduced_cell q l i : 0 < q → reduced q l → 0 <= cell l i < q.
Proof.
  intros Hq Hl. unfold cell. destruct (l !! i) as [x|] eqn:E; cbn; [|lia]. by eapply (Forall_lookup_1 _ _ _ _ Hl).
Qed.

Lemma prime_inverse q x : prime q → 0 <= x < q → x ≠ 0 → ∃ inv, mod_inverse x q = Ok inv.
Proof.
  intros Hp Hx Hne. pose proof (prime_ge_2 q Hp) as Hq. pose proof (mod_inverse_cases x q Hq) as Hc.
  rewrite decide_True in Hc; [destruct Hc as (inv & E & _); by exists inv|].
  apply Zgcd_1_rel_prime, rel_prime_sym, prime_rel_prime; [done|]. intros Hd.
  apply Z.divide_pos_le in Hd; lia.
Qed.

Lemma reduced_swap q i j l : Forall (reduced q) l → Forall (reduced q) (swap i j l).
Proof.
  intros H. unfold swap. destruct (l !! i) eqn:Ei; [|done]. destruct (l !! j) eqn:Ej; [|done].
  by repeat apply Forall_insert; try done; eapply Forall_lookup_1.
Qed.

Lemma eliminate_total q columns : prime q → ∀ aug pr, Forall (reduced q) aug →
  ∃ res, eliminate q aug pr columns = Ok res.
Proof.
  intros Hp. pose proof (prime_ge_2 q Hp) as Hq.
  induction columns as [|col rest IH]; intros aug pr Hr; cbn [eliminate]; [by eexists|].
  unfold eliminate_col. destruct (List.find _ _) as [k|] eqn:E; [|by apply IH].
  apply List.find_some in E as [Hk Hne]. apply in_seq in Hk. apply negb_true_iff, Z.eqb_neq in Hne. cbn zeta.
  assert (default [] (swap pr k aug !! pr) = row aug k) as Hrow.
  { pose proof (row_swap aug pr k pr ltac:(lia) ltac:(lia)) as Hs. unfold row at 1 in Hs. rewrite Hs.
    rewrite Nat.eqb_refl. by destruct (Nat.eqb_spec pr k) as [<-|]. }
  rewrite Hrow. destruct (prime_inverse q (cell (row aug k) col) Hp) as [inv Einv]; [|done|].
  { apply reduced_cell; [lia|]. rewrite Forall_forall in Hr. apply Hr, row_elem. lia. }
  rewrite Einv. cbn beta iota. destruct (_ <=? _)%nat; [by eexists|]. apply IH.
  assert (∀ f (l : list (list Z)), (∀ i x, x ∈ l → reduced q (f i x)) → Forall (reduced q) (imap f l)) as Himap.
  { intros f l Hf. apply Forall_lookup_2. intros i x. rewrite list_lookup_imap.
    destruct (l !! i) as [y|] eqn:Ey; [|done]. intros [= <-]. apply Hf. by eapply list_elem_of_lookup_2. }
  apply Himap. intros i x Hx. destruct (_ || _).
  - revert x Hx. apply Forall_forall, Forall_insert; [by apply reduced_swap|].
    apply Forall_fmap, Forall_true. intros. apply Z.mod_pos_bound. lia.
  - apply Forall_lookup_2. intros j y. unfold eliminate_row. rewrite lookup_zip_with.
    destruct (x !! j), (scale_row _ _ _ !! j); cbn; intros ?; simplify_eq. apply Z.mod_pos_bound. lia.
Qed.

Lemma null_rows_verify m q h :
  2 <= q → matrix_wf m → null_space m q = Ok h → verify_parity_matrix m h q = Ok true.
Proof.
  intros Hq Hwf Hh. unfold verify_parity_matrix. destruct (Nat.eqb_spec (rows m) 0) as [|Hr]; [by rewrite orb_true_r|].
  destruct (Nat.eqb_spec (rows h) 0) as [|Hrh]; [done|]. cbn [orb].
  assert (∃ g0 d, data h = g0 :: d ∧ cols h = length g0) as (g0 & d & Hd & Hc).
  { unfold null_space in Hh. rewrite (proj2 (Nat.eqb_neq _ _) Hr) in Hh.
    destruct (eliminate _ _ _ _) as [[aug ?]|]; [|done]. unfold new in Hh.
    destruct (omap _ aug) as [|g0 d]; [by simplify_eq|]. destruct (List.find _ _); [done|]. simplify_eq.
    by exists g0, d. }
  assert (cols h = cols m) as ->.
  { rewrite Hc. eapply null_row_length; try done; [lia|]. rewrite Hd. set_solver. }
  rewrite Nat.eqb_refl. cbn [negb].
  destruct (List.find _ _) as [[[i j] sum]|] eqn:E; [|done]. exfalso.
  apply List.find_some in E as [Hin Hne]. apply in_concat in Hin as (l & Hl & Hin).
  apply list_elem_of_In in Hl, Hin. apply list_elem_of_lookup in Hl as [i' Hl]. rewrite list_lookup_imap in Hl.
  destruct (data h !! i') as [x|] eqn:Ex; [|done]. injection Hl as <-.
  apply list_elem_of_lookup in Hin as [j' Hin]. rewrite list_lookup_imap in Hin.
  destruct (data m !! j') as [g|] eqn:Eg; [|done]. injection Hin as <- <- <-.
  assert (orthogonal q m x) as Ho by (eapply null_row_orthogonal; try done; [lia|by eapply list_elem_of_lookup_2]).
  unfold orthogonal in Ho. rewrite Forall_lookup in Ho. by rewrite (Ho _ _ Eg) in Hne.
Qed.

(** ** The theorems *)

(** Gaussian elimination computes exactly the null space.  Whenever it succeeds, for any
    modulus of at least two, a vector is orthogonal to every row of the matrix if and only if it is
    a combination of the rows of the result, and the verification routine accepts the result. *)
Theorem null_space_exact m q h :
  2 <= q → matrix_wf m → (0 < rows m)%nat → null_space m q = Ok h →
  verify_parity_matrix m h q = Ok true ∧
  ∀ v, length v = cols m → orthogonal q m v ↔ spans q (cols m) (data h) (cell v).
Proof.
  intros Hq Hwf Hr Hh. split; [by apply null_rows_verify|]. intros v Hv. by apply orthogonal_spanned.
Qed.

(** Over a prime modulus the null space of a reduced matrix is always found, so no error of
    the modular inverse escapes, and it passes the verification. *)
Theorem null_space_total m q :
  prime q → matrix_wf m → Forall (reduced q) (data m) →
  ∃ h, null_space m q = Ok h ∧ verify_parity_matrix m h q = Ok true.
Proof.
  intros Hp Hwf Hred. pose proof (prime_ge_2 q Hp) as Hq.
  assert (∃ h, null_space m q = Ok h) as [h Hh]; [|exists h; split; [done|by apply null_rows_verify]].
  unfold null_space. destruct (Nat.eqb_spec (rows m) 0) as [|Hr]; [by eexists|].
  destruct (eliminate_total q (seq 0 (rows m)) Hp (augmented m) 0%nat) as [[aug pr] E].
  { apply Forall_fmap, Forall_true. intros i. apply Forall_app. split.
    - apply Forall_fmap. eapply Forall_impl; [exact Hred|]. intros g Hg. by apply reduced_cell; [lia|].
    - apply Forall_insert; [apply Forall_replicate; lia|lia]. }
  rewrite E. cbn beta iota. destruct (decide (omap (null_vector (rows m)) aug = [])) as [->|Hne]; [by eexists|].
  rewrite (new_same_length _ (cols m)); [by eexists| |done]. apply Forall_forall. intros x Hx.
  pose proof (augments_linear m q) as Hlin.
  assert (Forall (λ c, c < rows m)%nat (seq 0 (rows m))) as Hcols
    by (apply Forall_forall; intros c Hc%elem_of_seq; lia).
  destruct (eliminate_inv q Hq _ _ (augments m q) _ _ _ _ _ _ _ Hcols (elim_inv_augmented m q Hq Hwf) E)
    as (f & p & Hi & _). by eapply null_vector_row.
Qed.

Lemma evaluation_cell coeffs k q j : 2 <= q → (j < S k)%nat →
  cell (evaluate_polynomial coeffs k q) j =
  sumn (length coeffs) (λ i, cell coeffs i * mod_pow (Z.of_nat j) i q) mod q.
Proof.
  intros Hq Hj. unfold evaluate_polynomial, cell at 1. rewrite list_lookup_fmap, lookup_seq_lt by done.
  cbn [fmap option_fmap option_map from_option id default]. by apply evaluate_at_sum.
Qed.

Lemma cell_eq l l' : length l = length l' → (∀ i, (i < length l)%nat → cell l i = cell l' i) → l = l'.
Proof.
  intros Hl Hc. apply list_eq. intros i. destruct (Nat.lt_ge_cases i (length l)) as [Hi|Hi].
  - specialize (Hc i Hi). unfold cell in Hc. destruct (lookup_lt_is_Some_2 l i Hi) as [x Hx].
    destruct (lookup_lt_is_Some_2 l' i) as [y Hy]; [lia|]. rewrite Hx, Hy in *. by cbn in Hc; subst.
  - rewrite !lookup_ge_None_2 by lia. done.
Qed.

(** C29: The parity check accepts exactly the share vectors.  For the generator matrix of a
    configuration, a reduced vector of [n + 1] values has product zero with the null space if and
    only if it is the evaluation, at the points zero to [n], of a polynomial with [t + 1]
    coefficients. *)
Theorem parity_check_exact cfg g h v :
  0 <= q cfg → build_generator_matrix cfg = Ok g → null_space g (q cfg) = Ok h →
  length v = S (n cfg) → reduced (q cfg) v →
  Forall (λ y, y = 0) (matrix_vector_mult_mod (data h) v (q cfg)) ↔
  ∃ coeffs, length coeffs = S (t cfg) ∧ evaluate_polynomial coeffs (n cfg) (q cfg) = v.
Proof.
  intros Hq0 Hg Hh Hv Hred. destruct (generator_matrix cfg g Hg) as (H0 & H1 & _ & Hwf & Hr & Hc & Hcell).
  assert (2 <= q cfg) as Hq by lia.
  rewrite (parity_check_rows g (q cfg) h v) by (done || lia). split.
  - intros [a Ha]. exists (a <$> seq 0 (S (t cfg))). split; [by rewrite length_fmap, length_seq|].
    apply cell_eq; [unfold evaluate_polynomial; by rewrite length_fmap, length_seq|].
    unfold evaluate_polynomial at 1. rewrite length_fmap, length_seq. intros j Hj.
    rewrite evaluation_cell by done. rewrite <- (Z.mod_small (cell v j) (q cfg)) by (by apply reduced_cell; [lia|]).
    apply cong_mod_eq; [lia|]. rewrite (Ha j) by lia. rewrite (proj1 Hwf), Hr, length_fmap, length_seq.
    apply sumn_cong. intros i Hi. rewrite Hcell by lia. unfold cell at 1.
    by rewrite list_lookup_fmap, lookup_seq_lt by done.
  - intros (coeffs & Hl & <-). exists (cell coeffs). intros j Hj.
    rewrite evaluation_cell by lia. rewrite cong_mod, (proj1 Hwf), Hr, Hl.
    apply sumn_cong. intros i Hi. by rewrite Hcell by lia.
Qed.

(** ** Examples *)

Definition ex_config : ParityMatrixConfig := mkConfig 7 2 5.
Definition ex_generator : ParityMatrix :=
  mkMatrix [[1;1;1;1;1;1]; [0;1;2;3;4;5]; [0;1;4;2;2;4]] 3 6.
Definition ex_parity : ParityMatrix :=
  match null_space ex_generator 7 with Ok h => h | Err _ => zeros 0 0 end.

Lemma ex_generator_wf : matrix_wf ex_generator.
Proof. split; [done|]. repeat first [apply Forall_cons_2; [done|]|apply Forall_nil_2]. Qed.

Lemma null_space_exact_witness : verify_parity_matrix ex_generator ex_parity 7 = Ok true.
Proof.
  exact (proj1 (null_space_exact ex_generator 7 ex_parity ltac:(lia) ex_generator_wf ltac:(cbn; lia)
    ltac:(vm_compute; reflexivity))).
Defined.

Lemma prime_7 : prime 7.
Proof. apply prime_intro; [lia|]. intros k Hk. apply Zgcd_1_rel_prime.
  assert (k = 1 ∨ k = 2 ∨ k = 3 ∨ k = 4 ∨ k = 5 ∨ k = 6) as Hcases by lia.
  by destruct Hcases as [-> | [-> | [-> | [-> | [-> | ->]]]]].
Qed.

Lemma null_space_total_witness :
  ∃ h, null_space ex_generator 7 = Ok h ∧ verify_parity_matrix ex_generator h 7 = Ok true.
Proof.
  refine (null_space_total ex_generator 7 prime_7 ex_generator_wf _).
  repeat first [apply Forall_cons_2; [|]|apply Forall_nil_2]; lia.
Defined.

(** The polynomial 3 + 2x + x^2 modulo 7, and a vector that differs from it in one place. *)
Lemma parity_check_exact_witness :
  Forall (λ y, y = 0) (matrix_vector_mult_mod (data ex_parity) [3;6;4;4;6;3] 7) ∧
  ¬ ∃ coeffs, length coeffs = 3%nat ∧ evaluate_polynomial coeffs 5 7 = [3;6;4;4;6;4].
Proof.
  assert (∀ v, length v = 6%nat → reduced 7 v →
    Forall (λ y, y = 0) (matrix_vector_mult_mod (data ex_parity) v 7) ↔
    ∃ coeffs, length coeffs = 3%nat ∧ evaluate_polynomial coeffs 5 7 = v) as H.
  { intros v Hl Hr. refine (parity_check_exact ex_config ex_generator ex_parity v _ _ _ Hl Hr);
      [cbn; lia|vm_compute; reflexivity|vm_compute; reflexivity]. }
  split.
  - apply H; [done| |exists [3;2;1]; vm_compute; done]. repeat first [apply Forall_cons_2; [lia|]|apply Forall_nil_2].
  - intros Hex. apply H in Hex; [|done|repeat first [apply Forall_cons_2; [lia|]|apply Forall_nil_2]].
    vm_compute in Hex. rewrite !Forall_cons in Hex. by destruct Hex as (? & ? & ? & ?).
Defined.
