(* ===== verification/Actor.v ===== *)
(** * Actors

    The handlers of an actor as computations over its state, the calls to the bus and to the
    snapshot store, and errors.  A refused call fails with an error and keeps every change made
    before it, as the [?] operator does; the coming refusals are part of the world, so that a
    theorem about all worlds covers every pattern of failures.

    [Persistable] models crates/state/storage/src/persistable.rs: a value in memory, the last
    snapshot that the store accepted, and the staging mode.  An accepted write is one that was sent to
    the snapshot buffer; whether it has reached the disk is another matter.  So no theorem takes
    [p_stored] for durable across a restart: in the runs of the aggregators and of the keyshare a
    restart may find the snapshots of an earlier point, as after a crash that lost the last writes.
    The event context that travels with a snapshot is not part of it, so the model does not show a
    single write that the store refuses as stale while it keeps a later one; the order in which the
    buffer and the store apply the contexts' revisions is in SnapshotOrder.v and SnapshotStore.v. *)

From S2P Require Import Prelude.
Local Open Scope Z_scope.

(** ** Computations *)

(** The state, the answers to the coming calls ([true] refuses; calls past the end are accepted),
    the publications so far and the next correlation id. *)
Record World (S Out : Type) := mkWorld { st : S; refusals : list bool; out : list Out; next_id : Z }.
Arguments mkWorld {S Out} _ _ _ _.
Arguments st {S Out} _.
Arguments refusals {S Out} _.
Arguments out {S Out} _.
Arguments next_id {S Out} _.

Section Monad.
Context {S Out E : Type}.

Definition M (A : Type) : Type := World S Out → result A E * World S Out.

Definition ret {A} (x : A) : M A := λ w, (Ok x, w).
Definition fail {A} (e : E) : M A := λ w, (Err e, w).
Definition bind {A B} (m : M A) (k : A → M B) : M B := λ w,
  match m w with
  | (Ok x, w') => k x w'
  | (Err e, w') => (Err e, w')
  end.

Definition get_st : M S := λ w, (Ok (st w), w).
Definition modify (f : S → S) : M () := λ w, (Ok tt, mkWorld (f (st w)) (refusals w) (out w) (next_id w)).

(** [ensure!(b, e)] *)
Definition ensure (b : bool) (e : E) : M () := if b then ret tt else fail e.

(** [opt.ok_or(e)?] *)
Definition ok_or {A} (o : option A) (e : E) : M A := match o with Some x => ret x | None => fail e end.
Definition lift {A} (r : result A E) : M A := match r with Ok x => ret x | Err e => fail e end.

(** A call that the other side can refuse. *)
Definition call (e : E) : M () := λ w,
  match refusals w with
  | true :: rest => (Err e, mkWorld (st w) rest (out w) (next_id w))
  | false :: rest => (Ok tt, mkWorld (st w) rest (out w) (next_id w))
  | [] => (Ok tt, w)
  end.

Definition emit (o : Out) : M () := λ w, (Ok tt, mkWorld (st w) (refusals w) (out w ++ [o]) (next_id w)).

(** [bus.publish(event, ec)?] *)
Definition publish (e : E) (o : Out) : M () := bind (call e) (λ _, emit o).

(** [CorrelationId::new()], one counter for the process. *)
Definition new_correlation_id : M Z := λ w,
  (Ok (next_id w), mkWorld (st w) (refusals w) (out w) (next_id w + 1)).

(** [trap(.., || ..)]: the error becomes an error event. *)
Definition trap (report : E → Out) (m : M ()) : M () := λ w,
  match m w with
  | (Ok x, w') => (Ok x, w')
  | (Err e, w') => emit (report e) w'
  end.

Fixpoint for_each {A} (l : list A) (f : A → M ()) : M () :=
  match l with [] => ret tt | x :: l' => bind (f x) (λ _, for_each l' f) end.
End Monad.
Arguments M : clear implicits.

Notation "x ⇐ m ; k" := (bind m (λ x, k)) (at level 20, m at level 100, k at level 200, right associativity) : interfold_scope.
Notation "m ;; k" := (bind m (λ _, k)) (at level 100, k at level 200, right associativity) : interfold_scope.

(** ** Persistable values *)

Record Persistable (T : Type) := mkPersistable
  { p_data : option T; p_stored : option T; p_staging : bool }.
Arguments mkPersistable {T} _ _ _.
Arguments p_data {T} _.
Arguments p_stored {T} _.
Arguments p_staging {T} _.

Inductive PersistError := NotSet | StoreRefused.

(** Where a [Persistable] sits in the state of an actor. *)
Class Field (S T : Type) := { fget : S → Persistable T; fset : Persistable T → S → S }.

Class FieldLaws (S T : Type) `{Field S T} := {
  fget_fset : ∀ p s, fget (fset p s) = p;
  fset_fget : ∀ s, fset (fget s) s = s;
  fset_fset : ∀ p p' s, fset p (fset p' s) = fset p s }.

Section Persist.
Context {S Out E T : Type} `{Field S T} (err : PersistError → E).
Local Abbreviation Mon := (M S Out E).

Definition p_get : Mon (option T) := x ⇐ get_st; ret (p_data (fget x)).

Definition p_try_get : Mon T := x ⇐ get_st; ok_or (p_data (fget x)) (err NotSet).

Definition write_value_to_store (data : T) : Mon () :=
  x ⇐ get_st;
  if p_staging (fget x) then ret tt
  else call (err StoreRefused) ;;
       modify (λ s, fset (mkPersistable (p_data (fget s)) (Some data) (p_staging (fget s))) s).

Definition set_data (data : option T) : Mon () :=
  modify (λ s, fset (mkPersistable data (p_stored (fget s)) (p_staging (fget s))) s).

Definition try_mutate (mutator : T → result T E) : Mon () :=
  x ⇐ get_st;
  content ⇐ ok_or (p_data (fget x)) (err NotSet);
  next ⇐ lift (mutator content);
  write_value_to_store next ;;
  set_data (Some next).

(** A refused write is logged and the old value stays. *)
Definition p_set (data : T) : Mon () := λ w,
  match write_value_to_store data w with
  | (Ok _, w') => set_data (Some data) w'
  | (Err _, w') => (Ok tt, w')
  end.

Definition p_clear : Mon () := λ w,
  match call (err StoreRefused) w with
  | (Ok _, w') => modify (λ s, fset (mkPersistable None None (p_staging (fget s))) s) w'
  | (Err _, w') => (Ok tt, w')
  end.

Definition p_stage : Mon () :=
  modify (λ s, fset (mkPersistable (p_data (fget s)) (p_stored (fget s)) true) s).

Definition p_commit : Mon () := λ w,
  let w := mkWorld (fset (mkPersistable (p_data (fget (st w))) (p_stored (fget (st w))) false) (st w))
             (refusals w) (out w) (next_id w) in
  match p_data (fget (st w)) with
  | None => (Ok tt, w)
  | Some data =>
      match write_value_to_store data w with
      | (Ok _, w') => (Ok tt, w')
      | (Err _, w') => p_stage w'
      end
  end.
End Persist.

(** [repository.load()]: a container over the stored snapshot. *)
Definition reload {T} (p : Persistable T) : Persistable T := mkPersistable (p_stored p) (p_stored p) false.

(** [if let Err(e) = m { .. }]: an error is logged. *)
Definition attempt {S Out E} (m : M S Out E ()) : M S Out E () := λ w,
  match m w with (Ok _, w') => (Ok tt, w') | (Err _, w') => (Ok tt, w') end.

(** ** Reasoning *)

Section Rules.
Context {S Out E : Type}.
Local Abbreviation Mon := (M S Out E).
Local Abbreviation W := (World S Out).

(** From [P], the computation ends in [Q] with its result, or in [R] with an error. *)
Definition triple {A} (P : W → Prop) (m : Mon A) (Q : A → W → Prop) (R : W → Prop) : Prop :=
  ∀ w, P w → match m w with (Ok x, w') => Q x w' | (Err _, w') => R w' end.

(** The property of the world survives the computation, whether it succeeds or fails. *)
Definition keeps {A} (I : W → Prop) (m : Mon A) : Prop := ∀ w, I w → I (m w).2.

Lemma triple_ret {A} P (x : A) (Q : A → W → Prop) R : (∀ w, P w → Q x w) → triple P (ret x) Q R.
Proof. intros HQ w Hw. by apply HQ. Qed.

Lemma triple_fail {A} P e (Q : A → W → Prop) (R : W → Prop) : (∀ w, P w → R w) → triple P (fail e) Q R.
Proof. intros HR w Hw. by apply HR. Qed.

Lemma triple_bind {A B} P (m : Mon A) (k : A → Mon B) Q (Mid : A → W → Prop) R :
  triple P m Mid R → (∀ x, triple (Mid x) (k x) Q R) → triple P (bind m k) Q R.
Proof.
  intros Hm Hk w Hw. specialize (Hm w Hw). unfold bind. destruct (m w) as [[x|e] w']; [|done].
  by apply (Hk x).
Qed.

Lemma triple_conseq {A} (P P' : W → Prop) (m : Mon A) (Q Q' : A → W → Prop) (R R' : W → Prop) :
  triple P' m Q' R' → (∀ w, P w → P' w) → (∀ x w, Q' x w → Q x w) → (∀ w, R' w → R w) → triple P m Q R.
Proof.
  intros Hm HP HQ HR w Hw. specialize (Hm w (HP w Hw)). destruct (m w) as [[x|e] w']; auto.
Qed.

Lemma triple_pre {A} (P P' : W → Prop) (m : Mon A) (Q : A → W → Prop) (R : W → Prop) :
  (∀ w, P w → P' w) → triple P' m Q R → triple P m Q R.
Proof. intros HP Hm. by eapply triple_conseq. Qed.

Lemma triple_for_each {A} (P : W → Prop) (l : list A) (f : A → Mon ()) (R : W → Prop) :
  (∀ x, triple P (f x) (λ _, P) R) → triple P (for_each l f) (λ _, P) R.
Proof.
  intros Hf. induction l as [|x l IH]; cbn [for_each]; [by apply triple_ret|].
  eapply triple_bind; [apply Hf|]. by intros [].
Qed.

Lemma triple_get P (Q : S → W → Prop) R : (∀ w, P w → Q (st w) w) → triple P get_st Q R.
Proof. intros HQ w Hw. by apply HQ. Qed.

(** The state is bound together with the fact that it is the current one. *)
Lemma keeps_triple {A} I (m : Mon A) : keeps I m ↔ triple I m (λ _, I) I.
Proof.
  split; intros Hm w Hw; specialize (Hm w Hw); destruct (m w) as [[x|e] w']; done.
Qed.

Lemma keeps_ret {A} I (x : A) : keeps I (ret x).
Proof. by intros w Hw. Qed.

Lemma keeps_fail {A} I e : keeps I (fail (A:=A) e).
Proof. by intros w Hw. Qed.

Lemma keeps_bind {A B} I (m : Mon A) (k : A → Mon B) :
  keeps I m → (∀ x, keeps I (k x)) → keeps I (bind m k).
Proof.
  intros Hm Hk w Hw. specialize (Hm w Hw). unfold bind. destruct (m w) as [[x|e] w']; [|done].
  by apply (Hk x).
Qed.

(** Binding the state: the continuation may use that it is the current one. *)
Lemma keeps_get {B} I (k : S → Mon B) :
  (∀ w, I w → I (k (st w) w).2) → keeps I (bind get_st k).
Proof. intros Hk w Hw. by apply Hk. Qed.

Lemma keeps_get_st I : keeps I get_st.
Proof. by intros w Hw. Qed.

Lemma keeps_ensure I b e : keeps I (ensure b e).
Proof. unfold ensure. destruct b; [apply keeps_ret|apply keeps_fail]. Qed.

Lemma keeps_ok_or {A} I (o : option A) e : keeps I (ok_or o e).
Proof. destruct o; [apply keeps_ret|apply keeps_fail]. Qed.

Lemma keeps_lift {A} I (r : result A E) : keeps I (lift r).
Proof. destruct r; [apply keeps_ret|apply keeps_fail]. Qed.

Lemma keeps_trap I report (m : Mon ()) : (∀ e, keeps I (emit (report e))) → keeps I m → keeps I (trap report m).
Proof.
  intros He Hm w Hw. specialize (Hm w Hw). unfold trap. destruct (m w) as [[x|e] w']; [done|]. by apply (He e).
Qed.

Lemma keeps_for_each {A} I (l : list A) (f : A → Mon ()) :
  (∀ x, x ∈ l → keeps I (f x)) → keeps I (for_each l f).
Proof.
  induction l as [|x l IH]; intros Hf; cbn [for_each]; [apply keeps_ret|].
  apply keeps_bind; [apply Hf; set_solver|]. intros _. apply IH. set_solver.
Qed.

(** A property of the state alone. *)
Definition on_st (I : S → Prop) (w : W) : Prop := I (st w).

Lemma keeps_call I e : keeps (on_st I) (call e).
Proof. intros w Hw. unfold call. by destruct (refusals w) as [|[] ?]. Qed.

Lemma keeps_emit I o : keeps (on_st I) (emit o).
Proof. by intros w Hw. Qed.

Lemma keeps_publish I e o : keeps (on_st I) (publish e o).
Proof. apply keeps_bind; [apply keeps_call|intros _; apply keeps_emit]. Qed.

Lemma keeps_new_id I : keeps (on_st I) new_correlation_id.
Proof. by intros w Hw. Qed.

Lemma keeps_modify (I : S → Prop) f : (∀ s, I s → I (f s)) → keeps (on_st I) (modify f).
Proof. intros Hf w Hw. by apply Hf. Qed.
End Rules.

(** ** Symbolic execution

    The rules for a handler at a known state.  Whatever is published has to satisfy [pub_ok]; an
    operation that is refused ends in the error case with the state as it was. *)

Section Exact.
Context {S Out E : Type} (pub_ok : Out → Prop).
Local Abbreviation Mon := (M S Out E).
Local Abbreviation W := (World S Out).

(** The actor is in this state, and everything published so far may be published. *)
Definition At (a : S) (w : W) : Prop := st w = a ∧ Forall pub_ok (out w).

(** The actor is in a state with this property. *)
Definition Good (I : S → Prop) (w : W) : Prop := I (st w) ∧ Forall pub_ok (out w).

(** The invariant survives a computation, whether it succeeds or fails. *)
Definition preserves {A} (I : S → Prop) (m : Mon A) : Prop := triple (Good I) m (λ _, Good I) (Good I).

Lemma At_good (I : S → Prop) a w : I a → At a w → Good I w.
Proof. by intros HI [<- Ho]. Qed.

Lemma preserves_at {A} I (m : Mon A) : (∀ a, I a → triple (At a) m (λ _, Good I) (Good I)) → preserves I m.
Proof. intros Hm w [HI Ho]. by apply (Hm (st w)). Qed.

Lemma at_preserves {A} I (m : Mon A) a : I a → preserves I m → triple (At a) m (λ _, Good I) (Good I).
Proof. intros HI Hm w Hw. apply Hm. by apply (At_good I a). Qed.

Lemma preserves_then {A B} I (m : Mon A) (k : A → Mon B) : preserves I m → (∀ x, preserves I (k x)) → preserves I (bind m k).
Proof. intros Hm Hk. by eapply triple_bind. Qed.

Section Rules_at.
Context {B : Type} (a : S) (Q : B → W → Prop) (R : W → Prop).

Lemma at_ret (x : B) : (∀ w, At a w → Q x w) → triple (At a) (ret x : Mon B) Q R.
Proof. intros HQ w Hw. by apply HQ. Qed.

Lemma at_fail e : (∀ w, At a w → R w) → triple (At a) (fail e : Mon B) Q R.
Proof. intros HR w Hw. by apply HR. Qed.

Lemma at_get (k : S → Mon B) : triple (At a) (k a) Q R → triple (At a) (bind get_st k) Q R.
Proof. intros Hk w Hw. unfold bind, get_st. destruct Hw as [<- Ho]. by apply Hk. Qed.

Lemma at_modify f (k : () → Mon B) : triple (At (f a)) (k tt) Q R → triple (At a) (bind (modify f) k) Q R.
Proof. intros Hk w [<- Ho]. unfold bind. cbn. by apply Hk. Qed.

Lemma at_publish e o (k : () → Mon B) :
  pub_ok o → (∀ w, At a w → R w) → triple (At a) (k tt) Q R → triple (At a) (bind (publish e o) k) Q R.
Proof.
  intros Ho HR Hk w [<- Hout]. unfold publish, call, emit, bind.
  assert (∀ rest, At (st w) (mkWorld (st w) rest (out w ++ [o]) (next_id w))) as Hnext.
  { intros rest. split; [done|]. apply Forall_app. split; [done|]. by constructor. }
  destruct (refusals w) as [|[] rest]; [by apply Hk, Hnext|by apply HR|by apply Hk, Hnext].
Qed.

Lemma at_call e (k : () → Mon B) :
  (∀ w, At a w → R w) → triple (At a) (k tt) Q R → triple (At a) (bind (call e) k) Q R.
Proof. intros HR Hk w [<- Ho]. unfold call, bind. destruct (refusals w) as [|[] rest]; by (apply Hk || apply HR). Qed.

Lemma at_new_id (k : Z → Mon B) : (∀ x, triple (At a) (k x) Q R) → triple (At a) (bind new_correlation_id k) Q R.
Proof. intros Hk w Hw. unfold bind. cbn. by apply Hk. Qed.

Lemma at_ensure c e (k : () → Mon B) :
  (∀ w, At a w → R w) → (c = true → triple (At a) (k tt) Q R) → triple (At a) (bind (ensure c e) k) Q R.
Proof. intros HR Hk w Hw. unfold ensure. destruct c; [by apply Hk|by apply HR]. Qed.

Lemma at_ok_or {A} (o : option A) e (k : A → Mon B) :
  (∀ w, At a w → R w) → (∀ x, o = Some x → triple (At a) (k x) Q R) → triple (At a) (bind (ok_or o e) k) Q R.
Proof. intros HR Hk w Hw. destruct o as [x|]; [by apply (Hk x)|by apply HR]. Qed.

Lemma at_lift {A} (o : result A E) (k : A → Mon B) :
  (∀ w, At a w → R w) → (∀ x, o = Ok x → triple (At a) (k x) Q R) → triple (At a) (bind (lift o) k) Q R.
Proof. intros HR Hk w Hw. destruct o as [x|]; [by apply (Hk x)|by apply HR]. Qed.

Context {T : Type} `{FieldLaws S T} (err : PersistError → E).

(** A value that was written: staged values stay in memory. *)
Definition written (y : T) (p : Persistable T) : Persistable T :=
  mkPersistable (Some y) (if p_staging p then p_stored p else Some y) (p_staging p).

Lemma at_try_mutate f (k : () → Mon B) :
  (∀ w, At a w → R w) →
  (∀ x y, p_data (fget a) = Some x → f x = Ok y → triple (At (fset (written y (fget a)) a)) (k tt) Q R) →
  triple (At a) (bind (try_mutate err f) k) Q R.
Proof.
  intros HR Hk w [<- Ho]. unfold try_mutate, set_data, get_st, ok_or, lift, bind. cbn.
  destruct (p_data (fget (st w))) as [x|] eqn:Ex; cbn; [|by apply HR].
  destruct (f x) as [y|] eqn:Ey; cbn; [|by apply HR]. specialize (Hk x y eq_refl Ey).
  unfold written in Hk. unfold write_value_to_store, bind, get_st. cbn.
  destruct (p_staging (fget (st w))) eqn:Es; cbn.
  { apply Hk. split; [|done]. cbn. by rewrite Es. }
  unfold call.
  destruct (refusals w) as [|[] rest]; cbn; [|by apply HR|]; apply Hk; (split; [|done]); cbn;
    rewrite fset_fset, !fget_fset; cbn; by rewrite ?Es.
Qed.

Lemma at_try_get (k : T → Mon B) :
  (∀ w, At a w → R w) → (∀ x, p_data (fget a) = Some x → triple (At a) (k x) Q R) →
  triple (At a) (bind (p_try_get err) k) Q R.
Proof.
  intros HR Hk w [<- Ho]. unfold p_try_get, bind, get_st, ok_or, ret, fail. cbn.
  destruct (p_data (fget (st w))) as [x|] eqn:Ex; cbn; [by apply Hk|by apply HR].
Qed.
End Rules_at.

Lemma at_attempt {B} a (m : Mon ()) (k : () → Mon B) Q R :
  triple (At a) m (λ _, At a) (At a) → triple (At a) (k tt) Q R → triple (At a) (bind (attempt m) k) Q R.
Proof.
  intros Hm Hk w Hw. specialize (Hm w Hw). unfold bind, attempt. destruct (m w) as [[[]|e] w']; by apply Hk.
Qed.

(** A call in tail position. *)
Lemma triple_tail {A} (P : W → Prop) (m : Mon A) Q R : triple P (bind m ret) Q R → triple P m Q R.
Proof. intros Hm w Hw. specialize (Hm w Hw). unfold bind, ret in Hm. by destruct (m w) as [[x|e] w']. Qed.

Lemma preserves_trap I report (m : Mon ()) : (∀ e, pub_ok (report e)) → preserves I m → preserves I (trap report m).
Proof.
  intros Hr Hm w Hw. specialize (Hm w Hw). unfold trap. destruct (m w) as [[x|e] w']; [done|].
  destruct Hm as [HI Ho]. cbn. split; [done|]. apply Forall_app. split; [done|]. by constructor.
Qed.

Lemma preserves_for_each {A} I (l : list A) (f : A → Mon ()) : (∀ x, x ∈ l → preserves I (f x)) → preserves I (for_each l f).
Proof.
  intros Hf. induction l as [|x l IH]; cbn [for_each]; [by intros w Hw|].
  apply preserves_then; [apply Hf; set_solver|]. intros _. apply IH. set_solver.
Qed.
End Exact.

Create HintDb actor.
#[export] Hint Resolve keeps_ret keeps_fail keeps_get_st keeps_ensure keeps_ok_or keeps_lift
  keeps_call keeps_emit keeps_publish keeps_new_id : actor.

(** ** The memory never runs ahead of the store *)

(** A container on its own. *)
#[export] Instance self_field {T} : Field (Persistable T) T := { fget := id; fset := λ p _, p }.

(** The operations of a container. *)
Inductive PersistOp (T E : Type) :=
| OpMutate (f : T → result T E)
| OpSet (data : T)
| OpClear
| OpStage
| OpCommit.
Arguments OpMutate {T E} f.
Arguments OpSet {T E} data.
Arguments OpClear {T E}.
Arguments OpStage {T E}.
Arguments OpCommit {T E}.

Definition run_op {T Out E} (err : PersistError → E) (op : PersistOp T E) : M (Persistable T) Out E () :=
  match op with
  | OpMutate f => try_mutate err f
  | OpSet data => p_set err data
  | OpClear => p_clear err
  | OpStage => p_stage
  | OpCommit => p_commit err
  end.

(** The operations one after the other; an error of one does not stop the next. *)
Fixpoint run_ops {T Out E} (err : PersistError → E) (ops : list (PersistOp T E)) (w : World (Persistable T) Out)
    : World (Persistable T) Out :=
  match ops with [] => w | op :: rest => run_ops err rest (run_op err op w).2 end.

(** What is in memory is what the store accepted last, unless the value is staged; and a cleared
    container has no snapshot. *)
Definition synced {T} (p : Persistable T) : Prop :=
  (p_staging p = false → p_data p = p_stored p) ∧ (p_data p = None → p_stored p = None).

Lemma run_op_synced {T Out E} err (op : PersistOp T E) (w : World (Persistable T) Out) :
  synced (st w) → synced (st (run_op err op w).2).
Proof.
  destruct w as [[d s g] refuse o i]. unfold synced. cbn. intros [Hs Hn]. destruct op as [f|x| | |]; cbn.
  - unfold try_mutate, bind, get_st, ok_or, lift, ret, fail. cbn. destruct d as [d|]; [|done]. cbn.
    destruct (f d); [|done]. unfold write_value_to_store, bind, get_st. cbn.
    destruct g; [done|]. unfold call. by destruct refuse as [|[] ?].
  - unfold p_set, write_value_to_store, bind, get_st. cbn. destruct g; [done|]. unfold call. by destruct refuse as [|[] ?].
  - unfold p_clear, call. by destruct refuse as [|[] ?].
  - done.
  - unfold p_commit, write_value_to_store, bind, get_st. cbn. destruct d as [d|]; cbn.
    + unfold call. by destruct refuse as [|[] ?].
    + split; [|done]. intros _. by rewrite Hn.
Qed.

(** Whatever operations run on a container and whichever store writes are refused, its
    value in memory is the last snapshot the store accepted, unless changes are staged; an
    operation that fails because of a refused write leaves the value as it was. *)
Theorem memory_never_ahead {T Out E} (err : PersistError → E) (ops : list (PersistOp T E))
    (w : World (Persistable T) Out) (f : T → result T E) :
  synced (st w) →
  let w' := run_ops err ops w in
  synced (st w') ∧
  match run_op err (OpMutate f) w' with
  | (Ok _, w'') => ∃ x y, p_data (st w') = Some x ∧ f x = Ok y ∧ p_data (st w'') = Some y
  | (Err _, w'') => st w'' = st w'
  end.
Proof.
  intros Hs w'. split.
  - subst w'. revert w Hs. induction ops as [|op ops IH]; intros w Hs; [done|]. by apply IH, run_op_synced.
  - destruct w' as [[d s g] refuse o i]. cbn. unfold try_mutate, bind, get_st, ok_or, lift, ret, fail. cbn.
    destruct d as [d|]; [|done]. cbn. destruct (f d) as [y|] eqn:Ef; [|done].
    unfold write_value_to_store, bind, get_st. cbn. destruct g; cbn; [by exists d, y|].
    unfold call. destruct refuse as [|[] ?]; cbn; try done; by exists d, y.
Qed.

Lemma memory_never_ahead_witness :
  let w := mkWorld (mkPersistable (Some 1) (Some 1) false) [false; true] ([] : list unit) 0 in
  p_data (st (run_ops id [OpMutate (λ x, Ok (x + 1)); OpSet 9] w)) = Some 2 ∧
  synced (st (run_ops id [OpMutate (λ x, Ok (x + 1)); OpSet 9] w)).
Proof.
  intros w. split; [reflexivity|].
  exact (proj1 (memory_never_ahead id [OpMutate (λ x, Ok (x + 1)); OpSet 9] w (λ x, Ok x)
    ltac:(split; [intros _; reflexivity|discriminate]))).
Defined.
