(* ===== verification/Orchestration.v ===== *)
(** * Vocabulary of the orchestration actors

    Event contexts (crates/events/src/event_context.rs), share-verification messages
    (crates/events/src/interfold_event/share_verification.rs), ordered maps, and the hashes that
    bind a decryption share to its E3 (crates/committee/hash/src/lib.rs).  Party ids are [u64]
    values, as [nat]. *)

From S2P Require Import Prelude Events.
Local Open Scope Z_scope.

(** ** Ordered maps: [BTreeMap] iteration is by ascending key *)

Definition key_le {V} (a b : nat * V) : Prop := (a.1 <= b.1)%nat.

Global Instance key_le_dec {V} (a b : nat * V) : Decision (key_le a b).
Proof. unfold key_le. apply _. Defined.

Definition btree_list {V} (m : gmap nat V) : list (nat * V) := merge_sort key_le (map_to_list m).

(** [map.entry(k).or_insert(v)] *)
Definition or_insert `{Countable K} {V} (k : K) (v : V) (m : gmap K V) : gmap K V :=
  match m !! k with Some _ => m | None => <[k := v]> m end.

(** The iteration of a [BTreeSet]. *)
Definition btree_set (s : gset nat) : list nat := merge_sort le (elements s).

(** The order of Rust's [String]: bytewise lexicographic. *)
Definition string_le (a b : string) : Prop := String.leb a b = true.

Global Instance string_le_dec a b : Decision (string_le a b).
Proof. unfold string_le. apply _. Defined.

(** [s.chunks_exact(n)] *)
Definition chunks_exact {A} (n : nat) (s : list A) : list (list A) :=
  List.filter (λ c, length c =? n)%nat (chunks n s).

(** ** Event contexts *)

Inductive EventSource := Local_ | Net | Evm.

Global Instance EventSource_eq_dec : EqDecision EventSource.
Proof. solve_decision. Defined.

Record EventContext := mkContext {
  ctx_id : B256; causation_id : B256; origin_id : B256; seq_no : Z; ctx_ts : Z; aggregate_id : Z;
  block : option Z; source : EventSource }.

(** [AggregateId::from_chain_id] on a 64-bit target, where [usize] holds every chain id. *)
Definition from_chain_id (chain : option Z) : Z := match chain with None => 0 | Some id => id end.

Definition to_chain_id (a : Z) : option Z := if a =? 0 then None else Some a.

(** [cause.block.max(block)]: [None] is the least. *)
Definition block_max (a b : option Z) : option Z :=
  match a, b with
  | Some x, Some y => Some (Z.max x y)
  | Some x, None => Some x
  | None, b => b
  end.

Definition new_origin (id : B256) (ts agg : Z) (blk : option Z) (src : EventSource) (seq : Z) : EventContext :=
  mkContext id id id seq ts agg blk src.

Definition from_cause (id : B256) (cause : EventContext) (ts agg : Z) (blk : option Z)
    (src : EventSource) (seq : Z) : EventContext :=
  mkContext id (ctx_id cause) (origin_id cause) seq ts agg (block_max (block cause) blk) src.

Inductive AggregationPhase := PublicKeyPhase | PlaintextPhase.

Global Instance AggregationPhase_eq_dec : EqDecision AggregationPhase.
Proof. solve_decision. Defined.

(** ** The life of an E3 *)

Inductive FailureReason :=
| NoFailure | CommitteeFormationTimeout | InsufficientCommitteeMembers | DKGTimeout | DKGInvalidShares
| NoInputsReceived | ComputeTimeout | ComputeProviderExpired | ComputeProviderFailed | RequesterCancelled
| DecryptionTimeout | DecryptionInvalidShares | VerificationFailed.

Inductive E3Stage := StageNone | Requested | CommitteeFinalized | KeyPublished | CiphertextReady | StageComplete | StageFailed.

Definition is_terminal (stage : E3Stage) : bool := match stage with StageComplete | StageFailed => true | _ => false end.

(** ** Share verification *)

Inductive BfvPreset := InsecureThreshold64 | InsecureDkg64 | SecureThreshold8192 | SecureDkg8192.

Inductive VerificationKind := ShareProofs | DecryptionProofs | ThresholdDecryptionProofs | PkGenerationProofs.

Global Instance VerificationKind_eq_dec : EqDecision VerificationKind.
Proof. solve_decision. Defined.

Record PartyProofsToVerify := mkPartyProofs
  { sender_party_id : nat; signed_proofs : list SignedProofPayload }.

(** The requests of the aggregators carry no [decryption_proofs]. *)
Record ShareVerificationDispatched := mkDispatched {
  svd_e3_id : E3id; svd_kind : VerificationKind; share_proofs : list PartyProofsToVerify;
  pre_dishonest : gset nat; svd_preset : BfvPreset; svd_committee_size : CiphernodesCommitteeSize }.

Record ShareVerificationComplete := mkVerified {
  svc_e3_id : E3id; svc_kind : VerificationKind; dishonest_parties : gset nat }.

(** ** Committee and domain hashes *)

Record DecryptionDomainContext := mkDomain
  { interfold_address : Address; committee_hash : B256; committee_public_key : B256 }.

Record Limbs := mkLimbs { hi : Z; lo : Z }.

(** The first and the last 16 bytes of a hash, as numbers. *)
Definition split_hash (h : B256) : Limbs :=
  mkLimbs (from_be_bytes (take 16 (b256_bytes h))) (from_be_bytes (drop 16 (b256_bytes h))).

Section Hashes.
Context `{AlloyOps}.

Definition hash_committee_addresses (addresses : list Address) : B256 :=
  keccak256 (flat_map (to_be_bytes 20) addresses).

Definition split_committee_hash (h : B256) : Limbs := split_hash h.

Definition committee_hash_limbs_from_addresses (addresses : list Address) : Limbs :=
  split_committee_hash (hash_committee_addresses addresses).

Definition hash_decryption_domain (chain e3 : Z) (context : DecryptionDomainContext)
    (ciphertext_output_hash : B256) : B256 :=
  keccak256 (abi_encode
    [AbiUint chain; AbiAddress (interfold_address context); AbiUint e3;
     AbiBytes32 (committee_hash context); AbiBytes32 ciphertext_output_hash;
     AbiBytes32 (committee_public_key context)]).

Definition split_decryption_domain (h : B256) : Limbs := split_hash h.

Definition decryption_domain_limbs (chain e3 : Z) (context : DecryptionDomainContext)
    (ciphertext_output_hash : B256) : Limbs :=
  split_decryption_domain (hash_decryption_domain chain e3 context ciphertext_output_hash).
End Hashes.

(** ** Lemmas *)

Lemma btree_list_perm {V} (m : gmap nat V) : btree_list m ≡ₚ map_to_list m.
Proof. apply merge_sort_Permutation. Qed.

Lemma elem_of_btree_list {V} (m : gmap nat V) k v : (k, v) ∈ btree_list m ↔ m !! k = Some v.
Proof. rewrite btree_list_perm. apply elem_of_map_to_list. Qed.

Lemma NoDup_btree_list {V} (m : gmap nat V) : NoDup (btree_list m).*1.
Proof. rewrite btree_list_perm. apply NoDup_fst_map_to_list. Qed.

Global Instance key_le_total {V} : Total (@key_le V).
Proof. intros a b. unfold key_le. lia. Qed.

Global Instance key_le_trans {V} : Transitive (@key_le V).
Proof. intros a b c. unfold key_le. lia. Qed.

(** The keys come out strictly ascending. *)
Lemma btree_list_sorted {V} (m : gmap nat V) : StronglySorted lt (btree_list m).*1.
Proof.
  assert (StronglySorted key_le (btree_list m)) as Hs by apply (StronglySorted_merge_sort key_le).
  pose proof (NoDup_btree_list m) as Hnd. induction Hs as [|x l _ IH Hall]; [constructor|].
  rewrite fmap_cons in *. apply NoDup_cons in Hnd as [Hni Hnd]. constructor; [by apply IH|].
  apply Forall_fmap, Forall_forall. intros y Hy. rewrite Forall_forall in Hall. specialize (Hall y Hy).
  unfold key_le in Hall. unfold compose. assert (x.1 ≠ y.1); [|lia]. intros E. apply Hni. rewrite E.
  by apply list_elem_of_fmap_2.
Qed.

Lemma elem_of_btree_set s p : p ∈ btree_set s ↔ p ∈ s.
Proof. unfold btree_set. by rewrite merge_sort_Permutation, elem_of_elements. Qed.

Lemma length_btree_set s : length (btree_set s) = size s.
Proof. unfold btree_set. by rewrite merge_sort_Permutation. Qed.

Lemma sorted_strict l : StronglySorted le l → NoDup l → StronglySorted lt l.
Proof.
  induction 1 as [|x l _ IH Hall]; [constructor|]. intros [Hni Hnd]%NoDup_cons. constructor; [by apply IH|].
  apply Forall_forall. intros y Hy. rewrite Forall_forall in Hall. specialize (Hall y Hy).
  assert (x ≠ y) by (intros ->; done). lia.
Qed.

Lemma btree_set_sorted s : StronglySorted lt (btree_set s).
Proof.
  apply sorted_strict; [apply (StronglySorted_merge_sort le)|].
  unfold btree_set. rewrite merge_sort_Permutation. apply NoDup_elements.
Qed.

Lemma lookup_or_insert `{Countable K} {V} (k : K) (v : V) m k' :
  or_insert k v m !! k' =
  if decide (k' = k) then Some (default v (m !! k)) else m !! k'.
Proof.
  unfold or_insert. destruct (m !! k) eqn:E; case_decide; subst; rewrite ?lookup_insert_eq, ?lookup_insert_ne; done.
Qed.

(** The two limbs of a hash are 128-bit numbers and determine it. *)
Lemma split_hash_value h : 0 <= h < 2 ^ 256 →
  hi (split_hash h) * 2 ^ 128 + lo (split_hash h) = h ∧
  0 <= hi (split_hash h) < 2 ^ 128 ∧ 0 <= lo (split_hash h) < 2 ^ 128.
Proof.
  intros Hh. unfold split_hash, b256_bytes. cbn [hi lo]. pose proof (to_be_bytes_is_byte 32 h) as Hb.
  set (l := to_be_bytes 32 h) in *. assert (length l = 32%nat) as Hl by apply length_to_be_bytes.
  pose proof (from_be_bytes_bound (take 16 l) (Forall_take _ 16 _ Hb)) as H1.
  pose proof (from_be_bytes_bound (drop 16 l) (Forall_drop _ 16 _ Hb)) as H2.
  rewrite length_take, Hl in H1. rewrite length_drop, Hl in H2. split; [|done].
  rewrite <- (Z.mod_small h (2 ^ 256)) at 1 by done. change (2 ^ 256) with (256 ^ Z.of_nat 32).
  rewrite <- from_to_be_bytes by lia. fold l. rewrite <- (take_drop 16 l) at 3.
  by rewrite from_be_bytes_app, length_drop, Hl.
Qed.
