(* ===== verification/OrchestrationExample.v ===== *)
(** * Example data of the orchestration actors

    An E3 and the context of a local event, for the runs that the witnesses evaluate. *)

From S2P Require Import Prelude Events Orchestration.
Local Open Scope nat_scope.

Definition ex_id : E3id := mkE3id "7" 1.

Definition ex_ctx (cause : Z) : EventContext := mkContext 1 cause 1 1 1 1 None Local_.
