(* ===== verification/DkgAttestation.v ===== *)
(** * DKG fold attestations

    The signed statement that binds a node's NodeFold proof to its committee address
    (crates/events/src/interfold_event/dkg_fold_attestation.rs), the commitments read from the
    proof's public signals (crates/zk/prover/src/node_fold_public.rs with the field strings of
    circuits/utils.rs), the check that the aggregator makes
    (crates/orchestration/aggregator/src/public_key_aggregation/validation.rs) and the bundle that
    goes on chain (crates/zk/prover/src/dkg_attestation_bundle.rs).  The ABI encoding of the bundle's
    two arrays is a parameter. *)

From Stdlib Require Import Ascii.
From S2P Require Import Prelude Events CommitmentLinks NodeRegistry Orchestration.
Local Open Scope Z_scope.

(** ** The payload and its digest *)

Record DkgFoldAttestationContext := mkFoldContext { fc_registry : Address; fc_verifying_contract : Address }.

Record DkgFoldAggCommits := mkAggCommits { sk_agg_commit : B256; esm_agg_commit : B256 }.

Global Instance DkgFoldAggCommits_eq_dec : EqDecision DkgFoldAggCommits.
Proof. solve_decision. Defined.

Record DkgFoldAttestationPayload := mkFoldPayload {
  fp_e3_id : E3id; fp_verifying_contract : Address; fp_registry : Address; fp_party_id : nat;
  fp_agg_commits : DkgFoldAggCommits }.

Record SignedDkgFoldAttestation := mkFoldAttestation
  { fa_payload : DkgFoldAttestationPayload; fa_signature : Bytes }.

Section Payload.
Context `{AlloyOps}.

Definition domain_typehash : B256 :=
  keccak256 (str_bytes "EIP712Domain(string name,string version,uint256 chainId,address verifyingContract)").
Definition domain_name_hash : B256 := keccak256 (str_bytes "InterfoldDkgFoldAttestation").
Definition domain_version_hash : B256 := keccak256 (str_bytes "1").
Definition fold_typehash : B256 :=
  keccak256 (str_bytes "DkgFoldAttestation(address registry,uint256 e3Id,uint256 partyId,bytes32 skAggCommit,bytes32 esmAggCommit)").

Definition domain_separator (p : DkgFoldAttestationPayload) : B256 :=
  keccak256 (abi_encode
    [AbiBytes32 domain_typehash; AbiBytes32 domain_name_hash; AbiBytes32 domain_version_hash;
     AbiUint (chain_id (fp_e3_id p)); AbiAddress (fp_verifying_contract p)]).

(** [None] when the E3 id is not a decimal [U256]. *)
Definition struct_hash (p : DkgFoldAttestationPayload) : option B256 :=
  e3 ← u256_from_decimal (e3_num (fp_e3_id p));
  Some (keccak256 (abi_encode
    [AbiBytes32 fold_typehash; AbiAddress (fp_registry p); AbiUint e3; AbiUint (Z.of_nat (fp_party_id p));
     AbiBytes32 (sk_agg_commit (fp_agg_commits p)); AbiBytes32 (esm_agg_commit (fp_agg_commits p))])).

Definition fold_digest (p : DkgFoldAttestationPayload) : option B256 :=
  h ← struct_hash p;
  Some (keccak256 ([25; 1] ++ b256_bytes (domain_separator p) ++ b256_bytes h)).

Definition sign_fold (p : DkgFoldAttestationPayload) (signer : PrivateKeySigner) : option SignedDkgFoldAttestation :=
  d ← fold_digest p;
  sig ← sign_hash_sync signer d;
  Some (mkFoldAttestation p sig).

Definition fold_recover_address (att : SignedDkgFoldAttestation) : option Address :=
  d ← fold_digest (fa_payload att);
  recover_address_from_prehash (fa_signature att) d.

Definition verify_signer (att : SignedDkgFoldAttestation) (expected : Address) : option bool :=
  a ← fold_recover_address att; Some (bool_decide (a = expected)).
End Payload.

(** ** Field strings: [format!("0x{}", hex::encode(chunk))] and back *)

Definition FIELD_SIZE : nat := 32.

Definition hex_digit (n : Z) : Ascii.ascii :=
  Ascii.ascii_of_N (Z.to_N (if n <? 10 then 48 + n else 87 + n)).

Definition hex_encode (l : Bytes) : list Ascii.ascii :=
  flat_map (λ b, [hex_digit (b / 16); hex_digit (b mod 16)]) l.

Definition hex_value (c : Ascii.ascii) : option Z :=
  let n := Z.of_N (Ascii.N_of_ascii c) in
  if (48 <=? n) && (n <=? 57) then Some (n - 48)
  else if (97 <=? n) && (n <=? 102) then Some (n - 87)
  else if (65 <=? n) && (n <=? 70) then Some (n - 55)
  else None.

(** [hex::decode]: an odd number of digits is refused. *)
Fixpoint hex_decode (s : list Ascii.ascii) : option Bytes :=
  match s with
  | [] => Some []
  | [_] => None
  | a :: b :: rest =>
      x ← hex_value a; y ← hex_value b; l ← hex_decode rest; Some (x * 16 + y :: l)
  end.

Definition bytes_to_field_strings (bytes : Bytes) : option (list (list Ascii.ascii)) :=
  if negb (length bytes mod FIELD_SIZE =? 0)%nat then None
  else Some ((λ chunk, ["0"; "x"]%char ++ hex_encode chunk) <$> chunks FIELD_SIZE bytes).

(** [strip_prefix("0x").unwrap_or(field)] *)
Definition strip_0x (s : list Ascii.ascii) : list Ascii.ascii :=
  match s with
  | a :: b :: rest => if bool_decide (a = "0"%char) && bool_decide (b = "x"%char) then rest else s
  | _ => s
  end.

(** The bytes of a [[u8; 32]], right-aligned. *)
Definition field_hex_to_bytes32 (field : list Ascii.ascii) : option B256 :=
  let s := strip_0x field in
  if (64 <? length s)%nat then None
  else decoded ← hex_decode s; Some (from_be_bytes (replicate (32 - length decoded) 0 ++ decoded)).

(** [u64::from_str_radix(s, 16)] of a string without a sign: a digit that is not hexadecimal and
    an overflow are errors. *)
Fixpoint from_str_radix_16 (acc : Z) (s : list Ascii.ascii) : option Z :=
  match s with
  | [] => Some acc
  | c :: rest => x ← hex_value c; if acc * 16 + x <=? U64_MAX then from_str_radix_16 (acc * 16 + x) rest else None
  end.

(** [trim_start_matches('0')] *)
Fixpoint trim_zeros (s : list Ascii.ascii) : list Ascii.ascii :=
  match s with c :: rest => if bool_decide (c = "0"%char) then trim_zeros rest else s | [] => [] end.

Definition field_hex_to_u64 (field : list Ascii.ascii) : option Z :=
  match trim_zeros (strip_0x field) with
  | [] => from_str_radix_16 0 ["0"%char]
  | trimmed => from_str_radix_16 0 trimmed
  end.

Definition node_fold_public_field_count (n h l : nat) : nat := (11 + n + 2 * (n + h) * l)%nat.

Definition extract_node_fold_agg_commits (proof : Proof_) (committee_n committee_h n_moduli : nat)
    : option (nat * DkgFoldAggCommits) :=
  if negb (bool_decide (circuit proof = NodeFold)) then None
  else
    fields ← bytes_to_field_strings (public_signals proof);
    if negb (length fields =? node_fold_public_field_count committee_n committee_h n_moduli)%nat then None
    else
      party ← fields !! 0%nat ≫= field_hex_to_u64;
      sk ← fields !! (length fields - 2)%nat ≫= field_hex_to_bytes32;
      esm ← fields !! (length fields - 1)%nat ≫= field_hex_to_bytes32;
      Some (Z.to_nat party, mkAggCommits sk esm).

(** ** The check of the aggregator *)

Inductive AttestationError :=
| WrongAttestationE3
| WrongAttestationParty
| WrongRegistry
| WrongVerifyingContract
| InvalidNodeAddress
| InvalidSignature
| WrongSigner
| BadNodeFold
| NodeFoldParty
| NodeFoldCommits.

Definition check (b : bool) (e : AttestationError) (k : result () AttestationError) : result () AttestationError :=
  if b then k else Err e.

Definition verify_dkg_fold_attestation `{AlloyOps} `{AddressText} (e3_id : E3id) (party_id : nat) (proof : Proof_)
    (attestation : SignedDkgFoldAttestation) (expected_context : DkgFoldAttestationContext)
    (expected_node : string) (committee_n committee_h n_moduli : nat) : result () AttestationError :=
  let p := fa_payload attestation in
  check (bool_decide (fp_e3_id p = e3_id)) WrongAttestationE3 (
  check (fp_party_id p =? party_id)%nat WrongAttestationParty (
  check (fp_registry p =? fc_registry expected_context) WrongRegistry (
  check (fp_verifying_contract p =? fc_verifying_contract expected_context) WrongVerifyingContract (
  match parse_address expected_node with
  | None => Err InvalidNodeAddress
  | Some expected =>
      match verify_signer attestation expected with
      | None => Err InvalidSignature
      | Some signed =>
          check signed WrongSigner (
          match extract_node_fold_agg_commits proof committee_n committee_h n_moduli with
          | None => Err BadNodeFold
          | Some (extracted_party, commits) =>
              check (extracted_party =? party_id)%nat NodeFoldParty (
              check (bool_decide (commits = fp_agg_commits p)) NodeFoldCommits (Ok tt))
          end)
      end
  end)))).

(** ** The bundle for the chain *)

Record PartySlotBinding := mkBinding { ps_party : nat; ps_node : Address }.
Record AttestationEntry := mkEntry { ae_party : nat; ae_sk : B256; ae_esm : B256; ae_signature : Bytes }.

Inductive BundleError := MissingPartyNode | MissingAttestation | AttestationPartyMismatch | InvalidPartyAddress.

Definition bundle_entry `{AddressText} (party_nodes : gmap nat string)
    (attestations : gmap nat SignedDkgFoldAttestation) (party_id : nat)
    : result (AttestationEntry * PartySlotBinding) BundleError :=
  match party_nodes !! party_id with
  | None => Err MissingPartyNode
  | Some node =>
      match attestations !! party_id with
      | None => Err MissingAttestation
      | Some att =>
          let p := fa_payload att in
          if negb (fp_party_id p =? party_id)%nat then Err AttestationPartyMismatch
          else match parse_address node with
          | None => Err InvalidPartyAddress
          | Some address =>
              Ok (mkEntry (fp_party_id p) (sk_agg_commit (fp_agg_commits p)) (esm_agg_commit (fp_agg_commits p))
                    (fa_signature att), mkBinding party_id address)
          end
      end
  end.

(** The [?] of a loop: the first error, or all results. *)
Fixpoint try_map {A B E} (f : A → result B E) (l : list A) : result (list B) E :=
  match l with
  | [] => Ok []
  | x :: l' => let? y := f x in let? ys := try_map f l' in Ok (y :: ys)
  end.

Definition encode_dkg_attestation_bundle `{AddressText}
    (abi : list AttestationEntry → list PartySlotBinding → Bytes) (honest_party_ids : list nat)
    (party_nodes : gmap nat string) (attestations : gmap nat SignedDkgFoldAttestation) : result Bytes BundleError :=
  let? entries := try_map (bundle_entry party_nodes attestations) honest_party_ids in
  Ok (abi entries.*1 entries.*2).

(** ** Lemmas *)

Lemma byte_range b : is_byte b ↔ 0 <= b < 256.
Proof. unfold is_byte, in_u. change (2 ^ 8) with 256. done. Qed.

Lemma hex_value_digit n : 0 <= n < 16 → hex_value (hex_digit n) = Some n.
Proof.
  intros Hn. assert (∀ k, (k < 16)%nat → hex_value (hex_digit (Z.of_nat k)) = Some (Z.of_nat k)) as H.
  { intros k Hk. do 16 (destruct k as [|k]; [reflexivity|]). lia. }
  specialize (H (Z.to_nat n)). rewrite Z2Nat.id in H by lia. apply H. lia.
Qed.

Lemma nibbles b : is_byte b → 0 <= b / 16 < 16 ∧ 0 <= b mod 16 < 16 ∧ b / 16 * 16 + b mod 16 = b.
Proof. rewrite byte_range. intros Hb. pose proof (Z.div_mod b 16). pose proof (Z.mod_pos_bound b 16). lia. Qed.

Lemma hex_decode_encode l : Forall is_byte l → hex_decode (hex_encode l) = Some l.
Proof.
  induction 1 as [|b l Hb _ IH]; [done|]. destruct (nibbles b Hb) as (H1 & H2 & H3). unfold hex_encode in *. cbn.
  rewrite hex_value_digit by done. cbn. rewrite hex_value_digit by done. cbn. rewrite IH. cbn. by rewrite H3.
Qed.

Lemma length_hex_encode l : length (hex_encode l) = (2 * length l)%nat.
Proof. induction l as [|b l IH]; [done|]. unfold hex_encode in *. cbn. rewrite IH. lia. Qed.

(** Parsing the hexadecimal digits of bytes gives their value, unless it does not fit. *)
Lemma from_str_radix_bytes l acc : Forall is_byte l → 0 <= acc <= U64_MAX →
  from_str_radix_16 acc (hex_encode l) =
  let v := acc * 256 ^ Z.of_nat (length l) + from_be_bytes l in if v <=? U64_MAX then Some v else None.
Proof.
  intros Hl. revert acc. induction Hl as [|b l Hb Hl IH]; intros acc Hacc.
  { change (hex_encode []) with (@nil ascii). cbn [from_str_radix_16 length]. cbn zeta.
    change (256 ^ Z.of_nat 0) with 1. change (from_be_bytes []) with 0. replace (acc * 1 + 0) with acc by lia.
    by rewrite (proj2 (Z.leb_le _ _)) by lia. }
  destruct (nibbles b Hb) as (H1 & H2 & H3). pose proof (from_be_bytes_bound l Hl) as Hbd.
  change (hex_encode (b :: l)) with (hex_digit (b / 16) :: hex_digit (b mod 16) :: hex_encode l).
  cbn [from_str_radix_16]. rewrite (hex_value_digit (b / 16)) by done. cbn [mbind option_bind].
  assert (∀ x, 0 <= x → U64_MAX < x →
    (x * 256 ^ Z.of_nat (length l) + from_be_bytes l <=? U64_MAX) = false) as Hbig.
  { intros x Hx Hgt. apply Z.leb_gt. assert (1 <= 256 ^ Z.of_nat (length l)) by (apply Z.lt_pred_le, Z.pow_pos_nonneg; lia). nia. }
  cbn zeta. rewrite from_be_bytes_cons. cbn [length]. rewrite Nat2Z.inj_succ, Z.pow_succ_r by lia.
  replace (acc * (256 * 256 ^ Z.of_nat (length l)) + (b * 256 ^ Z.of_nat (length l) + from_be_bytes l))
    with ((acc * 256 + b) * 256 ^ Z.of_nat (length l) + from_be_bytes l) by ring.
  destruct (Z.leb_spec (acc * 16 + b / 16) U64_MAX) as [Hle|Hgt]; [|rewrite Hbig; [done|lia|lia]].
  rewrite (hex_value_digit (b mod 16)) by done. cbn [mbind option_bind].
  replace ((acc * 16 + b / 16) * 16 + b mod 16) with (acc * 256 + b) by lia.
  destruct (Z.leb_spec (acc * 256 + b) U64_MAX) as [Hle2|Hgt]; [|rewrite Hbig; [done|lia|lia]].
  by rewrite IH by lia.
Qed.

Lemma trim_zeros_radix s : from_str_radix_16 0 (trim_zeros s) = from_str_radix_16 0 s.
Proof. induction s as [|c s IH]; [done|]. cbn [trim_zeros]. case_bool_decide; [subst; by rewrite IH|done]. Qed.

Lemma field_u64 f : Forall is_byte f →
  field_hex_to_u64 (["0"; "x"]%char ++ hex_encode f) =
  if from_be_bytes f <=? U64_MAX then Some (from_be_bytes f) else None.
Proof.
  intros Hf. unfold field_hex_to_u64. change (strip_0x _) with (hex_encode f).
  assert (from_str_radix_16 0 (hex_encode f) = if from_be_bytes f <=? U64_MAX then Some (from_be_bytes f) else None) as <-.
  { rewrite (from_str_radix_bytes f 0); [|done|unfold U64_MAX; lia]. cbn zeta. by rewrite Z.mul_0_l, Z.add_0_l. }
  rewrite <- (trim_zeros_radix (hex_encode f)). by destruct (trim_zeros (hex_encode f)).
Qed.

Lemma field_bytes32 f : Forall is_byte f → length f = 32%nat →
  field_hex_to_bytes32 (["0"; "x"]%char ++ hex_encode f) = Some (from_be_bytes f).
Proof.
  intros Hf Hl. unfold field_hex_to_bytes32. change (strip_0x _) with (hex_encode f).
  rewrite length_hex_encode, Hl, hex_decode_encode by done. cbn [mbind option_bind Nat.ltb Nat.leb Nat.mul Nat.add].
  by rewrite Hl.
Qed.

Lemma field_strings (fs : list Bytes) : Forall is_field fs →
  bytes_to_field_strings (concat fs) = Some ((λ f, ["0"; "x"]%char ++ hex_encode f) <$> fs).
Proof.
  intros Hf. unfold bytes_to_field_strings. rewrite length_fields by done.
  change FIELD_SIZE with FIELD_BYTE_LEN. rewrite Nat.Div0.mod_mul, Nat.eqb_refl. cbn [negb]. by rewrite chunks_fields.
Qed.

(** What is read from the public signals of a NodeFold proof. *)
Lemma extract_fields d first middle sk esm n h l party commits :
  Forall is_field (first :: middle ++ [sk; esm]) → Forall (Forall is_byte) (first :: middle ++ [sk; esm]) →
  extract_node_fold_agg_commits (mkProof NodeFold d (concat (first :: middle ++ [sk; esm]))) n h l = Some (party, commits) ↔
  (3 + length middle)%nat = node_fold_public_field_count n h l ∧
  from_be_bytes first = Z.of_nat party ∧ Z.of_nat party <= U64_MAX ∧
  commits = mkAggCommits (from_be_bytes sk) (from_be_bytes esm).
Proof.
  intros Hf Hb. set (fs := first :: middle ++ [sk; esm]) in *.
  assert (length fs = (3 + length middle)%nat) as Hlen by (unfold fs; cbn; rewrite length_app; cbn; lia).
  unfold extract_node_fold_agg_commits. cbn [circuit public_signals]. rewrite bool_decide_eq_true_2 by done. cbn [negb].
  rewrite field_strings by done. cbn [mbind option_bind]. rewrite length_fmap, Hlen.
  destruct (Nat.eqb_spec (3 + length middle) (node_fold_public_field_count n h l)) as [Hc|Hc]; cbn [negb]; [|naive_solver].
  rewrite !list_lookup_fmap.
  assert (fs !! (3 + length middle - 2)%nat = Some sk) as ->.
  { unfold fs. replace (3 + length middle - 2)%nat with (S (length middle)) by lia.
    change ((middle ++ [sk; esm]) !! length middle = Some sk). by rewrite lookup_app_r, Nat.sub_diag by done. }
  assert (fs !! (3 + length middle - 1)%nat = Some esm) as ->.
  { unfold fs. replace (3 + length middle - 1)%nat with (S (S (length middle))) by lia.
    change ((middle ++ [sk; esm]) !! S (length middle) = Some esm). rewrite lookup_app_r by lia. by replace (S (length middle) - length middle)%nat with 1%nat by lia. }
  unfold fs in Hf, Hb. rewrite !Forall_cons, !Forall_app, !Forall_cons in Hf, Hb.
  destruct Hf as (_ & _ & Hsk & Hesm & _), Hb as (Hb0 & _ & Hbs & Hbe & _).
  change (fs !! 0%nat) with (Some first). cbn [fmap option_fmap option_map mbind option_bind].
  rewrite field_u64 by done. pose proof (from_be_bytes_bound first Hb0) as Hpos.
  destruct (Z.leb_spec (from_be_bytes first) U64_MAX) as [Hle|Hgt]; cbn [mbind option_bind].
  - rewrite !field_bytes32 by done. cbn [mbind option_bind]. split.
    + intros E. simplify_eq. rewrite Z2Nat.id by lia. naive_solver lia.
    + intros (_ & E & _ & ->). by rewrite E, Nat2Z.id.
  - split; [done|]. intros (_ & E & ? & _). lia.
Qed.

Lemma check_Ok b e k : check b e k = Ok tt ↔ b = true ∧ k = Ok tt.
Proof. unfold check. destruct b; naive_solver. Qed.

(** ** Theorem *)

(** The aggregator accepts a fold attestation exactly when it belongs to this E3, party,
    registry and verifier, is signed by the committee's node of that slot, and states the
    commitments in the last two fields of a NodeFold proof of the right size whose first field
    is the party; an attestation that the node's key signed for those values is accepted. *)
Theorem fold_attestation_exact `{AlloyLaws} `{AddressText} e3 party d first middle sk esm att context node address n h l :
  Forall is_field (first :: middle ++ [sk; esm]) → Forall (Forall is_byte) (first :: middle ++ [sk; esm]) →
  parse_address node = Some address →
  let proof := mkProof NodeFold d (concat (first :: middle ++ [sk; esm])) in
  let stated := mkFoldPayload e3 (fc_verifying_contract context) (fc_registry context) party
                  (mkAggCommits (from_be_bytes sk) (from_be_bytes esm)) in
  let well_formed := (3 + length middle)%nat = node_fold_public_field_count n h l ∧
                     from_be_bytes first = Z.of_nat party ∧ Z.of_nat party <= U64_MAX in
  (verify_dkg_fold_attestation e3 party proof att context node n h l = Ok tt ↔
    well_formed ∧ fa_payload att = stated ∧ fold_recover_address att = Some address) ∧
  ∀ key, signer_address key = address → sign_fold stated key = Some att → well_formed →
    verify_dkg_fold_attestation e3 party proof att context node n h l = Ok tt.
Proof.
  intros Hf Hb Hn proof stated well_formed.
  assert (verify_dkg_fold_attestation e3 party proof att context node n h l = Ok tt ↔
    well_formed ∧ fa_payload att = stated ∧ fold_recover_address att = Some address) as Hiff.
  { unfold verify_dkg_fold_attestation, verify_signer. cbn zeta. rewrite !check_Ok, Hn, bool_decide_eq_true, Nat.eqb_eq, !Z.eqb_eq.
    destruct att as [[e3' vc reg pid commits] sig]. cbn [fa_payload fp_e3_id fp_party_id fp_registry fp_verifying_contract fp_agg_commits].
    destruct (fold_recover_address _) as [a|]; cbn [mbind option_bind]; [|naive_solver].
    rewrite check_Ok, bool_decide_eq_true.
    destruct (extract_node_fold_agg_commits proof n h l) as [[party' commits']|] eqn:Ex.
    - rewrite !check_Ok, Nat.eqb_eq, bool_decide_eq_true.
      apply extract_fields in Ex as (Hc & Hp & Hmax & ->); [|done..].
      unfold well_formed, stated. split.
      + intros (-> & -> & -> & -> & -> & -> & <- & _). done.
      + intros ((_ & E & _) & [= -> -> -> -> ->] & [= ->]). do 5 (split; [done|]). split; [lia|done].
    - split; [intros (_ & _ & _ & _ & _ & [=])|]. intros ((Hc & Hp & Hmax) & _).
      assert (extract_node_fold_agg_commits proof n h l = Some (party, mkAggCommits (from_be_bytes sk) (from_be_bytes esm))) as E
        by (by apply extract_fields). congruence. }
  split; [done|]. intros key Hk Hs Hwf. apply Hiff. split; [done|]. unfold sign_fold in Hs.
  destruct (fold_digest stated) as [dg|] eqn:Ed; [|done]. cbn in Hs.
  destruct (sign_hash_sync key dg) as [sig|] eqn:Es; [|done]. cbn in Hs. simplify_eq. split; [done|].
  unfold fold_recover_address. cbn. rewrite Ed. cbn. by apply recover_sign_hash.
Qed.
