(* ===== verification/PublicKeyAggregation.v ===== *)
(** * Public-key aggregation

    Model of crates/orchestration/aggregator/src/public_key_aggregation: collection of keyshares
    for the accepted dealer roster, C1 verification, selection of the honest set, aggregation of
    the key with its C5 proof, streaming of the node folds, the final DKG aggregation, publication,
    restart recovery, the actor's handlers and the committee filter in front of it.

    Parameters: hashing and signatures ([AlloyOps]), the text form of addresses ([AddressText])
    and [PublicKeyOps], what the BFV libraries compute from keyshares, the hash that names an
    event and the ABI encoding of the attestation bundle.  Log messages are left out.  A [HashMap]
    of party ids is a [gmap]; the sources iterate it only to sort or to search by an address. *)

From S2P Require Import Prelude Events CommitmentLinks NodeRegistry Failover Actor Orchestration DkgAttestation.
Local Open Scope nat_scope.

(** ** committee.rs *)

Inductive PkError :=
| PersistFailed (e : PersistError)
| PublishRefused
| InvalidRoster
| UnknownCommittee (threshold_m threshold_n : nat)
| NoC1Proofs
| ConflictingC1Results
| UnexpectedState
| WrongCommitteeSize
| AggregationFailed
| MissingCommitteeNode (party_id : nat)
| InvalidCommitteeNode (party_id : nat)
| NoEventContext
| MissingC5Commitment
| BundleFailed (e : BundleError)
| UnsupportedSchema (version : nat).

Definition committee_addresses_in_party_order `{AddressText} (party_ids : list nat) (party_nodes : gmap nat string)
    : result (list Address) PkError :=
  try_map (λ party_id,
    match party_nodes !! party_id with
    | None => Err (MissingCommitteeNode party_id)
    | Some node => match parse_address node with
                   | None => Err (InvalidCommitteeNode party_id)
                   | Some address => Ok address
                   end
    end) party_ids.

(** ** state.rs *)

Record PublicKeyAggregated := mkPkAggregated {
  pa_pubkey : Bytes; pa_nodes : gset string; pa_committee_addresses : list Address;
  pa_honest_committee_addresses : list Address; pa_pk_commitment : Bytes;
  pa_dkg_aggregator_proof : option Proof_; pa_dkg_attestation_bundle : option Bytes }.

Definition PUBLIC_KEY_AGGREGATOR_RECOVERY_SCHEMA_VERSION : nat := 2.

Record Recovery := mkRecovery {
  schema_version : nat; pending_publication : option PublicKeyAggregated;
  selected_roster : option (gset nat); r_last_ec : option EventContext; r_started_as_aggregator : bool }.

Definition default_recovery : Recovery :=
  mkRecovery PUBLIC_KEY_AGGREGATOR_RECOVERY_SCHEMA_VERSION None None None false.

(** A keyshare submission: party, node and keyshare. *)
Abbreviation Submission := (nat * string * Bytes)%type.

Record Collecting := mkCollecting {
  c_threshold_n : nat; c_threshold_m : nat; c_circuit_n : nat; c_circuit_h : nat;
  c_keyshares : gset Bytes; c_c1_proofs : list (option SignedProofPayload); c_seed : Z;
  c_nodes : gset string; c_submission_order : list Submission; c_canonical_party_nodes : gmap nat string }.

Record VerifyingC1 := mkVerifyingC1 {
  v_submission_order : list Submission; v_threshold_m : nat; v_circuit_n : nat; v_circuit_h : nat;
  v_c1_proofs : list (option SignedProofPayload); v_no_proof_parties : list nat;
  v_canonical_party_nodes : gmap nat string }.

Record GeneratingC5Proof := mkGenerating {
  g_public_key : Bytes; g_keyshare_bytes : list Bytes; g_nodes : gset string; g_party_nodes : gmap nat string;
  g_dkg_node_proofs : gmap nat (option Proof_); g_dkg_fold_attestations : gmap nat SignedDkgFoldAttestation;
  g_honest_party_ids : gset nat; g_dishonest_parties : gset nat; g_circuit_n : nat; g_circuit_h : nat;
  g_dkg_aggregation_correlation : option Z; g_dkg_aggregated_proof : option Proof_;
  g_c5_proof_pending : option Proof_; g_last_ec : option EventContext;
  g_nodes_fold_accumulator : option Proof_; g_nodes_fold_completed_slots : nat;
  g_nodes_fold_step_correlation : option Z }.

Record Complete := mkComplete {
  d_public_key : Bytes; d_keyshares : gset Bytes; d_nodes : gset string; d_committee_addresses : list Address;
  d_honest_committee_addresses : list Address }.

Inductive State :=
| SCollecting (s : Collecting)
| SVerifyingC1 (s : VerifyingC1)
| SGeneratingC5Proof (s : GeneratingC5Proof)
| SComplete (s : Complete).

(** The parts of [GeneratingC5Proof] that the effects change. *)
Definition set_dkg_corr x g := mkGenerating (g_public_key g) (g_keyshare_bytes g) (g_nodes g) (g_party_nodes g)
  (g_dkg_node_proofs g) (g_dkg_fold_attestations g) (g_honest_party_ids g) (g_dishonest_parties g) (g_circuit_n g)
  (g_circuit_h g) x (g_dkg_aggregated_proof g) (g_c5_proof_pending g) (g_last_ec g) (g_nodes_fold_accumulator g)
  (g_nodes_fold_completed_slots g) (g_nodes_fold_step_correlation g).
Definition set_dkg_proof x g := mkGenerating (g_public_key g) (g_keyshare_bytes g) (g_nodes g) (g_party_nodes g)
  (g_dkg_node_proofs g) (g_dkg_fold_attestations g) (g_honest_party_ids g) (g_dishonest_parties g) (g_circuit_n g)
  (g_circuit_h g) (g_dkg_aggregation_correlation g) x (g_c5_proof_pending g) (g_last_ec g) (g_nodes_fold_accumulator g)
  (g_nodes_fold_completed_slots g) (g_nodes_fold_step_correlation g).
Definition set_c5 x ec g := mkGenerating (g_public_key g) (g_keyshare_bytes g) (g_nodes g) (g_party_nodes g)
  (g_dkg_node_proofs g) (g_dkg_fold_attestations g) (g_honest_party_ids g) (g_dishonest_parties g) (g_circuit_n g)
  (g_circuit_h g) (g_dkg_aggregation_correlation g) (g_dkg_aggregated_proof g) x ec (g_nodes_fold_accumulator g)
  (g_nodes_fold_completed_slots g) (g_nodes_fold_step_correlation g).
Definition set_folds proofs atts ec g := mkGenerating (g_public_key g) (g_keyshare_bytes g) (g_nodes g)
  (g_party_nodes g) proofs atts (g_honest_party_ids g) (g_dishonest_parties g) (g_circuit_n g)
  (g_circuit_h g) (g_dkg_aggregation_correlation g) (g_dkg_aggregated_proof g) (g_c5_proof_pending g) ec
  (g_nodes_fold_accumulator g) (g_nodes_fold_completed_slots g) (g_nodes_fold_step_correlation g).
Definition set_fold_step acc slots corr g := mkGenerating (g_public_key g) (g_keyshare_bytes g) (g_nodes g)
  (g_party_nodes g) (g_dkg_node_proofs g) (g_dkg_fold_attestations g) (g_honest_party_ids g)
  (g_dishonest_parties g) (g_circuit_n g) (g_circuit_h g) (g_dkg_aggregation_correlation g)
  (g_dkg_aggregated_proof g) (g_c5_proof_pending g) (g_last_ec g) acc slots corr.

(** Every closure over the C5 phase leaves another state alone. *)
Definition on_generating (f : GeneratingC5Proof → GeneratingC5Proof) (s : State) : State :=
  match s with SGeneratingC5Proof g => SGeneratingC5Proof (f g) | _ => s end.

Definition committee_h_for (threshold_m threshold_n : nat) : result nat PkError :=
  match from_threshold threshold_m threshold_n with
  | Some size => Ok (cc_h (values size))
  | None => Err (UnknownCommittee threshold_m threshold_n)
  end.

(** [init]: an unknown committee panics. *)
Definition init (threshold_n threshold_m : nat) (seed : Z) (canonical_party_nodes : gmap nat string)
    : result State PkError :=
  let? h := committee_h_for threshold_m threshold_n in
  Ok (SCollecting (mkCollecting threshold_n threshold_m threshold_n h ∅ [] seed ∅ [] canonical_party_nodes)).

(** [node.parse::<Address>().is_ok_and(|n| n == address)] *)
Definition address_matches `{AddressText} (node : string) (address : Address) : bool :=
  match parse_address node with Some a => (a =? address)%Z | None => false end.

Definition find_party `{AddressText} (nodes : gmap nat string) (node : Address) : option nat :=
  fst <$> List.find (λ kv, address_matches kv.2 node) (map_to_list nodes).

Definition party_id_for_node `{AddressText} (s : State) (node : Address) : option nat :=
  match s with
  | SCollecting c => find_party (c_canonical_party_nodes c) node
  | SVerifyingC1 v => find_party (v_canonical_party_nodes v) node
  | SGeneratingC5Proof g => find_party (g_party_nodes g) node
  | SComplete d => position (λ candidate, (candidate =? node)%Z) (d_committee_addresses d)
  end.

(** ** transitions.rs *)

(** Start C1 only after every member of the accepted dealer roster submitted. *)
Definition begin_selected_c1 (state : State) (selected_roster : option (gset nat)) : result State PkError :=
  match selected_roster, state with
  | Some selected, SCollecting c =>
      if negb ((size selected =? c_circuit_h c) && forallb (λ id, id <? c_circuit_n c) (elements selected))
      then Err InvalidRoster
      else
        let chosen := List.filter (λ e, bool_decide (e.1.1.1 ∈ selected)) (zip (c_submission_order c) (c_c1_proofs c)) in
        if length chosen <? size selected then Ok state
        else Ok (SVerifyingC1 (mkVerifyingC1 chosen.*1 (c_threshold_m c) (c_circuit_n c) (c_circuit_h c) chosen.*2 []
                                 (c_canonical_party_nodes c)))
  | _, _ => Ok state
  end.

Definition add_keyshare_transition (state : State) (keyshare : Bytes) (node : string) (party_id : nat)
    (c1_proof : option SignedProofPayload) (selected_roster : option (gset nat)) : result State PkError :=
  match state with
  | SCollecting c =>
      let c' :=
        if existsb (λ e : Submission, e.1.1 =? party_id) (c_submission_order c) then c
        else mkCollecting (c_threshold_n c) (c_threshold_m c) (c_circuit_n c) (c_circuit_h c)
               ({[keyshare]} ∪ c_keyshares c) (c_c1_proofs c ++ [c1_proof]) (c_seed c) ({[node]} ∪ c_nodes c)
               (c_submission_order c ++ [(party_id, node, keyshare)]) (c_canonical_party_nodes c) in
      begin_selected_c1 (SCollecting c') selected_roster
  | _ => Ok state
  end.

Record C1Dispatch := mkC1Dispatch { party_proofs : list PartyProofsToVerify; no_proof_parties : list nat }.

Definition plan_c1_dispatch (submission_order : list Submission) (c1_proofs : list (option SignedProofPayload))
    : C1Dispatch :=
  let pairs := zip submission_order c1_proofs in
  mkC1Dispatch
    (omap (λ '(e, proof), (λ p, mkPartyProofs e.1.1 [p]) <$> proof) pairs)
    (omap (λ '(e, proof), match proof with None => Some e.1.1 | Some _ => None end) pairs).

Definition c1_request (d : C1Dispatch) (e3_id : E3id) (params_preset : BfvPreset)
    (committee_size : CiphernodesCommitteeSize) : ShareVerificationDispatched :=
  mkDispatched e3_id PkGenerationProofs (party_proofs d) (list_to_set (no_proof_parties d)) params_preset committee_size.

(** [ids.dedup()] on a sorted vector. *)
Fixpoint dedup (l : list nat) : list nat :=
  match l with
  | x :: ((y :: _) as rest) => if x =? y then dedup rest else x :: dedup rest
  | _ => l
  end.

(** The lowest distinct party ids for the C5 circuit's slots. *)
Definition cap_honest_party_ids (committee_h : nat) (party_ids : list nat) : gset nat :=
  let ids := dedup (merge_sort le party_ids) in
  list_to_set (if committee_h <? length ids then take committee_h ids else ids).

(** An entry that passed C1: party, node, keyshare and proof. *)
Abbreviation Entry := (Submission * option SignedProofPayload)%type.
Abbreviation entry_id e := (e.1.1.1).

Definition entry_le (a b : Entry) : Prop := entry_id a ≤ entry_id b.

Global Instance entry_le_dec a b : Decision (entry_le a b).
Proof. unfold entry_le. apply _. Defined.

Inductive HonestSelection :=
| SelectionFail
| SelectionProceed (honest_entries : list Entry) (honest_party_ids : gset nat).

Definition select_honest_set (honest_entries : list Entry) (circuit_h threshold_m : nat) : HonestSelection :=
  let sorted := merge_sort entry_le honest_entries in
  if length sorted <? circuit_h then SelectionFail
  else
    let ids := cap_honest_party_ids circuit_h ((λ e : Entry, entry_id e) <$> sorted) in
    let kept := if circuit_h <? length sorted
                then List.filter (λ e : Entry, bool_decide (entry_id e ∈ ids)) sorted else sorted in
    if length kept <=? threshold_m then SelectionFail else SelectionProceed kept ids.

(** [v.remove(idx)] *)
Definition remove_at {A} (i : nat) (l : list A) : list A := take i l ++ drop (S i) l.

Definition member_expelled_transition `{AddressText} (state : State) (node : Address) : State :=
  match state with
  | SCollecting c =>
      let idx := position (λ e : Submission, address_matches e.1.2 node) (c_submission_order c) in
      let '(order, proofs, keyshares) :=
        match idx with
        | Some i => (remove_at i (c_submission_order c), remove_at i (c_c1_proofs c),
                     match c_submission_order c !! i with
                     | Some e => c_keyshares c ∖ {[e.2]}
                     | None => c_keyshares c
                     end)
        | None => (c_submission_order c, c_c1_proofs c, c_keyshares c)
        end in
      let nodes := match List.find (λ n, address_matches n node) (merge_sort string_le (elements (c_nodes c))) with
                   | Some n => c_nodes c ∖ {[n]}
                   | None => c_nodes c
                   end in
      SCollecting (mkCollecting (c_threshold_n c - 1) (c_threshold_m c) (c_circuit_n c) (c_circuit_h c)
        keyshares proofs (c_seed c) nodes order (c_canonical_party_nodes c))
  | _ => state
  end.

(** ** validation.rs *)

(** [Proof::extract_output]: the layout of the proof's own circuit. *)
Definition proof_output (p : Proof_) (name : string) : option Bytes :=
  extract_output (output_layout (circuit p)) (public_signals p) name.

Definition extract_pk_commitment (c5_proof : Proof_) : result Bytes PkError :=
  match extract_output (output_layout PkAggregation) (public_signals c5_proof) "commitment" with
  | None => Err MissingC5Commitment
  | Some bytes => if length bytes =? 32 then Ok bytes else Err MissingC5Commitment
  end.

Record C1CommitmentAudit := mkAudit { mismatched : list (nat * SignedProofPayload); missing_proof : list nat }.

Class PublicKeyOps := {
  (** [Fhe::get_aggregate_public_key] of a set of keyshares *)
  get_aggregate_public_key : gset Bytes → option Bytes;
  (** [compute_pk_commitment_from_keyshare_bytes] *)
  keyshare_commitment : Bytes → option Bytes;
  (** [EventId::hash] of a verification request *)
  request_hash : ShareVerificationDispatched → B256;
  (** the ABI encoding of the attestation bundle *)
  bundle_abi : list AttestationEntry → list PartySlotBinding → Bytes }.

Section Validation.
Context `{PublicKeyOps}.

(** The C5 proof takes the commitments of the keyshares as its leading public inputs. *)
Definition c5_proof_matches_keyshares (c5_proof : Proof_) (keyshares : list Bytes) : bool :=
  let outputs := default 1 (output_field_count (output_layout PkAggregation)) in
  if negb (bool_decide (circuit c5_proof = PkAggregation)) ||
     negb (length (public_signals c5_proof) =? (length keyshares + outputs) * 32) then false
  else forallb (λ '(signal, keyshare), bool_decide (keyshare_commitment keyshare = Some signal))
         (zip (chunks_exact 32 (public_signals c5_proof)) keyshares).

Definition c1_matches (keyshare : Bytes) (signed : SignedProofPayload) : bool :=
  match keyshare_commitment keyshare with
  | Some computed => bool_decide (proof_output (pp_proof (payload signed)) "pk_commitment" = Some computed)
  | None => false
  end.

Definition check_c1_keyshare_commitments (entries : list Entry) : C1CommitmentAudit :=
  mkAudit
    (omap (λ '(e, c1), match c1 with
                       | Some signed => if c1_matches e.2 signed then None else Some (e.1.1, signed)
                       | None => None
                       end) entries)
    (omap (λ '(e, c1), match c1 with None => Some e.1.1 | Some _ => None end) entries).
End Validation.

(** [BfvPreset::metadata().num_moduli] *)
Definition num_moduli (p : BfvPreset) : nat :=
  match p with
  | InsecureThreshold64 => 3 | InsecureDkg64 => 2 | SecureThreshold8192 => 3 | SecureDkg8192 => 2
  end.

(** ** actor.rs *)

Record DKGRecursiveAggregationComplete := mkFold {
  df_e3_id : E3id; df_party_id : nat; aggregated_proof : option Proof_;
  fold_attestation : option SignedDkgFoldAttestation }.

Record PkAggregationProofSigned := mkC5Signed { cs_e3_id : E3id; cs_signed_proof : SignedProofPayload }.

Record KeyshareCreated := mkKeyshareCreated {
  kc_pubkey : Bytes; kc_e3_id : E3id; kc_node : string; kc_party_id : nat;
  signed_pk_generation_proof : option SignedProofPayload }.

Record PkAggregationProofRequest := mkC5Request {
  q_keyshare_bytes : list Bytes; q_aggregated_pk_bytes : Bytes; q_committee_n : nat; q_committee_h : nat;
  q_committee_threshold : nat }.

Record DkgAggregationRequest := mkDkgRequest {
  q_node_fold_proofs : list Proof_; q_nodes_fold_proof : option Proof_; q_c5_proof : Proof_;
  q_party_ids : list nat; q_committee_addresses : list Address }.

Inductive Publication :=
| InputsReady
| C1VerificationRequested (request : ShareVerificationDispatched)
| SignedProofFailed (faulting_node : Address) (signed_payload : SignedProofPayload)
| E3Failed (reason : FailureReason)
| C5ProofRequested (request : PkAggregationProofRequest) (public_key : Bytes) (nodes : gset string)
| NodesFoldStepRequested (correlation_id : Z) (inner_proof : Proof_) (prior_accumulator : option Proof_)
    (slot_index total_slots : nat)
| DkgAggregationRequested (correlation_id : Z) (request : DkgAggregationRequest)
| PublicKeyPublished (event : PublicKeyAggregated)
| ResumeRequested (correlation_id : Z)
| ErrorReported (e : PkError).

(** The fields fixed at construction. *)
Record Params := mkParams
  { a_e3_id : E3id; params_preset : BfvPreset; committee_size : CiphernodesCommitteeSize }.

Record Aggregator := mkAggregator {
  params : Params;
  state : Persistable State;
  recovery : Persistable Recovery;
  dkg_fold_attestation_context : option DkgFoldAttestationContext;
  is_aggregator : bool;
  started_as_aggregator : bool;
  effects_enabled : bool;
  key_published : bool;
  early_c1_verifications : gmap B256 ShareVerificationComplete;
  replayed_c5_proof : option PkAggregationProofSigned;
  early_dkg_proofs : list (DKGRecursiveAggregationComplete * EventContext);
  stopped : bool }.

Global Instance state_field : Field Aggregator State := {
  fget := state;
  fset p a := mkAggregator (params a) p (recovery a) (dkg_fold_attestation_context a) (is_aggregator a)
    (started_as_aggregator a) (effects_enabled a) (key_published a) (early_c1_verifications a)
    (replayed_c5_proof a) (early_dkg_proofs a) (stopped a) }.

Global Instance recovery_field : Field Aggregator Recovery := {
  fget := recovery;
  fset p a := mkAggregator (params a) (state a) p (dkg_fold_attestation_context a) (is_aggregator a)
    (started_as_aggregator a) (effects_enabled a) (key_published a) (early_c1_verifications a)
    (replayed_c5_proof a) (early_dkg_proofs a) (stopped a) }.

Global Instance state_field_laws : FieldLaws Aggregator State.
Proof. by split; repeat intros []. Qed.

Global Instance recovery_field_laws : FieldLaws Aggregator Recovery.
Proof. by split; repeat intros []. Qed.

Definition with_role (agg started effects published stop : bool) (a : Aggregator) : Aggregator :=
  mkAggregator (params a) (state a) (recovery a) (dkg_fold_attestation_context a) agg started effects published
    (early_c1_verifications a) (replayed_c5_proof a) (early_dkg_proofs a) stop.

Definition with_buffers (c1 : gmap B256 ShareVerificationComplete) (c5 : option PkAggregationProofSigned)
    (folds : list (DKGRecursiveAggregationComplete * EventContext)) (a : Aggregator) : Aggregator :=
  mkAggregator (params a) (state a) (recovery a) (dkg_fold_attestation_context a) (is_aggregator a)
    (started_as_aggregator a) (effects_enabled a) (key_published a) c1 c5 folds (stopped a).

Definition with_context (c : option DkgFoldAttestationContext) (a : Aggregator) : Aggregator :=
  mkAggregator (params a) (state a) (recovery a) c (is_aggregator a) (started_as_aggregator a) (effects_enabled a)
    (key_published a) (early_c1_verifications a) (replayed_c5_proof a) (early_dkg_proofs a) (stopped a).

Definition set_early_c1 x (a : Aggregator) := with_buffers x (replayed_c5_proof a) (early_dkg_proofs a) a.
Definition set_replayed_c5 x (a : Aggregator) := with_buffers (early_c1_verifications a) x (early_dkg_proofs a) a.
Definition set_early_folds x (a : Aggregator) := with_buffers (early_c1_verifications a) (replayed_c5_proof a) x a.

Definition aggregation_started (s : State) : bool :=
  match s with SGeneratingC5Proof _ | SComplete _ => true | _ => false end.

Definition stage_has_key (stage : E3Stage) : bool :=
  match stage with KeyPublished | CiphertextReady | StageComplete => true | _ => false end.

Definition observe_stage (stage : E3Stage) (a : Aggregator) : Aggregator :=
  with_role (is_aggregator a) (started_as_aggregator a) (effects_enabled a) (key_published a || stage_has_key stage)
    (stopped a) a.

(** [PublicKeyAggregator::new] *)
Definition new_aggregator (ps : Params) (st : Persistable State) (rec : Persistable Recovery)
    (context : option DkgFoldAttestationContext) (initial_is_aggregator : bool) (initial_stage : E3Stage)
    (effects : bool) : Aggregator :=
  let started := match p_data st with Some s => aggregation_started s | None => false end ||
                 match p_data rec with Some r => r_started_as_aggregator r | None => false end in
  observe_stage initial_stage
    (mkAggregator ps st rec context initial_is_aggregator started effects false ∅ None [] false).

Definition aggregation_inputs_ready (a : Aggregator) : bool :=
  match p_data (state a) with
  | Some (SVerifyingC1 _ | SGeneratingC5Proof _ | SComplete _) => true
  | _ => false
  end.

Definition can_run_aggregation_effects (a : Aggregator) : bool := effects_enabled a && is_aggregator a.

Definition can_continue_aggregation_effects (a : Aggregator) : bool :=
  effects_enabled a && (is_aggregator a || (started_as_aggregator a && negb (key_published a))).

Definition is_collecting (a : Aggregator) : bool :=
  match p_data (state a) with Some (SCollecting _) => true | _ => false end.

Section Effects.
Context `{AlloyOps} `{AddressText} `{PublicKeyOps}.

Local Abbreviation Mon := (M Aggregator Publication PkError).

Definition mutate_state (f : State → result State PkError) : Mon () := try_mutate PersistFailed f.
Definition mutate_recovery (f : Recovery → Recovery) : Mon () := try_mutate PersistFailed (λ r, Ok (f r)).
Definition send (p : Publication) : Mon () := publish PublishRefused p.

Definition set_started (r : Recovery) : Recovery :=
  mkRecovery (schema_version r) (pending_publication r) (selected_roster r) (r_last_ec r) true.

(** The flag is set before the write, which the store can refuse. *)
Definition record_started_as_aggregator : Mon () :=
  a ⇐ get_st;
  if started_as_aggregator a then ret tt
  else
    modify (λ a, with_role (is_aggregator a) true (effects_enabled a) (key_published a) (stopped a) a) ;;
    mutate_recovery set_started.

Definition mark_started_as_aggregator : Mon () :=
  a ⇐ get_st;
  if negb (can_run_aggregation_effects a) then ret tt else record_started_as_aggregator.

Definition publish_inputs_ready : Mon () :=
  a ⇐ get_st;
  if negb (effects_enabled a) || negb (aggregation_inputs_ready a) then ret tt else send InputsReady.

Definition publish_aggregation_resumed : Mon () :=
  corr ⇐ new_correlation_id;
  send (ResumeRequested corr).

(** *** aggregate_dkg_proofs.rs *)

(** The honest parties whose fold is held with a proof, ascending. *)
Definition honest_pairs (g : GeneratingC5Proof) : list (nat * Proof_) :=
  omap (λ '(pid, p), if bool_decide (pid ∈ g_honest_party_ids g) then (λ proof, (pid, proof)) <$> p else None)
    (btree_list (g_dkg_node_proofs g)).

Definition all_honest_present (g : GeneratingC5Proof) : bool :=
  forallb (λ id, bool_decide (is_Some (g_dkg_node_proofs g !! id))) (elements (g_honest_party_ids g)).

Definition some_count (g : GeneratingC5Proof) : nat :=
  length (List.filter (λ id, match g_dkg_node_proofs g !! id with Some (Some _) => true | _ => false end)
            (elements (g_honest_party_ids g))).

(** The full committee, ascending. *)
Definition full_committee (g : GeneratingC5Proof) : list nat := (btree_list (g_party_nodes g)).*1.

Definition try_dispatch_dkg_aggregation : Mon () :=
  a ⇐ get_st;
  match p_data (state a) with
  | Some (SGeneratingC5Proof g) =>
      match g_c5_proof_pending g with
      | None => ret tt
      | Some c5_proof =>
          if bool_decide (is_Some (g_dkg_aggregation_correlation g)) || bool_decide (is_Some (g_dkg_aggregated_proof g))
          then ret tt
          else if negb (all_honest_present g) then ret tt
          else if negb (some_count g =? 0) && negb (some_count g =? size (g_honest_party_ids g)) then ret tt
          else if length (honest_pairs g) =? 0 then ret tt
          else if negb (g_nodes_fold_completed_slots g =? size (g_honest_party_ids g)) then ret tt
          else
            addresses ⇐ lift (committee_addresses_in_party_order (full_committee g) (g_party_nodes g));
            corr ⇐ new_correlation_id;
            send (DkgAggregationRequested corr
                    (mkDkgRequest (honest_pairs g).*2 (g_nodes_fold_accumulator g) c5_proof (honest_pairs g).*1 addresses)) ;;
            mutate_state (λ s, Ok (on_generating (set_dkg_corr (Some corr)) s))
      end
  | _ => ret tt
  end.

(** *** fold_node_proofs.rs *)

Definition try_dispatch_nodes_fold_step : Mon () :=
  a ⇐ get_st;
  match p_data (state a) with
  | Some (SGeneratingC5Proof g) =>
      if bool_decide (is_Some (g_nodes_fold_step_correlation g)) ||
         bool_decide (is_Some (g_dkg_aggregation_correlation g)) ||
         bool_decide (is_Some (g_dkg_aggregated_proof g)) then ret tt
      else
        let next_slot := g_nodes_fold_completed_slots g in
        let total_slots := size (g_honest_party_ids g) in
        if total_slots <=? next_slot then try_dispatch_dkg_aggregation
        else match btree_set (g_honest_party_ids g) !! next_slot with
        | None => ret tt
        | Some party_id =>
            match g_dkg_node_proofs g !! party_id with
            | Some (Some inner_proof) =>
                corr ⇐ new_correlation_id;
                send (NodesFoldStepRequested corr inner_proof (g_nodes_fold_accumulator g) next_slot total_slots) ;;
                mutate_state (λ s, Ok (on_generating (λ g,
                  set_fold_step (g_nodes_fold_accumulator g) (g_nodes_fold_completed_slots g) (Some corr) g) s))
            | _ => ret tt
            end
        end
  | _ => ret tt
  end.

Definition handle_nodes_fold_step_response (correlation_id : Z) (accumulator_proof : Proof_) : Mon () :=
  a ⇐ get_st;
  match p_data (state a) with
  | Some (SGeneratingC5Proof g) =>
      if negb (bool_decide (g_nodes_fold_step_correlation g = Some correlation_id)) then ret tt
      else
        let completed := g_nodes_fold_completed_slots g + 1 in
        ec ⇐ ok_or (g_last_ec g) NoEventContext;
        mutate_state (λ s, Ok (on_generating (set_fold_step (Some accumulator_proof) completed None) s)) ;;
        try_dispatch_nodes_fold_step
  | _ => ret tt
  end.

(** *** publish_result.rs *)

Definition all_proofs_are_none (g : GeneratingC5Proof) : bool :=
  all_honest_present g && forallb (λ kv, bool_decide (kv.2 = None)) (map_to_list (g_dkg_node_proofs g)).

(** The public inputs of the stand-in proof when recursive aggregation is off. *)
Definition mock_dkg_inputs (honest : list nat) (committee_addresses : list Address) (pk_commitment : Bytes) : Bytes :=
  let h := length honest in
  let zero := replicate 32 0%Z in
  let limbs := committee_hash_limbs_from_addresses committee_addresses in
  let inputs := replicate (6 + 3 * h) zero in
  let inputs := foldl (λ l '(slot, party), <[2 + slot := to_be_bytes 32 (Z.of_nat party)]> l) inputs (imap pair honest) in
  let inputs := <[3 + h := to_be_bytes 32 (hi limbs)]> inputs in
  let inputs := <[4 + h := to_be_bytes 32 (lo limbs)]> inputs in
  concat (<[5 + 3 * h := pk_commitment]> inputs).

Definition published_dkg_proof (g : GeneratingC5Proof) (c5_proof : Proof_) (committee_addresses : list Address)
    (pk_commitment : Bytes) : option Proof_ :=
  match g_dkg_aggregated_proof g with
  | Some proof => Some proof
  | None =>
      if all_proofs_are_none g
      then Some (mkProof DkgAggregator (data c5_proof)
             (mock_dkg_inputs (btree_set (g_honest_party_ids g)) committee_addresses pk_commitment))
      else None
  end.

Definition attestation_bundle (g : GeneratingC5Proof) : result (option Bytes) PkError :=
  match g_dkg_aggregated_proof g with
  | Some _ =>
      match encode_dkg_attestation_bundle bundle_abi (btree_set (g_honest_party_ids g)) (g_party_nodes g)
              (g_dkg_fold_attestations g) with
      | Ok b => Ok (Some b)
      | Err e => Err (BundleFailed e)
      end
  | None => Ok (Some [1%Z])
  end.

Definition set_publication (event : PublicKeyAggregated) (ec : EventContext) (r : Recovery) : Recovery :=
  mkRecovery (schema_version r) (Some event) (selected_roster r) (Some ec) (r_started_as_aggregator r).

Definition publish_complete (g : GeneratingC5Proof) (c5_proof : Proof_) : Mon () :=
  ec ⇐ ok_or (g_last_ec g) NoEventContext;
  pk_commitment ⇐ lift (extract_pk_commitment c5_proof);
  committee_addresses ⇐ lift (committee_addresses_in_party_order (full_committee g) (g_party_nodes g));
  honest ⇐ lift (committee_addresses_in_party_order (btree_set (g_honest_party_ids g)) (g_party_nodes g));
  bundle ⇐ lift (attestation_bundle g);
  let event := mkPkAggregated (g_public_key g) (g_nodes g) committee_addresses honest pk_commitment
                 (published_dkg_proof g c5_proof committee_addresses pk_commitment) bundle in
  mutate_recovery (set_publication event ec) ;;
  send (PublicKeyPublished event) ;;
  mutate_state (λ _, Ok (SComplete (mkComplete (g_public_key g) ∅ (g_nodes g) committee_addresses honest))).

Definition try_publish_complete : Mon () :=
  a ⇐ get_st;
  match p_data (state a) with
  | Some (SGeneratingC5Proof g) => match g_last_ec g with Some _ => try_dispatch_dkg_aggregation | None => ret tt end
  | _ => ret tt
  end ;;
  a ⇐ get_st;
  s ⇐ ok_or (p_data (state a)) UnexpectedState;
  match s with
  | SGeneratingC5Proof g =>
      match g_c5_proof_pending g with
      | None => ret tt
      | Some c5_proof =>
          if negb (all_proofs_are_none g) && negb (bool_decide (is_Some (g_dkg_aggregated_proof g))) then ret tt
          else publish_complete g c5_proof
      end
  | _ => ret tt
  end.

(** *** aggregate_public_key.rs *)

Definition buffer_replayed_c5_proof (msg : PkAggregationProofSigned) (ec : EventContext) : Mon () :=
  a ⇐ get_st;
  if negb (bool_decide (cs_e3_id msg = a_e3_id (params a))) || negb (bool_decide (source ec = Local_)) ||
     key_published a ||
     negb match p_data (state a) with
          | Some (SCollecting _ | SVerifyingC1 _ | SGeneratingC5Proof _) => true
          | _ => false
          end then ret tt
  else modify (set_replayed_c5 (Some msg)).

Definition take_replayed_c5_proof (keyshares : list Bytes) : Mon (option PkAggregationProofSigned) :=
  a ⇐ get_st;
  match replayed_c5_proof a with
  | None => ret None
  | Some replayed =>
      modify (set_replayed_c5 None) ;;
      let p := payload (cs_signed_proof replayed) in
      if negb (bool_decide (pp_e3_id p = a_e3_id (params a))) || negb (bool_decide (pp_proof_type p = C5PkAggregation)) ||
         negb (c5_proof_matches_keyshares (pp_proof p) keyshares) then ret None
      else ret (Some replayed)
  end.

Definition handle_pk_aggregation_proof_signed (msg : PkAggregationProofSigned) (ec : EventContext) : Mon () :=
  a ⇐ get_st;
  if negb (bool_decide (cs_e3_id msg = a_e3_id (params a))) then ret tt
  else match p_data (state a) with
  | Some (SComplete _) => ret tt
  | Some (SGeneratingC5Proof _) =>
      mutate_state (λ s, Ok (on_generating (set_c5 (Some (pp_proof (payload (cs_signed_proof msg)))) (Some ec)) s)) ;;
      try_publish_complete
  | _ => fail UnexpectedState
  end.

(** Whether the fold of an honest party is accepted. *)
Definition fold_acceptable (a : Aggregator) (g : GeneratingC5Proof) (msg : DKGRecursiveAggregationComplete) : bool :=
  match g_party_nodes g !! df_party_id msg with
  | None => false
  | Some expected_node =>
      match aggregated_proof msg, fold_attestation msg with
      | None, None => true
      | Some proof, Some attestation =>
          match dkg_fold_attestation_context a with
          | None => false
          | Some context =>
              if (g_circuit_n g =? 0) || (g_circuit_h g =? 0) then false
              else is_ok (verify_dkg_fold_attestation (a_e3_id (params a)) (df_party_id msg) proof attestation context
                            expected_node (g_circuit_n g) (g_circuit_h g) (num_moduli (params_preset (params a))))
          end
      | _, _ => false
      end
  end.

Definition store_fold (msg : DKGRecursiveAggregationComplete) (ec : EventContext) (g : GeneratingC5Proof)
    : GeneratingC5Proof :=
  set_folds (<[df_party_id msg := aggregated_proof msg]> (g_dkg_node_proofs g))
    match fold_attestation msg with
    | Some att => <[df_party_id msg := att]> (g_dkg_fold_attestations g)
    | None => g_dkg_fold_attestations g
    end (Some ec) g.

Definition handle_dkg_recursive_aggregation_complete (msg : DKGRecursiveAggregationComplete) (ec : EventContext) : Mon () :=
  a ⇐ get_st;
  if negb (bool_decide (df_e3_id msg = a_e3_id (params a))) then ret tt
  else match p_data (state a) with
  | Some (SGeneratingC5Proof g) =>
      if bool_decide (is_Some (g_dkg_node_proofs g !! df_party_id msg)) then ret tt
      else if bool_decide (df_party_id msg ∈ g_honest_party_ids g) && negb (fold_acceptable a g msg) then ret tt
      else
        mutate_state (λ s, Ok (on_generating (store_fold msg ec) s)) ;;
        a ⇐ get_st;
        if can_continue_aggregation_effects a then try_dispatch_nodes_fold_step else ret tt
  | _ =>
      if existsb (λ early, (ctx_id early.2 =? ctx_id ec)%Z) (early_dkg_proofs a) then ret tt
      else modify (λ a, set_early_folds (early_dkg_proofs a ++ [(msg, ec)]) a)
  end.

(** *** verify_key_proofs.rs *)

Definition add_keyshare (keyshare : Bytes) (node : string) (party_id : nat) (c1_proof : option SignedProofPayload)
    : Mon () :=
  a ⇐ get_st;
  match p_data (state a) with
  | Some (SVerifyingC1 _ | SGeneratingC5Proof _ | SComplete _) => ret tt
  | _ =>
      rec ⇐ p_try_get (T:=Recovery) PersistFailed;
      mutate_state (λ s, add_keyshare_transition s keyshare node party_id c1_proof (selected_roster rec))
  end.

(** The C1 verification request of the selected keyshares, and the parties without a proof. *)
Definition c1_verification_request (a : Aggregator) : option (ShareVerificationDispatched * list nat) :=
  match p_data (state a) with
  | Some (SVerifyingC1 v) =>
      let dispatch := plan_c1_dispatch (v_submission_order v) (v_c1_proofs v) in
      Some (c1_request dispatch (a_e3_id (params a)) (params_preset (params a)) (committee_size (params a)),
            no_proof_parties dispatch)
  | _ => None
  end.

Definition c1_request_id (a : Aggregator) : option B256 := (λ r, request_hash r.1) <$> c1_verification_request a.

Definition holds_c1_verification (a : Aggregator) : bool :=
  match c1_request_id a with
  | Some id => bool_decide (is_Some (early_c1_verifications a !! id))
  | None => false
  end.

Definition store_no_proof (parties : list nat) (s : State) : State :=
  match s with
  | SVerifyingC1 v => SVerifyingC1 (mkVerifyingC1 (v_submission_order v) (v_threshold_m v) (v_circuit_n v)
      (v_circuit_h v) (v_c1_proofs v) parties (v_canonical_party_nodes v))
  | _ => s
  end.

Definition dispatch_c1_verification (request : ShareVerificationDispatched) (no_proof : list nat) : Mon () :=
  mark_started_as_aggregator ;;
  (if negb (length no_proof =? 0) then mutate_state (λ s, Ok (store_no_proof no_proof s)) else ret tt) ;;
  ensure (negb (length (share_proofs request) =? 0)) NoC1Proofs ;;
  send (C1VerificationRequested request).

(** Report each mismatched proof whose signer is known; a refused report is logged. *)
Definition report_mismatches (l : list (nat * SignedProofPayload)) : Mon () :=
  for_each l (λ '(_, signed),
    match recover_address signed with
    | Some faulting_node => attempt (send (SignedProofFailed faulting_node signed))
    | None => ret tt
    end).

(** The state after C1. *)
Definition generating (v : VerifyingC1) (pubkey : Bytes) (entries : list Entry) (ids dishonest : gset nat)
    (ec : EventContext) : GeneratingC5Proof :=
  mkGenerating pubkey ((λ e : Entry, e.1.2) <$> entries) (list_to_set ((λ e : Entry, e.1.1.2) <$> entries))
    (v_canonical_party_nodes v) ∅ ∅ ids dishonest (v_circuit_n v) (v_circuit_h v) None None None (Some ec) None 0 None.

Definition apply_c1_verification (dishonest_parties : gset nat) (ec : EventContext) : Mon () :=
  a ⇐ get_st;
  v ⇐ match p_data (state a) with Some (SVerifyingC1 v) => ret v | _ => fail UnexpectedState end;
  let honest_entries := List.filter (λ e : Entry, bool_decide (entry_id e ∉ dishonest_parties))
                          (zip (v_submission_order v) (v_c1_proofs v)) in
  let audit := check_c1_keyshare_commitments honest_entries in
  let dishonest := dishonest_parties ∪ list_to_set (missing_proof audit) ∪ list_to_set (mismatched audit).*1 in
  report_mismatches (mismatched audit) ;;
  let honest_entries :=
    if length (mismatched audit) =? 0 then honest_entries
    else List.filter (λ e : Entry, bool_decide (entry_id e ∉ dishonest)) honest_entries in
  match select_honest_set honest_entries (v_circuit_h v) (v_threshold_m v) with
  | SelectionFail => send (E3Failed DKGInvalidShares)
  | SelectionProceed entries ids =>
      let keyshare_bytes := (λ e : Entry, e.1.2) <$> entries in
      let nodes := list_to_set ((λ e : Entry, e.1.1.2) <$> entries) in
      pubkey ⇐ ok_or (get_aggregate_public_key (list_to_set keyshare_bytes)) AggregationFailed;
      replayed ⇐ take_replayed_c5_proof keyshare_bytes;
      match replayed with
      | None => send (C5ProofRequested (mkC5Request keyshare_bytes pubkey (v_circuit_n v) (length keyshare_bytes)
                        (v_threshold_m v)) pubkey nodes)
      | Some _ => ret tt
      end ;;
      ensure (size (v_canonical_party_nodes v) =? v_circuit_n v) WrongCommitteeSize ;;
      mutate_state (λ _, Ok (SGeneratingC5Proof (generating v pubkey entries ids dishonest ec))) ;;
      a ⇐ get_st;
      let early := early_dkg_proofs a in
      modify (set_early_folds []) ;;
      for_each early (λ '(msg, ec), handle_dkg_recursive_aggregation_complete msg ec) ;;
      try_dispatch_dkg_aggregation ;;
      match replayed with
      | Some c5 => handle_pk_aggregation_proof_signed c5 ec
      | None => ret tt
      end
  end.

Definition continue_c1_verification (ec : EventContext) : Mon () :=
  a ⇐ get_st;
  match c1_verification_request a with
  | None => ret tt
  | Some (request, no_proof) =>
      let verification := early_c1_verifications a !! request_hash request in
      modify (set_early_c1 ∅) ;;
      match verification with
      | None => dispatch_c1_verification request no_proof
      | Some verification =>
          if key_published a then ret tt else apply_c1_verification (dishonest_parties verification) ec
      end
  end.

Definition buffer_c1_verification (msg : ShareVerificationComplete) (ec : EventContext) : Mon () :=
  a ⇐ get_st;
  match early_c1_verifications a !! causation_id ec with
  | Some existing => ensure (bool_decide (dishonest_parties existing = dishonest_parties msg)) ConflictingC1Results
  | None => modify (λ a, set_early_c1 (<[causation_id ec := msg]> (early_c1_verifications a)) a)
  end.

Definition buffer_replayed_c1_verification (msg : ShareVerificationComplete) (ec : EventContext) : Mon () :=
  a ⇐ get_st;
  if negb (bool_decide (svc_kind msg = PkGenerationProofs)) || negb (bool_decide (svc_e3_id msg = a_e3_id (params a))) ||
     negb (bool_decide (source ec = Local_)) || key_published a ||
     negb match p_data (state a) with Some (SCollecting _ | SVerifyingC1 _) => true | _ => false end then ret tt
  else
    buffer_c1_verification msg ec ;;
    record_started_as_aggregator.

Definition handle_c1_verification_complete (msg : ShareVerificationComplete) (ec : EventContext) : Mon () :=
  a ⇐ get_st;
  if negb (bool_decide (svc_kind msg = PkGenerationProofs)) || negb (bool_decide (svc_e3_id msg = a_e3_id (params a))) ||
     negb (bool_decide (source ec = Local_)) then ret tt
  else if key_published a then ret tt
  else match p_data (state a) with
  | Some (SCollecting _) => buffer_c1_verification msg ec
  | Some (SGeneratingC5Proof _ | SComplete _) => ret tt
  | Some (SVerifyingC1 _) =>
      if bool_decide (c1_request_id a = Some (causation_id ec)) then apply_c1_verification (dishonest_parties msg) ec
      else ret tt
  | None => fail UnexpectedState
  end.

Definition set_roster (selected : gset nat) (ec : EventContext) (r : Recovery) : Recovery :=
  mkRecovery (schema_version r) (pending_publication r) (Some selected) (Some ec) (r_started_as_aggregator r).

(** Move on with the selected roster, and verify once its keyshares are complete. *)
Definition advance_with_roster (selected : gset nat) (ec : EventContext) : Mon () :=
  a ⇐ get_st;
  let was_ready := aggregation_inputs_ready a in
  mutate_state (λ s, begin_selected_c1 s (Some selected)) ;;
  a ⇐ get_st;
  if negb was_ready && aggregation_inputs_ready a then
    publish_inputs_ready ;;
    a ⇐ get_st;
    if can_run_aggregation_effects a then continue_c1_verification ec else ret tt
  else ret tt.

Definition accept_dkg_roster (e3 : E3id) (party_ids : list nat) (ec : EventContext) : Mon () :=
  a ⇐ get_st;
  if negb (bool_decide (e3 = a_e3_id (params a))) then ret tt
  else
    let selected : gset nat := list_to_set party_ids in
    let committee := values (committee_size (params a)) in
    ensure ((size selected =? cc_h committee) && bool_decide (party_ids = btree_set selected) &&
            forallb (λ id, id <? cc_n committee) (btree_set selected)) InvalidRoster ;;
    rec ⇐ p_try_get (T:=Recovery) PersistFailed;
    match selected_roster rec with
    | Some existing =>
        if bool_decide (existing = selected) then advance_with_roster selected ec
        else if negb (is_collecting a) then ret tt
        else mutate_recovery (set_roster selected ec) ;; advance_with_roster selected ec
    | None => mutate_recovery (set_roster selected ec) ;; advance_with_roster selected ec
    end.

(** *** recovery.rs *)

Definition start_c1_verification (ec : EventContext) : Mon () :=
  a ⇐ get_st;
  if holds_c1_verification a then publish_aggregation_resumed else continue_c1_verification ec.

Definition clear_publication (r : Recovery) : Recovery :=
  mkRecovery (schema_version r) None (selected_roster r) (r_last_ec r) (r_started_as_aggregator r).

Definition forget_saved_publication : Mon () :=
  a ⇐ get_st;
  match p_data (recovery a) with
  | Some r => match pending_publication r with
              | Some _ => mutate_recovery clear_publication
              | None => ret tt
              end
  | None => ret tt
  end.

(** Ask for the C5 proof again, unless a replayed one fits. *)
Definition resume_c5 (g : GeneratingC5Proof) : Mon () :=
  replayed ⇐ take_replayed_c5_proof (g_keyshare_bytes g);
  match g_c5_proof_pending g with
  | Some _ => ret tt
  | None =>
      match replayed with
      | Some c5 => modify (set_replayed_c5 (Some c5)) ;; publish_aggregation_resumed
      | None =>
          a ⇐ get_st;
          send (C5ProofRequested (mkC5Request (g_keyshare_bytes g) (g_public_key g) (g_circuit_n g) (g_circuit_h g)
                  (cc_threshold (values (committee_size (params a))))) (g_public_key g) (g_nodes g))
      end
  end.

(** The correlations name workers of the process that is gone. *)
Definition forget_workers (s : State) : State :=
  on_generating (λ g, set_dkg_corr None
    (set_fold_step (g_nodes_fold_accumulator g) (g_nodes_fold_completed_slots g) None g)) s.

Definition resume_phase (s : State) (ec : EventContext) : Mon () :=
  match s with
  | SVerifyingC1 _ => start_c1_verification ec
  | SGeneratingC5Proof g =>
      mutate_state (λ s, Ok (forget_workers s)) ;;
      resume_c5 g ;;
      try_dispatch_nodes_fold_step ;;
      try_publish_complete
  | _ => ret tt
  end.

(** A collecting aggregator first tries the selected roster. *)
Definition resume_collection (r : Recovery) : Mon () :=
  a ⇐ get_st;
  match p_data (state a), selected_roster r with
  | Some (SCollecting _), Some selected =>
      mutate_state (λ s, begin_selected_c1 s (Some selected)) ;; publish_inputs_ready
  | _, _ => ret tt
  end.

Definition resume_in_flight_work (ec : EventContext) : Mon () :=
  rec ⇐ p_try_get (T:=Recovery) PersistFailed;
  ensure (schema_version rec =? PUBLIC_KEY_AGGREGATOR_RECOVERY_SCHEMA_VERSION) (UnsupportedSchema (schema_version rec)) ;;
  resume_collection rec ;;
  a ⇐ get_st;
  match p_data (state a) with
  | None => ret tt
  | Some (SComplete _) =>
      match pending_publication rec with
      | Some publication => send (PublicKeyPublished publication)
      | None => ret tt
      end
  | Some s =>
      if negb (can_run_aggregation_effects a ||
               ((aggregation_started s || started_as_aggregator a) && can_continue_aggregation_effects a)) then ret tt
      else
        mark_started_as_aggregator ;;
        resume_phase s ec
  end.

Definition handle_aggregation_resume (e3 : E3id) (phase : AggregationPhase) (ec : EventContext) : Mon () :=
  a ⇐ get_st;
  if negb (bool_decide (e3 = a_e3_id (params a))) || negb (bool_decide (phase = PublicKeyPhase)) ||
     negb (bool_decide (source ec = Local_)) || negb (can_continue_aggregation_effects a) then ret tt
  else match p_data (state a) with
  | Some (SVerifyingC1 _) => if holds_c1_verification a then continue_c1_verification ec else ret tt
  | Some (SGeneratingC5Proof g) =>
      c5 ⇐ take_replayed_c5_proof (g_keyshare_bytes g);
      match c5 with
      | Some c5 => handle_pk_aggregation_proof_signed c5 ec
      | None => ret tt
      end
  | _ => ret tt
  end.

(** The folds of the E3's history, offered to the actor that is being restored. *)
Definition recover_dkg_folds (history : list (DKGRecursiveAggregationComplete * EventContext)) : Mon () :=
  a ⇐ get_st;
  match p_data (state a) with
  | Some (SCollecting _ | SVerifyingC1 _) =>
      for_each history (λ '(fold, ec), handle_dkg_recursive_aggregation_complete fold ec)
  | Some (SGeneratingC5Proof g) =>
      if all_honest_present g then ret tt
      else
        p_stage (T:=State) ;;
        for_each history (λ '(fold, ec),
          if bool_decide (is_Some (g_dkg_node_proofs g !! df_party_id fold)) then ret tt
          else handle_dkg_recursive_aggregation_complete fold ec) ;;
        s ⇐ p_try_get (T:=State) PersistFailed;
        call (PersistFailed StoreRefused) ;;
        modify (λ a, fset (mkPersistable (p_data (state a)) (Some s) true) a) ;;
        call (PersistFailed StoreRefused) ;;
        modify (fset (mkPersistable (Some s) (Some s) false))
  | _ => ret tt
  end.

(** *** effects/mod.rs *)

Definition handle_member_expelled (node : Address) (ec : EventContext) : Mon () :=
  a ⇐ get_st;
  if key_published a then ret tt
  else
    rec ⇐ p_try_get (T:=Recovery) PersistFailed;
    let selected_member_expelled :=
      match p_data (state a) ≫= λ s, party_id_for_node s node with
      | Some party_id => match selected_roster rec with
                         | Some selected => bool_decide (party_id ∈ selected)
                         | None => false
                         end
      | None => false
      end in
    if selected_member_expelled then send (E3Failed InsufficientCommitteeMembers)
    else
      let was_collecting := is_collecting a in
      mutate_state (λ s, Ok (member_expelled_transition s node)) ;;
      a ⇐ get_st;
      (if was_collecting && aggregation_inputs_ready a then publish_inputs_ready else ret tt) ;;
      if was_collecting && can_run_aggregation_effects a then continue_c1_verification ec else ret tt.

(** *** handle_compute_results.rs *)

Inductive ComputeResponse :=
| NodesFoldStepResponse (accumulator_proof : Proof_)
| DkgAggregationResponse (proof : Proof_)
| OtherResponse.

Definition accept_dkg_proof (correlation_id : Z) (proof : Proof_) (g : GeneratingC5Proof) : GeneratingC5Proof :=
  if bool_decide (g_dkg_aggregation_correlation g = Some correlation_id)
  then set_dkg_proof (Some proof) (set_dkg_corr None g) else g.

Definition handle_compute_response (e3 : E3id) (correlation_id : Z) (response : ComputeResponse) : Mon () :=
  a ⇐ get_st;
  if negb (bool_decide (e3 = a_e3_id (params a))) then ret tt
  else match response with
  | NodesFoldStepResponse proof => handle_nodes_fold_step_response correlation_id proof
  | DkgAggregationResponse proof =>
      match p_data (state a) with
      | Some (SGeneratingC5Proof g) =>
          _ ⇐ ok_or (g_last_ec g) NoEventContext;
          mutate_state (λ s, Ok (on_generating (accept_dkg_proof correlation_id proof) s)) ;;
          try_publish_complete
      | _ => ret tt
      end
  | OtherResponse => ret tt
  end.

(** *** handlers.rs *)

Inductive Message :=
| MKeyshareCreated (data : KeyshareCreated)
| MCommitmentRosterSelected (e3 : E3id) (party_ids : list nat)
| MShareVerificationComplete (msg : ShareVerificationComplete)
| MPkAggregationProofSigned (msg : PkAggregationProofSigned)
| MDKGRecursiveAggregationComplete (msg : DKGRecursiveAggregationComplete)
| MComputeResponse (e3 : E3id) (correlation_id : Z) (response : ComputeResponse)
| MComputeRequestError (e3 : E3id) (correlation_id : Z)
| MDkgFoldAttestationContextEstablished (e3 : E3id) (context : DkgFoldAttestationContext)
| MAggregatorChanged (e3 : E3id) (is_aggregator : bool)
| MEffectsEnabled
| MAggregationResumed (e3 : E3id) (phase : AggregationPhase)
| ME3RequestComplete
| MShutdown
| MCommitteePublished (e3 : E3id)
| ME3StageChanged (e3 : E3id) (stage : E3Stage)
| MCommitteeMemberExpelled (e3 : E3id) (node : Address) (party_id : option nat)
| MCommitteeMemberExcluded (e3 : E3id) (node : Address) (party_id : option nat)
| MCommitteeFinalized (committee : list string)
| MOther.

Definition die : Mon () :=
  modify (λ a, with_role (is_aggregator a) (started_as_aggregator a) (effects_enabled a) (key_published a) true a).

Definition handle_keyshare_created (event : KeyshareCreated) (ec : EventContext) : Mon () :=
  a ⇐ get_st;
  if negb (bool_decide (kc_e3_id event = a_e3_id (params a))) then ret tt
  else
    let was_ready := aggregation_inputs_ready a in
    add_keyshare (kc_pubkey event) (kc_node event) (kc_party_id event) (signed_pk_generation_proof event) ;;
    a ⇐ get_st;
    let became_ready := negb was_ready && aggregation_inputs_ready a in
    (if became_ready then publish_inputs_ready else ret tt) ;;
    a ⇐ get_st;
    if became_ready && (can_run_aggregation_effects a || (holds_c1_verification a && can_continue_aggregation_effects a))
    then start_c1_verification ec else ret tt.

Definition handle_aggregator_changed (e3 : E3id) (value : bool) (ec : EventContext) : Mon () :=
  a ⇐ get_st;
  if negb (bool_decide (e3 = a_e3_id (params a))) || Bool.eqb value (is_aggregator a) then ret tt
  else
    modify (λ a, with_role value (started_as_aggregator a) (effects_enabled a) (key_published a) (stopped a) a) ;;
    a ⇐ get_st;
    if can_run_aggregation_effects a then resume_in_flight_work ec else ret tt.

Definition handle_effects_enabled (ec : EventContext) : Mon () :=
  modify (λ a, with_role (is_aggregator a) (started_as_aggregator a) true (key_published a) (stopped a) a) ;;
  publish_inputs_ready ;;
  resume_in_flight_work ec.

Definition handle_removal (e3 : E3id) (node : Address) (party_id : option nat) (ec : EventContext) : Mon () :=
  a ⇐ get_st;
  match party_id with
  | Some _ => ret tt
  | None => if negb (bool_decide (e3 = a_e3_id (params a))) then ret tt else handle_member_expelled node ec
  end.

Definition dispatch (msg : Message) (ec : EventContext) : Mon () :=
  a ⇐ get_st;
  match msg with
  | MKeyshareCreated data => handle_keyshare_created data ec
  | MCommitmentRosterSelected e3 party_ids => accept_dkg_roster e3 party_ids ec
  | MShareVerificationComplete msg =>
      if negb (effects_enabled a) then buffer_replayed_c1_verification msg ec
      else if negb (can_continue_aggregation_effects a) then ret tt
      else handle_c1_verification_complete msg ec
  | MPkAggregationProofSigned msg =>
      if negb (effects_enabled a) then buffer_replayed_c5_proof msg ec
      else if negb (can_continue_aggregation_effects a) then ret tt
      else handle_pk_aggregation_proof_signed msg ec
  | MDKGRecursiveAggregationComplete msg => handle_dkg_recursive_aggregation_complete msg ec
  | MComputeResponse e3 correlation_id response =>
      if negb (can_continue_aggregation_effects a) then ret tt else handle_compute_response e3 correlation_id response
  | MComputeRequestError _ _ => ret tt
  | MDkgFoldAttestationContextEstablished e3 context =>
      if bool_decide (e3 = a_e3_id (params a)) then modify (with_context (Some context)) else ret tt
  | MAggregatorChanged e3 value => handle_aggregator_changed e3 value ec
  | MEffectsEnabled => handle_effects_enabled ec
  | MAggregationResumed e3 phase => handle_aggregation_resume e3 phase ec
  | ME3RequestComplete => die
  | MCommitteePublished e3 =>
      if bool_decide (e3 = a_e3_id (params a)) then
        modify (observe_stage KeyPublished) ;; forget_saved_publication
      else ret tt
  | ME3StageChanged e3 stage =>
      if negb (bool_decide (e3 = a_e3_id (params a))) then ret tt
      else if is_terminal stage then die else modify (observe_stage stage)
  | MCommitteeMemberExpelled e3 node party_id | MCommitteeMemberExcluded e3 node party_id =>
      handle_removal e3 node party_id ec
  | MShutdown | MCommitteeFinalized _ | MOther => ret tt
  end.

(** One message of the mailbox: a stopped actor takes none, and an error is reported. *)
Definition handle (msg : Message) (ec : EventContext) : Mon () :=
  a ⇐ get_st;
  if stopped a then ret tt else trap ErrorReported (dispatch msg ec).

(** *** ext.rs: creation, and restarts over the stored snapshots

    A restarted actor takes messages once its folds are restored. *)

Definition party_nodes_from_committee_addresses (committee_addresses : list Address) : gmap nat string :=
  list_to_map (imap (λ party_id node, (party_id, address_to_string node)) committee_addresses).

(** The reaction to the selection of this node for a finalized committee. *)
Definition create_aggregator (e3_id : E3id) (preset : BfvPreset) (threshold_n threshold_m : nat) (seed : Z)
    (committee : list string) (context : option DkgFoldAttestationContext) (is_active effects : bool)
    : result Aggregator PkError :=
  match mapM parse_address committee with
  | None => Err WrongCommitteeSize
  | Some addresses =>
      if negb (length addresses =? threshold_n) then Err WrongCommitteeSize
      else
        let? s := init threshold_n threshold_m seed (party_nodes_from_committee_addresses addresses) in
        match from_threshold threshold_m threshold_n with
        | None => Err (UnknownCommittee threshold_m threshold_n)
        | Some size =>
            Ok (new_aggregator (mkParams e3_id preset size) (mkPersistable (Some s) (Some s) false)
                  (mkPersistable (Some default_recovery) (Some default_recovery) false) context is_active
                  CommitteeFinalized effects)
        end
  end.

Definition restart (history : list (DKGRecursiveAggregationComplete * EventContext))
    (context : option DkgFoldAttestationContext) (initial_is_aggregator : bool) (initial_stage : E3Stage) : Mon () :=
  modify (λ a, new_aggregator (params a) (reload (state a)) (reload (recovery a)) context initial_is_aggregator
                 initial_stage false) ;;
  λ w, match recover_dkg_folds history w with
       | (Ok _, w') => (Ok tt, w')
       | (Err e, w') => ((die ;; fail e) : Mon ()) w'
       end.
End Effects.

(** ** keyshare_buffer.rs *)

Record FilterBuffer := mkFilterBuffer
  { committee : option (list string); buffer : list (Message * EventContext); expelled_nodes : gset Address }.

Definition new_filter_buffer : FilterBuffer := mkFilterBuffer None [] ∅.

Definition lower_le (a b : string) : Prop := string_le (to_lowercase a) (to_lowercase b).

Global Instance lower_le_dec a b : Decision (lower_le a b).
Proof. unfold lower_le. apply _. Defined.

(** [CommitteeFinalized::sort_by_address], the part that the filter keeps. *)
Definition sort_by_address (committee : list string) : list string := merge_sort lower_le committee.

Section Buffer.
Context `{AddressText}.

Definition committee_member_matches (committee : list string) (party_id : nat) (node : string) : bool :=
  match committee !! party_id ≫= parse_address with
  | None => false
  | Some expected => address_matches node expected
  end.

(** The keyshare of the member in its slot, and not of an expelled one. *)
Definition keyshare_passes (committee : list string) (expelled : gset Address) (data : KeyshareCreated) : bool :=
  committee_member_matches committee (kc_party_id data) (kc_node data) &&
  negb match parse_address (kc_node data) with
       | Some node => bool_decide (node ∈ expelled)
       | None => false
       end.

Definition keep_buffered (committee : list string) (expelled : gset Address) (msg : Message) : bool :=
  match msg with
  | MKeyshareCreated data => keyshare_passes committee expelled data
  | MCommitteeMemberExpelled _ _ party_id | MCommitteeMemberExcluded _ _ party_id => bool_decide (party_id = None)
  | ME3RequestComplete | MShutdown => true
  | _ => false
  end.

Definition process_buffered_events (b : FilterBuffer) : FilterBuffer * list (Message * EventContext) :=
  match committee b with
  | None => (b, [])
  | Some c => (mkFilterBuffer (Some c) [] (expelled_nodes b),
               List.filter (λ e, keep_buffered c (expelled_nodes b) e.1) (buffer b))
  end.

Definition drop_keyshares_of (node : Address) (buffered : list (Message * EventContext)) : list (Message * EventContext) :=
  List.filter (λ e, match e.1 with
                    | MKeyshareCreated share => negb (address_matches (kc_node share) node)
                    | _ => true
                    end) buffered.

(** The messages that are forwarded to the aggregator. *)
Definition buffer_handle (b : FilterBuffer) (msg : Message) (ec : EventContext)
    : FilterBuffer * list (Message * EventContext) :=
  match msg with
  | MKeyshareCreated data =>
      match committee b with
      | Some c => (b, if keyshare_passes c (expelled_nodes b) data then [(msg, ec)] else [])
      | None => (mkFilterBuffer None (buffer b ++ [(msg, ec)]) (expelled_nodes b), [])
      end
  | MCommitteeFinalized members =>
      process_buffered_events (mkFilterBuffer (Some (sort_by_address members)) (buffer b) (expelled_nodes b))
  | MCommitteeMemberExpelled _ node party_id | MCommitteeMemberExcluded _ node party_id =>
      match party_id with
      | Some _ => (b, [])
      | None =>
          if bool_decide (node ∈ expelled_nodes b) then (b, [])
          else (mkFilterBuffer (committee b) (drop_keyshares_of node (buffer b)) ({[node]} ∪ expelled_nodes b), [(msg, ec)])
      end
  | ME3RequestComplete | MShutdown => (mkFilterBuffer (committee b) [] (expelled_nodes b), [(msg, ec)])
  | _ => (b, [(msg, ec)])
  end.
End Buffer.
