(* ===== verification/PublicKeyInv.v ===== *)
(** * Selection of keyshares and the invariant of the key aggregation

    What the pure transitions of the public-key aggregation compute: the roster's submissions, the
    lowest honest parties and the audit of their C1 proofs. *)

From S2P Require Import Prelude Events CommitmentLinks NodeRegistry Actor Orchestration DkgAttestation PublicKeyAggregation.
Local Open Scope nat_scope.

(** ** Sorted lists of parties *)

Lemma dedup_strict l : StronglySorted lt l → dedup l = l.
Proof.
  induction 1 as [|x l Hs IH Hall]; [done|]. destruct l as [|y l]; [done|].
  change (dedup (x :: y :: l)) with (if x =? y then dedup (y :: l) else x :: dedup (y :: l)).
  apply Forall_cons_1 in Hall as [Hxy _]. destruct (Nat.eqb_spec x y); [lia|]. by rewrite IH.
Qed.

Lemma lt_le_sorted l : StronglySorted lt l → StronglySorted le l.
Proof. induction 1 as [|x l _ IH Hall]; constructor; [done|]. eapply Forall_impl; [done|]. cbn. lia. Qed.

Lemma merge_sort_id l : StronglySorted lt l → merge_sort le l = l.
Proof.
  intros Hs. apply (StronglySorted_unique_strong le).
  - intros x y _ _ ? ?. lia.
  - apply (StronglySorted_merge_sort le).
  - by apply lt_le_sorted.
  - apply merge_sort_Permutation.
Qed.

Lemma strict_NoDup l : StronglySorted lt l → NoDup l.
Proof.
  induction 1 as [|x l _ IH Hall]; constructor; [|done]. intros Hx. rewrite Forall_forall in Hall.
  specialize (Hall x Hx). lia.
Qed.

Lemma strict_take n l : StronglySorted lt l → StronglySorted lt (take n l).
Proof.
  intros Hs. revert n. induction Hs as [|x l _ IH Hall]; intros [|n]; cbn; try constructor; [done|].
  by apply Forall_take.
Qed.

(** A sorted list without repetitions is the iteration of its set. *)
Lemma btree_set_list l : StronglySorted lt l → btree_set (list_to_set l) = l.
Proof.
  intros Hs. unfold btree_set. rewrite <- (merge_sort_id l Hs) at 2.
  apply (StronglySorted_unique_strong le).
  - intros x y _ _ ? ?. lia.
  - apply (StronglySorted_merge_sort le).
  - apply (StronglySorted_merge_sort le).
  - rewrite !merge_sort_Permutation. by apply elements_list_to_set, strict_NoDup.
Qed.

Lemma size_list l : StronglySorted lt l → size (list_to_set (C:=gset nat) l) = length l.
Proof. intros Hs. by apply size_list_to_set, strict_NoDup. Qed.

(** ** The honest set *)

Abbreviation ids_of l := ((λ e : Entry, entry_id e) <$> l).

Global Instance entry_le_total : Total entry_le.
Proof. intros a b. unfold entry_le. lia. Qed.

Global Instance entry_le_trans : Transitive entry_le.
Proof. intros a b c. unfold entry_le. lia. Qed.

Lemma sorted_entries (l : list Entry) : NoDup (ids_of l) → StronglySorted lt (ids_of (merge_sort entry_le l)).
Proof.
  intros Hnd. apply sorted_strict.
  - assert (StronglySorted entry_le (merge_sort entry_le l)) as Hs by apply (StronglySorted_merge_sort entry_le).
    induction Hs as [|x l' _ IH Hall]; [constructor|]. rewrite fmap_cons. constructor; [done|].
    apply Forall_fmap. eapply Forall_impl; [done|]. done.
  - by rewrite merge_sort_Permutation.
Qed.

Lemma cap_sorted h l : StronglySorted lt l → cap_honest_party_ids h l = list_to_set (take h l).
Proof.
  intros Hs. unfold cap_honest_party_ids. cbn zeta. rewrite merge_sort_id, dedup_strict by done.
  destruct (Nat.ltb_spec h (length l)); [done|]. by rewrite take_ge.
Qed.

Lemma filter_prefix (l : list Entry) h : StronglySorted lt (ids_of l) →
  List.filter (λ e : Entry, bool_decide (entry_id e ∈ (list_to_set (take h (ids_of l)) : gset nat))) l = take h l.
Proof.
  intros Hs. revert h. induction l as [|e l IH]; intros h; [by rewrite take_nil|].
  rewrite fmap_cons in Hs. inversion Hs as [|? ? Hs' Hall]; subst. destruct h as [|h].
  { cbn [take]. clear. induction (e :: l) as [|x l' IH']; [done|]. cbn [List.filter].
    rewrite bool_decide_eq_false_2 by set_solver. done. }
  rewrite fmap_cons. cbn [take List.filter]. rewrite bool_decide_eq_true_2 by set_solver. f_equal.
  rewrite <- (IH Hs' h). apply filter_ext_in. intros x Hx%list_elem_of_In. apply bool_decide_ext.
  assert (entry_id x ≠ entry_id e); [|set_solver]. rewrite Forall_forall in Hall.
  specialize (Hall (entry_id x) (list_elem_of_fmap_2 _ _ _ Hx)). lia.
Qed.

(** The selection takes the [h] entries with the lowest ids, or fails. *)
Lemma select_spec (l : list Entry) h m : NoDup (ids_of l) →
  let sorted := merge_sort entry_le l in
  select_honest_set l h m =
  if (length l <? h) || (h <=? m) then SelectionFail
  else SelectionProceed (take h sorted) (list_to_set (ids_of (take h sorted))).
Proof.
  intros Hnd sorted. pose proof (sorted_entries l Hnd) as Hs. fold sorted in Hs.
  assert (length sorted = length l) as Hlen by (unfold sorted; by rewrite merge_sort_Permutation).
  unfold select_honest_set. cbn zeta. fold sorted. rewrite Hlen.
  destruct (Nat.ltb_spec (length l) h) as [Hlt|Hge]; cbn [orb]; [done|].
  rewrite cap_sorted by done. rewrite <- fmap_take.
  assert ((if h <? length l then List.filter (λ e : Entry, bool_decide (entry_id e ∈ (list_to_set (ids_of (take h sorted)) : gset nat))) sorted
           else sorted) = take h sorted) as ->.
  { destruct (Nat.ltb_spec h (length l)); [rewrite fmap_take; by apply filter_prefix|]. by rewrite take_ge by lia. }
  by rewrite length_take, Hlen, Nat.min_l by done.
Qed.

(** ** The invariant of the public-key aggregation

    What the aggregator keeps through every message, restart, refused publication and refused
    write: the submissions it verifies are those of the accepted roster, the keyshares it
    aggregates are proved by C1, the folds it streams are attested by the committee's nodes, and
    the steps of the DKG aggregation follow one another. *)

Section Inv.
Context `{AlloyOps} `{AddressText} `{PublicKeyOps}.
(** The E3 and its committee, in party order; the dealer rosters selected for it and the attestation
    contexts (registry and verifying contract) established for it during the run. *)
Context (ps : Params) (addrs : list Address) (rosters : list nat → Prop) (contexts : DkgFoldAttestationContext → Prop).

Local Abbreviation committee_of := (values (committee_size ps)).
Local Abbreviation N := (cc_n committee_of).
Local Abbreviation H' := (cc_h committee_of).
Local Abbreviation T' := (cc_threshold committee_of).
Local Abbreviation canon := (party_nodes_from_committee_addresses addrs).

(** A fold proof that the node of a slot attested: a statement for this E3, this slot, and the registry
    and contract of an established context, signed by the committee member of the slot, over the
    party and the commitments that the proof itself outputs. *)
Definition attested (party : nat) (proof : Proof_) : Prop :=
  ∃ att context address, contexts context ∧ addrs !! party = Some address ∧
    fp_e3_id (fa_payload att) = a_e3_id ps ∧ fp_party_id (fa_payload att) = party ∧
    fp_registry (fa_payload att) = fc_registry context ∧
    fp_verifying_contract (fa_payload att) = fc_verifying_contract context ∧
    fold_recover_address att = Some address ∧
    extract_node_fold_agg_commits proof N H' (num_moduli (params_preset ps)) = Some (party, fp_agg_commits (fa_payload att)).

(** The keyshares of the aggregate key, each proved by a C1 proof that commits to it. *)
Definition keyshares_ok (keyshares : list Bytes) : Prop :=
  ∃ proofs, length keyshares = H' ∧ Forall2 (λ ks sp, c1_matches ks sp = true) keyshares proofs.

Definition roster_ok (R : gset nat) : Prop := size R = H' ∧ (∀ p, p ∈ R → p < N) ∧ rosters (btree_set R).

(** The C5 proof and every fold are there. *)
Definition ready (g : GeneratingC5Proof) : Prop :=
  is_Some (g_c5_proof_pending g) ∧ g_nodes_fold_completed_slots g = H'.

(** The folds of the slots that were streamed. *)
Definition streamed (g : GeneratingC5Proof) (slots : nat) : Prop :=
  ∀ i p, i < slots → btree_set (g_honest_party_ids g) !! i = Some p → ∃ π, g_dkg_node_proofs g !! p = Some (Some π).

Record gen_ok (g : GeneratingC5Proof) : Prop := {
  gen_nodes : g_party_nodes g = canon;
  gen_n : g_circuit_n g = N;
  gen_h : g_circuit_h g = H';
  gen_roster : roster_ok (g_honest_party_ids g);
  gen_keyshares : keyshares_ok (g_keyshare_bytes g);
  gen_key : get_aggregate_public_key (list_to_set (g_keyshare_bytes g)) = Some (g_public_key g);
  gen_folds : ∀ p π, p ∈ g_honest_party_ids g → g_dkg_node_proofs g !! p = Some (Some π) → attested p π;
  gen_slots : g_nodes_fold_completed_slots g ≤ H';
  gen_streamed : streamed g (g_nodes_fold_completed_slots g);
  gen_acc : g_nodes_fold_accumulator g = None ↔ g_nodes_fold_completed_slots g = 0;
  gen_step : is_Some (g_nodes_fold_step_correlation g) →
    g_nodes_fold_completed_slots g < H' ∧ streamed g (S (g_nodes_fold_completed_slots g));
  gen_dkg : is_Some (g_dkg_aggregation_correlation g) ∨ is_Some (g_dkg_aggregated_proof g) → ready g }.

(** A key publication names the whole committee and, in ascending order, the [H] dealers of a roster. *)
Definition event_ok (ev : PublicKeyAggregated) : Prop :=
  pa_committee_addresses ev = addrs ∧ length (pa_pk_commitment ev) = 32 ∧
  ∃ ids, rosters ids ∧ StronglySorted lt ids ∧ length ids = H' ∧
    Forall2 (λ i a, addrs !! i = Some a) ids (pa_honest_committee_addresses ev).

Definition submissions_ok (order : list Submission) (proofs : list (option SignedProofPayload)) : Prop :=
  length proofs = length order ∧ NoDup ((λ e : Submission, e.1.1) <$> order).

Definition coherent (s : State) (r : Recovery) : Prop :=
  ((∀ ev, pending_publication r = Some ev → event_ok ev) ∧ (∀ R, selected_roster r = Some R → rosters (btree_set R))) ∧
  match s with
  | SCollecting c =>
      c_threshold_m c = T' ∧ c_circuit_n c = N ∧ c_circuit_h c = H' ∧ c_canonical_party_nodes c = canon ∧
      submissions_ok (c_submission_order c) (c_c1_proofs c)
  | SVerifyingC1 v =>
      v_threshold_m v = T' ∧ v_circuit_n v = N ∧ v_circuit_h v = H' ∧ v_canonical_party_nodes v = canon ∧
      submissions_ok (v_submission_order v) (v_c1_proofs v) ∧
      roster_ok (list_to_set ((λ e : Submission, e.1.1) <$> v_submission_order v)) ∧
      selected_roster r = Some (list_to_set ((λ e : Submission, e.1.1) <$> v_submission_order v))
  | SGeneratingC5Proof g => gen_ok g ∧ selected_roster r = Some (g_honest_party_ids g)
  | SComplete d => True
  end.

(** A verdict rejects the parties that its request listed as without a proof. *)
Definition verdict_ok (id : B256) (verdict : ShareVerificationComplete) : Prop :=
  ∀ request, request_hash request = id → pre_dishonest request ⊆ dishonest_parties verdict.

Definition pub_ok (o : Publication) : Prop :=
  match o with
  | C5ProofRequested q pk _ =>
      keyshares_ok (q_keyshare_bytes q) ∧ q_committee_n q = N ∧ q_committee_h q = H' ∧ q_committee_threshold q = T' ∧
      q_aggregated_pk_bytes q = pk ∧ get_aggregate_public_key (list_to_set (q_keyshare_bytes q)) = Some pk
  | NodesFoldStepRequested _ π prior slot total =>
      total = H' ∧ slot < H' ∧ (prior = None ↔ slot = 0) ∧
      ∃ ids p, rosters ids ∧ StronglySorted lt ids ∧ length ids = H' ∧ ids !! slot = Some p ∧ attested p π
  | DkgAggregationRequested _ q =>
      rosters (q_party_ids q) ∧ StronglySorted lt (q_party_ids q) ∧ length (q_party_ids q) = H' ∧
      Forall2 attested (q_party_ids q) (q_node_fold_proofs q) ∧ is_Some (q_nodes_fold_proof q) ∧
      q_committee_addresses q = addrs
  | PublicKeyPublished ev => event_ok ev
  | _ => True
  end.

(** The state [I b], with staged snapshots when [b]. *)
Definition I (b : bool) (a : Aggregator) : Prop :=
  params a = ps ∧ p_staging (state a) = b ∧ p_staging (recovery a) = false ∧
  (∀ c, dkg_fold_attestation_context a = Some c → contexts c) ∧
  (∀ id verdict, early_c1_verifications a !! id = Some verdict → verdict_ok id verdict) ∧
  ∃ s s0 r, p_data (state a) = Some s ∧ p_stored (state a) = Some s0 ∧ (b = false → s0 = s) ∧
    p_data (recovery a) = Some r ∧ p_stored (recovery a) = Some r ∧ coherent s r ∧ coherent s0 r.

(** ** Setters *)

Lemma gen_of_dkg_corr g x : gen_ok g → (is_Some x → ready g) → gen_ok (set_dkg_corr x g).
Proof. intros [] Hx. split; try done. cbn. intros [?|?]; [by apply Hx|]. by apply gen_dkg0; right. Qed.

Lemma gen_of_c5 g c5 ec : gen_ok g → gen_ok (set_c5 (Some c5) ec g).
Proof. intros []. split; try done. cbn. intros Hd. destruct (gen_dkg0 Hd) as [_ Hs]. by split. Qed.

Lemma gen_of_step_corr g corr : gen_ok g → g_nodes_fold_completed_slots g < H' →
  streamed g (S (g_nodes_fold_completed_slots g)) →
  gen_ok (set_fold_step (g_nodes_fold_accumulator g) (g_nodes_fold_completed_slots g) (Some corr) g).
Proof. intros [] Hlt Hst. by split. Qed.

Lemma gen_of_step_done g π : gen_ok g → is_Some (g_nodes_fold_step_correlation g) →
  gen_ok (set_fold_step (Some π) (g_nodes_fold_completed_slots g + 1) None g).
Proof.
  intros [] Hc. destruct (gen_step0 Hc) as [Hlt Hst]. split; try done; cbn.
  - lia.
  - by rewrite Nat.add_1_r.
  - split; [done|lia].
  - by intros [? ?].
  - intros Hd. destruct (gen_dkg0 Hd) as [_ E]. rewrite E in Hlt. lia.
Qed.

Lemma gen_of_forget g : gen_ok g →
  gen_ok (set_dkg_corr None (set_fold_step (g_nodes_fold_accumulator g) (g_nodes_fold_completed_slots g) None g)).
Proof.
  intros []. split; try done; cbn; [by intros [? ?]|]. intros [[? ?]|?]; [done|]. by apply gen_dkg0; right.
Qed.

Lemma gen_of_dkg_proof g corr π : gen_ok g → gen_ok (accept_dkg_proof corr π g).
Proof.
  intros Hg. unfold accept_dkg_proof. case_bool_decide as E; [|done]. destruct Hg. split; try done. cbn.
  intros _. apply gen_dkg0. left. by eexists.
Qed.

Lemma gen_of_fold g msg ec : gen_ok g → g_dkg_node_proofs g !! df_party_id msg = None →
  (df_party_id msg ∈ g_honest_party_ids g → ∀ π, aggregated_proof msg = Some π → attested (df_party_id msg) π) →
  gen_ok (store_fold msg ec g).
Proof.
  intros [] Hnone Hatt.
  assert (∀ n, streamed g n → streamed (store_fold msg ec g) n) as Hstr.
  { intros n Hst i p Hi Hp. destruct (Hst i p Hi Hp) as [π Hπ]. exists π. cbn.
    rewrite lookup_insert_ne; [done|]. intros E. by rewrite E, Hπ in Hnone. }
  split; try done; cbn.
  - intros p π Hp. destruct (decide (p = df_party_id msg)) as [->|Hne].
    + rewrite lookup_insert_eq. intros [= E]. by apply Hatt.
    + rewrite lookup_insert_ne by done. by apply gen_folds0.
  - by apply Hstr.
  - intros Hc. destruct (gen_step0 Hc). split; [done|]. by apply Hstr.
Qed.

(** ** Views and updates of the invariant *)

Lemma I_view b a : I b a → ∃ s r, p_data (state a) = Some s ∧ p_data (recovery a) = Some r ∧ coherent s r.
Proof. intros (_ & _ & _ & _ & _ & s & s0 & r & Hs & _ & _ & Hr & _ & Hc & _). by exists s, r. Qed.

Lemma I_state b a s r s' : I b a → p_data (state a) = Some s → p_data (recovery a) = Some r →
  coherent s' r → I b (fset (written s' (fget a)) a).
Proof.
  intros (Hp & Hb & Hb' & Hcx & Hv & s1 & s0 & r1 & Hs & Hs0 & Hss & Hr & Hr0 & Hc & Hc0) Es Er Hc'.
  assert (s1 = s) as -> by congruence. assert (r1 = r) as -> by congruence.
  do 5 (split; [done|]). destruct b.
  - exists s', s0, r. do 2 (split; [cbn; by rewrite ?Hb|]). done.
  - exists s', s', r. do 2 (split; [cbn; by rewrite ?Hb|]). done.
Qed.

Lemma I_recovery a s r r' : I false a → p_data (state a) = Some s → p_data (recovery a) = Some r →
  coherent s r' → I false (fset (written r' (fget a)) a).
Proof.
  intros (Hp & Hb & Hb' & Hcx & Hv & s1 & s0 & r1 & Hs & Hs0 & Hss & Hr & Hr0 & Hc & Hc0) Es Er Hc'.
  assert (s1 = s) as -> by congruence. assert (r1 = r) as -> by congruence.
  specialize (Hss eq_refl). subst s0. do 5 (split; [done|]). exists s, s, r'.
  do 4 (split; [done|]). split; [cbn; by rewrite Hb'|]. done.
Qed.

Lemma on_generating_coherent f s r :
  (∀ g, gen_ok g → gen_ok (f g) ∧ g_honest_party_ids (f g) = g_honest_party_ids g) →
  coherent s r → coherent (on_generating f s) r.
Proof.
  intros Hf [Hpub Hs]. split; [done|]. destruct s as [c|v|g|d]; try done. cbn in *. destruct Hs as [Hg Hr].
  destruct (Hf g Hg) as [Hg' E]. by rewrite E.
Qed.

(** ** The committee *)

Lemma lookup_canon i : canon !! i = address_to_string <$> addrs !! i.
Proof.
  unfold party_nodes_from_committee_addresses.
  assert (NoDup (imap (λ i a, (i, address_to_string a)) addrs).*1) as Hnd.
  { assert ((imap (λ i a, (i, address_to_string a)) addrs).*1 = seq 0 (length addrs)) as ->; [|apply NoDup_seq].
    apply list_eq. intros j. rewrite list_lookup_fmap, list_lookup_imap.
    destruct (addrs !! j) eqn:E; cbn.
    - symmetry. apply lookup_seq. split; [lia|]. by eapply lookup_lt_Some.
    - symmetry. apply lookup_seq_ge. by apply lookup_ge_None. }
  destruct (addrs !! i) as [a|] eqn:E; cbn.
  - apply elem_of_list_to_map; [done|]. apply list_elem_of_lookup. exists i. by rewrite list_lookup_imap, E.
  - apply not_elem_of_list_to_map. intros Hi. apply list_elem_of_fmap in Hi as ([j s] & -> & Hj).
    apply list_elem_of_lookup in Hj as [k Hk]. rewrite list_lookup_imap in Hk. cbn in *.
    destruct (addrs !! k) eqn:Ek; cbn in Hk; [|done]. simplify_eq.
Qed.

Lemma canon_lt i : is_Some (canon !! i) ↔ i < length addrs.
Proof. rewrite lookup_canon, fmap_is_Some. apply lookup_lt_is_Some. Qed.

Lemma full_committee_ids : (btree_list canon).*1 = seq 0 (length addrs).
Proof.
  assert (seq 0 (length addrs) = btree_set (list_to_set (btree_list canon).*1)) as ->.
  { rewrite <- (btree_set_list (seq 0 (length addrs))) at 1.
    - f_equal. apply set_eq. intros i. rewrite !elem_of_list_to_set, elem_of_seq, list_elem_of_fmap. split.
      + intros [_ Hi]. destruct (proj2 (canon_lt i)) as [x Hx]; [lia|]. exists (i, x). split; [done|]. by apply elem_of_btree_list.
      + intros ([j x] & -> & Hx%elem_of_btree_list). assert (j < length addrs) by (apply canon_lt; by eexists). cbn. lia.
    - clear. generalize 0. induction (length addrs) as [|n IH]; intros k; [constructor|]. cbn. constructor; [apply IH|].
      apply Forall_forall. intros x Hx%elem_of_seq. lia. }
  symmetry. apply btree_set_list, btree_list_sorted.
Qed.

Section Laws.
Context `{!AddressTextLaws}.

Lemma party_order_spec ids l : committee_addresses_in_party_order ids canon = Ok l →
  Forall2 (λ i a, addrs !! i = Some a) ids l.
Proof.
  unfold committee_addresses_in_party_order. revert l. induction ids as [|i ids IH]; intros l; cbn [try_map]; [by intros [= <-]|].
  rewrite lookup_canon. destruct (addrs !! i) as [a|] eqn:Ea; cbn [fmap option_fmap option_map]; [|done].
  rewrite parse_to_string. destruct (try_map _ ids) as [l'|] eqn:E; [|done].
  intros [= <-]. constructor; [done|]. by apply IH.
Qed.

Lemma party_order_total ids : (∀ i, i ∈ ids → i < length addrs) →
  ∃ l, committee_addresses_in_party_order ids canon = Ok l.
Proof.
  clear rosters contexts. induction ids as [|i ids IH]; intros Hids; [by eexists|].
  destruct IH as [l Hl]; [intros j Hj; apply Hids; set_solver|]. unfold committee_addresses_in_party_order in *. cbn.
  rewrite lookup_canon. destruct (lookup_lt_is_Some_2 addrs i) as [a Ha]; [apply Hids; set_solver|].
  rewrite Ha. cbn. rewrite parse_to_string, Hl. by eexists.
Qed.

Lemma full_order : committee_addresses_in_party_order (btree_list canon).*1 canon = Ok addrs.
Proof.
  rewrite full_committee_ids. destruct (party_order_total (seq 0 (length addrs))) as [l Hl].
  { intros i Hi%elem_of_seq. lia. }
  rewrite Hl. f_equal. apply party_order_spec in Hl. apply list_eq. intros i.
  pose proof (Forall2_length _ _ _ Hl) as Hlen. rewrite length_seq in Hlen.
  destruct (l !! i) as [a|] eqn:Ea.
  - destruct (Forall2_lookup_r _ _ _ _ _ Hl Ea) as (j & Hj & ->%symmetry). apply lookup_seq in Hj as [-> _]. done.
  - apply lookup_ge_None in Ea. symmetry. apply lookup_ge_None. lia.
Qed.
End Laws.

(** ** The folds *)

Lemma honest_pairs_spec g :
  (∀ p, p ∈ g_honest_party_ids g → ∃ π, g_dkg_node_proofs g !! p = Some (Some π)) →
  (honest_pairs g).*1 = btree_set (g_honest_party_ids g) ∧
  ∀ p π, (p, π) ∈ honest_pairs g → p ∈ g_honest_party_ids g ∧ g_dkg_node_proofs g !! p = Some (Some π).
Proof.
  intros Hall.
  assert (∀ p π, (p, π) ∈ honest_pairs g ↔ p ∈ g_honest_party_ids g ∧ g_dkg_node_proofs g !! p = Some (Some π)) as Hin.
  { intros p π. unfold honest_pairs. rewrite list_elem_of_omap. split.
    - intros ([q o] & Hq%elem_of_btree_list & E). case_bool_decide; [|done]. destruct o; cbn in E; [|done]. by simplify_eq.
    - intros [Hp Hπ]. exists (p, Some π). split; [by apply elem_of_btree_list|]. by rewrite bool_decide_eq_true_2. }
  split; [|intros p π; apply Hin].
  assert (StronglySorted lt (honest_pairs g).*1) as Hs.
  { unfold honest_pairs. pose proof (btree_list_sorted (g_dkg_node_proofs g)) as Hs.
    induction (btree_list (g_dkg_node_proofs g)) as [|[q o] l IH]; [constructor|]. cbn in Hs.
    inversion Hs as [|? ? Hs' Hf]; subst. cbn. destruct (if bool_decide _ then _ else _) as [[q' π]|] eqn:E; [|by apply IH].
    assert (q' = q) as -> by (case_bool_decide; [|done]; destruct o; cbn in E; by simplify_eq).
    cbn. constructor; [by apply IH|]. apply Forall_fmap, Forall_forall. intros [x πx] Hx. cbn.
    apply list_elem_of_omap in Hx as ([y o'] & Hy & E'). rewrite Forall_forall in Hf.
    assert (x = y) as -> by (case_bool_decide; [|done]; destruct o'; cbn in E'; by simplify_eq).
    apply Hf. by apply (list_elem_of_fmap_2 fst _ _ Hy). }
  rewrite <- (btree_set_list _ Hs). f_equal. apply set_eq. intros p. rewrite elem_of_list_to_set, list_elem_of_fmap. split.
  - intros ([q π] & -> & Hq%Hin). by destruct Hq.
  - intros Hp. destruct (Hall p Hp) as [π Hπ]. exists (p, π). split; [done|]. by apply Hin.
Qed.

Lemma gen_all_folds g : gen_ok g → g_nodes_fold_completed_slots g = H' →
  ∀ p, p ∈ g_honest_party_ids g → ∃ π, g_dkg_node_proofs g !! p = Some (Some π).
Proof.
  intros [] E p Hp. apply elem_of_btree_set, list_elem_of_lookup in Hp as [i Hi].
  apply (gen_streamed0 i); [|done]. apply lookup_lt_Some in Hi. rewrite length_btree_set in Hi. destruct gen_roster0. lia.
Qed.
End Inv.
