(* ===== verification/PublicKeySteps.v ===== *)
(** * Every handler of the public-key aggregator keeps the invariant

    Symbolic execution of the effects and handlers with the rules of Actor, one lemma per
    function.  Errors keep the invariant too: each refused call leaves the values as they are. *)

From S2P Require Import Prelude Events CommitmentLinks NodeRegistry Actor Orchestration DkgAttestation PublicKeyAggregation PublicKeyInv.
Local Open Scope nat_scope.

Section Steps.
Context `{AlloyOps} `{AddressTextLaws} `{PublicKeyOps}.
Context (ps : Params) (addrs : list Address) (rosters : list nat → Prop) (contexts : DkgFoldAttestationContext → Prop).

Local Abbreviation Mon := (M Aggregator Publication PkError).
Local Abbreviation pub_ok := (pub_ok ps addrs rosters contexts).
Local Abbreviation I := (I ps addrs rosters contexts).
Local Abbreviation coherent := (coherent ps addrs rosters contexts).
Local Abbreviation gen_ok := (gen_ok ps addrs rosters contexts).
Local Abbreviation keeps_inv b m := (preserves pub_ok (I b) m).
Local Abbreviation canon := (party_nodes_from_committee_addresses addrs).

(** Enter a function at its state; leave it; the error case of a call. *)
Ltac enter := apply preserves_at; let a := fresh "a" in let HI := fresh "HI" in intros a HI; apply at_get.
Ltac leave := apply at_ret; let Hw := fresh in intros ? Hw; eapply At_good; [|exact Hw]; done.
Ltac err := let Hw := fresh in intros ? Hw; eapply At_good; [|exact Hw]; done.
Ltac tail := apply triple_tail.
(** Continue with a function that is known to keep the invariant. *)
Ltac jump L := apply at_preserves; [done|apply L].

(** The state and the snapshot that the invariant gives. *)
Ltac view HI s r Es Er Hc :=
  let HI' := fresh in pose proof HI as HI'; apply I_view in HI' as (s & r & Es & Er & Hc).

Lemma k_send b o : pub_ok o → keeps_inv b (send o).
Proof. intros Ho. apply preserves_at. intros a HI. tail. apply at_publish; [done|err|leave]. Qed.

Lemma k_inputs_ready b : keeps_inv b publish_inputs_ready.
Proof. enter. destruct (_ || _); [leave|]. by jump k_send. Qed.

Lemma k_resumed b : keeps_inv b publish_aggregation_resumed.
Proof. apply preserves_at. intros a HI. apply at_new_id. intros x. by jump k_send. Qed.

Lemma I_role b a agg started effects published stop : I b a → I b (with_role agg started effects published stop a).
Proof. done. Qed.

Lemma at_state {B} a (f : State → result State PkError) (k : () → Mon B) Q R :
  (∀ w, At pub_ok a w → R w) →
  (∀ x y, p_data (state a) = Some x → f x = Ok y → triple (At pub_ok (fset (written y (state a)) a)) (k tt) Q R) →
  triple (At pub_ok a) (bind (mutate_state f) k) Q R.
Proof. intros HR Hk. by apply (at_try_mutate pub_ok a Q R PersistFailed f k). Qed.

Lemma at_recovery {B} a (f : Recovery → Recovery) (k : () → Mon B) Q R :
  (∀ w, At pub_ok a w → R w) →
  (∀ x, p_data (recovery a) = Some x → triple (At pub_ok (fset (written (f x) (recovery a)) a)) (k tt) Q R) →
  triple (At pub_ok a) (bind (mutate_recovery f) k) Q R.
Proof.
  intros HR Hk. apply (at_try_mutate pub_ok a Q R PersistFailed (λ r, Ok (f r)) k); [done|].
  intros x y Ex [= <-]. by apply Hk.
Qed.

Lemma k_mutate_recovery f : (∀ s r, coherent s r → coherent s (f r)) → keeps_inv false (mutate_recovery f).
Proof.
  intros Hf. apply preserves_at. intros a HI. view HI s r Es Er Hc. tail. apply at_recovery; [err|].
  intros x Ex. assert (x = r) as -> by congruence.
  pose proof (I_recovery _ _ _ _ a s r (f r) HI Es Er (Hf s r Hc)). leave.
Qed.

Lemma k_mutate_state b f :
  (∀ s r s', coherent s r → f s = Ok s' → coherent s' r) → keeps_inv b (mutate_state f).
Proof.
  intros Hf. apply preserves_at. intros a HI. view HI s r Es Er Hc. tail. apply at_state; [err|].
  intros x y Ex Ey. assert (x = s) as -> by congruence.
  pose proof (I_state _ _ _ _ b a s r y HI Es Er (Hf s r y Hc Ey)). leave.
Qed.

(** A change of the C5 phase. *)
Lemma at_generating {B} b a g f (k : () → Mon B) Q : I b a → p_data (state a) = Some (SGeneratingC5Proof g) →
  gen_ok (f g) → g_honest_party_ids (f g) = g_honest_party_ids g →
  (∀ a', I b a' → p_data (state a') = Some (SGeneratingC5Proof (f g)) → triple (At pub_ok a') (k tt) Q (Good pub_ok (I b))) →
  triple (At pub_ok a) (bind (mutate_state (λ s, Ok (on_generating f s))) k) Q (Good pub_ok (I b)).
Proof.
  intros HI Eg Hg Eh Hk. view HI s r Es Er Hc. assert (s = SGeneratingC5Proof g) as -> by congruence.
  apply at_state; [err|]. intros x y Ex [= <-]. assert (x = SGeneratingC5Proof g) as -> by congruence. cbn [on_generating].
  apply Hk; [|done]. apply (I_state _ _ _ _ b a (SGeneratingC5Proof g) r); [done..|]. destruct Hc as [Hp [_ Hr]].
  split; [done|]. split; [done|]. by rewrite Eh.
Qed.

Lemma k_record_started : keeps_inv false record_started_as_aggregator.
Proof.
  enter. destruct (started_as_aggregator a); [leave|]. apply at_modify.
  apply at_preserves; [done|]. apply k_mutate_recovery. intros s r [Hp Hs]. by destruct s.
Qed.

Lemma k_mark_started : keeps_inv false mark_started_as_aggregator.
Proof. enter. destruct (negb _); [leave|]. jump k_record_started. Qed.

(** ** The DKG aggregation *)

Lemma k_dispatch_dkg b : keeps_inv b try_dispatch_dkg_aggregation.
Proof.
  enter. view HI s r Es Er Hc. rewrite Es. destruct s as [c|v|g|d]; try leave. destruct Hc as [Hpub [Hg Hr]].
  destruct (g_c5_proof_pending g) as [c5|] eqn:Ec5; [|leave]. destruct (_ || _); [leave|].
  destruct (negb (all_honest_present g)); [leave|]. destruct (_ && _); [leave|].
  destruct (length (honest_pairs g) =? 0); [leave|].
  destruct (Nat.eqb_spec (g_nodes_fold_completed_slots g) (size (g_honest_party_ids g))) as [E|]; cbn [negb]; [|leave].
  assert (g_nodes_fold_completed_slots g = cc_h (values (committee_size ps))) as Eh
    by (rewrite E; apply (gen_roster _ _ _ _ _ Hg)).
  unfold full_committee. rewrite (gen_nodes _ _ _ _ _ Hg). apply at_lift; [err|]. intros l El.
  rewrite (full_order addrs) in El. injection El as <-. apply at_new_id. intros corr.
  destruct (honest_pairs_spec g (gen_all_folds _ _ _ _ g Hg Eh)) as [Hids Hpairs].
  apply at_publish; [|err|].
  { cbn. rewrite Hids. split; [apply (gen_roster _ _ _ _ _ Hg)|]. split; [apply btree_set_sorted|]. split; [by rewrite length_btree_set, <- E, Eh|].
    split; [|split; [|done]].
    - rewrite <- Hids. clear Hids. induction (honest_pairs g) as [|[p π] l IH]; [constructor|]. cbn. constructor.
      + destruct (Hpairs p π) as [Hp Hπ]; [by left|]. by apply (gen_folds _ _ _ _ _ Hg).
      + apply IH. intros p' π' Hin. apply Hpairs. by right.
    - destruct (g_nodes_fold_accumulator g) eqn:Ea; [by eexists|]. apply (gen_acc _ _ _ _ _ Hg) in Ea.
      rewrite Eh in Ea. by destruct (committee_size ps). }
  tail. apply (at_generating b a g); [done..| |done|].
  - apply gen_of_dkg_corr; [done|]. intros _. split; [by rewrite Ec5|done].
  - intros a' HI' _. leave.
Qed.

Lemma k_fold_step b : keeps_inv b try_dispatch_nodes_fold_step.
Proof.
  enter. view HI s r Es Er Hc. rewrite Es. destruct s as [c|v|g|d]; try leave. destruct Hc as [Hpub [Hg Hr]].
  destruct (_ || _); [leave|]. cbn zeta. destruct (Nat.leb_spec (size (g_honest_party_ids g)) (g_nodes_fold_completed_slots g)) as [|Hlt].
  { jump k_dispatch_dkg. }
  destruct (gen_roster _ _ _ _ _ Hg) as (Hsize & HN & Hros). rewrite Hsize in *.
  destruct (btree_set _ !! _) as [p|] eqn:Ep; [|leave].
  destruct (g_dkg_node_proofs g !! p) as [[π|]|] eqn:Eπ; [|leave..]. apply at_new_id. intros corr.
  assert (p ∈ g_honest_party_ids g) as Hp by (apply elem_of_btree_set, list_elem_of_lookup; by eexists).
  apply at_publish; [|err|].
  { cbn. split; [done|]. split; [done|]. split; [apply (gen_acc _ _ _ _ _ Hg)|]. exists (btree_set (g_honest_party_ids g)), p.
    split; [done|]. split; [apply btree_set_sorted|]. split; [by rewrite length_btree_set|]. split; [done|]. by apply (gen_folds _ _ _ _ _ Hg). }
  tail. apply (at_generating b a g); [done..| |done|].
  - apply gen_of_step_corr; [done..|]. intros i q Hi Hq. destruct (decide (i = g_nodes_fold_completed_slots g)) as [->|].
    + assert (q = p) as -> by congruence. by eexists.
    + apply (gen_streamed _ _ _ _ _ Hg i q); [lia|done].
  - intros a' HI' _. leave.
Qed.

Lemma k_fold_response b corr π : keeps_inv b (handle_nodes_fold_step_response corr π).
Proof.
  enter. view HI s r Es Er Hc. rewrite Es. destruct s as [c|v|g|d]; try leave. destruct Hc as [Hpub [Hg Hr]].
  case_bool_decide as Ec; cbn [negb]; [|leave]. cbn zeta. apply at_ok_or; [err|]. intros ec _.
  apply (at_generating b a g); [done..| |done|].
  - apply gen_of_step_done; [done|]. by rewrite Ec.
  - intros a' HI' _. jump k_fold_step.
Qed.

(** ** Publication *)

Lemma extract_length c5 bytes : extract_pk_commitment c5 = Ok bytes → length bytes = 32.
Proof.
  unfold extract_pk_commitment. destruct (extract_output _ _ _) as [l|]; [|done].
  destruct (Nat.eqb_spec (length l) 32) as [E|]; [|done]. by intros [= <-].
Qed.

Lemma k_publish_complete a g c5 : I false a → p_data (state a) = Some (SGeneratingC5Proof g) →
  triple (At pub_ok a) (publish_complete g c5) (λ _, Good pub_ok (I false)) (Good pub_ok (I false)).
Proof.
  intros HI Eg. view HI s r Es Er Hc. assert (s = SGeneratingC5Proof g) as -> by congruence.
  destruct Hc as [Hpub [Hg Hr]]. apply at_ok_or; [err|]. intros ec _. apply at_lift; [err|]. intros pk Hpk.
  unfold full_committee. rewrite (gen_nodes _ _ _ _ _ Hg). apply at_lift; [err|]. intros l El.
  rewrite (full_order addrs) in El. injection El as <-. apply at_lift; [err|]. intros honest Hh.
  apply at_lift; [err|]. intros bundle _. cbn zeta. set (ev := mkPkAggregated _ _ _ _ _ _ _).
  assert (event_ok ps addrs rosters ev) as Hev.
  { split; [done|]. split; [by eapply extract_length|]. exists (btree_set (g_honest_party_ids g)).
    split; [apply (gen_roster _ _ _ _ _ Hg)|].
    split; [apply btree_set_sorted|]. split; [rewrite length_btree_set; apply (gen_roster _ _ _ _ _ Hg)|].
    by apply (party_order_spec addrs). }
  apply at_recovery; [err|]. intros x Ex. assert (x = r) as -> by congruence.
  assert (coherent (SGeneratingC5Proof g) (set_publication ev ec r)) as Hc' by (split; [split; [by intros ? [= <-]|apply Hpub]|done]).
  pose proof (I_recovery _ _ _ _ a _ r _ HI Es Er Hc') as HI'. set (a' := fset _ a) in *.
  apply at_publish; [done|err|]. tail. apply at_state; [err|]. intros x y Ex' [= <-].
  apply at_ret. intros w Hw. eapply At_good; [|exact Hw].
  apply (I_state _ _ _ _ false a' (SGeneratingC5Proof g) (set_publication ev ec r)); [done..|]. split; [split; [by intros ? [= <-]|apply Hpub]|done].
Qed.

Lemma k_try_publish : keeps_inv false try_publish_complete.
Proof.
  enter. eapply (triple_bind _ _ _ _ (λ _, Good pub_ok (I false))).
  { destruct (p_data (state a)) as [[| |g|]|]; try leave. destruct (g_last_ec g); [jump k_dispatch_dkg|leave]. }
  intros []. enter. apply at_ok_or; [err|]. intros s Es. destruct s as [c|v|g|d]; try leave.
  destruct (g_c5_proof_pending g) as [c5|]; [|leave]. destruct (_ && _); [leave|]. by apply k_publish_complete.
Qed.

Lemma k_pk_signed msg ec : keeps_inv false (handle_pk_aggregation_proof_signed msg ec).
Proof.
  enter. destruct (negb _); [leave|]. view HI s r Es Er Hc. rewrite Es. destruct s as [c|v|g|d]; try (apply at_fail; err); [|leave].
  destruct Hc as [Hpub [Hg Hr]]. apply (at_generating false a g); [done..|by apply gen_of_c5|done|].
  intros a' HI' _. jump k_try_publish.
Qed.

(** ** Folds *)

Lemma verified_attested party node proof att context :
  contexts context → canon !! party = Some node →
  verify_dkg_fold_attestation (a_e3_id ps) party proof att context node (cc_n (values (committee_size ps)))
    (cc_h (values (committee_size ps))) (num_moduli (params_preset ps)) = Ok tt →
  attested ps addrs contexts party proof.
Proof.
  intros Hcx Hn. rewrite lookup_canon in Hn. destruct (addrs !! party) as [a|] eqn:Ea; [|done]. injection Hn as <-.
  unfold verify_dkg_fold_attestation, verify_signer. cbn zeta.
  rewrite !check_Ok, parse_to_string, bool_decide_eq_true, Nat.eqb_eq, !Z.eqb_eq. intros (He & Hp & Hr & Hvc & Hs).
  destruct (fold_recover_address att) as [signer|] eqn:Es; [|done]. cbn in Hs. rewrite check_Ok, bool_decide_eq_true in Hs.
  destruct Hs as [-> Hs]. destruct (extract_node_fold_agg_commits _ _ _ _) as [[party' commits]|] eqn:Ex; [|done].
  rewrite !check_Ok, Nat.eqb_eq, bool_decide_eq_true in Hs. destruct Hs as (-> & -> & _).
  exists att, context, a. rewrite Ea. by split_and!.
Qed.

Lemma acceptable_attested a g msg : params a = ps → (∀ c, dkg_fold_attestation_context a = Some c → contexts c) →
  gen_ok g → fold_acceptable a g msg = true →
  ∀ π, aggregated_proof msg = Some π → attested ps addrs contexts (df_party_id msg) π.
Proof.
  intros Hp Hcx Hg Hf π Hπ. unfold fold_acceptable in Hf. rewrite Hπ, (gen_nodes _ _ _ _ _ Hg) in Hf.
  destruct (_ !! df_party_id msg) as [node|] eqn:En; [|done]. destruct (fold_attestation msg) as [att|]; [|done].
  destruct (dkg_fold_attestation_context a) as [cx|]; [|done]. rewrite (gen_n _ _ _ _ _ Hg), (gen_h _ _ _ _ _ Hg), Hp in Hf.
  destruct (_ || _); [done|]. destruct (verify_dkg_fold_attestation _ _ _ _ _ _ _ _ _) as [[]|] eqn:Ev; [|done].
  eapply verified_attested; [by apply Hcx|done..].
Qed.

Lemma k_fold b msg ec : keeps_inv b (handle_dkg_recursive_aggregation_complete msg ec).
Proof.
  enter. destruct (negb _); [leave|]. view HI s r Es Er Hc. rewrite Es.
  assert (triple (E:=PkError) (At pub_ok a)
    (if existsb (λ early, (ctx_id early.2 =? ctx_id ec)%Z) (early_dkg_proofs a) then ret tt
     else modify (λ a, set_early_folds (early_dkg_proofs a ++ [(msg, ec)]) a)) (λ _, Good pub_ok (I b)) (Good pub_ok (I b))) as Hbuf.
  { destruct (existsb _ _); [leave|]. tail. apply at_modify. leave. }
  destruct s as [c|v|g|d]; try exact Hbuf. destruct Hc as [Hpub [Hg Hr]].
  case_bool_decide as Hdup; [leave|]. destruct (_ && _) eqn:Eacc; [leave|].
  apply (at_generating b a g); [done..| |done|].
  - apply gen_of_fold; [done|by apply eq_None_not_Some|]. intros Hin. rewrite bool_decide_eq_true_2 in Eacc by done.
    apply negb_false_iff in Eacc. eapply acceptable_attested; [by destruct HI|apply HI|done..].
  - intros a' HI' _. apply at_get. destruct (can_continue_aggregation_effects a'); [jump k_fold_step|leave].
Qed.

(** ** C1 *)

Lemma zip_fst {A B} (l : list A) (k : list B) : length k = length l → (zip l k).*1 = l.
Proof. intros E. rewrite fst_zip; [done|lia]. Qed.

Lemma ids_zip (order : list Submission) (proofs : list (option SignedProofPayload)) : length proofs = length order →
  ids_of (zip order proofs) = (λ e : Submission, e.1.1) <$> order.
Proof.
  intros E. transitivity ((λ e : Submission, e.1.1) <$> (zip order proofs).*1); [by rewrite <- list_fmap_compose|].
  by rewrite zip_fst.
Qed.

Lemma ids_fst (l : list Entry) : (λ e : Submission, e.1.1) <$> l.*1 = ids_of l.
Proof. by rewrite <- list_fmap_compose. Qed.

Lemma sublist_ids (l k : list Entry) : l `sublist_of` k → NoDup (ids_of k) → NoDup (ids_of l).
Proof. intros Hs Hnd. eapply sublist_NoDup; [done|]. by apply fmap_sublist. Qed.

(** Starting C1: the chosen submissions are those of the roster. *)
Lemma begin_coherent s r selected s' : coherent s r → begin_selected_c1 s (Some selected) = Ok s' →
  selected_roster r = Some selected → coherent s' r.
Proof.
  intros Hc E Hr. unfold begin_selected_c1 in E. destruct s as [c|v|g|d]; try (by injection E as <-).
  destruct (negb _) eqn:Eok; [done|]. apply negb_false_iff, andb_true_iff in Eok as [Esz%Nat.eqb_eq Ein].
  cbn zeta in E. destruct Hc as (Hpub & Hm & Hn & Hh & Hcanon & Hlen & Hnd).
  set (chosen := List.filter _ _) in *. destruct (Nat.ltb_spec (length chosen) (size selected)) as [|Hge].
  { injection E as <-. by do 6 (split; [done|]). }
  injection E as <-. split; [done|]. do 4 (split; [done|]). cbn. rewrite ids_fst.
  assert (NoDup (ids_of chosen)) as Hnd' by (eapply sublist_ids; [apply filter_sublist|]; by rewrite ids_zip).
  assert (∀ p, p ∈ ids_of chosen → p ∈ selected) as Hsub.
  { intros p (e & -> & He)%list_elem_of_fmap. apply list_elem_of_In, filter_In in He as [_ He]. by bool_to_prop. }
  assert (list_to_set (ids_of chosen) = selected) as ->.
  { apply set_subseteq_size_eq; [intros p; rewrite elem_of_list_to_set; apply Hsub|].
    rewrite size_list_to_set, length_fmap by done. done. }
  split; [split; [by rewrite !length_fmap|by rewrite ids_fst]|]. split; [|done]. split; [congruence|].
  split; [|by apply (proj2 Hpub)]. intros p Hp. rewrite forallb_forall in Ein. specialize (Ein p). rewrite Nat.ltb_lt, Hn in Ein. apply Ein.
  by apply list_elem_of_In, elem_of_elements.
Qed.

Lemma add_keyshare_coherent s r ks node party proof s' : coherent s r →
  add_keyshare_transition s ks node party proof (selected_roster r) = Ok s' → coherent s' r.
Proof.
  intros Hc E. unfold add_keyshare_transition in E. destruct s as [c|v|g|d]; try (by injection E as <-). cbn zeta in E.
  set (c' := if existsb _ _ then _ else _) in E.
  assert (coherent (SCollecting c') r) as Hc'.
  { unfold c'. destruct (existsb _ _) eqn:Ex; [done|]. destruct Hc as (Hpub & Hm & Hn & Hh & Hcanon & Hlen & Hnd).
    do 5 (split; [done|]). cbn. split; [rewrite !length_app; cbn; lia|]. rewrite fmap_app. apply NoDup_app.
    split; [done|]. split; [|by apply NoDup_singleton]. intros p Hp ->%list_elem_of_singleton.
    apply list_elem_of_fmap in Hp as (e & Ee & He). cbn in Ee.
    assert (existsb (λ e : Submission, e.1.1 =? party) (c_submission_order c) = true) as Et; [|congruence].
    apply existsb_exists. exists e. split; [by apply list_elem_of_In|]. by apply Nat.eqb_eq. }
  destruct (selected_roster r) as [selected|] eqn:Er; [by eapply begin_coherent|]. cbn in E. by injection E as <-.
Qed.

Lemma remove_at_sublist {A} i (l : list A) : remove_at i l `sublist_of` l.
Proof.
  unfold remove_at. rewrite <- (take_drop i l) at 3. apply sublist_app; [done|].
  replace (S i) with (i + 1) by lia. rewrite <- drop_drop. apply sublist_drop.
Qed.

Lemma length_remove_at {A B} i (l : list A) (k : list B) : length l = length k → length (remove_at i l) = length (remove_at i k).
Proof. intros E. unfold remove_at. by rewrite !length_app, !length_take, !length_drop, E. Qed.

Lemma key_expelled_coherent s r node : coherent s r → coherent (member_expelled_transition s node) r.
Proof.
  intros Hc. destruct s as [c|v|g|d]; try done. destruct Hc as (Hpub & Hm & Hn & Hh & Hcanon & Hlen & Hnd).
  unfold member_expelled_transition. destruct (position _ _) as [i|]; do 5 (split; [done|]); [|done]. cbn.
  split; [by apply length_remove_at|]. eapply sublist_NoDup; [done|]. apply fmap_sublist, remove_at_sublist.
Qed.

Lemma at_report a l : triple (At pub_ok a) (report_mismatches l) (λ _, At pub_ok a) (At pub_ok a).
Proof.
  apply triple_for_each. intros [p signed]. destruct (recover_address signed) as [node|]; [|by apply at_ret].
  tail. apply at_attempt; [|by apply at_ret]. tail. apply at_publish; [done|done|by apply at_ret].
Qed.

Lemma at_take {B} b a l (k : option PkAggregationProofSigned → Mon B) Q : I b a →
  (∀ a' o, I b a' → state a' = state a → recovery a' = recovery a → triple (At pub_ok a') (k o) Q (Good pub_ok (I b))) →
  triple (At pub_ok a) (bind (take_replayed_c5_proof l) k) Q (Good pub_ok (I b)).
Proof.
  intros HI Hk w [<- Hw]. unfold bind, take_replayed_c5_proof, get_st. cbn.
  destruct (replayed_c5_proof (st w)) as [c5|]; [|by apply (Hk (st w) None)]. cbn.
  destruct (_ || _); cbn.
  - by apply (Hk (set_replayed_c5 None (st w)) None).
  - by apply (Hk (set_replayed_c5 None (st w)) (Some c5)).
Qed.

(** The entries that pass the audit, once the parties without a proof are rejected. *)
Definition proved (e : Entry) : Prop := ∃ sp, e.2 = Some sp ∧ c1_matches e.1.2 sp = true.

Lemma audit_proved (l : list Entry) (D : gset nat) :
  (∀ e, e ∈ l → is_Some e.2) →
  let audit := check_c1_keyshare_commitments l in
  let kept := if length (mismatched audit) =? 0 then l
              else List.filter (λ e : Entry, bool_decide (entry_id e ∉ D ∪ list_to_set (missing_proof audit) ∪ list_to_set (mismatched audit).*1)) l in
  kept `sublist_of` l ∧ ∀ e, e ∈ kept → proved e.
Proof.
  intros Hsome audit kept.
  assert (∀ e sp, e ∈ l → e.2 = Some sp → c1_matches e.1.2 sp = true ∨ (entry_id e, sp) ∈ mismatched audit) as Hmis.
  { intros [[[p n] ks] c1] sp He Hsp. cbn in Hsp. subst c1. cbn. destruct (c1_matches ks sp) eqn:Em; [by left|]. right.
    apply list_elem_of_omap. exists ((p, n, ks), Some sp). split; [done|]. cbn. by rewrite Em. }
  unfold kept. destruct (Nat.eqb_spec (length (mismatched audit)) 0) as [E|_].
  - split; [done|]. intros e He. destruct (Hsome e He) as [sp Hsp]. exists sp. split; [done|].
    destruct (Hmis e sp He Hsp) as [?|Hin]; [done|]. apply nil_length_inv in E. rewrite E in Hin. by apply not_elem_of_nil in Hin.
  - split; [apply filter_sublist|]. intros e He. apply list_elem_of_In, filter_In in He as [He Hd].
    apply list_elem_of_In in He. destruct (Hsome e He) as [sp Hsp]. exists sp. split; [done|].
    destruct (Hmis e sp He Hsp) as [?|Hin]; [done|]. bool_to_prop. exfalso. apply Hd.
    apply elem_of_union_r, elem_of_list_to_set. by apply (list_elem_of_fmap_2 fst _ _ Hin).
Qed.

Lemma proved_keyshares (l : list Entry) : length l = cc_h (values (committee_size ps)) → (∀ e, e ∈ l → proved e) →
  keyshares_ok ps ((λ e : Entry, e.1.2) <$> l).
Proof.
  intros Hlen Hall. assert (∃ proofs, Forall2 (λ ks sp, c1_matches ks sp = true) ((λ e : Entry, e.1.2) <$> l) proofs) as [proofs Hp].
  { clear Hlen. induction l as [|e l IH]; [by exists []|]. destruct IH as [proofs Hp]; [intros x Hx; apply Hall; by right|].
    destruct (Hall e) as (sp & _ & Hsp); [by left|]. exists (sp :: proofs). by constructor. }
  exists proofs. by rewrite length_fmap.
Qed.

(** The verdict covers the submissions without a proof. *)
Definition covers (v : VerifyingC1) (D : gset nat) : Prop :=
  ∀ e, e ∈ zip (v_submission_order v) (v_c1_proofs v) → e.2 = None → entry_id e ∈ D.

(** The roster's entries that survive the selection. *)
Lemma selection_ok v (l : list Entry) entries ids :
  submissions_ok (v_submission_order v) (v_c1_proofs v) →
  roster_ok ps rosters (list_to_set ((λ e : Submission, e.1.1) <$> v_submission_order v)) →
  v_circuit_h v = cc_h (values (committee_size ps)) →
  l `sublist_of` zip (v_submission_order v) (v_c1_proofs v) →
  select_honest_set l (v_circuit_h v) (v_threshold_m v) = SelectionProceed entries ids →
  (∀ e, e ∈ entries → e ∈ l) ∧ length entries = cc_h (values (committee_size ps)) ∧
  ids = list_to_set ((λ e : Submission, e.1.1) <$> v_submission_order v).
Proof.
  intros [Hlen Hnd] [Hsize _] Hh Hsub. rewrite Hh.
  assert (NoDup (ids_of l)) as Hndl by (eapply sublist_ids; [done|]; by rewrite ids_zip).
  rewrite select_spec by done. destruct (Nat.ltb_spec (length l) (cc_h (values (committee_size ps)))) as [|Hge]; [done|].
  destruct (_ <=? _); [done|]. cbn [orb]. intros [= <- <-].
  set (sorted := merge_sort entry_le l). assert (sorted ≡ₚ l) as Hperm by apply merge_sort_Permutation.
  assert (length (take (cc_h (values (committee_size ps))) sorted) = cc_h (values (committee_size ps))) as Hl.
  { rewrite length_take, Hperm. lia. }
  assert (∀ e, e ∈ take (cc_h (values (committee_size ps))) sorted → e ∈ l) as Hin.
  { intros e He. rewrite <- Hperm. eapply elem_of_sublist; [done|apply sublist_take]. }
  split; [done|]. split; [done|]. apply set_subseteq_size_eq.
  - intros p Hp. rewrite elem_of_list_to_set in Hp |- *. rewrite <- (ids_zip _ (v_c1_proofs v)) by done.
    apply list_elem_of_fmap in Hp as (e & -> & He). apply (list_elem_of_fmap_2 (λ e : Entry, entry_id e)). eapply elem_of_sublist; [by apply Hin|done].
  - rewrite Hsize, size_list_to_set, length_fmap by
      (eapply sublist_ids; [apply sublist_take|]; unfold sorted; by rewrite merge_sort_Permutation). lia.
Qed.

Lemma generating_ok v pubkey entries dishonest ec :
  v_circuit_n v = cc_n (values (committee_size ps)) → v_circuit_h v = cc_h (values (committee_size ps)) →
  v_canonical_party_nodes v = canon →
  roster_ok ps rosters (list_to_set ((λ e : Submission, e.1.1) <$> v_submission_order v)) →
  keyshares_ok ps ((λ e : Entry, e.1.2) <$> entries) →
  get_aggregate_public_key (list_to_set ((λ e : Entry, e.1.2) <$> entries)) = Some pubkey →
  gen_ok (generating v pubkey entries (list_to_set ((λ e : Submission, e.1.1) <$> v_submission_order v)) dishonest ec).
Proof.
  intros Hn Hh Hc Hr Hk Hpk. split; try done; cbn.
  - lia.
  - intros i p Hi. lia.
  - by intros [? ?].
  - by intros [[? ?]|[? ?]].
Qed.

Lemma k_apply_c1 a D ec v : I false a → p_data (state a) = Some (SVerifyingC1 v) → covers v D →
  triple (At pub_ok a) (apply_c1_verification D ec) (λ _, Good pub_ok (I false)) (Good pub_ok (I false)).
Proof.
  intros HI Ev Hcov. view HI s r Es Er Hc. assert (s = SVerifyingC1 v) as -> by congruence.
  destruct Hc as (Hpub & Hm & Hn & Hh & Hcanon & Hsub & Hros & Hsel).
  apply at_get. rewrite Ev. change (bind (ret v) ?f) with (f v). cbn beta zeta.
  set (honest := List.filter _ _). set (audit := check_c1_keyshare_commitments honest).
  assert (∀ e, e ∈ honest → is_Some e.2) as Hsome.
  { intros e He. apply list_elem_of_In, filter_In in He as [He Hd]. apply list_elem_of_In in He. bool_to_prop.
    destruct e as [sub [sp|]]; [by eexists|]. by destruct Hd; apply (Hcov (sub, None)). }
  pose proof (audit_proved honest D Hsome) as [Hkept Hproved]. fold audit in Hkept, Hproved.
  eapply triple_bind; [eapply triple_conseq; [apply at_report|done|done|err]|]. intros []. cbn beta.
  set (kept := if length (mismatched audit) =? 0 then _ else _) in *.
  destruct (select_honest_set kept (v_circuit_h v) (v_threshold_m v)) as [|entries ids] eqn:Esel; [by jump k_send|].
  apply (selection_ok v kept) in Esel as (Hin & Hlen & ->); [|done..|by etrans; [|apply filter_sublist]].
  pose proof (proved_keyshares entries Hlen (λ e He, Hproved e (Hin e He))) as Hks.
  apply at_ok_or; [err|]. intros pubkey Hpk. apply (at_take false); [done|]. intros a1 replayed HI1 Est Erec.
  eapply (triple_bind _ _ _ _ (λ _, At pub_ok a1)).
  { destruct replayed; [by apply at_ret|]. tail. apply at_publish; [|err|by apply at_ret].
    split; [done|]. split; [done|]. split; [by rewrite length_fmap|]. done. }
  intros []. apply at_ensure; [err|]. intros _. apply at_state; [err|]. intros x y Ex [= <-].
  set (g := generating _ _ _ _ _ _).
  assert (I false (fset (written (SGeneratingC5Proof g) (state a1)) a1)) as HI2.
  { apply (I_state _ _ _ _ false a1 (SVerifyingC1 v) r); [done|by rewrite Est|by rewrite Erec|].
    split; [done|]. split; [by apply generating_ok|done]. }
  set (a2 := fset _ a1) in *. apply at_get. apply at_modify.
  apply at_preserves; [done|]. apply preserves_then.
  { apply preserves_for_each. intros [msg ec'] _. apply k_fold. }
  intros _. apply preserves_then; [apply k_dispatch_dkg|]. intros _.
  destruct replayed; [apply k_pk_signed|]. by intros w Hw.
Qed.

Lemma verdict_covers a v id verdict : p_data (state a) = Some (SVerifyingC1 v) → verdict_ok id verdict →
  c1_request_id a = Some id → covers v (dishonest_parties verdict).
Proof.
  intros Ev Hok Hid e He Hn. unfold c1_request_id, c1_verification_request in Hid. rewrite Ev in Hid.
  cbn in Hid. injection Hid as Hid. apply (Hok _ Hid). cbn. apply elem_of_list_to_set, list_elem_of_omap.
  exists e. split; [done|]. destruct e as [sub c1]. cbn in Hn. by subst.
Qed.

Lemma k_no_proof parties s r : coherent s r → coherent (store_no_proof parties s) r.
Proof. intros Hc. by destruct s. Qed.

Lemma k_dispatch_c1 request no_proof : keeps_inv false (dispatch_c1_verification request no_proof).
Proof.
  apply preserves_then; [apply k_mark_started|]. intros _. apply preserves_then.
  { destruct (negb _); [|by intros w Hw]. apply k_mutate_state. intros s r s' Hc [= <-]. by apply k_no_proof. }
  intros _. apply preserves_at. intros a HI. apply at_ensure; [err|]. intros _. by jump k_send.
Qed.

Lemma k_continue_c1 ec : keeps_inv false (continue_c1_verification ec).
Proof.
  enter. destruct (c1_verification_request a) as [[request no_proof]|] eqn:Eq; [|leave]. cbn zeta. apply at_modify.
  assert (I false (set_early_c1 ∅ a)) as HI'.
  { destruct HI as (? & ? & ? & ? & _ & Hrest). do 4 (split; [done|]). split; [|done]. intros id verdict Hv. change ((∅ : gmap B256 ShareVerificationComplete) !! id = Some verdict) in Hv. by rewrite lookup_empty in Hv. }
  destruct (early_c1_verifications a !! request_hash request) as [verdict|] eqn:Eh; [|jump k_dispatch_c1].
  destruct (key_published a); [leave|].
  destruct (p_data (state a)) as [[|v| |]|] eqn:Ev; try (unfold c1_verification_request in Eq; by rewrite Ev in Eq).
  apply (k_apply_c1 _ _ _ v); [done..|]. apply (verdict_covers a v (request_hash request)); [done| |].
  - destruct HI as (_ & _ & _ & _ & Hv & _). by apply Hv.
  - unfold c1_request_id. by rewrite Eq.
Qed.

Lemma k_start_c1 ec : keeps_inv false (start_c1_verification ec).
Proof. enter. destruct (holds_c1_verification a); [jump k_resumed|jump k_continue_c1]. Qed.

(** ** Verdicts and rosters *)

Lemma k_buffer_c1 msg ec : verdict_ok (causation_id ec) msg → keeps_inv false (buffer_c1_verification msg ec).
Proof.
  intros Hok. enter. destruct (_ !! _) as [existing|]; [tail; apply at_ensure; [err|]; intros _; leave|].
  tail. apply at_modify.
  assert (I false (set_early_c1 (<[causation_id ec := msg]> (early_c1_verifications a)) a)) as HI'.
  { destruct HI as (? & ? & ? & ? & Hv & Hrest). do 4 (split; [done|]). split; [|done]. intros id verdict.
    change (<[causation_id ec := msg]> (early_c1_verifications a) !! id = Some verdict → verdict_ok id verdict).
    destruct (decide (id = causation_id ec)) as [->|Hne]; [rewrite lookup_insert_eq; by intros [= <-]|].
    rewrite lookup_insert_ne by done. apply Hv. }
  leave.
Qed.

Lemma k_buffer_replayed_c1 msg ec : verdict_ok (causation_id ec) msg → keeps_inv false (buffer_replayed_c1_verification msg ec).
Proof.
  intros Hok. enter. destruct (_ || _); [leave|]. apply at_preserves; [done|].
  apply preserves_then; [by apply k_buffer_c1|]. intros _. apply k_record_started.
Qed.

Lemma k_c1_complete msg ec : verdict_ok (causation_id ec) msg → keeps_inv false (handle_c1_verification_complete msg ec).
Proof.
  intros Hok. enter. destruct (_ || _); [leave|]. destruct (key_published a); [leave|].
  destruct (p_data (state a)) as [[c|v|g|d]|] eqn:Es; [by jump k_buffer_c1| |leave|leave|apply at_fail; err].
  case_bool_decide as Eid; [|leave]. apply (k_apply_c1 _ _ _ v); [done..|]. by apply (verdict_covers a v (causation_id ec)).
Qed.

Lemma k_advance a selected ec r : I false a → p_data (recovery a) = Some r → selected_roster r = Some selected →
  triple (At pub_ok a) (advance_with_roster selected ec) (λ _, Good pub_ok (I false)) (Good pub_ok (I false)).
Proof.
  intros HI Er Hsel. apply at_get. cbn zeta. view HI s r' Es Er' Hc. assert (r' = r) as -> by congruence.
  apply at_state; [err|]. intros x y Ex Ey. assert (x = s) as -> by congruence.
  pose proof (I_state _ _ _ _ false a s r y HI Es Er (begin_coherent _ _ _ _ Hc Ey Hsel)) as HI'. set (a' := fset _ a) in *.
  apply at_get. destruct (_ && _); [|leave]. apply at_preserves; [done|].
  apply preserves_then; [apply k_inputs_ready|]. intros _. enter.
  destruct (can_run_aggregation_effects a0); [jump k_continue_c1|leave].
Qed.

(** Without a roster in use, the snapshot takes a new one. *)
Lemma roster_coherent s r selected ec : coherent s r → rosters (btree_set selected) →
  selected_roster r = None ∨ (∃ c, s = SCollecting c) → coherent s (set_roster selected ec r).
Proof.
  intros [Hpub Hs] Hsel Hr. split; [split; [apply Hpub|by intros ? [= <-]]|]. destruct s as [c|v|g|d]; try done.
  - destruct Hs as (_ & _ & _ & _ & _ & _ & E). destruct Hr as [?|[? ?]]; congruence.
  - destruct Hs as [_ E]. destruct Hr as [?|[? ?]]; congruence.
Qed.

Lemma k_roster e3 party_ids ec : (e3 = a_e3_id ps → rosters party_ids) → keeps_inv false (accept_dkg_roster e3 party_ids ec).
Proof.
  intros Hros. enter. case_bool_decide as He3; cbn [negb]; [|leave]. cbn zeta. apply at_ensure; [err|]. intros Hids. view HI s r Es Er Hc.
  assert (rosters (btree_set (list_to_set party_ids))) as Hsel.
  { apply andb_true_iff in Hids as [[_ <-%bool_decide_eq_true]%andb_true_iff _]. apply Hros. rewrite He3. by destruct HI as [-> _]. }
  clear Hids.
  apply (at_try_get pub_ok a _ _ PersistFailed); [err|]. intros x Ex. assert (x = r) as -> by (cbn in Ex; congruence).
  set (selected := list_to_set party_ids : gset nat).
  assert (selected_roster r = None ∨ is_collecting a = true →
    triple (At pub_ok a) (mutate_recovery (set_roster selected ec) ;; advance_with_roster selected ec)
      (λ _, Good pub_ok (I false)) (Good pub_ok (I false))) as Hnew.
  { intros Hr. apply at_recovery; [err|]. intros x Ex'. assert (x = r) as -> by congruence.
    assert (coherent s (set_roster selected ec r)) as Hc'.
    { apply roster_coherent; [done|done|]. destruct Hr as [?|Hcol]; [by left|]. right. unfold is_collecting in Hcol.
      rewrite Es in Hcol. destruct s; try done. by eexists. }
    pose proof (I_recovery _ _ _ _ a s r _ HI Es Er Hc'). by eapply k_advance. }
  destruct (selected_roster r) as [existing|] eqn:Esel; [|apply Hnew; by left].
  case_bool_decide as Eeq; [subst existing; by eapply k_advance|].
  destruct (is_collecting a) eqn:Ecol; cbn [negb]; [apply Hnew; by right|leave].
Qed.

(** ** Recovery *)

Lemma k_forget_publication : keeps_inv false forget_saved_publication.
Proof.
  enter. destruct (p_data (recovery a)) as [r|]; [|leave]. destruct (pending_publication r); [|leave].
  apply at_preserves; [done|]. apply k_mutate_recovery. intros s r' [Hpub Hs]. split; [split; [done|apply Hpub]|]. by destruct s.
Qed.

Lemma k_resume_c5 a g : I false a → p_data (state a) = Some (SGeneratingC5Proof g) ∨
    (∃ g', p_data (state a) = Some (SGeneratingC5Proof g') ∧ gen_ok g) →
  triple (At pub_ok a) (resume_c5 g) (λ _, Good pub_ok (I false)) (Good pub_ok (I false)).
Proof.
  intros HI Hst. assert (gen_ok g) as Hg.
  { destruct Hst as [Eg|(g' & _ & ?)]; [|done]. view HI s r Es Er Hc. assert (s = SGeneratingC5Proof g) as -> by congruence.
    apply Hc. }
  apply (at_take false); [done|]. intros a' o HI' _ _. destruct (g_c5_proof_pending g); [leave|].
  destruct o as [c5|]; [apply at_modify; jump k_resumed|]. apply at_get. apply at_preserves; [done|]. apply k_send.
  assert (params a' = ps) as -> by apply HI'.
  split; [apply (gen_keyshares _ _ _ _ _ Hg)|]. split; [apply (gen_n _ _ _ _ _ Hg)|]. split; [apply (gen_h _ _ _ _ _ Hg)|].
  split; [done|]. split; [done|]. apply (gen_key _ _ _ _ _ Hg).
Qed.

Lemma k_resume_phase a s ec : I false a → p_data (state a) = Some s →
  triple (At pub_ok a) (resume_phase s ec) (λ _, Good pub_ok (I false)) (Good pub_ok (I false)).
Proof.
  intros HI Es. destruct s as [c|v|g|d]; [leave|jump k_start_c1| |leave].
  view HI s r Es' Er Hc. assert (s = SGeneratingC5Proof g) as -> by congruence. destruct Hc as [Hpub [Hg Hr]].
  unfold resume_phase. apply (at_generating false a g); [done..|by apply gen_of_forget|done|]. intros a' HI' Eg'.
  eapply (triple_bind _ _ _ _ (λ _, Good pub_ok (I false))); [apply k_resume_c5; [done|]; right; by eexists|].
  intros []. apply preserves_then; [apply k_fold_step|]. intros _. apply k_try_publish.
Qed.

Lemma k_resume_collection a r : I false a → p_data (recovery a) = Some r →
  triple (At pub_ok a) (resume_collection r) (λ _ w, Good pub_ok (I false) w ∧ p_data (recovery (st w)) = Some r) (Good pub_ok (I false)).
Proof.
  intros HI Er. apply at_get. view HI s r' Es Er' Hc. assert (r' = r) as -> by congruence. rewrite Es.
  assert (triple (E:=PkError) (At pub_ok a) (ret tt)
    (λ _ w, Good pub_ok (I false) w ∧ p_data (recovery (st w)) = Some r) (Good pub_ok (I false))) as Hret.
  { apply at_ret. intros w Hw. split; [by eapply At_good|]. by destruct Hw as [-> _]. }
  destruct s as [c|v|g|d]; try done. destruct (selected_roster r) as [selected|] eqn:Esel; [|done].
  apply at_state; [err|]. intros x y Ex Ey. assert (x = SCollecting c) as -> by congruence.
  pose proof (I_state _ _ _ _ false a _ r y HI Es Er (begin_coherent _ _ _ _ Hc Ey Esel)) as HI'. set (a' := fset _ a) in *.
  apply at_get. destruct (_ || _).
  - apply at_ret. intros w Hw. split; [by eapply At_good|]. by destruct Hw as [-> _].
  - tail. apply at_publish; [done|err|]. apply at_ret. intros w Hw. split; [by eapply At_good|]. by destruct Hw as [-> _].
Qed.

Lemma at_mark a : I false a →
  triple (At pub_ok a) mark_started_as_aggregator
    (λ _ w, Good pub_ok (I false) w ∧ p_data (state (st w)) = p_data (state a)) (Good pub_ok (I false)).
Proof.
  intros HI. view HI s r Es Er Hc.
  assert (triple (E:=PkError) (At pub_ok a) (ret tt)
    (λ _ w, Good pub_ok (I false) w ∧ p_data (state (st w)) = p_data (state a)) (Good pub_ok (I false))) as Hret.
  { apply at_ret. intros w Hw. split; [by eapply At_good|]. by destruct Hw as [-> _]. }
  apply at_get. destruct (negb _); [done|]. apply at_get. destruct (started_as_aggregator a); [done|].
  apply at_modify. set (a1 := with_role _ _ _ _ _ a). assert (I false a1) as HI1 by done.
  tail. apply at_recovery; [err|]. intros x Ex. assert (x = r) as -> by (cbn in Ex; congruence).
  assert (coherent s (set_started r)) as Hc' by (destruct Hc as [Hpub Hs]; split; [done|]; by destruct s).
  pose proof (I_recovery _ _ _ _ a1 s r (set_started r) HI1 Es Er Hc').
  apply at_ret. intros w Hw. split; [by eapply At_good|]. by destruct Hw as [-> _].
Qed.

Lemma k_resume ec : keeps_inv false (resume_in_flight_work ec).
Proof.
  apply preserves_at. intros a HI. view HI s r Es Er Hc.
  apply (at_try_get pub_ok a _ _ PersistFailed); [err|]. intros x Ex. assert (x = r) as -> by (cbn in Ex; congruence).
  apply at_ensure; [err|]. intros _. eapply triple_bind; [by apply k_resume_collection|]. intros [].
  intros w [[HI' Ho] Er']. revert w HI' Ho Er'.
  assert (∀ a', I false a' → p_data (recovery a') = Some r → triple (At pub_ok a')
    (a ⇐ get_st;
     match p_data (state a) with
     | None => ret tt
     | Some (SComplete _) => match pending_publication r with Some p => send (PublicKeyPublished p) | None => ret tt end
     | Some s =>
         if negb (can_run_aggregation_effects a ||
                  ((aggregation_started s || started_as_aggregator a) && can_continue_aggregation_effects a)) then ret tt
         else mark_started_as_aggregator ;; resume_phase s ec
     end) (λ _, Good pub_ok (I false)) (Good pub_ok (I false))) as Hcont.
  { intros a' HI' Er'. apply at_get. view HI' s' r' Es' Er'' Hc'. assert (r' = r) as -> by congruence. rewrite Es'.
    assert (triple (E:=PkError) (At pub_ok a')
      (if negb (can_run_aggregation_effects a' ||
                ((aggregation_started s' || started_as_aggregator a') && can_continue_aggregation_effects a')) then ret tt
       else mark_started_as_aggregator ;; resume_phase s' ec) (λ _, Good pub_ok (I false)) (Good pub_ok (I false))) as Hphase.
    { destruct (negb _); [leave|]. eapply triple_bind; [by apply at_mark|]. intros []. intros w [[HI2 Ho] E2].
      rewrite Es' in E2. by apply (k_resume_phase (st w)). }
    destruct s' as [c|v|g|d]; try exact Hphase. destruct (pending_publication r) as [ev|] eqn:Eev; [|leave].
    apply at_preserves; [done|]. apply k_send. by apply (proj1 Hc'). }
  intros w HI' Ho Er'. by apply (Hcont (st w)).
Qed.

Lemma k_aggregation_resume e3 phase ec : keeps_inv false (handle_aggregation_resume e3 phase ec).
Proof.
  enter. destruct (_ || _); [leave|]. destruct (p_data (state a)) as [[c|v|g|d]|]; try leave.
  - destruct (holds_c1_verification a); [jump k_continue_c1|leave].
  - apply (at_take false); [done|]. intros a' o HI' _ _. destruct o; [jump k_pk_signed|leave].
Qed.

(** ** Handlers *)

Lemma k_expelled node ec : keeps_inv false (handle_member_expelled node ec).
Proof.
  enter. destruct (key_published a); [leave|]. apply (at_try_get pub_ok a _ _ PersistFailed); [err|]. intros r _. cbn zeta.
  match goal with |- context [if ?x then _ else _] => destruct x end; [by jump k_send|].
  apply at_preserves; [done|]. apply preserves_then.
  { apply k_mutate_state. intros s r' s' Hc [= <-]. by apply key_expelled_coherent. }
  intros _. enter. apply at_preserves; [done|]. apply preserves_then.
  { destruct (_ && _); [apply k_inputs_ready|by intros w Hw]. }
  intros _. destruct (_ && _); [apply k_continue_c1|by intros w Hw].
Qed.

Lemma k_compute e3 corr response : keeps_inv false (handle_compute_response e3 corr response).
Proof.
  enter. destruct (negb _); [leave|]. destruct response as [π|π|]; [jump k_fold_response| |leave].
  view HI s r Es Er Hc. rewrite Es. destruct s as [c|v|g|d]; try leave. destruct Hc as [Hpub [Hg Hr]].
  apply at_ok_or; [err|]. intros _ _. apply (at_generating false a g); [done..|by apply gen_of_dkg_proof| |].
  { unfold accept_dkg_proof. by case_bool_decide. }
  intros a' HI' _. jump k_try_publish.
Qed.

Lemma k_add_keyshare ks node party proof : keeps_inv false (add_keyshare ks node party proof).
Proof.
  enter. view HI s r Es Er Hc. rewrite Es. destruct s as [c|v|g|d]; try leave.
  apply (at_try_get pub_ok a _ _ PersistFailed); [err|]. intros x Ex. assert (x = r) as -> by (cbn in Ex; congruence).
  tail. apply at_state; [err|]. intros x y Ex' Ey. assert (x = SCollecting c) as -> by congruence.
  pose proof (I_state _ _ _ _ false a _ r y HI Es Er (add_keyshare_coherent _ _ _ _ _ _ _ Hc Ey)). leave.
Qed.

Lemma k_keyshare event ec : keeps_inv false (handle_keyshare_created event ec).
Proof.
  enter. destruct (negb _); [leave|]. cbn zeta. apply at_preserves; [done|].
  apply preserves_then; [apply k_add_keyshare|]. intros _. enter. cbn zeta. apply at_preserves; [done|].
  apply preserves_then; [destruct (_ && _); [apply k_inputs_ready|by intros w Hw]|]. intros _. enter.
  destruct (_ && _); [jump k_start_c1|leave].
Qed.

(** What the run knows of a message: a roster or an attestation context of this E3 is one of its
    [rosters] or [contexts], and a verdict of the node's verifier follows the request that it
    answers. *)
Definition msg_ok (msg : Message) (ec : EventContext) : Prop :=
  match msg with
  | MShareVerificationComplete verdict => verdict_ok (causation_id ec) verdict
  | MCommitmentRosterSelected e3 party_ids => e3 = a_e3_id ps → rosters party_ids
  | MDkgFoldAttestationContextEstablished e3 context => e3 = a_e3_id ps → contexts context
  | _ => True
  end.

Lemma k_dispatch msg ec : msg_ok msg ec → keeps_inv false (dispatch msg ec).
Proof.
  intros Hok. enter. destruct msg; cbn [msg_ok] in Hok.
  - jump k_keyshare.
  - by jump k_roster.
  - destruct (negb _); [by jump k_buffer_replayed_c1|]. destruct (negb _); [leave|]. by jump k_c1_complete.
  - destruct (negb _); [|destruct (negb _); [leave|jump k_pk_signed]].
    apply at_get. destruct (_ || _); [leave|]. tail. apply at_modify. leave.
  - jump k_fold.
  - destruct (negb _); [leave|]. jump k_compute.
  - leave.
  - case_bool_decide as He3; [|leave]. tail. apply at_modify.
    assert (I false (with_context (Some context) a)) as HI'; [|leave].
    destruct HI as (Hp & ? & ? & _ & Hrest). do 3 (split; [done|]). split; [|done]. intros c [= <-]. apply Hok. congruence.
  - apply at_get. destruct (_ || _); [leave|]. apply at_modify. apply at_get. destruct (can_run_aggregation_effects _); [jump k_resume|leave].
  - apply at_modify. apply at_preserves; [done|]. apply preserves_then; [apply k_inputs_ready|]. intros _. apply k_resume.
  - jump k_aggregation_resume.
  - tail. apply at_modify. leave.
  - leave.
  - case_bool_decide; [|leave]. apply at_modify. jump k_forget_publication.
  - destruct (negb _); [leave|]. destruct (is_terminal stage); tail; apply at_modify; leave.
  - apply at_get. destruct party_id; [leave|]. destruct (negb _); [leave|]. jump k_expelled.
  - apply at_get. destruct party_id; [leave|]. destruct (negb _); [leave|]. jump k_expelled.
  - leave.
  - leave.
Qed.

Lemma k_handle msg ec : msg_ok msg ec → keeps_inv false (handle msg ec).
Proof.
  intros Hok. enter. destruct (stopped a); [leave|]. apply at_preserves; [done|].
  apply preserves_trap; [done|]. by apply k_dispatch.
Qed.

(** ** Restarts *)

Lemma I_new b a context agg stage : I b a → (∀ c, context = Some c → contexts c) →
  I false (new_aggregator (params a) (reload (state a)) (reload (recovery a)) context agg stage false).
Proof.
  intros (Hp & Hb & Hb' & Hcx & Hv & s & s0 & r & Hs & Hs0 & Hss & Hr & Hr0 & Hc & Hc0) Hctx.
  do 4 (split; [done|]). split.
  - intros id verdict Hl. change ((∅ : gmap B256 ShareVerificationComplete) !! id = Some verdict) in Hl. by rewrite lookup_empty in Hl.
  - exists s0, s0, r. done.
Qed.

Lemma I_stage b a : I b a → I true (fset (mkPersistable (p_data (state a)) (p_stored (state a)) true) a).
Proof.
  intros (Hp & Hb & Hb' & Hcx & Hv & s & s0 & r & Hs & Hs0 & Hss & Hr & Hr0 & Hc & Hc0).
  do 5 (split; [done|]). by exists s, s0, r.
Qed.

Lemma I_saved b b' a s r : I b a → p_data (state a) = Some s → p_data (recovery a) = Some r →
  I b' (fset (mkPersistable (Some s) (Some s) b') a).
Proof.
  intros (Hp & Hb & Hb' & Hcx & Hv & s1 & s0 & r1 & Hs & Hs0 & Hss & Hr & Hr0 & Hc & Hc0) Es Er.
  assert (s1 = s) as -> by congruence. do 5 (split; [done|]). by exists s, s, r1.
Qed.

(** What holds between messages: an actor whose restoration failed takes none. *)
Definition between (a : Aggregator) : Prop := I false a ∨ (I true a ∧ stopped a = true).

Lemma k_recover history a : I false a →
  triple (At pub_ok a) (recover_dkg_folds history) (λ _, Good pub_ok (I false)) (λ w, Good pub_ok (I false) w ∨ Good pub_ok (I true) w).
Proof.
  assert (∀ b w, Good pub_ok (I b) w → Good pub_ok (I false) w ∨ Good pub_ok (I true) w) as Hor by (intros []; auto).
  assert (∀ b (f : Mon ()), keeps_inv b f → triple (Good pub_ok (I b)) f (λ _, Good pub_ok (I b))
    (λ w, Good pub_ok (I false) w ∨ Good pub_ok (I true) w)) as Hk
    by (intros b f Hf; eapply triple_conseq; [exact Hf|done|done|apply Hor]).
  intros HI. apply at_get. view HI s r Es Er Hc. rewrite Es.
  assert (triple (At pub_ok a) (for_each history (λ '(fold, ec), handle_dkg_recursive_aggregation_complete fold ec))
    (λ _, Good pub_ok (I false)) (λ w, Good pub_ok (I false) w ∨ Good pub_ok (I true) w)) as Hall.
  { eapply (triple_pre _ (Good pub_ok (I false))); [err|]. apply Hk, preserves_for_each. intros [fold ec] _. apply k_fold. }
  destruct s as [c|v|g|d]; [exact Hall|exact Hall| |leave]. destruct (all_honest_present g); [leave|].
  apply at_modify. pose proof (I_stage _ a HI) as HIs. eapply (triple_pre _ (Good pub_ok (I true))); [err|].
  eapply triple_bind; [apply Hk, preserves_for_each; intros [fold ec] _; case_bool_decide; [by intros w Hw|apply k_fold]|].
  intros []. intros w [HI1 Ho]. revert w HI1 Ho.
  assert (∀ a1, I true a1 → triple (At pub_ok a1)
    (s ⇐ p_try_get (T:=State) PersistFailed;
     call (PersistFailed StoreRefused) ;;
     modify (λ a, fset (mkPersistable (p_data (state a)) (Some s) true) a) ;;
     call (PersistFailed StoreRefused) ;;
     modify (fset (mkPersistable (Some s) (Some s) false)))
    (λ _, Good pub_ok (I false)) (λ w, Good pub_ok (I false) w ∨ Good pub_ok (I true) w)) as Hsave.
  { intros a1 HI1. view HI1 s1 r1 Es1 Er1 Hc1.
    assert (∀ w, At pub_ok a1 w → Good pub_ok (I false) w ∨ Good pub_ok (I true) w) as He
      by (intros w Hw; right; by eapply At_good).
    apply (at_try_get (T:=State) pub_ok a1 _ _ PersistFailed); [done|]. intros x Ex. assert (x = s1) as -> by (cbn in Ex; congruence).
    apply at_call; [done|]. apply at_modify. rewrite Es1.
    pose proof (I_saved true true a1 s1 r1 HI1 Es1 Er1) as HI2. set (a2 := fset _ a1) in *.
    apply at_call; [intros w Hw; right; by eapply At_good|]. tail. apply at_modify.
    apply at_ret. intros w Hw. eapply At_good; [|exact Hw]. by apply (I_saved true false a2 s1 r1). }
  intros w HI1 Ho. by apply (Hsave (st w)).
Qed.

Lemma k_restart history context agg stage w : Good pub_ok between w → (∀ c, context = Some c → contexts c) →
  Good pub_ok between ((restart history context agg stage : Mon ()) w).2.
Proof.
  intros [HI Ho] Hctx.
  assert (I false (new_aggregator (params (st w)) (reload (state (st w))) (reload (recovery (st w))) context agg stage false)) as HI'
    by (destruct HI as [HI|[HI _]]; by eapply I_new).
  unfold restart, bind, modify. cbn beta iota zeta delta [st refusals out next_id].
  set (w' := mkWorld _ _ _ _). pose proof (k_recover history (st w') HI' w') as Hr.
  specialize (Hr (conj eq_refl Ho)). destruct (recover_dkg_folds history w') as [[[]|e] w'']; cbn.
  - destruct Hr as [? ?]. split; [by left|done].
  - destruct Hr as [[Hi Ho']|[Hi Ho']]; (split; [|done]); [by left|by right].
Qed.
End Steps.
