(* ===== verification/PublicKeyProps.v ===== *)
(** * What the public-key aggregation promises

    The theorems about every reachable state of the aggregator, the streaming of the folds, the
    committee filter in front of it and the selection of the honest set. *)

From S2P Require Import Prelude Events CommitmentLinks NodeRegistry Actor Orchestration DkgAttestation PublicKeyAggregation PublicKeyInv PublicKeySteps.
Local Open Scope nat_scope.

Section Reachable.
Context `{AlloyOps} `{AddressTextLaws} `{PublicKeyOps}.
Context (ps : Params) (addrs : list Address) (rosters : list nat → Prop) (contexts : DkgFoldAttestationContext → Prop).

Local Abbreviation Mon := (M Aggregator Publication PkError).
Local Abbreviation committee_of := (values (committee_size ps)).

(** Creation for a finalized committee, messages and restarts, in any order; the refusals of the
    bus and of the store are those of the world.  A restart finds the snapshots of an earlier point of
    the run, since the last writes may be lost: it may find those of any reachable point.  The
    rosters, the attestation contexts and the verdicts are as [msg_ok] says. *)
Inductive reachable : World Aggregator Publication → Prop :=
| reach_create n m seed committee context active effects a refuse id :
    mapM parse_address committee = Some addrs →
    create_aggregator (a_e3_id ps) (params_preset ps) n m seed committee context active effects = Ok a →
    params a = ps → (∀ c, context = Some c → contexts c) →
    reachable (mkWorld a refuse [] id)
| reach_handle w msg ec : reachable w → msg_ok ps rosters contexts msg ec → reachable ((handle msg ec : Mon ()) w).2
| reach_restart w stored history context active stage : reachable w → reachable stored → (∀ c, context = Some c → contexts c) →
    reachable ((restart history context active stage : Mon ()) (mkWorld (st stored) (refusals w) (out w) (next_id w))).2.

Lemma create_inv n m seed committee context active effects a :
  mapM parse_address committee = Some addrs →
  create_aggregator (a_e3_id ps) (params_preset ps) n m seed committee context active effects = Ok a → params a = ps →
  (∀ c, context = Some c → contexts c) → I ps addrs rosters contexts false a.
Proof.
  intros Hc Ha Hp Hctx. unfold create_aggregator, init, committee_h_for in Ha. rewrite Hc in Ha.
  destruct (negb _); [done|]. destruct (from_threshold m n) as [size|] eqn:Ef; [|done]. injection Ha as <-.
  pose proof (f_equal committee_size Hp) as Hsize. cbn in Hsize. subst size.
  split; [done|]. split; [done|]. split; [done|]. split; [done|]. split.
  { intros id verdict Hl. change ((∅ : gmap B256 ShareVerificationComplete) !! id = Some verdict) in Hl. by rewrite lookup_empty in Hl. }
  apply committee_lookup_exact in Ef. injection Ef as Em En.
  eexists _, _, _. repeat split; try done; try apply NoDup_nil_2.
Qed.

Lemma key_reachable_inv w : reachable w → Good (pub_ok ps addrs rosters contexts) (between ps addrs rosters contexts) w.
Proof.
  induction 1 as [n m seed committee context active effects a refuse id Hc Ha Hp Hctx|w msg ec _ IH Hok
    |w stored history context active stage _ IH _ IH' Hctx].
  - split; [|constructor]. left. by eapply create_inv.
  - destruct IH as [[HI|[HI Hst]] Ho].
    + pose proof (k_handle ps addrs rosters contexts msg ec Hok w (conj HI Ho)) as Hk.
      destruct (handle msg ec w) as [[[]|e] w']; destruct Hk as [? ?]; (split; [by left|done]).
    + unfold handle, bind, get_st. cbn. rewrite Hst. cbn. split; [by right|done].
  - apply k_restart; [|done]. split; [apply IH'|apply IH].
Qed.

(** Every request for a C5 proof, in any run and after any restart, is for the committee's
    sizes and carries exactly [H] keyshares whose aggregate is the public key it names, each with
    a signed C1 proof whose public output is the commitment of that very keyshare. *)
Theorem c5_requests_sound w q pk nodes :
  reachable w → C5ProofRequested q pk nodes ∈ out w →
  q_committee_n q = cc_n committee_of ∧ q_committee_h q = cc_h committee_of ∧
  q_committee_threshold q = cc_threshold committee_of ∧ length (q_keyshare_bytes q) = cc_h committee_of ∧
  q_aggregated_pk_bytes q = pk ∧ get_aggregate_public_key (list_to_set (q_keyshare_bytes q)) = Some pk ∧
  ∀ i ks, q_keyshare_bytes q !! i = Some ks → ∃ signed commitment,
    keyshare_commitment ks = Some commitment ∧ proof_output (pp_proof (payload signed)) "pk_commitment" = Some commitment.
Proof.
  intros [_ Ho]%key_reachable_inv Hin. rewrite Forall_forall in Ho.
  destruct (Ho _ Hin) as ((proofs & Hlen & Hks) & Hn & Hh & Ht & Hpk & Hagg). do 6 (split; [done|]). intros i ks Hi.
  destruct (Forall2_lookup_l _ _ _ _ _ Hks Hi) as (signed & _ & Hm). unfold c1_matches in Hm.
  destruct (keyshare_commitment ks) as [commitment|]; [|done]. bool_to_prop. by exists signed, commitment.
Qed.

(** C3: The DKG aggregation only handles attested folds, each in the slot of its dealer.  A fold step
    is one of [H] slots, starts from no accumulator exactly at slot zero, and folds the attested proof
    of the party in that place of a roster selected for this E3; the final request has one attested
    proof for each of the [H] ascending parties of such a roster, the finished accumulator and the whole
    committee; a published key names the whole committee and the addresses of the [H] members of such a
    roster in ascending order.  Attested means: stated for this E3, the slot and the registry and
    contract established for it, signed by the committee member of the slot, over what the proof
    outputs.  Verdicts are assumed to name the parties that their request listed as without a proof. *)
Theorem dkg_publications_sound w o :
  reachable w → o ∈ out w →
  match o with
  | NodesFoldStepRequested _ proof prior slot total =>
      total = cc_h committee_of ∧ slot < total ∧ (prior = None ↔ slot = 0) ∧
      ∃ ids party, rosters ids ∧ StronglySorted lt ids ∧ length ids = total ∧ ids !! slot = Some party ∧
        attested ps addrs contexts party proof
  | DkgAggregationRequested _ q =>
      rosters (q_party_ids q) ∧ StronglySorted lt (q_party_ids q) ∧ length (q_party_ids q) = cc_h committee_of ∧
      Forall2 (attested ps addrs contexts) (q_party_ids q) (q_node_fold_proofs q) ∧ is_Some (q_nodes_fold_proof q) ∧
      q_committee_addresses q = addrs
  | PublicKeyPublished ev =>
      pa_committee_addresses ev = addrs ∧ length (pa_pk_commitment ev) = 32 ∧
      ∃ ids, rosters ids ∧ StronglySorted lt ids ∧ length ids = cc_h committee_of ∧
        Forall2 (λ i a, addrs !! i = Some a) ids (pa_honest_committee_addresses ev)
  | _ => True
  end.
Proof.
  intros [_ Ho]%key_reachable_inv Hin. rewrite Forall_forall in Ho. specialize (Ho _ Hin). destruct o; try done.
  cbn in Ho. by destruct Ho as (-> & ? & ? & ?).
Qed.

(** C11: C1 verification and aggregation are about the accepted dealer roster: from the moment the
    submissions are frozen, their parties are exactly the [H] distinct members of the roster in
    the recovery record, a roster selected for this E3, and so are the parties of the aggregated key.
    This holds in memory, in every reachable state, also after restarts that lost the last writes.
    Verdicts are assumed to name the parties that their request listed as without a proof. *)
Theorem aggregation_follows_roster w s r :
  reachable w → stopped (st w) = false → p_data (state (st w)) = Some s → p_data (recovery (st w)) = Some r →
  (∀ R, selected_roster r = Some R → rosters (btree_set R)) ∧
  match s with
  | SVerifyingC1 v =>
      length (v_submission_order v) = cc_h committee_of ∧ length (v_c1_proofs v) = cc_h committee_of ∧
      NoDup ((λ e : Submission, e.1.1) <$> v_submission_order v) ∧
      selected_roster r = Some (list_to_set ((λ e : Submission, e.1.1) <$> v_submission_order v))
  | SGeneratingC5Proof g =>
      selected_roster r = Some (g_honest_party_ids g) ∧ size (g_honest_party_ids g) = cc_h committee_of ∧
      length (g_keyshare_bytes g) = cc_h committee_of ∧ g_nodes_fold_completed_slots g ≤ cc_h committee_of
  | _ => True
  end.
Proof.
  intros [HI _]%key_reachable_inv Hst Es Er.
  assert (I ps addrs rosters contexts false (st w)) as HI' by (destruct HI as [?|[_ ?]]; [done|congruence]).
  apply I_view in HI' as (s' & r' & Hs & Hr & Hc). assert (s' = s) as -> by congruence. assert (r' = r) as -> by congruence.
  split; [apply (proj1 Hc)|]. destruct s as [c|v|g|d]; try done.
  - destruct Hc as (_ & _ & _ & _ & _ & [Hlen Hnd] & [Hsz _] & Hsel). rewrite size_list_to_set, length_fmap in Hsz by done.
    rewrite Hlen. done.
  - destruct Hc as [_ [Hg Hsel]]. destruct (gen_roster _ _ _ _ _ Hg), (gen_keyshares _ _ _ _ _ Hg) as (? & ? & _).
    split; [done|]. split; [done|]. split; [done|]. apply (gen_slots _ _ _ _ _ Hg).
Qed.
End Reachable.

(** ** Streaming the folds *)

Section Stream.
Context `{AlloyOps} `{AddressTextLaws} `{PublicKeyOps}.

Local Abbreviation Mon := (M Aggregator Publication PkError).
Local Abbreviation W := (World Aggregator Publication).

(** The active aggregator in the C5 phase with the folds of [g]: [i] slots are streamed into
    [acc], the step [corr] is in flight, and nothing is refused. *)
Record at_slot (g : GeneratingC5Proof) (i : nat) (acc : option Proof_) (corr : option Z) (w : W) : Prop := {
  slot_state : state (st w) = mkPersistable (Some (SGeneratingC5Proof (set_fold_step acc i corr g)))
                 (Some (SGeneratingC5Proof (set_fold_step acc i corr g))) false;
  slot_refusals : refusals w = [];
  slot_role : is_aggregator (st w) = true ∧ effects_enabled (st w) = true ∧ stopped (st w) = false }.

(** Everything that the stream needs is there. *)
Record streamable (g : GeneratingC5Proof) (addresses : list Address) : Prop := {
  stream_all : ∀ p, p ∈ g_honest_party_ids g → ∃ π, g_dkg_node_proofs g !! p = Some (Some π);
  stream_some : g_honest_party_ids g ≠ ∅;
  stream_idle : g_dkg_aggregation_correlation g = None ∧ g_dkg_aggregated_proof g = None;
  stream_ec : is_Some (g_last_ec g);
  stream_c5 : is_Some (g_c5_proof_pending g);
  stream_committee : committee_addresses_in_party_order (full_committee g) (g_party_nodes g) = Ok addresses }.

(** The fold of the party in a slot. *)
Definition slot_proof (g : GeneratingC5Proof) (i : nat) : option Proof_ :=
  p ← btree_set (g_honest_party_ids g) !! i; default None (g_dkg_node_proofs g !! p).

Lemma slot_proof_some g addresses i : streamable g addresses → i < size (g_honest_party_ids g) →
  ∃ p π, btree_set (g_honest_party_ids g) !! i = Some p ∧ g_dkg_node_proofs g !! p = Some (Some π) ∧ slot_proof g i = Some π.
Proof.
  intros Hg Hi. rewrite <- length_btree_set in Hi. destruct (lookup_lt_is_Some_2 _ _ Hi) as [p Hp].
  destruct (stream_all _ _ Hg p) as [π Hπ]; [apply elem_of_btree_set, list_elem_of_lookup; by eexists|].
  exists p, π. split; [done|]. split; [done|]. unfold slot_proof. rewrite Hp. cbn. by rewrite Hπ.
Qed.

(** The state fields that the effects read do not depend on the slot. *)
Lemma step_dispatch g addresses i acc w π : streamable g addresses → at_slot g i acc None w →
  i < size (g_honest_party_ids g) → slot_proof g i = Some π →
  ∃ w', (try_dispatch_nodes_fold_step : Mon ()) w = (Ok tt, w') ∧ at_slot g i acc (Some (next_id w)) w' ∧
    out w' = out w ++ [NodesFoldStepRequested (next_id w) π acc i (size (g_honest_party_ids g))] ∧ next_id w' = (next_id w + 1)%Z ∧
    params (st w') = params (st w).
Proof.
  intros Hg [Hst Href Hrole] Hi Hsp. destruct (slot_proof_some g addresses i Hg Hi) as (p & π' & Hp & Hπ & E). assert (π' = π) as -> by congruence.
  destruct (stream_idle _ _ Hg) as [Hidle1 Hidle2]. destruct w as [a rf o id]. cbn in *. subst rf.
  unfold try_dispatch_nodes_fold_step, bind, get_st. cbn. rewrite Hst. cbn. rewrite Hidle1, Hidle2. cbn.
  destruct (Nat.leb_spec (size (g_honest_party_ids g)) i); [lia|]. rewrite Hp, Hπ.
  unfold bind, new_correlation_id, send, publish, bind, call, emit, mutate_state, try_mutate, bind, get_st, ok_or, lift, write_value_to_store, set_data, bind, get_st. cbn.
  rewrite Hst. cbn. rewrite Hst. cbn. eexists. split; [reflexivity|]. split; [split; [cbn; by rewrite Hst|done|done]|done].
Qed.

Lemma dkg_dispatch g addresses acc w c5 : streamable g addresses → at_slot g (size (g_honest_party_ids g)) acc None w →
  g_c5_proof_pending g = Some c5 →
  ∃ w', (try_dispatch_nodes_fold_step : Mon ()) w = (Ok tt, w') ∧
    out w' = out w ++ [DkgAggregationRequested (next_id w)
      (mkDkgRequest (honest_pairs g).*2 acc c5 (btree_set (g_honest_party_ids g)) addresses)].
Proof.
  intros Hg [Hst Href Hrole] Hc5. destruct (stream_idle _ _ Hg) as [Hidle1 Hidle2].
  destruct (honest_pairs_spec g (stream_all _ _ Hg)) as [Hids _].
  assert (all_honest_present g = true) as Hpresent.
  { apply forallb_forall. intros p Hp%list_elem_of_In%elem_of_elements. destruct (stream_all _ _ Hg p Hp) as [π ->].
    apply bool_decide_eq_true. by eexists. }
  assert (some_count g = size (g_honest_party_ids g)) as Hcount.
  { unfold some_count, size, set_size. cbn. f_equal. rewrite (List.filter_ext_in _ (λ _, true)).
    - induction (elements _); cbn; congruence.
    - intros p Hp%list_elem_of_In%elem_of_elements. by destruct (stream_all _ _ Hg p Hp) as [π ->]. }
  assert (length (honest_pairs g) ≠ 0) as Hne.
  { rewrite <- (length_fmap fst), Hids, length_btree_set. intros E%size_empty_inv. by apply (stream_some _ _ Hg), leibniz_equiv. }
  destruct w as [a rf o id]. cbn in *. subst rf.
  unfold try_dispatch_nodes_fold_step, bind, get_st. cbn. rewrite Hst. cbn. rewrite Hidle1, Hidle2. cbn.
  rewrite Nat.leb_refl. unfold try_dispatch_dkg_aggregation, bind, get_st. cbn. rewrite Hst. cbn. rewrite Hc5, Hidle1, Hidle2. cbn.
  set (g' := set_fold_step _ _ _ g).
  change (all_honest_present g') with (all_honest_present g). rewrite Hpresent. cbn [negb].
  change (some_count g') with (some_count g). rewrite Hcount, Nat.eqb_refl. cbn [negb]. rewrite andb_false_r.
  change (honest_pairs g') with (honest_pairs g). destruct (Nat.eqb_spec (length (honest_pairs g)) 0); [done|].
  destruct (Nat.eqb_spec (g_nodes_fold_completed_slots g') (size (g_honest_party_ids g'))) as [_|Hn]; [|by destruct Hn].
  cbn [negb]. change (full_committee g') with (full_committee g).
  rewrite (stream_committee _ _ Hg). unfold lift, ret, bind, new_correlation_id, send, publish, bind, call, emit, mutate_state, try_mutate,
    bind, get_st, ok_or, lift, write_value_to_store, set_data, bind, get_st. cbn.
  rewrite Hst. cbn. rewrite Hst. cbn. eexists. split; [reflexivity|]. cbn. by rewrite Hids.
Qed.

(** The answers of the worker, each to the step in flight. *)
Fixpoint answer (e3 : E3id) (ec : EventContext) (answers : list Proof_) (w : W) : W :=
  match answers with
  | [] => w
  | π :: rest =>
      answer e3 ec rest (handle (MComputeResponse e3 (next_id w - 1) (NodesFoldStepResponse π)) ec w).2
  end.

(** The requests of the stream: one step per slot, then the aggregation. *)
Fixpoint expected_requests (g : GeneratingC5Proof) (i : nat) (acc : option Proof_) (id : Z) (answers : list Proof_)
    : list (option Publication) :=
  match answers with
  | [] => []
  | π :: rest =>
      ((λ inner, NodesFoldStepRequested id inner acc i (size (g_honest_party_ids g))) <$> slot_proof g i)
      :: expected_requests g (S i) (Some π) (id + 1) rest
  end.

#[local] Opaque try_dispatch_nodes_fold_step.

Lemma handle_answer g i acc w π e3 ec :
  at_slot g i acc (Some (next_id w - 1)%Z) w → e3 = a_e3_id (params (st w)) → is_Some (g_last_ec g) →
  ∃ w1, at_slot g (S i) (Some π) None w1 ∧ out w1 = out w ∧ next_id w1 = next_id w ∧ params (st w1) = params (st w) ∧
    ∀ x w', (try_dispatch_nodes_fold_step : Mon ()) w1 = (Ok x, w') →
      (handle (MComputeResponse e3 (next_id w - 1) (NodesFoldStepResponse π)) ec w).2 = w'.
Proof.
  intros [Hst Href (Ha & He & Hs)] -> [ec' Hec]. destruct w as [a rf o id]. cbn in *. subst rf.
  eexists (mkWorld (fset (mkPersistable (Some (SGeneratingC5Proof (set_fold_step (Some π) (S i) None g)))
      (Some (SGeneratingC5Proof (set_fold_step (Some π) (S i) None g))) false) a) [] o id).
  split; [by split|]. split; [done|]. split; [done|]. split; [done|]. intros x w' Hw'.
  unfold handle, bind, get_st. cbn. rewrite Hs. unfold trap, dispatch, bind, get_st. cbn.
  unfold can_continue_aggregation_effects. rewrite Ha, He. cbn. unfold handle_compute_response, bind, get_st. cbn.
  rewrite bool_decide_eq_true_2 by done. cbn. unfold handle_nodes_fold_step_response, bind, get_st. cbn. rewrite Hst. cbn.
  rewrite bool_decide_eq_true_2 by done. cbn. rewrite Hec. cbn.
  unfold mutate_state, try_mutate, bind, get_st, ok_or, lift, write_value_to_store, set_data, bind, get_st, call. cbn.
  rewrite Hst. cbn. rewrite Hst. cbn. rewrite Hst. cbn [p_staging]. rewrite Nat.add_1_r.
  match goal with |- context [try_dispatch_nodes_fold_step ?w0] => change (try_dispatch_nodes_fold_step w0 = (Ok x, w')) in Hw' end.
  by rewrite Hw'.
Qed.

(** C12: The folds are streamed to the end.  Once the folds of all honest parties and the C5 proof
    are there, the active aggregator asks, answer by answer, for one step per party in ascending
    order, each on the accumulator of the step before, and then for the aggregation of all of
    them with the last accumulator. *)
Theorem folds_are_streamed g addresses c5 e3 ec (answers : list Proof_) (last : Proof_) w :
  streamable g addresses → g_c5_proof_pending g = Some c5 → at_slot g 0 None None w → e3 = a_e3_id (params (st w)) →
  S (length answers) = size (g_honest_party_ids g) →
  ∃ w0 final, (try_dispatch_nodes_fold_step : Mon ()) w = (Ok tt, w0) ∧
    Some <$> out (answer e3 ec (answers ++ [last]) w0) =
      (Some <$> out w) ++ expected_requests g 0 None (next_id w) (answers ++ [last]) ++
      [Some (DkgAggregationRequested final
         (mkDkgRequest (honest_pairs g).*2 (Some last) c5 (btree_set (g_honest_party_ids g)) addresses))] ∧
    Forall is_Some (expected_requests g 0 None (next_id w) (answers ++ [last])).
Proof.
  intros Hg Hc5 Hat He3 Hlen.
  assert (∀ l i acc w0 id, at_slot g i acc (Some (next_id w0 - 1)%Z) w0 → e3 = a_e3_id (params (st w0)) →
    i + S (length l) = size (g_honest_party_ids g) → id = next_id w0 →
    ∃ final, Some <$> out (answer e3 ec (l ++ [last]) w0) =
      (Some <$> out w0) ++ drop 1 (expected_requests g i acc (id - 1) (l ++ [last])) ++
      [Some (DkgAggregationRequested final
         (mkDkgRequest (honest_pairs g).*2 (Some last) c5 (btree_set (g_honest_party_ids g)) addresses))] ∧
      Forall is_Some (drop 1 (expected_requests g i acc (id - 1) (l ++ [last])))) as Hmain.
  { induction l as [|π l IH]; intros i acc w0 id Hat0 He Hl ->.
    - destruct (handle_answer g i acc w0 last e3 ec Hat0 He (stream_ec _ _ Hg)) as (w1 & Hat1 & Ho1 & Hn1 & Hp1 & Hh).
      assert (S i = size (g_honest_party_ids g)) as Hi by (cbn in Hl; lia). rewrite Hi in Hat1.
      destruct (dkg_dispatch g addresses (Some last) w1 c5 Hg Hat1 Hc5) as (w' & Hd & Ho'). exists (next_id w1).
      cbn [app answer expected_requests drop]. rewrite (Hh _ _ Hd), Ho', Ho1, fmap_app. by split.
    - destruct (handle_answer g i acc w0 π e3 ec Hat0 He (stream_ec _ _ Hg)) as (w1 & Hat1 & Ho1 & Hn1 & Hp1 & Hh).
      assert (S i < size (g_honest_party_ids g)) as Hi by (cbn in Hl; lia).
      destruct (slot_proof_some g addresses (S i) Hg Hi) as (p & inner & _ & _ & Hsp).
      destruct (step_dispatch g addresses (S i) (Some π) w1 inner Hg Hat1 Hi Hsp) as (w' & Hd & Hat' & Ho' & Hn' & Hp').
      destruct (IH (S i) (Some π) w' (next_id w')) as (final & Hout & Hf); [| |cbn in Hl; lia|done|].
      { rewrite Hn'. by replace (next_id w1 + 1 - 1)%Z with (next_id w1) by lia. }
      { congruence. }
      exists final. cbn [app answer]. rewrite (Hh _ _ Hd), Hout, Ho', Ho1.
      rewrite Hn', Hn1 in Hf |- *. replace (next_id w0 + 1 - 1)%Z with (next_id w0) in Hf |- * by lia.
      cbn [expected_requests drop]. replace (next_id w0 - 1 + 1)%Z with (next_id w0) by lia.
      destruct (l ++ [last]) as [|x rest] eqn:El; [by destruct l|]. cbn [expected_requests drop] in Hf |- *.
      rewrite Hsp. cbn [fmap option_fmap option_map]. rewrite fmap_app, <- !app_assoc. cbn [fmap list_fmap app].
      split; [done|]. constructor; [by eexists|done]. }
  assert (0 < size (g_honest_party_ids g)) as H0' by lia.
  destruct (slot_proof_some g addresses 0 Hg H0') as (p & inner & _ & _ & Hsp).
  destruct (step_dispatch g addresses 0 None w inner Hg Hat H0' Hsp) as (w0 & Hd & Hat0 & Ho0 & Hn0 & Hp0).
  exists w0. destruct (Hmain answers 0 None w0 (next_id w0)) as (final & Hout & Hf); [| |done|done|].
  { rewrite Hn0. by replace (next_id w + 1 - 1)%Z with (next_id w) by lia. }
  { congruence. }
  exists final. split; [done|]. rewrite Hout, Ho0. rewrite Hn0 in Hf |- *.
  replace (next_id w + 1 - 1)%Z with (next_id w) in Hf |- * by lia.
  destruct (answers ++ [last]) as [|x rest] eqn:El; [by destruct answers|]. cbn [expected_requests drop] in Hf |- *.
  rewrite Hsp. cbn [fmap option_fmap option_map]. rewrite fmap_app, <- !app_assoc. cbn [fmap list_fmap app].
  split; [done|]. constructor; [by eexists|done].
Qed.
End Stream.

(** ** The committee filter *)

Section Filter.
Context `{AddressText}.

Abbreviation Inputs := (list (Message * EventContext)).

(** The filter over a sequence of messages, with everything that it forwards. *)
Fixpoint filter_run (b : FilterBuffer) (l : Inputs) : FilterBuffer * Inputs :=
  match l with
  | [] => (b, [])
  | (msg, ec) :: l' =>
      let '(b1, o1) := buffer_handle b msg ec in
      let '(b2, o2) := filter_run b1 l' in (b2, o1 ++ o2)
  end.

Definition is_keyshare (e : Message * EventContext) : bool := match e.1 with MKeyshareCreated _ => true | _ => false end.

(** The address that a removal by address names. *)
Definition removed (msg : Message) : option Address :=
  match msg with
  | MCommitteeMemberExpelled _ node None | MCommitteeMemberExcluded _ node None => Some node
  | _ => None
  end.

(** Messages that neither finalize the committee nor end the request. *)
Definition quiet (e : Message * EventContext) : Prop :=
  match e.1 with MCommitteeFinalized _ | ME3RequestComplete | MShutdown => False | _ => True end.

Definition passes (c : list string) (expelled : gset Address) (e : Message * EventContext) : bool :=
  match e.1 with MKeyshareCreated data => keyshare_passes c expelled data | _ => false end.

(** The keyshares that arrive after finalization: each is judged by the removals before it. *)
Fixpoint admitted (c : list string) (expelled : gset Address) (l : Inputs) : Inputs :=
  match l with
  | [] => []
  | e :: l' =>
      (if passes c expelled e then [e] else []) ++
      admitted c (match removed e.1 with Some node => {[node]} ∪ expelled | None => expelled end) l'
  end.

Definition removals (l : Inputs) : gset Address := list_to_set (omap (λ e, removed e.1) l).

Lemma passes_mono c (E E' : gset Address) e : E ⊆ E' → passes c E' e = true → passes c E e = true.
Proof.
  unfold passes. destruct e as [[] ec]; try done. cbn. unfold keyshare_passes. intros Hsub.
  destruct (committee_member_matches _ _ _); [|done]. cbn. destruct (parse_address (kc_node data)) as [a|]; [|done].
  repeat case_bool_decide; set_solver.
Qed.

(** Dropping the keyshares of a node and filtering is filtering with the node removed. *)
Lemma passes_removed c E node e : is_keyshare e = true →
  passes c ({[node]} ∪ E) e =
  passes c E e && match e.1 with MKeyshareCreated d => negb (address_matches (kc_node d) node) | _ => true end.
Proof.
  unfold passes, is_keyshare. destruct e as [[] ec]; try done. intros _. cbn. unfold keyshare_passes, address_matches.
  destruct (committee_member_matches _ _ _); [|done]. cbn. destruct (parse_address (kc_node data)) as [a|]; [|done].
  destruct (Z.eqb_spec a node); repeat case_bool_decide; try set_solver.
Qed.

Lemma drop_passes c E node l : Forall (λ e, is_keyshare e = true) l →
  List.filter (passes c ({[node]} ∪ E)) (drop_keyshares_of node l) = List.filter (passes c ({[node]} ∪ E)) l.
Proof.
  induction 1 as [|e l He _ IH]; [done|]. unfold drop_keyshares_of in *. cbn [List.filter].
  rewrite (passes_removed c E node e He). destruct e as [[] ec]; try done. cbn [fst].
  destruct (address_matches (kc_node data) node) eqn:Em; cbn [negb andb List.filter].
  - by rewrite andb_false_r.
  - rewrite (passes_removed c E node _ He). cbn [fst]. rewrite Em. cbn [negb]. rewrite andb_true_r.
    destruct (passes c E _); cbn; by rewrite IH.
Qed.

Lemma drop_keyshares node l : Forall (λ e, is_keyshare e = true) l → Forall (λ e, is_keyshare e = true) (drop_keyshares_of node l).
Proof. rewrite !Forall_forall. intros Hl e He. apply Hl. apply list_elem_of_In, filter_In in He as [He _]. by apply list_elem_of_In. Qed.

(** Before finalization, keyshares are held back; removals drop what is held. *)
Lemma run_before c l b b' o : committee b = None → Forall (λ e, is_keyshare e = true) (buffer b) → Forall quiet l →
  filter_run b l = (b', o) →
  committee b' = None ∧ expelled_nodes b' = removals l ∪ expelled_nodes b ∧ Forall (λ e, is_keyshare e = true) (buffer b') ∧
  List.filter is_keyshare o = [] ∧
  List.filter (passes c (removals l ∪ expelled_nodes b)) (buffer b') =
  List.filter (passes c (removals l ∪ expelled_nodes b)) (buffer b ++ List.filter is_keyshare l).
Proof.
  intros Hc Hb Hq. revert b b' o Hc Hb. induction Hq as [|[msg ec] l Hm Hl IH]; intros b b' o Hc Hb Hrun; cbn [filter_run] in Hrun.
  { injection Hrun as <- <-. unfold removals. cbn. rewrite app_nil_r. repeat split; try done. set_solver. }
  destruct (buffer_handle b msg ec) as [b1 o1] eqn:E1. destruct (filter_run b1 l) as [b2 o2] eqn:E2. injection Hrun as <- <-.
  assert (∀ o1, is_keyshare (msg, ec) = false → removed msg = None → b1 = b → (o1 = [] ∨ o1 = [(msg, ec)]) →
    committee b2 = None ∧ expelled_nodes b2 = removals ((msg, ec) :: l) ∪ expelled_nodes b ∧ Forall (λ e, is_keyshare e = true) (buffer b2) ∧
    List.filter is_keyshare (o1 ++ o2) = [] ∧
    List.filter (passes c (removals ((msg, ec) :: l) ∪ expelled_nodes b)) (buffer b2) =
    List.filter (passes c (removals ((msg, ec) :: l) ∪ expelled_nodes b)) (buffer b ++ List.filter is_keyshare ((msg, ec) :: l))) as Hskip.
  { intros o1' Hk Hr -> Ho. destruct (IH b b2 o2) as (H1 & H2 & H3 & H4 & H5); [done..|].
    assert (removals ((msg, ec) :: l) = removals l) as -> by (unfold removals; cbn; by rewrite Hr).
    cbn [List.filter]. rewrite Hk. do 3 (split; [done|]). split; [|done].
    destruct Ho as [-> | ->]; cbn [app List.filter]; [done|]. by rewrite Hk. }
  assert (∀ node, is_keyshare (msg, ec) = false → removed msg = Some node →
    (if bool_decide (node ∈ expelled_nodes b) then (b, [])
     else (mkFilterBuffer (committee b) (drop_keyshares_of node (buffer b)) ({[node]} ∪ expelled_nodes b), [(msg, ec)])) = (b1, o1) →
    committee b2 = None ∧ expelled_nodes b2 = removals ((msg, ec) :: l) ∪ expelled_nodes b ∧ Forall (λ e, is_keyshare e = true) (buffer b2) ∧
    List.filter is_keyshare (o1 ++ o2) = [] ∧
    List.filter (passes c (removals ((msg, ec) :: l) ∪ expelled_nodes b)) (buffer b2) =
    List.filter (passes c (removals ((msg, ec) :: l) ∪ expelled_nodes b)) (buffer b ++ List.filter is_keyshare ((msg, ec) :: l))) as Hrem.
  { intros node Hk Hr Eb. cbn [List.filter]. rewrite Hk.
    assert (removals ((msg, ec) :: l) = {[node]} ∪ removals l) as Er by (unfold removals; cbn; by rewrite Hr).
    case_bool_decide as Hin; injection Eb as <- <-.
    - destruct (IH b b2 o2) as (H1 & H2 & H3 & H4 & H5); [done..|]. rewrite Er.
      replace ({[node]} ∪ removals l ∪ expelled_nodes b) with (removals l ∪ expelled_nodes b) by set_solver. done.
    - destruct (IH (mkFilterBuffer (committee b) (drop_keyshares_of node (buffer b)) ({[node]} ∪ expelled_nodes b)) b2 o2
        Hc (drop_keyshares node _ Hb) E2) as (H1 & H2 & H3 & H4 & H5). cbn [expelled_nodes buffer] in *. rewrite Er.
      replace ({[node]} ∪ removals l ∪ expelled_nodes b) with (removals l ∪ ({[node]} ∪ expelled_nodes b)) by set_solver.
      do 3 (split; [done|]). split; [cbn [app List.filter]; by rewrite Hk|]. rewrite H5, !List.filter_app. f_equal.
      replace (removals l ∪ ({[node]} ∪ expelled_nodes b)) with ({[node]} ∪ (removals l ∪ expelled_nodes b)) by set_solver.
      by apply drop_passes. }
  destruct msg; cbn [buffer_handle] in E1; try (injection E1 as <- <-; by apply Hskip; auto); try done.
  - rewrite Hc in E1. injection E1 as <- <-.
    destruct (IH (mkFilterBuffer None (buffer b ++ [(MKeyshareCreated data, ec)]) (expelled_nodes b)) b2 o2) as (H1 & H2 & H3 & H4 & H5);
      [done|cbn; apply Forall_app; split; [done|by constructor]|done|].
    cbn [expelled_nodes buffer] in *. unfold removals in *. cbn [omap list_omap removed fst] in *.
    do 4 (split; [done|]). rewrite H5. cbn [List.filter is_keyshare fst]. by rewrite <- app_assoc.
  - destruct party_id; [injection E1 as <- <-; by apply Hskip; auto|]. by apply (Hrem node).
  - destruct party_id; [injection E1 as <- <-; by apply Hskip; auto|]. by apply (Hrem node).
Qed.

(** After finalization, the filter judges each keyshare as it comes. *)
Lemma run_after c l b : committee b = Some c → buffer b = [] → Forall quiet l →
  List.filter is_keyshare (filter_run b l).2 = admitted c (expelled_nodes b) l.
Proof.
  intros Hc Hb Hq. revert b Hc Hb. induction Hq as [|[msg ec] l Hm Hl IH]; intros b Hc Hb; [done|]. cbn [filter_run admitted].
  destruct (buffer_handle b msg ec) as [b1 o1] eqn:E1. pose proof (IH b1) as IHb.
  destruct (filter_run b1 l) as [b2 o2]. cbn [snd] in *. rewrite List.filter_app.
  assert (∀ node, removed msg = Some node → is_keyshare (msg, ec) = false →
    (if bool_decide (node ∈ expelled_nodes b) then (b, [])
     else (mkFilterBuffer (committee b) (drop_keyshares_of node (buffer b)) ({[node]} ∪ expelled_nodes b), [(msg, ec)])) = (b1, o1) →
    List.filter is_keyshare o1 ++ List.filter is_keyshare o2 = [] ++ admitted c ({[node]} ∪ expelled_nodes b) l) as Hrem.
  { intros node Hr Hk Eb. rewrite Hb in Eb. case_bool_decide as Hin; injection Eb as <- <-; cbn [List.filter app].
    - rewrite IHb by done. by replace ({[node]} ∪ expelled_nodes b) with (expelled_nodes b) by set_solver.
    - rewrite Hk. by rewrite IHb. }
  destruct msg; cbn [buffer_handle] in E1; try done;
    try (injection E1 as <- <-; cbn [List.filter is_keyshare passes removed fst app]; by rewrite IHb).
  - rewrite Hc in E1. cbn [passes removed fst]. destruct (keyshare_passes c (expelled_nodes b) data); injection E1 as <- <-;
      cbn [List.filter is_keyshare fst app]; by rewrite IHb.
  - destruct party_id; cbn [passes removed fst]; [injection E1 as <- <-; cbn [List.filter app]; by rewrite IHb|]. by apply (Hrem node).
  - destruct party_id; cbn [passes removed fst]; [injection E1 as <- <-; cbn [List.filter app]; by rewrite IHb|]. by apply (Hrem node).
Qed.

(** The committee filter passes on exactly the keyshares of committee members in their own
    slots: those received before finalization, in order, unless their node was removed in the
    meantime, and then each later one unless its node was removed before it. *)
Theorem filter_forwards_exactly (before after : Inputs) (members : list string) (ec : EventContext) :
  Forall quiet before → Forall quiet after →
  let c := sort_by_address members in
  List.filter is_keyshare (filter_run new_filter_buffer (before ++ (MCommitteeFinalized members, ec) :: after)).2 =
  List.filter (passes c (removals before)) before ++ admitted c (removals before) after.
Proof.
  intros Hb Ha c.
  assert (∀ l1 l2 b, filter_run b (l1 ++ l2) =
    let '(b1, o1) := filter_run b l1 in let '(b2, o2) := filter_run b1 l2 in (b2, o1 ++ o2)) as Happ.
  { induction l1 as [|[msg ec'] l1 IH]; intros l2 b; cbn [app filter_run]; [by destruct (filter_run b l2)|].
    destruct (buffer_handle b msg ec') as [b1 o1]. rewrite IH. destruct (filter_run b1 l1) as [b2 o2].
    destruct (filter_run b2 l2) as [b3 o3]. by rewrite app_assoc. }
  rewrite Happ. destruct (filter_run new_filter_buffer before) as [b1 o1] eqn:E1.
  destruct (run_before c before new_filter_buffer b1 o1) as (Hc & He & Hk & Ho & Hbuf); [done|constructor|done|done|].
  assert (removals before ∪ expelled_nodes new_filter_buffer = removals before) as E0 by (cbn; set_solver).
  rewrite E0 in He, Hbuf. cbn [filter_run buffer_handle process_buffered_events committee buffer expelled_nodes]. fold c.
  pose proof (run_after c after (mkFilterBuffer (Some c) [] (expelled_nodes b1)) eq_refl eq_refl Ha) as Hafter.
  destruct (filter_run (mkFilterBuffer (Some c) [] (expelled_nodes b1)) after) as [b3 o3]. cbn [snd expelled_nodes] in *.
  rewrite !List.filter_app, Ho, Hafter, He. cbn [app]. f_equal.
  transitivity (List.filter (passes c (removals before)) (buffer b1)).
  - clear -Hk. induction Hk as [|e l Hek _ IH]; [done|]. cbn [List.filter]. destruct e as [[] ec']; try done.
    cbn [keep_buffered passes fst]. destruct (keyshare_passes _ _ _); cbn [List.filter is_keyshare fst]; by rewrite IH.
  - rewrite Hbuf. cbn [buffer new_filter_buffer app]. generalize (removals before). clear. intros E.
    induction before as [|e l IH]; [done|]. cbn [List.filter].
    destruct (is_keyshare e) eqn:Ek; cbn [List.filter]; [destruct (passes _ _ e); by rewrite IH|].
    assert (passes c E e = false) as -> by (destruct e as [[] ec']; done). apply IH.
Qed.
End Filter.

(** ** The honest set *)

(** After C1 the honest set is the [H] entries with the lowest party ids in ascending order,
    and nobody with a lower id is left out; the selection fails exactly when fewer than [H]
    entries passed or [H] does not exceed the threshold. *)
Theorem honest_set_is_lowest (entries : list Entry) (h m : nat) :
  NoDup (ids_of entries) →
  match select_honest_set entries h m with
  | SelectionFail => length entries < h ∨ h ≤ m
  | SelectionProceed kept ids =>
      h ≤ length entries ∧ m < h ∧ length kept = h ∧ StronglySorted lt (ids_of kept) ∧ ids = list_to_set (ids_of kept) ∧
      ∀ e, e ∈ entries → e ∈ kept ∨ ∀ k, k ∈ kept → entry_id k < entry_id e
  end.
Proof.
  intros Hnd. rewrite select_spec by done. destruct (Nat.ltb_spec (length entries) h) as [|Hge]; [by left|].
  destruct (Nat.leb_spec h m) as [|Hlt]; cbn [orb]; [by right|].
  set (sorted := merge_sort entry_le entries). assert (sorted ≡ₚ entries) as Hperm by apply merge_sort_Permutation.
  pose proof (sorted_entries entries Hnd) as Hs. fold sorted in Hs.
  split; [done|]. split; [done|]. split; [rewrite length_take, Hperm; lia|].
  split; [rewrite fmap_take; by apply strict_take|]. split; [done|]. intros e He. rewrite <- Hperm in He.
  rewrite <- (take_drop h sorted) in He, Hs. apply elem_of_app in He as [He|He]; [by left|]. right. intros k Hk.
  rewrite fmap_app in Hs. clear -He Hk Hs. induction (take h sorted) as [|x l IH]; [by apply not_elem_of_nil in Hk|].
  rewrite fmap_cons in Hs. cbn in Hs. inversion Hs as [|? ? Hs' Hall]; subst.
  apply elem_of_cons in Hk as [->|Hk]; [|by apply IH]. rewrite Forall_forall in Hall. apply Hall.
  apply elem_of_app. right. by apply (list_elem_of_fmap_2 (λ e : Entry, entry_id e)).
Qed.
