(* ===== verification/PublicKeyExample.v ===== *)
(** * A key generation, run, and a fold that nobody signed

    [handle_dkg_recursive_aggregation_complete] accepts the fold of an honest party without a
    proof and without an attestation, whoever sent it, as the mode without proof aggregation
    does.  These lemmas follow what such a message does to an aggregator that has folds with
    proofs: the slot of the party is taken, its own fold is refused as a duplicate, and no later
    message makes the aggregator request the DKG aggregation or publish the key. *)

From S2P Require Import Prelude Events AlloyExample CommitmentLinks NodeRegistry AddressExample Actor Orchestration OrchestrationExample DkgAttestation PublicKeyAggregation PublicKeyInv PublicKeySteps PublicKeyProps.
Local Open Scope nat_scope.

Section Forged.
Context `{AlloyOps} `{AddressTextLaws} `{PublicKeyOps}.
(** The party with the empty fold, and another with a proof. *)
Context (p q : nat) (π : Proof_).

Local Abbreviation Mon := (M Aggregator Publication PkError).

Definition not_the_key (o : Publication) : Prop :=
  match o with DkgAggregationRequested _ _ | PublicKeyPublished _ => False | _ => True end.

Definition mixed (g : GeneratingC5Proof) : Prop :=
  p ∈ g_honest_party_ids g ∧ q ∈ g_honest_party_ids g ∧ g_dkg_node_proofs g !! p = Some None ∧
  g_dkg_node_proofs g !! q = Some (Some π) ∧ g_dkg_aggregation_correlation g = None ∧ g_dkg_aggregated_proof g = None.

Definition blocked (a : Aggregator) : Prop :=
  ∃ g, p_data (state a) = Some (SGeneratingC5Proof g) ∧ mixed g.

Local Abbreviation stays m := (preserves not_the_key blocked m).

Ltac enter := apply preserves_at; let a := fresh "a" in let HB := fresh "HB" in intros a HB; apply at_get.
Ltac leave := apply at_ret; let Hw := fresh in intros ? Hw; eapply At_good; [|exact Hw]; done.
Ltac err := let Hw := fresh in intros ? Hw; eapply At_good; [|exact Hw]; done.
Ltac tail := apply triple_tail.
Ltac jump L := apply at_preserves; [done|apply L].

Lemma b_send o : not_the_key o → stays (send o).
Proof. intros Ho. apply preserves_at. intros a HB. tail. apply at_publish; [done|err|leave]. Qed.

Lemma b_recovery f : stays (mutate_recovery f).
Proof.
  apply preserves_at. intros a HB. tail. apply (at_try_mutate not_the_key a _ _ PersistFailed (λ r, Ok (f r)) ret); [err|].
  intros x y _ _. leave.
Qed.

Lemma b_state f : (∀ g s', mixed g → f (SGeneratingC5Proof g) = Ok s' → ∃ g', s' = SGeneratingC5Proof g' ∧ mixed g') →
  stays (mutate_state f).
Proof.
  intros Hf. apply preserves_at. intros a (g & Eg & Hm). tail.
  apply (at_try_mutate not_the_key a _ _ PersistFailed f ret); [intros w Hw; eapply At_good; [|exact Hw]; by exists g|].
  intros x y Ex Ey. assert (x = SGeneratingC5Proof g) as -> by (cbn in Ex; congruence).
  destruct (Hf g y Hm Ey) as (g' & -> & Hm'). apply at_ret. intros w Hw. eapply At_good; [|exact Hw]. by exists g'.
Qed.

Lemma b_generating f : (∀ g, mixed g → mixed (f g)) → stays (mutate_state (λ s, Ok (on_generating f s))).
Proof. intros Hf. apply b_state. intros g s' Hm [= <-]. eexists. split; [done|]. by apply Hf. Qed.

Lemma mixed_slots g acc n corr : mixed g → mixed (set_fold_step acc n corr g).
Proof. done. Qed.

Lemma b_inputs_ready : stays publish_inputs_ready.
Proof. enter. destruct (_ || _); [leave|]. by jump b_send. Qed.

Lemma b_mark : stays mark_started_as_aggregator.
Proof.
  enter. destruct (negb _); [leave|]. apply at_get. destruct (started_as_aggregator a); [leave|]. apply at_modify. jump b_recovery.
Qed.

(** Some folds have a proof and one has none: the aggregation is refused. *)
Lemma mixed_count g : mixed g → some_count g ≠ 0 ∧ some_count g ≠ size (g_honest_party_ids g).
Proof.
  intros (Hp & Hq & Ep & Eq & _). unfold some_count. set (f := λ id, match g_dkg_node_proofs g !! id with Some (Some _) => true | _ => false end).
  apply elem_of_elements in Hp, Hq. split.
  - intros E%nil_length_inv. assert (In q (List.filter f (elements (g_honest_party_ids g)))) as Hin.
    { apply filter_In. split; [by apply list_elem_of_In|]. unfold f. by rewrite Eq. }
    by rewrite E in Hin.
  - unfold size, set_size. cbn. intros E.
    assert (∀ l, p ∈ l → length (List.filter f l) < length l) as Hlt; [|specialize (Hlt _ Hp); lia].
    assert (∀ l, length (List.filter f l) ≤ length l) as Hle by (induction l as [|x l IH]; cbn; [lia|]; destruct (f x); cbn; lia).
    induction l as [|x l IH]; [by intros ?%not_elem_of_nil|]. intros [<-|Hin]%elem_of_cons; cbn [List.filter length].
    + assert (f p = false) as -> by (unfold f; by rewrite Ep). specialize (Hle l). lia.
    + specialize (IH Hin). destruct (f x); cbn; lia.
Qed.

Lemma b_dispatch_dkg : stays try_dispatch_dkg_aggregation.
Proof.
  enter. destruct HB as (g & Eg & Hm). assert (blocked a) as HB by (by exists g). rewrite Eg.
  destruct (g_c5_proof_pending g); [|leave]. destruct (_ || _); [leave|]. destruct (negb (all_honest_present g)); [leave|].
  destruct (mixed_count g Hm) as [H0' H1']. apply Nat.eqb_neq in H0', H1'. rewrite H0', H1'. leave.
Qed.

Lemma b_fold_step : stays try_dispatch_nodes_fold_step.
Proof.
  enter. destruct HB as (g & Eg & Hm). assert (blocked a) as HB by (by exists g). rewrite Eg.
  destruct (_ || _); [leave|]. cbn zeta. destruct (_ <=? _); [jump b_dispatch_dkg|].
  destruct (_ !! _) as [party|]; [|leave]. destruct (_ !! party) as [[inner|]|]; [|leave..].
  apply at_new_id. intros corr. apply at_publish; [done|err|]. apply at_preserves; [done|]. by apply b_generating.
Qed.

Lemma b_try_publish : stays try_publish_complete.
Proof.
  enter. eapply (triple_bind _ _ _ _ (λ _, Good not_the_key blocked)).
  { destruct HB as (g & Eg & Hm). assert (blocked a) as HB by (by exists g). rewrite Eg.
    destruct (g_last_ec g); [jump b_dispatch_dkg|leave]. }
  intros []. enter. destruct HB0 as (g & Eg & Hm). assert (blocked a0) as HB0 by (by exists g). apply at_ok_or; [err|]. intros s Es.
  assert (s = SGeneratingC5Proof g) as -> by congruence. destruct (g_c5_proof_pending g); [|leave].
  assert (all_proofs_are_none g = false) as ->.
  { destruct Hm as (_ & _ & _ & Eq & _). unfold all_proofs_are_none. apply andb_false_iff. right.
    apply not_true_iff_false. rewrite forallb_forall. intros Hall. specialize (Hall (q, Some π)).
    cbn in Hall. assert (bool_decide (Some π = None) = true) as E; [|by bool_to_prop].
    apply Hall, list_elem_of_In, elem_of_map_to_list, Eq. }
  destruct Hm as (_ & _ & _ & _ & _ & ->). leave.
Qed.

Lemma b_pk_signed msg ec : stays (handle_pk_aggregation_proof_signed msg ec).
Proof.
  enter. destruct (negb _); [leave|]. destruct HB as (g & Eg & Hm). assert (blocked a) as HB by (by exists g). rewrite Eg.
  apply at_preserves; [done|]. apply preserves_then; [by apply b_generating|]. intros _. apply b_try_publish.
Qed.

Lemma b_fold msg ec : stays (handle_dkg_recursive_aggregation_complete msg ec).
Proof.
  enter. destruct (negb _); [leave|]. destruct HB as (g & Eg & Hm). assert (blocked a) as HB by (by exists g). rewrite Eg.
  case_bool_decide as Hdup; [leave|]. destruct (_ && _); [leave|].
  assert (triple (At not_the_key a) (mutate_state (λ s, Ok (on_generating (store_fold msg ec) s)))
    (λ _, Good not_the_key blocked) (Good not_the_key blocked)) as Hst.
  { tail. apply (at_try_mutate not_the_key a _ _ PersistFailed (λ s, Ok (on_generating (store_fold msg ec) s)) ret); [err|].
    intros x y Ex [= <-]. assert (x = SGeneratingC5Proof g) as -> by (cbn in Ex; congruence).
    apply at_ret. intros w Hw. eapply At_good; [|exact Hw]. eexists. split; [done|].
    destruct Hm as (Hp & Hq & Ep & Eq & Hrest). split; [done|]. split; [done|]. cbn.
    rewrite !lookup_insert_ne; [done|intros <-..]; apply Hdup; by eexists. }
  eapply triple_bind; [exact Hst|]. intros []. enter. destruct (can_continue_aggregation_effects a0); [jump b_fold_step|leave].
Qed.

Lemma b_take {B} a l (k : option PkAggregationProofSigned → Mon B) Q : blocked a →
  (∀ a' o, blocked a' → triple (At not_the_key a') (k o) Q (Good not_the_key blocked)) →
  triple (At not_the_key a) (bind (take_replayed_c5_proof l) k) Q (Good not_the_key blocked).
Proof.
  intros HB Hk w [<- Hw]. unfold bind, take_replayed_c5_proof, get_st. cbn.
  destruct (replayed_c5_proof (st w)) as [c5|]; [|by apply (Hk (st w) None)]. cbn.
  destruct (_ || _); cbn; [by apply (Hk (set_replayed_c5 None (st w)) None)|by apply (Hk (set_replayed_c5 None (st w)) (Some c5))].
Qed.

Lemma b_resume ec : stays (resume_in_flight_work ec).
Proof.
  apply preserves_at. intros a HB. apply (at_try_get not_the_key a _ _ PersistFailed); [err|]. intros r _.
  apply at_ensure; [err|]. intros _. destruct HB as (g & Eg & Hm). assert (blocked a) as HB by (by exists g).
  assert (triple (E:=PkError) (At not_the_key a) (resume_collection r) (λ _, At not_the_key a) (Good not_the_key blocked)) as Hcol.
  { apply at_get. rewrite Eg. by apply at_ret. }
  eapply triple_bind; [exact Hcol|]. intros []. apply at_get. rewrite Eg. destruct (negb _); [leave|].
  apply at_preserves; [done|]. apply preserves_then; [apply b_mark|]. intros _. cbn [resume_phase].
  apply preserves_then.
  { apply b_generating. intros g' (? & ? & ? & ? & ? & ?). by repeat split. }
  intros _. apply preserves_then.
  { apply preserves_at. intros a' HB'. apply b_take; [done|]. intros a2 o HB2. destruct (g_c5_proof_pending g); [leave|].
    destruct o; [apply at_modify; apply at_new_id; intros x; by jump b_send|]. apply at_get. by jump b_send. }
  intros _. apply preserves_then; [apply b_fold_step|]. intros _. apply b_try_publish.
Qed.

Lemma b_expelled node ec : stays (handle_member_expelled node ec).
Proof.
  enter. destruct (key_published a); [leave|]. apply (at_try_get not_the_key a _ _ PersistFailed); [err|]. intros r _. cbn zeta.
  match goal with |- context [if ?x then _ else _] => destruct x end; [by jump b_send|].
  assert (is_collecting a = false) as -> by (destruct HB as (g & Eg & _); unfold is_collecting; by rewrite Eg).
  cbn [andb]. apply at_preserves; [done|]. apply preserves_then.
  { apply b_state. intros g s' Hm [= <-]. by exists g. }
  intros _. enter. apply at_preserves; [done|]. apply preserves_then; [by intros w Hw|]. intros _. by intros w Hw.
Qed.

Lemma b_dispatch msg ec : stays (dispatch msg ec).
Proof.
  enter. pose proof HB as (g & Eg & Hm). destruct msg.
  - apply at_get. destruct (negb _); [leave|]. cbn zeta.
    assert (triple (E:=PkError) (At not_the_key a) (add_keyshare (kc_pubkey data) (kc_node data) (kc_party_id data) (signed_pk_generation_proof data))
      (λ _, At not_the_key a) (Good not_the_key blocked)) as Hadd by (apply at_get; rewrite Eg; by apply at_ret).
    eapply triple_bind; [exact Hadd|]. intros []. apply at_get.
    assert (aggregation_inputs_ready a = true) as -> by (unfold aggregation_inputs_ready; by rewrite Eg). cbn [negb andb].
    eapply (triple_bind _ _ _ _ (λ _, At not_the_key a)); [by apply at_ret|]. intros []. apply at_get. leave.
  - apply at_get. destruct (negb _); [leave|]. cbn zeta. apply at_ensure; [err|]. intros _.
    apply (at_try_get not_the_key a _ _ PersistFailed); [err|]. intros r _.
    assert (∀ sel, stays (advance_with_roster sel ec)) as Hadv.
    { intros sel. enter. cbn zeta. destruct HB0 as (g0 & Eg0 & Hm0).
      assert (aggregation_inputs_ready a0 = true) as -> by (unfold aggregation_inputs_ready; by rewrite Eg0). cbn [negb andb].
      apply at_preserves; [by exists g0|]. apply preserves_then; [|intros _; enter; leave].
      apply b_state. intros g' s' Hm' [= <-]. by exists g'. }
    destruct (selected_roster r); [case_bool_decide; [jump Hadv|]; destruct (negb _); [leave|]|];
      (apply at_preserves; [done|]; apply preserves_then; [apply b_recovery|intros _; apply Hadv]).
  - destruct (negb _); [|destruct (negb _); [leave|]]; apply at_get; rewrite Eg.
    + rewrite orb_true_r. leave.
    + destruct (_ || _); [leave|]. destruct (key_published a); leave.
  - destruct (negb _); [|destruct (negb _); [leave|jump b_pk_signed]].
    apply at_get. destruct (_ || _); [leave|]. tail. apply at_modify. leave.
  - jump b_fold.
  - destruct (negb _); [leave|]. apply at_get. destruct (negb _); [leave|]. destruct response as [x|x|]; [| |leave]; rewrite ?Eg.
    + apply at_get. rewrite Eg. case_bool_decide; cbn [negb]; [|leave]. cbn zeta. apply at_ok_or; [err|]. intros _ _.
      apply at_preserves; [done|]. apply preserves_then; [by apply b_generating|]. intros _. apply b_fold_step.
    + apply at_ok_or; [err|]. intros _ _. apply at_preserves; [done|]. apply preserves_then; [|intros _; apply b_try_publish].
      apply b_generating. intros g' Hm'. unfold accept_dkg_proof. destruct Hm' as (? & ? & ? & ? & Ec & ?).
      rewrite Ec. by rewrite bool_decide_eq_false_2.
  - leave.
  - case_bool_decide; [|leave]. tail. apply at_modify. leave.
  - apply at_get. destruct (_ || _); [leave|]. apply at_modify. apply at_get.
    destruct (can_run_aggregation_effects _); [jump b_resume|leave].
  - apply at_modify. apply at_preserves; [done|]. apply preserves_then; [apply b_inputs_ready|]. intros _. apply b_resume.
  - apply at_get. destruct (_ || _); [leave|]. rewrite Eg. apply b_take; [done|]. intros a' o HB'. destruct o; [jump b_pk_signed|leave].
  - tail. apply at_modify. leave.
  - leave.
  - case_bool_decide; [|leave]. apply at_modify. apply at_get.
    destruct (p_data (recovery _)) as [r|]; [|leave]. destruct (pending_publication r); [jump b_recovery|leave].
  - destruct (negb _); [leave|]. destruct (is_terminal stage); tail; apply at_modify; leave.
  - apply at_get. destruct party_id; [leave|]. destruct (negb _); [leave|]. jump b_expelled.
  - apply at_get. destruct party_id; [leave|]. destruct (negb _); [leave|]. jump b_expelled.
  - leave.
  - leave.
Qed.

Lemma b_handle msg ec : stays (handle msg ec).
Proof.
  enter. destruct (stopped a); [leave|]. apply at_preserves; [done|]. apply preserves_trap; [done|]. apply b_dispatch.
Qed.

(** Messages one after the other. *)
Definition run (msgs : list (Message * EventContext)) (w : World Aggregator Publication) : World Aggregator Publication :=
  foldl (λ w '(msg, ec), ((handle msg ec : Mon ()) w).2) w msgs.

Lemma run_blocked msgs w : Good not_the_key blocked w → Good not_the_key blocked (run msgs w).
Proof.
  revert w. induction msgs as [|[msg ec] msgs IH]; intros w Hw; [done|]. unfold run. cbn [foldl]. apply IH.
  pose proof (b_handle msg ec w Hw) as Hh. by destruct (handle msg ec w) as [[[]|e] w'].
Qed.

(** The slot of a party is taken: nothing it sends later is looked at. *)
Lemma duplicate_ignored w fold ec : blocked (st w) → df_party_id fold = p →
  ((handle (MDKGRecursiveAggregationComplete fold) ec : Mon ()) w).2 = w.
Proof.
  intros (g & Eg & _ & _ & Ep & _) Hf. unfold handle, bind, get_st. cbn. destruct (stopped (st w)); [done|].
  unfold trap, dispatch, bind, get_st, handle_dkg_recursive_aggregation_complete, bind, get_st. cbn.
  destruct (negb _); [done|]. rewrite Eg, Hf, Ep. cbn. done.
Qed.

#[local] Opaque try_dispatch_nodes_fold_step.

(** Storing the empty fold while another party's proof is there. *)
Lemma empty_fold_blocks ps addrs rosters contexts w g ec :
  I ps addrs rosters contexts false (st w) → p_data (state (st w)) = Some (SGeneratingC5Proof g) → out w = [] → refusals w = [] →
  stopped (st w) = false → p < length addrs → p ∈ g_honest_party_ids g → q ∈ g_honest_party_ids g →
  g_dkg_node_proofs g !! p = None → g_dkg_node_proofs g !! q = Some (Some π) →
  Good not_the_key blocked ((handle (MDKGRecursiveAggregationComplete (mkFold (a_e3_id ps) p None None)) ec : Mon ()) w).2.
Proof.
  intros HI Eg Hout Href Hst Hlen Hp Hq Ep Eq. pose proof HI as (Hps & Hstage & _ & _ & _ & s & s0 & r & Es & _ & _ & _ & _ & [_ Hc] & _).
  assert (s = SGeneratingC5Proof g) as -> by congruence. destruct Hc as [Hg _].
  assert (¬ ready ps g) as Hready.
  { intros [_ Hslots]. pose proof (gen_streamed _ _ _ _ _ Hg) as Hs. rewrite Hslots in Hs. destruct (gen_roster _ _ _ _ _ Hg) as [Hsz _].
    apply elem_of_btree_set, list_elem_of_lookup in Hp as [i Hi]. pose proof (lookup_lt_Some _ _ _ Hi) as Hlt.
    rewrite length_btree_set, Hsz in Hlt. destruct (Hs i p Hlt Hi) as [? ?]. congruence. }
  assert (mixed (store_fold (mkFold (a_e3_id ps) p None None) ec g)) as Hm.
  { split; [done|]. split; [done|]. cbn. rewrite lookup_insert_eq, lookup_insert_ne by congruence. do 2 (split; [done|]).
    split; apply eq_None_not_Some; intros ?; apply Hready, (gen_dkg _ _ _ _ _ Hg); auto. }
  assert (is_Some (g_party_nodes g !! p)) as [node Hnode] by (rewrite (gen_nodes _ _ _ _ _ Hg); by apply canon_lt).
  destruct w as [a rf o id]. cbn in *. subst o rf.
  unfold handle, bind, get_st. cbn. rewrite Hst. unfold trap, dispatch, bind, get_st, handle_dkg_recursive_aggregation_complete, bind, get_st. cbn.
  rewrite Hps, bool_decide_eq_true_2 by done. cbn. rewrite Eg, Ep. cbn. rewrite bool_decide_eq_true_2 by done.
  unfold fold_acceptable. cbn. rewrite Hnode. cbn.
  unfold mutate_state, try_mutate, bind, get_st, ok_or, lift, write_value_to_store, set_data, bind, get_st, call. cbn.
  rewrite Eg. cbn. rewrite Hstage. cbn.
  set (a' := mkAggregator _ _ _ _ _ _ _ _ _ _ _ _).
  assert (Good not_the_key blocked (mkWorld a' [] [] id)) as Hb by (split; [by eexists|constructor]).
  destruct (can_continue_aggregation_effects _); [|done].
  pose proof (b_fold_step _ Hb) as Hf. destruct (try_dispatch_nodes_fold_step _) as [[[]|e] w']; [done|].
  destruct Hf as [? Ho]. split; [done|]. cbn. apply Forall_app. split; [done|]. by constructor.
Qed.
End Forged.

(** Any sender can stop the aggregation.  In a reachable aggregator that has the fold proof of one
    honest party and waits for that of another, a single message without proof, attestation or
    signature takes the slot of the missing party: whatever that party sends afterwards changes
    nothing, and no sequence of messages makes the aggregator ask for the DKG aggregation or
    publish the key. *)
Theorem unsigned_fold_blocks `{AlloyOps} `{AddressTextLaws} `{PublicKeyOps} ps addrs rosters contexts w0 g (p q : nat) (π : Proof_) ec id :
  reachable ps addrs rosters contexts w0 → p_data (state (st w0)) = Some (SGeneratingC5Proof g) → stopped (st w0) = false →
  p < length addrs → p ∈ g_honest_party_ids g → q ∈ g_honest_party_ids g →
  g_dkg_node_proofs g !! p = None → g_dkg_node_proofs g !! q = Some (Some π) →
  let forged := MDKGRecursiveAggregationComplete (mkFold (a_e3_id ps) p None None) in
  let w := (handle forged ec (mkWorld (st w0) [] [] id)).2 in
  (∀ fold ec', df_party_id fold = p → (handle (MDKGRecursiveAggregationComplete fold) ec' w).2 = w) ∧
  ∀ msgs refuse id', Forall not_the_key (out (run msgs (mkWorld (st w) refuse [] id'))).
Proof.
  intros [HI _]%key_reachable_inv Eg Hst Hlen Hp Hq Ep Eq forged w.
  assert (I ps addrs rosters contexts false (st w0)) as HI' by (destruct HI as [?|[_ ?]]; [done|congruence]).
  destruct (empty_fold_blocks p q π ps addrs rosters contexts (mkWorld (st w0) [] [] id) g ec) as [Hb _]; try done. fold forged in Hb. change (blocked p q π (st w)) in Hb. split.
  - intros fold ec' Hf. by apply (duplicate_ignored p q π).
  - intros msgs refuse id'. by apply (run_blocked p q π).
Qed.

(** ** A key generation, run

    A committee of three of which two are selected, with small computable stand-ins for the
    external operations: the roster and the keyshares arrive, the C1 verdict, the folds, the
    answers of the worker and the C5 proof, up to the publication of the key.  The witnesses
    evaluate the handlers of PublicKeyAggregation on this run. *)

Definition ex_field (z : Z) : Bytes := to_be_bytes 32 z.

(** A request without rejected parties has the hash 100. *)
#[export] Instance ex_public_key_ops : PublicKeyOps := {
  get_aggregate_public_key keyshares := Some [Z.of_nat (size keyshares)];
  keyshare_commitment ks := Some (ex_field (ex_keccak ks));
  request_hash request := if bool_decide (pre_dishonest request = ∅) then 100%Z else 200%Z;
  bundle_abi entries slots := [Z.of_nat (length entries); Z.of_nat (length slots)] }.

Definition ex_addrs : list Address := [11; 12; 13]%Z.
Definition ex_ps : Params := mkParams ex_id InsecureThreshold64 Minimum.
Definition ex_fold_context : DkgFoldAttestationContext := mkFoldContext 5 6.

Definition ex_keyshare (party : nat) : Bytes := [Z.of_nat party; 9]%Z.

Definition ex_c1 (party : nat) : SignedProofPayload :=
  let pl := mkPayload ex_id C1PkGeneration (mkProof PkGeneration [1%Z]
    (ex_field 1 ++ ex_field (ex_keccak (ex_keyshare party)) ++ ex_field 3)) in
  default (mkSigned pl []) (sign_payload pl (11 + Z.of_nat party)%Z).

Definition ex_created (party : nat) : KeyshareCreated :=
  mkKeyshareCreated (ex_keyshare party) ex_id (ex_print (11 + Z.of_nat party)) party (Some (ex_c1 party)).

Definition ex_verdict : ShareVerificationComplete := mkVerified ex_id PkGenerationProofs ∅.

(** The fields of the fold of a party: its id, the unused ones and the two commitments. *)
Definition ex_middle : list Bytes := replicate 41 (ex_field 0).
Definition ex_fold_fields (party : nat) : list Bytes := ex_field (Z.of_nat party) :: ex_middle ++ [ex_field 70; ex_field 71].
Definition ex_fold_proof (party : nat) : Proof_ := mkProof NodeFold [3%Z] (concat (ex_fold_fields party)).

Definition ex_stated (party : nat) : DkgFoldAttestationPayload :=
  mkFoldPayload ex_id 6 5 party (mkAggCommits (from_be_bytes (ex_field 70)) (from_be_bytes (ex_field 71))).

Definition ex_attestation (party : nat) : SignedDkgFoldAttestation :=
  default (mkFoldAttestation (ex_stated party) []) (sign_fold (ex_stated party) (11 + Z.of_nat party)%Z).

Definition ex_fold (party : nat) : DKGRecursiveAggregationComplete :=
  mkFold ex_id party (Some (ex_fold_proof party)) (Some (ex_attestation party)).

Definition ex_acc (n : Z) : Proof_ := mkProof NodesFold [n] [].

Definition ex_c5 : PkAggregationProofSigned :=
  mkC5Signed ex_id (mkSigned (mkPayload ex_id C5PkAggregation (mkProof PkAggregation [4%Z] (ex_field 1 ++ ex_field 2 ++ ex_field 5))) []).

(** Up to the verdict, the folds, the worker's answers, the C5 proof and the final answer. *)
Definition ex_to_c5 : list (Message * EventContext) :=
  [(MCommitmentRosterSelected ex_id [0; 1], ex_ctx 0);
   (MKeyshareCreated (ex_created 1), ex_ctx 0);
   (MKeyshareCreated (ex_created 2), ex_ctx 0);
   (MKeyshareCreated (ex_created 0), ex_ctx 0);
   (MShareVerificationComplete ex_verdict, ex_ctx 100)].

Definition ex_one_fold : list (Message * EventContext) :=
  ex_to_c5 ++ [(MDKGRecursiveAggregationComplete (ex_fold 0), ex_ctx 0)].

Definition ex_to_end : list (Message * EventContext) :=
  ex_one_fold ++
  [(MDKGRecursiveAggregationComplete (ex_fold 1), ex_ctx 0);
   (MComputeResponse ex_id 40 (NodesFoldStepResponse (ex_acc 1)), ex_ctx 0);
   (MComputeResponse ex_id 41 (NodesFoldStepResponse (ex_acc 2)), ex_ctx 0);
   (MPkAggregationProofSigned ex_c5, ex_ctx 0);
   (MComputeResponse ex_id 42 (DkgAggregationResponse (mkProof DkgAggregator [5%Z] [])), ex_ctx 0)].

Definition ex_fresh : World Aggregator Publication :=
  match create_aggregator ex_id InsecureThreshold64 3 1 0 (ex_print <$> ex_addrs) (Some ex_fold_context) true true with
  | Ok a => mkWorld a [] [] 40
  | Err _ => mkWorld (new_aggregator ex_ps (mkPersistable None None false) (mkPersistable None None false) None true Requested true) [] [] 40
  end.

(** One roster is selected, and one context is established. *)
Definition ex_rosters (ids : list nat) : Prop := ids = [0; 1].
Definition ex_contexts (c : DkgFoldAttestationContext) : Prop := c = ex_fold_context.
Local Abbreviation ex_msg_ok := (msg_ok ex_ps ex_rosters ex_contexts).
Local Abbreviation ex_reach := (reachable ex_ps ex_addrs ex_rosters ex_contexts).

Lemma ex_fresh_reachable : ex_reach ex_fresh.
Proof.
  apply (reach_create ex_ps ex_addrs ex_rosters ex_contexts 3 1 0 (ex_print <$> ex_addrs) (Some ex_fold_context) true true); try reflexivity.
  by intros c [= <-].
Qed.

Lemma ex_verdict_ok : verdict_ok 100 ex_verdict.
Proof. intros request Hr. cbn in Hr. case_bool_decide as E; [|done]. by rewrite E. Qed.

Lemma key_reachable_run l w : Forall (λ m, ex_msg_ok m.1 m.2) l → ex_reach w → ex_reach (run l w).
Proof.
  intros Hl. revert w. induction Hl as [|[msg ec] l Hm _ IH]; intros w Hw; [done|]. unfold run. cbn [foldl]. apply IH.
  by apply reach_handle.
Qed.

Lemma ex_to_c5_ok : Forall (λ m, ex_msg_ok m.1 m.2) ex_to_c5.
Proof. repeat constructor; try done. apply ex_verdict_ok. Qed.

Lemma ex_key_reachable l : Forall (λ m, ex_msg_ok m.1 m.2) l → ex_reach (run (ex_to_c5 ++ l) ex_fresh).
Proof. intros Hl. apply key_reachable_run; [|apply ex_fresh_reachable]. apply Forall_app. split; [apply ex_to_c5_ok|done]. Qed.

(** ** What the run shows *)

Definition ex_c5_nodes : gset string := list_to_set [ex_print 11; ex_print 12].
Definition ex_c5_request : PkAggregationProofRequest :=
  mkC5Request [ex_keyshare 0; ex_keyshare 1] [2%Z] 3 2 1.

Lemma c5_requests_sound_witness :
  C5ProofRequested ex_c5_request [2%Z] ex_c5_nodes ∈ out (run (ex_to_c5 ++ []) ex_fresh) ∧
  ∃ signed, proof_output (pp_proof (payload signed)) "pk_commitment" = keyshare_commitment (ex_keyshare 1).
Proof.
  assert (C5ProofRequested ex_c5_request [2%Z] ex_c5_nodes ∈ out (run (ex_to_c5 ++ []) ex_fresh)) as Hin.
  { apply list_elem_of_lookup. exists 2. vm_compute. reflexivity. }
  split; [exact Hin|].
  destruct (c5_requests_sound ex_ps ex_addrs ex_rosters ex_contexts (run (ex_to_c5 ++ []) ex_fresh) ex_c5_request [2%Z] ex_c5_nodes
    (ex_key_reachable [] (Forall_nil_2 _)) Hin) as (_ & _ & _ & _ & _ & _ & Hks).
  destruct (Hks 1 (ex_keyshare 1) eq_refl) as (signed & commitment & Hc & Ho). exists signed. rewrite Hc. exact Ho.
Defined.

Definition ex_after : list (Message * EventContext) := drop 5 ex_to_end.

Lemma ex_after_ok : Forall (λ m, ex_msg_ok m.1 m.2) ex_after.
Proof. repeat constructor. Qed.

Definition ex_dkg_request : DkgAggregationRequest :=
  mkDkgRequest [ex_fold_proof 0; ex_fold_proof 1] (Some (ex_acc 2)) (pp_proof (payload (cs_signed_proof ex_c5))) [0; 1] ex_addrs.

(** The second step folds the proof of the second dealer, and the aggregation takes both. *)
Lemma dkg_publications_sound_witness :
  (∃ prior, NodesFoldStepRequested 41 (ex_fold_proof 1) prior 1 2 ∈ out (run (ex_to_c5 ++ ex_after) ex_fresh)) ∧
  attested ex_ps ex_addrs ex_contexts 1 (ex_fold_proof 1) ∧
  DkgAggregationRequested 42 ex_dkg_request ∈ out (run (ex_to_c5 ++ ex_after) ex_fresh) ∧
  Forall2 (attested ex_ps ex_addrs ex_contexts) [0; 1] [ex_fold_proof 0; ex_fold_proof 1].
Proof.
  assert (DkgAggregationRequested 42 ex_dkg_request ∈ out (run (ex_to_c5 ++ ex_after) ex_fresh)) as Hin.
  { apply list_elem_of_lookup. exists 5. vm_compute. reflexivity. }
  assert (NodesFoldStepRequested 41 (ex_fold_proof 1) (Some (ex_acc 1)) 1 2 ∈ out (run (ex_to_c5 ++ ex_after) ex_fresh)) as Hstep.
  { apply list_elem_of_lookup. exists 4. vm_compute. reflexivity. }
  destruct (dkg_publications_sound ex_ps ex_addrs ex_rosters ex_contexts (run (ex_to_c5 ++ ex_after) ex_fresh) _
    (ex_key_reachable ex_after ex_after_ok) Hstep) as (_ & _ & _ & ids & party & Hids & _ & _ & Hparty & Hone).
  destruct (dkg_publications_sound ex_ps ex_addrs ex_rosters ex_contexts (run (ex_to_c5 ++ ex_after) ex_fresh) _
    (ex_key_reachable ex_after ex_after_ok) Hin) as (_ & _ & _ & Hatt & _).
  rewrite Hids in Hparty. injection Hparty as <-.
  split; [exists (Some (ex_acc 1)); exact Hstep|]. split; [exact Hone|]. split; [exact Hin|exact Hatt].
Defined.

Definition ex_fold_msgs : list (Message * EventContext) := [(MDKGRecursiveAggregationComplete (ex_fold 0), ex_ctx 0)].
Definition ex_one_world : World Aggregator Publication := run (ex_to_c5 ++ ex_fold_msgs) ex_fresh.

Lemma ex_one_reachable : ex_reach ex_one_world.
Proof. apply ex_key_reachable. repeat constructor. Qed.

(** The parties zero and one are aggregated, and the fold of party zero is there. *)
Definition has_one_fold (a : Aggregator) : bool :=
  negb (stopped a) &&
  match p_data (state a), p_data (recovery a) with
  | Some (SGeneratingC5Proof g), Some _ =>
      bool_decide (g_honest_party_ids g = {[0; 1]}) && bool_decide (g_dkg_node_proofs g !! 1 = None) &&
      bool_decide (g_dkg_node_proofs g !! 0 = Some (Some (ex_fold_proof 0)))
  | _, _ => false
  end.

Lemma ex_has_one_fold : has_one_fold (st ex_one_world) = true.
Proof. vm_compute. reflexivity. Qed.

Lemma has_one_fold_spec a : has_one_fold a = true →
  stopped a = false ∧ ∃ g r, p_data (state a) = Some (SGeneratingC5Proof g) ∧ p_data (recovery a) = Some r ∧
    g_honest_party_ids g = {[0; 1]} ∧ g_dkg_node_proofs g !! 1 = None ∧
    g_dkg_node_proofs g !! 0 = Some (Some (ex_fold_proof 0)).
Proof.
  unfold has_one_fold. destruct (stopped a); [done|]. cbn [negb andb].
  destruct (p_data (state a)) as [[c|v|g|d]|]; try done. destruct (p_data (recovery a)) as [r|]; [|done].
  intros Hb. apply andb_true_iff in Hb as [[Hh Hn]%andb_true_iff Hp]. apply bool_decide_eq_true in Hh, Hn, Hp.
  split; [done|]. by exists g, r.
Qed.

Lemma aggregation_follows_roster_witness :
  ∃ r, p_data (recovery (st ex_one_world)) = Some r ∧ selected_roster r = Some {[0; 1]} ∧ ex_rosters (btree_set {[0; 1]}).
Proof.
  destruct (has_one_fold_spec _ ex_has_one_fold) as (Hst & g & r & Es & Er & Hh & _ & _). exists r. split; [exact Er|].
  destruct (aggregation_follows_roster ex_ps ex_addrs ex_rosters ex_contexts ex_one_world (SGeneratingC5Proof g) r ex_one_reachable Hst Es Er)
    as (Hros & Hsel & _).
  rewrite Hh in Hsel. split; [exact Hsel|exact (Hros _ Hsel)].
Defined.

(** Party one is still to come when the message without any proof takes its slot. *)
Lemma unsigned_fold_blocks_witness :
  let forged := MDKGRecursiveAggregationComplete (mkFold ex_id 1 None None) in
  let w := (handle forged (ex_ctx 0) (mkWorld (st ex_one_world) [] [] 41)).2 in
  (handle (MDKGRecursiveAggregationComplete (ex_fold 1)) (ex_ctx 0) w).2 = w ∧
  Forall not_the_key (out (run (drop 1 ex_after) (mkWorld (st w) [] [] 41))).
Proof.
  intros forged w. destruct (has_one_fold_spec _ ex_has_one_fold) as (Hst & g & r & Es & Er & Hh & Hn & Hp).
  destruct (unsigned_fold_blocks ex_ps ex_addrs ex_rosters ex_contexts ex_one_world g 1 0 (ex_fold_proof 0) (ex_ctx 0) 41 ex_one_reachable Es Hst
    ltac:(cbn; lia) ltac:(rewrite Hh; set_solver) ltac:(rewrite Hh; set_solver) Hn Hp) as [Hdup Hrun].
  split; [exact (Hdup (ex_fold 1) (ex_ctx 0) eq_refl)|exact (Hrun (drop 1 ex_after) [] 41%Z)].
Defined.

(** ** Streaming *)

Definition ex_generating : GeneratingC5Proof :=
  mkGenerating [2%Z] [ex_keyshare 0; ex_keyshare 1] ex_c5_nodes (party_nodes_from_committee_addresses ex_addrs)
    {[0 := Some (ex_fold_proof 0); 1 := Some (ex_fold_proof 1)]} ∅ {[0; 1]} ∅ 3 2 None None
    (Some (pp_proof (payload (cs_signed_proof ex_c5)))) (Some (ex_ctx 0)) None 0 None.

Definition ex_stream_world : World Aggregator Publication :=
  mkWorld (new_aggregator ex_ps (mkPersistable (Some (SGeneratingC5Proof ex_generating)) (Some (SGeneratingC5Proof ex_generating)) false)
    (mkPersistable (Some default_recovery) (Some default_recovery) false) (Some ex_fold_context) true CommitteeFinalized true) [] [] 40.

Lemma ex_streamable : streamable ex_generating ex_addrs.
Proof.
  split; try done.
  intros p Hp. assert (p = 0 ∨ p = 1) as [-> | ->] by (unfold ex_generating in Hp; cbn in Hp; set_solver); by eexists.
Qed.

Lemma folds_are_streamed_witness :
  ∃ w0 final, try_dispatch_nodes_fold_step ex_stream_world = (Ok tt, w0) ∧
    Some <$> out (answer ex_id (ex_ctx 0) ([ex_acc 1] ++ [ex_acc 2]) w0) =
      [Some (NodesFoldStepRequested 40 (ex_fold_proof 0) None 0 2);
       Some (NodesFoldStepRequested 41 (ex_fold_proof 1) (Some (ex_acc 1)) 1 2);
       Some (DkgAggregationRequested final ex_dkg_request)].
Proof.
  destruct (folds_are_streamed ex_generating ex_addrs (pp_proof (payload (cs_signed_proof ex_c5))) ex_id (ex_ctx 0)
    [ex_acc 1] (ex_acc 2) ex_stream_world ex_streamable eq_refl
    (Build_at_slot ex_generating 0 None None ex_stream_world eq_refl eq_refl (conj eq_refl (conj eq_refl eq_refl))) eq_refl eq_refl)
    as (w0 & final & Hd & Hout & _).
  exists w0, final. split; [exact Hd|]. rewrite Hout. reflexivity.
Defined.

(** ** The filter, the honest set and the attestation *)

Definition ex_wrong_slot : KeyshareCreated := mkKeyshareCreated (ex_keyshare 1) ex_id (ex_print 12) 0 None.

Lemma filter_forwards_exactly_witness :
  List.filter is_keyshare (filter_run new_filter_buffer
    ([(MKeyshareCreated (ex_created 1), ex_ctx 0); (MKeyshareCreated ex_wrong_slot, ex_ctx 0);
      (MKeyshareCreated (ex_created 0), ex_ctx 0); (MCommitteeMemberExpelled ex_id 12 None, ex_ctx 0)] ++
     (MCommitteeFinalized (ex_print <$> [13; 11; 12]%Z), ex_ctx 0) ::
     [(MKeyshareCreated (ex_created 2), ex_ctx 0); (MCommitteeMemberExcluded ex_id 11 None, ex_ctx 0);
      (MKeyshareCreated (ex_created 0), ex_ctx 0)])).2 =
  [(MKeyshareCreated (ex_created 0), ex_ctx 0); (MKeyshareCreated (ex_created 2), ex_ctx 0)].
Proof.
  rewrite filter_forwards_exactly by (repeat constructor). vm_compute. reflexivity.
Defined.

Definition ex_entries : list Entry :=
  (λ p, (p, ex_print (11 + Z.of_nat p), ex_keyshare p, Some (ex_c1 p))) <$> [2; 0; 1].

Lemma honest_set_is_lowest_witness :
  ∃ kept ids, select_honest_set ex_entries 2 1 = SelectionProceed kept ids ∧ length kept = 2 ∧ StronglySorted lt (ids_of kept).
Proof.
  assert (NoDup (ids_of ex_entries)) as Hnd by (change (NoDup [2; 0; 1]); apply NoDup_ListNoDup; repeat (constructor; [cbn; lia|]); constructor).
  pose proof (honest_set_is_lowest ex_entries 2 1 Hnd) as Hs.
  assert (is_proceed : match select_honest_set ex_entries 2 1 with SelectionFail => false | _ => true end = true) by (vm_compute; reflexivity).
  revert Hs is_proceed. generalize (select_honest_set ex_entries 2 1). intros [|kept ids] Hs Hp; [discriminate Hp|].
  exists kept, ids. split; [reflexivity|]. destruct Hs as (_ & _ & Hl & Hso & _). split; [exact Hl|exact Hso].
Defined.

Lemma ex_fields_ok : Forall is_field (ex_fold_fields 1) ∧ Forall (Forall is_byte) (ex_fold_fields 1).
Proof.
  assert (∀ z, is_field (ex_field z)) as H1 by (intros z; apply length_to_be_bytes).
  assert (∀ z, Forall is_byte (ex_field z)) as H2 by (intros z; apply to_be_bytes_is_byte).
  split; unfold ex_fold_fields, ex_middle; (constructor; [auto|]; apply Forall_app; split; [apply Forall_replicate; auto|repeat (constructor; [auto|]); constructor]).
Qed.

Lemma fold_attestation_exact_witness :
  verify_dkg_fold_attestation ex_id 1 (ex_fold_proof 1) (ex_attestation 1) ex_fold_context (ex_print 12) 3 2 3 = Ok tt ∧
  fold_recover_address (ex_attestation 1) = Some 12%Z.
Proof.
  assert (parse_address (ex_print 12) = Some 12%Z) as Hparse by reflexivity.
  destruct (fold_attestation_exact ex_id 1 [3%Z] (ex_field 1) ex_middle (ex_field 70) (ex_field 71) (ex_attestation 1)
    ex_fold_context (ex_print 12) 12 3 2 3 (proj1 ex_fields_ok) (proj2 ex_fields_ok) Hparse) as [Hiff Hsign].
  assert (verify_dkg_fold_attestation ex_id 1 (ex_fold_proof 1) (ex_attestation 1) ex_fold_context (ex_print 12) 3 2 3 = Ok tt) as Hv.
  { apply (Hsign (ex_key 12)); [reflexivity|vm_compute; reflexivity|]. split; [reflexivity|]. split; [vm_compute; reflexivity|vm_compute; discriminate]. }
  split; [exact Hv|]. exact (proj2 (proj2 (proj1 Hiff Hv))).
Defined.

(** ** A keyshare without a proof

    The verdict is taken at its word: when it does not name a party that sent no C1 proof, the
    audit adds the party to the dishonest ones, but its keyshare stays in the honest set, because
    the entries are filtered again only when some other proof is mismatched. *)

Definition ex_unproved : KeyshareCreated := mkKeyshareCreated (ex_keyshare 1) ex_id (ex_print 12) 1 None.

Definition ex_unproved_run : list (Message * EventContext) :=
  [(MCommitmentRosterSelected ex_id [0; 1], ex_ctx 0);
   (MKeyshareCreated ex_unproved, ex_ctx 0);
   (MKeyshareCreated (ex_created 0), ex_ctx 0);
   (MShareVerificationComplete ex_verdict, ex_ctx 200)].

Definition keeps_unproved (a : Aggregator) : bool :=
  match p_data (state a) with
  | Some (SGeneratingC5Proof g) =>
      bool_decide (1 ∈ g_honest_party_ids g) && bool_decide (1 ∈ g_dishonest_parties g) &&
      bool_decide (g_keyshare_bytes g = [ex_keyshare 0; ex_keyshare 1])
  | _ => false
  end.

(** The party without a proof is dishonest and honest at once, and its keyshare is part of the key. *)
Theorem unproved_keyshare_kept : keeps_unproved (st (run ex_unproved_run ex_fresh)) = true.
Proof. vm_compute. reflexivity. Qed.
