(* ===== verification/PlaintextAggregation.v ===== *)
(** * Threshold decryption

    Model of crates/orchestration/aggregator/src/plaintext_aggregation: collection of decryption
    shares, C6 verification of a frozen batch with backup shares, threshold decryption, C7 proof
    and decryption aggregation, publication, restart recovery and the actor's handlers.

    Parameters: hashing and signatures ([AlloyOps]), the text form of addresses ([AddressText])
    and [PlaintextOps], what the BFV libraries compute from shares and ciphertexts and the hash
    that names an event.  Log messages are left out.  [unwrap_or(false)] on a failed authentication
    is [try_or_false]. *)

From S2P Require Import Prelude Events CommitmentLinks NodeRegistry Actor Orchestration.
Local Open Scope nat_scope.

Definition MESSAGE_COEFF_BYTE_LEN : nat := 8.

(** ** bfv/client: message encoding *)

Definition u64_from_le_bytes (l : Bytes) : Z := from_be_bytes (reverse l).

Definition decode_bytes_to_vec_u64 (bytes : Bytes) : option (list Z) :=
  if negb (length bytes mod 8 =? 0) then None else Some (u64_from_le_bytes <$> chunks_exact 8 bytes).

Definition encode_vec_u64_to_bytes (value : list Z) : Bytes := flat_map (λ num, reverse (to_be_bytes 8 num)) value.

(** ** state.rs *)

Record QueuedDecryptionShare := mkQueued { q_share : list Bytes; q_proofs : list SignedProofPayload }.

Definition THRESHOLD_PLAINTEXT_RECOVERY_SCHEMA_VERSION : nat := 2.

(** The retained deadline of old snapshots is not used by the actor and is left out. *)
Record Recovery := mkRecovery {
  schema_version : nat;
  honest_c6_proofs : list (nat * list Proof_);
  c7_proofs : option (list Proof_);
  r_decryption_aggregator_proofs : option (list Proof_);
  r_last_ec : option EventContext;
  c6_outcomes : gmap B256 (gset nat) }.

Definition default_recovery : Recovery :=
  mkRecovery THRESHOLD_PLAINTEXT_RECOVERY_SCHEMA_VERSION [] None None None ∅.

Definition new_threshold_plaintext_recovery (ec : EventContext) : Recovery :=
  mkRecovery THRESHOLD_PLAINTEXT_RECOVERY_SCHEMA_VERSION [] None None (Some ec) ∅.

Record Collecting := mkCollecting {
  c_threshold_m : nat; c_threshold_n : nat;
  c_shares : gmap nat (list Bytes); c_c6_proofs : gmap nat (list SignedProofPayload);
  c_seed : Z; c_ciphertext_output : list Bytes; c_params : Bytes; c_rejected_parties : gset nat }.

Record VerifyingC6 := mkVerifyingC6 {
  v_threshold_m : nat; v_threshold_n : nat;
  v_shares : gmap nat (list Bytes); v_c6_proofs : gmap nat (list SignedProofPayload);
  v_ciphertext_output : list Bytes; v_params : Bytes; v_seed : Z; v_rejected_parties : gset nat;
  v_queued_shares : gmap nat QueuedDecryptionShare }.

Record Computing := mkComputing {
  k_threshold_m : nat; k_threshold_n : nat; k_shares : list (nat * list Bytes);
  k_ciphertext_output : list Bytes; k_params : Bytes }.

Record GeneratingC7Proof := mkGeneratingC7Proof {
  g_threshold_m : nat; g_threshold_n : nat; g_shares : list (nat * list Bytes); g_plaintext : list Bytes }.

Record Complete := mkComplete { d_decrypted : list Bytes; d_shares : list (nat * list Bytes) }.

Inductive State :=
| SCollecting (s : Collecting)
| SVerifyingC6 (s : VerifyingC6)
| SComputing (s : Computing)
| SGeneratingC7Proof (s : GeneratingC7Proof)
| SComplete (s : Complete).

Definition init (threshold_m threshold_n : nat) (seed : Z) (ciphertext_output : list Bytes) (params : Bytes)
    : State :=
  SCollecting (mkCollecting threshold_m threshold_n ∅ ∅ seed ciphertext_output params ∅).

(** ** Errors and publications *)

Inductive PtError :=
| PersistFailed (e : PersistError)
| PublishRefused
| SortitionRefused
| WrongShareCount (party_id got expected : nat)
| WrongProofCount (party_id got expected : nat)
| EmptyHonestCommittee
| WrongE3
| UnexpectedState
| NoEventContext
| MissingC6Proofs
| MissingC6Output
| MissingC6Domain
| CiphertextCommitment
| UnsupportedSchema (version : nat)
| CannotResumeWithoutC6
| NoPublicationRecord.

Record DecryptionAggregationJob := mkJob
  { c6_inner_proofs : list Proof_; c6_slot_indices : list nat; c7_proof : Proof_ }.

Record DecryptionshareCreated := mkShareCreated {
  dc_e3_id : E3id; dc_node : string; dc_party_id : nat;
  decryption_share : list Bytes; signed_decryption_proofs : list SignedProofPayload }.

Record AggregationProofSigned := mkAggProofSigned
  { aps_e3_id : E3id; aps_signed_proofs : list SignedProofPayload }.

Inductive Publication :=
| InputsReady
| C6VerificationRequested (request : ShareVerificationDispatched)
| PlaintextVerificationResumed_ (request_id : B256) (correlation_id : Z)
| ThresholdDecryptionRequested (correlation_id : Z) (ciphertexts : list Bytes) (params : Bytes)
    (threshold_n threshold_m : nat) (shares : list (nat * list Bytes))
| C7ProofRequested (shares : list (nat * list Bytes)) (plaintext : list Bytes) (threshold_m threshold_n : nat)
| DecryptionAggregationRequested (correlation_id : Z) (c6_total_slots : nat)
    (jobs : list DecryptionAggregationJob) (committee : list Address)
| PlaintextAggregated (decrypted_output : list Bytes) (decryption_aggregator_proofs : list Proof_)
| E3Failed
| AggregationResumed_ (correlation_id : Z)
| CommitteeContainsRequested (share : DecryptionshareCreated)
| ErrorReported (e : PtError).

(** ** transitions.rs *)

Definition start_verification_if_ready (current : Collecting) : State :=
  if size (c_shares current) <=? c_threshold_m current then SCollecting current
  else SVerifyingC6 (mkVerifyingC6 (c_threshold_m current) (c_threshold_n current) (c_shares current)
         (c_c6_proofs current) (c_ciphertext_output current) (c_params current) (c_seed current)
         (c_rejected_parties current) ∅).

Definition c_with_shares (c : Collecting) shares proofs rejected : Collecting :=
  mkCollecting (c_threshold_m c) (c_threshold_n c) shares proofs (c_seed c) (c_ciphertext_output c)
    (c_params c) rejected.

Definition v_with_queued (v : VerifyingC6) rejected queued : VerifyingC6 :=
  mkVerifyingC6 (v_threshold_m v) (v_threshold_n v) (v_shares v) (v_c6_proofs v) (v_ciphertext_output v)
    (v_params v) (v_seed v) rejected queued.

Definition expected_outputs (state : State) : option nat :=
  match state with
  | SCollecting c => Some (length (c_ciphertext_output c))
  | SVerifyingC6 v => Some (length (v_ciphertext_output v))
  | _ => None
  end.

(** [ThresholdPlaintextAggregation::add_share] *)
Definition add_share_transition (state : State) (party_id : nat) (share : list Bytes)
    (proofs : list SignedProofPayload) : result State PtError :=
  match expected_outputs state with
  | None => Ok state
  | Some expected =>
      if negb (length share =? expected) then Err (WrongShareCount party_id (length share) expected)
      else if negb (length proofs =? expected) then Err (WrongProofCount party_id (length proofs) expected)
      else
        match state with
        | SCollecting c =>
            Ok (start_verification_if_ready
                 (if bool_decide (party_id ∉ c_rejected_parties c) && bool_decide (c_shares c !! party_id = None)
                  then c_with_shares c (<[party_id := share]> (c_shares c))
                         (<[party_id := proofs]> (c_c6_proofs c)) (c_rejected_parties c)
                  else c))
        | SVerifyingC6 v =>
            Ok (SVerifyingC6
                 (if bool_decide (party_id ∉ v_rejected_parties v) && bool_decide (v_shares v !! party_id = None)
                  then v_with_queued v (v_rejected_parties v)
                         (or_insert party_id (mkQueued share proofs) (v_queued_shares v))
                  else v))
        | _ => Ok state
        end
  end.

(** The queued shares join the batch, except where it already has one, and the rejected
    parties leave it. *)
Definition retry_collection (current : VerifyingC6) (rejected : gset nat) : State :=
  let rejected := v_rejected_parties current ∪ rejected in
  let shares := v_shares current ∪ (q_share <$> v_queued_shares current) in
  let proofs := v_c6_proofs current ∪ (q_proofs <$> v_queued_shares current) in
  start_verification_if_ready
    (mkCollecting (v_threshold_m current) (v_threshold_n current)
       (filter (λ kv, kv.1 ∉ rejected) shares) (filter (λ kv, kv.1 ∉ rejected) proofs)
       (v_seed current) (v_ciphertext_output current) (v_params current) rejected).

(** [ThresholdPlaintextAggregation::handle_member_expelled] *)
Definition member_expelled_transition (state : State) (party_id : nat) : State :=
  match state with
  | SCollecting c =>
      start_verification_if_ready
        (c_with_shares c (delete party_id (c_shares c)) (delete party_id (c_c6_proofs c))
           ({[party_id]} ∪ c_rejected_parties c))
  | SVerifyingC6 v =>
      SVerifyingC6 (v_with_queued v ({[party_id]} ∪ v_rejected_parties v) (delete party_id (v_queued_shares v)))
  | _ => state
  end.

Definition plan_c6_dispatch (c6_proofs : gmap nat (list SignedProofPayload)) : list PartyProofsToVerify :=
  (λ '(party_id, proofs), mkPartyProofs party_id proofs) <$> btree_list c6_proofs.

(** ** intents.rs *)

Definition field_of (z : Z) : Bytes := to_be_bytes 32 z.

(** The slots of the selected C6 batch: commitments first, then one-based party ids. *)
Definition c7_slots_match (fields : list Bytes) (c6 : list (nat * list Proof_)) (index slots : nat) : bool :=
  forallb (λ '(slot, (party, shares)),
    match shares !! index with
    | None => false
    | Some share =>
        match extract_output (output_layout ThresholdShareDecryption) (public_signals share) "d_commitment" with
        | None => false
        | Some commitment =>
            bool_decide (fields !! slot = Some commitment) &&
            bool_decide (fields !! (slots + slot) = Some (field_of (Z.of_nat party + 1)))
        end
    end) (imap pair (take slots c6)).

(** [v.resize(n, x)] *)
Definition resize {A} (n : nat) (x : A) (l : list A) : list A := take n l ++ replicate (n - length l) x.

Definition c7_proofs_match_batch (proofs : list Proof_) (c6 : list (nat * list Proof_))
    (plaintext : list Bytes) (slots : nat) : bool :=
  if negb (length proofs =? length plaintext) || (length c6 <? slots) || (slots =? 0) then false
  else
    forallb (λ '(index, (proof, message)),
      if negb (bool_decide (circuit proof = DecryptedSharesAggregation)) ||
         negb (length (public_signals proof) =? (2 * slots + MAX_MSG_NON_ZERO_COEFFS) * 32)
      then false
      else
        let fields := chunks_exact 32 (public_signals proof) in
        c7_slots_match fields c6 index slots &&
        match decode_bytes_to_vec_u64 message with
        | None => false
        | Some message =>
            forallb (λ '(field, value), bool_decide (field = field_of value))
              (zip (drop (2 * slots) fields) (resize MAX_MSG_NON_ZERO_COEFFS 0%Z message))
        end) (imap pair (zip proofs plaintext)).

Definition format_decrypted_plaintext (plaintext : list Bytes) : list Bytes :=
  let len := MAX_MSG_NON_ZERO_COEFFS * MESSAGE_COEFF_BYTE_LEN in
  (λ bytes, if len <=? length bytes then take len bytes else resize len 0%Z bytes) <$> plaintext.

Definition build_decryption_aggregation_jobs (c7_proofs : list Proof_) (honest_c6 : list (nat * list Proof_))
    (c6_total_slots : nat) : option (list DecryptionAggregationJob) :=
  mapM (λ '(ct_idx, c7_proof),
    inner ← mapM (λ '(_, wps), wps !! ct_idx) (take c6_total_slots honest_c6);
    Some (mkJob inner (seq 0 c6_total_slots) c7_proof)) (imap pair c7_proofs).

(** ** actor.rs *)

Record PendingDecryptionWork := mkPending {
  ciphertext_commitments_ : option (list Bytes);
  honest_c6_proofs_for_agg : option (list (nat * list Proof_));
  threshold_decryption_correlation : option Z;
  decryption_aggregation_correlation : option Z;
  c7_proofs_pending : option (list Proof_);
  replayed_c7_results : list AggregationProofSigned;
  decryption_aggregator_proofs_ : option (list Proof_);
  last_ec : option EventContext }.

Definition default_pending : PendingDecryptionWork := mkPending None None None None None [] None None.

(** The fields fixed at construction. *)
Record Params := mkParams {
  a_e3_id : E3id; params_preset : BfvPreset; committee_size : CiphernodesCommitteeSize;
  proof_aggregation_enabled : bool;
  committee_addresses : list Address; honest_committee_addresses : list Address;
  decryption_domain : DecryptionDomainContext }.

Record Aggregator := mkAggregator {
  params : Params;
  state : Persistable State;
  recovery : Persistable Recovery;
  is_aggregator : bool;
  started_as_aggregator : bool;
  effects_enabled : bool;
  pending : PendingDecryptionWork;
  stopped : bool }.

Global Instance state_field : Field Aggregator State := {
  fget := state;
  fset p a := mkAggregator (params a) p (recovery a) (is_aggregator a) (started_as_aggregator a)
                (effects_enabled a) (pending a) (stopped a) }.

Global Instance recovery_field : Field Aggregator Recovery := {
  fget := recovery;
  fset p a := mkAggregator (params a) (state a) p (is_aggregator a) (started_as_aggregator a)
                (effects_enabled a) (pending a) (stopped a) }.

Global Instance state_field_laws : FieldLaws Aggregator State.
Proof. by split; repeat intros []. Qed.

Global Instance recovery_field_laws : FieldLaws Aggregator Recovery.
Proof. by split; repeat intros []. Qed.

Definition with_pending (f : PendingDecryptionWork → PendingDecryptionWork) (a : Aggregator) : Aggregator :=
  mkAggregator (params a) (state a) (recovery a) (is_aggregator a) (started_as_aggregator a)
    (effects_enabled a) (f (pending a)) (stopped a).

Definition with_role (agg started effects stop : bool) (a : Aggregator) : Aggregator :=
  mkAggregator (params a) (state a) (recovery a) agg started effects (pending a) stop.

Definition set_commitments x p := mkPending x (honest_c6_proofs_for_agg p) (threshold_decryption_correlation p)
  (decryption_aggregation_correlation p) (c7_proofs_pending p) (replayed_c7_results p)
  (decryption_aggregator_proofs_ p) (last_ec p).
Definition set_honest_c6 x p := mkPending (ciphertext_commitments_ p) x (threshold_decryption_correlation p)
  (decryption_aggregation_correlation p) (c7_proofs_pending p) (replayed_c7_results p)
  (decryption_aggregator_proofs_ p) (last_ec p).
Definition set_dec_corr x p := mkPending (ciphertext_commitments_ p) (honest_c6_proofs_for_agg p) x
  (decryption_aggregation_correlation p) (c7_proofs_pending p) (replayed_c7_results p)
  (decryption_aggregator_proofs_ p) (last_ec p).
Definition set_agg_corr x p := mkPending (ciphertext_commitments_ p) (honest_c6_proofs_for_agg p)
  (threshold_decryption_correlation p) x (c7_proofs_pending p) (replayed_c7_results p)
  (decryption_aggregator_proofs_ p) (last_ec p).
Definition set_c7 x p := mkPending (ciphertext_commitments_ p) (honest_c6_proofs_for_agg p)
  (threshold_decryption_correlation p) (decryption_aggregation_correlation p) x (replayed_c7_results p)
  (decryption_aggregator_proofs_ p) (last_ec p).
Definition set_replayed x p := mkPending (ciphertext_commitments_ p) (honest_c6_proofs_for_agg p)
  (threshold_decryption_correlation p) (decryption_aggregation_correlation p) (c7_proofs_pending p) x
  (decryption_aggregator_proofs_ p) (last_ec p).
Definition set_agg_proofs x p := mkPending (ciphertext_commitments_ p) (honest_c6_proofs_for_agg p)
  (threshold_decryption_correlation p) (decryption_aggregation_correlation p) (c7_proofs_pending p)
  (replayed_c7_results p) x (last_ec p).
Definition set_last_ec x p := mkPending (ciphertext_commitments_ p) (honest_c6_proofs_for_agg p)
  (threshold_decryption_correlation p) (decryption_aggregation_correlation p) (c7_proofs_pending p)
  (replayed_c7_results p) (decryption_aggregator_proofs_ p) x.

Definition aggregation_started (s : State) : bool :=
  match s with SComputing _ | SGeneratingC7Proof _ | SComplete _ => true | _ => false end.

Definition node_owns_committee_party_slot `{AddressText} (committee honest_committee : list Address)
    (node : string) (party_id : nat) : bool :=
  match committee !! party_id with
  | None => false
  | Some expected =>
      match parse_address node with
      | None => false
      | Some address => bool_decide (address = expected) && bool_decide (address ∈ honest_committee)
      end
  end.

(** [ThresholdPlaintextAggregator::new] *)
Definition new_aggregator (ps : Params) (st : Persistable State) (rec : Persistable Recovery)
    (initial_is_aggregator effects : bool) : Aggregator :=
  let recovered := default default_recovery (p_data rec) in
  mkAggregator ps st rec initial_is_aggregator
    (match p_data st with Some s => aggregation_started s | None => false end) effects
    (mkPending None
       (match honest_c6_proofs recovered with [] => None | l => Some l end) None None
       (c7_proofs recovered) [] (r_decryption_aggregator_proofs recovered) (r_last_ec recovered)) false.

Definition aggregation_inputs_ready (a : Aggregator) : bool :=
  match p_data (state a) with
  | Some (SVerifyingC6 _ | SComputing _ | SGeneratingC7Proof _ | SComplete _) => true
  | _ => false
  end.

Definition can_run_aggregation_effects (a : Aggregator) : bool := effects_enabled a && is_aggregator a.

Definition can_continue_aggregation_effects (a : Aggregator) : bool :=
  effects_enabled a && (is_aggregator a || started_as_aggregator a).

(** ** The external operations *)

Class PlaintextOps := {
  (** [C6ShareVerifier::new] succeeds for the preset *)
  verifier_ready : BfvPreset → bool;
  (** the commitment of the share polynomial; [None] when the bytes are not a polynomial *)
  share_commitment : BfvPreset → Bytes → option Z;
  (** [compute_ct_commitment_with_params] *)
  ct_commitment : BfvPreset → Bytes → option Bytes;
  (** [EventId::hash] of a verification request *)
  event_id_hash : ShareVerificationDispatched → B256 }.

Section Effects.
Context `{AlloyOps} `{AddressText} `{PlaintextOps}.

Local Abbreviation Mon := (M Aggregator Publication PtError).

Definition mutate_state (f : State → result State PtError) : Mon () := try_mutate PersistFailed f.
Definition mutate_recovery (f : Recovery → Recovery) : Mon () := try_mutate PersistFailed (λ r, Ok (f r)).
Definition pend (f : PendingDecryptionWork → PendingDecryptionWork) : Mon () := modify (with_pending f).
Definition send (p : Publication) : Mon () := publish PublishRefused p.

Definition mark_started_as_aggregator : Mon () :=
  modify (λ a, with_role (is_aggregator a) (started_as_aggregator a || can_run_aggregation_effects a)
                 (effects_enabled a) (stopped a) a).

Definition publish_inputs_ready : Mon () :=
  a ⇐ get_st;
  if negb (effects_enabled a) || negb (aggregation_inputs_ready a) then ret tt else send InputsReady.

(** *** validate_decryption_share.rs and validation.rs *)

Definition share_matches (preset : BfvPreset) (share : Bytes) (proof : Proof_) : bool :=
  match extract_output (output_layout ThresholdShareDecryption) (public_signals proof) "d_commitment" with
  | None => false
  | Some expected =>
      match share_commitment preset share with
      | None => false
      | Some commitment =>
          (* [to_bytes_be] gives the magnitude; more than 32 bytes do not fit *)
          (Z.abs commitment <? 2 ^ 256)%Z && bool_decide (field_of (Z.abs commitment) = expected)
      end
  end.

Definition verifier_matches (preset : BfvPreset) (shares : list Bytes) (proofs : list SignedProofPayload) : bool :=
  negb (length shares =? 0) && (length shares =? length proofs) &&
  forallb (λ '(share, proof), share_matches preset share (pp_proof (payload proof))) (zip shares proofs).

Definition verify_shares_match_c6_commitments (preset : BfvPreset) (honest_shares : list (nat * list Bytes))
    (c6_proofs : gmap nat (list SignedProofPayload)) : gset nat :=
  if negb (verifier_ready preset) then list_to_set honest_shares.*1
  else list_to_set (omap (λ '(party_id, shares),
         match c6_proofs !! party_id with
         | Some proofs => if verifier_matches preset shares proofs then None else Some party_id
         | None => Some party_id
         end) honest_shares).

Definition c6_has_canonical_domain (ps : Params) (proof : Proof_) (ciphertext : Bytes) : bool :=
  match u256_from_decimal (e3_num (a_e3_id ps)) with
  | None => false
  | Some e3 =>
      let domain := decryption_domain_limbs (chain_id (a_e3_id ps)) e3 (decryption_domain ps)
                      (keccak256 ciphertext) in
      let layout := input_layout ThresholdShareDecryption in
      bool_decide (circuit proof = ThresholdShareDecryption) &&
      bool_decide (extract_input layout (public_signals proof) "domain_hi" = Some (field_of (hi domain))) &&
      bool_decide (extract_input layout (public_signals proof) "domain_lo" = Some (field_of (lo domain)))
  end.

(** Computed once; the ciphertexts of an E3 do not change. *)
Definition ciphertext_commitments (ciphertexts : list Bytes) : Mon (list Bytes) :=
  a ⇐ get_st;
  match ciphertext_commitments_ (pending a) with
  | Some commitments => ret commitments
  | None =>
      commitments ⇐ ok_or (mapM (ct_commitment (params_preset (params a))) ciphertexts) CiphertextCommitment;
      pend (set_commitments (Some commitments)) ;;
      ret commitments
  end.

(** The signed sender of a bundle: an honest member, in its own slot. *)
Definition valid_sender (ps : Params) (address : Address) (proofs : list SignedProofPayload) : bool :=
  bool_decide (address ∈ honest_committee_addresses ps) &&
  forallb (λ proof,
    bool_decide (pp_e3_id (payload proof) = a_e3_id ps) &&
    bool_decide (pp_proof_type (payload proof) = C6ThresholdShareDecryption) &&
    bool_decide (circuit (pp_proof (payload proof)) = ThresholdShareDecryption) &&
    default false (verify_address proof address)) proofs.

Definition ct_commitments_match (proofs : list SignedProofPayload) (commitments : list Bytes) : bool :=
  (length commitments =? length proofs) &&
  forallb (λ '(proof, expected),
    bool_decide (extract_input (input_layout ThresholdShareDecryption)
                   (public_signals (pp_proof (payload proof))) "ct_commitment" = Some expected))
    (zip proofs commitments).

Definition share_is_authenticated (party_id : nat) (shares : list Bytes) (proofs : list SignedProofPayload)
    (ciphertexts : list Bytes) : Mon bool :=
  a ⇐ get_st;
  let ps := params a in
  match committee_addresses ps !! party_id with
  | None => ret false
  | Some address =>
      if negb (negb (length shares =? 0) && (length shares =? length ciphertexts) &&
               (length proofs =? length ciphertexts)) then ret false
      else if negb (valid_sender ps address proofs) then ret false
      else if negb (forallb (λ '(proof, ciphertext), c6_has_canonical_domain ps (pp_proof (payload proof)) ciphertext)
                      (zip proofs ciphertexts)) then ret false
      else
        commitments ⇐ ciphertext_commitments ciphertexts;
        if negb (ct_commitments_match proofs commitments) then ret false
        else if negb (verifier_ready (params_preset ps)) then ret false
        else ret (verifier_matches (params_preset ps) shares proofs)
  end.

(** *** verify_decryption_shares.rs *)

Definition add_share (party_id : nat) (share : list Bytes) (proofs : list SignedProofPayload) : Mon () :=
  current ⇐ p_try_get PersistFailed;
  let known := match current with
    | SCollecting c => Some (bool_decide (is_Some (c_shares c !! party_id)) ||
                             bool_decide (party_id ∈ c_rejected_parties c), c_ciphertext_output c)
    | SVerifyingC6 v => Some (bool_decide (is_Some (v_shares v !! party_id)) ||
                              bool_decide (is_Some (v_queued_shares v !! party_id)) ||
                              bool_decide (party_id ∈ v_rejected_parties v), v_ciphertext_output v)
    | _ => None
    end in
  match known with
  | None | Some (true, _) => ret tt
  | Some (false, ciphertexts) =>
      a ⇐ get_st;
      ensure (negb (length (honest_committee_addresses (params a)) =? 0)) EmptyHonestCommittee ;;
      authenticated ⇐ share_is_authenticated party_id share proofs ciphertexts;
      if negb authenticated then ret tt
      else mutate_state (λ s, add_share_transition s party_id share proofs)
  end.

Definition handle_member_expelled (party_id : nat) : Mon () :=
  mutate_state (λ s, Ok (member_expelled_transition s party_id)).

Definition c6_verification_request (ps : Params) (c6_proofs : gmap nat (list SignedProofPayload))
    : ShareVerificationDispatched :=
  mkDispatched (a_e3_id ps) ThresholdDecryptionProofs (plan_c6_dispatch c6_proofs) ∅
    (params_preset ps) (committee_size ps).

Definition dispatch_c6_verification (c6_proofs : gmap nat (list SignedProofPayload)) : Mon () :=
  mark_started_as_aggregator ;;
  a ⇐ get_st;
  let request := c6_verification_request (params a) c6_proofs in
  let request_id := event_id_hash request in
  rec ⇐ p_try_get (T:=Recovery) PersistFailed;
  if bool_decide (is_Some (c6_outcomes rec !! request_id)) then
    corr ⇐ new_correlation_id;
    send (PlaintextVerificationResumed_ request_id corr)
  else send (C6VerificationRequested request).

Definition fail_decryption_round : Mon () :=
  send E3Failed ;;
  pend (λ p, set_honest_c6 None (set_dec_corr None (set_agg_corr None (set_c7 None (set_agg_proofs None p))))).

Definition dispatch_threshold_decryption (c : Computing) : Mon () :=
  corr ⇐ new_correlation_id;
  send (ThresholdDecryptionRequested corr (k_ciphertext_output c) (k_params c) (k_threshold_n c)
          (k_threshold_m c) (k_shares c)) ;;
  pend (set_dec_corr (Some corr)).

Definition retry_c6_with_backups (v : VerifyingC6) (dishonest : gset nat) : Mon () :=
  a ⇐ get_st;
  let available := length (List.filter (λ '(party, address),
      bool_decide (address ∈ honest_committee_addresses (params a)) && bool_decide (party ∉ dishonest))
      (imap pair (committee_addresses (params a)))) in
  if available <=? v_threshold_m v then fail_decryption_round
  else
    mutate_state (λ _, Ok (retry_collection v dishonest)) ;;
    a ⇐ get_st;
    match p_data (state a) with
    | Some (SVerifyingC6 next) => publish_inputs_ready ;; dispatch_c6_verification (v_c6_proofs next)
    | _ => ret tt
    end.

(** The shares and the proofs of the parties outside a set, by ascending party. *)
Definition honest_of {V} (dishonest : gset nat) (m : gmap nat V) : list (nat * V) :=
  List.filter (λ kv, bool_decide (kv.1 ∉ dishonest)) (btree_list m).

(** [signed.iter().map(|s| s.payload.proof.clone())] *)
Definition raw_proofs (signed : list SignedProofPayload) : list Proof_ := (λ sp, pp_proof (payload sp)) <$> signed.

Definition set_r_c6 (c6 : list (nat * list Proof_)) (ec : EventContext) (r : Recovery) : Recovery :=
  mkRecovery (schema_version r) c6 (c7_proofs r) (r_decryption_aggregator_proofs r) (Some ec) (c6_outcomes r).

Definition apply_c6_verification_outcome (v : VerifyingC6) (outcome : gset nat) (ec : EventContext) : Mon () :=
  a ⇐ get_st;
  let dishonest := v_rejected_parties v ∪ outcome in
  let honest_shares := honest_of dishonest (v_shares v) in
  let mismatch := verify_shares_match_c6_commitments (params_preset (params a)) honest_shares (v_c6_proofs v) in
  let dishonest := dishonest ∪ mismatch in
  let honest_shares := List.filter (λ kv, bool_decide (kv.1 ∉ mismatch)) honest_shares in
  if length honest_shares <=? v_threshold_m v then retry_c6_with_backups v dishonest
  else
    let honest_c6 := prod_map id raw_proofs <$> honest_of dishonest (v_c6_proofs v) in
    mutate_recovery (set_r_c6 honest_c6 ec) ;;
    let computing := mkComputing (v_threshold_m v) (v_threshold_n v) honest_shares
                       (v_ciphertext_output v) (v_params v) in
    dispatch_threshold_decryption computing ;;
    pend (set_honest_c6 (Some honest_c6)) ;;
    mutate_state (λ _, Ok (SComputing computing)) ;;
    pend (set_last_ec (Some ec)).

Definition apply_cached_c6_outcome (ec : EventContext) : Mon () :=
  a ⇐ get_st;
  if negb (can_continue_aggregation_effects a) then ret tt
  else match p_data (state a) with
  | Some (SVerifyingC6 v) =>
      let request_id := event_id_hash (c6_verification_request (params a) (v_c6_proofs v)) in
      rec ⇐ p_try_get (T:=Recovery) PersistFailed;
      match c6_outcomes rec !! request_id with
      | None => ret tt
      | Some outcome => apply_c6_verification_outcome v outcome ec
      end
  | _ => ret tt
  end.

Definition handle_c6_resume (e3 : E3id) (request_id : B256) (ec : EventContext) : Mon () :=
  a ⇐ get_st;
  if negb (can_continue_aggregation_effects a) || negb (bool_decide (e3 = a_e3_id (params a))) ||
     negb (bool_decide (source ec = Local_)) then ret tt
  else match p_data (state a) with
  | Some (SVerifyingC6 batch) =>
      let expected := event_id_hash (c6_verification_request (params a) (v_c6_proofs batch)) in
      if bool_decide (expected = request_id) then apply_cached_c6_outcome ec else ret tt
  | _ => ret tt
  end.

Definition record_outcome (max_batches : nat) (request_id : B256) (dishonest : gset nat) (r : Recovery) : Recovery :=
  mkRecovery (schema_version r) (honest_c6_proofs r) (c7_proofs r) (r_decryption_aggregator_proofs r) (r_last_ec r)
    (if size (c6_outcomes r) <? max_batches then or_insert request_id dishonest (c6_outcomes r) else c6_outcomes r).

Definition handle_c6_verification_complete (msg : ShareVerificationComplete) (ec : EventContext) : Mon () :=
  a ⇐ get_st;
  if negb (bool_decide (svc_kind msg = ThresholdDecryptionProofs)) ||
     negb (bool_decide (source ec = Local_)) || negb (bool_decide (svc_e3_id msg = a_e3_id (params a))) then ret tt
  else match p_data (state a) with
  | Some (SCollecting _ | SVerifyingC6 _) =>
      let max_batches := length (honest_committee_addresses (params a)) + 1 in
      mutate_recovery (record_outcome max_batches (causation_id ec) (dishonest_parties msg)) ;;
      apply_cached_c6_outcome ec
  | _ => ret tt
  end.

(** *** prove_plaintext.rs and publish_result.rs *)

Definition dispatch_c7_proof_request (shares : list (nat * list Bytes)) (plaintext : list Bytes)
    (threshold_m threshold_n : nat) : Mon () :=
  send (C7ProofRequested shares plaintext threshold_m threshold_n).

(** The state as [GeneratingC7Proof], or the error of the conversion. *)
Definition generating_state : Mon GeneratingC7Proof :=
  a ⇐ get_st;
  match p_data (state a) with
  | Some (SGeneratingC7Proof g) => ret g
  | _ => fail UnexpectedState
  end.

Definition set_r_agg (proofs : option (list Proof_)) (ec : EventContext) (r : Recovery) : Recovery :=
  mkRecovery (schema_version r) (honest_c6_proofs r) (c7_proofs r) proofs (Some ec) (c6_outcomes r).
Definition set_r_c7 (proofs : option (list Proof_)) (ec : EventContext) (r : Recovery) : Recovery :=
  mkRecovery (schema_version r) (honest_c6_proofs r) proofs (r_decryption_aggregator_proofs r) (Some ec) (c6_outcomes r).

Definition try_publish_complete : Mon () :=
  a ⇐ get_st;
  match c7_proofs_pending (pending a) with
  | None => ret tt
  | Some c7 =>
      match decryption_aggregator_proofs_ (pending a), decryption_aggregation_correlation (pending a) with
      | Some proofs, None =>
          g ⇐ generating_state;
          ec ⇐ ok_or (last_ec (pending a)) NoEventContext;
          mutate_recovery (λ r, set_r_agg (Some proofs) ec (set_r_c7 (Some c7) ec r)) ;;
          send (PlaintextAggregated (format_decrypted_plaintext (g_plaintext g)) proofs) ;;
          mutate_state (λ _, Ok (SComplete (mkComplete (g_plaintext g) (g_shares g))))
      | _, _ => ret tt
      end
  end.

(** The publication without recursive aggregation: the domain of the first C6 party at fields
    four and five of six. *)
Definition mock_inputs (c6 : Proof_) : option Bytes :=
  let layout := input_layout ThresholdShareDecryption in
  domain_hi ← extract_input layout (public_signals c6) "domain_hi";
  domain_lo ← extract_input layout (public_signals c6) "domain_lo";
  Some (replicate (4 * 32) 0%Z ++ domain_hi ++ domain_lo).

Definition mock_proofs (c6 : list Proof_) (c7 : list Proof_) : result (list Proof_) PtError :=
  foldr (λ '(index, proof) acc,
    match c6 !! index with
    | None => Err MissingC6Output
    | Some p =>
        match mock_inputs p with
        | None => Err MissingC6Domain
        | Some inputs =>
            match acc with
            | Ok rest => Ok (mkProof DecryptionAggregator (data proof) inputs :: rest)
            | Err e => Err e
            end
        end
    end) (Ok []) (imap pair c7).

(** Only called with proof aggregation enabled. *)
Definition dispatch_decryption_aggregation : Mon () :=
  a ⇐ get_st;
  if length (committee_addresses (params a)) =? 0 then fail_decryption_round
  else match c7_proofs_pending (pending a) with
  | None => ret tt
  | Some c7 =>
      if bool_decide (is_Some (decryption_aggregator_proofs_ (pending a))) ||
         bool_decide (is_Some (decryption_aggregation_correlation (pending a))) then ret tt
      else match honest_c6_proofs_for_agg (pending a) with
      | None => ret tt
      | Some honest_c6 =>
          if (length honest_c6 =? 0) || existsb (λ '(_, w), length w =? 0) honest_c6 then fail_decryption_round
          else
            g ⇐ generating_state;
            let c6_total_slots := g_threshold_m g + 1 in
            if length honest_c6 <? c6_total_slots then fail_decryption_round
            else match build_decryption_aggregation_jobs c7 honest_c6 c6_total_slots with
            | None => fail_decryption_round
            | Some jobs =>
                corr ⇐ new_correlation_id;
                send (DecryptionAggregationRequested corr c6_total_slots jobs (committee_addresses (params a))) ;;
                pend (set_agg_corr (Some corr))
            end
      end
  end.

Definition maybe_start_decryption_aggregation (ec : EventContext) : Mon () :=
  a ⇐ get_st;
  match c7_proofs_pending (pending a) with
  | None => ret tt
  | Some c7 =>
      if bool_decide (is_Some (decryption_aggregator_proofs_ (pending a))) ||
         bool_decide (is_Some (decryption_aggregation_correlation (pending a))) then ret tt
      else if negb (proof_aggregation_enabled (params a)) then
        c6 ⇐ ok_or (honest_c6_proofs_for_agg (pending a) ≫= head) MissingC6Proofs;
        proofs ⇐ lift (mock_proofs c6.2 c7);
        pend (set_agg_proofs (Some proofs)) ;;
        mutate_recovery (set_r_agg (Some proofs) ec)
      else dispatch_decryption_aggregation
  end.

Definition handle_aggregation_proof_signed (msg : AggregationProofSigned) (ec : EventContext) : Mon () :=
  a ⇐ get_st;
  if negb (bool_decide (aps_e3_id msg = a_e3_id (params a))) then ret tt
  else match p_data (state a) with
  | Some (SGeneratingC7Proof g) =>
      let proofs := raw_proofs (aps_signed_proofs msg) in
      if negb (c7_proofs_match_batch proofs (default [] (honest_c6_proofs_for_agg (pending a)))
                 (g_plaintext g) (g_threshold_m g + 1)) then
        dispatch_c7_proof_request (g_shares g) (g_plaintext g) (g_threshold_m g) (g_threshold_n g)
      else
        mutate_recovery (set_r_c7 (Some proofs) ec) ;;
        pend (λ p, set_last_ec (Some ec) (set_c7 (Some proofs) p)) ;;
        maybe_start_decryption_aggregation ec ;;
        try_publish_complete
  | _ => ret tt
  end.

Definition buffer_replayed_c7_result (msg : AggregationProofSigned) : Mon () :=
  a ⇐ get_st;
  if bool_decide (aps_e3_id msg = a_e3_id (params a)) &&
     match p_data (state a) with Some (SComplete _) => false | _ => true end
  then pend (λ p, set_replayed (replayed_c7_results p ++ [msg]) p)
  else ret tt.

Definition take_replayed_c7_result (plaintext : list Bytes) (threshold_m : nat)
    : Mon (option AggregationProofSigned) :=
  a ⇐ get_st;
  let honest_c6 := default [] (honest_c6_proofs_for_agg (pending a)) in
  pend (set_replayed []) ;;
  ret (List.find (λ r, c7_proofs_match_batch (raw_proofs (aps_signed_proofs r)) honest_c6 plaintext (threshold_m + 1))
         (reverse (replayed_c7_results (pending a)))).

(** Responses of the compute workers; other kinds are ignored. *)
Inductive ComputeResponse :=
| ThresholdDecryptionResponse (plaintext : list Bytes)
| DecryptionAggregationResponse (proofs : list Proof_)
| OtherResponse.

Definition handle_compute_response (e3 : E3id) (correlation_id : Z) (response : ComputeResponse)
    (ec : EventContext) : Mon () :=
  a ⇐ get_st;
  ensure (bool_decide (e3 = a_e3_id (params a))) WrongE3 ;;
  match response with
  | ThresholdDecryptionResponse plaintext =>
      if negb (bool_decide (threshold_decryption_correlation (pending a) = Some correlation_id)) then ret tt
      else
        pend (set_dec_corr None) ;;
        a ⇐ get_st;
        c ⇐ match p_data (state a) with Some (SComputing c) => ret c | _ => fail UnexpectedState end;
        replayed ⇐ take_replayed_c7_result plaintext (k_threshold_m c);
        match replayed with
        | None => dispatch_c7_proof_request (k_shares c) plaintext (k_threshold_m c) (k_threshold_n c)
        | Some _ => ret tt
        end ;;
        mutate_state (λ _, Ok (SGeneratingC7Proof
          (mkGeneratingC7Proof (k_threshold_m c) (k_threshold_n c) (k_shares c) plaintext))) ;;
        match replayed with
        | Some r => handle_aggregation_proof_signed r ec
        | None => ret tt
        end
  | DecryptionAggregationResponse proofs =>
      if negb (bool_decide (decryption_aggregation_correlation (pending a) = Some correlation_id)) then ret tt
      else
        pend (set_agg_corr None) ;;
        if match c7_proofs_pending (pending a) with
           | Some c7 => negb (length proofs =? length c7)
           | None => false
           end then fail_decryption_round
        else
          pend (set_agg_proofs (Some proofs)) ;;
          mutate_recovery (set_r_agg (Some proofs) ec) ;;
          try_publish_complete
  | OtherResponse => ret tt
  end.

(** *** recovery.rs *)

(** [result.unwrap_or(false)] *)
Definition try_or_false (m : Mon bool) : Mon bool := λ w,
  match m w with (Ok b, w') => (Ok b, w') | (Err _, w') => (Ok false, w') end.

(** [iter.all(..)], which stops at the first [false]. *)
Fixpoint all_m {A} (f : A → Mon bool) (l : list A) : Mon bool :=
  match l with
  | [] => ret true
  | x :: l' => b ⇐ f x; if b then all_m f l' else ret false
  end.

(** The saved shares of a map, each with its proofs, are authenticated. *)
Definition saved_authenticated (shares : gmap nat (list Bytes)) (proofs : gmap nat (list SignedProofPayload))
    (ciphertexts : list Bytes) : Mon bool :=
  all_m (λ '(party, share),
    match proofs !! party with
    | None => ret false
    | Some ps => try_or_false (share_is_authenticated party share ps ciphertexts)
    end) (btree_list shares).

Definition recovered_c6_is_valid (ciphertexts : list Bytes) : Mon bool :=
  a ⇐ get_st;
  rec ⇐ p_try_get (T:=Recovery) PersistFailed;
  let proofs := honest_c6_proofs rec in
  if existsb (λ '(_, ps), (length ps =? 0) || negb (length ps =? length ciphertexts) ||
       negb (forallb (λ '(proof, ciphertext), c6_has_canonical_domain (params a) proof ciphertext)
               (zip ps ciphertexts))) proofs then ret false
  else
    current ⇐ p_try_get (T:=State) PersistFailed;
    let of_shares (shares : list (nat * list Bytes)) : Mon bool :=
      ret (negb (length shares =? 0) && (length shares =? length proofs) &&
           forallb (λ '((party, share), (proof_party, ps)),
             (party =? proof_party) && (length share =? length ciphertexts) && (length ps =? length ciphertexts))
             (zip shares proofs)) in
    match current with
    | SCollecting c =>
        if (size (c_shares c) =? 0) || negb (size (c_shares c) =? size (c_c6_proofs c)) then ret false
        else saved_authenticated (c_shares c) (c_c6_proofs c) ciphertexts
    | SVerifyingC6 v =>
        if negb (size (v_shares v) =? size (v_c6_proofs v)) then ret false
        else
          b ⇐ saved_authenticated (v_shares v) (v_c6_proofs v) ciphertexts;
          if negb b then ret false
          else all_m (λ '(party, queued),
                 try_or_false (share_is_authenticated party (q_share queued) (q_proofs queued) ciphertexts))
                 (btree_list (v_queued_shares v))
    | SComputing k => of_shares (k_shares k)
    | SGeneratingC7Proof g => of_shares (g_shares g)
    | SComplete d => of_shares (d_shares d)
    end.

(** Both values are written synchronously and loaded again, which leaves the staging mode. *)
Definition persist_repaired_state : Mon () :=
  s ⇐ p_try_get (T:=State) PersistFailed;
  call (PersistFailed StoreRefused) ;;
  r ⇐ p_try_get (T:=Recovery) PersistFailed;
  call (PersistFailed StoreRefused) ;;
  call (PersistFailed StoreRefused) ;;
  modify (fset (mkPersistable (Some s) (Some s) false)) ;;
  call (PersistFailed StoreRefused) ;;
  modify (fset (mkPersistable (Some r) (Some r) false)).

(** The events of the E3's history that rebuild the work, in order. *)
Inductive HistoryEvent :=
| HShare (share : DecryptionshareCreated)
| HExpelled (party_id : option nat)
| HExcluded (party_id : option nat).

Definition visit (e : HistoryEvent) : Mon () :=
  match e with
  | HShare share =>
      a ⇐ get_st;
      if node_owns_committee_party_slot (committee_addresses (params a)) (honest_committee_addresses (params a))
           (dc_node share) (dc_party_id share)
      then add_share (dc_party_id share) (decryption_share share) (signed_decryption_proofs share)
      else ret tt
  | HExpelled (Some party) | HExcluded (Some party) => handle_member_expelled party
  | HExpelled None | HExcluded None => ret tt
  end.

(** The shares that the discarded state held, the batch before the queue. *)
Definition retained_shares (s : State) : gmap nat (list Bytes * list SignedProofPayload) :=
  let batch shares proofs :=
    map_imap (λ party share, proofs !! party ≫= λ ps, Some (share, ps)) shares in
  match s with
  | SCollecting c => batch (c_shares c) (c_c6_proofs c)
  | SVerifyingC6 v => batch (v_shares v) (v_c6_proofs v) ∪ ((λ q, (q_share q, q_proofs q)) <$> v_queued_shares v)
  | _ => ∅
  end.

Definition rejected_of (s : State) : gset nat :=
  match s with SCollecting c => c_rejected_parties c | SVerifyingC6 v => v_rejected_parties v | _ => ∅ end.

(** Keep the canonical C6 work, but regenerate C7 and the final proof for this batch. *)
Definition redo_c7 (g : GeneratingC7Proof) : Mon () :=
  p_stage (T:=State) ;;
  p_stage (T:=Recovery) ;;
  mutate_state (λ _, Ok (SGeneratingC7Proof g)) ;;
  mutate_recovery (λ r, mkRecovery (schema_version r) (honest_c6_proofs r) None None (r_last_ec r) (c6_outcomes r)) ;;
  pend (λ p, set_c7 None (set_agg_proofs None (set_agg_corr None p))) ;;
  persist_repaired_state.

(** Rebuild the work from the signed history and the retained shares. *)
Definition rebuild (initial : State) (history : list HistoryEvent) : Mon () :=
  old ⇐ p_try_get (T:=State) PersistFailed;
  p_stage (T:=State) ;;
  p_stage (T:=Recovery) ;;
  mutate_state (λ _, Ok initial) ;;
  rec ⇐ p_try_get (T:=Recovery) PersistFailed;
  ec ⇐ ok_or (r_last_ec rec) NoEventContext;
  mutate_recovery (λ _, new_threshold_plaintext_recovery ec) ;;
  pend (λ _, set_last_ec (Some ec) default_pending) ;;
  modify (λ a, with_role (is_aggregator a) false (effects_enabled a) (stopped a) a) ;;
  for_each (merge_sort le (elements (rejected_of old))) handle_member_expelled ;;
  for_each history visit ;;
  for_each (btree_list (retained_shares old)) (λ '(party, (shares, proofs)), add_share party shares proofs) ;;
  persist_repaired_state.

Definition repair_recovered_state (initial : State) (history : list HistoryEvent) : Mon () :=
  match initial with
  | SCollecting collecting =>
      valid ⇐ recovered_c6_is_valid (c_ciphertext_output collecting);
      if valid : bool then
        current ⇐ p_try_get (T:=State) PersistFailed;
        let of_batch (g : GeneratingC7Proof) : Mon () :=
          rec ⇐ p_try_get (T:=Recovery) PersistFailed;
          if match c7_proofs rec with
             | Some proofs => c7_proofs_match_batch proofs (honest_c6_proofs rec) (g_plaintext g) (g_threshold_m g + 1)
             | None => false
             end then ret tt
          else redo_c7 g in
        match current with
        | SGeneratingC7Proof g => of_batch g
        | SComplete d => of_batch (mkGeneratingC7Proof (c_threshold_m collecting) (c_threshold_n collecting)
                                     (d_shares d) (d_decrypted d))
        | _ => ret tt
        end
      else rebuild initial history
  | _ => fail UnexpectedState
  end.

Definition resume_in_flight_work (effects_context : EventContext) : Mon () :=
  a ⇐ get_st;
  let started := match p_data (state a) with Some s => aggregation_started s | None => false end in
  if negb (can_run_aggregation_effects a || (started && can_continue_aggregation_effects a)) then ret tt
  else
    mark_started_as_aggregator ;;
    rec ⇐ p_try_get (T:=Recovery) PersistFailed;
    ensure (schema_version rec =? THRESHOLD_PLAINTEXT_RECOVERY_SCHEMA_VERSION)
      (UnsupportedSchema (schema_version rec)) ;;
    let causal_context := default effects_context (r_last_ec rec) in
    pend (set_last_ec (Some causal_context)) ;;
    a ⇐ get_st;
    match p_data (state a) with
    | None | Some (SCollecting _) => ret tt
    | Some (SVerifyingC6 v) => dispatch_c6_verification (v_c6_proofs v)
    | Some (SComputing c) =>
        ensure (negb (proof_aggregation_enabled (params a)) ||
                bool_decide (is_Some (honest_c6_proofs_for_agg (pending a)))) CannotResumeWithoutC6 ;;
        dispatch_threshold_decryption c
    | Some (SGeneratingC7Proof g) =>
        pend (set_agg_corr None) ;;
        let finish := maybe_start_decryption_aggregation causal_context ;; try_publish_complete in
        match c7_proofs_pending (pending a) with
        | Some _ => finish
        | None =>
            replayed ⇐ take_replayed_c7_result (g_plaintext g) (g_threshold_m g);
            match replayed with
            | Some r =>
                pend (λ p, set_replayed (replayed_c7_results p ++ [r]) p) ;;
                corr ⇐ new_correlation_id;
                send (AggregationResumed_ corr)
            | None =>
                dispatch_c7_proof_request (g_shares g) (g_plaintext g) (g_threshold_m g) (g_threshold_n g) ;;
                finish
            end
        end
    | Some (SComplete d) =>
        proofs ⇐ ok_or (decryption_aggregator_proofs_ (pending a)) NoPublicationRecord;
        send (PlaintextAggregated (format_decrypted_plaintext (d_decrypted d)) proofs)
    end.

Definition handle_aggregation_resume (e3 : E3id) (phase : AggregationPhase) (ec : EventContext) : Mon () :=
  a ⇐ get_st;
  if negb (bool_decide (e3 = a_e3_id (params a))) || negb (bool_decide (phase = PlaintextPhase)) ||
     negb (bool_decide (source ec = Local_)) || negb (can_continue_aggregation_effects a) then ret tt
  else match p_data (state a) with
  | Some (SGeneratingC7Proof g) =>
      replayed ⇐ take_replayed_c7_result (g_plaintext g) (g_threshold_m g);
      match replayed with
      | Some r => handle_aggregation_proof_signed r ec
      | None => ret tt
      end
  | _ => ret tt
  end.

(** *** handlers.rs *)

Inductive Message :=
| MDecryptionshareCreated (share : DecryptionshareCreated)
| MCommitteeContains (share : DecryptionshareCreated) (is_found_in_committee : bool)
| ME3RequestComplete
| ME3StageChanged (e3 : E3id) (is_terminal : bool)
| MComputeResponse (e3 : E3id) (correlation_id : Z) (response : ComputeResponse)
| MComputeRequestError (e3 : E3id) (correlation_id : Z)
| MCommitteeMemberExpelled (party_id : option nat)
| MCommitteeMemberExcluded (party_id : option nat)
| MShareVerificationComplete (msg : ShareVerificationComplete)
| MPlaintextVerificationResumed (e3 : E3id) (request_id : B256)
| MAggregationResumed (e3 : E3id) (phase : AggregationPhase)
| MAggregationProofSigned (msg : AggregationProofSigned)
| MAggregatorChanged (e3 : E3id) (is_aggregator : bool)
| MEffectsEnabled
| MOther.

Definition die : Mon () :=
  modify (λ a, with_role (is_aggregator a) (started_as_aggregator a) (effects_enabled a) true a).

(** Announce the batch once it is ready, and verify it if this node aggregates. *)
Definition after_collection (was_ready : bool) : Mon () :=
  a ⇐ get_st;
  let became_ready := negb was_ready && aggregation_inputs_ready a in
  (if became_ready then publish_inputs_ready else ret tt) ;;
  a ⇐ get_st;
  if became_ready && can_run_aggregation_effects a then
    match p_data (state a) with
    | Some (SVerifyingC6 v) => dispatch_c6_verification (v_c6_proofs v)
    | _ => ret tt
    end
  else ret tt.

Definition handle_share_created (share : DecryptionshareCreated) : Mon () :=
  a ⇐ get_st;
  match p_data (state a) with
  | Some (SCollecting _ | SVerifyingC6 _) => publish SortitionRefused (CommitteeContainsRequested share)
  | _ => ret tt
  end.

Definition handle_committee_contains (share : DecryptionshareCreated) (found : bool) : Mon () :=
  a ⇐ get_st;
  if negb (bool_decide (dc_e3_id share = a_e3_id (params a))) then fail WrongE3
  else if negb found then ret tt
  else if negb (node_owns_committee_party_slot (committee_addresses (params a))
                  (honest_committee_addresses (params a)) (dc_node share) (dc_party_id share)) then ret tt
  else
    let was_ready := aggregation_inputs_ready a in
    add_share (dc_party_id share) (decryption_share share) (signed_decryption_proofs share) ;;
    after_collection was_ready.

Definition handle_expulsion (party_id : option nat) : Mon () :=
  match party_id with
  | None => ret tt
  | Some party_id =>
      a ⇐ get_st;
      let was_ready := aggregation_inputs_ready a in
      handle_member_expelled party_id ;;
      after_collection was_ready
  end.

Definition handle_aggregator_changed (e3 : E3id) (value : bool) (ec : EventContext) : Mon () :=
  a ⇐ get_st;
  if negb (bool_decide (e3 = a_e3_id (params a))) || Bool.eqb value (is_aggregator a) then ret tt
  else
    modify (λ a, with_role value (started_as_aggregator a) (effects_enabled a) (stopped a) a) ;;
    a ⇐ get_st;
    if can_run_aggregation_effects a then resume_in_flight_work ec else ret tt.

Definition handle_effects_enabled (ec : EventContext) : Mon () :=
  modify (λ a, with_role (is_aggregator a) (started_as_aggregator a) true (stopped a) a) ;;
  publish_inputs_ready ;;
  resume_in_flight_work ec.

Definition dispatch (msg : Message) (ec : EventContext) : Mon () :=
  match msg with
  | MDecryptionshareCreated share => handle_share_created share
  | MCommitteeContains share found => handle_committee_contains share found
  | ME3RequestComplete => die
  | ME3StageChanged e3 is_terminal =>
      a ⇐ get_st;
      if bool_decide (e3 = a_e3_id (params a)) && is_terminal then die else ret tt
  | MComputeResponse e3 correlation_id response =>
      a ⇐ get_st;
      if can_continue_aggregation_effects a then handle_compute_response e3 correlation_id response ec else ret tt
  | MComputeRequestError _ _ => ret tt
  | MCommitteeMemberExpelled party_id | MCommitteeMemberExcluded party_id => handle_expulsion party_id
  | MShareVerificationComplete msg => handle_c6_verification_complete msg ec
  | MPlaintextVerificationResumed e3 request_id => handle_c6_resume e3 request_id ec
  | MAggregationResumed e3 phase => handle_aggregation_resume e3 phase ec
  | MAggregationProofSigned msg =>
      a ⇐ get_st;
      if negb (effects_enabled a) then buffer_replayed_c7_result msg
      else if negb (can_continue_aggregation_effects a) then ret tt
      else handle_aggregation_proof_signed msg ec
  | MAggregatorChanged e3 value => handle_aggregator_changed e3 value ec
  | MEffectsEnabled => handle_effects_enabled ec
  | MOther => ret tt
  end.

(** One message of the mailbox: a stopped actor takes none, and an error is reported. *)
Definition handle (msg : Message) (ec : EventContext) : Mon () :=
  a ⇐ get_st;
  if stopped a then ret tt else trap ErrorReported (dispatch msg ec).

(** *** Restarts (ext.rs): a new actor over the stored snapshots, repaired before it starts *)

Definition restart (initial : State) (history : list HistoryEvent) (initial_is_aggregator : bool) : Mon () :=
  modify (λ a, new_aggregator (params a) (reload (state a)) (reload (recovery a)) initial_is_aggregator false) ;;
  repair_recovered_state initial history.
End Effects.

(** ** decryption_share_buffer.rs *)

(** The parties expelled so far, and the message if it is passed on. *)
Definition buffer_handle (expelled_parties : gset nat) (msg : Message) : gset nat * option Message :=
  match msg with
  | MDecryptionshareCreated share =>
      (expelled_parties, if bool_decide (dc_party_id share ∈ expelled_parties) then None else Some msg)
  | MCommitteeMemberExpelled party_id | MCommitteeMemberExcluded party_id =>
      match party_id with
      | None => (expelled_parties, None)
      | Some party_id =>
          if bool_decide (party_id ∈ expelled_parties) then (expelled_parties, None)
          else ({[party_id]} ∪ expelled_parties, Some msg)
      end
  | _ => (expelled_parties, Some msg)
  end.
