(* ===== verification/PlaintextInv.v ===== *)
(** * The invariant of the threshold decryption

    What the plaintext aggregator keeps through every message, under every pattern of refused
    publications and snapshot writes: the bundles it holds are authenticated, a batch that goes to
    decryption has more than [T] distinct parties in ascending order with the proofs of the same
    parties, and the C7 and aggregation proofs belong to that batch. *)

From S2P Require Import Prelude Events CommitmentLinks NodeRegistry Actor Orchestration PlaintextAggregation.
Local Open Scope nat_scope.

(** ** Ordered maps with the same keys *)

Lemma StronglySorted_lt_le l : StronglySorted lt l → StronglySorted le l.
Proof. induction 1 as [|x l Hs IH Hall]; constructor; [done|]. eapply Forall_impl; [done|]. cbn. lia. Qed.

Lemma btree_keys {V W} (m1 : gmap nat V) (m2 : gmap nat W) :
  (∀ p, is_Some (m1 !! p) ↔ is_Some (m2 !! p)) → (btree_list m1).*1 = (btree_list m2).*1.
Proof.
  intros Hd. apply (StronglySorted_unique_strong le).
  - intros x y _ _ ? ?. lia.
  - apply StronglySorted_lt_le, btree_list_sorted.
  - apply StronglySorted_lt_le, btree_list_sorted.
  - apply NoDup_Permutation; [apply NoDup_btree_list..|]. intros p. rewrite !list_elem_of_fmap. split.
    + intros ([k v] & -> & Hv%elem_of_btree_list). destruct (proj1 (Hd k)) as [w Hw]; [by eexists|].
      exists (k, w). split; [done|]. by apply elem_of_btree_list.
    + intros ([k v] & -> & Hv%elem_of_btree_list). destruct (proj2 (Hd k)) as [w Hw]; [by eexists|].
      exists (k, w). split; [done|]. by apply elem_of_btree_list.
Qed.

(** Two association lists with the same keys, restricted alike, stay aligned. *)
Lemma Forall2_keys {V W} (l1 : list (nat * V)) (l2 : list (nat * W)) (R : nat → V → W → Prop) f :
  l1.*1 = l2.*1 → (∀ p v w, (p, v) ∈ l1 → (p, w) ∈ l2 → R p v w) →
  Forall2 (λ x y, x.1 = y.1 ∧ R x.1 x.2 y.2) (List.filter (λ kv, f kv.1) l1) (List.filter (λ kv, f kv.1) l2).
Proof.
  revert l2. induction l1 as [|[p v] l1 IH]; intros [|[p' w] l2] Hk HR; try done.
  cbn in Hk. injection Hk as -> Hk. cbn [List.filter fst].
  assert (Forall2 (λ x y, x.1 = y.1 ∧ R x.1 x.2 y.2) (List.filter (λ kv, f kv.1) l1) (List.filter (λ kv, f kv.1) l2))
    as Hrest by (apply IH; [done|]; intros q v' w' Hv Hw; apply HR; by apply elem_of_cons; right).
  destruct (f p'); [|done]. constructor; [|done]. split; [done|]. apply HR; apply elem_of_cons; by left.
Qed.

Lemma filter_filter {A} (f g : A → bool) l : List.filter f (List.filter g l) = List.filter (λ x, g x && f x) l.
Proof. induction l as [|x l IH]; [done|]. cbn. destruct (g x); cbn; [destruct (f x)|]; by rewrite IH. Qed.

Lemma filter_sorted_keys {V} f (l : list (nat * V)) :
  StronglySorted lt l.*1 → StronglySorted lt (List.filter f l).*1.
Proof.
  induction l as [|x l IH]; cbn; [done|]. intros Hs. inversion Hs as [|? ? Hs' Hall]; subst.
  destruct (f x); [|by apply IH]. cbn. constructor; [by apply IH|].
  apply Forall_forall. intros y Hy. apply list_elem_of_fmap in Hy as (z & -> & Hz).
  rewrite Forall_forall in Hall. apply Hall. apply list_elem_of_fmap_2.
  apply list_elem_of_In, filter_In in Hz as [Hz _]. by apply list_elem_of_In.
Qed.

(** ** What the actor holds *)

Section Inv.
Context `{AlloyOps} `{AddressText} `{PlaintextOps}.
Context (ps : Params) (m n : nat) (cts : list Bytes).
(** The plaintexts that the decryption worker answers. *)
Context (answered : list Bytes → Prop).

Local Abbreviation Mon := (M Aggregator Publication PtError).
Local Abbreviation W := (World Aggregator Publication).

(** A decryption bundle of a party that belongs to this E3: signed by the honest member in that
    slot, one share and one C6 proof per ciphertext in order, with the canonical domain, the
    ciphertext commitments and the commitments of the shares themselves. *)
Definition bundle_ok (party : nat) (share : list Bytes) (proofs : list SignedProofPayload) : Prop :=
  ∃ address commitments,
    committee_addresses ps !! party = Some address ∧ valid_sender ps address proofs = true ∧
    length share = length cts ∧ length proofs = length cts ∧ length share ≠ 0 ∧
    forallb (λ '(proof, ct), c6_has_canonical_domain ps (pp_proof (payload proof)) ct) (zip proofs cts) = true ∧
    mapM (ct_commitment (params_preset ps)) cts = Some commitments ∧
    ct_commitments_match proofs commitments = true ∧
    verifier_matches (params_preset ps) share proofs = true.

Definition batch_ok (shares : gmap nat (list Bytes)) (proofs : gmap nat (list SignedProofPayload)) : Prop :=
  ∀ p, match shares !! p, proofs !! p with
       | Some s, Some π => bundle_ok p s π
       | None, None => True
       | _, _ => False
       end.

(** Shares that may be decrypted. *)
Definition shares_ok (l : list (nat * list Bytes)) : Prop :=
  StronglySorted lt l.*1 ∧ m < length l ∧ ∀ p s, (p, s) ∈ l → ∃ π, bundle_ok p s π.

Definition state_ok (s : State) : Prop :=
  match s with
  | SCollecting c =>
      c_threshold_m c = m ∧ c_threshold_n c = n ∧ c_ciphertext_output c = cts ∧
      batch_ok (c_shares c) (c_c6_proofs c) ∧ (∀ p, p ∈ c_rejected_parties c → c_shares c !! p = None) ∧
      size (c_shares c) ≤ m
  | SVerifyingC6 v =>
      v_threshold_m v = m ∧ v_threshold_n v = n ∧ v_ciphertext_output v = cts ∧
      batch_ok (v_shares v) (v_c6_proofs v) ∧ m < size (v_shares v) ∧
      ∀ p q, v_queued_shares v !! p = Some q →
        bundle_ok p (q_share q) (q_proofs q) ∧ v_shares v !! p = None ∧ p ∉ v_rejected_parties v
  | SComputing k => k_threshold_m k = m ∧ k_threshold_n k = n ∧ k_ciphertext_output k = cts ∧ shares_ok (k_shares k)
  | SGeneratingC7Proof g => g_threshold_m g = m ∧ g_threshold_n g = n ∧ shares_ok (g_shares g) ∧ answered (g_plaintext g)
  | SComplete d => shares_ok (d_shares d) ∧ answered (d_decrypted d)
  end.

(** The retained C6 proofs are those of the parties whose shares are decrypted, in order. *)
Definition aligned (shares : list (nat * list Bytes)) (c6 : list (nat * list Proof_)) : Prop :=
  Forall2 (λ x y, x.1 = y.1 ∧ ∃ signed, y.2 = raw_proofs signed ∧ bundle_ok x.1 x.2 signed) shares c6.

Definition c6_kept (shares : list (nat * list Bytes)) (r : Recovery) (p : PendingDecryptionWork) : Prop :=
  aligned shares (honest_c6_proofs r) ∧
  (∀ l, honest_c6_proofs_for_agg p = Some l → l = honest_c6_proofs r).

(** Before the C7 phase nothing of it is held. *)
Definition no_c7 (r : Recovery) (p : PendingDecryptionWork) : Prop :=
  c7_proofs r = None ∧ c7_proofs_pending p = None ∧ r_decryption_aggregator_proofs r = None ∧
  decryption_aggregator_proofs_ p = None ∧ decryption_aggregation_correlation p = None.

Definition c7_ok (plaintext : list Bytes) (r : Recovery) (o : option (list Proof_)) : Prop :=
  ∀ c7, o = Some c7 → c7_proofs_match_batch c7 (honest_c6_proofs r) plaintext (m + 1) = true.

Definition count_ok (plaintext : list Bytes) (o : option (list Proof_)) : Prop :=
  ∀ l, o = Some l → length l = length plaintext.

Definition c7_kept (plaintext : list Bytes) (r : Recovery) (p : PendingDecryptionWork) : Prop :=
  c7_ok plaintext r (c7_proofs r) ∧ c7_ok plaintext r (c7_proofs_pending p) ∧
  count_ok plaintext (r_decryption_aggregator_proofs r) ∧ count_ok plaintext (decryption_aggregator_proofs_ p) ∧
  (is_Some (decryption_aggregation_correlation p) → is_Some (c7_proofs_pending p)).

Definition coherent (s : State) (r : Recovery) (p : PendingDecryptionWork) : Prop :=
  state_ok s ∧
  match s with
  | SCollecting _ | SVerifyingC6 _ => no_c7 r p
  | SComputing k => c6_kept (k_shares k) r p ∧ no_c7 r p
  | SGeneratingC7Proof g => c6_kept (g_shares g) r p ∧ c7_kept (g_plaintext g) r p
  | SComplete d => c6_kept (d_shares d) r p ∧ c7_kept (d_decrypted d) r p
  end.

(** What may be published. *)

(** The job of one ciphertext: a C6 proof in each of the slots zero to [T], slot [k] from the [k]-th party
    of the batch, signed by it for this ciphertext; and the C7 proof of this ciphertext. *)
Definition job_ok (shares : list (nat * list Bytes)) (c7 : list Proof_) (i : nat) (job : DecryptionAggregationJob) : Prop :=
  c6_slot_indices job = seq 0 (m + 1) ∧ length (c6_inner_proofs job) = m + 1 ∧ c7 !! i = Some (c7_proof job) ∧
  ∀ k proof, c6_inner_proofs job !! k = Some proof → ∃ party share signed sp,
    shares !! k = Some (party, share) ∧ bundle_ok party share signed ∧ signed !! i = Some sp ∧ proof = pp_proof (payload sp).

Definition jobs_ok (jobs : list DecryptionAggregationJob) : Prop :=
  ∃ shares c6 c7 plaintext, shares_ok shares ∧ aligned shares c6 ∧ answered plaintext ∧
    c7_proofs_match_batch c7 c6 plaintext (m + 1) = true ∧ length jobs = length plaintext ∧
    ∀ i job, jobs !! i = Some job → job_ok shares c7 i job.

Definition pub_ok (o : Publication) : Prop :=
  match o with
  | ThresholdDecryptionRequested _ cts' _ n' m' shares => cts' = cts ∧ n' = n ∧ m' = m ∧ shares_ok shares
  | C7ProofRequested shares _ m' n' => m' = m ∧ n' = n ∧ shares_ok shares
  | DecryptionAggregationRequested _ slots jobs committee =>
      slots = m + 1 ∧ jobs_ok jobs ∧ committee = committee_addresses ps
  | PlaintextAggregated output proofs =>
      ∃ plaintext, answered plaintext ∧ output = format_decrypted_plaintext plaintext ∧ length proofs = length output
  | _ => True
  end.

(** ** Assertions about the world *)

Definition pshape {T} (b : bool) (x : T) (p : Persistable T) : Prop :=
  p_data p = Some x ∧ p_staging p = b ∧ (b = false → p_stored p = Some x).

(** One recorded outcome per batch: a replaced batch loses at least one member. *)
Definition outcomes_bounded (r : Recovery) : Prop :=
  size (c6_outcomes r) ≤ length (honest_committee_addresses ps) + 1.

Definition J (b : bool) (K : State → Recovery → PendingDecryptionWork → Prop) (w : W) : Prop :=
  params (st w) = ps ∧
  (∀ l, ciphertext_commitments_ (pending (st w)) = Some l → mapM (ct_commitment (params_preset ps)) cts = Some l) ∧
  Forall pub_ok (out w) ∧
  ∃ s r, pshape b s (state (st w)) ∧ (pshape b r (recovery (st w)) ∧ outcomes_bounded r) ∧ K s r (pending (st w)).

Definition Inv : W → Prop := J false coherent.

(** The world holds exactly these values. *)
Definition exactly (s : State) (r : Recovery) (p : PendingDecryptionWork)
    (s' : State) (r' : Recovery) (p' : PendingDecryptionWork) : Prop := s' = s ∧ r' = r ∧ p' = p.

(** ** Rules *)

Lemma J_mono b (K K' : State → Recovery → PendingDecryptionWork → Prop) w :
  (∀ s r p, K s r p → K' s r p) → J b K w → J b K' w.
Proof. intros HK (Hp & Hc & Ho & s & r & Hs & Hr & Hk). do 3 (split; [done|]). exists s, r. auto. Qed.

Lemma t_get {B} b K (k : Aggregator → Mon B) Q R :
  (∀ a s r, params a = ps → pshape b s (state a) → pshape b r (recovery a) → K s r (pending a) →
     triple (J b (exactly s r (pending a))) (k a) Q R) →
  triple (J b K) (bind get_st k) Q R.
Proof.
  intros Hk w (Hp & Hc & Ho & s & r & Hs & [Hr Hb] & HK). apply (Hk (st w) s r); try done.
  do 3 (split; [done|]). by exists s, r.
Qed.

Lemma t_send b K o Q R :
  (∀ s r p, K s r p → pub_ok o) → (∀ w, J b K w → Q tt w) → (∀ w, J b K w → R w) →
  triple (J b K) (send o) Q R.
Proof.
  intros Ho HQ HR w Hw. unfold send, publish, bind, call, emit.
  assert (∀ rest, J b K (mkWorld (st w) rest (out w) (next_id w))) as Hrest by done.
  assert (∀ rest, J b K (mkWorld (st w) rest (out w ++ [o]) (next_id w))) as Hout.
  { intros rest. destruct Hw as (Hp & Hc & Hf & s & r & Hs & Hr & HK). do 2 (split; [done|]).
    split; [apply Forall_app; split; [done|]; constructor; [by eapply Ho|constructor]|]. by exists s, r. }
  destruct (refusals w) as [|[] rest]; [by apply HQ|by apply HR|by apply HQ].
Qed.

Lemma t_new_id b K Q R : (∀ x w, J b K w → Q x w) → triple (E:=PtError) (J b K) new_correlation_id Q R.
Proof. intros HQ w Hw. apply HQ. by destruct Hw as (? & ? & ? & ?). Qed.

Lemma t_pend b K f Q R :
  (∀ p, ciphertext_commitments_ (f p) = ciphertext_commitments_ p ∨
        ∀ l, ciphertext_commitments_ (f p) = Some l → mapM (ct_commitment (params_preset ps)) cts = Some l) →
  (∀ w, J b (λ s r p, ∃ p', K s r p' ∧ p = f p') w → Q tt w) →
  triple (J b K) (pend f) Q R.
Proof.
  intros Hf HQ w (Hp & Hc & Ho & s & r & Hs & Hr & HK). cbn. apply HQ. split; [done|].
  split; [|split; [done|exists s, r; split; [done|]; split; [done|]; by eexists]].
  cbn. intros l Hl. destruct (Hf (pending (st w))) as [E|E]; [|by apply E]. rewrite E in Hl. by apply Hc.
Qed.

Lemma t_state b K f Q R :
  (∀ w, J b K w → R w) →
  (∀ w, J b (λ s' r p, ∃ s, K s r p ∧ f s = Ok s') w → Q tt w) →
  triple (J b K) (mutate_state f) Q R.
Proof.
  intros HR HQ w Hw. pose proof Hw as (Hp & Hc & Ho & s & r & (Hd & Hst & Hsd) & Hr & HK).
  unfold mutate_state, try_mutate, bind, get_st, ok_or, ret, lift, fail. cbn. rewrite Hd.
  destruct (f s) as [s'|e] eqn:Ef; cbn; [|by apply HR].
  unfold write_value_to_store, bind, get_st. cbn. rewrite Hst.
  destruct b; cbn.
  { apply HQ. do 3 (split; [done|]). exists s', r. split; [by repeat split; cbn|]. split; [done|]. by exists s. }
  unfold call. destruct (refusals w) as [|[] rest]; cbn; [| |].
  - apply HQ. do 3 (split; [done|]). exists s', r. split; [by repeat split; cbn|]. split; [done|]. by exists s.
  - apply HR. done.
  - apply HQ. do 3 (split; [done|]). exists s', r. split; [by repeat split; cbn|]. split; [done|]. by exists s.
Qed.

Lemma t_recovery b K f Q R :
  (∀ r, outcomes_bounded r → outcomes_bounded (f r)) → (∀ w, J b K w → R w) →
  (∀ w, J b (λ s r' p, ∃ r, K s r p ∧ r' = f r) w → Q tt w) →
  triple (J b K) (mutate_recovery f) Q R.
Proof.
  intros Hbd HR HQ w Hw. pose proof Hw as (Hp & Hc & Ho & s & r & Hs & [(Hd & Hst & Hsd) Hob] & HK).
  unfold mutate_recovery, try_mutate, bind, get_st, ok_or, ret, lift, fail. cbn. rewrite Hd. cbn.
  unfold write_value_to_store, bind, get_st. cbn. rewrite Hst.
  destruct b; cbn.
  { apply HQ. do 3 (split; [done|]). exists s, (f r). split; [done|]. split; [split; [by repeat split; cbn|by apply Hbd]|]. by exists r. }
  unfold call. destruct (refusals w) as [|[] rest]; cbn; [| |].
  - apply HQ. do 3 (split; [done|]). exists s, (f r). split; [done|]. split; [split; [by repeat split; cbn|by apply Hbd]|]. by exists r.
  - apply HR. done.
  - apply HQ. do 3 (split; [done|]). exists s, (f r). split; [done|]. split; [split; [by repeat split; cbn|by apply Hbd]|]. by exists r.
Qed.

(** ** The transitions keep the state well formed *)

Definition collecting_phase (s : State) : bool :=
  match s with SCollecting _ | SVerifyingC6 _ => true | _ => false end.

Lemma coherent_collecting s r p : collecting_phase s = true → coherent s r p ↔ state_ok s ∧ no_c7 r p.
Proof. intros Hc. unfold coherent. by destruct s. Qed.

Lemma start_phase c : collecting_phase (start_verification_if_ready c) = true.
Proof. unfold start_verification_if_ready. by destruct (_ <=? _). Qed.

Lemma start_ok c :
  c_threshold_m c = m → c_threshold_n c = n → c_ciphertext_output c = cts →
  batch_ok (c_shares c) (c_c6_proofs c) → (∀ p, p ∈ c_rejected_parties c → c_shares c !! p = None) →
  state_ok (start_verification_if_ready c).
Proof.
  intros Hm Hn Hc Hb Hr. unfold start_verification_if_ready.
  destruct (Nat.leb_spec (size (c_shares c)) (c_threshold_m c)); cbn.
  - do 5 (split; [done|]). lia.
  - do 4 (split; [done|]). split; [lia|]. intros p q Hq. by rewrite lookup_empty in Hq.
Qed.

Lemma batch_ok_insert shares proofs p s π :
  batch_ok shares proofs → bundle_ok p s π → batch_ok (<[p := s]> shares) (<[p := π]> proofs).
Proof.
  intros Hb Hs p'. destruct (decide (p' = p)) as [->|Hne]; [by rewrite !lookup_insert_eq|].
  rewrite !lookup_insert_ne by done. apply Hb.
Qed.

Lemma batch_ok_delete shares proofs p : batch_ok shares proofs → batch_ok (delete p shares) (delete p proofs).
Proof.
  intros Hb p'. destruct (decide (p' = p)) as [->|Hne]; [by rewrite !lookup_delete_eq|].
  rewrite !lookup_delete_ne by done. apply Hb.
Qed.

Lemma batch_ok_filter shares proofs (X : gset nat) :
  batch_ok shares proofs →
  batch_ok (filter (λ kv, kv.1 ∉ X) shares) (filter (λ kv, kv.1 ∉ X) proofs).
Proof.
  intros Hb p. specialize (Hb p). rewrite !map_lookup_filter.
  destruct (shares !! p), (proofs !! p); cbn; try done. destruct (decide (p ∉ X)) as [Hp|Hp].
  - by rewrite !option_guard_True by done.
  - by rewrite !option_guard_False by done.
Qed.

(** Backup shares join a batch without changing its bundles. *)
Lemma batch_ok_queue shares proofs (queued : gmap nat QueuedDecryptionShare) :
  batch_ok shares proofs →
  (∀ p q, queued !! p = Some q → bundle_ok p (q_share q) (q_proofs q)) →
  batch_ok (shares ∪ (q_share <$> queued)) (proofs ∪ (q_proofs <$> queued)).
Proof.
  intros Hb Hq p. specialize (Hb p). rewrite !lookup_union, !lookup_fmap.
  destruct (shares !! p), (proofs !! p), (queued !! p) as [q|] eqn:E; cbn; try done. by apply Hq.
Qed.

Lemma add_share_phase s p share proofs s' :
  add_share_transition s p share proofs = Ok s' → s' = s ∨ (collecting_phase s = true ∧ collecting_phase s' = true).
Proof.
  unfold add_share_transition. destruct (expected_outputs s); [|intros [= <-]; by left].
  destruct (negb _); [done|]. destruct (negb _); [done|].
  destruct s; intros [= <-]; try (by left); right; split; try done. apply start_phase.
Qed.

Lemma add_share_ok s p share proofs s' :
  state_ok s → bundle_ok p share proofs → add_share_transition s p share proofs = Ok s' → state_ok s'.
Proof.
  intros Hs Hb. unfold add_share_transition. destruct (expected_outputs s); [|by intros [= <-]].
  destruct (negb _); [done|]. destruct (negb _); [done|]. destruct s as [c|v|k|g|d]; intros [= <-]; try done.
  - destruct Hs as (Hm & Hn & Hc & Hbatch & Hrej & Hsz). destruct (_ && _) eqn:E; [|by apply start_ok].
    apply andb_true_iff in E as [Hr%bool_decide_eq_true_1 Hnone%bool_decide_eq_true_1].
    apply start_ok; cbn; try done; [by apply batch_ok_insert|]. intros p' Hp'.
    rewrite lookup_insert_ne; [by apply Hrej|]. by intros ->.
  - destruct (_ && _) eqn:E; [|done].
    apply andb_true_iff in E as [Hr%bool_decide_eq_true_1 Hnone%bool_decide_eq_true_1].
    destruct Hs as (Hm & Hn & Hc & Hbatch & Hsz & Hq). cbn. do 5 (split; [done|]). intros p' q.
    rewrite lookup_or_insert. case_decide as Hp; [subst p'|by apply Hq].
    destruct (v_queued_shares v !! p) as [q'|] eqn:Eq; cbn; intros [= <-]; [by apply Hq|]. done.
Qed.

Lemma expelled_phase s p :
  member_expelled_transition s p = s ∨
  (collecting_phase s = true ∧ collecting_phase (member_expelled_transition s p) = true).
Proof. destruct s; cbn; try (by left); right; split; try done. apply start_phase. Qed.

Lemma expelled_ok s p : state_ok s → state_ok (member_expelled_transition s p).
Proof.
  destruct s as [c|v|k|g|d]; cbn; try done.
  - intros (Hm & Hn & Hc & Hbatch & Hrej & Hsz). apply start_ok; cbn; try done; [by apply batch_ok_delete|].
    intros p' [->%elem_of_singleton|Hp']%elem_of_union; [by rewrite lookup_delete_eq|].
    destruct (decide (p' = p)) as [->|]; [by rewrite lookup_delete_eq|]. rewrite lookup_delete_ne by done. by apply Hrej.
  - intros (Hm & Hn & Hc & Hbatch & Hsz & Hq). do 5 (split; [done|]). intros p' q Hl.
    destruct (decide (p' = p)) as [->|Hne]; [by rewrite lookup_delete_eq in Hl|].
    rewrite lookup_delete_ne in Hl by done. destruct (Hq p' q Hl) as (? & ? & ?). do 2 (split; [done|]). set_solver.
Qed.

Lemma retry_ok v X : state_ok (SVerifyingC6 v) → state_ok (retry_collection v X).
Proof.
  intros (Hm & Hn & Hc & Hbatch & Hsz & Hq). apply start_ok; cbn; try done.
  - apply batch_ok_filter, batch_ok_queue; [done|]. intros p q Hl. by apply Hq.
  - intros p Hp. apply map_lookup_filter_None. right. intros x _ Hn'. by apply Hn'.
Qed.

Lemma add_share_coherent s r q p share proofs s' :
  coherent s r q → bundle_ok p share proofs → add_share_transition s p share proofs = Ok s' → coherent s' r q.
Proof.
  intros Hc Hb E. destruct (add_share_phase _ _ _ _ _ E) as [->|[H1' H2']]; [done|].
  rewrite coherent_collecting in Hc |- * by done. destruct Hc as [Hs Hno]. split; [by eapply add_share_ok|done].
Qed.

Lemma expelled_coherent s r q p : coherent s r q → coherent (member_expelled_transition s p) r q.
Proof.
  intros Hc. destruct (expelled_phase s p) as [->|[H1' H2']]; [done|].
  rewrite coherent_collecting in Hc |- * by done. destruct Hc as [Hs Hno]. split; [by apply expelled_ok|done].
Qed.

(** ** Symbolic execution: rules for a world with known values *)

Lemma exactly_inv s r p w : coherent s r p → J false (exactly s r p) w → Inv w.
Proof. intros Hc. apply J_mono. intros s' r' p' (-> & -> & ->). done. Qed.

Lemma t_exact {A} b K (f : Mon A) Q R :
  (∀ s r p, K s r p → triple (J b (exactly s r p)) f Q R) → triple (J b K) f Q R.
Proof.
  intros Hf w (Hp & Hc & Ho & s & r & Hs & Hr & HK). apply (Hf s r (pending (st w)) HK).
  do 3 (split; [done|]). by exists s, r.
Qed.

Section Exact.
Context (b : bool) (s : State) (r : Recovery) (p : PendingDecryptionWork).
Context {B : Type} (Q : B → W → Prop) (R : W → Prop).
Local Abbreviation E := (J b (exactly s r p)).

Lemma x_get (k : Aggregator → Mon B) :
  (∀ a, params a = ps → p_data (state a) = Some s → p_data (recovery a) = Some r → pending a = p →
     triple E (k a) Q R) → triple E (bind get_st k) Q R.
Proof.
  intros Hk w Hw. pose proof Hw as (Hp & Hc & Ho & s' & r' & (Hs & ?) & [(Hr & ?) ?] & -> & -> & <-). by apply Hk.
Qed.

Lemma x_try_state k : triple E (k s) Q R → triple E (bind (p_try_get PersistFailed) k) Q R.
Proof.
  intros Hk w Hw. pose proof Hw as (Hp & Hc & Ho & s' & r' & (Hs & ?) & [(Hr & ?) ?] & -> & -> & <-).
  unfold p_try_get, bind, get_st, ok_or. cbn. rewrite Hs. by apply Hk.
Qed.

Lemma x_try_recovery k : triple E (k r) Q R → triple E (bind (p_try_get (T:=Recovery) PersistFailed) k) Q R.
Proof.
  intros Hk w Hw. pose proof Hw as (Hp & Hc & Ho & s' & r' & (Hs & ?) & [(Hr & ?) ?] & -> & -> & <-).
  unfold p_try_get, bind, get_st, ok_or. cbn. rewrite Hr. by apply Hk.
Qed.

Lemma x_pend f k :
  ciphertext_commitments_ (f p) = ciphertext_commitments_ p ∨
  (∀ l, ciphertext_commitments_ (f p) = Some l → mapM (ct_commitment (params_preset ps)) cts = Some l) →
  triple (J b (exactly s r (f p))) (k tt) Q R → triple E (bind (pend f) k) Q R.
Proof.
  intros Hf Hk w (Hp & Hc & Ho & s' & r' & Hs & Hr & -> & -> & Hpend).
  unfold bind. cbn. apply Hk. split; [done|]. split; [|split; [done|by exists s, r; rewrite <- Hpend]].
  cbn. rewrite Hpend. intros l Hl. destruct Hf as [E'|E']; [|by apply E']. rewrite E', <- Hpend in Hl. by apply Hc.
Qed.

Lemma x_send o k : pub_ok o → (∀ w, E w → R w) → triple E (k tt) Q R → triple E (bind (send o) k) Q R.
Proof. intros Ho HR Hk. eapply triple_bind; [apply (t_send _ _ _ (λ _, E)); auto|]. by intros []. Qed.

Lemma x_new_id (k : Z → Mon B) : (∀ x, triple E (k x) Q R) → triple E (bind new_correlation_id k) Q R.
Proof. intros Hk. eapply triple_bind; [by apply (t_new_id _ _ (λ _, E))|done]. Qed.

Lemma x_state f s' k :
  f s = Ok s' → (∀ w, E w → R w) → triple (J b (exactly s' r p)) (k tt) Q R → triple E (bind (mutate_state f) k) Q R.
Proof.
  intros Hf HR Hk. eapply triple_bind; [apply (t_state _ _ _ (λ _, J b (exactly s' r p))); [done|]|by intros []].
  intros w. apply J_mono. intros s1 r1 p1 (s0 & (-> & -> & ->) & E1). rewrite Hf in E1. by simplify_eq.
Qed.

Lemma x_recovery f k :
  (∀ r, outcomes_bounded r → outcomes_bounded (f r)) → (∀ w, E w → R w) → triple (J b (exactly s (f r) p)) (k tt) Q R → triple E (bind (mutate_recovery f) k) Q R.
Proof.
  intros Hbd HR Hk. eapply triple_bind; [apply (t_recovery _ _ _ (λ _, J b (exactly s (f r) p))); [done|done|]|by intros []].
  intros w. apply J_mono. by intros s1 r1 p1 (r0 & (-> & -> & ->) & ->).
Qed.

Lemma x_ensure c e (k : () → Mon B) : (∀ w, E w → R w) → (c = true → triple E (k tt) Q R) → triple E (bind (ensure c e) k) Q R.
Proof. intros HR Hk w Hw. unfold ensure. destruct c; [by apply Hk|by apply HR]. Qed.

Lemma x_ok_or {A} (o : option A) e (k : A → Mon B) :
  (∀ w, E w → R w) → (∀ x, o = Some x → triple E (k x) Q R) → triple E (bind (ok_or o e) k) Q R.
Proof. intros HR Hk w Hw. destruct o; [by apply (Hk a)|by apply HR]. Qed.

Lemma x_lift {A} (o : result A PtError) k :
  (∀ w, E w → R w) → (∀ x, o = Ok x → triple E (k x) Q R) → triple E (bind (lift o) k) Q R.
Proof. intros HR Hk w Hw. destruct o; [by apply (Hk t)|by apply HR]. Qed.

(** Changes of the role do not touch what is held. *)
Lemma x_role f (k : () → Mon B) :
  (∀ a, params (f a) = params a ∧ state (f a) = state a ∧ recovery (f a) = recovery a ∧ pending (f a) = pending a) →
  triple E (k tt) Q R → triple E (bind (modify f) k) Q R.
Proof.
  intros Hf Hk w (Hp & Hc & Ho & s' & r' & Hs & Hr & HK). unfold bind. cbn. apply Hk.
  destruct (Hf (st w)) as (E1 & E2 & E3 & E4). split; [cbn; by rewrite E1|]. split; [cbn; by rewrite E4|].
  split; [done|]. exists s', r'. cbn. by rewrite E2, E3, E4.
Qed.
End Exact.

(** The whole invariant, before and after. *)
Definition ok {A} (f : Mon A) : Prop := triple Inv f (λ _, Inv) Inv.

Lemma ok_get {B} (k : Aggregator → Mon B) :
  (∀ a s r, params a = ps → p_data (state a) = Some s → p_data (recovery a) = Some r → coherent s r (pending a) →
     triple (J false (exactly s r (pending a))) (k a) (λ _, Inv) Inv) → ok (bind get_st k).
Proof. intros Hk. apply t_get. intros a s r Hp (Hs & ?) (Hr & ?) Hc. by apply Hk. Qed.

Lemma ok_from {A} (f : Mon A) s r p : coherent s r p → ok f → triple (J false (exactly s r p)) f (λ _, Inv) Inv.
Proof. intros Hc Hf w Hw. apply Hf. by eapply exactly_inv. Qed.

Lemma ok_ret {A} (x : A) s r p : coherent s r p → triple (J false (exactly s r p)) (ret x : Mon A) (λ _, Inv) Inv.
Proof. intros Hc w Hw. by eapply exactly_inv. Qed.

Lemma ok_bind {A B} (f : Mon A) (k : A → Mon B) : ok f → (∀ x, ok (k x)) → ok (bind f k).
Proof. intros Hf Hk. by eapply triple_bind. Qed.
End Inv.

Ltac inv_side := solve [intros ? ?; by eapply exactly_inv].
