(* ===== verification/PlaintextSteps.v ===== *)
(** * Every handler of the plaintext aggregator keeps the invariant

    Symbolic execution of the effects and handlers with the rules of PlaintextInv, one lemma per
    function.  Errors keep the invariant too: each refused call leaves the values as they are. *)

From S2P Require Import Prelude Events CommitmentLinks NodeRegistry Actor Orchestration PlaintextAggregation PlaintextInv.
Local Open Scope nat_scope.

Section Steps.
Context `{AlloyOps} `{AddressText} `{PlaintextOps}.
Context (ps : Params) (m n : nat) (cts : list Bytes) (answered : list Bytes → Prop).

Local Abbreviation Mon := (M Aggregator Publication PtError).
Local Abbreviation J := (J ps m n cts answered).
Local Abbreviation Inv := (Inv ps m n cts answered).
Local Abbreviation coherent := (coherent ps m n cts answered).
Local Abbreviation ok := (ok ps m n cts answered).
Local Abbreviation bundle_ok := (bundle_ok ps cts).

(** Tail calls and the error case of the rules. *)
Ltac tail := apply triple_tail.
Ltac side := let Hside := fresh in solve [intros ? Hside; eapply exactly_inv; [|exact Hside]; done].
Ltac done_ok := apply ok_ret; try done.

(** ** Authentication and collection *)

Lemma auth_ok b K party shares proofs :
  (∀ s r p x, K s r p → K s r (set_commitments x p)) →
  triple (J b K) (share_is_authenticated party shares proofs cts)
    (λ res w, J b K w ∧ (res = true → bundle_ok party shares proofs)) (J b K).
Proof.
  intros HK w Hw. unfold share_is_authenticated, bind, get_st. pose proof Hw as (Hp & Hcache & _).
  rewrite Hp. cbn zeta. destruct (committee_addresses ps !! party) as [address|] eqn:Ea; [|by split].
  destruct (negb _ && _ && _) eqn:Eshape; [|by split]. cbn [negb].
  apply andb_true_iff in Eshape as [Eshape Hl2%Nat.eqb_eq]. apply andb_true_iff in Eshape as [Hne Hl1%Nat.eqb_eq].
  apply negb_true_iff, Nat.eqb_neq in Hne.
  destruct (valid_sender ps address proofs) eqn:Es; [|by split]. cbn [negb].
  destruct (forallb _ (zip proofs cts)) eqn:Ed; [|by split]. cbn [negb].
  assert (∀ commitments w', J b K w' → mapM (ct_commitment (params_preset ps)) cts = Some commitments →
    match (if negb (ct_commitments_match proofs commitments) then ret false
           else if negb (verifier_ready (params_preset ps)) then ret false
           else ret (verifier_matches (params_preset ps) shares proofs) : Mon bool) w' with
    | (Ok x, w'') => J b K w'' ∧ (x = true → bundle_ok party shares proofs)
    | (Err _, w'') => J b K w''
    end) as Hfin.
  { intros commitments w' Hw' Hm. destruct (ct_commitments_match _ _) eqn:Em; [|by split]. cbn [negb].
    destruct (verifier_ready _); [|by split]. cbn [negb ret]. split; [done|]. intros Hv.
    exists address, commitments. by do 8 (split; [done|]). }
  unfold ciphertext_commitments, bind, get_st.
  destruct (ciphertext_commitments_ (pending (st w))) as [l|] eqn:Ec; [by apply Hfin; [|apply Hcache]|].
  rewrite Hp. destruct (mapM _ cts) as [l|] eqn:Em; cbn; [|done]. apply Hfin; [|done].
  destruct Hw as (_ & _ & Ho & s & r & Hs & Hr & Hk). split; [done|]. split; [by intros ? [= <-]|].
  split; [done|]. exists s, r. do 2 (split; [done|]). by apply HK.
Qed.

Lemma coherent_commitments s r p x : coherent s r p → coherent s r (set_commitments x p).
Proof. by destruct s. Qed.

Lemma add_share_keeps b party share proofs :
  triple (J b coherent) (add_share party share proofs) (λ _, J b coherent) (J b coherent).
Proof.
  assert (∀ s r p w, coherent s r p → J b (exactly s r p) w → J b coherent w) as Hback
    by (intros ? ? ? w Hc; apply J_mono; by intros ? ? ? (-> & -> & ->)).
  apply t_exact. intros s r p HK. apply x_try_state.
  set (known := match s with SCollecting c => _ | _ => _ end).
  assert (∀ x, known = Some (false, x) → x = cts) as Hcts.
  { unfold known. destruct s as [c|v| | |]; try done; intros x E; [destruct HK as [(? & ? & <- & _) _]|
      destruct HK as [(? & ? & <- & _) _]]; by injection E. }
  destruct known as [[[|] x]|]; [by intros w Hw; eapply Hback| |by intros w Hw; eapply Hback].
  rewrite (Hcts x eq_refl). clear Hcts x.
  apply x_get. intros a Hp' _ _ _. rewrite Hp'. apply x_ensure; [by intros w Hw; eapply Hback|].
  intros _. eapply (triple_pre _ (J b coherent)); [by intros w Hw; eapply Hback|].
  eapply triple_bind; [apply auth_ok, coherent_commitments|]. intros [|]; cbn [negb].
  - intros w [Hw Hbundle]. revert w Hw. apply t_state; [done|]. intros w. apply J_mono.
    intros s1 r1 p1 (s0 & Hco & E). eapply add_share_coherent; [done| |done]. by apply Hbundle.
  - intros w [Hw _]. done.
Qed.

Lemma expelled_keeps b party :
  triple (J b coherent) (handle_member_expelled party) (λ _, J b coherent) (J b coherent).
Proof.
  apply t_state; [done|]. intros w. apply J_mono. intros s1 r1 p1 (s0 & Hco & [= <-]). by apply expelled_coherent.
Qed.

Lemma ok_add_share party share proofs : ok (add_share party share proofs).
Proof. apply add_share_keeps. Qed.

Lemma ok_expelled party : ok (handle_member_expelled party).
Proof. apply expelled_keeps. Qed.

Lemma ok_publish_inputs_ready : ok publish_inputs_ready.
Proof.
  apply ok_get. intros a s r _ _ _ Hc. destruct (_ || _); [by done_ok|]. tail. apply x_send; [done|side|by done_ok].
Qed.

Lemma ok_mark_started : ok mark_started_as_aggregator.
Proof.
  intros w Hw. cbn. destruct Hw as (Hp & Hc & Ho & s & r & Hs & Hr & Hk). do 3 (split; [done|]). by exists s, r.
Qed.

Lemma ok_dispatch_c6 c6_proofs : ok (dispatch_c6_verification c6_proofs).
Proof.
  apply ok_bind; [apply ok_mark_started|]. intros _. apply ok_get. intros a s r _ _ _ Hc. cbn zeta.
  apply x_try_recovery. case_bool_decide.
  - apply x_new_id. intros x. tail. apply x_send; [done|side|by done_ok].
  - tail. apply x_send; [done|side|by done_ok].
Qed.

(** ** Decryption *)

Lemma fail_round_coherent s r p : coherent s r p →
  coherent s r (set_honest_c6 None (set_dec_corr None (set_agg_corr None (set_c7 None (set_agg_proofs None p))))).
Proof.
  intros [Hs Hk]. split; [done|]. destruct s as [c|v|k|g|d].
  - by destruct Hk as (? & ? & ? & ? & ?).
  - by destruct Hk as (? & ? & ? & ? & ?).
  - destruct Hk as [[Ha _] (? & ? & ? & ? & ?)]. by split.
  - destruct Hk as [[Ha _] (? & ? & ? & ? & ?)]. repeat split; try done. by intros [? ?].
  - destruct Hk as [[Ha _] (? & ? & ? & ? & ?)]. repeat split; try done. by intros [? ?].
Qed.

Lemma x_fail_round s r p : coherent s r p →
  triple (J false (exactly s r p)) fail_decryption_round (λ _, Inv) Inv.
Proof.
  intros Hc. apply x_send; [done|side|]. tail. apply x_pend; [by left|]. done_ok. by apply fail_round_coherent.
Qed.

Lemma dec_corr_coherent s r p x : coherent s r p → coherent s r (set_dec_corr x p).
Proof. by destruct s. Qed.

Lemma agg_corr_coherent s r p : coherent s r p → coherent s r (set_agg_corr None p).
Proof.
  intros [Hok Hk]. split; [done|]. destruct s as [c|v|k|g|d].
  1-2: by destruct Hk as (? & ? & ? & ? & ?).
  - by destruct Hk as (? & ? & ? & ? & ? & ?).
  - destruct Hk as (? & ? & ? & ? & ? & ?). split; [done|]. do 4 (split; [done|]). by intros [? ?].
  - destruct Hk as (? & ? & ? & ? & ? & ?). split; [done|]. do 4 (split; [done|]). by intros [? ?].
Qed.

Lemma last_ec_coherent s r p x : coherent s r p → coherent s r (set_last_ec x p).
Proof. by destruct s. Qed.

Lemma replayed_coherent s r p x : coherent s r p → coherent s r (set_replayed x p).
Proof. by destruct s. Qed.

Lemma ok_retry v X s r p : s = SVerifyingC6 v → coherent s r p →
  triple (J false (exactly s r p)) (retry_c6_with_backups v X) (λ _, Inv) Inv.
Proof.
  intros -> Hc. apply x_get. intros a Hp Hs Hr Hpend. cbn zeta. destruct (_ <=? _); [by apply x_fail_round|].
  eapply x_state; [done|side|].
  assert (coherent (retry_collection v X) r p) as Hc'.
  { destruct Hc as [Hok Hno]. apply coherent_collecting; [apply start_phase|]. split; [by apply retry_ok|done]. }
  apply ok_from; [done|]. apply ok_get. intros a' s' r' _ _ _ Hc''. destruct (p_data (state a')) as [[]|]; try by done_ok.
  apply ok_from; [done|]. apply ok_bind; [apply ok_publish_inputs_ready|]. intros _. apply ok_dispatch_c6.
Qed.

(** The two filters of the honest shares are one. *)
Lemma honest_of_twice {V} (d1 d2 : gset nat) (l : gmap nat V) :
  List.filter (λ kv, bool_decide (kv.1 ∉ d2)) (honest_of d1 l) = honest_of (d1 ∪ d2) l.
Proof.
  unfold honest_of. rewrite filter_filter. apply List.filter_ext. intros [k v]. cbn.
  clear cts answered. repeat case_bool_decide; set_solver.
Qed.

Lemma batch_selection v X : state_ok ps m n cts answered (SVerifyingC6 v) → m < length (honest_of X (v_shares v)) →
  shares_ok ps m cts (honest_of X (v_shares v)) ∧
  aligned ps cts (honest_of X (v_shares v)) (prod_map id raw_proofs <$> honest_of X (v_c6_proofs v)).
Proof.
  intros (_ & _ & _ & Hb & _ & _) Hlen.
  assert (aligned ps cts (honest_of X (v_shares v)) (prod_map id raw_proofs <$> honest_of X (v_c6_proofs v))) as Ha.
  { unfold aligned. apply Forall2_fmap_r.
    pose proof (Forall2_keys (btree_list (v_shares v)) (btree_list (v_c6_proofs v))
      (λ p s π, bundle_ok p s π) (λ k : nat, bool_decide (k ∉ X))) as HF.
    eapply Forall2_impl; [apply HF|].
    - apply btree_keys. intros p. specialize (Hb p). destruct (v_shares v !! p), (v_c6_proofs v !! p); done.
    - intros p sh π Hs%elem_of_btree_list Hπ%elem_of_btree_list. specialize (Hb p). by rewrite Hs, Hπ in Hb.
    - intros [p sh] [p' π] [E HR]. cbn in *. subst. split; [done|]. by exists π. }
  split; [|done]. split; [apply filter_sorted_keys, btree_list_sorted|]. split; [done|]. intros p sh Hin.
  apply list_elem_of_lookup in Hin as [i Hi]. destruct (Forall2_lookup_l _ _ _ _ _ Ha Hi) as ([p' π] & _ & _ & signed & _ & Hok).
  by exists signed.
Qed.

Lemma x_dispatch_decryption c s r p {B} (k : () → Mon B) Q :
  coherent s r p → k_threshold_m c = m → k_threshold_n c = n → k_ciphertext_output c = cts →
  shares_ok ps m cts (k_shares c) →
  (∀ x, triple (J false (exactly s r (set_dec_corr x p))) (k tt) Q Inv) →
  triple (J false (exactly s r p)) (bind (dispatch_threshold_decryption c) k) Q Inv.
Proof.
  intros Hc H1' H2' H3 H4 Hk. eapply (triple_bind _ _ _ _ (λ _ w, ∃ x, J false (exactly s r (set_dec_corr x p)) w)).
  - apply x_new_id. intros x. apply x_send; [done|side|]. tail. apply x_pend; [by left|]. intros w Hw. by exists (Some x).
  - intros [] w [x Hw]. by apply (Hk x).
Qed.

Lemma x_apply_outcome v outcome ec r p : coherent (SVerifyingC6 v) r p →
  triple (J false (exactly (SVerifyingC6 v) r p)) (apply_c6_verification_outcome v outcome ec) (λ _, Inv) Inv.
Proof.
  intros Hc. pose proof Hc as [Hv Hno]. apply x_get. intros a Hp _ _ _. rewrite Hp. cbn zeta.
  set (mm := verify_shares_match_c6_commitments _ _ _). rewrite honest_of_twice.
  set (X := v_rejected_parties v ∪ outcome ∪ mm).
  assert (v_threshold_m v = m) as Hm by apply Hv. rewrite Hm.
  destruct (Nat.leb_spec (length (honest_of X (v_shares v))) m) as [Hle|Hlt]; [by eapply ok_retry|].
  destruct (batch_selection v X Hv Hlt) as [Hsh Hal].
  apply x_recovery; [done|side|]. 
  apply x_dispatch_decryption; [by split|done|cbn; by destruct Hv as (? & ? & ? & _)|cbn; by destruct Hv as (? & ? & ? & _)|done|].
  intros x. apply x_pend; [by left|].
  assert (∀ p', p' = set_honest_c6 (Some (prod_map id raw_proofs <$> honest_of X (v_c6_proofs v))) (set_dec_corr x p) →
    coherent (SVerifyingC6 v) (set_r_c6 (prod_map id raw_proofs <$> honest_of X (v_c6_proofs v)) ec r) p') as Hmid
    by (intros ? ->; by split).
  eapply x_state; [done| |]; [by intros w Hw; eapply exactly_inv; [|exact Hw]; apply Hmid|].
  tail. apply x_pend; [by left|]. done_ok. destruct Hno as (? & ? & ? & ? & ?).
  split; [cbn; by destruct Hv as (? & ? & ? & _)|]. repeat split; try done. by intros l [= <-].
Qed.

Lemma ok_apply_cached ec : ok (apply_cached_c6_outcome ec).
Proof.
  apply ok_get. intros a s r Hp Hs Hr Hc. destruct (negb _); [by done_ok|]. rewrite Hs.
  destruct s as [c|v|k|g|d]; try by done_ok. cbn zeta. apply x_try_recovery.
  destruct (c6_outcomes r !! _) as [outcome|]; [|by done_ok]. by apply x_apply_outcome.
Qed.

Lemma ok_c6_resume e3 id ec : ok (handle_c6_resume e3 id ec).
Proof.
  apply ok_get. intros a s r Hp Hs Hr Hc. destruct (_ || _); [by done_ok|]. rewrite Hs.
  destruct s as [c|v|k|g|d]; try by done_ok. cbn zeta. case_bool_decide; [|by done_ok].
  apply ok_from; [done|]. apply ok_apply_cached.
Qed.

Lemma outcome_coherent s r p k id d : coherent s r p → coherent s (record_outcome k id d r) p.
Proof. by destruct s. Qed.

Lemma outcome_bounded r id d : outcomes_bounded ps r →
  outcomes_bounded ps (record_outcome (length (honest_committee_addresses ps) + 1) id d r).
Proof.
  unfold outcomes_bounded, record_outcome. cbn [c6_outcomes]. intros Hb.
  destruct (Nat.ltb_spec (size (c6_outcomes r)) (length (honest_committee_addresses ps) + 1)); [|done].
  unfold or_insert. destruct (c6_outcomes r !! id) eqn:E; [done|]. rewrite map_size_insert_None by done. lia.
Qed.

Lemma ok_c6_complete msg ec : ok (handle_c6_verification_complete msg ec).
Proof.
  apply ok_get. intros a s r Hp Hs Hr Hc. destruct (_ || _); [by done_ok|]. rewrite Hs, Hp.
  destruct s as [c|v|k|g|d]; try by done_ok; cbn zeta.
  all: apply x_recovery; [intros; by apply outcome_bounded|side|].
  all: apply ok_from; [by apply outcome_coherent|]; apply ok_apply_cached.
Qed.

(** ** The C7 phase *)

Lemma match_batch_length c7 c6 pl k : c7_proofs_match_batch c7 c6 pl k = true → length c7 = length pl ∧ k ≤ length c6.
Proof.
  unfold c7_proofs_match_batch. destruct (Nat.eqb_spec (length c7) (length pl)) as [El|El]; cbn [negb orb]; [|done].
  destruct (Nat.ltb_spec (length c6) k) as [Hlt|Hlt]; cbn [orb]; [done|]. intros _. split; [done|lia].
Qed.

Lemma mock_proofs_length c6 c7 l : mock_proofs c6 c7 = Ok l → length l = length c7.
Proof.
  unfold mock_proofs. rewrite <- (length_imap pair c7). generalize (imap pair c7). intros ps'. revert l.
  induction ps' as [|[i pr] ps' IH]; intros l; cbn [foldr]; [by intros [= <-]|].
  destruct (c6 !! i) as [x|]; [|done]. destruct (mock_inputs x); [|done].
  destruct (foldr _ _ _) as [rest|]; [|done]. intros [= <-]. cbn. by rewrite (IH rest).
Qed.

Lemma raw_proofs_lookup signed i proof : raw_proofs signed !! i = Some proof → ∃ sp, signed !! i = Some sp ∧ proof = pp_proof (payload sp).
Proof. unfold raw_proofs. rewrite list_lookup_fmap. intros (sp & ? & ?)%fmap_Some. by exists sp. Qed.

Lemma build_jobs_ok shares c7 c6 pl jobs : shares_ok ps m cts shares → aligned ps cts shares c6 → answered pl →
  c7_proofs_match_batch c7 c6 pl (m + 1) = true → build_decryption_aggregation_jobs c7 c6 (m + 1) = Some jobs → jobs_ok ps m cts answered jobs.
Proof.
  intros Hsh Hal Ha Hm Hj. exists shares, c6, c7, pl. do 4 (split; [done|]). destruct (match_batch_length _ _ _ _ Hm) as [Hl7 Hl6].
  unfold build_decryption_aggregation_jobs in Hj. apply mapM_Some_1 in Hj. split.
  { by rewrite <- (Forall2_length _ _ _ Hj), length_imap. }
  intros i job Hi. destruct (Forall2_lookup_r _ _ _ _ _ Hj Hi) as ([ix pr] & Hix & Hb). rewrite list_lookup_imap in Hix.
  destruct (c7 !! i) as [pr'|] eqn:E7; [|done]. injection Hix as -> ->.
  cbn in Hb. destruct (mapM _ (take (m + 1) c6)) as [inner|] eqn:Em; [|done]. cbn in Hb. injection Hb as <-. apply mapM_Some_1 in Em.
  split; [done|]. split; [cbn; rewrite <- (Forall2_length _ _ _ Em), length_take; lia|]. split; [done|]. cbn [c6_inner_proofs]. intros k proof Hk.
  destruct (Forall2_lookup_r _ _ _ _ _ Em Hk) as ([party wps] & H6 & Hp). apply lookup_take_Some in H6 as [H6 _].
  destruct (Forall2_lookup_r _ _ _ _ _ Hal H6) as ([party' share] & Hs & E & signed & Ew & Hok). cbn in E, Ew, Hok, Hp. subst party' wps.
  apply raw_proofs_lookup in Hp as (sp & Hsp & ->). by exists party, share, signed, sp.
Qed.

Lemma format_length l : length (format_decrypted_plaintext l) = length l.
Proof. apply length_fmap. Qed.

Lemma x_generating s r p {B} (k : GeneratingC7Proof → Mon B) :
  coherent s r p → (∀ g, s = SGeneratingC7Proof g → triple (J false (exactly s r p)) (k g) (λ _, Inv) Inv) →
  triple (J false (exactly s r p)) (bind generating_state k) (λ _, Inv) Inv.
Proof.
  intros Hc Hk w Hw. unfold generating_state, bind at 1, bind at 1, get_st.
  pose proof Hw as (Hp & Hca & Ho & s' & r' & (Hs & ?) & [(Hr & ?) ?] & -> & -> & <-). rewrite Hs.
  destruct s as [c|v|k'|g|d]; try by eapply exactly_inv. by apply (Hk g).
Qed.

(** C7 proofs are only held for a batch. *)
Lemma c7_phase s r p c7 : coherent s r p → c7_proofs_pending p = Some c7 →
  ∃ shares pl, c6_kept ps cts shares r p ∧ c7_kept m pl r p ∧
    ((∃ g, s = SGeneratingC7Proof g ∧ g_shares g = shares ∧ g_plaintext g = pl) ∨
     (∃ d, s = SComplete d ∧ d_shares d = shares ∧ d_decrypted d = pl)).
Proof.
  intros [Hs Hk] E. destruct s as [c|v|k|g|d].
  1-2: by destruct Hk as (_ & E' & _); rewrite E' in E.
  - destruct Hk as (_ & _ & E' & _). by rewrite E' in E.
  - destruct Hk as [Hk1 Hk2]. exists (g_shares g), (g_plaintext g). do 2 (split; [done|]). left. by exists g.
  - destruct Hk as [Hk1 Hk2]. exists (d_shares d), (d_decrypted d). do 2 (split; [done|]). right. by exists d.
Qed.

Lemma ok_try_publish : ok try_publish_complete.
Proof.
  apply ok_get. intros a s r Hp Hs Hr Hc. destruct (c7_proofs_pending (pending a)) as [c7|] eqn:E7; [|by done_ok].
  destruct (decryption_aggregator_proofs_ (pending a)) as [l|] eqn:El; [|by done_ok].
  destruct (decryption_aggregation_correlation (pending a)); [by done_ok|]. apply x_generating; [done|]. intros g ->.
  apply x_ok_or; [side|]. intros ec _.
  pose proof Hc as [Hg [[Hal Hpc] (K1 & K2 & K3 & K4 & K5)]].
  assert (length l = length (g_plaintext g)) as Hl by (by apply K4).
  apply x_recovery; [done|side|].
  set (r' := set_r_agg _ _ _).
  assert (c6_kept ps cts (g_shares g) r' (pending a) ∧ c7_kept m (g_plaintext g) r' (pending a)) as Hkept.
  { split; [done|]. split; [by intros ? [= <-]; apply K2|]. split; [done|].
    split; [by intros ? [= <-]|]. done. }
  assert (coherent (SGeneratingC7Proof g) r' (pending a)) as Hc1 by by split.
  apply x_send; [exists (g_plaintext g); split; [by apply Hg|]; split; [done|by rewrite format_length]|side|]. tail. eapply x_state; [done|side|].
  done_ok. split; [by destruct Hg as (_ & _ & ? & ?)|done].
Qed.

Lemma ok_dispatch_aggregation : ok dispatch_decryption_aggregation.
Proof.
  apply ok_get. intros a s r Hp Hs Hr Hc. destruct (_ =? 0); [by apply x_fail_round|].
  destruct (c7_proofs_pending (pending a)) as [c7|] eqn:E7; [|by done_ok]. destruct (_ || _); [by done_ok|].
  destruct (honest_c6_proofs_for_agg (pending a)) as [c6|] eqn:E6; [|by done_ok].
  destruct (_ || _); [by apply x_fail_round|]. apply x_generating; [done|]. intros g ->. cbn zeta.
  assert (g_threshold_m g = m) as Hm by apply Hc. rewrite Hm.
  destruct (Nat.ltb_spec (length c6) (m + 1)) as [|Hlen]; [by apply x_fail_round|].
  destruct (build_decryption_aggregation_jobs c7 c6 (m + 1)) as [jobs|] eqn:Ej; [|by apply x_fail_round].
  apply x_new_id. intros x. apply x_send; [split; [done|]; split; [|by rewrite Hp]|side|].
  { destruct Hc as [(_ & _ & Hsh & Ha) [[Hal Hpc] (_ & K2 & _)]]. rewrite (Hpc c6 E6) in Ej. eapply build_jobs_ok; [done..| |done]. by apply K2. }
  tail. apply x_pend; [by left|]. done_ok.
  destruct Hc as [Hg [Hk (K1 & K2 & K3 & K4 & K5)]]. split; [done|]. split; [done|]. repeat split; done.
Qed.

Lemma agg_proofs_coherent s r p c7 l ec : coherent s r p → c7_proofs_pending p = Some c7 → length l = length c7 →
  coherent s r (set_agg_proofs (Some l) p) ∧ coherent s (set_r_agg (Some l) ec r) (set_agg_proofs (Some l) p).
Proof.
  intros Hc E7 Hl. pose proof Hc as [Hs Hk].
  destruct (c7_phase s r p c7 Hc E7) as (shares & pl & [Hal Hpc] & (K1 & K2 & K3 & K4 & K5) & Hcase).
  assert (length l = length pl) as Hpl by (rewrite Hl; by destruct (match_batch_length _ _ _ _ (K2 _ E7))).
  assert (c7_kept m pl r (set_agg_proofs (Some l) p) ∧ c7_kept m pl (set_r_agg (Some l) ec r) (set_agg_proofs (Some l) p))
    as [H1' H2'] by (repeat split; try done; by intros ? [= <-]).
  destruct Hcase as [(g & -> & <- & <-)|(d & -> & <- & <-)]; by split; (split; [done|]).
Qed.

Lemma ok_maybe_start ec : ok (maybe_start_decryption_aggregation ec).
Proof.
  apply ok_get. intros a s r Hp Hs Hr Hc. destruct (c7_proofs_pending (pending a)) as [c7|] eqn:E7; [|by done_ok].
  destruct (_ || _); [by done_ok|]. destruct (negb _).
  - apply x_ok_or; [side|]. intros c6 _. apply x_lift; [side|]. intros l Hl%mock_proofs_length.
    destruct (agg_proofs_coherent s r (pending a) c7 l ec Hc E7 Hl) as [H1' H2'].
    apply x_pend; [by left|]. tail. apply x_recovery; [done|side|]. by done_ok.
  - apply ok_from; [done|]. apply ok_dispatch_aggregation.
Qed.

Lemma ok_dispatch_c7 s r p g {B} (k : () → Mon B) : s = SGeneratingC7Proof g → coherent s r p →
  triple (J false (exactly s r p)) (k tt) (λ _, Inv) Inv →
  triple (J false (exactly s r p))
    (bind (dispatch_c7_proof_request (g_shares g) (g_plaintext g) (g_threshold_m g) (g_threshold_n g)) k) (λ _, Inv) Inv.
Proof. intros -> Hc Hk. apply x_send; [by destruct Hc as [(? & ? & ? & _) _]|side|done]. Qed.

Lemma ok_proof_signed msg ec : ok (handle_aggregation_proof_signed msg ec).
Proof.
  apply ok_get. intros a s r Hp Hs Hr Hc. destruct (negb _); [by done_ok|]. rewrite Hs.
  destruct s as [c|v|k|g|d]; try by done_ok. cbn zeta.
  destruct (c7_proofs_match_batch _ _ _ _) eqn:Em; cbn [negb].
  2:{ tail. apply ok_dispatch_c7; [done|done|by done_ok]. }
  pose proof Hc as [Hg [[Hal Hpc] (K1 & K2 & K3 & K4 & K5)]].
  assert (g_threshold_m g = m) as Hm by apply Hg. rewrite Hm in Em.
  assert (c7_proofs_match_batch (raw_proofs (aps_signed_proofs msg)) (honest_c6_proofs r) (g_plaintext g) (m + 1) = true)
    as Hmatch.
  { destruct (honest_c6_proofs_for_agg (pending a)) as [l|] eqn:E6; cbn in Em; [by rewrite <- (Hpc l)|].
    apply match_batch_length in Em as [_ Hlen]. cbn in Hlen. lia. }
  apply x_recovery; [done|side|]. apply x_pend; [by left|]. apply ok_from.
  - split; [done|]. split; [done|]. repeat split; try done; by intros ? [= <-].
  - apply ok_bind; [apply ok_maybe_start|]. intros _. apply ok_try_publish.
Qed.

Lemma x_take_replayed s r p pl k {B} (f : option AggregationProofSigned → Mon B) Q R :
  (∀ x, triple (J false (exactly s r (set_replayed [] p))) (f x) Q R) →
  triple (J false (exactly s r p)) (bind (take_replayed_c7_result pl k) f) Q R.
Proof.
  intros Hf. eapply (triple_bind _ _ _ _ (λ _, J false (exactly s r (set_replayed [] p)))); [|done].
  apply x_get. intros a _ _ _ _. cbn zeta. apply x_pend; [by left|]. by apply triple_ret.
Qed.

(** What is assumed of the messages: the plaintexts of the decryption worker. *)
Definition response_ok (response : ComputeResponse) : Prop :=
  match response with ThresholdDecryptionResponse plaintext => answered plaintext | _ => True end.

Definition msg_answered (msg : Message) : Prop := match msg with MComputeResponse _ _ response => response_ok response | _ => True end.

Lemma ok_compute_response e3 id response ec : response_ok response → ok (handle_compute_response e3 id response ec).
Proof.
  intros Hresp. apply ok_get. intros a s r Hp Hs Hr Hc. apply x_ensure; [side|]. intros _. destruct response as [pl|l|].
  - destruct (negb _); [by done_ok|]. apply x_pend; [by left|].
    pose proof (dec_corr_coherent _ _ _ None Hc) as Hc1. apply x_get. intros a' _ Hs' _ _. rewrite Hs'.
    destruct s as [c|v|k|g|d]; try (by intros w Hw; eapply exactly_inv; [|exact Hw]).
    change (bind (ret k) ?f) with (f k). cbn beta. apply x_take_replayed. intros replayed.
    pose proof (replayed_coherent _ _ _ [] Hc1) as Hc2.
    assert (∀ f : () → Mon (), triple (J false (exactly (SComputing k) r (set_replayed [] (set_dec_corr None (pending a)))))
        (f tt) (λ _, Inv) Inv →
      triple (J false (exactly (SComputing k) r (set_replayed [] (set_dec_corr None (pending a)))))
        (bind (match replayed with
               | None => dispatch_c7_proof_request (k_shares k) pl (k_threshold_m k) (k_threshold_n k)
               | Some _ => ret tt end) f) (λ _, Inv) Inv) as Hfirst.
    { intros f Hf. destruct replayed; [done|]. destruct Hc as [(? & ? & ? & ?) _]. by apply x_send; [|side|]. }
    apply Hfirst. eapply x_state; [done|side|].
    assert (coherent (SGeneratingC7Proof (mkGeneratingC7Proof (k_threshold_m k) (k_threshold_n k) (k_shares k) pl)) r
      (set_replayed [] (set_dec_corr None (pending a)))) as Hc3.
    { destruct Hc as [(? & ? & ? & ?) [[Hal Hpc] (K1 & K2 & K3 & K4 & K5)]]. split; [done|]. split; [done|].
      split; [by rewrite K1|]. split; [cbn; by rewrite K2|]. split; [by rewrite K3|]. split; [cbn; by rewrite K4|].
      cbn. rewrite K5. by intros [? ?]. }
    destruct replayed; [|by done_ok]. apply ok_from; [done|]. apply ok_proof_signed.
  - destruct (bool_decide _) eqn:Eb; cbn [negb]; [|by done_ok]. apply bool_decide_eq_true_1 in Eb.
    assert (∃ c7, c7_proofs_pending (pending a) = Some c7) as [c7 E7].
    { destruct Hc as [_ Hk]. destruct s as [c|v|k|g|d].
      1-2: by destruct Hk as (_ & _ & _ & _ & E); rewrite E in Eb.
      - destruct Hk as (_ & _ & _ & _ & _ & E). by rewrite E in Eb.
      - destruct Hk as (_ & _ & _ & _ & _ & E). rewrite Eb in E. by apply E.
      - destruct Hk as (_ & _ & _ & _ & _ & E). rewrite Eb in E. by apply E. }
    pose proof (agg_corr_coherent _ _ _ Hc) as Hc1.
    apply x_pend; [by left|]. rewrite E7. destruct (Nat.eqb_spec (length l) (length c7)) as [Hl|Hl]; cbn [negb];
      [|by apply x_fail_round].
    destruct (agg_proofs_coherent s r (set_agg_corr None (pending a)) c7 l ec Hc1 E7 Hl) as [H1' H2'].
    apply x_pend; [by left|]. apply x_recovery; [done|side|]. apply ok_from; [done|]. apply ok_try_publish.
  - by done_ok.
Qed.

(** ** Resuming and handling *)

Lemma ok_try_recovery {B} (k : Recovery → Mon B) :
  (∀ s r p, coherent s r p → triple (J false (exactly s r p)) (k r) (λ _, Inv) Inv) →
  ok (bind (p_try_get (T:=Recovery) PersistFailed) k).
Proof. intros Hk. apply t_exact. intros s r p Hc. by apply x_try_recovery, Hk. Qed.

Lemma ok_resume ec : ok (resume_in_flight_work ec).
Proof.
  apply ok_get. intros a s r Hp Hs Hr Hc. cbn zeta. destruct (negb _); [by done_ok|]. apply ok_from; [done|].
  apply ok_bind; [apply ok_mark_started|]. intros _. apply ok_try_recovery. clear a s r Hp Hs Hr Hc. intros s r p Hc.
  apply x_ensure; [side|]. intros _. set (cc := default ec (r_last_ec r)). apply x_pend; [by left|].
  pose proof (last_ec_coherent _ _ _ (Some cc) Hc) as Hc1.
  apply x_get. intros a _ Hs _ Hpe. rewrite Hs. destruct s as [c|v|k|g|d].
  - by done_ok.
  - apply ok_from; [done|]. apply ok_dispatch_c6.
  - apply x_ensure; [side|]. intros _. tail. apply x_dispatch_decryption; try done; try by apply Hc.
    intros x. by done_ok.
  - apply x_pend; [by left|].
    assert (coherent (SGeneratingC7Proof g) r (set_agg_corr None (set_last_ec (Some cc) p))) as Hc2
      by (by apply agg_corr_coherent).
    assert (ok (maybe_start_decryption_aggregation cc ;; try_publish_complete)) as Hfinish
      by (apply ok_bind; [apply ok_maybe_start|intros _; apply ok_try_publish]).
    destruct (c7_proofs_pending (pending a)); [by apply ok_from|].
    apply x_take_replayed. intros [x|].
    + apply x_pend; [by left|]. apply x_new_id. intros id. tail.
      pose proof (replayed_coherent _ _ _ (replayed_c7_results (set_replayed [] (set_agg_corr None
        (set_last_ec (Some cc) p))) ++ [x]) (replayed_coherent _ _ _ [] Hc2)) as Hc3.
      apply x_send; [done|side|by done_ok].
    + apply ok_dispatch_c7; [done|by apply replayed_coherent|]. apply ok_from; [by apply replayed_coherent|done].
  - apply x_ok_or; [side|]. intros l Hl. tail. apply x_send; [|side|by done_ok].
    destruct Hc as [[_ Ha] [_ (_ & _ & _ & K4 & _)]]. exists (d_decrypted d). do 2 (split; [done|]). rewrite format_length. apply K4. by rewrite <- Hl, Hpe.
Qed.

Lemma ok_aggregation_resume e3 phase ec : ok (handle_aggregation_resume e3 phase ec).
Proof.
  apply ok_get. intros a s r Hp Hs Hr Hc. destruct (_ || _); [by done_ok|]. rewrite Hs.
  destruct s as [c|v|k|g|d]; try by done_ok. apply x_take_replayed. intros [x|].
  - apply ok_from; [by apply replayed_coherent|]. apply ok_proof_signed.
  - by done_ok.
Qed.

Lemma ok_after_collection b : ok (after_collection b).
Proof.
  apply ok_get. intros a s r Hp Hs Hr Hc. cbn zeta. apply ok_from; [done|]. apply ok_bind.
  - destruct (_ && _); [apply ok_publish_inputs_ready|]. by apply triple_ret.
  - intros _. apply ok_get. intros a' s' r' _ Hs' _ Hc'. destruct (_ && _); [|by done_ok]. rewrite Hs'.
    destruct s' as [c|v|k|g|d]; try by done_ok. apply ok_from; [done|]. apply ok_dispatch_c6.
Qed.

Lemma ok_role f : (∀ a, params (f a) = params a ∧ state (f a) = state a ∧ recovery (f a) = recovery a ∧
  pending (f a) = pending a) → ok (modify f).
Proof.
  intros Hf. apply t_exact. intros s r p Hc. tail. apply x_role; [done|]. by done_ok.
Qed.

Lemma ok_dispatch msg ec : msg_answered msg → ok (dispatch msg ec).
Proof.
  intros Hmsg. assert (∀ x, ok (handle_expulsion x)) as Hexp.
  { intros [x|]; [|by apply triple_ret]. apply ok_get. intros a s r _ _ _ Hc. cbn zeta. apply ok_from; [done|].
    apply ok_bind; [apply ok_expelled|]. intros _. apply ok_after_collection. }
  assert (ok die) as Hdie by (by apply ok_role).
  destruct msg; cbn [dispatch]; try (by apply triple_ret).
  - apply ok_get. intros a s r _ Hs _ Hc. rewrite Hs.
    destruct s as [c|v|k|g|d]; try by done_ok.
    all: tail; intros w Hw; unfold publish, bind, call, emit; destruct Hw as (? & ? & ? & ?);
      destruct (refusals w) as [|[] ?]; cbn; eapply exactly_inv; try exact Hc; repeat split; try done.
    all: apply Forall_app; split; [done|]; by constructor.
  - apply ok_get. intros a s r _ _ _ Hc. destruct (negb _); [by intros w Hw; eapply exactly_inv; [|exact Hw]|].
    destruct (negb _); [by done_ok|]. destruct (negb _); [by done_ok|]. cbn zeta. apply ok_from; [done|].
    apply ok_bind; [apply ok_add_share|]. intros _. apply ok_after_collection.
  - done.
  - apply ok_get. intros a s r _ _ _ Hc. destruct (_ && _); [by apply ok_from|by done_ok].
  - apply ok_get. intros a s r _ _ _ Hc. destruct (can_continue_aggregation_effects a); [|by done_ok].
    apply ok_from; [done|]. by apply ok_compute_response.
  - apply Hexp.
  - apply Hexp.
  - apply ok_c6_complete.
  - apply ok_c6_resume.
  - apply ok_aggregation_resume.
  - apply ok_get. intros a s r _ Hs _ Hc. destruct (negb _).
    + apply ok_from; [done|]. apply ok_get. intros a' s' r' _ _ _ Hc'. destruct (_ && _); [|by done_ok].
      tail. apply x_pend; [by left|]. by done_ok.
    + destruct (negb _); [by done_ok|]. apply ok_from; [done|]. apply ok_proof_signed.
  - apply ok_get. intros a s r _ _ _ Hc. destruct (_ || _); [by done_ok|]. apply ok_from; [done|].
    apply ok_bind; [by apply ok_role|]. intros _. apply ok_get. intros a' s' r' _ _ _ Hc'.
    destruct (can_run_aggregation_effects a'); [|by done_ok]. apply ok_from; [done|]. apply ok_resume.
  - apply ok_bind; [by apply ok_role|]. intros _. apply ok_bind; [apply ok_publish_inputs_ready|]. intros _. apply ok_resume.
Qed.

Lemma ok_handle msg ec : msg_answered msg → ok (handle msg ec).
Proof.
  intros Hmsg. apply ok_get. intros a s r _ _ _ Hc. destruct (stopped a); [by done_ok|]. apply ok_from; [done|].
  intros w Hw. pose proof (ok_dispatch msg ec Hmsg w Hw) as Hd. unfold trap. destruct (dispatch msg ec w) as [[[]|e] w']; [done|].
  cbn. destruct Hd as (? & ? & ? & ?). do 2 (split; [done|]). split; [|done]. apply Forall_app. split; [done|]. by constructor.
Qed.
End Steps.
