(* ===== verification/PlaintextProps.v ===== *)
(** * Correctness of the threshold decryption

    Restarts keep the invariant of PlaintextInv as well, so it holds in every reachable world;
    the theorems state what follows for the publications and for the failure paths.  A concrete run
    closes the file. *)

From S2P Require Import Prelude Events AlloyExample CommitmentLinks NodeRegistry AddressExample Actor Orchestration OrchestrationExample PlaintextAggregation PlaintextInv PlaintextSteps.
Local Open Scope nat_scope.

Section Restart.
Context `{AlloyOps} `{AddressText} `{PlaintextOps}.
Context (ps : Params) (m n : nat) (cts : list Bytes) (answered : list Bytes → Prop).

Local Abbreviation Mon := (M Aggregator Publication PtError).
Local Abbreviation W := (World Aggregator Publication).
Local Abbreviation J := (J ps m n cts answered).
Local Abbreviation Inv := (Inv ps m n cts answered).
Local Abbreviation coherent := (coherent ps m n cts answered).
Local Abbreviation any := (λ _ : W, True).

(** ** Checking the saved work *)

Lemma all_m_keeps {A} P (f : A → Mon bool) l :
  (∀ x, triple P (f x) (λ _, P) P) → triple P (all_m f l) (λ _, P) P.
Proof.
  intros Hf. induction l as [|x l IH]; cbn [all_m]; [by apply triple_ret|].
  eapply triple_bind; [apply Hf|]. intros []; [done|by apply triple_ret].
Qed.

Lemma try_auth_keeps b party shares proofs :
  triple (J b coherent) (try_or_false (share_is_authenticated party shares proofs cts))
    (λ _, J b coherent) (J b coherent).
Proof.
  intros w Hw. pose proof (auth_ok ps m n cts answered b coherent party shares proofs (coherent_commitments ps m n cts answered) w Hw) as Ha.
  unfold try_or_false. destruct (share_is_authenticated _ _ _ _ w) as [[x|e] w']; [by destruct Ha|done].
Qed.

Lemma saved_keeps b shares proofs :
  triple (J b coherent) (saved_authenticated shares proofs cts) (λ _, J b coherent) (J b coherent).
Proof.
  apply all_m_keeps. intros [party share]. destruct (proofs !! party); [apply try_auth_keeps|by apply triple_ret].
Qed.

Lemma recovered_keeps : triple Inv (recovered_c6_is_valid cts) (λ _, Inv) Inv.
Proof.
  assert (∀ s r p (f : Mon bool), coherent s r p → triple Inv f (λ _, Inv) Inv →
    triple (J false (exactly s r p)) f (λ _, Inv) Inv) as Hfrom by (intros; by apply ok_from).
  apply ok_get. intros a s r _ _ _ Hc. apply x_try_recovery. cbn zeta. destruct (existsb _ _); [by apply ok_ret|].
  apply x_try_state. destruct s as [c|v|k|g|d]; try by apply ok_ret.
  - destruct (_ || _); [by apply ok_ret|]. apply Hfrom; [done|]. apply saved_keeps.
  - destruct (negb _); [by apply ok_ret|]. apply Hfrom; [done|].
    eapply triple_bind; [apply saved_keeps|]. intros []; cbn [negb]; [|by apply triple_ret].
    apply all_m_keeps. intros [party queued]. apply try_auth_keeps.
Qed.

(** ** Staged repairs *)

Lemma x_stage s r p {B} (k : Mon B) Q R :
  triple (J true (exactly s r p)) k Q R →
  triple (J false (exactly s r p)) (p_stage (T:=State) ;; p_stage (T:=Recovery) ;; k) Q R.
Proof.
  intros Hk w (Hp & Hc & Ho & s' & r' & (Hs & _ & _) & [(Hr & _ & _) Hb] & -> & -> & Hpe).
  unfold p_stage, bind, modify. cbn. apply Hk. do 3 (split; [done|]). exists s, r. by repeat split.
Qed.

Lemma x_call b s r p e {B} (k : () → Mon B) Q :
  triple (J b (exactly s r p)) (k tt) Q any → triple (J b (exactly s r p)) (bind (call e) k) Q any.
Proof.
  intros Hk w Hw. unfold bind, call. assert (∀ rest, J b (exactly s r p) (mkWorld (st w) rest (out w) (next_id w))) as Hrest
    by done. destruct (refusals w) as [|[] rest]; [by apply Hk|done|by apply Hk, Hrest].
Qed.

Lemma x_persist s r p : triple (J true (exactly s r p)) persist_repaired_state (λ _, J false (exactly s r p)) any.
Proof.
  apply x_try_state, x_call, x_try_recovery, x_call, x_call.
  intros w (Hp & Hc & Ho & s' & r' & (Hs & _ & _) & [(Hr & _ & _) Hb] & -> & -> & Hpe).
  unfold bind, modify, call. cbn. destruct (refusals w) as [|[] ?]; cbn; [|done|];
    (do 3 (split; [done|])); exists s, r; by repeat split.
Qed.

Lemma redo_keeps s r p g : coherent (SGeneratingC7Proof g) r p →
  triple (J false (exactly s r p)) (redo_c7 g) (λ _, Inv) any.
Proof.
  intros [Hg [[Hal Hpc] _]]. apply x_stage. eapply x_state; [done|done|]. apply x_recovery; [done|done|].
  apply x_pend; [by left|]. eapply triple_conseq; [apply x_persist|done| |done].
  intros [] w. apply J_mono. intros ? ? ? (-> & -> & ->). split; [done|]. split; [done|].
  repeat split; try done. by intros [? ?].
Qed.

Lemma visit_keeps b e : triple (J b coherent) (visit e) (λ _, J b coherent) (J b coherent).
Proof.
  destruct e as [share|[party|]|[party|]]; try by apply triple_ret.
  - apply t_exact. intros s r p Hc. apply x_get. intros a _ _ _ _.
    assert (∀ w, J b (exactly s r p) w → J b coherent w) as Hback
      by (intros w; apply J_mono; by intros ? ? ? (-> & -> & ->)).
    destruct (node_owns_committee_party_slot _ _ _ _); [|by apply triple_ret].
    eapply triple_pre; [exact Hback|]. apply add_share_keeps.
  - apply expelled_keeps.
  - apply expelled_keeps.
Qed.

Lemma init_coherent seed prm ec : coherent (init m n seed cts prm) (new_threshold_plaintext_recovery ec)
  (set_last_ec (Some ec) default_pending).
Proof.
  split; [|done]. cbn. do 3 (split; [done|]). split; [intros p; by rewrite !lookup_empty|].
  split; [set_solver|]. rewrite map_size_empty. lia.
Qed.

Lemma rebuild_keeps seed prm history : triple Inv (rebuild (init m n seed cts prm) history) (λ _, Inv) any.
Proof.
  apply t_exact. intros s r p _. apply x_try_state, x_stage. eapply x_state; [done|done|]. apply x_try_recovery.
  apply x_ok_or; [done|]. intros ec _.
  apply x_recovery; [intros; unfold outcomes_bounded; cbn; rewrite map_size_empty; lia|done|]. apply x_pend; [by right|]. apply x_role; [done|].
  eapply (triple_pre _ (J true coherent)).
  { intros w. apply J_mono. intros ? ? ? (-> & -> & ->). apply init_coherent. }
  assert (∀ A (l : list A) f, (∀ x, triple (J true coherent) (f x) (λ _, J true coherent) (J true coherent)) →
    triple (J true coherent) (for_each (E:=PtError) l f) (λ _, J true coherent) any) as Heach.
  { intros A l f Hf. apply triple_for_each. intros x. by eapply triple_conseq; [apply Hf| | |]. }
  eapply triple_bind; [apply Heach; intros; apply expelled_keeps|]. intros [].
  eapply triple_bind; [apply Heach; intros; apply visit_keeps|]. intros [].
  eapply triple_bind; [apply Heach; intros [? [? ?]]; apply add_share_keeps|]. intros [].
  apply t_exact. intros s1 r1 p1 Hc. eapply triple_conseq; [apply x_persist|done| |done].
  intros [] w Hw. by eapply exactly_inv; [|exact Hw].
Qed.

Lemma repair_keeps seed prm history :
  triple Inv (repair_recovered_state (init m n seed cts prm) history) (λ _, Inv) any.
Proof.
  cbn [init repair_recovered_state c_ciphertext_output].
  eapply triple_bind; [by eapply triple_conseq; [apply recovered_keeps| | |]|]. intros []; [|apply rebuild_keeps].
  apply t_exact. intros s r p Hc. apply x_try_state. cbn zeta.
  assert (∀ g, coherent (SGeneratingC7Proof g) r p → ∀ f : bool, triple (J false (exactly s r p))
    (if f then ret tt else redo_c7 g) (λ _, Inv) any) as Hbatch.
  { intros g Hg []; [|by apply redo_keeps]. intros w Hw. by eapply exactly_inv; [|exact Hw]. }
  destruct s as [c|v|k|g|d]; try (by intros w Hw; eapply exactly_inv; [|exact Hw]).
  - apply x_try_recovery. by apply Hbatch.
  - apply x_try_recovery. apply Hbatch. by destruct Hc as [? ?].
Qed.

Lemma restart_keeps seed prm history ia :
  triple Inv (restart (init m n seed cts prm) history ia) (λ _, Inv) any.
Proof.
  unfold restart. apply (triple_bind _ _ _ _ (λ _, Inv)); [|intros []; apply repair_keeps].
  intros w (Hp & Hc & Ho & s & r & (Hs & Hs' & Hs'') & [(Hr & Hr' & Hr'') Hbd] & HK). cbn. unfold Inv, PlaintextInv.Inv.
  split; [done|]. split; [done|]. split; [done|]. exists s, r. unfold reload. cbn.
  split; [by rewrite Hs''|]. split; [by rewrite Hr''|]. rewrite Hr'' by done. cbn.
  destruct HK as [Hok Hk]. split; [done|].
  assert (∀ sh, c6_kept ps cts sh r (pending (st w)) → c6_kept ps cts sh r
    (mkPending None (match honest_c6_proofs r with [] => None | l => Some l end) None None (c7_proofs r) []
       (r_decryption_aggregator_proofs r) (r_last_ec r))) as Hkept.
  { intros sh [Hal _]. split; [done|]. cbn. intros l. by destruct (honest_c6_proofs r); intros [= <-]. }
  destruct s as [c|v|k|g|d].
  1-2: by destruct Hk as (? & ? & ? & ? & ?).
  - destruct Hk as [? (? & ? & ? & ? & ?)]. split; [by apply Hkept|done].
  - destruct Hk as [? (? & ? & ? & ? & ?)]. split; [by apply Hkept|]. repeat split; try done. by intros [? ?].
  - destruct Hk as [? (? & ? & ? & ? & ?)]. split; [by apply Hkept|]. repeat split; try done. by intros [? ?].
Qed.

(** ** Reachable worlds *)

(** A new aggregator over the initial state (ext.rs), with any future refusals. *)
Definition fresh (seed : Z) (prm : Bytes) (ec : EventContext) (ia effects : bool) (refuse : list bool) (id : Z) : W :=
  let s := init m n seed cts prm in
  let r := new_threshold_plaintext_recovery ec in
  mkWorld (new_aggregator ps (mkPersistable (Some s) (Some s) false) (mkPersistable (Some r) (Some r) false) ia effects)
    refuse [] id.

(** Messages and restarts that succeed, in any order.  Of the messages only the plaintexts of the
    decryption worker are restricted, to those that it answers.  A restart finds the snapshots of an
    earlier point, since the last writes may be lost: it may find those of any reachable point. *)
Inductive reachable_with (seed : Z) (prm : Bytes) : W → Prop :=
| reach_fresh ec ia effects refuse id : reachable_with seed prm (fresh seed prm ec ia effects refuse id)
| reach_message w msg ec : reachable_with seed prm w → msg_answered answered msg → reachable_with seed prm (handle msg ec w).2
| reach_restart w stored history ia w' : reachable_with seed prm w → reachable_with seed prm stored →
    restart (init m n seed cts prm) history ia (mkWorld (st stored) (refusals w) (out w) (next_id w)) = (Ok tt, w') → reachable_with seed prm w'.

Lemma reachable_with_inv seed prm w : reachable_with seed prm w → Inv w.
Proof.
  induction 1 as [ec ia effects refuse id|w msg ec _ IH Hmsg|w stored history ia w' _ IH _ IHs E].
  - split; [done|]. split; [done|]. split; [constructor|]. exists (init m n seed cts prm), (new_threshold_plaintext_recovery ec).
    split; [done|]. split; [split; [done|]; unfold outcomes_bounded; cbn; rewrite map_size_empty; lia|].
    destruct (init_coherent seed prm ec) as [Hs Hk]. by split.
  - pose proof (ok_handle ps m n cts answered msg ec Hmsg w IH) as Hok. destruct (handle msg ec w) as [[|] ?]; done.
  - assert (Inv (mkWorld (st stored) (refusals w) (out w) (next_id w))) as Hmix.
    { destruct IH as (_ & _ & Ho & _), IHs as (Hp & Hc & _ & Hrest). by repeat (split; [done|]). }
    pose proof (restart_keeps seed prm history ia _ Hmix) as Hok. by rewrite E in Hok.
Qed.
End Restart.

(** The worlds that any messages reach. *)
Definition reachable `{AlloyOps} `{AddressText} `{PlaintextOps} (ps : Params) (m n : nat) (cts : list Bytes)
  : Z → Bytes → World Aggregator Publication → Prop := reachable_with ps m n cts (λ _, True).

Lemma reachable_inv `{AlloyOps} `{AddressText} `{PlaintextOps} ps m n cts seed prm w :
  reachable ps m n cts seed prm w → Inv ps m n cts (λ _, True) w.
Proof. apply reachable_with_inv. Qed.

(** ** Retries *)

(** The parties that can still be in a batch: not rejected, or in the current batch. *)
Definition live_parties (N : nat) (shares : gmap nat (list Bytes)) (rejected : gset nat) : gset nat :=
  filter (λ p, p ∉ rejected ∨ is_Some (shares !! p)) (set_seq 0 N).

Definition live_of (N : nat) (s : State) : gset nat :=
  match s with
  | SCollecting c => live_parties N (c_shares c) (c_rejected_parties c)
  | SVerifyingC6 v => live_parties N (v_shares v) (v_rejected_parties v)
  | _ => ∅
  end.

Lemma live_start N c : live_of N (start_verification_if_ready c) = live_parties N (c_shares c) (c_rejected_parties c).
Proof. unfold start_verification_if_ready. by destruct (_ <=? _). Qed.

(** The honest part of a map is as long as the map when nobody in it is excluded. *)
Lemma honest_of_all {V} (X : gset nat) (l : gmap nat V) :
  (∀ p, is_Some (l !! p) → p ∉ X) → length (honest_of X l) = size l.
Proof.
  intros Hx. unfold honest_of. rewrite List.forallb_filter_id.
  - rewrite btree_list_perm. by rewrite length_map_to_list.
  - apply forallb_forall. intros [p v] Hin. apply bool_decide_eq_true_2. apply list_elem_of_In, elem_of_btree_list in Hin.
    apply Hx. cbn. by rewrite Hin.
Qed.

Section Theorems.
Context `{AlloyOps} `{AddressText} `{PlaintextOps}.
Context (ps : Params) (m n : nat) (cts : list Bytes).

Lemma share_sender party share proofs : bundle_ok ps cts party share proofs →
  ∃ address, committee_addresses ps !! party = Some address ∧ address ∈ honest_committee_addresses ps ∧
    length share = length cts ∧ length proofs = length cts ∧
    Forall (λ sp, verify_address sp address = Some true ∧ pp_e3_id (payload sp) = a_e3_id ps) proofs ∧
    verifier_matches (params_preset ps) share proofs = true.
Proof.
  intros (address & commitments & Ha & Hs & Hl1 & Hl2 & _ & _ & _ & _ & Hv). exists address.
  unfold valid_sender in Hs. apply andb_true_iff in Hs as [Hh Hs]. apply bool_decide_eq_true_1 in Hh.
  do 4 (split; [done|]). split; [|done]. apply Forall_forall. intros sp Hin.
  rewrite forallb_forall in Hs. specialize (Hs sp (proj1 (list_elem_of_In _ _) Hin)).
  rewrite !andb_true_iff in Hs. destruct Hs as [[[He _] _] Hva]. apply bool_decide_eq_true_1 in He.
  split; [|done]. by destruct (verify_address sp address) as [[]|].
Qed.

(** A bundle's proof of one ciphertext. *)
Lemma signed_for_ciphertext (shares : list (nat * list Bytes)) k party share signed sp i : shares !! k = Some (party, share) → bundle_ok ps cts party share signed →
  signed !! i = Some sp → ∃ party share address sp' ct,
    shares !! k = Some (party, share) ∧ committee_addresses ps !! party = Some address ∧ address ∈ honest_committee_addresses ps ∧
    pp_proof (payload sp) = pp_proof (payload sp') ∧ verify_address sp' address = Some true ∧ pp_e3_id (payload sp') = a_e3_id ps ∧
    cts !! i = Some ct ∧ c6_has_canonical_domain ps (pp_proof (payload sp)) ct = true.
Proof.
  intros Hk Hok Hsp. destruct (share_sender _ _ _ Hok) as (address & Ha & Hh & _ & Hl & Hall & _). rewrite Forall_forall in Hall.
  destruct (Hall sp) as [Hv He]; [by eapply list_elem_of_lookup_2|]. destruct (lookup_lt_is_Some_2 cts i) as [ct Hct].
  { rewrite <- Hl. by eapply lookup_lt_Some. }
  exists party, share, address, sp, ct. do 7 (split; [done|]). destruct Hok as (_ & _ & _ & _ & _ & _ & _ & Hd & _).
  rewrite forallb_forall in Hd. apply (Hd (sp, ct)). apply list_elem_of_In, list_elem_of_lookup. exists i. by rewrite lookup_zip_with, Hsp, Hct.
Qed.

(** C5: Whatever messages, restarts and refused calls came before, every threshold-decryption
    request that leaves the node is for the E3's ciphertexts and threshold, and carries the shares
    of more than [T] distinct committee members in ascending order, each of them an honest member's:
    one share per ciphertext, signed in its own slot for this E3, and equal to the committed one. *)
Theorem decryption_requests_sound seed prm w id cts' prm' n' m' shares :
  reachable ps m n cts seed prm w →
  ThresholdDecryptionRequested id cts' prm' n' m' shares ∈ out w →
  cts' = cts ∧ n' = n ∧ m' = m ∧ m < length shares ∧ StronglySorted lt shares.*1 ∧
  ∀ party share, (party, share) ∈ shares → ∃ address proofs,
    committee_addresses ps !! party = Some address ∧ address ∈ honest_committee_addresses ps ∧
    length share = length cts ∧ length proofs = length cts ∧
    Forall (λ sp, verify_address sp address = Some true ∧ pp_e3_id (payload sp) = a_e3_id ps) proofs ∧
    verifier_matches (params_preset ps) share proofs = true.
Proof.
  intros (_ & _ & Ho & _)%reachable_inv Hin. rewrite Forall_forall in Ho. specialize (Ho _ Hin).
  destruct Ho as (-> & -> & -> & Hs & Hl & Hb). do 5 (split; [done|]). intros party share Hp.
  destruct (Hb party share Hp) as [proofs Hok]. destruct (share_sender _ _ _ Hok) as (address & Hrest).
  by exists address, proofs.
Qed.

(** C23: What is handed to the decryption aggregation and what is published.  Let the decryption worker
    answer one plaintext per ciphertext.  Every aggregation request then has one job per ciphertext, in
    their order: in each of the slots zero to [T] the C6 proof of the slot's party of one ascending
    batch of more than [T] parties, signed by that committee member for this E3 and bound to this very
    ciphertext.  A published plaintext has one output and one aggregation proof per ciphertext. *)
Theorem aggregation_publications_sound seed prm w o :
  reachable_with ps m n cts (λ plaintext, length plaintext = length cts) seed prm w → o ∈ out w →
  match o with
  | DecryptionAggregationRequested _ slots jobs committee =>
      slots = m + 1 ∧ committee = committee_addresses ps ∧ length jobs = length cts ∧
      ∃ shares : list (nat * list Bytes), StronglySorted lt shares.*1 ∧ m < length shares ∧
      ∀ i job, jobs !! i = Some job → c6_slot_indices job = seq 0 (m + 1) ∧ length (c6_inner_proofs job) = m + 1 ∧
      ∀ k proof, c6_inner_proofs job !! k = Some proof → ∃ party share address sp ct,
        shares !! k = Some (party, share) ∧ committee_addresses ps !! party = Some address ∧ address ∈ honest_committee_addresses ps ∧
        proof = pp_proof (payload sp) ∧ verify_address sp address = Some true ∧ pp_e3_id (payload sp) = a_e3_id ps ∧
        cts !! i = Some ct ∧ c6_has_canonical_domain ps proof ct = true
  | PlaintextAggregated output proofs => length output = length cts ∧ length proofs = length cts
  | _ => True
  end.
Proof.
  intros (_ & _ & Ho & _)%reachable_with_inv Hin. rewrite Forall_forall in Ho. specialize (Ho _ Hin). destruct o; try done.
  - destruct Ho as (-> & (shares & c6 & c7 & pl & (Hsort & Hlen & _) & _ & Hpl & _ & Hjobs & Hjob) & ->).
    do 2 (split; [done|]). split; [congruence|]. exists shares. do 2 (split; [done|]). intros i job Hi.
    destruct (Hjob i job Hi) as (Hslots & Hinner & _ & Hproofs). do 2 (split; [done|]). intros k proof Hk.
    destruct (Hproofs k proof Hk) as (party & share & signed & sp & Hs & Hok & Hsp & ->). by eapply signed_for_ciphertext.
  - destruct Ho as (pl & Hpl & -> & Hl). rewrite format_length in *. by rewrite Hl.
Qed.

(** The C7 proofs that are held, in memory or in the snapshot, belong to the batch that is
    decrypted: they match its plaintext and the C6 proofs of exactly the parties whose shares
    were combined, in the same order. *)
Theorem c7_bound_to_batch seed prm w g r :
  reachable ps m n cts seed prm w →
  p_data (state (st w)) = Some (SGeneratingC7Proof g) → p_data (recovery (st w)) = Some r →
  (honest_c6_proofs r).*1 = (g_shares g).*1 ∧
  ∀ c7, c7_proofs_pending (pending (st w)) = Some c7 ∨ c7_proofs r = Some c7 →
    c7_proofs_match_batch c7 (honest_c6_proofs r) (g_plaintext g) (m + 1) = true.
Proof.
  intros (_ & _ & _ & s & r' & (Hs & _) & [(Hr & _) _] & Hc)%reachable_inv Es Er. simplify_eq.
  destruct Hc as [_ [[Hal _] (K1 & K2 & _)]]. split; [|by intros c7 [E|E]; [apply K2|apply K1]].
  clear -Hal. induction Hal as [|x y l l' [E _] _ IH]; [done|]. rewrite !fmap_cons, IH. by f_equal.
Qed.

(** The recorded C6 verdicts are at most one more than the honest committee, whatever is
    replayed, and the snapshot in the store is the value in memory. *)
Theorem outcomes_stay_bounded seed prm w r :
  reachable ps m n cts seed prm w → p_data (recovery (st w)) = Some r →
  size (c6_outcomes r) ≤ length (honest_committee_addresses ps) + 1 ∧
  p_stored (recovery (st w)) = Some r ∧ p_stored (state (st w)) = p_data (state (st w)).
Proof.
  intros (_ & _ & _ & s & r' & (Hs & _ & Hss) & [(Hr & _ & Hrs) Hb] & _)%reachable_inv Er. simplify_eq.
  split; [done|]. split; [by apply Hrs|]. rewrite Hss by done. by rewrite Hs.
Qed.

(** Verification ends: when a verdict leaves at most [T] parties of the batch, the replacement
    batch strictly loses a party that could never return, so there are no more retries than
    committee members. *)
Theorem retry_shrinks (v : VerifyingC6) (X : gset nat) (N : nat) :
  state_ok ps m n cts (λ _, True) (SVerifyingC6 v) → (∀ p, is_Some (v_shares v !! p) → p < N) →
  length (honest_of X (v_shares v)) ≤ m → v_rejected_parties v ⊆ X →
  live_of N (retry_collection v X) ⊂ live_of N (SVerifyingC6 v).
Proof.
  intros (_ & _ & _ & _ & Hsz & Hq) HN Hle Hrej. unfold retry_collection. rewrite live_start. cbn [c_shares c_rejected_parties live_of].
  assert (∃ p, is_Some (v_shares v !! p) ∧ p ∈ X) as (p & Hp & HX).
  { destruct (decide (set_Exists (λ p, p ∈ X) (dom (v_shares v)))) as [(p & Hd & HX)|Hno].
    - exists p. by rewrite <- elem_of_dom.
    - rewrite honest_of_all in Hle; [lia|]. intros p Hp HX. apply Hno. exists p. by rewrite elem_of_dom. }
  split.
  - intros p'. unfold live_parties. rewrite !elem_of_filter. intros [[Hn|Hs] Hin]; (split; [|done]).
    + left. set_solver.
    + destruct Hs as [sh Hs]. apply map_lookup_filter_Some in Hs as [Hs Hn]. cbn in Hn. left. set_solver.
  - intros Hsub. assert (p ∈ live_parties N (v_shares v) (v_rejected_parties v)) as Hlive.
    { unfold live_parties. rewrite elem_of_filter, elem_of_set_seq. split; [by right|]. specialize (HN p Hp). lia. }
    apply Hsub in Hlive. unfold live_parties in Hlive. rewrite elem_of_filter in Hlive.
    destruct Hlive as [[Hn|[sh Hs]] _]; [set_solver|]. apply map_lookup_filter_Some in Hs as [_ Hn]. cbn in Hn. set_solver.
Qed.

(** A batch under verification is frozen: a late share, an expulsion or an exclusion changes
    neither its shares nor its proofs, so the pending verdict is about the batch that is held. *)
Theorem batch_is_frozen (v : VerifyingC6) party share proofs s' :
  add_share_transition (SVerifyingC6 v) party share proofs = Ok s' ∨
  member_expelled_transition (SVerifyingC6 v) party = s' →
  ∃ v', s' = SVerifyingC6 v' ∧ v_shares v' = v_shares v ∧ v_c6_proofs v' = v_c6_proofs v ∧
    c6_verification_request ps (v_c6_proofs v') = c6_verification_request ps (v_c6_proofs v).
Proof.
  intros [E|<-]; [|by eexists]. unfold add_share_transition in E. cbn [expected_outputs] in E.
  destruct (negb _); [done|]. destruct (negb _); [done|]. injection E as <-.
  eexists. split; [done|]. by destruct (_ && _).
Qed.

(** C39: A verdict that leaves more than [T] matching parties is applied as a whole.  If every call
    is accepted the actor computes with exactly those parties and one decryption request was
    published; if a call is refused the batch stays as it was, in memory and in the store, so the
    same verdict can be applied again. *)
Theorem verdict_all_or_nothing (v : VerifyingC6) (outcome : gset nat) (ec : EventContext) w sv r sr :
  state (st w) = mkPersistable (Some (SVerifyingC6 v)) sv false →
  recovery (st w) = mkPersistable (Some r) sr false →
  let preset := params_preset (params (st w)) in
  let rejected := v_rejected_parties v ∪ outcome in
  let X := rejected ∪ verify_shares_match_c6_commitments preset (honest_of rejected (v_shares v)) (v_c6_proofs v) in
  let shares := honest_of X (v_shares v) in
  v_threshold_m v < length shares →
  match apply_c6_verification_outcome v outcome ec w with
  | (Ok _, w') =>
      p_data (state (st w')) = Some (SComputing (mkComputing (v_threshold_m v) (v_threshold_n v) shares
                                       (v_ciphertext_output v) (v_params v))) ∧
      out w' = out w ++ [ThresholdDecryptionRequested (next_id w) (v_ciphertext_output v) (v_params v)
                           (v_threshold_n v) (v_threshold_m v) shares] ∧
      threshold_decryption_correlation (pending (st w')) = Some (next_id w)
  | (Err e, w') =>
      state (st w') = state (st w) ∧ (e = PublishRefused ∨ e = PersistFailed StoreRefused) ∧ refusals w ≠ []
  end.
Proof.
  destruct w as [a refuse o id]. destruct a as [prm st0 rec0 ia sa ee pe sp]. cbn [st state recovery params].
  intros -> -> Hlt. unfold apply_c6_verification_outcome, bind at 1, get_st. cbn zeta. rewrite honest_of_twice.
  cbn [st params]. set (X := v_rejected_parties v ∪ outcome ∪ _) in *.
  rewrite (proj2 (Nat.leb_gt _ _) Hlt).
  destruct refuse as [|[] [|[] [|[] rest]]]; cbn; repeat split; auto.
Qed.
End Theorems.

(** ** A threshold decryption, run

    A committee of three with threshold one, with small computable stand-ins for the external
    operations: two members send their shares, the C6 verdict arrives, a refused publication is
    retried, and the batch goes to decryption, C7 and publication.  The witnesses evaluate the
    handlers of PlaintextAggregation on this run. *)

#[export] Instance ex_plaintext_ops : PlaintextOps := {
  verifier_ready _ := true;
  share_commitment _ share := Some (ex_keccak share);
  ct_commitment _ ct := Some (field_of (ex_keccak ct));
  event_id_hash request := Z.of_nat (100 + length (share_proofs request)) }.

Definition ex_ct : Bytes := [1; 2; 3]%Z.
Definition ex_params : Params :=
  mkParams ex_id InsecureThreshold64 Minimum false [11; 12; 13]%Z [11; 12]%Z (mkDomain 5 6 7).

Definition ex_share (party : nat) : Bytes := [Z.of_nat party; 9]%Z.

Definition ex_c6 (party : nat) : Proof_ :=
  let d := decryption_domain_limbs 1 7 (mkDomain 5 6 7) (ex_keccak ex_ct) in
  mkProof ThresholdShareDecryption [1%Z]
    (field_of 0 ++ field_of 0 ++ field_of (ex_keccak ex_ct) ++ field_of (hi d) ++ field_of (lo d) ++
     field_of (ex_keccak (ex_share party))).

Definition ex_signed (party : nat) : SignedProofPayload :=
  default (mkSigned (mkPayload ex_id C0PkBfv (ex_c6 party)) [])
    (sign_payload (mkPayload ex_id C6ThresholdShareDecryption (ex_c6 party)) (11 + Z.of_nat party)%Z).

Definition ex_created (party : nat) (node : string) : DecryptionshareCreated :=
  mkShareCreated ex_id node party [ex_share party] [ex_signed party].

Definition ex_messages : list (Message * EventContext) :=
  [(MCommitteeContains (ex_created 0 (ex_print 11)) true, ex_ctx 0);
   (MCommitteeContains (ex_created 1 (ex_print 11)) true, ex_ctx 0);
   (MCommitteeContains (ex_created 1 (ex_print 12)) true, ex_ctx 0);
   (MShareVerificationComplete (mkVerified ex_id ThresholdDecryptionProofs ∅), ex_ctx 102)].

(** One message after the other. *)
Definition run_messages (l : list (Message * EventContext)) (w : World Aggregator Publication)
    : World Aggregator Publication :=
  foldl (λ w '(msg, ec), (handle msg ec w).2) w l.

Definition ex_fresh (refuse : list bool) : World Aggregator Publication :=
  fresh ex_params 1 3 [ex_ct] 0 [] (ex_ctx 0) true true refuse 40.

Lemma reachable_run ps m n cts answered seed prm l w : Forall (λ x, msg_answered answered x.1) l →
  reachable_with ps m n cts answered seed prm w → reachable_with ps m n cts answered seed prm (run_messages l w).
Proof.
  intros Hl. revert w. induction Hl as [|[msg ec] l Hx Hl IH]; intros w Hw; [done|]. apply IH. by apply reach_message.
Qed.

Lemma answered_any (l : list (Message * EventContext)) : Forall (λ x, msg_answered (λ _, True) x.1) l.
Proof. apply Forall_true. intros [msg ec]. by destruct msg as [| | | |? ? []| | | | | | | | | |]. Qed.

Lemma ex_reachable refuse l : reachable ex_params 1 3 [ex_ct] 0 [] (run_messages l (ex_fresh refuse)).
Proof. apply reachable_run; [apply answered_any|constructor]. Qed.

(** The plaintext 5, 0, 0, .. and the C7 proof of the two parties. *)
Definition ex_plaintext : list Bytes := [encode_vec_u64_to_bytes [5%Z]].

Definition ex_c7 : Proof_ :=
  mkProof DecryptedSharesAggregation [2%Z]
    (field_of (ex_keccak (ex_share 0)) ++ field_of (ex_keccak (ex_share 1)) ++ field_of 1 ++ field_of 2 ++
     field_of 5 ++ concat (replicate 49 (field_of 0))).

Definition ex_c7_signed : AggregationProofSigned :=
  mkAggProofSigned ex_id [mkSigned (mkPayload ex_id C7DecryptedSharesAggregation ex_c7) []].

Definition ex_to_c7 : list (Message * EventContext) :=
  ex_messages ++ [(MComputeResponse ex_id 40 (ThresholdDecryptionResponse ex_plaintext), ex_ctx 0)].

Definition ex_to_end : list (Message * EventContext) :=
  ex_to_c7 ++ [(MAggregationProofSigned ex_c7_signed, ex_ctx 0)].

(** The first share, the refused relabelled one, the second one, the verdict: the batch is sent. *)
Lemma decryption_requests_sound_witness :
  ∃ shares, ThresholdDecryptionRequested 40 [ex_ct] [] 3 1 shares ∈ out (run_messages ex_messages (ex_fresh [])) ∧
    1 < length shares ∧ StronglySorted lt shares.*1.
Proof.
  exists [(0, [ex_share 0]); (1, [ex_share 1])].
  assert (ThresholdDecryptionRequested 40 [ex_ct] [] 3 1 [(0, [ex_share 0]); (1, [ex_share 1])]
    ∈ out (run_messages ex_messages (ex_fresh []))) as Hin.
  { apply list_elem_of_lookup. exists 2. vm_compute. reflexivity. }
  split; [exact Hin|].
  destruct (decryption_requests_sound ex_params 1 3 [ex_ct] 0 [] (run_messages ex_messages (ex_fresh [])) 40 [ex_ct] [] 3 1
    [(0, [ex_share 0]); (1, [ex_share 1])] (ex_reachable [] ex_messages) Hin) as (_ & _ & _ & Hl & Hs & _).
  split; [exact Hl|exact Hs].
Defined.

Definition ex_output : list Bytes := format_decrypted_plaintext ex_plaintext.

(** With proof aggregation: the C7 proof is handed to the aggregation, whose answer is published. *)
Definition ex_agg_params : Params :=
  mkParams ex_id InsecureThreshold64 Minimum true [11; 12; 13]%Z [11; 12]%Z (mkDomain 5 6 7).
Definition ex_agg_proofs : list Proof_ := [mkProof DecryptionAggregator [3%Z] []].
Definition ex_agg_messages : list (Message * EventContext) :=
  ex_to_end ++ [(MComputeResponse ex_id 41 (DecryptionAggregationResponse ex_agg_proofs), ex_ctx 0)].
Local Abbreviation ex_agg_end :=
  (run_messages ex_agg_messages (fresh ex_agg_params 1 3 [ex_ct] 0 [] (ex_ctx 0) true true [] 40)).

Lemma ex_agg_reachable : reachable_with ex_agg_params 1 3 [ex_ct] (λ plaintext, length plaintext = 1) 0 [] ex_agg_end.
Proof. apply reachable_run; [repeat constructor|constructor]. Qed.

Definition ex_jobs : list DecryptionAggregationJob := [mkJob [ex_c6 0; ex_c6 1] [0; 1] ex_c7].

Lemma ex_agg_requested : DecryptionAggregationRequested 41 2 ex_jobs [11; 12; 13]%Z ∈ out ex_agg_end.
Proof. apply list_elem_of_lookup. exists 4. vm_compute. reflexivity. Qed.

Lemma ex_agg_published : PlaintextAggregated ex_output ex_agg_proofs ∈ out ex_agg_end.
Proof. apply list_elem_of_lookup. exists 5. vm_compute. reflexivity. Qed.

Lemma aggregation_publications_sound_witness :
  (length ex_jobs = 1 ∧ ∃ shares : list (nat * list Bytes), StronglySorted lt shares.*1 ∧ 1 < length shares ∧ ∃ party share address,
     shares !! 1 = Some (party, share) ∧ [11; 12; 13]%Z !! party = Some address ∧ address ∈ [11; 12]%Z) ∧
  length ex_output = 1 ∧ length ex_agg_proofs = 1.
Proof.
  destruct (aggregation_publications_sound ex_agg_params 1 3 [ex_ct] 0 [] _ _ ex_agg_reachable ex_agg_requested)
    as (_ & _ & Hjobs & shares & Hs & Hl & Hjob).
  destruct (Hjob 0 (mkJob [ex_c6 0; ex_c6 1] [0; 1] ex_c7) eq_refl) as (_ & _ & Hproof).
  destruct (Hproof 1 (ex_c6 1) eq_refl) as (party & share & address & sp & ct & Hk & Ha & Hh & _).
  split; [split; [exact Hjobs|exists shares; split; [exact Hs|split; [exact Hl|exists party, share, address; split; [exact Hk|split; [exact Ha|exact Hh]]]]]|].
  exact (aggregation_publications_sound ex_agg_params 1 3 [ex_ct] 0 [] _ _ ex_agg_reachable ex_agg_published).
Defined.

Definition ex_c7_world : World Aggregator Publication := run_messages ex_to_c7 (ex_fresh []).

(** The run has reached the C7 phase with the shares of the parties zero and one. *)
Definition in_c7_phase (a : Aggregator) : bool :=
  match p_data (state a), p_data (recovery a) with
  | Some (SGeneratingC7Proof g), Some _ => bool_decide ((g_shares g).*1 = [0; 1])
  | _, _ => false
  end.

Lemma ex_in_c7_phase : in_c7_phase (st ex_c7_world) = true.
Proof. vm_compute. reflexivity. Qed.

Lemma c7_bound_to_batch_witness :
  ∃ g r, p_data (state (st ex_c7_world)) = Some (SGeneratingC7Proof g) ∧
    p_data (recovery (st ex_c7_world)) = Some r ∧ (honest_c6_proofs r).*1 = [0; 1].
Proof.
  pose proof ex_in_c7_phase as Hphase. unfold in_c7_phase in Hphase. revert Hphase.
  generalize (ex_reachable [] ex_to_c7). change (run_messages ex_to_c7 (ex_fresh [])) with ex_c7_world.
  generalize ex_c7_world. intros w Hw Hphase.
  destruct (p_data (state (st w))) as [[| | |g|]|] eqn:Es; try discriminate Hphase.
  destruct (p_data (recovery (st w))) as [r|] eqn:Er; [|discriminate Hphase].
  exists g, r. split; [reflexivity|]. split; [reflexivity|].
  rewrite (proj1 (c7_bound_to_batch ex_params 1 3 [ex_ct] 0 [] w g r Hw Es Er)).
  exact (bool_decide_eq_true_1 _ Hphase).
Defined.

Lemma outcomes_stay_bounded_witness :
  ∃ r, p_data (recovery (st ex_c7_world)) = Some r ∧ size (c6_outcomes r) ≤ 3 ∧ p_stored (recovery (st ex_c7_world)) = Some r.
Proof.
  pose proof ex_in_c7_phase as Hphase. unfold in_c7_phase in Hphase. revert Hphase.
  generalize (ex_reachable [] ex_to_c7). change (run_messages ex_to_c7 (ex_fresh [])) with ex_c7_world.
  generalize ex_c7_world. intros w Hw Hphase.
  destruct (p_data (recovery (st w))) as [r|] eqn:Er;
    [|destruct (p_data (state (st w))) as [[]|]; discriminate Hphase].
  exists r. split; [reflexivity|].
  destruct (outcomes_stay_bounded ex_params 1 3 [ex_ct] 0 [] w r Hw Er) as (Hb & Hs & _).
  split; [exact Hb|exact Hs].
Defined.

(** The batch of both parties, before the verdict. *)
Definition ex_batch : VerifyingC6 :=
  mkVerifyingC6 1 3 {[0 := [ex_share 0]; 1 := [ex_share 1]]} {[0 := [ex_signed 0]; 1 := [ex_signed 1]]}
    [ex_ct] [] 0 ∅ ∅.

Lemma ex_batch_held :
  p_data (state (st (run_messages (take 3 ex_messages) (ex_fresh [])))) = Some (SVerifyingC6 ex_batch).
Proof. vm_compute. reflexivity. Qed.

Lemma ex_batch_ok : state_ok ex_params 1 3 [ex_ct] (λ _, True) (SVerifyingC6 ex_batch).
Proof.
  pose proof (reachable_inv _ _ _ _ _ _ _ (ex_reachable [] (take 3 ex_messages))) as Hi.
  destruct Hi as (_ & _ & _ & s & r & (Hs & _) & _ & Hc & _). rewrite ex_batch_held in Hs. by injection Hs as <-.
Qed.

Lemma retry_shrinks_witness :
  live_of 3 (retry_collection ex_batch {[1]}) ⊂ live_of 3 (SVerifyingC6 ex_batch).
Proof.
  refine (retry_shrinks ex_params 1 3 [ex_ct] ex_batch {[1]} 3 ex_batch_ok _ _ _).
  - intros p Hp. change (v_shares ex_batch) with (<[0 := [ex_share 0]]> ({[1 := [ex_share 1]]} : gmap nat (list Bytes))) in Hp.
    destruct (decide (p = 0)) as [->|]; [lia|]. rewrite lookup_insert_ne in Hp by done.
    destruct (decide (p = 1)) as [->|]; [lia|]. rewrite lookup_singleton_ne in Hp by done. by destruct Hp.
  - apply Nat.leb_le. vm_compute. reflexivity.
  - apply empty_subseteq.
Defined.

Lemma batch_is_frozen_witness :
  ∃ v', member_expelled_transition (SVerifyingC6 ex_batch) 0 = SVerifyingC6 v' ∧ v_shares v' = v_shares ex_batch ∧
    0 ∈ v_rejected_parties v'.
Proof.
  destruct (batch_is_frozen ex_params ex_batch 0 [] [] _ (or_intror eq_refl)) as (v' & E & Hs & _ & _).
  exists v'. split; [exact E|]. split; [exact Hs|]. injection E as <-. cbn. set_solver.
Defined.

(** The publication of the decryption request is refused: the batch is still there. *)
Definition ex_verdict_world : World Aggregator Publication :=
  mkWorld (mkAggregator ex_params (mkPersistable (Some (SVerifyingC6 ex_batch)) None false)
             (mkPersistable (Some default_recovery) None false) true true true default_pending false)
    [false; true] [] 40.

Definition is_ok_result {A E} (r : result A E) : bool := match r with Ok _ => true | Err _ => false end.

Lemma ex_verdict_refused :
  is_ok_result (apply_c6_verification_outcome ex_batch ∅ (ex_ctx 102) ex_verdict_world).1 = false.
Proof. vm_compute. reflexivity. Qed.

Lemma verdict_all_or_nothing_witness :
  state (st (apply_c6_verification_outcome ex_batch ∅ (ex_ctx 102) ex_verdict_world).2) = state (st ex_verdict_world).
Proof.
  pose proof (verdict_all_or_nothing ex_batch ∅ (ex_ctx 102) ex_verdict_world None default_recovery None eq_refl eq_refl
    ltac:(apply Nat.ltb_lt; vm_compute; reflexivity)) as Hv.
  pose proof ex_verdict_refused as Hr. revert Hv Hr.
  generalize (apply_c6_verification_outcome ex_batch ∅ (ex_ctx 102) ex_verdict_world). intros [[x|e] w'] Hv Hr.
  - discriminate Hr.
  - exact (proj1 Hv).
Defined.
