(* ===== verification/Hamt.v ===== *)
(** * The hash array mapped trie

    Model of crates/hamt/src/lib.rs, the persistent map behind the in-memory store.  The hash of a
    key, which the standard library does not specify, is the parameter [KeyHash].  A panic is a
    value of [Outcome]: an index out of range, a shift by the width of the word, a size below
    zero and the [unreachable!()] of the insertion. *)

From S2P Require Import Prelude.
Local Open Scope Z_scope.

(** ** Outcomes of code that can panic *)

(** [OutOfFuel] stands for a recursion that the model gave up on. *)
Inductive Outcome (A : Type) := Done (x : A) | Panic | OutOfFuel.
Arguments Done {A} _.
Arguments Panic {A}.
Arguments OutOfFuel {A}.

Definition obind {A B} (o : Outcome A) (f : A → Outcome B) : Outcome B :=
  match o with Done x => f x | Panic => Panic | OutOfFuel => OutOfFuel end.

Notation "'let!' x := o 'in' k" := (obind o (λ x, k)) (at level 200, x pattern, o at level 100, k at level 200) : interfold_scope.

(** ** Bitmaps *)

Definition BITS_PER_LEVEL : Z := 5.
Definition CHUNK_SIZE : Z := 32.
Definition CHUNK_MASK : Z := CHUNK_SIZE - 1.

(** [u32::count_ones] *)
Definition count_ones (z : Z) : nat := length (List.filter (λ i, Z.testbit z (Z.of_nat i)) (seq 0 32)).

(** [hash >> shift] of a [u64] panics at the width of the word. *)
Definition chunk (hash shift : Z) : Outcome Z :=
  if shift <? 64 then Done (Z.land (Z.shiftr hash shift) CHUNK_MASK) else Panic.

(** [1u32 << chunk] *)
Definition bit_of (c : Z) : Z := Z.shiftl 1 c mod 2 ^ 32.

Definition index_from_bitmap (bitmap bit : Z) : nat := count_ones (Z.land bitmap (bit - 1)).

(** [!bit] of a [u32] *)
Definition not_u32 (z : Z) : Z := Z.lxor z (2 ^ 32 - 1).

(** ** Nodes *)

Inductive Node (K V : Type) :=
| Empty
| Leaf (hash : Z) (key : K) (value : V)
| Internal (bitmap : Z) (children : list (Node K V))
| Collision (hash : Z) (entries : list (K * V)).
Arguments Empty {K V}.
Arguments Leaf {K V} _ _ _.
Arguments Internal {K V} _ _.
Arguments Collision {K V} _ _.

Record Hamt (K V : Type) := mkHamt { root : Node K V; hsize : Z }.
Arguments mkHamt {K V} _ _.
Arguments root {K V} _.
Arguments hsize {K V} _.

(** The hash of a key, a [u64]. *)
Class KeyHash (K : Type) := { hash_key : K → Z; hash_range : ∀ k, 0 <= hash_key k < 2 ^ 64 }.

(** [v.insert(i, x)] and [v.remove(i)] panic out of range. *)
Definition vec_insert {A} (i : nat) (x : A) (l : list A) : Outcome (list A) :=
  if (i <=? length l)%nat then Done (take i l ++ x :: drop i l) else Panic.
Definition vec_remove {A} (i : nat) (l : list A) : Outcome (list A) :=
  if (i <? length l)%nat then Done (take i l ++ drop (S i) l) else Panic.
(** [v[i] = x] *)
Definition vec_set {A} (i : nat) (x : A) (l : list A) : Outcome (list A) :=
  if (i <? length l)%nat then Done (<[i := x]> l) else Panic.

Section Ops.
Context {K V : Type} `{EqDecision K}.
Local Abbreviation N := (Node K V).

Definition same_key (key : K) (e : K * V) : bool := bool_decide (e.1 = key).

Fixpoint insert_rec (fuel : nat) (node : N) (hash : Z) (key : K) (value : V) (shift : Z) : Outcome N :=
  match fuel with
  | O => OutOfFuel
  | S fuel' =>
      match node with
      | Empty => Done (Leaf hash key value)
      | Leaf existing_hash existing_key existing_value =>
          if existing_hash =? hash then
            if bool_decide (existing_key = key) then Done (Leaf hash key value)
            else Done (Collision hash [(existing_key, existing_value); (key, value)])
          else
            let! new_node := insert_rec fuel' (Internal 0 []) existing_hash existing_key existing_value shift in
            insert_rec fuel' new_node hash key value shift
      | Internal bitmap children =>
          let! c := chunk hash shift in
          let bit := bit_of c in
          let index := index_from_bitmap bitmap bit in
          if Z.land bitmap bit =? 0 then
            let! new_children := vec_insert index (Leaf hash key value) children in
            Done (Internal (Z.lor bitmap bit) new_children)
          else match children !! index with
          | None => Panic
          | Some child =>
              let! new_child := insert_rec fuel' child hash key value (shift + BITS_PER_LEVEL) in
              let! new_children := vec_set index new_child children in
              Done (Internal bitmap new_children)
          end
      | Collision collision_hash entries =>
          if collision_hash =? hash then
            match position (same_key key) entries with
            | Some pos => let! new_entries := vec_set pos (key, value) entries in Done (Collision collision_hash new_entries)
            | None => Done (Collision collision_hash (entries ++ [(key, value)]))
            end
          else Panic
      end
  end.

(** The recursion into [children[index]]. *)
Fixpoint get_rec (node : N) (hash : Z) (key : K) (shift : Z) : Outcome (option V) :=
  match node with
  | Empty => Done None
  | Leaf leaf_hash leaf_key leaf_value =>
      Done (if (leaf_hash =? hash) && bool_decide (leaf_key = key) then Some leaf_value else None)
  | Internal bitmap children =>
      let! c := chunk hash shift in
      let bit := bit_of c in
      if Z.land bitmap bit =? 0 then Done None
      else
        (fix visit (l : list N) (i : nat) : Outcome (option V) :=
           match l, i with
           | [], _ => Panic
           | child :: _, O => get_rec child hash key (shift + BITS_PER_LEVEL)
           | _ :: l', S i' => visit l' i'
           end) children (index_from_bitmap bitmap bit)
  | Collision collision_hash entries =>
      Done (if collision_hash =? hash then snd <$> List.find (same_key key) entries else None)
  end.

(** [None]: the key is absent. *)
Fixpoint remove_rec (node : N) (hash : Z) (key : K) (shift : Z) : Outcome (option N) :=
  match node with
  | Empty => Done None
  | Leaf leaf_hash leaf_key _ =>
      Done (if (leaf_hash =? hash) && bool_decide (leaf_key = key) then Some Empty else None)
  | Collision collision_hash entries =>
      if negb (collision_hash =? hash) then Done None
      else match position (same_key key) entries with
      | None => Done None
      | Some idx =>
          let! remaining := vec_remove idx entries in
          match remaining with
          | [(k, v)] => Done (Some (Leaf collision_hash k v))
          | _ => Done (Some (Collision collision_hash remaining))
          end
      end
  | Internal bitmap children =>
      let! c := chunk hash shift in
      let bit := bit_of c in
      if Z.land bitmap bit =? 0 then Done None
      else
        let index := index_from_bitmap bitmap bit in
        let! result :=
          (fix visit (l : list N) (i : nat) : Outcome (option N) :=
             match l, i with
             | [], _ => Panic
             | child :: _, O => remove_rec child hash key (shift + BITS_PER_LEVEL)
             | _ :: l', S i' => visit l' i'
             end) children index in
        match result with
        | None => Done None
        | Some Empty =>
            let new_bitmap := Z.land bitmap (not_u32 bit) in
            if new_bitmap =? 0 then Done (Some Empty)
            else
              let! new_children := vec_remove index children in
              Done (Some (Internal new_bitmap new_children))
        | Some new_child =>
            let! new_children := vec_set index new_child children in
            Done (Some (Internal bitmap new_children))
        end
  end.

Fixpoint collect_entries (node : N) (out : list (K * V)) : list (K * V) :=
  match node with
  | Empty => out
  | Leaf _ key value => out ++ [(key, value)]
  | Internal _ children => fold_left (λ out child, collect_entries child out) children out
  | Collision _ entries => fold_left (λ out e, out ++ [e]) entries out
  end.

Context `{KeyHash K}.

(** The deepest path has thirteen nodes below the root, and each can first become a leaf. *)
Definition insert_fuel : nat := 32.

Definition new : Hamt K V := mkHamt Empty 0.

Definition insert (m : Hamt K V) (key : K) (value : V) : Outcome (Hamt K V) :=
  let hash := hash_key key in
  let! found := get_rec (root m) hash key 0 in
  let! new_root := insert_rec insert_fuel (root m) hash key value 0 in
  Done (mkHamt new_root match found with None => hsize m + 1 | Some _ => hsize m end).

Definition get (m : Hamt K V) (key : K) : Outcome (option V) := get_rec (root m) (hash_key key) key 0.

(** [self.size - 1] panics at zero. *)
Definition remove (m : Hamt K V) (key : K) : Outcome (Hamt K V) :=
  let! result := remove_rec (root m) (hash_key key) key 0 in
  match result with
  | Some new_root => if hsize m =? 0 then Panic else Done (mkHamt new_root (hsize m - 1))
  | None => Done m
  end.

Definition entries (m : Hamt K V) : list (K * V) := collect_entries (root m) [].
Definition len (m : Hamt K V) : Z := hsize m.
Definition is_empty (m : Hamt K V) : bool := hsize m =? 0.
End Ops.
