(* ===== verification/HamtProps.v ===== *)
(** * The hash array mapped trie refines a finite map

    The shape invariant of the trie, what each operation does to the entries, and the theorems:
    a run that does not panic behaves as the finite map, a run whose keys have distinct hashes
    does not panic, and a collision makes a later insertion panic. *)

From S2P Require Import Prelude Hamt.
Local Open Scope Z_scope.

(** ** The positions of a bitmap *)

Definition bit_set (bm : Z) (i : nat) : bool := Z.testbit bm (Z.of_nat i).
Definition bits (bm : Z) : list nat := List.filter (bit_set bm) (seq 0 32).
Definition before (bm : Z) (c : nat) : list nat := List.filter (bit_set bm) (seq 0 c).
Definition after (bm : Z) (c : nat) : list nat := List.filter (bit_set bm) (seq (S c) (31 - c)).

Lemma bits_split bm c : (c < 32)%nat → bits bm = before bm c ++ (if bit_set bm c then [c] else []) ++ after bm c.
Proof.
  intros Hc. unfold bits, before, after. replace 32%nat with (c + S (31 - c))%nat at 1 by lia.
  rewrite seq_app, List.filter_app. cbn [seq List.filter]. rewrite Nat.add_0_l. by destruct (bit_set bm c).
Qed.

Lemma bit_of_pow c : (c < 32)%nat → bit_of (Z.of_nat c) = 2 ^ Z.of_nat c.
Proof.
  intros Hc. unfold bit_of. rewrite Z.shiftl_1_l. apply Z.mod_small. split; [lia|].
  apply Z.pow_lt_mono_r; lia.
Qed.

Lemma testbit_pow c i : Z.testbit (2 ^ Z.of_nat c) (Z.of_nat i) = (c =? i)%nat.
Proof.
  rewrite Z.pow2_bits_eqb by lia. destruct (Nat.eqb_spec c i); [subst; apply Z.eqb_refl|]. apply Z.eqb_neq. lia.
Qed.

Lemma land_pow bm c : (Z.land bm (2 ^ Z.of_nat c) =? 0) = negb (bit_set bm c).
Proof.
  unfold bit_set. destruct (Z.testbit bm (Z.of_nat c)) eqn:E; cbn.
  - apply Z.eqb_neq. intros E0. apply (f_equal (λ z, Z.testbit z (Z.of_nat c))) in E0.
    rewrite Z.land_spec, E, testbit_pow, Nat.eqb_refl, Z.bits_0 in E0. done.
  - apply Z.eqb_eq, Z.bits_inj'. intros n Hn. rewrite Z.land_spec, Z.bits_0, Z.pow2_bits_eqb by lia.
    destruct (Z.eqb_spec (Z.of_nat c) n) as [<-|]; [by rewrite E|apply andb_false_r].
Qed.

Lemma index_before bm c : (c < 32)%nat → index_from_bitmap bm (2 ^ Z.of_nat c) = length (before bm c).
Proof.
  intros Hc. unfold index_from_bitmap, count_ones, before.
  replace (2 ^ Z.of_nat c - 1) with (Z.ones (Z.of_nat c)) by (rewrite Z.ones_equiv; lia).
  replace 32%nat with (c + (32 - c))%nat by lia. rewrite seq_app, List.filter_app, length_app.
  rewrite (List.filter_ext_in _ (bit_set bm) (seq 0 c)).
  - rewrite (List.filter_ext_in _ (λ _, false) (seq (0 + c) (32 - c))); [rewrite List.filter_false; cbn; lia|].
    intros i Hi%in_seq. rewrite Z.land_spec, Z.ones_spec_high by lia. apply andb_false_r.
  - intros i Hi%in_seq. rewrite Z.land_spec, Z.ones_spec_low by lia. apply andb_true_r.
Qed.

Lemma filter_bits_ext bm bm' c l : (∀ i, i ≠ c → bit_set bm i = bit_set bm' i) → ¬ In c l →
  List.filter (bit_set bm) l = List.filter (bit_set bm') l.
Proof. intros Hb Hc. apply List.filter_ext_in. intros i Hi. apply Hb. by intros ->. Qed.

(** A bitmap that differs only at one position. *)
Lemma bits_other bm bm' c : (c < 32)%nat → (∀ i, (i < 32)%nat → i ≠ c → bit_set bm i = bit_set bm' i) →
  before bm c = before bm' c ∧ after bm c = after bm' c.
Proof.
  intros Hc Hb. split; apply List.filter_ext_in; intros i Hi%in_seq; apply Hb; lia.
Qed.

Lemma bit_set_lor bm c i : bit_set (Z.lor bm (2 ^ Z.of_nat c)) i = bit_set bm i || (c =? i)%nat.
Proof. unfold bit_set. by rewrite Z.lor_spec, testbit_pow. Qed.

Lemma bit_set_clear bm c i : (i < 32)%nat →
  bit_set (Z.land bm (not_u32 (2 ^ Z.of_nat c))) i = bit_set bm i && negb (c =? i)%nat.
Proof.
  intros Hi. unfold bit_set, not_u32. rewrite Z.land_spec, Z.lxor_spec, testbit_pow.
  replace (2 ^ 32 - 1) with (Z.ones 32) by done. rewrite Z.ones_spec_low by lia. by destruct (c =? i)%nat.
Qed.

(** ** Paths *)

(** The shift at a level: thirteen at the root, zero below the last chunk. *)
Definition shift_of (l : nat) : Z := 5 * (13 - Z.of_nat l).

Lemma shift_next l : shift_of (S l) + BITS_PER_LEVEL = shift_of l.
Proof. unfold shift_of, BITS_PER_LEVEL. lia. Qed.

Lemma pow_next l : (S l ≤ 13)%nat → 2 ^ shift_of l = 2 ^ shift_of (S l) * 32.
Proof. intros Hl. rewrite <- (shift_next l). unfold BITS_PER_LEVEL. rewrite Z.pow_add_r; unfold shift_of; lia. Qed.

Lemma pow_shift_pos l : (l ≤ 13)%nat → 0 < 2 ^ shift_of l.
Proof. intros. apply Z.pow_pos_nonneg; unfold shift_of; lia. Qed.

(** The chunk at a level is the next digit of the hash. *)
Lemma chunk_spec l h : (S l ≤ 13)%nat → 0 <= h → ∃ c : nat, (c < 32)%nat ∧ chunk h (shift_of (S l)) = Done (Z.of_nat c) ∧
  h mod 2 ^ shift_of l = h mod 2 ^ shift_of (S l) + Z.of_nat c * 2 ^ shift_of (S l).
Proof.
  intros Hl Hh. set (s := shift_of (S l)). assert (0 <= s < 64) as Hs by (unfold s, shift_of; lia).
  exists (Z.to_nat ((h / 2 ^ s) mod 32)).
  assert (0 <= (h / 2 ^ s) mod 32 < 32) as Hc by (apply Z.mod_pos_bound; lia).
  split; [lia|]. rewrite Z2Nat.id by lia. split.
  - unfold chunk. rewrite (proj2 (Z.ltb_lt _ _)) by lia. unfold CHUNK_MASK, CHUNK_SIZE.
    change (32 - 1) with (Z.ones 5). rewrite Z.land_ones, Z.shiftr_div_pow2 by lia. done.
  - fold s. rewrite pow_next by done. fold s. rewrite Z.rem_mul_r by lia. lia.
Qed.

(** ** Nodes *)

Section Entries.
Context {K V : Type} `{EqDecision K}.
Local Abbreviation N := (Node K V).

Lemma Node_nested_ind (P : N → Prop) :
  P Empty → (∀ h k v, P (Leaf h k v)) → (∀ bm cs, Forall P cs → P (Internal bm cs)) → (∀ h es, P (Collision h es)) →
  ∀ n, P n.
Proof.
  intros He Hl Hi Hc. fix IH 1. intros [|h k v|bm cs|h es]; [done|apply Hl| |apply Hc].
  apply Hi. induction cs as [|c cs IHcs]; [constructor|]. constructor; [apply IH|exact IHcs].
Qed.

Definition ents (n : N) : list (K * V) := collect_entries n [].

Lemma collect_app (n : N) out : collect_entries n out = out ++ ents n.
Proof.
  unfold ents. revert out. induction n as [|h k v|bm cs IH|h es] using Node_nested_ind; intros out; cbn [collect_entries].
  - by rewrite app_nil_r.
  - done.
  - revert out. induction IH as [|c cs Hc _ IHcs]; intros out; cbn [fold_left]; [by rewrite app_nil_r|].
    rewrite IHcs, (IHcs (collect_entries c [])), Hc. by rewrite app_assoc.
  - revert out. induction es as [|e es IHes]; intros out; cbn [fold_left]; [by rewrite app_nil_r|].
    rewrite IHes, (IHes ([] ++ [e])). by rewrite <- app_assoc.
Qed.

Lemma ents_internal bm (cs : list N) : ents (Internal bm cs) = flat_map ents cs.
Proof.
  unfold ents at 1. cbn [collect_entries].
  assert (∀ out, fold_left (λ out c, collect_entries c out) cs out = out ++ flat_map ents cs) as H; [|by rewrite H].
  induction cs as [|c cs IH]; intros out; cbn [fold_left flat_map]; [by rewrite app_nil_r|].
  rewrite IH, collect_app. by rewrite app_assoc.
Qed.

Lemma ents_collision h (es : list (K * V)) : ents (Collision h es) = es.
Proof.
  unfold ents. cbn [collect_entries].
  assert (∀ out, fold_left (λ out (e : K * V), out ++ [e]) es out = out ++ es) as H; [|by rewrite H].
  induction es as [|e es IH]; intros out; cbn [fold_left]; [by rewrite app_nil_r|]. by rewrite IH, <- app_assoc.
Qed.

(** The child that the recursion visits. *)
Lemma get_visit (cs : list N) i h k s :
  (fix visit (l : list N) (i : nat) : Outcome (option V) :=
     match l, i with
     | [], _ => Panic
     | child :: _, O => get_rec child h k s
     | _ :: l', S i' => visit l' i'
     end) cs i = match cs !! i with Some c => get_rec c h k s | None => Panic end.
Proof. revert i. induction cs as [|c cs IH]; intros [|i]; done. Qed.

Lemma remove_visit (cs : list N) i h k s :
  (fix visit (l : list N) (i : nat) : Outcome (option N) :=
     match l, i with
     | [], _ => Panic
     | child :: _, O => remove_rec child h k s
     | _ :: l', S i' => visit l' i'
     end) cs i = match cs !! i with Some c => remove_rec c h k s | None => Panic end.
Proof. revert i. induction cs as [|c cs IH]; intros [|i]; done. Qed.
End Entries.

(** ** The invariant *)

Section Wf.
Context {K V : Type} `{EqDecision K} `{KeyHash K}.
Local Abbreviation N := (Node K V).

(** The trie of the keys whose hash ends in the digits [p], with [l] levels left. *)
Fixpoint wf (l : nat) (p : Z) (n : N) : Prop :=
  match n with
  | Empty => True
  | Leaf h k v => h = hash_key k ∧ h mod 2 ^ shift_of l = p
  | Collision h es =>
      h mod 2 ^ shift_of l = p ∧ (2 ≤ length es)%nat ∧ NoDup es.*1 ∧ Forall (λ e, hash_key e.1 = h) es
  | Internal bm cs =>
      match l with
      | O => False
      | S l' => Forall2 (λ c child, wf l' (p + Z.of_nat c * 2 ^ shift_of l) child) (bits bm) cs
      end
  end.

Lemma wf_leaf l p h k v : wf l p (Leaf h k v) ↔ h = hash_key k ∧ h mod 2 ^ shift_of l = p.
Proof. by destruct l. Qed.

Lemma wf_collision l p h es : wf l p (Collision h es) ↔
  h mod 2 ^ shift_of l = p ∧ (2 ≤ length es)%nat ∧ NoDup es.*1 ∧ Forall (λ e, hash_key e.1 = h) es.
Proof. by destruct l. Qed.

Lemma wf_empty l p : wf l p Empty.
Proof. by destruct l. Qed.

Local Abbreviation at_path l p k := (hash_key k mod 2 ^ shift_of l = p).

Lemma lookup_digit l k : (S l ≤ 13)%nat → ∃ c : nat, (c < 32)%nat ∧ chunk (hash_key k) (shift_of (S l)) = Done (Z.of_nat c) ∧
  ∀ p, at_path (S l) p k → at_path l (p + Z.of_nat c * 2 ^ shift_of (S l)) k.
Proof.
  intros Hl. destruct (chunk_spec l (hash_key k) Hl) as (c & Hc & Ech & Em); [apply hash_range|].
  exists c. split; [done|]. split; [done|]. intros p <-. exact Em.
Qed.

Lemma digit_inj l p c c' : (S l ≤ 13)%nat →
  p + Z.of_nat c * 2 ^ shift_of (S l) = p + Z.of_nat c' * 2 ^ shift_of (S l) → c = c'.
Proof. intros Hl E. pose proof (pow_shift_pos (S l) Hl). nia. Qed.

Definition prefix (l : nat) (p : Z) : Prop := 0 <= p < 2 ^ shift_of l.

Lemma prefix_next l p c : (S l ≤ 13)%nat → prefix (S l) p → (c < 32)%nat → prefix l (p + Z.of_nat c * 2 ^ shift_of (S l)).
Proof. unfold prefix. intros Hl Hp Hc. rewrite (pow_next l) by done. pose proof (pow_shift_pos (S l) Hl). nia. Qed.

Lemma path_up l p c h : (S l ≤ 13)%nat → prefix (S l) p →
  h mod 2 ^ shift_of l = p + Z.of_nat c * 2 ^ shift_of (S l) → h mod 2 ^ shift_of (S l) = p.
Proof.
  intros Hl Hp E. pose proof (pow_shift_pos (S l) Hl) as Hpos.
  rewrite <- (Z.mod_small p (2 ^ shift_of (S l))) by exact Hp.
  rewrite <- (Z.mod_add p (Z.of_nat c) (2 ^ shift_of (S l))) by lia. rewrite <- E, (pow_next l) by done.
  symmetry. rewrite Z.rem_mul_r by lia. rewrite Z.mul_comm, Z.mod_add by lia. apply Z.mod_mod. lia.
Qed.

Lemma elem_of_bits bm c : c ∈ bits bm → (c < 32)%nat ∧ bit_set bm c = true.
Proof. unfold bits. rewrite list_elem_of_In, filter_In, in_seq. intros [Hc Hb]. split; [lia|exact Hb]. Qed.

Lemma bits_lt bm i c : bits bm !! i = Some c → (c < 32)%nat.
Proof. intros Hi. by apply (elem_of_bits bm), list_elem_of_lookup_2 with i. Qed.

Lemma bits_0 : bits 0 = [].
Proof. done. Qed.

Opaque shift_of bits.

(** The child of an internal node, with its digit. *)
Lemma wf_child l p bm (cs : list N) e : wf (S l) p (Internal bm cs) → e ∈ ents (Internal bm cs) →
  ∃ i c child, bits bm !! i = Some c ∧ cs !! i = Some child ∧ wf l (p + Z.of_nat c * 2 ^ shift_of (S l)) child ∧ e ∈ ents child.
Proof.
  cbn [wf]. rewrite ents_internal. intros Hwf He. apply elem_of_flat_map in He as (child & Hc & He).
  apply list_elem_of_lookup in Hc as [i Hi]. destruct (Forall2_lookup_r _ _ _ _ _ Hwf Hi) as (c & Hci & Hw).
  by exists i, c, child.
Qed.

Lemma wf_hash l : (l ≤ 13)%nat → ∀ p n e, prefix l p → wf l p n → e ∈ ents n → at_path l p e.1.
Proof.
  induction l as [l IH] using lt_wf_ind. intros Hl p [|h k v|bm cs|h es] e Hp Hwf He.
  - by apply not_elem_of_nil in He.
  - apply list_elem_of_singleton in He as ->. apply wf_leaf in Hwf as [E1 E2]. cbn [fst]. by rewrite <- E1.
  - destruct l as [|l]; [done|]. destruct (wf_child _ _ _ _ _ Hwf He) as (i & c & child & Hb & Hi & Hw & Hc).
    pose proof (bits_lt _ _ _ Hb).
    apply (path_up l p c); [done..|]. apply (IH l ltac:(lia) ltac:(lia) _ child); [by apply prefix_next|done..].
  - rewrite ents_collision in He. apply wf_collision in Hwf as (E & _ & _ & Hh). rewrite Forall_forall in Hh. by rewrite (Hh _ He).
Qed.

(** Different slots hold different keys. *)
Lemma wf_slot l p bm (cs : list N) e c i : (S l ≤ 13)%nat → prefix (S l) p → wf (S l) p (Internal bm cs) →
  cs !! i = Some c → e ∈ ents c → ∃ d, bits bm !! i = Some d ∧ at_path l (p + Z.of_nat d * 2 ^ shift_of (S l)) e.1.
Proof.
  cbn [wf]. intros Hl Hp Hwf Hi He. destruct (Forall2_lookup_r _ _ _ _ _ Hwf Hi) as (d & Hd & Hw). exists d. split; [done|].
  pose proof (bits_lt _ _ _ Hd).
  eapply (wf_hash l ltac:(lia) _ c); [by apply prefix_next|done..].
Qed.

Lemma NoDup_bits bm : NoDup (bits bm).
Proof. Transparent bits. unfold bits. apply NoDup_ListNoDup, List.NoDup_filter, seq_NoDup. Qed.
Opaque bits.

Lemma NoDup_flat_map {A B} (f : A → list B) (l : list A) :
  (∀ i x, l !! i = Some x → NoDup (f x)) →
  (∀ i j x y z, l !! i = Some x → l !! j = Some y → z ∈ f x → z ∈ f y → i = j) → NoDup (flat_map f l).
Proof.
  induction l as [|x l IH]; intros Hnd Hdis; [constructor|]. cbn [flat_map]. apply NoDup_app. split; [by apply (Hnd 0%nat)|].
  split.
  - intros z Hz Hz'. apply elem_of_flat_map in Hz' as (y & Hy & Hz'). apply list_elem_of_lookup in Hy as [j Hj].
    by specialize (Hdis 0%nat (S j) x y z eq_refl Hj Hz Hz').
  - apply IH; [intros i; apply (Hnd (S i))|]. intros i j a b z Hi Hj Ha Hb.
    specialize (Hdis (S i) (S j) a b z Hi Hj Ha Hb). lia.
Qed.

Lemma fmap_flat_map {A B C} (g : B → C) (f : A → list B) l : g <$> flat_map f l = flat_map (λ x, g <$> f x) l.
Proof. induction l as [|x l IH]; [done|]. cbn [flat_map]. by rewrite fmap_app, IH. Qed.

Lemma wf_NoDup l : (l ≤ 13)%nat → ∀ p n, prefix l p → wf l p n → NoDup (ents n).*1.
Proof.
  induction l as [l IH] using lt_wf_ind. intros Hl p [|h k v|bm cs|h es] Hp Hwf.
  - constructor.
  - apply NoDup_singleton.
  - destruct l as [|l]; [done|]. rewrite ents_internal, fmap_flat_map. apply NoDup_flat_map.
    + intros i c Hi. pose proof Hwf as Hw. cbn [wf] in Hw. destruct (Forall2_lookup_r _ _ _ _ _ Hw Hi) as (d & Hd & Hwc).
      pose proof (bits_lt _ _ _ Hd). apply (IH l ltac:(lia) ltac:(lia) _ _ ltac:(by apply prefix_next) Hwc).
    + intros i j x y k Hi Hj Hx Hy. apply list_elem_of_fmap in Hx as (e & -> & Hx), Hy as (e' & E & Hy).
      destruct (wf_slot _ _ _ _ _ _ _ Hl Hp Hwf Hi Hx) as (d & Hd & E1), (wf_slot _ _ _ _ _ _ _ Hl Hp Hwf Hj Hy) as (d' & Hd' & E2).
      rewrite <- E, E1 in E2. apply digit_inj in E2 as ->; [|done].
      by eapply NoDup_lookup; [apply (NoDup_bits bm)|..].
  - rewrite ents_collision. by apply wf_collision in Hwf as (_ & _ & Hnd & _).
Qed.

Lemma NoDup_fst_inj (es : list (K * V)) k v v' : NoDup es.*1 → (k, v) ∈ es → (k, v') ∈ es → v' = v.
Proof.
  intros Hnd Hv Hv'. apply list_elem_of_lookup in Hv as [i Hi], Hv' as [j Hj].
  assert (i = j) as <-; [|congruence]. eapply NoDup_lookup; [exact Hnd|..]; rewrite list_lookup_fmap; [by rewrite Hi|by rewrite Hj].
Qed.

(** ** Splitting the children at a digit *)

Lemma split_slot {P : nat → N → Prop} bm cs c : (c < 32)%nat → bit_set bm c = true → Forall2 P (bits bm) cs →
  ∃ left child right, cs = left ++ child :: right ∧ length left = index_from_bitmap bm (2 ^ Z.of_nat c) ∧
    Forall2 P (before bm c) left ∧ P c child ∧ Forall2 P (after bm c) right.
Proof.
  intros Hc Hb. rewrite (bits_split bm c Hc), Hb. cbn [app]. intros Hf.
  apply Forall2_app_inv_l in Hf as (left & rest & Hl & Hr & ->). apply Forall2_cons_inv_l in Hr as (child & right & Hp & Hr & ->).
  exists left, child, right. rewrite index_before by done. by rewrite (Forall2_length _ _ _ Hl).
Qed.

Lemma split_gap {P : nat → N → Prop} bm cs c : (c < 32)%nat → bit_set bm c = false → Forall2 P (bits bm) cs →
  ∃ left right, cs = left ++ right ∧ length left = index_from_bitmap bm (2 ^ Z.of_nat c) ∧
    Forall2 P (before bm c) left ∧ Forall2 P (after bm c) right.
Proof.
  intros Hc Hb. rewrite (bits_split bm c Hc), Hb. cbn [app]. intros Hf.
  apply Forall2_app_inv_l in Hf as (left & right & Hl & Hr & ->). exists left, right.
  rewrite index_before by done. by rewrite (Forall2_length _ _ _ Hl).
Qed.

Lemma join_slot {P : nat → N → Prop} bm c left child right : (c < 32)%nat → bit_set bm c = true →
  Forall2 P (before bm c) left → P c child → Forall2 P (after bm c) right → Forall2 P (bits bm) (left ++ child :: right).
Proof. intros Hc Hb Hl Hp Hr. rewrite (bits_split bm c Hc), Hb. apply Forall2_app; [done|]. by constructor. Qed.

Lemma vec_set_middle {A} (left right : list A) x y : vec_set (length left) y (left ++ x :: right) = Done (left ++ y :: right).
Proof.
  unfold vec_set. rewrite length_app. cbn [length]. rewrite (proj2 (Nat.ltb_lt _ _)) by lia. f_equal.
  rewrite <- (Nat.add_0_r (length left)). by rewrite insert_app_r.
Qed.

Lemma vec_insert_middle {A} (left right : list A) y : vec_insert (length left) y (left ++ right) = Done (left ++ y :: right).
Proof.
  unfold vec_insert. rewrite length_app, (proj2 (Nat.leb_le _ _)) by lia. by rewrite take_app_length, drop_app_length.
Qed.

Lemma vec_remove_middle {A} (left right : list A) x : vec_remove (length left) (left ++ x :: right) = Done (left ++ right).
Proof.
  unfold vec_remove. rewrite length_app. cbn [length]. rewrite (proj2 (Nat.ltb_lt _ _)) by lia. f_equal.
  rewrite take_app_length. by rewrite <- (Nat.add_1_r (length left)), drop_app_add.
Qed.

(** The key of a child sits in the digit of its own hash. *)
Lemma in_slot l p bm (left right : list N) child c e k : (S l ≤ 13)%nat → (c < 32)%nat → prefix (S l) p →
  Forall2 (λ c child, wf l (p + Z.of_nat c * 2 ^ shift_of (S l)) child) (before bm c) left →
  Forall2 (λ c child, wf l (p + Z.of_nat c * 2 ^ shift_of (S l)) child) (after bm c) right →
  at_path l (p + Z.of_nat c * 2 ^ shift_of (S l)) k → e.1 = k →
  (e ∈ flat_map ents (left ++ child :: right) ↔ e ∈ ents child) ∧ (e ∈ flat_map ents (left ++ right) ↔ False).
Proof.
  intros Hl Hc Hp Hf1 Hf2 Hk <-.
  assert (∀ bs cs d, Forall2 (λ c child, wf l (p + Z.of_nat c * 2 ^ shift_of (S l)) child) bs cs →
    (∀ b, b ∈ bs → (b < 32)%nat ∧ b ≠ c) → d ∈ cs → e ∈ ents d → False) as Hother.
  { intros bs cs d Hf Hb Hd He. apply list_elem_of_lookup in Hd as [i Hi].
    destruct (Forall2_lookup_r _ _ _ _ _ Hf Hi) as (b & Hbi & Hw). destruct (Hb b) as [Hb32 Hne]; [by apply list_elem_of_lookup_2 with i|].
    apply Hne. apply (digit_inj l p); [done|]. rewrite <- Hk. symmetry.
    apply (wf_hash l ltac:(lia) _ d); [by apply prefix_next|done..]. }
  assert (∀ b, b ∈ before bm c → (b < 32)%nat ∧ b ≠ c) as Hb1.
  { intros b. unfold before. rewrite list_elem_of_In, filter_In, in_seq. lia. }
  assert (∀ b, b ∈ after bm c → (b < 32)%nat ∧ b ≠ c) as Hb2.
  { intros b. unfold after. rewrite list_elem_of_In, filter_In, in_seq. lia. }
  rewrite !elem_of_flat_map. split; split.
  - intros (d & Hd & He). apply elem_of_app in Hd as [Hd|[->|Hd]%elem_of_cons]; [|done|]; exfalso; [exact (Hother _ _ d Hf1 Hb1 Hd He)|exact (Hother _ _ d Hf2 Hb2 Hd He)].
  - intros He. exists child. split; [apply elem_of_app; right; by left|done].
  - intros (d & Hd & He). apply elem_of_app in Hd as [Hd|Hd]; [exact (Hother _ _ d Hf1 Hb1 Hd He)|exact (Hother _ _ d Hf2 Hb2 Hd He)].
  - done.
Qed.

(** ** Looking up *)

Lemma get_spec l : (l ≤ 13)%nat → ∀ p n k, prefix l p → wf l p n → at_path l p k →
  ∃ r, get_rec n (hash_key k) k (shift_of l) = Done r ∧ ∀ v, r = Some v ↔ (k, v) ∈ ents n.
Proof.
  induction l as [l IH] using lt_wf_ind. intros Hl p [|h k' v'|bm cs|h es] k Hp Hwf Hk.
  - exists None. split; [done|]. intros v. split; [done|]. by intros ?%not_elem_of_nil.
  - eexists. split; [reflexivity|]. apply wf_leaf in Hwf as [-> _]. intros v. unfold ents. cbn. rewrite list_elem_of_singleton.
    destruct (Z.eqb_spec (hash_key k') (hash_key k)); cbn [andb]; [case_bool_decide; naive_solver|].
    split; [done|]. intros [= -> ->]. done.
  - destruct l as [|l]; [done|]. cbn [get_rec]. destruct (lookup_digit l k Hl) as (c & Hc & Ec & Hd). rewrite Ec. cbn [obind].
    rewrite bit_of_pow, land_pow by done. specialize (Hd p Hk). cbn [wf] in Hwf. destruct (bit_set bm c) eqn:Hb; cbn [negb].
    + destruct (split_slot bm cs c Hc Hb Hwf) as (left & child & right & -> & Hlen & Hf1 & Hw & Hf2).
      rewrite get_visit, <- Hlen, list_lookup_middle by done. rewrite shift_next.
      destruct (IH l ltac:(lia) ltac:(lia) _ child k (prefix_next l p c Hl Hp Hc) Hw Hd) as (r & Er & Hr).
      exists r. split; [done|]. intros v. rewrite Hr, ents_internal.
      by destruct (in_slot l p bm left right child c (k, v) k Hl Hc Hp Hf1 Hf2 Hd eq_refl) as [-> _].
    + destruct (split_gap bm cs c Hc Hb Hwf) as (left & right & -> & Hlen & Hf1 & Hf2).
      exists None. split; [done|]. intros v. rewrite ents_internal.
      destruct (in_slot l p bm left right Empty c (k, v) k Hl Hc Hp Hf1 Hf2 Hd eq_refl) as [_ ->]. done.
  - eexists. split; [reflexivity|]. apply wf_collision in Hwf as (_ & _ & Hnd & Hh). intros v. rewrite ents_collision.
    destruct (Z.eqb_spec h (hash_key k)) as [->|Hne].
    + rewrite fmap_Some. split.
      * intros ([k2 v2] & Hf & ->). apply List.find_some in Hf as [Hin Hs]. unfold same_key in Hs. bool_to_prop. cbn in *. subst k2.
        by apply list_elem_of_In.
      * intros Hin. destruct (List.find (same_key k) es) as [[k2 v2]|] eqn:Ef.
        -- apply List.find_some in Ef as [Hin2%list_elem_of_In Hs]. unfold same_key in Hs. bool_to_prop. cbn in *. subst k2.
           exists (k, v2). split; [done|]. cbn. by apply (NoDup_fst_inj es k).
        -- apply list_elem_of_In in Hin. pose proof (List.find_none _ _ Ef _ Hin) as Hs. unfold same_key in Hs. by bool_to_prop.
    + split; [done|]. intros Hin. rewrite Forall_forall in Hh. by destruct (Hne (eq_sym (Hh _ Hin))).
Qed.

(** ** Inserting *)

Definition collides (n : N) : Prop :=
  ∃ e1 e2, e1 ∈ ents n ∧ e2 ∈ ents n ∧ e1.1 ≠ e2.1 ∧ hash_key e1.1 = hash_key e2.1.

Definition inserted (n n' : N) (k : K) (v : V) : Prop :=
  ∀ e, e ∈ ents n' ↔ e = (k, v) ∨ (e ∈ ents n ∧ e.1 ≠ k).

Definition ins_ok (l : nat) (p : Z) (n : N) (k : K) (v : V) (o : Outcome N) : Prop :=
  match o with Done n' => wf l p n' ∧ inserted n n' k v | Panic => collides n | OutOfFuel => False end.

(** What changes when one child of an internal node is replaced. *)
Lemma replace_slot (left right : list N) child' bm' (Q : K * V → Prop) :
  (∀ e, e ∈ ents child' ↔ Q e) →
  ∀ e, e ∈ ents (Internal bm' (left ++ child' :: right)) ↔ Q e ∨ e ∈ flat_map ents (left ++ right).
Proof.
  intros HQ e. rewrite ents_internal, !flat_map_app. cbn [flat_map]. rewrite !elem_of_app, HQ. tauto.
Qed.

Lemma slot_entries (left right : list N) child e :
  e ∈ flat_map ents (left ++ child :: right) ↔ e ∈ ents child ∨ e ∈ flat_map ents (left ++ right).
Proof. rewrite !flat_map_app. cbn [flat_map]. rewrite !elem_of_app. tauto. Qed.

Lemma insert_internal l (IH : ∀ fuel p n k v, (2 * l + 1 ≤ fuel)%nat → prefix l p → wf l p n → at_path l p k →
    ins_ok l p n k v (insert_rec fuel n (hash_key k) k v (shift_of l))) :
  (S l ≤ 13)%nat → ∀ fuel p bm cs k v, (2 * l + 2 ≤ fuel)%nat → prefix (S l) p → wf (S l) p (Internal bm cs) → at_path (S l) p k →
  ins_ok (S l) p (Internal bm cs) k v (insert_rec fuel (Internal bm cs) (hash_key k) k v (shift_of (S l))) ∧
  ∀ n', insert_rec fuel (Internal bm cs) (hash_key k) k v (shift_of (S l)) = Done n' → ∃ bm' cs', n' = Internal bm' cs'.
Proof.
  intros Hl [|fuel] p bm cs k v Hfuel Hp Hwf Hk; [lia|]. cbn [insert_rec].
  destruct (lookup_digit l k Hl) as (c & Hc & Ec & Hd). rewrite Ec. cbn [obind]. specialize (Hd p Hk).
  rewrite bit_of_pow, land_pow by done. cbn [wf] in Hwf. destruct (bit_set bm c) eqn:Hb; cbn [negb].
  - destruct (split_slot bm cs c Hc Hb Hwf) as (left & child & right & -> & Hlen & Hf1 & Hw & Hf2).
    rewrite <- Hlen, list_lookup_middle by done. rewrite shift_next.
    specialize (IH fuel _ child k v ltac:(lia) (prefix_next l p c Hl Hp Hc) Hw Hd).
    destruct (insert_rec fuel child _ _ _ _) as [child'| |]; cbn [obind]; [|split; [|done]|done].
    + rewrite vec_set_middle. cbn [obind]. split; [|intros n' [= <-]; by eexists _, _].
      destruct IH as [Hw' Hi]. split; [cbn [wf]; by apply (join_slot bm c)|]. intros e.
      rewrite (replace_slot left right child' bm _ Hi), ents_internal, slot_entries.
      destruct (decide (e.1 = k)) as [E|E]; [|naive_solver].
      destruct (in_slot l p bm left right child c e k Hl Hc Hp Hf1 Hf2 Hd E) as [_ ->]. naive_solver.
    + destruct IH as (e1 & e2 & H1 & H2 & Hne & Heq). exists e1, e2. rewrite ents_internal, !slot_entries. auto.
  - destruct (split_gap bm cs c Hc Hb Hwf) as (left & right & -> & Hlen & Hf1 & Hf2).
    rewrite <- Hlen, vec_insert_middle. cbn [obind]. split; [|intros n' [= <-]; by eexists _, _].
    assert (∀ i, (i < 32)%nat → i ≠ c → bit_set bm i = bit_set (Z.lor bm (2 ^ Z.of_nat c)) i) as Hother.
    { intros i _ Hi. rewrite bit_set_lor. destruct (Nat.eqb_spec c i); [by subst|]. by rewrite orb_false_r. }
    destruct (bits_other _ _ c Hc Hother) as [E1 E2]. split.
    + cbn [wf]. apply (join_slot _ c); [done|by rewrite bit_set_lor, Nat.eqb_refl, orb_true_r|by rewrite <- E1| |by rewrite <- E2].
      by apply wf_leaf.
    + intros e. rewrite (replace_slot left right _ _ (λ e, e = (k, v))), ents_internal.
      * destruct (decide (e.1 = k)) as [E|E]; [|naive_solver].
        destruct (in_slot l p bm left right Empty c e k Hl Hc Hp Hf1 Hf2 Hd E) as [_ ->]. naive_solver.
      * intros e'. unfold ents. cbn. by rewrite list_elem_of_singleton.
Qed.

(** A key of a collision splits its entries. *)
Lemma split_entries (es : list (K * V)) k pos : NoDup es.*1 → position (same_key k) es = Some pos →
  ∃ left v right, es = left ++ (k, v) :: right ∧ length left = pos ∧ ∀ e, e ∈ left ++ right ↔ e ∈ es ∧ e.1 ≠ k.
Proof.
  intros Hnd Hpos. apply position_Some in Hpos as ([k' v] & Hi & Hs & _). unfold same_key in Hs. bool_to_prop. cbn in Hs. subst k'.
  assert (∃ left right, es = left ++ (k, v) :: right ∧ length left = pos) as (left & right & -> & <-).
  { exists (take pos es), (drop (S pos) es). split; [symmetry; by apply take_drop_middle|].
    rewrite length_take. apply lookup_lt_Some in Hi. lia. }
  exists left, v, right. split; [done|]. split; [done|]. intros e.
  rewrite fmap_app in Hnd. cbn in Hnd. apply NoDup_app in Hnd as (_ & Hl & Hr). apply NoDup_cons in Hr as [Hni _].
  rewrite !elem_of_app, elem_of_cons. split.
  - intros [He|He]; (split; [auto|]); intros Ek.
    + apply (Hl k); [rewrite <- Ek; by apply list_elem_of_fmap_2|by left].
    + apply Hni. rewrite <- Ek. by apply list_elem_of_fmap_2.
  - intros [[He|[->|He]] Hne]; auto. by destruct Hne.
Qed.

(** Two hashes below the last level are equal. *)
Lemma bottom_hash p k k' : at_path 0 p k → at_path 0 p k' → hash_key k = hash_key k'.
Proof.
  intros <-. pose proof (hash_range k). pose proof (hash_range k').
  Transparent shift_of. change (shift_of 0) with 65. rewrite !Z.mod_small; [done|..]; change (2 ^ 65) with (2 * 2 ^ 64); lia.
Qed.
Opaque shift_of.

Lemma insert_spec l : (l ≤ 13)%nat → ∀ fuel p n k v, (2 * l + 1 ≤ fuel)%nat → prefix l p → wf l p n → at_path l p k →
  ins_ok l p n k v (insert_rec fuel n (hash_key k) k v (shift_of l)).
Proof.
  induction l as [l IH] using lt_wf_ind. intros Hl [|fuel] p n k v Hfuel Hp Hwf Hk; [lia|].
  assert (∀ l', l = S l' → ∀ fuel p n k v, (2 * l' + 1 ≤ fuel)%nat → prefix l' p → wf l' p n → at_path l' p k →
    ins_ok l' p n k v (insert_rec fuel n (hash_key k) k v (shift_of l'))) as IH' by (intros l' ->; apply IH; lia).
  destruct n as [|h k' v'|bm cs|h es].
  - cbn [insert_rec ins_ok]. split; [by apply wf_leaf|]. intros e. unfold ents. cbn. rewrite list_elem_of_singleton.
    split; [by left|]. intros [|[?%not_elem_of_nil _]]; done.
  - pose proof Hwf as Hwf0. apply wf_leaf in Hwf as [-> Hk']. cbn [insert_rec].
    destruct (Z.eqb_spec (hash_key k') (hash_key k)) as [Eh|Eh].
    + case_bool_decide as Ek; cbn [ins_ok].
      * subst k'. split; [by apply wf_leaf|]. intros e. unfold ents. cbn. rewrite !list_elem_of_singleton. naive_solver.
      * split.
        -- apply wf_collision. rewrite <- Eh. split; [done|]. split; [done|]. split.
           ++ cbn. apply NoDup_cons. split; [by rewrite list_elem_of_singleton|apply NoDup_singleton].
           ++ by repeat constructor.
        -- intros e. rewrite ents_collision. unfold ents. cbn. rewrite elem_of_cons, !list_elem_of_singleton. naive_solver.
    + destruct l as [|l]; [by destruct Eh; apply (bottom_hash p)|].
      assert (wf (S l) p (Internal 0 [])) as Hw0 by (cbn [wf]; rewrite bits_0; constructor).
      destruct (insert_internal l (IH' l eq_refl) Hl fuel p 0 [] k' v' ltac:(lia) Hp Hw0 Hk') as [H1 H1'].
      destruct (insert_rec fuel (Internal 0 []) _ _ _ _) as [n1| |]; cbn [obind ins_ok] in *.
      * destruct H1 as [Hw1 Hi1]. destruct (H1' n1 eq_refl) as (bm & cs & ->).
        destruct (insert_internal l (IH' l eq_refl) Hl fuel p bm cs k v ltac:(lia) Hp Hw1 Hk) as [H2 _].
        assert (∀ e, e ∈ ents (Internal bm cs) ↔ e ∈ ents (Leaf (hash_key k') k' v')) as Hsame.
        { intros e. rewrite (Hi1 e). unfold ents. cbn. rewrite list_elem_of_singleton. split; [|by left].
          intros [->|[?%not_elem_of_nil _]]; done. }
        destruct (insert_rec fuel (Internal bm cs) _ _ _ _) as [n2| |]; cbn [ins_ok] in *; [|exfalso|done].
        -- destruct H2 as [Hw2 Hi2]. split; [done|]. intros e. by rewrite (Hi2 e), Hsame.
        -- destruct H2 as (e1 & e2 & He1 & He2 & Hne & _). rewrite Hsame in He1, He2. unfold ents in *. cbn in *.
           rewrite list_elem_of_singleton in He1, He2. congruence.
      * destruct H1 as (e1 & _ & He1 & _). unfold ents in He1. cbn in He1. by apply not_elem_of_nil in He1.
      * done.
  - destruct l as [|l]; [done|]. by apply (insert_internal l (IH' l eq_refl) Hl (S fuel)); [lia|..].
  - apply wf_collision in Hwf as (Hh & Hlen & Hnd & Hall). cbn [insert_rec].
    destruct (Z.eqb_spec h (hash_key k)) as [->|Hne]; cbn [ins_ok].
    + destruct (position (same_key k) es) as [pos|] eqn:Epos; cbn [obind].
      * destruct (split_entries es k pos Hnd Epos) as (left & v0 & right & -> & <- & Hin). rewrite vec_set_middle. cbn [obind ins_ok].
        split.
        -- apply wf_collision. split; [done|]. rewrite length_app in *. split; [done|].
           rewrite !fmap_app in *. split; [done|]. rewrite !Forall_app, !Forall_cons in *. naive_solver.
        -- intros e. rewrite !ents_collision, <- Hin, !elem_of_app, elem_of_cons. tauto.
      * assert (k ∉ es.*1) as Hni.
        { intros ([k2 v2] & E & Hin)%list_elem_of_fmap. cbn in E. subst k2.
          assert (is_Some (position (same_key k) es)) as [? ?]; [|congruence].
          apply position_is_Some. exists (k, v2). split; [done|]. by apply bool_decide_eq_true. }
        split.
        -- apply wf_collision. split; [done|]. rewrite length_app. split; [lia|]. rewrite fmap_app. split.
           ++ apply NoDup_app. split; [done|]. split; [|apply NoDup_singleton]. intros x Hx Hx'. apply elem_of_cons in Hx' as [Hx'|Hx'%not_elem_of_nil]; [|done]. by rewrite Hx' in Hx.
           ++ apply Forall_app. split; [done|]. by constructor.
        -- intros e. rewrite !ents_collision, elem_of_app, list_elem_of_singleton. split; [|naive_solver].
           intros [He|He]; [right|by left]. split; [done|]. intros E. rewrite <- E in Hni. apply Hni. by apply list_elem_of_fmap_2.
    + destruct es as [|e1 [|e2 es]]; cbn in Hlen; [lia..|]. exists e1, e2. rewrite ents_collision.
      apply Forall_cons in Hall as [E1 Hall]. apply Forall_cons in Hall as [E2 _].
      cbn in Hnd. apply NoDup_cons in Hnd as [Hni _]. split; [by left|]. split; [right; by left|]. split; [|by rewrite E1, E2].
      intros E. apply Hni. rewrite E. by left.
Qed.

(** ** Removing *)

Definition rem_ok (l : nat) (p : Z) (n : N) (k : K) (o : Outcome (option N)) : Prop :=
  match o with
  | Done None => ∀ v, (k, v) ∉ ents n
  | Done (Some n') => wf l p n' ∧ (∃ v, (k, v) ∈ ents n) ∧ ∀ e, e ∈ ents n' ↔ e ∈ ents n ∧ e.1 ≠ k
  | _ => False
  end.

(** Clearing a digit leaves the other children. *)
Lemma clear_slot l p bm (left right : list N) c : (c < 32)%nat →
  Forall2 (λ c child, wf l (p + Z.of_nat c * 2 ^ shift_of (S l)) child) (before bm c) left →
  Forall2 (λ c child, wf l (p + Z.of_nat c * 2 ^ shift_of (S l)) child) (after bm c) right →
  wf (S l) p (Internal (Z.land bm (not_u32 (2 ^ Z.of_nat c))) (left ++ right)).
Proof.
  intros Hc Hf1 Hf2. cbn [wf].
  destruct (bits_other bm (Z.land bm (not_u32 (2 ^ Z.of_nat c))) c Hc) as [E1 E2].
  { intros i Hi Hne. rewrite bit_set_clear by done. destruct (Nat.eqb_spec c i); [by subst|]. by rewrite andb_true_r. }
  rewrite (bits_split _ c Hc), bit_set_clear, Nat.eqb_refl, andb_false_r by done. cbn [app].
  rewrite <- E1, <- E2. by apply Forall2_app.
Qed.

Lemma remove_spec l : (l ≤ 13)%nat → ∀ p n k, prefix l p → wf l p n → at_path l p k →
  rem_ok l p n k (remove_rec n (hash_key k) k (shift_of l)).
Proof.
  induction l as [l IH] using lt_wf_ind. intros Hl p [|h k' v'|bm cs|h es] k Hp Hwf Hk.
  - cbn. intros v. apply not_elem_of_nil.
  - apply wf_leaf in Hwf as [-> _]. cbn [remove_rec rem_ok]. unfold ents. cbn.
    destruct (Z.eqb_spec (hash_key k') (hash_key k)) as [Eh|Eh]; cbn [andb]; [case_bool_decide as Ek|].
    + subst k'. split; [apply wf_empty|]. split; [exists v'; by left|]. intros e. rewrite list_elem_of_singleton. cbn.
      split; [by intros ?%not_elem_of_nil|]. intros [-> []]. done.
    + intros v. rewrite list_elem_of_singleton. congruence.
    + intros v. rewrite list_elem_of_singleton. congruence.
  - destruct l as [|l]; [done|]. cbn [remove_rec]. destruct (lookup_digit l k Hl) as (c & Hc & Ec & Hd). rewrite Ec. cbn [obind].
    specialize (Hd p Hk). rewrite bit_of_pow, land_pow by done. cbn [wf] in Hwf. destruct (bit_set bm c) eqn:Hb; cbn [negb].
    + destruct (split_slot bm cs c Hc Hb Hwf) as (left & child & right & -> & Hlen & Hf1 & Hw & Hf2).
      rewrite remove_visit, <- Hlen, list_lookup_middle by done. rewrite shift_next.
      specialize (IH l ltac:(lia) ltac:(lia) _ child k (prefix_next l p c Hl Hp Hc) Hw Hd).
      pose proof (λ e E, in_slot l p bm left right child c e k Hl Hc Hp Hf1 Hf2 Hd E) as Hin.
      destruct (remove_rec child _ _ _) as [[child'|]| |]; cbn [obind rem_ok] in *; [| |done..].
      * destruct IH as (Hw' & [v Hv] & Hr).
        assert (∃ v, (k, v) ∈ ents (Internal bm (left ++ child :: right))) as Hex.
        { exists v. rewrite ents_internal. by apply (Hin (k, v) eq_refl). }
        assert (∀ bm' child2, (∀ e, e ∈ ents child2 ↔ e ∈ ents child ∧ e.1 ≠ k) →
          ∀ e, e ∈ ents (Internal bm' (left ++ child2 :: right)) ↔ e ∈ ents (Internal bm (left ++ child :: right)) ∧ e.1 ≠ k) as Hset.
        { intros bm' child2 H2 e. rewrite !ents_internal, !slot_entries, H2.
          destruct (decide (e.1 = k)) as [E|E]; [destruct (Hin e E) as [_ ->]|]; naive_solver. }
        assert (∀ bm', (∀ e, e ∉ ents child') →
          ∀ e, e ∈ ents (Internal bm' (left ++ right)) ↔ e ∈ ents (Internal bm (left ++ child :: right)) ∧ e.1 ≠ k) as Hgone.
        { intros bm' Hnone e. rewrite <- (Hset bm' child' Hr e), !ents_internal, slot_entries. specialize (Hnone e). tauto. }
        assert (∃ l0, vec_set (length left) child' (left ++ child :: right) = Done l0 ∧ wf (S l) p (Internal bm l0) ∧
          ∀ e, e ∈ ents (Internal bm l0) ↔ e ∈ ents (Internal bm (left ++ child :: right)) ∧ e.1 ≠ k) as (l0 & El0 & Hw0 & H0).
        { exists (left ++ child' :: right). rewrite vec_set_middle. split; [done|]. split; [cbn [wf]; by apply (join_slot bm c)|]. by apply Hset. }
        destruct child' as [|h' k' v'|bm' cs'|h' es']; [|by rewrite El0..].
        assert (∀ e, e ∉ ents (@Empty K V)) as Hnone by (intros e; apply not_elem_of_nil).
        destruct (Z.eqb_spec (Z.land bm (not_u32 (2 ^ Z.of_nat c))) 0) as [E0|_]; cbn [rem_ok].
        -- split; [apply wf_empty|]. split; [done|]. intros e. rewrite <- (Hgone 0 Hnone e).
           pose proof (clear_slot l p bm left right c Hc Hf1 Hf2) as Hcl. rewrite E0 in Hcl. cbn [wf] in Hcl. rewrite bits_0 in Hcl.
           apply Forall2_nil_inv_l in Hcl. rewrite Hcl. done.
        -- rewrite vec_remove_middle. cbn [obind rem_ok]. split; [by apply clear_slot|]. split; [done|]. by apply Hgone.
      * intros v Hv. rewrite ents_internal in Hv. apply (Hin (k, v) eq_refl) in Hv. by apply (IH v).
    + destruct (split_gap bm cs c Hc Hb Hwf) as (left & right & -> & Hlen & Hf1 & Hf2). cbn [rem_ok]. intros v Hv.
      rewrite ents_internal in Hv. by apply (in_slot l p bm left right Empty c (k, v) k Hl Hc Hp Hf1 Hf2 Hd eq_refl) in Hv.
  - apply wf_collision in Hwf as (Hh & Hlen & Hnd & Hall). cbn [remove_rec].
    destruct (Z.eqb_spec h (hash_key k)) as [->|Hne]; cbn [negb rem_ok].
    + destruct (position (same_key k) es) as [pos|] eqn:Epos; cbn [rem_ok].
      * destruct (split_entries es k pos Hnd Epos) as (left & v0 & right & -> & <- & Hin). rewrite vec_remove_middle. cbn [obind].
        assert (Forall (λ e, hash_key e.1 = hash_key k) (left ++ right)) as Hall'.
        { rewrite Forall_app, Forall_cons in Hall. apply Forall_app. naive_solver. }
        assert (NoDup (left ++ right).*1) as Hnd'.
        { rewrite fmap_app in *. cbn in Hnd. apply NoDup_app in Hnd as (H1 & H2 & H3). apply NoDup_cons in H3 as [_ H3].
          apply NoDup_app. split; [done|]. split; [|done]. intros x Hx Hx'. apply (H2 x Hx). by right. }
        assert (∃ v, (k, v) ∈ ents (Collision (hash_key k) (left ++ (k, v0) :: right))) as Hex.
        { exists v0. rewrite ents_collision. apply elem_of_app. right. by left. }
        assert (length (left ++ right) ≠ 0%nat) as Hl0 by (rewrite length_app in *; cbn in Hlen; lia).
        rewrite !ents_collision in *. revert Hin Hall' Hnd' Hl0. generalize (left ++ right). intros [|[k1 v1] [|e2 es']] Hin Hall' Hnd' Hl0; [done|..];
          cbn [rem_ok]; rewrite ents_collision.
        -- split; [apply wf_leaf; apply Forall_cons in Hall' as [E _]; cbn in E; by rewrite E|]. split; [done|].
           intros e. rewrite <- Hin. done.
        -- split; [apply wf_collision; cbn; auto with lia|]. split; [done|]. intros e. by rewrite ents_collision, <- Hin.
      * intros v Hv. rewrite ents_collision in Hv. assert (is_Some (position (same_key k) es)) as [? ?]; [|congruence].
        apply position_is_Some. exists (k, v). split; [done|]. by apply bool_decide_eq_true.
    + intros v Hv. rewrite ents_collision in Hv. rewrite Forall_forall in Hall. by destruct (Hne (eq_sym (Hall _ Hv))).
Qed.
End Wf.

(** ** The trie as a finite map *)

Section Map.
Context {K V : Type} `{Countable K} `{KeyHash K}.

Definition good (m : Hamt K V) : Prop := wf 13 0 (root m) ∧ hsize m = Z.of_nat (length (entries m)).

Definition to_map (m : Hamt K V) : gmap K V := list_to_map (entries m).

Lemma root_prefix : prefix 13 0.
Proof. done. Qed.

Lemma root_path (k : K) : hash_key k mod 2 ^ shift_of 13 = 0.
Proof. apply Z.mod_1_r. Qed.

Lemma root_NoDup (n : Node K V) : wf 13 0 n → NoDup (ents n).*1.
Proof. apply wf_NoDup; [lia|apply root_prefix]. Qed.

(** Entries with the same members are the same map. *)
Lemma to_map_spec m (M : gmap K V) : good m → (∀ k v, (k, v) ∈ entries m ↔ M !! k = Some v) → to_map m = M.
Proof.
  intros [Hw _] HM. apply map_eq. intros k. unfold to_map. apply option_eq. intros v.
  rewrite <- elem_of_list_to_map; [apply HM|by apply root_NoDup].
Qed.

Lemma elem_of_entries m k v : good m → (k, v) ∈ entries m ↔ to_map m !! k = Some v.
Proof. intros [Hw _]. apply elem_of_list_to_map. by apply root_NoDup. Qed.

Lemma size_entries m : good m → hsize m = Z.of_nat (size (to_map m)).
Proof. intros [Hw ->]. f_equal. symmetry. apply map_size_list_to_map. by apply root_NoDup. Qed.

(** The count kept in the trie follows from the members. *)
Lemma good_of_map n z (M : gmap K V) : wf 13 0 n → (∀ k v, (k, v) ∈ ents n ↔ M !! k = Some v) → z = Z.of_nat (size M) →
  good (mkHamt n z) ∧ to_map (mkHamt n z) = M.
Proof.
  intros Hw HM ->. assert (list_to_map (ents n) = M) as E.
  { apply map_eq. intros k. apply option_eq. intros v. rewrite <- elem_of_list_to_map; [apply HM|by apply root_NoDup]. }
  split; [|done]. split; [done|]. cbn. f_equal. rewrite <- E. apply map_size_list_to_map. by apply root_NoDup.
Qed.

Lemma get_good m k : good m → get m k = Done (to_map m !! k).
Proof.
  intros Hg. pose proof Hg as [Hw _].
  destruct (get_spec 13 ltac:(lia) 0 (root m) k root_prefix Hw (root_path k)) as (r & Er & Hr).
  unfold get. change 0 with (shift_of 13). rewrite Er. f_equal. apply option_eq. intros v. by rewrite Hr, <- elem_of_entries.
Qed.

Lemma insert_good m k v : good m →
  match insert m k v with
  | Done m' => good m' ∧ to_map m' = <[k := v]> (to_map m)
  | Panic => collides (root m)
  | OutOfFuel => False
  end.
Proof.
  intros Hg. pose proof Hg as [Hw _]. unfold insert. pose proof (get_good m k Hg) as Hget. unfold get in Hget. rewrite Hget. cbn [obind].
  pose proof (insert_spec 13 ltac:(lia) insert_fuel 0 (root m) k v ltac:(unfold insert_fuel; lia) root_prefix Hw (root_path k)) as Hi.
  change (shift_of 13) with 0 in Hi. destruct (insert_rec _ _ _ _ _ _) as [n'| |]; cbn [obind ins_ok] in *; [|done..].
  destruct Hi as [Hw' Hi]. apply good_of_map; [done|..].
  - intros k' v'. rewrite (Hi (k', v')), (elem_of_entries m k' v' Hg). cbn [fst]. destruct (decide (k' = k)) as [->|Hne].
    + rewrite lookup_insert_eq. naive_solver.
    + rewrite lookup_insert_ne by done. naive_solver.
  - rewrite (size_entries m Hg). destruct (to_map m !! k) as [x|] eqn:E.
    + rewrite map_size_insert_Some; [done|by rewrite E].
    + rewrite map_size_insert_None by done. lia.
Qed.

Lemma remove_good m k : good m → ∃ m', remove m k = Done m' ∧ good m' ∧ to_map m' = delete k (to_map m).
Proof.
  intros Hg. pose proof Hg as [Hw _].
  pose proof (remove_spec 13 ltac:(lia) 0 (root m) k root_prefix Hw (root_path k)) as Hr. unfold remove.
  change (shift_of 13) with 0 in Hr. destruct (remove_rec _ _ _ _) as [[n'|]| |]; cbn [obind rem_ok] in *; [| |done..].
  - destruct Hr as (Hw' & [v Hv] & Hr). rewrite (elem_of_entries m k v Hg) in Hv.
    assert (size (to_map m) ≠ 0%nat) as Hs by (rewrite map_size_ne_0_lookup; naive_solver).
    pose proof (size_entries m Hg) as Hsz. destruct (Z.eqb_spec (hsize m) 0); [lia|]. eexists. split; [done|]. apply good_of_map; [done|..].
    + intros k' v'. rewrite (Hr (k', v')), (elem_of_entries m k' v' Hg), lookup_delete_Some. naive_solver.
    + rewrite Hsz, map_size_delete_Some by (by rewrite Hv). lia.
  - exists m. split; [done|]. split; [done|]. symmetry. apply delete_id. apply eq_None_not_Some. intros [v Hv].
    by apply (Hr v), (elem_of_entries m k v Hg).
Qed.

Lemma good_new : good (new (K:=K) (V:=V)) ∧ to_map (new (K:=K) (V:=V)) = ∅.
Proof. split; [split; [done|done]|done]. Qed.

(** ** Runs *)

Inductive MapOp := OpInsert (k : K) (v : V) | OpRemove (k : K).

Definition run_op (m : Hamt K V) (op : MapOp) : Outcome (Hamt K V) :=
  match op with OpInsert k v => insert m k v | OpRemove k => remove m k end.

Fixpoint run_ops (ops : list MapOp) (m : Hamt K V) : Outcome (Hamt K V) :=
  match ops with [] => Done m | op :: rest => let! m' := run_op m op in run_ops rest m' end.

Definition map_op (M : gmap K V) (op : MapOp) : gmap K V :=
  match op with OpInsert k v => <[k := v]> M | OpRemove k => delete k M end.

Definition map_ops (ops : list MapOp) : gmap K V := foldl map_op ∅ ops.

Definition inserted_keys (ops : list MapOp) : list K := omap (λ op, match op with OpInsert k _ => Some k | OpRemove _ => None end) ops.

Lemma run_refines ops m M (S : list K) : good m → to_map m = M → (∀ k, is_Some (M !! k) → k ∈ S) →
  match run_ops ops m with
  | Done m' => good m' ∧ to_map m' = foldl map_op M ops
  | Panic => ∃ k1 k2, k1 ∈ S ++ inserted_keys ops ∧ k2 ∈ S ++ inserted_keys ops ∧ k1 ≠ k2 ∧ hash_key k1 = hash_key k2
  | OutOfFuel => False
  end.
Proof.
  revert m M S. induction ops as [|op ops IH]; intros m M S Hg <- HS; cbn [run_ops foldl]; [done|]. destruct op as [k v|k]; cbn [run_op].
  - pose proof (insert_good m k v Hg) as Hi. destruct (insert m k v) as [m'| |]; cbn [obind]; [| |done].
    + destruct Hi as [Hg' E]. specialize (IH m' _ (S ++ [k]) Hg' E). rewrite <- app_assoc in IH. apply IH.
      intros k'. destruct (decide (k' = k)) as [->|]; [intros _; apply elem_of_app; right; by left|].
      rewrite lookup_insert_ne by done. intros Hk'. apply elem_of_app. left. by apply HS.
    + destruct Hi as ([k1 v1] & [k2 v2] & H1 & H2 & Hne & Hh). exists k1, k2.
      rewrite !elem_of_app. split; [left|split; [left|done]]; apply HS.
      * exists v1. by apply elem_of_entries.
      * exists v2. by apply elem_of_entries.
  - destruct (remove_good m k Hg) as (m' & -> & Hg' & E). cbn [obind]. apply (IH m' _ S Hg' E).
    intros k' [v Hv]. apply lookup_delete_Some in Hv as [_ Hv]. apply HS. by eexists.
Qed.

(** C34: The trie is a finite map.  Whatever is inserted and removed, a run either ends in a trie
    whose lookups, entries and length are those of the finite map of the same operations, or it
    panics because two different keys that were inserted have the same hash; the recursion never
    exceeds its depth and no shift reaches the width of the hash. *)
Theorem trie_refines_map (ops : list MapOp) :
  match run_ops ops new with
  | Done m =>
      (∀ k, get m k = Done (map_ops ops !! k)) ∧ entries m ≡ₚ map_to_list (map_ops ops) ∧
      len m = Z.of_nat (size (map_ops ops)) ∧ is_empty m = bool_decide (map_ops ops = ∅)
  | Panic => ∃ k1 k2, k1 ∈ inserted_keys ops ∧ k2 ∈ inserted_keys ops ∧ k1 ≠ k2 ∧ hash_key k1 = hash_key k2
  | OutOfFuel => False
  end.
Proof.
  pose proof (run_refines ops new ∅ [] (proj1 good_new) (proj2 good_new)) as Hr. cbn [app] in Hr.
  destruct (run_ops ops new) as [m| |]; [|apply Hr; by intros k [? ?]..].
  destruct Hr as [Hg E]; [by intros k [? ?]|]. change (foldl map_op ∅ ops) with (map_ops ops) in E. rewrite <- E.
  split; [intros k; by apply get_good|]. split.
  - unfold to_map. symmetry. apply map_to_list_to_map. by apply root_NoDup, Hg.
  - unfold len, is_empty. rewrite (size_entries m Hg). split; [done|]. case_bool_decide as Em.
    + by rewrite Em.
    + apply Z.eqb_neq. rewrite <- map_size_empty_iff in Em. lia.
Qed.

(** Two keys with the same hash, and then any other, make the insertion panic. *)
Theorem collision_panics k1 k2 k3 v1 v2 v3 :
  k1 ≠ k2 → hash_key k1 = hash_key k2 → hash_key k3 ≠ hash_key k1 →
  run_ops [OpInsert k1 v1; OpInsert k2 v2; OpInsert k3 v3] new = Panic.
Proof.
  intros Hne E12 E31. cbn [run_ops run_op]. unfold insert. change insert_fuel with (S 31). generalize 31%nat. intros f.
  cbn [root hsize new get_rec obind insert_rec]. rewrite E12, Z.eqb_refl, bool_decide_eq_false_2 by done.
  cbn [root hsize get_rec obind insert_rec andb].
  destruct (Z.eqb_spec (hash_key k2) (hash_key k3)); [congruence|]. reflexivity.
Qed.
End Map.
