(* ===== verification/KvStore.v ===== *)
(** * Key-value stores

    The writes of crates/events/src/data_events.rs with the keys of store_keys.rs, the in-memory
    store (crates/state/storage/src/in_mem_kv_store.rs, in_mem.rs) over the trie of Hamt, and the
    store on disk (sled_db.rs, sled_store.rs) over an ordered tree of the sled crate, which is the
    class [SledTree].  The abstract store is a finite map from bytes to bytes with one transition
    per message; the class [StoreLaws] says that an implementation follows it. *)

From stdpp Require Import pretty.
From S2P Require Import Prelude Events Orchestration Hamt HamtProps.
Local Open Scope Z_scope.

(** ** Writes *)

Record Insert := mkInsert { i_key : Bytes; i_value : Bytes; i_ctx : option EventContext }.

Record SnapshotRevision := mkRevision { rev_aggregate : Z; rev_seq : Z }.

Global Instance SnapshotRevision_eq_dec : EqDecision SnapshotRevision.
Proof. solve_decision. Defined.

Inductive StoreError :=
| CombinedRevisions
| MixedWrites
| InvalidCursorLength (n : nat)
| StorageFailed
| StoreClosed
| WriteFailedBefore.

Definition revision_of (ctx : EventContext) : SnapshotRevision := mkRevision (aggregate_id ctx) (seq_no ctx).

(** The loop over the commands: the revision so far, and whether a write had no context. *)
Fixpoint revision_loop (revision : option SnapshotRevision) (saw_direct : bool) (commands : list Insert)
    : result (option SnapshotRevision) StoreError :=
  match commands with
  | [] => if negb (bool_decide (is_Some revision)) || negb saw_direct then Ok revision else Err MixedWrites
  | command :: rest =>
      match i_ctx command with
      | None => revision_loop revision true rest
      | Some ctx =>
          let candidate := revision_of ctx in
          match revision with
          | Some current => if bool_decide (current = candidate) then revision_loop revision saw_direct rest
                            else Err CombinedRevisions
          | None => revision_loop (Some candidate) saw_direct rest
          end
      end
  end.

Definition snapshot_revision (commands : list Insert) : result (option SnapshotRevision) StoreError :=
  revision_loop None false commands.

(** [StoreKeys::aggregate_seq] and its companions, as bytes. *)
Definition aggregate_seq (a : Z) : Bytes := str_bytes ("//aggregate_seq/" +:+ pretty a).
Definition aggregate_block (a : Z) : Bytes := str_bytes ("//aggregate_block/" +:+ pretty a).
Definition aggregate_ts (a : Z) : Bytes := str_bytes ("//aggregate_ts/" +:+ pretty a).

(** [to_le_bytes] and [from_le_bytes] *)
Definition to_le_bytes (n : nat) (z : Z) : Bytes := reverse (to_be_bytes n z).
Definition from_le_bytes (l : Bytes) : Z := from_be_bytes (reverse l).

(** Whether the stored cursor lets a batch in: [Ok false] when the batch is older. *)
Definition cursor_check (raw_cursor : option Bytes) (revision : SnapshotRevision) : result bool StoreError :=
  match raw_cursor with
  | None => Ok true
  | Some raw =>
      if negb (length raw =? 8)%nat then Err (InvalidCursorLength (length raw))
      else Ok (negb (rev_seq revision <? from_le_bytes raw))
  end.

(** The byte order of keys. *)
Definition bytes_le (a b : Bytes) : Prop := lex_compare a b ≠ Gt.

Global Instance bytes_le_dec a b : Decision (bytes_le a b).
Proof. unfold bytes_le. apply _. Defined.

(** [key.starts_with(prefix)] *)
Definition starts_with (key pfx : Bytes) : bool := bool_decide (take (length pfx) key = pfx).

(** ** The messages of a store *)

Inductive StoreMsg :=
| SInsert (event : Insert)
| SInsertBatch (commands : list Insert)
| SInsertBatchIfAbsent (commands : list Insert)
| SInsertSync (key value : Bytes)
| SRemove (key : Bytes).

(** [Replied true] also stands for a handler without an answer. *)
Inductive StoreReply := Replied (b : bool) | Refused (e : StoreError).

(** The reply of a handler of [InsertBatch], which reports a stale batch only in the log. *)
Definition batch_reply (r : result bool StoreError) : StoreReply :=
  match r with Ok _ => Replied true | Err e => Refused e end.

(** ** The in-memory store *)

Inductive DataOp := DInsert (i : Insert) | DRemove (key : Bytes).

Record InMemKvStore := mkKvStore { db : Hamt Bytes Bytes; log : list DataOp; capture : bool }.

Section InMem.
Context `{KeyHash Bytes}.

Definition kv_new (capture : bool) : InMemKvStore := mkKvStore new [] capture.

Definition record_op (s : InMemKvStore) (op : option DataOp) : list DataOp :=
  if capture s then match op with Some op => log s ++ [op] | None => log s end else log s.

Definition kv_insert (s : InMemKvStore) (key value : Bytes) (op : option DataOp) : Outcome InMemKvStore :=
  let! db' := insert (db s) key value in Done (mkKvStore db' (record_op s op) (capture s)).

Definition kv_remove (s : InMemKvStore) (key : Bytes) (op : option DataOp) : Outcome InMemKvStore :=
  let! db' := remove (db s) key in Done (mkKvStore db' (record_op s op) (capture s)).

Definition kv_get (s : InMemKvStore) (key : Bytes) : Outcome (option Bytes) := get (db s) key.

Definition kv_is_empty (s : InMemKvStore) : bool := (length (entries (db s)) =? 0)%nat.

Definition kv_has_exact_keys (s : InMemKvStore) (keys : list Bytes) : bool :=
  let entries := entries (db s) in
  (length entries =? length keys)%nat &&
  forallb (λ key, existsb (λ entry : Bytes * Bytes, bool_decide (entry.1 = key)) entries) keys.

Definition kv_keys_with_prefix (s : InMemKvStore) (pfx : Bytes) : list Bytes :=
  merge_sort bytes_le (List.filter (λ key, starts_with key pfx) (entries (db s)).*1).

(** The encoding of the dump is the one of the bincode crate. *)
Definition kv_dump (serialize : gmap Bytes Bytes → option Bytes) (s : InMemKvStore) : option Bytes :=
  serialize (list_to_map (entries (db s))).

Fixpoint insert_all (s : InMemKvStore) (l : list (Bytes * Bytes)) : Outcome InMemKvStore :=
  match l with [] => Done s | (k, v) :: l' => let! s' := kv_insert s k v None in insert_all s' l' end.

Definition pair_le (a b : Bytes * Bytes) : Prop := bytes_le a.1 b.1.

Global Instance pair_le_dec a b : Decision (pair_le a b).
Proof. unfold pair_le. apply _. Defined.

(** [None]: the bytes do not decode. *)
Definition kv_from_dump (deserialize : Bytes → option (gmap Bytes Bytes)) (bytes : Bytes) (capture : bool)
    : Outcome (option InMemKvStore) :=
  match deserialize bytes with
  | None => Done None
  | Some map => let! s := insert_all (kv_new capture) (merge_sort pair_le (map_to_list map)) in Done (Some s)
  end.

Fixpoint kv_commands (s : InMemKvStore) (commands : list Insert) : Outcome InMemKvStore :=
  match commands with
  | [] => Done s
  | command :: rest =>
      let! s' := kv_insert s (i_key command) (i_value command) (Some (DInsert command)) in kv_commands s' rest
  end.

Definition mem_apply_batch (s : InMemKvStore) (batch : list Insert) : Outcome (result bool StoreError * InMemKvStore) :=
  match snapshot_revision batch with
  | Err e => Done (Err e, s)
  | Ok revision =>
      let! check :=
        match revision with
        | Some revision =>
            let! raw_cursor := kv_get s (aggregate_seq (rev_aggregate revision)) in Done (cursor_check raw_cursor revision)
        | None => Done (Ok true)
        end in
      match check with
      | Ok true => let! s' := kv_commands s batch in Done (Ok true, s')
      | check => Done (check, s)
      end
  end.

(** [commands.iter().any(|command| self.store.get(command.key()).is_some())] *)
Fixpoint any_present (s : InMemKvStore) (commands : list Insert) : Outcome bool :=
  match commands with
  | [] => Done false
  | command :: rest =>
      let! v := kv_get s (i_key command) in match v with Some _ => Done true | None => any_present s rest end
  end.

Definition mem_handle (s : InMemKvStore) (msg : StoreMsg) : Outcome (StoreReply * InMemKvStore) :=
  match msg with
  | SInsert event => let! (_, s') := mem_apply_batch s [event] in Done (Replied true, s')
  | SInsertBatch batch => let! (r, s') := mem_apply_batch s batch in Done (batch_reply r, s')
  | SInsertBatchIfAbsent commands =>
      let! present := any_present s commands in
      if present then Done (Replied false, s)
      else let! s' := kv_commands s commands in Done (Replied true, s')
  | SInsertSync key value =>
      let! s' := kv_insert s key value (Some (DInsert (mkInsert key value None))) in Done (Replied true, s')
  | SRemove key => let! s' := kv_remove s key (Some (DRemove key)) in Done (Replied true, s')
  end.
End InMem.

(** ** The store on disk *)

(** A tree of the sled crate: an ordered map. *)
Class SledTree := {
  Tree : Type;
  tree_get : Tree → Bytes → option Bytes;
  tree_insert : Tree → Bytes → Bytes → Tree;
  tree_remove : Tree → Bytes → Tree;
  tree_keys : Tree → list Bytes }.

Class SledTreeLaws `{SledTree} : Prop := {
  tree_get_insert : ∀ t k v k', tree_get (tree_insert t k v) k' = if decide (k = k') then Some v else tree_get t k';
  tree_get_remove : ∀ t k k', tree_get (tree_remove t k) k' = if decide (k = k') then None else tree_get t k';
  tree_keys_get : ∀ t k, k ∈ tree_keys t ↔ is_Some (tree_get t k);
  tree_keys_sorted : ∀ t, StronglySorted bytes_le (tree_keys t) ∧ NoDup (tree_keys t) }.

(** [expected.dedup()] of sorted keys *)
Fixpoint dedup_keys (l : list Bytes) : list Bytes :=
  match l with
  | x :: ((y :: _) as rest) => if bool_decide (x = y) then dedup_keys rest else x :: dedup_keys rest
  | _ => l
  end.

Section Sled.
Context `{SledTree}.

(** Whether the disk answers is an input of every operation. *)
Definition sled_insert (io : bool) (t : Tree) (i : Insert) : result () StoreError * Tree :=
  if io then (Ok tt, tree_insert t (i_key i) (i_value i)) else (Err StorageFailed, t).

Definition write_commands (t : Tree) (batch : list Insert) : Tree :=
  foldl (λ t i, tree_insert t (i_key i) (i_value i)) t batch.

(** The transaction is applied as a whole or not at all. *)
Definition sled_insert_batch (io : bool) (t : Tree) (batch : list Insert) : result bool StoreError * Tree :=
  match snapshot_revision batch with
  | Err e => (Err e, t)
  | Ok revision =>
      if negb io then (Err StorageFailed, t)
      else
        let check := match revision with
                     | Some revision => cursor_check (tree_get t (aggregate_seq (rev_aggregate revision))) revision
                     | None => Ok true
                     end in
        match check with
        | Ok true => (Ok true, write_commands t batch)
        | check => (check, t)
        end
  end.

Definition sled_insert_batch_if_absent (io : bool) (t : Tree) (msgs : list Insert) : result bool StoreError * Tree :=
  if negb io then (Err StorageFailed, t)
  else if existsb (λ i, bool_decide (is_Some (tree_get t (i_key i)))) msgs then (Ok false, t)
  else (Ok true, write_commands t msgs).

Definition sled_remove (io : bool) (t : Tree) (key : Bytes) : result () StoreError * Tree :=
  if io then (Ok tt, tree_remove t key) else (Err StorageFailed, t).

Definition sled_keys_with_prefix (t : Tree) (pfx : Bytes) : list Bytes :=
  List.filter (λ key, starts_with key pfx) (tree_keys t).

Definition sled_has_exact_keys (t : Tree) (keys : list Bytes) : bool :=
  let expected := dedup_keys (merge_sort bytes_le keys) in
  let observed := take (S (length expected)) (tree_keys t) in
  (length observed =? length expected)%nat && forallb (λ '(o, e), bool_decide (o = e)) (zip observed expected).

(** The actor: [None] once it is closed. *)
Record SledStore := mkSledStore { sdb : option Tree; write_failure : bool }.

(** A failed write is remembered for the shutdown. *)
Definition after_write {A} (s : SledStore) (r : result A StoreError * Tree) : SledStore :=
  mkSledStore (Some r.2) (write_failure s || match r.1 with Ok _ => false | Err _ => true end).

Definition sled_handle (io : bool) (s : SledStore) (msg : StoreMsg) : StoreReply * SledStore :=
  match sdb s, msg with
  | None, (SInsert _ | SRemove _) => (Replied true, s)
  | None, _ => (Refused StoreClosed, s)
  | Some t, SInsert event => let r := sled_insert_batch io t [event] in (Replied true, after_write s r)
  | Some t, SInsertBatch batch => let r := sled_insert_batch io t batch in (batch_reply r.1, after_write s r)
  | Some t, SInsertBatchIfAbsent commands =>
      let r := sled_insert_batch_if_absent io t commands in
      (match r.1 with Ok b => Replied b | Err e => Refused e end, after_write s r)
  | Some t, SInsertSync key value =>
      let r := sled_insert io t (mkInsert key value None) in
      (match r.1 with Ok _ => Replied true | Err e => Refused e end, after_write s r)
  | Some t, SRemove key => let r := sled_remove io t key in (Replied true, after_write s r)
  end.

(** [ShutdownStore]: a failed write before it is reported. *)
Definition sled_shutdown (io : bool) (s : SledStore) : result () StoreError * SledStore :=
  (match sdb s with
   | None => Err StoreClosed
   | Some _ => if negb io then Err StorageFailed else if write_failure s then Err WriteFailedBefore else Ok tt
   end, mkSledStore None false).
End Sled.

(** ** The abstract store *)

Definition map_commands (M : gmap Bytes Bytes) (batch : list Insert) : gmap Bytes Bytes :=
  foldl (λ M i, <[i_key i := i_value i]> M) M batch.

Definition map_batch (M : gmap Bytes Bytes) (batch : list Insert) : result bool StoreError * gmap Bytes Bytes :=
  match snapshot_revision batch with
  | Err e => (Err e, M)
  | Ok revision =>
      match match revision with
            | Some revision => cursor_check (M !! aggregate_seq (rev_aggregate revision)) revision
            | None => Ok true
            end with
      | Ok true => (Ok true, map_commands M batch)
      | check => (check, M)
      end
  end.

Definition map_handle (M : gmap Bytes Bytes) (msg : StoreMsg) : StoreReply * gmap Bytes Bytes :=
  match msg with
  | SInsert event => (Replied true, (map_batch M [event]).2)
  | SInsertBatch batch => (batch_reply (map_batch M batch).1, (map_batch M batch).2)
  | SInsertBatchIfAbsent commands =>
      if existsb (λ i, bool_decide (is_Some (M !! i_key i))) commands then (Replied false, M)
      else (Replied true, map_commands M commands)
  | SInsertSync key value => (Replied true, <[key := value]> M)
  | SRemove key => (Replied true, delete key M)
  end.
