(* ===== verification/KvStoreProps.v ===== *)
(** * What a store promises, and who keeps the promise

    The class [StoreLaws] is the interface between the stores and the snapshot buffer.  Both
    stores implement it, so they answer every sequence of messages alike; the cursor of an
    aggregate never moves back; the queries of the two stores agree; and a dump restores its store. *)

From stdpp Require Import pretty.
From S2P Require Import Prelude Events Orchestration Hamt HamtProps KvStore.
Local Open Scope Z_scope.

(** ** The byte order *)

Lemma lex_compare_Eq a b : lex_compare a b = Eq ↔ a = b.
Proof.
  revert b. induction a as [|x a IH]; intros [|y b]; cbn; try (split; congruence).
  destruct (x ?= y) eqn:E; [|split; [done|]; intros [= -> ->]; by rewrite Z.compare_refl in E..].
  apply Z.compare_eq in E as ->. rewrite IH. split; congruence.
Qed.

Lemma lex_compare_opp a b : lex_compare b a = CompOpp (lex_compare a b).
Proof.
  revert b. induction a as [|x a IH]; intros [|y b]; try done. cbn. rewrite (Z.compare_antisym x y).
  destruct (x ?= y); cbn; [apply IH|done..].
Qed.

Global Instance bytes_le_total : Total bytes_le.
Proof. intros a b. unfold bytes_le. rewrite (lex_compare_opp a b). destruct (lex_compare a b); cbn; auto. Qed.

Global Instance bytes_le_trans : Transitive bytes_le.
Proof.
  unfold bytes_le. intros a b c. revert b c. induction a as [|x a IH]; intros [|y b] [|z c]; cbn; try done.
  destruct (Z.compare_spec x y), (Z.compare_spec y z), (Z.compare_spec x z); subst; try done; try lia. apply IH.
Qed.

Global Instance bytes_le_antisym : AntiSymm (=) bytes_le.
Proof.
  intros a b. unfold bytes_le. rewrite (lex_compare_opp a b). destruct (lex_compare a b) eqn:E; cbn; try done.
  intros _ _. by apply lex_compare_Eq.
Qed.

(** Sorted duplicate-free keys are determined by their members. *)
Lemma sorted_keys_unique (a b : list Bytes) : StronglySorted bytes_le a → StronglySorted bytes_le b →
  NoDup a → NoDup b → (∀ k, k ∈ a ↔ k ∈ b) → a = b.
Proof.
  intros Ha Hb Hna Hnb Hab. apply (StronglySorted_unique_strong bytes_le); [by intros; apply (anti_symm bytes_le)|done|done|]. by apply NoDup_Permutation.
Qed.

(** ** The interface *)

Definition msg_keys (msg : StoreMsg) : list Bytes :=
  match msg with
  | SInsert i => [i_key i]
  | SInsertBatch l | SInsertBatchIfAbsent l => i_key <$> l
  | SInsertSync k _ | SRemove k => [k]
  end.

(** An implementation: what it holds, its handler for an answering or failing disk, and the keys on
    which it may crash. *)
Class KeyValueStore (St : Type) := {
  represents : St → gmap Bytes Bytes → Prop;
  st_handle : bool → St → StoreMsg → Outcome (StoreReply * St);
  crashes_on : list Bytes → Prop }.

Class StoreLaws (St : Type) `{KeyValueStore St} : Prop := {
  handle_follows : ∀ io s M msg, represents s M →
    match st_handle io s msg with
    | Done (r, s') =>
        (r = (map_handle M msg).1 ∧ represents s' (map_handle M msg).2) ∨ (io = false ∧ represents s' M)
    | Panic => crashes_on ((map_to_list M).*1 ++ msg_keys msg)
    | OutOfFuel => False
    end;
  crashes_mono : ∀ l l', l ⊆ l' → crashes_on l → crashes_on l' }.

(** ** The in-memory store implements it *)

Section InMem.
Context `{KeyHash Bytes}.

Definition mem_represents (s : InMemKvStore) (M : gmap Bytes Bytes) : Prop := good (db s) ∧ to_map (db s) = M.

Definition same_hash (keys : list Bytes) : Prop :=
  ∃ k1 k2, k1 ∈ keys ∧ k2 ∈ keys ∧ k1 ≠ k2 ∧ hash_key k1 = hash_key k2.

#[export] Instance mem_store : KeyValueStore InMemKvStore := {
  represents := mem_represents; st_handle _ := mem_handle; crashes_on := same_hash }.

Lemma same_hash_mono l l' : l ⊆ l' → same_hash l → same_hash l'.
Proof. intros Hl (k1 & k2 & H1 & H2 & Hr). exists k1, k2. auto. Qed.

Lemma elem_of_keys (M : gmap Bytes Bytes) k : k ∈ (map_to_list M).*1 ↔ is_Some (M !! k).
Proof.
  rewrite list_elem_of_fmap. split.
  - intros ([k' v] & -> & Hv). exists v. by apply elem_of_map_to_list.
  - intros [v Hv]. exists (k, v). split; [done|]. by apply elem_of_map_to_list.
Qed.

Lemma mem_get s M k : mem_represents s M → kv_get s k = Done (M !! k).
Proof. intros [Hg <-]. by apply get_good. Qed.

Lemma mem_insert s M k v op : mem_represents s M →
  match kv_insert s k v op with
  | Done s' => mem_represents s' (<[k := v]> M) ∧ log s' = record_op s op ∧ capture s' = capture s
  | Panic => same_hash (map_to_list M).*1
  | OutOfFuel => False
  end.
Proof.
  intros [Hg <-]. unfold kv_insert. pose proof (insert_good (db s) k v Hg) as Hi.
  destruct (insert (db s) k v) as [db'| |]; cbn [obind]; [by destruct Hi| |done].
  destruct Hi as ([k1 v1] & [k2 v2] & H1 & H2 & Hr). exists k1, k2. rewrite !elem_of_keys.
  apply elem_of_entries in H1, H2; [|done..]. split; [by eexists|]. split; [by eexists|done].
Qed.

Lemma mem_commands batch : ∀ s M, mem_represents s M →
  match kv_commands s batch with
  | Done s' => mem_represents s' (map_commands M batch)
  | Panic => same_hash ((map_to_list M).*1 ++ (i_key <$> batch))
  | OutOfFuel => False
  end.
Proof.
  induction batch as [|i batch IH]; intros s M Hs; [done|]. cbn [kv_commands].
  pose proof (mem_insert s M (i_key i) (i_value i) (Some (DInsert i)) Hs) as Hi.
  destruct (kv_insert s _ _ _) as [s'| |]; cbn [obind]; [| |done].
  - destruct Hi as [Hs' _]. specialize (IH s' _ Hs'). cbn [map_commands foldl]. destruct (kv_commands s' batch); [done| |done].
    eapply same_hash_mono; [|exact IH]. intros k. rewrite fmap_cons, !elem_of_app, !elem_of_cons, !elem_of_keys.
    destruct (decide (k = i_key i)) as [->|]; [auto|]. rewrite lookup_insert_ne by done. tauto.
  - eapply same_hash_mono; [|exact Hi]. intros k. rewrite elem_of_app. auto.
Qed.

Lemma mem_batch batch s M : mem_represents s M →
  match mem_apply_batch s batch with
  | Done (r, s') => r = (map_batch M batch).1 ∧ mem_represents s' (map_batch M batch).2
  | Panic => same_hash ((map_to_list M).*1 ++ (i_key <$> batch))
  | OutOfFuel => False
  end.
Proof.
  intros Hs. unfold mem_apply_batch, map_batch. destruct (snapshot_revision batch) as [revision|e]; [|done].
  destruct revision as [revision|]; [rewrite (mem_get s M _ Hs)|]; cbn [obind]; [destruct (cursor_check _ revision) as [[]|]; try done|];
    (pose proof (mem_commands batch s M Hs) as Hk; by destruct (kv_commands s batch)).
Qed.

Lemma mem_any s M commands : mem_represents s M →
  any_present s commands = Done (existsb (λ i, bool_decide (is_Some (M !! i_key i))) commands).
Proof.
  intros Hs. induction commands as [|i commands IH]; [done|]. cbn [any_present existsb]. rewrite (mem_get s M _ Hs). cbn [obind].
  by destruct (M !! i_key i).
Qed.

Lemma mem_remove s M k op : mem_represents s M → ∃ s', kv_remove s k op = Done s' ∧ mem_represents s' (delete k M).
Proof.
  intros [Hg <-]. destruct (remove_good (db s) k Hg) as (db' & E & Hg' & Em). unfold kv_remove. rewrite E. by eexists.
Qed.

#[export] Instance mem_store_laws : StoreLaws InMemKvStore.
Proof.
  constructor; [|by apply same_hash_mono]. intros io s M msg Hs. cbn [st_handle mem_store represents crashes_on] in *.
  destruct msg as [i|batch|commands|k v|k]; cbn [mem_handle map_handle fst snd msg_keys].
  - pose proof (mem_batch [i] s M Hs) as Hb. destruct (mem_apply_batch s [i]) as [[r s']| |]; cbn [obind]; [|done..].
    left. split; [done|]. apply Hb.
  - pose proof (mem_batch batch s M Hs) as Hb. destruct (mem_apply_batch s batch) as [[r s']| |]; cbn [obind]; [|done..].
    destruct Hb as [-> Hs']. by left.
  - rewrite (mem_any s M commands Hs). cbn [obind]. destruct (existsb _ commands); [by left|].
    pose proof (mem_commands commands s M Hs) as Hk. destruct (kv_commands s commands); cbn [obind]; [by left|done..].
  - pose proof (mem_insert s M k v (Some (DInsert (mkInsert k v None))) Hs) as Hi.
    destruct (kv_insert s _ _ _); cbn [obind]; [left; split; [done|]; apply Hi| |done].
    eapply same_hash_mono; [|exact Hi]. intros x. rewrite elem_of_app. auto.
  - destruct (mem_remove s M k (Some (DRemove k)) Hs) as (s' & -> & Hs'). by left.
Qed.
End InMem.

(** ** The store on disk implements it *)

Section Sled.
Context `{SledTreeLaws}.

Definition tree_is (t : Tree) (M : gmap Bytes Bytes) : Prop := ∀ k, tree_get t k = M !! k.

Lemma tree_is_insert t M k v : tree_is t M → tree_is (tree_insert t k v) (<[k := v]> M).
Proof. intros Ht k'. rewrite tree_get_insert, Ht. case_decide; [subst; by rewrite lookup_insert_eq|by rewrite lookup_insert_ne]. Qed.

Lemma tree_is_remove t M k : tree_is t M → tree_is (tree_remove t k) (delete k M).
Proof. intros Ht k'. rewrite tree_get_remove, Ht. case_decide; [subst; by rewrite lookup_delete_eq|by rewrite lookup_delete_ne]. Qed.

Lemma tree_is_commands batch : ∀ t M, tree_is t M → tree_is (write_commands t batch) (map_commands M batch).
Proof. induction batch as [|i batch IH]; intros t M Ht; [done|]. apply IH. by apply tree_is_insert. Qed.

Lemma sled_batch t M batch : tree_is t M →
  (sled_insert_batch true t batch).1 = (map_batch M batch).1 ∧ tree_is (sled_insert_batch true t batch).2 (map_batch M batch).2.
Proof.
  intros Ht. unfold sled_insert_batch, map_batch. destruct (snapshot_revision batch) as [[revision|]|e]; [| |done]; cbn [negb].
  - rewrite <- (Ht _). destruct (cursor_check _ _) as [[]|]; try done. split; [done|]. by apply tree_is_commands.
  - split; [done|]. by apply tree_is_commands.
Qed.

Lemma sled_batch_fails t batch : (sled_insert_batch false t batch).2 = t.
Proof. unfold sled_insert_batch. by destruct (snapshot_revision batch). Qed.

Definition sled_represents (s : SledStore) (M : gmap Bytes Bytes) : Prop := ∃ t, sdb s = Some t ∧ tree_is t M.

Lemma sled_follows s M msg : sled_represents s M →
  (sled_handle true s msg).1 = (map_handle M msg).1 ∧ sled_represents (sled_handle true s msg).2 (map_handle M msg).2.
Proof.
  intros (t & Es & Ht). unfold sled_handle. rewrite Es. destruct msg as [i|batch|commands|k v|k]; cbn [map_handle fst snd].
  - destruct (sled_batch t M [i] Ht) as [_ E2]. split; [done|]. by eexists.
  - destruct (sled_batch t M batch Ht) as [E1 E2]. rewrite E1. split; [done|]. by eexists.
  - unfold sled_insert_batch_if_absent. cbn [negb].
    assert (existsb (λ i, bool_decide (is_Some (tree_get t (i_key i)))) commands =
      existsb (λ i, bool_decide (is_Some (M !! i_key i))) commands) as ->.
    { induction commands as [|i commands IH]; [done|]. cbn. by rewrite Ht, IH. }
    destruct (existsb _ commands); (split; [done|]); eexists; (split; [done|]); [done|]. by apply tree_is_commands.
  - split; [done|]. eexists. split; [done|]. by apply tree_is_insert.
  - split; [done|]. eexists. split; [done|]. by apply tree_is_remove.
Qed.

Lemma sled_fails s M msg : sled_represents s M → sled_represents (sled_handle false s msg).2 M.
Proof.
  intros (t & Es & Ht). unfold sled_handle. rewrite Es.
  destruct msg; eexists; (split; [done|]); cbn [fst snd]; rewrite ?sled_batch_fails; done.
Qed.

#[export] Instance sled_store : KeyValueStore SledStore := {
  represents := sled_represents;
  st_handle io s msg := Done (sled_handle io s msg);
  crashes_on _ := False }.

#[export] Instance sled_store_laws : StoreLaws SledStore.
Proof.
  constructor; [|done]. intros io s M msg Hs. cbn [st_handle sled_store represents] in *. destruct io.
  - pose proof (sled_follows s M msg Hs). destruct (sled_handle true s msg). by left.
  - pose proof (sled_fails s M msg Hs). destruct (sled_handle false s msg). by right.
Qed.
End Sled.

(** ** Runs *)

(** Each message comes with whether the disk answered. *)
Fixpoint st_run {St} `{KeyValueStore St} (s : St) (msgs : list (bool * StoreMsg)) : Outcome (list StoreReply * St) :=
  match msgs with
  | [] => Done ([], s)
  | (io, msg) :: rest =>
      let! (r, s') := st_handle io s msg in let! (rs, s'') := st_run s' rest in Done (r :: rs, s'')
  end.

Fixpoint map_run (M : gmap Bytes Bytes) (msgs : list StoreMsg) : list StoreReply * gmap Bytes Bytes :=
  match msgs with
  | [] => ([], M)
  | msg :: rest => let '(r, M') := map_handle M msg in let '(rs, M'') := map_run M' rest in (r :: rs, M'')
  end.

Lemma commands_keys batch : ∀ M k, is_Some (map_commands M batch !! k) → is_Some (M !! k) ∨ k ∈ i_key <$> batch.
Proof.
  induction batch as [|i batch IH]; intros M k Hk; [by left|]. cbn [map_commands foldl fmap list_fmap] in *.
  destruct (IH _ _ Hk) as [Hi|]; [|right; by right].
  destruct (decide (k = i_key i)) as [->|]; [right; by left|]. rewrite lookup_insert_ne in Hi by done. by left.
Qed.

Lemma batch_keys M batch k : is_Some ((map_batch M batch).2 !! k) → is_Some (M !! k) ∨ k ∈ i_key <$> batch.
Proof.
  unfold map_batch. destruct (snapshot_revision batch) as [[revision|]|]; [|apply commands_keys|by left].
  destruct (cursor_check _ _) as [[]|]; [apply commands_keys|by left..].
Qed.

Lemma handle_keys M msg k : is_Some ((map_handle M msg).2 !! k) → is_Some (M !! k) ∨ k ∈ msg_keys msg.
Proof.
  destruct msg as [i|batch|commands|k' v|k']; cbn [map_handle snd msg_keys].
  - apply batch_keys.
  - apply batch_keys.
  - destruct (existsb _ _); [by left|apply commands_keys].
  - destruct (decide (k = k')) as [->|]; [right; by left|]. rewrite lookup_insert_ne by done. by left.
  - intros [v Hv]. apply lookup_delete_Some in Hv as [_ Hv]. left. by eexists.
Qed.

(** A store over answering disks follows the map, unless it may crash on the keys it was given. *)
Lemma run_follows {St} `{StoreLaws St} msgs : ∀ (s : St) M, represents s M →
  ~ crashes_on ((map_to_list M).*1 ++ flat_map msg_keys msgs) →
  ∃ s', st_run s ((true,.) <$> msgs) = Done ((map_run M msgs).1, s') ∧ represents s' (map_run M msgs).2.
Proof.
  induction msgs as [|msg msgs IH]; intros s M Hs Hc; [by eexists|]. cbn [fmap list_fmap st_run map_run].
  pose proof (handle_follows true s M msg Hs) as Hf. destruct (st_handle true s msg) as [[r s']| |]; [| |done].
  - destruct Hf as [[-> Hs']|[? _]]; [|done]. cbn [obind]. destruct (map_handle M msg) as [r M'] eqn:E. cbn [fst snd] in *.
    destruct (IH s' M' Hs') as (s'' & -> & Hs'').
    { intros Hc'. apply Hc. eapply crashes_mono; [|exact Hc']. intros k. cbn [flat_map].
      rewrite !elem_of_app, !elem_of_keys. intros [Hk|]; [|auto].
      pose proof (handle_keys M msg k) as Hm. rewrite E in Hm. destruct (Hm Hk); auto. }
    destruct (map_run M' msgs). by eexists.
  - destruct Hc. eapply crashes_mono; [|exact Hf]. intros k. cbn [flat_map]. rewrite !elem_of_app. tauto.
Qed.

(** ** Queries *)

Lemma elem_of_starts k pfx l : k ∈ List.filter (λ key, starts_with key pfx) l ↔ k ∈ l ∧ starts_with k pfx = true.
Proof. by rewrite !list_elem_of_In, filter_In. Qed.

Lemma NoDup_starts (p : Bytes → bool) l : NoDup l → NoDup (List.filter p l).
Proof. rewrite !NoDup_ListNoDup. apply List.NoDup_filter. Qed.

Lemma dedup_spec l : StronglySorted bytes_le l →
  StronglySorted bytes_le (dedup_keys l) ∧ NoDup (dedup_keys l) ∧ ∀ k, k ∈ dedup_keys l ↔ k ∈ l.
Proof.
  induction 1 as [|x l Hl IH Hx]; [by repeat constructor|]. destruct l as [|y l].
  { split; [by repeat constructor|]. split; [apply NoDup_singleton|done]. }
  change (dedup_keys (x :: y :: l)) with (if bool_decide (x = y) then dedup_keys (y :: l) else x :: dedup_keys (y :: l)).
  destruct IH as (Hs & Hn & Hk). case_bool_decide as Exy.
  - subst y. split; [done|]. split; [done|]. intros k. rewrite Hk, !elem_of_cons. tauto.
  - rewrite Forall_forall in Hx. split; [|split].
    + constructor; [done|]. rewrite Forall_forall. intros k. rewrite Hk. apply Hx.
    + constructor; [|done]. rewrite Hk. intros Hin. apply Exy. apply (anti_symm bytes_le); [apply Hx; by left|].
      apply elem_of_cons in Hin as [|Hin]; [done|]. apply StronglySorted_inv in Hl as [_ Hl]. rewrite Forall_forall in Hl. by apply Hl.
    + intros k. rewrite !elem_of_cons, Hk, elem_of_cons. done.
Qed.

Lemma same_keys_list (a b : list Bytes) (n : nat) : n = length b →
  (length (take (S n) a) =? n)%nat && forallb (λ '(o, e), bool_decide (o = e)) (zip (take (S n) a) b) = bool_decide (a = b).
Proof.
  intros ->. revert b. induction a as [|x a IH]; intros [|y b]; cbn [length take zip Nat.eqb andb forallb]; try done.
  change (zip_with pair (x :: take (S (length b)) a) (y :: b)) with ((x, y) :: zip (take (S (length b)) a) b). cbn [forallb].
  rewrite (andb_comm (bool_decide (x = y))), andb_assoc, IH.
  repeat case_bool_decide; naive_solver.
Qed.

Lemma exact_iff (l keys : list Bytes) : NoDup l → NoDup keys →
  (length l =? length keys)%nat && forallb (λ key, existsb (λ k, bool_decide (k = key)) l) keys = true ↔
  ∀ k, k ∈ l ↔ k ∈ keys.
Proof.
  intros Hl Hk. rewrite andb_true_iff, Nat.eqb_eq, forallb_forall.
  assert ((∀ x, In x keys → existsb (λ k, bool_decide (k = x)) l = true) ↔ keys ⊆ l) as ->.
  { apply forall_proper. intros x. rewrite existsb_exists, <- list_elem_of_In. split; intros Hx Hin; specialize (Hx Hin).
    - destruct Hx as (k & Hkl & E). apply bool_decide_eq_true in E as ->. by apply list_elem_of_In.
    - exists x. split; [by apply list_elem_of_In|by apply bool_decide_eq_true]. }
  split.
  - intros [E Hs] k. split; [|apply Hs]. intros Hin.
    assert (keys ≡ₚ l) as HP by (apply submseteq_length_Permutation; [by apply NoDup_submseteq|lia]). by rewrite HP.
  - intros Hs. split; [|intros k; by apply Hs]. apply Permutation_length. by apply NoDup_Permutation.
Qed.

Lemma existsb_fst (l : list (Bytes * Bytes)) key :
  existsb (λ entry : Bytes * Bytes, bool_decide (entry.1 = key)) l = existsb (λ k, bool_decide (k = key)) l.*1.
Proof. induction l as [|e l IH]; [done|]. cbn. by rewrite IH. Qed.

Section Queries.
Context `{KeyHash Bytes} `{SledTreeLaws}.
Variables (s : InMemKvStore) (t : Tree) (M : gmap Bytes Bytes).
Hypotheses (Hs : mem_represents s M) (Ht : tree_is t M).

Lemma mem_keys k : k ∈ (entries (db s)).*1 ↔ is_Some (M !! k).
Proof.
  destruct Hs as [Hg <-]. rewrite list_elem_of_fmap. split.
  - intros ([k' v] & -> & Hv). exists v. by apply elem_of_entries.
  - intros [v Hv]. exists (k, v). split; [done|]. by apply elem_of_entries.
Qed.

Lemma mem_keys_NoDup : NoDup (entries (db s)).*1.
Proof. apply root_NoDup, Hs. Qed.

Lemma tree_keys_in k : k ∈ tree_keys t ↔ is_Some (M !! k).
Proof. rewrite tree_keys_get, Ht. done. Qed.

Lemma prefixes_agree pfx : kv_keys_with_prefix s pfx = sled_keys_with_prefix t pfx.
Proof.
  unfold kv_keys_with_prefix, sled_keys_with_prefix. apply sorted_keys_unique.
  - apply (StronglySorted_merge_sort _).
  - apply sorted_filter, tree_keys_sorted.
  - rewrite merge_sort_Permutation. apply NoDup_starts, mem_keys_NoDup.
  - apply NoDup_starts, tree_keys_sorted.
  - intros k. by rewrite merge_sort_Permutation, !elem_of_starts, mem_keys, tree_keys_in.
Qed.

Lemma exact_keys_agree keys : NoDup keys → kv_has_exact_keys s keys = sled_has_exact_keys t keys.
Proof.
  intros Hn. destruct (dedup_spec (merge_sort bytes_le keys) (StronglySorted_merge_sort _ _)) as (Hds & Hdn & Hdk).
  unfold sled_has_exact_keys. rewrite same_keys_list by done. apply eq_true_iff_eq.
  unfold kv_has_exact_keys. rewrite <- (length_fmap fst (entries (db s))).
  assert (forallb (λ key, existsb (λ entry : Bytes * Bytes, bool_decide (entry.1 = key)) (entries (db s))) keys =
    forallb (λ key, existsb (λ k, bool_decide (k = key)) (entries (db s)).*1) keys) as ->.
  { clear. induction keys as [|k keys IH]; [done|]. cbn [forallb]. by rewrite IH, existsb_fst. }
  rewrite (exact_iff _ _ mem_keys_NoDup Hn), bool_decide_eq_true. split.
  - intros Hk. apply sorted_keys_unique; [apply tree_keys_sorted|done|apply tree_keys_sorted|done|].
    intros k. by rewrite tree_keys_in, <- mem_keys, Hk, Hdk, merge_sort_Permutation.
  - intros E k. by rewrite mem_keys, <- tree_keys_in, E, Hdk, merge_sort_Permutation.
Qed.
End Queries.

(** ** The two stores agree *)

Section Agree.
Context `{KeyHash Bytes} `{SledTreeLaws}.

Lemma mem_new capture : represents (kv_new capture) ∅.
Proof. apply good_new. Qed.

Lemma sled_new t : (∀ k, tree_get t k = None) → represents (mkSledStore (Some t) false) ∅.
Proof. intros Ht. exists t. split; [done|]. intros k. by rewrite Ht. Qed.

(** C33: The in-memory store and the store on disk are interchangeable.  Started empty and given the
    same messages, with a disk that answers and keys of distinct hashes, they give the same
    replies, and afterwards the same value for every key, the same keys under every prefix and,
    for lists without duplicates, the same verdict on the exact set of keys. *)
Theorem stores_agree capture t msgs :
  (∀ k, tree_get t k = None) →
  (∀ k1 k2, k1 ∈ flat_map msg_keys msgs → k2 ∈ flat_map msg_keys msgs → hash_key k1 = hash_key k2 → k1 = k2) →
  ∃ replies s t' failure,
    st_run (kv_new capture) ((true,.) <$> msgs) = Done (replies, s) ∧
    st_run (mkSledStore (Some t) false) ((true,.) <$> msgs) = Done (replies, mkSledStore (Some t') failure) ∧
    (∀ k, kv_get s k = Done (tree_get t' k)) ∧
    (∀ pfx, kv_keys_with_prefix s pfx = sled_keys_with_prefix t' pfx) ∧
    (∀ keys, NoDup keys → kv_has_exact_keys s keys = sled_has_exact_keys t' keys).
Proof.
  intros Ht Hh.
  destruct (run_follows msgs (kv_new capture) ∅ (mem_new capture)) as (s & E1 & Hs).
  { rewrite map_to_list_empty. intros (k1 & k2 & Hk1 & Hk2 & Hne & E). by apply Hne, Hh. }
  destruct (run_follows msgs (mkSledStore (Some t) false) ∅ (sled_new t Ht)) as ([ot failure] & E2 & (t'' & Et & Ht')); [by intros []|].
  cbn [sdb] in Et. subst ot.
  eexists _, s, t'', failure. split; [exact E1|]. split; [exact E2|]. split; [|split].
  - intros k. by rewrite Ht', (mem_get s _ k Hs).
  - intros pfx. by apply (prefixes_agree s t'' _ Hs).
  - intros keys. by apply (exact_keys_agree s t'' _ Hs).
Qed.
End Agree.

(** ** Dumps *)

Section Dump.
Context `{KeyHash Bytes} (serialize : gmap Bytes Bytes → option Bytes) (deserialize : Bytes → option (gmap Bytes Bytes)).
Hypothesis deserialize_serialize : ∀ m bytes, serialize m = Some bytes → deserialize bytes = Some m.

Lemma insert_all_spec l : ∀ s M, mem_represents s M → log s = [] →
  match insert_all s l with
  | Done s' => mem_represents s' (foldl (λ M '(k, v), <[k := v]> M) M l) ∧ log s' = [] ∧ capture s' = capture s
  | Panic => same_hash ((map_to_list M).*1 ++ l.*1)
  | OutOfFuel => False
  end.
Proof.
  induction l as [|[k v] l IH]; intros s M Hs Hl; [done|]. cbn [insert_all foldl fmap list_fmap fst].
  pose proof (mem_insert s M k v None Hs) as Hi. destruct (kv_insert s k v None) as [s'| |]; cbn [obind]; [| |done].
  - destruct Hi as (Hs' & El & Ec). specialize (IH s' _ Hs').
    rewrite El in IH. unfold record_op in IH. rewrite Hl in IH. specialize (IH ltac:(by destruct (capture s))).
    destruct (insert_all s' l); [by rewrite Ec in IH| |done]. eapply same_hash_mono; [|exact IH].
    intros x. rewrite !elem_of_app, !elem_of_cons, !elem_of_keys.
    destruct (decide (x = k)) as [->|]; [auto|]. rewrite lookup_insert_ne by done. tauto.
  - eapply same_hash_mono; [|exact Hi]. intros x. rewrite elem_of_app. auto.
Qed.

Lemma fold_inserts (l : list (Bytes * Bytes)) : ∀ M : gmap Bytes Bytes, NoDup l.*1 → (∀ k, k ∈ l.*1 → M !! k = None) →
  foldl (λ M '(k, v), <[k := v]> M) M l = list_to_map l ∪ M.
Proof.
  induction l as [|[k v] l IH]; intros M Hn Hm; cbn [foldl list_to_map foldr fmap list_fmap fst] in *; [by rewrite (left_id_L ∅ (∪))|].
  apply NoDup_cons in Hn as [Hk Hn]. rewrite IH; [|done|].
  - rewrite <- insert_union_r by (by apply not_elem_of_list_to_map_1). by rewrite insert_union_l.
  - intros x Hx. rewrite lookup_insert_ne by (by intros ->). apply Hm. by right.
Qed.

(** A dump restores its store: every key has its value again, and the log of the restored store
    is empty. *)
Theorem dump_restores s M bytes capture' : mem_represents s M → kv_dump serialize s = Some bytes →
  ~ same_hash (map_to_list M).*1 →
  ∃ s', kv_from_dump deserialize bytes capture' = Done (Some s') ∧ (∀ k, kv_get s' k = kv_get s k) ∧
    log s' = [] ∧ capture s' = capture'.
Proof.
  intros Hs Hd Hh. unfold kv_from_dump. rewrite (deserialize_serialize _ _ Hd). change (list_to_map (entries (db s))) with (to_map (db s)).
  rewrite (proj2 Hs). pose proof (insert_all_spec (merge_sort pair_le (map_to_list M)) (kv_new capture') ∅ (mem_new capture') eq_refl) as Hi.
  rewrite map_to_list_empty in Hi. cbn [fmap list_fmap app] in Hi. destruct (insert_all _ _) as [s'| |]; cbn [obind]; [| |done].
  - destruct Hi as (Hs' & El & Ec). exists s'. split; [done|]. split; [|done]. intros k.
    rewrite (mem_get s' _ k Hs'), (mem_get s M k) by done. f_equal.
    rewrite fold_inserts; [|rewrite merge_sort_Permutation; apply NoDup_fst_map_to_list|done].
    rewrite (right_id_L ∅ (∪)). f_equal. rewrite <- (list_to_map_to_list M) at 2. apply list_to_map_proper; [|apply merge_sort_Permutation].
    rewrite merge_sort_Permutation. apply NoDup_fst_map_to_list.
  - destruct Hh. eapply same_hash_mono; [|exact Hi]. intros k. by rewrite merge_sort_Permutation.
Qed.
End Dump.

(** ** Snapshot cursors

    A store keeps, for every aggregate, the sequence number of its newest snapshot.  Batches are
    applied as a whole or not at all; the cursors of any store that implements [StoreLaws] never
    move back, whatever the disk does; and batches that come in order are all applied. *)

(** ** Little-endian cursors and their keys *)

Lemma length_to_le_bytes n z : length (to_le_bytes n z) = n.
Proof. unfold to_le_bytes. by rewrite length_reverse, length_to_be_bytes. Qed.

Lemma from_to_le_bytes z : 0 <= z < 2 ^ 64 → from_le_bytes (to_le_bytes 8 z) = z.
Proof.
  intros Hz. unfold from_le_bytes, to_le_bytes. rewrite reverse_involutive, from_to_be_bytes by lia.
  apply Z.mod_small. exact Hz.
Qed.

Lemma str_bytes_inj s1 s2 : str_bytes s1 = str_bytes s2 → s1 = s2.
Proof.
  unfold str_bytes. intros E. apply list_fmap_eq_inj in E.
  - by rewrite <- (String.string_of_list_ascii_of_string s1), E, String.string_of_list_ascii_of_string.
  - intros x y Exy. apply N2Z.inj in Exy. by rewrite <- (Ascii.ascii_N_embedding x), Exy, Ascii.ascii_N_embedding.
Qed.

Global Instance aggregate_seq_inj : Inj (=) (=) aggregate_seq.
Proof. intros a b E. apply str_bytes_inj, (inj (String.append _)) in E. by apply (inj pretty) in E. Qed.

(** ** Revisions *)

(** The loop, from what the commands before it showed. *)
Lemma revision_loop_spec commands : ∀ revision saw_direct,
  match revision_loop revision saw_direct commands with
  | Ok (Some r) => saw_direct = false ∧ (revision = None ∨ revision = Some r) ∧
      (∀ i, i ∈ commands → revision_of <$> i_ctx i = Some r) ∧ (commands = [] → revision = Some r)
  | Ok None => revision = None ∧ ∀ i, i ∈ commands → i_ctx i = None
  | Err CombinedRevisions => ∃ i c r, i ∈ commands ∧ i_ctx i = Some c ∧ r ≠ revision_of c ∧
      (revision = Some r ∨ ∃ j c', j ∈ commands ∧ i_ctx j = Some c' ∧ revision_of c' = r)
  | Err MixedWrites => (is_Some revision ∨ ∃ i, i ∈ commands ∧ is_Some (i_ctx i)) ∧
      (saw_direct = true ∨ ∃ i, i ∈ commands ∧ i_ctx i = None)
  | Err _ => False
  end.
Proof.
  induction commands as [|i commands IH]; intros revision saw_direct; cbn [revision_loop].
  { destruct revision as [r|], saw_direct; cbn; try (split; [done|]); auto using elem_of_nil; try set_solver. }
  destruct (i_ctx i) as [ctx|] eqn:Ei; [destruct revision as [current|]; [case_bool_decide as Ec|]|].
  all: assert (revision_of <$> i_ctx i = revision_of <$> i_ctx i) as Ef by done; rewrite Ei in Ef at 2; cbn in Ef.
  - specialize (IH (Some current) saw_direct). subst current.
    destruct (revision_loop _ _ _) as [[r|]|[]]; try done; try setoid_rewrite elem_of_cons; naive_solver.
  - exists i, ctx, current. split; [by left|]. split; [done|]. auto.
  - specialize (IH (Some (revision_of ctx)) saw_direct).
    destruct (revision_loop _ _ _) as [[r|]|[]]; try done; try setoid_rewrite elem_of_cons; naive_solver.
  - specialize (IH revision true). destruct (revision_loop _ _ _) as [[r|]|[]]; try done; try setoid_rewrite elem_of_cons; naive_solver.
Qed.

(** The revision of a batch: all its commands carry it, or none carries any; a batch that mixes
    two revisions, or writes with and without a context, is refused. *)
Lemma revision_spec commands :
  match snapshot_revision commands with
  | Ok (Some r) => commands ≠ [] ∧ ∀ i, i ∈ commands → revision_of <$> i_ctx i = Some r
  | Ok None => ∀ i, i ∈ commands → i_ctx i = None
  | Err CombinedRevisions => ∃ i j c c', i ∈ commands ∧ j ∈ commands ∧ i_ctx i = Some c ∧ i_ctx j = Some c' ∧
      revision_of c ≠ revision_of c'
  | Err MixedWrites => ∃ i j, i ∈ commands ∧ j ∈ commands ∧ is_Some (i_ctx i) ∧ i_ctx j = None
  | Err _ => False
  end.
Proof.
  unfold snapshot_revision. pose proof (revision_loop_spec commands None false) as Hr.
  destruct (revision_loop _ _ _) as [[r|]|[]]; try done.
  - destruct Hr as (_ & _ & Hc & Hn). split; [intros E; by specialize (Hn E)|done].
  - by destruct Hr.
  - destruct Hr as (i & c & r & Hi & Ec & Hne & [?|(j & c' & Hj & Ec' & <-)]); [done|]. exists i, j, c, c'. auto.
  - destruct Hr as [[[? ?]|(i & Hi & Hc)] [?|(j & Hj & Ec)]]; try done. by exists i, j.
Qed.

(** ** Atomicity *)

Definition cursor_of (M : gmap Bytes Bytes) (a : Z) : option Z := from_le_bytes <$> M !! aggregate_seq a.

(** Whether the map lets a batch in. *)
Definition admits (M : gmap Bytes Bytes) (batch : list Insert) : bool :=
  match snapshot_revision batch with
  | Ok None => true
  | Ok (Some r) => match cursor_check (M !! aggregate_seq (rev_aggregate r)) r with Ok b => b | Err _ => false end
  | Err _ => false
  end.

Lemma map_batch_admits M batch : (map_batch M batch).2 = if admits M batch then map_commands M batch else M.
Proof.
  unfold map_batch, admits. destruct (snapshot_revision batch) as [[r|]|]; [|done..]. by destruct (cursor_check _ r) as [[]|].
Qed.

(** A batch is written as a whole or not at all, by every store and whether or not the disk
    answers; it is not written when its sequence number is below the cursor of its aggregate. *)
Theorem batch_atomic {St} `{StoreLaws St} io s M batch r s' : represents s M →
  st_handle io s (SInsertBatch batch) = Done (r, s') →
  (represents s' M ∨ represents s' (map_commands M batch)) ∧
  (∀ rev c, snapshot_revision batch = Ok (Some rev) → cursor_of M (rev_aggregate rev) = Some c → rev_seq rev < c →
     represents s' M).
Proof.
  intros Hs E. pose proof (handle_follows io s M (SInsertBatch batch) Hs) as Hf. rewrite E in Hf.
  cbn [map_handle fst snd] in Hf. rewrite map_batch_admits in Hf.
  split; [destruct Hf as [[_ Hf]|[_ Hf]]; [destruct (admits M batch)|]; auto|].
  intros rev c Er Ec Hlt. destruct Hf as [[_ Hf]|[_ Hf]]; [|done].
  assert (admits M batch = false) as Ea; [|by rewrite Ea in Hf].
  unfold admits, cursor_check. rewrite Er. unfold cursor_of in Ec. destruct (M !! _) as [raw|]; [|done]. injection Ec as Ec.
  destruct (negb _); [done|]. rewrite Ec. destruct (Z.ltb_spec (rev_seq rev) c); [done|lia].
Qed.

(** ** Monotone cursors *)

(** The writer of a cursor writes its own revision. *)
Definition honest_insert (i : Insert) : Prop :=
  ∀ a, i_key i = aggregate_seq a →
    ∃ c, i_ctx i = Some c ∧ aggregate_id c = a ∧ 0 <= seq_no c < 2 ^ 64 ∧ i_value i = to_le_bytes 8 (seq_no c).

Definition honest_msg (msg : StoreMsg) : Prop :=
  match msg with
  | SInsert i => honest_insert i
  | SInsertBatch l | SInsertBatchIfAbsent l => ∀ i, i ∈ l → honest_insert i
  | SInsertSync k _ | SRemove k => ∀ a, k ≠ aggregate_seq a
  end.

Definition cursors_ok (M : gmap Bytes Bytes) : Prop := ∀ a raw, M !! aggregate_seq a = Some raw → length raw = 8%nat.

(** What may change under a key when commands are written. *)
Lemma commands_lookup batch : ∀ M k, map_commands M batch !! k = M !! k ∨
  ∃ i, i ∈ batch ∧ i_key i = k ∧ map_commands M batch !! k = Some (i_value i).
Proof.
  induction batch as [|i batch IH]; intros M k; [by left|]. cbn [map_commands foldl].
  destruct (IH (<[i_key i := i_value i]> M) k) as [E|(j & Hj & Ek & E)].
  - destruct (decide (i_key i = k)) as [<-|Hne]; [right; exists i; rewrite lookup_insert_eq in E; by split; [left|]|].
    rewrite lookup_insert_ne in E by done. by left.
  - right. exists j. by split; [right|].
Qed.

Definition cursors_le (M M' : gmap Bytes Bytes) : Prop :=
  cursors_ok M' ∧ ∀ a c, cursor_of M a = Some c → ∃ c', cursor_of M' a = Some c' ∧ c <= c'.

Lemma cursors_le_refl M : cursors_ok M → cursors_le M M.
Proof. intros Hok. split; [done|]. intros a c E. exists c. split; [done|lia]. Qed.

(** Commands whose every cursor write is at least the cursor it replaces. *)
Lemma commands_cursors M batch : cursors_ok M → (∀ i, i ∈ batch → honest_insert i) →
  (∀ i a c z, i ∈ batch → i_key i = aggregate_seq a → i_ctx i = Some c → cursor_of M a = Some z → z <= seq_no c) →
  cursors_le M (map_commands M batch).
Proof.
  intros Hok Hh Hge. split.
  - intros a raw E. destruct (commands_lookup batch M (aggregate_seq a)) as [E'|(i & Hi & Ek & E')]; [apply (Hok a); congruence|].
    destruct (Hh i Hi a Ek) as (c & _ & _ & _ & Ev). rewrite E, Ev in E'. injection E' as ->. apply length_to_le_bytes.
  - intros a z Ez. unfold cursor_of. destruct (commands_lookup batch M (aggregate_seq a)) as [->|(i & Hi & Ek & ->)]; [exists z; split; [done|lia]|].
    destruct (Hh i Hi a Ek) as (c & Ec & _ & Hb & Ev). exists (seq_no c). cbn. rewrite Ev, from_to_le_bytes by done.
    split; [done|]. by apply (Hge i a c z).
Qed.

Lemma batch_cursors M batch : cursors_ok M → (∀ i, i ∈ batch → honest_insert i) → cursors_le M (map_batch M batch).2.
Proof.
  intros Hok Hh. rewrite map_batch_admits. destruct (admits M batch) eqn:Ea; [|by apply cursors_le_refl].
  apply commands_cursors; [done..|]. intros i a c z Hi Ek Ec Ez. unfold admits in Ea.
  pose proof (revision_spec batch) as Hr. destruct (snapshot_revision batch) as [[r|]|]; [|exfalso; specialize (Hr i Hi); congruence|done].
  destruct Hr as [_ Hr]. specialize (Hr i Hi). rewrite Ec in Hr. injection Hr as <-. cbn [revision_of rev_aggregate rev_seq] in Ea.
  destruct (Hh i Hi a Ek) as (c' & Ec' & <- & _). rewrite Ec in Ec'. injection Ec' as <-.
  unfold cursor_of in Ez. unfold cursor_check in Ea. destruct (M !! _) as [raw|] eqn:Er; [|done]. injection Ez as Ez.
  rewrite (Hok _ _ Er) in Ea. cbn [Nat.eqb negb rev_seq] in Ea. rewrite Ez in Ea. apply negb_true_iff, Z.ltb_ge in Ea. done.
Qed.

Lemma handle_cursors M msg : cursors_ok M → honest_msg msg → cursors_le M (map_handle M msg).2.
Proof.
  intros Hok Hh. destruct msg as [i|batch|commands|k v|k]; cbn [map_handle snd honest_msg] in *.
  - apply batch_cursors; [done|]. intros j ->%list_elem_of_singleton. done.
  - by apply batch_cursors.
  - destruct (existsb _ commands) eqn:Ee; [by apply cursors_le_refl|]. apply commands_cursors; [done..|].
    intros i a c z Hi Ek Ec Ez. exfalso. apply not_true_iff_false in Ee. apply Ee, existsb_exists. exists i.
    split; [by apply list_elem_of_In|]. apply bool_decide_eq_true. rewrite Ek. unfold cursor_of in Ez. by destruct (M !! _).
  - split; intros a z; unfold cursor_of; rewrite lookup_insert_ne by done; [apply Hok|]. intros E. exists z. split; [done|lia].
  - split; intros a z; unfold cursor_of; rewrite lookup_delete_ne by done; [apply Hok|]. intros E. exists z. split; [done|lia].
Qed.

(** The cursor of an aggregate never moves back, in any store and through any sequence of messages
    and disk failures, as long as cursors are only written with the revision of their writer. *)
Theorem cursor_never_moves_back {St} `{StoreLaws St} msgs : ∀ s M rs s', represents s M → cursors_ok M →
  Forall (λ m, honest_msg m.2) msgs → st_run s msgs = Done (rs, s') →
  ∃ M', represents s' M' ∧ ∀ a c, cursor_of M a = Some c → ∃ c', cursor_of M' a = Some c' ∧ c <= c'.
Proof.
  induction msgs as [|[io msg] msgs IH]; intros s M rs s' Hs Hok Hh E.
  { injection E as <- <-. exists M. split; [done|]. apply cursors_le_refl, Hok. }
  apply Forall_cons in Hh as [Hm Hh]. cbn [st_run snd] in *. pose proof (handle_follows io s M msg Hs) as Hf.
  destruct (st_handle io s msg) as [[r s1]| |]; [|done..]. cbn [obind] in E.
  destruct (st_run s1 msgs) as [[rs1 s2]| |] eqn:E1; [|done..]. injection E as <- <-.
  assert (∃ M1, represents s1 M1 ∧ cursors_le M M1) as (M1 & Hs1 & Hok1 & Hle).
  { destruct Hf as [[_ Hs1]|[_ Hs1]]; [|exists M; split; [done|by apply cursors_le_refl]]. eexists. split; [exact Hs1|]. by apply handle_cursors. }
  destruct (IH s1 M1 rs1 s2 Hs1 Hok1 Hh E1) as (M' & Hs' & Hle'). exists M'. split; [done|].
  intros a c Ec. destruct (Hle a c Ec) as (c1 & Ec1 & ?). destruct (Hle' a c1 Ec1) as (c2 & Ec2 & ?). exists c2. split; [done|lia].
Qed.
