(* ===== verification/KvStoreExample.v ===== *)
(** * Concrete stores

    A hash and an ordered tree, and the theorems of the stores at concrete messages. *)

From S2P Require Import Prelude Events Orchestration OrchestrationExample Hamt HamtProps KvStore KvStoreProps.
Local Open Scope Z_scope.

(** A polynomial hash. *)
Definition ex_hash (k : Bytes) : Z := foldl (λ h b, h * 257 + b + 1) 7 k mod 2 ^ 64.

#[export] Instance ex_key_hash : KeyHash Bytes := { hash_key := ex_hash; hash_range k := Z.mod_pos_bound _ (2 ^ 64) eq_refl }.

(** The tree of a finite map. *)
#[export] Instance ex_sled_tree : SledTree := {
  Tree := gmap Bytes Bytes;
  tree_get t k := t !! k;
  tree_insert t k v := <[k := v]> t;
  tree_remove t k := delete k t;
  tree_keys t := merge_sort bytes_le (map_to_list t).*1 }.

#[export] Instance ex_sled_tree_laws : SledTreeLaws.
Proof.
  constructor; cbn [ex_sled_tree tree_get tree_insert tree_remove tree_keys].
  - intros t k v k'. apply lookup_insert.
  - intros t k k'. apply lookup_delete.
  - intros t k. by rewrite merge_sort_Permutation, elem_of_keys.
  - intros t. split; [apply (StronglySorted_merge_sort _)|]. rewrite merge_sort_Permutation. apply NoDup_fst_map_to_list.
Qed.

Definition ex_at (a seq : Z) : EventContext := mkContext 1 1 1 seq 1 a None Local_.

(** A batch that moves the cursor of an aggregate and writes one key. *)
Definition ex_batch (a seq : Z) (key : Bytes) : list Insert :=
  [mkInsert (aggregate_seq a) (to_le_bytes 8 seq) (Some (ex_at a seq)); mkInsert key [seq] (Some (ex_at a seq))].

Definition ex_messages : list StoreMsg :=
  [SInsertSync [1; 2] [9]; SInsertBatch (ex_batch 1 5 [3]); SInsertBatch (ex_batch 1 4 [1; 2]);
   SInsertBatchIfAbsent [mkInsert [3] [0] None]; SRemove [1; 2]; SInsert (mkInsert [4] [7] None)].

(** The stale batch 4 is ignored, and the conditional write refused. *)
Example ex_messages_replies : map_run ∅ ex_messages =
  ([Replied true; Replied true; Replied true; Replied false; Replied true; Replied true],
   <[aggregate_seq 1 := to_le_bytes 8 5]> (<[[3] := [5]]> {[ [4] := [7] ]})).
Proof. vm_compute. reflexivity. Qed.

(** Whether the hashes of some keys are distinct. *)
Definition distinct_hashes (keys : list Bytes) : bool :=
  forallb (λ k1, forallb (λ k2, negb (ex_hash k1 =? ex_hash k2) || bool_decide (k1 = k2)) keys) keys.

Lemma distinct_hashes_spec keys : distinct_hashes keys = true →
  ∀ k1 k2, k1 ∈ keys → k2 ∈ keys → hash_key k1 = hash_key k2 → k1 = k2.
Proof.
  cbn [hash_key ex_key_hash]. intros Hd k1 k2 H1%list_elem_of_In H2%list_elem_of_In E. unfold distinct_hashes in Hd. rewrite forallb_forall in Hd.
  specialize (Hd k1 H1). rewrite forallb_forall in Hd. specialize (Hd k2 H2).
  rewrite E, Z.eqb_refl in Hd. by apply bool_decide_eq_true in Hd.
Qed.

Lemma ex_messages_distinct : distinct_hashes (flat_map msg_keys ex_messages) = true.
Proof. vm_compute. reflexivity. Qed.

(** [stores_agree] at [ex_messages]. *)
Lemma stores_agree_witness : ∃ replies s t' failure,
  st_run (kv_new true) ((true,.) <$> ex_messages) = Done (replies, s) ∧
  st_run (mkSledStore (Some ∅) false) ((true,.) <$> ex_messages) = Done (replies, mkSledStore (Some t') failure) ∧
  kv_get s [3] = Done (tree_get t' [3]).
Proof.
  destruct (stores_agree true ∅ ex_messages (λ k, lookup_empty k)
    (distinct_hashes_spec _ ex_messages_distinct)) as (replies & s & t' & failure & E1 & E2 & Hg & _).
  exists replies, s, t', failure. split; [exact E1|]. split; [exact E2|]. exact (Hg [3]).
Defined.

(** ** Cursors *)

Lemma ex_batch_honest a seq key : 0 <= seq < 2 ^ 64 → (∀ b, key ≠ aggregate_seq b) → ∀ i, i ∈ ex_batch a seq key → honest_insert i.
Proof.
  intros Hb Hk i [->|[->|?%not_elem_of_nil]%elem_of_cons]%elem_of_cons b; cbn [i_key i_ctx i_value]; [|intros E; by destruct (Hk b)|done].
  intros ->%(inj aggregate_seq). by exists (ex_at b seq).
Qed.

(** Cursor keys start with a slash. *)
Lemma not_cursor_key key : head key ≠ Some 47 → ∀ b, key ≠ aggregate_seq b.
Proof. intros Hh b ->. by apply Hh. Qed.

(** The disk fails on the first attempt at batch 6. *)
Definition ex_faulty : list (bool * StoreMsg) :=
  [(true, SInsertBatch (ex_batch 1 5 [3])); (false, SInsertBatch (ex_batch 1 6 [3])); (true, SInsertBatch (ex_batch 1 4 [3]));
   (true, SInsertBatch (ex_batch 1 6 [3]))].

Lemma ex_faulty_honest : Forall (λ m, honest_msg m.2) ex_faulty.
Proof. repeat constructor; cbn [snd honest_msg]; apply ex_batch_honest; (lia || by apply not_cursor_key). Qed.

(** [cursor_never_moves_back] at [ex_faulty], started after batch 3. *)
Lemma cursor_never_moves_back_witness : ∃ rs s' M',
  st_run (mkSledStore (Some {[ aggregate_seq 1 := to_le_bytes 8 3 ]}) false) ex_faulty = Done (rs, s') ∧
  represents s' M' ∧ ∃ c', cursor_of M' 1 = Some c' ∧ 3 <= c'.
Proof.
  destruct (st_run (mkSledStore (Some {[ aggregate_seq 1 := to_le_bytes 8 3 ]}) false) ex_faulty) as [[rs s']| |] eqn:E; [|done..].
  destruct (cursor_never_moves_back ex_faulty (mkSledStore (Some {[ aggregate_seq 1 := to_le_bytes 8 3 ]}) false)
    {[ aggregate_seq 1 := to_le_bytes 8 3 ]} rs s') as (M' & Hs & Hc).
  - eexists. split; [reflexivity|]. done.
  - intros a raw [_ <-]%lookup_singleton_Some. reflexivity.
  - exact ex_faulty_honest.
  - exact E.
  - exists rs, s', M'. split; [done|]. split; [exact Hs|]. apply (Hc 1 3). unfold cursor_of. rewrite lookup_singleton_eq. reflexivity.
Defined.

(** [batch_atomic] at a stale batch. *)
Lemma batch_atomic_witness : ∃ r s',
  st_handle true (mkSledStore (Some {[ aggregate_seq 1 := to_le_bytes 8 3 ]}) false) (SInsertBatch (ex_batch 1 2 [3])) = Done (r, s') ∧
  represents s' {[ aggregate_seq 1 := to_le_bytes 8 3 ]}.
Proof.
  destruct (st_handle true (mkSledStore (Some {[ aggregate_seq 1 := to_le_bytes 8 3 ]}) false) (SInsertBatch (ex_batch 1 2 [3])))
    as [[r s']| |] eqn:E; [|done..].
  exists r, s'. split; [done|].
  refine (proj2 (batch_atomic true _ _ (ex_batch 1 2 [3]) r s' _ E) (mkRevision 1 2) 3 eq_refl _ eq_refl).
  - eexists. split; [reflexivity|]. done.
  - unfold cursor_of. cbn [rev_aggregate]. rewrite lookup_singleton_eq. reflexivity.
Defined.

(** ** Dumps *)

(** An encoding that decodes. *)
Definition ex_serialize (m : gmap Bytes Bytes) : option Bytes := Some [Z.pos (encode (map_to_list m))].

Definition ex_deserialize (bytes : Bytes) : option (gmap Bytes Bytes) :=
  match bytes with [Z.pos p] => list_to_map <$> decode p | _ => None end.

Lemma ex_deserialize_serialize m bytes : ex_serialize m = Some bytes → ex_deserialize bytes = Some m.
Proof. intros [= <-]. cbn [ex_deserialize]. rewrite decode_encode. cbn. by rewrite list_to_map_to_list. Qed.

Lemma ex_two_distinct : distinct_hashes (map_to_list (map_run ∅ [SInsertSync [3] [5]; SInsertSync [4] [6]]).2).*1 = true.
Proof. vm_compute. reflexivity. Qed.

(** [dump_restores] at a store of two keys. *)
Lemma dump_restores_witness : ∃ s s' bytes, st_run (kv_new true) [(true, SInsertSync [3] [5]); (true, SInsertSync [4] [6])] = Done ([Replied true; Replied true], s) ∧
  kv_dump ex_serialize s = Some bytes ∧ kv_from_dump ex_deserialize bytes false = Done (Some s') ∧ kv_get s' [4] = kv_get s [4].
Proof.
  destruct (run_follows [SInsertSync [3] [5]; SInsertSync [4] [6]] (kv_new true) ∅ (mem_new true)) as (s & E & Hs).
  { intros (k1 & k2 & H1 & H2 & Hne & Eh). exact (Hne (distinct_hashes_spec [[3]; [4]] eq_refl k1 k2 H1 H2 Eh)). }
  destruct (dump_restores ex_serialize ex_deserialize ex_deserialize_serialize s _ _ false Hs eq_refl) as (s' & Ed & Hg & _).
  { intros (k1 & k2 & H1 & H2 & Hne & Eh). exact (Hne (distinct_hashes_spec _ ex_two_distinct k1 k2 H1 H2 Eh)). }
  exists s, s'. eexists. split; [exact E|]. split; [reflexivity|]. split; [exact Ed|]. exact (Hg [4]).
Defined.

(** The queries differ on a list with a duplicate: the store in memory counts it. *)
Example exact_keys_duplicate :
  match st_run (kv_new false) [(true, SInsertSync [3] [5])] with
  | Done (_, s) => kv_has_exact_keys s [[3]; [3]] = false
  | _ => False
  end ∧ sled_has_exact_keys (<[[3] := [5]]> ∅) [[3]; [3]] = true.
Proof. vm_compute. done. Qed.

(** ** Collisions *)

(** A hash that only looks at the length. *)
#[local] Instance length_hash : KeyHash Bytes := { hash_key k := Z.of_nat (length k) mod 2 ^ 64; hash_range k := Z.mod_pos_bound _ (2 ^ 64) eq_refl }.

(** [collision_panics] at keys of lengths one, one and two. *)
Lemma collision_panics_witness :
  run_ops (K:=Bytes) (V:=Bytes) [OpInsert [1] [0]; OpInsert [2] [0]; OpInsert [3; 4] [0]] new = Panic.
Proof. apply (collision_panics (K:=Bytes) (V:=Bytes) [1] [2] [3; 4] [0] [0] [0]); [discriminate|reflexivity|discriminate]. Defined.
