(* ===== verification/SnapshotBuffer.v ===== *)
(** * The snapshot buffer

    Model of crates/events/src/snapshot_buffer: the configuration of the aggregates, the batches of
    the router, the queue of timelocks and the buffer that connects them.  Writes of one event are
    collected in a batch; the next event of the aggregate starts the timelock of the batch; a tick
    after its expiry flushes the batch to the store; the final drain flushes the rest.

    The actors run concurrently.  A step of the model is one message handled by one actor: the
    mailboxes between router and queue are the two FIFO lists of [Buffer], and any interleaving is
    a sequence of [Input]s.  The router waits for the write of a flush ([ctx.wait]) but not for a
    drain, whose writes are steps of their own.  Clock readings and the replies of the store are
    part of the inputs.  The mailbox of a batch is handled before its flush, so its inserts are
    kept with the batch.  Durations are nanoseconds. *)

From stdpp Require Import pretty.
From S2P Require Import Prelude Events Orchestration Hamt KvStore.
Local Open Scope Z_scope.

(** ** Configuration *)

Definition from_micros (n : Z) : Z := n * 1000.

(** [Duration] addition panics from this value on. *)
Definition DURATION_LIMIT : Z := 2 ^ 64 * 10 ^ 9.

Record AggregateConfig := mkConfig { delays : gmap Z Z }.

Definition get_delay (c : AggregateConfig) (id : Z) : Z := default (from_micros 0) (delays c !! id).

Definition config_new (ds : gmap Z Z) : AggregateConfig :=
  mkConfig (match ds !! 0 with Some _ => ds | None => <[0 := from_micros 0]> ds end).

Definition indexed_ids (c : AggregateConfig) : list Z := (map_to_list (delays c)).*1.

(** ** Keys and timelocks *)

Record SnapshotKey := mkKey { k_agg : Z; k_seq : Z }.

Global Instance SnapshotKey_eq_dec : EqDecision SnapshotKey.
Proof. solve_decision. Defined.

Global Instance SnapshotKey_countable : Countable SnapshotKey :=
  inj_countable' (λ k, (k_agg k, k_seq k)) (λ p, mkKey p.1 p.2) (λ k, match k with mkKey _ _ => eq_refl end).

Record StartTimelock := mkStart { st_key : SnapshotKey; st_now : Z; st_delay : Z }.

Record Timelock := mkTimelock { expiry : Z; tl_key : SnapshotKey }.

(** The order of [Timelock]: by expiry, then by key. *)
Definition key_cmp (a b : SnapshotKey) : comparison :=
  match k_agg a ?= k_agg b with Eq => k_seq a ?= k_seq b | c => c end.

Definition timelock_cmp (a b : Timelock) : comparison :=
  match expiry a ?= expiry b with Eq => key_cmp (tl_key a) (tl_key b) | c => c end.

Definition timelock_le (a b : Timelock) : Prop := timelock_cmp a b ≠ Gt.

Global Instance timelock_le_dec a b : Decision (timelock_le a b).
Proof. unfold timelock_le. apply _. Defined.

(** The heap of reversed timelocks gives the least first: it is kept as a sorted list. *)
Fixpoint heap_push (t : Timelock) (q : list Timelock) : list Timelock :=
  match q with
  | [] => [t]
  | x :: q' => if decide (timelock_le t x) then t :: q else x :: heap_push t q'
  end.

Definition start_timelock (q : list Timelock) (msg : StartTimelock) : Outcome (list Timelock) :=
  if st_now msg + st_delay msg <? DURATION_LIMIT then Done (heap_push (mkTimelock (st_now msg + st_delay msg) (st_key msg)) q)
  else Panic.

Definition next_timelock_lt (q : list Timelock) (now : Z) : bool :=
  match q with [] => false | t :: _ => expiry t <=? now end.

(** The loop of a tick: the keys to flush, and the timelocks that stay. *)
Fixpoint tick (q : list Timelock) (now : Z) : list SnapshotKey * list Timelock :=
  match q with
  | [] => ([], [])
  | t :: q' => if next_timelock_lt q now then let '(ks, rest) := tick q' now in (tl_key t :: ks, rest) else ([], q)
  end.

(** ** The router *)

Record PendingBatch := mkPending { order : Z; inserts : list Insert; batch_db : nat; scheduled : bool }.

Record BatchRouter := mkRouter {
  config : AggregateConfig;
  batches : gmap SnapshotKey PendingBatch;
  next_batch_order : Z;
  block_height_seen : gmap Z Z;
  router_db : nat;
  router_failure : option StoreError }.

Definition router_new (config : AggregateConfig) (db : nat) : BatchRouter := mkRouter config ∅ 0 ∅ db None.

Definition with_batches (r : BatchRouter) (b : gmap SnapshotKey PendingBatch) : BatchRouter :=
  mkRouter (config r) b (next_batch_order r) (block_height_seen r) (router_db r) (router_failure r).

Definition get_highest_block (r : BatchRouter) (agg : Z) (block : option Z) : Z * BatchRouter :=
  let highest := default 0 (block_max block (block_height_seen r !! agg)) in
  (highest, mkRouter (config r) (batches r) (next_batch_order r) (<[agg := highest]> (block_height_seen r)) (router_db r)
              (router_failure r)).

Definition record_write_failure (r : BatchRouter) (error : StoreError) : BatchRouter :=
  mkRouter (config r) (batches r) (next_batch_order r) (block_height_seen r) (router_db r)
    (match router_failure r with None => Some error | failure => failure end).

Definition order_le (a b : SnapshotKey * PendingBatch) : Prop := order a.2 <= order b.2.

Global Instance order_le_dec a b : Decision (order_le a b).
Proof. unfold order_le. apply _. Defined.

Definition set_scheduled (b : PendingBatch) : PendingBatch := mkPending (order b) (inserts b) (batch_db b) true.

(** The batches of the aggregate to schedule, in the order of their events. *)
Definition older_batches (r : BatchRouter) (agg seq : Z) : list (SnapshotKey * PendingBatch) :=
  merge_sort order_le
    (List.filter (λ '(key, batch), (k_agg key =? agg) && (k_seq key <? seq) && negb (scheduled batch)) (map_to_list (batches r))).

Definition schedule_older_batches (r : BatchRouter) (agg seq now : Z) : list StartTimelock * BatchRouter :=
  let older := older_batches r agg seq in
  let delay := get_delay (config r) agg in
  ((λ kb : SnapshotKey * PendingBatch, mkStart kb.1 (from_micros now) delay) <$> older,
   with_batches r (foldl (λ m kb, alter set_scheduled kb.1 m) (batches r) older)).

(** Messages to a store, by how they came about. *)
Inductive SentKind := OfBatch (key : SnapshotKey) | Direct | Barrier.
Record Sent := mkSent { sent_db : nat; sent_kind : SentKind; sent_inserts : list Insert }.

Definition ctx_key (c : EventContext) : SnapshotKey := mkKey (aggregate_id c) (seq_no c).

Definition push_insert (msg : Insert) (b : PendingBatch) : PendingBatch :=
  mkPending (order b) (inserts b ++ [msg]) (batch_db b) (scheduled b).

Definition router_insert (r : BatchRouter) (msg : Insert) : list Sent * BatchRouter :=
  match i_ctx msg with
  | None => ([mkSent (router_db r) Direct [msg]], r)
  | Some ctx =>
      match batches r !! ctx_key ctx with
      | Some batch => ([], with_batches r (<[ctx_key ctx := push_insert msg batch]> (batches r)))
      | None => ([mkSent (router_db r) Direct [msg]], r)
      end
  end.

Definition encode_u64 (v : Z) : Bytes := to_le_bytes 8 v.
Definition encode_u128 (v : Z) : Bytes := to_le_bytes 16 v.

(** The first writes of a batch. *)
Definition metadata (ec : EventContext) (highest_block : Z) : list Insert :=
  [mkInsert (aggregate_seq (aggregate_id ec)) (encode_u64 (seq_no ec)) (Some ec);
   mkInsert (aggregate_block (aggregate_id ec)) (encode_u64 highest_block) (Some ec);
   mkInsert (aggregate_ts (aggregate_id ec)) (encode_u128 (ctx_ts ec)) (Some ec)].

(** [u128::saturating_add(1)] *)
Definition saturating_succ (n : Z) : Z := Z.min (n + 1) (2 ^ 128 - 1).

Definition open_batch (r : BatchRouter) (ec : EventContext) : BatchRouter :=
  let '(highest_block, r) := get_highest_block r (aggregate_id ec) (block ec) in
  let batch := mkPending (next_batch_order r) (metadata ec highest_block) (router_db r) false in
  mkRouter (config r) (<[ctx_key ec := batch]> (batches r)) (saturating_succ (next_batch_order r)) (block_height_seen r)
    (router_db r) (router_failure r).

Definition router_event (r : BatchRouter) (shutdown : bool) (ec : EventContext) (now : Z) : list StartTimelock * BatchRouter :=
  if shutdown then ([], r)
  else
    let '(timelocks, r) := schedule_older_batches r (aggregate_id ec) (seq_no ec) now in
    if bool_decide (is_Some (batches r !! ctx_key ec)) then (timelocks, r) else (timelocks, open_batch r ec).

(** The flush of a batch: what it sends; the reply of the store is a failure or not. *)
Definition flush_batch (key : SnapshotKey) (b : PendingBatch) : list Sent :=
  match inserts b with [] => [] | l => [mkSent (batch_db b) (OfBatch key) l] end.

Definition flush_result (b : PendingBatch) (reply : result () StoreError) : option StoreError :=
  match inserts b, reply with
  | [], _ => None
  | _, Ok _ => None
  | _, Err e => Some e
  end.

Definition router_flush (r : BatchRouter) (key : SnapshotKey) (reply : result () StoreError) : list Sent * BatchRouter :=
  match batches r !! key with
  | None => ([], r)
  | Some b =>
      let r := with_batches r (delete key (batches r)) in
      (flush_batch key b, match flush_result b reply with None => r | Some e => record_write_failure r e end)
  end.

(** ** The drain *)

Record Drain := mkDrain {
  d_batches : list (SnapshotKey * PendingBatch);
  d_db : nat;
  d_failures : list StoreError;
  d_result : option (result () (list StoreError)) }.

Definition router_drain (r : BatchRouter) : Drain * BatchRouter :=
  (mkDrain (merge_sort order_le (map_to_list (batches r))) (router_db r) (option_list (router_failure r)) None,
   mkRouter (config r) ∅ (next_batch_order r) (block_height_seen r) (router_db r) None).

(** One awaited write of a drain: the next batch, or the barrier, after which it answers. *)
Definition drain_next (d : Drain) (reply : result () StoreError) : list Sent * Drain :=
  match d_result d, d_batches d with
  | Some _, _ => ([], d)
  | None, (key, b) :: rest =>
      (flush_batch key b, mkDrain rest (d_db d) (d_failures d ++ option_list (flush_result b reply)) None)
  | None, [] =>
      let failures := d_failures d ++ match reply with Ok _ => [] | Err e => [e] end in
      ([mkSent (d_db d) Barrier []],
       mkDrain [] (d_db d) failures (Some (match failures with [] => Ok tt | _ => Err failures end)))
  end.

(** ** The actors together *)

Record Buffer := mkBuffer {
  router : BatchRouter;
  queue : list Timelock;
  to_queue : list StartTimelock;
  to_router : list SnapshotKey;
  drains : list Drain;
  sent : list Sent }.

Definition buffer_new (config : AggregateConfig) (db : nat) : Buffer := mkBuffer (router_new config db) [] [] [] [] [].

Inductive Input :=
| InInsert (msg : Insert)
| InEvent (shutdown : bool) (ec : EventContext) (now : Z)
| InTimelock
| InTick (now : Z)
| InFlush (reply : result () StoreError)
| InDrain
| InDrainNext (j : nat) (reply : result () StoreError)
| InDestination (db : nat).

Definition step (s : Buffer) (input : Input) : Outcome Buffer :=
  match input with
  | InInsert msg =>
      let '(out, r) := router_insert (router s) msg in
      Done (mkBuffer r (queue s) (to_queue s) (to_router s) (drains s) (sent s ++ out))
  | InEvent shutdown ec now =>
      let '(timelocks, r) := router_event (router s) shutdown ec now in
      Done (mkBuffer r (queue s) (to_queue s ++ timelocks) (to_router s) (drains s) (sent s))
  | InTimelock =>
      match to_queue s with
      | [] => Done s
      | t :: rest =>
          let! q := start_timelock (queue s) t in Done (mkBuffer (router s) q rest (to_router s) (drains s) (sent s))
      end
  | InTick now =>
      let '(keys, q) := tick (queue s) (from_micros now) in
      Done (mkBuffer (router s) q (to_queue s) (to_router s ++ keys) (drains s) (sent s))
  | InFlush reply =>
      match to_router s with
      | [] => Done s
      | key :: rest =>
          let '(out, r) := router_flush (router s) key reply in
          Done (mkBuffer r (queue s) (to_queue s) rest (drains s) (sent s ++ out))
      end
  | InDrain =>
      let '(d, r) := router_drain (router s) in
      Done (mkBuffer r (queue s) (to_queue s) (to_router s) (drains s ++ [d]) (sent s))
  | InDrainNext j reply =>
      match drains s !! j with
      | None => Done s
      | Some d =>
          let '(out, d) := drain_next d reply in
          Done (mkBuffer (router s) (queue s) (to_queue s) (to_router s) (<[j := d]> (drains s)) (sent s ++ out))
      end
  | InDestination db =>
      let r := router s in
      Done (mkBuffer (mkRouter (config r) (batches r) (next_batch_order r) (block_height_seen r) db (router_failure r))
              (queue s) (to_queue s) (to_router s) (drains s) (sent s))
  end.

Fixpoint run (s : Buffer) (inputs : list Input) : Outcome Buffer :=
  match inputs with [] => Done s | i :: rest => let! s' := step s i in run s' rest end.
