(* ===== verification/SnapshotProps.v ===== *)
(** * What the snapshot buffer keeps

    The queue gives up exactly the expired timelocks, in their order; no write is lost or doubled,
    whatever the interleaving; every batch holds the writes of one revision; failures are
    remembered until the drain; and a drain writes every open batch and answers. *)

From S2P Require Import Prelude Events Orchestration Hamt KvStore KvStoreProps SnapshotBuffer.
Local Open Scope Z_scope.

(** ** The queue of timelocks *)

Lemma key_cmp_opp a b : key_cmp b a = CompOpp (key_cmp a b).
Proof.
  unfold key_cmp. rewrite (Z.compare_antisym (k_agg a)), (Z.compare_antisym (k_seq a)). by destruct (k_agg a ?= k_agg b).
Qed.

Lemma timelock_cmp_opp a b : timelock_cmp b a = CompOpp (timelock_cmp a b).
Proof. unfold timelock_cmp. rewrite (Z.compare_antisym (expiry a)), (key_cmp_opp (tl_key a)). by destruct (expiry a ?= expiry b). Qed.

Lemma timelock_le_spec a b : timelock_le a b ↔ expiry a < expiry b ∨ (expiry a = expiry b ∧
  (k_agg (tl_key a) < k_agg (tl_key b) ∨ (k_agg (tl_key a) = k_agg (tl_key b) ∧ k_seq (tl_key a) <= k_seq (tl_key b)))).
Proof.
  unfold timelock_le, timelock_cmp, key_cmp.
  destruct (Z.compare_spec (expiry a) (expiry b)), (Z.compare_spec (k_agg (tl_key a)) (k_agg (tl_key b))),
    (Z.compare_spec (k_seq (tl_key a)) (k_seq (tl_key b))); split; try done; try lia; intros _; lia.
Qed.

Global Instance timelock_le_total : Total timelock_le.
Proof. intros a b. unfold timelock_le. rewrite (timelock_cmp_opp a b). destruct (timelock_cmp a b); cbn; auto. Qed.

Global Instance timelock_le_trans : Transitive timelock_le.
Proof. intros a b c. rewrite !timelock_le_spec. lia. Qed.

Lemma heap_push_Permutation t q : heap_push t q ≡ₚ t :: q.
Proof. induction q as [|x q IH]; cbn [heap_push]; [done|]. case_decide; [done|]. rewrite IH. apply Permutation_swap. Qed.

Lemma heap_push_sorted t q : StronglySorted timelock_le q → StronglySorted timelock_le (heap_push t q).
Proof.
  induction 1 as [|x q Hq IH Hx]; cbn [heap_push]; [by repeat constructor|]. case_decide as Hle.
  - constructor; [by constructor|]. constructor; [done|]. eapply Forall_impl; [exact Hx|]. intros y Hy. by transitivity x.
  - constructor; [done|]. rewrite heap_push_Permutation. constructor; [|done]. by destruct (total timelock_le t x).
Qed.

Lemma expired_none q now : Forall (λ t, now < expiry t) q →
  List.filter (λ t, expiry t <=? now) q = [] ∧ List.filter (λ t, negb (expiry t <=? now)) q = q.
Proof.
  induction 1 as [|t q Ht _ [IH1 IH2]]; [done|]. cbn [List.filter]. destruct (Z.leb_spec (expiry t) now); [lia|]. cbn [negb].
  by rewrite IH1, IH2.
Qed.

Lemma tick_spec q now : StronglySorted timelock_le q →
  tick q now = (tl_key <$> List.filter (λ t, expiry t <=? now) q, List.filter (λ t, negb (expiry t <=? now)) q).
Proof.
  induction 1 as [|t q Hq IH Ht]; [done|]. cbn [tick next_timelock_lt List.filter].
  destruct (Z.leb_spec (expiry t) now) as [Hle|Hgt]; cbn [negb]; [by rewrite IH|].
  destruct (expired_none q now) as [-> ->]; [|done].
  eapply Forall_impl; [exact Ht|]. intros x Hx%timelock_le_spec. lia.
Qed.

(** ** Steps *)

Definition queue_sorted (s : Buffer) : Prop := StronglySorted timelock_le (queue s).

Lemma sorted_filter_timelocks (p : Timelock → bool) l : StronglySorted timelock_le l → StronglySorted timelock_le (List.filter p l).
Proof.
  induction 1 as [|x l Hl IH Hx]; cbn; [constructor|]. destruct (p x); [|done]. constructor; [done|].
  rewrite Forall_forall in Hx |- *. intros y. rewrite list_elem_of_In, filter_In, <- list_elem_of_In. intros [? _]. auto.
Qed.

Lemma step_sorted s input s' : queue_sorted s → step s input = Done s' → queue_sorted s'.
Proof.
  intros Hs E. destruct input; cbn [step] in E.
  - destruct (router_insert _ _). by injection E as <-.
  - destruct (router_event _ _ _ _). by injection E as <-.
  - destruct (to_queue s) as [|t rest]; [by injection E as <-|]. unfold start_timelock in E.
    destruct (_ <? _); [|done]. injection E as <-. by apply heap_push_sorted.
  - rewrite tick_spec in E by done. injection E as <-. by apply sorted_filter_timelocks.
  - destruct (to_router s); [by injection E as <-|]. destruct (router_flush _ _ _). by injection E as <-.
  - by injection E as <-.
  - destruct (drains s !! j); [|by injection E as <-]. destruct (drain_next _ _). by injection E as <-.
  - by injection E as <-.
Qed.

Lemma run_inv (P : Buffer → Prop) : (∀ s input s', P s → step s input = Done s' → P s') →
  ∀ inputs s s', P s → run s inputs = Done s' → P s'.
Proof.
  intros Hstep. induction inputs as [|i inputs IH]; intros s s' Hs E; [by injection E as <-|].
  cbn [run] in E. destruct (step s i) as [s1| |] eqn:E1; [|done..]. cbn [obind] in E. eauto.
Qed.

(** A tick releases exactly the timelocks that have expired, oldest expiry first and then by key,
    and keeps the others, in every state that the buffer can reach. *)
Theorem tick_releases_expired config db inputs s now : run (buffer_new config db) inputs = Done s →
  ∃ s', step s (InTick now) = Done s' ∧
    to_router s' = to_router s ++ (tl_key <$> List.filter (λ t, expiry t <=? from_micros now) (queue s)) ∧
    queue s' = List.filter (λ t, negb (expiry t <=? from_micros now)) (queue s) ∧
    StronglySorted timelock_le (queue s).
Proof.
  intros Hr. assert (queue_sorted s) as Hs by (eapply (run_inv queue_sorted step_sorted); [|exact Hr]; constructor).
  cbn [step]. rewrite tick_spec by done. by eexists.
Qed.

(** ** Every write is in one place *)

Definition batches_inserts (l : list (SnapshotKey * PendingBatch)) : list Insert := flat_map (λ kb, inserts kb.2) l.

Definition open_inserts (m : gmap SnapshotKey PendingBatch) : list Insert := batches_inserts (map_to_list m).

Definition held (s : Buffer) : list Insert :=
  flat_map sent_inserts (sent s) ++ open_inserts (batches (router s)) ++ flat_map (λ d, batches_inserts (d_batches d)) (drains s).

(** The writes that an input brings: its own, or the metadata of the batch that it opens. *)
Definition brings (r : BatchRouter) (input : Input) : list Insert :=
  match input with
  | InInsert msg => [msg]
  | InEvent false ec _ =>
      if bool_decide (is_Some (batches r !! ctx_key ec)) then []
      else metadata ec (get_highest_block r (aggregate_id ec) (block ec)).1
  | _ => []
  end.

Fixpoint brought (s : Buffer) (inputs : list Input) : list Insert :=
  match inputs with
  | [] => []
  | i :: rest => brings (router s) i ++ match step s i with Done s' => brought s' rest | _ => [] end
  end.

#[local] Instance flat_map_Permutation {A B} (f : A → list B) : Proper ((≡ₚ) ==> (≡ₚ)) (flat_map f).
Proof.
  intros l l' HP. induction HP; cbn [flat_map]; [done|by f_equiv|by rewrite !(assoc (++)), (comm (++) (f y))|by etrans].
Qed.

Lemma open_insert m key b : m !! key = None → open_inserts (<[key := b]> m) ≡ₚ inserts b ++ open_inserts m.
Proof. intros Hm. unfold open_inserts, batches_inserts. by rewrite map_to_list_insert. Qed.

Lemma open_delete m key b : m !! key = Some b → open_inserts m ≡ₚ inserts b ++ open_inserts (delete key m).
Proof. intros Hm. unfold open_inserts, batches_inserts. by rewrite <- (map_to_list_delete m key b Hm). Qed.

Lemma open_replace m key b b' : m !! key = Some b → open_inserts (<[key := b']> m) ≡ₚ inserts b' ++ open_inserts (delete key m).
Proof. intros Hm. rewrite <- insert_delete_eq. apply open_insert. apply lookup_delete_eq. Qed.

Lemma alter_is_insert {A} (f : A → A) (m : gmap SnapshotKey A) key b : m !! key = Some b → alter f key m = <[key := f b]> m.
Proof.
  intros E. apply map_eq. intros k. destruct (decide (k = key)) as [->|].
  - by rewrite lookup_alter_eq, lookup_insert_eq, E.
  - by rewrite lookup_alter_ne, lookup_insert_ne.
Qed.

Lemma alter_is_id {A} (f : A → A) (m : gmap SnapshotKey A) key : m !! key = None → alter f key m = m.
Proof.
  intros E. apply map_eq. intros k. destruct (decide (k = key)) as [->|]; [by rewrite lookup_alter_eq, E|by rewrite lookup_alter_ne].
Qed.

Lemma open_alter_scheduled m key : open_inserts (alter set_scheduled key m) ≡ₚ open_inserts m.
Proof.
  destruct (m !! key) as [b|] eqn:E; [|by rewrite alter_is_id].
  by rewrite (alter_is_insert _ _ _ _ E), (open_replace m key b), (open_delete m key b).
Qed.

Lemma open_scheduled (l : list (SnapshotKey * PendingBatch)) : ∀ m,
  open_inserts (foldl (λ m kb, alter set_scheduled kb.1 m) m l) ≡ₚ open_inserts m.
Proof. induction l as [|kb l IH]; intros m; [done|]. cbn [foldl]. by rewrite IH, open_alter_scheduled. Qed.

Lemma scheduled_keys (l : list (SnapshotKey * PendingBatch)) : ∀ (m : gmap SnapshotKey PendingBatch) key,
  is_Some (foldl (λ m kb, alter set_scheduled kb.1 m) m l !! key) ↔ is_Some (m !! key).
Proof.
  induction l as [|kb l IH]; intros m key; [done|]. cbn [foldl]. rewrite IH.
  destruct (decide (kb.1 = key)) as [->|]; [rewrite lookup_alter_eq; apply fmap_is_Some|by rewrite lookup_alter_ne].
Qed.

Lemma flush_inserts key b : flat_map sent_inserts (flush_batch key b) = inserts b.
Proof. unfold flush_batch. destruct (inserts b); [done|]. cbn. by rewrite app_nil_r. Qed.

Lemma drain_update (l : list Drain) j d d' x : l !! j = Some d → batches_inserts (d_batches d) = x ++ batches_inserts (d_batches d') →
  flat_map (λ d, batches_inserts (d_batches d)) l ≡ₚ x ++ flat_map (λ d, batches_inserts (d_batches d)) (<[j := d']> l).
Proof.
  intros Hj Hx. rewrite <- (take_drop_middle l j d Hj) at 1. rewrite (insert_take_drop l j d') by (by eapply lookup_lt_Some).
  rewrite !flat_map_app. cbn [flat_map]. rewrite Hx, <- (assoc (++)), !(assoc (++)). f_equiv. f_equiv. apply (comm (++)).
Qed.

Lemma router_failure_batches r b reply : batches (match flush_result b reply with None => r | Some e => record_write_failure r e end) = batches r.
Proof. by destruct (flush_result b reply). Qed.

Lemma event_held r shutdown ec now :
  open_inserts (batches (router_event r shutdown ec now).2) ≡ₚ open_inserts (batches r) ++ brings r (InEvent shutdown ec now).
Proof.
  unfold router_event. cbn [brings]. destruct shutdown; [cbn [snd]; by rewrite app_nil_r|]. cbn [schedule_older_batches].
  pose proof (scheduled_keys (older_batches r (aggregate_id ec) (seq_no ec)) (batches r) (ctx_key ec)) as Hk.
  pose proof (open_scheduled (older_batches r (aggregate_id ec) (seq_no ec)) (batches r)) as Ho.
  cbn [batches with_batches]. rewrite (bool_decide_ext _ _ Hk). case_bool_decide as Hin; cbn [snd batches]; [by rewrite app_nil_r, Ho|].
  cbn [open_batch get_highest_block batches with_batches]. rewrite open_insert by (apply eq_None_not_Some; by rewrite Hk).
  rewrite Ho. cbn [inserts]. apply (comm (++)).
Qed.

Lemma step_held s input s' : step s input = Done s' → held s' ≡ₚ held s ++ brings (router s) input.
Proof.
  intros E. unfold held. destruct input; cbn [step] in *.
  - unfold router_insert in E. cbn [brings]. destruct (i_ctx msg) as [ctx|]; [destruct (batches (router s) !! ctx_key ctx) as [b|] eqn:Eb|];
      injection E as <-; cbn [sent router batches with_batches drains]; rewrite ?flat_map_app; cbn [flat_map sent_inserts app].
    + rewrite (open_replace _ _ b _ Eb), (open_delete _ _ b Eb). cbn [push_insert inserts]. rewrite app_nil_r. solve_Permutation.
    + solve_Permutation.
    + solve_Permutation.
  - pose proof (event_held (router s) shutdown ec now) as He. destruct (router_event _ _ _ _) as [tls r].
    injection E as <-. cbn [sent router drains snd] in *. rewrite He. solve_Permutation.
  - destruct (to_queue s) as [|t rest]; [injection E as <-; by rewrite app_nil_r|].
    destruct (start_timelock _ _); [|done..]. injection E as <-. by rewrite app_nil_r.
  - destruct (tick _ _). injection E as <-. by rewrite app_nil_r.
  - cbn [brings]. rewrite app_nil_r. destruct (to_router s) as [|key rest]; [by injection E as <-|]. unfold router_flush in E.
    destruct (batches (router s) !! key) as [b|] eqn:Eb; injection E as <-; cbn [sent router drains]; [|by rewrite app_nil_r].
    rewrite router_failure_batches, flat_map_app, flush_inserts. cbn [batches with_batches]. rewrite (open_delete _ _ b Eb). solve_Permutation.
  - injection E as <-. cbn [sent router drains batches router_drain brings]. rewrite flat_map_app. cbn [flat_map d_batches].
    rewrite app_nil_r. unfold open_inserts. rewrite map_to_list_empty. cbn [batches_inserts flat_map app].
    unfold batches_inserts at 2. rewrite merge_sort_Permutation. fold (batches_inserts (map_to_list (batches (router s)))). solve_Permutation.
  - cbn [brings]. rewrite app_nil_r. destruct (drains s !! j) as [d|] eqn:Ej; [|by injection E as <-].
    destruct (drain_next d reply) as [out d'] eqn:Ed. injection E as <-. cbn [sent router drains].
    rewrite (drain_update _ j d d' (flat_map sent_inserts out) Ej); [rewrite flat_map_app; solve_Permutation|].
    unfold drain_next in Ed. destruct (d_result d); [by injection Ed as <- <-|].
    destruct (d_batches d) as [|[key b] rest]; injection Ed as <- <-; [done|]. by rewrite flush_inserts.
  - injection E as <-. by rewrite app_nil_r.
Qed.

Lemma run_held inputs : ∀ s s', run s inputs = Done s' → held s' ≡ₚ held s ++ brought s inputs.
Proof.
  induction inputs as [|i inputs IH]; intros s s' E; [injection E as <-; by rewrite app_nil_r|]. cbn [run brought] in *.
  destruct (step s i) as [s1| |] eqn:E1; [|done..]. cbn [obind] in E. rewrite (IH s1 s' E), (step_held s i s1 E1). by rewrite (assoc (++)).
Qed.

(** No write is lost and none is doubled: after any interleaving of writes, events, timelocks,
    ticks, flushes, drains and changes of the destination, the writes that were sent to a store,
    wait in an open batch or wait in a drain are, each exactly once, those that were handed in and
    the three cursor records of every batch that was opened. *)
Theorem writes_conserved config db inputs s : run (buffer_new config db) inputs = Done s →
  held s ≡ₚ brought (buffer_new config db) inputs.
Proof. apply run_held. Qed.

(** ** Batches are of one revision *)

(** What the writers promise: cursors are written by the router only, with sequence numbers that fit. *)
Definition writer_ok (input : Input) : Prop :=
  match input with
  | InInsert msg => ∀ a, i_key msg ≠ aggregate_seq a
  | InEvent _ ec _ => 0 <= seq_no ec < 2 ^ 64
  | _ => True
  end.

Definition insert_of (key : SnapshotKey) (i : Insert) : Prop :=
  honest_insert i ∧ ∃ c, i_ctx i = Some c ∧ ctx_key c = key.

Definition batch_of (key : SnapshotKey) (l : list Insert) : Prop := l ≠ [] ∧ Forall (insert_of key) l.

Definition sent_ok (m : Sent) : Prop :=
  match sent_kind m with
  | OfBatch key => batch_of key (sent_inserts m)
  | Direct => ∃ i, sent_inserts m = [i] ∧ ∀ a, i_key i ≠ aggregate_seq a
  | Barrier => sent_inserts m = []
  end.

Definition typed (s : Buffer) : Prop :=
  map_Forall (λ key b, batch_of key (inserts b)) (batches (router s)) ∧
  Forall (λ d, Forall (λ kb : SnapshotKey * PendingBatch, batch_of kb.1 (inserts kb.2)) (d_batches d)) (drains s) ∧
  Forall sent_ok (sent s).

Lemma aggregate_block_ne a b : aggregate_block a ≠ aggregate_seq b.
Proof. intros E. apply str_bytes_inj in E. by apply (f_equal (String.substring 12 1)) in E. Qed.

Lemma aggregate_ts_ne a b : aggregate_ts a ≠ aggregate_seq b.
Proof. intros E. apply str_bytes_inj in E. by apply (f_equal (String.substring 12 1)) in E. Qed.

Lemma metadata_of ec h : 0 <= seq_no ec < 2 ^ 64 → batch_of (ctx_key ec) (metadata ec h).
Proof.
  intros Hb. split; [done|]. unfold metadata. repeat apply Forall_cons_2; [..|constructor].
  all: split; [|by exists ec]. all: intros a; cbn [i_key i_ctx i_value].
  - intros E%(inj aggregate_seq). by exists ec.
  - intros E. by apply aggregate_block_ne in E.
  - intros E. by apply aggregate_ts_ne in E.
Qed.

Lemma typed_schedule (l : list (SnapshotKey * PendingBatch)) : ∀ m : gmap SnapshotKey PendingBatch,
  map_Forall (λ key b, batch_of key (inserts b)) m →
  map_Forall (λ key b, batch_of key (inserts b)) (foldl (λ m kb, alter set_scheduled kb.1 m) m l).
Proof.
  induction l as [|kb l IH]; intros m Hm; [done|]. cbn [foldl]. apply IH. intros key b.
  rewrite lookup_alter_Some. intros [(<- & b' & Eb & ->)|[_ Eb]]; exact (Hm _ _ Eb).
Qed.

Lemma flush_ok key b : batch_of key (inserts b) → Forall sent_ok (flush_batch key b).
Proof. unfold flush_batch. intros [Hne Hb]. destruct (inserts b) eqn:E; [done|]. constructor; [|constructor]. by split. Qed.

Lemma step_typed s input s' : typed s → writer_ok input → step s input = Done s' → typed s'.
Proof.
  intros (Hb & Hd & Hs) Hw E. destruct input; cbn [step writer_ok] in *.
  - unfold router_insert in E. destruct (i_ctx msg) as [ctx|] eqn:Ec; [destruct (batches (router s) !! ctx_key ctx) as [b|] eqn:Eb|];
      injection E as <-; (split; [|split; [exact Hd|]]); cbn [sent router batches with_batches]; rewrite ?app_nil_r; try done.
    + apply map_Forall_insert_2; [|done]. destruct (Hb _ _ Eb) as [Hne Hf]. cbn [push_insert inserts].
      split; [by destruct (inserts b)|]. apply Forall_app. split; [done|]. constructor; [|constructor].
      split; [|by exists ctx]. intros a Ek. by destruct (Hw a).
    + apply Forall_app. split; [done|]. constructor; [by exists msg|constructor].
    + apply Forall_app. split; [done|]. constructor; [by exists msg|constructor].
  - unfold router_event in E. destruct shutdown; [injection E as <-; by split|]. cbn [schedule_older_batches] in E.
    pose proof (typed_schedule (older_batches (router s) (aggregate_id ec) (seq_no ec)) _ Hb) as Hb'.
    destruct (bool_decide _); injection E as <-; (split; [|by split]); [exact Hb'|].
    cbn [router open_batch get_highest_block batches with_batches]. apply map_Forall_insert_2; [|exact Hb']. by apply metadata_of.
  - destruct (to_queue s); [injection E as <-; by split|]. destruct (start_timelock _ _); [|done..]. injection E as <-. by split.
  - destruct (tick _ _). injection E as <-. by split.
  - destruct (to_router s) as [|key rest]; [injection E as <-; by split|]. unfold router_flush in E.
    destruct (batches (router s) !! key) as [b|] eqn:Eb; injection E as <-; (split; [|split; [exact Hd|]]); cbn [sent router]; rewrite ?app_nil_r; try done.
    + rewrite router_failure_batches. cbn [batches with_batches]. by apply map_Forall_delete.
    + apply Forall_app. split; [done|]. apply flush_ok. exact (Hb _ _ Eb).
  - injection E as <-. split; [apply map_Forall_empty|]. split; [|done]. apply Forall_app. split; [done|]. constructor; [|constructor].
    cbn [d_batches router_drain fst]. rewrite merge_sort_Permutation. apply map_Forall_to_list in Hb.
    eapply Forall_impl; [exact Hb|]. by intros [key b].
  - destruct (drains s !! j) as [d|] eqn:Ej; [|injection E as <-; by split].
    pose proof (Forall_lookup_1 _ _ _ _ Hd Ej) as Hdj. destruct (drain_next d reply) as [out d'] eqn:Ed. injection E as <-.
    unfold drain_next in Ed. split; [done|]. cbn [drains sent].
    destruct (d_result d); [|destruct (d_batches d) as [|[key b] rest] eqn:Edb]; injection Ed as <- <-.
    + rewrite app_nil_r. split; [by apply Forall_insert|done].
    + split; [apply Forall_insert; [done|constructor]|]. apply Forall_app. split; [done|]. by repeat constructor.
    + cbn beta in Hdj. rewrite Edb in Hdj. apply Forall_cons in Hdj as [H1 H2]. split; [by apply Forall_insert|]. apply Forall_app. split; [done|]. by apply flush_ok.
  - injection E as <-. by split.
Qed.

Lemma run_inv_if (P : Buffer → Prop) (Q : Input → Prop) : (∀ s input s', P s → Q input → step s input = Done s' → P s') →
  ∀ inputs s s', Forall Q inputs → P s → run s inputs = Done s' → P s'.
Proof.
  intros Hstep. induction inputs as [|i inputs IH]; intros s s' HQ Hs E; [by injection E as <-|].
  apply Forall_cons in HQ as [Hi HQ]. cbn [run] in E. destruct (step s i) as [s1| |] eqn:E1; [|done..]. cbn [obind] in E. eauto.
Qed.

Lemma typed_new config db : typed (buffer_new config db).
Proof. by repeat constructor. Qed.

Lemma batch_of_revision key l : batch_of key l → snapshot_revision l = Ok (Some (mkRevision (k_agg key) (k_seq key))).
Proof.
  intros [Hne Hl]. rewrite Forall_forall in Hl. pose proof (revision_spec l) as Hr.
  assert (∀ i, i ∈ l → revision_of <$> i_ctx i = Some (mkRevision (k_agg key) (k_seq key))) as Hc.
  { intros i Hi. destruct (Hl i Hi) as [_ (c & -> & <-)]. done. }
  destruct l as [|x l]; [done|]. pose proof (Hc x (list_elem_of_here _ _)) as Hx.
  destruct (snapshot_revision _) as [[r|]|[]]; try done.
  - destruct Hr as [_ Hr]. specialize (Hr x (list_elem_of_here _ _)). congruence.
  - rewrite (Hr x (list_elem_of_here _ _)) in Hx. done.
  - destruct Hr as (i & j & c & c' & Hi & Hj & Ei & Ej & Hn). apply Hc in Hi, Hj. rewrite Ei in Hi. rewrite Ej in Hj. cbn in *. congruence.
  - destruct Hr as (i & j & Hi & Hj & _ & Ej). apply Hc in Hj. rewrite Ej in Hj. done.
Qed.

(** A flushed batch is never refused for its shape: in every reachable state, the writes that a
    flush or a drain sends carry one revision, the one the batch was opened for. *)
Theorem sent_batches_have_revision config db inputs s m key : Forall writer_ok inputs →
  run (buffer_new config db) inputs = Done s → m ∈ sent s → sent_kind m = OfBatch key →
  snapshot_revision (sent_inserts m) = Ok (Some (mkRevision (k_agg key) (k_seq key))).
Proof.
  intros HQ Hr Hm Ek. destruct (run_inv_if typed writer_ok step_typed _ _ _ HQ (typed_new config db) Hr) as (_ & _ & Hs).
  rewrite Forall_forall in Hs. specialize (Hs m Hm). unfold sent_ok in Hs. rewrite Ek in Hs. by apply batch_of_revision.
Qed.

(** ** The drain *)

Definition errors (replies : list (result () StoreError)) : list StoreError :=
  omap (λ r, match r with Ok _ => None | Err e => Some e end) replies.

Definition drain_answer (failures : list StoreError) : result () (list StoreError) :=
  match failures with [] => Ok tt | _ => Err failures end.

Definition batch_message (kb : SnapshotKey * PendingBatch) : Sent := mkSent (batch_db kb.2) (OfBatch kb.1) (inserts kb.2).

Lemma flush_nonempty key b reply : inserts b ≠ [] →
  flush_batch key b = [batch_message (key, b)] ∧ option_list (flush_result b reply) = errors [reply].
Proof. unfold flush_batch, flush_result, batch_message. cbn. destruct (inserts b) eqn:E; [done|]. by destruct reply. Qed.

Lemma errors_cons r replies : errors (r :: replies) = errors [r] ++ errors replies.
Proof. by destruct r. Qed.

Lemma drain_run j bs : ∀ replies s d, drains s !! j = Some d → d_batches d = bs → d_result d = None →
  Forall (λ kb : SnapshotKey * PendingBatch, inserts kb.2 ≠ []) bs → length replies = S (length bs) →
  ∃ s' d', run s (InDrainNext j <$> replies) = Done s' ∧ router s' = router s ∧ drains s' !! j = Some d' ∧
    d_result d' = Some (drain_answer (d_failures d ++ errors replies)) ∧
    sent s' = sent s ++ (batch_message <$> bs) ++ [mkSent (d_db d) Barrier []].
Proof.
  induction bs as [|[key b] bs IH]; intros [|r replies] s d Hj Eb Er Hne Hlen; try done; cbn [fmap list_fmap run step].
  - destruct replies; [|done]. rewrite Hj. unfold drain_next. rewrite Er, Eb. cbn [obind run]. eexists _, _.
    split; [done|]. split; [done|]. cbn [drains sent]. rewrite list_lookup_insert_eq by (by eapply lookup_lt_Some). split; [done|].
    split; [|done]. cbn [d_result]. unfold drain_answer, errors. destruct r; cbn [omap list_omap]; by destruct (d_failures d).
  - apply Forall_cons in Hne as [Hb Hne]. rewrite Hj. unfold drain_next. rewrite Er, Eb. cbn [obind].
    destruct (flush_nonempty key b r Hb) as [-> ->].
    edestruct (IH replies (mkBuffer (router s) (queue s) (to_queue s) (to_router s)
      (<[j := mkDrain bs (d_db d) (d_failures d ++ errors [r]) None]> (drains s)) (sent s ++ [batch_message (key, b)])))
      as (s' & d' & E & Es & Ed & Ea & Et); [apply list_lookup_insert_eq; by eapply lookup_lt_Some|done|done|done|by injection Hlen|].
    exists s', d'. split; [exact E|]. split; [exact Es|]. split; [exact Ed|]. cbn [d_failures sent d_db fmap list_fmap] in *.
    rewrite Ea, Et, (errors_cons r replies), <- !(assoc (++)). done.
Qed.

(** A drain leaves nothing behind and tells of every failure.  In any reachable state, it takes all
    open batches; after one awaited reply per batch and one for the barrier it has sent every
    batch, in the order of their events, and then the barrier, and it answers with success exactly
    when neither an earlier flush nor one of its own writes failed. *)
Theorem drain_writes_everything config db inputs s replies : Forall writer_ok inputs →
  run (buffer_new config db) inputs = Done s → length replies = S (size (batches (router s))) →
  ∃ s' d, run s (InDrain :: (InDrainNext (length (drains s)) <$> replies)) = Done s' ∧ batches (router s') = ∅ ∧
    sent s' = sent s ++ (batch_message <$> merge_sort order_le (map_to_list (batches (router s)))) ++ [mkSent (router_db (router s)) Barrier []] ∧
    drains s' !! length (drains s) = Some d ∧
    d_result d = Some (drain_answer (option_list (router_failure (router s)) ++ errors replies)).
Proof.
  intros HQ Hr Hlen. destruct (run_inv_if typed writer_ok step_typed _ _ _ HQ (typed_new config db) Hr) as (Hb & _ & _).
  cbn [run step obind]. destruct (router_drain (router s)) as [d r] eqn:Ed0. cbn [obind].
  edestruct (drain_run (length (drains s)) (merge_sort order_le (map_to_list (batches (router s)))) replies
    (mkBuffer r (queue s) (to_queue s) (to_router s) (drains s ++ [d]) (sent s)) d) as (s' & d' & E & Es & Ed & Ea & Et);
    injection Ed0 as <- <-;
    [cbn [drains]; by apply list_lookup_middle|done|done| | |].
  - rewrite merge_sort_Permutation. apply map_Forall_to_list in Hb. eapply Forall_impl; [exact Hb|]. intros [key b] Hkb. apply Hkb.
  - by rewrite merge_sort_Permutation, length_map_to_list.
  - exists s', d'. split; [exact E|]. by rewrite Es.
Qed.
