(* ===== verification/SnapshotOrder.v ===== *)
(** * Snapshots leave in order

    While clock readings do not step back and the events of an aggregate come in sequence, the
    batches of an aggregate are sent in sequence, through timelocks and through the final drain;
    any store that implements [StoreLaws] then applies every one of them. *)

From S2P Require Import Prelude Events Orchestration Hamt KvStore KvStoreProps SnapshotBuffer SnapshotProps.
Local Open Scope Z_scope.

(** ** Inputs in order *)

(** Events come with readings of a clock that does not step back and, per aggregate, with sequence
    numbers that do not decrease; there is no drain yet. *)
Fixpoint in_order (last : gmap Z Z) (clock : Z) (inputs : list Input) : bool :=
  match inputs with
  | [] => true
  | InEvent false ec now :: rest =>
      (clock <=? now) && match last !! aggregate_id ec with Some z => z <=? seq_no ec | None => true end &&
      in_order (<[aggregate_id ec := seq_no ec]> last) now rest
  | (InDrain | InDrainNext _ _) :: _ => false
  | _ :: rest => in_order last clock rest
  end.

(** ** The way of a batch *)

Definition seqs_of (a : Z) (keys : list SnapshotKey) : list Z := k_seq <$> List.filter (λ k, k_agg k =? a) keys.

Definition message_key (m : Sent) : option SnapshotKey := match sent_kind m with OfBatch key => Some key | _ => None end.

Definition sent_keys (l : list Sent) : list SnapshotKey := omap message_key l.

(** The keys on their way to the store, first the next. *)
Definition waiting (s : Buffer) : list SnapshotKey := to_router s ++ (tl_key <$> queue s) ++ (st_key <$> to_queue s).

Lemma seqs_of_app a l1 l2 : seqs_of a (l1 ++ l2) = seqs_of a l1 ++ seqs_of a l2.
Proof. unfold seqs_of. by rewrite List.filter_app, fmap_app. Qed.

Lemma seqs_of_cons a k l : seqs_of a (k :: l) = (if k_agg k =? a then [k_seq k] else []) ++ seqs_of a l.
Proof. unfold seqs_of. cbn. by destruct (k_agg k =? a). Qed.

Lemma elem_of_seqs a l z : z ∈ seqs_of a l ↔ mkKey a z ∈ l.
Proof.
  unfold seqs_of. rewrite list_elem_of_fmap. split.
  - intros ([a' z'] & -> & Hin). rewrite list_elem_of_In, filter_In, <- list_elem_of_In in Hin. cbn in *.
    destruct Hin as [Hin Ea]. by apply Z.eqb_eq in Ea as ->.
  - intros Hin. exists (mkKey a z). split; [done|]. rewrite list_elem_of_In, filter_In, <- list_elem_of_In. cbn.
    split; [done|]. apply Z.eqb_refl.
Qed.

Lemma tick_split q now : tl_key <$> q = (tick q now).1 ++ (tl_key <$> (tick q now).2).
Proof.
  induction q as [|t q IH]; [done|]. cbn [tick]. destruct (next_timelock_lt _ _); [|done].
  destruct (tick q now) as [ks rest]. cbn in *. by rewrite IH.
Qed.

(** A timelock after all those of its aggregate takes the last place among them. *)
Lemma heap_push_seqs a t q : StronglySorted timelock_le q →
  (k_agg (tl_key t) = a → ∀ x, x ∈ q → k_agg (tl_key x) = a → ~ timelock_le t x) →
  seqs_of a (tl_key <$> heap_push t q) = seqs_of a (tl_key <$> q) ++ seqs_of a [tl_key t].
Proof.
  induction 1 as [|x q Hq IH Hx]; intros Ht; cbn [heap_push fmap list_fmap]; [done|]. case_decide as Hle.
  - cbn [fmap list_fmap]. rewrite !(seqs_of_cons a (tl_key t)). destruct (Z.eqb_spec (k_agg (tl_key t)) a) as [Ea|]; [|by rewrite app_nil_r].
    assert (seqs_of a (tl_key x :: (tl_key <$> q)) = []) as ->; [|done].
    destruct (seqs_of a (tl_key x :: (tl_key <$> q))) as [|z l] eqn:E; [done|]. exfalso.
    assert (mkKey a z ∈ tl_key <$> x :: q) as Hin by (apply elem_of_seqs; cbn [fmap list_fmap]; rewrite E; by left).
    apply list_elem_of_fmap in Hin as (y & Ey & Hin). apply (Ht Ea y Hin); [by rewrite <- Ey|].
    apply elem_of_cons in Hin as [->|Hin]; [done|]. rewrite Forall_forall in Hx. transitivity x; [done|by apply Hx].
  - cbn [fmap list_fmap]. rewrite !(seqs_of_cons a (tl_key x)), IH; [by rewrite (assoc (++))|]. intros Ea y Hy. apply Ht; [done|by right].
Qed.

Lemma elem_of_newest {A} (o : option A) x : x ∈ option_list o ↔ o = Some x.
Proof. destruct o; cbn; [rewrite list_elem_of_singleton; split; congruence|split; [by intros ?%not_elem_of_nil|done]]. Qed.

(** ** The invariant *)

Record ordered (last : gmap Z Z) (clock : Z) (s : Buffer) : Prop := {
  o_drains : drains s = [];
  o_heap : queue_sorted s;
  o_sorted : ∀ a, StronglySorted Z.lt (seqs_of a (sent_keys (sent s) ++ waiting s) ++ option_list (last !! a));
  o_none : ∀ a, last !! a = None → seqs_of a (sent_keys (sent s) ++ waiting s) = [];
  o_open : ∀ key, is_Some (batches (router s) !! key) ↔ key ∈ waiting s ∨ last !! k_agg key = Some (k_seq key);
  o_unscheduled : ∀ key b, batches (router s) !! key = Some b → (scheduled b = false ↔ last !! k_agg key = Some (k_seq key));
  o_nonempty : ∀ key b, batches (router s) !! key = Some b → inserts b ≠ [];
  o_expiry : Forall (λ t, expiry t <= from_micros clock + get_delay (config (router s)) (k_agg (tl_key t))) (queue s);
  o_starts : Forall (λ t, st_now t <= from_micros clock ∧ st_delay t = get_delay (config (router s)) (k_agg (st_key t))) (to_queue s);
  o_starts_sorted : StronglySorted (λ t t', st_now t <= st_now t') (to_queue s);
  o_before : ∀ x t, x ∈ queue s → t ∈ to_queue s → k_agg (tl_key x) = k_agg (st_key t) → expiry x <= st_now t + st_delay t }.

Lemma ordered_new cfg db clock : ordered ∅ clock (buffer_new cfg db).
Proof.
  constructor; cbn [buffer_new router_new router queue to_queue to_router drains sent waiting sent_keys batches config omap list_omap].
  - done.
  - constructor.
  - intros a. rewrite lookup_empty. constructor.
  - done.
  - intros key. rewrite !lookup_empty. split; [by intros []|by intros [?%not_elem_of_nil|?]].
  - done.
  - done.
  - constructor.
  - constructor.
  - constructor.
  - by intros x t ?%not_elem_of_nil.
Qed.

Lemma sent_keys_app l1 l2 : sent_keys (l1 ++ l2) = sent_keys l1 ++ sent_keys l2.
Proof. apply omap_app. Qed.

Section Steps.
Variables (last : gmap Z Z) (clock : Z) (s : Buffer).
Hypothesis Ho : ordered last clock s.

Lemma ordered_insert msg s' : step s (InInsert msg) = Done s' → ordered last clock s'.
Proof.
  intros E. cbn [step] in E. unfold router_insert in E.
  destruct (i_ctx msg) as [ctx|]; [destruct (batches (router s) !! ctx_key ctx) as [b|] eqn:Eb|]; injection E as <-.
  - destruct Ho. constructor; try done; cbn [router batches with_batches config sent]; rewrite ?app_nil_r; try done; intros key.
    + rewrite lookup_insert_is_Some, <- o_open0. destruct (decide (ctx_key ctx = key)) as [<-|]; [rewrite Eb|tauto]. split; [by eexists|by left].
    + intros b'. rewrite lookup_insert_Some. intros [[<- <-]|[_ Hb']]; [exact (o_unscheduled0 _ _ Eb)|by apply o_unscheduled0].
    + intros b'. rewrite lookup_insert_Some. intros [[<- <-]|[_ Hb']]; [cbn [push_insert inserts]; by destruct (inserts b)|by eapply o_nonempty0].
  - destruct Ho. constructor; try done; cbn [sent]; rewrite sent_keys_app; cbn [sent_keys omap list_omap]; by rewrite app_nil_r.
  - destruct Ho. constructor; try done; cbn [sent]; rewrite sent_keys_app; cbn [sent_keys omap list_omap]; by rewrite app_nil_r.
Qed.

Lemma ordered_tick now s' : step s (InTick now) = Done s' → ordered last clock s'.
Proof.
  intros E. cbn [step] in E. pose proof (tick_split (queue s) (from_micros now)) as Hs. destruct Ho.
  rewrite (tick_spec _ _ o_heap0) in E, Hs. cbn [fst snd] in Hs. injection E as <-.
  assert (∀ x, x ∈ List.filter (λ t, negb (expiry t <=? from_micros now)) (queue s) → x ∈ queue s) as Hsub.
  { intros x. rewrite !list_elem_of_In, filter_In. tauto. }
  assert (waiting (mkBuffer (router s) (List.filter (λ t, negb (expiry t <=? from_micros now)) (queue s)) (to_queue s)
    (to_router s ++ (tl_key <$> List.filter (λ t, expiry t <=? from_micros now) (queue s))) (drains s) (sent s)) = waiting s) as Ew.
  { unfold waiting. cbn [to_router queue to_queue]. by rewrite Hs, <- !(assoc (++)). }
  constructor; try done; cbn [sent router queue to_queue] in *; rewrite ?Ew; try done.
  - by apply sorted_filter_timelocks.
  - rewrite Forall_forall in o_expiry0 |- *. auto.
  - auto.
Qed.

Lemma ordered_timelock s' : step s InTimelock = Done s' → ordered last clock s'.
Proof.
  intros E. cbn [step] in E. destruct (to_queue s) as [|t rest] eqn:Eq; [by injection E as <-|].
  unfold start_timelock in E. destruct (_ <? _); [|done]. injection E as <-. destruct Ho. rewrite Eq in *.
  set (t' := mkTimelock (st_now t + st_delay t) (st_key t)).
  assert (∀ a, seqs_of a (waiting (mkBuffer (router s) (heap_push t' (queue s)) rest (to_router s) (drains s) (sent s))) = seqs_of a (waiting s)) as Ew.
  { intros a. unfold waiting. cbn [to_router queue to_queue]. rewrite Eq. cbn [fmap list_fmap].
    change (st_key t :: (st_key <$> rest)) with ([tl_key t'] ++ (st_key <$> rest)).
    rewrite !seqs_of_app, (heap_push_seqs a t' _ o_heap0), <- !(assoc (++)); [done|].
    intros Ea x Hx Exa. rewrite timelock_le_spec. specialize (o_before0 x t Hx (list_elem_of_here _ _)).
    cbn [t' expiry tl_key] in *. assert (k_seq (tl_key x) < k_seq (st_key t)); [|rewrite Exa, Ea in *; specialize (o_before0 eq_refl); lia].
    specialize (o_sorted0 a). unfold waiting in o_sorted0. rewrite Eq, !seqs_of_app in o_sorted0. cbn [fmap list_fmap] in o_sorted0.
    rewrite seqs_of_cons, Ea, Z.eqb_refl, <- !(assoc (++)) in o_sorted0.
    do 2 apply StronglySorted_app_1_r in o_sorted0. apply (StronglySorted_app_1_elem_of Z.lt _ _ _ _ o_sorted0); [|by left].
    apply elem_of_seqs. rewrite <- Exa. apply list_elem_of_fmap. exists x. by destruct (tl_key x). }
  assert (∀ key, key ∈ waiting (mkBuffer (router s) (heap_push t' (queue s)) rest (to_router s) (drains s) (sent s)) ↔ key ∈ waiting s) as Ek.
  { intros [a z]. by rewrite <- !elem_of_seqs, Ew. }
  apply StronglySorted_cons in o_starts_sorted0 as [Hhead o_starts_sorted0]. apply Forall_cons in o_starts0 as [[Hnow Hdelay] o_starts0].
  constructor; try done; cbn [sent router queue to_queue] in *.
  - by apply heap_push_sorted.
  - intros a. rewrite seqs_of_app, Ew, <- seqs_of_app. apply o_sorted0.
  - intros a. rewrite seqs_of_app, Ew, <- seqs_of_app. apply o_none0.
  - intros key. rewrite Ek. apply o_open0.
  - rewrite heap_push_Permutation. constructor; [|done]. cbn [t' expiry tl_key]. lia.
  - intros x y. rewrite heap_push_Permutation, elem_of_cons. intros [->|Hx] Hy Ea; [|apply o_before0; [done|by right|done]].
    cbn [t' expiry tl_key] in *. rewrite Forall_forall in Hhead, o_starts0. specialize (Hhead y Hy). destruct (o_starts0 y Hy) as [_ ->].
    rewrite <- Ea, Hdelay. lia.
Qed.

Lemma ordered_flush reply s' : step s (InFlush reply) = Done s' → ordered last clock s'.
Proof.
  intros E. cbn [step] in E. destruct (to_router s) as [|key rest] eqn:Er; [by injection E as <-|]. destruct Ho.
  assert (key ∈ waiting s) as Hin by (unfold waiting; rewrite Er; by left).
  destruct (proj2 (o_open0 key) (or_introl Hin)) as [b Eb]. unfold router_flush in E. rewrite Eb in E.
  destruct (flush_nonempty key b reply (o_nonempty0 key b Eb)) as [Ef _]. rewrite Ef in E. injection E as <-.
  set (w := rest ++ (tl_key <$> queue s) ++ (st_key <$> to_queue s)).
  assert (waiting s = key :: w) as Ew by (unfold waiting; by rewrite Er).
  assert (sent_keys (sent s ++ [batch_message (key, b)]) ++ w = sent_keys (sent s) ++ waiting s) as Es.
  { rewrite sent_keys_app, Ew, <- (assoc (++)). done. }
  assert (∀ k, k ∈ w ∨ last !! k_agg k = Some (k_seq k) → k ≠ key) as Hne.
  { intros [a z] Hk <-. specialize (o_sorted0 a). rewrite Ew, seqs_of_app, seqs_of_cons in o_sorted0. cbn [k_agg k_seq] in *.
    rewrite Z.eqb_refl, <- !(assoc (++)) in o_sorted0. apply StronglySorted_app_1_r in o_sorted0.
    apply StronglySorted_cons in o_sorted0 as [Hlt _]. rewrite Forall_forall in Hlt. specialize (Hlt z). rewrite elem_of_app, elem_of_seqs in Hlt.
    enough (z < z) by lia. apply Hlt. destruct Hk as [|Hk]; [by left|]. rewrite Hk. right. by left. }
  constructor; try done; cbn [sent router queue to_queue to_router]; rewrite ?router_failure_batches; cbn [batches with_batches].
  - intros a. change (waiting _) with w. rewrite Es. apply o_sorted0.
  - intros a. change (waiting _) with w. rewrite Es. apply o_none0.
  - intros k. change (waiting _) with w. rewrite lookup_delete_is_Some, o_open0, Ew, elem_of_cons. specialize (Hne k). intuition congruence.
  - intros k b' [_ Hb']%lookup_delete_Some. by apply o_unscheduled0.
  - intros k b' [_ Hb']%lookup_delete_Some. by eapply o_nonempty0.
  - by destruct (flush_result b reply).
  - by destruct (flush_result b reply).
Qed.

Lemma older_spec a seq key b : (key, b) ∈ older_batches (router s) a seq ↔
  batches (router s) !! key = Some b ∧ k_agg key = a ∧ k_seq key < seq ∧ scheduled b = false.
Proof.
  unfold older_batches. rewrite merge_sort_Permutation, list_elem_of_In, filter_In, <- list_elem_of_In, elem_of_map_to_list.
  rewrite !andb_true_iff, negb_true_iff, Z.eqb_eq, Z.ltb_lt. tauto.
Qed.

Lemma older_NoDup a seq : NoDup (older_batches (router s) a seq).
Proof.
  unfold older_batches. rewrite merge_sort_Permutation, NoDup_ListNoDup. apply List.NoDup_filter. apply NoDup_ListNoDup, NoDup_map_to_list.
Qed.

(** The batches to schedule: the newest, if it is older than the event. *)
Lemma older_newest a seq : older_batches (router s) a seq =
  match last !! a with
  | Some z => match batches (router s) !! mkKey a z with Some b => if z <? seq then [(mkKey a z, b)] else [] | None => [] end
  | None => []
  end.
Proof.
  assert (∀ key b, (key, b) ∈ older_batches (router s) a seq ↔
    last !! a = Some (k_seq key) ∧ k_agg key = a ∧ batches (router s) !! key = Some b ∧ k_seq key < seq) as Hs.
  { intros key b. rewrite older_spec. split.
    - intros (Eb & <- & Hlt & Hs). apply (o_unscheduled _ _ _ Ho key b Eb) in Hs. done.
    - intros (El & <- & Eb & Hlt). split; [done|]. split; [done|]. split; [done|]. by apply (o_unscheduled _ _ _ Ho key b Eb). }
  pose proof (older_NoDup a seq) as Hn. destruct (older_batches (router s) a seq) as [|[key b] l] eqn:El.
  - destruct (last !! a) as [z|]; [|done]. destruct (batches (router s) !! mkKey a z) as [b|] eqn:Eb; [|done].
    destruct (Z.ltb_spec z seq); [|done]. exfalso. apply (not_elem_of_nil (mkKey a z, b)). by apply Hs.
  - pose proof (proj1 (Hs key b) (list_elem_of_here _ _)) as (Hl & Ea & Eb & Hlt). destruct key as [a' z]. cbn [k_agg k_seq] in *. subst a'.
    rewrite Hl, Eb. destruct (Z.ltb_spec z seq); [|lia]. f_equal. destruct l as [|[[a' z'] b'] l]; [done|]. exfalso.
    destruct (proj1 (Hs (mkKey a' z') b')) as (Hl' & Ea' & Eb' & _); [right; by left|]. cbn [k_agg k_seq] in *. subst a'.
    assert (z' = z) as -> by congruence. assert (b' = b) as -> by congruence.
    apply NoDup_cons in Hn as [Hn _]. apply Hn. by left.
Qed.

Lemma older_keys a seq : (∀ z, last !! a = Some z → z < seq) →
  (older_batches (router s) a seq).*1 = mkKey a <$> option_list (last !! a).
Proof.
  intros Hlt. rewrite older_newest. destruct (last !! a) as [z|] eqn:El; [|done].
  destruct (proj2 (o_open _ _ _ Ho (mkKey a z)) (or_intror El)) as [b ->]. destruct (Z.ltb_spec z seq); [done|].
  specialize (Hlt z eq_refl). lia.
Qed.

Lemma ordered_later now : clock <= now → ordered last now s.
Proof.
  intros Hc. destruct Ho. constructor; try done.
  - eapply Forall_impl; [exact o_expiry0|]. intros t. unfold from_micros. cbn beta. lia.
  - eapply Forall_impl; [exact o_starts0|]. intros t. unfold from_micros. cbn beta. lia.
Qed.

(** The waiting keys of an aggregate are below its newest. *)
Lemma waiting_below a z key : last !! a = Some z → key ∈ waiting s → k_agg key = a → k_seq key < z.
Proof.
  intros El Hin <-. pose proof (o_sorted _ _ _ Ho (k_agg key)) as Hs. rewrite El in Hs.
  apply (StronglySorted_app_1_elem_of Z.lt _ _ _ _ Hs); [|by left]. apply elem_of_seqs, elem_of_app. right. by destruct key.
Qed.
End Steps.

Lemma scheduled_lookup (l : list (SnapshotKey * PendingBatch)) key b' : ∀ m : gmap SnapshotKey PendingBatch,
  foldl (λ m kb, alter set_scheduled kb.1 m) m l !! key = Some b' →
  ∃ b, m !! key = Some b ∧ inserts b' = inserts b ∧ order b' = order b ∧
    (scheduled b' = true ↔ scheduled b = true ∨ key ∈ l.*1).
Proof.
  induction l as [|kb l IH]; intros m E; [exists b'; split; [done|]; set_solver|]. cbn [foldl] in E.
  destruct (IH _ E) as (b & Eb & Ei & Eo & Es). apply lookup_alter_Some in Eb as [(Ek & b0 & Eb & ->)|[Hne Eb]].
  - exists b0. rewrite <- Ek in *. repeat (split; [done|]). cbn [fmap list_fmap]. rewrite Es, elem_of_cons. cbn. tauto.
  - exists b. repeat (split; [done|]). cbn [fmap list_fmap]. rewrite Es, elem_of_cons. intuition congruence.
Qed.

(** What an event of a new sequence number leaves behind. *)
Lemma ordered_opened last clock s r' tls a q now : ordered last clock s → clock <= now →
  (∀ z, last !! a = Some z → z < q) → st_key <$> tls = mkKey a <$> option_list (last !! a) →
  Forall (λ t, st_now t = from_micros now ∧ st_delay t = get_delay (config (router s)) (k_agg (st_key t))) tls →
  config r' = config (router s) →
  (∀ key, is_Some (batches r' !! key) ↔ key = mkKey a q ∨ is_Some (batches (router s) !! key)) →
  (∀ key b, batches r' !! key = Some b → inserts b ≠ [] ∧ (scheduled b = false ↔ <[a := q]> last !! k_agg key = Some (k_seq key))) →
  ordered (<[a := q]> last) now (mkBuffer r' (queue s) (to_queue s ++ tls) (to_router s) (drains s) (sent s)).
Proof.
  intros Ho0 Hc Hlt Htk Htls Hcfg Hdom Hb. pose proof (ordered_later _ _ _ Ho0 now Hc) as Ho. clear Ho0 Hc.
  set (s' := mkBuffer _ _ _ _ _ _).
  assert (waiting s' = waiting s ++ (mkKey a <$> option_list (last !! a))) as Ew.
  { unfold waiting, s'. cbn [to_router queue to_queue]. by rewrite fmap_app, Htk, <- !(assoc (++)). }
  assert (∀ a', seqs_of a' (mkKey a <$> option_list (last !! a)) = if a =? a' then option_list (last !! a) else []) as Eks.
  { intros a'. unfold seqs_of. destruct (last !! a) as [z|]; cbn; by destruct (a =? a'). }
  rewrite Forall_forall in Htls. pose proof (o_starts _ _ _ Ho) as Hst. rewrite Forall_forall in Hst.
  constructor; cbn [s' drains queue router sent to_queue]; rewrite ?Hcfg.
  - apply Ho.
  - apply Ho.
  - intros a'. rewrite Ew, (assoc (++)), (seqs_of_app a' (_ ++ _)), Eks. destruct (Z.eqb_spec a a') as [<-|Hne].
    + rewrite lookup_insert_eq. apply StronglySorted_app_2; [|apply Ho|by repeat constructor].
      intros x y Hx ->%list_elem_of_singleton. pose proof (o_sorted _ _ _ Ho a) as Hs.
      destruct (last !! a) as [z|] eqn:El; [|rewrite (o_none _ _ _ Ho a El) in Hx; by apply not_elem_of_nil in Hx].
      specialize (Hlt z eq_refl). apply elem_of_app in Hx as [Hx|Hx]; [|apply list_elem_of_singleton in Hx; by subst x].
      pose proof (StronglySorted_app_1_elem_of Z.lt _ _ x z Hs Hx (list_elem_of_here _ _)). lia.
    + rewrite lookup_insert_ne, app_nil_r by done. apply Ho.
  - intros a' [El Hne]%lookup_insert_None. rewrite Ew, (assoc (++)), (seqs_of_app a' (_ ++ _)), Eks, (o_none _ _ _ Ho a' El).
    by destruct (Z.eqb_spec a a').
  - intros key. rewrite Hdom, (o_open _ _ _ Ho), Ew, elem_of_app. destruct (decide (k_agg key = a)) as [Ea|Hne].
    + rewrite Ea, lookup_insert_eq. destruct key as [a' z']. cbn [k_agg k_seq] in *. subst a'. rewrite list_elem_of_fmap.
      setoid_rewrite elem_of_newest. split.
      * intros [[= ->]|[Hw|Hl]]; [by right|by left; left|left; right; eauto].
      * intros [[Hw|(z & [= ->] & Hl)]|[= ->]]; auto.
    + rewrite lookup_insert_ne by done. rewrite list_elem_of_fmap. split.
      * intros [->|[?|?]]; [done|by left; left|by right].
      * intros [[?|(z & -> & _)]|?]; [auto|done|auto].
  - intros key b Eb. by apply (Hb key b).
  - intros key b Eb. by apply (Hb key b).
  - apply Ho.
  - rewrite Forall_forall. intros t [Ht|Ht]%elem_of_app; [by apply Hst|]. destruct (Htls t Ht) as [-> ->]. split; [lia|done].
  - apply StronglySorted_app_2; [|apply Ho|].
    + intros t t' Ht Ht'. destruct (Hst t Ht) as [? _], (Htls t' Ht') as [? _]. lia.
    + destruct tls as [|t [|t' tls]]; [constructor|by repeat constructor|]. by destruct (last !! a).
  - intros x t Hx [Ht|Ht]%elem_of_app Ea; [by apply (o_before _ _ _ Ho)|]. destruct (Htls t Ht) as [-> ->].
    pose proof (o_expiry _ _ _ Ho) as He. rewrite Forall_forall in He. specialize (He x Hx). rewrite <- Ea. exact He.
Qed.

(** An event of a new sequence number. *)
Lemma ordered_opens last clock s ec now s' : ordered last clock s → clock <= now →
  (∀ z, last !! aggregate_id ec = Some z → z < seq_no ec) → step s (InEvent false ec now) = Done s' →
  ordered (<[aggregate_id ec := seq_no ec]> last) now s'.
Proof.
  intros Ho Hclock Hlt E. pose proof (older_keys last clock s Ho _ _ Hlt) as Hold.
  set (a := aggregate_id ec) in *. set (q := seq_no ec) in *. cbn [step router_event schedule_older_batches] in E. fold a q in E.
  set (older := older_batches (router s) a q) in *. set (m := foldl (λ m kb, alter set_scheduled kb.1 m) (batches (router s)) older) in *.
  assert (∀ key, is_Some (m !! key) ↔ is_Some (batches (router s) !! key)) as Hdom by apply scheduled_keys.
  assert (batches (router s) !! mkKey a q = None) as Hnew.
  { apply eq_None_not_Some. rewrite (o_open _ _ _ Ho). cbn [k_agg k_seq]. destruct (last !! a) as [z|] eqn:El.
    - specialize (Hlt z eq_refl). intros [Hin|[= ->]]; [|lia]. pose proof (waiting_below _ _ _ Ho a z _ El Hin eq_refl). cbn in *. lia.
    - intros [Hin|?]; [|done]. apply (not_elem_of_nil q). rewrite <- (o_none _ _ _ Ho a El). apply elem_of_seqs, elem_of_app. by right. }
  cbn [batches with_batches] in E. rewrite bool_decide_eq_false_2 in E by (rewrite Hdom; change (ctx_key ec) with (mkKey a q); by rewrite Hnew; intros []).
  injection E as <-.
  apply (ordered_opened last clock s _ _ a q now Ho Hclock Hlt).
  - by rewrite <- list_fmap_compose, <- Hold.
  - rewrite Forall_fmap, Forall_forall. intros kb Hkb. split; [done|]. cbn [compose st_delay st_key].
    apply (list_elem_of_fmap_2 fst) in Hkb. fold older in Hold. rewrite Hold in Hkb. apply list_elem_of_fmap in Hkb as (z & -> & _). done.
  - done.
  - intros key. cbn [open_batch get_highest_block batches with_batches]. rewrite lookup_insert_is_Some', Hdom. by split; intros [?|?]; auto.
  - intros key b. cbn [open_batch get_highest_block batches with_batches router_db next_batch_order]. change (ctx_key ec) with (mkKey a q). fold m.
    rewrite lookup_insert_Some. intros [[<- <-]|[Hne Eb]].
    { cbn [inserts scheduled k_agg k_seq]. by rewrite lookup_insert_eq. }
    destruct (scheduled_lookup _ _ _ _ Eb) as (b0 & Eb0 & Ei & _ & Es). split; [rewrite Ei; by eapply (o_nonempty _ _ _ Ho)|].
    rewrite <- not_true_iff_false, Es, Hold. pose proof (o_unscheduled _ _ _ Ho key b0 Eb0) as Hu. rewrite list_elem_of_fmap.
    setoid_rewrite elem_of_newest. destruct key as [a' z']. cbn [k_agg k_seq] in *. destruct (decide (a' = a)) as [->|Hna].
    + rewrite lookup_insert_eq. split; [|intros [= ->]; done]. intros Hn. exfalso. apply Hn. destruct (scheduled b0) eqn:Eb1; [by left|].
      right. exists z'. split; [done|]. by apply Hu.
    + rewrite lookup_insert_ne by done. rewrite <- Hu, <- not_true_iff_false. split; [intros Hn ?; apply Hn; by left|].
      intros Hn [?|(z & [= -> ->] & _)]; done.
Qed.

(** A repeated event changes nothing. *)
Lemma ordered_repeats last clock s ec now s' : ordered last clock s → clock <= now →
  last !! aggregate_id ec = Some (seq_no ec) → step s (InEvent false ec now) = Done s' → s' = s.
Proof.
  intros Ho Hc El E. cbn [step router_event schedule_older_batches] in E. rewrite (older_newest _ _ _ Ho), El, Z.ltb_irrefl in E.
  destruct (proj2 (o_open _ _ _ Ho (ctx_key ec)) (or_intror El)) as [b Eb]. change (mkKey _ _) with (ctx_key ec) in E. rewrite Eb in E.
  cbn [foldl fmap list_fmap batches with_batches] in E. rewrite Eb, bool_decide_eq_true_2 in E by done. injection E as <-.
  rewrite app_nil_r. by destruct s as [[] ? ? ? ? ?].
Qed.

(** ** The order of opening *)

Record numbered (n : Z) (s : Buffer) : Prop := {
  n_next : 0 <= next_batch_order (router s) <= n;
  n_below : ∀ key b, batches (router s) !! key = Some b → order b < next_batch_order (router s);
  n_seq : ∀ k1 k2 b1 b2, batches (router s) !! k1 = Some b1 → batches (router s) !! k2 = Some b2 →
    k_agg k1 = k_agg k2 → k_seq k1 < k_seq k2 → order b1 < order b2 }.

Lemma open_below last clock s key : ordered last clock s → is_Some (batches (router s) !! key) →
  ∃ z, last !! k_agg key = Some z ∧ k_seq key <= z.
Proof.
  intros Ho Hk. apply (o_open _ _ _ Ho) in Hk as [Hw|Hl]; [|exists (k_seq key); split; [done|lia]].
  destruct (last !! k_agg key) as [z|] eqn:El.
  - exists z. split; [done|]. pose proof (waiting_below _ _ _ Ho _ z key El Hw eq_refl). lia.
  - exfalso. apply (not_elem_of_nil (k_seq key)). rewrite <- (o_none _ _ _ Ho _ El). apply elem_of_seqs, elem_of_app. right. by destruct key.
Qed.

(** Batches that only lose their mark or gain writes keep their numbers. *)
Lemma numbered_mono n n' s s' : numbered n s → n <= n' → next_batch_order (router s') = next_batch_order (router s) →
  (∀ key b', batches (router s') !! key = Some b' → ∃ b, batches (router s) !! key = Some b ∧ order b' = order b) → numbered n' s'.
Proof.
  intros [Hn Hb Hs] Hle En Hm. constructor; rewrite ?En.
  - lia.
  - intros key b' E. destruct (Hm _ _ E) as (b & Eb & ->). eauto.
  - intros k1 k2 b1 b2 E1 E2. destruct (Hm _ _ E1) as (b1' & E1' & ->), (Hm _ _ E2) as (b2' & E2' & ->). eauto.
Qed.

Lemma numbered_event last clock n s ec now s' : ordered last clock s → numbered n s → n < 2 ^ 128 - 1 →
  (∀ z, last !! aggregate_id ec = Some z → z <= seq_no ec) → step s (InEvent false ec now) = Done s' → numbered (n + 1) s'.
Proof.
  intros Ho Hn Hlim Hle E. cbn [step router_event schedule_older_batches] in E.
  set (older := older_batches (router s) _ _) in *. cbn [batches with_batches] in E.
  set (m := foldl (λ m kb, alter set_scheduled kb.1 m) (batches (router s)) older) in *.
  assert (∀ key b', m !! key = Some b' → ∃ b, batches (router s) !! key = Some b ∧ order b' = order b) as Hm.
  { intros key b' Eb. destruct (scheduled_lookup _ _ _ _ Eb) as (b & Eb0 & _ & Eo & _). by exists b. }
  case_bool_decide as Hin; injection E as <-; [eapply numbered_mono; [exact Hn|lia|done|exact Hm]|].
  destruct Hn as [Hn Hb Hs].
  constructor; cbn [router open_batch get_highest_block batches with_batches next_batch_order router_db]; unfold saturating_succ.
  - lia.
  - intros key b. rewrite lookup_insert_Some. intros [[<- <-]|[_ Eb]]; [cbn; lia|]. destruct (Hm _ _ Eb) as (b0 & Eb0 & ->).
    specialize (Hb _ _ Eb0). lia.
  - intros k1 k2 b1 b2. rewrite !lookup_insert_Some. intros [[<- <-]|[H1 E1]] [[<- <-]|[H2 E2]] Ea Hlt; cbn [order] in *.
    + lia.
    + exfalso. destruct (Hm _ _ E2) as (b0 & Eb0 & _). destruct (open_below _ _ _ k2 Ho (ex_intro _ _ Eb0)) as (z & Ez & Hz).
      rewrite <- Ea in Ez. specialize (Hle z Ez). cbn in *. lia.
    + destruct (Hm _ _ E1) as (b0 & Eb0 & ->). exact (Hb _ _ Eb0).
    + destruct (Hm _ _ E1) as (b0 & Eb0 & ->), (Hm _ _ E2) as (b3 & Eb3 & ->). eauto.
Qed.

(** ** Runs *)

Lemma step_ordered last clock n s input s' rest : ordered last clock s → numbered n s → n < 2 ^ 128 - 1 →
  in_order last clock (input :: rest) = true → step s input = Done s' →
  ∃ last' clock', ordered last' clock' s' ∧ numbered (n + 1) s' ∧ in_order last' clock' rest = true.
Proof.
  intros Ho Hn Hlim Hi E. destruct input; cbn [in_order] in Hi; try done.
  - exists last, clock. split; [by eapply ordered_insert|]. split; [|done]. cbn [step] in E. unfold router_insert in E.
    destruct (i_ctx msg) as [ctx|]; [destruct (batches (router s) !! ctx_key ctx) as [b|] eqn:Eb|]; injection E as <-;
      (eapply numbered_mono; [exact Hn|lia|done|]); cbn [router batches with_batches]; [|by eauto..].
    intros key b'. rewrite lookup_insert_Some. intros [[<- <-]|[_ ?]]; eauto.
  - destruct shutdown.
    { exists last, clock. cbn [step router_event] in E. injection E as <-. rewrite app_nil_r. split; [by destruct Ho|]. split; [|done].
      eapply numbered_mono; [exact Hn|lia|done|by eauto]. }
    apply andb_true_iff in Hi as [[Hc Hz]%andb_true_iff Hi]. apply Z.leb_le in Hc. exists (<[aggregate_id ec := seq_no ec]> last), now.
    assert (∀ z, last !! aggregate_id ec = Some z → z <= seq_no ec) as Hle by (intros z El; rewrite El in Hz; by apply Z.leb_le).
    split; [|split; [by eapply numbered_event|done]].
    destruct (decide (last !! aggregate_id ec = Some (seq_no ec))) as [El|Hne].
    + rewrite insert_id by done. rewrite (ordered_repeats _ _ _ _ _ _ Ho Hc El E). by eapply ordered_later.
    + eapply ordered_opens; [exact Ho|done| |exact E]. intros z El. specialize (Hle z El). assert (z ≠ seq_no ec) by congruence. lia.
  - exists last, clock. split; [by eapply ordered_timelock|]. split; [|done]. cbn [step] in E.
    destruct (to_queue s); [injection E as <-|destruct (start_timelock _ _); [|done..]; injection E as <-];
      (eapply numbered_mono; [exact Hn|lia|done|by eauto]).
  - exists last, clock. split; [by eapply ordered_tick|]. split; [|done]. cbn [step] in E. destruct (tick _ _). injection E as <-.
    eapply numbered_mono; [exact Hn|lia|done|by eauto].
  - exists last, clock. split; [by eapply ordered_flush|]. split; [|done]. cbn [step] in E. unfold router_flush in E.
    destruct (to_router s) as [|key ?]; [|destruct (batches (router s) !! key)]; injection E as <-;
      (eapply numbered_mono; [exact Hn|lia| |]); cbn [router]; rewrite ?router_failure_batches; try done; eauto.
    + by destruct (flush_result p reply).
    + intros k b'. cbn [batches with_batches]. intros [_ Hb']%lookup_delete_Some. eauto.
  - exists last, clock. injection E as <-. split; [by destruct Ho|]. split; [|done].
    eapply numbered_mono; [exact Hn|lia|done|by eauto].
Qed.

Lemma run_ordered inputs : ∀ last clock n s s', ordered last clock s → numbered n s → n + Z.of_nat (length inputs) < 2 ^ 128 →
  in_order last clock inputs = true → run s inputs = Done s' → ∃ last' clock' n', ordered last' clock' s' ∧ numbered n' s'.
Proof.
  induction inputs as [|i inputs IH]; intros last clock n s s' Ho Hn Hlim Hi E; [injection E as <-; eauto|].
  cbn [run length] in *. destruct (step s i) as [s1| |] eqn:E1; [|done..]. cbn [obind] in E.
  destruct (step_ordered _ _ _ _ _ _ _ Ho Hn ltac:(lia) Hi E1) as (last' & clock' & Ho' & Hn' & Hi').
  eapply IH; [exact Ho'|exact Hn'|lia|exact Hi'|exact E].
Qed.

(** ** The drain *)

Global Instance order_le_total : Total order_le.
Proof. intros a b. unfold order_le. lia. Qed.
Global Instance order_le_trans : Transitive order_le.
Proof. intros a b c. unfold order_le. lia. Qed.

(** Sorted by their numbers, open batches are sorted by sequence within every aggregate. *)
Lemma drained_sorted n s a : numbered n s → ∀ l, StronglySorted order_le l → NoDup l.*1 →
  (∀ kb, kb ∈ l → batches (router s) !! kb.1 = Some kb.2) → StronglySorted Z.lt (seqs_of a l.*1).
Proof.
  intros Hn l. induction 1 as [|[k b] l Hl IH Hx]; intros Hd Hin; [constructor|]. cbn [fmap list_fmap fst] in *.
  apply NoDup_cons in Hd as [Hk Hd]. rewrite seqs_of_cons.
  assert (StronglySorted Z.lt (seqs_of a l.*1)) as Hs by (apply IH; [done|]; intros kb Hkb; apply Hin; by right).
  destruct (Z.eqb_spec (k_agg k) a) as [Ea|]; [|done]. apply StronglySorted_cons. split; [|done].
  rewrite Forall_forall. intros z Hz%elem_of_seqs. pose proof Hz as Hz'. apply list_elem_of_fmap in Hz as ([k' b'] & Ek & Hkb). cbn [fst] in Ek. subst k'.
  rewrite Forall_forall in Hx. specialize (Hx _ Hkb). unfold order_le in Hx. cbn [snd fst] in *.
  pose proof (Hin (k, b) (list_elem_of_here _ _)) as E1. pose proof (Hin (mkKey a z, b') (list_elem_of_further _ _ _ Hkb)) as E2. cbn [fst snd] in *.
  destruct (Z.lt_trichotomy (k_seq k) z) as [|[Ez|Hgt]]; [done| |].
  - destruct Hk. subst a z. by destruct k.
  - pose proof (n_seq _ _ Hn _ _ _ _ E2 E1) as Ho. cbn [k_agg k_seq] in Ho. specialize (Ho ltac:(congruence) Hgt). lia.
Qed.

Lemma batches_sorted last clock n s a : ordered last clock s → numbered n s →
  StronglySorted Z.lt (seqs_of a (sent_keys (sent s) ++ (merge_sort order_le (map_to_list (batches (router s)))).*1)).
Proof.
  intros Ho Hn. rewrite seqs_of_app. set (l := merge_sort order_le (map_to_list (batches (router s)))).
  assert (∀ kb, kb ∈ l ↔ batches (router s) !! kb.1 = Some kb.2) as Hl.
  { intros [k b]. unfold l. by rewrite merge_sort_Permutation, elem_of_map_to_list. }
  pose proof (o_sorted _ _ _ Ho a) as Hs. rewrite seqs_of_app, <- (assoc (++)) in Hs.
  apply StronglySorted_app_2; [|by apply StronglySorted_app_1_l in Hs|].
  - intros x y Hx Hy%elem_of_seqs. apply list_elem_of_fmap in Hy as ([k b] & Ek & Hy). cbn [fst] in Ek. subst k. apply Hl in Hy. cbn [fst snd] in Hy.
    apply (StronglySorted_app_1_elem_of Z.lt _ _ _ _ Hs Hx). rewrite elem_of_app, elem_of_seqs, elem_of_newest.
    apply (o_open _ _ _ Ho (mkKey a y)). by eexists.
  - eapply drained_sorted; [exact Hn|apply (StronglySorted_merge_sort _)| |intros kb; apply Hl].
    unfold l. rewrite merge_sort_Permutation. apply NoDup_fst_map_to_list.
Qed.

Lemma drain_steps j replies : ∀ s s' d, drains s !! j = Some d →
  Forall (λ kb : SnapshotKey * PendingBatch, inserts kb.2 ≠ []) (d_batches d) → run s (InDrainNext j <$> replies) = Done s' →
  ∃ l, l `prefix_of` (d_batches d).*1 ∧ sent_keys (sent s') = sent_keys (sent s) ++ l.
Proof.
  induction replies as [|r replies IH]; intros s s' d Hj Hne E; [injection E as <-; exists []; split; [apply prefix_nil|by rewrite app_nil_r]|].
  cbn [fmap list_fmap run step] in E. rewrite Hj in E. destruct (drain_next d r) as [out d'] eqn:Ed. cbn [obind] in E.
  unfold drain_next in Ed. destruct (d_result d); [|destruct (d_batches d) as [|[key b] rest] eqn:Edb]; injection Ed as <- <-.
  - edestruct IH as (l & Hp & Es); [| |exact E|]; [apply list_lookup_insert_eq; by eapply lookup_lt_Some|done|].
    exists l. cbn [sent] in Es. by rewrite app_nil_r in Es.
  - edestruct IH as (l & Hp & Es); [| |exact E|]; [apply list_lookup_insert_eq; by eapply lookup_lt_Some|done|].
    exists l. cbn [sent] in Es. rewrite sent_keys_app in Es. cbn in Es. by rewrite app_nil_r in Es.
  - apply Forall_cons in Hne as [Hb Hne]. destruct (flush_nonempty key b r Hb) as [Ef _]. rewrite Ef in E.
    edestruct IH as (l & Hp & Es); [| |exact E|]; [apply list_lookup_insert_eq; by eapply lookup_lt_Some|done|].
    exists (key :: l). split; [by apply prefix_cons|]. rewrite Es. cbn [sent]. by rewrite sent_keys_app, <- (assoc (++)).
Qed.

(** ** The theorems *)

(** The inputs of a node's life: in order, and then perhaps the final drain. *)
Definition lifetime (inputs : list Input) (final : list Input) : Prop :=
  in_order ∅ 0 inputs = true ∧ Z.of_nat (length inputs) < 2 ^ 128 ∧
  (final = [] ∨ ∃ replies, final = InDrain :: (InDrainNext 0 <$> replies)).

Lemma run_app l1 l2 : ∀ s, run s (l1 ++ l2) = (let! s' := run s l1 in run s' l2).
Proof. induction l1 as [|i l1 IH]; intros s; [done|]. cbn [app run]. destruct (step s i); [apply IH|done..]. Qed.

Lemma sent_sorted cfg db inputs final s a : lifetime inputs final → run (buffer_new cfg db) (inputs ++ final) = Done s →
  StronglySorted Z.lt (seqs_of a (sent_keys (sent s))).
Proof.
  intros (Hi & Hlim & Hf) E. rewrite run_app in E. destruct (run (buffer_new cfg db) inputs) as [s1| |] eqn:E1; [|done..]. cbn [obind] in E.
  assert (numbered 0 (buffer_new cfg db)) as Hn0 by (by constructor).
  destruct (run_ordered inputs ∅ 0 0 _ _ (ordered_new cfg db 0) Hn0 ltac:(lia) Hi E1) as (last & clock & n & Ho & Hn).
  pose proof (batches_sorted _ _ _ _ a Ho Hn) as Hs. destruct Hf as [->|(replies & ->)].
  - injection E as <-. rewrite seqs_of_app in Hs. by apply StronglySorted_app_1_l in Hs.
  - cbn [run step] in E. destruct (router_drain (router s1)) as [d r] eqn:Ed. cbn [obind] in E. rewrite (o_drains _ _ _ Ho) in E.
    injection Ed as <- <-. edestruct drain_steps as (l & [l' Hp] & Es); [| |exact E|]; [done| |].
    + cbn [d_batches]. rewrite merge_sort_Permutation, Forall_forall. intros [k b] Hkb%elem_of_map_to_list.
      exact (o_nonempty _ _ _ Ho k b Hkb).
    + cbn [d_batches sent] in *. rewrite Hp, (assoc (++)), seqs_of_app in Hs. rewrite Es. by apply StronglySorted_app_1_l in Hs.
Qed.

(** The snapshots of an aggregate leave in sequence.  As long as the clock does not step back and
    the events of an aggregate arrive in sequence, the batches sent to the stores carry strictly
    increasing sequence numbers within every aggregate, whatever the delays, the interleaving of
    timelocks, ticks and flushes, and the moment of the final drain. *)
Theorem snapshots_leave_in_sequence cfg db inputs final s a : lifetime inputs final →
  run (buffer_new cfg db) (inputs ++ final) = Done s → StronglySorted Z.lt (seqs_of a (sent_keys (sent s))).
Proof. apply sent_sorted. Qed.
