(* ===== verification/SnapshotStore.v ===== *)
(** * The snapshot buffer over a store

    The buffer and any store that keeps the laws of [StoreLaws]: every batch that the buffer sends is
    applied, because it is never older than the cursor it finds. *)

From S2P Require Import Prelude Events Orchestration Hamt HamtProps KvStore KvStoreProps KvStoreExample SnapshotBuffer SnapshotProps SnapshotOrder.
Local Open Scope Z_scope.

(** The messages to one store. *)
Definition messages_to (db : nat) (s : Buffer) : list Sent := List.filter (λ m, (sent_db m =? db)%nat) (sent s).

Definition to_store (m : Sent) : StoreMsg := SInsertBatch (sent_inserts m).

(** A batch is written without a condition; a late write only if it is not stale. *)
Definition apply_sent (M : gmap Bytes Bytes) (m : Sent) : gmap Bytes Bytes :=
  match sent_kind m with
  | OfBatch _ => map_commands M (sent_inserts m)
  | _ => (map_batch M (sent_inserts m)).2
  end.

(** The cursors are not above the batches to come. *)
Definition not_ahead (M : gmap Bytes Bytes) (keys : list SnapshotKey) : Prop :=
  ∀ a z c, z ∈ seqs_of a keys → cursor_of M a = Some c → c <= z.

Lemma applies_batch M key l : cursors_ok M → batch_of key l → (∀ c, cursor_of M (k_agg key) = Some c → c <= k_seq key) →
  map_batch M l = (Ok true, map_commands M l).
Proof.
  intros Hok Hb Hc. unfold map_batch. rewrite (batch_of_revision key l Hb). cbn [rev_aggregate]. unfold cursor_check, cursor_of in *.
  destruct (M !! aggregate_seq (k_agg key)) as [raw|] eqn:Er; [|done]. rewrite (Hok _ _ Er). cbn [Nat.eqb negb rev_seq].
  specialize (Hc _ eq_refl). destruct (Z.ltb_spec (k_seq key) (from_le_bytes raw)); [lia|done].
Qed.

(** The cursors after a batch: its own sequence number, or what was there. *)
Lemma batch_moves_cursor M key l a c : batch_of key l → cursor_of (map_commands M l) a = Some c →
  cursor_of M a = Some c ∨ (a = k_agg key ∧ c = k_seq key).
Proof.
  intros [_ Hl]. unfold cursor_of. destruct (commands_lookup l M (aggregate_seq a)) as [->|(i & Hi & Ek & ->)]; [by left|].
  intros [= <-]. right. rewrite Forall_forall in Hl. destruct (Hl i Hi) as [Hh (c' & Ec & <-)].
  destruct (Hh a Ek) as (c'' & Ec' & <- & Hb & ->). rewrite Ec in Ec'. injection Ec' as <-. split; [done|]. by rewrite from_to_le_bytes.
Qed.

(** Writes that leave the cursors alone. *)
Lemma applies_direct M i : cursors_ok M → (∀ a, i_key i ≠ aggregate_seq a) →
  batch_reply (map_batch M [i]).1 = Replied true ∧ ∀ a, (map_batch M [i]).2 !! aggregate_seq a = M !! aggregate_seq a.
Proof.
  intros Hok Hk. unfold map_batch, snapshot_revision. cbn [revision_loop]. destruct (i_ctx i) as [c|]; cbn.
  - unfold cursor_check. destruct (M !! aggregate_seq (aggregate_id c)) as [raw|] eqn:Er.
    + rewrite (Hok _ _ Er). cbn [Nat.eqb negb]. destruct (_ <? _); cbn; [done|]. split; [done|]. intros a. by rewrite lookup_insert_ne.
    + split; [done|]. intros a. cbn. by rewrite lookup_insert_ne.
  - split; [done|]. intros a. by rewrite lookup_insert_ne.
Qed.

Lemma sent_keys_cons m l : sent_keys (m :: l) = option_list (message_key m) ++ sent_keys l.
Proof. unfold sent_keys. cbn. by destruct (message_key m). Qed.

(** Messages that do not touch the cursors. *)
Lemma same_cursors M M' keys : (∀ a, M' !! aggregate_seq a = M !! aggregate_seq a) →
  cursors_ok M → not_ahead M keys → cursors_ok M' ∧ not_ahead M' keys.
Proof.
  intros Hm Hok Hn. split; [intros a raw; rewrite Hm; apply Hok|]. intros a z c Hz. unfold cursor_of. rewrite Hm. by apply Hn.
Qed.

Lemma replay_step M m l : sent_ok m → cursors_ok M → (∀ a, StronglySorted Z.lt (seqs_of a (sent_keys (m :: l)))) →
  not_ahead M (sent_keys (m :: l)) →
  map_handle M (to_store m) = (Replied true, apply_sent M m) ∧ cursors_ok (apply_sent M m) ∧ not_ahead (apply_sent M m) (sent_keys l).
Proof.
  intros Hm Hok Hs Hc. rewrite sent_keys_cons in Hc. setoid_rewrite sent_keys_cons in Hs.
  unfold message_key, sent_ok, apply_sent, to_store in *. cbn [map_handle]. destruct (sent_kind m) as [key| |].
  - change (option_list (Some key) ++ sent_keys l) with (key :: sent_keys l) in *. pose proof (applies_batch M key _ Hok Hm) as Ha. rewrite Ha; [|intros c; apply Hc, elem_of_seqs; destruct key; by left].
    split; [done|]. split.
    + destruct (batch_cursors M (sent_inserts m) Hok) as [Hok' _]; [|by rewrite Ha in Hok'; [|intros c; apply Hc, elem_of_seqs; destruct key; by left]].
      intros i Hi. destruct Hm as [_ Hm]. rewrite Forall_forall in Hm. by apply Hm.
    + intros a z c Hz Hcur. destruct (batch_moves_cursor _ _ _ _ _ Hm Hcur) as [Hold|[-> ->]].
      * apply (Hc a z c); [|done]. rewrite seqs_of_cons. apply elem_of_app. by right.
      * specialize (Hs (k_agg key)). rewrite seqs_of_cons, Z.eqb_refl in Hs.
        pose proof (StronglySorted_app_1_elem_of Z.lt _ _ _ _ Hs (list_elem_of_here _ _) Hz). lia.
  - destruct Hm as (i & -> & Hk). destruct (applies_direct M i Hok Hk) as [-> Hsame]. split; [done|]. by apply (same_cursors M).
  - rewrite Hm. cbn. split; [done|]. by apply (same_cursors M).
Qed.

Lemma sorted_tail (R : relation Z) a m l : StronglySorted R (seqs_of a (sent_keys (m :: l))) → StronglySorted R (seqs_of a (sent_keys l)).
Proof. rewrite sent_keys_cons, seqs_of_app. apply StronglySorted_app_1_r. Qed.

Lemma replay l : ∀ M, Forall sent_ok l → cursors_ok M → (∀ a, StronglySorted Z.lt (seqs_of a (sent_keys l))) →
  not_ahead M (sent_keys l) → map_run M (to_store <$> l) = (replicate (length l) (Replied true), foldl apply_sent M l).
Proof.
  induction l as [|m l IH]; intros M Hl Hok Hs Hc; [done|]. apply Forall_cons in Hl as [Hm Hl].
  destruct (replay_step M m l Hm Hok Hs Hc) as (E & Hok' & Hc'). cbn [fmap list_fmap map_run length replicate foldl]. rewrite E.
  rewrite IH; [done|done|done| |done]. intros a. by eapply sorted_tail.
Qed.

Lemma filter_sorted (R : relation Z) db a l : StronglySorted R (seqs_of a (sent_keys l)) →
  StronglySorted R (seqs_of a (sent_keys (List.filter (λ m, (sent_db m =? db)%nat) l))).
Proof.
  assert (∀ l, seqs_of a (sent_keys (List.filter (λ m, (sent_db m =? db)%nat) l)) `sublist_of` seqs_of a (sent_keys l)) as Hsub.
  { clear l. induction l as [|m l IH]; [done|]. cbn [List.filter]. rewrite (sent_keys_cons m l), seqs_of_app.
    destruct (_ =? _)%nat; [rewrite sent_keys_cons, seqs_of_app; by apply sublist_app|by apply sublist_inserts_l]. }
  specialize (Hsub l). revert Hsub. generalize (seqs_of a (sent_keys l)). generalize (seqs_of a (sent_keys (List.filter (λ m, (sent_db m =? db)%nat) l))).
  intros l1 l2. induction 1 as [|x l1 l2 Hsub IH|x l1 l2 Hsub IH]; [done| |]; intros [Hx Hs]%StronglySorted_cons; [|auto].
  apply StronglySorted_cons. split; [|auto]. rewrite Forall_forall in Hx |- *. intros y Hy. apply Hx. by eapply elem_of_sublist.
Qed.

(** C20: Every snapshot reaches its store.  Let the clock not step back, the events of an aggregate come
    in sequence, the run end with at most one drain, and no one but the router write cursors; let
    the disk take every write and, for the store in memory, no two different keys share a hash.  A
    store whose cursors are not above the first batches then accepts all that the buffer sends to
    it: it ends with the writes of every batch applied, and of the late single writes those that
    were not stale. *)
Theorem every_snapshot_applied {St} `{StoreLaws St} cfg db0 db inputs final s (st : St) M :
  lifetime inputs final → Forall writer_ok (inputs ++ final) → run (buffer_new cfg db0) (inputs ++ final) = Done s →
  represents st M → cursors_ok M → not_ahead M (sent_keys (messages_to db s)) →
  ~ crashes_on ((map_to_list M).*1 ++ flat_map msg_keys (to_store <$> messages_to db s)) →
  ∃ st', st_run st ((true,.) <$> (to_store <$> messages_to db s)) = Done (replicate (length (messages_to db s)) (Replied true), st') ∧
    represents st' (foldl apply_sent M (messages_to db s)).
Proof.
  intros Hl HQ E Hst Hok Hc Hcr. destruct (run_follows _ _ _ Hst Hcr) as (st' & Er & Hst'). exists st'.
  rewrite (replay (messages_to db s) M) in Er, Hst'; [done| |done| |done| |done| |done].
  1,3: unfold messages_to; destruct (run_inv_if typed writer_ok step_typed _ _ _ HQ (typed_new cfg db0) E) as (_ & _ & Hs);
    rewrite Forall_forall in Hs |- *; intros m; rewrite list_elem_of_In, filter_In, <- list_elem_of_In; intros [Hm _]; auto.
  all: intros a; apply filter_sorted; by eapply sent_sorted.
Qed.

(** ** A buffer at work

    A run with two aggregates, a late write and a final drain, at which the theorems of the snapshot
    buffer are applied, and a run whose clock steps back. *)

(** Aggregate 7 waits 10 microseconds. *)
Definition ex_config : AggregateConfig := config_new {[ 7 := from_micros 10 ]}.

Definition ex_write (a seq : Z) (k v : Z) : Insert := mkInsert [k] [v] (Some (ex_at a seq)).

(** Sequence 1 is flushed by its timelock, a write of it comes late; 3 and 4 are left to the drain. *)
Definition ex_inputs : list Input :=
  [InEvent false (ex_at 7 1) 1000; InInsert (ex_write 7 1 50 1); InEvent false (ex_at 7 3) 1005; InTimelock; InInsert (ex_write 7 1 51 2);
   InTick 1014; InTick 1015; InFlush (Ok tt); InInsert (ex_write 7 1 52 3); InEvent false (ex_at 2 9) 1015; InEvent false (ex_at 7 4) 1016;
   InEvent true (ex_at 7 5) 1017].

Definition ex_final : list Input := InDrain :: (InDrainNext 0 <$> [Ok tt; Ok tt; Ok tt; Ok tt]).

Definition done_or {A} (d : A) (o : Outcome A) : A := match o with Done x => x | _ => d end.

Definition ex_buffer : Buffer := done_or (buffer_new ex_config 0) (run (buffer_new ex_config 0) ex_inputs).
Definition ex_end : Buffer := done_or (buffer_new ex_config 0) (run (buffer_new ex_config 0) (ex_inputs ++ ex_final)).

Lemma ex_buffer_run : run (buffer_new ex_config 0) ex_inputs = Done ex_buffer.
Proof. vm_compute. reflexivity. Qed.

Lemma ex_end_run : run (buffer_new ex_config 0) (ex_inputs ++ ex_final) = Done ex_end.
Proof. vm_compute. reflexivity. Qed.

Example ex_sent_keys : sent_keys (sent ex_end) = [mkKey 7 1; mkKey 7 3; mkKey 2 9; mkKey 7 4] ∧ length (sent ex_end) = 6%nat.
Proof. vm_compute. done. Qed.

Lemma ex_writers : Forall writer_ok (ex_inputs ++ ex_final).
Proof.
  unfold ex_inputs, ex_final. cbn [app fmap list_fmap]. repeat apply Forall_cons_2; try apply Forall_nil_2; cbn [writer_ok]; try exact I.
  all: try (cbn; lia); by apply not_cursor_key.
Qed.

Lemma ex_lifetime : lifetime ex_inputs ex_final.
Proof. split; [vm_compute; reflexivity|]. split; [vm_compute; reflexivity|]. right. by eexists. Qed.

(** [tick_releases_expired] at [ex_buffer]. *)
Lemma tick_releases_expired_witness : ∃ s', step ex_buffer (InTick 2000) = Done s' ∧
  to_router s' = to_router ex_buffer ++ (tl_key <$> List.filter (λ t, expiry t <=? from_micros 2000) (queue ex_buffer)).
Proof.
  destruct (tick_releases_expired ex_config 0 ex_inputs ex_buffer 2000 ex_buffer_run) as (s' & E & Hr & _).
  exists s'. split; [exact E|exact Hr].
Defined.

(** [writes_conserved] at [ex_inputs]. *)
Lemma writes_conserved_witness : held ex_buffer ≡ₚ brought (buffer_new ex_config 0) ex_inputs.
Proof. apply (writes_conserved ex_config 0 ex_inputs ex_buffer). exact ex_buffer_run. Defined.

(** [sent_batches_have_revision] at the last batch. *)
Lemma sent_batches_have_revision_witness : ∃ m, m ∈ sent ex_end ∧
  snapshot_revision (sent_inserts m) = Ok (Some (mkRevision 7 4)).
Proof.
  assert (∃ m, m ∈ sent ex_end ∧ sent_kind m = OfBatch (mkKey 7 4)) as (m & Hm & Ek).
  { destruct (sent ex_end !! 4%nat) as [m|] eqn:E; [|by vm_compute in E]. exists m. split; [by eapply list_elem_of_lookup_2|].
    enough (sent_kind <$> sent ex_end !! 4%nat = Some (OfBatch (mkKey 7 4))) as H by (rewrite E in H; by injection H). vm_compute. reflexivity. }
  exists m. split; [exact Hm|].
  exact (sent_batches_have_revision ex_config 0 (ex_inputs ++ ex_final) ex_end m (mkKey 7 4) ex_writers ex_end_run Hm Ek).
Defined.

Lemma ex_open_size : size (batches (router ex_buffer)) = 3%nat.
Proof. vm_compute. reflexivity. Qed.

Lemma ex_writers_inputs : Forall writer_ok ex_inputs.
Proof. pose proof ex_writers as H. by apply Forall_app in H as [? _]. Qed.

(** [drain_writes_everything] at [ex_buffer], with a write that fails. *)
Lemma drain_writes_everything_witness : ∃ s' d,
  run ex_buffer (InDrain :: (InDrainNext (length (drains ex_buffer)) <$> [Ok tt; Err StorageFailed; Ok tt; Ok tt])) = Done s' ∧
  drains s' !! length (drains ex_buffer) = Some d ∧
  d_result d = Some (drain_answer (option_list (router_failure (router ex_buffer)) ++ errors [Ok tt; Err StorageFailed; Ok tt; Ok tt])).
Proof.
  destruct (drain_writes_everything ex_config 0 ex_inputs ex_buffer [Ok tt; Err StorageFailed; Ok tt; Ok tt] ex_writers_inputs ex_buffer_run)
    as (s' & d & E & _ & _ & Ed & Ea); [by rewrite ex_open_size|].
  exists s', d. split; [exact E|]. split; [exact Ed|exact Ea].
Defined.

(** [snapshots_leave_in_sequence] at aggregate 7. *)
Lemma snapshots_leave_in_sequence_witness : StronglySorted Z.lt (seqs_of 7 (sent_keys (sent ex_end))).
Proof. exact (snapshots_leave_in_sequence ex_config 0 ex_inputs ex_final ex_end 7 ex_lifetime ex_end_run). Defined.

(** [every_snapshot_applied] at an empty store on disk. *)
Lemma every_snapshot_applied_witness : ∃ st' : SledStore,
  st_run (mkSledStore (Some ∅) false) ((true,.) <$> (to_store <$> messages_to 0 ex_end)) =
    Done (replicate (length (messages_to 0 ex_end)) (Replied true), st') ∧
  represents st' (foldl apply_sent ∅ (messages_to 0 ex_end)).
Proof.
  apply (every_snapshot_applied (St:=SledStore) ex_config 0 0 ex_inputs ex_final ex_end (mkSledStore (Some ∅) false) ∅ ex_lifetime ex_writers ex_end_run).
  - exists ∅. split; [reflexivity|]. intros k. reflexivity.
  - intros a raw E. by rewrite lookup_empty in E.
  - intros a z c _ E. unfold cursor_of in E. by rewrite lookup_empty in E.
  - intros [].
Defined.

(** ** A clock that steps back *)

(** The events 1, 2 and 3 of an aggregate are read at 2000, 2000 and 1000: the timelock of 2 expires
    before the timelock of 1. *)
Definition stepping_inputs : list Input :=
  [InEvent false (ex_at 7 1) 2000; InInsert (ex_write 7 1 50 1); InEvent false (ex_at 7 2) 2000; InEvent false (ex_at 7 3) 1000;
   InTimelock; InTimelock; InTick 1010; InFlush (Ok tt); InTick 2010; InFlush (Ok tt)].

(** When the system clock steps back between two events, the newer batch is flushed first and the
    store drops the older one as stale: its write is in the buffer's messages, and not in the
    store. *)
Theorem clock_step_loses_snapshot :
  match run (buffer_new ex_config 0) stepping_inputs with
  | Done s =>
      sent_keys (sent s) = [mkKey 7 2; mkKey 7 1] ∧ In (ex_write 7 1 50 1) (flat_map sent_inserts (sent s)) ∧
      drains s = [] ∧ (map_run ∅ (to_store <$> sent s)).2 !! [50] = None
  | _ => False
  end.
Proof. vm_compute. repeat split; tauto. Qed.
