(* ===== verification/EventLog.v ===== *)
(** * Event logs and timestamp indexes

    The traits [EventLog] and [SequenceIndex] of crates/events/src/traits.rs as classes of operations
    with their default methods, the laws that the event store relies on, and the implementations
    of crates/state/storage/src: the logs and indexes in memory (in_mem_event_log.rs,
    in_mem_sequence_index.rs) and the index on disk (sled_sequence_index.rs) over the trees of
    KvStore.  An event is its identity, timestamp, aggregate and source with an opaque payload;
    its encoded size, which the bincode crate computes, is the class [EventBytes]. *)

From S2P Require Import Prelude Events Orchestration KvStore KvStoreProps.
Local Open Scope Z_scope.

(** ** Events *)

Record LogEvent := mkEvent { ev_id : B256; ev_ts : Z; ev_aggregate : Z; ev_source : EventSource; ev_data : Bytes }.

Global Instance LogEvent_eq_dec : EqDecision LogEvent.
Proof. solve_decision. Defined.

(** An event with its sequence number: [into_sequenced]. *)
Abbreviation Sequenced := (Z * LogEvent)%type.

Class EventBytes := { event_bytes : LogEvent → Z; event_bytes_nonneg : ∀ e, 0 <= event_bytes e }.

Inductive LogRecord := REvent (e : LogEvent) (bytes : Z) | TooLarge (bytes : Z).

Inductive LogError :=
| IoError
| MissingSequence (ts seq : Z)
| WrongSequence (ts seq logged : Z)
| WrongTimestamp (ts seq held : Z)
| TimestampCollision (ts seq : Z)
| SequenceOverflow
| CursorAhead (query head : Z)
| BrokenSequence (expected got : Z)
| HeadMoved (head seq : Z)
| NoEventAt (seq : Z)
| PageTooLong (n : nat)
| CorruptIndex.

Definition USIZE_MAX : Z := 2 ^ 64 - 1.

(** [usize::saturating_add] *)
Definition saturating_add (a b : Z) : Z := Z.min (a + b) USIZE_MAX.

(** [u64::checked_add(1)] *)
Definition checked_succ (n : Z) : option Z := if n <? USIZE_MAX then Some (n + 1) else None.

(** ** The traits *)

Class EventLog (L : Type) := {
  log_append : L → LogEvent → result (Z * L) LogError;
  log_flush : L → result L LogError;
  log_read_from : L → Z → result (list Sequenced) LogError;
  log_read_bounded : L → Z → Z → result (list Sequenced) LogError;
  log_read_bytes : L → Z → Z → Z → result (list Sequenced) LogError;
  log_head : L → Z;
  log_read_one_within : L → Z → option Z → result (option LogRecord) LogError }.

Class SequenceIndex (I : Type) := {
  idx_insert : I → Z → Z → result I LogError;
  idx_get : I → Z → result (option Z) LogError;
  idx_seek : I → Z → result (option Z) LogError;
  idx_range_from : I → Z → Z → result (list (Z * Z)) LogError }.

(** [take(limit)] of a [usize] *)
Definition takeZ {A} (limit : Z) (l : list A) : list A := take (Z.to_nat limit) l.

(** The loop of [read_from_bounded_by_bytes]: the first event always fits. *)
Fixpoint within_bytes `{EventBytes} (max_bytes bytes : Z) (first : bool) (l : list Sequenced) : list Sequenced :=
  match l with
  | [] => []
  | (seq, e) :: rest =>
      if negb first && (max_bytes <? saturating_add bytes (event_bytes e)) then []
      else (seq, e) :: within_bytes max_bytes (saturating_add bytes (event_bytes e)) false rest
  end.

(** The default methods over a bounded read. *)
Section Defaults.
Context `{EventBytes} {L : Type} (read_bounded : L → Z → Z → result (list Sequenced) LogError).

Definition default_read_bytes (log : L) (from limit max_bytes : Z) : result (list Sequenced) LogError :=
  match read_bounded log from limit with
  | Err e => Err e
  | Ok page => Ok (within_bytes max_bytes 0 true page)
  end.

Definition default_read_one_within (log : L) (seq : Z) (max_bytes : option Z) : result (option LogRecord) LogError :=
  match read_bounded log seq 1 with
  | Err e => Err e
  | Ok page =>
      match page with
      | (read_seq, event) :: _ =>
          if read_seq =? seq then
            let bytes := event_bytes event in
            Ok (Some (if match max_bytes with Some max => max <? bytes | None => false end then TooLarge bytes else REvent event bytes))
          else Ok None
      | [] => Ok None
      end
  end.
End Defaults.

(** ** The log in memory *)

Record InMemEventLog := mkMemLog { mem_log : list LogEvent }.

(** [.enumerate().map(|(i, event)| (from + i as u64, event))] *)
Fixpoint number (from : Z) (l : list LogEvent) : list Sequenced :=
  match l with [] => [] | e :: rest => (from, e) :: number (from + 1) rest end.

(** [from.saturating_sub(1) as usize] *)
Definition start_idx (from : Z) : nat := Z.to_nat (Z.max 0 (from - 1)).

Definition mem_log_new : InMemEventLog := mkMemLog [].

Definition mem_read_from (l : InMemEventLog) (from : Z) : result (list Sequenced) LogError :=
  Ok (number from (drop (start_idx from) (mem_log l))).

Definition mem_read_bounded (l : InMemEventLog) (from limit : Z) : result (list Sequenced) LogError :=
  Ok (number from (takeZ limit (drop (start_idx from) (mem_log l)))).

Definition mem_append (l : InMemEventLog) (e : LogEvent) : result (Z * InMemEventLog) LogError :=
  let log := mem_log l ++ [e] in Ok (Z.of_nat (length log), mkMemLog log).

Definition mem_head (l : InMemEventLog) : Z := Z.of_nat (length (mem_log l)).

#[export] Instance mem_event_log `{EventBytes} : EventLog InMemEventLog := {
  log_append := mem_append;
  log_flush l := Ok l;
  log_read_from := mem_read_from;
  log_read_bounded := mem_read_bounded;
  log_read_bytes := default_read_bytes mem_read_bounded;
  log_head := mem_head;
  log_read_one_within := default_read_one_within mem_read_bounded }.

(** ** The index in memory *)

Definition ts_le (a b : Z * Z) : Prop := a.1 <= b.1.

Global Instance ts_le_dec a b : Decision (ts_le a b).
Proof. unfold ts_le. apply _. Defined.

(** [range(key..)] of an ordered map *)
Definition entries_from (m : gmap Z Z) (key : Z) : list (Z * Z) :=
  List.filter (λ e, key <=? e.1) (merge_sort ts_le (map_to_list m)).

Record InMemSequenceIndex := mkMemIndex { mem_index : gmap Z Z }.

#[export] Instance mem_sequence_index : SequenceIndex InMemSequenceIndex := {
  idx_insert i key value := Ok (mkMemIndex (<[key := value]> (mem_index i)));
  idx_get i key := Ok (mem_index i !! key);
  idx_seek i key := Ok (snd <$> head (entries_from (mem_index i) key));
  idx_range_from i key limit := Ok (takeZ limit (entries_from (mem_index i) key)) }.

(** ** The index on disk *)

Section SledIndex.
Context `{SledTree}.

Record SledSequenceIndex := mkSledIndex { index_tree : Tree }.

(** [uN::from_be_bytes(v.try_into()?)] *)
Definition decode_be (n : nat) (raw : Bytes) : result Z LogError :=
  if (length raw =? n)%nat then Ok (from_be_bytes raw) else Err CorruptIndex.

(** [range(key..)] *)
Definition tree_range (t : Tree) (key : Bytes) : list Bytes := List.filter (λ k, bool_decide (bytes_le key k)) (tree_keys t).

Definition sled_index_get (i : SledSequenceIndex) (key : Z) : result (option Z) LogError :=
  match tree_get (index_tree i) (to_be_bytes 16 key) with
  | None => Ok None
  | Some v => match decode_be 8 v with Ok seq => Ok (Some seq) | Err e => Err e end
  end.

Definition sled_index_insert (i : SledSequenceIndex) (key value : Z) : result SledSequenceIndex LogError :=
  Ok (mkSledIndex (tree_insert (index_tree i) (to_be_bytes 16 key) (to_be_bytes 8 value))).

(** The value of a key that the range listed. *)
Definition range_value (t : Tree) (k : Bytes) : Bytes := default [] (tree_get t k).

Definition sled_index_seek (i : SledSequenceIndex) (key : Z) : result (option Z) LogError :=
  match tree_range (index_tree i) (to_be_bytes 16 key) with
  | [] => Ok None
  | k :: _ => match decode_be 8 (range_value (index_tree i) k) with Ok seq => Ok (Some seq) | Err e => Err e end
  end.

Fixpoint decode_entries (t : Tree) (keys : list Bytes) : result (list (Z * Z)) LogError :=
  match keys with
  | [] => Ok []
  | k :: rest =>
      match decode_be 16 k, decode_be 8 (range_value t k) with
      | Ok ts, Ok seq => match decode_entries t rest with Ok l => Ok ((ts, seq) :: l) | Err e => Err e end
      | Err e, _ | _, Err e => Err e
      end
  end.

Definition sled_index_range_from (i : SledSequenceIndex) (key limit : Z) : result (list (Z * Z)) LogError :=
  decode_entries (index_tree i) (takeZ limit (tree_range (index_tree i) (to_be_bytes 16 key))).

#[export] Instance sled_sequence_index : SequenceIndex SledSequenceIndex := {
  idx_insert := sled_index_insert;
  idx_get := sled_index_get;
  idx_seek := sled_index_seek;
  idx_range_from := sled_index_range_from }.
End SledIndex.

(** ** The laws *)

(** What a log and an index hold. *)
Class LogModel (L : Type) := log_rep : L → list LogEvent → Prop.
Class IndexModel (I : Type) := idx_rep : I → gmap Z Z → Prop.

(** A log is a list of events; sequence numbers count from one.  An append or a sync may fail. *)
Class EventLogLaws (L : Type) `{EventBytes} `{EventLog L} `{LogModel L} : Prop := {
  append_spec : ∀ l es e, log_rep l es →
    match log_append l e with
    | Ok (seq, l') => seq = Z.of_nat (length es) + 1 ∧ log_rep l' (es ++ [e])
    | Err _ => True
    end;
  flush_spec : ∀ l es, log_rep l es → match log_flush l with Ok l' => log_rep l' es | Err _ => True end;
  read_from_spec : ∀ l es from, log_rep l es → 1 <= from → log_read_from l from = Ok (number from (drop (start_idx from) es));
  read_bounded_spec : ∀ l es from limit, log_rep l es → 1 <= from → 0 <= limit →
    log_read_bounded l from limit = Ok (number from (takeZ limit (drop (start_idx from) es)));
  read_bytes_spec : ∀ l es from limit max_bytes, log_rep l es → 1 <= from → 0 <= limit →
    log_read_bytes l from limit max_bytes = Ok (within_bytes max_bytes 0 true (number from (takeZ limit (drop (start_idx from) es))));
  head_spec : ∀ l es, log_rep l es → log_head l = Z.of_nat (length es);
  read_one_spec : ∀ l es seq max_bytes, log_rep l es → 1 <= seq →
    log_read_one_within l seq max_bytes =
      Ok ((λ e, if match max_bytes with Some max => max <? event_bytes e | None => false end then TooLarge (event_bytes e)
                else REvent e (event_bytes e)) <$> es !! start_idx seq) }.

(** An index is a map from timestamps of 128 bits to sequence numbers of 64 bits. *)
Definition ts_ok (ts : Z) : Prop := 0 <= ts < 2 ^ 128.
Definition seq_ok (seq : Z) : Prop := 0 <= seq < 2 ^ 64.

Class SequenceIndexLaws (I : Type) `{SequenceIndex I} `{IndexModel I} : Prop := {
  idx_insert_spec : ∀ i m ts seq, idx_rep i m → ts_ok ts → seq_ok seq →
    match idx_insert i ts seq with Ok i' => idx_rep i' (<[ts := seq]> m) | Err _ => True end;
  idx_get_spec : ∀ i m ts, idx_rep i m → ts_ok ts → idx_get i ts = Ok (m !! ts);
  idx_seek_spec : ∀ i m ts, idx_rep i m → ts_ok ts → idx_seek i ts = Ok (snd <$> head (entries_from m ts));
  idx_range_spec : ∀ i m ts limit, idx_rep i m → ts_ok ts → 0 <= limit →
    idx_range_from i ts limit = Ok (takeZ limit (entries_from m ts)) }.

(** ** The implementations in memory *)

#[export] Instance mem_log_model : LogModel InMemEventLog := λ l es, mem_log l = es.
#[export] Instance mem_index_model : IndexModel InMemSequenceIndex := λ i m, mem_index i = m.

#[export] Instance mem_index_laws : SequenceIndexLaws InMemSequenceIndex.
Proof. constructor; unfold idx_rep, mem_index_model; by intros; subst. Qed.

Lemma takeZ_nil {A} limit : takeZ limit ([] : list A) = [].
Proof. apply take_nil. Qed.

#[export] Instance mem_log_laws `{EventBytes} : EventLogLaws InMemEventLog.
Proof.
  constructor; unfold log_rep, mem_log_model; intros l es; intros; subst es; cbn [log_append log_flush log_read_from log_read_bounded log_read_bytes log_head log_read_one_within mem_event_log]; try done.
  - unfold mem_append. rewrite length_app. cbn. split; [lia|done].
  - unfold default_read_one_within, mem_read_bounded, takeZ. change (Z.to_nat 1) with 1%nat.
    rewrite <- (Nat.add_0_r (start_idx seq)) at 2. rewrite <- lookup_drop. destruct (drop (start_idx seq) (mem_log l)) as [|e rest]; [done|].
    cbn. rewrite Z.eqb_refl. by destruct max_bytes.
Qed.

(** ** The timestamp index on disk

    Keys are big-endian timestamps, so that the order of the tree is the order of time: the index
    over a sled tree keeps the laws of [SequenceIndexLaws], like the index in memory. *)

(** ** Sorted entries *)

Global Instance ts_le_total : Total ts_le.
Proof. intros a b. unfold ts_le. lia. Qed.
Global Instance ts_le_trans : Transitive ts_le.
Proof. intros a b c. unfold ts_le. lia. Qed.

Lemma elem_of_entries_from m key ts seq : (ts, seq) ∈ entries_from m key ↔ m !! ts = Some seq ∧ key <= ts.
Proof.
  unfold entries_from. rewrite list_elem_of_In, filter_In, <- list_elem_of_In, merge_sort_Permutation, elem_of_map_to_list. cbn.
  by rewrite Z.leb_le.
Qed.

Lemma sorted_filter_by {A} (R : relation A) (p : A → bool) l : StronglySorted R l → StronglySorted R (List.filter p l).
Proof.
  induction 1 as [|x l Hl IH Hx]; cbn; [constructor|]. destruct (p x); [|done]. constructor; [done|].
  rewrite Forall_forall in Hx |- *. intros y. rewrite list_elem_of_In, filter_In, <- list_elem_of_In. intros [? _]. auto.
Qed.

Lemma NoDup_fst_filter {A B} (p : A * B → bool) (l : list (A * B)) : NoDup l.*1 → NoDup (List.filter p l).*1.
Proof.
  induction l as [|x l IH]; [done|]. cbn [fmap list_fmap List.filter]. intros [Hx Hl]%NoDup_cons. destruct (p x); [|auto].
  cbn [fmap list_fmap]. apply NoDup_cons. split; [|auto]. intros Hin. apply Hx. apply list_elem_of_fmap in Hin as (y & Ey & Hy).
  rewrite list_elem_of_In, filter_In, <- list_elem_of_In in Hy. apply list_elem_of_fmap. exists y. tauto.
Qed.

Lemma entries_from_sorted m key : StronglySorted ts_le (entries_from m key) ∧ NoDup (entries_from m key).*1.
Proof.
  unfold entries_from. split; [apply sorted_filter_by, (StronglySorted_merge_sort _)|].
  apply NoDup_fst_filter. rewrite merge_sort_Permutation. apply NoDup_fst_map_to_list.
Qed.

(** ** Big-endian keys *)

Lemma be_bytes_le a b : ts_ok a → ts_ok b → bytes_le (to_be_bytes 16 a) (to_be_bytes 16 b) ↔ a <= b.
Proof.
  intros Ha Hb. unfold bytes_le, ts_ok in *. rewrite lex_compare_from_be_bytes by (by rewrite ?length_to_be_bytes || apply to_be_bytes_is_byte).
  rewrite !from_to_be_bytes, !Z.mod_small by (lia || (change (256 ^ Z.of_nat 16) with (2 ^ 128); lia)). done.
Qed.

Lemma be_bytes_inj a b : ts_ok a → ts_ok b → to_be_bytes 16 a = to_be_bytes 16 b → a = b.
Proof.
  intros Ha Hb E. assert (bytes_le (to_be_bytes 16 a) (to_be_bytes 16 b)) as H1 by (rewrite E; by destruct (total bytes_le (to_be_bytes 16 b) (to_be_bytes 16 b))).
  assert (bytes_le (to_be_bytes 16 b) (to_be_bytes 16 a)) as H2 by (rewrite E; by destruct (total bytes_le (to_be_bytes 16 b) (to_be_bytes 16 b))).
  rewrite be_bytes_le in H1, H2 by done. lia.
Qed.

Lemma decode_be_16 ts : ts_ok ts → decode_be 16 (to_be_bytes 16 ts) = Ok ts.
Proof.
  intros Hts. unfold decode_be. rewrite length_to_be_bytes. cbn [Nat.eqb]. f_equal. rewrite from_to_be_bytes by apply Hts.
  apply Z.mod_small. exact Hts.
Qed.

Lemma decode_be_8 seq : seq_ok seq → decode_be 8 (to_be_bytes 8 seq) = Ok seq.
Proof.
  intros Hs. unfold decode_be. rewrite length_to_be_bytes. cbn [Nat.eqb]. f_equal. rewrite from_to_be_bytes by apply Hs.
  apply Z.mod_small. exact Hs.
Qed.

(** ** The laws *)

Section SledLaws.
Context `{SledTreeLaws}.

#[export] Instance sled_index_model : IndexModel SledSequenceIndex := λ i m,
  (∀ ts, ts_ok ts → tree_get (index_tree i) (to_be_bytes 16 ts) = to_be_bytes 8 <$> m !! ts) ∧
  (∀ k, is_Some (tree_get (index_tree i) k) → ∃ ts, ts_ok ts ∧ k = to_be_bytes 16 ts) ∧
  (∀ ts seq, m !! ts = Some seq → ts_ok ts ∧ seq_ok seq).

Lemma tree_range_entries i m key : idx_rep i m → ts_ok key →
  tree_range (index_tree i) (to_be_bytes 16 key) = (λ e : Z * Z, to_be_bytes 16 e.1) <$> entries_from m key.
Proof.
  intros (Hg & Hk & Hm) Hkey. destruct (entries_from_sorted m key) as [Hs Hn].
  assert (∀ e, e ∈ entries_from m key → ts_ok e.1) as Hok.
  { intros [ts seq] [Hts _]%elem_of_entries_from. by apply (Hm ts seq). }
  apply sorted_keys_unique.
  - apply sorted_filter_by, tree_keys_sorted.
  - clear Hn. revert Hs Hok. generalize (entries_from m key). intros l. induction 1 as [|e l Hl IH He]; intros Hok; [constructor|].
    cbn [fmap list_fmap]. constructor.
    + apply IH. intros e' He'. apply Hok. by right.
    + rewrite Forall_forall in He. rewrite Forall_forall. intros k (e' & -> & He')%list_elem_of_fmap.
      apply be_bytes_le; [apply Hok; by left|apply Hok; by right|]. by apply He.
  - apply NoDup_starts, tree_keys_sorted.
  - clear Hs. revert Hn Hok. generalize (entries_from m key). intros l. induction l as [|e l IH]; intros Hn Hok; [constructor|]. cbn [fmap list_fmap] in *. apply NoDup_cons in Hn as [Hin Hn].
    apply NoDup_cons. split; [|apply IH; [done|]; intros e' He'; apply Hok; by right].
    intros (e' & E & He')%list_elem_of_fmap. apply Hin. apply list_elem_of_fmap. exists e'. split; [|done].
    apply be_bytes_inj; [apply Hok; by left|apply Hok; by right|done].
  - intros k. unfold tree_range. rewrite list_elem_of_In, filter_In, <- list_elem_of_In, tree_keys_get, bool_decide_eq_true, list_elem_of_fmap. split.
    + intros [Hin Hle]. destruct (Hk k Hin) as (ts & Hts & ->). rewrite (Hg ts Hts) in Hin. apply fmap_is_Some in Hin as [seq Hseq].
      exists (ts, seq). split; [done|]. apply elem_of_entries_from. split; [done|]. by apply be_bytes_le.
    + intros ([ts seq] & -> & [Hts Hle]%elem_of_entries_from). destruct (Hm ts seq Hts) as [Hok' _]. cbn [fst]. rewrite (Hg ts Hok'), Hts.
      split; [by eexists|]. by apply be_bytes_le.
Qed.

Lemma range_value_entry i m ts seq : idx_rep i m → m !! ts = Some seq → range_value (index_tree i) (to_be_bytes 16 ts) = to_be_bytes 8 seq.
Proof. intros (Hg & _ & Hm) E. destruct (Hm ts seq E) as [Hts _]. unfold range_value. by rewrite (Hg ts Hts), E. Qed.

Lemma decode_entries_spec i m l : idx_rep i m → (∀ ts seq, (ts, seq) ∈ l → m !! ts = Some seq) →
  decode_entries (index_tree i) ((λ e : Z * Z, to_be_bytes 16 e.1) <$> l) = Ok l.
Proof.
  intros Hi. induction l as [|[ts seq] l IH]; intros Hl; [done|]. cbn [fmap list_fmap decode_entries fst].
  pose proof (Hl ts seq (list_elem_of_here _ _)) as E. rewrite (range_value_entry i m ts seq Hi E).
  destruct Hi as (Hg & Hk & Hm). destruct (Hm ts seq E) as [Hts Hseq]. rewrite decode_be_16, decode_be_8 by done.
  rewrite IH; [done|]. intros ts' seq' Hin. apply Hl. by right.
Qed.

#[export] Instance sled_index_laws : SequenceIndexLaws SledSequenceIndex.
Proof.
  constructor; cbn [idx_insert idx_get idx_seek idx_range_from sled_sequence_index].
  - intros i m ts seq (Hg & Hk & Hm) Hts Hseq. unfold sled_index_insert. split; [|split]; cbn [index_tree].
    + intros ts' Hts'. rewrite tree_get_insert, (Hg ts' Hts'). case_decide as E.
      * apply be_bytes_inj in E as ->; [|done..]. by rewrite lookup_insert_eq.
      * rewrite lookup_insert_ne; [done|]. by intros ->.
    + intros k. rewrite tree_get_insert. case_decide as E; [intros _; by exists ts|apply Hk].
    + intros ts' seq'. rewrite lookup_insert_Some. intros [[<- <-]|[_ E]]; [done|by apply Hm].
  - intros i m ts (Hg & Hk & Hm) Hts. unfold sled_index_get. rewrite (Hg ts Hts). destruct (m !! ts) as [seq|] eqn:E; [|done].
    cbn [fmap option_fmap option_map]. destruct (Hm ts seq E) as [_ Hseq]. by rewrite decode_be_8.
  - intros i m ts Hi Hts. unfold sled_index_seek. rewrite (tree_range_entries i m ts Hi Hts).
    destruct (entries_from m ts) as [|[ts' seq] l] eqn:El; [done|]. cbn [fmap list_fmap head fst].
    assert (m !! ts' = Some seq) as E by (apply (elem_of_entries_from m ts); rewrite El; by left).
    rewrite (range_value_entry i m ts' seq Hi E). destruct Hi as (_ & _ & Hm). destruct (Hm ts' seq E) as [_ Hseq]. by rewrite decode_be_8.
  - intros i m ts limit Hi Hts Hl. unfold sled_index_range_from, takeZ. rewrite (tree_range_entries i m ts Hi Hts), <- fmap_take.
    apply (decode_entries_spec i m _ Hi). intros ts' seq' Hin. apply (elem_of_entries_from m ts).
    eapply elem_of_sublist; [exact Hin|apply sublist_take].
Qed.
End SledLaws.
