(* ===== verification/EventStore.v ===== *)
(** * The event store

    Model of crates/events/src/eventstore.rs over the traits of EventLog: storing an event once,
    the queries by timestamp and sequence, the history pages, the reconciliation of the index at
    start-up and the handlers of the actor.  The paged loops run on fuel: [OutOfFuel] is ruled out
    by the theorems of EventStoreProps. *)

From S2P Require Import Prelude Events Orchestration Hamt EventLog.
Local Open Scope Z_scope.

Definition INDEX_RECONCILE_PAGE_SIZE : Z := 1024.
Definition INDEX_RECONCILE_PAGE_BYTES : Z := 256 * 1024 * 1024.
Definition FILTER_SCAN_PAGE_SIZE : Z := 1024.
Definition FILTER_SCAN_PAGE_BYTES : Z := 256 * 1024 * 1024.

Record HistoryProgress := mkProgress { last_scanned_ts : option Z; exhausted : bool }.

Record EventStore (I L : Type) := mkEventStore { es_index : I; es_log : L; max_timestamp : option Z }.
Arguments mkEventStore {I L} _ _ _.
Arguments es_index {I L} _.
Arguments es_log {I L} _.
Arguments max_timestamp {I L} _.

(** [self.max_timestamp.map_or(ts, |current| current.max(ts))] *)
Definition raise_max (current : option Z) (ts : Z) : option Z := Some (match current with None => ts | Some c => Z.max c ts end).

Section Store.
Context `{EventBytes} {I L : Type} `{SequenceIndex I} `{EventLog L}.
Implicit Types s : EventStore I L.

(** ** Storing *)

Definition store_event s (event : LogEvent) : result (option Sequenced) LogError * EventStore I L :=
  let ts := ev_ts event in
  match idx_get (es_index s) ts with
  | Err e => (Err e, s)
  | Ok (Some indexed_seq) =>
      match log_read_bounded (es_log s) indexed_seq 1 with
      | Err e => (Err e, s)
      | Ok [] => (Err (MissingSequence ts indexed_seq), s)
      | Ok ((logged_seq, existing) :: _) =>
          if negb (logged_seq =? indexed_seq) then (Err (WrongSequence ts indexed_seq logged_seq), s)
          else if bool_decide (ev_id existing = ev_id event) && bool_decide (ev_data existing = ev_data event) then (Ok None, s)
          else (Err (TimestampCollision ts indexed_seq), s)
      end
  | Ok None =>
      match log_append (es_log s) event with
      | Err e => (Err e, s)
      | Ok (seq, log) =>
          let s := mkEventStore (es_index s) log (max_timestamp s) in
          match log_flush log with
          | Err e => (Err e, s)
          | Ok log =>
              let s := mkEventStore (es_index s) log (max_timestamp s) in
              match idx_insert (es_index s) ts seq with
              | Err e => (Err e, s)
              | Ok index => (Ok (Some (seq, event)), mkEventStore index log (raise_max (max_timestamp s) ts))
              end
          end
      end
  end.

(** ** Queries *)

Definition matches (filter : EventSource) (e : Sequenced) : bool := bool_decide (ev_source e.2 = filter).

Definition collect_events (events : list Sequenced) (filter : option EventSource) (limit : option Z) : list Sequenced :=
  let events := match filter with Some source => List.filter (matches source) events | None => events end in
  match limit with Some lim => takeZ lim events | None => events end.

(** The result of one page of the filtered scan. *)
Inductive Scan := Returns (output : list Sequenced) | Continues (cursor : Z) (output : list Sequenced) (output_bytes : Z).

Fixpoint scan_page (filter : EventSource) (limit : Z) (max_bytes : option Z) (page : list Sequenced) (cursor : Z)
    (output : list Sequenced) (output_bytes : Z) : result Scan LogError :=
  match page with
  | [] => Ok (Continues cursor output output_bytes)
  | (sequence, event) :: rest =>
      match checked_succ sequence with
      | None => Err SequenceOverflow
      | Some cursor =>
          if negb (matches filter (sequence, event)) then scan_page filter limit max_bytes rest cursor output output_bytes
          else
            let event_bytes := event_bytes event in
            if negb (bool_decide (output = [])) &&
               match max_bytes with Some budget => budget <? saturating_add output_bytes event_bytes | None => false end
            then Ok (Returns output)
            else
              let output_bytes := saturating_add output_bytes event_bytes in
              let output := output ++ [(sequence, event)] in
              if limit <=? Z.of_nat (length output) then Ok (Returns output)
              else scan_page filter limit max_bytes rest cursor output output_bytes
      end
  end.

Fixpoint filtered_loop (fuel : nat) s (filter : EventSource) (limit : Z) (max_bytes : option Z) (cursor : Z)
    (output : list Sequenced) (output_bytes : Z) : Outcome (result (list Sequenced) LogError) :=
  match fuel with
  | O => OutOfFuel
  | S fuel =>
      match log_read_bytes (es_log s) cursor FILTER_SCAN_PAGE_SIZE (default FILTER_SCAN_PAGE_BYTES max_bytes) with
      | Err e => Done (Err e)
      | Ok page =>
          match scan_page filter limit max_bytes page cursor output output_bytes with
          | Err e => Done (Err e)
          | Ok (Returns output) => Done (Ok output)
          | Ok (Continues cursor output output_bytes) =>
              match page with
              | [] => Done (Ok output)
              | _ => filtered_loop fuel s filter limit max_bytes cursor output output_bytes
              end
          end
      end
  end.

(** One round per event, and one that finds nothing, is enough. *)
Definition collect_filtered_bounded s (from : Z) (filter : EventSource) (limit : Z) (max_bytes : option Z)
    : Outcome (result (list Sequenced) LogError) :=
  if limit =? 0 then Done (Ok [])
  else filtered_loop (S (Z.to_nat (log_head (es_log s)))) s filter limit max_bytes from [] 0.

(** The reads behind both queries. *)
Definition query_from s (seq : Z) (filter : option EventSource) (limit max_bytes : option Z) : Outcome (result (list Sequenced) LogError) :=
  match filter, limit, max_bytes with
  | Some filter, Some limit, max_bytes => collect_filtered_bounded s seq filter limit max_bytes
  | _, _, _ =>
      let events := match filter, limit, max_bytes with
                    | None, Some limit, Some max_bytes => log_read_bytes (es_log s) seq limit max_bytes
                    | None, Some limit, None => log_read_bounded (es_log s) seq limit
                    | _, _, _ => log_read_from (es_log s) seq
                    end in
      match events with Err e => Done (Err e) | Ok events => Done (Ok (collect_events events filter limit)) end
  end.

Definition query_by_ts_with_bounds s (query : Z) (filter : option EventSource) (limit max_bytes : option Z)
    : Outcome (result (list Sequenced) LogError) :=
  match idx_seek (es_index s) query with
  | Err e => Done (Err e)
  | Ok None => Done (Ok [])
  | Ok (Some seq) => query_from s seq filter limit max_bytes
  end.

Definition query_by_seq_with_bounds s (query : Z) (filter : option EventSource) (limit max_bytes : option Z)
    : Outcome (result (list Sequenced) LogError) :=
  let head := log_head (es_log s) in
  match checked_succ head with
  | None => Done (Err SequenceOverflow)
  | Some caught_up => if caught_up <? query then Done (Err (CursorAhead query head)) else query_from s query filter limit max_bytes
  end.

(** ** History pages *)

(** The loop over the index entries: [None] for a page that ran out of its budget. *)
Fixpoint history_loop s (max_bytes : Z) (entries : list (Z * Z)) (events : list Sequenced) (bytes : Z) (last_scanned : option Z)
    : result (list Sequenced * option Z * bool) LogError :=
  match entries with
  | [] => Ok (events, last_scanned, true)
  | (ts, seq) :: rest =>
      let budget := if negb (bool_decide (events = [])) then Some (Z.max 0 (max_bytes - bytes)) else None in
      match log_read_one_within (es_log s) seq budget with
      | Err e => Err e
      | Ok None => Err (MissingSequence ts seq)
      | Ok (Some (TooLarge _)) => Ok (events, last_scanned, false)
      | Ok (Some (REvent event event_bytes)) =>
          if negb (ev_ts event =? ts) then Err (WrongTimestamp ts seq (ev_ts event))
          else history_loop s max_bytes rest (events ++ [(seq, event)]) (saturating_add bytes event_bytes) (Some ts)
      end
  end.

Definition query_history_page s (since limit max_bytes : Z) : result (list Sequenced * HistoryProgress) LogError :=
  match idx_range_from (es_index s) since (saturating_add limit 1) with
  | Err e => Err e
  | Ok entries =>
      match history_loop s max_bytes (takeZ limit entries) [] 0 None with
      | Err e => Err e
      | Ok (events, last_scanned, complete) =>
          Ok (events, mkProgress last_scanned (complete && (Z.of_nat (length entries) <=? limit)))
      end
  end.

(** ** Reconciliation *)

(** One page of the reconciliation. *)
Fixpoint reconcile_page (head : Z) (page : list Sequenced) s (next_sequence : Z) : result Z LogError * EventStore I L :=
  match page with
  | [] => (Ok next_sequence, s)
  | (seq, event) :: rest =>
      if negb (seq =? next_sequence) then (Err (BrokenSequence next_sequence seq), s)
      else if head <? seq then (Err (HeadMoved head seq), s)
      else
        let ts := ev_ts event in
        let s := mkEventStore (es_index s) (es_log s) (raise_max (max_timestamp s) ts) in
        match idx_get (es_index s) ts with
        | Err e => (Err e, s)
        | Ok found =>
            match (match found with Some _ => Ok (es_index s) | None => idx_insert (es_index s) ts seq end) with
            | Err e => (Err e, s)
            | Ok index =>
                let s := mkEventStore index (es_log s) (max_timestamp s) in
                match checked_succ seq with
                | None => (Err SequenceOverflow, s)
                | Some next => reconcile_page head rest s next
                end
            end
        end
  end.

Fixpoint reconcile_loop (fuel : nat) (head : Z) s (next_sequence : Z) : Outcome (result () LogError * EventStore I L) :=
  if next_sequence <=? head then
    match fuel with
    | O => OutOfFuel
    | S fuel =>
        match log_read_bytes (es_log s) next_sequence INDEX_RECONCILE_PAGE_SIZE INDEX_RECONCILE_PAGE_BYTES with
        | Err e => Done (Err e, s)
        | Ok page =>
            match reconcile_page head page s next_sequence with
            | (Err e, s) => Done (Err e, s)
            | (Ok next, s) =>
                if (length page =? 0)%nat then Done (Err (NoEventAt next), s)
                else if INDEX_RECONCILE_PAGE_SIZE <? Z.of_nat (length page) then Done (Err (PageTooLong (length page)), s)
                else reconcile_loop fuel head s next
            end
        end
    end
  else Done (Ok tt, s).

Definition reconcile_index s : Outcome (result () LogError * EventStore I L) :=
  let head := log_head (es_log s) in
  if head =? 0 then Done (Ok tt, s) else reconcile_loop (Z.to_nat head) head s 1.

(** [EventStore::new] *)
Definition store_new (index : I) (log : L) : Outcome (result () LogError * EventStore I L) :=
  reconcile_index (mkEventStore index log None).

(** ** The actor *)

Record StoreActor := mkActor { store : EventStore I L; fatal : option LogError; running : bool }.

Inductive StoreAction := Respond (e : Sequenced) | SettleDuplicate | Nothing.

(** [record_failure] keeps the first failure. *)
Definition report_fatal_failure (a : StoreActor) (s : EventStore I L) (e : LogError) : StoreActor :=
  mkActor s (Some (default e (fatal a))) false.

Definition handle_store_event (a : StoreActor) (event : LogEvent) : StoreAction * StoreActor :=
  match store_event (store a) event with
  | (Ok (Some e), s) => (Respond e, mkActor s (fatal a) (running a))
  | (Ok None, s) => (SettleDuplicate, mkActor s (fatal a) (running a))
  | (Err e, s) => (Nothing, report_fatal_failure a s e)
  end.

Definition handle_flush (a : StoreActor) : result () LogError * StoreActor :=
  match log_flush (es_log (store a)) with
  | Ok log => (Ok tt, mkActor (mkEventStore (es_index (store a)) log (max_timestamp (store a))) (fatal a) (running a))
  | Err e => (Err e, report_fatal_failure a (store a) e)
  end.

Definition clock_floor (a : StoreActor) : option Z := max_timestamp (store a).

Record QueryResponse := mkResponse { q_result : result (list Sequenced) LogError; q_log_head : option Z; q_history : option HistoryProgress }.

Definition handle_query_ts (a : StoreActor) (query : Z) (timestamp_order : bool) (filter : option EventSource) (limit max_bytes : option Z)
    : Outcome QueryResponse :=
  if timestamp_order then
    match query_history_page (store a) query (default USIZE_MAX limit) (default USIZE_MAX max_bytes) with
    | Ok (events, progress) => Done (mkResponse (Ok events) None (Some progress))
    | Err e => Done (mkResponse (Err e) None None)
    end
  else
    let! r := query_by_ts_with_bounds (store a) query filter limit max_bytes in Done (mkResponse r None None).

Definition handle_query_seq (a : StoreActor) (query : Z) (filter : option EventSource) (limit max_bytes : option Z) : Outcome QueryResponse :=
  let! r := query_by_seq_with_bounds (store a) query filter limit max_bytes in
  Done (mkResponse r (Some (log_head (es_log (store a)))) None).
End Store.
