(* ===== verification/EventStoreProps.v ===== *)
(** * What the event store promises

    Over any log and index that keep their laws: an event is stored and dispatched once, under the
    next sequence number; the index describes the log; a crash at any point of a write is
    repaired by the next start; and the pages of the history cover every event in the order of time. *)

From S2P Require Import Prelude Events Orchestration Hamt KvStore KvStoreProps EventLog EventStore.
Local Open Scope Z_scope.

(** ** Numbered events *)

Lemma number_app from l1 l2 : number from (l1 ++ l2) = number from l1 ++ number (from + Z.of_nat (length l1)) l2.
Proof.
  revert from. induction l1 as [|e l1 IH]; intros from; cbn [number app length].
  - by rewrite Z.add_0_r.
  - rewrite IH. by replace (from + 1 + Z.of_nat (length l1)) with (from + Z.of_nat (S (length l1))) by lia.
Qed.

Lemma length_number from l : length (number from l) = length l.
Proof. revert from. induction l as [|e l IH]; intros from; cbn; [done|]. by rewrite IH. Qed.

Lemma lookup_number from l (i : nat) : number from l !! i = (λ e, (from + Z.of_nat i, e)) <$> l !! i.
Proof.
  revert from i. induction l as [|e l IH]; intros from [|i]; cbn [number lookup list_lookup fmap option_fmap option_map]; try done.
  - do 2 f_equal. lia.
  - change (number (from + 1) l !! i = (λ e, (from + Z.of_nat (S i), e)) <$> l !! i). rewrite IH. destruct (l !! i); [|done].
    cbn. do 2 f_equal. lia.
Qed.

Lemma elem_of_number from l seq e : (seq, e) ∈ number from l ↔ from <= seq ∧ l !! Z.to_nat (seq - from) = Some e.
Proof.
  rewrite list_elem_of_lookup. setoid_rewrite lookup_number. split.
  - intros (i & E). destruct (l !! i) as [e'|] eqn:El; [|done]. injection E as <- <-. split; [lia|].
    by replace (Z.to_nat (from + Z.of_nat i - from)) with i by lia.
  - intros [Hle E]. exists (Z.to_nat (seq - from)). rewrite E. cbn. do 2 f_equal. lia.
Qed.

(** ** What the index says *)

Definition index_sound (m : gmap Z Z) (es : list LogEvent) : Prop :=
  ∀ ts seq, m !! ts = Some seq → 1 <= seq ∧ ∃ e, es !! start_idx seq = Some e ∧ ev_ts e = ts.

Definition index_complete (m : gmap Z Z) (es : list LogEvent) : Prop := ∀ e, e ∈ es → is_Some (m !! ev_ts e).

Definition log_wf (es : list LogEvent) : Prop := NoDup (ev_ts <$> es) ∧ Forall (λ e, ts_ok (ev_ts e)) es ∧ Z.of_nat (length es) < USIZE_MAX.

Definition max_ts (es : list LogEvent) : option Z := foldl raise_max None (ev_ts <$> es).

Lemma start_idx_succ n : start_idx (Z.of_nat n + 1) = n.
Proof. unfold start_idx. lia. Qed.

Lemma index_sound_app m es e : index_sound m es → index_sound m (es ++ [e]).
Proof. intros Hs ts seq E. destruct (Hs ts seq E) as (Hle & x & Ex & Et). split; [done|]. exists x. split; [|done]. by apply lookup_app_l_Some. Qed.

(** Adding the event at the end. *)
Lemma index_sound_insert m es e : index_sound m es → index_sound (<[ev_ts e := Z.of_nat (length es) + 1]> m) (es ++ [e]).
Proof.
  intros Hs ts seq. rewrite lookup_insert_Some. intros [[<- <-]|[_ E]]; [|by apply (index_sound_app m es e Hs)].
  split; [lia|]. exists e. split; [|done]. rewrite start_idx_succ. by apply list_lookup_middle.
Qed.

(** An entry of a sound index is the entry of its event. *)
Lemma index_sound_at m es e (i : nat) : log_wf es → index_sound m es → es !! i = Some e → is_Some (m !! ev_ts e) →
  m !! ev_ts e = Some (Z.of_nat i + 1).
Proof.
  intros (Hn & _) Hs Ei [seq Eseq]. rewrite Eseq. f_equal. destruct (Hs _ _ Eseq) as (Hle & e' & Ee & Et).
  assert (start_idx seq = i) as Hi; [|unfold start_idx in Hi; lia].
  eapply (NoDup_lookup _ _ _ (ev_ts e) Hn); rewrite list_lookup_fmap; [by rewrite Ee, <- Et|by rewrite Ei].
Qed.

Section Store.
Context `{EventBytes} {I L : Type} `{SequenceIndexLaws I} `{!EventLog L} `{!LogModel L} `{!EventLogLaws L}.
Implicit Types s : EventStore I L.

(** A crash may leave events without an index entry. *)
Definition crash_rep s (es : list LogEvent) : Prop :=
  log_wf es ∧ log_rep (es_log s) es ∧ ∃ m, idx_rep (es_index s) m ∧ index_sound m es.

Definition store_rep s (es : list LogEvent) : Prop :=
  log_wf es ∧ log_rep (es_log s) es ∧ max_timestamp s = max_ts es ∧ ∃ m, idx_rep (es_index s) m ∧ index_sound m es ∧ index_complete m es.

(** The index refuses the entry of a record of the log that it does not have. *)
Definition index_refuses s (es : list LogEvent) (err : LogError) : Prop :=
  ∃ m i e, idx_rep (es_index s) m ∧ es !! i = Some e ∧ m !! ev_ts e = None ∧ idx_insert (es_index s) (ev_ts e) (Z.of_nat i + 1) = Err err.

Lemma store_crash s es : store_rep s es → crash_rep s es.
Proof. intros (Hw & Hl & _ & m & Hi & Hs & _). split; [done|]. split; [done|]. by exists m. Qed.

Lemma log_wf_app es e : log_wf es → ts_ok (ev_ts e) → Z.of_nat (length es) + 1 < USIZE_MAX → (∀ x, x ∈ es → ev_ts x ≠ ev_ts e) → log_wf (es ++ [e]).
Proof.
  intros (Hn & Ht & _) He Hlen Hf. split; [|split].
  - rewrite fmap_app. apply NoDup_app. split; [done|]. split; [|apply NoDup_singleton].
    intros ts (x & -> & Hx)%list_elem_of_fmap Hin. cbn in Hin. apply list_elem_of_singleton in Hin. by apply (Hf x).
  - apply Forall_app. split; [done|]. by constructor.
  - rewrite length_app. cbn. lia.
Qed.

(** Storing an event, on every path. *)
Lemma store_event_spec s es e : store_rep s es → ts_ok (ev_ts e) → Z.of_nat (length es) + 1 < USIZE_MAX →
  match store_event s e with
  | (Ok (Some x), s') => x = (Z.of_nat (length es) + 1, e) ∧ (∀ x, x ∈ es → ev_ts x ≠ ev_ts e) ∧ store_rep s' (es ++ [e])
  | (Ok None, s') => s' = s ∧ ∃ x, x ∈ es ∧ ev_ts x = ev_ts e ∧ ev_id x = ev_id e ∧ ev_data x = ev_data e
  | (Err _, s') =>
      (s' = s ∧ ∃ x, x ∈ es ∧ ev_ts x = ev_ts e ∧ (ev_id x ≠ ev_id e ∨ ev_data x ≠ ev_data e)) ∨
      ((∀ x, x ∈ es → ev_ts x ≠ ev_ts e) ∧ (crash_rep s' es ∨ crash_rep s' (es ++ [e])))
  end.
Proof.
  intros Hs He Hlen. pose proof Hs as (Hw & Hl & Hmax & m & Hi & Hsound & Hcomp). unfold store_event.
  rewrite (idx_get_spec _ m _ Hi He). destruct (m !! ev_ts e) as [seq|] eqn:Em.
  - destruct (Hsound _ _ Em) as (Hle & x & Ex & Et). rewrite (read_bounded_spec _ es) by (done || lia).
    assert (takeZ 1 (drop (start_idx seq) es) = [x]) as ->.
    { unfold takeZ. change (Z.to_nat 1) with 1%nat. rewrite <- (take_drop_middle es _ x Ex), drop_app_length'; [done|].
      rewrite length_take. apply lookup_lt_Some in Ex. lia. }
    cbn [number]. rewrite Z.eqb_refl. cbn [negb].
    pose proof (list_elem_of_lookup_2 _ _ _ Ex) as Hx.
    case_bool_decide as Eid; [case_bool_decide as Ed|]; cbn [andb].
    + split; [done|]. by exists x.
    + left. split; [done|]. exists x. auto.
    + left. split; [done|]. exists x. auto.
  - assert (∀ x, x ∈ es → ev_ts x ≠ ev_ts e) as Hfresh by (intros x Hx E; destruct (Hcomp x Hx) as [? Hc]; rewrite E in Hc; congruence).
    pose proof (log_wf_app es e Hw He Hlen Hfresh) as Hw'.
    pose proof (append_spec (es_log s) es e Hl) as Ha. destruct (log_append (es_log s) e) as [[seq l1]|]; [|right; split; [done|left; by apply store_crash]].
    destruct Ha as [-> Hl1]. cbn [es_index max_timestamp].
    assert (∀ l, log_rep l (es ++ [e]) → crash_rep (mkEventStore (es_index s) l (max_timestamp s)) (es ++ [e])) as Hcrash.
    { intros l Hl'. split; [done|]. split; [done|]. exists m. split; [done|]. by apply index_sound_app. }
    pose proof (flush_spec l1 _ Hl1) as Hf. destruct (log_flush l1) as [l2|]; [|right; auto].
    assert (seq_ok (Z.of_nat (length es) + 1)) as Hseq by (unfold seq_ok, USIZE_MAX in *; lia).
    pose proof (idx_insert_spec (es_index s) m (ev_ts e) _ Hi He Hseq) as Hins.
    destruct (idx_insert _ _ _) as [i'|]; [|right; auto].
    split; [done|]. split; [done|]. split; [done|]. split; [done|]. cbn [max_timestamp es_index]. split.
    + unfold max_ts. rewrite fmap_app, foldl_app, Hmax. done.
    + eexists. split; [exact Hins|]. split; [by apply index_sound_insert|].
      intros x [Hx|Hx]%elem_of_app; [|apply list_elem_of_singleton in Hx as ->; by rewrite lookup_insert_eq].
      rewrite lookup_insert_ne by (by apply not_eq_sym, Hfresh). by apply Hcomp.
Qed.

(** ** Runs of the actor *)

(** A stopped actor handles nothing. *)
Fixpoint actor_run (a : StoreActor (I:=I) (L:=L)) (events : list LogEvent) : list StoreAction * StoreActor (I:=I) (L:=L) :=
  match events with
  | [] => ([], a)
  | e :: rest =>
      if running a then
        let '(action, a) := handle_store_event a e in let '(actions, a) := actor_run a rest in (action :: actions, a)
      else ([], a)
  end.

Definition responses (actions : list StoreAction) : list Sequenced := omap (λ x, match x with Respond e => Some e | _ => None end) actions.

(** The same logical event. *)
Definition same_event (x e : LogEvent) : Prop := ev_ts x = ev_ts e ∧ ev_id x = ev_id e ∧ ev_data x = ev_data e.

Lemma actor_run_stopped a events : running a = false → actor_run a events = ([], a).
Proof. intros Hr. destruct events; [done|]. cbn [actor_run]. by rewrite Hr. Qed.

Lemma actor_run_spec events : ∀ a es, running a = true → store_rep (store a) es → Forall (λ e, ts_ok (ev_ts e)) events →
  Z.of_nat (length es) + Z.of_nat (length events) < USIZE_MAX →
  ∃ new pending, responses (actor_run a events).1 = number (Z.of_nat (length es) + 1) new ∧ new `sublist_of` events ∧ (length pending <= 1)%nat ∧
    crash_rep (store (actor_run a events).2) (es ++ new ++ pending) ∧
    (running (actor_run a events).2 = true →
       store_rep (store (actor_run a events).2) (es ++ new) ∧ ∀ e, e ∈ events → ∃ x, x ∈ es ++ new ∧ same_event x e).
Proof.
  induction events as [|e events IH]; intros a es Hr Hs Ht Hlen; cbn [actor_run].
  { exists [], []. split; [done|]. split; [done|]. split; [cbn; lia|]. rewrite !app_nil_r. split; [by apply store_crash|].
    intros _. split; [done|]. by intros e ?%not_elem_of_nil. }
  apply Forall_cons in Ht as [He Ht]. cbn [length] in Hlen. rewrite Hr. unfold handle_store_event.
  pose proof (store_event_spec (store a) es e Hs He ltac:(lia)) as Hspec. destruct (store_event (store a) e) as [[[x|]|err] s'].
  - destruct Hspec as (-> & Hfresh & Hs'). cbn [fst snd].
    destruct (IH (mkActor s' (fatal a) (running a)) (es ++ [e]) Hr Hs' Ht) as (new & pending & Er & Hsub & Hp & Hc & Hrun); [rewrite length_app; cbn; lia|].
    destruct (actor_run _ events) as [actions a']. cbn [fst snd] in *. exists (e :: new), pending.
    split; [cbn [responses omap list_omap]; unfold responses in Er; rewrite Er, length_app; cbn [number length]; do 2 f_equal; lia|].
    split; [by apply sublist_skip|]. split; [done|]. rewrite <- (assoc (++)) in Hc. split; [done|].
    intros Ha. destruct (Hrun Ha) as [Hs2 Hall]. rewrite <- (assoc (++)) in Hs2, Hall. split; [done|].
    intros x [->|Hx]%elem_of_cons; [|by apply Hall]. exists e. split; [|done]. rewrite elem_of_app. right. by left.
  - destruct Hspec as (-> & x & Hx & Hsame). cbn [fst snd].
    destruct (IH (mkActor (store a) (fatal a) (running a)) es Hr Hs Ht ltac:(lia)) as (new & pending & Er & Hsub & Hp & Hc & Hrun).
    destruct (actor_run _ events) as [actions a']. cbn [fst snd] in *. exists new, pending. split; [done|]. split; [by apply sublist_cons|].
    split; [done|]. split; [done|]. intros Ha. destruct (Hrun Ha) as [Hs2 Hall]. split; [done|].
    intros y [->|Hy]%elem_of_cons; [|by apply Hall]. exists x. split; [apply elem_of_app; by left|done].
  - cbn [report_fatal_failure]. rewrite actor_run_stopped by done. cbn [fst snd responses omap list_omap store running].
    assert (crash_rep s' es ∨ crash_rep s' (es ++ [e])) as [Hc|Hc].
    { destruct Hspec as [[-> _]|[_ Hc]]; [left; by apply store_crash|done]. }
    + exists [], []. rewrite !app_nil_r. split; [done|]. split; [apply sublist_nil_l|]. split; [cbn; lia|]. by split.
    + exists [], [e]. split; [done|]. split; [apply sublist_nil_l|]. split; [cbn; lia|]. by split.
Qed.

(** ** Reconciliation *)

Lemma within_bytes_prefix max l : ∀ bytes first, ∃ k, within_bytes max bytes first l = take k l ∧ (first = true → l ≠ [] → (1 <= k)%nat).
Proof.
  induction l as [|[seq e] l IH]; intros bytes first; cbn [within_bytes]; [by exists O|].
  destruct (negb first && _) eqn:Eb; [exists O; split; [done|]; intros ->; by cbn in Eb|].
  destruct (IH (saturating_add bytes (event_bytes e)) false) as (k & -> & _). exists (S k). split; [done|]. lia.
Qed.

Lemma take_number k from l : take k (number from l) = number from (take k l).
Proof. revert from l. induction k as [|k IH]; intros from [|e l]; cbn; try done. by rewrite IH. Qed.

(** A page of a lawful log. *)
Lemma page_spec l es from limit max : log_rep l es → 1 <= from → 1 <= limit → ∃ xs post, drop (start_idx from) es = xs ++ post ∧
  log_read_bytes l from limit max = Ok (number from xs) ∧ Z.of_nat (length xs) <= limit ∧ (from <= Z.of_nat (length es) → xs ≠ []).
Proof.
  intros Hl Hf Hlim. rewrite (read_bytes_spec l es) by (done || lia). set (ys := drop (start_idx from) es).
  destruct (within_bytes_prefix max (number from (takeZ limit ys)) 0 true) as (k & -> & Hk). rewrite take_number. unfold takeZ in *. rewrite take_take.
  exists (take (k `min` Z.to_nat limit) ys), (drop (k `min` Z.to_nat limit) ys). split; [by rewrite take_drop|]. split; [done|].
  split; [rewrite length_take; lia|]. intros Hle.
  assert (ys ≠ []) as Hys by (intros E; apply (f_equal length) in E; unfold ys in E; rewrite length_drop in E; unfold start_idx in E; cbn in E; lia).
  assert (1 <= k)%nat as Hk1.
  { apply Hk; [done|]. intros E. apply (f_equal length) in E. rewrite length_number, length_take in E. destruct ys; [done|]. cbn in E. lia. }
  intros E. apply (f_equal length) in E. rewrite length_take in E. destruct ys; [done|]. cbn in E. lia.
Qed.

Section Reconcile.
Variables (es : list LogEvent).
Hypothesis Hwf : log_wf es.

(** The index covers the first events. *)
Definition part_rep s (pre : list LogEvent) : Prop :=
  log_rep (es_log s) es ∧ max_timestamp s = max_ts pre ∧ ∃ m, idx_rep (es_index s) m ∧ index_sound m es ∧ index_complete m pre.

Lemma part_step s pre e rest : es = pre ++ e :: rest → part_rep s pre →
  (∃ i', idx_get (es_index s) (ev_ts e) = Ok (Some (Z.of_nat (length pre) + 1)) ∧ i' = es_index s ∧
     part_rep (mkEventStore i' (es_log s) (raise_max (max_timestamp s) (ev_ts e))) (pre ++ [e])) ∨
  (idx_get (es_index s) (ev_ts e) = Ok None ∧ (∃ m, idx_rep (es_index s) m ∧ m !! ev_ts e = None) ∧
     ∀ i', idx_insert (es_index s) (ev_ts e) (Z.of_nat (length pre) + 1) = Ok i' →
     part_rep (mkEventStore i' (es_log s) (raise_max (max_timestamp s) (ev_ts e))) (pre ++ [e])).
Proof.
  intros Ees (Hl & Hmax & m & Hi & Hs & Hc). destruct Hwf as (Hn & Ht & Hlen).
  assert (ts_ok (ev_ts e)) as He by (rewrite Ees in Ht; apply Forall_app in Ht as [_ Ht]; by apply Forall_cons in Ht as [? _]).
  assert (es !! length pre = Some e) as Hat by (rewrite Ees; by apply list_lookup_middle).
  assert (raise_max (max_timestamp s) (ev_ts e) = max_ts (pre ++ [e])) as Hm' by (unfold max_ts; by rewrite fmap_app, foldl_app, Hmax).
  rewrite (idx_get_spec _ m _ Hi He). destruct (m !! ev_ts e) as [seq|] eqn:Em.
  - left. exists (es_index s). rewrite <- Em, (index_sound_at m es e (length pre) Hwf Hs Hat) by (by rewrite Em). split; [done|]. split; [done|].
    split; [done|]. split; [done|]. exists m. split; [done|]. split; [done|].
    intros x [Hx|Hx]%elem_of_app; [by apply Hc|]. apply list_elem_of_singleton in Hx as ->. by eexists.
  - right. split; [done|]. split; [by exists m|]. intros i' Ei. pose proof (lookup_lt_Some _ _ _ Hat) as Hlt.
    assert (seq_ok (Z.of_nat (length pre) + 1)) as Hseq by (unfold seq_ok, USIZE_MAX in *; lia).
    pose proof (idx_insert_spec (es_index s) m (ev_ts e) _ Hi He Hseq) as Hins. rewrite Ei in Hins.
    split; [done|]. split; [done|]. eexists. split; [exact Hins|]. split.
    + intros ts seq'. rewrite lookup_insert_Some. intros [[<- <-]|[_ E]]; [|by apply Hs]. split; [lia|]. exists e. by rewrite start_idx_succ.
    + intros x [Hx|Hx]%elem_of_app; [|apply list_elem_of_singleton in Hx as ->; by rewrite lookup_insert_eq].
      destruct (decide (ev_ts e = ev_ts x)) as [->|Hne]; [by rewrite lookup_insert_eq|]. rewrite lookup_insert_ne by done. by apply Hc.
Qed.

Lemma reconcile_page_spec xs : ∀ s pre post, es = pre ++ xs ++ post → part_rep s pre →
  match reconcile_page (Z.of_nat (length es)) (number (Z.of_nat (length pre) + 1) xs) s (Z.of_nat (length pre) + 1) with
  | (Ok next, s') => next = Z.of_nat (length (pre ++ xs)) + 1 ∧ part_rep s' (pre ++ xs)
  | (Err err, s') => (log_rep (es_log s') es ∧ ∃ m, idx_rep (es_index s') m ∧ index_sound m es) ∧ index_refuses s' es err
  end.
Proof.
  induction xs as [|e xs IH]; intros s pre post Ees Hp; cbn [number reconcile_page]; [by rewrite app_nil_r|].
  rewrite Z.eqb_refl. cbn [negb]. assert (es = (pre ++ [e]) ++ xs ++ post) as Ees' by (by rewrite Ees, <- !(assoc (++))).
  assert (length pre < length es)%nat as Hlt by (rewrite Ees, !length_app; cbn; lia).
  destruct (Z.ltb_spec (Z.of_nat (length es)) (Z.of_nat (length pre) + 1)); [lia|]. cbn [es_index es_log max_timestamp].
  assert (checked_succ (Z.of_nat (length pre) + 1) = Some (Z.of_nat (length (pre ++ [e])) + 1)) as Esucc.
  { unfold checked_succ. destruct Hwf as (_ & _ & Hlen). destruct (Z.ltb_spec (Z.of_nat (length pre) + 1) USIZE_MAX); [|lia].
    rewrite length_app. cbn. f_equal. lia. }
  assert (∀ i', part_rep (mkEventStore i' (es_log s) (raise_max (max_timestamp s) (ev_ts e))) (pre ++ [e]) →
    match (match checked_succ (Z.of_nat (length pre) + 1) with
           | None => (Err SequenceOverflow, mkEventStore i' (es_log s) (raise_max (max_timestamp s) (ev_ts e)))
           | Some next => reconcile_page (Z.of_nat (length es)) (number (Z.of_nat (length pre) + 1 + 1) xs)
                            (mkEventStore i' (es_log s) (raise_max (max_timestamp s) (ev_ts e))) next
           end) with
    | (Ok next, s') => next = Z.of_nat (length (pre ++ e :: xs)) + 1 ∧ part_rep s' (pre ++ e :: xs)
    | (Err err, s') => (log_rep (es_log s') es ∧ ∃ m, idx_rep (es_index s') m ∧ index_sound m es) ∧ index_refuses s' es err
    end) as Hgo.
  { intros i' Hp'. rewrite Esucc. replace (Z.of_nat (length pre) + 1 + 1) with (Z.of_nat (length (pre ++ [e])) + 1) by (rewrite length_app; cbn; lia).
    specialize (IH _ (pre ++ [e]) post Ees' Hp'). by replace ((pre ++ [e]) ++ xs) with (pre ++ e :: xs) in IH by (by rewrite <- (assoc (++))). }
  destruct (part_step s pre e (xs ++ post) Ees Hp) as [(i' & -> & -> & Hp')|(-> & (m' & Hi' & Em) & Hp')]; [by apply Hgo|].
  destruct (idx_insert _ _ _) as [i'|err] eqn:Ei; [by apply Hgo, Hp'|]. destruct Hp as (Hl & _ & m & Hi & Hs & _). split; [split; [done|by exists m]|].
  exists m', (length pre), e. do 2 (split; [first [done|rewrite Ees; by apply list_lookup_middle]|]). done.
Qed.

Lemma reconcile_loop_spec fuel : ∀ s pre post, es = pre ++ post → (length post <= fuel)%nat → part_rep s pre →
  match reconcile_loop fuel (Z.of_nat (length es)) s (Z.of_nat (length pre) + 1) with
  | Done (Ok _, s') => part_rep s' es
  | Done (Err err, s') => (log_rep (es_log s') es ∧ ∃ m, idx_rep (es_index s') m ∧ index_sound m es) ∧ index_refuses s' es err
  | _ => False
  end.
Proof.
  induction fuel as [|fuel IH]; intros s pre post Ees Hf Hp; cbn [reconcile_loop];
    (destruct (Z.leb_spec (Z.of_nat (length pre) + 1) (Z.of_nat (length es))) as [Hle|Hgt];
     [|assert (post = []) as -> by (destruct post; [done|]; rewrite Ees, length_app in Hgt; cbn in Hgt; lia); by rewrite app_nil_r in Ees; subst pre]).
  { rewrite Ees, length_app in Hle. lia. }
  destruct (page_spec (es_log s) es (Z.of_nat (length pre) + 1) INDEX_RECONCILE_PAGE_SIZE INDEX_RECONCILE_PAGE_BYTES) as (xs & post' & Ed & -> & Hlen & Hne);
    [apply Hp|lia|done|]. specialize (Hne Hle). rewrite start_idx_succ, Ees, drop_app_length in Ed. subst post.
  pose proof (reconcile_page_spec xs s pre post' Ees Hp) as Hr. destruct (reconcile_page _ _ _ _) as [[next|] s']; [|done].
  destruct Hr as [-> Hp']. rewrite length_number. destruct xs as [|x xs]; [done|]. cbn [length Nat.eqb].
  destruct (Z.ltb_spec INDEX_RECONCILE_PAGE_SIZE (Z.of_nat (S (length xs)))) as [Hbig|_]; [cbn [length] in Hlen; lia|].
  apply (IH s' (pre ++ x :: xs) post'); [by rewrite Ees, (assoc (++))| |done]. rewrite length_app in Hf. cbn [length] in Hf. lia.
Qed.
End Reconcile.

Lemma store_new_spec index log es m : log_wf es → log_rep log es → idx_rep index m → index_sound m es →
  match store_new index log with
  | Done (Ok _, s) => store_rep s es
  | Done (Err err, s) => crash_rep s es ∧ index_refuses s es err
  | _ => False
  end.
Proof.
  intros Hw Hl Hi Hs. unfold store_new, reconcile_index. cbn [es_log]. rewrite (head_spec log es Hl).
  assert (part_rep es (mkEventStore index log None) []) as Hp.
  { split; [done|]. split; [done|]. exists m. split; [done|]. split; [done|]. by intros e ?%not_elem_of_nil. }
  destruct (Z.eqb_spec (Z.of_nat (length es)) 0) as [E|_].
  { destruct es; [|cbn in E; lia]. destruct Hp as (? & Hmax & m' & ? & ? & ?). split; [done|]. split; [done|]. split; [done|]. by exists m'. }
  pose proof (reconcile_loop_spec es Hw (Z.to_nat (Z.of_nat (length es))) _ [] es eq_refl ltac:(lia) Hp) as Hr.
  change (Z.of_nat (length []) + 1) with 1 in Hr. destruct (reconcile_loop _ _ _ _) as [[[[]|] s]| |]; [| |done..].
  - destruct Hr as (Hl' & Hmax & m' & Hi' & Hs' & Hc'). split; [done|]. split; [done|]. split; [done|]. by exists m'.
  - destruct Hr as [(Hl' & m' & Hi' & Hs') Href]. split; [|done]. split; [done|]. split; [done|]. by exists m'.
Qed.

(** ** The theorems of writing *)

(** C18: Every event is dispatched once and in sequence, and never without being in the log.  Started
    on a consistent store and fed any events, the events that the store hands on are numbered
    without gaps after those it had, in the order they came; as long as it runs, the log is
    exactly those, the index describes it, and every event it was given is in the log under its
    timestamp, identity and payload; if it stops on a failure, at most one further event is in
    the log. *)
Theorem events_stored_once s es events :
  store_rep s es → Forall (λ e, ts_ok (ev_ts e)) events → Z.of_nat (length es) + Z.of_nat (length events) < USIZE_MAX →
  ∃ new pending, responses (actor_run (mkActor s None true) events).1 = number (Z.of_nat (length es) + 1) new ∧ new `sublist_of` events ∧
    (length pending <= 1)%nat ∧ crash_rep (store (actor_run (mkActor s None true) events).2) (es ++ new ++ pending) ∧
    (running (actor_run (mkActor s None true) events).2 = true →
       store_rep (store (actor_run (mkActor s None true) events).2) (es ++ new) ∧ ∀ e, e ∈ events → ∃ x, x ∈ es ++ new ∧ same_event x e).
Proof. intros Hs. by apply actor_run_spec. Qed.

(** C19: A restart repairs a crash.  Whatever a store was given, and at whatever write it failed: opening
    a log and an index with the content that it left ends, and gives a consistent store of all the
    events in the log, those that were dispatched and at most one more.  It fails only where the index
    refuses to take the entry of a record that it misses, with the error of that write, and the
    log and the index are then still fit for another try. *)
Theorem restart_repairs_index s es events index log :
  store_rep s es → Forall (λ e, ts_ok (ev_ts e)) events → Z.of_nat (length es) + Z.of_nat (length events) < USIZE_MAX →
  (∀ m, idx_rep (es_index (store (actor_run (mkActor s None true) events).2)) m → idx_rep index m) →
  (∀ l, log_rep (es_log (store (actor_run (mkActor s None true) events).2)) l → log_rep log l) →
  ∃ new pending, responses (actor_run (mkActor s None true) events).1 = number (Z.of_nat (length es) + 1) new ∧ (length pending <= 1)%nat ∧
    match store_new index log with
    | Done (Ok _, s') => store_rep s' (es ++ new ++ pending)
    | Done (Err err, s') => crash_rep s' (es ++ new ++ pending) ∧ index_refuses s' (es ++ new ++ pending) err
    | _ => False
    end.
Proof.
  intros Hs Ht Hlen Hidx Hlog. destruct (actor_run_spec events (mkActor s None true) es eq_refl Hs Ht Hlen) as (new & pending & Er & _ & Hp & Hc & _).
  exists new, pending. split; [done|]. split; [done|]. destruct Hc as (Hw & Hl & m & Hi & Hs'). eapply store_new_spec; [done|by apply Hlog|by apply Hidx|done].
Qed.

(** With an index that takes every write it succeeds. *)
Corollary restart_with_writes es index log m : log_wf es → log_rep log es → idx_rep index m → index_sound m es →
  (∀ (i : I) ts seq, ∃ i', idx_insert i ts seq = Ok i') → ∃ s', store_new index log = Done (Ok tt, s') ∧ store_rep s' es.
Proof.
  intros Hw Hl Hi Hs Hwr. pose proof (store_new_spec index log es m Hw Hl Hi Hs) as Hr.
  destruct (store_new index log) as [[[[]|] s']| |]; [by eexists| |done..]. destruct Hr as (_ & m' & k & x & _ & _ & _ & E).
  destruct (Hwr (es_index s') (ev_ts x) (Z.of_nat k + 1)) as [i' E']. congruence.
Qed.
End Store.
