(* ===== verification/EventQueries.v ===== *)
(** * What the queries of the event store answer

    A filtered scan by pages answers like a filter over the whole log; a page of the history is a
    prefix of the events in the order of time, and says whether it is all of them. *)

From S2P Require Import Prelude Events Orchestration Hamt KvStore KvStoreProps EventLog EventStore EventStoreProps.
Local Open Scope Z_scope.

(** ** References *)

(** The numbered events of a log from a sequence number on. *)
Definition events_from (es : list LogEvent) (from : Z) : list Sequenced := number from (drop (start_idx from) es).

(** The events of a log at or after a timestamp, in the order of time. *)
Definition seq_ts_le (a b : Sequenced) : Prop := ev_ts a.2 <= ev_ts b.2.

Global Instance seq_ts_le_dec a b : Decision (seq_ts_le a b).
Proof. unfold seq_ts_le. apply _. Defined.
Global Instance seq_ts_le_total : Total seq_ts_le.
Proof. intros a b. unfold seq_ts_le. lia. Qed.
Global Instance seq_ts_le_trans : Transitive seq_ts_le.
Proof. intros a b c. unfold seq_ts_le. lia. Qed.

Definition history (es : list LogEvent) (since : Z) : list Sequenced :=
  List.filter (λ x, since <=? ev_ts x.2) (merge_sort seq_ts_le (number 1 es)).

(** A byte budget that may be absent. *)
Definition within `{EventBytes} (max_bytes : option Z) (bytes : Z) (first : bool) (l : list Sequenced) : list Sequenced :=
  match max_bytes with Some max => within_bytes max bytes first l | None => l end.

(** ** The history is the index in the order of time *)

Lemma number_ts_NoDup es from : NoDup (ev_ts <$> es) → NoDup ((λ x : Sequenced, ev_ts x.2) <$> number from es).
Proof.
  intros Hn. assert ((λ x : Sequenced, ev_ts x.2) <$> number from es = ev_ts <$> es) as ->; [|done].
  clear Hn. revert from. induction es as [|e es IH]; intros from; cbn; [done|]. by rewrite IH.
Qed.

Lemma elem_of_history es since seq e : (seq, e) ∈ history es since ↔ 1 <= seq ∧ es !! start_idx seq = Some e ∧ since <= ev_ts e.
Proof.
  unfold history. rewrite list_elem_of_In, filter_In, <- list_elem_of_In, merge_sort_Permutation, elem_of_number. cbn [snd]. rewrite Z.leb_le.
  unfold start_idx. replace (Z.to_nat (Z.max 0 (seq - 1))) with (Z.to_nat (seq - 1)) by lia. tauto.
Qed.

Lemma history_sorted es since : StronglySorted seq_ts_le (history es since).
Proof. apply sorted_filter_by, (StronglySorted_merge_sort _). Qed.

Lemma NoDup_fmap_filter {A B} (f : A → B) (p : A → bool) l : NoDup (f <$> l) → NoDup (f <$> List.filter p l).
Proof.
  induction l as [|x l IH]; [done|]. cbn [fmap list_fmap List.filter]. intros [Hx Hl]%NoDup_cons. destruct (p x); [|auto].
  cbn [fmap list_fmap]. apply NoDup_cons. split; [|auto]. intros Hin. apply Hx. apply list_elem_of_fmap in Hin as (y & Ey & Hy).
  rewrite list_elem_of_In, filter_In, <- list_elem_of_In in Hy. apply list_elem_of_fmap. exists y. tauto.
Qed.

Lemma history_NoDup es since : log_wf es → NoDup ((λ x : Sequenced, ev_ts x.2) <$> history es since).
Proof.
  intros (Hn & _). apply NoDup_fmap_filter. assert (merge_sort seq_ts_le (number 1 es) ≡ₚ number 1 es) as -> by apply merge_sort_Permutation.
  by apply number_ts_NoDup.
Qed.

(** A sorted list with distinct keys is determined by its members. *)
Lemma sorted_unique {A} (f : A → Z) (a b : list A) : StronglySorted (λ x y, f x <= f y) a → StronglySorted (λ x y, f x <= f y) b →
  NoDup (f <$> a) → NoDup (f <$> b) → (∀ x, x ∈ a ↔ x ∈ b) → a = b.
Proof.
  revert b. induction a as [|x a IH]; intros b Ha Hb Hna Hnb Hab.
  { destruct b as [|y b]; [done|]. exfalso. apply (not_elem_of_nil y). apply Hab. by left. }
  destruct b as [|y b]; [exfalso; apply (not_elem_of_nil x); apply Hab; by left|].
  apply StronglySorted_cons in Ha as [Hxa Ha], Hb as [Hyb Hb]. cbn [fmap list_fmap] in *. apply NoDup_cons in Hna as [Hx Hna], Hnb as [Hy Hnb].
  rewrite Forall_forall in Hxa, Hyb. assert (x = y) as <-.
  { pose proof (proj1 (Hab x) (list_elem_of_here _ _)) as Hxb. pose proof (proj2 (Hab y) (list_elem_of_here _ _)) as Hya.
    apply elem_of_cons in Hxb as [?|Hxb]; [done|]. apply elem_of_cons in Hya as [?|Hya]; [done|].
    specialize (Hxa y Hya). specialize (Hyb x Hxb). exfalso. apply Hx. apply list_elem_of_fmap. exists y. split; [lia|done]. }
  f_equal. apply IH; [done..|]. intros z. specialize (Hab z). rewrite !elem_of_cons in Hab. split; intros Hz.
  - destruct (proj1 Hab (or_intror Hz)) as [->|]; [|done]. destruct Hx. apply list_elem_of_fmap. by exists x.
  - destruct (proj2 Hab (or_intror Hz)) as [->|]; [|done]. destruct Hy. apply list_elem_of_fmap. by exists x.
Qed.

(** The index entries of a consistent store name the history. *)
Lemma entries_history m es since : log_wf es → index_sound m es → index_complete m es →
  entries_from m since = (λ x : Sequenced, (ev_ts x.2, x.1)) <$> history es since.
Proof.
  intros Hw Hs Hc. destruct (entries_from_sorted m since) as [Hes Hen]. apply (sorted_unique fst); [done| |done| |].
  - pose proof (history_sorted es since) as Hh. induction Hh as [|x l Hl IH Hx]; cbn [fmap list_fmap]; constructor; [done|].
    rewrite Forall_fmap. eapply Forall_impl; [exact Hx|]. done.
  - rewrite <- list_fmap_compose. by apply history_NoDup.
  - intros [ts seq]. rewrite elem_of_entries_from, list_elem_of_fmap. split.
    + intros [Em Hle]. destruct (Hs _ _ Em) as (Hseq & e & Ee & <-). exists (seq, e). split; [done|]. by apply elem_of_history.
    + intros ([seq' e] & [= -> ->] & (Hseq & Ee & Hle)%elem_of_history). split; [|done].
      rewrite (index_sound_at m es e (start_idx seq') Hw Hs Ee); [f_equal; unfold start_idx; lia|].
      apply Hc. by eapply list_elem_of_lookup_2.
Qed.

(** The rest of the history, after the events up to one of them. *)
Lemma history_after es since l x r : log_wf es → history es since = l ++ x :: r → history es (ev_ts x.2 + 1) = r.
Proof.
  intros Hw E. pose proof (history_NoDup es since Hw) as Hn. pose proof (history_sorted es since) as Hs. rewrite E in Hn, Hs.
  rewrite fmap_app in Hn. apply NoDup_app in Hn as (_ & Hdis & [Hx Hn]%NoDup_cons). apply StronglySorted_app in Hs as (Hlx & _ & [Hxr Hr]%StronglySorted_cons).
  apply (sorted_unique (λ x : Sequenced, ev_ts x.2)); [apply history_sorted|done|by apply history_NoDup|done|].
  intros y. rewrite Forall_forall in Hxr. destruct y as [seq e].
  assert ((seq, e) ∈ history es (ev_ts x.2 + 1) ↔ (seq, e) ∈ history es since ∧ ev_ts x.2 < ev_ts e) as ->.
  { rewrite !elem_of_history. assert (since <= ev_ts x.2); [|split; intros Hh; destruct_and? Hh; repeat split; (assumption || lia)].
    assert (x ∈ history es since) as Hin by (rewrite E, elem_of_app; right; by left). destruct x as [sx ex]. by apply elem_of_history in Hin as (_ & _ & ?). }
  rewrite E, elem_of_app, elem_of_cons. split.
  - intros [[Hl|[Ex|Hin]] Hlt]; [|subst x; cbn in Hlt; lia|done]. specialize (Hlx _ x Hl (list_elem_of_here _ _)). unfold seq_ts_le in Hlx. cbn in *. lia.
  - intros Hin. split; [auto|]. specialize (Hxr _ Hin). unfold seq_ts_le in Hxr. cbn [snd] in *.
    assert (ev_ts x.2 ≠ ev_ts e); [|lia]. intros Et. apply Hx. apply list_elem_of_fmap. by exists (seq, e).
Qed.

(** ** A page of the history *)

Section Store.
Context `{EventBytes} {I L : Type} `{SequenceIndexLaws I} `{!EventLog L} `{!LogModel L} `{!EventLogLaws L}.
Implicit Types s : EventStore I L.

(** The timestamp of the last event of a page, or what was scanned before. *)
Definition last_ts (before : option Z) (page : list Sequenced) : option Z :=
  match last page with Some x => Some (ev_ts x.2) | None => before end.

Lemma last_ts_cons before x page : last_ts before (x :: page) = last_ts (Some (ev_ts x.2)) page.
Proof. unfold last_ts. rewrite last_cons. by destruct (last page). Qed.

Lemma history_loop_spec s es max : log_rep (es_log s) es → ∀ hs events bytes before,
  Forall (λ x : Sequenced, 1 <= x.1 ∧ es !! start_idx x.1 = Some x.2) hs →
  ∃ page rest complete, hs = page ++ rest ∧
    history_loop s max ((λ x : Sequenced, (ev_ts x.2, x.1)) <$> hs) events bytes before = Ok (events ++ page, last_ts before page, complete) ∧
    (complete = true ↔ rest = []) ∧ (events = [] → hs ≠ [] → page ≠ []).
Proof.
  intros Hl. induction hs as [|[seq e] hs IH]; intros events bytes before Hin.
  { exists [], [], true. cbn. by rewrite app_nil_r. }
  apply Forall_cons in Hin as [[Hseq Ee] Hin]. cbn [fst snd fmap list_fmap history_loop] in *.
  rewrite (read_one_spec _ es) by done. rewrite Ee. cbn [fmap option_fmap option_map].
  destruct (match _ with Some max => max <? event_bytes e | None => false end) eqn:Eb; cbn [negb].
  - exists [], ((seq, e) :: hs), false. rewrite app_nil_r. split; [done|]. split; [done|]. split; [done|]. intros -> _.
    by rewrite bool_decide_true in Eb.
  - rewrite Z.eqb_refl. cbn [negb].
    destruct (IH (events ++ [(seq, e)]) (saturating_add bytes (event_bytes e)) (Some (ev_ts e)) Hin) as (page & rest & complete & -> & -> & Hc & _).
    exists ((seq, e) :: page), rest, complete. rewrite <- (assoc (++)), last_ts_cons. by repeat split; try apply Hc.
Qed.

Lemma takeZ_app_le {A} k (l : list A) : Z.of_nat (length l) <= k → takeZ k l = l.
Proof. intros Hle. apply take_ge. lia. Qed.

Lemma takeZ_fmap {A B} (f : A → B) k l : takeZ k (f <$> l) = f <$> takeZ k l.
Proof. unfold takeZ. by rewrite fmap_take. Qed.

Lemma history_page_spec s es since limit max : store_rep s es → ts_ok since → 0 <= limit <= USIZE_MAX → ∃ page rest : list Sequenced,
  history es since = page ++ rest ∧
  query_history_page s since limit max = Ok (page, mkProgress (last_ts None page) (bool_decide (rest = []))) ∧
  Z.of_nat (length page) <= limit ∧ (1 <= limit → history es since ≠ [] → page ≠ []).
Proof.
  intros (Hw & Hl & _ & m & Hi & Hs & Hc) Hts Hlim. unfold query_history_page.
  assert (Z.of_nat (length (history es since)) < USIZE_MAX) as Hlen.
  { destruct Hw as (_ & _ & Hlen). eapply Z.le_lt_trans; [|exact Hlen]. unfold history. apply inj_le.
    etransitivity; [apply List.filter_length_le|]. by rewrite merge_sort_Permutation, length_number. }
  rewrite (idx_range_spec _ m) by (done || (unfold saturating_add, USIZE_MAX in *; lia)). rewrite (entries_history m es since) by done.
  rewrite takeZ_fmap. set (h := history es since) in *. set (k := saturating_add limit 1). rewrite takeZ_fmap.
  assert (takeZ limit (takeZ k h) = takeZ limit h) as ->.
  { unfold takeZ. rewrite take_take. f_equal. unfold k, saturating_add in *. lia. }
  destruct (history_loop_spec s es max Hl (takeZ limit h) [] 0 None) as (page & rest & complete & Eh & -> & Hcomp & Hne).
  { apply Forall_take. apply Forall_forall. intros [seq e] Hx. unfold h in Hx. apply elem_of_history in Hx as (? & ? & _). done. }
  exists page, (rest ++ drop (Z.to_nat limit) h). split; [rewrite (assoc (++)), <- Eh; unfold takeZ; by rewrite take_drop|]. split; [|split].
  - cbn [app]. do 3 f_equal. rewrite length_fmap. apply eq_true_iff_eq. rewrite andb_true_iff, bool_decide_eq_true, Z.leb_le, Hcomp.
    assert (Z.of_nat (length (takeZ k h)) <= limit ↔ drop (Z.to_nat limit) h = []) as ->.
    2:{ destruct rest; cbn [app]; naive_solver. }
    unfold takeZ. rewrite length_take. unfold k, saturating_add. split; intros Hx.
    + apply drop_ge. lia.
    + apply (f_equal length) in Hx. rewrite length_drop in Hx. cbn in Hx. lia.
  - apply (f_equal length) in Eh. unfold takeZ in Eh. rewrite length_take, length_app in Eh. lia.
  - intros Hone Hh. apply Hne; [done|]. unfold takeZ. destruct h; [done|]. destruct (Z.to_nat limit) eqn:El; [lia|done].
Qed.

(** ** A filtered scan *)

(** What is still to be answered when [output] has been collected. *)
Definition answer (max_bytes : option Z) (limit : Z) (output : list Sequenced) (bytes : Z) (l : list Sequenced) : list Sequenced :=
  output ++ within max_bytes bytes (bool_decide (output = [])) (takeZ (limit - Z.of_nat (length output)) l).

Lemma answer_nil max limit output bytes : answer max limit output bytes [] = output.
Proof. unfold answer, within. rewrite takeZ_nil. destruct max; cbn; by rewrite app_nil_r. Qed.

(** The two ways a matching event is handled. *)
Lemma answer_full max limit output bytes x l : Z.of_nat (length output) < limit →
  negb (bool_decide (output = [])) && match max with Some budget => budget <? saturating_add bytes (event_bytes x.2) | None => false end = true →
  answer max limit output bytes (x :: l) = output.
Proof.
  intros Hlim Hb. unfold answer, takeZ. destruct (Z.to_nat (limit - Z.of_nat (length output))) eqn:En; [lia|]. destruct x as [seq e]. cbn [firstn snd] in *.
  destruct max as [max|]; [|by rewrite andb_false_r in Hb]. cbn [within within_bytes]. by rewrite Hb, app_nil_r.
Qed.

Lemma answer_step max limit output bytes x l : Z.of_nat (length output) < limit →
  negb (bool_decide (output = [])) && match max with Some budget => budget <? saturating_add bytes (event_bytes x.2) | None => false end = false →
  answer max limit output bytes (x :: l) = answer max limit (output ++ [x]) (saturating_add bytes (event_bytes x.2)) l.
Proof.
  intros Hlim Hb. unfold answer, takeZ. rewrite (bool_decide_false (output ++ [x] = [])) by (by destruct output). rewrite length_app. cbn [length].
  destruct (Z.to_nat (limit - Z.of_nat (length output))) eqn:En; [lia|].
  replace (Z.to_nat (limit - Z.of_nat (length output + 1))) with n by lia. rewrite <- (assoc (++)). f_equal. destruct x as [seq e]. cbn [firstn snd] in *.
  destruct max as [max|]; [|done]. cbn [within within_bytes]. by rewrite Hb.
Qed.

Lemma answer_done max limit output bytes l : limit <= Z.of_nat (length output) → answer max limit output bytes l = output.
Proof.
  intros Hle. unfold answer, takeZ. replace (Z.to_nat (limit - Z.of_nat (length output))) with O by lia. cbn [firstn].
  destruct max; cbn; by rewrite app_nil_r.
Qed.

Lemma scan_page_spec filter limit max xs : ∀ cursor output bytes, Z.of_nat (length output) < limit → cursor + Z.of_nat (length xs) <= USIZE_MAX →
  match scan_page filter limit max (number cursor xs) cursor output bytes with
  | Ok (Returns o) => ∀ more, answer max limit output bytes (List.filter (matches filter) (number cursor xs ++ more)) = o
  | Ok (Continues c o b) => c = cursor + Z.of_nat (length xs) ∧ Z.of_nat (length o) < limit ∧
      ∀ more, answer max limit output bytes (List.filter (matches filter) (number cursor xs ++ more)) = answer max limit o b (List.filter (matches filter) more)
  | Err _ => False
  end.
Proof.
  induction xs as [|e xs IH]; intros cursor output bytes Hout Hc; cbn [number scan_page length].
  { split; [lia|]. split; [done|]. done. }
  cbn [length] in Hc. unfold checked_succ. rewrite (proj2 (Z.ltb_lt cursor USIZE_MAX)) by lia. cbn [app List.filter].
  replace (cursor + Z.of_nat (S (length xs))) with (cursor + 1 + Z.of_nat (length xs)) by lia.
  destruct (matches filter (cursor, e)) eqn:Em; cbn [negb]; [|by apply IH; lia].
  destruct (negb (bool_decide (output = [])) && _) eqn:Eb.
  { intros more. by apply (answer_full max limit output bytes (cursor, e)). }
  assert (∀ l, answer max limit output bytes ((cursor, e) :: l) = answer max limit (output ++ [(cursor, e)]) (saturating_add bytes (event_bytes e)) l) as Hstep
    by (intros l; by apply (answer_step max limit output bytes (cursor, e))).
  destruct (Z.leb_spec limit (Z.of_nat (length (output ++ [(cursor, e)])))) as [Hle|Hlt].
  { intros more. rewrite Hstep. by apply answer_done. }
  specialize (IH (cursor + 1) (output ++ [(cursor, e)]) (saturating_add bytes (event_bytes e)) Hlt ltac:(lia)).
  destruct (scan_page _ _ _ _ _ _ _) as [[o|c o b]|]; [| |done].
  - intros more. rewrite Hstep. apply IH.
  - destruct IH as (-> & Ho & Hr). split; [done|]. split; [done|]. intros more. rewrite Hstep. apply Hr.
Qed.

Lemma events_from_page es from xs post : 1 <= from → drop (start_idx from) es = xs ++ post →
  events_from es from = number from xs ++ events_from es (from + Z.of_nat (length xs)).
Proof.
  intros Hf E. unfold events_from. rewrite E, number_app. do 2 f_equal.
  replace (start_idx (from + Z.of_nat (length xs))) with (start_idx from + length xs)%nat by (unfold start_idx; lia).
  by rewrite <- drop_drop, E, drop_app_length.
Qed.

Lemma filtered_loop_spec fuel s es filter limit max : store_rep s es → ∀ cursor output bytes,
  1 <= cursor <= Z.of_nat (length es) + 1 → Z.of_nat (length output) < limit → Z.of_nat (length es) + 1 - cursor < Z.of_nat fuel →
  filtered_loop fuel s filter limit max cursor output bytes = Done (Ok (answer max limit output bytes (List.filter (matches filter) (events_from es cursor)))).
Proof.
  intros (Hw & Hl & _). destruct Hw as (_ & _ & Hlen). induction fuel as [|fuel IH]; intros cursor output bytes Hc Hout Hf; cbn [filtered_loop].
  { lia. }
  destruct (page_spec (es_log s) es cursor FILTER_SCAN_PAGE_SIZE (default FILTER_SCAN_PAGE_BYTES max) Hl (proj1 Hc)) as (xs & post & Ex & -> & _ & Hne); [done|].
  pose proof (f_equal length Ex) as El. rewrite length_drop, length_app in El. unfold start_idx in El.
  pose proof (scan_page_spec filter limit max xs cursor output bytes Hout ltac:(lia)) as Hscan. rewrite (events_from_page es cursor xs post) by (lia || done).
  destruct (scan_page _ _ _ _ _ _ _) as [[o|c o b]|]; [by rewrite Hscan| |done]. destruct Hscan as (-> & Ho & Hscan). rewrite Hscan.
  destruct xs as [|x xs].
  - cbn [number length]. rewrite Z.add_0_r. assert (Z.of_nat (length es) < cursor) by (destruct (Z.le_gt_cases cursor (Z.of_nat (length es))); [by destruct Hne|lia]).
    unfold events_from. rewrite drop_ge by (unfold start_idx; lia). cbn [number List.filter]. by rewrite answer_nil.
  - cbn [number length] in *. apply IH; [lia|done|lia].
Qed.

(** The store answers a filtered query from a position of the log like a filter over all of it. *)
Lemma collect_filtered_spec s es from filter limit max : store_rep s es → 1 <= from <= Z.of_nat (length es) + 1 → 0 <= limit →
  collect_filtered_bounded s from filter limit max = Done (Ok (within max 0 true (takeZ limit (List.filter (matches filter) (events_from es from))))).
Proof.
  intros Hs Hf Hl. unfold collect_filtered_bounded. destruct (Z.eqb_spec limit 0) as [->|Hne]; [by destruct max|].
  pose proof Hs as (_ & Hlog & _). rewrite (head_spec _ es Hlog), Nat2Z.id, (filtered_loop_spec _ s es) by (done || cbn; lia).
  unfold answer. cbn [length app]. by rewrite Z.sub_0_r, bool_decide_true.
Qed.

(** ** The answers *)

(** The answer to a query from a sequence number; a byte budget counts only together with a limit. *)
Definition query_answer (es : list LogEvent) (from : Z) (filter : option EventSource) (limit max_bytes : option Z) : list Sequenced :=
  let l := match filter with Some f => List.filter (matches f) (events_from es from) | None => events_from es from end in
  match limit with Some limit => within max_bytes 0 true (takeZ limit l) | None => l end.

Lemma takeZ_take_short {A} limit k (l : list A) : takeZ limit (take k (takeZ limit l)) = take k (takeZ limit l).
Proof. apply take_ge. unfold takeZ. rewrite !length_take. lia. Qed.

Lemma takeZ_within max limit l : takeZ limit (within max 0 true (takeZ limit l)) = within max 0 true (takeZ limit l).
Proof.
  unfold within. destruct max as [max|]; [|unfold takeZ; rewrite take_take; f_equal; lia].
  destruct (within_bytes_prefix max (takeZ limit l) 0 true) as (k & -> & _). apply takeZ_take_short.
Qed.

Lemma takeZ_number limit from l : takeZ limit (number from l) = number from (takeZ limit l).
Proof. apply take_number. Qed.

Lemma query_from_spec s es from filter limit max : store_rep s es → 1 <= from <= Z.of_nat (length es) + 1 → (∀ l, limit = Some l → 0 <= l) →
  query_from s from filter limit max = Done (Ok (query_answer es from filter limit max)).
Proof.
  intros Hs Hf Hl. pose proof Hs as (_ & Hlog & _). unfold query_from, query_answer.
  destruct filter as [filter|], limit as [limit|]; cbn [default].
  - apply collect_filtered_spec; [done..|]. by apply Hl.
  - rewrite (read_from_spec _ es) by (done || lia). by destruct max.
  - specialize (Hl limit eq_refl). pose proof (takeZ_within max limit (events_from es from)) as Hw. unfold events_from in *. rewrite takeZ_number in *.
    destruct max as [max|]; cbn [within] in *.
    + rewrite (read_bytes_spec _ es) by (done || lia). cbn [collect_events]. by rewrite Hw.
    + rewrite (read_bounded_spec _ es) by (done || lia). cbn [collect_events]. by rewrite Hw.
  - by rewrite (read_from_spec _ es) by (done || lia).
Qed.

Lemma query_by_ts_spec s es ts filter limit max : store_rep s es → ts_ok ts → (∀ l, limit = Some l → 0 <= l) →
  query_by_ts_with_bounds s ts filter limit max =
    Done (Ok (match history es ts with [] => [] | (seq, _) :: _ => query_answer es seq filter limit max end)).
Proof.
  intros Hs Hts Hl. pose proof Hs as (Hw & Hlog & _ & m & Hi & Hsound & Hcomp).
  unfold query_by_ts_with_bounds. rewrite (idx_seek_spec _ m) by done. rewrite (entries_history m es) by done.
  destruct (history es ts) as [|[seq e] h] eqn:Eh; [done|]. cbn [fmap list_fmap head option_fmap option_map fst snd].
  assert ((seq, e) ∈ history es ts) as (Hseq & Ee & _)%elem_of_history by (rewrite Eh; left).
  apply query_from_spec; [done| |done]. apply lookup_lt_Some in Ee. unfold start_idx in Ee. lia.
Qed.

(** C32: What the store answers, in terms of its log.  A query by sequence number is refused exactly
    when it asks from beyond the next event; otherwise it reads the log from there.  A query by
    timestamp reads the log from one record, the one with the earliest timestamp at or after the
    asked one; records that the log holds before it are left out, also when their timestamps are
    later.  Both read in the order of the log every event of the source asked for, up to the limit
    and then up to the byte budget, whichever way the pages of the scan fall, and the scan always
    ends.  Only a page in timestamp order searches the whole log: it is the first events at or
    after the asked timestamp in the order of time, it says truly whether these are all, and it is
    empty only if there is none. *)
Theorem queries_answer_log s es filter limit max : store_rep s es → (∀ l, limit = Some l → 0 <= l) →
  (∀ seq, 1 <= seq → query_by_seq_with_bounds s seq filter limit max =
     Done (if Z.of_nat (length es) + 1 <? seq then Err (CursorAhead seq (Z.of_nat (length es))) else Ok (query_answer es seq filter limit max))) ∧
  (∀ ts, ts_ok ts → query_by_ts_with_bounds s ts filter limit max =
     Done (Ok (match history es ts with [] => [] | (seq, _) :: _ => query_answer es seq filter limit max end))) ∧
  (∀ ts lim bytes, ts_ok ts → 0 <= lim <= USIZE_MAX → ∃ page rest, history es ts = page ++ rest ∧
     query_history_page s ts lim bytes = Ok (page, mkProgress (last_ts None page) (bool_decide (rest = []))) ∧
     Z.of_nat (length page) <= lim ∧ (1 <= lim → history es ts ≠ [] → page ≠ [])).
Proof.
  intros Hs Hl. pose proof Hs as (Hw & Hlog & _). pose proof Hw as (_ & _ & Hlen). split; [|split].
  - intros seq Hseq. unfold query_by_seq_with_bounds. rewrite (head_spec _ es Hlog). unfold checked_succ.
    rewrite (proj2 (Z.ltb_lt _ USIZE_MAX)) by done. destruct (Z.ltb_spec (Z.of_nat (length es) + 1) seq); [done|]. by apply query_from_spec.
  - intros ts Hts. by apply query_by_ts_spec.
  - intros ts lim bytes Hts Hlim. by apply history_page_spec.
Qed.

(** The events of one source that a scan skips count towards no limit: pages of a filtered query
    never come back empty while matching events remain. *)
Lemma filtered_page_progress s es from filter limit max : store_rep s es → 1 <= from <= Z.of_nat (length es) + 1 → 1 <= limit →
  ∃ k : nat, collect_filtered_bounded s from filter limit max = Done (Ok (take k (List.filter (matches filter) (events_from es from)))) ∧
    (k <= Z.to_nat limit)%nat ∧ (List.filter (matches filter) (events_from es from) ≠ [] → (1 <= k)%nat).
Proof.
  intros Hs Hf Hl. rewrite (collect_filtered_spec s es) by (done || lia). set (l := List.filter _ _). unfold within.
  destruct max as [max|]; [|exists (Z.to_nat limit); split; [done|]; lia].
  destruct (within_bytes_prefix max (takeZ limit l) 0 true) as (k & -> & Hk). exists (k `min` Z.to_nat limit)%nat.
  unfold takeZ in *. rewrite take_take. split; [done|]. split; [lia|]. intros Hne.
  assert (1 <= k)%nat; [|lia]. apply Hk; [done|]. destruct l; [done|]. by destruct (Z.to_nat limit) eqn:E; [lia|].
Qed.
End Store.
