(* ===== verification/EventRouter.v ===== *)
(** * Routing between event stores

    Model of crates/events/src/eventstore_router.rs: one store per aggregate, events routed to the
    store of their aggregate, and queries over several stores answered by a query aggregator that
    collects one response per store.  Correlation identifiers are numbers drawn from a counter; the
    stores of a query are asked in the order of [map_to_list], and the aggregator takes their
    responses in any order. *)

From S2P Require Import Prelude Events Orchestration Hamt KvStore KvStoreProps EventLog EventStore EventStoreProps EventQueries.
Local Open Scope Z_scope.

(** ** The query aggregator *)

Record QueryAggregator := mkAggregator {
  parent_id : Z; pending : gmap Z Z; collected_events : list Sequenced; query_count : Z; keep_misrouted : bool }.

(** [HistoryProgress] of a query over one store only. *)
Definition single_store_history {A} (query_count : Z) (history : option A) : option A := if query_count =? 1 then history else None.

Definition quarantine_misrouted_events (events : list Sequenced) (aggregate_id : Z) : list Sequenced * Z :=
  let kept := List.filter (λ e : Sequenced, ev_aggregate e.2 =? aggregate_id) events in
  (kept, Z.max 0 (Z.of_nat (length events) - Z.of_nat (length kept))).

Definition aggregator_new (parent_id : Z) (keep_misrouted : bool) : QueryAggregator := mkAggregator parent_id ∅ [] 0 keep_misrouted.

Definition add_pending (a : QueryAggregator) (sub_query_id aggregate_id : Z) : QueryAggregator :=
  mkAggregator (parent_id a) (<[sub_query_id := aggregate_id]> (pending a)) (collected_events a) (query_count a + 1) (keep_misrouted a).

(** What a response makes the aggregator do: send a response on, and ask itself to stop.  The stop
    is a message to itself, so that a response that is already waiting is handled before it. *)
Record Forwarded := mkForwarded { sent : option (Z * QueryResponse); dies : bool }.

Definition aggregator_handle (a : QueryAggregator) (sub_query_id : Z) (msg : QueryResponse) : Forwarded * QueryAggregator :=
  match pending a !! sub_query_id with
  | None => (mkForwarded None false, a)
  | Some aggregate_id =>
      let pending' := delete sub_query_id (pending a) in
      let log_head := single_store_history (query_count a) (q_log_head msg) in
      let history := single_store_history (query_count a) (q_history msg) in
      match q_result msg with
      | Err error =>
          (mkForwarded (Some (parent_id a, mkResponse (Err error) None None)) true,
           mkAggregator (parent_id a) pending' (collected_events a) (query_count a) (keep_misrouted a))
      | Ok events =>
          let events := if keep_misrouted a then events else (quarantine_misrouted_events events aggregate_id).1 in
          let collected := collected_events a ++ events in
          if decide (pending' = ∅) then
            (mkForwarded (Some (parent_id a, mkResponse (Ok collected) log_head history)) true,
             mkAggregator (parent_id a) pending' [] (query_count a) (keep_misrouted a))
          else (mkForwarded None false, mkAggregator (parent_id a) pending' collected (query_count a) (keep_misrouted a))
      end
  end.

(** The aggregator over the responses that reach it before it stops. *)
Fixpoint aggregator_run (a : QueryAggregator) (messages : list (Z * QueryResponse)) : list (Z * QueryResponse) * QueryAggregator :=
  match messages with
  | [] => ([], a)
  | (id, msg) :: rest =>
      let '(f, a) := aggregator_handle a id msg in
      let '(out, a) := aggregator_run a rest in
      (match sent f with Some r => r :: out | None => out end, a)
  end.

(** ** The router *)

Section Router.
Context `{EventBytes} {I L : Type} `{SequenceIndex I} `{EventLog L}.

Record EventStoreRouter := mkStoreRouter { stores : gmap Z (StoreActor (I:=I) (L:=L)); failure_signal : option Z; next_id : Z }.

(** [record_failure] keeps the first failure; here the aggregate without a store. *)
Definition router_failure (r : EventStoreRouter) (aggregate_id : Z) : EventStoreRouter :=
  mkStoreRouter (stores r) (Some (default aggregate_id (failure_signal r))) (next_id r).

(** An event goes to the store of its aggregate. *)
Definition handle_store_event_requested (r : EventStoreRouter) (event : LogEvent) : StoreAction * EventStoreRouter :=
  match stores r !! ev_aggregate event with
  | None => (Nothing, router_failure r (ev_aggregate event))
  | Some a =>
      if running a then
        let '(action, a) := handle_store_event a event in
        (action, mkStoreRouter (<[ev_aggregate event := a]> (stores r)) (failure_signal r) (next_id r))
      else (Nothing, r)
  end.

(** The stores are flushed one after the other; the first that fails ends the flush. *)
Fixpoint flush_stores (l : list (Z * StoreActor (I:=I) (L:=L))) (m : gmap Z (StoreActor (I:=I) (L:=L)))
    : result () LogError * gmap Z (StoreActor (I:=I) (L:=L)) :=
  match l with
  | [] => (Ok tt, m)
  | (id, a) :: rest =>
      if running a then
        match handle_flush a with
        | (Ok _, a) => flush_stores rest (<[id := a]> m)
        | (Err e, a) => (Err e, <[id := a]> m)
        end
      else (Err IoError, m)
  end.

Definition handle_flush_event_stores (r : EventStoreRouter) : result () LogError * EventStoreRouter :=
  let '(res, m) := flush_stores (map_to_list (stores r)) (stores r) in (res, mkStoreRouter m (failure_signal r) (next_id r)).

(** A query of several aggregates: an error naming the aggregates without a store, an empty
    response when no aggregate is asked for, or an aggregator with the queries to send. *)
Inductive Routed :=
| MissingStores (missing : list Z)
| Immediate
| Fanned (a : QueryAggregator) (sub_queries : list (Z * Z * Z)).

Fixpoint number_queries (next : Z) (query : list (Z * Z)) : list (Z * Z * Z) :=
  match query with [] => [] | (aggregate_id, from) :: rest => (aggregate_id, from, next) :: number_queries (next + 1) rest end.

Definition route_query (r : EventStoreRouter) (id : Z) (query : gmap Z Z) (misrouted : bool) : Routed * EventStoreRouter :=
  let entries := map_to_list query in
  let missing := List.filter (λ a, negb (bool_decide (is_Some (stores r !! a)))) (entries.*1) in
  if negb (bool_decide (missing = [])) then (MissingStores missing, r)
  else
    let sub_queries := number_queries (next_id r) entries in
    match sub_queries with
    | [] => (Immediate, r)
    | _ =>
        let a := foldl (λ a q, let '(aggregate_id, _, sub_id) := q in add_pending a sub_id aggregate_id) (aggregator_new id misrouted) sub_queries in
        (Fanned a sub_queries, mkStoreRouter (stores r) (failure_signal r) (next_id r + Z.of_nat (length sub_queries)))
    end.

(** The response of the store that a sub-query names, by timestamp or by sequence number.  A
    stopped store answers nothing. *)
Definition answer_ts (r : EventStoreRouter) (timestamp_order : bool) (filter : option EventSource) (limit max_bytes : option Z)
    (q : Z * Z * Z) : option (Z * QueryResponse) :=
  let '(aggregate_id, from, sub_id) := q in
  match stores r !! aggregate_id with
  | None => None
  | Some a =>
      if running a then match handle_query_ts a from timestamp_order filter limit max_bytes with Done resp => Some (sub_id, resp) | _ => None end
      else None
  end.

Definition answer_seq (r : EventStoreRouter) (filter : option EventSource) (limit max_bytes : option Z) (q : Z * Z * Z) : option (Z * QueryResponse) :=
  let '(aggregate_id, from, sub_id) := q in
  match stores r !! aggregate_id with
  | None => None
  | Some a =>
      if running a then match handle_query_seq a from filter limit max_bytes with Done resp => Some (sub_id, resp) | _ => None end
      else None
  end.
End Router.
Arguments mkStoreRouter {I L} _ _ _.
Arguments stores {I L} _.
Arguments failure_signal {I L} _.
Arguments next_id {I L} _.

(** ** Every response is collected once *)

Section Collect.
Implicit Types a : QueryAggregator.

(** What a response contributes. *)
Definition contribution (keep : bool) (aggregate_id : Z) (msg : QueryResponse) : list Sequenced :=
  match q_result msg with
  | Ok events => if keep then events else (quarantine_misrouted_events events aggregate_id).1
  | Err _ => []
  end.

Definition contributions a (messages : list (Z * QueryResponse)) : list Sequenced :=
  concat ((λ m : Z * QueryResponse, match pending a !! m.1 with Some agg => contribution (keep_misrouted a) agg m.2 | None => [] end) <$> messages).

Definition all_ok (messages : list (Z * QueryResponse)) : Prop := Forall (λ m : Z * QueryResponse, ∃ events, q_result m.2 = Ok events) messages.

Lemma contributions_delete a id messages collected : id ∉ messages.*1 →
  contributions (mkAggregator (parent_id a) (delete id (pending a)) collected (query_count a) (keep_misrouted a)) messages = contributions a messages.
Proof.
  intros Hid. unfold contributions. cbn [pending keep_misrouted]. f_equal. apply list_fmap_ext. intros i [id' msg] Hi. cbn [fst snd].
  rewrite lookup_delete_ne; [done|]. intros ->. apply Hid. apply list_elem_of_fmap. exists (id', msg). split; [done|]. by eapply list_elem_of_lookup_2.
Qed.

(** A response for each query that is pending, in any order, gives one response with all the
    events, after the last of them. *)
Lemma aggregator_collects messages : ∀ a, messages ≠ [] → NoDup (messages.*1) → (∀ id, id ∈ messages.*1 ↔ is_Some (pending a !! id)) → all_ok messages →
  ∃ log_head history, (aggregator_run a messages).1 = [(parent_id a, mkResponse (Ok (collected_events a ++ contributions a messages)) log_head history)] ∧
    (query_count a ≠ 1 → log_head = None ∧ history = None) ∧
    (∀ m, messages = [m] → query_count a = 1 → log_head = q_log_head m.2 ∧ history = q_history m.2).
Proof.
  induction messages as [|[id msg] messages IH]; intros a Hne Hnd Hdom Hok; [done|]. cbn [fmap list_fmap fst] in *.
  apply NoDup_cons in Hnd as [Hid Hnd]. apply Forall_cons in Hok as [[events Eok] Hok]. cbn [snd] in Eok. cbn [aggregator_run].
  destruct (proj1 (Hdom id) (list_elem_of_here _ _)) as [agg Eagg]. unfold aggregator_handle. rewrite Eagg, Eok.
  assert (contributions a ((id, msg) :: messages) =
    (if keep_misrouted a then events else (quarantine_misrouted_events events agg).1) ++ contributions a messages) as ->.
  { unfold contributions. cbn [fmap list_fmap concat fst snd]. rewrite Eagg. unfold contribution. by rewrite Eok. }
  destruct (decide (delete id (pending a) = ∅)) as [Ed|Ed].
  - assert (messages = []) as ->.
    { destruct messages as [|[id' m'] messages]; [done|]. exfalso. cbn [fmap list_fmap fst] in *.
      destruct (proj1 (Hdom id')) as [agg' E']; [by right; left|]. assert (delete id (pending a) !! id' = Some agg') as Hd.
      { rewrite lookup_delete_ne; [done|]. intros ->. apply Hid. by left. }
      by rewrite Ed in Hd. }
    cbn [aggregator_run fst sent]. eexists _, _. rewrite (assoc (++)). cbn [contributions]. rewrite app_nil_r. split; [done|].
    unfold single_store_history. split; [intros Hq; by rewrite (proj2 (Z.eqb_neq _ _) Hq)|]. by intros m [= <-] ->.
  - destruct messages as [|m messages].
    { exfalso. apply Ed. apply map_empty. intros i. destruct (decide (i = id)) as [->|Hi]; [apply lookup_delete_eq|].
      rewrite lookup_delete_ne by done. apply eq_None_not_Some. intros Hs. apply Hdom in Hs. rewrite list_elem_of_singleton in Hs. done. }
    set (a' := mkAggregator _ _ _ _ _). destruct (IH a') as (lh & hi & E & Hmany & _); [done|done| |done|].
    { intros i. cbn [pending a']. destruct (decide (i = id)) as [->|Hi].
      - rewrite lookup_delete_eq. split; [done|]. by intros [? ?].
      - rewrite lookup_delete_ne by done. rewrite <- Hdom, elem_of_cons. naive_solver. }
    destruct (aggregator_run a' (m :: messages)) as [out a2]. cbn [fst sent] in *. subst out. exists lh, hi.
    unfold a'. rewrite contributions_delete by done. rewrite (assoc (++)). split; [done|]. split; [done|]. by intros ? [=].
Qed.
End Collect.

(** ** What the routed queries answer

    A query of several aggregates is answered once, with what each store answers alone, in whatever
    order the stores respond. *)

(** ** The sub-queries of a query *)

Definition sub_id (q : Z * Z * Z) : Z := q.2.
Definition sub_agg (q : Z * Z * Z) : Z := q.1.1.

Lemma number_queries_ids next l : (number_queries next l).*2 = (λ i, next + Z.of_nat i) <$> seq 0 (length l).
Proof.
  revert next. induction l as [|[agg from] l IH]; intros next; cbn [number_queries length seq fmap list_fmap fst snd]; [done|].
  f_equal; [lia|]. change (list_fmap _ _ snd (number_queries (next + 1) l)) with ((number_queries (next + 1) l).*2). rewrite IH.
  rewrite <- fmap_S_seq, <- list_fmap_compose. apply list_fmap_ext. intros i x _. cbn. lia.
Qed.

Lemma number_queries_fst next l : (number_queries next l).*1 = l.
Proof. revert next. induction l as [|[agg from] l IH]; intros next; cbn; [done|]. f_equal. apply IH. Qed.

Lemma number_queries_NoDup next l : NoDup ((number_queries next l).*2).
Proof. rewrite number_queries_ids. apply NoDup_fmap_2; [intros i j ?; lia|apply NoDup_seq]. Qed.

Lemma length_number_queries next l : length (number_queries next l) = length l.
Proof. rewrite <- (length_fmap fst), number_queries_fst. done. Qed.

Definition fan (a : QueryAggregator) (subs : list (Z * Z * Z)) : QueryAggregator :=
  foldl (λ a q, let '(aggregate_id, _, sub_id) := q in add_pending a sub_id aggregate_id) a subs.

Lemma fan_fields subs : ∀ a, parent_id (fan a subs) = parent_id a ∧ collected_events (fan a subs) = collected_events a ∧
  keep_misrouted (fan a subs) = keep_misrouted a ∧ query_count (fan a subs) = query_count a + Z.of_nat (length subs).
Proof.
  induction subs as [|[[agg from] id] subs IH]; intros a; cbn [length]; [cbn; repeat split; lia|].
  change (fan a ((agg, from, id) :: subs)) with (fan (add_pending a id agg) subs).
  destruct (IH (add_pending a id agg)) as (-> & -> & -> & ->). cbn. repeat split. lia.
Qed.

Lemma fan_pending subs : ∀ a id, NoDup (subs.*2) →
  pending (fan a subs) !! id = match list_find (λ q : Z * Z * Z, q.2 = id) subs with Some (_, q) => Some q.1.1 | None => pending a !! id end.
Proof.
  induction subs as [|[[agg from] i] subs IH]; intros a id Hn; cbn [list_find fmap list_fmap snd] in *; [done|].
  apply NoDup_cons in Hn as [Hi Hn]. change (fan a ((agg, from, i) :: subs)) with (fan (add_pending a i agg) subs). rewrite (IH (add_pending a i agg) id Hn). cbn [snd fst]. case_decide as E.
  - subst i. assert (list_find (λ q : Z * Z * Z, q.2 = id) subs = None) as ->; [|cbn; by rewrite lookup_insert_eq].
    apply list_find_None, Forall_forall. intros q Hq E. apply Hi. apply list_elem_of_fmap. eauto.
  - destruct (list_find _ subs) as [[? q]|]; cbn; [done|]. by rewrite lookup_insert_ne.
Qed.

Lemma fan_pending_in subs a q : NoDup (subs.*2) → q ∈ subs → pending (fan a subs) !! q.2 = Some q.1.1.
Proof.
  intros Hn Hq. rewrite fan_pending by done. destruct (list_find _ subs) as [[i q']|] eqn:E.
  - apply list_find_Some in E as (Ei & Eq & _). apply list_elem_of_lookup in Hq as [j Ej].
    assert (i = j) as ->; [|by simplify_eq]. eapply (NoDup_lookup _ _ _ (q.2) Hn); rewrite list_lookup_fmap; [by rewrite Ei, <- Eq|by rewrite Ej].
  - apply list_find_None in E. rewrite Forall_forall in E. by destruct (E q Hq).
Qed.

Lemma fan_pending_dom subs a id : NoDup (subs.*2) → pending a = ∅ → is_Some (pending (fan a subs) !! id) ↔ id ∈ subs.*2.
Proof.
  intros Hn He. split.
  - rewrite fan_pending by done. destruct (list_find _ subs) as [[i q]|] eqn:E; [|by rewrite He; intros [? ?]].
    apply list_find_Some in E as (Ei & <- & _). intros _. apply list_elem_of_fmap. exists q. split; [done|]. by eapply list_elem_of_lookup_2.
  - intros (q & -> & Hq)%list_elem_of_fmap. by rewrite (fan_pending_in subs a q).
Qed.

Lemma concat_Permutation {A} (l1 l2 : list (list A)) : l1 ≡ₚ l2 → concat l1 ≡ₚ concat l2.
Proof. induction 1; cbn; [done|by f_equiv| |by etrans]. rewrite !(assoc (++)). f_equiv. apply Permutation_app_comm. Qed.

(** The contribution of each sub-query, when every one of them has its response. *)
Lemma contributions_fan subs a (answers : Z * Z * Z → QueryResponse) : NoDup (subs.*2) →
  contributions (fan a subs) ((λ q, (q.2, answers q)) <$> subs) = concat ((λ q, contribution (keep_misrouted a) q.1.1 (answers q)) <$> subs).
Proof.
  intros Hn. unfold contributions. rewrite <- list_fmap_compose. f_equal. apply list_fmap_ext. intros i q Hi. cbn [compose fst snd].
  rewrite (fan_pending_in subs a q) by (done || by eapply list_elem_of_lookup_2). by destruct (fan_fields subs a) as (_ & _ & -> & _).
Qed.

Section Router.
Context `{EventBytes} {I L : Type} `{SequenceIndexLaws I} `{!EventLog L} `{!LogModel L} `{!EventLogLaws L}.
Implicit Types r : EventStoreRouter (I:=I) (L:=L).

(** Every store runs and holds its log. *)
Definition router_rep r (logs : gmap Z (list LogEvent)) : Prop :=
  (∀ agg, is_Some (stores r !! agg) ↔ is_Some (logs !! agg)) ∧
  ∀ agg a es, stores r !! agg = Some a → logs !! agg = Some es → running a = true ∧ store_rep (store a) es.

(** What a store answers to a query from a timestamp, with the events of other aggregates
    left out. *)
Definition store_answer (logs : gmap Z (list LogEvent)) (filter : option EventSource) (limit max_bytes : option Z) (q : Z * Z) : list Sequenced :=
  let es := default [] (logs !! q.1) in
  match history es q.2 with [] => [] | (seq, _) :: _ => query_answer es seq filter limit max_bytes end.

Definition own (keep : bool) (agg : Z) (events : list Sequenced) : list Sequenced :=
  if keep then events else List.filter (λ e : Sequenced, ev_aggregate e.2 =? agg) events.

Lemma answer_ts_spec r logs filter limit max q from id : router_rep r logs → is_Some (logs !! q) → ts_ok from → (∀ l, limit = Some l → 0 <= l) →
  answer_ts r false filter limit max (q, from, id) = Some (id, mkResponse (Ok (store_answer logs filter limit max (q, from))) None None).
Proof.
  intros [Hdom Hrep] [es Ees] Hts Hl. unfold answer_ts. destruct (proj2 (Hdom q)) as [a Ea]; [by eexists|]. rewrite Ea.
  destruct (Hrep q a es Ea Ees) as [-> Hs]. unfold handle_query_ts, store_answer. cbn [fst snd]. rewrite Ees.
  by rewrite (query_by_ts_spec _ es).
Qed.

Lemma route_query_fans r logs id query keep : router_rep r logs → query ≠ ∅ → (∀ agg from, query !! agg = Some from → is_Some (logs !! agg)) →
  ∃ r', route_query r id query keep =
    (Fanned (fan (aggregator_new id keep) (number_queries (next_id r) (map_to_list query))) (number_queries (next_id r) (map_to_list query)), r').
Proof.
  intros [Hdom _] Hne Hq. unfold route_query.
  assert (List.filter (λ a, negb (bool_decide (is_Some (stores r !! a)))) (map_to_list query).*1 = []) as ->.
  { destruct (List.filter _ _) as [|x l] eqn:E; [done|]. exfalso.
    assert (x ∈ x :: l) as Hx by left. rewrite <- E, list_elem_of_In, filter_In, <- list_elem_of_In in Hx. destruct Hx as [Hx Hb].
    apply list_elem_of_fmap in Hx as ([x' from] & -> & Hx). apply elem_of_map_to_list in Hx. cbn [fst] in Hb.
    rewrite bool_decide_true in Hb; [done|]. apply Hdom. by eapply Hq. }
  rewrite bool_decide_true by done. cbn [negb].
  destruct (number_queries (next_id r) (map_to_list query)) as [|q subs] eqn:E; [|by eexists].
  apply (f_equal length) in E. rewrite length_number_queries in E. destruct (map_to_list query) eqn:El; [|done]. by apply map_to_list_empty_iff in El.
Qed.

(** A query of several aggregates by timestamp is answered once, with all that the stores hold.
    When every aggregate asked for has a store, the query is fanned out, and in whatever order
    the stores' responses reach the aggregator, it sends exactly one response, under the
    identifier of the query, whose events are those that each store answers to its own part of
    the query, without the events that the store holds for another aggregate. *)
Theorem routed_query_complete r logs id query keep filter limit max :
  router_rep r logs → query ≠ ∅ → (∀ agg from, query !! agg = Some from → is_Some (logs !! agg) ∧ ts_ok from) → (∀ l, limit = Some l → 0 <= l) →
  ∃ a subs r', route_query r id query keep = (Fanned a subs, r') ∧
    ∀ messages, messages ≡ₚ omap (answer_ts r false filter limit max) subs → ∃ events log_head history,
      (aggregator_run a messages).1 = [(id, mkResponse (Ok events) log_head history)] ∧
      events ≡ₚ concat ((λ q, own keep q.1 (store_answer logs filter limit max q)) <$> map_to_list query).
Proof.
  intros Hr Hne Hq Hl. destruct (route_query_fans r logs id query keep Hr Hne) as [r' E]; [intros; by eapply Hq|].
  eexists _, _, r'. split; [exact E|]. intros messages Hm. set (subs := number_queries _ _) in *.
  set (answers := λ q : Z * Z * Z, mkResponse (Ok (store_answer logs filter limit max q.1)) None None).
  assert (omap (answer_ts r false filter limit max) subs = (λ q, (q.2, answers q)) <$> subs) as Eo.
  { assert (Forall (λ q : Z * Z * Z, answer_ts r false filter limit max q = Some (q.2, answers q)) subs) as Hall.
    { apply Forall_forall. intros [[agg from] i] Hin. assert ((agg, from) ∈ map_to_list query) as Hin'%elem_of_map_to_list.
      { unfold subs in Hin. rewrite <- (number_queries_fst (next_id r) (map_to_list query)). apply list_elem_of_fmap. by exists (agg, from, i). }
      destruct (Hq _ _ Hin') as [Hs Hts]. by apply answer_ts_spec. }
    clear -Hall. induction Hall as [|q subs Eq Hall IH]; [done|]. cbn [omap list_omap]. rewrite Eq. cbn [fmap list_fmap]. f_equal. apply IH. }
  rewrite Eo in Hm. pose proof (number_queries_NoDup (next_id r) (map_to_list query)) as Hn. fold subs in Hn.
  assert (messages.*1 ≡ₚ subs.*2) as Hids by (rewrite Hm, <- list_fmap_compose; done).
  destruct (fan_fields subs (aggregator_new id keep)) as (Ep & Ec & Ek & _).
  destruct (aggregator_collects messages (fan (aggregator_new id keep) subs)) as (lh & hi & Erun & _).
  - intros ->. apply Permutation_nil in Hm. apply (f_equal length) in Hm. unfold subs in Hm. rewrite length_fmap, length_number_queries in Hm.
    destruct (map_to_list query) eqn:El; [|done]. by apply map_to_list_empty_iff in El.
  - by rewrite Hids.
  - intros i. rewrite Hids. symmetry. by apply fan_pending_dom.
  - unfold all_ok. rewrite Hm, Forall_fmap. apply Forall_forall. intros q _. by eexists.
  - eexists _, lh, hi. rewrite Erun, Ep, Ec. split; [done|]. cbn [aggregator_new collected_events app].
    assert (contributions (fan (aggregator_new id keep) subs) messages ≡ₚ contributions (fan (aggregator_new id keep) subs) ((λ q, (q.2, answers q)) <$> subs)) as ->.
    { apply concat_Permutation. by rewrite Hm. }
    rewrite contributions_fan by done. cbn [aggregator_new keep_misrouted].
    rewrite <- (number_queries_fst (next_id r) (map_to_list query)), <- list_fmap_compose. fold subs. done.
Qed.

(** Events reach the store of their own aggregate only; an event of an aggregate without a store
    changes no store and raises the failure signal. *)
Lemma store_routes r event : 
  let '(action, r') := handle_store_event_requested r event in
  (∀ agg, agg ≠ ev_aggregate event → stores r' !! agg = stores r !! agg) ∧
  (stores r !! ev_aggregate event = None → action = Nothing ∧ stores r' = stores r ∧ is_Some (failure_signal r')).
Proof.
  unfold handle_store_event_requested. destruct (stores r !! ev_aggregate event) as [a|] eqn:Ea.
  - destruct (running a); [|done]. destruct (handle_store_event a event). cbn. split; [|done]. intros agg Hne. by rewrite lookup_insert_ne.
  - cbn. split; [done|]. intros _. by repeat split.
Qed.
End Router.
