(* ===== verification/EventExample.v ===== *)
(** * Concrete event stores

    Logs and indexes in memory and the sled index, with the theorems of the event store and its router
    at concrete events. *)

From S2P Require Import Prelude Events Orchestration Hamt KvStore KvStoreProps KvStoreExample EventLog EventStore EventStoreProps EventQueries EventRouter.
Local Open Scope Z_scope.

Lemma ex_bytes_nonneg (e : LogEvent) : 0 <= 10 + Z.of_nat (length (ev_data e)).
Proof. lia. Qed.

#[export] Instance ex_event_bytes : EventBytes := { event_bytes e := 10 + Z.of_nat (length (ev_data e)); event_bytes_nonneg := ex_bytes_nonneg }.

Abbreviation MemStore := (EventStore InMemSequenceIndex InMemEventLog).
Abbreviation MemActor := (StoreActor (I:=InMemSequenceIndex) (L:=InMemEventLog)).

(** Events of one aggregate: the identity is the payload's number. *)
Definition ev (id ts agg : Z) (source : EventSource) (data : Bytes) : LogEvent := mkEvent id ts agg source data.

Definition ev_a : LogEvent := ev 1 100 7 Local_ [1; 1].
Definition ev_b : LogEvent := ev 2 50 7 Net [1; 2].
Definition ev_c : LogEvent := ev 3 70 7 Local_ [0; 3].
Definition ev_d : LogEvent := ev 4 80 9 Net [1; 4].

Definition empty_store : MemStore := mkEventStore (mkMemIndex ∅) mem_log_new None.
Definition empty_actor : MemActor := mkActor empty_store None true.

Lemma empty_rep : store_rep empty_store [].
Proof.
  split; [by repeat split; constructor|]. split; [done|]. split; [done|]. exists ∅. split; [done|]. split; [by intros ts seq|]. by intros e ?%not_elem_of_nil.
Qed.

(** An event that comes twice is stored once. *)
Definition feed : list LogEvent := [ev_a; ev_b; ev_a; ev_c; ev_d].

Lemma feed_ts : Forall (λ e, ts_ok (ev_ts e)) feed.
Proof. repeat constructor; done. Qed.

Lemma feed_len : Z.of_nat (length ([] : list LogEvent)) + Z.of_nat (length feed) < USIZE_MAX.
Proof. done. Qed.

Example feed_run : (actor_run empty_actor feed).1 = [Respond (1, ev_a); Respond (2, ev_b); SettleDuplicate; Respond (3, ev_c); Respond (4, ev_d)] ∧
  running (actor_run empty_actor feed).2 = true.
Proof. vm_compute. done. Qed.

Lemma events_stored_once_witness : ∃ new pending, responses (actor_run empty_actor feed).1 = number 1 new ∧ new `sublist_of` feed ∧
  (length pending <= 1)%nat ∧ crash_rep (store (actor_run empty_actor feed).2) ([] ++ new ++ pending) ∧
  (running (actor_run empty_actor feed).2 = true →
     store_rep (store (actor_run empty_actor feed).2) ([] ++ new) ∧ ∀ e, e ∈ feed → ∃ x, x ∈ [] ++ new ∧ same_event x e).
Proof. exact (events_stored_once empty_store [] feed empty_rep feed_ts feed_len). Defined.

(** The store that the feed leaves, as a consistent store of its four events. *)
Definition fed : list LogEvent := [ev_a; ev_b; ev_c; ev_d].
Definition fed_actor : MemActor := (actor_run empty_actor feed).2.

Lemma number_inj from l1 : ∀ l2, number from l1 = number from l2 → l1 = l2.
Proof. revert from. induction l1 as [|e l1 IH]; intros from [|e2 l2] E; try done. injection E as -> E. f_equal. by eapply IH. Qed.

Lemma fed_rep : store_rep (store fed_actor) fed.
Proof.
  destruct (actor_run_spec feed empty_actor [] eq_refl empty_rep feed_ts feed_len) as (new & pending & Er & _ & _ & _ & Hrun).
  assert (new = fed) as ->.
  { apply (number_inj 1). change (Z.of_nat (length ([] : list LogEvent)) + 1) with 1 in Er. rewrite <- Er. destruct feed_run as [-> _]. reflexivity. }
  by apply Hrun.
Qed.

Lemma fed_running : running fed_actor = true.
Proof. apply feed_run. Qed.

(** ** A restart after a failed write of the index *)

(** An index in memory that refuses one timestamp. *)
Record FailingIndex := mkFailing { fi_map : gmap Z Z; fi_refuses : option Z }.

#[export] Instance failing_index : SequenceIndex FailingIndex := {
  idx_insert i key value := if bool_decide (fi_refuses i = Some key) then Err IoError else Ok (mkFailing (<[key := value]> (fi_map i)) (fi_refuses i));
  idx_get i key := Ok (fi_map i !! key);
  idx_seek i key := Ok (snd <$> head (entries_from (fi_map i) key));
  idx_range_from i key limit := Ok (takeZ limit (entries_from (fi_map i) key)) }.

#[export] Instance failing_index_model : IndexModel FailingIndex := λ i m, fi_map i = m.

#[export] Instance failing_index_laws : SequenceIndexLaws FailingIndex.
Proof.
  constructor; unfold idx_rep, failing_index_model; try (by intros; subst).
  intros i m ts seq <- _ _. cbn [idx_insert failing_index]. by case_bool_decide.
Qed.

Definition failing_store : EventStore FailingIndex InMemEventLog := mkEventStore (mkFailing ∅ (Some 70)) mem_log_new None.

Lemma failing_rep : store_rep failing_store [].
Proof.
  split; [by repeat split; constructor|]. split; [done|]. split; [done|]. exists ∅. split; [done|]. split; [by intros ts seq|]. by intros e ?%not_elem_of_nil.
Qed.

(** The third event is in the log, was not dispatched, and the actor has stopped. *)
Example failing_run : (actor_run (mkActor failing_store None true) feed).1 = [Respond (1, ev_a); Respond (2, ev_b); SettleDuplicate; Nothing] ∧
  mem_log (es_log (store (actor_run (mkActor failing_store None true) feed).2)) = [ev_a; ev_b; ev_c].
Proof. vm_compute. done. Qed.

(** The restart finds an index that takes the write again, and backfills the third event. *)
Local Abbreviation crashed := (actor_run (mkActor failing_store None true) feed).2.
Local Abbreviation reopened := (store_new (mkFailing (fi_map (es_index (store crashed))) None) (es_log (store crashed))).

Lemma restart_repairs_index_witness :
  ∃ new pending, responses (actor_run (mkActor failing_store None true) feed).1 = number 1 new ∧ (length pending <= 1)%nat ∧
    match reopened with
    | Done (Ok _, s') => store_rep s' ([] ++ new ++ pending)
    | Done (Err err, s') => crash_rep s' ([] ++ new ++ pending) ∧ index_refuses s' ([] ++ new ++ pending) err
    | _ => False
    end.
Proof.
  apply (restart_repairs_index failing_store [] feed (mkFailing (fi_map (es_index (store crashed))) None) (es_log (store crashed)) failing_rep feed_ts feed_len);
    [exact (λ m H, H)|exact (λ l H, H)].
Defined.

Example reopened_run : match reopened with
  | Done (Ok _, s') => fi_map (es_index s') = {[100 := 1; 50 := 2; 70 := 3]} ∧ mem_log (es_log s') = [ev_a; ev_b; ev_c]
  | _ => False
  end.
Proof. vm_compute. done. Qed.

(** ** Queries *)

Lemma queries_answer_log_witness :
  (∀ seq, 1 <= seq → query_by_seq_with_bounds (store fed_actor) seq (Some Local_) (Some 1) None =
     Done (if Z.of_nat (length fed) + 1 <? seq then Err (CursorAhead seq (Z.of_nat (length fed))) else Ok (query_answer fed seq (Some Local_) (Some 1) None))) ∧
  (∀ ts, ts_ok ts → query_by_ts_with_bounds (store fed_actor) ts (Some Local_) (Some 1) None =
     Done (Ok (match history fed ts with [] => [] | (seq, _) :: _ => query_answer fed seq (Some Local_) (Some 1) None end))) ∧
  (∀ ts lim bytes, ts_ok ts → 0 <= lim <= USIZE_MAX → ∃ page rest, history fed ts = page ++ rest ∧
     query_history_page (store fed_actor) ts lim bytes = Ok (page, mkProgress (last_ts None page) (bool_decide (rest = []))) ∧
     Z.of_nat (length page) <= lim ∧ (1 <= lim → history fed ts ≠ [] → page ≠ [])).
Proof. apply (queries_answer_log (store fed_actor) fed (Some Local_) (Some 1) None fed_rep). intros l [= <-]. lia. Defined.

(** The log holds the timestamps 100, 50, 70, 80.  Asked for the events at or after 60, the query by
    timestamp reads the log from the record of 70, and misses the event at 100. *)
Theorem timestamp_query_misses_event : query_by_ts_with_bounds (store fed_actor) 60 None None None = Done (Ok [(3, ev_c); (4, ev_d)]) ∧
  ev_a ∈ fed ∧ 60 <= ev_ts ev_a.
Proof. split; [vm_compute; reflexivity|]. split; [left|done]. Qed.

Example query_from_two : query_answer fed 2 (Some Local_) (Some 1) None = [(3, ev_c)] ∧ history fed 60 = [(3, ev_c); (4, ev_d); (1, ev_a)].
Proof. vm_compute. done. Qed.

(** ** The router *)

Definition fed_router : EventStoreRouter (I:=InMemSequenceIndex) (L:=InMemEventLog) := mkStoreRouter {[7 := fed_actor; 9 := empty_actor]} None 0.
Definition fed_logs : gmap Z (list LogEvent) := {[7 := fed; 9 := []]}.

Lemma fed_router_rep : router_rep fed_router fed_logs.
Proof.
  unfold router_rep. split.
  - intros agg. cbn [fed_router stores]. unfold fed_logs. rewrite !lookup_insert_is_Some', !lookup_singleton_is_Some. done.
  - intros agg a es Ha He. cbn [fed_router stores] in Ha. unfold fed_logs in He. apply lookup_insert_Some in Ha as [[<- <-]|[Hne Ha]].
    + rewrite lookup_insert_eq in He. injection He as <-. split; [apply fed_running|apply fed_rep].
    + rewrite lookup_insert_ne in He by done. apply lookup_singleton_Some in Ha as [<- <-]. rewrite lookup_singleton_eq in He. injection He as <-.
      split; [done|apply empty_rep].
Qed.

Definition both : gmap Z Z := {[7 := 60; 9 := 0]}.

Lemma routed_query_complete_witness : ∃ a subs r', route_query fed_router 5 both false = (Fanned a subs, r') ∧
  ∀ messages, messages ≡ₚ omap (answer_ts fed_router false None (Some 10) None) subs → ∃ events log_head history,
    (aggregator_run a messages).1 = [(5, mkResponse (Ok events) log_head history)] ∧
    events ≡ₚ concat ((λ q, own false q.1 (store_answer fed_logs None (Some 10) None q)) <$> map_to_list both).
Proof.
  apply (routed_query_complete fed_router fed_logs 5 both false None (Some 10) None fed_router_rep).
  - discriminate.
  - intros agg from E. unfold both in E. apply lookup_insert_Some in E as [[<- <-]|[_ E]]; [split; [by eexists|done]|].
    apply lookup_singleton_Some in E as [<- <-]. split; [by eexists|done].
  - intros l [= <-]. lia.
Defined.

(** The event of aggregate 9 in the log of aggregate 7 is left out. *)
Example both_answer : concat ((λ q, own false q.1 (store_answer fed_logs None (Some 10) None q)) <$> map_to_list both) = [(3, ev_c)].
Proof. vm_compute. done. Qed.

(** A query that failed is answered a second time, without the events of the store that failed,
    when the response of the other store was already waiting: the aggregator stops only after
    the messages before its own. *)
Definition two_pending : QueryAggregator := add_pending (add_pending (aggregator_new 5 false) 0 7) 1 9.

Theorem failed_query_answers_twice :
  (aggregator_run two_pending [(0, mkResponse (Err IoError) None None); (1, mkResponse (Ok [(4, ev_d)]) None None)]).1 =
    [(5, mkResponse (Err IoError) None None); (5, mkResponse (Ok [(4, ev_d)]) None None)].
Proof. vm_compute. reflexivity. Qed.
