(* ===== verification/NetSync.v ===== *)
(** * Historical sync: the responder and the page loop

    Model of crates/net/src/network_sync/workflow.rs (limits, readiness, reply batches), of the
    responder in network_sync/handlers.rs and effects/admission.rs, of the network policy of
    network.rs, of live_history.rs and of the page loop of event_buffer/model.rs.

    A payload is opaque here: what the code reads of it (its kind, its E3, the identity and the
    digest of its encoding, encoded sizes) is the class [Payloads].  The request of a page and its
    answer, with the network in between, is a function of the requester's round. *)

From S2P Require Import Prelude Events Orchestration Hamt KvStore EventLog EventStore EventRouter.
Local Open Scope Z_scope.

(** ** Payloads and policy *)

Inductive DataKind :=
| KDecryptionshareCreated | KDkgCoordination | KDKGRecursiveAggregationComplete | KKeyshareCreated
| KPublicKeyAggregated | KProofFailureAccusation | KAccusationVote | KOther.

Class Payloads := {
  data_kind : Bytes → DataKind;
  data_e3_id : Bytes → option E3id;
  payload_id : Bytes → B256;
  payload_digest : Bytes → B256;
  unsequenced_bytes : LogEvent → Z;
  batch_bytes : list LogEvent → Z;
  sync_reply_event_budget : Z;
  unsequenced_bytes_nonneg : ∀ e, 0 <= unsequenced_bytes e;
  batch_bytes_nonneg : ∀ l, 0 <= batch_bytes l }.

(** [AggregateId::to_chain_id] *)
Definition to_chain_id (aggregate_id : Z) : option Z := if aggregate_id =? 0 then None else Some aggregate_id.

(** [with_source] *)
Definition with_source (source : EventSource) (e : LogEvent) : LogEvent := mkEvent (ev_id e) (ev_ts e) (ev_aggregate e) source (ev_data e).

Record NetworkPolicy := mkPolicy { deployments : gmap Z Address; unrestricted : bool }.

Inductive SyncError :=
| BadRequest | Failed | StorageUnavailable | OutsidePolicy | NoScanProgress | TimedOut | TooManyRequests
| NoE3Id | ForeignChain | AggregateMismatch | ConflictingDeployment | NoDeployment
| ZeroBatch | RequestFailed | SourceDeadline | TotalDeadline | WrongAggregate | OversizedBatch | CountOverflow
| PageLimit | EventLimit | ByteLimit | LiveTimeChanged | NonAdvancingCursor
| BeforeRange | SharedTimestamp | TakenTimestamp | BeyondClock | Mislabeled | NotForwardable
| DifferentPayload | NoPeers | TooFewSources | TooManyStored | StorageNoProgress.

(** [NetworkPolicy::new] *)
Fixpoint add_deployments (l : list (Z * Address)) (m : gmap Z Address) : result (gmap Z Address) SyncError :=
  match l with
  | [] => Ok m
  | (chain_id, address) :: rest =>
      match m !! chain_id with
      | Some existing => if bool_decide (existing = address) then add_deployments rest (<[chain_id := address]> m) else Err ConflictingDeployment
      | None => add_deployments rest (<[chain_id := address]> m)
      end
  end.

Definition policy_new (l : list (Z * Address)) : result NetworkPolicy SyncError :=
  match add_deployments l ∅ with
  | Err e => Err e
  | Ok m => if decide (m = ∅) then Err NoDeployment else Ok (mkPolicy m false)
  end.

Definition local_unrestricted : NetworkPolicy := mkPolicy ∅ true.

Definition allows_chain (p : NetworkPolicy) (chain_id : Z) : bool := unrestricted p || bool_decide (is_Some (deployments p !! chain_id)).

Definition deployment_binding (p : NetworkPolicy) (chain_id : Z) : result Address SyncError :=
  if unrestricted p then Ok 0 else match deployments p !! chain_id with Some a => Ok a | None => Err ForeignChain end.

Section Net.
Context `{EventBytes} `{Payloads}.

Definition validate_event (p : NetworkPolicy) (e : LogEvent) : result () SyncError :=
  match data_e3_id (ev_data e) with
  | None => Err NoE3Id
  | Some e3_id =>
      match deployment_binding p (chain_id e3_id) with
      | Err err => Err err
      | Ok _ => if bool_decide (to_chain_id (ev_aggregate e) = Some (chain_id e3_id)) then Ok tt else Err AggregateMismatch
      end
  end.

Definition is_forwardable_event (e : LogEvent) : bool :=
  match data_kind (ev_data e) with KOther => false | _ => true end.

(** ** Limits *)

Definition MAX_SYNC_BATCH_SIZE : Z := 100.
Definition SYNC_SCAN_MULTIPLIER : Z := 4.
Definition MAX_SYNC_SCAN_EVENTS : Z := MAX_SYNC_BATCH_SIZE * SYNC_SCAN_MULTIPLIER.
Definition MAX_SYNC_SCAN_BYTES : Z := 32 * 1024 * 1024.

Definition effective_sync_limit (requested : Z) : Z := Z.min requested MAX_SYNC_BATCH_SIZE.
Definition sync_scan_limit (requested : Z) : Z := Z.min (effective_sync_limit requested * SYNC_SCAN_MULTIPLIER) MAX_SYNC_SCAN_EVENTS.

(** ** Readiness *)

Inductive ReadinessDecision := Idle | PublishReady | WaitForConnection.

Record NetReadiness := mkReadiness { all_peers_dialed : bool; has_connections : bool; net_ready_published : bool }.

Definition readiness_new : NetReadiness := mkReadiness false false false.

Definition try_publish (r : NetReadiness) : ReadinessDecision * NetReadiness :=
  if negb (net_ready_published r) then (PublishReady, mkReadiness (all_peers_dialed r) (has_connections r) true) else (Idle, r).

Definition on_all_peers_dialed (r : NetReadiness) (connected total : Z) : ReadinessDecision * NetReadiness :=
  let r := mkReadiness true (if 0 <? connected then true else has_connections r) (net_ready_published r) in
  if (total =? 0) || has_connections r then try_publish r else (WaitForConnection, r).

Definition on_peer_connected (r : NetReadiness) : ReadinessDecision * NetReadiness :=
  if negb (has_connections r) then
    let r := mkReadiness (all_peers_dialed r) true (net_ready_published r) in
    if all_peers_dialed r then try_publish r else (Idle, r)
  else (Idle, r).

Definition on_connect_timeout (r : NetReadiness) : ReadinessDecision * NetReadiness := try_publish r.

(** ** Live history *)

Inductive LiveState := Starting | Live (ts : Z) | Revoked.

Definition live_since (s : LiveState) : option Z := match s with Live ts => Some ts | Starting | Revoked => None end.
Definition live_begin (s : LiveState) (ts : Z) : LiveState := match s with Starting => Live ts | _ => s end.
Definition live_revoke (s : LiveState) : LiveState := Revoked.

(** ** Requests and replies *)

Inductive BatchCursor := CursorDone | CursorNext (ts : Z).

Record EventBatch := mkBatch { batch_events : list LogEvent; batch_next : BatchCursor; batch_aggregate : Z; batch_observed_from : option Z }.

Record FetchEventsSince := mkFetch { fetch_aggregate : Z; fetch_since : Z; fetch_limit : Z }.

Definition U128_MAX : Z := 2 ^ 128 - 1.

(** [u128::checked_add(1)] *)
Definition next_ts (ts : Z) : option Z := if ts <? U128_MAX then Some (ts + 1) else None.

(** [Option::max]: an absent time is the least. *)
Definition option_max (a b : option Z) : option Z :=
  match a, b with Some a, Some b => Some (Z.max a b) | Some a, None => Some a | None, b => b end.

(** The loop over a storage page: the events of the reply, how many records it consumed and
    the time of the last of them, or the failure of an event that fits in no reply. *)
Fixpoint batch_loop (limit : Z) (page : list LogEvent) (events : list LogEvent) (event_bytes consumed : Z) (consumed_ts : option Z)
    : result (list LogEvent * Z * option Z) SyncError :=
  match page with
  | [] => Ok (events, consumed, consumed_ts)
  | event :: rest =>
      if is_forwardable_event event then
        let size := unsequenced_bytes event in
        if sync_reply_event_budget <? saturating_add event_bytes size then
          if bool_decide (events = []) then Err Failed else Ok (events, consumed, consumed_ts)
        else
          let events := events ++ [event] in
          let consumed := consumed + 1 in
          let consumed_ts := Some (ev_ts event) in
          if Z.of_nat (length events) =? limit then Ok (events, consumed, consumed_ts)
          else batch_loop limit rest events (saturating_add event_bytes size) consumed consumed_ts
      else batch_loop limit rest events event_bytes (consumed + 1) (Some (ev_ts event))
  end.

Definition build_sync_batch (page : list LogEvent) (progress : HistoryProgress) (observed_from : option Z) (fetch : FetchEventsSince)
    : result EventBatch SyncError :=
  if fetch_limit fetch =? 0 then Err BadRequest
  else
    match batch_loop (effective_sync_limit (fetch_limit fetch)) page [] 0 0 None with
    | Err e => Err e
    | Ok (events, consumed, consumed_ts) =>
        let next :=
          if consumed =? Z.of_nat (length page) then
            if exhausted progress then Some CursorDone
            else match option_max consumed_ts (last_scanned_ts progress) with
                 | Some ts => CursorNext <$> next_ts ts
                 | None => None
                 end
          else match consumed_ts with Some ts => CursorNext <$> next_ts ts | None => None end in
        match next with
        | None => Err Failed
        | Some next => Ok (mkBatch events next (fetch_aggregate fetch) observed_from)
        end
    end.

(** ** The responder *)

Definition MAX_IN_FLIGHT_SYNC_REQUESTS : Z := 16.
Definition MAX_IN_FLIGHT_SYNC_REQUESTS_PER_PEER : Z := 2.

Record PendingSyncRequest := mkPending { p_peer : Z; p_fetch : FetchEventsSince; p_observed_from : option Z }.

Record Responder := mkResponder { requests : gmap Z PendingSyncRequest; live_history : LiveState; network : NetworkPolicy; request_id : Z }.

Definition request_capacity_error (m : Responder) (peer : Z) : bool :=
  (MAX_IN_FLIGHT_SYNC_REQUESTS <=? Z.of_nat (size (requests m))) ||
  (MAX_IN_FLIGHT_SYNC_REQUESTS_PER_PEER <=?
     Z.of_nat (length (List.filter (λ r : Z * PendingSyncRequest, p_peer r.2 =? peer) (map_to_list (requests m))))).

(** What is sent to storage for a request: the sub-query of one aggregate. *)
Record StorageQuery := mkQuery { sq_id : Z; sq_aggregate : Z; sq_since : Z; sq_limit : Z; sq_max_bytes : Z }.

Inductive IncomingOutcome := Refused (e : SyncError) | Queried (q : StorageQuery).

(** [Handler<IncomingRequest>], where [storage_takes] says whether the store took the query. *)
Definition handle_incoming_request (m : Responder) (peer : Z) (request : option FetchEventsSince) (storage_takes : bool) : IncomingOutcome * Responder :=
  match request with
  | None => (Refused BadRequest, m)
  | Some fetch =>
      if fetch_limit fetch =? 0 then (Refused BadRequest, m)
      else match to_chain_id (fetch_aggregate fetch) with
           | None => (Refused BadRequest, m)
           | Some chain_id =>
               if negb (allows_chain (network m) chain_id) then (Refused BadRequest, m)
               else if request_capacity_error m peer then (Refused TooManyRequests, m)
               else
                 let id := request_id m in
                 let pending := mkPending peer fetch (live_since (live_history m)) in
                 if storage_takes then
                   (Queried (mkQuery id (fetch_aggregate fetch) (fetch_since fetch) (sync_scan_limit (fetch_limit fetch)) MAX_SYNC_SCAN_BYTES),
                    mkResponder (<[id := pending]> (requests m)) (live_history m) (network m) (id + 1))
                 else (Refused StorageUnavailable, mkResponder (requests m) (live_history m) (network m) (id + 1))
           end
  end.

Definition remove_request (m : Responder) (id : Z) : Responder := mkResponder (delete id (requests m)) (live_history m) (network m) (request_id m).

(** [expire_sync_request]: the peer is told that its request timed out. *)
Definition expire_sync_request (m : Responder) (id : Z) : option (Z * SyncError) * Responder :=
  match requests m !! id with
  | None => (None, m)
  | Some pending => (Some (p_peer pending, TimedOut), remove_request m id)
  end.

(** [Handler<EventStoreQueryResponse>] for the answer to a request: who is answered, and what. *)
Definition handle_storage_response (m : Responder) (id : Z) (msg : QueryResponse) : option (Z * result EventBatch SyncError) * Responder :=
  match requests m !! id with
  | None => (None, m)
  | Some pending =>
      let m' := remove_request m id in
      let reply :=
        match q_result msg with
        | Err _ => Err StorageUnavailable
        | Ok events =>
            let events := events.*2 in
            if existsb (λ e, is_forwardable_event e && match validate_event (network m) e with Ok _ => false | Err _ => true end) events then Err OutsidePolicy
            else match q_history msg with
                 | None => Err NoScanProgress
                 | Some history =>
                     let observed_from := if bool_decide (live_since (live_history m) = p_observed_from pending) then p_observed_from pending else None in
                     build_sync_batch events history observed_from (p_fetch pending)
                 end
        end in
      (Some (p_peer pending, reply), m')
  end.
(** ** The budget of a fetch *)

Definition MAX_SYNC_FETCH_PAGES : Z := 512.
Definition MAX_SYNC_FETCH_EVENTS : Z := 50000.
Definition MAX_SYNC_FETCH_BYTES : Z := 128 * 1024 * 1024.

Record SyncFetchBudget := mkBudget {
  pages : Z; events : Z; bytes : Z; max_pages : Z; max_events : Z; max_bytes : Z; budget_exhausted : bool }.

Definition budget_new (max_pages max_events max_bytes : Z) : SyncFetchBudget := mkBudget 0 0 0 max_pages max_events max_bytes false.
Definition budget_production : SyncFetchBudget := budget_new MAX_SYNC_FETCH_PAGES MAX_SYNC_FETCH_EVENTS MAX_SYNC_FETCH_BYTES.

Definition exhaust (b : SyncFetchBudget) : SyncFetchBudget :=
  mkBudget (pages b) (events b) (bytes b) (max_pages b) (max_events b) (max_bytes b) true.

(** [usize::checked_add] *)
Definition checked_add (a b : Z) : option Z := if a + b <=? USIZE_MAX then Some (a + b) else None.

Definition record_page (b : SyncFetchBudget) (event_count encoded_bytes : Z) : result () SyncError * SyncFetchBudget :=
  match checked_add (pages b) 1, checked_add (events b) event_count, checked_add (bytes b) encoded_bytes with
  | Some pages', Some events', Some bytes' =>
      if max_pages b <? pages' then (Err PageLimit, exhaust b)
      else if max_events b <? events' then (Err EventLimit, exhaust b)
      else if max_bytes b <? bytes' then (Err ByteLimit, exhaust b)
      else (Ok tt, mkBudget pages' events' bytes' (max_pages b) (max_events b) (max_bytes b) (budget_exhausted b))
  | _, _, _ => (Err CountOverflow, b)
  end.

(** ** The page loop *)

(** What comes of asking a peer for a page: its reply, a failure of the request, the end of the
    time of this source, or the end of the time of the whole fetch. *)
Inductive PageReply := Page (batch : EventBatch) | NoReply | SourceTimeout | FetchTimeout.

(** A peer with the network before it: whether time is left when a round starts, and what comes
    of its request. *)
Record Peer := mkPeer { time_left : nat → bool; reply : nat → FetchEventsSince → PageReply }.

Record PeerHistory := mkPeerHistory { ph_events : list LogEvent; ph_observed_from : option Z }.

(** What a round does with a page that came: the loop ends or goes on with a cursor. *)
Record FetchState := mkFetchState { all_events : list LogEvent; fs_cursor : Z; fs_observed : option Z; first_page : bool }.

Definition accept_page (aggregate_id batch_size : Z) (s : FetchState) (b : SyncFetchBudget) (batch : EventBatch)
    : result (FetchState * bool) SyncError * SyncFetchBudget :=
  if negb (batch_aggregate batch =? aggregate_id) then (Err WrongAggregate, b)
  else if batch_size <? Z.of_nat (length (batch_events batch)) then (Err OversizedBatch, b)
  else
    match record_page b (Z.of_nat (length (batch_events batch))) (batch_bytes (batch_events batch)) with
    | (Err e, b) => (Err e, b)
    | (Ok _, b) =>
        if negb (first_page s) && bool_decide (is_Some (fs_observed s)) && negb (bool_decide (batch_observed_from batch = fs_observed s))
        then (Err LiveTimeChanged, b)
        else
          let observed := if first_page s then batch_observed_from batch else fs_observed s in
          let all := all_events s ++ batch_events batch in
          match batch_next batch with
          | CursorDone => (Ok (mkFetchState all (fs_cursor s) observed false, true), b)
          | CursorNext next =>
              if negb (fs_cursor s <? next) then (Err NonAdvancingCursor, b)
              else (Ok (mkFetchState all next observed false, false), b)
          end
    end.

Fixpoint fetch_loop (fuel : nat) (peer : Peer) (round : nat) (aggregate_id batch_size : Z) (s : FetchState) (b : SyncFetchBudget)
    : Outcome (result PeerHistory SyncError * SyncFetchBudget) :=
  match fuel with
  | O => OutOfFuel
  | S fuel =>
      if negb (time_left peer round) then Done (Err TotalDeadline, exhaust b)
      else
        match reply peer round (mkFetch aggregate_id (fs_cursor s) batch_size) with
        | NoReply => Done (Err RequestFailed, b)
        | SourceTimeout => Done (Err SourceDeadline, b)
        | FetchTimeout => Done (Err TotalDeadline, exhaust b)
        | Page batch =>
            match accept_page aggregate_id batch_size s b batch with
            | (Err e, b) => Done (Err e, b)
            | (Ok (s, true), b) => Done (Ok (mkPeerHistory (all_events s) (fs_observed s)), b)
            | (Ok (s, false), b) => fetch_loop fuel peer (S round) aggregate_id batch_size s b
            end
        end
  end.

(** One round per page that the budget has left, and one that it refuses, is enough. *)
Definition fetch_fuel (b : SyncFetchBudget) : nat := S (Z.to_nat (max_pages b - pages b)).

Definition fetch_all_batched_events_with_budget (peer : Peer) (aggregate_id since batch_size : Z) (b : SyncFetchBudget)
    : Outcome (result PeerHistory SyncError * SyncFetchBudget) :=
  if negb (0 <? batch_size) then Done (Err ZeroBatch, b)
  else fetch_loop (fetch_fuel b) peer 0 aggregate_id (effective_sync_limit batch_size) (mkFetchState [] since None true) b.
End Net.
