(* ===== verification/NetSyncProps.v ===== *)
(** * What historical sync gives a node

    Against any peer, a fetch ends within its budget of pages, events and bytes; against a peer that
    serves its own store, the pages are exactly the forwardable events of the aggregate, in the
    order of time, whichever way limits and budgets cut them. *)

From S2P Require Import Prelude Events Orchestration Hamt KvStore KvStoreProps EventLog EventStore EventStoreProps EventQueries EventRouter NetSync.
Local Open Scope Z_scope.

Section Net.
Context `{EventBytes} `{Payloads}.

(** ** Any peer *)

Definition budget_ok (b : SyncFetchBudget) : Prop :=
  0 <= pages b <= max_pages b ∧ 0 <= events b <= max_events b ∧ 0 <= bytes b <= max_bytes b.

Definition same_limits (b b' : SyncFetchBudget) : Prop :=
  max_pages b' = max_pages b ∧ max_events b' = max_events b ∧ max_bytes b' = max_bytes b.

Lemma exhaust_ok b : budget_ok b → budget_ok (exhaust b) ∧ same_limits b (exhaust b).
Proof. done. Qed.

Lemma record_page_spec b n size : budget_ok b → 0 <= n → 0 <= size →
  let '(r, b') := record_page b n size in
  budget_ok b' ∧ same_limits b b' ∧
  match r with
  | Ok _ => pages b' = pages b + 1 ∧ events b' = events b + n ∧ bytes b' = bytes b + size ∧ budget_exhausted b' = budget_exhausted b
  | Err e => pages b' = pages b ∧ events b' = events b ∧ bytes b' = bytes b ∧
      (e = CountOverflow ∨ budget_exhausted b' = true ∧ (max_pages b < pages b + 1 ∨ max_events b < events b + n ∨ max_bytes b < bytes b + size))
  end.
Proof.
  intros (Hp & He & Hb) Hn Hs. unfold record_page, checked_add.
  destruct (Z.leb_spec (pages b + 1) USIZE_MAX); [|unfold budget_ok, same_limits; cbn; repeat split; try lia; auto 8].
  destruct (Z.leb_spec (events b + n) USIZE_MAX); [|unfold budget_ok, same_limits; cbn; repeat split; try lia; auto 8].
  destruct (Z.leb_spec (bytes b + size) USIZE_MAX); [|unfold budget_ok, same_limits; cbn; repeat split; try lia; auto 8].
  destruct (Z.ltb_spec (max_pages b) (pages b + 1)); [unfold budget_ok, same_limits; cbn; repeat split; try lia; auto 8|].
  destruct (Z.ltb_spec (max_events b) (events b + n)); [unfold budget_ok, same_limits; cbn; repeat split; try lia; auto 8|].
  destruct (Z.ltb_spec (max_bytes b) (bytes b + size)); [unfold budget_ok, same_limits; cbn; repeat split; try lia; auto 8|].
  unfold budget_ok, same_limits. cbn. repeat split; lia.
Qed.

Lemma accept_page_spec agg size s b batch : budget_ok b →
  let '(r, b') := accept_page agg size s b batch in
  budget_ok b' ∧ same_limits b b' ∧
  match r with
  | Ok (s', _) => all_events s' = all_events s ++ batch_events batch ∧ pages b' = pages b + 1 ∧
      events b' = events b + Z.of_nat (length (batch_events batch))
  | Err _ => True
  end.
Proof.
  intros Hb. unfold accept_page. destruct (negb (batch_aggregate batch =? agg)); [done|]. destruct (size <? _); [done|].
  pose proof (record_page_spec b (Z.of_nat (length (batch_events batch))) (batch_bytes (batch_events batch)) Hb ltac:(lia) (batch_bytes_nonneg _)) as Hr.
  destruct (record_page b _ _) as [[[]|e] b']; [|tauto]. destruct Hr as (Hb' & Hl & Hp & He & _).
  destruct (_ && _ && _); [done|]. destruct (batch_next batch) as [|next]; [done|]. by destruct (negb _).
Qed.

Lemma fetch_loop_bounded fuel peer agg size : ∀ round s b, budget_ok b → max_pages b - pages b < Z.of_nat fuel →
  ∃ r b', fetch_loop fuel peer round agg size s b = Done (r, b') ∧ budget_ok b' ∧ same_limits b b' ∧
    match r with
    | Ok h => ∃ more, ph_events h = all_events s ++ more ∧ Z.of_nat (length more) = events b' - events b
    | Err _ => True
    end.
Proof.
  induction fuel as [|fuel IH]; intros round s b Hb Hf; [unfold budget_ok in Hb; lia|]. cbn [fetch_loop].
  destruct (negb (time_left peer round)); [by eexists _, _|]. destruct (reply peer round _) as [batch| | |]; [|by eexists _, _..].
  pose proof (accept_page_spec agg size s b batch Hb) as Ha. destruct (accept_page _ _ _ _ _) as [[[s' stop]|e] b1]; [|by destruct Ha as (? & ? & _); eexists _, _].
  destruct Ha as (Hb1 & Hl1 & Ea & Ep & Ee). destruct stop.
  - eexists _, _. split; [done|]. split; [done|]. split; [done|]. exists (batch_events batch). split; [done|]. lia.
  - destruct Hl1 as (Hl1 & Hl2 & Hl3). destruct (IH (S round) s' b1 Hb1 ltac:(lia)) as (r & b' & E & Hb' & (? & ? & ?) & Hr).
    exists r, b'. split; [done|]. split; [done|]. split; [repeat split; congruence|]. destruct r as [h|]; [|done].
    destruct Hr as (more & Em & Hlen). exists (batch_events batch ++ more). rewrite Em, Ea, <- (assoc (++)), length_app. split; [done|]. lia.
Qed.

Lemma fetch_all_bounded peer agg since batch_size b : budget_ok b →
  ∃ r b', fetch_all_batched_events_with_budget peer agg since batch_size b = Done (r, b') ∧ budget_ok b' ∧ same_limits b b' ∧
    match r with Ok h => Z.of_nat (length (ph_events h)) = events b' - events b | Err _ => True end.
Proof.
  intros Hb. unfold fetch_all_batched_events_with_budget. destruct (negb (0 <? batch_size)); [by eexists _, _|].
  destruct (fetch_loop_bounded (fetch_fuel b) peer agg (effective_sync_limit batch_size) 0%nat (mkFetchState [] since None true) b Hb) as (r & b' & E & Hb' & Hl & Hr).
  { unfold fetch_fuel, budget_ok in *. lia. }
  exists r, b'. split; [done|]. split; [done|]. split; [done|]. destruct r as [h|]; [|done]. by destruct Hr as (more & -> & Hlen).
Qed.

(** A fetch ends within its budget, whatever the peer answers.  It returns after at most one
    request more than the pages it may still take; the counters stay within their limits, and
    the events it hands on are at most those that the event limit still allowed. *)
Theorem fetch_bounded peer agg since batch_size b : budget_ok b →
  ∃ r b', fetch_all_batched_events_with_budget peer agg since batch_size b = Done (r, b') ∧ budget_ok b' ∧ same_limits b b' ∧
    match r with
    | Ok h => Z.of_nat (length (ph_events h)) = events b' - events b ∧ Z.of_nat (length (ph_events h)) <= max_events b - events b
    | Err _ => True
    end.
Proof.
  intros Hb. destruct (fetch_all_bounded peer agg since batch_size b Hb) as (r & b' & E & Hb' & Hl & Hr). exists r, b'. split; [done|]. split; [done|].
  split; [done|]. destruct r as [h|]; [|done]. split; [done|]. destruct Hb' as (_ & He & _), Hl as (_ & Hl & _). lia.
Qed.

(** ** A reply *)

Definition wanted (agg : Z) (l : list Sequenced) : list LogEvent :=
  (List.filter (λ x : Sequenced, (ev_aggregate x.2 =? agg) && is_forwardable_event x.2) l).*2.

Lemma wanted_app agg l1 l2 : wanted agg (l1 ++ l2) = wanted agg l1 ++ wanted agg l2.
Proof. unfold wanted. by rewrite List.filter_app, fmap_app. Qed.

Lemma wanted_own agg l : wanted agg l = List.filter is_forwardable_event ((own false agg l).*2).
Proof.
  unfold wanted, own. induction l as [|[seq e] l IH]; [done|]. cbn [List.filter fst snd]. destruct (ev_aggregate e =? agg); cbn [andb]; [|done].
  cbn [fmap list_fmap List.filter snd]. destruct (is_forwardable_event e); [|done]. cbn [fmap list_fmap snd]. by f_equal.
Qed.

Definition last_event_ts (before : option Z) (l : list LogEvent) : option Z := match last l with Some e => Some (ev_ts e) | None => before end.

Lemma last_event_ts_cons before e l : last_event_ts before (e :: l) = last_event_ts (Some (ev_ts e)) l.
Proof. unfold last_event_ts. rewrite last_cons. by destruct (last l). Qed.

(** An event that no reply can carry. *)
Definition oversized (e : LogEvent) : Prop := sync_reply_event_budget < unsequenced_bytes e.

Lemma batch_loop_spec limit ps : ∀ evs size consumed ts, Z.of_nat (length evs) < limit → (evs = [] → size = 0) → 0 <= size →
  match batch_loop limit ps evs size consumed ts with
  | Err e => e = Failed ∧ ∃ x, x ∈ ps ∧ is_forwardable_event x = true ∧ oversized x
  | Ok (evs', consumed', ts') => ∃ a b, ps = a ++ b ∧ evs' = evs ++ List.filter is_forwardable_event a ∧ consumed' = consumed + Z.of_nat (length a) ∧
      ts' = last_event_ts ts a ∧ Z.of_nat (length evs') <= limit ∧ (b ≠ [] → evs' ≠ [])
  end.
Proof.
  induction ps as [|e ps IH]; intros evs size consumed ts Hlim Hz Hs; cbn [batch_loop].
  { exists [], []. cbn. rewrite app_nil_r. repeat split; (done || lia). }
  assert (∀ evs' size' f, is_forwardable_event e = f → evs' = evs ++ (if f then [e] else []) → Z.of_nat (length evs') < limit → (evs' = [] → size' = 0) → 0 <= size' →
    match batch_loop limit ps evs' size' (consumed + 1) (Some (ev_ts e)) with
    | Err err => err = Failed ∧ ∃ x, x ∈ e :: ps ∧ is_forwardable_event x = true ∧ oversized x
    | Ok (evs2, consumed', ts') => ∃ a b, e :: ps = a ++ b ∧ evs2 = evs ++ List.filter is_forwardable_event a ∧ consumed' = consumed + Z.of_nat (length a) ∧
        ts' = last_event_ts ts a ∧ Z.of_nat (length evs2) <= limit ∧ (b ≠ [] → evs2 ≠ [])
    end) as Hrec.
  { intros evs' size' f Ef -> Hlen Hz' Hs'. specialize (IH (evs ++ if f then [e] else []) size' (consumed + 1) (Some (ev_ts e)) Hlen Hz' Hs').
    destruct (batch_loop _ ps _ _ _ _) as [[[evs2 c2] ts2]|err].
    - destruct IH as (a & b & -> & -> & -> & -> & Hle & Hb). exists (e :: a), b. rewrite last_event_ts_cons. cbn [List.filter length]. rewrite Ef.
      split; [done|]. split; [destruct f; rewrite <- (assoc (++)); done|]. split; [lia|]. by repeat split.
    - destruct IH as (-> & x & Hx & Hf & Ho). split; [done|]. exists x. split; [by right|done]. }
  destruct (is_forwardable_event e) eqn:Ef; [|by apply (Hrec evs size false); rewrite ?app_nil_r].
  destruct (Z.ltb_spec sync_reply_event_budget (saturating_add size (unsequenced_bytes e))) as [Hbig|Hfit].
  - case_bool_decide as E.
    + split; [done|]. exists e. split; [by left|]. split; [done|]. rewrite (Hz E) in Hbig. unfold oversized, saturating_add in *. lia.
    + exists [], (e :: ps). rewrite app_nil_r. repeat split; (done || (cbn; lia) || lia).
  - destruct (Z.eqb_spec (Z.of_nat (length (evs ++ [e]))) limit) as [El|El].
    + exists [e], ps. cbn [List.filter length]. rewrite Ef. repeat split; [lia|]. intros _. by destruct evs.
    + apply (Hrec (evs ++ [e]) (saturating_add size (unsequenced_bytes e)) true); [done|done| | |].
      * rewrite length_app in *. cbn in *. lia.
      * by destruct evs.
      * pose proof (unsequenced_bytes_nonneg e). unfold saturating_add, USIZE_MAX. lia.
Qed.

(** ** Readiness *)

Inductive ReadySignal := SigDialed (connected total : Z) | SigConnected | SigTimeout.

Definition ready_step (r : NetReadiness) (sig : ReadySignal) : ReadinessDecision * NetReadiness :=
  match sig with
  | SigDialed connected total => on_all_peers_dialed r connected total
  | SigConnected => on_peer_connected r
  | SigTimeout => on_connect_timeout r
  end.

Fixpoint ready_run (r : NetReadiness) (sigs : list ReadySignal) : list ReadinessDecision * NetReadiness :=
  match sigs with
  | [] => ([], r)
  | sig :: rest => let '(d, r) := ready_step r sig in let '(ds, r) := ready_run r rest in (d :: ds, r)
  end.

Definition published (ds : list ReadinessDecision) : nat := length (List.filter (λ d, match d with PublishReady => true | _ => false end) ds).

Definition is_dialed (sig : ReadySignal) : bool := match sig with SigDialed _ _ => true | _ => false end.
Definition brings_connection (sig : ReadySignal) : bool := match sig with SigDialed connected _ => 0 <? connected | SigConnected => true | SigTimeout => false end.
Definition no_peers (sig : ReadySignal) : bool := match sig with SigDialed _ total => total =? 0 | _ => false end.
Definition is_timeout (sig : ReadySignal) : bool := match sig with SigTimeout => true | _ => false end.

(** When the node counts as ready: the wait ended, no peers are configured, or the peers were dialed
    and a connection exists. *)
Definition ready (sigs : list ReadySignal) : bool :=
  existsb is_timeout sigs || existsb no_peers sigs || existsb is_dialed sigs && existsb brings_connection sigs.

(** The state of the machine after the signals. *)
Definition ready_state (sigs : list ReadySignal) : NetReadiness := mkReadiness (existsb is_dialed sigs) (existsb brings_connection sigs) (ready sigs).

Lemma ready_step_spec sigs sig :
  let '(d, r) := ready_step (ready_state sigs) sig in
  r = ready_state (sigs ++ [sig]) ∧ (d = PublishReady ↔ ready sigs = false ∧ ready (sigs ++ [sig]) = true).
Proof.
  unfold ready_state, ready. rewrite !existsb_app. cbn [existsb]. rewrite !orb_false_r.
  destruct sig as [connected total| |]; cbn [ready_step is_timeout no_peers is_dialed brings_connection]; rewrite ?orb_false_r, ?orb_true_r.
  - unfold on_all_peers_dialed, try_publish. cbn [all_peers_dialed has_connections net_ready_published].
    destruct (0 <? connected), (total =? 0), (existsb is_timeout sigs), (existsb no_peers sigs), (existsb is_dialed sigs), (existsb brings_connection sigs); cbn; naive_solver.
  - unfold on_peer_connected, try_publish. cbn [all_peers_dialed has_connections net_ready_published].
    destruct (existsb is_timeout sigs), (existsb no_peers sigs), (existsb is_dialed sigs), (existsb brings_connection sigs) eqn:?; cbn; naive_solver.
  - unfold on_connect_timeout, try_publish. cbn [all_peers_dialed has_connections net_ready_published].
    destruct (existsb is_timeout sigs), (existsb no_peers sigs), (existsb is_dialed sigs), (existsb brings_connection sigs); cbn; naive_solver.
Qed.

Lemma ready_app sigs more : ready sigs = true → ready (sigs ++ more) = true.
Proof.
  unfold ready. rewrite !existsb_app, !orb_true_iff, !andb_true_iff, !orb_true_iff. tauto.
Qed.

Lemma ready_run_spec sigs : ∀ before, published (ready_run (ready_state before) sigs).1 = if ready before then 0%nat else if ready (before ++ sigs) then 1%nat else 0%nat.
Proof.
  induction sigs as [|sig sigs IH]; intros before; cbn [ready_run].
  { rewrite app_nil_r. by destruct (ready before). }
  pose proof (ready_step_spec before sig) as Hs. destruct (ready_step (ready_state before) sig) as [d r]. destruct Hs as [-> Hd].
  specialize (IH (before ++ [sig])). rewrite <- (assoc (++)) in IH. cbn [app] in IH. destruct (ready_run _ sigs) as [ds r']. cbn [fst] in *. unfold published in *. cbn [List.filter].
  destruct (ready before) eqn:Eb.
  - rewrite (ready_app before [sig] Eb) in IH. destruct d; try done. destruct (proj1 Hd eq_refl). done.
  - destruct (ready (before ++ [sig])) eqn:E1.
    + rewrite (proj2 Hd) by done. cbn [length]. rewrite IH. pose proof (ready_app (before ++ [sig]) sigs E1) as E2. rewrite <- (assoc (++)) in E2. cbn [app] in E2. by rewrite E2.
    + rewrite <- IH. destruct d; try done. by destruct (proj1 Hd eq_refl).
Qed.

(** [NetReady] is published once, and exactly when the node is ready: over any order of dial results,
    connections and timeouts it is published never before, and never twice after, the wait has
    ended, no peers are configured, or the peers have been dialed and a connection exists. *)
Theorem net_ready_once sigs : published (ready_run readiness_new sigs).1 = if ready sigs then 1%nat else 0%nat.
Proof. exact (ready_run_spec sigs []). Qed.

(** ** The requests in flight *)

Inductive ResponderMsg :=
| MsgRequest (peer : Z) (request : option FetchEventsSince) (storage_takes : bool)
| MsgStorage (id : Z) (response : QueryResponse)
| MsgExpire (id : Z)
| MsgLive (begin : option Z).

Definition responder_step (m : Responder) (msg : ResponderMsg) : Responder :=
  match msg with
  | MsgRequest peer request takes => (handle_incoming_request m peer request takes).2
  | MsgStorage id response => (handle_storage_response m id response).2
  | MsgExpire id => (expire_sync_request m id).2
  | MsgLive begin => mkResponder (requests m) (match begin with Some ts => live_begin (live_history m) ts | None => live_revoke (live_history m) end) (network m) (request_id m)
  end.

Definition of_peer (m : gmap Z PendingSyncRequest) (peer : Z) : Z :=
  Z.of_nat (length (List.filter (λ r : Z * PendingSyncRequest, p_peer r.2 =? peer) (map_to_list m))).

Definition responder_inv (m : Responder) : Prop :=
  Z.of_nat (size (requests m)) <= MAX_IN_FLIGHT_SYNC_REQUESTS ∧ (∀ peer, of_peer (requests m) peer <= MAX_IN_FLIGHT_SYNC_REQUESTS_PER_PEER) ∧
  ∀ id, is_Some (requests m !! id) → id < request_id m.

Lemma filter_length_perm {A} (p : A → bool) (l1 l2 : list A) : l1 ≡ₚ l2 → length (List.filter p l1) = length (List.filter p l2).
Proof. induction 1 as [|x l l' _ IH|x y l|]; cbn; [done|by destruct (p x); cbn; rewrite IH|by destruct (p x), (p y)|congruence]. Qed.

Lemma of_peer_insert (m : gmap Z PendingSyncRequest) id r peer : m !! id = None → of_peer (<[id := r]> m) peer = of_peer m peer + if p_peer r =? peer then 1 else 0.
Proof.
  intros Hid. unfold of_peer. rewrite (filter_length_perm _ _ _ (map_to_list_insert m id r Hid)). cbn [List.filter snd]. destruct (p_peer r =? peer); cbn [length]; lia.
Qed.

Lemma of_peer_delete (m : gmap Z PendingSyncRequest) id peer : of_peer (delete id m) peer <= of_peer m peer.
Proof.
  destruct (m !! id) as [r|] eqn:E; [|by rewrite delete_id]. rewrite <- (insert_delete_id m id r E) at 2. rewrite of_peer_insert by apply lookup_delete_eq.
  destruct (p_peer r =? peer); lia.
Qed.

Lemma remove_request_inv m id : responder_inv m → responder_inv (remove_request m id).
Proof.
  intros (Hs & Hp & Hid). split; [|split].
  - cbn [remove_request requests]. rewrite map_size_delete. destruct (requests m !! id); cbn in *; lia.
  - intros peer. cbn [remove_request requests]. etransitivity; [apply of_peer_delete|apply Hp].
  - intros i [x Hx]. cbn [remove_request requests] in Hx. apply lookup_delete_Some in Hx as [_ Hx]. apply Hid. by eexists.
Qed.

Lemma responder_step_inv m msg : responder_inv m → responder_inv (responder_step m msg).
Proof.
  intros Hm. destruct msg as [peer request takes|id response|id|begin]; cbn [responder_step].
  - unfold handle_incoming_request. destruct request as [fetch|]; [|done]. destruct (fetch_limit fetch =? 0); [done|].
    destruct (to_chain_id _) as [chain|]; [|done]. destruct (negb (allows_chain _ _)); [done|]. destruct (request_capacity_error m peer) eqn:Ecap; [done|].
    destruct Hm as (Hs & Hp & Hid). unfold request_capacity_error in Ecap. apply orb_false_iff in Ecap as [Hcap%Z.leb_gt Hpeer%Z.leb_gt].
    assert (requests m !! request_id m = None) as Hfree by (apply eq_None_not_Some; intros Hsome; specialize (Hid _ Hsome); lia).
    destruct takes; cbn [snd]; (split; [|split]); cbn [requests request_id]; try done.
    + rewrite map_size_insert_None by done. lia.
    + intros p. rewrite of_peer_insert by done. cbn [p_peer]. specialize (Hp p). destruct (Z.eqb_spec peer p) as [<-|]; [|lia]. unfold of_peer. lia.
    + intros i. rewrite lookup_insert_is_Some'. intros [<-|Hsome]; [lia|]. specialize (Hid _ Hsome). lia.
    + intros i Hsome. specialize (Hid _ Hsome). lia.
  - unfold handle_storage_response. destruct (requests m !! id); [|done]. by apply remove_request_inv.
  - unfold expire_sync_request. destruct (requests m !! id); [|done]. by apply remove_request_inv.
  - done.
Qed.

(** The work that peers can leave at a node is bounded: however requests, storage answers, timeouts and
    losses of history follow each other, at most 16 requests are in flight, at most two of one
    peer, and identifiers are not used twice. *)
Theorem requests_bounded live policy msgs :
  responder_inv (foldl responder_step (mkResponder ∅ live policy 0) msgs).
Proof.
  assert (responder_inv (mkResponder ∅ live policy 0)) as Hinit.
  { split; [done|]. split; [done|]. by intros id [x Hx]. }
  revert Hinit. generalize (mkResponder ∅ live policy 0). induction msgs as [|msg msgs IH]; intros m Hm; [done|]. cbn [foldl]. apply IH. by apply responder_step_inv.
Qed.
End Net.
