(* ===== verification/NetServe.v ===== *)
(** * Historical sync from a peer that serves its store

    The request of a page goes through the whole responder: its admission, the query router, the
    event store, the quarantine of misrouted events, the checks of the answer and the reply batch.
    A fetch over such pages returns exactly the forwardable events of the aggregate. *)

From S2P Require Import Prelude Events Orchestration Hamt KvStore KvStoreProps EventLog EventStore EventStoreProps EventQueries EventRouter NetSync NetSyncProps.
Local Open Scope Z_scope.

(** ** Lists *)

Lemma filter_split {A} (p : A → bool) l : ∀ a x b, List.filter p l = a ++ x :: b →
  ∃ l1 l2, l = l1 ++ x :: l2 ∧ List.filter p l1 = a ∧ List.filter p l2 = b ∧ p x = true.
Proof.
  induction l as [|y l IH]; intros a x b E; [by destruct a|]. cbn [List.filter] in E. destruct (p y) eqn:Ep.
  - destruct a as [|z a]; cbn [app] in E; injection E as -> E.
    + exists [], l. by repeat split.
    + destruct (IH a x b E) as (l1 & l2 & -> & <- & <- & Hx). exists (z :: l1), l2. cbn [List.filter app]. by rewrite Ep.
  - destruct (IH a x b E) as (l1 & l2 & -> & <- & <- & Hx). exists (y :: l1), l2. cbn [List.filter app]. by rewrite Ep.
Qed.

Lemma fmap_split {A B} (f : A → B) l a x b : f <$> l = a ++ x :: b → ∃ l1 y l2, l = l1 ++ y :: l2 ∧ f <$> l1 = a ∧ f y = x ∧ f <$> l2 = b.
Proof.
  intros E. apply fmap_app_inv in E as (l1 & l2 & E1 & E2 & ->). destruct l2 as [|y l2]; [done|]. injection E2 as -> ->.
  by exists l1, y, l2.
Qed.

Section Serve.
Context `{EventBytes} `{Payloads} {I L : Type} `{SequenceIndexLaws I} `{!EventLog L} `{!LogModel L} `{!EventLogLaws L}.
Implicit Types r : EventStoreRouter (I:=I) (L:=L).

(** The reply to a request that arrives at a responder whose stores all answer. *)
Definition serve_page (m : Responder) r (peer : Z) (fetch : FetchEventsSince) : result EventBatch SyncError :=
  match handle_incoming_request m peer (Some fetch) true with
  | (Refused e, _) => Err e
  | (Queried q, m) =>
      match route_query r (sq_id q) {[sq_aggregate q := sq_since q]} false with
      | (Fanned a subs, _) =>
          match (aggregator_run a (omap (answer_ts r true None (Some (sq_limit q)) (Some (sq_max_bytes q))) subs)).1 with
          | [(id, resp)] => match (handle_storage_response m id resp).1 with Some (_, reply) => reply | None => Err Failed end
          | _ => Err Failed
          end
      | _ => Err Failed
      end
  end.

(** ** The cut of a reply *)

Section Cut.
Variables (es : list LogEvent) (agg : Z).
Hypothesis Hwf : log_wf es.

Lemma history_ts_bound since x : x ∈ history es since → 0 <= ev_ts x.2 <= U128_MAX.
Proof.
  destruct x as [seq e]. intros (_ & He & _)%elem_of_history. destruct Hwf as (_ & Ht & _). rewrite Forall_forall in Ht.
  assert (ts_ok (ev_ts e)) as Hts by (eapply Ht, list_elem_of_lookup_2, He). unfold ts_ok, U128_MAX in *. cbn. lia.
Qed.

(** After an event with later ones behind it, the next cursor exists and names them. *)
Lemma next_cursor since l x later : history es since = l ++ x :: later → later ≠ [] →
  next_ts (ev_ts x.2) = Some (ev_ts x.2 + 1) ∧ history es (ev_ts x.2 + 1) = later ∧ ts_ok (ev_ts x.2 + 1) ∧ since <= ev_ts x.2.
Proof.
  intros E Hne. destruct later as [|y later]; [done|].
  assert (since <= ev_ts x.2) as Hsince.
  { assert (x ∈ history es since) as Hin by (rewrite E, elem_of_app; right; left). destruct x as [sx ex]. by apply elem_of_history in Hin as (_ & _ & ?). }
  pose proof (history_after es since l x (y :: later) Hwf E) as Ha.
  assert (y ∈ history es (ev_ts x.2 + 1)) as Hy by (rewrite Ha; left). pose proof (history_ts_bound _ y Hy) as Hb.
  destruct y as [sy ey]. apply elem_of_history in Hy as (_ & _ & Hlt). cbn [snd] in *.
  assert (x ∈ history es since) as Hx by (rewrite E, elem_of_app; right; left). pose proof (history_ts_bound _ x Hx) as Hbx.
  split; [unfold next_ts; rewrite (proj2 (Z.ltb_lt _ _)); [done|lia]|]. split; [done|]. split; [|done]. unfold ts_ok, U128_MAX in *. lia.
Qed.

Lemma last_event_ts_snoc before l e : last_event_ts before (l ++ [e]) = Some (ev_ts e).
Proof. unfold last_event_ts. by rewrite last_snoc. Qed.

Lemma last_own before page rest since : history es since = page ++ rest → ∀ ts, last_event_ts None ((own false agg page).*2) = Some ts →
  ∃ ts', last_ts before page = Some ts' ∧ ts <= ts'.
Proof.
  intros E ts Hlast. unfold last_event_ts in Hlast. destruct (last ((own false agg page).*2)) as [e|] eqn:El; [|done]. injection Hlast as <-.
  assert (∃ x, x ∈ page ∧ x.2 = e) as ([seq e'] & Hx & Ee).
  { apply last_Some in El as [l' El]. destruct (fmap_split _ _ _ _ _ El) as (l1 & y & l2 & Eo & _ & Ey & _). exists y. split; [|done].
    assert (y ∈ own false agg page) as Hy by (rewrite Eo, elem_of_app; right; left). unfold own in Hy.
    by rewrite list_elem_of_In, filter_In, <- list_elem_of_In in Hy; destruct Hy. }
  cbn in Ee. subst e'. unfold last_ts. destruct (last page) as [z|] eqn:Ez; [|by apply last_None in Ez as ->; apply not_elem_of_nil in Hx].
  eexists. split; [done|]. apply last_Some in Ez as [l' ->]. pose proof (history_sorted es since) as Hs. rewrite E in Hs.
  apply StronglySorted_app in Hs as (_ & Hs & _). apply StronglySorted_app in Hs as (Hs & _ & _).
  apply elem_of_app in Hx as [Hx|Hx]; [|apply list_elem_of_singleton in Hx; subst z; cbn; lia].
  specialize (Hs (seq, e) z Hx (list_elem_of_here _ _)). unfold seq_ts_le in Hs. cbn in *. lia.
Qed.

(** What a reply built from a page of the history carries, and where the next request starts. *)
Lemma build_batch_spec since fetch page rest observed : 1 <= fetch_limit fetch → fetch_aggregate fetch = agg →
  history es since = page ++ rest → (history es since ≠ [] → page ≠ []) →
  match build_sync_batch ((own false agg page).*2) (mkProgress (last_ts None page) (bool_decide (rest = []))) observed fetch with
  | Err e => e = Failed ∧ ∃ x, x ∈ es ∧ is_forwardable_event x = true ∧ oversized x
  | Ok batch => ∃ taken later, history es since = taken ++ later ∧ batch_events batch = wanted agg taken ∧ batch_aggregate batch = agg ∧
      batch_observed_from batch = observed ∧ Z.of_nat (length (batch_events batch)) <= effective_sync_limit (fetch_limit fetch) ∧
      match batch_next batch with
      | CursorDone => later = []
      | CursorNext c => taken ≠ [] ∧ history es c = later ∧ ts_ok c ∧ since < c
      end
  end.
Proof.
  intros Hlim Hagg Hh Hne. unfold build_sync_batch. destruct (Z.eqb_spec (fetch_limit fetch) 0) as [|_]; [lia|].
  set (ps := (own false agg page).*2). assert (0 < effective_sync_limit (fetch_limit fetch)) as Hpos by (unfold effective_sync_limit, MAX_SYNC_BATCH_SIZE; lia).
  pose proof (batch_loop_spec (effective_sync_limit (fetch_limit fetch)) ps [] 0 0 None Hpos ltac:(done) ltac:(lia)) as Hloop.
  destruct (batch_loop _ ps _ _ _ _) as [[[evs consumed] cts]|err].
  2:{ destruct Hloop as (-> & x & Hx & Hf & Ho). split; [done|]. exists x. split; [|done]. unfold ps in Hx. apply list_elem_of_fmap in Hx as ([seq e] & -> & Hx).
      unfold own in Hx. rewrite list_elem_of_In, filter_In, <- list_elem_of_In in Hx. destruct Hx as [Hx _].
      assert ((seq, e) ∈ history es since) as (_ & He & _)%elem_of_history by (rewrite Hh; apply elem_of_app; by left). by eapply list_elem_of_lookup_2. }
  destruct Hloop as (a & b & Eps & -> & -> & -> & Hlen & Hb). cbn [app] in *. cbn [exhausted last_scanned_ts].
  destruct b as [|y b].
  - rewrite app_nil_r in Eps. subst a. rewrite (proj2 (Z.eqb_eq _ _)) by lia.
    assert (wanted agg page = List.filter is_forwardable_event ps) as Ew by apply wanted_own.
    case_bool_decide as Er.
    { exists page, rest. by repeat split. }
    destruct page as [|x page0] using rev_ind; [exfalso; apply Hne; [by rewrite Hh|done]|]. clear IHpage0.
    assert (option_max (last_event_ts None ps) (last_ts None (page0 ++ [x])) = Some (ev_ts x.2)) as ->.
    { unfold last_ts at 1. rewrite last_snoc. destruct (last_event_ts None ps) as [ts|] eqn:Els; [|done]. cbn.
      destruct (last_own None _ _ _ Hh ts Els) as (ts' & El & Hle). unfold last_ts in El. rewrite last_snoc in El. injection El as <-. f_equal. lia. }
    rewrite <- (assoc (++)) in Hh. cbn [app] in Hh. destruct (next_cursor since page0 x rest Hh Er) as (-> & Hc & Hts & Hs). cbn [fmap option_fmap option_map].
    exists (page0 ++ [x]), rest. rewrite <- (assoc (++)). cbn [app batch_events batch_next batch_aggregate batch_observed_from].
    split; [done|]. split; [done|]. split; [done|]. split; [done|]. split; [done|]. split; [by destruct page0|]. split; [done|]. split; [done|lia].
  - rewrite (proj2 (Z.eqb_neq _ _)) by (rewrite Eps, length_app; cbn; lia).
    destruct a as [|x a] using rev_ind; [by destruct (Hb ltac:(done))|]. clear IHa. rewrite last_event_ts_snoc.
    rewrite <- (assoc (++)) in Eps. cbn [app] in Eps. destruct (fmap_split _ _ _ _ _ Eps) as (l1 & z & l2 & Eo & E1 & Ez & E2).
    destruct (filter_split _ _ _ _ _ Eo) as (p1 & p2 & -> & F1 & F2 & Hz).
    assert (p2 ++ rest ≠ []) as Hlater by (intros Ep; apply app_eq_nil in Ep as [-> _]; cbn in F2; by subst l2).
    rewrite <- (assoc (++)) in Hh. cbn [app] in Hh. destruct (next_cursor since p1 z (p2 ++ rest) Hh Hlater) as (Hn & Hc & Hts & Hs).
    rewrite <- Ez, Hn. cbn [fmap option_fmap option_map]. exists (p1 ++ [z]), (p2 ++ rest). rewrite <- (assoc (++)).
    cbn [app batch_events batch_next batch_aggregate batch_observed_from]. split; [done|]. split.
    { rewrite wanted_own. f_equal. unfold own. rewrite List.filter_app. cbn [List.filter]. rewrite Hz, F1, fmap_app. cbn [fmap list_fmap]. by rewrite <- E1. }
    split; [done|]. split; [done|]. split; [by rewrite Ez|]. split; [by destruct p1|]. split; [done|]. split; [done|lia].
Qed.
End Cut.
(** ** The path of a request *)

Lemma aggregator_single id keep agg from sub resp :
  (aggregator_run (fan (aggregator_new id keep) [(agg, from, sub)]) [(sub, resp)]).1 =
    [(id, match q_result resp with
          | Ok events => mkResponse (Ok (own keep agg events)) (q_log_head resp) (q_history resp)
          | Err e => mkResponse (Err e) None None
          end)].
Proof.
  cbn [aggregator_run]. unfold aggregator_handle. cbn [fan foldl add_pending aggregator_new pending query_count keep_misrouted collected_events parent_id].
  rewrite insert_empty, lookup_singleton_eq, delete_singleton_eq. change (0 + 1) with 1. unfold single_store_history. rewrite Z.eqb_refl.
  destruct (q_result resp); [|done]. rewrite decide_True by done. cbn [fst sent app]. unfold own, quarantine_misrouted_events. cbn [fst]. by destruct keep.
Qed.

(** A responder that has room for a request of the peer about the aggregate. *)
Definition admits (m : Responder) (peer agg : Z) : Prop :=
  agg ≠ 0 ∧ allows_chain (network m) agg = true ∧ request_capacity_error m peer = false.

(** The forwardable events that a log holds for the aggregate pass the network's checks. *)
Definition policy_clean (p : NetworkPolicy) (agg : Z) (es : list LogEvent) : Prop :=
  ∀ e, e ∈ es → ev_aggregate e = agg → is_forwardable_event e = true → validate_event p e = Ok tt.

Lemma answer_ts_history r logs agg es since id limit max : router_rep r logs → logs !! agg = Some es → ts_ok since → 0 <= limit <= USIZE_MAX →
  ∃ page rest, history es since = page ++ rest ∧ (1 <= limit → history es since ≠ [] → page ≠ []) ∧
    answer_ts r true None (Some limit) (Some max) (agg, since, id) =
      Some (id, mkResponse (Ok page) None (Some (mkProgress (last_ts None page) (bool_decide (rest = []))))).
Proof.
  intros [Hdom Hrep] Ees Hts Hl. unfold answer_ts. destruct (proj2 (Hdom agg)) as [a Ea]; [by eexists|]. rewrite Ea.
  destruct (Hrep agg a es Ea Ees) as [-> Hs]. unfold handle_query_ts.
  destruct (history_page_spec (store a) es since limit max Hs Hts Hl) as (page & rest & Eh & Eq & _ & Hne).
  exists page, rest. split; [done|]. split; [done|]. change (default USIZE_MAX (Some limit)) with limit. change (default USIZE_MAX (Some max)) with max. by rewrite Eq.
Qed.

Lemma serve_page_spec m r logs peer agg es since limit : router_rep r logs → logs !! agg = Some es → admits m peer agg → policy_clean (network m) agg es →
  ts_ok since → 1 <= limit →
  ∃ page rest, history es since = page ++ rest ∧ (history es since ≠ [] → page ≠ []) ∧
    serve_page m r peer (mkFetch agg since limit) =
      build_sync_batch ((own false agg page).*2) (mkProgress (last_ts None page) (bool_decide (rest = []))) (live_since (live_history m)) (mkFetch agg since limit).
Proof.
  intros Hr Ees (Hagg & Hallow & Hcap) Hpol Hts Hlim. unfold serve_page, handle_incoming_request. cbn [fetch_limit fetch_aggregate fetch_since].
  rewrite (proj2 (Z.eqb_neq limit 0)) by lia. unfold to_chain_id. rewrite (proj2 (Z.eqb_neq agg 0)) by done. rewrite Hallow, Hcap. cbn [negb sq_id sq_aggregate sq_since sq_limit sq_max_bytes].
  destruct (route_query_fans r logs (request_id m) {[agg := since]} false Hr) as [r' ->]; [apply map_non_empty_singleton| |].
  { intros a from [-> ->]%lookup_singleton_Some. by eexists. }
  rewrite map_to_list_singleton. cbn [number_queries omap list_omap].
  destruct (answer_ts_history r logs agg es since (next_id r) (sync_scan_limit limit) MAX_SYNC_SCAN_BYTES Hr Ees Hts) as (page & rest & Eh & Hne & ->).
  { unfold sync_scan_limit, effective_sync_limit, MAX_SYNC_SCAN_EVENTS, MAX_SYNC_BATCH_SIZE, SYNC_SCAN_MULTIPLIER, USIZE_MAX. lia. }
  exists page, rest. split; [done|]. split.
  { apply Hne. unfold sync_scan_limit, effective_sync_limit, MAX_SYNC_SCAN_EVENTS, MAX_SYNC_BATCH_SIZE, SYNC_SCAN_MULTIPLIER. lia. }
  rewrite aggregator_single. cbn [q_result q_log_head q_history]. unfold handle_storage_response. cbn [requests]. rewrite lookup_insert_eq.
  cbn [q_result q_history fst p_fetch p_observed_from live_history network]. rewrite (bool_decide_true (live_since (live_history m) = live_since (live_history m))) by done.
  destruct (existsb _ _) eqn:Ex; [|done]. exfalso. apply existsb_exists in Ex as (e & He & Hb). apply andb_prop in Hb as [Hf Hv].
  rewrite <- list_elem_of_In in He. apply list_elem_of_fmap in He as ([seq e'] & -> & Hin). unfold own in Hin.
  rewrite list_elem_of_In, filter_In, <- list_elem_of_In in Hin. destruct Hin as [Hin Ha%Z.eqb_eq]. cbn [snd] in *.
  assert ((seq, e') ∈ history es since) as (_ & He & _)%elem_of_history by (rewrite Eh; apply elem_of_app; by left).
  by rewrite (Hpol e') in Hv by (done || by eapply list_elem_of_lookup_2).
Qed.

(** ** The fetch *)

(** A peer that answers every request from its store. *)
Definition honest_peer (time : nat → bool) (m : nat → Responder) r (peer : Z) : Peer :=
  mkPeer time (λ round fetch, match serve_page (m round) r peer fetch with Ok batch => Page batch | Err _ => NoReply end).

Section Fetch.
Variables (time : nat → bool) (m : nat → Responder) (r : EventStoreRouter (I:=I) (L:=L)) (logs : gmap Z (list LogEvent)) (peer agg : Z) (es : list LogEvent)
  (live : LiveState).
Hypothesis Hr : router_rep r logs.
Hypothesis Hes : logs !! agg = Some es.
Hypothesis Hadm : ∀ round, admits (m round) peer agg ∧ policy_clean (network (m round)) agg es ∧ live_history (m round) = live.

Lemma honest_wf : log_wf es.
Proof. destruct Hr as [Hdom Hrep]. destruct (proj2 (Hdom agg)) as [a Ea]; [by eexists|]. by destruct (Hrep agg a es Ea Hes) as [_ (Hw & _)]. Qed.

(** The state of the loop before a page: the events up to the cursor. *)
Definition fetched (since : Z) (s : FetchState) : Prop :=
  ∃ taken, history es since = taken ++ history es (fs_cursor s) ∧ all_events s = wanted agg taken ∧ ts_ok (fs_cursor s) ∧
    (first_page s = false → fs_observed s = live_since live).

(** The page that the responder serves at a cursor. *)
Lemma served_batch round cursor size : ts_ok cursor → 1 <= size <= MAX_SYNC_BATCH_SIZE →
  match serve_page (m round) r peer (mkFetch agg cursor size) with
  | Err _ => ∃ x, x ∈ es ∧ is_forwardable_event x = true ∧ oversized x
  | Ok batch => ∃ taken later, history es cursor = taken ++ later ∧ batch_events batch = wanted agg taken ∧ batch_aggregate batch = agg ∧
      batch_observed_from batch = live_since live ∧ Z.of_nat (length (batch_events batch)) <= size ∧
      match batch_next batch with
      | CursorDone => later = []
      | CursorNext c => taken ≠ [] ∧ history es c = later ∧ ts_ok c ∧ cursor < c
      end
  end.
Proof.
  intros Hts Hsize. destruct (Hadm round) as (Ha & Hp & Hlive).
  destruct (serve_page_spec (m round) r logs peer agg es cursor size Hr Hes Ha Hp Hts ltac:(lia)) as (page & rest & Epage & Hne & ->).
  rewrite Hlive. pose proof (build_batch_spec es agg honest_wf cursor (mkFetch agg cursor size) page rest (live_since live) (proj1 Hsize) eq_refl Epage Hne) as Hbuild.
  assert (effective_sync_limit size = size) as Heff by (unfold effective_sync_limit, MAX_SYNC_BATCH_SIZE in *; lia). cbn [fetch_limit] in Hbuild. rewrite Heff in Hbuild.
  destruct (build_sync_batch _ _ _ _) as [batch|e]; [done|by destruct Hbuild].
Qed.

(** What the round makes of the page: the budget refuses it, or the loop goes on. *)
Lemma honest_accept since s b size batch taken later : budget_ok b → fetched since s →
  history es (fs_cursor s) = taken ++ later → batch_events batch = wanted agg taken → batch_aggregate batch = agg →
  batch_observed_from batch = live_since live → Z.of_nat (length (batch_events batch)) <= size →
  match batch_next batch with CursorDone => later = [] | CursorNext c => taken ≠ [] ∧ history es c = later ∧ ts_ok c ∧ fs_cursor s < c end →
  match record_page b (Z.of_nat (length (batch_events batch))) (batch_bytes (batch_events batch)) with
  | (Err e, b') => accept_page agg size s b batch = (Err e, b') ∧ (e = CountOverflow ∨ budget_exhausted b' = true)
  | (Ok _, b') => ∃ s' stop, accept_page agg size s b batch = (Ok (s', stop), b') ∧
      if stop : bool then all_events s' = wanted agg (history es since) ∧ fs_observed s' = live_since live
      else fetched since s' ∧ taken ≠ [] ∧ history es (fs_cursor s') = later
  end.
Proof.
  intros Hb (before & Eh & Eall & Hts & Hobs) Etk Eev Eagg Eobs Hlen Hnext. unfold accept_page. rewrite Eagg, Z.eqb_refl. cbn [negb].
  rewrite (proj2 (Z.ltb_ge size _)) by lia.
  pose proof (record_page_spec b (Z.of_nat (length (batch_events batch))) (batch_bytes (batch_events batch)) Hb ltac:(lia) (batch_bytes_nonneg _)) as Hrec.
  destruct (record_page b _ _) as [[[]|e] b'].
  2:{ split; [done|]. destruct Hrec as (_ & _ & _ & _ & _ & [?|[? _]]); auto. }
  rewrite Eobs.
  assert (negb (first_page s) && bool_decide (is_Some (fs_observed s)) && negb (bool_decide (live_since live = fs_observed s)) = false) as ->.
  { destruct (first_page s) eqn:Ef; [done|]. rewrite (Hobs eq_refl), (bool_decide_true (live_since live = live_since live)) by done. by rewrite andb_false_r. }
  assert ((if first_page s then live_since live else fs_observed s) = live_since live) as -> by (destruct (first_page s) eqn:Ef; auto).
  destruct (batch_next batch) as [|c].
  - subst later. rewrite app_nil_r in Etk. eexists _, true. split; [done|]. split; [|done]. cbn [all_events]. by rewrite Eh, wanted_app, Etk, Eall, Eev.
  - destruct Hnext as (Hne & Ec & Hc & Hlt). rewrite (proj2 (Z.ltb_lt _ _)) by done. cbn [negb]. eexists _, false. split; [done|]. split; [|done].
    exists (before ++ taken). cbn [fs_cursor all_events fs_observed first_page]. split; [by rewrite <- (assoc (++)), Ec, <- Etk|].
    split; [by rewrite wanted_app, Eall, Eev|]. by split.
Qed.

Lemma honest_loop fuel since : ∀ round s b size, budget_ok b → fetched since s → 1 <= size <= MAX_SYNC_BATCH_SIZE → max_pages b - pages b < Z.of_nat fuel →
  match fetch_loop fuel (honest_peer time m r peer) round agg size s b with
  | Done (Ok h, b') => ph_events h = wanted agg (history es since) ∧ ph_observed_from h = live_since live
  | Done (Err e, b') => e = CountOverflow ∨ budget_exhausted b' = true ∨ ∃ x, x ∈ es ∧ is_forwardable_event x = true ∧ oversized x
  | _ => False
  end.
Proof.
  induction fuel as [|fuel IH]; intros round s b size Hb Hf Hsize Hfuel; [unfold budget_ok in Hb; lia|]. cbn [fetch_loop honest_peer time_left reply].
  destruct (negb (time round)); [auto|]. pose proof (served_batch round (fs_cursor s) size ltac:(by destruct Hf as (? & _ & _ & ? & _)) Hsize) as Hserved.
  destruct (serve_page _ _ _ _) as [batch|e]; [|auto]. destruct Hserved as (taken & later & Etk & Eev & Eagg & Eobs & Hlen & Hnext).
  pose proof (honest_accept since s b size batch taken later Hb Hf Etk Eev Eagg Eobs Hlen Hnext) as Hacc.
  pose proof (record_page_spec b (Z.of_nat (length (batch_events batch))) (batch_bytes (batch_events batch)) Hb ltac:(lia) (batch_bytes_nonneg _)) as Hrec.
  destruct (record_page b _ _) as [[[]|e] b']; [|destruct Hacc as [-> [?|?]]; auto].
  destruct Hacc as (s' & stop & -> & Hs'). destruct stop; [done|]. destruct Hrec as (Hb' & (Hl & _) & Hp & _). apply IH; [done|apply Hs'|done|lia].
Qed.

(** C17: A fetch from a peer that serves its store returns its history.  The responder has room for the
    requests and its stores answer; then, unless the budget of pages, events, bytes or time runs
    out, or the store holds a forwardable event too large for any reply, the fetch returns
    exactly the forwardable events that the store holds for the aggregate from the requested
    time on, in the order of time, whichever way the storage pages, the reply limits and the
    events of other aggregates cut it, and it carries the responder's live-history time. *)
Theorem honest_sync_complete since batch_size b : budget_ok b → ts_ok since → 1 <= batch_size →
  match fetch_all_batched_events_with_budget (honest_peer time m r peer) agg since batch_size b with
  | Done (Ok h, _) => ph_events h = wanted agg (history es since) ∧ ph_observed_from h = live_since live
  | Done (Err e, b') => e = CountOverflow ∨ budget_exhausted b' = true ∨ ∃ x, x ∈ es ∧ is_forwardable_event x = true ∧ oversized x
  | _ => False
  end.
Proof.
  intros Hb Hts Hsize. unfold fetch_all_batched_events_with_budget. rewrite (proj2 (Z.ltb_lt 0 batch_size)) by lia. cbn [negb].
  apply (honest_loop _ since); [done| | |].
  - exists []. split; [done|]. split; [done|]. by split.
  - unfold effective_sync_limit, MAX_SYNC_BATCH_SIZE. lia.
  - unfold fetch_fuel, budget_ok in *. lia.
Qed.

(** A budget that is enough for the rest of the history, when no page is larger than [c] bytes. *)
Definition enough (c cursor : Z) (b : SyncFetchBudget) : Prop :=
  let n := Z.of_nat (length (history es cursor)) in
  n + 1 <= max_pages b - pages b ∧ Z.of_nat (length (wanted agg (history es cursor))) <= max_events b - events b ∧ (n + 1) * c <= max_bytes b - bytes b ∧
  max_pages b <= USIZE_MAX ∧ max_events b <= USIZE_MAX ∧ max_bytes b <= USIZE_MAX.

Lemma record_page_enough b n size : pages b + 1 <= max_pages b → events b + n <= max_events b → bytes b + size <= max_bytes b →
  max_pages b <= USIZE_MAX → max_events b <= USIZE_MAX → max_bytes b <= USIZE_MAX → ∃ b', record_page b n size = (Ok tt, b').
Proof.
  intros. unfold record_page, checked_add. rewrite !(proj2 (Z.leb_le _ _)) by lia. rewrite !(proj2 (Z.ltb_ge _ _)) by lia. by eexists.
Qed.

Lemma wanted_in cursor e : e ∈ wanted agg (history es cursor) → e ∈ es.
Proof.
  intros ([seq e'] & -> & Hin)%list_elem_of_fmap. rewrite list_elem_of_In, filter_In, <- list_elem_of_In in Hin. destruct Hin as [Hin _].
  apply elem_of_history in Hin as (_ & He & _). by eapply list_elem_of_lookup_2.
Qed.

Lemma honest_loop_succeeds fuel since c : 0 <= c → (∀ l, (∀ e, e ∈ l → e ∈ es) → Z.of_nat (length l) <= MAX_SYNC_BATCH_SIZE → batch_bytes l <= c) →
  (∀ round, time round = true) → (∀ x, x ∈ es → is_forwardable_event x = true → unsequenced_bytes x <= sync_reply_event_budget) →
  ∀ round s b size, budget_ok b → fetched since s → 1 <= size <= MAX_SYNC_BATCH_SIZE → max_pages b - pages b < Z.of_nat fuel → enough c (fs_cursor s) b →
  ∃ b', fetch_loop fuel (honest_peer time m r peer) round agg size s b = Done (Ok (mkPeerHistory (wanted agg (history es since)) (live_since live)), b').
Proof.
  intros Hc Hbytes Htime Hfit. induction fuel as [|fuel IH]; intros round s b size Hb Hf Hsize Hfuel Hen; [unfold budget_ok in Hb; lia|].
  cbn [fetch_loop honest_peer time_left reply]. rewrite Htime. cbn [negb].
  pose proof (served_batch round (fs_cursor s) size ltac:(by destruct Hf as (? & _ & _ & ? & _)) Hsize) as Hserved.
  destruct (serve_page _ _ _ _) as [batch|e]; [|destruct Hserved as (x & Hx & Hfw & Ho); specialize (Hfit x Hx Hfw); unfold oversized in Ho; lia].
  destruct Hserved as (taken & later & Etk & Eev & Eagg & Eobs & Hlen & Hnext).
  pose proof (honest_accept since s b size batch taken later Hb Hf Etk Eev Eagg Eobs Hlen Hnext) as Hacc.
  destruct Hen as (Hp & He & Hby & Hu1 & Hu2 & Hu3). rewrite Etk in Hp, He, Hby. rewrite wanted_app, length_app, <- Eev in He. rewrite length_app in Hp, Hby.
  assert (0 <= batch_bytes (batch_events batch) <= c) as Hpage.
  { split; [apply batch_bytes_nonneg|]. apply Hbytes; [|lia]. intros e Hin. apply (wanted_in (fs_cursor s)). rewrite Etk, wanted_app, <- Eev. apply elem_of_app. by left. }
  assert (0 <= Z.of_nat (length taken + length later) * c) by nia.
  pose proof (record_page_spec b (Z.of_nat (length (batch_events batch))) (batch_bytes (batch_events batch)) Hb ltac:(lia) (batch_bytes_nonneg _)) as Hrec.
  destruct (record_page_enough b (Z.of_nat (length (batch_events batch))) (batch_bytes (batch_events batch))) as [b' E]; try nia.
  rewrite E in Hacc, Hrec. destruct Hacc as (s' & stop & -> & Hs'). destruct Hrec as (Hb' & (Hl1 & Hl2 & Hl3) & Ep & Ee & Eb & _).
  destruct stop; [destruct Hs' as [-> ->]; by eexists|]. destruct Hs' as (Hf' & Hne & Ecur). apply IH; [done|done|done|lia|].
  unfold enough. rewrite Ecur, Hl1, Hl2, Hl3, Ep, Ee, Eb. destruct taken as [|t taken]; [done|]. cbn [length] in *. repeat split; nia.
Qed.

(** With budget and time enough, and no event too large to send, such a fetch does return: the
    pages it takes are at most one per record of the history, and one more. *)
Theorem honest_sync_succeeds since batch_size b c : budget_ok b → ts_ok since → 1 <= batch_size → 0 <= c →
  (∀ l, (∀ e, e ∈ l → e ∈ es) → Z.of_nat (length l) <= MAX_SYNC_BATCH_SIZE → batch_bytes l <= c) →
  (∀ round, time round = true) → (∀ x, x ∈ es → is_forwardable_event x = true → unsequenced_bytes x <= sync_reply_event_budget) →
  enough c since b →
  ∃ b', fetch_all_batched_events_with_budget (honest_peer time m r peer) agg since batch_size b =
    Done (Ok (mkPeerHistory (wanted agg (history es since)) (live_since live)), b').
Proof.
  intros Hb Hts Hsize Hc Hbytes Htime Hfit Hen. unfold fetch_all_batched_events_with_budget. rewrite (proj2 (Z.ltb_lt 0 batch_size)) by lia. cbn [negb].
  apply (honest_loop_succeeds _ since c); try done.
  - exists []. split; [done|]. split; [done|]. by split.
  - unfold effective_sync_limit, MAX_SYNC_BATCH_SIZE. lia.
  - unfold fetch_fuel, budget_ok in *. lia.
Qed.
End Fetch.
End Serve.
