(* ===== verification/NetFetch.v ===== *)
(** * Historical sync: merging the histories of several peers

    Model of crates/net/src/network_sync/effects/fetch_history.rs and of the timestamp claims of
    crates/events/src/interfold_event/sync_start.rs: what a peer's history must fit, the merge by
    event identity, the choice of sources with their attempts and time, the further peers, the
    node's own stored timestamps, and the fetch of all aggregates with its recovery rounds.

    A source is what the environment decides about one asked peer: the time that is left when
    its turn comes, how it behaves under the attempts and the time it is given, and the latest
    admissible time when its history is checked. *)

From S2P Require Import Prelude Events Orchestration Hamt KvStore EventLog EventStore EventRouter NetSync.
Local Open Scope Z_scope.

(** ** Merging *)

Record MergedEvents := mkMerged { by_id : gmap B256 LogEvent; by_ts : gmap Z B256 }.

Definition merged_empty : MergedEvents := mkMerged ∅ ∅.

(** The insertion at the end of [merge]. *)
Definition merge_insert (m : MergedEvents) (event : LogEvent) : MergedEvents :=
  let by_ts' := match by_id m !! ev_id event with Some replaced => delete (ev_ts replaced) (by_ts m) | None => by_ts m end in
  mkMerged (<[ev_id event := event]> (by_id m)) (<[ev_ts event := ev_id event]> by_ts').

(** The check of the timestamp before it. *)
Definition merge_place (m : MergedEvents) (event : LogEvent) : result MergedEvents SyncError :=
  match by_ts m !! ev_ts event with
  | Some other => if bool_decide (other = ev_id event) then Ok (merge_insert m event) else Err SharedTimestamp
  | None => Ok (merge_insert m event)
  end.

Definition merge (m : MergedEvents) (event : LogEvent) : result MergedEvents SyncError :=
  match by_id m !! ev_id event with
  | Some kept =>
      if negb (bool_decide (ev_data kept = ev_data event)) then Err DifferentPayload
      else if ev_ts kept <=? ev_ts event then Ok m else merge_place m event
  | None => merge_place m event
  end.

(** The events of a source, one after the other; the first that fails ends the merge. *)
Fixpoint merge_all (m : MergedEvents) (events : list LogEvent) : result MergedEvents SyncError :=
  match events with
  | [] => Ok m
  | e :: rest => match merge m e with Ok m => merge_all m rest | Err err => Err err end
  end.

(** ** Claims on timestamps *)

Record TimestampClaim := mkClaim { claim_id : B256; claim_payload : B256 }.

Definition HISTORY_SOURCES : Z := 2.
Definition MAX_HISTORY_PEERS : Z := 4.
Definition SOURCE_RESERVE : Z := 60.
Definition MIN_SOURCE_TIME : Z := 30.
Definition PROBE_TIME : Z := 30.
Definition STORED_PAGE_EVENTS : Z := 1000.
Definition STORED_PAGE_BYTES : Z := 8 * 1024 * 1024.
Definition MAX_STORED_CLAIMS : Z := 100000.
Definition SYNC_FETCH_MAX_RETRIES : Z := 3.
Definition SYNC_RECOVERY_MAX_ATTEMPTS : nat := 3.

(** Whether the later peers can still supply the sources that the node lacks. *)
Definition replaceable (later sources : Z) : bool := Z.max 0 (HISTORY_SOURCES - sources) <=? later.

Definition attempts_per_page (later sources : Z) : Z := if replaceable later sources then 1 else SYNC_FETCH_MAX_RETRIES.

Definition source_time (later sources remaining : Z) : option Z :=
  if replaceable later sources then
    Some (Z.max (Z.max 0 (remaining - SOURCE_RESERVE * Z.max 0 (HISTORY_SOURCES - sources))) MIN_SOURCE_TIME)
  else None.

(** One asked peer. *)
Record Source := mkSource { src_remaining : option Z; src_peer : Z → option Z → Peer; src_latest : result Z SyncError }.

Record AggregateHistory := mkHistory {
  h_aggregate : Z; h_since : Z; h_stored : gmap Z TimestampClaim; h_merged : MergedEvents; vouched : bool; further : list Source }.

Definition history_new (aggregate_id since : Z) (stored : gmap Z TimestampClaim) : AggregateHistory :=
  mkHistory aggregate_id since stored merged_empty false [].

(** Events in the order of time. *)
Definition event_ts_le (a b : LogEvent) : Prop := ev_ts a <= ev_ts b.

Global Instance event_ts_le_dec a b : Decision (event_ts_le a b).
Proof. unfold event_ts_le. apply _. Defined.

Definition into_events (h : AggregateHistory) : list LogEvent := merge_sort event_ts_le ((map_to_list (by_id (h_merged h))).*2).

Section Fetch.
Context `{EventBytes} `{Payloads}.

Definition claim_of (e : LogEvent) : TimestampClaim := mkClaim (ev_id e) (payload_digest (ev_data e)).

Definition admits_claim (c : TimestampClaim) (e : LogEvent) : bool :=
  bool_decide (claim_id c = ev_id e) && bool_decide (claim_payload c = payload_digest (ev_data e)).

(** ** Validation *)

Fixpoint validate_loop (h : AggregateHistory) (network : NetworkPolicy) (latest_ts : Z) (events : list LogEvent) (timestamps : gmap Z B256)
    : result () SyncError :=
  match events with
  | [] => Ok tt
  | event :: rest =>
      if ev_ts event <? h_since h then Err BeforeRange
      else
        let other := default (ev_id event) (timestamps !! ev_ts event) in
        let timestamps := <[ev_ts event := other]> timestamps in
        if negb (bool_decide (other = ev_id event)) then Err SharedTimestamp
        else if match h_stored h !! ev_ts event with Some claim => negb (admits_claim claim event) | None => false end then Err TakenTimestamp
        else if latest_ts <? ev_ts event then Err BeyondClock
        else if negb (bool_decide (ev_id event = payload_id (ev_data event))) then Err Mislabeled
        else if negb (ev_aggregate event =? h_aggregate h) then Err WrongAggregate
        else if negb (is_forwardable_event event) then Err NotForwardable
        else match validate_event network event with
             | Err e => Err e
             | Ok _ => validate_loop h network latest_ts rest timestamps
             end
  end.

Definition validate_historical_events (h : AggregateHistory) (events : list LogEvent) (network : NetworkPolicy) (latest_ts : Z)
    : result (list LogEvent) SyncError :=
  match validate_loop h network latest_ts events ∅ with
  | Err e => Err e
  | Ok _ => Ok (with_source Net <$> events)
  end.

Definition fetch_validated_history (peer : Peer) (latest : result Z SyncError) (h : AggregateHistory) (b : SyncFetchBudget) (network : NetworkPolicy)
    : Outcome (result (list LogEvent * option Z) SyncError * SyncFetchBudget) :=
  let! (fetched, b) := fetch_all_batched_events_with_budget peer (h_aggregate h) (h_since h) 100 b in
  match fetched with
  | Err e => Done (Err e, b)
  | Ok fetched =>
      match latest with
      | Err e => Done (Err e, b)
      | Ok latest_ts =>
          match validate_historical_events h (ph_events fetched) network latest_ts with
          | Err e => Done (Err e, b)
          | Ok events => Done (Ok (events, ph_observed_from fetched), b)
          end
      end
  end.

(** ** The sources of an aggregate *)

(** [observed_from.is_some_and(|observed| observed <= since)] *)
Definition vouches (observed_from : option Z) (since : Z) : bool := match observed_from with Some observed => observed <=? since | None => false end.

Definition add_source (h : AggregateHistory) (m : MergedEvents) (observed_from : option Z) : AggregateHistory :=
  mkHistory (h_aggregate h) (h_since h) (h_stored h) m (vouched h || vouches observed_from (h_since h)) (further h).

(** The loop over the peers: the history with the number of sources, the peers not asked and the
    last error. *)
Fixpoint sources_loop (peers : list Source) (required : Z) (h : AggregateHistory) (sources : Z) (last_error : option SyncError)
    (b : SyncFetchBudget) (network : NetworkPolicy)
    : Outcome (result (AggregateHistory * Z * list Source * option SyncError) SyncError * SyncFetchBudget) :=
  match peers with
  | [] => Done (Ok (h, sources, [], last_error), b)
  | source :: rest =>
      let later := Z.of_nat (length rest) in
      if sources + later + 1 <? required then Done (Ok (h, sources, rest, last_error), b)
      else
        match src_remaining source with
        | None => Done (Err TotalDeadline, exhaust b)
        | Some remaining =>
            let peer := src_peer source (attempts_per_page later sources) (source_time later sources remaining) in
            let! (fetched, b) := fetch_validated_history peer (src_latest source) h b network in
            match fetched with
            | Ok (events, observed_from) =>
                match merge_all (h_merged h) events with
                | Err e => Done (Err e, b)
                | Ok m =>
                    let h := add_source h m observed_from in
                    if sources + 1 =? required then Done (Ok (h, sources + 1, rest, last_error), b)
                    else sources_loop rest required h (sources + 1) last_error b network
                end
            | Err e =>
                if budget_exhausted b then Done (Err e, b)
                else sources_loop rest required h sources (Some e) b network
            end
        end
  end.

Definition fetch_history_from_peers (peers : list Source) (h : AggregateHistory) (b : SyncFetchBudget) (network : NetworkPolicy)
    : Outcome (result AggregateHistory SyncError * SyncFetchBudget) :=
  let candidates := Z.min (Z.of_nat (length peers)) MAX_HISTORY_PEERS in
  let required := Z.min HISTORY_SOURCES candidates in
  let! (r, b) := sources_loop (takeZ MAX_HISTORY_PEERS peers) required h 0 None b network in
  match r with
  | Err e => Done (Err e, b)
  | Ok (h, sources, not_asked, last_error) =>
      if sources <? required then Done (Err (default TooFewSources last_error), b)
      else Done (Ok (mkHistory (h_aggregate h) (h_since h) (h_stored h) (h_merged h) (vouched h) not_asked), b)
  end.

(** The shuffled admitted peers, or the failure to list them. *)
Definition fetch_historical_events_for_aggregate (admitted : result (list Source) SyncError) (h : AggregateHistory) (b : SyncFetchBudget)
    (network : NetworkPolicy) : Outcome (result AggregateHistory SyncError * SyncFetchBudget) :=
  match admitted with
  | Err TotalDeadline => Done (Err TotalDeadline, exhaust b)
  | Err e => Done (Err e, b)
  | Ok [] => Done (Err NoPeers, b)
  | Ok peers => fetch_history_from_peers peers h b network
  end.

(** ** Further peers *)

Fixpoint ask_further (peers : list Source) (h : AggregateHistory) (b : SyncFetchBudget) (network : NetworkPolicy)
    : Outcome (AggregateHistory * SyncFetchBudget) :=
  match peers with
  | [] => Done (h, b)
  | source :: rest =>
      if vouched h || budget_exhausted b then Done (h, b)
      else
        match src_remaining source with
        | None => Done (h, exhaust b)
        | Some remaining =>
            let peer := src_peer source 1 (Some (Z.min PROBE_TIME (remaining / 2))) in
            let! (fetched, b) := fetch_validated_history peer (src_latest source) h b network in
            match fetched with
            | Err _ => ask_further rest h b network
            | Ok (events, observed_from) =>
                match merge_all (h_merged h) events with
                | Err _ => ask_further rest h b network
                | Ok m => ask_further rest (add_source h m observed_from) b network
                end
            end
        end
  end.

Definition ask_further_peers (h : AggregateHistory) (b : SyncFetchBudget) (network : NetworkPolicy) : Outcome (AggregateHistory * SyncFetchBudget) :=
  ask_further (further h) (mkHistory (h_aggregate h) (h_since h) (h_stored h) (h_merged h) (vouched h) []) b network.

(** ** The node's own timestamps *)

Definition eligible_sync_cursor (since : list (Z * Z)) (network : NetworkPolicy) : list (Z * Z) :=
  List.filter (λ e : Z * Z, match to_chain_id e.1 with Some chain_id => allows_chain network chain_id | None => false end) since.

(** The pages of the node's event store, as a function of the cursor: misrouted records included. *)
Fixpoint stored_loop (fuel : nat) (query : Z → QueryResponse) (capacity from : Z) (stored : gmap Z TimestampClaim)
    : Outcome (result (gmap Z TimestampClaim) SyncError) :=
  match fuel with
  | O => OutOfFuel
  | S fuel =>
      let response := query from in
      match q_result response with
      | Err _ => Done (Err StorageUnavailable)
      | Ok events =>
          let stored := foldl (λ stored (e : Sequenced), <[ev_ts e.2 := claim_of e.2]> stored) stored events in
          if capacity <? Z.of_nat (size stored) then Done (Err TooManyStored)
          else
            match q_history response with
            | Some progress =>
                if exhausted progress then Done (Ok stored)
                else match last_scanned_ts progress with
                     | Some last => if last <? U128_MAX then stored_loop fuel query capacity (last + 1) stored else Done (Err StorageNoProgress)
                     | None => Done (Err StorageNoProgress)
                     end
            | None => Done (Err StorageNoProgress)
            end
      end
  end.

(** One round per stored record, and one more, is enough. *)
Definition stored_event_ids (records : nat) (query : Z → QueryResponse) (since capacity : Z) : Outcome (result (gmap Z TimestampClaim) SyncError) :=
  stored_loop (S records) query capacity since ∅.

(** ** The whole fetch *)

(** What the environment decides: the peers listed for an aggregate in each pass, whether time is
    left for a recovery round, the pages of the node's stores with the number of their records,
    whether time is left for reading them, and the peers found while waiting. *)
Record SyncEnv := mkEnv {
  env_peers : nat → Z → result (list Source) SyncError;
  env_time : nat → bool;
  env_query : Z → Z → QueryResponse;
  env_records : Z → nat;
  env_store_time : Z → bool;
  env_connected : option bool }.

(** The claims of each aggregate: those of its store, and those that startup reserves. *)
Fixpoint read_stored (env : SyncEnv) (cursor : list (Z * Z)) (reserved : gmap Z (gmap Z TimestampClaim)) (capacity : Z)
    (stored : gmap Z (gmap Z TimestampClaim)) (b : SyncFetchBudget)
    : Outcome (result (gmap Z (gmap Z TimestampClaim)) SyncError * SyncFetchBudget) :=
  match cursor with
  | [] => Done (Ok stored, b)
  | (aggregate_id, since) :: rest =>
      if negb (env_store_time env aggregate_id) then Done (Err TotalDeadline, exhaust b)
      else
        let! r := stored_event_ids (env_records env aggregate_id) (env_query env aggregate_id) since capacity in
        match r with
        | Err e => Done (Err e, b)
        | Ok claims =>
            let with_reserved := claims ∪ default ∅ (reserved !! aggregate_id) in
            read_stored env rest reserved (capacity - Z.of_nat (size claims)) (<[aggregate_id := with_reserved]> stored) b
        end
  end.

(** A pass over aggregates: the histories that it adds and the aggregates that failed. *)
Fixpoint fetch_pass (peers : Z → result (list Source) SyncError) (todo : list (Z * Z)) (stored : gmap Z (gmap Z TimestampClaim))
    (histories : list AggregateHistory) (failed : list (Z * Z)) (b : SyncFetchBudget) (network : NetworkPolicy)
    : Outcome (result (list AggregateHistory * list (Z * Z)) SyncError * SyncFetchBudget) :=
  match todo with
  | [] => Done (Ok (histories, failed), b)
  | (aggregate_id, since) :: rest =>
      let h := history_new aggregate_id since (default ∅ (stored !! aggregate_id)) in
      let! (r, b) := fetch_historical_events_for_aggregate (peers aggregate_id) h b network in
      match r with
      | Ok h => fetch_pass peers rest stored (histories ++ [h]) failed b network
      | Err e => if budget_exhausted b then Done (Err e, b) else fetch_pass peers rest stored histories (failed ++ [(aggregate_id, since)]) b network
      end
  end.

(** The recovery rounds for the aggregates that failed. *)
Fixpoint recover (attempts : nat) (env : SyncEnv) (round : nat) (failed : list (Z * Z)) (stored : gmap Z (gmap Z TimestampClaim))
    (histories : list AggregateHistory) (b : SyncFetchBudget) (network : NetworkPolicy)
    : Outcome (result (list AggregateHistory) SyncError * SyncFetchBudget) :=
  match failed with
  | [] => Done (Ok histories, b)
  | _ =>
      match attempts with
      | O => Done (Err TooFewSources, b)
      | S attempts =>
          if negb (env_time env round) then Done (Err TotalDeadline, exhaust b)
          else
            let! (r, b) := fetch_pass (env_peers env round) failed stored histories [] b network in
            match r with
            | Err e => Done (Err e, b)
            | Ok (histories, failed) => recover attempts env (S round) failed stored histories b network
            end
      end
  end.

(** The further peers of each history, and its events. *)
Fixpoint finish (histories : list AggregateHistory) (all_events : list LogEvent) (b : SyncFetchBudget) (network : NetworkPolicy)
    : Outcome (list LogEvent * SyncFetchBudget) :=
  match histories with
  | [] => Done (all_events, b)
  | h :: rest =>
      let! (h, b) := ask_further_peers h b network in
      finish rest (all_events ++ into_events h) b network
  end.

(** [all_events.iter().map(|event| event.ts()).max().unwrap_or(0)] *)
Definition latest_timestamp (events : list LogEvent) : Z := foldr (λ e acc, Z.max (ev_ts e) acc) 0 events.

Definition handle_sync_request_event (env : SyncEnv) (wait_for_event : bool) (since : list (Z * Z)) (reserved : gmap Z (gmap Z TimestampClaim))
    (network : NetworkPolicy) : Outcome (result (list LogEvent * Z) SyncError) :=
  let cursor := eligible_sync_cursor since network in
  if bool_decide (cursor = []) then Done (Ok ([], 0))
  else
    match (if wait_for_event then env_connected env else Some true) with
    | None => Done (Err RequestFailed)
    | Some false => Done (Ok ([], 0))
    | Some true =>
        let! (stored, b) := read_stored env cursor reserved MAX_STORED_CLAIMS ∅ budget_production in
        match stored with
        | Err e => Done (Err e)
        | Ok stored =>
            let! (r, b) := fetch_pass (env_peers env 0) cursor stored [] [] b network in
            match r with
            | Err e => Done (Err e)
            | Ok (histories, failed) =>
                let! (r, b) := recover SYNC_RECOVERY_MAX_ATTEMPTS env 1 failed stored histories b network in
                match r with
                | Err e => Done (Err e)
                | Ok histories =>
                    let! (events, b) := finish histories [] b network in
                    Done (Ok (events, latest_timestamp events))
                end
            end
        end
    end.
End Fetch.
