(* ===== verification/NetHistory.v ===== *)
(** * What the merge of histories keeps

    One copy of each event, the earliest, and at most one event at a timestamp, whatever the order
    of the peers; every event of a fetched history fits the node. *)

From S2P Require Import Prelude Events Orchestration Hamt KvStore KvStoreProps EventLog EventStore EventStoreProps EventQueries EventRouter NetSync NetSyncProps NetServe NetFetch.
Local Open Scope Z_scope.

(** ** The two maps of a merge *)

(** The events are keyed by their identity, and the timestamps name their holders. *)
Definition merged_inv (m : MergedEvents) : Prop :=
  (∀ id e, by_id m !! id = Some e → ev_id e = id) ∧
  (∀ ts id, by_ts m !! ts = Some id ↔ ∃ e, by_id m !! id = Some e ∧ ev_ts e = ts).

Lemma merged_inv_empty : merged_inv merged_empty.
Proof. split; [done|]. intros ts id. split; [done|]. by intros (e & He & _). Qed.

(** No two events of a merge share a timestamp. *)
Lemma merged_ts_inj m id1 id2 e1 e2 : merged_inv m → by_id m !! id1 = Some e1 → by_id m !! id2 = Some e2 → ev_ts e1 = ev_ts e2 → id1 = id2.
Proof.
  intros [_ Ht] E1 E2 Et. assert (by_ts m !! ev_ts e1 = Some id1) as H1 by (apply Ht; eauto). assert (by_ts m !! ev_ts e1 = Some id2) as H2 by (apply Ht; eauto).
  congruence.
Qed.

Lemma merge_insert_inv m e : merged_inv m → (∀ other, by_ts m !! ev_ts e = Some other → other = ev_id e) → merged_inv (merge_insert m e).
Proof.
  intros Hm Hfree. pose proof Hm as [Hid Ht]. unfold merge_insert. split; cbn [by_id by_ts].
  - intros id x. rewrite lookup_insert_Some. intros [[<- <-]|[_ E]]; [done|]. by apply Hid.
  - intros ts id. rewrite lookup_insert_Some. setoid_rewrite lookup_insert_Some.
    assert (∀ t i, match by_id m !! ev_id e with Some replaced => delete (ev_ts replaced) (by_ts m) | None => by_ts m end !! t = Some i ↔
      i ≠ ev_id e ∧ by_ts m !! t = Some i) as Hdel.
    { intros t i. destruct (by_id m !! ev_id e) as [old|] eqn:Eo.
      - rewrite lookup_delete_Some. split.
        + intros [Hne E]. split; [|done]. intros ->. apply Ht in E as (x & Ex & Et). congruence.
        + intros [Hne E]. split; [|done]. intros Et. apply Hne. apply Ht in E as (x & Ex & Ext). eapply (merged_ts_inj m); [done|exact Ex|exact Eo|congruence].
      - split; [|by intros [_ ?]]. intros E. split; [|done]. intros ->. apply Ht in E as (x & Ex & _). congruence. }
    rewrite Hdel. split.
    + intros [[<- <-]|[Hts [Hne E]]]; [by exists e; auto|]. apply Ht in E as (x & Ex & Et). exists x. auto.
    + intros (x & [[<- <-]|[Hne Ex]] & Et); [by left|]. right. assert (by_ts m !! ts = Some id) as E by (apply Ht; eauto).
      split; [|auto]. intros <-. apply Hne. symmetry. by apply Hfree.
Qed.

(** ** One event *)

Lemma merge_place_spec m e : merged_inv m →
  match merge_place m e with
  | Ok m' => m' = merge_insert m e ∧ merged_inv m'
  | Err _ => ∃ other, by_ts m !! ev_ts e = Some other ∧ other ≠ ev_id e
  end.
Proof.
  intros Hm. unfold merge_place. destruct (by_ts m !! ev_ts e) as [other|] eqn:Et.
  - case_bool_decide as E; [|by exists other]. split; [done|]. apply merge_insert_inv; [done|]. intros o. rewrite Et. by intros [= <-].
  - split; [done|]. apply merge_insert_inv; [done|]. intros o. by rewrite Et.
Qed.

(** What a merge step does: it keeps the earliest copy, or fails on a different payload or on a
    timestamp that another event holds. *)
Lemma merge_spec m e : merged_inv m →
  match merge m e with
  | Ok m' => merged_inv m' ∧ (∀ id, id ≠ ev_id e → by_id m' !! id = by_id m !! id) ∧
      ∃ kept, by_id m' !! ev_id e = Some kept ∧ ev_ts kept <= ev_ts e ∧ ev_data kept = ev_data e ∧
        match by_id m !! ev_id e with
        | None => kept = e
        | Some old => ev_data old = ev_data e ∧ if ev_ts old <=? ev_ts e then kept = old else kept = e
        end
  | Err _ =>
      (∃ old, by_id m !! ev_id e = Some old ∧ ev_data old ≠ ev_data e) ∨ (∃ other, by_ts m !! ev_ts e = Some other ∧ other ≠ ev_id e)
  end.
Proof.
  intros Hm. unfold merge.
  pose proof (merge_place_spec m e Hm) as Hins. revert Hins. generalize (merge_place m e). intros ins Hins.
  assert (∀ m', m' = merge_insert m e → (∀ id, id ≠ ev_id e → by_id m' !! id = by_id m !! id) ∧ by_id m' !! ev_id e = Some e) as Hlook.
  { intros m' ->. cbn [merge_insert by_id]. split; [intros id Hne; by rewrite lookup_insert_ne|by rewrite lookup_insert_eq]. }
  destruct (by_id m !! ev_id e) as [old|] eqn:Eo.
  - case_bool_decide as Ed; cbn [negb]; [|left; by exists old]. destruct (Z.leb_spec (ev_ts old) (ev_ts e)) as [Hle|Hlt].
    + split; [done|]. split; [done|]. exists old. auto.
    + destruct ins as [m'|err]; [|by right]. destruct Hins as [-> Hm']. destruct (Hlook _ eq_refl) as [Ho Hs]. split; [done|]. split; [done|].
      exists e. split; [done|]. split; [lia|]. split; [done|]. split; [done|done].
  - destruct ins as [m'|err]; [|by right]. destruct Hins as [-> Hm']. destruct (Hlook _ eq_refl) as [Ho Hs]. split; [done|]. split; [done|].
    exists e. split; [done|]. split; [lia|]. done.
Qed.

(** ** All events *)

(** The copies of an identity that a merge has seen. *)
Definition seen (m : MergedEvents) (l : list LogEvent) (id : B256) (e : LogEvent) : Prop :=
  by_id m !! id = Some e ∨ (e ∈ l ∧ ev_id e = id).

Lemma merge_all_spec l : ∀ m m', merged_inv m → merge_all m l = Ok m' →
  merged_inv m' ∧ (∀ id e, seen m l id e → ∃ kept, by_id m' !! id = Some kept ∧ ev_ts kept <= ev_ts e ∧ ev_data kept = ev_data e) ∧
  (∀ id kept, by_id m' !! id = Some kept → seen m l id kept).
Proof.
  induction l as [|x l IH]; intros m m' Hm E; cbn [merge_all] in E.
  { injection E as <-. split; [done|]. split; [|by left]. intros id e [He|[He _]]; [by exists e|by apply not_elem_of_nil in He]. }
  pose proof (merge_spec m x Hm) as Hx. destruct (merge m x) as [m1|]; [|done]. destruct Hx as (Hm1 & Hother & kept & Ek & Hts & Hd & Hold).
  destruct (IH m1 m' Hm1 E) as (Hm' & Hall & Hback). split; [done|].
  assert (∀ id e, by_id m !! id = Some e → ∃ k, by_id m1 !! id = Some k ∧ ev_ts k <= ev_ts e ∧ ev_data k = ev_data e) as Hkeep.
  { intros id e Ee. destruct (decide (id = ev_id x)) as [->|Hne]; [|exists e; by rewrite Hother]. rewrite Ee in Hold. destruct Hold as [Edx Hold].
    exists kept. split; [done|]. destruct (Z.leb_spec (ev_ts e) (ev_ts x)); [by subst kept|]. subst kept. split; [lia|done]. }
  split.
  - intros id e He. assert (∃ k, by_id m1 !! id = Some k ∧ ev_ts k <= ev_ts e ∧ ev_data k = ev_data e ∨ (e ∈ l ∧ ev_id e = id)) as (k & [(Ek1 & Ht1 & Hd1)|Hin]).
    { destruct He as [He|[[->|Hin]%elem_of_cons Eid]]; [destruct (Hkeep _ _ He) as (k & ?); exists k; by left|exists kept; left; by subst id|exists kept; by right]. }
    + destruct (Hall id k) as (k' & Ek' & Ht' & Hd'); [by left|]. exists k'. split; [done|]. split; [lia|congruence].
    + apply Hall. by right.
  - intros id k Hk. destruct (Hback id k Hk) as [H1|[H1 H2]]; [|right; split; [by right|done]].
    destruct (decide (id = ev_id x)) as [->|Hne]; [|left; by rewrite <- Hother]. assert (kept = k) as <- by congruence.
    destruct (by_id m !! ev_id x) as [old|] eqn:Eo; [|subst kept; right; split; [by left|done]].
    destruct Hold as [_ Hold]. destruct (ev_ts old <=? ev_ts x); subst kept; [by left|right; split; [by left|done]].
Qed.

(** The merge does not depend on the order of the peers.  When the same copies are merged in two
    orders and both merges succeed, they hold the same events at the same times with the same
    payloads: of each identity the earliest copy. *)
Theorem merge_order_independent l1 l2 m1 m2 : l1 ≡ₚ l2 → merge_all merged_empty l1 = Ok m1 → merge_all merged_empty l2 = Ok m2 →
  ∀ id, (λ e, (ev_ts e, ev_data e)) <$> by_id m1 !! id = (λ e, (ev_ts e, ev_data e)) <$> by_id m2 !! id.
Proof.
  intros Hp E1 E2. assert (∀ l l' m m', l ≡ₚ l' → merge_all merged_empty l = Ok m → merge_all merged_empty l' = Ok m' → ∀ id e, by_id m !! id = Some e →
    ∃ e', by_id m' !! id = Some e' ∧ ev_ts e' <= ev_ts e ∧ ev_data e' = ev_data e) as Hle.
  { intros l l' m m' Hl E E' id e He. destruct (merge_all_spec l _ _ merged_inv_empty E) as (_ & _ & Hback).
    destruct (merge_all_spec l' _ _ merged_inv_empty E') as (_ & Hall & _). apply Hall. destruct (Hback id e He) as [H0|[Hin Hid]]; [done|].
    right. split; [by rewrite <- Hl|done]. }
  intros id. destruct (by_id m1 !! id) as [e1|] eqn:H1.
  - destruct (Hle l1 l2 m1 m2 Hp E1 E2 id e1 H1) as (e2 & H2 & Ht & Hd). destruct (Hle l2 l1 m2 m1 (symmetry Hp) E2 E1 id e2 H2) as (e1' & H1' & Ht' & _).
    assert (e1' = e1) as -> by congruence. rewrite H2. cbn. do 2 f_equal; [lia|done].
  - destruct (by_id m2 !! id) as [e2|] eqn:H2; [|done]. destruct (Hle l2 l1 m2 m1 (symmetry Hp) E2 E1 id e2 H2) as (e1' & H1' & _). congruence.
Qed.

(** ** What a synced history is

    Whatever the peers answer, the fetch of all aggregates ends; and the events that it hands on fit
    the node: they are the network's own protocol events, in the order of time, one at a
    timestamp, and none takes the timestamp of another event that the node stores. *)

Section History.
Context `{EventBytes} `{Payloads}.
Variables (network : NetworkPolicy) (latest : Z).

(** ** What a checked event is *)

Definition fits (h : AggregateHistory) (e : LogEvent) : Prop :=
  h_since h <= ev_ts e <= latest ∧ ev_id e = payload_id (ev_data e) ∧ ev_aggregate e = h_aggregate h ∧ is_forwardable_event e = true ∧
  validate_event network e = Ok tt ∧ ev_source e = Net ∧ (∀ c, h_stored h !! ev_ts e = Some c → admits_claim c e = true).

Definition same_range (h h' : AggregateHistory) : Prop := h_aggregate h' = h_aggregate h ∧ h_since h' = h_since h ∧ h_stored h' = h_stored h.

Lemma fits_range h h' e : same_range h h' → fits h e → fits h' e.
Proof. intros (Ea & Es & Est). unfold fits. by rewrite Ea, Es, Est. Qed.

Lemma validate_loop_ok h lt l : lt <= latest → ∀ m, validate_loop h network lt l m = Ok tt → Forall (fits h) (with_source Net <$> l).
Proof.
  intros Hlt. induction l as [|e l IH]; intros m E; cbn [validate_loop fmap list_fmap] in *; [constructor|].
  destruct (Z.ltb_spec (ev_ts e) (h_since h)); [done|]. destruct (negb (bool_decide (default _ _ = _))); [done|].
  destruct (match h_stored h !! ev_ts e with Some claim => negb (admits_claim claim e) | None => false end) eqn:Ec; [done|].
  destruct (Z.ltb_spec lt (ev_ts e)); [done|]. destruct (bool_decide (ev_id e = _)) eqn:Eid; cbn [negb] in E; [|done]. apply bool_decide_eq_true in Eid.
  destruct (Z.eqb_spec (ev_aggregate e) (h_aggregate h)); cbn [negb] in E; [|done]. destruct (is_forwardable_event e) eqn:Ef; cbn [negb] in E; [|done].
  destruct (validate_event network e) as [[]|] eqn:Ev; [|done]. constructor; [|by eapply IH].
  split; [cbn; lia|]. repeat split; try done. intros c Hc. cbn [with_source ev_ts] in Hc. rewrite Hc in Ec. change (admits_claim c e = true). by destruct (admits_claim c e).
Qed.

Lemma validate_ok h lt l evs : lt <= latest → validate_historical_events h l network lt = Ok evs → Forall (fits h) evs.
Proof.
  intros Hlt. unfold validate_historical_events. destruct (validate_loop h network lt l ∅) as [[]|] eqn:E; [|done]. intros [= <-]. by eapply validate_loop_ok.
Qed.

(** ** Histories *)

Definition sources_ok (l : list Source) : Prop := Forall (λ s, ∀ x, src_latest s = Ok x → x <= latest) l.

Definition hist_ok (h : AggregateHistory) : Prop :=
  merged_inv (h_merged h) ∧ (∀ id e, by_id (h_merged h) !! id = Some e → fits h e) ∧ sources_ok (further h).

Lemma fetch_validated_ok peer lt h b : budget_ok b → (∀ x, lt = Ok x → x <= latest) →
  ∃ r b', fetch_validated_history peer lt h b network = Done (r, b') ∧ budget_ok b' ∧ match r with Ok (evs, _) => Forall (fits h) evs | Err _ => True end.
Proof.
  intros Hb Hlt. unfold fetch_validated_history.
  destruct (fetch_all_bounded peer (h_aggregate h) (h_since h) 100 b Hb) as (r & b' & -> & Hb' & _). cbn [obind].
  destruct r as [f|]; [|by eexists _, _]. destruct lt as [x|]; [|by eexists _, _].
  destruct (validate_historical_events h (ph_events f) network x) as [evs|] eqn:Ev; [|by eexists _, _]. eexists _, _. split; [done|]. split; [done|].
  eapply validate_ok; [by apply Hlt|exact Ev].
Qed.

Lemma add_source_ok h evs m obs : hist_ok h → Forall (fits h) evs → merge_all (h_merged h) evs = Ok m →
  hist_ok (add_source h m obs) ∧ same_range h (add_source h m obs).
Proof.
  intros (Hm & Hf & Hs) He E. destruct (merge_all_spec evs _ _ Hm E) as (Hm' & _ & Hback). split; [|done]. split; [done|]. split; [|done].
  intros id e Hid. apply (fits_range h); [done|]. destruct (Hback id e Hid) as [?|[Hin _]]; [by eapply Hf|]. rewrite Forall_forall in He. by apply He.
Qed.

Lemma sources_loop_ok peers required : sources_ok peers → ∀ h sources err b, budget_ok b → hist_ok h →
  ∃ r b', sources_loop peers required h sources err b network = Done (r, b') ∧ budget_ok b' ∧
    match r with Ok (h', _, rest, _) => hist_ok h' ∧ same_range h h' ∧ sources_ok rest | Err _ => True end.
Proof.
  induction peers as [|p peers IH]; intros Hp h sources err b Hb Hh; cbn [sources_loop]; [by eexists _, _|].
  apply Forall_cons in Hp as [Hlt Hp]. destruct (_ <? required); [by eexists _, _|]. destruct (src_remaining p) as [remaining|]; [|by eexists _, _].
  destruct (fetch_validated_ok (src_peer p (attempts_per_page (Z.of_nat (length peers)) sources) (source_time (Z.of_nat (length peers)) sources remaining))
    (src_latest p) h b Hb Hlt) as (r & b1 & -> & Hb1 & Hr). cbn [obind].
  destruct r as [[evs obs]|e].
  - destruct (merge_all (h_merged h) evs) as [m|] eqn:Em; [|by eexists _, _]. destruct (add_source_ok h evs m obs Hh Hr Em) as [Hh' Hsame].
    destruct (sources + 1 =? required); [by eexists _, _|].
    destruct (IH Hp (add_source h m obs) (sources + 1) err b1 Hb1 Hh') as (r & b' & E & Hb' & Hr'). exists r, b'. split; [done|]. split; [done|].
    destruct r as [[[[h' n] rest] le]|]; [|done]. done.
  - destruct (budget_exhausted b1); [by eexists _, _|]. apply IH; done.
Qed.

Lemma aggregate_ok admitted h b : budget_ok b → hist_ok h → (∀ l, admitted = Ok l → sources_ok l) →
  ∃ r b', fetch_historical_events_for_aggregate admitted h b network = Done (r, b') ∧ budget_ok b' ∧
    match r with Ok h' => hist_ok h' ∧ same_range h h' | Err _ => True end.
Proof.
  intros Hb Hh Ha. unfold fetch_historical_events_for_aggregate. destruct admitted as [[|p peers]|[]]; try by eexists _, _.
  unfold fetch_history_from_peers. specialize (Ha _ eq_refl). set (l := p :: peers) in *.
  destruct (sources_loop_ok (takeZ MAX_HISTORY_PEERS l) (Z.min HISTORY_SOURCES (Z.min (Z.of_nat (length l)) MAX_HISTORY_PEERS)) (Forall_take _ _ _ Ha) h 0 None b Hb Hh)
    as (r & b' & -> & Hb' & Hr). cbn [obind]. destruct r as [[[[h' n] rest] le]|]; [|by eexists _, _]. destruct (_ <? _); [by eexists _, _|].
  destruct Hr as ((Hm & Hf & _) & Hs & Hrest). eexists _, _. split; [done|]. split; [done|]. split; [|done]. split; [done|]. split; [|done]. intros id e Hid. apply (fits_range h'); [done|]. by eapply Hf.
Qed.

Lemma ask_further_ok peers : sources_ok peers → ∀ h b, budget_ok b → hist_ok h →
  ∃ h' b', ask_further peers h b network = Done (h', b') ∧ budget_ok b' ∧ hist_ok h' ∧ same_range h h'.
Proof.
  induction peers as [|p peers IH]; intros Hp h b Hb Hh; cbn [ask_further]; [by eexists _, _|].
  apply Forall_cons in Hp as [Hlt Hp]. destruct (vouched h || budget_exhausted b); [by eexists _, _|]. destruct (src_remaining p) as [remaining|]; [|by eexists _, _].
  destruct (fetch_validated_ok (src_peer p 1 (Some (Z.min PROBE_TIME (remaining / 2)))) (src_latest p) h b Hb Hlt) as (r & b1 & -> & Hb1 & Hr). cbn [obind].
  destruct r as [[evs obs]|e]; [|by apply IH]. destruct (merge_all (h_merged h) evs) as [m|] eqn:Em; [|by apply IH].
  destruct (add_source_ok h evs m obs Hh Hr Em) as [Hh' Hsame]. destruct (IH Hp (add_source h m obs) b1 Hb1 Hh') as (h' & b' & E & Hb' & Hh2 & Hs2).
  by exists h', b'.
Qed.

Lemma ask_further_peers_ok h b : budget_ok b → hist_ok h → ∃ h' b', ask_further_peers h b network = Done (h', b') ∧ budget_ok b' ∧ hist_ok h' ∧ same_range h h'.
Proof.
  intros Hb (Hm & Hf & Hs). unfold ask_further_peers. set (h0 := mkHistory _ _ _ _ _ _).
  assert (hist_ok h0) as Hh0 by (split; [done|]; split; [|constructor]; intros id e Hid; apply (fits_range h); [done|]; by eapply Hf).
  destruct (ask_further_ok (further h) Hs h0 b Hb Hh0) as (h' & b' & E & Hb' & Hh' & Hr). by exists h', b'.
Qed.

(** ** The events of a history *)

Global Instance event_ts_le_total : Total event_ts_le.
Proof. intros a b. unfold event_ts_le. lia. Qed.
Global Instance event_ts_le_trans : Transitive event_ts_le.
Proof. intros a b c. unfold event_ts_le. lia. Qed.

Lemma into_events_ok h : hist_ok h → Forall (fits h) (into_events h) ∧ NoDup (ev_ts <$> into_events h) ∧ StronglySorted event_ts_le (into_events h).
Proof.
  intros (Hm & Hf & _). unfold into_events. assert (merge_sort event_ts_le (map_to_list (by_id (h_merged h))).*2 ≡ₚ (map_to_list (by_id (h_merged h))).*2) as Hp
    by apply merge_sort_Permutation.
  split; [|split; [|apply (StronglySorted_merge_sort _)]].
  - rewrite Hp. apply Forall_fmap, Forall_forall. intros [id e] Hin%elem_of_map_to_list. by eapply Hf.
  - rewrite Hp, <- list_fmap_compose. apply NoDup_fmap_2_strong; [|apply NoDup_map_to_list].
    intros [id1 e1] [id2 e2] H1%elem_of_map_to_list H2%elem_of_map_to_list Et. cbn in Et.
    assert (id1 = id2) as -> by (eapply (merged_ts_inj (h_merged h)); eauto). by simplify_eq.
Qed.

(** ** The passes *)

Definition hkey (h : AggregateHistory) : Z * Z := (h_aggregate h, h_since h).

Definition hist_in (stored : gmap Z (gmap Z TimestampClaim)) (h : AggregateHistory) : Prop :=
  hist_ok h ∧ h_stored h = default ∅ (stored !! h_aggregate h).

Lemma history_new_ok agg since stored : hist_ok (history_new agg since stored).
Proof. split; [apply merged_inv_empty|]. split; [done|constructor]. Qed.

Lemma fetch_pass_ok peers todo stored : (∀ agg l, peers agg = Ok l → sources_ok l) → ∀ histories failed b, budget_ok b → Forall (hist_in stored) histories →
  ∃ r b', fetch_pass peers todo stored histories failed b network = Done (r, b') ∧ budget_ok b' ∧
    match r with
    | Ok (hs, failed') => Forall (hist_in stored) hs ∧ (hkey <$> hs) ++ failed' ≡ₚ (hkey <$> histories) ++ failed ++ todo
    | Err _ => True
    end.
Proof.
  intros Hp. induction todo as [|[agg since] todo IH]; intros histories failed b Hb Hh; cbn [fetch_pass].
  { eexists _, _. split; [done|]. split; [done|]. split; [done|]. by rewrite app_nil_r. }
  destruct (aggregate_ok (peers agg) (history_new agg since (default ∅ (stored !! agg))) b Hb (history_new_ok _ _ _) (Hp agg)) as (r & b1 & -> & Hb1 & Hr). cbn [obind].
  destruct r as [h|e].
  - destruct Hr as [Hok (Ea & Es & Est)]. cbn [history_new h_aggregate h_since h_stored] in *.
    destruct (IH (histories ++ [h]) failed b1 Hb1) as (r & b' & E & Hb' & Hres).
    { apply Forall_app. split; [done|]. constructor; [|constructor]. split; [done|]. by rewrite Ea. }
    exists r, b'. split; [done|]. split; [done|]. destruct r as [[hs failed']|]; [|done]. destruct Hres as [Hhs ->]. split; [done|].
    rewrite fmap_app. cbn [fmap list_fmap]. unfold hkey at 2. rewrite Ea, Es. solve_Permutation.
  - destruct (budget_exhausted b1); [by eexists _, _|].
    destruct (IH histories (failed ++ [(agg, since)]) b1 Hb1 Hh) as (r & b' & E & Hb' & Hres). exists r, b'. split; [done|]. split; [done|].
    destruct r as [[hs failed']|]; [|done]. destruct Hres as [Hhs ->]. split; [done|]. solve_Permutation.
Qed.

Lemma recover_ok env stored : (∀ round agg l, env_peers env round agg = Ok l → sources_ok l) → ∀ attempts round failed histories b, budget_ok b →
  Forall (hist_in stored) histories →
  ∃ r b', recover attempts env round failed stored histories b network = Done (r, b') ∧ budget_ok b' ∧
    match r with Ok hs => Forall (hist_in stored) hs ∧ hkey <$> hs ≡ₚ (hkey <$> histories) ++ failed | Err _ => True end.
Proof.
  intros Hp. induction attempts as [|attempts IH]; intros round failed histories b Hb Hh; cbn [recover].
  - destruct failed; eexists _, _; (split; [done|]); (split; [done|]); [by rewrite app_nil_r|done].
  - destruct failed as [|f failed]; [eexists _, _; split; [done|]; split; [done|]; by rewrite app_nil_r|].
    destruct (negb (env_time env round)); [by eexists _, _|].
    destruct (fetch_pass_ok (env_peers env round) (f :: failed) stored (Hp round) histories [] b Hb Hh) as (r & b1 & -> & Hb1 & Hr). cbn [obind].
    destruct r as [[hs failed']|]; [|by eexists _, _]. destruct Hr as [Hhs Hk].
    destruct (IH (S round) failed' hs b1 Hb1 Hhs) as (r & b' & E & Hb' & Hres). exists r, b'. split; [done|]. split; [done|].
    destruct r as [hs'|]; [|done]. destruct Hres as [Hhs' ->]. split; [done|]. by rewrite Hk.
Qed.

Lemma finish_ok stored histories : ∀ all b, budget_ok b → Forall (hist_in stored) histories →
  ∃ hs b', finish histories all b network = Done (all ++ concat (into_events <$> hs), b') ∧ Forall (hist_in stored) hs ∧ hkey <$> hs = hkey <$> histories.
Proof.
  induction histories as [|h histories IH]; intros all b Hb Hh; cbn [finish].
  { exists [], b. cbn. by rewrite app_nil_r. }
  apply Forall_cons in Hh as [[Hok Hst] Hh]. destruct (ask_further_peers_ok h b Hb Hok) as (h' & b1 & -> & Hb1 & Hok' & (Ea & Es & Est)). cbn [obind].
  destruct (IH (all ++ into_events h') b1 Hb1 Hh) as (hs & b' & E & Hhs & Hk). exists (h' :: hs), b'. cbn [fmap list_fmap concat]. rewrite (assoc (++)). split; [done|].
  split; [|unfold hkey at 1 3; rewrite Ea, Es; by f_equal]. constructor; [|done]. split; [done|]. by rewrite Est, Ea.
Qed.
End History.
