(* ===== verification/NetStored.v ===== *)
(** * A synced history can be stored, with concrete syncs

    The node's own stored timestamps, read through its router, and those that the chain events of the
    startup reserve guard the histories of its peers: the events that a fetch hands on never meet
    another event at their timestamp in the event store, which would stop the node.  The startup
    sorts both histories into one, and this is what the store is given. *)

From S2P Require Import Prelude Events Orchestration Hamt KvStore KvStoreProps EventLog EventStore EventStoreProps EventQueries EventRouter EventExample NetSync NetSyncProps NetServe NetFetch NetHistory.
Local Open Scope Z_scope.

Section Stored.
Context `{EventBytes} `{Payloads} {I L : Type} `{SequenceIndexLaws I} `{!EventLog L} `{!LogModel L} `{!EventLogLaws L}.
Implicit Types r : EventStoreRouter (I:=I) (L:=L).

(** ** The history of a startup: crates/state/sync/src/service.rs, workflow.rs

    The chain events of a startup hold their timestamps before the peers are asked; both
    histories are then stored together, in the order of time. *)

Definition reserved_timestamps (events : list LogEvent) : gmap Z (gmap Z TimestampClaim) :=
  foldl (λ reserved event, <[ev_aggregate event := <[ev_ts event := claim_of event]> (default ∅ (reserved !! ev_aggregate event))]> reserved) ∅ events.

Definition sort_by_timestamp (events : list LogEvent) : list LogEvent := merge_sort event_ts_le events.

Definition reconciled (chain net : list LogEvent) : list LogEvent := sort_by_timestamp (chain ++ net).

(** The timestamp that a chain event reserves is held by an event of the chain at it. *)
Lemma reserved_lookup events x : x ∈ events → ∃ y, y ∈ events ∧ ev_aggregate y = ev_aggregate x ∧ ev_ts y = ev_ts x ∧
  default ∅ (reserved_timestamps events !! ev_aggregate x) !! ev_ts x = Some (claim_of y).
Proof.
  unfold reserved_timestamps. induction events as [|e events IH] using rev_ind; [by intros ?%not_elem_of_nil|]. rewrite foldl_snoc.
  set (before := foldl _ _ events) in *. intros Hx. destruct (decide (ev_aggregate e = ev_aggregate x ∧ ev_ts e = ev_ts x)) as [[Ea Et]|Hne].
  { exists e. split; [apply elem_of_app; right; by apply list_elem_of_singleton|]. do 2 (split; [done|]). by rewrite Ea, lookup_insert_eq, Et; cbn; rewrite lookup_insert_eq. }
  apply elem_of_app in Hx as [Hx|Hx]; [|apply list_elem_of_singleton in Hx as ->; by destruct Hne]. destruct (IH Hx) as (y & Hy & Hya & Hyt & Hl).
  exists y. split; [apply elem_of_app; by left|]. do 2 (split; [done|]). destruct (decide (ev_aggregate e = ev_aggregate x)) as [Ea|Ea].
  - rewrite Ea, lookup_insert_eq. cbn. rewrite lookup_insert_ne; [done|]. intros Et. by destruct Hne.
  - by rewrite lookup_insert_ne.
Qed.

(** ** Reading the node's timestamps *)

(** A page of the node's own store of an aggregate, misrouted records included. *)
Definition node_page r (agg from : Z) : QueryResponse :=
  match route_query r 0 {[agg := from]} true with
  | (Fanned a subs, _) =>
      match (aggregator_run a (omap (answer_ts r true None (Some STORED_PAGE_EVENTS) (Some STORED_PAGE_BYTES)) subs)).1 with
      | [(_, resp)] => resp
      | _ => mkResponse (Err IoError) None None
      end
  | _ => mkResponse (Err IoError) None None
  end.

Lemma node_page_spec r logs agg es from : router_rep r logs → logs !! agg = Some es → ts_ok from →
  ∃ page rest, history es from = page ++ rest ∧ (history es from ≠ [] → page ≠ []) ∧
    node_page r agg from = mkResponse (Ok page) None (Some (mkProgress (last_ts None page) (bool_decide (rest = [])))).
Proof.
  intros Hr Ees Hts. unfold node_page. destruct (route_query_fans r logs 0 {[agg := from]} true Hr) as [r' ->]; [apply map_non_empty_singleton| |].
  { intros a x [-> ->]%lookup_singleton_Some. by eexists. }
  rewrite map_to_list_singleton. cbn [number_queries omap list_omap].
  destruct (answer_ts_history r logs agg es from (next_id r) STORED_PAGE_EVENTS STORED_PAGE_BYTES Hr Ees Hts) as (page & rest & Eh & Hne & ->); [done|].
  exists page, rest. split; [done|]. split; [by apply Hne|]. by rewrite (aggregator_single 0 true agg from (next_id r)).
Qed.

Definition claims (stored : gmap Z TimestampClaim) (l : list Sequenced) : gmap Z TimestampClaim :=
  foldl (λ stored (e : Sequenced), <[ev_ts e.2 := claim_of e.2]> stored) stored l.

Lemma claims_other l : ∀ stored ts, ts ∉ (λ x : Sequenced, ev_ts x.2) <$> l → claims stored l !! ts = stored !! ts.
Proof.
  induction l as [|y l IH]; intros stored ts Hts; [done|]. cbn [fmap list_fmap] in Hts. rewrite elem_of_cons in Hts.
  change (claims (<[ev_ts y.2 := claim_of y.2]> stored) l !! ts = stored !! ts). rewrite IH by tauto. rewrite lookup_insert_ne; [done|]. intros <-. tauto.
Qed.

Lemma claims_lookup l : ∀ stored x, NoDup ((λ x : Sequenced, ev_ts x.2) <$> l) → x ∈ l → claims stored l !! ev_ts x.2 = Some (claim_of x.2).
Proof.
  induction l as [|y l IH]; intros stored x Hn Hx; [by apply not_elem_of_nil in Hx|]. cbn [fmap list_fmap] in Hn. apply NoDup_cons in Hn as [Hy Hn].
  change (claims (<[ev_ts y.2 := claim_of y.2]> stored) l !! ev_ts x.2 = Some (claim_of x.2)). apply elem_of_cons in Hx as [->|Hx]; [|by apply IH].
  rewrite claims_other by done. by rewrite lookup_insert_eq.
Qed.

Lemma claims_app stored l1 l2 : claims stored (l1 ++ l2) = claims (claims stored l1) l2.
Proof. apply foldl_app. Qed.

Lemma claims_sound l : ∀ stored ts c, claims stored l !! ts = Some c → stored !! ts = Some c ∨ ∃ x, x ∈ l ∧ ev_ts x.2 = ts ∧ c = claim_of x.2.
Proof.
  induction l as [|y l IH]; intros stored ts c; [by left|]. intros Hc.
  change (claims (<[ev_ts y.2 := claim_of y.2]> stored) l !! ts = Some c) in Hc. apply IH in Hc as [Hs|(x & Hx & ?)]; [|right; exists x; split; [by right|done]]. apply lookup_insert_Some in Hs as [[Et <-]|[_ Hs]]; [|by left].
  right. exists y. split; [by left|done].
Qed.

(** Every record of the store at or after the cursor holds its timestamp. *)
Lemma claims_history es since e : log_wf es → e ∈ es → since <= ev_ts e → claims ∅ (history es since) !! ev_ts e = Some (claim_of e).
Proof.
  intros Hw He Hts. apply list_elem_of_lookup in He as [i Ei]. apply (claims_lookup _ _ (Z.of_nat i + 1, e)); [by apply history_NoDup|].
  apply elem_of_history. split; [lia|]. by rewrite start_idx_succ.
Qed.

Lemma stored_loop_spec r logs agg es cap : router_rep r logs → logs !! agg = Some es → log_wf es → ∀ fuel from stored, ts_ok from →
  (length (history es from) < fuel)%nat →
  ∃ res, stored_loop fuel (node_page r agg) cap from stored = Done res ∧
    match res with Ok m => m = claims stored (history es from) | Err _ => True end.
Proof.
  intros Hr Ees Hw. induction fuel as [|fuel IH]; intros from stored Hts Hf; [lia|]. cbn [stored_loop].
  destruct (node_page_spec r logs agg es from Hr Ees Hts) as (page & rest & Eh & Hne & ->). cbn [q_result q_history]. fold (claims stored page).
  destruct (cap <? _); [by eexists|]. cbn [exhausted last_scanned_ts]. case_bool_decide as Er.
  { subst rest. rewrite app_nil_r in Eh. rewrite Eh. by eexists. }
  destruct page as [|x page] using rev_ind; [exfalso; apply Hne; [by rewrite Eh|done]|]. clear IHpage. unfold last_ts. rewrite last_snoc.
  rewrite <- (assoc (++)) in Eh. cbn [app] in Eh. destruct (next_cursor es Hw from page x rest Eh Er) as (Hn & Hh & Hts' & _).
  unfold next_ts in Hn. destruct (ev_ts x.2 <? U128_MAX); [|done]. destruct (IH (ev_ts x.2 + 1) (claims stored (page ++ [x])) Hts') as (res & E & Hres).
  { rewrite Hh. rewrite Eh, length_app in Hf. cbn in Hf. lia. }
  exists res. split; [done|]. destruct res as [m|]; [|done]. rewrite Hres, Hh, Eh. rewrite <- claims_app, <- (assoc (++)). done.
Qed.

Lemma history_length es since : (length (history es since) <= length es)%nat.
Proof. unfold history. etransitivity; [apply List.filter_length_le|]. by rewrite merge_sort_Permutation, length_number. Qed.

(** The node's stores as the environment of a fetch. *)
Definition env_of_node (env : SyncEnv) r (logs : gmap Z (list LogEvent)) : Prop :=
  router_rep r logs ∧ (∀ agg from, env_query env agg from = node_page r agg from) ∧ (∀ agg es, logs !! agg = Some es → env_records env agg = length es).

Lemma stored_loop_ext fuel q1 q2 cap : (∀ from, q1 from = q2 from) → ∀ from stored, stored_loop fuel q1 cap from stored = stored_loop fuel q2 cap from stored.
Proof.
  intros Hq. induction fuel as [|fuel IH]; intros from stored; [done|]. cbn [stored_loop]. rewrite Hq. destruct (q_result (q2 from)); [|done].
  destruct (cap <? _); [done|]. destruct (q_history (q2 from)) as [p|]; [|done]. destruct (exhausted p); [done|]. destruct (last_scanned_ts p); [|done].
  destruct (_ <? _); [|done]. apply IH.
Qed.

Lemma router_wf r logs agg es : router_rep r logs → logs !! agg = Some es → log_wf es.
Proof. intros [Hdom Hrep] Ees. destruct (proj2 (Hdom agg)) as [a Ea]; [by eexists|]. by destruct (Hrep agg a es Ea Ees) as [_ (Hw & _)]. Qed.

Lemma read_stored_spec env r logs reserved : env_of_node env r logs → ∀ cursor cap stored b, budget_ok b → NoDup (cursor.*1) →
  Forall (λ c : Z * Z, is_Some (logs !! c.1) ∧ ts_ok c.2) cursor →
  ∃ res b', read_stored env cursor reserved cap stored b = Done (res, b') ∧ budget_ok b' ∧
    match res with
    | Ok m => (∀ agg, agg ∉ cursor.*1 → m !! agg = stored !! agg) ∧
        ∀ agg since es, (agg, since) ∈ cursor → logs !! agg = Some es →
          m !! agg = Some (claims ∅ (history es since) ∪ default ∅ (reserved !! agg))
    | Err _ => True
    end.
Proof.
  intros (Hr & Hq & Hn). induction cursor as [|[agg since] cursor IH]; intros cap stored b Hb Hnd Hc; cbn [read_stored].
  { eexists _, _. split; [done|]. split; [done|]. split; [done|]. by intros ? ? ? ?%not_elem_of_nil. }
  apply Forall_cons in Hc as [[[es Ees] Hts] Hc]. cbn [fmap list_fmap fst] in Hnd. apply NoDup_cons in Hnd as [Hagg Hnd]. cbn [fst snd] in *.
  destruct (negb (env_store_time env agg)); [by eexists _, _|]. unfold stored_event_ids. rewrite (Hn agg es Ees), (stored_loop_ext _ _ _ _ (Hq agg)).
  pose proof (router_wf r logs agg es Hr Ees) as Hw.
  destruct (stored_loop_spec r logs agg es cap Hr Ees Hw (S (length es)) since ∅ Hts) as (res & -> & Hres).
  { pose proof (history_length es since). lia. }
  cbn [obind]. destruct res as [m|]; [|by eexists _, _]. subst m. set (m := claims ∅ (history es since)).
  destruct (IH (cap - Z.of_nat (size m)) (<[agg := m ∪ default ∅ (reserved !! agg)]> stored) b Hb Hnd Hc) as (res & b' & E & Hb' & Hres).
  exists res, b'. split; [done|]. split; [done|]. destruct res as [m'|]; [|done]. destruct Hres as [Hother Hin]. split.
  - intros a Ha. cbn [fmap list_fmap fst] in Ha. rewrite not_elem_of_cons in Ha. destruct Ha as [Hne Ha]. rewrite Hother by done. by rewrite lookup_insert_ne.
  - intros a s es' [[= -> ->]|Hx]%elem_of_cons Ees'; [|by eapply Hin]. assert (es' = es) as -> by congruence.
    rewrite Hother by done. by rewrite lookup_insert_eq.
Qed.

(** ** Any peers *)

(** Two events that the store takes at one timestamp. *)
Definition agrees (x e : LogEvent) : Prop := ev_id x = ev_id e ∧ payload_digest (ev_data x) = payload_digest (ev_data e).

Global Instance agrees_trans : Transitive agrees.
Proof. intros x y z [] []. split; congruence. Qed.

(** What an event of a synced history is to the node, of an aggregate from a cursor on: [taken] are the
    events whose timestamps are in use. *)
Definition synced (network : NetworkPolicy) (latest agg since : Z) (taken : list LogEvent) (e : LogEvent) : Prop :=
  since <= ev_ts e <= latest ∧ ev_id e = payload_id (ev_data e) ∧ ev_aggregate e = agg ∧ is_forwardable_event e = true ∧ validate_event network e = Ok tt ∧
  ev_source e = Net ∧ ∀ x, x ∈ taken → ev_ts x = ev_ts e → agrees x e.

Lemma fits_synced network latest h taken e : fits network latest h e →
  (∀ x, x ∈ taken → h_since h <= ev_ts x → ∃ y, agrees x y ∧ h_stored h !! ev_ts x = Some (claim_of y)) → synced network latest (h_aggregate h) (h_since h) taken e.
Proof.
  intros (Hts & Hid & Ha & Hf & Hv & Hs & Hc) Hst. split_and!; try done; try lia. intros x Hx Ht.
  destruct (Hst x Hx ltac:(lia)) as (y & Hxy & Hy). rewrite Ht in Hy. apply Hc in Hy. transitivity y; [done|].
  unfold admits_claim, claim_of in Hy; cbn [claim_id claim_payload] in Hy. apply andb_prop in Hy as [?%bool_decide_eq_true ?%bool_decide_eq_true]. done.
Qed.

Lemma latest_timestamp_max events : Forall (λ e, ev_ts e <= latest_timestamp events) events.
Proof.
  induction events as [|e l IH]; constructor; cbn [latest_timestamp foldr]; [lia|]. eapply Forall_impl; [exact IH|]. intros x. unfold latest_timestamp. cbn. lia.
Qed.

(** ** Storing it *)

(** Storage takes every write. *)
Definition writes_ok : Prop :=
  (∀ (l : L) e, ∃ x, log_append l e = Ok x) ∧ (∀ l : L, ∃ l', log_flush l = Ok l') ∧ (∀ (i : I) ts seq, ∃ i', idx_insert i ts seq = Ok i').

(** No other event of the log holds the timestamp. *)
Definition compatible (es : list LogEvent) (e : LogEvent) : Prop := ∀ x, x ∈ es → ev_ts x = ev_ts e → ev_id x = ev_id e ∧ ev_data x = ev_data e.

Lemma store_event_compatible (s : EventStore I L) es e : writes_ok → store_rep s es → ts_ok (ev_ts e) → compatible es e → ∃ x, (store_event s e).1 = Ok x.
Proof.
  intros (Ha & Hf & Hi) (Hw & Hl & _ & m & Hidx & Hs & Hc) He Hcomp. unfold store_event. rewrite (idx_get_spec _ m) by done.
  destruct (m !! ev_ts e) as [seq|] eqn:Em.
  - destruct (Hs _ _ Em) as (Hseq & x & Ex & Et). rewrite (read_bounded_spec _ es) by (done || lia).
    assert (takeZ 1 (drop (start_idx seq) es) = [x]) as ->.
    { unfold takeZ. change (Z.to_nat 1) with 1%nat. rewrite <- (take_drop_middle es _ x Ex), drop_app_length'; [done|].
      rewrite length_take. apply lookup_lt_Some in Ex. lia. }
    cbn [number]. rewrite Z.eqb_refl. cbn [negb]. destruct (Hcomp x) as [Eid Ed]; [by eapply list_elem_of_lookup_2|done|].
    rewrite !bool_decide_true by done. by eexists.
  - destruct (Ha (es_log s) e) as [[q l1] ->]. destruct (Hf l1) as [l2 ->]. cbn [es_index]. destruct (Hi (es_index s) (ev_ts e) q) as [i' ->]. by eexists.
Qed.

Lemma actor_run_running events : writes_ok → ∀ (a : StoreActor (I:=I) (L:=L)) es, running a = true → store_rep (store a) es → Forall (λ e, ts_ok (ev_ts e)) events →
  Z.of_nat (length es) + Z.of_nat (length events) < USIZE_MAX → Forall (compatible es) events → Forall (compatible events) events → running (actor_run a events).2 = true.
Proof.
  intros Hwr. induction events as [|e events IH]; intros a es Hr Hs Ht Hlen Hc Hn; [done|]. cbn [actor_run]. rewrite Hr.
  apply Forall_cons in Ht as [He Ht], Hc as [Hce Hc], Hn as [_ Hn]. cbn [length] in Hlen.
  assert (Forall (compatible events) events) as Hn' by (eapply Forall_impl; [exact Hn|]; intros z Hz x Hx; apply Hz; by right).
  unfold handle_store_event. pose proof (store_event_spec (store a) es e Hs He ltac:(lia)) as Hspec.
  destruct (store_event_compatible (store a) es e Hwr Hs He Hce) as [x Ex]. destruct (store_event (store a) e) as [res s']. cbn [fst] in Ex. subst res.
  destruct x as [y|].
  - destruct Hspec as (_ & _ & Hs'). specialize (IH (mkActor s' (fatal a) (running a)) (es ++ [e]) Hr Hs' Ht).
    destruct (actor_run _ events) as [acts a']. cbn [snd] in *. apply IH; [rewrite length_app; cbn; lia| |done].
    apply Forall_forall. intros z Hz x [Hx|Hx]%elem_of_app Et; [rewrite Forall_forall in Hc; by apply (Hc z)|].
    apply list_elem_of_singleton in Hx as ->. rewrite Forall_forall in Hn. apply (Hn z Hz); [by left|done].
  - destruct Hspec as (-> & _). specialize (IH (mkActor (store a) (fatal a) (running a)) es Hr Hs Ht).
    destruct (actor_run _ events) as [acts a']. cbn [snd] in *. by apply IH; [lia|..].
Qed.

(** The events of one aggregate among parts that each belong to one. *)
Lemma filter_agg agg (l : list LogEvent) k : Forall (λ e, ev_aggregate e = k) l → List.filter (λ e, ev_aggregate e =? agg) l = if k =? agg then l else [].
Proof.
  intros Hl. induction Hl as [|e l He _ IH]; [by destruct (k =? agg)|]. cbn [List.filter]. rewrite He, IH. by destruct (k =? agg).
Qed.

Lemma filter_parts agg (parts : list (Z * Z * list LogEvent)) : NoDup (parts.*1.*1) → (∀ p, p ∈ parts → Forall (λ e, ev_aggregate e = p.1.1) p.2) →
  List.filter (λ e, ev_aggregate e =? agg) (concat (parts.*2)) = [] ∨
  ∃ p, p ∈ parts ∧ p.1.1 = agg ∧ List.filter (λ e, ev_aggregate e =? agg) (concat (parts.*2)) = p.2.
Proof.
  induction parts as [|p parts IH]; intros Hn Hagg; [by left|]. cbn [fmap list_fmap concat] in *. apply NoDup_cons in Hn as [Hp Hn].
  rewrite List.filter_app, (filter_agg agg p.2 p.1.1) by (apply Hagg; left).
  destruct (IH Hn ltac:(intros; apply Hagg; by right)) as [Er|(q & Hq & Hqa & Er)]; rewrite Er; destruct (Z.eqb_spec p.1.1 agg) as [Ep|Ep].
  - right. exists p. rewrite app_nil_r. split; [by left|done].
  - by left.
  - destruct Hp. rewrite Ep, <- Hqa. apply list_elem_of_fmap. exists q.1. split; [done|]. apply list_elem_of_fmap. by exists q.
  - right. exists q. split; [by right|done].
Qed.

Section Sync.
Variables (env : SyncEnv) (r : EventStoreRouter (I:=I) (L:=L)) (logs : gmap Z (list LogEvent)) (network : NetworkPolicy) (latest : Z)
  (since : list (Z * Z)) (chain : list LogEvent).
Hypothesis Henv : env_of_node env r logs.
Hypothesis Hkeys : NoDup (since.*1).
Hypothesis Hsince : Forall (λ c : Z * Z, is_Some (logs !! c.1) ∧ ts_ok c.2) since.
Hypothesis Hlatest : ∀ round agg l, env_peers env round agg = Ok l → sources_ok latest l.

(** The chain events of the startup agree with each other and with the store at their timestamps. *)
Hypothesis Hchain : ∀ x y, x ∈ chain → y ∈ chain → ev_aggregate x = ev_aggregate y → ev_ts x = ev_ts y → agrees x y.
Hypothesis Hheld : ∀ es x y, x ∈ chain → logs !! ev_aggregate x = Some es → y ∈ es → ev_ts x = ev_ts y → agrees x y.

Local Abbreviation reserved := (reserved_timestamps chain).

(** The events of an aggregate whose timestamps are in use. *)
Definition taken (agg : Z) (es : list LogEvent) : list LogEvent := es ++ List.filter (λ e, ev_aggregate e =? agg) chain.

Lemma elem_of_taken agg es x : x ∈ taken agg es ↔ x ∈ es ∨ x ∈ chain ∧ ev_aggregate x = agg.
Proof. unfold taken. rewrite elem_of_app, !list_elem_of_In, filter_In, Z.eqb_eq. tauto. Qed.

Lemma taken_claimed agg es from x : logs !! agg = Some es → log_wf es → x ∈ taken agg es → from <= ev_ts x →
  ∃ y, agrees x y ∧ (claims ∅ (history es from) ∪ default ∅ (reserved !! agg)) !! ev_ts x = Some (claim_of y).
Proof.
  intros Ees Hw [Hx|[Hx <-]]%elem_of_taken Hts; [exists x; split; [done|]; apply lookup_union_Some_l; by apply claims_history|].
  destruct (claims ∅ (history es from) !! ev_ts x) as [c|] eqn:Ec.
  - destruct (claims_sound _ _ _ _ Ec) as [He|(y & Hy & Et & ->)]; [by rewrite lookup_empty in He|]. exists y.2. split; [|by apply lookup_union_Some_l].
    destruct y as [q y]. apply elem_of_history in Hy as (_ & Hy & _). apply (Hheld es); [done..|by eapply list_elem_of_lookup_2|done].
  - rewrite lookup_union_r by done. destruct (reserved_lookup chain x Hx) as (y & Hy & Ea & Et & ->). exists y. split; [|done]. by apply Hchain.
Qed.

Definition part_ok (p : Z * Z * list LogEvent) : Prop :=
  StronglySorted event_ts_le p.2 ∧ NoDup (ev_ts <$> p.2) ∧ ∀ es, logs !! p.1.1 = Some es → Forall (synced network latest p.1.1 p.1.2 (taken p.1.1 es)) p.2.

Lemma cursor_sub c : c ∈ eligible_sync_cursor since network → c ∈ since.
Proof. unfold eligible_sync_cursor. rewrite list_elem_of_In, filter_In, <- list_elem_of_In. by intros [? _]. Qed.

Lemma budget_production_ok : budget_ok budget_production.
Proof. by repeat split. Qed.

Lemma sync_spec wait : ∃ res, handle_sync_request_event env wait since reserved network = Done res ∧
  match res with
  | Ok (events, ts) => ∃ parts, events = concat (parts.*2) ∧ NoDup (parts.*1.*1) ∧ (∀ p, p ∈ parts → p.1 ∈ since) ∧ Forall part_ok parts ∧
      Forall (λ e, ev_ts e <= ts) events ∧ (env_connected env = Some true ∨ wait = false → parts.*1 ≡ₚ eligible_sync_cursor since network)
  | Err _ => True
  end.
Proof.
  unfold handle_sync_request_event. set (cursor := eligible_sync_cursor since network).
  assert (∀ (P : Prop), (P → [] ≡ₚ cursor) → ∃ res, Done (Ok ([], 0)) = Done res ∧ match res : result (list LogEvent * Z) SyncError with
    | Ok (events, ts) => ∃ parts, events = concat (parts.*2) ∧ NoDup (parts.*1.*1) ∧ (∀ p, p ∈ parts → p.1 ∈ since) ∧ Forall part_ok parts ∧
      Forall (λ e, ev_ts e <= ts) events ∧ (P → parts.*1 ≡ₚ cursor) | Err _ => True end) as Hempty.
  { intros P HP. eexists. split; [done|]. exists []. split; [done|]. split; [constructor|]. split; [by intros p ?%not_elem_of_nil|]. split; [constructor|].
    by split; [constructor|]. }
  case_bool_decide as Ec; [apply Hempty; by rewrite Ec|].
  destruct (if wait then env_connected env else Some true) as [[]|] eqn:Ew; [| |by eexists].
  2:{ apply Hempty. destruct wait; [|done]. rewrite Ew. by intros [[=]|[=]]. }
  assert (NoDup (cursor.*1)) as Hnd by (by apply NoDup_fmap_filter). 
  assert (Forall (λ c : Z * Z, is_Some (logs !! c.1) ∧ ts_ok c.2) cursor) as Hcur.
  { rewrite Forall_forall in Hsince |- *. intros c Hc. by apply Hsince, cursor_sub. }
  destruct (read_stored_spec env r logs reserved Henv cursor MAX_STORED_CLAIMS ∅ budget_production budget_production_ok Hnd Hcur) as (st & b1 & -> & Hb1 & Hst). cbn [obind].
  destruct st as [stored|]; [|by eexists]. destruct Hst as [_ Hst].
  destruct (fetch_pass_ok network latest (env_peers env 0) cursor stored (Hlatest 0%nat) [] [] b1 Hb1 ltac:(constructor)) as (p1 & b2 & -> & Hb2 & Hp1). cbn [obind].
  destruct p1 as [[hs failed]|]; [|by eexists]. destruct Hp1 as [Hhs Hk1]. cbn [fmap list_fmap app] in Hk1.
  destruct (recover_ok network latest env stored Hlatest SYNC_RECOVERY_MAX_ATTEMPTS 1%nat failed hs b2 Hb2 Hhs) as (p2 & b3 & -> & Hb3 & Hp2). cbn [obind].
  destruct p2 as [hs2|]; [|by eexists]. destruct Hp2 as [Hhs2 Hk2].
  destruct (finish_ok network latest stored hs2 [] b3 Hb3 Hhs2) as (hs3 & b4 & -> & Hhs3 & Hk3). cbn [obind app]. eexists. split; [done|].
  assert (hkey <$> hs3 ≡ₚ cursor) as Hkey by (by rewrite Hk3, Hk2).
  exists ((λ h, (hkey h, into_events h)) <$> hs3). split; [by rewrite <- list_fmap_compose|].
  assert (((λ h, (hkey h, into_events h)) <$> hs3).*1 = hkey <$> hs3) as -> by (by rewrite <- list_fmap_compose).
  split; [by rewrite Hkey|]. split.
  { intros p (h & -> & Hh)%list_elem_of_fmap. apply cursor_sub. fold cursor. rewrite <- Hkey. apply list_elem_of_fmap. by exists h. }
  split; [|split; [apply latest_timestamp_max|done]]. apply Forall_fmap, Forall_forall. intros h Hh. rewrite Forall_forall in Hhs3.
  destruct (Hhs3 h Hh) as [Hok Hstored]. destruct (into_events_ok network latest h Hok) as (Hfits & Hn & Hsort). split; [done|]. split; [done|].
  intros es Ees. cbn [compose fst snd hkey] in *. eapply Forall_impl; [exact Hfits|]. intros e He. apply fits_synced; [done|].
  assert (hkey h ∈ cursor) as Hin by (rewrite <- Hkey; apply list_elem_of_fmap; by exists h). unfold hkey in Hin.
  rewrite Hstored, (Hst _ _ es Hin Ees). intros x Hx Hle. apply taken_claimed; [done| |done..]. by eapply router_wf; [apply Henv|].
Qed.

(** A synced history fits the node, whatever the peers answered.  The fetch always ends; when it
    succeeds, what it hands on is, for each aggregate, a list of protocol events of that
    aggregate in the order of time, at or after the cursor and within the clock allowance, each
    under the identity of its payload and marked as the network's, no two at one timestamp, and
    none at the timestamp of an event that the node's store holds, or of a chain event of this
    startup, unless identity and payload digest agree. *)
Theorem synced_history_fits wait : ∃ res, handle_sync_request_event env wait since reserved network = Done res ∧
  match res with
  | Ok (events, ts) => ∃ parts, events = concat (parts.*2) ∧ NoDup (parts.*1.*1) ∧ (∀ p, p ∈ parts → p.1 ∈ since) ∧ Forall part_ok parts ∧
      Forall (λ e, ev_ts e <= ts) events ∧ (env_connected env = Some true ∨ wait = false → parts.*1 ≡ₚ eligible_sync_cursor since network)
  | Err _ => True
  end.
Proof. apply sync_spec. Qed.

(** The synced events of an aggregate: their timestamps are in range, no two share one, and none is taken. *)
Lemma parts_fit parts : NoDup (parts.*1.*1) → (∀ p, p ∈ parts → p.1 ∈ since) → Forall part_ok parts → latest <= U128_MAX →
  ∀ agg es e, logs !! agg = Some es → e ∈ concat (parts.*2) → ev_aggregate e = agg →
  ts_ok (ev_ts e) ∧ (∀ x, x ∈ taken agg es → ev_ts x = ev_ts e → agrees x e) ∧
  ∀ x, x ∈ concat (parts.*2) → ev_aggregate x = agg → ev_ts x = ev_ts e → x = e.
Proof.
  intros Hn Hin Hparts Hlat agg es e Ees He Ha. rewrite Forall_forall in Hparts.
  assert (∀ x, x ∈ concat (parts.*2) → ev_aggregate x = agg → ∃ p, p ∈ parts ∧ p.1.1 = agg ∧ x ∈ p.2) as Hfind.
  { intros x Hx Hxa. apply list_elem_of_In, in_concat in Hx as (l & Hl%list_elem_of_In & Hx%list_elem_of_In).
    apply list_elem_of_fmap in Hl as (p & -> & Hp). exists p. split; [done|]. split; [|done].
    destruct (proj1 (Forall_forall _ _) Hsince _ (Hin p Hp)) as [[es' Ees'] _]. destruct (Hparts p Hp) as (_ & _ & Hall).
    specialize (Hall es' Ees'). rewrite Forall_forall in Hall. destruct (Hall x Hx) as (_ & _ & <- & _). done. }
  destruct (Hfind e He Ha) as (p & Hp & Hpa & Hep). destruct (Hparts p Hp) as (_ & Hnp & Hall). rewrite Hpa in Hall.
  specialize (Hall es Ees). rewrite Forall_forall in Hall. destruct (Hall e Hep) as ((Hlo & Hhi) & _ & _ & _ & _ & _ & Hsame).
  assert (0 <= p.1.2) as Hpos by (by destruct (proj1 (Forall_forall _ _) Hsince _ (Hin p Hp)) as [_ [? _]]).
  split; [unfold ts_ok, U128_MAX in *; lia|]. split; [done|]. intros x Hx Hxa Et. destruct (Hfind x Hx Hxa) as (p' & Hp' & Hpa' & Hxp).
  assert (p' = p) as ->.
  { apply list_elem_of_lookup in Hp as [i Hi], Hp' as [i' Hi']. assert (i = i') as <-; [|congruence].
    apply (NoDup_lookup _ _ _ agg Hn); rewrite !list_lookup_fmap; [by rewrite Hi; cbn; rewrite Hpa|by rewrite Hi'; cbn; rewrite Hpa']. }
  apply list_elem_of_lookup in Hxp as [i Hi], Hep as [k Hk]. assert (i = k) as <-; [|congruence].
  apply (NoDup_lookup _ _ _ (ev_ts e) Hnp); rewrite list_lookup_fmap; [by rewrite Hi; cbn; rewrite Et|by rewrite Hk].
Qed.

(** C16: The history of a startup never stops the node's stores.  Whatever the peers answered: when
    the fetch succeeds, the store of an aggregate that is then given the chain events of the startup
    and the synced events of its aggregate, sorted together by time, keeps running, and holds every one
    of them in the end.  Assumed: every write of the log and of the index succeeds; payloads with the
    same digest are equal; the chain events agree with each other and with the store where they share
    a timestamp; what the node itself stored since the fetch ([own]) shares no timestamp with either
    history; each cursor names one store of the node; and numbers stay within their widths. *)
Theorem synced_history_stores wait events ts : handle_sync_request_event env wait since reserved network = Done (Ok (events, ts)) →
  latest <= U128_MAX → writes_ok → (∀ x y, payload_digest x = payload_digest y → x = y) → Forall (λ e, ts_ok (ev_ts e)) chain →
  ∀ agg (a : StoreActor (I:=I) (L:=L)) es own, logs !! agg = Some es → running a = true → store_rep (store a) (es ++ own) →
  (∀ x e, x ∈ own → e ∈ chain ++ events → ev_ts x ≠ ev_ts e) →
  Z.of_nat (length (es ++ own)) + Z.of_nat (length (chain ++ events)) < USIZE_MAX →
  let mine := List.filter (λ e, ev_aggregate e =? agg) (reconciled chain events) in
  running (actor_run a mine).2 = true ∧
  ∃ new, store_rep (store (actor_run a mine).2) ((es ++ own) ++ new) ∧
    ∀ e, e ∈ chain ++ events → ev_aggregate e = agg → ∃ x, x ∈ (es ++ own) ++ new ∧ same_event x e.
Proof.
  intros E Hlat Hwr Hdig Hcts agg a es own Ees Hrun Hs Hown Hlen mine. destruct (sync_spec wait) as (res & E' & Hres). rewrite E in E'. injection E' as <-.
  destruct Hres as (parts & Ev & Hn & Hin & Hparts & _).
  assert (∀ e, e ∈ mine ↔ e ∈ chain ++ events ∧ ev_aggregate e = agg) as Hmine.
  { intros e. unfold mine. rewrite list_elem_of_In, filter_In, <- list_elem_of_In, Z.eqb_eq. unfold reconciled, sort_by_timestamp. by rewrite merge_sort_Permutation. }
  assert (∀ e, e ∈ events → ev_aggregate e = agg → ts_ok (ev_ts e) ∧ (∀ x, x ∈ taken agg es → ev_ts x = ev_ts e → agrees x e) ∧
    ∀ x, x ∈ events → ev_aggregate x = agg → ev_ts x = ev_ts e → x = e) as Hnet by (intros e; rewrite Ev; by apply parts_fit).
  assert (∀ x e, x ∈ taken agg es ∨ x ∈ mine → e ∈ mine → ev_ts x = ev_ts e → agrees x e) as Hagree.
  { intros x e Hx [He Ha]%Hmine Et. apply elem_of_app in He as [He|He].
    - assert (x ∈ taken agg es ∨ x ∈ events ∧ ev_aggregate x = agg) as [Ht|[Hxe Hxa]].
      { destruct Hx as [?|[[?|?]%elem_of_app ?]%Hmine]; [by left|left; apply elem_of_taken; by right|by right]. }
      + apply elem_of_taken in Ht as [Ht|[Ht Hta]]; [|apply Hchain; [done..|congruence|done]].
        assert (agrees e x) as []; [|by split]. apply (Hheld es); [done|by rewrite Ha|done..].
      + destruct (Hnet x Hxe Hxa) as (_ & Hall & _). assert (agrees e x) as []; [|by split]. apply Hall; [apply elem_of_taken; by right|done].
    - destruct (Hnet e He Ha) as (_ & Hall & Huniq). destruct Hx as [Hx|[[Hx|Hx]%elem_of_app Hxa]%Hmine]; [by apply Hall| |].
      + apply Hall; [apply elem_of_taken; by right|done].
      + by rewrite (Huniq x Hx Hxa Et). }
  assert (∀ x e, agrees x e → ev_id x = ev_id e ∧ ev_data x = ev_data e) as Hsame by (intros x e [? Hd]; split; [done|by apply Hdig]).
  assert (Forall (λ e, ts_ok (ev_ts e)) mine) as Hts.
  { apply Forall_forall. intros e [[He|He]%elem_of_app Ha]%Hmine; [rewrite Forall_forall in Hcts; by apply Hcts|by apply Hnet]. }
  assert (Forall (compatible (es ++ own)) mine) as Hc.
  { apply Forall_forall. intros e He x [Hx|Hx]%elem_of_app Et; [|apply Hmine in He as [He _]; by destruct (Hown x e Hx He)].
    apply Hsame, Hagree; [left; apply elem_of_taken; by left|done..]. }
  assert (Forall (compatible mine) mine) as Hcm by (apply Forall_forall; intros e He x Hx Et; apply Hsame, Hagree; [by right|done..]).
  assert (Z.of_nat (length mine) <= Z.of_nat (length (chain ++ events))) as Hml.
  { apply inj_le. unfold mine. etransitivity; [apply List.filter_length_le|]. unfold reconciled, sort_by_timestamp. by rewrite merge_sort_Permutation. }
  pose proof (actor_run_running mine Hwr a (es ++ own) Hrun Hs Hts ltac:(lia) Hc Hcm) as Hok. split; [done|].
  destruct (actor_run_spec mine a (es ++ own) Hrun Hs Hts ltac:(lia)) as (new & pending & _ & _ & _ & _ & Hfinal). exists new.
  destruct (Hfinal Hok) as [Hrep Hall]. split; [done|]. intros e He Ha. apply Hall, Hmine. done.
Qed.
End Sync.
End Stored.

(** ** Concrete historical syncs

    A peer that serves its store and one that does not, payloads with readable kinds, and the theorems
    of historical sync at them. *)

Lemma ex_unsequenced_nonneg (e : LogEvent) : 0 <= 8 + Z.of_nat (length (ev_data e)).
Proof. lia. Qed.
Lemma ex_batch_nonneg (l : list LogEvent) : 0 <= 8 * Z.of_nat (length l).
Proof. lia. Qed.

(** A payload starts with 1 when it is a protocol event, and goes on with its identity. *)
#[export] Instance ex_payloads : Payloads := {
  data_kind d := match d with 1 :: _ => KKeyshareCreated | _ => KOther end;
  data_e3_id d := Some (mkE3id "1" 7);
  payload_id d := match d with _ :: id :: _ => id | _ => 0 end;
  payload_digest d := Z.pos (encode d);
  unsequenced_bytes e := 8 + Z.of_nat (length (ev_data e));
  batch_bytes l := 8 * Z.of_nat (length l);
  sync_reply_event_budget := 1000;
  unsequenced_bytes_nonneg := ex_unsequenced_nonneg;
  batch_bytes_nonneg := ex_batch_nonneg }.

Definition ex_responder : Responder := mkResponder ∅ (Live 10) local_unrestricted 0.

Definition ex_honest : Peer := honest_peer (λ _, true) (λ _, ex_responder) fed_router 3.

Lemma ex_admits (round : nat) : admits ex_responder 3 7 ∧ policy_clean (network ex_responder) 7 fed ∧ live_history ex_responder = Live 10.
Proof.
  split; [by repeat split; vm_compute|]. split; [|done]. intros e He Ha Hf. unfold fed in He.
  repeat (apply elem_of_cons in He as [->|He]; [vm_compute in Ha, Hf |- *; try done|]). by apply not_elem_of_nil in He.
Qed.

Lemma fed_at_7 : fed_logs !! 7 = Some fed.
Proof. done. Qed.

Lemma production_ok : budget_ok budget_production.
Proof. by repeat split. Qed.

(** The forwardable events of aggregate 7, in the order of time. *)
Example fed_wanted : wanted 7 (history fed 0) = [ev_b; ev_a].
Proof. vm_compute. done. Qed.

Lemma honest_sync_complete_witness :
  match fetch_all_batched_events_with_budget ex_honest 7 0 1 budget_production with
  | Done (Ok h, _) => ph_events h = wanted 7 (history fed 0) ∧ ph_observed_from h = live_since (Live 10)
  | Done (Err e, b') => e = CountOverflow ∨ budget_exhausted b' = true ∨ ∃ x, x ∈ fed ∧ is_forwardable_event x = true ∧ oversized x
  | _ => False
  end.
Proof.
  apply (honest_sync_complete (λ _, true) (λ _, ex_responder) fed_router fed_logs 3 7 fed (Live 10) fed_router_rep fed_at_7 ex_admits 0 1 budget_production production_ok);
    [split; [lia|reflexivity]|lia].
Defined.

(** One event a page: three pages. *)
Example honest_run : fetch_all_batched_events_with_budget ex_honest 7 0 1 budget_production =
  Done (Ok (mkPeerHistory [ev_b; ev_a] (Some 10)), mkBudget 2 2 16 512 50000 134217728 false).
Proof. vm_compute. reflexivity. Qed.

Lemma ex_batch_bound (l : list LogEvent) : (∀ e, e ∈ l → e ∈ fed) → Z.of_nat (length l) <= MAX_SYNC_BATCH_SIZE → batch_bytes l <= 800.
Proof. intros _. unfold MAX_SYNC_BATCH_SIZE. cbn [batch_bytes ex_payloads]. lia. Qed.

Lemma ex_fit x : x ∈ fed → is_forwardable_event x = true → unsequenced_bytes x <= sync_reply_event_budget.
Proof. intros Hx _. unfold fed in Hx. repeat (apply elem_of_cons in Hx as [->|Hx]; [done|]). by apply not_elem_of_nil in Hx. Qed.

Lemma ex_enough : enough 7 fed 800 0 budget_production.
Proof. by repeat split; vm_compute. Qed.

Lemma honest_sync_succeeds_witness : ∃ b', fetch_all_batched_events_with_budget ex_honest 7 0 1 budget_production =
  Done (Ok (mkPeerHistory (wanted 7 (history fed 0)) (live_since (Live 10))), b').
Proof.
  apply (honest_sync_succeeds (λ _, true) (λ _, ex_responder) fed_router fed_logs 3 7 fed (Live 10) fed_router_rep fed_at_7 ex_admits 0 1 budget_production 800
    production_ok); [split; [lia|reflexivity]|lia|lia|exact ex_batch_bound|done|exact ex_fit|exact ex_enough].
Defined.

(** A peer that never stops serving the same page, under a cursor that always moves. *)
Definition ex_endless : Peer := mkPeer (λ _, true) (λ _ fetch, Page (mkBatch [ev_a] (CursorNext (fetch_since fetch + 1)) 7 None)).

Lemma fetch_bounded_witness : ∃ r b', fetch_all_batched_events_with_budget ex_endless 7 0 100 (budget_new 5 50 1000) = Done (r, b') ∧ budget_ok b' ∧
  same_limits (budget_new 5 50 1000) b' ∧
  match r with
  | Ok h => Z.of_nat (length (ph_events h)) = events b' - events (budget_new 5 50 1000) ∧
      Z.of_nat (length (ph_events h)) <= max_events (budget_new 5 50 1000) - events (budget_new 5 50 1000)
  | Err _ => True
  end.
Proof. apply (fetch_bounded ex_endless 7 0 100 (budget_new 5 50 1000)). by repeat split. Defined.

Example endless_run : fetch_all_batched_events_with_budget ex_endless 7 0 100 (budget_new 5 50 1000) = Done (Err PageLimit, mkBudget 5 5 40 5 50 1000 true).
Proof. vm_compute. reflexivity. Qed.

(** ** Merging *)

Definition ev_b_late : LogEvent := ev 2 60 7 Net [1; 2].

Definition ex_merged : MergedEvents := match merge_all merged_empty [ev_b_late; ev_a; ev_b] with Ok m => m | Err _ => merged_empty end.
Definition ex_merged' : MergedEvents := match merge_all merged_empty [ev_b; ev_b_late; ev_a] with Ok m => m | Err _ => merged_empty end.

Lemma merge_order_independent_witness :
  ∀ id, (λ e, (ev_ts e, ev_data e)) <$> by_id ex_merged !! id = (λ e, (ev_ts e, ev_data e)) <$> by_id ex_merged' !! id.
Proof.
  apply (merge_order_independent [ev_b_late; ev_a; ev_b] [ev_b; ev_b_late; ev_a] ex_merged ex_merged'); [|vm_compute; reflexivity|vm_compute; reflexivity].
  solve_Permutation.
Defined.

(** Whether a merge succeeds does depend on the order: a copy can free the timestamp that another
    event needs. *)
Definition ev_e : LogEvent := ev 5 60 7 Net [1; 5].

Example merge_success_depends_on_order :
  (∃ m, merge_all merged_empty [ev_b_late; ev_b; ev_e] = Ok m) ∧ merge_all merged_empty [ev_b_late; ev_e; ev_b] = Err SharedTimestamp.
Proof. split; [eexists; vm_compute; reflexivity|vm_compute; reflexivity]. Qed.

(** ** A whole fetch *)

(** A node that stores nothing of aggregate 7 yet, an honest peer, one that answers nothing, and one
    that serves an event of no protocol kind and claims to have observed everything. *)
Definition ex_node : EventStoreRouter (I:=InMemSequenceIndex) (L:=InMemEventLog) := mkStoreRouter {[7 := empty_actor]} None 0.
Definition ex_node_logs : gmap Z (list LogEvent) := {[7 := []]}.

Definition ex_silent : Peer := mkPeer (λ _, true) (λ _ _, NoReply).
Definition ex_liar : Peer := mkPeer (λ _, true) (λ _ _, Page (mkBatch [ev_c] CursorDone 7 (Some 0))).
Definition ex_source (p : Peer) : Source := mkSource (Some 300) (λ _ _, p) (Ok 1000).

Definition ex_env : SyncEnv := mkEnv (λ _ _, Ok [ex_source ex_silent; ex_source ex_honest; ex_source ex_liar; ex_source ex_honest])
  (λ _, true) (node_page ex_node) (λ _, O) (λ _, true) (Some true).

Lemma ex_node_rep : router_rep ex_node ex_node_logs.
Proof.
  split.
  - intros agg. cbn [ex_node stores]. unfold ex_node_logs. by rewrite !lookup_singleton_is_Some.
  - intros agg a es Ha He. cbn [ex_node stores] in Ha. unfold ex_node_logs in He. apply lookup_singleton_Some in Ha as [<- <-], He as [_ <-].
    split; [done|apply empty_rep].
Qed.

Lemma ex_env_node : env_of_node ex_env ex_node ex_node_logs.
Proof.
  split; [apply ex_node_rep|]. split; [done|]. intros agg es He. unfold ex_node_logs in He. by apply lookup_singleton_Some in He as [_ <-].
Qed.

Lemma ex_since_ok : Forall (λ c : Z * Z, is_Some (ex_node_logs !! c.1) ∧ ts_ok c.2) [(7, 0)].
Proof. constructor; [|constructor]. split; [by eexists|done]. Qed.

Lemma ex_keys : NoDup ([(7, 0)].*1 : list Z).
Proof. apply NoDup_singleton. Qed.

Lemma ex_latest (round : nat) (agg : Z) l : env_peers ex_env round agg = Ok l → sources_ok 1000 l.
Proof. intros [= <-]. repeat constructor; cbn [src_latest ex_source]; by intros x [= <-]. Qed.

(** A chain event of the startup, between the peers' events. *)
Definition ev_chain : LogEvent := ev 6 70 7 Evm [1; 6].
Definition ex_chain : list LogEvent := [ev_chain].

Lemma ex_chain_agree (x y : LogEvent) : x ∈ ex_chain → y ∈ ex_chain → ev_aggregate x = ev_aggregate y → ev_ts x = ev_ts y → agrees x y.
Proof. by intros ->%list_elem_of_singleton ->%list_elem_of_singleton. Qed.

Lemma ex_chain_held es (x y : LogEvent) : x ∈ ex_chain → ex_node_logs !! ev_aggregate x = Some es → y ∈ es → ev_ts x = ev_ts y → agrees x y.
Proof. intros ->%list_elem_of_singleton. by intros [= <-] ?%not_elem_of_nil. Qed.

Lemma synced_history_fits_witness : ∃ res, handle_sync_request_event ex_env false [(7, 0)] (reserved_timestamps ex_chain) local_unrestricted = Done res ∧
  match res with
  | Ok (events, ts) => ∃ parts, events = concat (parts.*2) ∧ NoDup (parts.*1.*1) ∧ (∀ p, p ∈ parts → p.1 ∈ [(7, 0)]) ∧
      Forall (part_ok ex_node_logs local_unrestricted 1000 ex_chain) parts ∧ Forall (λ e, ev_ts e <= ts) events ∧
      (env_connected ex_env = Some true ∨ false = false → parts.*1 ≡ₚ eligible_sync_cursor [(7, 0)] local_unrestricted)
  | Err _ => True
  end.
Proof.
  exact (synced_history_fits ex_env ex_node ex_node_logs local_unrestricted 1000 [(7, 0)] ex_chain ex_env_node ex_keys ex_since_ok ex_latest
    ex_chain_agree ex_chain_held false).
Defined.

(** The silent peer and the liar are replaced by the peers after them. *)
Example ex_sync : handle_sync_request_event ex_env false [(7, 0)] (reserved_timestamps ex_chain) local_unrestricted =
  Done (Ok ([ev_b; with_source Net ev_a], 100)).
Proof. vm_compute. reflexivity. Qed.

(** A peer's event at the timestamp of a chain event is never handed on: every honest history fails
    here, and the fetch with it.  Without the reservation it would be, and would stop the store. *)
Example ex_reserved : handle_sync_request_event ex_env false [(7, 0)] (reserved_timestamps [ev 6 50 7 Evm [1; 6]]) local_unrestricted =
  Done (Err TooFewSources).
Proof. vm_compute. reflexivity. Qed.

Lemma ex_writes : writes_ok (I:=InMemSequenceIndex) (L:=InMemEventLog).
Proof. split; [|split]; intros; by eexists. Qed.

Lemma ex_digest (x y : Bytes) : payload_digest x = payload_digest y → x = y.
Proof. cbn [payload_digest ex_payloads]. intros [= E]. by apply (inj encode). Qed.

(** The node stored an event of its own after the fetch. *)
Definition ev_own : LogEvent := ev 8 500 7 Local_ [1; 8].
Definition own_actor : MemActor := (actor_run empty_actor [ev_own]).2.

Lemma own_actor_rep : store_rep (store own_actor) [ev_own].
Proof.
  destruct (actor_run_spec [ev_own] empty_actor [] eq_refl empty_rep ltac:(constructor; [by vm_compute|constructor]) eq_refl) as (new & pending & Er & _ & _ & _ & Hrun).
  assert (new = [ev_own]) as -> by (apply (number_inj 1); change (Z.of_nat (length ([] : list LogEvent)) + 1) with 1 in Er; rewrite <- Er; reflexivity).
  by apply Hrun.
Qed.

Local Abbreviation ex_mine := (List.filter (λ e, ev_aggregate e =? 7) (reconciled ex_chain [ev_b; with_source Net ev_a])).

Example ex_mine_sorted : ev_id <$> ex_mine = [2; 6; 1].
Proof. vm_compute. reflexivity. Qed.

Lemma ex_own_apart (x e : LogEvent) : x ∈ [ev_own] → e ∈ ex_chain ++ [ev_b; with_source Net ev_a] → ev_ts x ≠ ev_ts e.
Proof. intros ->%list_elem_of_singleton He. cbn in He. by repeat (apply elem_of_cons in He as [->|He]); [..|apply not_elem_of_nil in He]. Qed.

Lemma synced_history_stores_witness : running (actor_run own_actor ex_mine).2 = true ∧
  ∃ new, store_rep (store (actor_run own_actor ex_mine).2) (([] ++ [ev_own]) ++ new) ∧
    ∀ e, e ∈ ex_chain ++ [ev_b; with_source Net ev_a] → ev_aggregate e = 7 → ∃ x, x ∈ ([] ++ [ev_own]) ++ new ∧ same_event x e.
Proof.
  refine (synced_history_stores ex_env ex_node ex_node_logs local_unrestricted 1000 [(7, 0)] ex_chain ex_env_node ex_keys ex_since_ok ex_latest
    ex_chain_agree ex_chain_held false [ev_b; with_source Net ev_a] 100 ex_sync _ ex_writes ex_digest _ 7 own_actor [] [ev_own] _ _ own_actor_rep ex_own_apart _);
    [discriminate|constructor; [by vm_compute|constructor]|reflexivity|reflexivity|reflexivity].
Defined.
