(* ===== verification/KeyshareTiming.v ===== *)
(** * Timing of distributed key generation

    Model of crates/orchestration/keyshare/src/timeout_policy.rs: the cutoffs of the three
    collection phases inside the frozen DKG window, and the delays that the collectors arm.  Times
    are seconds as [u64] values in [Z]; the clock reading is an input.  An operator may set an
    override per phase in the environment; [env] gives the parsed value.  The texts that describe
    a timeout in the log are left out. *)

From S2P Require Import Prelude.
Local Open Scope Z_scope.

Definition saturating_mul (m a b : Z) : Z := Z.min m (a * b).

Definition ENCRYPTION_KEY_CUTOFF_BPS : Z := 1000.
Definition THRESHOLD_SHARE_CUTOFF_BPS : Z := 7500.
Definition DECRYPTION_KEY_SHARED_CUTOFF_BPS : Z := 10000.

Inductive DkgTimeoutPhase := EncryptionKeyCollection_ | ThresholdShareCollection_ | DecryptionKeySharedCollection_.

Global Instance phase_eq_dec : EqDecision DkgTimeoutPhase.
Proof. solve_decision. Defined.

Definition cutoff_bps (phase : DkgTimeoutPhase) : Z :=
  match phase with
  | EncryptionKeyCollection_ => ENCRYPTION_KEY_CUTOFF_BPS
  | ThresholdShareCollection_ => THRESHOLD_SHARE_CUTOFF_BPS
  | DecryptionKeySharedCollection_ => DECRYPTION_KEY_SHARED_CUTOFF_BPS
  end.

Inductive TimingError :=
| DeadlineUnavailable
| WindowUnavailable
| InvalidTiming
| DeadlinePassed (deadline now : Z)
| CutoffPassed (phase : DkgTimeoutPhase) (cutoff now : Z).

Record ThresholdShareSchedule := mkSchedule
  { cutoff_delay : Z; deadline_delay : Z; sched_cutoff_reached : bool }.

Definition phase_cutoff_secs (dkg_window_secs bps : Z) : Z :=
  let scaled := saturating_mul U64_MAX dkg_window_secs bps in
  Z.max (scaled / 10000) 1.

Definition phase_cutoff_unix_secs (deadline window : Z) (phase : DkgTimeoutPhase) : Z :=
  let start := saturating_sub deadline window in
  Z.min (saturating_add U64_MAX start (phase_cutoff_secs window (cutoff_bps phase))) deadline.

(** The timing that a keyshare has read, or what is missing. *)
Definition canonical_timing (deadline window : option Z) : result (Z * Z) TimingError :=
  match deadline with
  | None => Err DeadlineUnavailable
  | Some d => match window with None => Err WindowUnavailable | Some w => Ok (d, w) end
  end.

Definition past_phase_cutoff (phase : DkgTimeoutPhase) (deadline window : option Z) (now : Z)
    : result bool TimingError :=
  let? (d, w) := canonical_timing deadline window in
  Ok (phase_cutoff_unix_secs d w phase <=? now).

Definition past_dkg_deadline (deadline : option Z) (now : Z) : result bool TimingError :=
  match deadline with None => Err DeadlineUnavailable | Some d => Ok (d <=? now) end.

(** The parsed environment value counts only when it is positive. *)
Definition parse_env_secs (parsed : option Z) : option Z :=
  match parsed with Some secs => if 0 <? secs then Some secs else None | None => None end.

Definition shortened (override : option Z) (remaining : Z) : Z :=
  match override with Some o => Z.min o remaining | None => remaining end.

Definition resolve_timeout_from_inputs (phase : DkgTimeoutPhase) (override : option Z) (deadline window now : Z)
    : result Z TimingError :=
  if negb ((0 <? deadline) && (0 <? window)) then Err InvalidTiming
  else
    let cutoff := phase_cutoff_unix_secs deadline window phase in
    if negb (now <? cutoff) then Err (CutoffPassed phase cutoff now)
    else Ok (shortened override (saturating_sub cutoff now)).

Definition resolve_timeout (env : DkgTimeoutPhase → option Z) (phase : DkgTimeoutPhase)
    (deadline window : option Z) (now : Z) : result Z TimingError :=
  let? (d, w) := canonical_timing deadline window in
  resolve_timeout_from_inputs phase (parse_env_secs (env phase)) d w now.

Definition resolve_encryption_key_timeout_from_inputs (override : option Z) (deadline window now : Z)
    : result (option Z) TimingError :=
  if negb ((0 <? deadline) && (0 <? window)) then Err InvalidTiming
  else if negb (now <? deadline) then Err (DeadlinePassed deadline now)
  else if phase_cutoff_unix_secs deadline window EncryptionKeyCollection_ <=? now then Ok None
  else
    let? d := resolve_timeout_from_inputs EncryptionKeyCollection_ override deadline window now in
    Ok (Some d).

Definition resolve_encryption_key_timeout (env : DkgTimeoutPhase → option Z) (deadline window : option Z) (now : Z)
    : result (option Z) TimingError :=
  let? (d, w) := canonical_timing deadline window in
  resolve_encryption_key_timeout_from_inputs (parse_env_secs (env EncryptionKeyCollection_)) d w now.

Definition resolve_threshold_share_schedule_from_inputs (override : option Z) (deadline window now : Z)
    : result ThresholdShareSchedule TimingError :=
  if negb ((0 <? deadline) && (0 <? window)) then Err InvalidTiming
  else if negb (now <? deadline) then Err (DeadlinePassed deadline now)
  else
    let cutoff := phase_cutoff_unix_secs deadline window ThresholdShareCollection_ in
    Ok (mkSchedule (shortened override (saturating_sub cutoff now)) (saturating_sub deadline now) (cutoff <=? now)).

Definition resolve_threshold_share_schedule (env : DkgTimeoutPhase → option Z) (deadline window : option Z) (now : Z)
    : result ThresholdShareSchedule TimingError :=
  let? (d, w) := canonical_timing deadline window in
  resolve_threshold_share_schedule_from_inputs (parse_env_secs (env ThresholdShareCollection_)) d w now.

(** ** Cutoffs *)

(** A later phase has a later cutoff. *)
Definition phase_before (p q : DkgTimeoutPhase) : Prop := (cutoff_bps p <= cutoff_bps q)%Z.

Lemma cutoff_bps_range p : 1000 <= cutoff_bps p <= 10000.
Proof. destruct p; cbn; unfold ENCRYPTION_KEY_CUTOFF_BPS, THRESHOLD_SHARE_CUTOFF_BPS, DECRYPTION_KEY_SHARED_CUTOFF_BPS; lia. Qed.

Lemma phase_cutoff_secs_mono w a b : 0 <= w → a <= b → phase_cutoff_secs w a <= phase_cutoff_secs w b.
Proof.
  intros Hw Hab. unfold phase_cutoff_secs, saturating_mul. apply Z.max_le_compat_r, Z.div_le_mono; [lia|].
  apply Z.min_le_compat_l. nia.
Qed.

(** The share of the window that a phase takes never exceeds the window. *)
Lemma phase_cutoff_secs_le w p : 0 < w → 1 <= phase_cutoff_secs w (cutoff_bps p) <= w.
Proof.
  intros Hw. pose proof (cutoff_bps_range p). unfold phase_cutoff_secs, saturating_mul. split; [lia|].
  apply Z.max_lub; [|lia]. etransitivity; [apply Z.div_le_mono; [lia|apply Z.le_min_r]|].
  apply Z.div_le_upper_bound; nia.
Qed.

(** Without saturation a phase takes its share exactly. *)
Lemma phase_cutoff_secs_exact w p :
  10000 <= w * cutoff_bps p → w * 10000 <= U64_MAX → 0 < w →
  phase_cutoff_secs w (cutoff_bps p) = w * cutoff_bps p / 10000.
Proof.
  intros Hbig Hsat Hw. pose proof (cutoff_bps_range p). unfold phase_cutoff_secs, saturating_mul.
  rewrite Z.min_r by nia. rewrite Z.max_l; [done|]. apply Z.div_le_lower_bound; lia.
Qed.

Lemma cutoff_bounds d w p : 0 < d → 0 < w → d <= U64_MAX →
  saturating_sub d w < phase_cutoff_unix_secs d w p <= d.
Proof.
  intros Hd Hw Hmax. pose proof (phase_cutoff_secs_le w p Hw).
  unfold phase_cutoff_unix_secs, saturating_sub, saturating_add. lia.
Qed.

Lemma cutoff_mono d w p q : 0 < w → phase_before p q →
  phase_cutoff_unix_secs d w p <= phase_cutoff_unix_secs d w q.
Proof.
  intros Hw Hpq. pose proof (phase_cutoff_secs_mono w _ _ ltac:(lia) Hpq).
  unfold phase_cutoff_unix_secs, saturating_add. lia.
Qed.

Lemma last_cutoff_is_deadline d w : 0 < d → 0 < w → d <= U64_MAX → w * 10000 <= U64_MAX →
  phase_cutoff_unix_secs d w DecryptionKeySharedCollection_ = d.
Proof.
  intros Hd Hw Hmax Hsat. unfold phase_cutoff_unix_secs, saturating_add, saturating_sub.
  rewrite phase_cutoff_secs_exact by (cbn; unfold DECRYPTION_KEY_SHARED_CUTOFF_BPS; lia).
  cbn. unfold DECRYPTION_KEY_SHARED_CUTOFF_BPS. rewrite Z.div_mul by lia. lia.
Qed.

Lemma shortened_le o r : shortened o r <= r.
Proof. destruct o; cbn; lia. Qed.

Lemma parse_env_secs_positive v o : parse_env_secs v = Some o → 0 < o.
Proof. unfold parse_env_secs. intros Hp. branches Hp. bool_to_prop. lia. Qed.

Lemma shortened_positive v r : 0 < r → 0 < shortened (parse_env_secs v) r.
Proof.
  intros Hr. destruct (parse_env_secs v) as [o|] eqn:Eo; cbn; [|lia].
  pose proof (parse_env_secs_positive _ _ Eo). lia.
Qed.

Lemma valid_timing d w : 0 < d → 0 < w → negb ((0 <? d) && (0 <? w)) = false.
Proof. intros Hd Hw. by rewrite (proj2 (Z.ltb_lt 0 d)), (proj2 (Z.ltb_lt 0 w)). Qed.

(** The admission test of a phase decides whether a timer exists, and the timer keeps the cutoff. *)
Lemma timeout_agrees env phase d w now : 0 < d → 0 < w →
  match past_phase_cutoff phase (Some d) (Some w) now with
  | Ok false => ∃ delay, resolve_timeout env phase (Some d) (Some w) now = Ok delay ∧
      0 < delay ∧ now + delay <= phase_cutoff_unix_secs d w phase
  | Ok true => resolve_timeout env phase (Some d) (Some w) now =
      Err (CutoffPassed phase (phase_cutoff_unix_secs d w phase) now)
  | Err _ => False
  end.
Proof.
  intros Hd Hw. unfold past_phase_cutoff, resolve_timeout, resolve_timeout_from_inputs. cbn.
  rewrite valid_timing by done. set (c := phase_cutoff_unix_secs d w phase).
  destruct (c <=? now) eqn:Ec; bool_to_prop.
  { by rewrite (proj2 (Z.ltb_ge now c)) by lia. }
  rewrite (proj2 (Z.ltb_lt now c)) by lia. cbn. eexists; split; [done|].
  pose proof (shortened_le (parse_env_secs (env phase)) (saturating_sub c now)).
  unfold saturating_sub in *. split; [apply shortened_positive; lia|lia].
Qed.

(** A collector for recorded keys can be built at any time before the deadline. *)
Lemma key_timeout_available env d w now : 0 < d → 0 < w → now < d →
  is_ok (resolve_encryption_key_timeout env (Some d) (Some w) now).
Proof.
  intros Hd Hw Hnow. pose proof (timeout_agrees env EncryptionKeyCollection_ d w now Hd Hw) as Ht.
  unfold resolve_encryption_key_timeout, resolve_encryption_key_timeout_from_inputs. cbn.
  rewrite valid_timing, (proj2 (Z.ltb_lt now d)) by lia. cbn.
  unfold past_phase_cutoff, resolve_timeout in Ht. cbn in Ht. case_match; [done|].
  by destruct Ht as (delay & -> & _).
Qed.

(** The soft cutoff is reached exactly when no delay is left for it. *)
Lemma cutoff_delay_zero v c now : (c <=? now) = true ↔ shortened (parse_env_secs v) (saturating_sub c now) = 0.
Proof.
  pose proof (shortened_le (parse_env_secs v) (saturating_sub c now)).
  rewrite Z.leb_le. split; intros Hc.
  - assert (saturating_sub c now = 0) as -> by (unfold saturating_sub; lia).
    destruct (parse_env_secs v) as [o|] eqn:Eo; [|done]. cbn. pose proof (parse_env_secs_positive _ _ Eo). lia.
  - destruct (decide (c <= now)); [done|].
    pose proof (shortened_positive v (saturating_sub c now) ltac:(unfold saturating_sub; lia)). lia.
Qed.

Lemma shortened_nonneg v c now : 0 <= shortened (parse_env_secs v) (saturating_sub c now).
Proof.
  destruct (decide (c <= now)) as [Hc|Hc].
  - assert ((c <=? now) = true) as Hle by (apply Z.leb_le; lia). apply (cutoff_delay_zero v) in Hle. lia.
  - apply Z.lt_le_incl, shortened_positive. unfold saturating_sub. lia.
Qed.

(** C35: The three cutoffs of a DKG lie inside its window in the order of the phases, and the last
    one is the deadline.  An input that is admitted at some time always finds a collector whose
    timer fires later, no later than the cutoff: the admission test and the timer agree, whatever
    the operator overrides; a timer for an input that is not admitted is refused.  The schedule of
    the share collector keeps the deadline exactly and an override can only advance the soft
    cutoff. *)
Theorem dkg_timers_agree (env : DkgTimeoutPhase → option Z) (d w now : Z) :
  0 < d <= U64_MAX → 0 < w → w * 10000 <= U64_MAX → 0 <= now →
  (saturating_sub d w < phase_cutoff_unix_secs d w EncryptionKeyCollection_ <=
     phase_cutoff_unix_secs d w ThresholdShareCollection_ ∧
   phase_cutoff_unix_secs d w ThresholdShareCollection_ <=
     phase_cutoff_unix_secs d w DecryptionKeySharedCollection_ ∧
   phase_cutoff_unix_secs d w DecryptionKeySharedCollection_ = d) ∧
  (∀ phase, match past_phase_cutoff phase (Some d) (Some w) now with
    | Ok false => ∃ delay, resolve_timeout env phase (Some d) (Some w) now = Ok delay ∧
        0 < delay ∧ now + delay <= phase_cutoff_unix_secs d w phase
    | Ok true => resolve_timeout env phase (Some d) (Some w) now =
        Err (CutoffPassed phase (phase_cutoff_unix_secs d w phase) now)
    | Err _ => False
    end) ∧
  match past_dkg_deadline (Some d) now with
  | Ok false => ∃ s, resolve_threshold_share_schedule env (Some d) (Some w) now = Ok s ∧
      now + deadline_delay s = d ∧ 0 <= cutoff_delay s <= deadline_delay s ∧
      (sched_cutoff_reached s = true ↔ cutoff_delay s = 0) ∧
      is_ok (resolve_encryption_key_timeout env (Some d) (Some w) now)
  | _ => resolve_threshold_share_schedule env (Some d) (Some w) now = Err (DeadlinePassed d now)
  end.
Proof.
  intros [Hd Hmax] Hw Hsat Hnow. split_and!.
  - apply cutoff_bounds; lia.
  - by apply cutoff_mono.
  - by apply cutoff_mono.
  - by apply last_cutoff_is_deadline.
  - intros phase. by apply timeout_agrees.
  - unfold past_dkg_deadline, resolve_threshold_share_schedule, resolve_threshold_share_schedule_from_inputs. cbn.
    rewrite valid_timing by done. destruct (d <=? now) eqn:Edl; bool_to_prop.
    { by rewrite (proj2 (Z.ltb_ge now d)) by lia. }
    rewrite (proj2 (Z.ltb_lt now d)) by lia. cbn. eexists; split; [done|]. cbn.
    pose proof (cutoff_bounds d w ThresholdShareCollection_ Hd Hw Hmax) as Hc.
    set (c := phase_cutoff_unix_secs d w ThresholdShareCollection_) in *.
    pose proof (shortened_le (parse_env_secs (env ThresholdShareCollection_)) (saturating_sub c now)).
    split; [unfold saturating_sub; lia|].
    split; [split; [apply shortened_nonneg|unfold saturating_sub in *; lia]|].
    split; [apply cutoff_delay_zero|]. apply key_timeout_available; lia.
Qed.

Lemma dkg_timers_agree_witness :
  resolve_timeout (λ _, Some 45) DecryptionKeySharedCollection_ (Some 8200) (Some 7200) 8000 = Ok 45 ∧
  phase_cutoff_unix_secs 8200 7200 EncryptionKeyCollection_ = 1720 ∧
  phase_cutoff_unix_secs 8200 7200 DecryptionKeySharedCollection_ = 8200.
Proof.
  split; [reflexivity|]. split; [reflexivity|].
  exact (proj2 (proj2 (proj1 (dkg_timers_agree (λ _, Some 45) 8200 7200 8000
    ltac:(unfold U64_MAX; lia) ltac:(lia) ltac:(unfold U64_MAX; lia) ltac:(lia))))).
Defined.
