(* ===== verification/KeyshareEvents.v ===== *)
(** * Events of distributed key generation

    The messages that ciphernodes exchange while they generate a key, as in
    crates/events/src/interfold_event (encryption_key_created.rs, threshold_share_created.rs,
    decryption_key_shared.rs, ciphernode_selected.rs, dkg_coordination.rs) and the encrypted
    shares of crates/bfv/threshold/src/shares/bfv_encrypted.rs, with the digests that dealers
    sign.  Serialized forms are the class [DkgBytes].  Party ids are [u64] values, as [nat]. *)

From S2P Require Import Prelude Events CommitmentLinks NodeRegistry Orchestration.
Local Open Scope nat_scope.

Abbreviation PartyId := nat.

(** ** Circuit directories (crates/zk/config/src/circuit.rs) *)

Definition circuit_as_str (c : CircuitName) : string :=
  match c with
  | PkBfv => "pk" | PkGeneration => "pk_generation" | SkShareComputation => "sk_share_computation"
  | ESmShareComputation => "e_sm_share_computation" | ShareEncryption => "share_encryption"
  | DkgShareDecryption => "share_decryption" | PkAggregation => "pk_aggregation"
  | ThresholdShareDecryption => "share_decryption"
  | DecryptedSharesAggregation => "decrypted_shares_aggregation"
  | C3Fold => "c3_fold" | C3FoldKernel => "c3_fold_kernel" | C6Fold => "c6_fold"
  | C6FoldKernel => "c6_fold_kernel" | C2abFold => "c2ab_fold" | C3abFold => "c3ab_fold"
  | C4abFold => "c4ab_fold" | NodeFold => "node_fold" | NodesFold => "nodes_fold"
  | NodesFoldKernel => "nodes_fold_kernel" | DkgAggregator => "dkg_aggregator"
  | DecryptionAggregator => "decryption_aggregator"
  end.

Definition circuit_group (c : CircuitName) : string :=
  match c with
  | PkBfv | SkShareComputation | ESmShareComputation | ShareEncryption | DkgShareDecryption => "dkg"
  | PkGeneration | ThresholdShareDecryption | PkAggregation | DecryptedSharesAggregation => "threshold"
  | _ => "recursive_aggregation"
  end.

Definition dir_path (c : CircuitName) : string := (circuit_group c ++ "/" ++ circuit_as_str c)%string.

(** ** Encrypted shares *)

(** One ciphertext per modulus. *)
Abbreviation BfvEncryptedShare := (list Bytes).

(** One slot per recipient; a dealer skips a slot with [None]. *)
Abbreviation BfvEncryptedShares := (list (option BfvEncryptedShare)).

Definition clone_share (shares : BfvEncryptedShares) (party_id : nat) : option BfvEncryptedShare :=
  mjoin (shares !! party_id).

Definition num_moduli (share : BfvEncryptedShare) : nat := length share.

Record ThresholdShare := mkThresholdShare {
  ts_party_id : PartyId; ts_pk_share : Bytes;
  sk_sss : BfvEncryptedShares; esi_sss : list BfvEncryptedShares }.

Global Instance ThresholdShare_eq_dec : EqDecision ThresholdShare.
Proof. solve_decision. Defined.

Definition shares_extract_for_party (shares : BfvEncryptedShares) (party_id : nat) : option BfvEncryptedShares :=
  share ← clone_share shares party_id; Some [Some share].

(** [ThresholdShare::extract_for_party] *)
Definition extract_for_party (t : ThresholdShare) (recipient : nat) : option ThresholdShare :=
  sk ← shares_extract_for_party (sk_sss t) recipient;
  esi ← mapM (λ s, shares_extract_for_party s recipient) (esi_sss t);
  Some (mkThresholdShare (ts_party_id t) (ts_pk_share t) sk esi).

(** ** Keys, shares and C4 bundles *)

Record EncryptionKey := mkEncryptionKey {
  ek_party_id : PartyId; pk_bfv : Bytes; ek_proof : option Proof_; ek_signed_payload : option SignedProofPayload }.

Global Instance EncryptionKey_eq_dec : EqDecision EncryptionKey.
Proof. solve_decision. Defined.

Record EncryptionKeyCreated := mkEncryptionKeyCreated { ekc_e3_id : E3id; ekc_key : EncryptionKey; ekc_external : bool }.

Record ThresholdShareCreated := mkShareMessage {
  tsc_e3_id : E3id; tsc_share : ThresholdShare; target_party_id : PartyId; tsc_external : bool;
  signed_c2a_proof : option SignedProofPayload; signed_c2b_proof : option SignedProofPayload;
  signed_c3a_proofs : list SignedProofPayload; signed_c3b_proofs : list SignedProofPayload;
  tsc_signature : Bytes }.

Global Instance ThresholdShareCreated_eq_dec : EqDecision ThresholdShareCreated.
Proof. solve_decision. Defined.

(** The proofs that came with a share (collect_threshold_shares.rs). *)
Record ReceivedShareProofs := mkProofs {
  rp_c2a : option SignedProofPayload; rp_c2b : option SignedProofPayload;
  rp_c3a : list SignedProofPayload; rp_c3b : list SignedProofPayload }.

Definition no_proofs : ReceivedShareProofs := mkProofs None None [] [].

(** [AllThresholdSharesCollected::new] *)
Definition new_batch (shares : gmap PartyId ThresholdShare) (proofs : gmap PartyId ReceivedShareProofs)
    : list (ThresholdShare * ReceivedShareProofs) :=
  (λ '(pid, share), (share, default no_proofs (proofs !! pid))) <$> btree_list shares.

Record DecryptionKeyShared := mkKeyShared {
  dks_e3_id : E3id; dks_party_id : PartyId; dks_node : string;
  signed_sk_decryption_proof : SignedProofPayload; signed_e_sm_decryption_proofs : list SignedProofPayload;
  dks_external : bool; dks_signature : Bytes }.

Record CiphernodeSelected := mkSelected {
  cs_e3_id : E3id; cs_threshold_m : nat; cs_threshold_n : nat; cs_seed : Z; error_size : Bytes;
  cs_params_preset : BfvPreset; cs_params : Bytes; cs_party_id : PartyId;
  (** the finalized committee in the order of the party ids *)
  committee : list string }.

Record AggregatorChanged := mkAggregatorChanged
  { ac_e3_id : E3id; ac_active_party_id : option PartyId; ac_is_aggregator : bool }.

(** Serialized forms ([bincode::serialize]). *)
Class DkgBytes := {
  bincode_e3_id : E3id → Bytes;
  bincode_share : ThresholdShare → Bytes;
  bincode_share_proofs : option SignedProofPayload → option SignedProofPayload →
    list SignedProofPayload → list SignedProofPayload → Bytes;
  bincode_c4_proofs : SignedProofPayload → list SignedProofPayload → Bytes }.

Section Signatures.
Context `{AlloyOps} `{DkgBytes}.

(** [ProofPayload::statement_digest]: the proof bytes are not part of it. *)
Definition statement_digest (p : ProofPayload) : option B256 :=
  e3 ← u256_from_decimal (e3_num (pp_e3_id p));
  Some (keccak256 (abi_encode
    [AbiBytes32 (keccak256 (str_bytes "InterfoldProofStatement(uint256 chainId,uint256 e3Id,uint256 proofType,bytes32 circuitHash,bytes32 publicSignalsHash)"));
     AbiUint (chain_id (pp_e3_id p)); AbiUint e3; AbiUint (proof_type_u8 (pp_proof_type p));
     AbiBytes32 (keccak256 (str_bytes (dir_path (circuit (pp_proof p)))));
     AbiBytes32 (keccak256 (public_signals (pp_proof p)))])).

(** Transport origin is excluded because receipt changes it. *)
Definition share_digest (m : ThresholdShareCreated) : B256 :=
  keccak256 (abi_encode
    [AbiBytes32 (keccak256 (str_bytes "InterfoldThresholdShare(bytes32 e3IdHash,uint256 dealer,uint256 recipient,bytes32 shareHash,bytes32 proofsHash)"));
     AbiBytes32 (keccak256 (bincode_e3_id (tsc_e3_id m)));
     AbiUint (Z.of_nat (ts_party_id (tsc_share m))); AbiUint (Z.of_nat (target_party_id m));
     AbiBytes32 (keccak256 (bincode_share (tsc_share m)));
     AbiBytes32 (keccak256 (bincode_share_proofs (signed_c2a_proof m) (signed_c2b_proof m)
       (signed_c3a_proofs m) (signed_c3b_proofs m)))]).

Definition share_recover_address (m : ThresholdShareCreated) : option Address :=
  recover_address_from_prehash (tsc_signature m) (share_digest m).

Definition key_share_digest (m : DecryptionKeyShared) : B256 :=
  keccak256 (abi_encode
    [AbiBytes32 (keccak256 (str_bytes "InterfoldDecryptionKeyShare(bytes32 e3IdHash,uint256 dealer,bytes32 nodeHash,bytes32 proofsHash)"));
     AbiBytes32 (keccak256 (bincode_e3_id (dks_e3_id m))); AbiUint (Z.of_nat (dks_party_id m));
     AbiBytes32 (keccak256 (str_bytes (dks_node m)));
     AbiBytes32 (keccak256 (bincode_c4_proofs (signed_sk_decryption_proof m) (signed_e_sm_decryption_proofs m)))]).

Definition key_share_recover_address (m : DecryptionKeyShared) : option Address :=
  recover_address_from_prehash (dks_signature m) (key_share_digest m).

End Signatures.

(** ** Readiness and rosters (dkg_coordination.rs) *)

(** One dealer's exact public key and C2 proof pair. *)
Record DkgDealer := mkDealer { d_party_id : PartyId; contribution_hash : B256 }.

Global Instance DkgDealer_eq_dec : EqDecision DkgDealer.
Proof. solve_decision. Defined.

Inductive DkgCoordinationKind := Ready | Roster.

Global Instance DkgCoordinationKind_eq_dec : EqDecision DkgCoordinationKind.
Proof. solve_decision. Defined.

Record DkgCoordination := mkCoordination {
  co_e3_id : E3id; co_interfold_address : Address; co_party_id : PartyId; co_kind : DkgCoordinationKind;
  dealers : list DkgDealer; co_signature : Bytes }.

Global Instance DkgCoordination_eq_dec : EqDecision DkgCoordination.
Proof. solve_decision. Defined.

Definition dealer_ids (l : list DkgDealer) : list PartyId := d_party_id <$> l.

(** [windows(2).all(|pair| pair[0].party_id < pair[1].party_id)] *)
Fixpoint ascending (l : list DkgDealer) : bool :=
  match l with
  | d :: (d' :: _) as rest => (d_party_id d <? d_party_id d') && ascending rest
  | _ => true
  end.

Section Coordination.
Context `{AlloyOps}.

Definition coordination_digest (m : DkgCoordination) : option B256 :=
  e3 ← u256_from_decimal (e3_num (co_e3_id m));
  let kind := match co_kind m with Ready => 0%Z | Roster => 1%Z end in
  let dealers_hash := keccak256 (abi_encode
    [AbiUints (Z.of_nat <$> dealer_ids (dealers m)); AbiBytes32s (contribution_hash <$> dealers m)]) in
  Some (keccak256 (abi_encode
    [AbiBytes32 (keccak256 (str_bytes "InterfoldDkgCoordination(uint256 chainId,address interfold,uint256 e3Id,uint256 partyId,uint256 kind,bytes32 dealersHash)"));
     AbiUint (chain_id (co_e3_id m)); AbiAddress (co_interfold_address m); AbiUint e3;
     AbiUint (Z.of_nat (co_party_id m)); AbiUint kind; AbiBytes32 dealers_hash])).

Definition sign_coordination (e3_id : E3id) (interfold : Address) (party_id : PartyId)
    (kind : DkgCoordinationKind) (l : list DkgDealer) (signer : PrivateKeySigner) : option DkgCoordination :=
  let message := mkCoordination e3_id interfold party_id kind l [] in
  d ← coordination_digest message;
  sig ← sign_hash_sync signer d;
  Some (mkCoordination e3_id interfold party_id kind l sig).

Definition coordination_recover_address (m : DkgCoordination) : option Address :=
  d ← coordination_digest m;
  recover_address_from_prehash (co_signature m) d.
End Coordination.

Definition has_canonical_dealers (m : DkgCoordination) (committee_n : nat) : bool :=
  ascending (dealers m) &&
  match last (dealers m) with None => true | Some d => d_party_id d <? committee_n end.

(** ** Lemmas *)

Lemma ascending_sorted l : ascending l = true ↔ StronglySorted lt (dealer_ids l).
Proof.
  induction l as [|d l IH]; [split; [constructor|done]|].
  destruct l as [|d' l]; [split; [by repeat constructor|done]|].
  cbn [ascending]. rewrite andb_true_iff, Nat.ltb_lt, IH. unfold dealer_ids. cbn [fmap list_fmap]. split.
  - intros [Hlt Hs]. apply StronglySorted_cons. split; [|done].
    apply StronglySorted_cons in Hs as [Hall Hs]. constructor; [done|].
    eapply Forall_impl; [exact Hall|]. cbn. intros x Hx. lia.
  - intros Hs. apply StronglySorted_cons in Hs as [Hall Hs]. apply Forall_cons in Hall as [Hlt _]. done.
Qed.

(** Canonical dealers are in the committee, in the order of their ids and without repetition. *)
Lemma canonical_dealers m n : has_canonical_dealers m n = true →
  StronglySorted lt (dealer_ids (dealers m)) ∧ Forall (λ p, p < n) (dealer_ids (dealers m)).
Proof.
  unfold has_canonical_dealers. rewrite andb_true_iff, ascending_sorted. intros [Hs Hl]. split; [done|].
  destruct (dealers m) as [|x l _] using rev_ind; [constructor|].
  rewrite last_snoc in Hl. apply Nat.ltb_lt in Hl. unfold dealer_ids in *. rewrite fmap_app in *.
  apply Forall_app. split; [|by repeat constructor]. apply Forall_forall. intros p Hp.
  apply StronglySorted_app in Hs as (Hlt & _ & _). specialize (Hlt p (d_party_id x) Hp ltac:(set_solver)). lia.
Qed.

Lemma sorted_lt_NoDup (l : list nat) : StronglySorted lt l → NoDup l.
Proof.
  induction 1 as [|x l Hs IH Hall]; constructor; [|done].
  intros Hx. rewrite Forall_forall in Hall. specialize (Hall x Hx). lia.
Qed.

Section Coordination_laws.
Context `{AlloyLaws}.

(** A signed message recovers to its signer and carries what was asked for. *)
Lemma sign_coordination_spec e3 interfold p kind l k m :
  sign_coordination e3 interfold p kind l k = Some m →
  coordination_recover_address m = Some (signer_address k) ∧
  co_e3_id m = e3 ∧ co_interfold_address m = interfold ∧ co_party_id m = p ∧ co_kind m = kind ∧ dealers m = l.
Proof.
  unfold sign_coordination, coordination_recover_address, coordination_digest. cbn.
  destruct (u256_from_decimal (e3_num e3)) as [n|] eqn:En; cbn; [|done].
  destruct (sign_hash_sync k _) as [sig|] eqn:Es; cbn; [|done]. intros [= <-]. cbn.
  rewrite En. cbn. split; [|done]. by apply recover_sign_hash.
Qed.
End Coordination_laws.
