(* ===== verification/Tally.v ===== *)
(** * Tallies

    The abstract account of a collection: the parties it waits for and what the others delivered.
    The three collections of key generation keep it while they are open; here is what it holds
    after any sequence of deliveries and expulsions. *)

From S2P Require Import Prelude.
Local Open Scope nat_scope.

Section Tally.
Context {V : Type}.

Record Tally := mkTally { waiting : gset nat; got : gmap nat V }.

Inductive TallyOp := Deliver (p : nat) (v : V) | Expel (p : nat).

Definition tally_step (t : Tally) (op : TallyOp) : Tally :=
  match op with
  | Deliver p v => if bool_decide (p ∈ waiting t) then mkTally (waiting t ∖ {[p]}) (<[p := v]> (got t)) else t
  | Expel p =>
      if bool_decide (p ∈ waiting t) then mkTally (waiting t ∖ {[p]}) (got t)
      else mkTally (waiting t) (delete p (got t))
  end.

Definition tally (start : gset nat) (ops : list TallyOp) : Tally := foldl tally_step (mkTally start ∅) ops.

Definition op_party (op : TallyOp) : nat := match op with Deliver p _ | Expel p => p end.

(** The parties that the operations name, and those they expel. *)
Definition named (ops : list TallyOp) : gset nat := list_to_set (op_party <$> ops).

Definition expelled (ops : list TallyOp) : gset nat :=
  list_to_set (omap (λ op, match op with Expel p => Some p | _ => None end) ops).

(** What a party delivered first. *)
Definition first_delivery (ops : list TallyOp) (p : nat) : option V :=
  head (omap (λ op, match op with Deliver q v => if bool_decide (q = p) then Some v else None | _ => None end) ops).

Lemma named_snoc ops op : named (ops ++ [op]) = named ops ∪ {[op_party op]}.
Proof. unfold named. rewrite fmap_app, list_to_set_app_L. cbn. set_solver. Qed.

Lemma expelled_snoc ops op :
  expelled (ops ++ [op]) = expelled ops ∪ match op with Expel p => {[p]} | _ => ∅ end.
Proof. unfold expelled. rewrite omap_app, list_to_set_app_L. destruct op; cbn; set_solver. Qed.

Lemma expelled_named ops : expelled ops ⊆ named ops.
Proof.
  induction ops as [|op ops IH] using rev_ind; [done|]. rewrite named_snoc, expelled_snoc. destruct op; cbn; set_solver.
Qed.

Lemma first_delivery_snoc ops op p :
  first_delivery (ops ++ [op]) p =
    match first_delivery ops p with
    | Some v => Some v
    | None => match op with Deliver q v => if bool_decide (q = p) then Some v else None | _ => None end
    end.
Proof.
  unfold first_delivery. rewrite omap_app. destruct (omap _ ops) as [|v l]; [|done].
  cbn. destruct op as [q v|q]; cbn; [|done]. by case_bool_decide.
Qed.

Lemma first_delivery_named ops p v : first_delivery ops p = Some v → p ∈ named ops.
Proof.
  induction ops as [|op ops IH] using rev_ind; [done|]. rewrite first_delivery_snoc, named_snoc.
  destruct (first_delivery ops p); [set_solver|]. destruct op as [q w|q]; [|done].
  case_bool_decide; [|done]. subst. cbn. set_solver.
Qed.

(** A party that is named without being expelled has delivered. *)
Lemma named_not_expelled ops p : p ∈ named ops → p ∉ expelled ops → is_Some (first_delivery ops p).
Proof.
  induction ops as [|op ops IH] using rev_ind; [done|]. rewrite named_snoc, expelled_snoc, first_delivery_snoc.
  intros Hn He. destruct (first_delivery ops p) eqn:Ef; [done|].
  destruct op as [q v|q]; cbn in *.
  - destruct (decide (q = p)) as [->|Hne]; [by rewrite bool_decide_true|].
    rewrite bool_decide_false by done. exfalso. destruct IH; set_solver.
  - exfalso. destruct IH; set_solver.
Qed.

(** The tally waits for the parties that nothing was heard of, and holds the first delivery of
    each expected party that was not expelled. *)
Lemma tally_waiting start ops : waiting (tally start ops) = start ∖ named ops.
Proof.
  unfold tally. induction ops as [|op ops IH] using rev_ind; [cbn; unfold named; cbn; set_solver|].
  rewrite foldl_snoc, named_snoc. destruct op as [p v|p]; cbn; rewrite ?IH; case_bool_decide; cbn; rewrite ?IH; set_solver.
Qed.

Lemma expel_other (start e : gset nat) p q : p ≠ q → (p ∈ start ∧ p ∉ e ∪ {[q]}) ↔ (p ∈ start ∧ p ∉ e).
Proof. set_solver. Qed.

Lemma not_waiting (start n : gset nat) p : p ∉ start ∖ n → p ∈ start → p ∈ n.
Proof. set_solver. Qed.

Lemma tally_got start ops p :
  got (tally start ops) !! p =
    if bool_decide (p ∈ start ∧ p ∉ expelled ops) then first_delivery ops p else None.
Proof.
  induction ops as [|op ops IH] using rev_ind; [by case_bool_decide|].
  pose proof (tally_waiting start ops) as Hw. pose proof (expelled_named ops) as Hen.
  unfold tally in *. rewrite foldl_snoc.
  set (t := foldl tally_step (mkTally start ∅) ops) in *. clearbody t.
  rewrite expelled_snoc, first_delivery_snoc.
  assert (p ∉ named ops → first_delivery ops p = None) as Hnew.
  { intros Hn. destruct (first_delivery ops p) eqn:Ef; [|done]. by apply first_delivery_named in Ef. }
  destruct op as [q v|q]; cbn [tally_step]; destruct (bool_decide (q ∈ waiting t)) eqn:Hq; bool_to_prop;
    rewrite Hw in Hq; cbn [got]; destruct (decide (p = q)) as [->|Hne];
    rewrite ?union_empty_r_L.
  - apply elem_of_difference in Hq as [Hs Hn].
    rewrite lookup_insert_eq, (Hnew Hn), (bool_decide_true (q = q)) by done.
    rewrite bool_decide_true; [done|]. split; [done|]. intros He. by apply Hn, Hen.
  - rewrite lookup_insert_ne, IH, (bool_decide_false (q = p)) by done. by destruct (first_delivery ops p).
  - rewrite IH. case_bool_decide as Hp; [|done]. destruct Hp as [Hs He].
    destruct (named_not_expelled ops q) as [w ->]; [by eapply not_waiting|done|done].
  - rewrite IH, (bool_decide_false (q = p)) by done. by destruct (first_delivery ops p).
  - apply elem_of_difference in Hq as [Hs Hn]. rewrite IH, (Hnew Hn). by destruct (bool_decide _), (bool_decide _).
  - rewrite IH, (bool_decide_ext _ _ (expel_other start (expelled ops) p q Hne)). by destruct (first_delivery ops p).
  - rewrite lookup_delete_eq, bool_decide_false; [done|]. intros [_ He]. apply He, elem_of_union_r, elem_of_singleton. done.
  - rewrite lookup_delete_ne, IH, (bool_decide_ext _ _ (expel_other start (expelled ops) p q Hne)) by done.
    by destruct (first_delivery ops p).
Qed.

(** What a collection of these parties holds of a party. *)
Definition collected (start : gset nat) (ops : list TallyOp) (p : nat) (v : V) : Prop :=
  p ∈ start ∧ p ∉ expelled ops ∧ first_delivery ops p = Some v.

Lemma tally_collected start ops p v : got (tally start ops) !! p = Some v ↔ collected start ops p v.
Proof. rewrite tally_got. unfold collected. case_bool_decide; naive_solver. Qed.

Lemma tally_snoc start ops op : tally start (ops ++ [op]) = tally_step (tally start ops) op.
Proof. unfold tally. by rewrite foldl_snoc. Qed.

Lemma first_delivery_elem ops p v : first_delivery ops p = Some v → Deliver p v ∈ ops.
Proof.
  induction ops as [|op ops IH] using rev_ind; [done|]. rewrite first_delivery_snoc, elem_of_app.
  destruct (first_delivery ops p) as [w|].
  - intros [= ->]. left. by apply IH.
  - destruct op as [q w|q]; [|done]. case_bool_decide as Hq; [|done]. intros [= ->]. subst. right. set_solver.
Qed.
End Tally.
Arguments Tally V : clear implicits.
Arguments TallyOp V : clear implicits.
