(* ===== verification/KeyCollector.v ===== *)
(** * Collection of encryption keys

    Model of crates/orchestration/keyshare/src/collect_encryption_keys.rs, the tally, and of
    encryption_key_collector.rs, the actor around it.  An actor is a state and a handler that
    answers a message with the messages to its parent; timers are messages that may arrive at any
    time while they are armed, and a stopped actor ignores the rest.  Log lines and the texts of
    failures are left out. *)

From S2P Require Import Prelude Events Orchestration KeyshareEvents Tally.
Local Open Scope nat_scope.

Inductive CollectionPhase := Collecting_ | Finished | TimedOut.

Global Instance CollectionPhase_eq_dec : EqDecision CollectionPhase.
Proof. solve_decision. Defined.

Definition is_collecting_phase (p : CollectionPhase) : bool := match p with Collecting_ => true | _ => false end.

(** [0..total] *)
Definition all_parties (total : nat) : gset PartyId := list_to_set (seq 0 total).

Inductive CollectOutcome := Ignored | Pending | Completed (keys : list EncryptionKey).

Record EncryptionKeyCollection := mk { todo : gset PartyId; keys : gmap PartyId EncryptionKey; phase : CollectionPhase }.

Definition new (total : nat) : EncryptionKeyCollection := mk (all_parties total) ∅ Collecting_.

Definition is_collecting (c : EncryptionKeyCollection) : bool := is_collecting_phase (phase c).

Definition sorted_keys (c : EncryptionKeyCollection) : list EncryptionKey := (btree_list (keys c)).*2.

Definition finish_if_done (c : EncryptionKeyCollection) : EncryptionKeyCollection * CollectOutcome :=
  if bool_decide (todo c = ∅) then
    let c := mk (todo c) (keys c) Finished in (c, Completed (sorted_keys c))
  else (c, Pending).

Definition receive (c : EncryptionKeyCollection) (key : EncryptionKey) : EncryptionKeyCollection * CollectOutcome :=
  if negb (is_collecting c) then (c, Ignored)
  else if bool_decide (ek_party_id key ∉ todo c) then (c, Ignored)
  else finish_if_done (mk (todo c ∖ {[ek_party_id key]}) (<[ek_party_id key := key]> (keys c)) (phase c)).

Definition expel (c : EncryptionKeyCollection) (party_id : PartyId) : EncryptionKeyCollection * CollectOutcome :=
  if negb (is_collecting c) then (c, Ignored)
  else if bool_decide (party_id ∉ todo c) then (mk (todo c) (delete party_id (keys c)) (phase c), Ignored)
  else finish_if_done (mk (todo c ∖ {[party_id]}) (keys c) (phase c)).

(** The missing parties, when the collection was still open. *)
Definition timeout (c : EncryptionKeyCollection) : EncryptionKeyCollection * option (gset PartyId) :=
  if negb (is_collecting c) then (c, None) else (mk (todo c) (keys c) TimedOut, Some (todo c)).

Definition complete_at_cutoff (c : EncryptionKeyCollection) (minimum_keys : nat) (own : PartyId)
    : EncryptionKeyCollection * option (list EncryptionKey) :=
  if negb (is_collecting c) || (size (keys c) <? minimum_keys) || bool_decide (keys c !! own = None)
  then (c, None)
  else let c := mk (todo c) (keys c) Finished in (c, Some (sorted_keys c)).

(** *** The collector *)

Record EncryptionKeyCollector := mkCollector {
  collection : EncryptionKeyCollection;
  (** the time until the cutoff, or [None] if it passed before the collector started *)
  col_timeout : option Z;
  minimum_keys : nat; own_party_id : PartyId;
  last_ec : option EventContext; timer_armed : bool; stopped : bool }.

Inductive Message :=
| KeyCreated (key : EncryptionKey) (ec : EventContext)
| CutoffTimer
| KeysReplayed
| ExpelParty (party_id : PartyId) (ec : EventContext).

Inductive ToParent :=
| AllEncryptionKeysCollected (keys : list EncryptionKey) (ec : EventContext)
| EncryptionKeyCollectionFailed (missing_parties : gset PartyId).

Definition setup (total minimum_keys : nat) (own : PartyId) (t : option Z) : EncryptionKeyCollector :=
  mkCollector (new total) t minimum_keys own None (bool_decide (is_Some t)) false.

Definition with_collection (c : EncryptionKeyCollection) (a : EncryptionKeyCollector) : EncryptionKeyCollector :=
  mkCollector c (col_timeout a) (minimum_keys a) (own_party_id a) (last_ec a) (timer_armed a) (stopped a).

(** The timer is cancelled; the actor itself keeps running. *)
Definition complete (a : EncryptionKeyCollector) (ec : EventContext) (outcome : CollectOutcome)
    : EncryptionKeyCollector * list ToParent :=
  match outcome with
  | Completed keys =>
      (mkCollector (collection a) (col_timeout a) (minimum_keys a) (own_party_id a) (last_ec a) false (stopped a),
       [AllEncryptionKeysCollected keys ec])
  | _ => (a, [])
  end.

Definition stop (a : EncryptionKeyCollector) : EncryptionKeyCollector :=
  mkCollector (collection a) (col_timeout a) (minimum_keys a) (own_party_id a) (last_ec a) (timer_armed a) true.

Definition time_out (a : EncryptionKeyCollector) : EncryptionKeyCollector * list ToParent :=
  match timeout (collection a) with
  | (_, None) => (a, [])
  | (c, Some missing) => (stop (with_collection c a), [EncryptionKeyCollectionFailed missing])
  end.

Definition apply_cutoff (a : EncryptionKeyCollector) : EncryptionKeyCollector * list ToParent :=
  match last_ec a with
  | Some ec =>
      match complete_at_cutoff (collection a) (minimum_keys a) (own_party_id a) with
      | (c, Some keys) => let '(a, sent) := complete (with_collection c a) ec (Completed keys) in (stop a, sent)
      | (_, None) => time_out a
      end
  | None => time_out a
  end.

Definition note_ec (ec : EventContext) (outcome : CollectOutcome) (a : EncryptionKeyCollector) : EncryptionKeyCollector :=
  match outcome with
  | Ignored => a
  | _ => mkCollector (collection a) (col_timeout a) (minimum_keys a) (own_party_id a) (Some ec) (timer_armed a) (stopped a)
  end.

(** A cancelled timer does not fire, and a stopped actor handles nothing. *)
Definition handle (a : EncryptionKeyCollector) (m : Message) : EncryptionKeyCollector * list ToParent :=
  if stopped a then (a, [])
  else
    match m with
    | KeyCreated key ec =>
        let '(c, outcome) := receive (collection a) key in
        complete (note_ec ec outcome (with_collection c a)) ec outcome
    | CutoffTimer => if timer_armed a then apply_cutoff a else (a, [])
    | KeysReplayed => if bool_decide (col_timeout a = None) then apply_cutoff a else (a, [])
    | ExpelParty p ec =>
        let '(c, outcome) := expel (collection a) p in
        complete (with_collection c a) ec outcome
    end.

Fixpoint run (a : EncryptionKeyCollector) (ms : list Message) : EncryptionKeyCollector * list ToParent :=
  match ms with
  | [] => (a, [])
  | m :: rest => let '(a, sent) := handle a m in let '(a', sent') := run a rest in (a', sent ++ sent')
  end.

(** ** What a collection reports *)

Definition tally_op (m : Message) : option (TallyOp EncryptionKey) :=
  match m with
  | KeyCreated key _ => Some (Deliver (ek_party_id key) key)
  | ExpelParty p _ => Some (Expel p)
  | _ => None
  end.

Definition tally_ops (ms : list Message) : list (TallyOp EncryptionKey) := omap tally_op ms.

(** The reported keys are the first keys of the parties that were not expelled, by party id; and
    either nobody is missing or there are enough of them. *)
Definition keys_reported (total minimum : nat) (own : PartyId) (ops : list (TallyOp EncryptionKey))
    (l : list EncryptionKey) : Prop :=
  StronglySorted lt (ek_party_id <$> l) ∧
  (∀ key, key ∈ l ↔ collected (all_parties total) ops (ek_party_id key) key) ∧
  (all_parties total ⊆ named ops ∨ minimum <= length l ∧ own ∈ ek_party_id <$> l).

(** A failure names the parties that nothing was heard of, and comes only when the keys do not
    suffice. *)
Definition key_failure_reported (total minimum : nat) (own : PartyId) (ops : list (TallyOp EncryptionKey))
    (missing : gset PartyId) : Prop :=
  missing = all_parties total ∖ named ops ∧
  ∀ l, StronglySorted lt (ek_party_id <$> l) →
    (∀ key, key ∈ l → collected (all_parties total) ops (ek_party_id key) key) →
    own ∈ ek_party_id <$> l → length l < minimum.

Definition report_ok (total minimum : nat) (own : PartyId) (ops : list (TallyOp EncryptionKey)) (out : ToParent) : Prop :=
  match out with
  | AllEncryptionKeysCollected l _ => keys_reported total minimum own ops l
  | EncryptionKeyCollectionFailed missing => key_failure_reported total minimum own ops missing
  end.

Section Proofs.
Context (total minimum : nat) (own : PartyId) (t : option Z).

Definition abstract (c : EncryptionKeyCollection) : Tally EncryptionKey := mkTally (todo c) (keys c).

Record tracks (a : EncryptionKeyCollector) (ms : list Message) : Prop := {
  tr_open : phase (collection a) = Collecting_;
  tr_running : stopped a = false;
  tr_tally : abstract (collection a) = tally (all_parties total) (tally_ops ms);
  tr_waits : 0 < total → todo (collection a) ≠ ∅;
  tr_ec : last_ec a = None → keys (collection a) = ∅;
  tr_minimum : minimum_keys a = minimum;
  tr_own : own_party_id a = own }.

Lemma delivered_own ms p v : first_delivery (tally_ops ms) p = Some v → ek_party_id v = p.
Proof.
  intros Hf. apply first_delivery_elem in Hf. unfold tally_ops in Hf. apply list_elem_of_omap in Hf as (m & _ & Hm).
  destruct m; cbn in Hm; naive_solver.
Qed.

(** The keys of a tracked collection, in order. *)
Lemma sorted_keys_spec c ms : abstract c = tally (all_parties total) (tally_ops ms) →
  StronglySorted lt (ek_party_id <$> sorted_keys c) ∧
  (∀ key, key ∈ sorted_keys c ↔ collected (all_parties total) (tally_ops ms) (ek_party_id key) key) ∧
  length (sorted_keys c) = size (keys c).
Proof.
  intros Ha. assert (∀ p v, keys c !! p = Some v ↔ collected (all_parties total) (tally_ops ms) p v) as Hk.
  { intros p v. rewrite <-tally_collected, <-Ha. done. }
  assert (ek_party_id <$> sorted_keys c = (btree_list (keys c)).*1) as Hids.
  { unfold sorted_keys. rewrite <-list_fmap_compose. apply list_fmap_ext. intros i [p v] Hi. cbn.
    apply list_elem_of_lookup_2, elem_of_btree_list, Hk in Hi as (_ & _ & Hf). by apply delivered_own in Hf. }
  split_and!.
  - rewrite Hids. apply btree_list_sorted.
  - intros key. unfold sorted_keys. rewrite list_elem_of_fmap. split.
    + intros ([p v] & -> & Hin). apply elem_of_btree_list, Hk in Hin. cbn.
      destruct Hin as (Hs & He & Hf). by rewrite (delivered_own _ _ _ Hf).
    + intros Hc. exists (ek_party_id key, key). split; [done|]. by apply elem_of_btree_list, Hk.
  - unfold sorted_keys. rewrite length_fmap, btree_list_perm. by rewrite <-length_map_to_list.
Qed.

Lemma own_reported c ms : abstract c = tally (all_parties total) (tally_ops ms) →
  own ∈ ek_party_id <$> sorted_keys c ↔ is_Some (keys c !! own).
Proof.
  intros Ha. destruct (sorted_keys_spec c ms Ha) as (_ & Hin & _). rewrite list_elem_of_fmap. split.
  - intros (key & -> & Hk). exists key. apply Hin, tally_collected in Hk. by rewrite <-Ha in Hk.
  - intros [v Hv]. change (got (abstract c) !! own = Some v) in Hv. rewrite Ha in Hv.
    apply tally_collected in Hv as Hc. assert (ek_party_id v = own) as E by (destruct Hc as (_ & _ & Hf); by apply delivered_own in Hf).
    exists v. split; [done|]. apply Hin. by rewrite E.
Qed.

Lemma sorted_le_length (l l' : list EncryptionKey) :
  StronglySorted lt (ek_party_id <$> l) → (∀ x, x ∈ l → x ∈ l') → length l <= length l'.
Proof.
  intros Hs Hsub. apply sorted_lt_NoDup in Hs. apply NoDup_fmap_1 in Hs.
  apply submseteq_length. by apply NoDup_submseteq.
Qed.

Lemma tally_ops_snoc ms m : tally_ops (ms ++ [m]) = tally_ops ms ++ option_list (tally_op m).
Proof. unfold tally_ops. rewrite omap_app. cbn. by destruct (tally_op m). Qed.

(** The tally after one more message. *)
Lemma tally_message ms m : tally (all_parties total) (tally_ops (ms ++ [m])) =
  match tally_op m with
  | Some op => tally_step (tally (all_parties total) (tally_ops ms)) op
  | None => tally (all_parties total) (tally_ops ms)
  end.
Proof. rewrite tally_ops_snoc. destruct (tally_op m); cbn; [by rewrite tally_snoc|by rewrite app_nil_r]. Qed.

Lemma report_complete c ms : abstract c = tally (all_parties total) (tally_ops ms) → todo c = ∅ →
  keys_reported total minimum own (tally_ops ms) (sorted_keys c).
Proof.
  intros Ha Ht. destruct (sorted_keys_spec c ms Ha) as (Hs & Hin & _). split_and!; [done|done|]. left.
  assert (waiting (abstract c) = ∅) as Hw by done. rewrite Ha, tally_waiting in Hw. by apply empty_difference_subseteq_L.
Qed.

Lemma report_failure a ms c missing : tracks a ms →
  (last_ec a ≠ None → (complete_at_cutoff (collection a) minimum own).2 = None) →
  timeout (collection a) = (c, Some missing) →
  key_failure_reported total minimum own (tally_ops ms) missing.
Proof.
  intros [Ho Hr Ha Hwt He Hm Hown] Hcut Ht. unfold timeout, is_collecting in Ht. rewrite Ho in Ht. cbn in Ht.
  injection Ht as <- <-. split.
  - change (waiting (abstract (collection a)) = all_parties total ∖ named (tally_ops ms)). by rewrite Ha, tally_waiting.
  - intros l Hs Hl Hin. destruct (sorted_keys_spec (collection a) ms Ha) as (_ & Hk & Hlen).
    assert (∀ x, x ∈ l → x ∈ sorted_keys (collection a)) as Hsub by (intros x Hx; by apply Hk, Hl).
    pose proof (sorted_le_length l _ Hs Hsub) as Hle. rewrite Hlen in Hle.
    assert (is_Some (keys (collection a) !! own)) as [k Hkey].
    { apply (own_reported _ ms Ha). apply list_elem_of_fmap in Hin as (x & -> & Hx). apply list_elem_of_fmap. eauto. }
    destruct (last_ec a) eqn:Ee; [|by rewrite He in Hkey].
    specialize (Hcut ltac:(done)). unfold complete_at_cutoff, is_collecting in Hcut. rewrite Ho in Hcut.
    cbn [is_collecting_phase negb orb] in Hcut.
    rewrite bool_decide_false, orb_false_r in Hcut by congruence.
    destruct (Nat.ltb_spec (size (keys (collection a))) minimum); [lia|discriminate Hcut].
Qed.

(** The cutoff closes the collection with a report. *)
Lemma cutoff_reports a ms : tracks a ms →
  let '(a', sent) := apply_cutoff a in
  phase (collection a') ≠ Collecting_ ∧ ∃ out, sent = [out] ∧
    report_ok total minimum own (tally_ops ms) out.
Proof.
  intros Htr. pose proof Htr as [Ho Hr Ha Hwt He Hm Hown]. unfold apply_cutoff, time_out.
  assert ((last_ec a ≠ None → (complete_at_cutoff (collection a) minimum own).2 = None) →
    ∃ missing, timeout (collection a) = (mk (todo (collection a)) (keys (collection a)) TimedOut, Some missing) ∧
      key_failure_reported total minimum own (tally_ops ms) missing) as Hfail.
  { intros Hcut. eexists. split; [unfold timeout, is_collecting; rewrite Ho; done|].
    eapply report_failure; [done|done|]. unfold timeout, is_collecting. by rewrite Ho. }
  rewrite Hm, Hown. destruct (last_ec a) as [ec|].
  - destruct (complete_at_cutoff (collection a) minimum own) as [c [l|]] eqn:Ec; cbn.
    + split.
      { unfold complete_at_cutoff in Ec. destruct (_ || _); by inversion Ec. }
      eexists; split; [done|]. cbn. unfold complete_at_cutoff, is_collecting in Ec. rewrite Ho in Ec.
      cbn [is_collecting_phase negb orb] in Ec.
      destruct (Nat.ltb_spec (size (keys (collection a))) minimum) as [|Hen]; [done|]. cbn [orb] in Ec.
      destruct (bool_decide _) eqn:Eo; [done|]. injection Ec as <- <-. bool_to_prop.
      set (c := mk (todo (collection a)) (keys (collection a)) Finished) in *.
      assert (abstract c = tally (all_parties total) (tally_ops ms)) as Ha' by done.
      destruct (sorted_keys_spec c ms Ha') as (Hs & Hin & Hlen). split_and!; [done|done|]. right.
      split; [by rewrite Hlen|]. apply (own_reported c ms Ha'). by apply not_eq_None_Some.
    + destruct Hfail as (missing & -> & Hf); [done|]. cbn. eauto.
  - destruct Hfail as (missing & -> & Hf); [done|]. cbn. eauto.
Qed.

(** The messages that only apply the cutoff, or nothing. *)
Lemma timer_tracked a ms m (fires : bool) : tracks a ms → tally_op m = None →
  let '(a', sent) := (if fires then apply_cutoff a else (a, [])) in
  (sent = [] ∧ tracks a' (ms ++ [m])) ∨
  (phase (collection a') ≠ Collecting_ ∧ ∃ out, sent = [out] ∧ report_ok total minimum own (tally_ops (ms ++ [m])) out).
Proof.
  intros Htr Hm. assert (tally_ops (ms ++ [m]) = tally_ops ms) as E by (rewrite tally_ops_snoc, Hm; apply app_nil_r).
  destruct fires.
  - pose proof (cutoff_reports a ms Htr) as Hc. destruct (apply_cutoff a) as [a' sent]. right. by rewrite E.
  - left. split; [done|]. destruct Htr. by constructor; rewrite ?E.
Qed.

(** One message: the collection goes on, or reports once and closes. *)
Lemma handle_tracked a ms m : tracks a ms →
  let '(a', sent) := handle a m in
  (sent = [] ∧ tracks a' (ms ++ [m])) ∨
  (phase (collection a') ≠ Collecting_ ∧ ∃ out, sent = [out] ∧
    report_ok total minimum own (tally_ops (ms ++ [m])) out).
Proof.
  intros Htr. pose proof Htr as [Ho Hr Ha Hwt He Hm Hown]. pose proof (tally_message ms m) as Htm.
  assert (∀ c ec, abstract c = tally (all_parties total) (tally_ops (ms ++ [m])) → phase c = Collecting_ →
    (0 < total → todo c ≠ ∅) → (last_ec a = None → ec = None → keys c = ∅) →
    tracks (mkCollector c (col_timeout a) (minimum_keys a) (own_party_id a)
      (match ec with Some e => Some e | None => last_ec a end) (timer_armed a) false) (ms ++ [m])) as Hgo.
  { intros c ec Hc Hp Hw Hk. constructor; cbn; try done. destruct ec; [done|]. auto. }
  unfold handle. rewrite Hr. rewrite <-Ha in Htm. destruct m as [key ec| | |p ec]; cbn [tally_op] in Htm.
  - unfold receive, is_collecting. rewrite Ho. cbn [is_collecting_phase negb]. cbn in Htm.
    destruct (decide (ek_party_id key ∈ todo (collection a))) as [Hin|Hni].
    2: { rewrite bool_decide_true by done. rewrite bool_decide_false in Htm by done. cbn. left. split; [done|].
         specialize (Hgo (collection a) None). cbn in Hgo. rewrite Htm in Hgo.
         unfold with_collection. rewrite Hr. apply Hgo; auto. }
    rewrite bool_decide_false by naive_solver. rewrite bool_decide_true in Htm by done. unfold finish_if_done. cbn.
    case_bool_decide as Hd.
    + right. cbn. split; [done|]. eexists; split; [done|]. cbn.
      apply (report_complete (mk (todo (collection a) ∖ {[ek_party_id key]}) _ Finished)); [by rewrite Htm|done].
    + left. split; [done|]. cbn. rewrite Hr. specialize (Hgo (mk (todo (collection a) ∖ {[ek_party_id key]})
        (<[ek_party_id key:=key]> (keys (collection a))) Collecting_) (Some ec)). cbn in Hgo. apply Hgo; done.
  - by apply timer_tracked.
  - by apply timer_tracked.
  - unfold expel, is_collecting. rewrite Ho. cbn [is_collecting_phase negb]. cbn in Htm.
    destruct (decide (p ∈ todo (collection a))) as [Hin|Hni].
    2: { rewrite bool_decide_true by done. rewrite bool_decide_false in Htm by done. cbn. left. split; [done|].
         specialize (Hgo (mk (todo (collection a)) (delete p (keys (collection a))) Collecting_) None).
         cbn in Hgo. unfold with_collection. rewrite Hr. apply Hgo; [done|done|done|].
         intros Hn _. rewrite He by done. apply delete_empty. }
    rewrite bool_decide_false by naive_solver. rewrite bool_decide_true in Htm by done. unfold finish_if_done. cbn.
    case_bool_decide as Hd.
    + right. cbn. split; [done|]. eexists; split; [done|]. cbn.
      apply (report_complete (mk (todo (collection a) ∖ {[p]}) _ Finished)); [by rewrite Htm|done].
    + left. split; [done|]. cbn. unfold with_collection. rewrite Hr. specialize (Hgo (mk (todo (collection a) ∖ {[p]})
        (keys (collection a)) Collecting_) None). cbn in Hgo. apply Hgo; done || auto.
Qed.

(** A closed collection reports nothing more. *)
Lemma closed_silent a m : phase (collection a) ≠ Collecting_ →
  let '(a', sent) := handle a m in sent = [] ∧ phase (collection a') ≠ Collecting_.
Proof.
  intros Hc. assert (is_collecting (collection a) = false) as Hi.
  { unfold is_collecting, is_collecting_phase. by destruct (phase (collection a)). }
  assert (apply_cutoff a = (a, [])) as Hcut.
  { unfold apply_cutoff, time_out, complete_at_cutoff, timeout. rewrite Hi. cbn. by destruct (last_ec a). }
  unfold handle. destruct (stopped a); [done|]. destruct m as [key ec| | |p ec].
  - unfold receive. rewrite Hi. done.
  - rewrite Hcut. by destruct (timer_armed a).
  - rewrite Hcut. by destruct (bool_decide _).
  - unfold expel. rewrite Hi. done.
Qed.

Lemma run_closed a ms : phase (collection a) ≠ Collecting_ → (run a ms).2 = [].
Proof.
  revert a. induction ms as [|m ms IH]; intros a Hc; [done|]. cbn. pose proof (closed_silent a m Hc) as Hs.
  destruct (handle a m) as [a' sent]. destruct Hs as [-> Hc']. specialize (IH a' Hc').
  destruct (run a' ms) as [a'' sent']. cbn in *. done.
Qed.

Lemma run_tracked a ms ms' : tracks a ms →
  ((run a ms').2 = [] ∧ tracks (run a ms').1 (ms ++ ms')) ∨
  ∃ ms1 ms2 out, ms' = ms1 ++ ms2 ∧ (run a ms').2 = [out] ∧
    report_ok total minimum own (tally_ops (ms ++ ms1)) out.
Proof.
  revert a ms. induction ms' as [|m rest IH]; intros a ms Htr; [left; cbn; by rewrite app_nil_r|].
  cbn. pose proof (handle_tracked a ms m Htr) as Hh. destruct (handle a m) as [a' sent].
  destruct Hh as [[-> Htr']|(Hcl & out & -> & Hout)].
  - specialize (IH a' (ms ++ [m]) Htr'). destruct (run a' rest) as [a'' sent'] eqn:Er. cbn in *.
    rewrite <-app_assoc in IH. destruct IH as [IH|(ms1 & ms2 & out & -> & -> & Hout)]; [by left|].
    right. exists (m :: ms1), ms2, out. rewrite <-app_assoc in Hout. done.
  - right. pose proof (run_closed a' rest Hcl) as Hs. destruct (run a' rest) as [a'' sent']. cbn in *. subst.
    exists [m], rest, out. done.
Qed.

Lemma setup_tracks : tracks (setup total minimum own t) [].
Proof.
  constructor; try done. cbn. intros Ht E. assert (0 ∈ all_parties total) as Hin; [|by rewrite E in Hin].
  apply elem_of_list_to_set, elem_of_seq. lia.
Qed.
End Proofs.

(** Whatever keys, expulsions and timers reach a collector of encryption keys, in any order,
    it reports to its parent at most once.  A report of keys holds exactly the first key of every
    party that was not expelled before it, by ascending party id, and comes when nobody is missing
    or, at the cutoff, with at least the minimum of keys including this node's own.  A failure
    names exactly the parties that nothing was heard of, and comes only when that minimum is not
    there.  While it is silent, somebody is missing. *)
Theorem key_collection_reports_once (total minimum : nat) (own : PartyId) (t : option Z) (ms : list Message) :
  ((run (setup total minimum own t) ms).2 = [] ∧ (0 < total → ¬ all_parties total ⊆ named (tally_ops ms))) ∨
  ∃ ms1 ms2 out, ms = ms1 ++ ms2 ∧ (run (setup total minimum own t) ms).2 = [out] ∧
    report_ok total minimum own (tally_ops ms1) out.
Proof.
  destruct (run_tracked total minimum own (setup total minimum own t) [] ms (setup_tracks total minimum own t))
    as [[Hs [_ _ Ha Hw _ _ _]]|Hs]; [left|by right]. split; [done|]. intros Ht Hsub. apply (Hw Ht).
  change (waiting (abstract (collection (run (setup total minimum own t) ms).1)) = ∅).
  rewrite Ha, tally_waiting. by apply subseteq_empty_difference_L.
Qed.

Example key_collection_completes :
  let key p := mkEncryptionKey p [] None None in
  let ec := mkContext 0 0 0 0 0 0 None Local_ in
  (run (setup 3 2 1 (Some 9%Z)) [KeyCreated (key 2) ec; KeyCreated (key 1) ec; ExpelParty 2 ec; KeyCreated (key 0) ec]).2
  = [AllEncryptionKeysCollected [key 0; key 1] ec].
Proof. reflexivity. Qed.

Example key_collection_cut_off :
  let key p := mkEncryptionKey p [] None None in
  let ec := mkContext 0 0 0 0 0 0 None Local_ in
  (run (setup 3 2 1 None) [KeyCreated (key 1) ec; KeysReplayed; KeyCreated (key 0) ec]).2
  = [EncryptionKeyCollectionFailed {[0; 2]}].
Proof. vm_compute. reflexivity. Qed.
