(* ===== verification/ShareCollector.v ===== *)
(** * Collection of threshold shares

    Model of crates/orchestration/keyshare/src/collect_threshold_shares.rs and of
    threshold_share_collector.rs: shares are collected until the soft cutoff of the window, from
    then on each share extends the batch that is verified, and at the deadline the available batch
    is final.  Actors and timers are as in KeyCollector.v. *)

From S2P Require Import Prelude Events Orchestration KeyshareEvents KeyshareTiming Tally KeyCollector.
Local Open Scope nat_scope.

Inductive ShareCollectOutcome :=
| Ignored
| Pending
| Snapshot (shares : gmap PartyId ThresholdShare) (proofs : gmap PartyId ReceivedShareProofs)
| Completed (shares : gmap PartyId ThresholdShare) (proofs : gmap PartyId ReceivedShareProofs).

Record ThresholdShareCollection := mk {
  todo : gset PartyId; shares : gmap PartyId ThresholdShare; share_proofs : gmap PartyId ReceivedShareProofs;
  phase : CollectionPhase;
  (** dealers whose C0 key this node did not have when key collection closed *)
  dealers_without_key : gset PartyId }.

Definition new (total : nat) (own : PartyId) : ThresholdShareCollection :=
  mk (all_parties total ∖ {[own]}) ∅ ∅ Collecting_ ∅.

Definition is_collecting (c : ThresholdShareCollection) : bool := is_collecting_phase (phase c).

Definition set_dealers_without_key (c : ThresholdShareCollection) (ids : gset PartyId) : ThresholdShareCollection :=
  mk (todo c) (shares c) (share_proofs c) (phase c) ids.

Definition waits_only_for_dealers_without_key (c : ThresholdShareCollection) : bool :=
  is_collecting c && bool_decide (todo c ≠ ∅) && bool_decide (todo c ⊆ dealers_without_key c).

(** The shares stay in the collection, the proofs are taken out of it. *)
Definition finish_if_done (c : ThresholdShareCollection) : ThresholdShareCollection * ShareCollectOutcome :=
  if bool_decide (todo c = ∅) then
    (mk (todo c) (shares c) ∅ Finished (dealers_without_key c), Completed (shares c) (share_proofs c))
  else (c, Pending).

Definition receive (c : ThresholdShareCollection) (share : ThresholdShare) (proofs : ReceivedShareProofs)
    : ThresholdShareCollection * ShareCollectOutcome :=
  let pid := ts_party_id share in
  if negb (is_collecting c) then (c, Ignored)
  else if bool_decide (pid ∉ todo c) then (c, Ignored)
  else finish_if_done (mk (todo c ∖ {[pid]}) (<[pid := share]> (shares c)) (<[pid := proofs]> (share_proofs c))
                         (phase c) (dealers_without_key c)).

Definition expel (c : ThresholdShareCollection) (party_id : PartyId)
    : ThresholdShareCollection * ShareCollectOutcome :=
  if negb (is_collecting c) then (c, Ignored)
  else if bool_decide (party_id ∉ todo c) then
    (mk (todo c) (delete party_id (shares c)) (delete party_id (share_proofs c)) (phase c) (dealers_without_key c), Ignored)
  else finish_if_done (mk (todo c ∖ {[party_id]}) (shares c) (share_proofs c) (phase c) (dealers_without_key c)).

Definition timeout (c : ThresholdShareCollection) : ThresholdShareCollection * option (gset PartyId) :=
  if negb (is_collecting c) then (c, None)
  else (mk (todo c) (shares c) (share_proofs c) TimedOut (dealers_without_key c), Some (todo c)).

(** The collection stays open. *)
Definition snapshot_at_cutoff (c : ThresholdShareCollection) (minimum_external : nat) : option ShareCollectOutcome :=
  if negb (is_collecting c) || (size (shares c) <? minimum_external) then None
  else Some (Snapshot (shares c) (share_proofs c)).

Definition finish_available (c : ThresholdShareCollection) (minimum_external : nat)
    : ThresholdShareCollection * option ShareCollectOutcome :=
  if negb (is_collecting c) || (size (shares c) <? minimum_external) then (c, None)
  else (mk (todo c) (shares c) ∅ Finished (dealers_without_key c), Some (Completed (shares c) (share_proofs c))).

(** *** The collector *)

Record ThresholdShareCollector := mkCollector {
  collection : ThresholdShareCollection; cutoff_reached : bool; minimum_external : nat;
  last_ec : option EventContext; cutoff_armed : bool; deadline_armed : bool; stopped : bool }.

Inductive Message :=
| ShareCreated (share : ThresholdShare) (proofs : ReceivedShareProofs) (ec : EventContext)
| CutoffTimer
| DeadlineTimer
| ExpelParty (party_id : PartyId) (ec : EventContext)
| DealersWithoutKey (ids : gset PartyId)
| Die.

(** A batch keeps its shares by ascending party id, each with its proofs. *)
Inductive ToParent :=
| AllThresholdSharesCollected (batch : list (ThresholdShare * ReceivedShareProofs)) (ec : EventContext)
| ThresholdShareCollectionFailed (missing_parties : gset PartyId).

Definition setup (total : nat) (own : PartyId) (minimum_external : nat) (schedule : ThresholdShareSchedule)
    : ThresholdShareCollector :=
  mkCollector (new total own) (sched_cutoff_reached schedule) minimum_external None
    (negb (sched_cutoff_reached schedule)) true false.

Definition with_collection (c : ThresholdShareCollection) (a : ThresholdShareCollector) : ThresholdShareCollector :=
  mkCollector c (cutoff_reached a) (minimum_external a) (last_ec a) (cutoff_armed a) (deadline_armed a) (stopped a).

Definition with_ec (ec : EventContext) (a : ThresholdShareCollector) : ThresholdShareCollector :=
  mkCollector (collection a) (cutoff_reached a) (minimum_external a) (Some ec) (cutoff_armed a) (deadline_armed a) (stopped a).

Definition with_cutoff (a : ThresholdShareCollector) : ThresholdShareCollector :=
  mkCollector (collection a) true (minimum_external a) (last_ec a) false (deadline_armed a) (stopped a).

Definition stop (a : ThresholdShareCollector) : ThresholdShareCollector :=
  mkCollector (collection a) (cutoff_reached a) (minimum_external a) (last_ec a) (cutoff_armed a) (deadline_armed a) true.

Definition publish_outcome (a : ThresholdShareCollector) (ec : EventContext) (outcome : ShareCollectOutcome)
    : ThresholdShareCollector * list ToParent :=
  match outcome with
  | Snapshot shares proofs => (a, [AllThresholdSharesCollected (new_batch shares proofs) ec])
  | Completed shares proofs =>
      (mkCollector (collection a) (cutoff_reached a) (minimum_external a) (last_ec a) false false true,
       [AllThresholdSharesCollected (new_batch shares proofs) ec])
  | _ => (a, [])
  end.

(** The new state and whether this call reached the cutoff. *)
Definition reach_cutoff_without_keyless_dealers (a : ThresholdShareCollector) : ThresholdShareCollector * bool :=
  if cutoff_reached a || negb (waits_only_for_dealers_without_key (collection a)) then (a, false)
  else (with_cutoff a, true).

Definition complete_at_cutoff (a : ThresholdShareCollector) : ThresholdShareCollector * list ToParent :=
  match last_ec a with
  | None => (a, [])
  | Some ec =>
      match snapshot_at_cutoff (collection a) (minimum_external a) with
      | None => (a, [])
      | Some outcome => publish_outcome a ec outcome
      end
  end.

Definition handle_share (a : ThresholdShareCollector) (share : ThresholdShare) (proofs : ReceivedShareProofs)
    (ec : EventContext) : ThresholdShareCollector * list ToParent :=
  let '(c, outcome) := receive (collection a) share proofs in
  let a := with_collection c a in
  let a := match outcome with Ignored => a | _ => with_ec ec a end in
  match outcome with
  | Pending =>
      let a := (reach_cutoff_without_keyless_dealers a).1 in
      if cutoff_reached a then complete_at_cutoff a else (a, [])
  | _ => publish_outcome a ec outcome
  end.

Definition handle_expel (a : ThresholdShareCollector) (party_id : PartyId) (ec : EventContext)
    : ThresholdShareCollector * list ToParent :=
  let '(c, outcome) := expel (collection a) party_id in
  let a := with_collection c a in
  match outcome with
  | Pending =>
      let a := (reach_cutoff_without_keyless_dealers a).1 in
      if cutoff_reached a then complete_at_cutoff (with_ec ec a) else (a, [])
  | _ => publish_outcome a ec outcome
  end.

Definition time_out (a : ThresholdShareCollector) : ThresholdShareCollector * list ToParent :=
  match timeout (collection a) with
  | (_, None) => (a, [])
  | (c, Some missing) => (stop (with_collection c a), [ThresholdShareCollectionFailed missing])
  end.

Definition handle_deadline (a : ThresholdShareCollector) : ThresholdShareCollector * list ToParent :=
  let a := mkCollector (collection a) (cutoff_reached a) (minimum_external a) (last_ec a) (cutoff_armed a) false (stopped a) in
  match last_ec a with
  | Some ec =>
      match finish_available (collection a) (minimum_external a) with
      | (c, Some outcome) => publish_outcome (with_collection c a) ec outcome
      | (_, None) => time_out a
      end
  | None => time_out a
  end.

Definition handle (a : ThresholdShareCollector) (m : Message) : ThresholdShareCollector * list ToParent :=
  if stopped a then (a, [])
  else
    match m with
    | ShareCreated share proofs ec => handle_share a share proofs ec
    | CutoffTimer => if cutoff_armed a then complete_at_cutoff (with_cutoff a) else (a, [])
    | DeadlineTimer => if deadline_armed a then handle_deadline a else (a, [])
    | ExpelParty p ec => handle_expel a p ec
    | DealersWithoutKey ids =>
        let a := with_collection (set_dealers_without_key (collection a) ids) a in
        let '(a, reached) := reach_cutoff_without_keyless_dealers a in
        if reached then complete_at_cutoff a else (a, [])
    | Die => (stop a, [])
    end.

Fixpoint run (a : ThresholdShareCollector) (ms : list Message) : ThresholdShareCollector * list ToParent :=
  match ms with
  | [] => (a, [])
  | m :: rest => let '(a, sent) := handle a m in let '(a', sent') := run a rest in (a', sent ++ sent')
  end.

(** ** What a collection reports *)

Abbreviation Contribution := (ThresholdShare * ReceivedShareProofs)%type.

Definition tally_op (m : Message) : option (TallyOp Contribution) :=
  match m with
  | ShareCreated share proofs _ => Some (Deliver (ts_party_id share) (share, proofs))
  | ExpelParty p _ => Some (Expel p)
  | _ => None
  end.

Definition tally_ops (ms : list Message) : list (TallyOp Contribution) := omap tally_op ms.

Definition batch_ids (batch : list Contribution) : list PartyId := (λ c, ts_party_id c.1) <$> batch.

(** A batch holds the first share of every other party that was not expelled, with the proofs that
    came with it, by party id. *)
Definition batch_exact (total : nat) (own : PartyId) (ops : list (TallyOp Contribution)) (batch : list Contribution) : Prop :=
  StronglySorted lt (batch_ids batch) ∧
  ∀ c, c ∈ batch ↔ collected (all_parties total ∖ {[own]}) ops (ts_party_id c.1) c.

(** A batch is either complete or large enough; a failure names who is missing. *)
Definition share_report_ok (total minimum : nat) (own : PartyId) (ops : list (TallyOp Contribution)) (out : ToParent) : Prop :=
  match out with
  | AllThresholdSharesCollected batch _ =>
      batch_exact total own ops batch ∧
      (all_parties total ∖ {[own]} ⊆ named ops ∨ minimum <= length batch)
  | ThresholdShareCollectionFailed missing =>
      missing = all_parties total ∖ {[own]} ∖ named ops ∧
      ∀ batch, batch_exact total own ops batch → length batch < minimum ∨ batch = []
  end.

Section ShareProofs.
Context (total minimum : nat) (own : PartyId).
Local Abbreviation start := (all_parties total ∖ {[own]}).

(** The collection keeps the shares and the proofs of the tally apart. *)
Definition agrees (c : ThresholdShareCollection) (t : Tally Contribution) : Prop :=
  todo c = waiting t ∧ shares c = fst <$> got t ∧ share_proofs c = snd <$> got t.

Record share_tracks (a : ThresholdShareCollector) (ms : list Message) : Prop := {
  st_open : phase (collection a) = Collecting_;
  st_tally : agrees (collection a) (tally start (tally_ops ms));
  st_ec : last_ec a = None → shares (collection a) = ∅;
  st_minimum : minimum_external a = minimum }.

Lemma share_delivered ms p v : first_delivery (tally_ops ms) p = Some v → ts_party_id v.1 = p.
Proof.
  intros Hf. apply first_delivery_elem in Hf. unfold tally_ops in Hf. apply list_elem_of_omap in Hf as (m & _ & Hm).
  destruct m; cbn in Hm; naive_solver.
Qed.

(** The batch of a tracked collection. *)
Lemma new_batch_exact c ms : agrees c (tally start (tally_ops ms)) →
  batch_exact total own (tally_ops ms) (new_batch (shares c) (share_proofs c)) ∧
  length (new_batch (shares c) (share_proofs c)) = size (shares c).
Proof.
  intros (_ & Hsh & Hpr). set (t := tally start (tally_ops ms)) in *.
  assert (∀ p s, shares c !! p = Some s ↔ ∃ pr, collected start (tally_ops ms) p (s, pr) ∧ share_proofs c !! p = Some pr) as Hk.
  { intros p s. rewrite Hsh, Hpr, !lookup_fmap. fold t. split.
    - destruct (got t !! p) as [[s' pr]|] eqn:E; cbn; [|done]. intros [= ->]. exists pr. split; [|done].
      by apply tally_collected.
    - intros (pr & Hc & _). apply tally_collected in Hc. fold t in Hc. by rewrite Hc. }
  assert (∀ p s, (p, s) ∈ btree_list (shares c) → ts_party_id s = p) as Hid.
  { intros p s Hin. apply elem_of_btree_list, Hk in Hin as (pr & (_ & _ & Hf) & _). by apply share_delivered in Hf. }
  unfold batch_exact, batch_ids, new_batch. split_and!.
  - rewrite <-list_fmap_compose. assert (((λ c0 : Contribution, ts_party_id c0.1) ∘
      (λ '(pid, share), (share, default no_proofs (share_proofs c !! pid)))) <$> btree_list (shares c)
      = (btree_list (shares c)).*1) as ->; [|apply btree_list_sorted].
    apply list_fmap_ext. intros i [p s] Hi. apply (Hid p s). by eapply list_elem_of_lookup_2.
  - intros [s pr]. rewrite list_elem_of_fmap. cbn [fst]. split.
    + intros ([p s'] & [= -> ->] & Hin). pose proof (Hid _ _ Hin) as <-.
      apply elem_of_btree_list, Hk in Hin as (pr' & Hc & ->). done.
    + intros Hc. exists (ts_party_id s, s).
      assert (share_proofs c !! ts_party_id s = Some pr) as Hp.
      { apply tally_collected in Hc. rewrite Hpr, lookup_fmap. fold t in Hc. by rewrite Hc. }
      rewrite Hp. split; [done|]. apply elem_of_btree_list, Hk. eauto.
  - by rewrite length_fmap, btree_list_perm, length_map_to_list.
Qed.

Lemma batch_length ops b b' : batch_exact total own ops b → batch_exact total own ops b' → length b <= length b'.
Proof.
  intros [Hs Hin] [_ Hin']. apply sorted_lt_NoDup, NoDup_fmap_1 in Hs.
  apply submseteq_length, NoDup_submseteq; [done|]. intros x Hx. by apply Hin', Hin.
Qed.

Lemma share_ops_some ms m op : tally_op m = Some op → tally_ops (ms ++ [m]) = tally_ops ms ++ [op].
Proof. intros E. unfold tally_ops. rewrite omap_app. cbn. by rewrite E. Qed.

Lemma share_ops_none ms m : tally_op m = None → tally_ops (ms ++ [m]) = tally_ops ms.
Proof. intros E. unfold tally_ops. rewrite omap_app. cbn. rewrite E. apply app_nil_r. Qed.

(** After one message the actor goes on with the tally or has stopped, and what it sent is
    right. *)
Definition step_ok (ms : list Message) (r : ThresholdShareCollector * list ToParent) : Prop :=
  (stopped r.1 = true ∨ share_tracks r.1 ms) ∧
  (r.2 = [] ∨ ∃ out, r.2 = [out] ∧ share_report_ok total minimum own (tally_ops ms) out).

Lemma snapshot_ok a ms : share_tracks a ms → step_ok ms (complete_at_cutoff a).
Proof.
  intros Htr. pose proof Htr as [Ho Ha He Hm]. unfold complete_at_cutoff, snapshot_at_cutoff, is_collecting.
  destruct (last_ec a) as [ec|]; [|split; auto]. rewrite Ho. cbn [is_collecting_phase negb orb].
  destruct (Nat.ltb_spec (size (shares (collection a))) (minimum_external a)) as [Hl|Hl]; [split; auto|].
  split; [by right|]. right. eexists; split; [done|]. destruct (new_batch_exact _ _ Ha) as [Hb Hlen].
  split; [done|]. right. rewrite Hlen, <-Hm. done.
Qed.

Lemma reach_tracks a ms : share_tracks a ms → share_tracks (reach_cutoff_without_keyless_dealers a).1 ms.
Proof. intros [Ho Ha He Hm]. unfold reach_cutoff_without_keyless_dealers. by destruct (_ || _). Qed.

(** The outcome of a delivery or an expulsion that was expected. *)
Lemma share_finish_ok a c ms ec : minimum_external a = minimum → phase c = Collecting_ → agrees c (tally start (tally_ops ms)) →
  todo c = ∅ →
  step_ok ms (publish_outcome a ec (Completed (shares c) (share_proofs c))).
Proof.
  intros Hm Hp Ha Hd. split; [by left|]. right. eexists; split; [done|].
  destruct (new_batch_exact c ms Ha) as [Hb _]. split; [done|]. left.
  destruct Ha as (Hw & _ & _). rewrite Hw, tally_waiting in Hd. by apply empty_difference_subseteq_L.
Qed.

(** The tally of the collection follows each message. *)
Lemma agrees_deliver c ms share proofs ec : agrees c (tally start (tally_ops ms)) →
  (ts_party_id share ∉ todo c → agrees c (tally start (tally_ops (ms ++ [ShareCreated share proofs ec])))) ∧
  (ts_party_id share ∈ todo c →
    agrees (mk (todo c ∖ {[ts_party_id share]}) (<[ts_party_id share := share]> (shares c))
      (<[ts_party_id share := proofs]> (share_proofs c)) (phase c) (dealers_without_key c))
      (tally start (tally_ops (ms ++ [ShareCreated share proofs ec])))).
Proof.
  intros (Hw & Hs & Hp). erewrite share_ops_some, tally_snoc by done. cbn [tally_step].
  rewrite <-Hw. split; intros Hin; [by rewrite bool_decide_false|]. rewrite bool_decide_true by done.
  unfold agrees. cbn. by rewrite !fmap_insert, Hw, Hs, Hp.
Qed.

Lemma agrees_expel c ms p ec : agrees c (tally start (tally_ops ms)) →
  (p ∉ todo c → agrees (mk (todo c) (delete p (shares c)) (delete p (share_proofs c)) (phase c) (dealers_without_key c))
     (tally start (tally_ops (ms ++ [ExpelParty p ec])))) ∧
  (p ∈ todo c → agrees (mk (todo c ∖ {[p]}) (shares c) (share_proofs c) (phase c) (dealers_without_key c))
     (tally start (tally_ops (ms ++ [ExpelParty p ec])))).
Proof.
  intros (Hw & Hs & Hp). erewrite share_ops_some, tally_snoc by done. cbn [tally_step].
  rewrite <-Hw. split; intros Hin; [rewrite bool_decide_false by done|rewrite bool_decide_true by done];
    unfold agrees; cbn; by rewrite ?fmap_delete, Hw, Hs, Hp.
Qed.

Lemma handle_share_ok a ms share proofs ec : share_tracks a ms →
  step_ok (ms ++ [ShareCreated share proofs ec]) (handle_share a share proofs ec).
Proof.
  intros [Ho Ha He Hm]. destruct (agrees_deliver _ _ share proofs ec Ha) as [Hno Hyes].
  unfold handle_share, receive, is_collecting. rewrite Ho. cbn [is_collecting_phase negb].
  destruct (decide (ts_party_id share ∈ todo (collection a))) as [Hin|Hni].
  2: { rewrite bool_decide_true by done. split; [|by left]. right. by constructor; auto. }
  rewrite bool_decide_false by naive_solver. unfold finish_if_done. cbn [todo]. specialize (Hyes Hin). rewrite Ho in Hyes.
  case_bool_decide as Hd; [by eapply share_finish_ok in Hyes|].
  match goal with |- context [reach_cutoff_without_keyless_dealers ?x] =>
    assert (share_tracks x (ms ++ [ShareCreated share proofs ec])) as Htr by (by constructor) end.
  apply reach_tracks in Htr. destruct (cutoff_reached _); [by apply snapshot_ok|]. split; auto.
Qed.

Lemma handle_expel_ok a ms p ec : share_tracks a ms → step_ok (ms ++ [ExpelParty p ec]) (handle_expel a p ec).
Proof.
  intros [Ho Ha He Hm]. destruct (agrees_expel _ _ p ec Ha) as [Hno Hyes].
  unfold handle_expel, expel, is_collecting. rewrite Ho. cbn [is_collecting_phase negb].
  destruct (decide (p ∈ todo (collection a))) as [Hin|Hni].
  2: { rewrite bool_decide_true by done. specialize (Hno Hni). rewrite Ho in Hno. split; [|by left]. right.
       constructor; cbn; auto. intros Hn. rewrite He by done. apply delete_empty. }
  rewrite bool_decide_false by naive_solver. unfold finish_if_done. cbn [todo]. specialize (Hyes Hin). rewrite Ho in Hyes.
  case_bool_decide as Hd; [by eapply share_finish_ok in Hyes|].
  match goal with |- context [reach_cutoff_without_keyless_dealers ?x] =>
    assert (share_tracks x (ms ++ [ExpelParty p ec])) as Htr by (by constructor) end.
  apply reach_tracks in Htr. destruct (cutoff_reached _) eqn:Ec; [|split; auto].
  apply snapshot_ok. destruct Htr. by constructor.
Qed.

Lemma handle_deadline_ok a ms : share_tracks a ms → step_ok ms (handle_deadline a).
Proof.
  intros [Ho Ha He Hm]. unfold handle_deadline, finish_available, time_out, timeout, is_collecting. cbn [collection last_ec].
  rewrite Ho. cbn [is_collecting_phase negb orb minimum_external]. destruct (new_batch_exact _ _ Ha) as [Hb Hlen].
  assert ((size (shares (collection a)) < minimum ∨ last_ec a = None) →
    share_report_ok total minimum own (tally_ops ms) (ThresholdShareCollectionFailed (todo (collection a)))) as Hfail.
  { intros Hl. split; [destruct Ha as (-> & _ & _); apply tally_waiting|]. intros b Hb'.
    pose proof (batch_length _ _ _ Hb' Hb) as Hle. rewrite Hlen in Hle.
    destruct Hl as [Hl|Hn]; [left; lia|]. right. rewrite He in Hle by done.
    rewrite map_size_empty in Hle. by apply length_zero_iff_nil; lia. }
  destruct (last_ec a) as [ec|].
  - destruct (Nat.ltb_spec (size (shares (collection a))) (minimum_external a)) as [Hl|Hl]; cbn.
    + split; [by left|]. right. eexists; split; [done|]. apply Hfail. left. lia.
    + split; [by left|]. right. eexists; split; [done|]. split; [done|]. right. rewrite Hlen. lia.
  - split; [by left|]. right. eexists; split; [done|]. apply Hfail. by right.
Qed.

Lemma share_step_ok a ms m : stopped a = true ∨ share_tracks a ms → step_ok (ms ++ [m]) (handle a m).
Proof.
  unfold handle. destruct (stopped a) eqn:Es; [intros _; split; [by left|by left]|]. intros [?|Htr]; [done|].
  assert (tally_op m = None → share_tracks a (ms ++ [m])) as Hsame.
  { intros E. destruct Htr as [Ho Ha He Hm]. by constructor; rewrite ?share_ops_none. }
  destruct m as [share proofs ec| | |p ec|ids|].
  - by apply handle_share_ok.
  - destruct (cutoff_armed a); [|split; auto]. apply snapshot_ok. by destruct (Hsame eq_refl); constructor.
  - destruct (deadline_armed a); [|split; auto]. by apply handle_deadline_ok, Hsame.
  - by apply handle_expel_ok.
  - assert (share_tracks (with_collection (set_dealers_without_key (collection a) ids) a) (ms ++ [DealersWithoutKey ids]))
      as Htr' by (by destruct (Hsame eq_refl); constructor).
    apply reach_tracks in Htr'. destruct (reach_cutoff_without_keyless_dealers _) as [a' []]; cbn in *;
      [by apply snapshot_ok|split; auto].
  - split; [by left|by left].
Qed.

Lemma share_run_tracks a ms ms' : stopped a = true ∨ share_tracks a ms →
  stopped (run a ms').1 = true ∨ share_tracks (run a ms').1 (ms ++ ms').
Proof.
  revert a ms. induction ms' as [|m rest IH]; intros a ms Ha; cbn [run]; [by rewrite app_nil_r|].
  pose proof (share_step_ok a ms m Ha) as [Hs _]. destruct (handle a m) as [a' sent]. specialize (IH a' (ms ++ [m]) Hs).
  destruct (run a' rest) as [a'' sent']. by rewrite <-app_assoc in IH.
Qed.

(** A new share past the cutoff is reported at once. *)
Lemma late_share_reported a ms share proofs ec : share_tracks a ms → cutoff_reached a = true →
  ts_party_id share ∈ todo (collection a) → minimum <= S (size (shares (collection a))) →
  (handle_share a share proofs ec).2 ≠ [].
Proof.
  intros [Ho Ha He Hm] Hc Hin Hmin. unfold handle_share, receive, is_collecting. rewrite Ho. cbn [is_collecting_phase negb].
  rewrite bool_decide_false by naive_solver. unfold finish_if_done. cbn [todo]. case_bool_decide; [done|].
  unfold reach_cutoff_without_keyless_dealers, with_ec, with_collection. cbn [cutoff_reached]. rewrite Hc.
  cbn [orb fst cutoff_reached]. unfold complete_at_cutoff, snapshot_at_cutoff, is_collecting.
  cbn [last_ec collection phase is_collecting_phase negb orb minimum_external shares].
  destruct Ha as (Hw & Hs & _). rewrite map_size_insert_None.
  { by rewrite (proj2 (Nat.ltb_ge _ _)) by lia. }
  rewrite Hs, lookup_fmap. destruct (got _ !! _) as [v|] eqn:E; [|done]. exfalso.
  apply tally_collected in E as (_ & _ & Hf). apply first_delivery_named in Hf.
  rewrite Hw, tally_waiting in Hin. by apply elem_of_difference in Hin as [_ Hn].
Qed.
End ShareProofs.

Lemma setup_share_tracks total minimum own schedule : share_tracks total minimum own (setup total own minimum schedule) [].
Proof. by constructor. Qed.

(** After any messages, a message makes the collector of threshold shares report at most one
    batch or failure.  A batch holds exactly the first share of every other party that was not
    expelled, each with the proofs that came with it, by ascending party id, and it is complete or
    has the minimum of external shares; a failure names the missing parties and comes only without
    that minimum.  Once the soft cutoff is reached, a new share that makes or keeps the batch large
    enough is in the batch that is reported at once. *)
Theorem share_batches_exact (total minimum : nat) (own : PartyId) (schedule : ThresholdShareSchedule)
    (ms : list Message) (m : Message) :
  let a := (run (setup total own minimum schedule) ms).1 in
  let sent := (handle a m).2 in
  (sent = [] ∨ ∃ out, sent = [out] ∧ share_report_ok total minimum own (tally_ops (ms ++ [m])) out) ∧
  ∀ share proofs ec, m = ShareCreated share proofs ec →
    stopped a = false → cutoff_reached a = true →
    ts_party_id share ∈ all_parties total ∖ {[own]} → ts_party_id share ∉ named (tally_ops ms) →
    minimum <= S (size (shares (collection a))) →
    ∃ batch ec', sent = [AllThresholdSharesCollected batch ec'] ∧ (share, proofs) ∈ batch.
Proof.
  intros a sent.
  assert (stopped a = true ∨ share_tracks total minimum own a ms) as Ha.
  { apply (share_run_tracks total minimum own (setup total own minimum schedule) []). right. apply setup_share_tracks. }
  destruct (share_step_ok total minimum own a ms m Ha) as [_ Hok]. split; [done|].
  intros share proofs ec -> Hst Hc Hin Hnew Hmin. destruct Ha as [?|Htr]; [congruence|].
  assert (sent = (handle_share a share proofs ec).2) as Hs by (unfold sent, handle; by rewrite Hst).
  assert (ts_party_id share ∈ todo (collection a)) as Hto.
  { destruct Htr as [_ (-> & _ & _) _ _]. rewrite tally_waiting. by apply elem_of_difference. }
  pose proof (late_share_reported total minimum own a ms share proofs ec Htr Hc Hto Hmin) as Hne.
  destruct Hok as [Hz|(out & E & Hrep)]; [by rewrite <-Hs in Hne|]. fold sent in E. rewrite E.
  destruct out as [batch ec'|missing].
  - exists batch, ec'. split; [done|]. destruct Hrep as [[_ Hb] _]. apply Hb. cbn [fst].
    split_and!; [done| |].
    + erewrite share_ops_some by done. rewrite expelled_snoc, union_empty_r_L. intros He. by apply Hnew, expelled_named.
    + erewrite share_ops_some by done. rewrite first_delivery_snoc, bool_decide_true by done.
      destruct (first_delivery (tally_ops ms) (ts_party_id share)) eqn:Ef; [by apply first_delivery_named in Ef|done].
  - exfalso. revert E. rewrite Hs. unfold handle_share.
    destruct (receive _ _ _) as [c [| |b1 b2|b1 b2]]; cbn; try done.
    unfold complete_at_cutoff, snapshot_at_cutoff. repeat case_match; intros; simplify_eq/=.
Qed.

Definition ex_share (p : PartyId) : ThresholdShare := mkThresholdShare p [] [] [].

Definition ex_share_ec : EventContext := mkContext 0 0 0 0 0 0 None Local_.

(** Three parties, own party 1, one external share needed; the cutoff has passed. *)
Lemma share_batches_exact_witness :
  ∃ batch ec', (handle (run (setup 3 1 1 (mkSchedule 0 100 true))
      [ShareCreated (ex_share 2) no_proofs ex_share_ec]).1 (ShareCreated (ex_share 0) no_proofs ex_share_ec)).2
    = [AllThresholdSharesCollected batch ec'] ∧ (ex_share 0, no_proofs) ∈ batch.
Proof.
  eapply (proj2 (share_batches_exact 3 1 1 (mkSchedule 0 100 true) [ShareCreated (ex_share 2) no_proofs ex_share_ec]
    (ShareCreated (ex_share 0) no_proofs ex_share_ec))); [reflexivity|reflexivity|reflexivity| | |].
  - apply (bool_decide_unpack _). vm_compute. exact I.
  - apply (bool_decide_unpack _). vm_compute. exact I.
  - vm_compute. repeat constructor.
Defined.
