(* ===== verification/C4Collector.v ===== *)
(** * Collection of C4 bundles

    Model of crates/orchestration/keyshare/src/collect_decryption_keys.rs and of
    decryption_key_collector.rs.  Actors and timers are as in KeyCollector.v. *)

From S2P Require Import Prelude Events Orchestration KeyshareEvents Tally KeyCollector.
Local Open Scope nat_scope.

Inductive DecryptionShareOutcome := Ignored | Pending | Completed (shares : gmap PartyId DecryptionKeyShared).

Record DecryptionKeySharedCollection := mk
  { expected : gset PartyId; shares : gmap PartyId DecryptionKeyShared; phase : CollectionPhase }.

Definition new (expected_parties : gset PartyId) : DecryptionKeySharedCollection := mk expected_parties ∅ Collecting_.

Definition is_collecting (c : DecryptionKeySharedCollection) : bool := is_collecting_phase (phase c).

(** The shares are taken out of the collection. *)
Definition finish_if_done (c : DecryptionKeySharedCollection) : DecryptionKeySharedCollection * DecryptionShareOutcome :=
  if bool_decide (expected c = ∅) then (mk (expected c) ∅ Finished, Completed (shares c)) else (c, Pending).

Definition receive (c : DecryptionKeySharedCollection) (share : DecryptionKeyShared)
    : DecryptionKeySharedCollection * DecryptionShareOutcome :=
  let pid := dks_party_id share in
  if negb (is_collecting c) then (c, Ignored)
  else if bool_decide (pid ∉ expected c) then (c, Ignored)
  else finish_if_done (mk (expected c ∖ {[pid]}) (<[pid := share]> (shares c)) (phase c)).

Definition expel (c : DecryptionKeySharedCollection) (party_id : PartyId)
    : DecryptionKeySharedCollection * DecryptionShareOutcome :=
  if negb (is_collecting c) then (c, Ignored)
  else if bool_decide (party_id ∉ expected c) then (mk (expected c) (delete party_id (shares c)) (phase c), Ignored)
  else finish_if_done (mk (expected c ∖ {[party_id]}) (shares c) (phase c)).

Definition timeout (c : DecryptionKeySharedCollection) : DecryptionKeySharedCollection * option (gset PartyId) :=
  if negb (is_collecting c) then (c, None) else (mk (expected c) (shares c) TimedOut, Some (expected c)).

(** *** The collector *)

Record DecryptionKeySharedCollector := mkCollector
  { collection : DecryptionKeySharedCollection; timer_armed : bool; stopped : bool }.

Inductive Message :=
| KeyShared (share : DecryptionKeyShared) (ec : EventContext)
| Timer
| ExpelParty (party_id : PartyId) (ec : EventContext).

Inductive ToParent :=
| AllDecryptionKeySharesCollected (shares : gmap PartyId DecryptionKeyShared) (ec : EventContext)
| DecryptionKeySharedCollectionFailed (missing_parties : gset PartyId).

Definition setup (expected_parties : gset PartyId) : DecryptionKeySharedCollector :=
  mkCollector (new expected_parties) true false.

Definition complete (a : DecryptionKeySharedCollector) (ec : EventContext) (outcome : DecryptionShareOutcome)
    : DecryptionKeySharedCollector * list ToParent :=
  match outcome with
  | Completed shares => (mkCollector (collection a) false true, [AllDecryptionKeySharesCollected shares ec])
  | _ => (a, [])
  end.

Definition handle (a : DecryptionKeySharedCollector) (m : Message) : DecryptionKeySharedCollector * list ToParent :=
  if stopped a then (a, [])
  else
    match m with
    | KeyShared share ec =>
        let '(c, outcome) := receive (collection a) share in
        complete (mkCollector c (timer_armed a) (stopped a)) ec outcome
    | Timer =>
        if timer_armed a then
          match timeout (collection a) with
          | (_, None) => (a, [])
          | (c, Some missing) => (mkCollector c (timer_armed a) true, [DecryptionKeySharedCollectionFailed missing])
          end
        else (a, [])
    | ExpelParty p ec =>
        let '(c, outcome) := expel (collection a) p in
        complete (mkCollector c (timer_armed a) (stopped a)) ec outcome
    end.

Fixpoint run (a : DecryptionKeySharedCollector) (ms : list Message) : DecryptionKeySharedCollector * list ToParent :=
  match ms with
  | [] => (a, [])
  | m :: rest => let '(a, sent) := handle a m in let '(a', sent') := run a rest in (a', sent ++ sent')
  end.

(** ** What a collection reports *)

Definition tally_op (m : Message) : option (TallyOp DecryptionKeyShared) :=
  match m with
  | KeyShared share _ => Some (Deliver (dks_party_id share) share)
  | ExpelParty p _ => Some (Expel p)
  | Timer => None
  end.

Definition tally_ops (ms : list Message) : list (TallyOp DecryptionKeyShared) := omap tally_op ms.

(** Complete bundles of the expected parties that were not expelled, or the missing ones. *)
Definition c4_report_ok (start : gset PartyId) (ops : list (TallyOp DecryptionKeyShared)) (out : ToParent) : Prop :=
  match out with
  | AllDecryptionKeySharesCollected l _ =>
      start ⊆ named ops ∧ ∀ p share, l !! p = Some share ↔ collected start ops p share
  | DecryptionKeySharedCollectionFailed missing => missing = start ∖ named ops
  end.

Section C4Proofs.
Context (start : gset PartyId).

Definition c4_tracks (a : DecryptionKeySharedCollector) (ms : list Message) : Prop :=
  phase (collection a) = Collecting_ ∧
  mkTally (expected (collection a)) (shares (collection a)) = tally start (tally_ops ms).

Lemma c4_ops_some ms m op : tally_op m = Some op → tally_ops (ms ++ [m]) = tally_ops ms ++ [op].
Proof. intros E. unfold tally_ops. rewrite omap_app. cbn. by rewrite E. Qed.

(** The collection after an expected party is heard of. *)
Lemma c4_finish a c ms ec : phase c = Collecting_ → mkTally (expected c) (shares c) = tally start (tally_ops ms) →
  let '(c', outcome) := finish_if_done c in
  let '(a', sent) := complete (mkCollector c' (timer_armed a) false) ec outcome in
  (sent = [] ∧ stopped a' = false ∧ c4_tracks a' ms ∧ expected c ≠ ∅) ∨
  (stopped a' = true ∧ ∃ out, sent = [out] ∧ c4_report_ok start (tally_ops ms) out).
Proof.
  intros Hp Ht. unfold finish_if_done. case_bool_decide as Hd; cbn; [right|left; done].
  split; [done|]. eexists; split; [done|]. split.
  - assert (waiting (tally start (tally_ops ms)) = ∅) as Hw by (by rewrite <-Ht).
    rewrite tally_waiting in Hw. by apply empty_difference_subseteq_L.
  - intros p share. rewrite <-tally_collected, <-Ht. done.
Qed.

Lemma c4_step a ms m : stopped a = false → c4_tracks a ms →
  let '(a', sent) := handle a m in
  (sent = [] ∧ stopped a' = false ∧ c4_tracks a' (ms ++ [m])) ∨
  (stopped a' = true ∧ ∃ out, sent = [out] ∧ c4_report_ok start (tally_ops (ms ++ [m])) out).
Proof.
  intros Hst [Hp Ht]. unfold handle. rewrite Hst. destruct m as [share ec| |p ec].
  - assert (tally start (tally_ops (ms ++ [KeyShared share ec])) = tally_step (tally start (tally_ops ms)) (Deliver (dks_party_id share) share)) as E
      by (erewrite c4_ops_some by done; apply tally_snoc).
    unfold receive, is_collecting. rewrite Hp. cbn [is_collecting_phase negb]. rewrite <-Ht in E. cbn in E.
    destruct (decide (dks_party_id share ∈ expected (collection a))) as [Hin|Hni].
    + rewrite bool_decide_false by naive_solver. rewrite bool_decide_true in E by done.
      pose proof (c4_finish a (mk (expected (collection a) ∖ {[dks_party_id share]}) (<[dks_party_id share:=share]> (shares (collection a))) Collecting_)
        (ms ++ [KeyShared share ec]) ec eq_refl (eq_sym E)) as Hf.
      destruct (finish_if_done _) as [c' outcome]. destruct (complete _ _ _) as [a' sent]. destruct Hf as [(? & ? & ? & _)|Hf]; [by left|by right].
    + rewrite bool_decide_true by done. rewrite bool_decide_false in E by done. cbn. left. split; [done|]. split; [done|]. done.
  - assert (tally_ops (ms ++ [Timer]) = tally_ops ms) as E
      by (unfold tally_ops; rewrite omap_app; cbn; apply app_nil_r).
    destruct (timer_armed a); [|left; unfold c4_tracks; by rewrite E].
    unfold timeout, is_collecting. rewrite Hp. cbn. right. split; [done|]. eexists; split; [done|]. cbn.
    rewrite E, <-tally_waiting, <-Ht. done.
  - assert (tally start (tally_ops (ms ++ [ExpelParty p ec])) = tally_step (tally start (tally_ops ms)) (Expel p)) as E
      by (erewrite c4_ops_some by done; apply tally_snoc).
    unfold expel, is_collecting. rewrite Hp. cbn [is_collecting_phase negb]. rewrite <-Ht in E. cbn in E.
    destruct (decide (p ∈ expected (collection a))) as [Hin|Hni].
    + rewrite bool_decide_false by naive_solver. rewrite bool_decide_true in E by done.
      pose proof (c4_finish a (mk (expected (collection a) ∖ {[p]}) (shares (collection a)) Collecting_)
        (ms ++ [ExpelParty p ec]) ec eq_refl (eq_sym E)) as Hf.
      destruct (finish_if_done _) as [c' outcome]. destruct (complete _ _ _) as [a' sent]. destruct Hf as [(? & ? & ? & _)|Hf]; [by left|by right].
    + rewrite bool_decide_true by done. rewrite bool_decide_false in E by done. cbn. left. split; [done|]. split; [done|]. done.
Qed.

Lemma c4_run_stopped a ms : stopped a = true → (run a ms).2 = [].
Proof.
  intros Hs. induction ms as [|m ms IH]; [done|]. cbn. unfold handle. rewrite Hs.
  destruct (run a ms) as [a' sent]. done.
Qed.

Lemma c4_run a ms ms' : stopped a = false → c4_tracks a ms →
  (run a ms').2 = [] ∨
  ∃ ms1 ms2 out, ms' = ms1 ++ ms2 ∧ (run a ms').2 = [out] ∧ c4_report_ok start (tally_ops (ms ++ ms1)) out.
Proof.
  revert a ms. induction ms' as [|m rest IH]; intros a ms Hs Htr; [by left|]. cbn.
  pose proof (c4_step a ms m Hs Htr) as Hh. destruct (handle a m) as [a' sent].
  destruct Hh as [(-> & Hs' & Htr')|(Hs' & out & -> & Hout)].
  - specialize (IH a' (ms ++ [m]) Hs' Htr'). destruct (run a' rest) as [a'' sent']. cbn in *.
    destruct IH as [IH|(ms1 & ms2 & out & -> & -> & Hout)]; [by left|].
    right. exists (m :: ms1), ms2, out. by rewrite <-app_assoc in Hout.
  - right. pose proof (c4_run_stopped a' rest Hs') as E. destruct (run a' rest) as [a'' sent']. cbn in *. subst.
    by exists [m], rest, out.
Qed.
End C4Proofs.

(** Whatever bundles, expulsions and timers reach a collector of C4 bundles, it reports at most
    once: all bundles of the expected parties that were not expelled, each the first of its party,
    when nobody is missing; or exactly the missing parties. *)
Theorem c4_collection_reports_once (start : gset PartyId) (ms : list Message) :
  (run (setup start) ms).2 = [] ∨
  ∃ ms1 ms2 out, ms = ms1 ++ ms2 ∧ (run (setup start) ms).2 = [out] ∧ c4_report_ok start (tally_ops ms1) out.
Proof. by apply (c4_run start (setup start) []). Qed.
