(* ===== verification/DkgRoster.v ===== *)
(** * Rosters of distributed key generation

    Model of crates/orchestration/keyshare/src/roster.rs: the identity of a dealer's contribution,
    the growth of a share batch, and the search for the first set of H parties that all hold the
    same version of each other's contribution. *)

From S2P Require Import Prelude Events NodeRegistry Orchestration KeyshareEvents.
Local Open Scope nat_scope.

Inductive DealerError := ProofPairMismatch | DealerDigest.

Section Identity.
Context `{AlloyOps}.

(** Both proofs are for this E3, of the two C2 types and of their circuits. *)
Definition proof_pair_matches (e3_id : E3id) (c2a c2b : SignedProofPayload) : bool :=
  bool_decide (pp_e3_id (payload c2a) = e3_id) && bool_decide (pp_e3_id (payload c2b) = e3_id) &&
  bool_decide (pp_proof_type (payload c2a) = C2aSkShareComputation) &&
  bool_decide (pp_proof_type (payload c2b) = C2bESmShareComputation) &&
  bool_decide (circuit (pp_proof (payload c2a)) ∈ circuit_names (pp_proof_type (payload c2a))) &&
  bool_decide (circuit (pp_proof (payload c2b)) ∈ circuit_names (pp_proof_type (payload c2b))).

Definition dealer_identity (e3_id : E3id) (party_id : PartyId) (pk_share : Bytes) (c2a c2b : SignedProofPayload)
    : result DkgDealer DealerError :=
  if negb (proof_pair_matches e3_id c2a c2b) then Err ProofPairMismatch
  else
    match statement_digest (payload c2a), statement_digest (payload c2b) with
    | Some a, Some b =>
        Ok (mkDealer party_id (keccak256 (abi_encode [AbiBytes32 (keccak256 pk_share); AbiBytes32 a; AbiBytes32 b])))
    | _, _ => Err DealerDigest
    end.
End Identity.

(** The batch without its expelled dealers. *)
Definition live_batch (batch expelled : gset PartyId) : gset PartyId := batch ∖ expelled.

Definition batch_grows (previous candidate expelled : gset PartyId) : bool :=
  (size (live_batch previous expelled) <? size (live_batch candidate expelled)) &&
  bool_decide (live_batch previous expelled ⊆ live_batch candidate expelled).

Definition dispatch_verifies_batch (verified batch expelled : gset PartyId) : bool :=
  bool_decide (verified ⊆ batch) && bool_decide (set_Forall (λ p, p ∈ expelled ∨ p ∈ verified) batch).

(** ** The search *)

Abbreviation ReadyMap := (gmap PartyId (list DkgDealer)).

(** [ready[&p]]; the search looks up only parties of the map. *)
Definition reports (ready : ReadyMap) (p : PartyId) : list DkgDealer := default [] (ready !! p).

(** A party's own contribution in its report. *)
Definition own_dealer (ready : ReadyMap) (p : PartyId) : option DkgDealer :=
  List.find (λ d, d_party_id d =? p) (reports ready p).

(** The candidate holds every selected contribution and every selected party holds the
    candidate's. *)
Definition compatible (ready : ReadyMap) (selected : list DkgDealer) (candidate : PartyId) (own : DkgDealer) : bool :=
  forallb (λ dealer, bool_decide (dealer ∈ reports ready candidate) &&
                     bool_decide (own ∈ reports ready (d_party_id dealer))) selected.

(** The [for] loop of [select_from]: [ids] are the candidates that are left. *)
Fixpoint select_loop (ready : ReadyMap) (h : nat) (ids : list PartyId) (selected : list DkgDealer)
    : option (list DkgDealer) :=
  match ids with
  | [] => None
  | candidate :: rest =>
      match own_dealer ready candidate with
      | None => select_loop ready h rest selected
      | Some own =>
          if negb (compatible ready selected candidate own) then select_loop ready h rest selected
          else
            let next := selected ++ [own] in
            match (if length next =? h then Some next
                   else if length next + length rest <? h then None
                   else select_loop ready h rest next) with
            | Some roster => Some roster
            | None => select_loop ready h rest selected
            end
      end
  end.

Definition select_from (ready : ReadyMap) (h : nat) (ids : list PartyId) (selected : list DkgDealer)
    : option (list DkgDealer) :=
  if length selected =? h then Some selected
  else if length selected + length ids <? h then None
  else select_loop ready h ids selected.

Definition select_ready_roster (ready : ReadyMap) (h : nat) : option (list DkgDealer) :=
  if (h =? 0) || (size ready <? h) then None
  else select_from ready h (btree_list ready).*1 [].

(** ** What the search finds *)

(** Each dealer's entry is its own contribution, and all of them hold it. *)
Definition mutually_ready (ready : ReadyMap) (l : list DkgDealer) : Prop :=
  (∀ d, d ∈ l → own_dealer ready (d_party_id d) = Some d) ∧
  ∀ d d', d ∈ l → d' ∈ l → d ∈ reports ready (d_party_id d').

Definition roster_of (ready : ReadyMap) (h : nat) (l : list DkgDealer) : Prop :=
  length l = h ∧ StronglySorted lt (dealer_ids l) ∧ mutually_ready ready l.

(** Lists of the same length in lexicographic order. *)
Inductive lex_le : list nat → list nat → Prop :=
| lex_nil : lex_le [] []
| lex_less x y l l' : x < y → lex_le (x :: l) (y :: l')
| lex_same x l l' : lex_le l l' → lex_le (x :: l) (x :: l').

Lemma lex_le_refl l : lex_le l l.
Proof. induction l; by constructor. Qed.

Lemma own_dealer_spec ready p d : own_dealer ready p = Some d → d_party_id d = p ∧ d ∈ reports ready p.
Proof.
  unfold own_dealer. intros Hf. apply List.find_some in Hf as [Hin Hp]. bool_to_prop. split; [done|].
  by apply list_elem_of_In.
Qed.

(** Adding a compatible candidate keeps mutual readiness, and nothing else can be added. *)
Lemma mutually_ready_snoc ready l p d : own_dealer ready p = Some d →
  mutually_ready ready (l ++ [d]) ↔ mutually_ready ready l ∧ compatible ready l p d = true.
Proof.
  intros Hown. destruct (own_dealer_spec ready p d Hown) as [Hid Hin]. unfold mutually_ready, compatible.
  rewrite forallb_forall. setoid_rewrite <-list_elem_of_In. setoid_rewrite andb_true_iff.
  setoid_rewrite bool_decide_eq_true. setoid_rewrite elem_of_app. setoid_rewrite list_elem_of_singleton. split.
  - intros [Ho Hm]. split; [split; [naive_solver|naive_solver]|]. intros x Hx.
    split; [|by apply Hm; auto]. rewrite <-Hid. apply Hm; auto.
  - intros [[Ho Hm] Hc]. split; [intros x [Hx| ->]; [by apply Ho|by rewrite Hid]|].
    intros x y [Hx| ->] [Hy| ->]; [by apply Hm|rewrite Hid; by apply Hc|by apply Hc|by rewrite Hid].
Qed.

Lemma mutually_ready_app ready l l' : mutually_ready ready (l ++ l') → mutually_ready ready l.
Proof. intros [Ho Hm]. split; intros; [apply Ho|apply Hm]; set_solver. Qed.

(** Ways to complete a selection with the candidates that are left. *)
Definition completes (ready : ReadyMap) (h : nat) (ids : list PartyId) (selected extra : list DkgDealer) : Prop :=
  dealer_ids extra `sublist_of` ids ∧ mutually_ready ready (selected ++ extra) ∧ length (selected ++ extra) = h.

Definition first_completion (ready : ReadyMap) (h : nat) (ids : list PartyId) (selected : list DkgDealer)
    (r : option (list DkgDealer)) : Prop :=
  match r with
  | Some roster => ∃ extra, roster = selected ++ extra ∧ completes ready h ids selected extra ∧
      ∀ extra', completes ready h ids selected extra' → lex_le (dealer_ids extra) (dealer_ids extra')
  | None => ∀ extra, ¬ completes ready h ids selected extra
  end.

Lemma completes_skip ready h c rest selected extra :
  completes ready h rest selected extra → completes ready h (c :: rest) selected extra.
Proof. intros (Hs & Hm). split; [by constructor|done]. Qed.

(** A completion takes the next candidate or leaves it out. *)
Lemma completes_cases ready h c rest selected extra : length selected ≠ h →
  completes ready h (c :: rest) selected extra →
  completes ready h rest selected extra ∨
  ∃ own extra', own_dealer ready c = Some own ∧ extra = own :: extra' ∧ compatible ready selected c own = true ∧
    completes ready h rest (selected ++ [own]) extra'.
Proof.
  intros Hlen (Hs & Hm & Hl). destruct extra as [|d extra]; [rewrite app_nil_r in Hl; done|].
  cbn in Hs. apply sublist_cons_r in Hs as [Hs|(k & [= E <-] & Hs)]; [left; by split_and!|]. right.
  assert (own_dealer ready c = Some d) as Hown.
  { rewrite <-E. apply (proj1 Hm). apply elem_of_app. right. left. }
  exists d, extra. assert (selected ++ d :: extra = (selected ++ [d]) ++ extra) as Ea by by rewrite <-app_assoc.
  rewrite Ea in Hm, Hl. split_and!; [done|done| |by split_and!].
  apply mutually_ready_app in Hm. by apply (mutually_ready_snoc ready selected c d Hown).
Qed.

Lemma sublist_length_dealers extra (ids : list nat) : dealer_ids extra `sublist_of` ids → length extra <= length ids.
Proof. intros Hs. apply sublist_length in Hs. unfold dealer_ids in Hs. by rewrite length_fmap in Hs. Qed.

Lemma select_loop_first ready h ids selected :
  StronglySorted lt ids → length selected ≠ h → mutually_ready ready selected →
  first_completion ready h ids selected (select_loop ready h ids selected).
Proof.
  revert selected. induction ids as [|c rest IH]; intros selected Hsort Hlen Hm.
  { cbn. intros extra (Hs & _ & Hl). apply sublist_length_dealers in Hs. cbn in Hs.
    destruct extra; [|cbn in Hs; lia]. by rewrite app_nil_r in Hl. }
  apply StronglySorted_cons in Hsort as [Hgt Hsort]. pose proof (IH selected Hsort Hlen Hm) as IHskip.
  (* leaving the candidate out *)
  assert ((∀ own extra, own_dealer ready c = Some own → compatible ready selected c own = true →
      ¬ completes ready h rest (selected ++ [own]) extra) →
    first_completion ready h (c :: rest) selected (select_loop ready h rest selected)) as Hskip.
  { intros Hno. destruct (select_loop ready h rest selected) as [roster|]; cbn in *.
    - destruct IHskip as (extra & -> & Hc & Hmin). exists extra. split_and!; [done|by apply completes_skip|].
      intros extra' [Hc'|(own & e & Ho & -> & Hcm & Hc')]%completes_cases; [by apply Hmin|by destruct (Hno own e)|done].
    - intros extra [Hc|(own & e & Ho & -> & Hcm & Hc)]%completes_cases; [by apply (IHskip extra)|by apply (Hno own e)|done]. }
  cbn [select_loop]. destruct (own_dealer ready c) as [own|] eqn:Eo; [|apply Hskip; by intros].
  destruct (compatible ready selected c own) eqn:Ec; cbn [negb].
  2: { apply Hskip. intros own' e [= <-]. by rewrite Ec. }
  assert (mutually_ready ready (selected ++ [own])) as Hm' by by apply (mutually_ready_snoc ready selected c own Eo).
  assert (first_completion ready h rest (selected ++ [own])
    (if length (selected ++ [own]) =? h then Some (selected ++ [own])
     else if length (selected ++ [own]) + length rest <? h then None
     else select_loop ready h rest (selected ++ [own]))) as Hnext.
  { destruct (Nat.eqb_spec (length (selected ++ [own])) h) as [E|E].
    - exists []. rewrite app_nil_r. split_and!; [done|split; [apply sublist_nil_l|by rewrite app_nil_r]|].
      intros extra' (_ & _ & Hl). rewrite length_app in Hl. destruct extra'; [constructor|cbn in Hl; lia].
    - destruct (Nat.ltb_spec (length (selected ++ [own]) + length rest) h) as [Hb|Hb]; [|by apply IH].
      intros extra (Hs & _ & Hl). apply sublist_length_dealers in Hs. rewrite length_app in Hl. lia. }
  destruct (if length (selected ++ [own]) =? h then _ else _) as [roster|]; cbn in Hnext.
  - destruct Hnext as (extra & -> & (Hs & Hmr & Hl) & Hmin). exists (own :: extra).
    rewrite <-app_assoc in *. destruct (own_dealer_spec ready c own Eo) as [Hid _]. split_and!; [done| |].
    + split_and!; [|done|done]. cbn. rewrite Hid. by constructor.
    + intros extra' [Hc|(own' & e & Ho' & -> & _ & Hc)]%completes_cases; [|by simplify_eq; constructor; apply Hmin|done].
      destruct extra' as [|d extra']; [destruct Hc as (_ & _ & Hz); rewrite app_nil_r in Hz; done|].
      cbn. apply lex_less. destruct Hc as (Hs' & _). rewrite Hid.
      assert (d_party_id d ∈ rest) as Hd by (eapply elem_of_sublist; [|exact Hs']; left).
      rewrite Forall_forall in Hgt. by apply Hgt.
  - apply Hskip. intros own' e [= <-] _. apply Hnext.
Qed.

Lemma sublist_sorted (l k : list nat) : l `sublist_of` k → StronglySorted lt k → StronglySorted lt l.
Proof.
  induction 1 as [|x l k Hs IH|x l k Hs IH]; intros Hk; [done| |].
  - apply StronglySorted_cons in Hk as [Hall Hk]. apply StronglySorted_cons. split; [|by apply IH].
    rewrite Forall_forall in *. intros y Hy. apply Hall. by eapply elem_of_sublist.
  - apply StronglySorted_cons in Hk as [_ Hk]. by apply IH.
Qed.

(** An ascending list of members is a sublist. *)
Lemma sorted_sublist (l k : list nat) : StronglySorted lt l → StronglySorted lt k → (∀ x, x ∈ l → x ∈ k) → l `sublist_of` k.
Proof.
  intros Hl Hk. revert l Hl. induction k as [|y k IH]; intros l Hl Hsub.
  { destruct l as [|x l]; [constructor|]. specialize (Hsub x ltac:(left)). by apply elem_of_nil in Hsub. }
  apply StronglySorted_cons in Hk as [Hy Hk]. rewrite Forall_forall in Hy.
  destruct l as [|x l]; [apply sublist_nil_l|]. apply StronglySorted_cons in Hl as [Hx Hl]. rewrite Forall_forall in Hx.
  destruct (decide (x = y)) as [->|Hne].
  - constructor. apply IH; [done|done|]. intros z Hz. specialize (Hx z Hz).
    specialize (Hsub z ltac:(by right)). apply elem_of_cons in Hsub as [->|?]; [lia|done].
  - constructor. apply IH; [done|apply StronglySorted_cons; split; [by apply Forall_forall|done]|].
    assert (y < x) as Hyx.
    { specialize (Hsub x ltac:(left)). apply elem_of_cons in Hsub as [?|?]; [done|by apply Hy]. }
    intros z Hz. specialize (Hsub z Hz). apply elem_of_cons in Hsub as [->|?]; [|done].
    apply elem_of_cons in Hz as [->|Hz]; [done|]. specialize (Hx y Hz). lia.
Qed.

(** A roster is a way to complete the empty selection. *)
Lemma roster_completes ready h l : roster_of ready h l ↔ completes ready h (btree_list ready).*1 [] l.
Proof.
  unfold completes. cbn. split.
  - intros (Hl & Hs & Hm). split_and!; [|done|done]. apply sorted_sublist; [done|apply btree_list_sorted|].
    intros p (d & -> & Hd)%list_elem_of_fmap. apply (proj1 Hm) in Hd as Ho. apply own_dealer_spec in Ho as [_ Hin].
    unfold reports in Hin. destruct (ready !! d_party_id d) as [r|] eqn:E; [|by apply elem_of_nil in Hin].
    apply list_elem_of_fmap. exists (d_party_id d, r). split; [done|]. by apply elem_of_btree_list.
  - intros (Hs & Hm & Hl). split_and!; [done| |done]. eapply sublist_sorted; [done|]. apply btree_list_sorted.
Qed.

(** C25: The roster search is complete and canonical.  When it returns a roster, that has exactly H
    dealers by ascending party id, each named by the contribution of its own Ready report, and
    every one of them holds every other's contribution in that same version; and it is the first
    such roster in the order of the party ids, so that nodes with the same reports select the same
    one.  When it returns none, there is no such roster. *)
Theorem select_ready_roster_first (ready : ReadyMap) (h : nat) :
  match select_ready_roster ready h with
  | Some roster => 0 < h ∧ roster_of ready h roster ∧
      ∀ other, roster_of ready h other → lex_le (dealer_ids roster) (dealer_ids other)
  | None => h = 0 ∨ ∀ roster, ¬ roster_of ready h roster
  end.
Proof.
  unfold select_ready_roster. destruct (Nat.eqb_spec h 0) as [->|Hh]; [by left|]. cbn [orb].
  assert (length (btree_list ready).*1 = size ready) as Hlen
    by by rewrite length_fmap, btree_list_perm, length_map_to_list.
  destruct (Nat.ltb_spec (size ready) h) as [Hsz|Hsz].
  { right. intros roster Hr. apply roster_completes in Hr as (Hs & _ & Hl). cbn in Hl.
    apply sublist_length_dealers in Hs. lia. }
  unfold select_from. cbn [length]. destruct (Nat.eqb_spec 0 h); [lia|]. rewrite Nat.add_0_l, Hlen.
  rewrite (proj2 (Nat.ltb_ge _ _)) by done.
  assert (mutually_ready ready []) as H0 by (split; set_solver).
  pose proof (select_loop_first ready h (btree_list ready).*1 [] (btree_list_sorted ready) ltac:(done) H0) as Hf.
  destruct (select_loop _ _ _ _) as [roster|]; cbn in Hf.
  - destruct Hf as (extra & -> & Hc & Hmin). split; [lia|]. split; [by apply roster_completes|].
    intros other Ho. by apply Hmin, roster_completes.
  - right. intros roster Hr. by apply (Hf roster), roster_completes.
Qed.

(** ** Batches *)

(** A batch that grows has a live dealer that the previous one lacks, and loses none. *)
Lemma batch_grows_spec previous candidate expelled :
  batch_grows previous candidate expelled = true ↔
  (∀ p, p ∈ previous → p ∉ expelled → p ∈ candidate) ∧ ∃ p, p ∈ candidate ∧ p ∉ expelled ∧ p ∉ previous.
Proof.
  unfold batch_grows, live_batch. rewrite andb_true_iff, Nat.ltb_lt, bool_decide_eq_true. split.
  - intros [Hsz Hsub]. split; [set_solver|].
    assert (candidate ∖ expelled ∖ (previous ∖ expelled) ≠ ∅) as Hne.
    { intros E. apply empty_difference_subseteq_L, subseteq_size in E. lia. }
    apply set_choose_L in Hne as [p Hp]. exists p. set_solver.
  - intros [Hsub (p & Hp & He & Hn)]. split; [|set_solver]. apply subset_size. set_solver.
Qed.

(** A dispatch keeps verifying its batch when more dealers are expelled, and never verifies a
    batch with a live dealer that it left out. *)
Lemma dispatch_verifies_mono verified batch expelled expelled' :
  expelled ⊆ expelled' → dispatch_verifies_batch verified batch expelled = true →
  dispatch_verifies_batch verified batch expelled' = true.
Proof.
  unfold dispatch_verifies_batch. rewrite !andb_true_iff, !bool_decide_eq_true. intros Hs [Hv Hf].
  split; [done|]. intros p Hp. specialize (Hf p Hp). set_solver.
Qed.
