(* ===== verification/CanonicalKeys.v ===== *)
(** * Canonical public keys

    Model of crates/state/request/src/canonical_key.rs: the public key of each E3 as the chain
    confirmed it, the key bytes that match it and the hashes of the confirmed ciphertexts, shared
    by the actors of a node.  The check of key bytes against a commitment is BFV code, the class
    [KeyCheck]. *)

From S2P Require Import Prelude Events Orchestration.
Local Open Scope nat_scope.

(** [validate_pk_commitment] with the parameters of a preset *)
Class KeyCheck := { validate_pk_commitment : BfvPreset → B256 → Bytes → bool }.

Record CanonicalPublicKey := mkCanonicalKey {
  ck_pk_commitment : B256; ck_committee : list Address; ck_honest_committee : list Address;
  ck_params_preset : BfvPreset; ck_committee_size : CiphernodesCommitteeSize; ck_interfold_address : Address;
  ck_sk_agg_commits : list B256; ck_esm_agg_commits : list B256 }.

Global Instance BfvPreset_eq_dec : EqDecision BfvPreset.
Proof. solve_decision. Defined.

Global Instance CanonicalPublicKey_eq_dec : EqDecision CanonicalPublicKey.
Proof. solve_decision. Defined.

Global Instance DecryptionDomainContext_eq_dec : EqDecision DecryptionDomainContext.
Proof. solve_decision. Defined.

(** The fields of [PublicKeyAggregated] that are compared. *)
Record AggregatedKey := mkAggregatedKey {
  ak_e3_id : E3id; ak_pubkey : Bytes; ak_committee_addresses : list Address;
  ak_honest_committee_addresses : list Address; ak_pk_commitment : B256 }.

Record ThresholdShareDecryptionProofRequest := mkC6Request {
  c6_ciphertext_bytes : list Bytes; c6_aggregated_pk_bytes : Bytes; c6_sk_poly_sum : Bytes;
  c6_es_poly_sum : list Bytes; c6_d_share_bytes : list Bytes; c6_decryption_domain : DecryptionDomainContext;
  c6_params_preset : BfvPreset; c6_committee_size : CiphernodesCommitteeSize }.

Record CanonicalKeyState := mkCanonical {
  authority : gmap E3id CanonicalPublicKey; key_bytes : gmap E3id Bytes; ciphertext_hashes : gmap E3id (list B256) }.

Inductive KeyError := KeyContextChanged | CiphertextChanged | KeyContextUnavailable | WrongKeyBytes.

Section Keys.
Context `{AlloyOps} `{KeyCheck}.

Definition validate_key (key : CanonicalPublicKey) (bytes : Bytes) : bool :=
  validate_pk_commitment (ck_params_preset key) (ck_pk_commitment key) bytes.

Definition accepts (key : CanonicalPublicKey) (data : AggregatedKey) : bool :=
  bool_decide (ak_pk_commitment data = ck_pk_commitment key) &&
  bool_decide (ak_committee_addresses data = ck_committee key) &&
  bool_decide (ak_honest_committee_addresses data = ck_honest_committee key) &&
  validate_key key (ak_pubkey data).

Definition key_domain (key : CanonicalPublicKey) (interfold : Address) : DecryptionDomainContext :=
  mkDomain interfold (hash_committee_addresses (ck_committee key)) (ck_pk_commitment key).

Definition get_key (keys : CanonicalKeyState) (id : E3id) : option CanonicalPublicKey := authority keys !! id.

Definition insert_key (id : E3id) (key : CanonicalPublicKey) (keys : CanonicalKeyState) : result CanonicalKeyState KeyError :=
  match authority keys !! id with
  | Some existing => if bool_decide (existing = key) then Ok keys else Err KeyContextChanged
  | None => Ok (mkCanonical (<[id := key]> (authority keys)) (key_bytes keys) (ciphertext_hashes keys))
  end.

Definition remove_key (id : E3id) (keys : CanonicalKeyState) : CanonicalKeyState :=
  mkCanonical (delete id (authority keys)) (delete id (key_bytes keys)) (delete id (ciphertext_hashes keys)).

Definition remember_ciphertexts (id : E3id) (ciphertexts : list Bytes) (keys : CanonicalKeyState)
    : result CanonicalKeyState KeyError :=
  let hashes := keccak256 <$> ciphertexts in
  match ciphertext_hashes keys !! id with
  | Some existing => if bool_decide (existing = hashes) then Ok keys else Err CiphertextChanged
  | None => Ok (mkCanonical (authority keys) (key_bytes keys) (<[id := hashes]> (ciphertext_hashes keys)))
  end.

Definition decryption_domains (id : E3id) (keys : CanonicalKeyState) : option (list Limbs) :=
  match authority keys !! id, ciphertext_hashes keys !! id, u256_from_decimal (e3_num id) with
  | Some key, Some hashes, Some e3 =>
      Some (map (decryption_domain_limbs (chain_id id) e3 (key_domain key (ck_interfold_address key))) hashes)
  | _, _, _ => None
  end.

Definition forget_bytes (id : E3id) (keys : CanonicalKeyState) : CanonicalKeyState :=
  mkCanonical (authority keys) (delete id (key_bytes keys)) (ciphertext_hashes keys).

Definition public_key (keys : CanonicalKeyState) (id : E3id) : option Bytes := key_bytes keys !! id.

Definition remember_key (id : E3id) (bytes : Bytes) (keys : CanonicalKeyState) : result CanonicalKeyState KeyError :=
  match get_key keys id with
  | None => Err KeyContextUnavailable
  | Some key =>
      if validate_key key bytes
      then Ok (mkCanonical (authority keys) (or_insert id bytes (key_bytes keys)) (ciphertext_hashes keys))
      else Err WrongKeyBytes
  end.

(** Only the public inputs are rebuilt. *)
Definition repair_request (keys : CanonicalKeyState) (id : E3id) (request : ThresholdShareDecryptionProofRequest)
    : result ThresholdShareDecryptionProofRequest KeyError :=
  match get_key keys id with
  | None => Err KeyContextUnavailable
  | Some key =>
      let bytes := default (c6_aggregated_pk_bytes request) (public_key keys id) in
      if validate_key key bytes
      then Ok (mkC6Request (c6_ciphertext_bytes request) bytes (c6_sk_poly_sum request) (c6_es_poly_sum request)
                 (c6_d_share_bytes request) (key_domain key (ck_interfold_address key)) (ck_params_preset key)
                 (ck_committee_size key))
      else Err WrongKeyBytes
  end.

Definition accepts_request (keys : CanonicalKeyState) (id : E3id) (request : ThresholdShareDecryptionProofRequest) : bool :=
  match get_key keys id with
  | None => false
  | Some key =>
      bool_decide (c6_decryption_domain request = key_domain key (ck_interfold_address key)) &&
      bool_decide (c6_params_preset request = ck_params_preset key) &&
      bool_decide (c6_committee_size request = ck_committee_size key) &&
      validate_key key (c6_aggregated_pk_bytes request)
  end.
End Keys.

(** ** What the shared keys promise *)

Inductive KeyOp :=
| InsertKey (id : E3id) (key : CanonicalPublicKey)
| RememberCiphertexts (id : E3id) (ciphertexts : list Bytes)
| RememberKey (id : E3id) (bytes : Bytes)
| ForgetBytes (id : E3id)
| RemoveKey (id : E3id).

Section Promises.
Context `{AlloyOps} `{KeyCheck}.

(** A refused operation changes nothing. *)
Definition key_step (keys : CanonicalKeyState) (op : KeyOp) : CanonicalKeyState :=
  let keep r := match r with Ok keys' => keys' | Err _ => keys end in
  match op with
  | InsertKey id key => keep (insert_key id key keys)
  | RememberCiphertexts id cts => keep (remember_ciphertexts id cts keys)
  | RememberKey id bytes => keep (remember_key id bytes keys)
  | ForgetBytes id => forget_bytes id keys
  | RemoveKey id => remove_key id keys
  end.

Definition run_keys (ops : list KeyOp) : CanonicalKeyState := foldl key_step (mkCanonical ∅ ∅ ∅) ops.

(** Bytes are held only for a confirmed key that they match. *)
Definition bytes_match (keys : CanonicalKeyState) : Prop :=
  ∀ id bytes, key_bytes keys !! id = Some bytes → ∃ key, authority keys !! id = Some key ∧ validate_key key bytes = true.

Lemma key_step_match keys op : bytes_match keys → bytes_match (key_step keys op).
Proof.
  intros Hm id bytes. destruct op as [i key|i cts|i b|i|i]; cbn.
  - unfold insert_key. destruct (authority keys !! i) as [existing|] eqn:Ei.
    + case_bool_decide; apply Hm.
    + cbn. intros Hb. destruct (Hm id bytes Hb) as (k & Hk & Hv). exists k. split; [|done].
      rewrite lookup_insert_ne; [done|]. intros ->. congruence.
  - unfold remember_ciphertexts. destruct (ciphertext_hashes keys !! i); [case_bool_decide|]; apply Hm.
  - unfold remember_key, get_key. destruct (authority keys !! i) as [key|] eqn:Ei; [|apply Hm].
    destruct (validate_key key b) eqn:Ev; [|apply Hm]. cbn. unfold or_insert.
    destruct (key_bytes keys !! i) eqn:Eb; [apply Hm|].
    destruct (decide (i = id)) as [->|Hne]; [|rewrite lookup_insert_ne by done; apply Hm].
    rewrite lookup_insert_eq. intros [= <-]. by exists key.
  - destruct (decide (i = id)) as [->|Hne]; [by rewrite lookup_delete_eq|]. rewrite lookup_delete_ne by done. apply Hm.
  - destruct (decide (i = id)) as [->|Hne]; [by rewrite lookup_delete_eq|]. rewrite !lookup_delete_ne by done. apply Hm.
Qed.

Lemma key_step_stable keys op id key :
  op ≠ RemoveKey id → authority keys !! id = Some key → authority (key_step keys op) !! id = Some key.
Proof.
  intros Hop Hk. destruct op as [i key'|i cts|i b|i|i]; cbn.
  - unfold insert_key. destruct (authority keys !! i) eqn:Ei; [by case_bool_decide|]. cbn.
    rewrite lookup_insert_ne; [done|]. intros ->. congruence.
  - unfold remember_ciphertexts. destruct (ciphertext_hashes keys !! i); [by case_bool_decide|done].
  - unfold remember_key. destruct (get_key keys i) as [key'|]; [|done]. by destruct (validate_key key' b).
  - done.
  - rewrite lookup_delete_ne; [done|]. intros ->. by apply Hop.
Qed.

(** Whatever the order of the operations, the bytes that are held match the confirmed key, the key
    of an E3 does not change before it is removed, and a request that is repaired is one that the
    keys accept, with its secrets, ciphertexts and shares as they were. *)
Theorem canonical_keys_hold ops ops' id key request request' :
  bytes_match (run_keys ops) ∧
  (authority (run_keys ops) !! id = Some key → RemoveKey id ∉ ops' → authority (run_keys (ops ++ ops')) !! id = Some key) ∧
  (repair_request (run_keys ops) id request = Ok request' →
   accepts_request (run_keys ops) id request' = true ∧
   c6_ciphertext_bytes request' = c6_ciphertext_bytes request ∧ c6_sk_poly_sum request' = c6_sk_poly_sum request ∧
   c6_es_poly_sum request' = c6_es_poly_sum request ∧ c6_d_share_bytes request' = c6_d_share_bytes request).
Proof.
  split_and!.
  - unfold run_keys. induction ops as [|op ops IH] using rev_ind; [by intros ???|]. rewrite foldl_app. by apply key_step_match.
  - unfold run_keys. rewrite foldl_app. generalize (foldl key_step (mkCanonical ∅ ∅ ∅) ops).
    induction ops' as [|op ops' IH]; intros keys Hk Hin; [done|]. cbn. apply not_elem_of_cons in Hin as [Hop Hin].
    apply IH; [|done]. apply key_step_stable; [|done]. intros ->. done.
  - unfold repair_request, accepts_request. destruct (get_key _ id) as [k|]; [|done].
    destruct (validate_key k _) eqn:Ev; [|done]. intros [= <-]. cbn. rewrite Ev, !bool_decide_true by done. done.
Qed.
End Promises.
