(* ===== verification/Keyshare.v ===== *)
(** * Threshold keyshare: state

    Model of crates/orchestration/keyshare/src/state.rs (the phases of a keyshare and the only
    transitions between them), recovery_state.rs (what survives a restart) and
    derive_decryption_key.rs (the plan of the decryption-key calculation).  Secrets at rest
    ([SensitiveBytes], [Encrypted]) are byte strings; what the cipher and the BFV library compute
    is the class [KeyshareOps]. *)

From S2P Require Import Prelude Events NodeRegistry Actor Orchestration CanonicalKeys KeyshareEvents.
Local Open Scope nat_scope.

Global Instance E3Stage_eq_dec : EqDecision E3Stage.
Proof. solve_decision. Defined.

Global Instance FailureReason_eq_dec : EqDecision FailureReason.
Proof. solve_decision. Defined.

Global Instance CiphernodeSelected_eq_dec : EqDecision CiphernodeSelected.
Proof. solve_decision. Defined.

(** ** Phases *)

Record CollectingEncryptionKeysData := mkCollectingKeys
  { ck_sk_bfv : Bytes; ck_pk_bfv : Bytes; ck_selected : CiphernodeSelected }.

Record ProofRequestData := mkProofRequestData { pk0_share_raw : Bytes; sk_raw : Bytes; eek_raw : Bytes }.

Record GeneratingThresholdShareData := mkGenerating {
  gn_pk_share : option Bytes; gn_sk_sss : option Bytes; gn_esi_sss : option (list Bytes); e_sm_raw : option Bytes;
  gn_sk_bfv : Bytes; gn_pk_bfv : Bytes; collected_encryption_keys : list EncryptionKey;
  gn_selected : option CiphernodeSelected; proof_request_data : option ProofRequestData }.

(** The signed proofs that a keyshare keeps from phase to phase. *)
Record KeptProofs := mkKept {
  signed_pk_generation_proof : option SignedProofPayload;
  signed_sk_share_computation_proof : option SignedProofPayload;
  signed_e_sm_share_computation_proof : option SignedProofPayload;
  signed_sk_share_encryption_proofs : list SignedProofPayload;
  signed_e_sm_share_encryption_proofs : list SignedProofPayload }.

Record AggregatingDecryptionKey := mkAggregating {
  ag_pk_share : Bytes; ag_sk_bfv : Bytes; own_sk_share_raw : Bytes; own_esi_shares_raw : list Bytes;
  ag_proofs : KeptProofs }.

Record ReadyForDecryption := mkReady {
  rd_pk_share : Bytes; rd_sk_poly_sum : Bytes; rd_es_poly_sum : list Bytes; rd_proofs : KeptProofs }.

Record Decrypting := mkDecrypting {
  dc_pk_share : Bytes; dc_sk_poly_sum : Bytes; dc_es_poly_sum : list Bytes; dc_ciphertext_output : list Bytes;
  dc_proofs : KeptProofs }.

Record GeneratingDecryptionProof := mkGeneratingProof
  { gp_pk_share : Bytes; gp_decryption_share : list Bytes; gp_proofs : KeptProofs }.

Inductive KeyshareState :=
| KInit
| KCollectingEncryptionKeys (d : CollectingEncryptionKeysData)
| KGeneratingThresholdShare (d : GeneratingThresholdShareData)
| KAggregatingDecryptionKey (d : AggregatingDecryptionKey)
| KReadyForDecryption (d : ReadyForDecryption)
| KDecrypting (d : Decrypting)
| KGeneratingDecryptionProof (d : GeneratingDecryptionProof)
| KCompleted
| KFailed (failed_at_stage : E3Stage) (reason : FailureReason).

Global Instance KeyshareState_eq_dec : EqDecision KeyshareState.
Proof.
  assert (EqDecision KeptProofs) by solve_decision.
  assert (EqDecision CollectingEncryptionKeysData) by solve_decision.
  assert (EqDecision ProofRequestData) by solve_decision.
  assert (EqDecision GeneratingThresholdShareData) by solve_decision.
  assert (EqDecision AggregatingDecryptionKey) by solve_decision.
  assert (EqDecision ReadyForDecryption) by solve_decision.
  assert (EqDecision Decrypting) by solve_decision.
  assert (EqDecision GeneratingDecryptionProof) by solve_decision.
  solve_decision.
Defined.

Definition share_collection_is_open (s : KeyshareState) : bool :=
  match s with
  | KInit | KCollectingEncryptionKeys _ | KGeneratingThresholdShare _ | KAggregatingDecryptionKey _ => true
  | _ => false
  end.

(** [mem::discriminant] *)
Definition discriminant (s : KeyshareState) : nat :=
  match s with
  | KInit => 0 | KCollectingEncryptionKeys _ => 1 | KGeneratingThresholdShare _ => 2
  | KAggregatingDecryptionKey _ => 3 | KReadyForDecryption _ => 4 | KDecrypting _ => 5
  | KGeneratingDecryptionProof _ => 6 | KCompleted => 7 | KFailed _ _ => 8
  end.

Inductive KsError :=
| KsPersist (e : PersistError)
| KsPublish
| KsMailbox
| KsPayloadWrite
| BadStateTransition (from to : nat)
| InvalidState
| UnsupportedCommittee
| NoFinalizedCommittee
| OutsideCommittee
| BadAddress
| SignerMismatch
| SigningFailed
| MissingShare
| MissingProofPair
| DealerIdentity
| DuplicateDealer
| RoleMismatch
| ConflictingShare
| NoBatch
| NoRoster
| NoVerifiedDealers
| NoOwnC0
| NoPkCommitment
| OwnShareUnreadable
| NoSharesToAggregate
| RosterMismatch
| CryptoFailed
| NoThresholdPreset
| NoPendingC4
| NoHonestParties
| NoKeyContext
| TimingFault
| WrongSchema.

(** [KeyshareState::next] *)
Definition next_valid (self new_state : KeyshareState) : bool :=
  match self with
  | KFailed _ _ => bool_decide (self = new_state)
  | _ =>
      if discriminant self =? discriminant new_state then true
      else
        match self, new_state with
        | KCompleted, KFailed _ _ => false
        | _, KFailed _ _ => true
        | KInit, KCollectingEncryptionKeys _
        | KCollectingEncryptionKeys _, KGeneratingThresholdShare _
        | KGeneratingThresholdShare _, KAggregatingDecryptionKey _
        | KAggregatingDecryptionKey _, KReadyForDecryption _
        | KReadyForDecryption _, KDecrypting _
        | KDecrypting _, KGeneratingDecryptionProof _
        | KGeneratingDecryptionProof _, KCompleted => true
        | _, _ => false
        end
  end.

Definition next (self new_state : KeyshareState) : result KeyshareState KsError :=
  if next_valid self new_state then Ok new_state
  else Err (BadStateTransition (discriminant self) (discriminant new_state)).

Record ThresholdKeyshareState := mkKeyshare {
  ks_e3_id : E3id; ks_address : string; ks_party_id : PartyId; ks_state : KeyshareState;
  threshold_m : nat; threshold_n : nat; ks_params : Bytes;
  aggregated_pk : option Bytes; ks_domain : option DecryptionDomainContext;
  expelled_parties : gset PartyId; honest_parties : option (gset PartyId);
  dkg_deadline : option Z; dkg_window : option Z;
  keyshare_published : bool; dkg_roster_fixed : bool }.

Definition new_keyshare (e3 : E3id) (party : PartyId) (s : KeyshareState) (m n : nat) (params : Bytes) (address : string)
    : ThresholdKeyshareState :=
  mkKeyshare e3 address party s m n params None None ∅ None None None false false.

Definition with_state (s : KeyshareState) (k : ThresholdKeyshareState) : ThresholdKeyshareState :=
  mkKeyshare (ks_e3_id k) (ks_address k) (ks_party_id k) s (threshold_m k) (threshold_n k) (ks_params k)
    (aggregated_pk k) (ks_domain k) (expelled_parties k) (honest_parties k) (dkg_deadline k) (dkg_window k)
    (keyshare_published k) (dkg_roster_fixed k).

Definition new_state (k : ThresholdKeyshareState) (s : KeyshareState) : result ThresholdKeyshareState KsError :=
  let? s := next (ks_state k) s in Ok (with_state s k).

Definition with_honest (h : option (gset PartyId)) (k : ThresholdKeyshareState) : ThresholdKeyshareState :=
  mkKeyshare (ks_e3_id k) (ks_address k) (ks_party_id k) (ks_state k) (threshold_m k) (threshold_n k) (ks_params k)
    (aggregated_pk k) (ks_domain k) (expelled_parties k) h (dkg_deadline k) (dkg_window k)
    (keyshare_published k) (dkg_roster_fixed k).

Definition with_fixed (h : gset PartyId) (k : ThresholdKeyshareState) : ThresholdKeyshareState :=
  mkKeyshare (ks_e3_id k) (ks_address k) (ks_party_id k) (ks_state k) (threshold_m k) (threshold_n k) (ks_params k)
    (aggregated_pk k) (ks_domain k) (expelled_parties k) (Some h) (dkg_deadline k) (dkg_window k)
    (keyshare_published k) true.

Definition with_published (k : ThresholdKeyshareState) : ThresholdKeyshareState :=
  mkKeyshare (ks_e3_id k) (ks_address k) (ks_party_id k) (ks_state k) (threshold_m k) (threshold_n k) (ks_params k)
    (aggregated_pk k) (ks_domain k) (expelled_parties k) (honest_parties k) (dkg_deadline k) (dkg_window k)
    true (dkg_roster_fixed k).

(** An expulsion also leaves the honest parties. *)
Definition with_expelled (p : PartyId) (k : ThresholdKeyshareState) : ThresholdKeyshareState :=
  mkKeyshare (ks_e3_id k) (ks_address k) (ks_party_id k) (ks_state k) (threshold_m k) (threshold_n k) (ks_params k)
    (aggregated_pk k) (ks_domain k) ({[p]} ∪ expelled_parties k) ((λ h, h ∖ {[p]}) <$> honest_parties k)
    (dkg_deadline k) (dkg_window k) (keyshare_published k) (dkg_roster_fixed k).

Definition ks_committee_size (k : ThresholdKeyshareState) : result CiphernodesCommitteeSize KsError :=
  match from_threshold (threshold_m k) (threshold_n k) with Some s => Ok s | None => Err UnsupportedCommittee end.

Definition committee_h (k : ThresholdKeyshareState) : result nat KsError :=
  let? s := ks_committee_size k in Ok (cc_h (values s)).

(** [TryInto<AggregatingDecryptionKey>] and [TryInto<ReadyForDecryption>] *)
Definition as_aggregating (k : ThresholdKeyshareState) : result AggregatingDecryptionKey KsError :=
  match ks_state k with KAggregatingDecryptionKey d => Ok d | _ => Err InvalidState end.

Definition as_ready (k : ThresholdKeyshareState) : result ReadyForDecryption KsError :=
  match ks_state k with KReadyForDecryption d => Ok d | _ => Err InvalidState end.

(** ** Recovery record *)

Definition THRESHOLD_KEYSHARE_RECOVERY_SCHEMA_VERSION : nat := 8.

Record RecoveryPayloadRef := mkPayloadRef { encoded_len : nat; payload_digest : B256 }.

Inductive DkgInputType := SecretKey_ | SmudgingNoise.

Record DkgShareDecryptionProofRequest := mkC4Request {
  c4_sk_bfv : Bytes; honest_ciphertexts_raw : list Bytes; num_honest_parties : nat; c4_num_moduli : nat;
  own_plaintext_idx : option nat; own_share_raw : option Bytes; dkg_input_type : DkgInputType;
  c4_preset : BfvPreset; c4_committee_size : CiphernodesCommitteeSize }.

Record DecryptionShareProofsPending := mkC4Pending {
  cp_e3_id : E3id; cp_party_id : PartyId; cp_node : string;
  cp_sk_request : DkgShareDecryptionProofRequest; cp_esm_requests : list DkgShareDecryptionProofRequest }.

Record ShareDecryptionProofPending := mkC6Pending {
  sdp_e3_id : E3id; sdp_party_id : PartyId; sdp_node : string; sdp_decryption_share : list Bytes;
  sdp_proof_request : ThresholdShareDecryptionProofRequest; sdp_redelivery : Z }.

Record RecoveryState := mkRecoveryState {
  rs_schema_version : nat;
  rs_selected : option CiphernodeSelected;
  encryption_keys : gmap PartyId EncryptionKeyCreated;
  threshold_share_refs : gmap PartyId RecoveryPayloadRef;
  collected_ids : option (gset PartyId);
  decryption_key_shares : gmap PartyId DecryptionKeyShared;
  c4_proofs_pending : option (DecryptionShareProofsPending * EventContext);
  share_verification_complete : option (ShareVerificationComplete * EventContext);
  verified_dealer_ids : option (gset PartyId);
  share_dispatch_ids : list B256;
  decryption_verification_complete : option (ShareVerificationComplete * EventContext);
  dkg_ready : option DkgCoordination;
  ready_by_party : gmap PartyId DkgCoordination;
  held_ready_updates : gmap PartyId (list DkgCoordination);
  pending_rosters : gmap PartyId DkgCoordination;
  dkg_roster : option DkgCoordination;
  rs_active_aggregator : option PartyId;
  rs_is_aggregator : bool;
  keyshare_publish_authorized : bool;
  share_decryption_proof_pending : option (ShareDecryptionProofPending * EventContext);
  rs_last_ec : option EventContext }.

(** [Default] with the selection and its context, as the extension creates it. *)
Definition new_recovery (selected : CiphernodeSelected) (ec : EventContext) : RecoveryState :=
  mkRecoveryState THRESHOLD_KEYSHARE_RECOVERY_SCHEMA_VERSION (Some selected) ∅ ∅ None ∅ None None None [] None
    None ∅ ∅ ∅ None None false false None (Some ec).

(** ** The plan of the decryption-key calculation *)

(** Shamir rows in the clear: one row per modulus. *)
Abbreviation Rows := (list (list Z)).

Class KeyshareOps := {
  (** the degree of the polynomials of a preset *)
  preset_degree : BfvPreset → nat;
  (** [access_raw] and [bincode::deserialize] of a cached own share *)
  read_own_share : Bytes → option Rows;
  (** [access] and [deserialize_secret_key] *)
  read_secret_key : BfvPreset → Bytes → option Bytes;
  (** [BfvEncryptedShare::decrypt] *)
  decrypt_share : BfvPreset → Bytes → BfvEncryptedShare → option Rows;
  (** [EncryptableVec::encrypt] of one collected share *)
  encrypt_rows : Rows → option Bytes }.

Record CalculateDecryptionKeyRequest := mkCalcRequest {
  calc_params : Bytes; calc_num_parties : nat; calc_threshold : nat;
  sk_sss_collected : list Bytes; esi_sss_collected : list (list Bytes) }.

Inductive DecryptionKeyPlan :=
| Insufficient
| Proceed (calc_request : CalculateDecryptionKeyRequest) (sk_request : DkgShareDecryptionProofRequest)
    (esm_requests : list DkgShareDecryptionProofRequest) (honest_party_ids : gset PartyId).

Definition threshold_counterpart (p : BfvPreset) : option BfvPreset :=
  match p with
  | InsecureDkg64 => Some InsecureThreshold64
  | SecureDkg8192 => Some SecureThreshold8192
  | _ => None
  end.

(** [if shares.len() == 1 { 0 } else { party_id }] *)
Definition slot_of (shares : BfvEncryptedShares) (party_id : PartyId) : nat :=
  if length shares =? 1 then 0 else party_id.

(** The share of this party in a dealer's collection. *)
Definition own_slot (shares : BfvEncryptedShares) (party_id : PartyId) : option BfvEncryptedShare :=
  clone_share shares (slot_of shares party_id).

Definition slot_has_moduli (party_id : PartyId) (expected : nat) (shares : BfvEncryptedShares) : bool :=
  match own_slot shares party_id with Some share => num_moduli share =? expected | None => false end.

(** A dealer's share has the dimensions of this party's own shares. *)
Definition dimensions_match (party_id : PartyId) (num_esi moduli_sk moduli_esi : nat) (ts : ThresholdShare) : bool :=
  (length (esi_sss ts) =? num_esi) && slot_has_moduli party_id moduli_sk (sk_sss ts) &&
  forallb (slot_has_moduli party_id moduli_esi) (esi_sss ts).

Definition share_id_le (a b : ThresholdShare) : Prop := ts_party_id a <= ts_party_id b.

Global Instance share_id_le_dec a b : Decision (share_id_le a b).
Proof. unfold share_id_le. apply _. Defined.

Definition vec_of_rows_to_shamir_share (rows : Rows) (degree : nat) : option Rows :=
  if existsb (λ r, negb (length r =? degree)) rows then None else Some rows.

(** [v.insert(i, x)] *)
Definition insert_at {A} (i : nat) (x : A) (l : list A) : list A := take i l ++ x :: drop i l.

(** [Ok] when the option holds a value. *)
Definition or_err {A} (o : option A) (e : KsError) : result A KsError :=
  match o with Some x => Ok x | None => Err e end.

Section Plan.
Context `{KeyshareOps}.

(** The external shares of one collection, and this party's own share at its place. *)
Definition collect_rows (preset : BfvPreset) (sk : Bytes) (party_id : PartyId) (collections : list BfvEncryptedShares)
    (own : option (nat * Rows)) : result (list Rows) KsError :=
  let? external := or_err (mapM (λ c, share ← own_slot c party_id; decrypt_share preset sk share) collections) CryptoFailed in
  match own with
  | None => Ok external
  | Some (idx, rows) =>
      let? rows := or_err (vec_of_rows_to_shamir_share rows (preset_degree preset)) CryptoFailed in
      Ok (insert_at idx rows external)
  end.

(** The ciphertexts of this party's slots, dealer after dealer. *)
Definition ciphertexts_of (party_id : PartyId) (collections : list BfvEncryptedShares) : list Bytes :=
  flat_map (λ c, default [] (own_slot c party_id)) collections.

Definition c4_request (preset : BfvPreset) (size : CiphernodesCommitteeSize) (sk : Bytes) (cts : list Bytes)
    (num_honest moduli : nat) (idx : option nat) (own : Bytes) (ty : DkgInputType) : DkgShareDecryptionProofRequest :=
  mkC4Request sk cts num_honest moduli idx ((λ _, own) <$> idx) ty preset size.

(** The [esi] collections of the dealers, one list per smudging noise. *)
Definition esi_collections (dealers : list ThresholdShare) (esi_idx : nat) : list BfvEncryptedShares :=
  (λ ts, default [] (esi_sss ts !! esi_idx)) <$> dealers.

Definition own_at (idx : option nat) (rows : Rows) : option (nat * Rows) := (λ i, (i, rows)) <$> idx.

(** Decryption of the collected shares and the two requests, for the selected dealers. *)
Definition assemble_plan (preset : BfvPreset) (own_party_id : PartyId) (csize : CiphernodesCommitteeSize)
    (params : Bytes) (m n : nat) (current : AggregatingDecryptionKey) (sk : Bytes) (own_sk : Rows) (own_esi : list Rows)
    (external : list ThresholdShare) (selected : gset PartyId) : result DecryptionKeyPlan KsError :=
  let idx := position (λ p, p =? own_party_id) (btree_set selected) in
  let moduli_esi := match own_esi with rows :: _ => length rows | [] => 0 end in
  let? sks := collect_rows preset sk own_party_id (sk_sss <$> external) (own_at idx own_sk) in
  let? esis := or_err (mapM (λ '(i, rows), match collect_rows preset sk own_party_id (esi_collections external i)
                                                  (own_at idx rows) with Ok l => Some l | Err _ => None end)
                 (imap pair own_esi)) CryptoFailed in
  let? esi_enc := or_err (mapM (mapM encrypt_rows) esis) CryptoFailed in
  let? sk_enc := or_err (mapM encrypt_rows sks) CryptoFailed in
  let? threshold_preset := or_err (threshold_counterpart preset) NoThresholdPreset in
  let request cts moduli own ty :=
    c4_request threshold_preset csize (ag_sk_bfv current) cts (base.size selected) moduli idx own ty in
  Ok (Proceed (mkCalcRequest params n m sk_enc esi_enc)
        (request (ciphertexts_of own_party_id (sk_sss <$> external)) (length own_sk) (own_sk_share_raw current) SecretKey_)
        (imap (λ i own, request (ciphertexts_of own_party_id (esi_collections external i)) moduli_esi own SmudgingNoise)
           (own_esi_shares_raw current))
        selected).

Definition build_decryption_key_plan (preset : BfvPreset) (own_party_id : PartyId) (csize : CiphernodesCommitteeSize)
    (params : Bytes) (m n : nat) (current : AggregatingDecryptionKey) (shares : list ThresholdShare)
    (dishonest : option (gset PartyId)) (selected : gset PartyId) : result DecryptionKeyPlan KsError :=
  let committee := values csize in
  match shares with
  | [] => Err NoSharesToAggregate
  | _ =>
      let? sk := or_err (read_secret_key preset (ag_sk_bfv current)) OwnShareUnreadable in
      let? own_sk := or_err (read_own_share (own_sk_share_raw current)) OwnShareUnreadable in
      let? own_esi := or_err (mapM read_own_share (own_esi_shares_raw current)) OwnShareUnreadable in
      let moduli_esi := match own_esi with rows :: _ => length rows | [] => 0 end in
      let honest := List.filter (λ ts, match dishonest with
        | Some d => negb (bool_decide (ts_party_id ts ∈ d)) | None => true end) shares in
      let kept := merge_sort share_id_le
        (List.filter (dimensions_match own_party_id (length own_esi) (length own_sk) moduli_esi) honest) in
      if negb (length kept =? length honest) && (length kept <? cc_threshold committee) then Ok Insufficient
      else if negb (base.size selected =? cc_h committee) ||
              existsb (λ p, cc_n committee <=? p) (btree_set selected) then Err RosterMismatch
      else
        let external := List.filter (λ ts, bool_decide (ts_party_id ts ∈ selected)) kept in
        let expected := cc_h committee - (if bool_decide (own_party_id ∈ selected) then 1 else 0) in
        if negb (length external =? expected) then Ok Insufficient
        else assemble_plan preset own_party_id csize params m n current sk own_sk own_esi external selected
  end.
End Plan.
