(* ===== verification/KeysharePlan.v ===== *)
(** * Threshold keyshare: the plan of the decryption-key calculation

    [build_decryption_key_plan] of derive_decryption_key.rs (Keyshare.v) against its
    specification: the shares that are combined are, in the order of the party ids, one for each
    dealer of the accepted roster, and the C4 requests prove the decryption of the same shares. *)

From S2P Require Import Prelude Events NodeRegistry Actor Orchestration KeyshareEvents DkgRoster Keyshare.
Local Open Scope nat_scope.

(** ** Lists of party ids *)

Lemma sorted_equal (l k : list nat) :
  StronglySorted lt l → StronglySorted lt k → (∀ x, x ∈ l → x ∈ k) → length l = length k → l = k.
Proof.
  intros Hl Hk Hin Hlen. assert (l `sublist_of` k) as Hs by by apply sorted_sublist.
  clear Hl Hk Hin. induction Hs as [|x l k Hs IH|x l k Hs IH]; [done| |].
  - f_equal. apply IH. cbn in Hlen. lia.
  - apply sublist_length in Hs. cbn in Hlen. lia.
Qed.

Global Instance share_id_le_trans : Transitive share_id_le.
Proof. unfold share_id_le. intros ???. lia. Qed.

Global Instance share_id_le_total : Total share_id_le.
Proof. unfold share_id_le. intros ??. lia. Qed.

Lemma sorted_ids (l : list ThresholdShare) :
  StronglySorted share_id_le l → NoDup (ts_party_id <$> l) → StronglySorted lt (ts_party_id <$> l).
Proof.
  induction 1 as [|x l _ IH Hall]; csimpl; [constructor|]. intros [Hx Hnd]%NoDup_cons.
  constructor; [by apply IH|]. apply Forall_fmap, Forall_forall. intros y Hy. cbn.
  rewrite Forall_forall in Hall. specialize (Hall y Hy). unfold share_id_le in Hall.
  assert (ts_party_id y ≠ ts_party_id x); [|lia].
  intros Heq. apply Hx. rewrite <- Heq. by apply list_elem_of_fmap_2.
Qed.

Lemma fmap_sublist_of {A B} (f : A → B) l k : l `sublist_of` k → f <$> l `sublist_of` f <$> k.
Proof. induction 1; csimpl; by constructor. Qed.

Definition others (own : PartyId) (l : list PartyId) : list PartyId := List.filter (λ p, negb (p =? own)) l.

Lemma others_absent own l : own ∉ l → others own l = l.
Proof.
  unfold others. induction l as [|x l IH]; cbn; [done|]. intros [? ?]%not_elem_of_cons.
  rewrite (proj2 (Nat.eqb_neq _ _)) by done. cbn. by rewrite IH.
Qed.

Lemma others_split own l i :
  NoDup l → position (λ p, p =? own) l = Some i → l = insert_at i own (others own l) ∧ i ≤ length (others own l).
Proof.
  revert i. induction l as [|x l IH]; intros i Hnd Hpos; cbn in *; [done|]. apply NoDup_cons in Hnd as [Hx Hnd].
  destruct (x =? own) eqn:Hown; cbn.
  - injection Hpos as <-. apply Nat.eqb_eq in Hown as ->. fold (others own l). rewrite others_absent by done. by split; [|lia].
  - destruct (position _ l) as [j|] eqn:Hj; [|done]. injection Hpos as <-.
    destruct (IH j Hnd eq_refl) as [Hl ?]. unfold insert_at, others in *. cbn. split; [by f_equal|lia].
Qed.

Lemma position_none own l : position (λ p, p =? own) l = None → own ∉ l.
Proof.
  intros Hpos Hin. destruct (proj2 (position_is_Some (λ p, p =? own) l)) as [i Hi]; [|congruence].
  exists own. split; [done|apply Nat.eqb_refl].
Qed.

Lemma mapM_insert_at {A B} (f : A → option B) l k i x y :
  i ≤ length l → mapM f l = Some k → f x = Some y → mapM f (insert_at i x l) = Some (insert_at i y k).
Proof.
  intros Hi Hl Hx. apply mapM_Some in Hl. apply mapM_Some. unfold insert_at.
  apply Forall2_app; [by apply Forall2_take|]. constructor; [done|by apply Forall2_drop].
Qed.

(** ** The specification *)

Section PlanSpec.
Context `{KeyshareOps}.
Variables (preset : BfvPreset) (own : PartyId) (shares : list ThresholdShare).

Definition share_of (p : PartyId) : option ThresholdShare := List.find (λ ts, ts_party_id ts =? p) shares.

(** What dealer [p] contributes to one secret: this party's own rows, or the decryption of the
    slot that the dealer encrypted to this party. *)
Definition dealer_rows (sk : Bytes) (own_rows : Rows) (secret : ThresholdShare → BfvEncryptedShares) (p : PartyId)
    : option Rows :=
  if p =? own then Some own_rows
  else ts ← share_of p; slot ← own_slot (secret ts) own; decrypt_share preset sk slot.

(** The encrypted rows of the dealers, in their order. *)
Definition dealt (sk : Bytes) (own_rows : Rows) (secret : ThresholdShare → BfvEncryptedShares) (roster : list PartyId)
    : option (list Bytes) :=
  mapM (λ p, rows ← dealer_rows sk own_rows secret p; encrypt_rows rows) roster.

(** The ciphertexts of those slots. *)
Definition dealt_ciphertexts (secret : ThresholdShare → BfvEncryptedShares) (roster : list PartyId) : list Bytes :=
  flat_map (λ p, match share_of p with Some ts => default [] (own_slot (secret ts) own) | None => [] end) (others own roster).

Definition nth_esi (j : nat) (ts : ThresholdShare) : BfvEncryptedShares := default [] (esi_sss ts !! j).

Hypothesis Hshares : NoDup (ts_party_id <$> shares).

Lemma share_of_elem ts : ts ∈ shares → share_of (ts_party_id ts) = Some ts.
Proof.
  unfold share_of. revert Hshares. induction shares as [|x l IH]; csimpl; [by intros _ ?%elem_of_nil|].
  intros [Hx Hnd]%NoDup_cons [->|Hin]%elem_of_cons; [by rewrite Nat.eqb_refl|].
  rewrite (proj2 (Nat.eqb_neq _ _)); [by apply IH|]. intros Heq. apply Hx. rewrite Heq. by apply list_elem_of_fmap_2.
Qed.

(** Decrypting the shares of the other dealers and inserting the own rows gives the dealers' rows in order. *)
Lemma rows_dealt sk own_rows secret external roster rows :
  (∀ ts, ts ∈ external → ts ∈ shares ∧ ts_party_id ts ≠ own) →
  NoDup roster → ts_party_id <$> external = others own roster →
  collect_rows preset sk own (secret <$> external) (own_at (position (λ p, p =? own) roster) own_rows) = Ok rows →
  mapM (dealer_rows sk own_rows secret) roster = Some rows.
Proof.
  intros Hin Hnd Hids. unfold collect_rows, or_err, own_at.
  destruct (mapM _ (secret <$> external)) as [ext|] eqn:Hext; [|done]. cbn.
  assert (mapM (dealer_rows sk own_rows secret) (others own roster) = Some ext) as Hothers.
  { rewrite <- Hids. apply mapM_Some, Forall2_fmap_l. apply mapM_Some, Forall2_fmap_l in Hext.
    apply Forall2_same_length_lookup in Hext as [Hlen Hext]. apply Forall2_same_length_lookup. split; [done|].
    intros i ts r Hts Hr. specialize (Hext i ts r Hts Hr). cbn in Hext. cbn [compose]. unfold dealer_rows.
    destruct (Hin ts) as [Hts' Hne]; [by eapply list_elem_of_lookup_2|].
    rewrite (proj2 (Nat.eqb_neq _ _)) by done. by rewrite share_of_elem. }
  destruct (position _ roster) as [i|] eqn:Hpos; cbn.
  - destruct (vec_of_rows_to_shamir_share own_rows _) as [r|] eqn:Hown; [|done]. cbn. intros [= <-].
    assert (r = own_rows) as ->.
    { unfold vec_of_rows_to_shamir_share in Hown. destruct (existsb _ _); [done|congruence]. }
    destruct (others_split own roster i Hnd Hpos) as [Hr Hi]. rewrite Hr.
    apply mapM_insert_at; [done|done|]. unfold dealer_rows. by rewrite Nat.eqb_refl.
  - intros [= <-]. by rewrite others_absent in Hothers by (by apply position_none).
Qed.

Lemma ciphertexts_dealt secret external roster :
  (∀ ts, ts ∈ external → ts ∈ shares) → ts_party_id <$> external = others own roster →
  ciphertexts_of own (secret <$> external) = dealt_ciphertexts secret roster.
Proof.
  intros Hin Hids. unfold ciphertexts_of, dealt_ciphertexts. rewrite <- Hids. clear Hids.
  induction external as [|ts l IH]; csimpl; [done|].
  rewrite share_of_elem by (apply Hin; left). rewrite IH; [done|]. intros x Hx. apply Hin. by right.
Qed.

Lemma mapM_bind {A B C} (f : A → option B) (g : B → option C) l k :
  mapM f l = Some k → mapM (λ x, y ← f x; g y) l = mapM g k.
Proof.
  revert k. induction l as [|x l IH]; intros k; cbn; [by intros [= <-]|].
  destruct (f x) as [y|]; [|done]. cbn. destruct (mapM f l) as [k'|]; [|done]. cbn. intros [= <-]. cbn. by rewrite (IH k').
Qed.

(** A dealer whose rows are combined has a share. *)
Lemma dealt_share sk own_rows secret roster l p :
  dealt sk own_rows secret roster = Some l → p ∈ roster → p ≠ own → ∃ ts, ts ∈ shares ∧ ts_party_id ts = p.
Proof.
  unfold dealt. intros Hl Hp Hne. apply mapM_Some in Hl.
  apply list_elem_of_lookup in Hp as [i Hi]. destruct (Forall2_lookup_l _ _ _ _ _ Hl Hi) as (b & _ & Hb).
  unfold dealer_rows in Hb. rewrite (proj2 (Nat.eqb_neq _ _)) in Hb by done. unfold share_of in Hb.
  destruct (List.find _ shares) as [ts|] eqn:Hts; [|done]. apply List.find_some in Hts as [Hin Heq].
  exists ts. split; [by apply list_elem_of_In|by apply Nat.eqb_eq].
Qed.

(** ** The plan *)

Variables (csize : CiphernodesCommitteeSize) (params : Bytes) (m n : nat) (current : AggregatingDecryptionKey).
Variables (dishonest : option (gset PartyId)) (selected : gset PartyId).

(** The shares that the plan uses are those of the roster's other dealers, in order. *)
Lemma external_dealers (kept : list ThresholdShare) :
  own ∉ ts_party_id <$> shares → NoDup (ts_party_id <$> kept) → StronglySorted share_id_le kept →
  (∀ ts, ts ∈ kept → ts ∈ shares) →
  length (List.filter (λ ts, bool_decide (ts_party_id ts ∈ selected)) kept) =
    size selected - (if bool_decide (own ∈ selected) then 1 else 0) →
  ts_party_id <$> List.filter (λ ts, bool_decide (ts_party_id ts ∈ selected)) kept = others own (btree_set selected).
Proof.
  intros Hown Hnd Hsorted Hsub Hlen. set (ext := List.filter _ kept) in *.
  assert (∀ ts, ts ∈ ext → ts ∈ kept ∧ ts_party_id ts ∈ selected) as Hext.
  { intros ts [Hin Hsel]%elem_of_filter_bool. bool_to_prop. done. }
  assert (∀ x, x ∈ others own (btree_set selected) ↔ x ∈ selected ∧ x ≠ own) as Hothers.
  { intros x. unfold others. rewrite elem_of_filter_bool, elem_of_btree_set, negb_true_iff, Nat.eqb_neq. done. }
  apply sorted_equal.
  - apply sorted_ids; [by apply sorted_filter|]. refine (sublist_NoDup _ _ Hnd _). apply fmap_sublist_of, filter_sublist.
  - apply sorted_filter, btree_set_sorted.
  - intros x (ts & -> & Hts)%list_elem_of_fmap. apply Hothers. destruct (Hext ts Hts) as [Hk Hsel].
    split; [done|]. intros Heq. apply Hown. rewrite <- Heq. apply list_elem_of_fmap_2, Hsub, Hk.
  - rewrite length_fmap, Hlen, <- length_btree_set. unfold others.
    pose proof (sorted_lt_NoDup _ (btree_set_sorted selected)) as Hnd'.
    destruct (bool_decide (own ∈ selected)) eqn:Hsel; bool_to_prop.
    + destruct (proj2 (position_is_Some (λ p, p =? own) (btree_set selected))) as [i Hi].
      { exists own. rewrite elem_of_btree_set. split; [done|apply Nat.eqb_refl]. }
      destruct (others_split own _ i Hnd' Hi) as [Heq Hle]. rewrite Heq at 1. unfold insert_at, others in *.
      rewrite length_app, length_take. cbn. rewrite length_drop. lia.
    + fold (others own (btree_set selected)). rewrite others_absent; [lia|]. by rewrite elem_of_btree_set.
Qed.

Lemma rows_encrypted sk own_rows secret external rows enc :
  (∀ ts, ts ∈ external → ts ∈ shares ∧ ts_party_id ts ≠ own) →
  ts_party_id <$> external = others own (btree_set selected) →
  collect_rows preset sk own (secret <$> external)
    (own_at (position (λ p, p =? own) (btree_set selected)) own_rows) = Ok rows →
  mapM encrypt_rows rows = Some enc → dealt sk own_rows secret (btree_set selected) = Some enc.
Proof.
  intros Hin Hids Hrows Henc. unfold dealt. rewrite (mapM_bind _ _ _ rows); [done|].
  eapply rows_dealt; [done|apply sorted_lt_NoDup, btree_set_sorted|done|done].
Qed.

(** What a plan for the dealers [external] computes and proves. *)
Definition plan_exact (sk : Bytes) (own_sk : Rows) (own_esi : list Rows) (calc : CalculateDecryptionKeyRequest)
    (skr : DkgShareDecryptionProofRequest) (esmr : list DkgShareDecryptionProofRequest) : Prop :=
  let roster := btree_set selected in
  dealt sk own_sk sk_sss roster = Some (sk_sss_collected calc) ∧
  length (esi_sss_collected calc) = length own_esi ∧
  (∀ j rows, own_esi !! j = Some rows → dealt sk rows (nth_esi j) roster = esi_sss_collected calc !! j) ∧
  honest_ciphertexts_raw skr = dealt_ciphertexts sk_sss roster ∧
  length esmr = length own_esi ∧
  (∀ j r, esmr !! j = Some r → honest_ciphertexts_raw r = dealt_ciphertexts (nth_esi j) roster) ∧
  Forall (λ r, own_plaintext_idx r = position (λ p, p =? own) roster ∧ num_honest_parties r = size selected) (skr :: esmr).

Lemma assemble_exact sk own_sk own_esi external calc skr esmr honest :
  (∀ ts, ts ∈ external → ts ∈ shares ∧ ts_party_id ts ≠ own) →
  ts_party_id <$> external = others own (btree_set selected) →
  mapM read_own_share (own_esi_shares_raw current) = Some own_esi →
  assemble_plan preset own csize params m n current sk own_sk own_esi external selected = Ok (Proceed calc skr esmr honest) →
  honest = selected ∧ plan_exact sk own_sk own_esi calc skr esmr.
Proof.
  intros Hin Hids Hraw. unfold assemble_plan. set (idx := position _ _).
  destruct (collect_rows _ _ _ (sk_sss <$> _) _) as [sks|] eqn:Hsks; [|done]. cbn beta match.
  destruct (mapM _ (imap pair own_esi)) as [esis|] eqn:Hesis; [|done]. unfold or_err; cbn beta match.
  destruct (mapM (mapM encrypt_rows) esis) as [esi_enc|] eqn:Hee; [|done]. unfold or_err; cbn beta match.
  destruct (mapM encrypt_rows sks) as [sk_enc|] eqn:Hse; [|done]. unfold or_err; cbn beta match.
  destruct (threshold_counterpart preset); [|done]. unfold or_err; cbn beta match.
  intros [= <- <- <- <-]. split; [done|].
  apply mapM_Some, Forall2_same_length_lookup in Hesis as [Hl1 Hesis].
  apply mapM_Some, Forall2_same_length_lookup in Hee as [Hl2 Hee].
  apply mapM_Some, Forall2_length in Hraw as Hl3. rewrite length_imap in Hl1.
  split_and!; cbn [sk_sss_collected esi_sss_collected honest_ciphertexts_raw c4_request].
  - eapply rows_encrypted; eauto.
  - lia.
  - intros j rows Hj. destruct (lookup_lt_is_Some_2 esis j) as [er Her]; [apply lookup_lt_Some in Hj; lia|].
    destruct (lookup_lt_is_Some_2 esi_enc j) as [ee Hen]; [apply lookup_lt_Some in Her; lia|]. rewrite Hen.
    specialize (Hee j er ee Her Hen). eapply rows_encrypted; [done|done| |done].
    specialize (Hesis j (j, rows) er). rewrite list_lookup_imap, Hj in Hesis. specialize (Hesis eq_refl Her). cbn in Hesis.
    change (esi_collections external j) with (nth_esi j <$> external) in Hesis.
    fold idx. destruct (collect_rows _ _ _ (nth_esi j <$> external) (own_at idx rows)); [by injection Hesis as ->|done].
  - apply ciphertexts_dealt; [apply Hin|done].
  - by rewrite length_imap.
  - intros j r. rewrite list_lookup_imap. intros (raw & _ & ->)%fmap_Some. cbn [honest_ciphertexts_raw c4_request].
    apply (ciphertexts_dealt (nth_esi j)); [apply Hin|done].
  - constructor; [done|]. apply Forall_forall. intros r (i & raw & -> & _)%elem_of_lookup_imap. done.
Qed.
End PlanSpec.

(** A plan that goes ahead has exactly the H dealers of the accepted roster, none of them found
    dishonest.  For the secret key, and for each smudging noise, it combines in the order of the
    party ids one set of rows for each dealer, this party's own rows at its own place and the
    decryption of the slot encrypted to this party for the others; the C4 requests carry the
    ciphertexts of the same slots in the same order. *)
Theorem plan_follows_roster `{KeyshareOps} preset own csize params m n current shares dishonest selected calc skr esmr honest :
  NoDup (ts_party_id <$> shares) → own ∉ ts_party_id <$> shares →
  build_decryption_key_plan preset own csize params m n current shares dishonest selected = Ok (Proceed calc skr esmr honest) →
  honest = selected ∧ size selected = cc_h (values csize) ∧
  (∀ p, p ∈ selected → p < cc_n (values csize) ∧ (p ≠ own → p ∉ default ∅ dishonest)) ∧
  ∃ sk own_sk own_esi,
    read_secret_key preset (ag_sk_bfv current) = Some sk ∧
    read_own_share (own_sk_share_raw current) = Some own_sk ∧
    mapM read_own_share (own_esi_shares_raw current) = Some own_esi ∧
    plan_exact preset own shares selected sk own_sk own_esi calc skr esmr.
Proof.
  intros Hnd Hown. unfold build_decryption_key_plan. destruct shares as [|s0 sh] eqn:Hsh; [done|]. rewrite <- Hsh in *.
  destruct (read_secret_key _ _) as [sk|] eqn:Hsk; [|done]. unfold or_err; cbn beta match.
  destruct (read_own_share _) as [own_sk|] eqn:Hosk; [|done]. unfold or_err; cbn beta match.
  destruct (mapM read_own_share _) as [own_esi|] eqn:Hoe; [|done]. unfold or_err; cbn beta match.
  set (honest_ := List.filter _ shares). set (dims := dimensions_match _ _ _ _).
  set (kept := merge_sort share_id_le _). set (external := List.filter _ kept).
  destruct (negb (length kept =? _) && _); [done|].
  destruct (negb (size selected =? _) || _) eqn:Hroster; [done|].
  destruct (negb (length external =? _)) eqn:Hlen; [done|].
  apply orb_false_iff in Hroster as [Hh Hn]. rewrite negb_false_iff, Nat.eqb_eq in Hh, Hlen.
  assert (∀ ts, ts ∈ kept → ts ∈ honest_) as Hkh.
  { intros ts. unfold kept. rewrite merge_sort_Permutation. by intros [? _]%elem_of_filter_bool. }
  assert (∀ ts, ts ∈ honest_ → ts ∈ shares ∧ ts_party_id ts ∉ default ∅ dishonest) as Hhs.
  { intros ts [Hin Hd]%elem_of_filter_bool. split; [done|]. destruct dishonest; cbn; [by bool_to_prop|set_solver]. }
  assert (ts_party_id <$> external = others own (btree_set selected)) as Hids.
  { apply (external_dealers own shares selected kept Hown).
    - unfold kept. rewrite merge_sort_Permutation. refine (sublist_NoDup _ _ Hnd _).
      apply fmap_sublist_of. etrans; apply filter_sublist.
    - apply (StronglySorted_merge_sort share_id_le).
    - intros ts Hts. by apply Hhs, Hkh.
    - by rewrite Hh. }
  intros Hplan. apply (assemble_exact preset own shares Hnd) in Hplan as [-> Hexact]; [|intros ts Hts|done|done].
  2: { apply elem_of_filter_bool in Hts as [Hts _]. apply Hkh, Hhs in Hts as [? _]. split; [done|].
       intros <-. apply Hown. by apply list_elem_of_fmap_2. }
  split_and!; [done|done| |by exists sk, own_sk, own_esi].
  intros p Hp. split.
  - rewrite existsb_false in Hn. specialize (Hn p). rewrite elem_of_btree_set in Hn. apply Nat.leb_gt. by apply Hn.
  - intros Hne. assert (p ∈ others own (btree_set selected)) as Hin.
    { apply elem_of_filter_bool. rewrite elem_of_btree_set, negb_true_iff, Nat.eqb_neq. done. }
    rewrite <- Hids in Hin. apply list_elem_of_fmap in Hin as (ts & -> & Hts).
    apply elem_of_filter_bool in Hts as [Hts _]. by apply Hhs, Hkh.
Qed.

(** ** Example *)

(** Rows in the clear, "encrypted" by listing them; a share is cached as its rows of length one. *)
Definition ex_ops : KeyshareOps := {|
  preset_degree _ := 1;
  read_own_share b := Some ((λ z, [z]) <$> b);
  read_secret_key _ b := Some b;
  decrypt_share _ _ share := Some share;
  encrypt_rows rows := Some (concat rows) |}.

Definition ex_proofs : KeptProofs := mkKept None None None [] [].

Definition ex_current : AggregatingDecryptionKey := mkAggregating [] [7%Z] [20%Z] [[30%Z]] ex_proofs.

(** Dealer [p] encrypts [10 + p] and, for the smudging noise, [40 + p] to every recipient. *)
Definition ex_dealer (p : PartyId) : ThresholdShare :=
  let slots (z : Z) := repeat (Some [[(z + Z.of_nat p)%Z]]) 3 in
  mkThresholdShare p [] (slots 10%Z) [slots 40%Z].

(** Own party 1 of a committee of three; the roster is dealers 0 and 1. *)
Definition ex_plan : result DecryptionKeyPlan KsError :=
  @build_decryption_key_plan ex_ops InsecureDkg64 1 Minimum [] 1 3 ex_current [ex_dealer 2; ex_dealer 0] None {[0; 1]}.

Definition ex_c4 (ct : Z) (own : Bytes) (ty : DkgInputType) : DkgShareDecryptionProofRequest :=
  mkC4Request [7%Z] [[ct]] 2 1 (Some 1) (Some own) ty InsecureThreshold64 Minimum.

Lemma ex_plan_proceeds :
  ex_plan = Ok (Proceed (mkCalcRequest [] 3 1 [[10%Z]; [20%Z]] [[[40%Z]; [30%Z]]])
    (ex_c4 10 [20%Z] SecretKey_) [ex_c4 40 [30%Z] SmudgingNoise] {[0; 1]}).
Proof. vm_compute. reflexivity. Qed.

Lemma plan_follows_roster_witness :
  size ({[0; 1]} : gset PartyId) = 2 ∧
  ∃ sk own_sk own_esi, @read_secret_key ex_ops InsecureDkg64 [7%Z] = Some sk ∧
    @plan_exact ex_ops InsecureDkg64 1 [ex_dealer 2; ex_dealer 0] {[0; 1]} sk own_sk own_esi
      (mkCalcRequest [] 3 1 [[10%Z]; [20%Z]] [[[40%Z]; [30%Z]]]) (ex_c4 10 [20%Z] SecretKey_) [ex_c4 40 [30%Z] SmudgingNoise].
Proof.
  destruct (@plan_follows_roster ex_ops InsecureDkg64 1 Minimum [] 1 3 ex_current [ex_dealer 2; ex_dealer 0] None {[0; 1]}
    (mkCalcRequest [] 3 1 [[10%Z]; [20%Z]] [[[40%Z]; [30%Z]]]) (ex_c4 10 [20%Z] SecretKey_) [ex_c4 40 [30%Z] SmudgingNoise] {[0; 1]})
    as (_ & Hsize & _ & sk & own_sk & own_esi & Hsk & _ & _ & Hexact).
  - apply (bool_decide_unpack _). vm_compute. exact I.
  - apply (bool_decide_unpack _). vm_compute. exact I.
  - exact ex_plan_proceeds.
  - split; [exact Hsize|]. exists sk, own_sk, own_esi. split; [exact Hsk|exact Hexact].
Defined.
