(* ===== verification/ReadyReports.v ===== *)
(** * Ready reports

    The pure part of crates/orchestration/keyshare/src/effects/coordinate_roster.rs: how a new
    Ready report of a party relates to the one that is held, when a held update applies after an
    expulsion, and when a proposed roster is supported by what this node knows. *)

From S2P Require Import Prelude Events NodeRegistry Orchestration KeyshareEvents DkgRoster Keyshare.
Local Open Scope nat_scope.

Inductive ReadyUpdate :=
| Extends
| Unchanged
| DropsLiveDealer (adds_live_dealer : bool).

Global Instance ReadyUpdate_eq_dec : EqDecision ReadyUpdate.
Proof. solve_decision. Defined.

Definition live (expelled : gset PartyId) (d : DkgDealer) : bool := bool_decide (d_party_id d ∉ expelled).

Definition adds_live_dealer (existing candidate : list DkgDealer) (expelled : gset PartyId) : bool :=
  existsb (λ d, negb (bool_decide (d ∈ existing))) (List.filter (live expelled) candidate).

Definition ready_update (existing candidate : list DkgDealer) (expelled : gset PartyId) : ReadyUpdate :=
  if negb (forallb (λ d, bool_decide (d ∈ candidate)) (List.filter (live expelled) existing))
  then DropsLiveDealer (adds_live_dealer existing candidate expelled)
  else if adds_live_dealer existing candidate expelled then Extends
  else Unchanged.

Definition ready_contains_roster (ready roster : DkgCoordination) : bool :=
  forallb (λ d, bool_decide (d ∈ dealers ready)) (dealers roster).

Definition roster_members_are_live (roster : DkgCoordination) (expelled : gset PartyId) : bool :=
  bool_decide (co_party_id roster ∉ expelled) && forallb (live expelled) (dealers roster).

(** [opt.is_some_and(f)] and [opt.is_none_or(f)] *)
Definition is_some_and {A} (o : option A) (f : A → bool) : bool := match o with Some x => f x | None => false end.
Definition is_none_or {A} (o : option A) (f : A → bool) : bool := match o with Some x => f x | None => true end.

Definition roster_is_supported_by_local_state (r : RecoveryState) (roster : DkgCoordination) : bool :=
  is_some_and (dkg_ready r) (λ ready, ready_contains_roster ready roster) &&
  is_some_and (ready_by_party r !! co_party_id roster) (λ ready, ready_contains_roster ready roster) &&
  forallb (λ d, is_none_or (ready_by_party r !! d_party_id d) (λ ready, ready_contains_roster ready roster))
    (dealers roster).

(** Dealer sets of the Ready reports from parties that are not expelled. *)
Definition eligible_ready_dealers (r : RecoveryState) (k : ThresholdKeyshareState) : ReadyMap :=
  dealers <$> filter (λ kv, kv.1 ∉ expelled_parties k) (ready_by_party r).

(** ** Held updates *)

Definition live_count (expelled : gset PartyId) (u : DkgCoordination) : nat :=
  length (List.filter (live expelled) (dealers u)).

Definition extends_report (expelled : gset PartyId) (current : option DkgCoordination) (u : DkgCoordination) : bool :=
  is_none_or current (λ c, bool_decide (ready_update (dealers c) (dealers u) expelled = Extends)).

(** [max_by_key(|(index, update)| (live_count(update), Reverse(index)))]: among the updates with
    the most live dealers, the first one. *)
Definition best_update (expelled : gset PartyId) (l : list (nat * DkgCoordination)) : option (nat * DkgCoordination) :=
  foldl (λ best iu, match best with
    | None => Some iu
    | Some b => if live_count expelled b.2 <? live_count expelled iu.2 then Some iu else Some b
    end) None l.

Definition next_update (expelled : gset PartyId) (current : option DkgCoordination) (held : list DkgCoordination)
    : option (nat * DkgCoordination) :=
  best_update expelled (List.filter (λ iu, extends_report expelled current iu.2) (imap pair held)).

(** The loop takes one held update in each round, so that their number is enough fuel. *)
Fixpoint settle_loop (fuel : nat) (expelled : gset PartyId) (current : option DkgCoordination)
    (held : list DkgCoordination) (changed : bool) : option DkgCoordination * list DkgCoordination * bool :=
  match fuel with
  | O => (current, held, changed)
  | S fuel =>
      match next_update expelled current held with
      | None => (current, held, changed)
      | Some (index, u) => settle_loop fuel expelled (Some u) (delete index held) true
      end
  end.

(** A later expulsion can still make this update an extension. *)
Definition can_still_extend (expelled : gset PartyId) (current : option DkgCoordination) (u : DkgCoordination) : bool :=
  is_some_and current (λ c, bool_decide (ready_update (dealers c) (dealers u) expelled = DropsLiveDealer true)).

Definition settle_held_updates (current : option DkgCoordination) (held : list DkgCoordination) (expelled : gset PartyId)
    : option DkgCoordination * list DkgCoordination :=
  let '(current, held, changed) := settle_loop (length held) expelled current held false in
  ((if changed then current else None), List.filter (can_still_extend expelled current) held).

(** ** Lemmas *)

Lemma filter_live expelled l d : d ∈ List.filter (live expelled) l ↔ d ∈ l ∧ d_party_id d ∉ expelled.
Proof. rewrite !list_elem_of_In, List.filter_In. unfold live. by rewrite bool_decide_eq_true. Qed.

Lemma adds_live_dealer_spec existing candidate expelled :
  adds_live_dealer existing candidate expelled = true ↔
  ∃ d, d ∈ candidate ∧ (d_party_id d ∉ expelled) ∧ (d ∉ existing).
Proof.
  unfold adds_live_dealer. rewrite existsb_exists. setoid_rewrite <-list_elem_of_In. setoid_rewrite filter_live.
  setoid_rewrite negb_true_iff. setoid_rewrite bool_decide_eq_false.
  split; [intros (d & [Hc Hl] & Hn)|intros (d & Hc & Hl & Hn)]; by exists d.
Qed.

Lemma keeps_live (existing candidate : list DkgDealer) expelled :
  forallb (λ d, bool_decide (d ∈ candidate)) (List.filter (live expelled) existing) = true ↔
  ∀ d, d ∈ existing → d_party_id d ∉ expelled → d ∈ candidate.
Proof.
  rewrite forallb_forall. setoid_rewrite <-list_elem_of_In. setoid_rewrite filter_live.
  setoid_rewrite bool_decide_eq_true. split; intros Hk d; [intros Hd Hl; by apply Hk|intros [Hd Hl]; by apply Hk].
Qed.

(** An update extends a report when it keeps the live dealers and adds one. *)
Lemma ready_update_extends existing candidate expelled :
  ready_update existing candidate expelled = Extends ↔
  (∀ d, d ∈ existing → d_party_id d ∉ expelled → d ∈ candidate) ∧
  ∃ d, d ∈ candidate ∧ (d_party_id d ∉ expelled) ∧ (d ∉ existing).
Proof.
  rewrite <-keeps_live, <-adds_live_dealer_spec. unfold ready_update.
  destruct (forallb _ _), (adds_live_dealer _ _ _); cbn; split; (done || by intros []).
Qed.

Lemma ready_contains_roster_spec ready roster :
  ready_contains_roster ready roster = true ↔ ∀ d, d ∈ dealers roster → d ∈ dealers ready.
Proof.
  unfold ready_contains_roster. rewrite forallb_forall. setoid_rewrite <-list_elem_of_In.
  by setoid_rewrite bool_decide_eq_true.
Qed.

Lemma roster_members_are_live_spec roster expelled :
  roster_members_are_live roster expelled = true ↔
  (co_party_id roster ∉ expelled) ∧ ∀ d, d ∈ dealers roster → d_party_id d ∉ expelled.
Proof.
  unfold roster_members_are_live, live. rewrite andb_true_iff, bool_decide_eq_true, forallb_forall.
  setoid_rewrite <-list_elem_of_In. by setoid_rewrite bool_decide_eq_true.
Qed.

(** What is left of an old report after growth: every dealer that is still live. *)
Definition keeps_live_dealers (expelled : gset PartyId) (old new : option DkgCoordination) : Prop :=
  match old with
  | None => True
  | Some o => ∃ n, new = Some n ∧ ∀ d, d ∈ dealers o → d_party_id d ∉ expelled → d ∈ dealers n
  end.

Lemma best_update_elem expelled l iu : best_update expelled l = Some iu → iu ∈ l.
Proof.
  unfold best_update. induction l as [|x l IH] using rev_ind; [done|]. rewrite foldl_snoc.
  destruct (foldl _ None l) as [b|] eqn:E.
  - case_match; intros [= <-]; [set_solver|]. apply elem_of_app. left. by apply IH.
  - intros [= <-]. set_solver.
Qed.

Lemma best_update_none expelled l : best_update expelled l = None → l = [].
Proof.
  unfold best_update. destruct l as [|x l _] using rev_ind; [done|]. rewrite foldl_snoc. by repeat case_match.
Qed.

Lemma next_update_spec expelled current held i u : next_update expelled current held = Some (i, u) →
  held !! i = Some u ∧ extends_report expelled current u = true.
Proof.
  intros Hn%best_update_elem. apply list_elem_of_In, List.filter_In in Hn as [Hin He]. split; [|done].
  apply list_elem_of_In, list_elem_of_lookup in Hin as [k Hk]. rewrite list_lookup_imap in Hk.
  destruct (held !! k) eqn:E; naive_solver.
Qed.

Lemma next_update_none expelled current held : next_update expelled current held = None →
  ∀ u, u ∈ held → extends_report expelled current u = false.
Proof.
  intros Hn%best_update_none u Hu. destruct (extends_report expelled current u) eqn:E; [|done].
  apply list_elem_of_lookup in Hu as [k Hk].
  assert ((k, u) ∈ List.filter (λ iu, extends_report expelled current iu.2) (imap pair held)) as Hin; [|rewrite Hn in Hin; by apply elem_of_nil in Hin].
  apply list_elem_of_In, List.filter_In. split; [|done]. apply list_elem_of_In, list_elem_of_lookup.
  exists k. by rewrite list_lookup_imap, Hk.
Qed.

Lemma extends_keeps expelled current u : extends_report expelled current u = true →
  keeps_live_dealers expelled current (Some u).
Proof.
  unfold extends_report, keeps_live_dealers. destruct current as [c|]; [|done]. cbn. intros He. bool_to_prop.
  apply ready_update_extends in He as [Hk _]. eauto.
Qed.

Lemma keeps_live_trans expelled a b c : keeps_live_dealers expelled a b → keeps_live_dealers expelled b c →
  keeps_live_dealers expelled a c.
Proof.
  unfold keeps_live_dealers. destruct a as [o|]; [|done]. intros (n & -> & Hn) (n' & -> & Hn'). eauto.
Qed.

Lemma elem_of_delete {A} (l : list A) i u x : l !! i = Some u → x ∈ l → x = u ∨ x ∈ delete i l.
Proof.
  intros Hi Hx. rewrite <-(take_drop_middle l i u Hi) in Hx. rewrite delete_take_drop.
  rewrite elem_of_app, elem_of_cons in *. tauto.
Qed.

Lemma keeps_live_refl expelled a : keeps_live_dealers expelled a a.
Proof. unfold keeps_live_dealers. destruct a; eauto. Qed.

(** The loop ends with a report that no remaining update extends. *)
Lemma settle_loop_spec expelled fuel : ∀ current held changed, length held <= fuel →
  let '(current', held', changed') := settle_loop fuel expelled current held changed in
  keeps_live_dealers expelled current current' ∧
  (∀ u, u ∈ held' → extends_report expelled current' u = false) ∧
  (∀ u, u ∈ held' → u ∈ held) ∧
  (∀ u, u ∈ held → u ∈ held' ∨ keeps_live_dealers expelled (Some u) current') ∧
  ((current' = current ∧ changed' = changed) ∨ ∃ u, current' = Some u ∧ u ∈ held ∧ changed' = true).
Proof.
  induction fuel as [|fuel IH]; intros current held changed Hl; cbn [settle_loop].
  { destruct held; [|cbn in Hl; lia]. split_and!; auto using keeps_live_refl; intros u Hu; by apply elem_of_nil in Hu. }
  destruct (next_update expelled current held) as [[i u]|] eqn:En.
  2: { pose proof (next_update_none _ _ _ En). split_and!; auto. apply keeps_live_refl. }
  apply next_update_spec in En as [Hi He].
  assert (length (delete i held) <= fuel) as Hl'.
  { pose proof (length_delete held i ltac:(eauto)). pose proof (lookup_lt_Some _ _ _ Hi). lia. }
  specialize (IH (Some u) (delete i held) true Hl').
  destruct (settle_loop fuel expelled (Some u) (delete i held) true) as [[c' h'] ch'].
  destruct IH as (Hk & Hn & Hsub & Hall & Hcur).
  assert (∀ x, x ∈ delete i held → x ∈ held) as Hdel.
  { intros x Hx. eapply elem_of_sublist; [done|]. apply sublist_delete. }
  split_and!.
  - eapply keeps_live_trans; [by apply extends_keeps|done].
  - done.
  - intros x Hx. by apply Hdel, Hsub.
  - intros x Hx. destruct (elem_of_delete held i u x Hi Hx) as [->|Hx']; [by right|by apply Hall].
  - right. destruct Hcur as [[-> ->]|(v & -> & Hv & ->)]; [exists u; split_and!; [done|by eapply list_elem_of_lookup_2|done]|eauto].
Qed.

(** An update whose live dealers are all in the report never extends what the report becomes. *)
Lemma covered_never_extends expelled expelled' c u later :
  expelled ⊆ expelled' → keeps_live_dealers expelled (Some u) (Some c) → keeps_live_dealers expelled' (Some c) later →
  extends_report expelled' later u = false.
Proof.
  intros Hsub (n & [= <-] & Hcov) (l & -> & Hlater). unfold extends_report. cbn.
  apply bool_decide_eq_false. rewrite ready_update_extends. intros [_ (d & Hd & Hl & Hn)].
  apply Hn, Hlater; [|done]. apply Hcov; [done|]. intros He. by apply Hl, Hsub.
Qed.

Lemma useless_is_covered expelled c u : extends_report expelled (Some c) u = false →
  can_still_extend expelled (Some c) u = false → keeps_live_dealers expelled (Some u) (Some c).
Proof.
  unfold extends_report, can_still_extend. cbn. intros He Hc. bool_to_prop.
  assert (adds_live_dealer (dealers c) (dealers u) expelled = false) as Ha.
  { unfold ready_update in *. by destruct (forallb _ _), (adds_live_dealer _ _ _). }
  exists c. split; [done|]. intros d Hd Hl. destruct (decide (d ∈ dealers c)) as [|Hn]; [done|].
  assert (adds_live_dealer (dealers c) (dealers u) expelled = true); [|congruence].
  apply adds_live_dealer_spec. eauto.
Qed.

(** Settling the held updates of a party after an expulsion gives a report that lost at most
    expelled dealers and that no remaining update extends.  An update that is dropped is never
    needed again: whatever is expelled later and however the report grows, it would not extend
    it. *)
Theorem held_updates_settle (current : option DkgCoordination) (held : list DkgCoordination) (expelled : gset PartyId) :
  let '(applied, remaining) := settle_held_updates current held expelled in
  let report := match applied with Some a => Some a | None => current end in
  keeps_live_dealers expelled current report ∧
  (∀ a, applied = Some a → a ∈ held) ∧
  (∀ u, u ∈ remaining → u ∈ held ∧ extends_report expelled report u = false) ∧
  ∀ u expelled' later, u ∈ held → u ∉ remaining → expelled ⊆ expelled' →
    keeps_live_dealers expelled' report later → is_Some report ∧ extends_report expelled' later u = false.
Proof.
  unfold settle_held_updates. pose proof (settle_loop_spec expelled (length held) current held false ltac:(lia)) as Hs.
  destruct (settle_loop (length held) expelled current held false) as [[c h] ch].
  destruct Hs as (Hk & Hno & Hsub & Hall & Hcur).
  assert (match (if ch then c else None) with Some a => Some a | None => current end = c) as Hrep.
  { by destruct Hcur as [[-> ->]|(u & -> & _ & ->)]. }
  rewrite Hrep. split_and!; [done| | |].
  - intros a Ha. destruct Hcur as [[_ ->]|(u & -> & Hu & ->)]; [done|]. by simplify_eq.
  - intros u Hu. apply list_elem_of_In, List.filter_In in Hu as [Hu _]. apply list_elem_of_In in Hu. auto.
  - intros u expelled' later Hu Hnot Hexp Hlater.
    assert (∃ r, c = Some r ∧ keeps_live_dealers expelled (Some u) (Some r)) as (r & -> & Hcov).
    { destruct (Hall u Hu) as [Hin|Hcov]; [|destruct Hcov as (r & -> & Hd); exists r; split; [done|]; eexists; eauto].
      pose proof (Hno u Hin) as He. destruct c as [r|]; [|done]. exists r. split; [done|].
      apply useless_is_covered; [done|]. destruct (can_still_extend expelled (Some r) u) eqn:Ec; [|done].
      destruct Hnot. apply list_elem_of_In, List.filter_In. split; [by apply list_elem_of_In|done]. }
    split; [done|]. by eapply covered_never_extends.
Qed.
