(* ===== verification/KeyshareWork.v ===== *)
(** * Threshold keyshare actor: state and rosters

    The state of [ThresholdKeyshare] (crates/orchestration/keyshare/src/actor.rs), and the work
    that leads from the verified shares to the decryption-key calculation: Ready reports, the
    roster and its acceptance (effects/coordinate_roster.rs) and the start of the calculation
    (effects/calculate_decryption_key.rs).

    The state in memory and the recovery record are [Persistable]s; the payloads of the shares are
    kept in the store beside the record and in memory.  What a collector is told is a publication.
    Log messages and the gate that limits them are left out.  The proof plan of this node's own
    shares ([ThresholdSharePending]) and the recorded BFV keypair are not part of the state. *)

From S2P Require Import Prelude Events CommitmentLinks NodeRegistry Actor Orchestration CanonicalKeys KeyshareTiming KeyshareEvents KeyCollector C4Collector ShareCollector DkgRoster Keyshare ReadyReports.
Local Open Scope nat_scope.

(** ** Updates of the recovery record *)

Definition set_encryption_keys x (r : RecoveryState) : RecoveryState :=
  mkRecoveryState (rs_schema_version r) (rs_selected r) x (threshold_share_refs r) (collected_ids r)
    (decryption_key_shares r) (c4_proofs_pending r) (share_verification_complete r) (verified_dealer_ids r)
    (share_dispatch_ids r) (decryption_verification_complete r) (dkg_ready r) (ready_by_party r)
    (held_ready_updates r) (pending_rosters r) (dkg_roster r) (rs_active_aggregator r) (rs_is_aggregator r)
    (keyshare_publish_authorized r) (share_decryption_proof_pending r) (rs_last_ec r).
Definition set_share_refs x (r : RecoveryState) : RecoveryState :=
  mkRecoveryState (rs_schema_version r) (rs_selected r) (encryption_keys r) x (collected_ids r)
    (decryption_key_shares r) (c4_proofs_pending r) (share_verification_complete r) (verified_dealer_ids r)
    (share_dispatch_ids r) (decryption_verification_complete r) (dkg_ready r) (ready_by_party r)
    (held_ready_updates r) (pending_rosters r) (dkg_roster r) (rs_active_aggregator r) (rs_is_aggregator r)
    (keyshare_publish_authorized r) (share_decryption_proof_pending r) (rs_last_ec r).
Definition set_collected x (r : RecoveryState) : RecoveryState :=
  mkRecoveryState (rs_schema_version r) (rs_selected r) (encryption_keys r) (threshold_share_refs r) x
    (decryption_key_shares r) (c4_proofs_pending r) (share_verification_complete r) (verified_dealer_ids r)
    (share_dispatch_ids r) (decryption_verification_complete r) (dkg_ready r) (ready_by_party r)
    (held_ready_updates r) (pending_rosters r) (dkg_roster r) (rs_active_aggregator r) (rs_is_aggregator r)
    (keyshare_publish_authorized r) (share_decryption_proof_pending r) (rs_last_ec r).
Definition set_key_shares x (r : RecoveryState) : RecoveryState :=
  mkRecoveryState (rs_schema_version r) (rs_selected r) (encryption_keys r) (threshold_share_refs r)
    (collected_ids r) x (c4_proofs_pending r) (share_verification_complete r) (verified_dealer_ids r)
    (share_dispatch_ids r) (decryption_verification_complete r) (dkg_ready r) (ready_by_party r)
    (held_ready_updates r) (pending_rosters r) (dkg_roster r) (rs_active_aggregator r) (rs_is_aggregator r)
    (keyshare_publish_authorized r) (share_decryption_proof_pending r) (rs_last_ec r).
Definition set_c4_pending x (r : RecoveryState) : RecoveryState :=
  mkRecoveryState (rs_schema_version r) (rs_selected r) (encryption_keys r) (threshold_share_refs r)
    (collected_ids r) (decryption_key_shares r) x (share_verification_complete r) (verified_dealer_ids r)
    (share_dispatch_ids r) (decryption_verification_complete r) (dkg_ready r) (ready_by_party r)
    (held_ready_updates r) (pending_rosters r) (dkg_roster r) (rs_active_aggregator r) (rs_is_aggregator r)
    (keyshare_publish_authorized r) (share_decryption_proof_pending r) (rs_last_ec r).
Definition set_share_verdict x (r : RecoveryState) : RecoveryState :=
  mkRecoveryState (rs_schema_version r) (rs_selected r) (encryption_keys r) (threshold_share_refs r)
    (collected_ids r) (decryption_key_shares r) (c4_proofs_pending r) x (verified_dealer_ids r)
    (share_dispatch_ids r) (decryption_verification_complete r) (dkg_ready r) (ready_by_party r)
    (held_ready_updates r) (pending_rosters r) (dkg_roster r) (rs_active_aggregator r) (rs_is_aggregator r)
    (keyshare_publish_authorized r) (share_decryption_proof_pending r) (rs_last_ec r).
Definition set_verified x (r : RecoveryState) : RecoveryState :=
  mkRecoveryState (rs_schema_version r) (rs_selected r) (encryption_keys r) (threshold_share_refs r)
    (collected_ids r) (decryption_key_shares r) (c4_proofs_pending r) (share_verification_complete r) x
    (share_dispatch_ids r) (decryption_verification_complete r) (dkg_ready r) (ready_by_party r)
    (held_ready_updates r) (pending_rosters r) (dkg_roster r) (rs_active_aggregator r) (rs_is_aggregator r)
    (keyshare_publish_authorized r) (share_decryption_proof_pending r) (rs_last_ec r).
Definition set_dispatch_ids x (r : RecoveryState) : RecoveryState :=
  mkRecoveryState (rs_schema_version r) (rs_selected r) (encryption_keys r) (threshold_share_refs r)
    (collected_ids r) (decryption_key_shares r) (c4_proofs_pending r) (share_verification_complete r)
    (verified_dealer_ids r) x (decryption_verification_complete r) (dkg_ready r) (ready_by_party r)
    (held_ready_updates r) (pending_rosters r) (dkg_roster r) (rs_active_aggregator r) (rs_is_aggregator r)
    (keyshare_publish_authorized r) (share_decryption_proof_pending r) (rs_last_ec r).
Definition set_c4_verdict x (r : RecoveryState) : RecoveryState :=
  mkRecoveryState (rs_schema_version r) (rs_selected r) (encryption_keys r) (threshold_share_refs r)
    (collected_ids r) (decryption_key_shares r) (c4_proofs_pending r) (share_verification_complete r)
    (verified_dealer_ids r) (share_dispatch_ids r) x (dkg_ready r) (ready_by_party r) (held_ready_updates r)
    (pending_rosters r) (dkg_roster r) (rs_active_aggregator r) (rs_is_aggregator r) (keyshare_publish_authorized r)
    (share_decryption_proof_pending r) (rs_last_ec r).
Definition set_own_ready x (r : RecoveryState) : RecoveryState :=
  mkRecoveryState (rs_schema_version r) (rs_selected r) (encryption_keys r) (threshold_share_refs r)
    (collected_ids r) (decryption_key_shares r) (c4_proofs_pending r) (share_verification_complete r)
    (verified_dealer_ids r) (share_dispatch_ids r) (decryption_verification_complete r) x (ready_by_party r)
    (held_ready_updates r) (pending_rosters r) (dkg_roster r) (rs_active_aggregator r) (rs_is_aggregator r)
    (keyshare_publish_authorized r) (share_decryption_proof_pending r) (rs_last_ec r).
Definition set_ready x (r : RecoveryState) : RecoveryState :=
  mkRecoveryState (rs_schema_version r) (rs_selected r) (encryption_keys r) (threshold_share_refs r)
    (collected_ids r) (decryption_key_shares r) (c4_proofs_pending r) (share_verification_complete r)
    (verified_dealer_ids r) (share_dispatch_ids r) (decryption_verification_complete r) (dkg_ready r) x
    (held_ready_updates r) (pending_rosters r) (dkg_roster r) (rs_active_aggregator r) (rs_is_aggregator r)
    (keyshare_publish_authorized r) (share_decryption_proof_pending r) (rs_last_ec r).
Definition set_held x (r : RecoveryState) : RecoveryState :=
  mkRecoveryState (rs_schema_version r) (rs_selected r) (encryption_keys r) (threshold_share_refs r)
    (collected_ids r) (decryption_key_shares r) (c4_proofs_pending r) (share_verification_complete r)
    (verified_dealer_ids r) (share_dispatch_ids r) (decryption_verification_complete r) (dkg_ready r)
    (ready_by_party r) x (pending_rosters r) (dkg_roster r) (rs_active_aggregator r) (rs_is_aggregator r)
    (keyshare_publish_authorized r) (share_decryption_proof_pending r) (rs_last_ec r).
Definition set_pending_rosters x (r : RecoveryState) : RecoveryState :=
  mkRecoveryState (rs_schema_version r) (rs_selected r) (encryption_keys r) (threshold_share_refs r)
    (collected_ids r) (decryption_key_shares r) (c4_proofs_pending r) (share_verification_complete r)
    (verified_dealer_ids r) (share_dispatch_ids r) (decryption_verification_complete r) (dkg_ready r)
    (ready_by_party r) (held_ready_updates r) x (dkg_roster r) (rs_active_aggregator r) (rs_is_aggregator r)
    (keyshare_publish_authorized r) (share_decryption_proof_pending r) (rs_last_ec r).
Definition set_roster x (r : RecoveryState) : RecoveryState :=
  mkRecoveryState (rs_schema_version r) (rs_selected r) (encryption_keys r) (threshold_share_refs r)
    (collected_ids r) (decryption_key_shares r) (c4_proofs_pending r) (share_verification_complete r)
    (verified_dealer_ids r) (share_dispatch_ids r) (decryption_verification_complete r) (dkg_ready r)
    (ready_by_party r) (held_ready_updates r) (pending_rosters r) x (rs_active_aggregator r) (rs_is_aggregator r)
    (keyshare_publish_authorized r) (share_decryption_proof_pending r) (rs_last_ec r).
Definition set_authorized x (r : RecoveryState) : RecoveryState :=
  mkRecoveryState (rs_schema_version r) (rs_selected r) (encryption_keys r) (threshold_share_refs r)
    (collected_ids r) (decryption_key_shares r) (c4_proofs_pending r) (share_verification_complete r)
    (verified_dealer_ids r) (share_dispatch_ids r) (decryption_verification_complete r) (dkg_ready r)
    (ready_by_party r) (held_ready_updates r) (pending_rosters r) (dkg_roster r) (rs_active_aggregator r)
    (rs_is_aggregator r) x (share_decryption_proof_pending r) (rs_last_ec r).
Definition set_c6_pending x (r : RecoveryState) : RecoveryState :=
  mkRecoveryState (rs_schema_version r) (rs_selected r) (encryption_keys r) (threshold_share_refs r)
    (collected_ids r) (decryption_key_shares r) (c4_proofs_pending r) (share_verification_complete r)
    (verified_dealer_ids r) (share_dispatch_ids r) (decryption_verification_complete r) (dkg_ready r)
    (ready_by_party r) (held_ready_updates r) (pending_rosters r) (dkg_roster r) (rs_active_aggregator r)
    (rs_is_aggregator r) (keyshare_publish_authorized r) x (rs_last_ec r).
Definition set_last_ec x (r : RecoveryState) : RecoveryState :=
  mkRecoveryState (rs_schema_version r) (rs_selected r) (encryption_keys r) (threshold_share_refs r)
    (collected_ids r) (decryption_key_shares r) (c4_proofs_pending r) (share_verification_complete r)
    (verified_dealer_ids r) (share_dispatch_ids r) (decryption_verification_complete r) (dkg_ready r)
    (ready_by_party r) (held_ready_updates r) (pending_rosters r) (dkg_roster r) (rs_active_aggregator r)
    (rs_is_aggregator r) (keyshare_publish_authorized r) (share_decryption_proof_pending r) x.
Definition set_aggregator active is_agg (r : RecoveryState) : RecoveryState :=
  mkRecoveryState (rs_schema_version r) (rs_selected r) (encryption_keys r) (threshold_share_refs r)
    (collected_ids r) (decryption_key_shares r) (c4_proofs_pending r) (share_verification_complete r)
    (verified_dealer_ids r) (share_dispatch_ids r) (decryption_verification_complete r) (dkg_ready r)
    (ready_by_party r) (held_ready_updates r) (pending_rosters r) (dkg_roster r) active is_agg
    (keyshare_publish_authorized r) (share_decryption_proof_pending r) (rs_last_ec r).

(** ** Work in progress *)

(** One outstanding decryption request of this process; times are seconds of its clock. *)
Record IssuedDecryptionWork := mkIssued { issued_ec : EventContext; last_sent : Z; redeliveries : nat }.

(** What a process holds besides the snapshots.  A collector is known by whether it runs. *)
Record Volatile := mkVolatile {
  active_aggregator : option PartyId; is_aggregator : bool; effects_enabled : bool; canonical_key_published : bool;
  roster_inputs_ready : bool; roster_proposal_pending : bool;
  key_collector : bool; share_collector : bool; c4_collector : bool;
  pending_shares : list ThresholdShare;
  (** verdicts of dispatches that this process has not sent for the current batch *)
  parked_verdicts : gmap B256 (ShareVerificationComplete * EventContext);
  share_decryption_data : option (DkgShareDecryptionProofRequest * list DkgShareDecryptionProofRequest);
  c4_verification_shares : option (gmap PartyId DecryptionKeyShared);
  keyshare_publish : bool;
  decryption_share_request : option IssuedDecryptionWork; decryption_proof_request : option IssuedDecryptionWork;
  stopped : bool }.

Definition set_effects x (v : Volatile) : Volatile :=
  mkVolatile (active_aggregator v) (is_aggregator v) x (canonical_key_published v) (roster_inputs_ready v)
    (roster_proposal_pending v) (key_collector v) (share_collector v) (c4_collector v) (pending_shares v)
    (parked_verdicts v) (share_decryption_data v) (c4_verification_shares v) (keyshare_publish v)
    (decryption_share_request v) (decryption_proof_request v) (stopped v).
Definition set_canonical x (v : Volatile) : Volatile :=
  mkVolatile (active_aggregator v) (is_aggregator v) (effects_enabled v) x (roster_inputs_ready v)
    (roster_proposal_pending v) (key_collector v) (share_collector v) (c4_collector v) (pending_shares v)
    (parked_verdicts v) (share_decryption_data v) (c4_verification_shares v) (keyshare_publish v)
    (decryption_share_request v) (decryption_proof_request v) (stopped v).
Definition set_inputs_ready x (v : Volatile) : Volatile :=
  mkVolatile (active_aggregator v) (is_aggregator v) (effects_enabled v) (canonical_key_published v) x
    (roster_proposal_pending v) (key_collector v) (share_collector v) (c4_collector v) (pending_shares v)
    (parked_verdicts v) (share_decryption_data v) (c4_verification_shares v) (keyshare_publish v)
    (decryption_share_request v) (decryption_proof_request v) (stopped v).
Definition set_proposal x (v : Volatile) : Volatile :=
  mkVolatile (active_aggregator v) (is_aggregator v) (effects_enabled v) (canonical_key_published v)
    (roster_inputs_ready v) x (key_collector v) (share_collector v) (c4_collector v) (pending_shares v)
    (parked_verdicts v) (share_decryption_data v) (c4_verification_shares v) (keyshare_publish v)
    (decryption_share_request v) (decryption_proof_request v) (stopped v).
Definition set_key_collector x (v : Volatile) : Volatile :=
  mkVolatile (active_aggregator v) (is_aggregator v) (effects_enabled v) (canonical_key_published v)
    (roster_inputs_ready v) (roster_proposal_pending v) x (share_collector v) (c4_collector v) (pending_shares v)
    (parked_verdicts v) (share_decryption_data v) (c4_verification_shares v) (keyshare_publish v)
    (decryption_share_request v) (decryption_proof_request v) (stopped v).
Definition set_share_collector x (v : Volatile) : Volatile :=
  mkVolatile (active_aggregator v) (is_aggregator v) (effects_enabled v) (canonical_key_published v)
    (roster_inputs_ready v) (roster_proposal_pending v) (key_collector v) x (c4_collector v) (pending_shares v)
    (parked_verdicts v) (share_decryption_data v) (c4_verification_shares v) (keyshare_publish v)
    (decryption_share_request v) (decryption_proof_request v) (stopped v).
Definition set_c4_collector x (v : Volatile) : Volatile :=
  mkVolatile (active_aggregator v) (is_aggregator v) (effects_enabled v) (canonical_key_published v)
    (roster_inputs_ready v) (roster_proposal_pending v) (key_collector v) (share_collector v) x (pending_shares v)
    (parked_verdicts v) (share_decryption_data v) (c4_verification_shares v) (keyshare_publish v)
    (decryption_share_request v) (decryption_proof_request v) (stopped v).
Definition set_pending_shares x (v : Volatile) : Volatile :=
  mkVolatile (active_aggregator v) (is_aggregator v) (effects_enabled v) (canonical_key_published v)
    (roster_inputs_ready v) (roster_proposal_pending v) (key_collector v) (share_collector v) (c4_collector v) x
    (parked_verdicts v) (share_decryption_data v) (c4_verification_shares v) (keyshare_publish v)
    (decryption_share_request v) (decryption_proof_request v) (stopped v).
Definition set_parked x (v : Volatile) : Volatile :=
  mkVolatile (active_aggregator v) (is_aggregator v) (effects_enabled v) (canonical_key_published v)
    (roster_inputs_ready v) (roster_proposal_pending v) (key_collector v) (share_collector v) (c4_collector v)
    (pending_shares v) x (share_decryption_data v) (c4_verification_shares v) (keyshare_publish v)
    (decryption_share_request v) (decryption_proof_request v) (stopped v).
Definition set_c4_data x (v : Volatile) : Volatile :=
  mkVolatile (active_aggregator v) (is_aggregator v) (effects_enabled v) (canonical_key_published v)
    (roster_inputs_ready v) (roster_proposal_pending v) (key_collector v) (share_collector v) (c4_collector v)
    (pending_shares v) (parked_verdicts v) x (c4_verification_shares v) (keyshare_publish v)
    (decryption_share_request v) (decryption_proof_request v) (stopped v).
Definition set_c4_shares x (v : Volatile) : Volatile :=
  mkVolatile (active_aggregator v) (is_aggregator v) (effects_enabled v) (canonical_key_published v)
    (roster_inputs_ready v) (roster_proposal_pending v) (key_collector v) (share_collector v) (c4_collector v)
    (pending_shares v) (parked_verdicts v) (share_decryption_data v) x (keyshare_publish v)
    (decryption_share_request v) (decryption_proof_request v) (stopped v).
Definition set_publish x (v : Volatile) : Volatile :=
  mkVolatile (active_aggregator v) (is_aggregator v) (effects_enabled v) (canonical_key_published v)
    (roster_inputs_ready v) (roster_proposal_pending v) (key_collector v) (share_collector v) (c4_collector v)
    (pending_shares v) (parked_verdicts v) (share_decryption_data v) (c4_verification_shares v) x
    (decryption_share_request v) (decryption_proof_request v) (stopped v).
Definition set_share_request x (v : Volatile) : Volatile :=
  mkVolatile (active_aggregator v) (is_aggregator v) (effects_enabled v) (canonical_key_published v)
    (roster_inputs_ready v) (roster_proposal_pending v) (key_collector v) (share_collector v) (c4_collector v)
    (pending_shares v) (parked_verdicts v) (share_decryption_data v) (c4_verification_shares v) (keyshare_publish v)
    x (decryption_proof_request v) (stopped v).
Definition set_proof_request x (v : Volatile) : Volatile :=
  mkVolatile (active_aggregator v) (is_aggregator v) (effects_enabled v) (canonical_key_published v)
    (roster_inputs_ready v) (roster_proposal_pending v) (key_collector v) (share_collector v) (c4_collector v)
    (pending_shares v) (parked_verdicts v) (share_decryption_data v) (c4_verification_shares v) (keyshare_publish v)
    (decryption_share_request v) x (stopped v).
Definition set_stopped x (v : Volatile) : Volatile :=
  mkVolatile (active_aggregator v) (is_aggregator v) (effects_enabled v) (canonical_key_published v)
    (roster_inputs_ready v) (roster_proposal_pending v) (key_collector v) (share_collector v) (c4_collector v)
    (pending_shares v) (parked_verdicts v) (share_decryption_data v) (c4_verification_shares v) (keyshare_publish v)
    (decryption_share_request v) (decryption_proof_request v) x.
Definition set_role active is_agg (v : Volatile) : Volatile :=
  mkVolatile active is_agg (effects_enabled v) (canonical_key_published v) (roster_inputs_ready v)
    (roster_proposal_pending v) (key_collector v) (share_collector v) (c4_collector v) (pending_shares v)
    (parked_verdicts v) (share_decryption_data v) (c4_verification_shares v) (keyshare_publish v)
    (decryption_share_request v) (decryption_proof_request v) (stopped v).

(** The names of events and stored payloads: [EventId::hash] and the length and digest of the
    encoded payload. *)
Class KeyshareHash := {
  dispatch_id : ShareVerificationDispatched → B256;
  payload_ref : ThresholdShareCreated * EventContext → RecoveryPayloadRef }.

Record PartyC4Proofs := mkPartyC4 { c4_sender : PartyId; c4_sk_proof : SignedProofPayload; c4_esm_proofs : list SignedProofPayload }.

Inductive KsOut :=
| ReadyPublished (m : DkgCoordination)
| RosterProposed (m : DkgCoordination)
| CommitmentRosterSelected (party_ids : list PartyId)
| RosterInputsReady
| SharesDispatched (d : ShareVerificationDispatched)
| CalculationRequested (request : CalculateDecryptionKeyRequest)
| C4ProofsPending (p : DecryptionShareProofsPending)
| C4Dispatched (proofs : list PartyC4Proofs) (pre_dishonest : gset PartyId) (preset : BfvPreset) (csize : CiphernodesCommitteeSize)
| KeyshareCreated (pubkey : Bytes) (node : string) (party_id : PartyId) (signed : option SignedProofPayload)
| KsFailed (failed_at_stage : E3Stage) (reason : FailureReason)
| DecryptionShareRequested (correlation_id : Z) (party_id : PartyId) (ciphertexts : list Bytes) (sk_poly_sum : Bytes)
    (es_poly_sum : list Bytes) (params : Bytes) (n m : nat)
| C6ProofPending (p : ShareDecryptionProofPending)
| KeyCollectionFailed (missing : gset PartyId)
| ShareCollectionFailed (missing : gset PartyId)
| SelfSelected (selected : CiphernodeSelected)
| StartShareCollector (total : nat) (own : PartyId) (minimum_external : nat) (schedule : ThresholdShareSchedule)
| ToShareCollector (m : ShareCollector.Message)
| ToKeyCollector (m : KeyCollector.Message)
| StartKeyCollector (total minimum_keys : nat) (own : PartyId) (timeout : option Z)
| StartC4Collector (expected : gset PartyId) (timeout : Z)
| ToC4Collector (m : C4Collector.Message)
| KsErrorReported (e : KsError).

Section Work.
Context `{AlloyOps} `{AddressText} `{KeyshareOps} `{KeyshareHash}.

(** The fields fixed at construction, with the timeouts that the environment shortens. *)
Record KsParams := mkKsParams {
  kp_signer : PrivateKeySigner; kp_interfold : Address; kp_preset : BfvPreset; kp_env : DkgTimeoutPhase → option Z }.

Abbreviation StoredShare := (ThresholdShareCreated * EventContext)%type.

Record Ks := mkKs {
  k_params : KsParams;
  k_state : Persistable ThresholdKeyshareState;
  k_recovery : Persistable RecoveryState;
  (** [recovery_payloads]: the shares in memory and in the store *)
  k_shares : gmap PartyId StoredShare; k_payloads : gmap PartyId StoredShare;
  k_work : Volatile }.

Global Instance ks_state_field : Field Ks ThresholdKeyshareState := {
  fget := k_state;
  fset p a := mkKs (k_params a) p (k_recovery a) (k_shares a) (k_payloads a) (k_work a) }.

Global Instance ks_recovery_field : Field Ks RecoveryState := {
  fget := k_recovery;
  fset p a := mkKs (k_params a) (k_state a) p (k_shares a) (k_payloads a) (k_work a) }.

Global Instance ks_state_laws : FieldLaws Ks ThresholdKeyshareState.
Proof. by split; repeat intros []. Qed.

Global Instance ks_recovery_laws : FieldLaws Ks RecoveryState.
Proof. by split; repeat intros []. Qed.

Definition with_work (f : Volatile → Volatile) (a : Ks) : Ks :=
  mkKs (k_params a) (k_state a) (k_recovery a) (k_shares a) (k_payloads a) (f (k_work a)).

Definition with_shares (mem stored : gmap PartyId StoredShare) (a : Ks) : Ks :=
  mkKs (k_params a) (k_state a) (k_recovery a) mem stored (k_work a).

Local Abbreviation Mon := (M Ks KsOut KsError).

Definition work (f : Volatile → Volatile) : Mon () := modify (with_work f).
Definition get_work : Mon Volatile := a ⇐ get_st; ret (k_work a).
Definition state_get : Mon ThresholdKeyshareState := p_try_get KsPersist.
Definition recovery_get : Mon RecoveryState := p_try_get KsPersist.
Definition mutate_state (f : ThresholdKeyshareState → ThresholdKeyshareState) : Mon () :=
  try_mutate KsPersist (λ k, Ok (f k)).
(** A change of the recovery record also notes the event that caused it. *)
Definition mutate_recovery (ec : EventContext) (f : RecoveryState → RecoveryState) : Mon () :=
  try_mutate KsPersist (λ r, Ok (set_last_ec (Some ec) (f r))).
Definition bus (o : KsOut) : Mon () := publish KsPublish o.

(** [if let Err(error) = publish { undo; return Err(error) }] *)
Definition publish_or (undo : Volatile → Volatile) (o : KsOut) : Mon () := λ w,
  match bus o w with
  | (Ok x, w') => (Ok x, w')
  | (Err e, w') => (Err e, mkWorld (with_work undo (st w')) (refusals w') (out w') (next_id w'))
  end.

Definition is_aggregating (s : KeyshareState) : bool := match s with KAggregatingDecryptionKey _ => true | _ => false end.

Definition is_some_b {A} (o : option A) : bool := match o with Some _ => true | None => false end.

(** ** calculate_decryption_key.rs *)

Definition selected_shares (shares : gmap PartyId StoredShare) (ids : list PartyId) : option (list ThresholdShare) :=
  mapM (λ p, e ← shares !! p; Some (tsc_share e.1)) ids.

Definition proceed_with_decryption_key_calculation (dishonest : option (gset PartyId)) : Mon () :=
  k ⇐ state_get;
  current ⇐ lift (as_aggregating k);
  selected ⇐ ok_or (honest_parties k) NoRoster;
  r ⇐ recovery_get;
  verified ⇐ ok_or (verified_dealer_ids r) NoVerifiedDealers;
  collected ⇐ ok_or (collected_ids r) NoBatch;
  a ⇐ get_st;
  shares ⇐ ok_or (selected_shares (k_shares a) (List.filter (λ p, bool_decide (p ∈ verified) && bool_decide (p ∈ selected))
                    (btree_set collected))) MissingShare;
  csize ⇐ lift (ks_committee_size k);
  plan ⇐ lift (build_decryption_key_plan (kp_preset (k_params a)) (ks_party_id k) csize (ks_params k) (threshold_m k)
                 (threshold_n k) current shares dishonest selected);
  match plan with
  | Insufficient =>
      work (set_pending_shares []) ;;
      bus (KsFailed CommitteeFinalized InsufficientCommitteeMembers)
  | Proceed calc_request sk_request esm_requests honest_party_ids =>
      _ ⇐ new_correlation_id;
      mutate_state (with_fixed honest_party_ids) ;;
      work (set_c4_data (Some (sk_request, esm_requests))) ;;
      bus (CalculationRequested calc_request)
  end.

(** ** coordinate_roster.rs *)

Definition dkg_roster_is_fixed (v : Volatile) (k : ThresholdKeyshareState) : bool :=
  dkg_roster_fixed k || is_some_b (share_decryption_data v) || negb (is_aggregating (ks_state k)).

Definition maybe_start_c4_for_accepted_roster : Mon () :=
  k ⇐ state_get;
  v ⇐ get_work;
  if negb (effects_enabled v) || negb (is_aggregating (ks_state k)) || is_some_b (share_decryption_data v) then ret tt
  else
    r ⇐ recovery_get;
    match dkg_roster r, dkg_ready r with
    | Some roster, Some own_ready =>
        if ready_contains_roster own_ready roster then proceed_with_decryption_key_calculation None else ret tt
    | _, _ => ret tt
    end.

(** A held roster that could be accepted now. *)
Definition usable_roster (r : RecoveryState) (k : ThresholdKeyshareState) (h : nat) (roster : DkgCoordination) : bool :=
  roster_members_are_live roster (expelled_parties k) && roster_is_supported_by_local_state r roster &&
  (length (dealers roster) =? h).

Definition maybe_publish_roster_inputs_ready : Mon () :=
  v ⇐ get_work;
  if negb (effects_enabled v) || roster_inputs_ready v then ret tt
  else
    k ⇐ state_get;
    if negb (is_aggregating (ks_state k)) then ret tt
    else
      r ⇐ recovery_get;
      if is_some_b (dkg_roster r) then ret tt
      else
        h ⇐ lift (committee_h k);
        if negb (is_some_b (select_ready_roster (eligible_ready_dealers r k) h)) &&
           negb (existsb (usable_roster r k h) (btree_list (pending_rosters r)).*2) then ret tt
        else
          work (set_inputs_ready true) ;;
          publish_or (set_inputs_ready false) RosterInputsReady.

Definition sign (a : Ks) (k : ThresholdKeyshareState) (kind : DkgCoordinationKind) (l : list DkgDealer) : option DkgCoordination :=
  sign_coordination (ks_e3_id k) (kp_interfold (k_params a)) (ks_party_id k) kind l (kp_signer (k_params a)).

Definition propose_dkg_roster : Mon () :=
  k ⇐ state_get;
  v ⇐ get_work;
  if negb (effects_enabled v) || negb (is_aggregator v) || roster_proposal_pending v || negb (is_aggregating (ks_state k))
  then ret tt
  else
    r ⇐ recovery_get;
    h ⇐ lift (committee_h k);
    let chosen := match dkg_roster r with
      | Some accepted => if co_party_id accepted =? ks_party_id k then None else Some (dealers accepted)
      | None => select_ready_roster (eligible_ready_dealers r k) h
      end in
    match chosen with
    | None => ret tt
    | Some l =>
        a ⇐ get_st;
        roster ⇐ ok_or (sign a k Roster l) SigningFailed;
        work (set_proposal true) ;;
        publish_or (set_proposal false) (RosterProposed roster)
    end.

Definition roster_party_ids (roster : DkgCoordination) : gset PartyId := list_to_set (dealer_ids (dealers roster)).

Definition accept_dkg_roster (roster : DkgCoordination) (ec : EventContext) : Mon () :=
  k ⇐ state_get;
  let party_ids := roster_party_ids roster in
  r ⇐ recovery_get;
  if bool_decide (ks_party_id k ∈ party_ids) && negb (is_some_and (dkg_ready r) (λ ready, ready_contains_roster ready roster))
  then ret tt
  else
    mutate_recovery ec (λ r, set_pending_rosters (filter (λ kv, kv.1 < co_party_id roster) (pending_rosters r))
                               (set_roster (Some roster) r)) ;;
    work (λ v, set_inputs_ready false (set_proposal false v)) ;;
    v ⇐ get_work;
    let honest := if dkg_roster_is_fixed v k then party_ids else party_ids ∖ expelled_parties k in
    mutate_state (with_honest (Some honest)) ;;
    bus (CommitmentRosterSelected (btree_set party_ids)) ;;
    maybe_start_c4_for_accepted_roster.

(** The roster that can be accepted: of an eligible proposer below the accepted one, live and
    supported; the smallest proposer first. *)
Definition acceptable (r : RecoveryState) (k : ThresholdKeyshareState) (active proposer : PartyId) (roster : DkgCoordination) : bool :=
  (proposer <=? active) && is_none_or (co_party_id <$> dkg_roster r) (λ accepted, proposer <? accepted) &&
  roster_members_are_live roster (expelled_parties k) && roster_is_supported_by_local_state r roster.

Definition maybe_accept_pending_roster (ec : EventContext) : Mon bool :=
  v ⇐ get_work;
  match active_aggregator v with
  | None => ret false
  | Some active =>
      r ⇐ recovery_get;
      k ⇐ state_get;
      if is_some_b (dkg_roster r) && dkg_roster_is_fixed v k then ret false
      else
        match List.find (λ kv, acceptable r k active kv.1 kv.2) (btree_list (pending_rosters r)) with
        | None => ret false
        | Some (_, roster) => accept_dkg_roster roster ec ;; ret true
        end
  end.

Definition dealer_le (a b : DkgDealer) : Prop := d_party_id a <= d_party_id b.

Global Instance dealer_le_dec a b : Decision (dealer_le a b).
Proof. unfold dealer_le. apply _. Defined.

Definition dealer_of (e3_id : E3id) (p : PartyId) (m : ThresholdShareCreated) : result DkgDealer KsError :=
  match signed_c2a_proof m, signed_c2b_proof m with
  | Some c2a, Some c2b =>
      match dealer_identity e3_id p (ts_pk_share (tsc_share m)) c2a c2b with Ok d => Ok d | Err _ => Err DealerIdentity end
  | _, _ => Err MissingProofPair
  end.

Fixpoint verified_dealers (e3_id : E3id) (shares : gmap PartyId StoredShare) (ids : list PartyId)
    : result (list DkgDealer) KsError :=
  match ids with
  | [] => Ok []
  | p :: rest =>
      match shares !! p with
      | None => Err MissingShare
      | Some e =>
          let? d := dealer_of e3_id p e.1 in
          let? l := verified_dealers e3_id shares rest in
          Ok (d :: l)
      end
  end.

(** Own C2 proofs and the verified dealers, once all of them are there. *)
Definition own_inputs (r : RecoveryState) (current : AggregatingDecryptionKey)
    : option (SignedProofPayload * SignedProofPayload * gset PartyId) :=
  match share_verification_complete r, signed_sk_share_computation_proof (ag_proofs current),
        signed_e_sm_share_computation_proof (ag_proofs current), verified_dealer_ids r with
  | Some _, Some c2a, Some c2b, Some verified => Some (c2a, c2b, verified)
  | _, _, _, _ => None
  end.

Definition publish_ready (k : ThresholdKeyshareState) (l : list DkgDealer) (ec : EventContext) : Mon () :=
  a ⇐ get_st;
  ready ⇐ ok_or (sign a k Ready l) SigningFailed;
  mutate_recovery ec (λ r, set_ready (<[ks_party_id k := ready]> (ready_by_party r)) (set_own_ready (Some ready) r)) ;;
  v ⇐ get_work;
  (if effects_enabled v
   then bus (ReadyPublished ready) ;; maybe_publish_roster_inputs_ready ;; propose_dkg_roster
   else ret tt) ;;
  maybe_start_c4_for_accepted_roster.

Definition maybe_publish_dkg_ready (ec : EventContext) : Mon () :=
  k ⇐ state_get;
  match ks_state k with
  | KAggregatingDecryptionKey current =>
      r ⇐ recovery_get;
      match own_inputs r current with
      | None => ret tt
      | Some (own_c2a, own_c2b, verified) =>
          selected ⇐ ok_or (rs_selected r) NoFinalizedCommittee;
          own ⇐ ok_or (committee selected !! ks_party_id k) OutsideCommittee;
          own_address ⇐ ok_or (parse_address own) BadAddress;
          a ⇐ get_st;
          ensure (bool_decide (own_address = signer_address (kp_signer (k_params a)))) SignerMismatch ;;
          own_dealer ⇐ lift (match dealer_identity (ks_e3_id k) (ks_party_id k) (ag_pk_share current) own_c2a own_c2b with
                              | Ok d => Ok d | Err _ => Err DealerIdentity end);
          others ⇐ lift (verified_dealers (ks_e3_id k) (k_shares a)
                           (List.filter (λ p, bool_decide (p ∉ expelled_parties k)) (btree_set verified)));
          let l := merge_sort dealer_le (own_dealer :: others) in
          h ⇐ lift (committee_h k);
          if length l <? h then ret tt
          else
            ensure (ascending l) DuplicateDealer ;;
            match dkg_ready r with
            | None => publish_ready k l ec
            | Some existing =>
                match ready_update (dealers existing) l (expelled_parties k) with
                | Extends => publish_ready k l ec
                | Unchanged => maybe_start_c4_for_accepted_roster
                | DropsLiveDealer _ => ret tt
                end
            end
      end
  | _ => ret tt
  end.

Definition handle_aggregator_changed (change : AggregatorChanged) (ec : EventContext) : Mon () :=
  k ⇐ state_get;
  if negb (bool_decide (ac_e3_id change = ks_e3_id k)) then ret tt
  else
    ensure (Bool.eqb (ac_is_aggregator change) (bool_decide (ac_active_party_id change = Some (ks_party_id k)))) RoleMismatch ;;
    work (set_role (ac_active_party_id change) (ac_is_aggregator change)) ;;
    mutate_recovery ec (set_aggregator (ac_active_party_id change) (ac_is_aggregator change)) ;;
    _ ⇐ maybe_accept_pending_roster ec;
    v ⇐ get_work;
    if effects_enabled v && is_aggregator v then maybe_publish_roster_inputs_ready ;; propose_dkg_roster else ret tt.

(** The held updates of one reporter after the current expulsions: the report that now applies,
    and the updates that stay. *)
Definition settle_reporter (r : RecoveryState) (expelled : gset PartyId) (reporter : PartyId) (held : list DkgCoordination)
    : option DkgCoordination * list DkgCoordination :=
  if bool_decide (reporter ∈ expelled) then (None, [])
  else settle_held_updates (ready_by_party r !! reporter) held expelled.

(** The held updates that an entry keeps: the list changes only when updates leave it. *)
Definition kept_updates (r : RecoveryState) (expelled : gset PartyId) (reporter : PartyId) (held : list DkgCoordination)
    : option (list DkgCoordination) :=
  let remaining := (settle_reporter r expelled reporter held).2 in
  if bool_decide (reporter ∈ expelled) || negb (length remaining =? length held)
  then match remaining with [] => None | _ => Some remaining end
  else Some held.

Definition apply_settled (expelled : gset PartyId) (r : RecoveryState) : RecoveryState :=
  set_pending_rosters (filter (λ kv, roster_members_are_live kv.2 expelled = true) (pending_rosters r))
    (set_held (map_imap (kept_updates r expelled) (held_ready_updates r))
       (set_ready (map_imap (λ reporter held, (settle_reporter r expelled reporter held).1) (held_ready_updates r)
                     ∪ ready_by_party r) r)).

(** Whether anything changes. *)
Definition settles (expelled : gset PartyId) (r : RecoveryState) : bool :=
  existsb (λ '(reporter, held),
    let '(current, remaining) := settle_reporter r expelled reporter held in
    is_some_b current || bool_decide (reporter ∈ expelled) || negb (length remaining =? length held))
    (map_to_list (held_ready_updates r)) ||
  existsb (λ roster, negb (roster_members_are_live roster expelled)) (map_to_list (pending_rosters r)).*2.

Definition apply_held_ready_updates (ec : EventContext) : Mon () :=
  k ⇐ state_get;
  if negb (share_collection_is_open (ks_state k)) then ret tt
  else
    r ⇐ recovery_get;
    if negb (settles (expelled_parties k) r) then ret tt
    else
      mutate_recovery ec (apply_settled (expelled_parties k)) ;;
      _ ⇐ maybe_accept_pending_roster ec;
      v ⇐ get_work;
      if effects_enabled v then maybe_publish_roster_inputs_ready ;; propose_dkg_roster else ret tt.

(** A refused update is kept once, and the oldest leaves when there are too many. *)
Definition hold_update (limit : nat) (m : DkgCoordination) (held : list DkgCoordination) : list DkgCoordination :=
  if existsb (λ c, bool_decide (dealers c = dealers m)) held then held
  else let held := held ++ [m] in if limit <? length held then drop 1 held else held.

Definition record_ready (m : DkgCoordination) (limit : nat) (expelled : gset PartyId) (ec : EventContext) : Mon () :=
  r ⇐ recovery_get;
  let update := (λ existing, ready_update (dealers existing) (dealers m) expelled) <$> ready_by_party r !! co_party_id m in
  let replace := is_none_or update (λ u, bool_decide (u = Extends)) in
  let hold := bool_decide (update = Some (DropsLiveDealer true)) in
  mutate_recovery ec (λ r,
    if replace then set_ready (<[co_party_id m := m]> (ready_by_party r)) r
    else if hold then
      set_held (<[co_party_id m := hold_update limit m (default [] (held_ready_updates r !! co_party_id m))]>
                 (held_ready_updates r)) r
    else r) ;;
  (if replace then apply_held_ready_updates ec else ret tt) ;;
  _ ⇐ maybe_accept_pending_roster ec;
  ret tt.

Definition record_roster (m : DkgCoordination) (k : ThresholdKeyshareState) (ec : EventContext) : Mon () :=
  r ⇐ recovery_get;
  v ⇐ get_work;
  let outranked := match dkg_roster r with
    | None => false
    | Some existing => bool_decide (dealers existing = dealers m) || dkg_roster_is_fixed v k ||
                       (co_party_id existing <=? co_party_id m)
    end in
  if outranked then ret tt
  else
    mutate_recovery ec (λ r,
      if is_none_or (pending_rosters r !! co_party_id m) (λ held,
           negb (roster_is_supported_by_local_state r held) || negb (roster_members_are_live held (expelled_parties k)))
      then set_pending_rosters (<[co_party_id m := m]> (pending_rosters r)) r
      else r) ;;
    accepted ⇐ maybe_accept_pending_roster ec;
    if accepted then ret tt else maybe_publish_roster_inputs_ready.

Definition record_dkg_coordination (m : DkgCoordination) (ec : EventContext) : Mon () :=
  k ⇐ state_get;
  a ⇐ get_st;
  if negb (bool_decide (co_e3_id m = ks_e3_id k)) || negb (bool_decide (co_interfold_address m = kp_interfold (k_params a)))
  then ret tt
  else
    r ⇐ recovery_get;
    selected ⇐ ok_or (rs_selected r) NoFinalizedCommittee;
    match committee selected !! co_party_id m with
    | None => ret tt
    | Some expected =>
        expected ⇐ ok_or (parse_address expected) BadAddress;
        if negb (bool_decide (coordination_recover_address m = Some expected)) ||
           negb (has_canonical_dealers m (length (committee selected))) then ret tt
        else
          h ⇐ lift (committee_h k);
          match co_kind m with
          | Ready =>
              if (length (dealers m) <? h) || bool_decide (co_party_id m ∈ expelled_parties k) ||
                 negb (existsb (λ d, d_party_id d =? co_party_id m) (dealers m)) then ret tt
              else record_ready m (length (committee selected)) (expelled_parties k) ec
          | Roster =>
              if bool_decide (co_party_id m ∈ expelled_parties k) || negb (length (dealers m) =? h) ||
                 existsb (λ d, bool_decide (d_party_id d ∈ expelled_parties k)) (dealers m) then ret tt
              else record_roster m k ec
          end
    end.

(** [InterfoldEventData::DkgCoordination] *)
Definition on_dkg_coordination (m : DkgCoordination) (ec : EventContext) : Mon () :=
  record_dkg_coordination m ec ;;
  v ⇐ get_work;
  if bool_decide (co_kind m = Ready) && effects_enabled v then maybe_publish_roster_inputs_ready ;; propose_dkg_roster
  else ret tt.
End Work.
