(* ===== verification/KeyshareShares.v ===== *)
(** * Threshold keyshare actor: shares and publication

    The rest of the handlers of [ThresholdKeyshare] around the C2/C3 batch
    (effects/verify_threshold_shares.rs, effects/recovery.rs), the start of its collectors
    (effects/coordinate_collectors.rs), the signed proofs of this node (effects/track_proofs.rs)
    and C4 up to the publication of the keyshare (effects/verify_decryption_key.rs,
    validation.rs). *)

From S2P Require Import Prelude Events CommitmentLinks NodeRegistry Actor Orchestration CanonicalKeys KeyshareTiming KeyshareEvents KeyCollector C4Collector ShareCollector DkgRoster Keyshare ReadyReports KeyshareWork.
Local Open Scope nat_scope.

Definition MAX_PARKED_SHARE_VERDICTS : nat := 64.

Definition is_some_map {K V} `{Countable K} (m : gmap K V) (k : K) : bool := is_some_b (m !! k).

Section Shares.
Context `{AlloyOps} `{AddressText} `{DkgBytes} `{KeyshareOps} `{KeyshareHash}.
Local Abbreviation Mon := (M Ks KsOut KsError).

(** A collector message that can find the mailbox full. *)
Definition try_send (o : KsOut) : Mon () := publish KsMailbox o.

(** ** verify_decryption_key.rs: publication of the keyshare *)

Definition keyshare_created_fields (s : KeyshareState) : option (Bytes * option SignedProofPayload) :=
  match s with
  | KReadyForDecryption d => Some (rd_pk_share d, signed_pk_generation_proof (rd_proofs d))
  | KDecrypting d => Some (dc_pk_share d, signed_pk_generation_proof (dc_proofs d))
  | _ => None
  end.

Definition publish_keyshare_created (ec : EventContext) : Mon () :=
  k ⇐ state_get;
  match keyshare_created_fields (ks_state k) with
  | None => work (set_publish true)
  | Some (pk_share, signed) =>
      mutate_recovery ec (set_authorized true) ;;
      match signed with
      | None => work (set_publish true)
      | Some _ =>
          bus (KeyshareCreated pk_share (ks_address k) (ks_party_id k) signed) ;;
          mutate_state with_published
      end
  end.

Definition try_finish_deferred_keyshare_publish (ec : EventContext) : Mon () :=
  v ⇐ get_work;
  if negb (keyshare_publish v) then ret tt
  else
    k ⇐ state_get;
    match keyshare_created_fields (ks_state k) with
    | Some (_, Some _) => work (set_publish false) ;; publish_keyshare_created ec
    | _ => ret tt
    end.

(** The parties that fail C4 leave the honest set. *)
Definition retain_honest (dishonest : gset PartyId) (k : ThresholdKeyshareState) : ThresholdKeyshareState :=
  with_honest ((λ h, h ∖ dishonest) <$> honest_parties k) k.

Definition honest_count (k : ThresholdKeyshareState) : nat :=
  match honest_parties k with Some h => size h | None => 0 end.

(** Publish when more than T honest parties are left, or fail the E3. *)
Definition publish_with_honest_majority (ec : EventContext) : Mon () :=
  k ⇐ state_get;
  if honest_count k <=? threshold_m k then bus (KsFailed CommitteeFinalized InsufficientCommitteeMembers)
  else publish_keyshare_created ec.

Definition c4_proofs_of (expected_esm : nat) (shares : gmap PartyId DecryptionKeyShared) : list PartyC4Proofs :=
  omap (λ '(p, s), if length (signed_e_sm_decryption_proofs s) =? expected_esm
                   then Some (mkPartyC4 p (signed_sk_decryption_proof s) (signed_e_sm_decryption_proofs s)) else None)
    (btree_list shares).

Definition c4_wrong_count (expected_esm : nat) (shares : gmap PartyId DecryptionKeyShared) : gset PartyId :=
  dom (filter (λ kv, length (signed_e_sm_decryption_proofs kv.2) ≠ expected_esm) shares).

Definition dispatch_c4_verification (shares : gmap PartyId DecryptionKeyShared) (ec : EventContext) : Mon () :=
  k ⇐ state_get;
  ready ⇐ lift (as_ready k);
  let expected_esm := length (rd_es_poly_sum ready) in
  let wrong := c4_wrong_count expected_esm shares in
  let proofs := c4_proofs_of expected_esm shares in
  (if bool_decide (wrong = ∅) then ret tt else mutate_state (retain_honest wrong)) ;;
  match proofs with
  | [] => publish_with_honest_majority ec
  | _ =>
      csize ⇐ lift (ks_committee_size k);
      a ⇐ get_st;
      bus (C4Dispatched proofs wrong (kp_preset (k_params a)) csize)
  end.

(** ** recovery.rs: recorded inputs *)

Definition record_encryption_key (e : EncryptionKeyCreated) (ec : EventContext) : Mon () :=
  mutate_recovery ec (λ r, set_encryption_keys (or_insert (ek_party_id (ekc_key e)) e (encryption_keys r)) r).

Definition record_threshold_share (m : ThresholdShareCreated) (ec : EventContext) : Mon () :=
  a ⇐ get_st;
  let p := ts_party_id (tsc_share m) in
  match k_shares a !! p with
  | Some existing => ensure (bool_decide (existing.1 = m)) ConflictingShare
  | None =>
      call KsPayloadWrite ;;
      modify (λ a, with_shares (k_shares a) (<[p := (m, ec)]> (k_payloads a)) a) ;;
      mutate_recovery ec (λ r, set_share_refs (or_insert p (payload_ref (m, ec)) (threshold_share_refs r)) r) ;;
      modify (λ a, with_shares (or_insert p (m, ec) (k_shares a)) (k_payloads a) a)
  end.

(** A new batch replaces the recorded one when none is under verification and it extends it. *)
Definition batch_accepted (r : RecoveryState) (ids expelled : gset PartyId) : bool :=
  match collected_ids r with
  | None => true
  | Some existing => is_some_b (share_verification_complete r) && batch_grows existing ids expelled
  end.

Definition record_collected_threshold_shares (ids : gset PartyId) (ec : EventContext) : Mon bool :=
  k ⇐ state_get;
  if negb (share_collection_is_open (ks_state k)) then ret false
  else
    r ⇐ recovery_get;
    let accepted := batch_accepted r ids (expelled_parties k) in
    mutate_recovery ec (λ r,
      if batch_accepted r ids (expelled_parties k)
      then set_dispatch_ids [] (set_share_verdict None (set_collected (Some ids) r)) else r) ;;
    ret accepted.

Definition received_proofs (m : ThresholdShareCreated) : ReceivedShareProofs :=
  mkProofs (signed_c2a_proof m) (signed_c2b_proof m) (signed_c3a_proofs m) (signed_c3b_proofs m).

Abbreviation Batch := (list (ThresholdShare * ReceivedShareProofs)).

Definition rebuild_collected_threshold_shares (r : RecoveryState) (ids : gset PartyId)
    (shares : gmap PartyId (ThresholdShareCreated * EventContext)) : option Batch :=
  mapM (λ p, _ ← threshold_share_refs r !! p; e ← shares !! p; Some (tsc_share e.1, received_proofs e.1)) (btree_set ids).

Definition record_decryption_key_share (m : DecryptionKeyShared) (ec : EventContext) : Mon () :=
  mutate_recovery ec (λ r, set_key_shares (or_insert (dks_party_id m) m (decryption_key_shares r)) r).

Definition record_share_verification (e : ShareVerificationComplete) (ec : EventContext) : Mon () :=
  match svc_kind e with
  | ShareProofs =>
      r ⇐ recovery_get;
      k ⇐ state_get;
      collected ⇐ ok_or (collected_ids r) NoBatch;
      mutate_recovery ec (λ r, set_share_verdict (Some (e, ec))
        (set_verified (Some (collected ∖ dishonest_parties e ∖ expelled_parties k)) r))
  | DecryptionProofs => mutate_recovery ec (set_c4_verdict (Some (e, ec)))
  | _ => mutate_recovery ec id
  end.

(** ** verify_threshold_shares.rs *)

Definition c3_targets_public_key (signals expected : Bytes) : bool :=
  bool_decide (extract_input (input_layout ShareEncryption) signals "expected_pk_commitment" = Some expected).

(** What the local checks say of one dealer. *)
Inductive Precheck := OwnShare | PreDishonest | ToVerify (proofs : list SignedProofPayload).

Definition precheck (own_party_id : PartyId) (own_pk : Bytes) (expected_c3a expected_c3b expected_num_esi : nat)
    (share : ThresholdShare) (proofs : ReceivedShareProofs) : Precheck :=
  if ts_party_id share =? own_party_id then OwnShare
  else
    match rp_c2a proofs, rp_c2b proofs with
    | Some c2a, Some c2b =>
        if (length (rp_c3a proofs) =? expected_c3a) && (length (rp_c3b proofs) =? expected_c3b) &&
           (length (esi_sss share) =? expected_num_esi) &&
           forallb (λ s, c3_targets_public_key (public_signals (pp_proof (payload s))) own_pk) (rp_c3a proofs ++ rp_c3b proofs)
        then ToVerify (c2a :: c2b :: rp_c3a proofs ++ rp_c3b proofs)
        else PreDishonest
    | _, _ => PreDishonest
    end.

Definition to_verify (check : ThresholdShare → ReceivedShareProofs → Precheck) (batch : Batch) : list PartyProofsToVerify :=
  omap (λ '(share, proofs), match check share proofs with
    | ToVerify signed => Some (mkPartyProofs (ts_party_id share) signed) | _ => None end) batch.

Definition pre_dishonest_of (check : ThresholdShare → ReceivedShareProofs → Precheck) (batch : Batch) : gset PartyId :=
  list_to_set (omap (λ '(share, proofs), match check share proofs with
    | PreDishonest => Some (ts_party_id share) | _ => None end) batch).

Definition add_dispatch (id : B256) (r : RecoveryState) : RecoveryState :=
  if bool_decide (id ∈ share_dispatch_ids r) then r else set_dispatch_ids (share_dispatch_ids r ++ [id]) r.

Definition batch_ids (batch : Batch) : gset PartyId := list_to_set ((λ s, ts_party_id s.1) <$> batch).

(** The local checks of the batch against this node's own key and shares. *)
Definition check_batch (k : ThresholdKeyshareState) (r : RecoveryState) (batch : Batch)
    : result (list PartyProofsToVerify * gset PartyId) KsError :=
  let? own_c0 := or_err (e ← encryption_keys r !! ks_party_id k; ek_signed_payload (ekc_key e)) NoOwnC0 in
  let? own_pk := or_err (extract_output (output_layout PkBfv) (public_signals (pp_proof (payload own_c0))) "pk_commitment")
                   NoPkCommitment in
  let? current := as_aggregating k in
  let? own_sk := or_err (read_own_share (own_sk_share_raw current)) OwnShareUnreadable in
  let? own_esi := or_err (mapM read_own_share (own_esi_shares_raw current)) OwnShareUnreadable in
  let check := precheck (ks_party_id k) own_pk (length own_sk) (sum_list_with length own_esi) (length own_esi) in
  Ok (to_verify check batch, pre_dishonest_of check batch).

Definition live_shares (k : ThresholdKeyshareState) (batch : Batch) : Batch :=
  List.filter (λ s, bool_decide (ts_party_id s.1 ∉ expelled_parties k)) batch.

(** A batch that completes before this node's own shares waits for them. *)
Definition waits_for_own_shares (s : KeyshareState) : bool :=
  match s with KCollectingEncryptionKeys _ | KGeneratingThresholdShare _ => true | _ => false end.

(** Verification of a recorded batch; [resume] continues with a verdict that waits for the
    dispatch. *)
Definition verify_batch (resume : ShareVerificationComplete * EventContext → Mon ()) (batch : Batch) (ec : EventContext) : Mon () :=
  k ⇐ state_get;
  if waits_for_own_shares (ks_state k) then ret tt
  else
    r ⇐ recovery_get;
    a ⇐ get_st;
    let batch := live_shares k batch in
    checked ⇐ lift (check_batch k r batch);
    work (set_pending_shares batch.*1) ;;
    csize ⇐ lift (ks_committee_size k);
    let dispatch := mkDispatched (ks_e3_id k) ShareProofs checked.1 checked.2 (kp_preset (k_params a)) csize in
    bus (SharesDispatched dispatch) ;;
    let id := dispatch_id dispatch in
    mutate_recovery ec (add_dispatch id) ;;
    v ⇐ get_work;
    match parked_verdicts v !! id with
    | None => ret tt
    | Some verdict => work (λ v, set_parked (delete id (parked_verdicts v)) v) ;; resume verdict
    end.

Definition handle_share_verification_complete (msg : ShareVerificationComplete) (ec : EventContext) : Mon () :=
  k ⇐ state_get;
  match svc_kind msg with
  | ShareProofs =>
      if bool_decide (dishonest_parties msg = ∅) then maybe_publish_dkg_ready ec
      else
        h ⇐ lift (committee_h k);
        r ⇐ recovery_get;
        let count := match verified_dealer_ids r with Some ids => size ids + 1 | None => 1 end in
        if count <? h then work (set_pending_shares []) else maybe_publish_dkg_ready ec
  | DecryptionProofs =>
      if bool_decide (dishonest_parties msg = ∅) then publish_keyshare_created ec
      else mutate_state (retain_honest (dishonest_parties msg)) ;; publish_with_honest_majority ec
  | _ => ret tt
  end.

Definition dispatch_expanded (verify : Batch → EventContext → Mon ()) (ec : EventContext) : Mon () :=
  k ⇐ state_get;
  if negb (is_aggregating (ks_state k)) then ret tt
  else
    r ⇐ recovery_get;
    if is_some_b (dkg_roster r) || negb (is_some_b (share_verification_complete r)) then ret tt
    else
      let available := dom (threshold_share_refs r) ∖ expelled_parties k in
      if negb (batch_grows (default ∅ (collected_ids r)) available (expelled_parties k)) then ret tt
      else
        a ⇐ get_st;
        batch ⇐ ok_or (rebuild_collected_threshold_shares r available (k_shares a)) MissingShare;
        accepted ⇐ record_collected_threshold_shares (batch_ids batch) ec;
        if accepted then verify batch ec else ret tt.

Definition apply_verdict (verify : Batch → EventContext → Mon ()) (verdict : ShareVerificationComplete * EventContext) : Mon () :=
  record_share_verification verdict.1 verdict.2 ;;
  handle_share_verification_complete verdict.1 verdict.2 ;;
  dispatch_expanded verify verdict.2.

(** Each round takes a parked verdict. *)
Fixpoint verify_loop (fuel : nat) (batch : Batch) (ec : EventContext) : Mon () :=
  match fuel with
  | O => ret tt
  | S fuel => verify_batch (apply_verdict (verify_loop fuel)) batch ec
  end.

Definition handle_all_threshold_shares_collected (batch : Batch) (ec : EventContext) : Mon () := λ w,
  verify_loop (S (size (parked_verdicts (k_work (st w))))) batch ec w.

Definition apply_share_verification : ShareVerificationComplete * EventContext → Mon () :=
  apply_verdict handle_all_threshold_shares_collected.

Definition dispatch_expanded_threshold_share_batch : EventContext → Mon () :=
  dispatch_expanded handle_all_threshold_shares_collected.

(** [Handler<TypedEvent<AllThresholdSharesCollected>>] *)
Definition on_shares_collected (batch : Batch) (ec : EventContext) : Mon () :=
  accepted ⇐ record_collected_threshold_shares (batch_ids batch) ec;
  if accepted then handle_all_threshold_shares_collected batch ec else ret tt.

Definition verify_recorded_threshold_shares (ec : EventContext) : Mon () :=
  r ⇐ recovery_get;
  match collected_ids r, share_verification_complete r with
  | Some ids, None =>
      a ⇐ get_st;
      batch ⇐ ok_or (rebuild_collected_threshold_shares r ids (k_shares a)) MissingShare;
      handle_all_threshold_shares_collected batch ec
  | _, _ => ret tt
  end.

Definition share_verification_applies (msg : ShareVerificationComplete) (ec : EventContext) : Mon bool :=
  if negb (bool_decide (svc_kind msg = ShareProofs)) then ret true
  else
    k ⇐ state_get;
    v ⇐ get_work;
    if canonical_key_published v || negb (share_collection_is_open (ks_state k)) then ret false
    else
      r ⇐ recovery_get;
      let id := causation_id ec in
      if is_some_b (collected_ids r) && bool_decide (id ∈ share_dispatch_ids r) then ret true
      else if (MAX_PARKED_SHARE_VERDICTS <=? size (parked_verdicts v)) && negb (is_some_map (parked_verdicts v) id) then ret false
      else work (λ v, set_parked (or_insert id (msg, ec) (parked_verdicts v)) v) ;; ret false.

(** [Handler<TypedEvent<ShareVerificationComplete>>] *)
Definition on_share_verification (msg : ShareVerificationComplete) (ec : EventContext) : Mon () :=
  applies ⇐ share_verification_applies msg ec;
  if applies then apply_share_verification (msg, ec) else ret tt.

Definition record_logged_share_dispatch (d : ShareVerificationDispatched) (ec : EventContext) : Mon () :=
  k ⇐ state_get;
  if negb (bool_decide (svd_kind d = ShareProofs)) || negb (bool_decide (svd_e3_id d = ks_e3_id k)) then ret tt
  else
    r ⇐ recovery_get;
    match collected_ids r with
    | None => ret tt
    | Some batch =>
        let verified := list_to_set (sender_party_id <$> Orchestration.share_proofs d) ∪ pre_dishonest d in
        if negb (bool_decide (ctx_id ec ∈ share_dispatch_ids r)) &&
           negb (dispatch_verifies_batch verified (batch ∖ {[ks_party_id k]}) (expelled_parties k)) then ret tt
        else mutate_recovery ec (add_dispatch (ctx_id ec))
    end.

(** ** track_proofs.rs: the signed proofs of this node *)

Definition set_c1 (signed : SignedProofPayload) (p : KeptProofs) : KeptProofs :=
  mkKept (Some signed) (signed_sk_share_computation_proof p) (signed_e_sm_share_computation_proof p)
    (signed_sk_share_encryption_proofs p) (signed_e_sm_share_encryption_proofs p).

Definition store_signed_pk_generation_proof (signed : SignedProofPayload) : Mon () :=
  mutate_state (λ k,
    match ks_state k with
    | KAggregatingDecryptionKey d => with_state (KAggregatingDecryptionKey
        (mkAggregating (ag_pk_share d) (ag_sk_bfv d) (own_sk_share_raw d) (own_esi_shares_raw d) (set_c1 signed (ag_proofs d)))) k
    | KReadyForDecryption d => with_state (KReadyForDecryption
        (mkReady (rd_pk_share d) (rd_sk_poly_sum d) (rd_es_poly_sum d) (set_c1 signed (rd_proofs d)))) k
    | KDecrypting d => with_state (KDecrypting
        (mkDecrypting (dc_pk_share d) (dc_sk_poly_sum d) (dc_es_poly_sum d) (dc_ciphertext_output d) (set_c1 signed (dc_proofs d)))) k
    | _ => k
    end).

Definition handle_pk_generation_proof_signed (party_id : PartyId) (signed : SignedProofPayload) (ec : EventContext) : Mon () :=
  k ⇐ state_get;
  if negb (party_id =? ks_party_id k) then ret tt
  else store_signed_pk_generation_proof signed ;; try_finish_deferred_keyshare_publish ec.

Definition push_new (x : SignedProofPayload) (l : list SignedProofPayload) : list SignedProofPayload :=
  if bool_decide (x ∈ l) then l else l ++ [x].

Definition keep_proof (ty : ProofType) (x : SignedProofPayload) (p : KeptProofs) : KeptProofs :=
  let '(mkKept c1 c2a c2b c3a c3b) := p in
  match ty with
  | C2aSkShareComputation => mkKept c1 (Some x) c2b c3a c3b
  | C2bESmShareComputation => mkKept c1 c2a (Some x) c3a c3b
  | C3aSkShareEncryption => mkKept c1 c2a c2b (push_new x c3a) c3b
  | C3bESmShareEncryption => mkKept c1 c2a c2b c3a (push_new x c3b)
  | _ => p
  end.

Definition handle_share_computation_proof_signed (party_id : PartyId) (signed : SignedProofPayload) (ec : EventContext) : Mon () :=
  k ⇐ state_get;
  if negb (party_id =? ks_party_id k) || negb (is_aggregating (ks_state k)) then ret tt
  else
    try_mutate KsPersist (λ k,
      let? d := as_aggregating k in
      new_state k (KAggregatingDecryptionKey (mkAggregating (ag_pk_share d) (ag_sk_bfv d) (own_sk_share_raw d)
        (own_esi_shares_raw d) (keep_proof (pp_proof_type (payload signed)) signed (ag_proofs d))))) ;;
    maybe_publish_dkg_ready ec.
End Shares.
