(* ===== verification/KeyshareActor.v ===== *)
(** * Threshold keyshare actor: messages

    The start of the collectors and expulsions (effects/coordinate_collectors.rs), the end of the
    decryption-key calculation (effects/calculate_decryption_key.rs), C4 shares
    (effects/verify_decryption_key.rs, validation.rs), decryption
    (effects/create_decryption_share.rs), what resumes after a restart (effects/recovery.rs), and
    the dispatch of messages (handlers.rs, effects/route_events.rs).

    A message carries what its handler reads from outside: the clock and the canonical keys of
    the node.  Key and share generation before [AggregatingDecryptionKey] is not modelled: a
    [Generated] message stores the phase that it produces.  The recorded keys and C4 shares are
    kept without the contexts of their events: a replay sends them with the context of the resume. *)

From S2P Require Import Prelude Events CommitmentLinks NodeRegistry Actor Orchestration CanonicalKeys KeyshareTiming KeyshareEvents KeyCollector C4Collector ShareCollector DkgRoster Keyshare ReadyReports KeyshareWork KeyshareShares.
Local Open Scope nat_scope.

Definition DECRYPTION_REDELIVERY_DELAY : Z := 300%Z.
Definition MAX_DECRYPTION_REDELIVERIES : nat := 6.

Global Instance RecoveryPayloadRef_eq_dec : EqDecision RecoveryPayloadRef.
Proof. solve_decision. Defined.

(** ** validation.rs *)

Inductive DecryptionKeyShareRejection := UnsignedDealer | ExpelledDealer | InvalidSender | OutsideHonestCommittee | CollectionComplete.

Section Handlers.
Context `{AlloyOps} `{AddressText} `{DkgBytes} `{KeyshareOps} `{KeyshareHash} `{KeyCheck}.
Local Abbreviation Mon := (M Ks KsOut KsError).

Definition c4_collection_complete (k : ThresholdKeyshareState) (r : RecoveryState) : bool :=
  keyshare_published k || is_some_b (decryption_verification_complete r) ||
  is_some_and (honest_parties k) (λ parties,
    forallb (λ p, (p =? ks_party_id k) || is_some_map (decryption_key_shares r) p) (elements parties)).

Definition admit_peer_decryption_key_share (share : DecryptionKeyShared) (dealer : option Address)
    (k : ThresholdKeyshareState) (r : RecoveryState) (collector_running : bool) : result () DecryptionKeyShareRejection :=
  let signed := match dealer with
    | Some address => bool_decide (key_share_recover_address share = Some address) &&
                      bool_decide (parse_address (dks_node share) = Some address)
    | None => false
    end in
  if negb signed then Err UnsignedDealer
  else if bool_decide (dks_party_id share ∈ expelled_parties k) then Err ExpelledDealer
  else if (threshold_n k <=? dks_party_id share) || (dks_party_id share =? ks_party_id k) then Err InvalidSender
  else if is_some_and (honest_parties k) (λ parties, bool_decide (dks_party_id share ∉ parties)) then Err OutsideHonestCommittee
  else match ks_state k with
       | KReadyForDecryption _ =>
           if negb collector_running && c4_collection_complete k r then Err CollectionComplete else Ok tt
       | _ => Ok tt
       end.

(** ** coordinate_collectors.rs *)

(** The finalized committee member of a dealer slot. *)
Definition dkg_dealer_address (e3_id : E3id) (p : PartyId) : Mon (option Address) :=
  k ⇐ state_get;
  if negb (bool_decide (e3_id = ks_e3_id k)) then ret None
  else r ⇐ recovery_get; ret (selected ← rs_selected r; member ← committee selected !! p; parse_address member).

Definition timing {A} (r : result A TimingError) : Mon A := match r with Ok x => ret x | Err _ => fail TimingFault end.

Definition dealers_without_key (k : ThresholdKeyshareState) (r : RecoveryState) : option (gset PartyId) :=
  let missing keyed :=
    if bool_decide (ks_party_id k ∈ keyed)
    then Some (list_to_set (seq 0 (threshold_n k)) ∖ {[ks_party_id k]} ∖ keyed ∖ expelled_parties k) else None in
  match ks_state k with
  | KGeneratingThresholdShare d => missing (dom (encryption_keys r) ∪ list_to_set (ek_party_id <$> collected_encryption_keys d))
  | KAggregatingDecryptionKey _ => missing (dom (encryption_keys r))
  | _ => None
  end.

Definition send_dealers_without_key : Mon () :=
  attempt (
    k ⇐ state_get;
    r ⇐ recovery_get;
    match dealers_without_key k r with
    | Some ids => if bool_decide (ids = ∅) then ret tt else try_send (ToShareCollector (DealersWithoutKey ids))
    | None => ret tt
    end).

Definition share_message (e : ThresholdShareCreated * EventContext) : KsOut :=
  ToShareCollector (ShareCreated (tsc_share e.1) (received_proofs e.1) e.2).

Definition ensure_collector (ec : EventContext) (now : Z) : Mon () :=
  k ⇐ state_get;
  h ⇐ lift (committee_h k);
  a ⇐ get_st;
  schedule ⇐ timing (resolve_threshold_share_schedule (kp_env (k_params a)) (dkg_deadline k) (dkg_window k) now);
  if share_collector (k_work a) then ret tt
  else
    emit (StartShareCollector (threshold_n k) (ks_party_id k) (h - 1) schedule) ;;
    work (set_share_collector true) ;;
    for_each (elements (expelled_parties k)) (λ p, try_send (ToShareCollector (ShareCollector.ExpelParty p ec))) ;;
    for_each (btree_list (k_shares a)).*2 (λ e, try_send (share_message e)) ;;
    send_dealers_without_key.

Definition stop_threshold_share_collector : Mon () :=
  v ⇐ get_work;
  (if share_collector v then try_send (ToShareCollector Die) else ret tt) ;;
  work (set_share_collector false).

Definition encryption_key_collector_with_timeout (timeout : option Z) (ec : EventContext) : Mon () :=
  k ⇐ state_get;
  h ⇐ lift (committee_h k);
  v ⇐ get_work;
  if key_collector v then ret tt
  else
    emit (StartKeyCollector (threshold_n k) h (ks_party_id k) timeout) ;;
    work (set_key_collector true) ;;
    for_each (elements (expelled_parties k)) (λ p, try_send (ToKeyCollector (KeyCollector.ExpelParty p ec))).

Definition ensure_encryption_key_collector (ec : EventContext) (now : Z) : Mon () :=
  k ⇐ state_get;
  a ⇐ get_st;
  t ⇐ timing (resolve_timeout (kp_env (k_params a)) EncryptionKeyCollection_ (dkg_deadline k) (dkg_window k) now);
  encryption_key_collector_with_timeout (Some t) ec.

Definition recover_encryption_key_collector (ec : EventContext) (now : Z) : Mon () :=
  k ⇐ state_get;
  a ⇐ get_st;
  t ⇐ timing (resolve_encryption_key_timeout (kp_env (k_params a)) (dkg_deadline k) (dkg_window k) now);
  encryption_key_collector_with_timeout t ec.

Definition others_of (k : ThresholdKeyshareState) (honest : gset PartyId) : gset PartyId := honest ∖ {[ks_party_id k]}.

Definition ensure_decryption_key_shared_collector (now : Z) : Mon () :=
  k ⇐ state_get;
  honest ⇐ ok_or (honest_parties k) NoHonestParties;
  a ⇐ get_st;
  t ⇐ timing (resolve_timeout (kp_env (k_params a)) DecryptionKeySharedCollection_ (dkg_deadline k) (dkg_window k) now);
  if c4_collector (k_work a) then ret tt
  else emit (StartC4Collector (others_of k honest) t) ;; work (set_c4_collector true).

(** [if let Some(collector) { collector.do_send(..) }] *)
Definition tell (running : Volatile → bool) (o : KsOut) : Mon () :=
  v ⇐ get_work; if running v then emit o else ret tt.

(** The result of a computation as a value. *)
Definition capture (m : Mon ()) : Mon (result () KsError) := λ w, let '(r, w') := m w in (Ok r, w').

Definition handle_party_excluded (p : PartyId) (ec : EventContext) : Mon () :=
  recorded ⇐ capture (mutate_state (with_expelled p));
  work (λ v, set_c4_shares (delete p <$> c4_verification_shares v)
               (set_pending_shares (List.filter (λ s, negb (ts_party_id s =? p)) (pending_shares v)) v)) ;;
  tell key_collector (ToKeyCollector (KeyCollector.ExpelParty p ec)) ;;
  tell share_collector (ToShareCollector (ShareCollector.ExpelParty p ec)) ;;
  tell c4_collector (ToC4Collector (C4Collector.ExpelParty p ec)) ;;
  _ ⇐ lift recorded;
  apply_held_ready_updates ec.

Definition receives_shares (s : KeyshareState) : bool :=
  match s with
  | KCollectingEncryptionKeys _ | KGeneratingThresholdShare _ | KAggregatingDecryptionKey _ => true
  | _ => false
  end.

Definition handle_threshold_share_created (m : ThresholdShareCreated) (ec : EventContext) (now : Z) : Mon () :=
  k ⇐ state_get;
  let p := ts_party_id (tsc_share m) in
  if negb (receives_shares (ks_state k)) || negb (target_party_id m =? ks_party_id k) || bool_decide (p ∈ expelled_parties k)
  then ret tt
  else
    expected ⇐ dkg_dealer_address (tsc_e3_id m) p;
    if negb (is_some_b expected) || negb (bool_decide (share_recover_address m = expected)) then ret tt
    else
      record_threshold_share m ec ;;
      late ⇐ timing (past_dkg_deadline (dkg_deadline k) now);
      if (late : bool) then ret tt
      else
        v ⇐ get_work;
        (if effects_enabled v then ensure_collector ec now ;; emit (share_message (m, ec)) else ret tt) ;;
        dispatch_expanded_threshold_share_batch ec.

Definition handle_encryption_key_created (m : EncryptionKeyCreated) (ec : EventContext) (now : Z) : Mon () :=
  k ⇐ state_get;
  match ks_state k with
  | KInit | KCollectingEncryptionKeys _ =>
      if bool_decide (ek_party_id (ekc_key m) ∈ expelled_parties k) then ret tt
      else
        record_encryption_key m ec ;;
        match ks_state k with
        | KInit => ret tt
        | _ =>
            late ⇐ timing (past_phase_cutoff EncryptionKeyCollection_ (dkg_deadline k) (dkg_window k) now);
            v ⇐ get_work;
            if (late : bool) || negb (effects_enabled v) then ret tt
            else ensure_encryption_key_collector ec now ;; emit (ToKeyCollector (KeyCreated (ekc_key m) ec))
        end
  | _ => ret tt
  end.

(** ** calculate_decryption_key.rs: the end of the calculation *)

Definition write_tombstones (n : nat) : Mon () :=
  for_each (seq 0 n) (λ p, call KsPayloadWrite ;; modify (λ a, with_shares (k_shares a) (delete p (k_payloads a)) a)).

Definition enter_ready (sk_poly_sum : Bytes) (es_poly_sum : list Bytes) (k : ThresholdKeyshareState)
    : result ThresholdKeyshareState KsError :=
  let? d := as_aggregating k in
  new_state k (KReadyForDecryption (mkReady (ag_pk_share d) sk_poly_sum es_poly_sum (ag_proofs d))).

Definition handle_calculate_decryption_key_response (sk_poly_sum : Bytes) (es_poly_sum : list Bytes) (ec : EventContext) (now : Z)
    : Mon () :=
  v ⇐ get_work;
  requests ⇐ ok_or (share_decryption_data v) NoPendingC4;
  let early := default ∅ (c4_verification_shares v) in
  k ⇐ state_get;
  let event := mkC4Pending (ks_e3_id k) (ks_party_id k) (ks_address k) requests.1 requests.2 in
  mutate_recovery ec (set_c4_pending (Some (event, ec))) ;;
  try_mutate KsPersist (enter_ready sk_poly_sum es_poly_sum) ;;
  stop_threshold_share_collector ;;
  k ⇐ state_get;
  mutate_recovery ec (λ r, set_dispatch_ids [] (set_collected None (set_share_refs ∅ r))) ;;
  work (set_parked ∅) ;;
  attempt (write_tombstones (threshold_n k)) ;;
  modify (λ a, with_shares ∅ (k_payloads a) a) ;;
  bus (C4ProofsPending event) ;;
  k ⇐ state_get;
  (if bool_decide (others_of k (default ∅ (honest_parties k)) = ∅) then ret tt
   else ensure_decryption_key_shared_collector now ;;
        for_each (btree_list early).*2 (λ share, emit (ToC4Collector (KeyShared share ec)))) ;;
  work (λ v, set_c4_shares None (set_c4_data None v)).

(** ** verify_decryption_key.rs: C4 shares *)

Definition handle_early_decryption_key_share (m : DecryptionKeyShared) : Mon () :=
  k ⇐ state_get;
  if bool_decide (dks_party_id m ∈ expelled_parties k) then ret tt
  else work (λ v, set_c4_shares (Some (or_insert (dks_party_id m) m (default ∅ (c4_verification_shares v)))) v).

Definition handle_own_decryption_key_share (m : DecryptionKeyShared) (ec : EventContext) : Mon () :=
  k ⇐ state_get;
  match ks_state k with
  | KReadyForDecryption _ =>
      if negb (dks_party_id m =? ks_party_id k) || negb (bool_decide (others_of k (default ∅ (honest_parties k)) = ∅)) then ret tt
      else publish_keyshare_created ec
  | _ => ret tt
  end.

Definition handle_decryption_key_shared (m : DecryptionKeyShared) (ec : EventContext) (now : Z) : Mon () :=
  attempt (
    if negb (dks_external m) then handle_own_decryption_key_share m ec
    else
      dealer ⇐ dkg_dealer_address (dks_e3_id m) (dks_party_id m);
      k ⇐ state_get;
      r ⇐ recovery_get;
      v ⇐ get_work;
      match admit_peer_decryption_key_share m dealer k r (c4_collector v) with
      | Err _ => ret tt
      | Ok _ =>
          record_decryption_key_share m ec ;;
          match ks_state k with
          | KAggregatingDecryptionKey _ => handle_early_decryption_key_share m
          | KReadyForDecryption _ =>
              if effects_enabled v
              then ensure_decryption_key_shared_collector now ;; emit (ToC4Collector (KeyShared m ec)) else ret tt
          | _ => ret tt
          end
      end).

(** ** recovery.rs: the public-key context *)

Definition with_key (pk : option Bytes) (domain : option DecryptionDomainContext) (k : ThresholdKeyshareState) : ThresholdKeyshareState :=
  mkKeyshare (ks_e3_id k) (ks_address k) (ks_party_id k) (ks_state k) (threshold_m k) (threshold_n k) (ks_params k)
    pk domain (expelled_parties k) (honest_parties k) (dkg_deadline k) (dkg_window k)
    (keyshare_published k) (dkg_roster_fixed k).

Definition public_key_context_is_recovered (keys : CanonicalKeyState) (a : Ks) (k : ThresholdKeyshareState) : bool :=
  is_some_and (get_key keys (ks_e3_id k)) (λ key,
    bool_decide (ks_domain k = Some (key_domain key (kp_interfold (k_params a)))) &&
    is_some_and (aggregated_pk k) (validate_key key)).

Definition needs_keyshare_republication (keys : CanonicalKeyState) (k : ThresholdKeyshareState) (r : RecoveryState) : bool :=
  negb (is_some_b (get_key keys (ks_e3_id k))) && (keyshare_publish_authorized r || keyshare_published k).

(** ** create_decryption_share.rs *)

Definition as_decrypting (k : ThresholdKeyshareState) : result Decrypting KsError :=
  match ks_state k with KDecrypting d => Ok d | _ => Err InvalidState end.

(** Whether the request was sent: it waits for the public-key context. *)
Definition publish_decryption_share_request (keys : CanonicalKeyState) : Mon bool :=
  k ⇐ state_get;
  a ⇐ get_st;
  if negb (public_key_context_is_recovered keys a k) then ret false
  else
    d ⇐ lift (as_decrypting k);
    id ⇐ new_correlation_id;
    bus (DecryptionShareRequested id (ks_party_id k) (dc_ciphertext_output d) (dc_sk_poly_sum d) (dc_es_poly_sum d)
           (ks_params k) (threshold_n k) (threshold_m k)) ;;
    ret true.

Definition issue_decryption_share_request (keys : CanonicalKeyState) (ec : EventContext) (now : Z) : Mon () :=
  v ⇐ get_work;
  if is_some_b (decryption_share_request v) then ret tt
  else
    sent ⇐ publish_decryption_share_request keys;
    if (sent : bool) then work (set_share_request (Some (mkIssued ec now 0))) else ret tt.

Definition with_request (q : ThresholdShareDecryptionProofRequest) (p : ShareDecryptionProofPending) : ShareDecryptionProofPending :=
  mkC6Pending (sdp_e3_id p) (sdp_party_id p) (sdp_node p) (sdp_decryption_share p) q (sdp_redelivery p).

Definition issue_decryption_proof_request (keys : CanonicalKeyState) (p : ShareDecryptionProofPending) (ec : EventContext) (now : Z)
    : Mon () :=
  v ⇐ get_work;
  if is_some_b (decryption_proof_request v) then ret tt
  else
    k ⇐ state_get;
    match repair_request keys (ks_e3_id k) (sdp_proof_request p) with
    | Err _ => ret tt
    | Ok q =>
        let p := with_request q p in
        mutate_recovery ec (set_c6_pending (Some (p, ec))) ;;
        bus (C6ProofPending p) ;;
        work (set_proof_request (Some (mkIssued ec now 0)))
    end.

Definition resume_decryption_work (keys : CanonicalKeyState) (ec : EventContext) (now : Z) : Mon () :=
  v ⇐ get_work;
  if negb (effects_enabled v) then ret tt
  else
    k ⇐ state_get;
    match ks_state k with
    | KDecrypting _ => issue_decryption_share_request keys ec now
    | KGeneratingDecryptionProof _ | KCompleted =>
        r ⇐ recovery_get;
        match share_decryption_proof_pending r with
        | None => ret tt
        | Some (p, _) => issue_decryption_proof_request keys p ec now
        end
    | _ => ret tt
    end.

Definition admit_public_key (keys : CanonicalKeyState) (pk : Bytes) (ec : EventContext) (now : Z) : Mon () :=
  k ⇐ state_get;
  a ⇐ get_st;
  if public_key_context_is_recovered keys a k then ret tt
  else
    key ⇐ ok_or (get_key keys (ks_e3_id k)) NoKeyContext;
    ensure (validate_key key pk) NoKeyContext ;;
    mutate_state (with_key (Some pk) (Some (key_domain key (kp_interfold (k_params a))))) ;;
    resume_decryption_work keys ec now.

Definition restore_public_key_context (keys : CanonicalKeyState) (ec : EventContext) (now : Z) : Mon () :=
  k ⇐ state_get;
  a ⇐ get_st;
  if public_key_context_is_recovered keys a k then ret tt
  else
    let found := key ← get_key keys (ks_e3_id k);
      match public_key keys (ks_e3_id k) with
      | Some pk => Some pk
      | None => pk ← aggregated_pk k; if validate_key key pk then Some pk else None
      end in
    match found with
    | Some pk => admit_public_key keys pk ec now
    | None =>
        if is_some_b (aggregated_pk k) || is_some_b (ks_domain k) then mutate_state (with_key None None) else ret tt
    end.

Definition handle_public_key_aggregated (keys : CanonicalKeyState) (data : AggregatedKey) (ec : EventContext) (now : Z) : Mon () :=
  match get_key keys (ak_e3_id data) with
  | None => ret tt
  | Some key => if accepts key data then admit_public_key keys (ak_pubkey data) ec now else ret tt
  end.

(** [validation::committee_publication_matches] *)
Definition committee_publication_matches (key : CanonicalPublicKey) (nodes : list string) (pk : Bytes) : bool :=
  bool_decide (mapM parse_address nodes = Some (ck_committee key)) && validate_key key pk.

Definition observe_canonical_stage (e3_id : E3id) (stage : E3Stage) : Mon () :=
  a ⇐ get_st;
  match p_data (k_state a), stage with
  | Some k, (KeyPublished | CiphertextReady | StageComplete) =>
      if bool_decide (ks_e3_id k = e3_id) then work (set_canonical true) else ret tt
  | _, _ => ret tt
  end.

Definition handle_committee_published (keys : CanonicalKeyState) (e3_id : E3id) (nodes : list string) (pk : Bytes)
    (ec : EventContext) (now : Z) : Mon () :=
  if bool_decide (source ec = Net) then ret tt
  else
    observe_canonical_stage e3_id KeyPublished ;;
    match get_key keys e3_id with
    | None => ret tt
    | Some key => if committee_publication_matches key nodes pk then admit_public_key keys pk ec now else ret tt
    end.

Definition enter_decrypting (ciphertexts : list Bytes) (k : ThresholdKeyshareState) : result ThresholdKeyshareState KsError :=
  let? d := as_ready k in
  new_state k (KDecrypting (mkDecrypting (rd_pk_share d) (rd_sk_poly_sum d) (rd_es_poly_sum d) ciphertexts (rd_proofs d))).

Definition handle_ciphertext_output_published (keys : CanonicalKeyState) (ciphertexts : list Bytes) (ec : EventContext) (now : Z)
    : Mon () :=
  k ⇐ state_get;
  match ks_state k with
  | KDecrypting _ => issue_decryption_share_request keys ec now
  | KReadyForDecryption _ =>
      try_mutate KsPersist (enter_decrypting ciphertexts) ;;
      issue_decryption_share_request keys ec now
  | _ => ret tt
  end.

Definition due (now : Z) (w : IssuedDecryptionWork) : bool :=
  (redeliveries w <? MAX_DECRYPTION_REDELIVERIES) && (DECRYPTION_REDELIVERY_DELAY <=? Z.max 0 (now - last_sent w))%Z.

Definition redelivered (now : Z) (w : IssuedDecryptionWork) : IssuedDecryptionWork :=
  mkIssued (issued_ec w) now (S (redeliveries w)).

Definition with_redelivery (x : Z) (p : ShareDecryptionProofPending) : ShareDecryptionProofPending :=
  mkC6Pending (sdp_e3_id p) (sdp_party_id p) (sdp_node p) (sdp_decryption_share p) (sdp_proof_request p) x.

(** [random] is the value of [rand::random]. *)
Definition redeliver_decryption_work (keys : CanonicalKeyState) (now random : Z) : Mon () :=
  v ⇐ get_work;
  if negb (effects_enabled v) then ret tt
  else
    k ⇐ state_get;
    match ks_state k with
    | KDecrypting _ =>
        match decryption_share_request v with
        | Some w =>
            if negb (due now w) then ret tt
            else
              sent ⇐ publish_decryption_share_request keys;
              if (sent : bool) then work (set_share_request (Some (redelivered now w))) else ret tt
        | None => ret tt
        end
    | KGeneratingDecryptionProof _ =>
        match decryption_proof_request v with
        | Some w =>
            if negb (due now w) then ret tt
            else
              r ⇐ recovery_get;
              match share_decryption_proof_pending r with
              | None => ret tt
              | Some (p, _) =>
                  bus (C6ProofPending (with_redelivery (Z.max random 1) p)) ;;
                  work (set_proof_request (Some (redelivered now w)))
              end
        | None => ret tt
        end
    | _ => ret tt
    end.

Definition enter_proof (d : Decrypting) (share : list Bytes) (k : ThresholdKeyshareState) : result ThresholdKeyshareState KsError :=
  new_state k (KGeneratingDecryptionProof (mkGeneratingProof (dc_pk_share d) share (dc_proofs d))).

Definition handle_calculate_decryption_share_response (keys : CanonicalKeyState) (share : list Bytes) (ec : EventContext) (now : Z)
    : Mon () :=
  k ⇐ state_get;
  match ks_state k with
  | KDecrypting d =>
      a ⇐ get_st;
      ensure (public_key_context_is_recovered keys a k) NoKeyContext ;;
      pk ⇐ ok_or (aggregated_pk k) NoKeyContext;
      domain ⇐ ok_or (ks_domain k) NoKeyContext;
      preset ⇐ ok_or (threshold_counterpart (kp_preset (k_params a))) NoThresholdPreset;
      csize ⇐ lift (ks_committee_size k);
      issue_decryption_proof_request keys (mkC6Pending (ks_e3_id k) (ks_party_id k) (ks_address k) share
        (mkC6Request (dc_ciphertext_output d) pk (dc_sk_poly_sum d) (dc_es_poly_sum d) share domain preset csize) 0) ec now ;;
      try_mutate KsPersist (enter_proof d share)
  | _ => ret tt
  end.

Definition handle_decryption_share_proof_signed : Mon () := try_mutate KsPersist (λ k, new_state k KCompleted).

(** ** handlers.rs: failures of collectors *)

Definition collector_failure_is_current (e3_id : E3id) (phase : DkgTimeoutPhase) : Mon bool :=
  k ⇐ state_get;
  v ⇐ get_work;
  if negb (bool_decide (ks_e3_id k = e3_id)) || canonical_key_published v then ret false
  else
    match phase, ks_state k with
    | EncryptionKeyCollection_, (KInit | KCollectingEncryptionKeys _) => ret true
    | ThresholdShareCollection_, s => ret (share_collection_is_open s)
    | DecryptionKeySharedCollection_, KReadyForDecryption _ =>
        if keyshare_published k then ret false
        else r ⇐ recovery_get; ret (negb (keyshare_publish_authorized r) && negb (is_some_b (decryption_verification_complete r)))
    | _, _ => ret false
    end.

(** A collector that ended without its inputs ends the DKG of this node. *)
Definition fail_collection (e3_id : E3id) (phase : DkgTimeoutPhase) (forget : Volatile → Volatile) (reports : list KsOut) : Mon () :=
  current ⇐ collector_failure_is_current e3_id phase;
  if negb (current : bool) then ret tt
  else
    work forget ;;
    try_mutate KsPersist (λ k, new_state k (KFailed CommitteeFinalized DKGTimeout)) ;;
    for_each reports bus ;;
    bus (KsFailed CommitteeFinalized DKGTimeout).

Definition on_c4_collected (shares : gmap PartyId DecryptionKeyShared) (ec : EventContext) : Mon () :=
  work (set_c4_collector false) ;; dispatch_c4_verification shares ec.

(** ** recovery.rs: work that a restart interrupted *)

Definition replay_encryption_keys (ec : EventContext) : Mon () :=
  r ⇐ recovery_get;
  for_each (btree_list (encryption_keys r)).*2 (λ e, try_send (ToKeyCollector (KeyCreated (ekc_key e) ec))) ;;
  try_send (ToKeyCollector KeysReplayed).

Definition replay_threshold_shares (ec : EventContext) (now : Z) : Mon () :=
  a ⇐ get_st;
  if bool_decide (k_shares a = ∅) then ret tt else ensure_collector ec now.

Definition replay_decryption_key_shares (r : RecoveryState) (now : Z) (ec : EventContext) : Mon () :=
  ensure_decryption_key_shared_collector now ;;
  for_each (btree_list (decryption_key_shares r)).*2 (λ m, try_send (ToC4Collector (KeyShared m ec))).

(** In [AggregatingDecryptionKey]: the accepted roster again, or the verdict, or the batch. *)
Definition resume_aggregation (r : RecoveryState) (ec : EventContext) (now : Z) : Mon () :=
  match dkg_roster r with
  | Some roster =>
      accept_dkg_roster roster ec ;;
      if is_some_b (dkg_ready r) then ret tt
      else
        match share_verification_complete r with
        | Some (verdict, vec) =>
            handle_share_verification_complete verdict vec ;; dispatch_expanded_threshold_share_batch ec
        | None => if is_some_b (collected_ids r) then verify_recorded_threshold_shares ec else replay_threshold_shares ec now
        end
  | None =>
      match share_verification_complete r with
      | Some (verdict, vec) =>
          handle_share_verification_complete verdict vec ;;
          dispatch_expanded_threshold_share_batch ec ;;
          r ⇐ recovery_get;
          match dkg_ready r with Some ready => bus (ReadyPublished ready) | None => ret tt end ;;
          propose_dkg_roster
      | None => if is_some_b (collected_ids r) then verify_recorded_threshold_shares ec else replay_threshold_shares ec now
      end
  end.

(** In [ReadyForDecryption]: C4 again, unless the chain already has the key. *)
Definition resume_c4 (keys : CanonicalKeyState) (k : ThresholdKeyshareState) (r : RecoveryState) (ec : EventContext) (now : Z) : Mon () :=
  if is_some_b (get_key keys (ks_e3_id k)) then ret tt
  else
    let republish := needs_keyshare_republication keys k r in
    (if negb (is_some_b (decryption_verification_complete r)) && negb republish
     then replay_decryption_key_shares r now ec else ret tt) ;;
    match c4_proofs_pending r with Some (p, _) => bus (C4ProofsPending p) | None => ret tt end ;;
    match decryption_verification_complete r with
    | Some (verdict, vec) => handle_share_verification_complete verdict vec
    | None => if republish then publish_keyshare_created ec else ret tt
    end.

(** Left out: the republication of this node's own key and of its share generation, and of the proof plan of
    its own shares, which are not part of the state. *)
Definition resume_in_flight_work (effects_context : EventContext) (keys : CanonicalKeyState) (now : Z) : Mon () :=
  r ⇐ recovery_get;
  ensure (rs_schema_version r =? THRESHOLD_KEYSHARE_RECOVERY_SCHEMA_VERSION) WrongSchema ;;
  let ec := default effects_context (rs_last_ec r) in
  apply_held_ready_updates ec ;;
  r ⇐ recovery_get;
  restore_public_key_context keys ec now ;;
  k ⇐ state_get;
  match ks_state k with
  | KInit => selected ⇐ ok_or (rs_selected r) NoFinalizedCommittee; try_send (SelfSelected selected)
  | KCollectingEncryptionKeys _ =>
      recover_encryption_key_collector ec now ;; replay_encryption_keys ec ;; ensure_collector ec now
  | KGeneratingThresholdShare _ => replay_threshold_shares ec now
  | KAggregatingDecryptionKey _ => resume_aggregation r ec now
  | KReadyForDecryption _ => resume_c4 keys k r ec now
  | KDecrypting _ =>
      (if needs_keyshare_republication keys k r then publish_keyshare_created ec else ret tt) ;;
      issue_decryption_share_request keys ec now
  | KGeneratingDecryptionProof _ | KCompleted => resume_decryption_work keys ec now
  | KFailed stage reason => bus (KsFailed stage reason)
  end.

(** The end of the E3: the large payloads go, then the actor stops. *)
Definition clear_large_recovery_payloads (ec : EventContext) : Mon () :=
  k ⇐ state_get;
  mutate_recovery ec (λ r, set_collected None (set_share_refs ∅ r)) ;;
  write_tombstones (threshold_n k) ;;
  modify (λ a, with_shares ∅ (k_payloads a) a).

Definition on_complete (ec : EventContext) : Mon () :=
  work (λ v, set_proof_request None (set_share_request None v)) ;;
  attempt (clear_large_recovery_payloads ec ;; work (set_stopped true)).

(** ** Generation of keys and shares

    What it stores: the keypair, the collected keys and the generated material, and this node's
    own rows with which aggregation starts. *)

Definition no_kept_proofs : KeptProofs := mkKept None None None [] [].

Definition store_generated (s : KeyshareState) (ec : EventContext) : Mon () :=
  k ⇐ state_get;
  match ks_state k, s with
  | KInit, KCollectingEncryptionKeys _ => try_mutate KsPersist (λ k, new_state k s)
  | (KCollectingEncryptionKeys _ | KGeneratingThresholdShare _), KGeneratingThresholdShare _ =>
      try_mutate KsPersist (λ k, new_state k s) ;;
      v ⇐ get_work;
      if share_collector v then send_dealers_without_key else ret tt
  | KGeneratingThresholdShare _, KAggregatingDecryptionKey d =>
      try_mutate KsPersist (λ k, new_state k (KAggregatingDecryptionKey
        (mkAggregating (ag_pk_share d) (ag_sk_bfv d) (own_sk_share_raw d) (own_esi_shares_raw d) no_kept_proofs))) ;;
      verify_recorded_threshold_shares ec
  | _, _ => ret tt
  end.

(** The frozen timing of the DKG, read from the chain before the selection is handled. *)
Definition with_timing (deadline window : Z) (k : ThresholdKeyshareState) : ThresholdKeyshareState :=
  mkKeyshare (ks_e3_id k) (ks_address k) (ks_party_id k) (ks_state k) (threshold_m k) (threshold_n k) (ks_params k)
    (aggregated_pk k) (ks_domain k) (expelled_parties k) (honest_parties k) (Some deadline) (Some window)
    (keyshare_published k) (dkg_roster_fixed k).

Definition store_timing (deadline window : Z) : Mon () :=
  ensure ((0 <? deadline) && (0 <? window))%Z TimingFault ;; mutate_state (with_timing deadline window).

(** ** Messages *)

Inductive KsMessage :=
| TimingRead (deadline window : Z)
| Generated (s : KeyshareState) (ec : EventContext)
| OnEncryptionKey (m : EncryptionKeyCreated) (ec : EventContext) (now : Z)
| OnShare (m : ThresholdShareCreated) (ec : EventContext) (now : Z)
| OnSharesCollected (batch : list (ThresholdShare * ReceivedShareProofs)) (ec : EventContext)
| OnDispatchLogged (d : ShareVerificationDispatched) (ec : EventContext)
| OnVerification (msg : ShareVerificationComplete) (ec : EventContext)
| OnDkgProofSigned (party_id : PartyId) (signed : SignedProofPayload) (ec : EventContext)
| OnPkProofSigned (party_id : PartyId) (signed : SignedProofPayload) (ec : EventContext)
| OnCoordination (m : DkgCoordination) (ec : EventContext)
| OnAggregatorChanged (change : AggregatorChanged) (ec : EventContext)
| OnKeyCalculated (sk_poly_sum : Bytes) (es_poly_sum : list Bytes) (ec : EventContext) (now : Z)
| OnKeyShared (m : DecryptionKeyShared) (ec : EventContext) (now : Z)
| OnC4Collected (shares : gmap PartyId DecryptionKeyShared) (ec : EventContext)
| OnKeysFailed (e3_id : E3id) (missing : gset PartyId)
| OnSharesFailed (e3_id : E3id) (missing : gset PartyId)
| OnC4Failed (e3_id : E3id) (missing : gset PartyId)
| OnExcluded (party_id : option PartyId) (ec : EventContext)
| OnPublicKey (keys : CanonicalKeyState) (data : AggregatedKey) (ec : EventContext) (now : Z)
| OnCommitteePublished (keys : CanonicalKeyState) (e3_id : E3id) (nodes : list string) (pk : Bytes) (ec : EventContext) (now : Z)
| OnChainLog (keys : CanonicalKeyState) (ec : EventContext) (now : Z)
| OnCiphertext (keys : CanonicalKeyState) (e3_id : E3id) (ciphertexts : list Bytes) (ec : EventContext) (now : Z)
| OnDecryptionShare (keys : CanonicalKeyState) (share : list Bytes) (ec : EventContext) (now : Z)
| OnDecryptionProofSigned
| OnRedeliver (keys : CanonicalKeyState) (now random : Z)
| OnStage (e3_id : E3id) (stage : E3Stage) (ec : EventContext)
| OnFailed (ec : EventContext)
| OnEffectsEnabled (ec : EventContext) (keys : CanonicalKeyState) (now : Z).

Definition trapped (m : Mon ()) : Mon () := trap KsErrorReported m.

Definition handle (msg : KsMessage) : Mon () :=
  match msg with
  | TimingRead deadline window => trapped (store_timing deadline window)
  | Generated s ec => trapped (store_generated s ec)
  | OnEncryptionKey m ec now => trapped (handle_encryption_key_created m ec now)
  | OnShare m ec now => trapped (handle_threshold_share_created m ec now)
  | OnSharesCollected batch ec => trapped (on_shares_collected batch ec)
  | OnDispatchLogged d ec => trapped (record_logged_share_dispatch d ec)
  | OnVerification m ec =>
      a ⇐ get_st;
      if is_some_and (p_data (k_state a)) (λ k, negb (bool_decide (ks_e3_id k = svc_e3_id m))) then ret tt
      else trapped (on_share_verification m ec)
  | OnDkgProofSigned p signed ec => trapped (handle_share_computation_proof_signed p signed ec)
  | OnPkProofSigned p signed ec => trapped (handle_pk_generation_proof_signed p signed ec)
  | OnCoordination m ec => trapped (on_dkg_coordination m ec)
  | OnAggregatorChanged change ec => attempt (handle_aggregator_changed change ec)
  | OnKeyCalculated sk es ec now => trapped (handle_calculate_decryption_key_response sk es ec now)
  | OnKeyShared m ec now => handle_decryption_key_shared m ec now
  | OnC4Collected shares ec => trapped (on_c4_collected shares ec)
  | OnKeysFailed e3 missing => trapped (fail_collection e3 EncryptionKeyCollection_ (set_key_collector false) [KeyCollectionFailed missing])
  | OnSharesFailed e3 missing => trapped (fail_collection e3 ThresholdShareCollection_ (set_share_collector false) [ShareCollectionFailed missing])
  | OnC4Failed e3 _ => trapped (fail_collection e3 DecryptionKeySharedCollection_ (set_c4_collector false) [])
  | OnExcluded p ec => match p with Some p => trapped (handle_party_excluded p ec) | None => ret tt end
  | OnPublicKey keys data ec now => trapped (handle_public_key_aggregated keys data ec now)
  | OnCommitteePublished keys e3 nodes pk ec now => trapped (handle_committee_published keys e3 nodes pk ec now)
  | OnChainLog keys ec now =>
      if bool_decide (source ec = Evm)
      then trapped (restore_public_key_context keys ec now ;; resume_decryption_work keys ec now) else ret tt
  | OnCiphertext keys e3 cts ec now =>
      observe_canonical_stage e3 CiphertextReady ;;
      trapped (restore_public_key_context keys ec now) ;;
      trapped (handle_ciphertext_output_published keys cts ec now)
  | OnDecryptionShare keys share ec now => trapped (handle_calculate_decryption_share_response keys share ec now)
  | OnDecryptionProofSigned => trapped handle_decryption_share_proof_signed
  | OnRedeliver keys now random => attempt (redeliver_decryption_work keys now random)
  | OnStage e3 stage ec =>
      observe_canonical_stage e3 stage ;; if is_terminal stage then on_complete ec else ret tt
  | OnFailed ec => on_complete ec
  | OnEffectsEnabled ec keys now =>
      work (set_effects true) ;;
      attempt (resume_in_flight_work ec keys now) ;;
      attempt maybe_publish_roster_inputs_ready ;;
      attempt propose_dkg_roster
  end.

(** ** Creation and restart (actor.rs, ext.rs, recovery_payloads.rs) *)

Definition new_work (r : RecoveryState) (own : PartyId) (shares : gmap PartyId (ThresholdShareCreated * EventContext)) (effects : bool) : Volatile :=
  mkVolatile (rs_active_aggregator r) (rs_is_aggregator r) effects false false false false false false
    (List.filter (λ s, negb (ts_party_id s =? own)) ((λ e, tsc_share e.1) <$> (btree_list shares).*2))
    ∅ ((λ p, (cp_sk_request p.1, cp_esm_requests p.1)) <$> c4_proofs_pending r)
    (if bool_decide (decryption_key_shares r = ∅) then None else Some (decryption_key_shares r))
    (keyshare_publish_authorized r) None None false.

(** A selected node starts with fresh snapshots. *)
Definition create (params : KsParams) (k : ThresholdKeyshareState) (selected : CiphernodeSelected) (ec : EventContext) (effects : bool) : Ks :=
  let r := new_recovery selected ec in
  mkKs params (mkPersistable (Some k) (Some k) false) (mkPersistable (Some r) (Some r) false) ∅ ∅
    (new_work r (ks_party_id k) ∅ effects).

(** [ThresholdKeyshareRecoveryPayloads::load]: every referenced payload, checked. *)
Definition load_shares (refs : gmap PartyId RecoveryPayloadRef) (stored : gmap PartyId (ThresholdShareCreated * EventContext))
    : option (gmap PartyId (ThresholdShareCreated * EventContext)) :=
  if forallb (λ '(p, ref), match stored !! p with
       | Some e => bool_decide (payload_ref e = ref) && (ts_party_id (tsc_share e.1) =? p)
       | None => false end) (map_to_list refs)
  then Some (filter (λ kv, is_Some (refs !! kv.1)) stored) else None.

(** A process stops and another one loads the snapshots that it finds; [canonical] is whether the
    projected stage of the E3 has its key published.  Here they are those of the last accepted writes;
    a run may apply it to an earlier point instead, as after writes that never reached the disk
    ([Restart] in KeyshareProps.v). *)
Definition restart (canonical : bool) (a : Ks) : option Ks :=
  match p_stored (k_state a), p_stored (k_recovery a) with
  | Some k, Some r =>
      if rs_schema_version r =? THRESHOLD_KEYSHARE_RECOVERY_SCHEMA_VERSION then
        shares ← load_shares (threshold_share_refs r) (k_payloads a);
        Some (mkKs (k_params a) (reload (k_state a)) (reload (k_recovery a)) shares (k_payloads a)
                ((if canonical then set_canonical true else id) (new_work r (ks_party_id k) shares false)))
      else None
  | _, _ => None
  end.
End Handlers.
