(* ===== verification/KeyshareRounds.v ===== *)
(** * Threshold keyshare actor: rounds of verification

    Each round of [verify_loop] takes a verdict that waits for its dispatch, and nothing in a
    round parks one, so the rounds end by themselves. *)

From S2P Require Import Prelude Events CommitmentLinks NodeRegistry Actor Orchestration CanonicalKeys KeyshareTiming KeyshareEvents KeyCollector C4Collector ShareCollector DkgRoster Keyshare KeysharePlan ReadyReports KeyshareWork KeyshareShares KeyshareActor.
Local Open Scope nat_scope.

Section Rounds.
Context `{AlloyOps} `{AddressText} `{DkgBytes} `{KeyshareOps} `{KeyshareHash}.
Local Abbreviation Mon := (M Ks KsOut KsError).
Local Abbreviation W := (World Ks KsOut).

Definition waiting (w : W) : gmap B256 (ShareVerificationComplete * EventContext) := parked_verdicts (k_work (st w)).

Definition keeps_waiting {A} (m : Mon A) : Prop := ∀ w, waiting (m w).2 = waiting w.

Lemma kw_bind {A B} (m : Mon A) (K : A → Mon B) : keeps_waiting m → (∀ x, keeps_waiting (K x)) → keeps_waiting (bind m K).
Proof. intros Hm HK w. specialize (Hm w). unfold bind. destruct (m w) as [[x|e] w']; [|done]. by rewrite HK. Qed.

Lemma kw_call e : keeps_waiting (call e : Mon ()).
Proof. intros w. unfold call. by destruct (refusals w) as [|[] ?]. Qed.

Lemma kw_publish e x : keeps_waiting (publish e x : Mon ()).
Proof. apply kw_bind; [apply kw_call|done]. Qed.

Lemma kw_publish_or undo x : (∀ v, parked_verdicts (undo v) = parked_verdicts v) → keeps_waiting (publish_or undo x).
Proof.
  intros Hu w. unfold publish_or, bus. pose proof (kw_publish KsPublish x w) as Hp.
  destruct (publish KsPublish x w) as [[y|e] w']; [done|]. unfold waiting in *. cbn. by rewrite Hu.
Qed.

Lemma kw_work f : (∀ v, parked_verdicts (f v) = parked_verdicts v) → keeps_waiting (work f).
Proof. intros Hf w. apply Hf. Qed.

Lemma kw_mutate_state f : keeps_waiting (try_mutate (T:=ThresholdKeyshareState) KsPersist f : Mon ()).
Proof.
  unfold try_mutate. apply kw_bind; [done|]. intros a. apply kw_bind; [by destruct (p_data _)|]. intros k.
  apply kw_bind; [by destruct (f k)|]. intros k'. apply kw_bind; [|done]. unfold write_value_to_store. apply kw_bind; [done|].
  intros a'. destruct (p_staging _); [done|]. apply kw_bind; [apply kw_call|done].
Qed.

Lemma kw_mutate_recovery f : keeps_waiting (try_mutate (T:=RecoveryState) KsPersist f : Mon ()).
Proof.
  unfold try_mutate. apply kw_bind; [done|]. intros a. apply kw_bind; [by destruct (p_data _)|]. intros r.
  apply kw_bind; [by destruct (f r)|]. intros r'. apply kw_bind; [|done]. unfold write_value_to_store. apply kw_bind; [done|].
  intros a'. destruct (p_staging _); [done|]. apply kw_bind; [apply kw_call|done].
Qed.

Lemma kw_state_get : keeps_waiting state_get.
Proof. intros w. unfold state_get, p_try_get, bind, get_st. cbn. by destruct (p_data _). Qed.

Lemma kw_recovery_get : keeps_waiting recovery_get.
Proof. intros w. unfold recovery_get, p_try_get, bind, get_st. cbn. by destruct (p_data _). Qed.
End Rounds.

(** One step of a computation that parks nothing. *)
Ltac kw_step :=
  lazymatch goal with
  | |- keeps_waiting (bind _ _) => apply kw_bind; [|intros ?]
  | |- keeps_waiting state_get => apply kw_state_get
  | |- keeps_waiting recovery_get => apply kw_recovery_get
  | |- keeps_waiting (work _) => apply kw_work; by intros ?
  | |- keeps_waiting (bus _) => apply kw_publish
  | |- keeps_waiting (publish _ _) => apply kw_publish
  | |- keeps_waiting (publish_or _ _) => apply kw_publish_or; by intros ?
  | |- keeps_waiting (mutate_state _) => apply kw_mutate_state
  | |- keeps_waiting (mutate_recovery _ _) => apply kw_mutate_recovery
  | |- keeps_waiting (lift ?x) => by destruct x
  | |- keeps_waiting (ok_or ?x _) => by destruct x
  | |- keeps_waiting (ensure ?x _) => by destruct x
  | |- keeps_waiting (if ?b then _ else _) => destruct b
  | |- keeps_waiting (match ?x with _ => _ end) => destruct x
  | |- _ => done
  end.

Section Fuel.
Context `{AlloyOps} `{AddressText} `{DkgBytes} `{KeyshareOps} `{KeyshareHash}.
Local Abbreviation Mon := (M Ks KsOut KsError).

Lemma kw_start : keeps_waiting maybe_start_c4_for_accepted_roster.
Proof. unfold maybe_start_c4_for_accepted_roster, proceed_with_decryption_key_calculation. repeat kw_step. Qed.

Lemma kw_publish_ready k l ec : keeps_waiting (publish_ready k l ec).
Proof.
  unfold publish_ready, maybe_publish_roster_inputs_ready, propose_dkg_roster. repeat first [apply kw_start|kw_step].
Qed.

Lemma kw_maybe_publish_ready ec : keeps_waiting (maybe_publish_dkg_ready ec).
Proof. unfold maybe_publish_dkg_ready. repeat first [apply kw_start|apply kw_publish_ready|kw_step]. Qed.

Lemma kw_handle_verdict msg ec : keeps_waiting (handle_share_verification_complete msg ec).
Proof.
  unfold handle_share_verification_complete, publish_with_honest_majority, publish_keyshare_created.
  repeat first [apply kw_maybe_publish_ready|kw_step].
Qed.

Lemma kw_record_verification msg ec : keeps_waiting (record_share_verification msg ec).
Proof. unfold record_share_verification. repeat kw_step. Qed.

Lemma kw_record_collected ids ec : keeps_waiting (record_collected_threshold_shares ids ec).
Proof. unfold record_collected_threshold_shares. repeat kw_step. Qed.

(** Two continuations that agree while the same verdicts wait. *)
Lemma bind_agree {A B} (m : Mon A) (K1 K2 : A → Mon B) w :
  keeps_waiting m → (∀ x w', waiting w' = waiting w → K1 x w' = K2 x w') → bind m K1 w = bind m K2 w.
Proof.
  intros Hm HK. specialize (Hm w). unfold bind. destruct (m w) as [[x|e] w']; [|done]. by apply HK.
Qed.

Lemma apply_verdict_agree v1 v2 verdict w :
  (∀ batch ec w', waiting w' = waiting w → v1 batch ec w' = v2 batch ec w') → apply_verdict v1 verdict w = apply_verdict v2 verdict w.
Proof.
  intros Hv. unfold apply_verdict. apply bind_agree; [apply kw_record_verification|]. intros _ w1 E1.
  apply bind_agree; [apply kw_handle_verdict|]. intros _ w2 E2. unfold dispatch_expanded.
  apply bind_agree; [apply kw_state_get|]. intros k w3 E3. destruct (negb _); [done|].
  apply bind_agree; [apply kw_recovery_get|]. intros r w4 E4. destruct (_ || _); [done|]. cbv zeta. destruct (negb _); [done|].
  apply bind_agree; [done|]. intros a w5 E5. apply bind_agree; [by destruct (rebuild_collected_threshold_shares _ _ _)|].
  intros batch w6 E6. apply bind_agree; [apply kw_record_collected|]. intros [] w7 E7; [|done]. apply Hv. congruence.
Qed.

Lemma verify_batch_agree r1 r2 batch ec w :
  (∀ verdict w', size (waiting w') < size (waiting w) → r1 verdict w' = r2 verdict w') →
  verify_batch r1 batch ec w = verify_batch r2 batch ec w.
Proof.
  intros Hr. unfold verify_batch. apply bind_agree; [apply kw_state_get|]. intros k w1 E1.
  destruct (waits_for_own_shares _); [done|]. apply bind_agree; [apply kw_recovery_get|]. intros r w2 E2.
  apply bind_agree; [done|]. intros a w3 E3. cbv zeta. apply bind_agree; [by destruct (check_batch _ _ _)|]. intros checked w4 E4.
  apply bind_agree; [apply kw_work; by intros ?|]. intros _ w5 E5. apply bind_agree; [by destruct (ks_committee_size k)|].
  intros csize w6 E6. apply bind_agree; [apply kw_publish|]. intros _ w7 E7. apply bind_agree; [apply kw_mutate_recovery|].
  intros _ w8 E8. unfold bind at 1 3. cbn. set (id := dispatch_id _).
  destruct (parked_verdicts (k_work (st w8)) !! id) as [verdict|] eqn:Hp; [|done]. unfold bind, work, modify. cbn. apply Hr.
  unfold waiting. cbn. replace (size (waiting w)) with (size (parked_verdicts (k_work (st w8)))).
  - rewrite map_size_delete, Hp. assert (size (parked_verdicts (k_work (st w8))) ≠ 0); [|lia].
    intros Hz%map_size_empty_inv. by rewrite Hz, lookup_empty in Hp.
  - unfold waiting in *. congruence.
Qed.

(** C26: The rounds end by themselves: any fuel above the number of waiting verdicts gives the result of
    [handle_all_threshold_shares_collected]. *)
Theorem verify_rounds_terminate extra batch ec (w : World Ks KsOut) :
  verify_loop (S (size (waiting w)) + extra) batch ec w = handle_all_threshold_shares_collected batch ec w.
Proof.
  unfold handle_all_threshold_shares_collected. fold (waiting w).
  assert (∀ fuel1 fuel2 batch ec (w : World Ks KsOut), size (waiting w) < fuel1 → size (waiting w) < fuel2 →
    verify_loop fuel1 batch ec w = verify_loop fuel2 batch ec w) as Hany.
  { induction fuel1 as [|f1 IH]; intros fuel2 b c w0 Hf1 Hf2; [lia|]. destruct fuel2 as [|f2]; [lia|]. cbn [verify_loop].
    apply verify_batch_agree. intros verdict w' Hlt. apply apply_verdict_agree. intros b' c' w2 E. apply IH; rewrite E; lia. }
  apply Hany; lia.
Qed.
End Fuel.
