(* ===== verification/KeyshareInv.v ===== *)
(** * Threshold keyshare actor: invariant

    What holds of a keyshare in every reachable state, and the rules with which the handlers are
    shown to keep it.  The statement fixes a run: [Delivered] holds of its messages, and what was
    published so far is part of the invariant, so that a verdict can be traced to the dispatch it
    answers. *)

From S2P Require Import Prelude Events CommitmentLinks NodeRegistry Actor Orchestration CanonicalKeys KeyshareTiming KeyshareEvents KeyCollector C4Collector ShareCollector DkgRoster Keyshare KeysharePlan ReadyReports KeyshareWork KeyshareShares KeyshareActor.
Local Open Scope nat_scope.

(** A value that is in memory and in the store. *)
Definition saved {T} (x : T) : Persistable T := mkPersistable (Some x) (Some x) false.

Lemma try_mutate_saved {S Out E T} `{FieldLaws S T} (err : PersistError → E) f (w : World S Out) x :
  fget (st w) = saved x →
  match f x with
  | Err e => try_mutate err f w = (Err e, w)
  | Ok y => ∃ rest, try_mutate err f w = (Err (err StoreRefused), mkWorld (st w) rest (out w) (next_id w)) ∨
      try_mutate err f w = (Ok tt, mkWorld (fset (saved y) (st w)) rest (out w) (next_id w))
  end.
Proof.
  intros Hx. unfold try_mutate, bind, get_st, ok_or, lift, ret, fail. rewrite Hx. cbn.
  destruct (f x) as [y|e]; [|done]. unfold write_value_to_store, bind, get_st. rewrite Hx. cbn. unfold call.
  destruct (refusals w) as [|b rest] eqn:Er; [|destruct b].
  - exists []. right. unfold set_data, modify. cbn -[modify]. unfold modify. cbn. rewrite !fget_fset, fset_fset, Hx, Er. done.
  - exists rest. by left.
  - exists rest. right. unfold set_data, modify. cbn -[modify]. unfold modify. cbn. rewrite !fget_fset, fset_fset, Hx. done.
Qed.

(** The parties that a dispatch sends to the verifier or reports as failed. *)
Definition covered (d : ShareVerificationDispatched) : gset PartyId :=
  list_to_set (sender_party_id <$> Orchestration.share_proofs d) ∪ pre_dishonest d.

Section Inv.
Context `{AlloyLaws} `{AddressText} `{DkgBytes} `{KeyshareOps} `{KeyshareHash} `{KeyCheck}.
Local Abbreviation Mon := (M Ks KsOut KsError).

(** The keyshare, its committee, the messages of the run with the states that they found, and the
    state and the publications at the point of the run that a later one is compared with. *)
Record Run := mkRun {
  run_params : KsParams; run_e3 : E3id; run_own : PartyId; run_m : nat; run_n : nat;
  run_size : CiphernodesCommitteeSize; run_selected : CiphernodeSelected; Delivered : KsMessage → Prop;
  Handled : KsMessage → ThresholdKeyshareState → Prop;
  run_state : ThresholdKeyshareState; run_recovery : RecoveryState; run_out : list KsOut }.

Variable R : Run.
Local Abbreviation P := (run_params R).
Local Abbreviation e3 := (run_e3 R).
Local Abbreviation own := (run_own R).
Local Abbreviation tm := (run_m R).
Local Abbreviation tn := (run_n R).
Local Abbreviation csize := (run_size R).
Local Abbreviation selected := (run_selected R).
Local Abbreviation k0 := (run_state R).
Local Abbreviation r0 := (run_recovery R).
Local Abbreviation h := (cc_h (values csize)).

Definition member (p : PartyId) : option Address := s ← committee selected !! p; parse_address s.

(** Signed by the committee member of its slot, over canonical dealers. *)
Definition member_signed (m : DkgCoordination) : Prop :=
  co_e3_id m = e3 ∧ co_interfold_address m = kp_interfold P ∧
  (∃ address, member (co_party_id m) = Some address ∧ coordination_recover_address m = Some address) ∧
  has_canonical_dealers m (length (committee selected)) = true.

Definition ready_ok (p : PartyId) (m : DkgCoordination) : Prop :=
  co_party_id m = p ∧ co_kind m = Ready ∧ member_signed m ∧ h ≤ length (dealers m) ∧ p ∈ dealer_ids (dealers m).

Definition roster_ok (p : PartyId) (m : DkgCoordination) : Prop :=
  co_party_id m = p ∧ co_kind m = Roster ∧ member_signed m ∧ length (dealers m) = h.

(** A roster whose contributions are all in a Ready report of this node. *)
Definition accepted_ok (m : DkgCoordination) : Prop :=
  roster_ok (co_party_id m) m ∧ ∃ ready, ready_ok own ready ∧ ready_contains_roster ready m = true.

(** A delivered share of another committee member for this node, with the member's signature. *)
Definition share_ok (p : PartyId) (e : ThresholdShareCreated * EventContext) : Prop :=
  ts_party_id (tsc_share e.1) = p ∧ p ≠ own ∧ target_party_id e.1 = own ∧ tsc_e3_id e.1 = e3 ∧
  (∃ address, member p = Some address ∧ share_recover_address e.1 = Some address) ∧
  ∃ now, Delivered R (OnShare e.1 e.2 now).

(** A dispatch that this node published or that the log delivered. *)
Definition known (o : list KsOut) (d : ShareVerificationDispatched) : Prop :=
  SharesDispatched d ∈ o ∨ ∃ ec, Delivered R (OnDispatchLogged d ec).

(** A verdict on a dispatch that covers the dealer does not name it dishonest. *)
Definition checked (o : list KsOut) (p : PartyId) : Prop :=
  ∃ verdict ec d, Delivered R (OnVerification verdict ec) ∧ svc_kind verdict = ShareProofs ∧ known o d ∧
    dispatch_id d = causation_id ec ∧ p ∈ covered d ∧ p ∉ dishonest_parties verdict.

(** C4 has been verified or needs no verification, or the node's own C4 share arrived when no other
    party was honest any more. *)
Definition c4_done : Prop :=
  (∃ verdict ec, Delivered R (OnVerification verdict ec) ∧ svc_kind verdict = DecryptionProofs) ∨
  (∃ shares ec, Delivered R (OnC4Collected shares ec)) ∨
  (∃ m ec now k, Handled R (OnKeyShared m ec now) k ∧ dks_external m = false ∧ dks_party_id m = own ∧
     others_of k (default ∅ (honest_parties k)) = ∅).

(** What a calculation combines. *)
Definition calculation_ok (o : list KsOut) (q : CalculateDecryptionKeyRequest) : Prop :=
  ∃ roster current shares sk own_sk own_esi skr esmr,
    accepted_ok roster ∧ size (roster_party_ids roster) = h ∧
    (∀ p, p ∈ roster_party_ids roster → p ≠ own → checked o p) ∧
    Forall (λ s, ∃ e, share_ok (ts_party_id s) e ∧ tsc_share e.1 = s) shares ∧
    read_secret_key (kp_preset P) (ag_sk_bfv current) = Some sk ∧
    read_own_share (own_sk_share_raw current) = Some own_sk ∧
    mapM read_own_share (own_esi_shares_raw current) = Some own_esi ∧
    plan_exact (kp_preset P) own shares (roster_party_ids roster) sk own_sk own_esi q skr esmr.

Definition pub_ok (o : list KsOut) (x : KsOut) : Prop :=
  match x with
  | ReadyPublished m => ready_ok own m
  | CalculationRequested q => calculation_ok o q
  | KeyshareCreated _ _ p signed => p = own ∧ is_Some signed ∧ c4_done
  | _ => True
  end.

(** The phases after the calculation. *)
Definition past_calculation (s : KeyshareState) : bool :=
  match s with KReadyForDecryption _ | KDecrypting _ | KGeneratingDecryptionProof _ | KCompleted => true | _ => false end.

Definition Cid (e : E3id) (p : PartyId) (m n : nat) (sel : option CiphernodeSelected) (schema : nat) : Prop :=
  e = e3 ∧ p = own ∧ m = tm ∧ n = tn ∧ sel = Some selected ∧ schema = THRESHOLD_KEYSHARE_RECOVERY_SCHEMA_VERSION.

Definition Crep (ready : gmap PartyId DkgCoordination) (own_ready : option DkgCoordination)
    (held : gmap PartyId (list DkgCoordination)) : Prop :=
  map_Forall ready_ok ready ∧ (∀ m, own_ready = Some m → ready_ok own m) ∧ map_Forall (λ p l, Forall (ready_ok p) l) held.

Definition Cros (pend : gmap PartyId DkgCoordination) (roster : option DkgCoordination) : Prop :=
  map_Forall roster_ok pend ∧ ∀ m, roster = Some m → accepted_ok m.

Definition Chon (honest : option (gset PartyId)) : Prop :=
  ∀ s, honest = Some s → ∃ m, accepted_ok m ∧ s ⊆ roster_party_ids m.

Definition Csh (sh pl : gmap PartyId (ThresholdShareCreated * EventContext)) (refs : gmap PartyId RecoveryPayloadRef) : Prop :=
  map_Forall share_ok sh ∧
  ∀ p ref, refs !! p = Some ref → ∃ e, sh !! p = Some e ∧ pl !! p = Some e ∧ payload_ref e = ref.

Definition Cfix (fixed : bool) (s : KeyshareState)
    (data : option (DkgShareDecryptionProofRequest * list DkgShareDecryptionProofRequest))
    (pending : option (DecryptionShareProofsPending * EventContext)) (roster : option DkgCoordination) : Prop :=
  (is_Some data → fixed = true) ∧ (is_Some pending → fixed = true) ∧ (past_calculation s = true → fixed = true) ∧
  (fixed = true → is_Some roster).

Definition Cdis (o : list KsOut) (expelled : gset PartyId) (collected : option (gset PartyId)) (ids : list B256) : Prop :=
  ∀ batch id, collected = Some batch → id ∈ ids →
    ∃ d, known o d ∧ dispatch_id d = id ∧ ∀ p, p ∈ batch → p ∈ covered d ∨ p ∈ expelled ∨ p = own.

Definition Cver (o : list KsOut) (verified : option (gset PartyId)) (verdict : option (ShareVerificationComplete * EventContext)) : Prop :=
  (∀ vs p, verified = Some vs → p ∈ vs → p ≠ own → checked o p) ∧
  (∀ x, verdict = Some x → svc_kind x.1 = ShareProofs).

Definition Cpar (parked : gmap B256 (ShareVerificationComplete * EventContext)) : Prop :=
  map_Forall (λ id v, causation_id v.2 = id ∧ svc_kind v.1 = ShareProofs ∧ Delivered R (OnVerification v.1 v.2)) parked.

Definition Caut (authorized published waiting : bool) (c4_verdict : option (ShareVerificationComplete * EventContext)) : Prop :=
  (authorized = true ∨ published = true ∨ waiting = true → c4_done) ∧
  (∀ v, c4_verdict = Some v → c4_done).

Definition Cpub (o : list KsOut) : Prop := Forall (pub_ok o) o ∧ run_out R `prefix_of` o.

Definition Crel (expelled : gset PartyId) (fixed published : bool) (s : KeyshareState) (roster own_ready : option DkgCoordination) : Prop :=
  expelled_parties k0 ⊆ expelled ∧ (dkg_roster_fixed k0 = true → fixed = true) ∧
  (keyshare_published k0 = true → published = true) ∧ discriminant (ks_state k0) ≤ discriminant s ∧
  (∀ m, dkg_roster r0 = Some m →
     ∃ m', roster = Some m' ∧ (m' = m ∨ co_party_id m' < co_party_id m ∧ dkg_roster_fixed k0 = false)) ∧
  (∀ m, dkg_ready r0 = Some m →
     ∃ m', own_ready = Some m' ∧ ∀ d, d ∈ dealers m → d ∈ dealers m' ∨ d_party_id d ∈ expelled).

Definition C (k : ThresholdKeyshareState) (r : RecoveryState) (sh pl : gmap PartyId (ThresholdShareCreated * EventContext))
    (v : Volatile) (o : list KsOut) : Prop :=
  Cid (ks_e3_id k) (ks_party_id k) (threshold_m k) (threshold_n k) (rs_selected r) (rs_schema_version r) ∧
  Crep (ready_by_party r) (dkg_ready r) (held_ready_updates r) ∧
  Cros (pending_rosters r) (dkg_roster r) ∧
  Chon (honest_parties k) ∧
  Csh sh pl (threshold_share_refs r) ∧
  Cfix (dkg_roster_fixed k) (ks_state k) (share_decryption_data v) (c4_proofs_pending r) (dkg_roster r) ∧
  Cdis o (expelled_parties k) (collected_ids r) (share_dispatch_ids r) ∧
  Cver o (verified_dealer_ids r) (share_verification_complete r) ∧
  Cpar (parked_verdicts v) ∧
  Caut (keyshare_publish_authorized r) (keyshare_published k) (keyshare_publish v) (decryption_verification_complete r) ∧
  Cpub o ∧
  Crel (expelled_parties k) (dkg_roster_fixed k) (keyshare_published k) (ks_state k) (dkg_roster r) (dkg_ready r).

(** ** Publications *)

Lemma known_mono o o' d : o `prefix_of` o' → known o d → known o' d.
Proof. intros [t ->] [Hd|Hd]; [left|by right]. apply elem_of_app. by left. Qed.

Lemma checked_mono o o' p : o `prefix_of` o' → checked o p → checked o' p.
Proof.
  intros Hp (verdict & ec & d & Hv1 & Hv2 & Hv3 & Hv4 & Hv5 & Hv6). exists verdict, ec, d.
  split_and!; try done. by eapply known_mono.
Qed.

Lemma pub_ok_mono o o' x : o `prefix_of` o' → pub_ok o x → pub_ok o' x.
Proof.
  intros Hp. destruct x; try done. intros (ro & cu & shs & sk & osk & oesi & skr & esmr & Hq1 & Hq2 & Hq3 & Hq4).
  exists ro, cu, shs, sk, osk, oesi, skr, esmr. split_and!; try done; [|apply Hq4..]. intros p Hin Hne.
  eapply checked_mono; [done|]. by apply Hq3.
Qed.

(** What holds of a state with some publications holds of it after more of them. *)
Lemma C_later k r sh pl v o o' : o `prefix_of` o' → C k r sh pl v o → Cpub o' → C k r sh pl v o'.
Proof.
  intros Hp (? & ? & ? & ? & ? & ? & Hd & Hv & ? & ? & _ & ?) Hpub. split_and!; try done; try apply Hpub.
  - intros batch id Hb Hid. destruct (Hd batch id Hb Hid) as (d & Hk & ?). exists d. split; [by eapply known_mono|done].
  - split; [|by apply Hv]. intros vs p Hvs Hp' Hne. eapply checked_mono; [done|]. by apply (proj1 Hv vs p).
Qed.

Lemma C_publish k r sh pl v o x : C k r sh pl v o → pub_ok (o ++ [x]) x → C k r sh pl v (o ++ [x]).
Proof.
  assert (o `prefix_of` o ++ [x]) as Hp by by exists [x].
  intros HC Hx. apply (C_later _ _ _ _ _ o); [done|done|]. destruct HC as (_ & _ & _ & _ & _ & _ & _ & _ & _ & _ & [Hpub Hbase] & _).
  split; [|by etrans]. apply Forall_app. split; [|by repeat constructor]. eapply Forall_impl; [exact Hpub|].
  intros y Hy. by eapply pub_ok_mono.
Qed.

(** ** Rules *)

(** The actor in this state, with these publications. *)
Definition at_ (k : ThresholdKeyshareState) (r : RecoveryState) (sh pl : gmap PartyId (ThresholdShareCreated * EventContext))
    (v : Volatile) (o : list KsOut) (w : World Ks KsOut) : Prop :=
  st w = mkKs P (saved k) (saved r) sh pl v ∧ out w = o.

Definition holds (w : World Ks KsOut) : Prop := ∃ k r sh pl v o, at_ k r sh pl v o w ∧ C k r sh pl v o.

(** From this state, a computation ends in the invariant, whether it succeeds or fails. *)
Definition G {A} k r sh pl v o (m : Mon A) : Prop :=
  C k r sh pl v o → triple (at_ k r sh pl v o) m (λ _, holds) holds.

(** From any state of the invariant. *)
Definition sat {A} (m : Mon A) : Prop := ∀ k r sh pl v o, G k r sh pl v o m.

Lemma sat_triple {A} (m : Mon A) : sat m ↔ triple holds m (λ _, holds) holds.
Proof.
  split.
  - intros Hm w (k & r & sh & pl & v & o & Hw & HC). by apply (Hm k r sh pl v o HC w).
  - intros Hm k r sh pl v o HC w Hw. apply Hm. by exists k, r, sh, pl, v, o.
Qed.

Section Rules.
Context {A B : Type} (k : ThresholdKeyshareState) (r : RecoveryState)
  (sh pl : gmap PartyId (ThresholdShareCreated * EventContext)) (v : Volatile) (o : list KsOut).

Lemma g_holds w : at_ k r sh pl v o w → C k r sh pl v o → holds w.
Proof. intros. by exists k, r, sh, pl, v, o. Qed.

Lemma g_ret (x : B) : G k r sh pl v o (ret x).
Proof. intros HC w Hw. by apply g_holds. Qed.

Lemma g_fail e : G k r sh pl v o (fail e : Mon B).
Proof. intros HC w Hw. by apply g_holds. Qed.

Lemma g_assume (m : Mon B) : (C k r sh pl v o → G k r sh pl v o m) → G k r sh pl v o m.
Proof. intros Hm HC. by apply Hm. Qed.

Lemma g_tail (m : Mon B) : G k r sh pl v o (bind m ret) → G k r sh pl v o m.
Proof. intros Hm HC. by apply triple_tail, Hm. Qed.

Lemma g_sub (m : Mon A) (K : A → Mon B) : sat m → (∀ x, sat (K x)) → G k r sh pl v o (bind m K).
Proof.
  intros Hm HK HC. eapply triple_bind; [by apply Hm|]. intros x. by apply sat_triple.
Qed.

Lemma g_state_get (K : ThresholdKeyshareState → Mon B) : G k r sh pl v o (K k) → G k r sh pl v o (bind state_get K).
Proof. intros HK HC w Hw. specialize (HK HC w Hw). destruct Hw as [Hst Ho]. unfold bind, state_get, p_try_get, bind, get_st. by rewrite Hst. Qed.

Lemma g_recovery_get (K : RecoveryState → Mon B) : G k r sh pl v o (K r) → G k r sh pl v o (bind recovery_get K).
Proof. intros HK HC w Hw. specialize (HK HC w Hw). destruct Hw as [Hst Ho]. unfold bind, recovery_get, p_try_get, bind, get_st. by rewrite Hst. Qed.

Lemma g_get_st (K : Ks → Mon B) :
  G k r sh pl v o (K (mkKs P (saved k) (saved r) sh pl v)) → G k r sh pl v o (bind get_st K).
Proof. intros HK HC w Hw. specialize (HK HC w Hw). destruct Hw as [Hst Ho]. unfold bind, get_st. by rewrite Hst. Qed.

Lemma g_get_work (K : Volatile → Mon B) : G k r sh pl v o (K v) → G k r sh pl v o (bind get_work K).
Proof. intros HK HC w Hw. specialize (HK HC w Hw). destruct Hw as [Hst Ho]. unfold bind, get_work, bind, get_st. by rewrite Hst. Qed.

Lemma g_lift (x : result A KsError) (K : A → Mon B) :
  (∀ y, x = Ok y → G k r sh pl v o (K y)) → G k r sh pl v o (bind (lift x) K).
Proof. intros HK. destruct x as [y|e]; [by apply HK|apply g_fail]. Qed.

Lemma g_ok_or (x : option A) e (K : A → Mon B) :
  (∀ y, x = Some y → G k r sh pl v o (K y)) → G k r sh pl v o (bind (ok_or x e) K).
Proof. intros HK. destruct x as [y|]; [by apply HK|apply g_fail]. Qed.

Lemma g_ensure (b : bool) e (K : () → Mon B) :
  (b = true → G k r sh pl v o (K tt)) → G k r sh pl v o (bind (ensure b e) K).
Proof. intros HK. destruct b; [by apply HK|apply g_fail]. Qed.

Lemma g_new_id (K : Z → Mon B) : (∀ i, G k r sh pl v o (K i)) → G k r sh pl v o (bind new_correlation_id K).
Proof. intros HK HC w [Hst Ho]. unfold bind, new_correlation_id. by apply HK. Qed.

Lemma g_work f (K : () → Mon B) :
  (C k r sh pl v o → C k r sh pl (f v) o) → G k r sh pl (f v) o (K tt) → G k r sh pl v o (bind (work f) K).
Proof.
  intros Hf HK HC w [Hst Ho]. unfold bind, work, modify. cbn. rewrite Hst. apply HK; [by apply Hf|]. by split.
Qed.

(** A change of the shares in memory or in the store. *)
Lemma g_shares f (K : () → Mon B) sh' pl' :
  f (mkKs P (saved k) (saved r) sh pl v) = mkKs P (saved k) (saved r) sh' pl' v →
  (C k r sh pl v o → C k r sh' pl' v o) → G k r sh' pl' v o (K tt) → G k r sh pl v o (bind (modify f) K).
Proof.
  intros Heq Hf HK HC w [Hst Ho]. unfold bind, modify. cbn. rewrite Hst, Heq. apply HK; [by apply Hf|]. by split.
Qed.

Lemma g_emit x (K : () → Mon B) :
  (C k r sh pl v o → pub_ok (o ++ [x]) x) → G k r sh pl v (o ++ [x]) (K tt) → G k r sh pl v o (bind (emit x) K).
Proof.
  intros Hx HK HC w [Hst Ho]. unfold bind, emit. cbn. rewrite Hst, Ho. apply HK; [|by split].
  apply C_publish; [done|by apply Hx].
Qed.

Lemma g_call e (K : () → Mon B) : G k r sh pl v o (K tt) → G k r sh pl v o (bind (call e) K).
Proof.
  intros HK HC w [Hst Ho]. unfold bind, call. destruct (refusals w) as [|[] rest]; try by apply HK. by apply g_holds.
Qed.

Lemma g_publish e x (K : () → Mon B) :
  (C k r sh pl v o → pub_ok (o ++ [x]) x) → G k r sh pl v (o ++ [x]) (K tt) → G k r sh pl v o (bind (publish e x) K).
Proof.
  intros Hx HK HC w [Hst Ho]. assert (C k r sh pl v (o ++ [x])) as HC' by (apply C_publish; [done|by apply Hx]).
  unfold bind, publish, bind, call, emit.
  destruct (refusals w) as [|[] rest]; cbn; [|by apply g_holds|]; apply HK; try done; split; cbn; congruence.
Qed.

Lemma g_publish_or undo x (K : () → Mon B) :
  (C k r sh pl v o → pub_ok (o ++ [x]) x) → (C k r sh pl v o → C k r sh pl (undo v) o) →
  G k r sh pl v (o ++ [x]) (K tt) → G k r sh pl v o (bind (publish_or undo x) K).
Proof.
  intros Hx Hu HK HC w [Hst Ho]. assert (C k r sh pl v (o ++ [x])) as HC' by (apply C_publish; [done|by apply Hx]).
  unfold bind, publish_or, bus, publish, bind, call, emit.
  destruct (refusals w) as [|[] rest]; cbn.
  - apply HK; [done|]. split; cbn; congruence.
  - exists k, r, sh, pl, (undo v), o. split; [|by apply Hu]. split; cbn; [by rewrite Hst|done].
  - apply HK; [done|]. split; cbn; congruence.
Qed.

Lemma g_try_mutate_state f (K : () → Mon B) :
  (∀ k', f k = Ok k' → (C k r sh pl v o → C k' r sh pl v o) ∧ G k' r sh pl v o (K tt)) →
  G k r sh pl v o (bind (try_mutate KsPersist f) K).
Proof.
  intros Hf HC w [Hst Ho]. unfold bind. pose proof (try_mutate_saved KsPersist f w k) as Hm.
  rewrite Hst in Hm at 1. specialize (Hm eq_refl). destruct (f k) as [k'|e].
  - destruct (Hf k' eq_refl) as [HC' HK]. destruct Hm as [rest [->| ->]].
    + by apply g_holds.
    + apply HK; [by apply HC'|]. split; [|done]. cbn. by rewrite Hst.
  - rewrite Hm. by apply g_holds.
Qed.

Lemma g_try_mutate_recovery f (K : () → Mon B) :
  (∀ r', f r = Ok r' → (C k r sh pl v o → C k r' sh pl v o) ∧ G k r' sh pl v o (K tt)) →
  G k r sh pl v o (bind (try_mutate KsPersist f) K).
Proof.
  intros Hf HC w [Hst Ho]. unfold bind. pose proof (try_mutate_saved KsPersist f w r) as Hm.
  rewrite Hst in Hm at 1. specialize (Hm eq_refl). destruct (f r) as [r'|e].
  - destruct (Hf r' eq_refl) as [HC' HK]. destruct Hm as [rest [->| ->]].
    + by apply g_holds.
    + apply HK; [by apply HC'|]. split; [|done]. cbn. by rewrite Hst.
  - rewrite Hm. by apply g_holds.
Qed.

Lemma g_mutate_state f (K : () → Mon B) :
  (C k r sh pl v o → C (f k) r sh pl v o) → G (f k) r sh pl v o (K tt) → G k r sh pl v o (bind (mutate_state f) K).
Proof. intros Hf HK. apply g_try_mutate_state. by intros k' [= <-]. Qed.

Lemma g_mutate_recovery ec f (K : () → Mon B) :
  (C k r sh pl v o → C k (set_last_ec (Some ec) (f r)) sh pl v o) →
  G k (set_last_ec (Some ec) (f r)) sh pl v o (K tt) → G k r sh pl v o (bind (mutate_recovery ec f) K).
Proof. intros Hf HK. apply g_try_mutate_recovery. by intros r' [= <-]. Qed.

Lemma g_left (x : A) (K : A → Mon B) : G k r sh pl v o (K x) → G k r sh pl v o (bind (ret x) K).
Proof. done. Qed.

Lemma g_then {B'} (K : B' → Mon B) (l : Mon A) (K' : A → Mon B') :
  G k r sh pl v o (x ⇐ l; y ⇐ K' x; K y) → G k r sh pl v o (bind (bind l K') K).
Proof.
  intros Hm HC w Hw. specialize (Hm HC w Hw). unfold bind in *. destruct (l w) as [[x|e] w']; [|done]. exact Hm.
Qed.
End Rules.

Lemma g_attempt (m : Mon ()) k r sh pl v o : G k r sh pl v o m → G k r sh pl v o (attempt m).
Proof. intros Hm HC w Hw. specialize (Hm HC w Hw). unfold attempt. destruct (m w) as [[x|e] w']; done. Qed.

Lemma sat_attempt (m : Mon ()) : sat m → sat (attempt m).
Proof. intros Hm k r sh pl v o. by apply g_attempt. Qed.

Lemma sat_trapped (m : Mon ()) : sat m → sat (trapped m).
Proof.
  intros Hm k r sh pl v o HC w Hw. specialize (Hm k r sh pl v o HC w Hw). unfold trapped, trap.
  destruct (m w) as [[x|e] w']; [done|]. destruct Hm as (k' & r' & sh' & pl' & v' & o' & [Hst Ho] & HC').
  exists k', r', sh', pl', v', (o' ++ [KsErrorReported e]). split; [|by apply C_publish].
  split; cbn; [done|by rewrite Ho].
Qed.

Lemma sat_bind {A B} (m : Mon A) (K : A → Mon B) : sat m → (∀ x, sat (K x)) → sat (bind m K).
Proof. intros Hm HK k r sh pl v o. by apply g_sub. Qed.

Lemma sat_for_each {A} (l : list A) (f : A → Mon ()) : (∀ x, x ∈ l → sat (f x)) → sat (for_each l f).
Proof.
  induction l as [|x l IH]; intros Hf; cbn [for_each]; [intros k r sh pl v o; apply g_ret|].
  apply sat_bind; [apply Hf; by left|]. intros _. apply IH. intros y Hy. apply Hf. by right.
Qed.
End Inv.

(** ** Running the rules *)

(** The parts that a change does not touch. *)
Ltac keep :=
  let HC := fresh in intros HC;
  destruct HC as (? & ? & ? & ? & ? & ? & ? & ? & ? & ? & ? & ?); unfold C; split_and!; try assumption.

Ltac step :=
  lazymatch goal with
  | |- ?f (bind ?m ?K) =>
      lazymatch m with
      | state_get => apply g_state_get
      | recovery_get => apply g_recovery_get
      | get_st => apply g_get_st
      | get_work => apply g_get_work
      | lift _ => apply g_lift; intros ? ?
      | ok_or _ _ => apply g_ok_or; intros ? ?
      | ensure _ _ => apply g_ensure; intros ?
      | new_correlation_id => apply g_new_id; intros ?
      | work _ => apply g_work; [keep|]
      | bus _ => apply g_publish; [try done|]
      | try_send _ => apply g_publish; [try done|]
      | publish _ _ => apply g_publish; [try done|]
      | publish_or _ _ => apply g_publish_or; [try done|keep|]
      | emit _ => apply g_emit; [try done|]
      | call _ => apply g_call
      | mutate_state _ => apply g_mutate_state; [keep|]
      | mutate_recovery _ _ => apply g_mutate_recovery; [keep|]
      | ret _ => apply g_left
      | bind _ _ => apply g_then
      | (if ?b then _ else _) => destruct b eqn:?
      | (match ?x with _ => _ end) => destruct x eqn:?
      end
  | |- ?f (ret _) => apply g_ret
  | |- ?f (fail _) => apply g_fail
  | |- ?f (if ?b then _ else _) => destruct b eqn:?
  | |- ?f (match ?x with _ => _ end) => destruct x eqn:?
  | |- ?f (work _) => apply g_tail
  | |- ?f (bus _) => apply g_tail
  | |- ?f (try_send _) => apply g_tail
  | |- ?f (publish_or _ _) => apply g_tail
  | |- ?f (emit _) => apply g_tail
  | |- ?f (mutate_state _) => apply g_tail
  | |- ?f (mutate_recovery _ _) => apply g_tail
  | |- ?f (ensure _ _) => apply g_tail
  | |- ?f (try_mutate _ _) => apply g_tail
  end.

(** The parts about the calculation and about the earlier state. *)
Ltac open_fix :=
  match goal with HF : Cfix _ _ _ _ _ |- _ => destruct HF as (? & ? & ? & ?) end; unfold Cfix; split_and!; try done.
Ltac open_rel :=
  match goal with HF : Crel _ _ _ _ _ _ _ |- _ => destruct HF as (? & ? & ? & ? & ? & ?) end; unfold Crel; split_and!; try done.

(** Another handler, whose states are not followed. *)
Ltac sub L := first [apply g_sub; [apply L|intros ? ? ? ? ? ? ?] | apply L].
