(* ===== verification/KeyshareSteps.v ===== *)
(** * Threshold keyshare actor: the handlers keep the invariant *)

From S2P Require Import Prelude Events CommitmentLinks NodeRegistry Actor Orchestration CanonicalKeys KeyshareTiming KeyshareEvents KeyCollector C4Collector ShareCollector DkgRoster Keyshare KeysharePlan ReadyReports KeyshareWork KeyshareShares KeyshareActor KeyshareInv.
Local Open Scope nat_scope.

Section Steps.
Context `{AlloyLaws} `{AddressText} `{DkgBytes} `{KeyshareOps} `{KeyshareHash} `{KeyCheck}.
Local Abbreviation Mon := (M Ks KsOut KsError).
Variable R : Run.
Hypothesis Hsize : from_threshold (run_m R) (run_n R) = Some (run_size R).

Local Abbreviation sat := (sat R).
Local Abbreviation C := (KeyshareInv.C R).

(** ** Rosters *)

Lemma committee_size_known k r sh pl v o cs : C k r sh pl v o → ks_committee_size k = Ok cs → cs = run_size R.
Proof.
  intros ((_ & _ & Hm & Hn & _) & _). unfold ks_committee_size. rewrite Hm, Hn, Hsize. by intros [= <-].
Qed.

Lemma committee_h_known k r sh pl v o x : C k r sh pl v o → committee_h k = Ok x → x = cc_h (values (run_size R)).
Proof.
  intros HC. unfold committee_h. destruct (ks_committee_size k) as [cs|] eqn:Hcs; [|done]. cbn. intros [= <-].
  by rewrite (committee_size_known _ _ _ _ _ _ _ HC Hcs).
Qed.

Lemma propose_sat : sat propose_dkg_roster.
Proof. intros k r sh pl v o. unfold propose_dkg_roster. repeat step. Qed.

Lemma inputs_ready_sat : sat maybe_publish_roster_inputs_ready.
Proof. intros k r sh pl v o. unfold maybe_publish_roster_inputs_ready. repeat step. Qed.

(** The shares of a calculation are recorded shares, one of each dealer. *)
Lemma selected_shares_ok sh pl refs ids shares :
  Csh R sh pl refs → selected_shares sh ids = Some shares →
  (ts_party_id <$> shares) = ids ∧ (run_own R ∉ ids) ∧
  Forall (λ s, ∃ e, share_ok R (ts_party_id s) e ∧ tsc_share e.1 = s) shares.
Proof.
  intros [Hsh _] Hs. apply mapM_Some in Hs. induction Hs as [|p s ids shares Hp Hs IH]; csimpl.
  { split_and!; [done|apply not_elem_of_nil|constructor]. }
  destruct IH as (IH1 & IH2 & IH3). destruct (sh !! p) as [e|] eqn:He; [|done]. injection Hp as <-.
  pose proof (Hsh p e He) as Hok. destruct Hok as (Hid & Hne & Hrest). rewrite IH1, Hid. split; [done|]. split.
  - apply not_elem_of_cons. split; [congruence|done].
  - constructor; [|done]. exists e. split; [|done]. rewrite Hid. exact (conj Hid (conj Hne Hrest)).
Qed.

Lemma size_list_to_set_le (l : list PartyId) : size (list_to_set l : gset PartyId) ≤ length l.
Proof.
  induction l as [|x l IH]; [done|]. cbn [length]. rewrite list_to_set_cons, size_union_alt, size_singleton.
  assert (size ((list_to_set l : gset PartyId) ∖ {[x]}) ≤ size (list_to_set l : gset PartyId)) by (apply subseteq_size; set_solver). lia.
Qed.

Lemma roster_ids_size m : length (dealers m) = cc_h (values (run_size R)) → size (roster_party_ids m) ≤ cc_h (values (run_size R)).
Proof.
  intros <-. unfold roster_party_ids. etrans; [apply size_list_to_set_le|]. unfold dealer_ids. by rewrite length_fmap.
Qed.

Lemma calculation_published k r sh pl v o preset sel verified collected shares calc skr esmr honest current :
  C k r sh pl v o → preset = kp_preset (run_params R) →
  honest_parties k = Some sel → verified_dealer_ids r = Some verified →
  selected_shares sh (List.filter (λ p, bool_decide (p ∈ verified) && bool_decide (p ∈ sel)) (btree_set collected)) = Some shares →
  build_decryption_key_plan preset (ks_party_id k) (run_size R) (ks_params k) (threshold_m k) (threshold_n k) current shares None sel
    = Ok (Proceed calc skr esmr honest) →
  calculation_ok R o calc ∧ honest = sel.
Proof.
  intros HC -> Hsel Hver Hshares Hplan.
  destruct HC as ((_ & Hp & _) & _ & _ & Hhon & Hcsh & _ & _ & Hcver & _). rewrite Hp in Hplan. clear Hp.
  destruct (selected_shares_ok _ _ _ _ _ Hcsh Hshares)
    as (Hids & Hown & Hauth).
  assert (NoDup (ts_party_id <$> shares)) as Hnd.
  { rewrite Hids. eapply sublist_NoDup; [|apply filter_sublist]. apply sorted_lt_NoDup, btree_set_sorted. }
  destruct (plan_follows_roster _ _ _ _ _ _ _ _ _ _ _ _ _ _ Hnd ltac:(by rewrite Hids) Hplan)
    as (-> & Hh & _ & sk & own_sk & own_esi & Hsk & Hosk & Hoe & Hexact).
  split; [|done]. destruct (Hhon sel Hsel) as (m & Hacc & Hsub).
  assert (sel = roster_party_ids m) as Heq.
  { apply set_subseteq_size_eq; [done|]. rewrite Hh. apply roster_ids_size. by destruct Hacc as [(_ & _ & _ & Hlen) _]. }
  rewrite <- Heq in *. exists m, current, shares, sk, own_sk, own_esi, skr, esmr. rewrite <- Heq.
  split_and!; try done. intros p Hp Hne.
  destruct Hexact as [Hd _]. destruct (dealt_share _ _ _ _ _ _ _ _ p Hd) as (ts & Hts & <-);
    [by apply elem_of_btree_set|done|].
  assert (ts_party_id ts ∈ ts_party_id <$> shares) as Hin by by apply list_elem_of_fmap_2.
  rewrite Hids in Hin. apply elem_of_filter_bool in Hin as [_ Hin]. apply andb_true_iff in Hin as [Hv _].
  bool_to_prop. by apply (proj1 Hcver verified).
Qed.

Lemma proceed_G k r sh pl v o :
  is_Some (dkg_roster r) → G R k r sh pl v o (proceed_with_decryption_key_calculation None).
Proof.
  intros Hroster. unfold proceed_with_decryption_key_calculation.
  step. apply g_lift; intros current Hcur. apply g_ok_or; intros sel Hsel. step. apply g_ok_or; intros verified Hver.
  apply g_ok_or; intros collected Hcol. step. apply g_ok_or; intros shares Hshares. apply g_lift; intros cs Hcs.
  apply g_lift; intros plan Hplan. destruct plan as [|calc skr esmr honest]; [repeat step|].
  apply g_assume; intros HC. rewrite (committee_size_known _ _ _ _ _ _ _ HC Hcs) in Hplan.
  destruct (calculation_published _ _ _ _ _ _ _ _ _ _ _ _ _ _ _ _ HC eq_refl Hsel Hver Hshares Hplan) as [Hcalc ->].
  step. step.
  - by rewrite Hsel in *.
  - open_fix.
  - open_rel.
  - step; [open_fix|]. step. step; [|step]. intros _. eapply (pub_ok_mono R o); [by eexists|exact Hcalc].
Qed.

Lemma maybe_start_sat : sat maybe_start_c4_for_accepted_roster.
Proof.
  intros k r sh pl v o. unfold maybe_start_c4_for_accepted_roster. repeat step. apply proceed_G. by eexists.
Qed.

(** An accepted roster is authentic and this node holds its contributions. *)
Lemma accept_G roster ec k r sh pl v o :
  accepted_ok R roster →
  (∀ m, dkg_roster r = Some m → roster = m ∨ co_party_id roster < co_party_id m ∧ dkg_roster_fixed k = false) →
  G R k r sh pl v o (accept_dkg_roster roster ec).
Proof.
  intros Hacc Hrank. unfold accept_dkg_roster. step. step. step; [step|].
  step.
  - match goal with HF : Cros _ _ _ |- _ => destruct HF as [HF1 HF2] end. split; [|by intros m [= <-]].
    apply map_Forall_lookup. intros p m [Hm _]%map_lookup_filter_Some. by apply (map_Forall_lookup_1 _ _ _ _ HF1).
  - open_fix.
  - open_rel. intros m Hm. eexists. split; [done|].
    match goal with HF : ∀ m, dkg_roster (run_recovery R) = Some m → _ |- _ => destruct (HF m Hm) as (m' & Hm' & Hcase) end.
    destruct (Hrank m' Hm') as [->|[Hlt Hf]]; [done|]. right.
    destruct (dkg_roster_fixed (run_state R)) eqn:Hf0; [|destruct Hcase as [->|[? ?]]; split; lia || done].
    match goal with HF : true = true → _ |- _ => specialize (HF eq_refl) end. congruence.
  - repeat step.
    + intros s [= <-]. exists roster. split; [done|]. destruct (dkg_roster_is_fixed _ _); set_solver.
    + apply maybe_start_sat.
Qed.
Lemma maybe_accept_sat ec : sat (maybe_accept_pending_roster ec).
Proof.
  intros k r sh pl v o. unfold maybe_accept_pending_roster. step. step; [|step]. step. step. step; [step|].
  destruct (List.find _ _) as [[proposer roster]|] eqn:Hfind; [|step].
  apply List.find_some in Hfind as [Hin Hacc]. apply list_elem_of_In, elem_of_btree_list in Hin. cbn in Hacc.
  unfold acceptable in Hacc. rewrite !andb_true_iff in Hacc. destruct Hacc as (((_ & Hlow) & _) & Hsup).
  unfold roster_is_supported_by_local_state in Hsup. rewrite !andb_true_iff in Hsup. destruct Hsup as ((Hown & _) & _).
  apply g_assume; intros (_ & (_ & Hready & _) & (Hpend & _) & _ & _ & (Hfix & _) & _ & _ & _ & _ & _ & _).
  pose proof (map_Forall_lookup_1 _ _ _ _ Hpend Hin) as Hok.
  destruct (dkg_ready r) as [ready|] eqn:Hr; [|done].
  intros HC. eapply triple_bind; [apply accept_G; [|intros m Hm|exact HC]|].
  - split; [rewrite (proj1 Hok); exact Hok|]. exists ready. split; [by apply Hready|exact Hown].
  - right. rewrite Hm in Hlow. cbn in Hlow. apply Nat.ltb_lt in Hlow. rewrite (proj1 Hok). split; [done|].
    match goal with HF : is_some_b (dkg_roster r) && _ = false |- _ => rewrite Hm in HF; cbn in HF end.
    unfold dkg_roster_is_fixed in *. by destruct (dkg_roster_fixed k).
  - intros [] w Hw. exact Hw.
Qed.

Lemma publish_ready_G k' l ec k r sh pl v o :
  ks_party_id k' = run_own R → (∀ m, sign (mkKs (run_params R) (saved k) (saved r) sh pl v) k' Ready l = Some m → ready_ok R (run_own R) m) →
  (∀ m, dkg_ready r = Some m → ∀ d, d ∈ dealers m → d ∈ l ∨ d_party_id d ∈ expelled_parties k) →
  G R k r sh pl v o (publish_ready k' l ec).
Proof.
  intros Hown Hsign Hext. unfold publish_ready. step. apply g_ok_or; intros m Hm. specialize (Hsign m Hm).
  assert (dealers m = l) as Hl by (by apply sign_coordination_spec in Hm as (_ & _ & _ & _ & _ & ?)).
  step.
  - match goal with HF : Crep _ _ _ _ |- _ => destruct HF as (HF1 & HF2 & HF3) end. split_and!; [|by intros ? [= <-]|done].
    cbn. rewrite Hown. by apply map_Forall_insert_2.
  - open_rel. intros x Hx.
    match goal with HF : ∀ m, dkg_ready (run_recovery R) = Some m → _ |- _ => destruct (HF x Hx) as (x' & Hx' & Hd) end.
    eexists. split; [done|]. intros d Hin. destruct (Hd d Hin) as [Hd'|Hd']; [|by right].
    cbn. rewrite Hl. by apply (Hext x' Hx').
  - step. step; [|step; sub maybe_start_sat].
    step. step. step. sub inputs_ready_sat. sub propose_sat. sub maybe_start_sat.
Qed.

(** The dealers of this node's report. *)

Lemma dealer_of_id e p m d : dealer_of e p m = Ok d → d_party_id d = p.
Proof.
  unfold dealer_of, dealer_identity. destruct (signed_c2a_proof m), (signed_c2b_proof m); try done.
  repeat case_match; try done; intros; by simplify_eq.
Qed.

Lemma verified_dealers_ids e shares ids l : verified_dealers e shares ids = Ok l → dealer_ids l = ids ∧ ∀ p, p ∈ ids → is_Some (shares !! p).
Proof.
  revert l. induction ids as [|p ids IH]; intros l; cbn [verified_dealers].
  { intros [= <-]. split; [done|]. by intros p ?%elem_of_nil. }
  destruct (shares !! p) as [s|] eqn:Hs; [|done]. destruct (dealer_of e p s.1) as [d|] eqn:Hd; [|done].
  destruct (verified_dealers e shares ids) as [l'|]; [|done]. intros [= <-]. destruct (IH l' eq_refl) as [Hl Hin].
  unfold dealer_ids in *. csimpl. rewrite Hl, (dealer_of_id _ _ _ _ Hd). split; [done|].
  intros q [->|Hq]%elem_of_cons; [by eexists|by apply Hin].
Qed.

Lemma ready_canonical (a : Ks) k l m n :
  sign a k Ready l = Some m → ascending l = true → (∀ p, p ∈ dealer_ids l → p < n) → has_canonical_dealers m n = true.
Proof.
  intros (_ & _ & _ & _ & _ & Hl)%sign_coordination_spec Hasc Hlt. unfold has_canonical_dealers. rewrite Hl, Hasc. cbn.
  destruct (last l) as [d|] eqn:Hlast; [|done]. apply Nat.ltb_lt, Hlt. apply list_elem_of_fmap_2.
  by apply last_Some_elem_of.
Qed.

Lemma sorted_dealers_perm l p : p ∈ dealer_ids (merge_sort dealer_le l) ↔ p ∈ dealer_ids l.
Proof. unfold dealer_ids. by rewrite (merge_sort_Permutation dealer_le l). Qed.

Lemma member_bound p a : member R p = Some a → p < length (committee (run_selected R)).
Proof. unfold member. destruct (committee (run_selected R) !! p) eqn:Hp; [|done]. intros _. by eapply lookup_lt_Some. Qed.

(** A report that this node signs over its own and the verified contributions. *)
Lemma own_report_ok k r sh pl v o sel own addr od others ids h m :
  C k r sh pl v o → rs_selected r = Some sel → committee sel !! ks_party_id k = Some own → parse_address own = Some addr →
  addr = signer_address (kp_signer (run_params R)) → d_party_id od = ks_party_id k →
  verified_dealers (ks_e3_id k) sh ids = Ok others →
  committee_h k = Ok h → h ≤ length (merge_sort dealer_le (od :: others)) →
  ascending (merge_sort dealer_le (od :: others)) = true →
  sign (mkKs (run_params R) (saved k) (saved r) sh pl v) k Ready (merge_sort dealer_le (od :: others)) = Some m →
  ready_ok R (run_own R) m.
Proof.
  intros HC Hsel Hown Haddr Hsigner Hod Hothers Hh Hlen Hasc Hm.
  pose proof (committee_h_known _ _ _ _ _ _ _ HC Hh) as ->.
  destruct HC as ((He3 & Hparty & _ & _ & Hsel' & _) & _ & _ & _ & (Hsh & _) & _).
  assert (sel = run_selected R) as -> by congruence.
  pose proof Hm as (Hrec & Hce3 & Hci & Hcp & Hck & Hcd)%sign_coordination_spec.
  apply verified_dealers_ids in Hothers as [Hids Hin].
  assert (member R (run_own R) = Some addr) as Hmem by (unfold member; by rewrite <- Hparty, Hown).
  split_and!; [congruence|done| |by rewrite Hcd|].
  - split_and!; [congruence|done| |].
    + exists addr. split; [by rewrite Hcp, Hparty|]. by rewrite Hrec, Hsigner.
    + eapply ready_canonical; [exact Hm|done|]. intros p. rewrite sorted_dealers_perm. unfold dealer_ids. csimpl.
      intros [->|Hp]%elem_of_cons; [rewrite Hod, Hparty; by eapply member_bound|].
      fold (dealer_ids others) in Hp. rewrite Hids in Hp. destruct (Hin p Hp) as [e He].
      destruct (Hsh p e He) as (_ & _ & _ & _ & (a & Ha & _) & _). by eapply member_bound.
  - rewrite Hcd, sorted_dealers_perm. unfold dealer_ids. csimpl. rewrite Hod, Hparty. left.
Qed.

Lemma maybe_publish_ready_sat ec : sat (maybe_publish_dkg_ready ec).
Proof.
  intros k r sh pl v o. unfold maybe_publish_dkg_ready. step. step; try step. step; [|step].
  destruct p as [[c2a c2b] verified]. apply g_ok_or; intros sel Hsel. apply g_ok_or; intros own Hown.
  apply g_ok_or; intros addr Haddr. step. apply g_ensure; intros Hsigner. apply g_lift; intros od Hod.
  apply g_lift; intros others Hothers. apply g_lift; intros h Hh. step; [step|].
  apply g_ensure; intros Hasc. apply Nat.ltb_ge in Heqb. apply bool_decide_eq_true in Hsigner.
  apply g_assume; intros HC.
  assert (d_party_id od = ks_party_id k) as Hid.
  { destruct (dealer_identity _ _ _ _ _) as [x|] eqn:Hx; [|done]. injection Hod as <-.
    unfold dealer_identity in Hx. repeat case_match; try done. by injection Hx as <-. }
  assert (ks_party_id k = run_own R) as Hparty by (by destruct HC as ((_ & ? & _) & _)).
  destruct (dkg_ready r) as [existing|] eqn:Hr.
  - destruct (ready_update _ _ _) eqn:Hu; [| |step]; [|sub maybe_start_sat].
    apply publish_ready_G; [done|intros m Hm; by eapply own_report_ok|].
    intros m Hm x Hx. rewrite Hr in Hm. injection Hm as <-. destruct (decide (d_party_id x ∈ expelled_parties k)) as [|Hlive]; [by right|left].
    apply ready_update_extends in Hu as [Hu _]. by apply Hu.
  - apply publish_ready_G; [done|intros m Hm; by eapply own_report_ok|by rewrite Hr].
Qed.
(** ** Coordination messages *)

Lemma settle_from_held current held expelled :
  (∀ a, (settle_held_updates current held expelled).1 = Some a → a ∈ held) ∧
  (∀ u, u ∈ (settle_held_updates current held expelled).2 → u ∈ held).
Proof.
  unfold settle_held_updates. pose proof (settle_loop_spec expelled (length held) current held false ltac:(lia)) as Hs.
  destruct (settle_loop (length held) expelled current held false) as [[c l] ch]. destruct Hs as (_ & _ & Hsub & _ & Hcur). cbn.
  split.
  - intros a Ha. destruct Hcur as [[_ ->]|(u & -> & Hu & ->)]; [done|]. by simplify_eq.
  - intros u [Hu _]%elem_of_filter_bool. by apply Hsub.
Qed.

Lemma settle_reporter_held r expelled p held :
  (∀ a, (settle_reporter r expelled p held).1 = Some a → a ∈ held) ∧
  (∀ u, u ∈ (settle_reporter r expelled p held).2 → u ∈ held).
Proof.
  unfold settle_reporter. destruct (bool_decide (p ∈ expelled)); [|apply settle_from_held].
  split; [done|]. by intros u ?%elem_of_nil.
Qed.

Lemma apply_settled_ok expelled r :
  Crep R (ready_by_party r) (dkg_ready r) (held_ready_updates r) → Cros R (pending_rosters r) (dkg_roster r) →
  Crep R (ready_by_party (apply_settled expelled r)) (dkg_ready r) (held_ready_updates (apply_settled expelled r)) ∧
  Cros R (pending_rosters (apply_settled expelled r)) (dkg_roster r).
Proof.
  intros (Hready & Hown & Hheld) (Hpend & Hros). split; [split_and!|split]; try done; cbn; apply map_Forall_lookup.
  - intros p m [Hm|[_ Hm]]%lookup_union_Some_raw; [|by apply (map_Forall_lookup_1 _ _ _ _ Hready)].
    rewrite map_lookup_imap in Hm. destruct (held_ready_updates r !! p) as [l|] eqn:Hl; [|done]. cbn in Hm.
    pose proof (map_Forall_lookup_1 _ _ _ _ Hheld Hl) as Hall. rewrite Forall_forall in Hall.
    apply Hall. by apply (proj1 (settle_reporter_held r expelled p l)).
  - intros p l'. rewrite map_lookup_imap. destruct (held_ready_updates r !! p) as [l|] eqn:Hl; [|done]. cbn.
    pose proof (map_Forall_lookup_1 _ _ _ _ Hheld Hl) as Hall. cbn in Hall. unfold kept_updates.
    destruct (settle_reporter_held r expelled p l) as [_ Hsub].
    destruct (_ || _); [|by intros [= <-]].
    destruct (settle_reporter r expelled p l).2 as [|u rest]; [done|]. intros [= <-].
    apply Forall_forall. intros x Hx. rewrite Forall_forall in Hall. by apply Hall, Hsub.
  - intros p m [Hm _]%map_lookup_filter_Some. by apply (map_Forall_lookup_1 _ _ _ _ Hpend).
Qed.

Lemma apply_held_sat ec : sat (apply_held_ready_updates ec).
Proof.
  intros k r sh pl v o. unfold apply_held_ready_updates. step. step; [step|]. step. step; [step|]. step.
  - by apply (proj1 (apply_settled_ok (expelled_parties k) r ltac:(done) ltac:(done))).
  - by apply (proj2 (apply_settled_ok (expelled_parties k) r ltac:(done) ltac:(done))).
  - sub maybe_accept_sat. step. step; [|step]. sub inputs_ready_sat. sub propose_sat.
Qed.

Lemma aggregator_changed_sat change ec : sat (handle_aggregator_changed change ec).
Proof.
  intros k r sh pl v o. unfold handle_aggregator_changed. step. step; [step|]. step. step. step.
  sub maybe_accept_sat. step. step; [|step]. sub inputs_ready_sat. sub propose_sat.
Qed.

Lemma record_ready_G m limit expelled ec k r sh pl v o :
  ready_ok R (co_party_id m) m → G R k r sh pl v o (record_ready m limit expelled ec).
Proof.
  intros Hm. unfold record_ready. step. destruct (is_none_or _ _); [|destruct (bool_decide _)].
  - step; [|cbn; sub apply_held_sat; sub maybe_accept_sat; step].
    match goal with HF : Crep _ _ _ _ |- _ => destruct HF as (HF1 & HF2 & HF3) end. split_and!; try done.
    by apply map_Forall_insert_2.
  - step; [|cbn; step; sub maybe_accept_sat; step].
    match goal with HF : Crep _ _ _ _ |- _ => destruct HF as (HF1 & HF2 & HF3) end. split_and!; try done.
    apply map_Forall_insert_2; [|done].
    assert (Forall (ready_ok R (co_party_id m)) (default [] (held_ready_updates r !! co_party_id m))) as Hd.
    { destruct (held_ready_updates r !! co_party_id m) as [l|] eqn:Hl; [|constructor]. by apply (map_Forall_lookup_1 _ _ _ _ HF3). }
    unfold hold_update. destruct (existsb _ _); [done|]. destruct (_ <? _); [apply Forall_drop|]; (apply Forall_app; split; [done|]); by apply Forall_singleton.
  - step. cbn. step. sub maybe_accept_sat. step.
Qed.

Lemma record_roster_G m k' ec k r sh pl v o :
  roster_ok R (co_party_id m) m → G R k r sh pl v o (record_roster m k' ec).
Proof.
  intros Hm. unfold record_roster. step. step. step; [step|]. apply g_mutate_recovery.
  - destruct (is_none_or _ _); [|keep]. keep. match goal with HF : Cros _ _ _ |- _ => destruct HF as [HF1 HF2] end.
    split; [|done]. by apply map_Forall_insert_2.
  - sub maybe_accept_sat. step; [step|sub inputs_ready_sat].
Qed.

Lemma record_coordination_sat m ec : sat (record_dkg_coordination m ec).
Proof.
  intros k r sh pl v o. unfold record_dkg_coordination. step. step. step; [step|]. step. apply g_ok_or; intros sel Hsel.
  destruct (committee sel !! co_party_id m) as [s|] eqn:Hs; [|step]. apply g_ok_or; intros addr Haddr.
  destruct (negb (bool_decide (coordination_recover_address m = Some addr)) || _) eqn:Hsig; [step|].
  apply g_lift; intros h Hh. apply g_assume; intros HC. pose proof (committee_h_known _ _ _ _ _ _ _ HC Hh) as ->.
  destruct HC as ((He3 & _ & _ & _ & Hsel' & _) & _). assert (sel = run_selected R) as -> by congruence.
  apply orb_false_iff in Heqb as [Hid Hif], Hsig as [Hrec Hcan]. bool_to_prop.
  assert (member_signed R m) as Hsigned.
  { split_and!; [congruence|done| |done]. exists addr. split; [|done]. unfold member. by rewrite Hs. }
  destruct (co_kind m) eqn:Hkind; (destruct (_ || _) eqn:Hg; [step|]).
  - apply orb_false_iff in Hg as [[Hlen _]%orb_false_iff Hin]. apply record_ready_G.
    apply Nat.ltb_ge in Hlen. apply negb_false_iff, existsb_elem_of in Hin as (d & Hd & Heq). apply Nat.eqb_eq in Heq.
    split_and!; try done. rewrite <- Heq. by apply list_elem_of_fmap_2.
  - apply orb_false_iff in Hg as [[_ Hlen]%orb_false_iff _]. apply record_roster_G.
    apply negb_false_iff, Nat.eqb_eq in Hlen. by split_and!.
Qed.

Lemma on_coordination_sat m ec : sat (on_dkg_coordination m ec).
Proof.
  intros k r sh pl v o. unfold on_dkg_coordination. sub record_coordination_sat. step. step; [|step].
  sub inputs_ready_sat. sub propose_sat.
Qed.
(** ** Publication of the keyshare *)

Lemma publish_keyshare_sat ec : c4_done R → sat (publish_keyshare_created ec).
Proof.
  intros Hc4 k r sh pl v o. unfold publish_keyshare_created. step.
  destruct (keyshare_created_fields (ks_state k)) as [[pk_share signed]|]; [|by repeat step].
  step; [done|]. destruct signed as [signed|]; [|by repeat step]. step.
  - intros ((_ & Hp & _) & _). split_and!; [done|by eexists|done].
  - repeat step; [done|]. open_rel.
Qed.

Lemma try_finish_sat ec : sat (try_finish_deferred_keyshare_publish ec).
Proof.
  intros k r sh pl v o. unfold try_finish_deferred_keyshare_publish. step. step; [step|]. step.
  apply g_assume; intros (_ & _ & _ & _ & _ & _ & _ & _ & _ & (Hc4 & _) & _).
  apply negb_false_iff in Heqb. assert (c4_done R) as Hdone by (apply Hc4; tauto).
  destruct (keyshare_created_fields (ks_state k)) as [[? [?|]]|]; [|step..]. step; [done|].
  by apply publish_keyshare_sat.
Qed.

Lemma publish_majority_sat ec : c4_done R → sat (publish_with_honest_majority ec).
Proof.
  intros Hc4 k r sh pl v o. unfold publish_with_honest_majority. step. step; [by repeat step|by apply publish_keyshare_sat].
Qed.

Lemma retain_honest_C dishonest k r sh pl v o : C k r sh pl v o → C (retain_honest dishonest k) r sh pl v o.
Proof.
  keep. match goal with HF : Chon _ _ |- _ => rename HF into Hh end. cbn. intros s.
  destruct (honest_parties k) as [x|]; [|done]. cbn. intros [= <-]. destruct (Hh x eq_refl) as (m & Hm & Hsub).
  exists m. split; [done|]. set_solver.
Qed.

Lemma dispatch_c4_sat shares ec : c4_done R → sat (dispatch_c4_verification shares ec).
Proof.
  intros Hc4 k r sh pl v o. unfold dispatch_c4_verification. step. step. step.
  - step. step; [by apply publish_majority_sat|]. repeat step.
  - apply g_mutate_state; [apply retain_honest_C|]. step; [by apply publish_majority_sat|]. repeat step.
Qed.
(** ** Recorded inputs *)

(** The reference of a payload and the payload in memory change together. *)
Lemma g_record_share ec f g sh' pl' k r sh pl v o :
  g (mkKs (run_params R) (saved k) (saved (set_last_ec (Some ec) (f r))) sh pl v) =
    mkKs (run_params R) (saved k) (saved (set_last_ec (Some ec) (f r))) sh' pl' v →
  (C k r sh pl v o → C k (set_last_ec (Some ec) (f r)) sh' pl' v o) →
  G R k r sh pl v o (mutate_recovery ec f ;; modify g).
Proof.
  intros Hg Hf HC w [Hst Ho]. unfold bind, mutate_recovery.
  pose proof (try_mutate_saved KsPersist (λ r, Ok (set_last_ec (Some ec) (f r)) : result RecoveryState KsError) w r) as Hm.
  rewrite Hst in Hm at 1. specialize (Hm eq_refl). destruct Hm as [rest [->| ->]].
  - by exists k, r, sh, pl, v, o.
  - exists k, (set_last_ec (Some ec) (f r)), sh', pl', v, o. split; [|by apply Hf]. split; [|done].
    cbn. rewrite Hst. exact Hg.
Qed.

Lemma record_share_sat m ec : share_ok R (ts_party_id (tsc_share m)) (m, ec) → sat (record_threshold_share m ec).
Proof.
  intros Hok k r sh pl v o. unfold record_threshold_share. step. cbn [k_shares].
  destruct (sh !! ts_party_id (tsc_share m)) as [e|] eqn:He; [by repeat step|]. step.
  eapply g_shares; [done| |].
  { keep. match goal with HF : Csh _ _ _ _ |- _ => destruct HF as [HF1 HF2] end. split; [done|]. intros p ref Hp.
    destruct (HF2 p ref Hp) as (x & Hx & Hpx & Hr). exists x. split_and!; try done.
    cbn. rewrite lookup_insert_ne; [done|]. intros <-. pose proof (eq_trans (eq_sym He) Hx). done. }
  eapply g_record_share; [done|]. keep.
  match goal with HF : Csh _ _ _ _ |- _ => destruct HF as [HF1 HF2] end. cbn in HF2 |- *. unfold or_insert. rewrite He. split.
  - by apply map_Forall_insert_2.
  - intros p ref. destruct (threshold_share_refs r !! ts_party_id (tsc_share m)) as [ref'|] eqn:Href.
    { destruct (HF2 _ _ Href) as (x & Hx & _). pose proof (eq_trans (eq_sym He) Hx). done. }
    destruct (decide (p = ts_party_id (tsc_share m))) as [->|Hne].
    + rewrite !lookup_insert_eq. intros [= <-]. by exists (m, ec).
    + intros Hp. rewrite lookup_insert_ne in Hp by done. destruct (HF2 p ref Hp) as (x & Hx & Hpx & Hr). exists x.
      by rewrite lookup_insert_ne by done.
Qed.

Lemma record_key_sat e ec : sat (record_encryption_key e ec).
Proof. intros k r sh pl v o. unfold record_encryption_key. by repeat step. Qed.

Lemma record_key_share_sat m ec : sat (record_decryption_key_share m ec).
Proof. intros k r sh pl v o. unfold record_decryption_key_share. by repeat step. Qed.
(** ** The C2/C3 batch *)

Lemma record_collected_G {B} ids ec (K : bool → Mon B) k r sh pl v o :
  (∀ r', collected_ids r' = Some ids → G R k r' sh pl v o (K true)) → (∀ r', G R k r' sh pl v o (K false)) →
  G R k r sh pl v o (bind (record_collected_threshold_shares ids ec) K).
Proof.
  intros Ht Hf. unfold record_collected_threshold_shares. step. step. step; [step; apply Hf|].
  step. step. step. apply g_mutate_recovery; destruct (batch_accepted r ids (expelled_parties k)).
  - keep; [by intros batch id _ ?%elem_of_nil|]. match goal with HF : Cver _ _ _ _ |- _ => by destruct HF end.
  - keep.
  - step. by apply Ht.
  - step. apply Hf.
Qed.

(** Every share that is not this node's own is sent to the verifier or reported. *)
Lemma checks_cover (check : ThresholdShare → ReceivedShareProofs → Precheck) batch s :
  s ∈ batch → check s.1 s.2 ≠ OwnShare →
  ts_party_id s.1 ∈ sender_party_id <$> to_verify check batch ∨ ts_party_id s.1 ∈ pre_dishonest_of check batch.
Proof.
  intros Hs Hne. destruct (check s.1 s.2) as [| |signed] eqn:Hc; [done|right|left].
  - unfold pre_dishonest_of. apply elem_of_list_to_set, list_elem_of_omap. exists s. destruct s. cbn in *. by rewrite Hc.
  - apply list_elem_of_fmap. exists (mkPartyProofs (ts_party_id s.1) signed). split; [done|].
    apply list_elem_of_omap. exists s. destruct s. cbn in *. by rewrite Hc.
Qed.

(** A dispatch covers the live shares of the batch, apart from this node's own. *)
Lemma dispatch_covers k r batch checked e preset csize p :
  check_batch k r (live_shares k batch) = Ok checked →
  p ∈ batch_ids batch →
  p ∈ covered (mkDispatched e ShareProofs checked.1 checked.2 preset csize) ∨ p ∈ expelled_parties k ∨ p = ks_party_id k.
Proof.
  unfold check_batch. intros Hc Hp. repeat (case_match; [|done]). injection Hc as <-.
  apply elem_of_list_to_set, list_elem_of_fmap in Hp as (s & -> & Hs).
  destruct (decide (ts_party_id s.1 ∈ expelled_parties k)) as [|Hlive]; [tauto|].
  destruct (decide (ts_party_id s.1 = ks_party_id k)) as [|Hne]; [tauto|]. left.
  assert (s ∈ live_shares k batch) as Hin by (apply elem_of_filter_bool; split; [done|by apply bool_decide_eq_true]).
  unfold covered. cbn. apply elem_of_union. rewrite elem_of_list_to_set. apply checks_cover; [done|].
  unfold precheck. rewrite (proj2 (Nat.eqb_neq _ _) Hne). by repeat case_match.
Qed.

Lemma verify_batch_G resume batch ec k r sh pl v o :
  collected_ids r = Some (batch_ids batch) →
  (∀ verdict r' v' o', svc_kind verdict.1 = ShareProofs → Delivered R (OnVerification verdict.1 verdict.2) →
     causation_id verdict.2 ∈ share_dispatch_ids r' → G R k r' sh pl v' o' (resume verdict)) →
  G R k r sh pl v o (verify_batch resume batch ec).
Proof.
  intros Hcol Hres. unfold verify_batch. step. step; [step|].
  step. step. cbv zeta. apply g_lift; intros checked Hchecked. step. apply g_lift; intros csize Hcsize. step.
  set (d := mkDispatched _ _ _ _ _ _).
  assert (dispatch_id d ∈ share_dispatch_ids (set_last_ec (Some ec) (add_dispatch (dispatch_id d) r))) as Hin.
  { unfold add_dispatch. destruct (bool_decide (dispatch_id d ∈ share_dispatch_ids r)) eqn:Hb; bool_to_prop; [done|].
    cbn. apply elem_of_app. right. by apply list_elem_of_singleton. }
  apply g_mutate_recovery.
  { unfold add_dispatch. destruct (bool_decide (dispatch_id d ∈ share_dispatch_ids r)) eqn:Hb; [keep|]. keep.
    match goal with HF : Cdis _ _ _ _ _ |- _ => rename HF into Hdis end.
    intros b id Hbatch. cbn. rewrite elem_of_app, list_elem_of_singleton. intros [Hid| ->]; [by apply (Hdis b id)|].
    cbn in Hbatch. rewrite Hcol in Hbatch. injection Hbatch as <-. exists d. split_and!; [|done|].
    - left. apply elem_of_app. right. by apply list_elem_of_singleton.
    - intros p Hp. match goal with HF : Cid _ _ _ _ _ _ _ |- _ => destruct HF as (_ & <- & _) end.
      by eapply dispatch_covers. }
  step. step; [|step]. apply g_assume; intros (_ & _ & _ & _ & _ & _ & _ & _ & Hpar & _).
  destruct (map_Forall_lookup_1 _ _ _ _ Hpar Heqo0) as (Hid & Hkind & Hdel). step.
  - by apply map_Forall_delete.
  - apply Hres; [done..|]. by rewrite Hid.
Qed.
(** The verified dealers of a verdict: the parties of the batch that its dispatch covers, that it
    does not name and that are not expelled. *)
Lemma record_verification_G {B} msg ec (K : () → Mon B) k r sh pl v o :
  Delivered R (OnVerification msg ec) → (svc_kind msg = ShareProofs → causation_id ec ∈ share_dispatch_ids r) →
  (∀ r', G R k r' sh pl v o (K tt)) → G R k r sh pl v o (bind (record_share_verification msg ec) K).
Proof.
  intros Hdel Hid HK. unfold record_share_verification. destruct (svc_kind msg) eqn:Hkind.
  - step. step. step. step. step. apply g_ok_or; intros collected Hcol. step; [|apply HK].
    match goal with HF : Cdis _ _ _ _ _ |- _ => rename HF into Hdis end.
    cbn. split; [|by intros x [= <-]]. intros vs p [= <-] Hp Hne. destruct (Hdis collected _ Hcol (Hid eq_refl)) as (d & Hk & Hd & Hcov).
    exists msg, ec, d. split_and!; try done; [|set_solver].
    apply elem_of_difference in Hp as [[Hp _]%elem_of_difference Hexp]. destruct (Hcov p Hp) as [?|[?|?]]; done.
  - step; [|apply HK]. match goal with HF : Caut _ _ _ _ _ |- _ => destruct HF as [Ha Hv] end.
    split; [done|]. intros _ _. left. by exists msg, ec.
  - step. apply HK.
  - step. apply HK.
Qed.

Lemma handle_verdict_sat msg ec : (svc_kind msg = DecryptionProofs → c4_done R) → sat (handle_share_verification_complete msg ec).
Proof.
  intros Hc4 k r sh pl v o. unfold handle_share_verification_complete. step. destruct (svc_kind msg).
  - step; [apply maybe_publish_ready_sat|]. step. step. step; [by repeat step|]. apply maybe_publish_ready_sat.
  - step; [apply publish_keyshare_sat; tauto|]. apply g_mutate_state; [apply retain_honest_C|].
    apply publish_majority_sat; tauto.
  - step.
  - step.
Qed.

Section Verify.
Variable verify : list (ThresholdShare * ReceivedShareProofs) → EventContext → Mon ().
Hypothesis verify_G : ∀ batch ec k r sh pl v o, collected_ids r = Some (batch_ids batch) → G R k r sh pl v o (verify batch ec).

Lemma dispatch_expanded_sat ec : sat (dispatch_expanded verify ec).
Proof.
  intros k r sh pl v o. unfold dispatch_expanded. step. step; [step|]. step. step; [step|]. step; [step|]. step.
  apply g_ok_or; intros batch Hb. apply record_collected_G; intros r'; [intros Hcol; by apply verify_G|step].
Qed.

Lemma apply_verdict_G verdict k r sh pl v o :
  Delivered R (OnVerification verdict.1 verdict.2) →
  (svc_kind verdict.1 = ShareProofs → causation_id verdict.2 ∈ share_dispatch_ids r) →
  G R k r sh pl v o (apply_verdict verify verdict).
Proof.
  intros Hdel Hid. unfold apply_verdict. apply record_verification_G; [done..|]. intros r'.
  assert (svc_kind verdict.1 = DecryptionProofs → c4_done R) as Hc4 by (intros Hk; left; by exists verdict.1, verdict.2).
  apply g_sub; [by apply handle_verdict_sat|]. intros _. apply dispatch_expanded_sat.
Qed.
End Verify.

Lemma verify_loop_G fuel batch ec k r sh pl v o :
  collected_ids r = Some (batch_ids batch) → G R k r sh pl v o (verify_loop fuel batch ec).
Proof.
  revert batch ec k r sh pl v o. induction fuel as [|fuel IH]; intros batch ec k r sh pl v o Hcol; cbn [verify_loop]; [step|].
  apply verify_batch_G; [done|]. intros verdict r' v' o' Hkind Hdel Hid. by apply apply_verdict_G.
Qed.

Lemma all_collected_G batch ec k r sh pl v o :
  collected_ids r = Some (batch_ids batch) → G R k r sh pl v o (handle_all_threshold_shares_collected batch ec).
Proof. intros Hcol HC w Hw. unfold handle_all_threshold_shares_collected. by apply (verify_loop_G _ batch ec k r sh pl v o Hcol HC w Hw). Qed.

Lemma expand_sat ec : sat (dispatch_expanded_threshold_share_batch ec).
Proof. apply dispatch_expanded_sat, all_collected_G. Qed.

Lemma on_collected_sat batch ec : sat (on_shares_collected batch ec).
Proof.
  intros k r sh pl v o. unfold on_shares_collected. apply record_collected_G; intros r'; [intros Hcol; by apply all_collected_G|step].
Qed.

Lemma rebuilt_ids r ids sh pl batch :
  Csh R sh pl (threshold_share_refs r) → rebuild_collected_threshold_shares r ids sh = Some batch → batch_ids batch = ids.
Proof.
  intros [Hsh _] Hb. apply mapM_Some in Hb. unfold batch_ids.
  assert (((λ s : ThresholdShare * ReceivedShareProofs, ts_party_id s.1) <$> batch) = btree_set ids) as Heq.
  { induction Hb as [|p s ps batch Hp _ IH]; [done|]. csimpl. rewrite IH. f_equal.
    destruct (threshold_share_refs r !! p); [|done]. cbn in Hp. destruct (sh !! p) as [e|] eqn:He; [|done].
    injection Hp as <-. by destruct (Hsh p e He). }
  rewrite Heq. apply set_eq. intros p. by rewrite elem_of_list_to_set, elem_of_btree_set.
Qed.

Lemma verify_recorded_sat ec : sat (verify_recorded_threshold_shares ec).
Proof.
  intros k r sh pl v o. unfold verify_recorded_threshold_shares. step. step; [|step]. step; [step|]. step.
  apply g_ok_or; intros batch Hb. apply g_assume; intros (_ & _ & _ & _ & Hsh & _).
  apply all_collected_G. by rewrite (rebuilt_ids _ _ _ _ _ Hsh Hb).
Qed.

Lemma on_verification_sat msg ec : Delivered R (OnVerification msg ec) → sat (on_share_verification msg ec).
Proof.
  intros Hdel k r sh pl v o. unfold on_share_verification, share_verification_applies. step.
  { step. apply apply_verdict_G; [apply all_collected_G|done|]. cbn. intros Hk. rewrite Hk in Heqb. done. }
  apply negb_false_iff in Heqb. bool_to_prop. step. step. step. step. step; [repeat step|]. step. step. step.
  - step. apply apply_verdict_G; [apply all_collected_G|done|]. cbn. intros _.
    apply andb_true_iff in Heqb1 as [_ Hin]. by bool_to_prop.
  - step; [by repeat step|]. step. step; [|by repeat step]. cbn. unfold or_insert.
    destruct (parked_verdicts v !! causation_id ec); [done|]. apply map_Forall_insert_2; [|done]. by split_and!.
Qed.

(** The log names a dispatch by its content. *)
Lemma record_logged_sat d ec :
  Delivered R (OnDispatchLogged d ec) → ctx_id ec = dispatch_id d → sat (record_logged_share_dispatch d ec).
Proof.
  intros Hdel Hid k r sh pl v o. unfold record_logged_share_dispatch. step. step; [step|]. step.
  destruct (collected_ids r) as [batch|] eqn:Hcol; [|step]. step; [step|]. apply g_tail, g_mutate_recovery; [|step].
  unfold add_dispatch. destruct (bool_decide (ctx_id ec ∈ share_dispatch_ids r)) eqn:Hb; [by keep|]. keep.
  match goal with HF : Cdis _ _ _ _ _ |- _ => rename HF into Hdis end.
  intros b id Hbatch. cbn. rewrite elem_of_app, list_elem_of_singleton. intros [Hin| ->]; [by apply (Hdis b id)|].
  cbn in Hbatch. rewrite Hcol in Hbatch. injection Hbatch as <-. exists d. split_and!; [right; by exists ec|done|].
  cbn in Heqb0. apply negb_false_iff in Heqb0. unfold dispatch_verifies_batch in Heqb0.
  apply andb_true_iff in Heqb0 as [_ Hall]. bool_to_prop. intros p Hp.
  match goal with HF : Cid _ _ _ _ _ _ _ |- _ => destruct HF as (_ & Hown & _) end.
  destruct (decide (p = run_own R)) as [|Hne]; [tauto|]. destruct (Hall p) as [?|?]; [set_solver|tauto|]. by left.
Qed.
(** ** Phases and signed proofs *)

Lemma with_state_C s k r sh pl v o :
  (past_calculation s = true → dkg_roster_fixed k = true) → discriminant (ks_state k) ≤ discriminant s →
  C k r sh pl v o → C (with_state s k) r sh pl v o.
Proof. intros Hpast Hd. keep; [open_fix|]. open_rel. cbn. lia. Qed.

Lemma next_forward s s' : next_valid s s' = true →
  discriminant s ≤ discriminant s' ∧ (past_calculation s' = true → past_calculation s = true ∨ is_aggregating s = true ∧ discriminant s' = 4).
Proof. destruct s, s'; cbn; try done; intros; split; try lia; try done; auto. Qed.

Lemma new_state_C s k k' r sh pl v o :
  new_state k s = Ok k' → (is_aggregating (ks_state k) = true → discriminant s = 4 → dkg_roster_fixed k = true) →
  C k r sh pl v o → C k' r sh pl v o.
Proof.
  unfold new_state, next. destruct (next_valid (ks_state k) s) eqn:Hn; [|done]. intros [= <-] Hfix HC.
  apply next_forward in Hn as [Hd Hp]. apply with_state_C; [|done|done]. intros Hpast.
  destruct (Hp Hpast) as [Hk|[Hk1 Hk2]]; [|by apply Hfix]. destruct HC as (_ & _ & _ & _ & _ & (_ & _ & Hc & _) & _). by apply Hc.
Qed.

Lemma store_pk_proof_sat signed : sat (store_signed_pk_generation_proof signed).
Proof.
  intros k r sh pl v o. apply g_tail, g_mutate_state; [|step]. intros HC. destruct (ks_state k) eqn:Hs; try exact HC;
    (apply with_state_C; [|by rewrite Hs|done]; intros Hp; destruct HC as (_ & _ & _ & _ & _ & (_ & _ & Hc & _) & _);
     apply Hc; by rewrite Hs).
Qed.

Lemma pk_proof_signed_sat p signed ec : sat (handle_pk_generation_proof_signed p signed ec).
Proof.
  intros k r sh pl v o. unfold handle_pk_generation_proof_signed. step. step; [step|].
  sub store_pk_proof_sat. sub try_finish_sat.
Qed.

(** A phase change that cannot leave the aggregation. *)
Lemma g_new_state {B} f (K : () → Mon B) k r sh pl v o :
  (∀ k', f k = Ok k' → ∃ s, new_state k s = Ok k' ∧ (is_aggregating (ks_state k) = true → discriminant s = 4 → dkg_roster_fixed k = true)) →
  (∀ k', f k = Ok k' → G R k' r sh pl v o (K tt)) → G R k r sh pl v o (bind (try_mutate KsPersist f) K).
Proof.
  intros Hf HK. apply g_try_mutate_state. intros k' Hk'. split; [|by apply HK].
  destruct (Hf k' Hk') as (s & Hs & Hp). by apply (new_state_C s).
Qed.

Lemma dkg_proof_signed_sat p signed ec : sat (handle_share_computation_proof_signed p signed ec).
Proof.
  intros k r sh pl v o. unfold handle_share_computation_proof_signed. step. step; [step|].
  apply g_new_state; [|intros; apply maybe_publish_ready_sat]. intros k'.
  destruct (as_aggregating k) as [d|] eqn:Hd; [|done]. intros Hk'. by eexists.
Qed.

(** ** Collectors *)

Lemma timing_sat {A} (x : result A TimingError) : sat (timing x).
Proof. intros k r sh pl v o. unfold timing. repeat step. Qed.

Lemma silent_sat (f : KsOut) : (∀ o, pub_ok R o f) → sat (try_send f).
Proof. intros Hf k r sh pl v o. apply g_tail, g_publish; [done|step]. Qed.

Lemma send_missing_sat : sat send_dealers_without_key.
Proof. apply sat_attempt. intros k r sh pl v o. repeat step. Qed.

Lemma ensure_collector_sat ec now : sat (ensure_collector ec now).
Proof.
  intros k r sh pl v o. unfold ensure_collector. step. step. step. sub @timing_sat. step; [step|]. step. step.
  apply g_sub; [apply sat_for_each; intros; by apply silent_sat|]. intros _ ? ? ? ? ? ?.
  apply g_sub; [apply sat_for_each; intros; by apply silent_sat|]. intros _ ? ? ? ? ? ?. apply send_missing_sat.
Qed.

Lemma stop_collector_sat : sat stop_threshold_share_collector.
Proof. intros k r sh pl v o. unfold stop_threshold_share_collector. repeat step. Qed.

Lemma key_collector_sat t ec : sat (encryption_key_collector_with_timeout t ec).
Proof.
  intros k r sh pl v o. unfold encryption_key_collector_with_timeout. step. step. step. step; [step|]. step. step.
  apply sat_for_each. intros. by apply silent_sat.
Qed.

Lemma ensure_key_collector_sat ec now : sat (ensure_encryption_key_collector ec now).
Proof. intros k r sh pl v o. unfold ensure_encryption_key_collector. step. step. sub @timing_sat. apply key_collector_sat. Qed.

Lemma recover_key_collector_sat ec now : sat (recover_encryption_key_collector ec now).
Proof. intros k r sh pl v o. unfold recover_encryption_key_collector. step. step. sub @timing_sat. apply key_collector_sat. Qed.

Lemma ensure_c4_collector_sat now : sat (ensure_decryption_key_shared_collector now).
Proof.
  intros k r sh pl v o. unfold ensure_decryption_key_shared_collector. step. step. step. sub @timing_sat. repeat step.
Qed.

Lemma tell_sat running x : (∀ o, pub_ok R o x) → sat (tell running x).
Proof. intros Hx k r sh pl v o. unfold tell. step. step; [|step]. apply g_tail, g_emit; [done|step]. Qed.

Lemma with_expelled_C p k r sh pl v o : C k r sh pl v o → C (with_expelled p k) r sh pl v o.
Proof.
  keep.
  - match goal with HF : Chon _ _ |- _ => rename HF into Hh end. cbn. intros s.
    destruct (honest_parties k) as [x|]; [|done]. cbn. intros [= <-]. destruct (Hh x eq_refl) as (m & Hm & Hsub).
    exists m. split; [done|]. set_solver.
  - match goal with HF : Cdis _ _ _ _ _ |- _ => rename HF into Hdis end. intros batch id Hb Hid.
    destruct (Hdis batch id Hb Hid) as (d & Hk & Hd & Hcov). exists d. split_and!; [done..|]. intros q Hq.
    destruct (Hcov q Hq) as [?|[?|?]]; [tauto| |tauto]. right. left. cbn. set_solver.
  - open_rel; [cbn; set_solver|]. intros m Hm.
    match goal with HF : ∀ m, dkg_ready (run_recovery R) = Some m → _ |- _ => destruct (HF m Hm) as (m' & Hm' & Hd) end.
    exists m'. split; [done|]. intros d Hin. destruct (Hd d Hin); [tauto|]. right. cbn. set_solver.
Qed.

Lemma g_capture {B} f (K : result () KsError → Mon B) k r sh pl v o :
  (C k r sh pl v o → C (f k) r sh pl v o) → (∀ k' res, G R k' r sh pl v o (K res)) →
  G R k r sh pl v o (bind (capture (mutate_state f)) K).
Proof.
  intros Hf HK HC w [Hst Ho]. unfold bind, capture, mutate_state.
  pose proof (try_mutate_saved KsPersist (λ k, Ok (f k) : result ThresholdKeyshareState KsError) w k) as Hm.
  rewrite Hst in Hm at 1. specialize (Hm eq_refl). destruct Hm as [rest [->| ->]].
  - by apply (HK k).
  - apply (HK (f k)); [by apply Hf|]. split; [|done]. cbn. by rewrite Hst.
Qed.

Lemma excluded_sat p ec : sat (handle_party_excluded p ec).
Proof.
  intros k r sh pl v o. unfold handle_party_excluded. apply g_capture; [apply with_expelled_C|]. intros k' res. step.
  sub tell_sat; [done|]. sub tell_sat; [done|]. sub tell_sat; [done|]. step. apply apply_held_sat.
Qed.
(** The finalized committee member of a slot. *)
Lemma dealer_address_G {B} e p (K : option Address → Mon B) k r sh pl v o :
  (∀ x, (is_Some x → e = run_e3 R ∧ x = member R p) → G R k r sh pl v o (K x)) →
  G R k r sh pl v o (bind (dkg_dealer_address e p) K).
Proof.
  intros HK. unfold dkg_dealer_address. apply g_assume; intros ((He & _ & _ & _ & Hsel & _) & _). step. step. step.
  - step. apply HK. by intros [? ?].
  - apply negb_false_iff in Heqb. bool_to_prop. step. step. step. apply HK. intros _. split; [congruence|].
    rewrite Hsel. done.
Qed.

Lemma on_share_sat m ec now :
  Delivered R (OnShare m ec now) → ts_party_id (tsc_share m) ≠ run_own R → sat (handle_threshold_share_created m ec now).
Proof.
  intros Hdel Hne k r sh pl v o. unfold handle_threshold_share_created. step. step; [step|].
  apply dealer_address_G. intros x Hx. destruct (negb (is_some_b x) || _) eqn:Hsig; [step|].
  apply orb_false_iff in Hsig as [Hsome Hrec], Heqb as [[_ Htarget]%orb_false_iff _].
  destruct x as [addr|]; [|done]. destruct (Hx ltac:(by eexists)) as [He Hmem]. bool_to_prop.
  apply g_assume; intros ((_ & Hown & _) & _).
  apply g_sub.
  - apply record_share_sat. split_and!; try done; [cbn; by rewrite Htarget, Hown|by exists addr|by exists now].
  - intros _ ? ? ? ? ? ?. sub @timing_sat. step; [step|]. step. step.
    + step. sub ensure_collector_sat. step. sub expand_sat.
    + step. sub expand_sat.
Qed.

Lemma on_key_sat m ec now : sat (handle_encryption_key_created m ec now).
Proof.
  intros k r sh pl v o. unfold handle_encryption_key_created. step. destruct (ks_state k); try apply g_ret; (step; [step|]).
  - sub record_key_sat. step.
  - sub record_key_sat. sub @timing_sat. step. step; [step|]. sub ensure_key_collector_sat. repeat step.
Qed.

(** ** The result of the calculation *)

Lemma tombstones_world l w k r sh pl v o :
  at_ R k r sh pl v o w →
  ∃ pl', at_ R k r sh pl' v o (for_each l (λ p, call KsPayloadWrite ;; modify (λ a, with_shares (k_shares a) (delete p (k_payloads a)) a)) w).2.
Proof.
  revert pl w. induction l as [|p l IH]; intros pl w [Hst Ho]; [by exists pl|]. cbn [for_each]. unfold bind, call.
  destruct (refusals w) as [|[] rest]; cbn; [|by exists pl|]; apply (IH (delete p pl)); (split; [|done]); cbn; by rewrite Hst.
Qed.

Lemma no_refs_C k r sh pl sh' pl' v o :
  threshold_share_refs r = ∅ → map_Forall (share_ok R) sh' → C k r sh pl v o → C k r sh' pl' v o.
Proof. intros Hrefs Hsh. keep. split; [done|]. rewrite Hrefs. intros p ref Hp. by rewrite lookup_empty in Hp. Qed.

(** The stored payloads go: nothing refers to them. *)
Lemma g_tombstones {B} n (m : Mon ()) (K : () → Mon B) k r sh pl v o :
  m = write_tombstones n ∨ m = attempt (write_tombstones n) →
  threshold_share_refs r = ∅ → (∀ pl', G R k r sh pl' v o (K tt)) → G R k r sh pl v o (bind m K).
Proof.
  intros Hm Hrefs HK HC w Hw. unfold bind. destruct (tombstones_world (seq 0 n) w k r sh pl v o Hw) as (pl' & Hw').
  fold (write_tombstones n) in Hw'.
  assert (C k r sh pl' v o) as HC' by (eapply no_refs_C; [done| |done]; by destruct HC as (_ & _ & _ & _ & (? & _) & _)).
  destruct Hm as [->| ->].
  - destruct (write_tombstones n w) as [[[]|e] w']; cbn in *; [by apply (HK pl')|]. by exists k, r, sh, pl', v, o.
  - unfold attempt. destruct (write_tombstones n w) as [[[]|e] w']; cbn in *; by apply (HK pl').
Qed.

Lemma calculated_sat sk es ec now : sat (handle_calculate_decryption_key_response sk es ec now).
Proof.
  intros k r sh pl v o. unfold handle_calculate_decryption_key_response. step. apply g_ok_or; intros requests Hreq. step.
  apply g_assume; intros (_ & _ & _ & _ & _ & (Hfix & _) & _). specialize (Hfix ltac:(by eexists)).
  step; [open_fix|]. apply g_new_state.
  { intros k'. unfold enter_ready. destruct (as_aggregating k) as [d|]; [|done]. intros Hk'. by eexists. }
  intros k' _. sub stop_collector_sat. step. step.
  { match goal with HF : Csh _ _ _ _ |- _ => destruct HF as [? _] end. split; [done|]. cbn. intros p ref Hp. by rewrite lookup_empty in Hp. }
  { by intros batch id. }
  step; [by apply map_Forall_empty|]. eapply g_tombstones; [by right|done|]. intros pl'.
  eapply g_shares; [done|apply no_refs_C; [done|by apply map_Forall_empty]|]. step. step. step.
  - step. step. step; [open_fix; by intros [? ?]|step].
  - step. sub ensure_c4_collector_sat.
    apply g_sub; [apply sat_for_each; intros share _ ? ? ? ? ? ?; repeat step|]. intros _ ? ? ? ? ? ?.
    step. step; [open_fix; by intros [? ?]|step].
Qed.
(** ** C4 shares *)

Lemma own_share_G m ec now k r sh pl v o :
  Handled R (OnKeyShared m ec now) k → dks_external m = false → G R k r sh pl v o (handle_own_decryption_key_share m ec).
Proof.
  intros Hdel Hext. unfold handle_own_decryption_key_share. step.
  destruct (ks_state k); try apply g_ret. apply g_assume; intros ((_ & Hown & _) & _). step; [step|].
  apply orb_false_iff in Heqb as [Hp Hothers]. apply negb_false_iff, Nat.eqb_eq in Hp. apply negb_false_iff, bool_decide_eq_true in Hothers.
  apply publish_keyshare_sat. right. right. exists m, ec, now, k. split_and!; [done..|congruence|done].
Qed.

Lemma early_share_sat m : sat (handle_early_decryption_key_share m).
Proof. intros k r sh pl v o. unfold handle_early_decryption_key_share. repeat step. Qed.

Lemma key_shared_G m ec now k r sh pl v o :
  Handled R (OnKeyShared m ec now) k → G R k r sh pl v o (handle_decryption_key_shared m ec now).
Proof.
  intros Hdel. apply g_attempt. step.
  - apply negb_true_iff in Heqb. by eapply own_share_G.
  - apply dealer_address_G. intros dealer _. step. step. step. step; [|step]. sub record_key_share_sat.
    destruct (ks_state k); try apply g_ret; [apply early_share_sat|]. step; [|step]. sub ensure_c4_collector_sat. repeat step.
Qed.

Lemma c4_collected_sat shares ec : Delivered R (OnC4Collected shares ec) → sat (on_c4_collected shares ec).
Proof.
  intros Hdel k r sh pl v o. unfold on_c4_collected. step. apply dispatch_c4_sat. right. left. by eexists _, _.
Qed.

(** ** The public-key context and decryption *)

(** Work that does not touch the rosters. *)
Definition quiet {A} (m : Mon A) : Prop :=
  ∀ B (K : A → Mon B) k r sh pl v o,
    (∀ x k' r' v' o', dkg_roster r' = dkg_roster r → G R k' r' sh pl v' o' (K x)) → G R k r sh pl v o (bind m K).

Lemma quiet_sat {A} (m : Mon A) : quiet m → sat m.
Proof. intros Hm k r sh pl v o. apply g_tail, Hm. intros. apply g_ret. Qed.

Lemma share_request_quiet keys : quiet (publish_decryption_share_request keys).
Proof. intros B K k r sh pl v o HK. unfold publish_decryption_share_request. repeat first [by apply HK|step]. Qed.

Lemma issue_share_quiet keys ec now : quiet (issue_decryption_share_request keys ec now).
Proof.
  intros B K k r sh pl v o HK. unfold issue_decryption_share_request. step. step. step; [step; by apply HK|]. step.
  apply share_request_quiet. intros [] k' r' v' o' Hr; repeat first [by apply HK|step].
Qed.

Lemma issue_proof_quiet keys p ec now : quiet (issue_decryption_proof_request keys p ec now).
Proof. intros B K k r sh pl v o HK. unfold issue_decryption_proof_request. repeat first [by apply HK|step]. Qed.

Lemma resume_decryption_quiet keys ec now : quiet (resume_decryption_work keys ec now).
Proof.
  intros B K k r sh pl v o HK. unfold resume_decryption_work. step. step. step; [step; by apply HK|]. step. step.
  destruct (ks_state k); try (step; by apply HK); [by apply issue_share_quiet| |];
    (step; step; step; [destruct p; by apply issue_proof_quiet|step; by apply HK]).
Qed.

Lemma admit_key_quiet keys pk ec now : quiet (admit_public_key keys pk ec now).
Proof.
  intros B K k r sh pl v o HK. unfold admit_public_key. step. step. step. step. step; [step; by apply HK|].
  step. step. step. step. step. step. by apply resume_decryption_quiet.
Qed.

Lemma restore_key_quiet keys ec now : quiet (restore_public_key_context keys ec now).
Proof.
  intros B K k r sh pl v o HK. unfold restore_public_key_context. step. step. step. step. step; [step; by apply HK|].
  step; [by apply admit_key_quiet|]. repeat first [by apply HK|step].
Qed.

Lemma observe_sat e stage : sat (observe_canonical_stage e stage).
Proof. intros k r sh pl v o. unfold observe_canonical_stage. repeat step. Qed.

Lemma public_key_sat keys data ec now : sat (handle_public_key_aggregated keys data ec now).
Proof.
  intros k r sh pl v o. unfold handle_public_key_aggregated. step; [|step]. step; [|step]. apply quiet_sat, admit_key_quiet.
Qed.

Lemma committee_published_sat keys e nodes pk ec now : sat (handle_committee_published keys e nodes pk ec now).
Proof.
  intros k r sh pl v o. unfold handle_committee_published. step; [step|]. sub observe_sat. step; [|step]. step; [|step].
  apply quiet_sat, admit_key_quiet.
Qed.

Lemma ciphertext_sat keys cts ec now : sat (handle_ciphertext_output_published keys cts ec now).
Proof.
  intros k r sh pl v o. unfold handle_ciphertext_output_published. step. destruct (ks_state k) eqn:Hs; try apply g_ret.
  - apply g_new_state; [|intros; apply quiet_sat, issue_share_quiet]. intros k'. unfold enter_decrypting.
    destruct (as_ready k); [|done]. intros Hk'. eexists. split; [done|]. by rewrite Hs.
  - apply quiet_sat, issue_share_quiet.
Qed.

Lemma decryption_share_sat keys share ec now : sat (handle_calculate_decryption_share_response keys share ec now).
Proof.
  intros k r sh pl v o. unfold handle_calculate_decryption_share_response. step. destruct (ks_state k) eqn:Hs; try apply g_ret.
  step. step. step. step. step. step. apply g_sub; [apply quiet_sat, issue_proof_quiet|]. intros _ k' r' sh' pl' v' o'.
  apply g_tail, g_new_state; [|intros; step]. intros k2 Hk2. by eexists.
Qed.

Lemma proof_signed_sat : sat handle_decryption_share_proof_signed.
Proof.
  intros k r sh pl v o. unfold handle_decryption_share_proof_signed. apply g_tail, g_new_state; [|intros; step].
  intros k' Hk'. by eexists.
Qed.

Lemma redeliver_sat keys now random : sat (redeliver_decryption_work keys now random).
Proof.
  intros k r sh pl v o. unfold redeliver_decryption_work. step. step; [step|]. step. destruct (ks_state k); try apply g_ret.
  - step; [|step]. step; [step|]. apply share_request_quiet. intros [] k' r' v' o' _; repeat step.
  - repeat step.
Qed.

(** ** Failures and the end *)

Lemma failure_current_sat e phase : sat (collector_failure_is_current e phase).
Proof. intros k r sh pl v o. unfold collector_failure_is_current. repeat step. Qed.

Lemma fail_collection_sat e phase forget reports :
  (∀ k r sh pl v o, C k r sh pl v o → C k r sh pl (forget v) o) → (∀ x o, x ∈ reports → pub_ok R o x) →
  sat (fail_collection e phase forget reports).
Proof.
  intros Hforget Hpub k r sh pl v o. unfold fail_collection. sub failure_current_sat. step; [step|].
  apply g_work; [apply Hforget|]. apply g_new_state; [intros k' Hk'; by eexists|]. intros k' _.
  apply g_sub; [apply sat_for_each; intros report Hin ? ? ? ? ? ?; apply g_tail, g_publish; [by intros _; apply Hpub|step]|].
  intros _ ? ? ? ? ? ?. repeat step.
Qed.

Lemma on_complete_sat ec : sat (on_complete ec).
Proof.
  intros k r sh pl v o. unfold on_complete. step. apply sat_attempt. intros k' r' sh' pl' v' o'.
  unfold clear_large_recovery_payloads. step. step. step. step.
  { match goal with HF : Csh _ _ _ _ |- _ => destruct HF as [? _] end. split; [done|]. cbn. intros p ref Hp. by rewrite lookup_empty in Hp. }
  { by intros batch id. }
  step. eapply g_tombstones; [by left|done|]. intros pl2.
  eapply g_shares; [done|apply no_refs_C; [done|by apply map_Forall_empty]|]. repeat step.
Qed.

(** ** Generation *)

Lemma store_timing_sat deadline window : sat (store_timing deadline window).
Proof. intros k r sh pl v o. unfold store_timing. repeat step. Qed.

Lemma store_generated_sat s ec : sat (store_generated s ec).
Proof.
  intros k r sh pl v o. unfold store_generated. step.
  destruct (ks_state k), s; try apply g_ret; first [apply g_new_state|apply g_tail, g_new_state]; try (intros k' Hk'; by eexists); intros k' _.
  all: try apply g_ret; try apply verify_recorded_sat.
  all: step; step; [apply send_missing_sat|step].
Qed.
(** ** Resumed work *)

Lemma replay_keys_sat ec : sat (replay_encryption_keys ec).
Proof.
  intros k r sh pl v o. unfold replay_encryption_keys. step.
  apply g_sub; [apply sat_for_each; intros; by apply silent_sat|]. intros _. by apply silent_sat.
Qed.

Lemma replay_shares_sat ec now : sat (replay_threshold_shares ec now).
Proof. intros k r sh pl v o. unfold replay_threshold_shares. step. step; [step|apply ensure_collector_sat]. Qed.

Lemma replay_c4_sat r' now ec : sat (replay_decryption_key_shares r' now ec).
Proof.
  intros k r sh pl v o. unfold replay_decryption_key_shares. sub ensure_c4_collector_sat.
  apply sat_for_each; intros; by apply silent_sat.
Qed.

(** The record that the resumed work was read from. *)
Definition read_ok (r' : RecoveryState) : Prop :=
  (∀ m, dkg_roster r' = Some m → accepted_ok R m) ∧
  (∀ x, share_verification_complete r' = Some x → svc_kind x.1 = ShareProofs) ∧
  (keyshare_publish_authorized r' = true → c4_done R) ∧ (is_Some (decryption_verification_complete r') → c4_done R).

Lemma C_read k r sh pl v o : C k r sh pl v o → read_ok r.
Proof.
  intros (_ & _ & (_ & Hros) & _ & _ & _ & _ & (_ & Hver) & _ & (Haut & Hc4) & _).
  split_and!; [done..|intros; apply Haut; tauto|]. intros [x Hx]. by eapply Hc4.
Qed.

Lemma resume_verdict_sat r' x ec : read_ok r' → share_verification_complete r' = Some x → sat (handle_share_verification_complete x.1 ec).
Proof. intros (_ & Hver & _) Hx. apply handle_verdict_sat. by rewrite (Hver x Hx). Qed.

Lemma republication_done keys k r' r sh pl v o :
  C k r sh pl v o → read_ok r' → needs_keyshare_republication keys k r' = true → c4_done R.
Proof.
  intros (_ & _ & _ & _ & _ & _ & _ & _ & _ & (Haut & _) & _) (_ & _ & Hauth & _).
  unfold needs_keyshare_republication. intros [_ [Hp|Hp]%orb_true_iff]%andb_true_iff; [by apply Hauth|apply Haut; tauto].
Qed.

Lemma resume_aggregation_G r' ec now k r sh pl v o :
  read_ok r' → dkg_roster r = dkg_roster r' → G R k r sh pl v o (resume_aggregation r' ec now).
Proof.
  intros Hread Hros. unfold resume_aggregation. destruct (dkg_roster r') as [m|] eqn:Hm.
  - intros HC. eapply triple_bind; [apply accept_G; [by apply Hread|intros m' Hm'; left; congruence|exact HC]|].
    intros x. apply sat_triple. intros k1 r1 sh1 pl1 v1 o1. step; [step|].
    destruct (share_verification_complete r') as [[verdict vec]|] eqn:Hx.
    + apply g_sub; [by apply (resume_verdict_sat r' (verdict, vec))|]. intros _. apply expand_sat.
    + step; [apply verify_recorded_sat|apply replay_shares_sat].
  - destruct (share_verification_complete r') as [[verdict vec]|] eqn:Hx.
    + apply g_sub; [by apply (resume_verdict_sat r' (verdict, vec))|]. intros x k1 r1 sh1 pl1 v1 o1. sub expand_sat.
      step. apply g_assume; intros (_ & (_ & Hown & _) & _). step; [apply g_publish; [intros _; by apply Hown|]|step]; apply propose_sat.
    + step; [apply verify_recorded_sat|apply replay_shares_sat].
Qed.

Lemma resume_c4_G keys r' ec now k r sh pl v o :
  read_ok r' → G R k r sh pl v o (resume_c4 keys k r' ec now).
Proof.
  intros Hread. unfold resume_c4. step; [step|]. apply g_assume; intros HC.
  pose proof (republication_done keys _ _ _ _ _ _ _ HC Hread) as Hrep. clear HC.
  step; [sub replay_c4_sat|step];
    (apply g_sub; [intros ? ? ? ? ? ?; repeat step|]; intros _;
     destruct (decryption_verification_complete r') as [[verdict vec]|] eqn:Hd;
     [destruct Hread as (_ & _ & _ & Hverd); apply handle_verdict_sat; intros _; apply Hverd; by eexists|];
     destruct (needs_keyshare_republication keys k r'); [by apply publish_keyshare_sat, Hrep|intros ? ? ? ? ? ?; step]).
Qed.

Lemma resume_sat effects_context keys now : sat (resume_in_flight_work effects_context keys now).
Proof.
  intros k r sh pl v o. unfold resume_in_flight_work. step. step. sub apply_held_sat. step.
  apply g_assume; intros Hread%C_read. apply restore_key_quiet. intros _ k' r' v' o' Hr. step.
  destruct (ks_state k') eqn:Hs.
  - repeat step.
  - sub recover_key_collector_sat. sub replay_keys_sat. apply ensure_collector_sat.
  - apply replay_shares_sat.
  - by apply resume_aggregation_G.
  - by apply resume_c4_G.
  - apply g_assume; intros HC. pose proof (republication_done keys _ _ _ _ _ _ _ HC Hread) as Hrep. clear HC. step.
    + apply g_sub; [by apply publish_keyshare_sat, Hrep|intros _; apply quiet_sat, issue_share_quiet].
    + step. apply quiet_sat, issue_share_quiet.
  - apply quiet_sat, resume_decryption_quiet.
  - apply quiet_sat, resume_decryption_quiet.
  - repeat step.
Qed.

(** ** Messages *)

(** What the messages of a run say of their origin: a share comes from another party, and a logged
    dispatch is named by its content.  The handler of shares does not look at the party, but the
    collector takes a share only with the signature of the committee member in its slot, which for the
    own slot is this node, and a node never sends a share to itself: its own row stays in its state. *)
Definition well_formed (msg : KsMessage) : Prop :=
  match msg with
  | OnShare m _ _ => ts_party_id (tsc_share m) ≠ run_own R
  | OnDispatchLogged d ec => ctx_id ec = dispatch_id d
  | _ => True
  end.

Lemma handle_sat msg :
  Delivered R msg → well_formed msg → (∀ m ec now, msg ≠ OnKeyShared m ec now) → sat (handle msg).
Proof.
  intros Hdel Hwf Hother. destruct msg; cbn [handle]; try apply sat_trapped.
  - apply store_timing_sat.
  - apply store_generated_sat.
  - apply on_key_sat.
  - by eapply on_share_sat.
  - apply on_collected_sat.
  - by apply record_logged_sat.
  - intros k r sh pl v o. step. step; [step|]. by apply sat_trapped, on_verification_sat.
  - apply dkg_proof_signed_sat.
  - apply pk_proof_signed_sat.
  - apply on_coordination_sat.
  - apply sat_attempt, aggregator_changed_sat.
  - apply calculated_sat.
  - by destruct (Hother m ec now).
  - by apply c4_collected_sat.
  - apply fail_collection_sat; [intros ? ? ? ? ? ?; by keep|]. intros x o ->%list_elem_of_singleton. done.
  - apply fail_collection_sat; [intros ? ? ? ? ? ?; by keep|]. intros x o ->%list_elem_of_singleton. done.
  - apply fail_collection_sat; [intros ? ? ? ? ? ?; by keep|]. by intros x o ?%elem_of_nil.
  - destruct party_id as [p|]; [apply sat_trapped, excluded_sat|intros ? ? ? ? ? ?; step].
  - apply public_key_sat.
  - apply committee_published_sat.
  - destruct (bool_decide _); [|intros ? ? ? ? ? ?; step]. apply sat_trapped, sat_bind; [apply quiet_sat, restore_key_quiet|].
    intros _. apply quiet_sat, resume_decryption_quiet.
  - apply sat_bind; [apply observe_sat|]. intros _. apply sat_bind; [apply sat_trapped, quiet_sat, restore_key_quiet|].
    intros _. apply sat_trapped, ciphertext_sat.
  - apply decryption_share_sat.
  - apply proof_signed_sat.
  - apply sat_attempt, redeliver_sat.
  - apply sat_bind; [apply observe_sat|]. intros _. destruct (is_terminal stage); [apply on_complete_sat|intros ? ? ? ? ? ?; step].
  - apply on_complete_sat.
  - intros k r sh pl v o. step. apply g_sub; [apply sat_attempt, resume_sat|]. intros _. 
    apply sat_bind; [apply sat_attempt, inputs_ready_sat|]. intros _. apply sat_attempt, propose_sat.
Qed.

(** A delivered message, handled in the state that it finds. *)
Lemma handle_G msg k r sh pl v o :
  Delivered R msg → well_formed msg → Handled R msg k → G R k r sh pl v o (handle msg).
Proof.
  intros Hdel Hwf Hk. destruct msg; try by apply handle_sat. cbn [handle]. by apply key_shared_G.
Qed.
End Steps.
