(* ===== verification/KeyshareProps.v ===== *)
(** * Correctness of the threshold keyshare

    Whatever messages arrive, whichever writes and publications are refused and however often the
    process restarts, also when it loses the writes of its last events, the invariant of KeyshareInv
    holds, so the theorems follow from it.  A restart finds the snapshots of one point of the run: a
    single write that the store refuses as stale while it keeps a later one is not modelled. *)

From S2P Require Import Prelude Events CommitmentLinks NodeRegistry Actor Orchestration CanonicalKeys KeyshareTiming KeyshareEvents KeyCollector C4Collector ShareCollector DkgRoster Keyshare KeysharePlan ReadyReports KeyshareWork KeyshareShares KeyshareActor KeyshareInv KeyshareSteps.
Local Open Scope nat_scope.

Section Runs.
Context `{AlloyLaws} `{AddressText} `{DkgBytes} `{KeyshareOps} `{KeyshareHash} `{KeyCheck}.
Local Abbreviation W := (World Ks KsOut).

(** A message, with the calls that are refused while it is handled, or a restart.  A write of a
    [Persistable] only enqueues a snapshot: a process that dies loses what was not flushed.  The store
    keeps the writes of one event together and in order, so a restart finds the snapshots of an
    earlier point of the run: the one before the last [lost] inputs, the present one when [lost] is 0. *)
Inductive KsInput := Deliver (msg : KsMessage) (refused : list bool) | Restart (canonical : bool) (lost : nat).

(** [past] holds the states before the earlier inputs, the latest first. *)
Definition ks_step (i : KsInput) (past : list Ks) (w : W) : option W :=
  match i with
  | Deliver msg refused => Some (handle msg (mkWorld (st w) refused (out w) (next_id w))).2
  | Restart canonical lost =>
      stored ← (st w :: past) !! lost; a ← restart canonical stored; Some (mkWorld a [] (out w) (next_id w))
  end.

Fixpoint ks_go (inputs : list KsInput) (past : list Ks) (w : W) : option (list Ks * W) :=
  match inputs with [] => Some (past, w) | i :: rest => w' ← ks_step i past w; ks_go rest (st w :: past) w' end.

Definition ks_run (inputs : list KsInput) (w : W) : option W := snd <$> ks_go inputs [] w.

Lemma ks_go_app l1 l2 past w : ks_go (l1 ++ l2) past w = ('(past', w') ← ks_go l1 past w; ks_go l2 past' w').
Proof. revert past w. induction l1 as [|i l1 IH]; intros past w; cbn; [done|]. destruct (ks_step i past w); [apply IH|done]. Qed.

(** The past of a run ends with the state in which it began. *)
Lemma ks_go_past l past w past' w' :
  ks_go l past w = Some (past', w') → ∃ ms, st w' :: past' = ms ++ st w :: past ∧ length ms = length l.
Proof.
  revert past w. induction l as [|i l IH]; intros past w; cbn; [intros [= <- <-]; by exists []|].
  destruct (ks_step i past w) as [w1|]; [|done]. cbn. intros (ms & -> & Hlen)%IH. exists (ms ++ [st w1]).
  rewrite length_app, Hlen. cbn. split; [by rewrite <-app_assoc|lia].
Qed.

(** A restart that finds every write. *)
Definition keeps_writes (i : KsInput) : Prop := match i with Restart _ lost => lost = 0 | _ => True end.

(** ** Restarts *)

Section Keeps.
Variable R : Run.

Lemma loads sh pl refs :
  Csh R sh pl refs → load_shares refs pl = Some (filter (λ kv, is_Some (refs !! kv.1)) pl).
Proof.
  intros [Hsh Hrefs]. unfold load_shares. rewrite (proj2 (forallb_forall _ _)); [done|].
  intros [p ref] Hin%list_elem_of_In. apply elem_of_map_to_list in Hin.
  destruct (Hrefs p ref Hin) as (e & He & Hpl & Href). rewrite Hpl. apply andb_true_iff. split; [by apply bool_decide_eq_true|].
  apply Nat.eqb_eq. by destruct (Hsh p e He).
Qed.

Lemma loaded_Csh sh pl refs : Csh R sh pl refs → Csh R (filter (λ kv, is_Some (refs !! kv.1)) pl) pl refs.
Proof.
  intros [Hsh Hrefs]. split.
  - intros p e [Hpl [ref Href]]%map_lookup_filter_Some. destruct (Hrefs p ref Href) as (e' & He' & Hpl' & _).
    rewrite Hpl in Hpl'. injection Hpl' as ->. by apply Hsh.
  - intros p ref Href. destruct (Hrefs p ref Href) as (e & He & Hpl & Hr). exists e. split_and!; try done.
    apply map_lookup_filter_Some. split; [done|]. by exists ref.
Qed.

(** A state of the run, for the publications of a later point. *)
Definition point (o : list KsOut) (a : Ks) : Prop :=
  ∃ k r sh pl v, a = mkKs (run_params R) (saved k) (saved r) sh pl v ∧ C R k r sh pl v o.

Lemma holds_point w : holds R w ↔ point (out w) (st w).
Proof.
  split; [intros (k & r & sh & pl & v & o & [-> <-] & HC); by exists k, r, sh, pl, v|].
  intros (k & r & sh & pl & v & Hst & HC). by exists k, r, sh, pl, v, (out w).
Qed.

Lemma point_later o o' a : o `prefix_of` o' → Cpub R o' → point o a → point o' a.
Proof. intros Hp Ho (k & r & sh & pl & v & -> & HC). exists k, r, sh, pl, v. split; [done|]. by eapply C_later. Qed.

Lemma restart_point canonical o a : point o a → ∃ a', restart canonical a = Some a' ∧ point o a'.
Proof.
  intros (k & r & sh & pl & v & -> & HC). unfold restart. cbn.
  pose proof HC as ((_ & _ & _ & _ & _ & ->) & _ & _ & _ & Hsh & _). cbn. rewrite (loads _ _ _ Hsh). cbn.
  eexists. split; [done|].
  exists k, r, (filter (λ kv, is_Some (threshold_share_refs r !! kv.1)) pl), pl, 
    ((if canonical then set_canonical true else id) (new_work r (ks_party_id k) (filter (λ kv, is_Some (threshold_share_refs r !! kv.1)) pl) false)).
  split; [done|]. revert HC. keep.
  - by apply (loaded_Csh sh).
  - open_fix. intros Hd. match goal with HF : is_Some (c4_proofs_pending r) → _ |- _ => apply HF end.
    destruct canonical; cbn in Hd; by apply fmap_is_Some in Hd.
  - destruct canonical; by apply map_Forall_empty.
  - match goal with HF : Caut _ _ _ _ _ |- _ => destruct HF as [Ha Hv] end. split; [|done].
    destruct canonical; cbn; tauto.
Qed.
End Keeps.

(** Compare with this state and these publications from now on. *)
Definition rebase (R : Run) (k : ThresholdKeyshareState) (r : RecoveryState) (o : list KsOut) : Run :=
  mkRun (run_params R) (run_e3 R) (run_own R) (run_m R) (run_n R) (run_size R) (run_selected R) (Delivered R) (Handled R) k r o.

Lemma rebase_C R k r sh pl v o : C R k r sh pl v o → C (rebase R k r o) k r sh pl v o.
Proof.
  intros (HC1 & HC2 & HC3 & HC4 & HC5 & HC6 & HC7 & HC8 & HC9 & HC10 & [HC11 _] & _). split_and!; try assumption; [done|].
  unfold Crel. cbn. split_and!; try done; intros m Hm; exists m; (split; [done|]); [by left|]. by left.
Qed.

Lemma with_out_C R o k r sh pl v o' :
  C R k r sh pl v o' ∧ o `prefix_of` o' ↔ C (rebase R (run_state R) (run_recovery R) o) k r sh pl v o' ∧ run_out R `prefix_of` o'.
Proof.
  split; intros [(HC1 & HC2 & HC3 & HC4 & HC5 & HC6 & HC7 & HC8 & HC9 & HC10 & [HC11 Hb] & HC12) Ho];
    (split; [|exact Hb]); split_and!; try assumption; exact (conj HC11 Ho).
Qed.

Section Steps.
Variable R : Run.
Hypothesis Hsize : from_threshold (run_m R) (run_n R) = Some (run_size R).

(** What a run hands to a message: a well-formed message of the run, in the state it finds. *)
Definition admissible (i : KsInput) (w : W) : Prop :=
  ∀ msg refused, i = Deliver msg refused →
    Delivered R msg ∧ well_formed R msg ∧ ∀ k, k_state (st w) = saved k → Handled R msg k.

Lemma deliver_holds msg refused past w :
  holds R w → admissible (Deliver msg refused) w →
  ∃ w', ks_step (Deliver msg refused) past w = Some w' ∧ holds R w' ∧ out w `prefix_of` out w'.
Proof.
  intros (k & r & sh & pl & v & o & [Hst Ho] & HC) Hi. destruct (Hi msg refused eq_refl) as (Hd & Hf & Hk).
  eexists. split; [done|].
  assert (C (rebase R (run_state R) (run_recovery R) o) k r sh pl v o) as HC' by by apply with_out_C.
  assert (k_state (st w) = saved k) as Hks by by rewrite Hst.
  pose proof (handle_G (rebase R (run_state R) (run_recovery R) o) Hsize msg k r sh pl v o Hd Hf (Hk k Hks) HC'
    (mkWorld (st w) refused (out w) (next_id w)) (conj Hst Ho)) as Ht.
  assert (run_out R `prefix_of` o) as Hbase by apply HC.
  assert (∀ w', holds (rebase R (run_state R) (run_recovery R) o) w' → holds R w' ∧ out w `prefix_of` out w') as Hback.
  { intros w' (k' & r' & sh' & pl' & v' & o' & [Hst' Ho'] & HC2). rewrite Ho, Ho'.
    assert (o `prefix_of` o') as Hp by apply HC2. split; [|done]. exists k', r', sh', pl', v', o'. split; [by split|].
    apply (proj2 (with_out_C R o k' r' sh' pl' v' o')). split; [done|by etrans]. }
  apply Hback. by destruct (handle msg _) as [[|] w'].
Qed.

Lemma step_holds i past w :
  holds R w → Forall (point R (out w)) past → admissible i w → (∀ canonical lost, i = Restart canonical lost → lost ≤ length past) →
  ∃ w', ks_step i past w = Some w' ∧ holds R w' ∧ Forall (point R (out w')) (st w :: past).
Proof.
  intros Hw Hpast Hi Hlost.
  assert (Forall (point R (out w)) (st w :: past)) as Hall by (constructor; [by apply holds_point|done]).
  destruct i as [msg refused|canonical lost].
  - destruct (deliver_holds msg refused past w Hw Hi) as (w' & Hw' & Hh & Hp). exists w'. split_and!; [done..|].
    eapply Forall_impl; [exact Hall|]. intros a. apply point_later; [done|].
    destruct Hh as (? & ? & ? & ? & ? & o & [_ <-] & HC). apply HC.
  - specialize (Hlost canonical lost eq_refl). cbn -[lookup].
    destruct (lookup_lt_is_Some_2 (st w :: past) lost) as [a Ha]; [cbn; lia|]. rewrite Ha. cbn.
    rewrite Forall_forall in Hall. destruct (restart_point R canonical (out w) a) as (a' & -> & Ha').
    { apply Hall. by eapply list_elem_of_lookup_2. }
    eexists. split; [done|]. split; [by apply holds_point|]. by apply Forall_forall.
Qed.

(** Without a loss of writes the past does not matter. *)
Lemma kept_run_holds inputs past w :
  holds R w → Forall keeps_writes inputs →
  (∀ i x past' w', inputs !! i = Some x → ks_go (take i inputs) past w = Some (past', w') → admissible x w') →
  ∃ past' w', ks_go inputs past w = Some (past', w') ∧ holds R w'.
Proof.
  revert past w. induction inputs as [|x inputs IH]; intros past w Hw Hk Hi; cbn; [by exists past, w|].
  apply Forall_cons in Hk as [Hx Hk]. pose proof (Hi 0 x past w eq_refl eq_refl) as Hax.
  assert (∃ w', ks_step x past w = Some w' ∧ holds R w') as (w1 & Hw1 & Hh).
  { destruct x as [msg refused|canonical lost].
    - destruct (deliver_holds msg refused past w Hw Hax) as (w' & ? & ? & _). by exists w'.
    - cbn in Hx. subst lost. destruct (restart_point R canonical (out w) (st w)) as (a' & Ha & Ha'); [by apply holds_point|].
      cbn. rewrite Ha. cbn. eexists. split; [done|]. by apply holds_point. }
  rewrite Hw1. cbn. apply IH; [done|done|]. intros i y past' w' Hy Hgo. apply (Hi (S i) y past' w' Hy). cbn. by rewrite Hw1.
Qed.
End Steps.

(** ** Runs of a selected node *)

(** The node, its committee and its slot. *)
Context (P : KsParams) (e3 : E3id) (own : PartyId) (tm tn : nat) (csize : CiphernodesCommitteeSize) (prm : Bytes)
  (address : string) (selected : CiphernodeSelected) (ec0 : EventContext) (effects : bool).

Definition ks_fresh : W :=
  mkWorld (create P (new_keyshare e3 own KInit tm tn prm address) selected ec0 effects) [] [] 0%Z.

Definition run_of (inputs : list KsInput) : Run :=
  mkRun P e3 own tm tn csize selected (λ msg, ∃ refused, Deliver msg refused ∈ inputs)
    (λ msg k, ∃ i refused w, inputs !! i = Some (Deliver msg refused) ∧
       ks_run (take i inputs) ks_fresh = Some w ∧ k_state (st w) = saved k)
    (new_keyshare e3 own KInit tm tn prm address) (new_recovery selected ec0) [].

(** The committee has a supported size, the messages of the run are well formed, and a restart goes
    back to a point of the run. *)
Definition inputs_ok (inputs : list KsInput) : Prop :=
  from_threshold tm tn = Some csize ∧ (∀ msg refused, Deliver msg refused ∈ inputs → well_formed (run_of inputs) msg) ∧
  ∀ i canonical lost, inputs !! i = Some (Restart canonical lost) → lost ≤ i.

Lemma fresh_C inputs :
  C (run_of inputs) (new_keyshare e3 own KInit tm tn prm address) (new_recovery selected ec0) ∅ ∅
    (new_work (new_recovery selected ec0) own ∅ effects) [].
Proof.
  split_and!; try done; try by apply map_Forall_empty.
  all: unfold Crep, Cros, Chon, Csh, Cfix, Cdis, Cver, Cpar, Caut, Cpub, Crel; cbn; split_and?.
  all: try done; try by apply map_Forall_empty.
  all: first [by intros [? ?]|by intros [?|[?|?]]].
Qed.

Lemma fresh_holds inputs : holds (run_of inputs) ks_fresh.
Proof. eexists _, _, _, _, _, _. split; [by split|]. apply fresh_C. Qed.

(** An input of the run, at its place. *)
Lemma run_admissible inputs i x past w :
  inputs_ok inputs → inputs !! i = Some x → ks_go (take i inputs) [] ks_fresh = Some (past, w) → admissible (run_of inputs) x w.
Proof.
  intros (_ & Hwf & _) Hx Hgo msg refused ->. split_and!.
  - exists refused. by eapply list_elem_of_lookup_2.
  - eapply Hwf, list_elem_of_lookup_2, Hx.
  - intros k Hk. exists i, refused, w. split; [done|]. unfold ks_run. by rewrite Hgo.
Qed.

Lemma run_holds inputs n :
  inputs_ok inputs → n ≤ length inputs →
  ∃ past w, ks_go (take n inputs) [] ks_fresh = Some (past, w) ∧ length past = n ∧
    holds (run_of inputs) w ∧ Forall (point (run_of inputs) (out w)) past.
Proof.
  intros Hok. induction n as [|n IH]; intros Hn; [exists [], ks_fresh; split_and!; [done..|apply fresh_holds|done]|].
  destruct IH as (past & w & Hgo & Hlen & Hh & Hp); [lia|].
  destruct (lookup_lt_is_Some_2 inputs n) as [x Hx]; [lia|]. rewrite (take_S_r _ _ _ Hx), ks_go_app, Hgo. cbn.
  destruct (step_holds (run_of inputs) (proj1 Hok) x past w Hh Hp) as (w' & -> & Hh' & Hp').
  - by eapply run_admissible.
  - intros canonical lost ->. rewrite Hlen. by eapply Hok.
  - cbn. eexists _, w'. split_and!; [done|cbn; lia|done..].
Qed.

(** The state of a node after a run: in memory, and the last one that was sent to the store. *)
Definition settled (w : W) (k : ThresholdKeyshareState) (r : RecoveryState) : Prop :=
  k_state (st w) = saved k ∧ k_recovery (st w) = saved r.

Lemma run_settles inputs :
  inputs_ok inputs → ∃ w k r sh pl v, ks_run inputs ks_fresh = Some w ∧ settled w k r ∧
    st w = mkKs P (saved k) (saved r) sh pl v ∧ C (run_of inputs) k r sh pl v (out w).
Proof.
  intros Hok. destruct (run_holds inputs (length inputs) Hok) as (past & w & Hgo & _ & Hh & _); [done|].
  rewrite firstn_all in Hgo. destruct Hh as (k & r & sh & pl & v & o & [Hst <-] & HC). exists w, k, r, sh, pl, v.
  unfold ks_run, settled. rewrite Hgo, Hst. done.
Qed.

(** C6: An accepted roster is authentic: it is signed by the committee member in its proposer's slot,
    names exactly H dealers of the committee without repetition, and each contribution is one that this node has
    itself reported in a signed Ready message. *)
Theorem accepted_roster_authentic inputs :
  inputs_ok inputs →
  ∃ w k r, ks_run inputs ks_fresh = Some w ∧ settled w k r ∧
    (dkg_roster_fixed k = true → is_Some (dkg_roster r)) ∧
    ∀ m, dkg_roster r = Some m →
      co_e3_id m = e3 ∧ co_interfold_address m = kp_interfold P ∧ co_kind m = Roster ∧
      (∃ a, member (run_of inputs) (co_party_id m) = Some a ∧ coordination_recover_address m = Some a) ∧
      NoDup (dealer_ids (dealers m)) ∧ Forall (λ p, p < length (committee selected)) (dealer_ids (dealers m)) ∧
      length (dealers m) = cc_h (values csize) ∧
      ∃ ready, ready_ok (run_of inputs) own ready ∧ ready_contains_roster ready m = true.
Proof.
  intros Hi. destruct (run_settles inputs Hi) as (w & k & r & sh & pl & v & Hw & Hset & _ & HC). exists w, k, r.
  do 2 (split; [done|]). destruct HC as (_ & _ & (_ & Hros) & _ & _ & (_ & _ & _ & Hfix) & _). split; [done|].
  intros m Hm. destruct (Hros m Hm) as [(_ & Hkind & (He & Hif & Hsig & Hcan) & Hlen) Hready].
  destruct (canonical_dealers _ _ Hcan) as [Hsort Hall]. split_and!; try done. by apply sorted_lt_NoDup.
Qed.

(** C4: Progress is never lost while no write is: between two points of a run with no lossy restart
    between them, the accepted roster either stays or gives way to one of a smaller proposer, and not
    once it is fixed; the own Ready report loses only expelled dealers; the phase does not go back;
    expulsions, the fixed roster and the publication stay.  Messages, refused calls and restarts that
    find every write sent before them may lie between the points; the part before them may hold
    restarts that lose writes. *)
Theorem roster_only_improves before after :
  inputs_ok (before ++ after) → Forall keeps_writes after →
  ∃ w1 k1 r1 w2 k2 r2, ks_run before ks_fresh = Some w1 ∧ settled w1 k1 r1 ∧
    ks_run (before ++ after) ks_fresh = Some w2 ∧ settled w2 k2 r2 ∧
    (∀ m, dkg_roster r1 = Some m → ∃ m', dkg_roster r2 = Some m' ∧
       (m' = m ∨ co_party_id m' < co_party_id m ∧ dkg_roster_fixed k1 = false)) ∧
    (∀ m, dkg_ready r1 = Some m → ∃ m', dkg_ready r2 = Some m' ∧
       ∀ d, d ∈ dealers m → d ∈ dealers m' ∨ d_party_id d ∈ expelled_parties k2) ∧
    discriminant (ks_state k1) ≤ discriminant (ks_state k2) ∧ expelled_parties k1 ⊆ expelled_parties k2 ∧
    (dkg_roster_fixed k1 = true → dkg_roster_fixed k2 = true) ∧
    (keyshare_published k1 = true → keyshare_published k2 = true).
Proof.
  intros Hok Hkept. set (R := run_of (before ++ after)).
  destruct (run_holds (before ++ after) (length before) Hok) as (past & w1 & Hw1 & _ & Hh1 & _); [rewrite length_app; lia|].
  rewrite take_app_length in Hw1. destruct Hh1 as (k1 & r1 & sh & pl & v & o & [Hst Ho] & HC).
  destruct (kept_run_holds (rebase R k1 r1 o) (proj1 Hok) after past w1) as (past2 & w2 & Hw2 & Hh2).
  { exists k1, r1, sh, pl, v, o. split; [by split|]. by apply rebase_C. }
  { done. }
  { intros i x past' w' Hx Hgo. apply (run_admissible (before ++ after) (length before + i) x past' w' Hok).
    - rewrite lookup_app_r by lia. by replace (length before + i - length before) with i by lia.
    - rewrite take_app_add, ks_go_app, Hw1. exact Hgo. }
  destruct Hh2 as (k2 & r2 & sh2 & pl2 & v2 & o2 & [Hst2 _] & HC2). exists w1, k1, r1, w2, k2, r2.
  unfold settled, ks_run. rewrite ks_go_app, Hw1. cbn. rewrite Hw2, Hst, Hst2. do 4 (split; [done|]).
  destruct HC2 as (_ & _ & _ & _ & _ & _ & _ & _ & _ & _ & _ & (He & Hf & Hp & Hd & Hros & Hready)).
  by split_and!.
Qed.

(** C2: Every decryption-key calculation that the node requests combines exactly one roster that it
    accepted: the shares of all H dealers of it and of nobody else, each
    signed by its dealer and delivered to this node, from dealers whose proofs a verdict found
    honest, and the node's own rows; the C4 requests concern the same ciphertexts. *)
Theorem calculations_sound inputs :
  inputs_ok inputs →
  ∃ w k r, ks_run inputs ks_fresh = Some w ∧ settled w k r ∧
    ∀ q, CalculationRequested q ∈ out w → calculation_ok (run_of inputs) (out w) q.
Proof.
  intros Hi. destruct (run_settles inputs Hi) as (w & k & r & sh & pl & v & Hw & Hset & _ & HC). exists w, k, r.
  do 2 (split; [done|]). intros q Hq. destruct HC as (_ & _ & _ & _ & _ & _ & _ & _ & _ & _ & Hpub & _).
  destruct Hpub as [Hpub _]. rewrite Forall_forall in Hpub. by apply (Hpub _ Hq).
Qed.

(** C7: A dealer counts as verified only with a verdict for it: the node itself dispatched, or the log
    holds, a verification that covers the dealer, and a delivered verdict of this very dispatch
    does not name it dishonest. *)
Theorem verified_dealers_checked inputs :
  inputs_ok inputs →
  ∃ w k r, ks_run inputs ks_fresh = Some w ∧ settled w k r ∧
    ∀ vs p, verified_dealer_ids r = Some vs → p ∈ vs → p ≠ own →
      ∃ verdict ec refused d, Deliver (OnVerification verdict ec) refused ∈ inputs ∧ svc_kind verdict = ShareProofs ∧
        (SharesDispatched d ∈ out w ∨ ∃ ec' refused', Deliver (OnDispatchLogged d ec') refused' ∈ inputs) ∧
        dispatch_id d = causation_id ec ∧ p ∈ covered d ∧ p ∉ dishonest_parties verdict.
Proof.
  intros Hi. destruct (run_settles inputs Hi) as (w & k & r & sh & pl & v & Hw & Hset & _ & HC). exists w, k, r.
  do 2 (split; [done|]). destruct HC as (_ & _ & _ & _ & _ & _ & _ & (Hver & _) & _). intros vs p Hvs Hp Hne.
  destruct (Hver vs p Hvs Hp Hne) as (verdict & ec & d & [refused Hdel] & Hkind & Hknown & Hid & Hcov & Hdis).
  exists verdict, ec, refused, d. split_and!; try done.
Qed.


(** C24: A restart always succeeds and continues from one point of the run: the one up to which the
    writes of the node had reached the disk, the present one when none is lost.  The state, the
    recovery record and the shares are those of that point, every share that the record refers to is
    back with its content and its dealer's signature checked, and what was published stays published. *)
Theorem restart_restores before after canonical :
  inputs_ok (before ++ after) →
  ∃ w0 k r w w', ks_run before ks_fresh = Some w0 ∧ settled w0 k r ∧ ks_run (before ++ after) ks_fresh = Some w ∧
    ks_run ((before ++ after) ++ [Restart canonical (length after)]) ks_fresh = Some w' ∧ settled w' k r ∧
    out w' = out w ∧
    (∀ p, is_Some (threshold_share_refs r !! p) ↔ is_Some (k_shares (st w') !! p)) ∧
    (∀ p e, k_shares (st w') !! p = Some e →
       k_shares (st w0) !! p = Some e ∧ threshold_share_refs r !! p = Some (payload_ref e) ∧
       share_ok (run_of (before ++ after)) p e).
Proof.
  intros Hok. destruct (run_holds (before ++ after) (length before) Hok) as (past & w0 & Hw0 & _ & Hh & _); [rewrite length_app; lia|].
  rewrite take_app_length in Hw0.
  destruct (run_holds (before ++ after) (length (before ++ after)) Hok) as (past2 & w & Hw & _); [done|]. rewrite firstn_all in Hw.
  pose proof Hw as Hw2. rewrite ks_go_app, Hw0 in Hw2. cbn in Hw2. destruct (ks_go_past _ _ _ _ _ Hw2) as (ms & Hpast & Hlen).
  assert ((st w :: past2) !! length after = Some (st w0)) as Hpoint by (rewrite Hpast, <-Hlen; by apply list_lookup_middle).
  destruct Hh as (k & r & sh & pl & v & o & [Hst _] & HC). pose proof HC as ((_ & _ & _ & _ & _ & Hschema) & _ & _ & _ & Hsh & _).
  pose proof (loads _ _ _ _ Hsh) as Hload. pose proof (loaded_Csh _ _ _ _ Hsh) as [Hsok Hrefs].
  eexists w0, k, r, w, _. unfold ks_run. rewrite (ks_go_app (before ++ after)), Hw, Hw0. cbn -[lookup]. rewrite Hpoint. unfold settled, restart. rewrite Hst. cbn.
  rewrite Hschema. cbn. rewrite Hload. cbn. do 6 (split; [done|]). split.
  - intros p. split; [intros [ref Hp]; destruct (Hrefs p ref Hp) as (e & He & _); by exists e|].
    by intros [e [_ ?]%map_lookup_filter_Some].
  - intros p e He. pose proof (map_Forall_lookup_1 _ _ _ _ Hsok He) as Hpe.
    apply map_lookup_filter_Some in He as [Hpl [ref Href]]. destruct Hsh as [_ Hsh].
    destruct (Hsh p ref Href) as (e' & Hmem & Hpl' & Hr). rewrite Hpl in Hpl'. injection Hpl' as <-.
    cbn in Href. by rewrite Href, Hr.
Qed.
End Runs.
