(* ===== verification/KeyshareExample.v ===== *)
(** * A threshold keyshare, run

    A committee of three of which two deal, seen by its second member: keys, the share of the first
    member, its verification, Ready reports, a restart, the roster, the calculation of the decryption key and C4, up
    to the publication of the keyshare.  The theorems of KeyshareProps are applied to this run. *)

From S2P Require Import Prelude Events AlloyExample CommitmentLinks NodeRegistry AddressExample Actor Orchestration CanonicalKeys KeyshareTiming KeyshareEvents KeyCollector C4Collector ShareCollector DkgRoster Keyshare KeysharePlan ReadyReports KeyshareWork KeyshareShares KeyshareActor KeyshareInv KeyshareSteps KeyshareProps.
Local Open Scope nat_scope.

#[local] Existing Instance ex_ops.

Definition ex_payload_bytes (p : SignedProofPayload) : Bytes := public_signals (pp_proof (payload p)).

#[local] Instance ex_dkg_bytes : DkgBytes := {|
  bincode_e3_id e := str_bytes (e3_num e);
  bincode_share s := ts_pk_share s ++ concat (concat (omap id (sk_sss s)));
  bincode_share_proofs a b c d := concat (ex_payload_bytes <$> (option_list a ++ option_list b ++ c ++ d));
  bincode_c4_proofs a l := concat (ex_payload_bytes <$> a :: l) |}.

#[local] Instance ex_keyshare_hash : KeyshareHash := {|
  dispatch_id d := ex_keccak (Z.of_nat <$> (sender_party_id <$> Orchestration.share_proofs d) ++ elements (pre_dishonest d));
  payload_ref e := mkPayloadRef (length (bincode_share (tsc_share e.1))) (ex_keccak (bincode_share (tsc_share e.1))) |}.

#[local] Instance ex_key_check : KeyCheck := {| validate_pk_commitment _ _ _ := true |}.

(** ** The inputs *)

Definition ks_e3 : E3id := mkE3id "7" 1.
Definition ks_ctx (id cause : Z) : EventContext := mkContext id cause 1 1 1 0 None Local_.
Definition ks_member (p : nat) : string := ex_print (11 + Z.of_nat p).
Definition ks_selected : CiphernodeSelected :=
  mkSelected ks_e3 1 3 0 [] InsecureDkg64 [] 1 [ks_member 0; ks_member 1; ks_member 2].
Definition ks_kp : KsParams := mkKsParams (ex_key 12) 99%Z InsecureDkg64 (λ _, None).

(** Public signals start with the commitment of this node's key. *)
Definition ks_signed (ty : ProofType) (c : CircuitName) (tag : Z) : SignedProofPayload :=
  mkSigned (ex_payload ks_e3 ty c [] (repeat 5%Z 32 ++ repeat tag 32)) [].

Definition ks_own_key : EncryptionKeyCreated :=
  mkEncryptionKeyCreated ks_e3 (mkEncryptionKey 1 [] None (Some (mkSigned (ex_payload ks_e3 C0PkBfv PkBfv [] (repeat 5%Z 32)) []))) false.

Definition ks_c2a (p : nat) := ks_signed C2aSkShareComputation SkShareComputation (Z.of_nat p).
Definition ks_c2b (p : nat) := ks_signed C2bESmShareComputation ESmShareComputation (Z.of_nat p).
Definition ks_share_unsigned (p : nat) : ThresholdShareCreated :=
  mkShareMessage ks_e3 (ex_dealer p) 1 true (Some (ks_c2a p)) (Some (ks_c2b p))
    [ks_signed C3aSkShareEncryption ShareEncryption 3] [ks_signed C3bESmShareEncryption ShareEncryption 3] [].
Definition ks_share (p : nat) : ThresholdShareCreated :=
  let m := ks_share_unsigned p in
  mkShareMessage (tsc_e3_id m) (tsc_share m) (target_party_id m) (tsc_external m) (signed_c2a_proof m) (signed_c2b_proof m)
    (signed_c3a_proofs m) (signed_c3b_proofs m) [(11 + Z.of_nat p)%Z; share_digest m].

Definition ks_batch := [(ex_dealer 0, received_proofs (ks_share 0))].
Definition ks_dispatch_id : Z := ex_keccak [0%Z].

Definition ks_dealer (p : nat) : DkgDealer :=
  match dealer_identity ks_e3 p (if p =? 1 then [] else ts_pk_share (ex_dealer p)) (ks_c2a p) (ks_c2b p) with
  | Ok d => d | Err _ => mkDealer p 0 end.

Definition ks_coordination (p : nat) (kind : DkgCoordinationKind) : DkgCoordination :=
  default (mkCoordination ks_e3 0 p kind [] []) (sign_coordination ks_e3 99 p kind [ks_dealer 0; ks_dealer 1] (ex_key (11 + Z.of_nat p))).

Definition ks_before : list KsInput :=
  (λ m, Deliver m []) <$> [
    TimingRead 1000 500;
    OnEncryptionKey ks_own_key (ks_ctx 1 1) 100;
    OnAggregatorChanged (mkAggregatorChanged ks_e3 (Some 0) false) (ks_ctx 2 2);
    Generated (KCollectingEncryptionKeys (mkCollectingKeys [] [] ks_selected)) (ks_ctx 3 3);
    Generated (KGeneratingThresholdShare (mkGenerating None None None None [] [] [] None None)) (ks_ctx 4 4);
    Generated (KAggregatingDecryptionKey ex_current) (ks_ctx 5 5);
    OnShare (ks_share 0) (ks_ctx 6 6) 100;
    OnSharesCollected ks_batch (ks_ctx 7 7);
    OnVerification (mkVerified ks_e3 ShareProofs ∅) (ks_ctx 8 ks_dispatch_id);
    OnDkgProofSigned 1 (ks_c2a 1) (ks_ctx 9 9);
    OnDkgProofSigned 1 (ks_c2b 1) (ks_ctx 10 10);
    OnCoordination (ks_coordination 0 Ready) (ks_ctx 11 11)].

Definition ks_keys : CanonicalKeyState := mkCanonical ∅ ∅ ∅.

Definition ks_c4_share : DecryptionKeyShared :=
  mkKeyShared ks_e3 0 (ks_member 0) (ks_signed C4aSkShareDecryption DkgShareDecryption 1) [ks_signed C4bESmShareDecryption DkgShareDecryption 1] true [].

Definition ks_after : list KsInput :=
  Restart false 0 :: ((λ m, Deliver m []) <$> [
    OnEffectsEnabled (ks_ctx 12 12) ks_keys 120;
    OnCoordination (ks_coordination 0 Roster) (ks_ctx 13 13);
    OnKeyCalculated [50%Z] [[60%Z]] (ks_ctx 14 14) 130;
    OnPkProofSigned 1 (ks_signed C1PkGeneration PkGeneration 1) (ks_ctx 15 15);
    OnC4Collected {[0 := ks_c4_share]} (ks_ctx 16 16);
    OnVerification (mkVerified ks_e3 DecryptionProofs ∅) (ks_ctx 17 17)]).

Definition ks_start : World Ks KsOut := ks_fresh ks_kp ks_e3 1 1 3 [] (ks_member 1) ks_selected (ks_ctx 0 0) true.


Definition ks_inputs : list KsInput := ks_before ++ ks_after.

Local Abbreviation ks_ok := (inputs_ok ks_kp ks_e3 1 1 3 Minimum [] (ks_member 1) ks_selected (ks_ctx 0 0) true).
Local Abbreviation the_run := (run_of ks_kp ks_e3 1 1 3 Minimum [] (ks_member 1) ks_selected (ks_ctx 0 0) true ks_inputs).

Lemma ks_inputs_ok : ks_ok ks_inputs.
Proof.
  split; [reflexivity|]. split.
  - intros msg refused Hin.
    assert (Forall (λ i, match i with Deliver m _ => well_formed the_run m | Restart _ _ => True end) ks_inputs) as Hall.
    { repeat (constructor; [first [exact I|cbn; lia]|]). constructor. }
    rewrite Forall_forall in Hall. exact (Hall _ Hin).
  - intros i canonical lost Hi%list_elem_of_lookup_2.
    assert (Forall keeps_writes ks_inputs) as Hall by (repeat (constructor; [done|]); constructor).
    rewrite Forall_forall in Hall. specialize (Hall _ Hi). cbn in Hall. lia.
Qed.

(** ** What the run publishes *)

Definition ks_calc : CalculateDecryptionKeyRequest := mkCalcRequest [] 3 1 [[10%Z]; [20%Z]] [[[40%Z]; [30%Z]]].

Lemma ks_publishes :
  (w ← ks_run ks_inputs ks_start; x ← out w !! 10; y ← out w !! 14; Some (x, y)) =
  Some (CalculationRequested ks_calc, KeyshareCreated [] (ks_member 1) 1 (Some (ks_signed C1PkGeneration PkGeneration 1))).
Proof. vm_compute. reflexivity. Qed.

Lemma ks_published w : ks_run ks_inputs ks_start = Some w →
  CalculationRequested ks_calc ∈ out w ∧ KeyshareCreated [] (ks_member 1) 1 (Some (ks_signed C1PkGeneration PkGeneration 1)) ∈ out w.
Proof.
  intros Hw. pose proof ks_publishes as Hp. rewrite Hw in Hp. cbn in Hp.
  destruct (out w !! 10) as [x|] eqn:Hx; [|done]. destruct (out w !! 14) as [y|] eqn:Hy; [|done]. cbn in Hp.
  injection Hp as -> ->. split; by eapply list_elem_of_lookup_2.
Qed.

(** The recovery record in memory after a run. *)
Definition ks_record (inputs : list KsInput) : option RecoveryState := w ← ks_run inputs ks_start; p_data (k_recovery (st w)).

Lemma ks_record_settled inputs w k r : ks_run inputs ks_start = Some w → settled w k r → ks_record inputs = Some r.
Proof. intros Hw [_ Hr]. unfold ks_record. rewrite Hw. cbn. by rewrite Hr. Qed.

Lemma calculations_sound_witness :
  ∃ w, ks_run ks_inputs ks_start = Some w ∧ calculation_ok the_run (out w) ks_calc.
Proof.
  destruct (calculations_sound ks_kp ks_e3 1 1 3 Minimum [] (ks_member 1) ks_selected (ks_ctx 0 0) true ks_inputs ks_inputs_ok)
    as (w & k & r & Hw & _ & Hq).
  exists w. split; [exact Hw|]. apply Hq. exact (proj1 (ks_published w Hw)).
Defined.


Lemma ks_accepts : (λ r, (λ m, (co_party_id m, dealer_ids (dealers m))) <$> dkg_roster r) <$> ks_record ks_inputs = Some (Some (0, [0; 1])).
Proof. vm_compute. reflexivity. Qed.

Lemma accepted_roster_authentic_witness :
  ∃ r m, ks_record ks_inputs = Some r ∧ dkg_roster r = Some m ∧ length (dealers m) = cc_h (values Minimum) ∧
    ∃ ready, ready_ok the_run 1 ready ∧ ready_contains_roster ready m = true.
Proof.
  destruct (accepted_roster_authentic ks_kp ks_e3 1 1 3 Minimum [] (ks_member 1) ks_selected (ks_ctx 0 0) true ks_inputs ks_inputs_ok)
    as (w & k & r & Hw & Hset & _ & Hm).
  pose proof ks_accepts as Hr. rewrite (ks_record_settled _ _ _ _ Hw Hset) in Hr. cbn in Hr. injection Hr as Hr.
  destruct (dkg_roster r) as [m|] eqn:E; [|discriminate].
  destruct (Hm m eq_refl) as (_ & _ & _ & _ & _ & _ & Hlen & Hready). exists r, m.
  split; [exact (ks_record_settled _ _ _ _ Hw Hset)|]. split; [exact E|]. split; [exact Hlen|exact Hready].
Defined.

Lemma ks_reports_before : (λ r, (λ m, length (dealers m)) <$> dkg_ready r) <$> ks_record ks_before = Some (Some 2).
Proof. vm_compute. reflexivity. Qed.

(** The report of before the restart is still there at the end. *)
Lemma roster_only_improves_witness :
  ∃ r1 r2 m m', ks_record ks_before = Some r1 ∧ dkg_ready r1 = Some m ∧ dkg_ready r2 = Some m' ∧ length (dealers m) = 2.
Proof.
  destruct (roster_only_improves ks_kp ks_e3 1 1 3 Minimum [] (ks_member 1) ks_selected (ks_ctx 0 0) true ks_before ks_after ks_inputs_ok)
    as (w1 & k1 & r1 & w2 & k2 & r2 & Hw1 & Hs1 & Hw2 & Hs2 & _ & Hready & _); [repeat (constructor; [done|]); constructor|].
  pose proof ks_reports_before as Hr. rewrite (ks_record_settled _ _ _ _ Hw1 Hs1) in Hr. cbn in Hr. injection Hr as Hr.
  destruct (dkg_ready r1) as [m|] eqn:Hm; [|discriminate]. injection Hr as Hr. destruct (Hready m eq_refl) as (m' & Hm' & _).
  exists r1, r2, m, m'. split; [exact (ks_record_settled _ _ _ _ Hw1 Hs1)|]. split; [exact Hm|]. split; [exact Hm'|exact Hr].
Defined.

Lemma ks_verified : verified_dealer_ids <$> ks_record ks_inputs = Some (Some {[0]}).
Proof. vm_compute. reflexivity. Qed.

Lemma verified_dealers_checked_witness :
  ∃ verdict ec refused, Deliver (OnVerification verdict ec) refused ∈ ks_inputs ∧ svc_kind verdict = ShareProofs ∧ 0 ∉ dishonest_parties verdict.
Proof.
  destruct (verified_dealers_checked ks_kp ks_e3 1 1 3 Minimum [] (ks_member 1) ks_selected (ks_ctx 0 0) true ks_inputs ks_inputs_ok)
    as (w & k & r & Hw & Hset & Hv).
  pose proof ks_verified as Hr. rewrite (ks_record_settled _ _ _ _ Hw Hset) in Hr. cbn in Hr. injection Hr as Hr.
  destruct (Hv _ 0 Hr) as (verdict & ec & refused & d & Hdel & Hkind & _ & _ & _ & Hd); [by apply elem_of_singleton|lia|].
  exists verdict, ec, refused. split; [exact Hdel|]. split; [exact Hkind|exact Hd].
Defined.

(** The process dies after the publication of the keyshare and loses every write since the restart. *)
Lemma restart_restores_witness :
  ∃ w0 w', ks_run ks_before ks_start = Some w0 ∧ ks_run (ks_inputs ++ [Restart false 7]) ks_start = Some w' ∧
    is_Some (k_shares (st w') !! 0) ∧ k_recovery (st w') = k_recovery (st w0) ∧
    KeyshareCreated [] (ks_member 1) 1 (Some (ks_signed C1PkGeneration PkGeneration 1)) ∈ out w'.
Proof.
  destruct (restart_restores ks_kp ks_e3 1 1 3 Minimum [] (ks_member 1) ks_selected (ks_ctx 0 0) true ks_before ks_after false ks_inputs_ok)
    as (w0 & k & r & w & w' & Hw0 & Hset & Hw & Hw' & Hset' & Hout & Hall & _).
  assert ((λ r, bool_decide (is_Some (threshold_share_refs r !! 0))) <$> ks_record ks_before = Some true) as Hr by (vm_compute; reflexivity).
  rewrite (ks_record_settled _ _ _ _ Hw0 Hset) in Hr. cbn in Hr. injection Hr as Hr. apply bool_decide_eq_true in Hr.
  exists w0, w'. split; [exact Hw0|]. split; [exact Hw'|]. split; [by apply Hall|].
  split; [exact (eq_trans (proj2 Hset') (eq_sym (proj2 Hset)))|]. rewrite Hout. exact (proj2 (ks_published w Hw)).
Defined.

(** ** Two rosters and two refused writes

    Acceptance writes the roster to the recovery record and then the honest set to the state.  Here
    the roster of member 2 is accepted but the write that fixes it is refused; then the roster of
    member 0 replaces it in the record and the write of its honest set is refused.  The next trigger
    calculates with the dealers of the first roster although the record holds the second. *)

Definition ks_dealers (l : list nat) : list DkgDealer := ks_dealer <$> l.
Definition ks_message (p : nat) (kind : DkgCoordinationKind) (l : list nat) : DkgCoordination :=
  default (mkCoordination ks_e3 0 p kind [] []) (sign_coordination ks_e3 99 p kind (ks_dealers l) (ex_key (11 + Z.of_nat p))).

Definition ks_ready_reports : list KsInput :=
  ((λ m, Deliver m []) <$> [
    TimingRead 1000 500;
    OnEncryptionKey ks_own_key (ks_ctx 1 1) 100;
    OnAggregatorChanged (mkAggregatorChanged ks_e3 (Some 2) false) (ks_ctx 2 2);
    Generated (KCollectingEncryptionKeys (mkCollectingKeys [] [] ks_selected)) (ks_ctx 3 3);
    Generated (KGeneratingThresholdShare (mkGenerating None None None None [] [] [] None None)) (ks_ctx 4 4);
    Generated (KAggregatingDecryptionKey ex_current) (ks_ctx 5 5);
    OnShare (ks_share 0) (ks_ctx 6 6) 100;
    OnShare (ks_share 2) (ks_ctx 6 6) 100;
    OnSharesCollected [(ex_dealer 0, received_proofs (ks_share 0)); (ex_dealer 2, received_proofs (ks_share 2))] (ks_ctx 7 7);
    OnVerification (mkVerified ks_e3 ShareProofs ∅) (ks_ctx 8 (ex_keccak [0; 2]%Z));
    OnDkgProofSigned 1 (ks_c2a 1) (ks_ctx 9 9);
    OnDkgProofSigned 1 (ks_c2b 1) (ks_ctx 10 10);
    OnCoordination (ks_message 0 Ready [0; 1; 2]) (ks_ctx 11 11);
    OnCoordination (ks_message 2 Ready [0; 1; 2]) (ks_ctx 12 12)]).

Definition ks_two_rosters : list KsInput := ks_ready_reports ++
  [Deliver (OnCoordination (ks_message 2 Roster [1; 2]) (ks_ctx 13 13)) [false; false; false; false; true];
   Deliver (OnCoordination (ks_message 0 Roster [0; 1]) (ks_ctx 14 14)) [false; false; true];
   Deliver (OnDkgProofSigned 1 (ks_signed C3aSkShareEncryption ShareEncryption 3) (ks_ctx 15 15)) []].

Theorem refused_writes_split_the_roster :
  (w ← ks_run ks_two_rosters ks_start; r ← p_data (k_recovery (st w)); roster ← dkg_roster r; q ← last (out w);
   match q with CalculationRequested q => Some (roster, sk_sss_collected q) | _ => None end)
  = Some (ks_message 0 Roster [0; 1], [[20]; [12]]%Z).
Proof. vm_compute. reflexivity. Qed.

(** ** Why no write may be lost

    The roster of member 2 is accepted and fixed.  Without a restart, or after one that finds every
    write, the roster of member 0 is ignored.  After a restart that lost the writes of that event it
    replaces it: the gap that docs/architecture/dkg.md describes. *)
Definition ks_fixed_roster (l : list KsInput) : option (bool * list PartyId) :=
  w ← ks_run (ks_ready_reports ++ Deliver (OnCoordination (ks_message 2 Roster [1; 2]) (ks_ctx 13 13)) [] :: l) ks_start;
  k ← p_data (k_state (st w)); r ← p_data (k_recovery (st w)); m ← dkg_roster r; Some (dkg_roster_fixed k, dealer_ids (dealers m)).

Theorem lost_write_replaces_fixed_roster :
  let late := Deliver (OnCoordination (ks_message 0 Roster [0; 1]) (ks_ctx 14 14)) [] in
  ks_fixed_roster [] = Some (true, [1; 2]) ∧ ks_fixed_roster [late] = Some (true, [1; 2]) ∧
  ks_fixed_roster [Restart false 0; late] = Some (true, [1; 2]) ∧ ks_fixed_roster [Restart false 1; late] = Some (false, [0; 1]).
Proof. vm_compute. repeat split. Qed.
