(* ===== verification/ChainReader.v ===== *)
(** * EVM ingestion: the chain reader

    Model of crates/evm/runtime/src/log_fetching (the adaptive [eth_getLogs] window, the fetch of
    a chunk, the dispatch of its logs, the historical sync, the backfill, the live loop) and of
    crates/evm/runtime/src/chain_reader (the confirmed head, the reconnect backoff, the recreation
    of a provider, the reader's session).

    The provider is the class [LogProvider], the source's trait of that name, over a type [P] of
    providers: each request gives an answer and the provider as it is afterwards, so a provider
    may answer the same request differently every time.  Sleeping changes nothing else; what the
    shutdown signal, the provider factory, the subscription and its stream decide is an argument
    of the step it happens in.  Messages of a provider are ASCII strings.  A failed loop bound is
    [OutOfFuel], which is not an error of the source: [chunk_returns], [sync_run_spec],
    [backfill_spec] and [startup_read_exact] show that it never occurs with the fuel that the
    definitions take. *)

From Stdlib Require Import Ascii.
From S2P Require Import Prelude.
Local Open Scope Z_scope.

(** ** The adaptive block window: window.rs *)

Definition MAX_LOG_WINDOW : Z := 10000.
Definition MIN_LOG_WINDOW : Z := 1.
Definition NARROW_LOG_WINDOW_WARN : Z := 128.

Definition RANGE_LIMIT_MARKERS : list string :=
  [ "-32062"; "-32701"; "range too large"; "range is too large"; "range too wide";
    "range is too wide"; "block range limit"; "max block range"; "exceed maximum block range";
    "exceeds max block range"; "query returned more than"; "too many results";
    "response size exceeded"; "reduce the block range"; "reduce your block range" ]%string.

Definition RANGE_QUALIFIED_MARKERS : list string := [ "limited to"; "query timeout exceeded" ]%string.
Definition RANGE_CONTEXT_MARKER : string := "range"%string.

(** [str::to_lowercase] and [str::contains] on ASCII strings. *)
Definition ascii_lower (c : ascii) : ascii :=
  let n := nat_of_ascii c in
  if ((65 <=? n)%nat && (n <=? 90)%nat)%bool then ascii_of_nat (n + 32) else c.

Fixpoint to_lowercase (s : string) : string :=
  match s with
  | EmptyString => EmptyString
  | String c s' => String (ascii_lower c) (to_lowercase s')
  end.

Fixpoint contains (s marker : string) : bool :=
  String.prefix marker s || match s with EmptyString => false | String _ s' => contains s' marker end.

Definition is_range_limit_error (message : string) : bool :=
  let message := to_lowercase message in
  if existsb (contains message) RANGE_LIMIT_MARKERS then true
  else contains message RANGE_CONTEXT_MARKER && existsb (contains message) RANGE_QUALIFIED_MARKERS.

Record LogWindow := mkWindow { width : Z }.

Definition with_max (max_width : Z) : LogWindow := mkWindow (Z.max max_width MIN_LOG_WINDOW).

Definition end_for (w : LogWindow) (cursor to_block : Z) : Z :=
  Z.min (saturating_add U64_MAX cursor (width w - 1)) to_block.

(** Whether the window narrowed, and the window. *)
Definition shrink (w : LogWindow) : bool * LogWindow :=
  if width w <=? MIN_LOG_WINDOW then (false, w)
  else (true, mkWindow (Z.max (width w / 2) MIN_LOG_WINDOW)).

Definition is_narrow (w : LogWindow) : bool := width w <=? NARROW_LOG_WINDOW_WARN.

(** [div_ceil] of two [u64]. *)
Definition div_ceil (a b : Z) : Z := (a + b - 1) / b.

Definition estimated_chunks (w : LogWindow) (from_block to_block : Z) : Z :=
  if to_block <? from_block then 0 else div_ceil (to_block - from_block + 1) (width w).

(** ** The confirmed head and the reconnect delay: reorg.rs, backoff.rs *)

Definition confirmed_head (chain_head confirmations : Z) : Z := saturating_sub chain_head confirmations.

Record Backoff := mkBackoff { delay_secs : Z; max_delay_secs : Z }.

Definition backoff_new (max_delay_secs : Z) : Backoff := mkBackoff 1 max_delay_secs.
Definition backoff_reset (b : Backoff) : Backoff := mkBackoff 1 (max_delay_secs b).
Definition next_delay (b : Backoff) : Z * Backoff :=
  (delay_secs b, mkBackoff (Z.min (delay_secs b * 2) (max_delay_secs b)) (max_delay_secs b)).

(** ** Messages of the pipeline: messages.rs *)

Record Log := mkLog
  { block_number : option Z; log_index : option Z; block_timestamp : option Z;
    log_address : Z; log_topics : list Z; log_data : list Z }.

Record HistoricalSyncComplete := mkSyncComplete
  { hsc_chain_id : Z; prev_event : option Z; hsc_id : Z }.

(** Why a log was rejected: the router has no route, or the parser's error. *)
Inductive RejectReason :=
| NoRoute (address : Z) | NoBlockNumber | NoLogIndex | Undecodable | ExtractorFailed.

Record EvmLogRejected := mkRejected { rej_id : Z; rej_chain_id : Z; rej_reason : RejectReason }.

(** Why a reader cannot continue. *)
Inductive StopReason := NoProviderFactory | WrongChain (new_chain_id : Z).

Record EvmReaderStopped := mkReaderStopped { stopped_id : Z; stopped_chain_id : Z; stopped_reason : StopReason }.

Record EvmLog := mkEvmLog { el_id : Z; el_log : Log; el_timestamp : Z; el_chain_id : Z }.

Global Instance Log_eq_dec : EqDecision Log.
Proof. solve_decision. Defined.

(** [D] is the decoded payload, which the reader never builds. *)
Record EvmEvent (D : Type) := mkEvmEvent
  { ee_id : Z; ee_data : D; ee_block : Z; ee_ts : Z; ee_chain_id : Z }.
Arguments mkEvmEvent {D} _ _ _ _ _.
Arguments ee_id {D} _.
Arguments ee_data {D} _.
Arguments ee_block {D} _.
Arguments ee_ts {D} _.
Arguments ee_chain_id {D} _.

Inductive InterfoldEvmEvent (D : Type) :=
| MsgSyncComplete (e : HistoricalSyncComplete)
| MsgEvent (e : EvmEvent D)
| MsgLog (e : EvmLog)
| MsgRejected (e : EvmLogRejected)
| MsgProcessed (id : Z)
| MsgReaderStopped (e : EvmReaderStopped).
Arguments MsgSyncComplete {D} _.
Arguments MsgEvent {D} _.
Arguments MsgLog {D} _.
Arguments MsgRejected {D} _.
Arguments MsgProcessed {D} _.
Arguments MsgReaderStopped {D} _.

Definition get_id {D} (m : InterfoldEvmEvent D) : Z :=
  match m with
  | MsgSyncComplete e => hsc_id e
  | MsgLog e => el_id e
  | MsgRejected e => rej_id e
  | MsgEvent e => ee_id e
  | MsgProcessed id => id
  | MsgReaderStopped e => stopped_id e
  end.

(** ** Filters and the provider: actor.rs, adapter.rs *)

Inductive BlockNumberOrTag := Latest | Number (n : Z).

Record Filter := mkFilter
  { f_addresses : list Z; f_from : option BlockNumberOrTag; f_to : option BlockNumberOrTag }.

Definition from_block (f : Filter) (n : Z) : Filter := mkFilter (f_addresses f) (Some (Number n)) (f_to f).
Definition to_block (f : Filter) (n : Z) : Filter := mkFilter (f_addresses f) (f_from f) (Some (Number n)).

Record Filters := mkFilters
  { historical : Filter; current : Filter; start_block : Z; confirmations : Z; max_log_window : Z }.

Definition filters_new (addresses : list Z) (start : Z) : Filters :=
  mkFilters (mkFilter addresses (Some (Number start)) None) (mkFilter addresses (Some Latest) None)
    start 0 MAX_LOG_WINDOW.
Definition with_confirmations (f : Filters) (n : Z) : Filters :=
  mkFilters (historical f) (current f) (start_block f) n (max_log_window f).
Definition with_max_log_window (f : Filters) (blocks : Z) : Filters :=
  mkFilters (historical f) (current f) (start_block f) (confirmations f) blocks.
Definition log_window (f : Filters) : LogWindow := with_max (max_log_window f).

(** The trait, without [fetch_block_hash], which no reader calls.  Errors are the provider's
    messages. *)
Class LogProvider (P : Type) := {
  fetch_logs : Filter → P → result (list Log) string * P;
  fetch_block_number : P → result Z string * P;
  fetch_block_timestamp : Z → P → result Z string * P;
}.

Inductive ReadError :=
| RangeRejected (cursor stop : Z) (shrinks : Z) (message : string)
| LogsFailed (cursor stop : Z) (window_width : Z) (message : string)
| MissingBlockNumber
| TimestampFailed (message : string)
| HeadFailed (message : string)
| HeadBehind (confirmed sync_end : Z)
| OutOfFuel.

Record IngestionProgress := mkProgress { ip_chain_id : Z; ip_head : Z; ip_cursor : Z }.

(** What a session of the reader carries from call to call: the provider, the window, the
    tracker of block timestamps, the next correlation id, the messages sent to the next actor and
    the progress reported, both in order. *)
Record Session (P D : Type) := mkSession
  { provider : P; window : LogWindow; tracker : option (Z * Z); next_id : Z;
    sent : list (InterfoldEvmEvent D); reports : list IngestionProgress }.
Arguments mkSession {P D} _ _ _ _ _ _.
Arguments provider {P D} _.
Arguments window {P D} _.
Arguments tracker {P D} _.
Arguments next_id {P D} _.
Arguments sent {P D} _.
Arguments reports {P D} _.

(** The key of [sort_by_key]: an absent number sorts before every [u64]. *)
Definition opt_key (o : option Z) : Z := default (-1) o.

Definition log_le (a b : Log) : Prop :=
  opt_key (block_number a) < opt_key (block_number b) ∨
  opt_key (block_number a) = opt_key (block_number b) ∧ opt_key (log_index a) ≤ opt_key (log_index b).
Global Instance log_le_dec a b : Decision (log_le a b).
Proof. unfold log_le. apply _. Defined.

(** [u64] addition of a release build. *)
Definition u64_succ (n : Z) : Z := (n + 1) mod 2 ^ 64.

Definition GET_LOGS_MAX_RETRIES : Z := 3.
Definition BLOCK_TIMESTAMP_MAX_ATTEMPTS : nat := 4.

Section Fetching.
Context {P D : Type} `{LogProvider P}.
Abbreviation Session := (Session P D).

Definition set_provider (s : Session) (p : P) : Session :=
  mkSession p (window s) (tracker s) (next_id s) (sent s) (reports s).
Definition set_tracker (s : Session) (t : option (Z * Z)) : Session :=
  mkSession (provider s) (window s) t (next_id s) (sent s) (reports s).

(** [next.do_send] *)
Definition do_send (s : Session) (m : InterfoldEvmEvent D) : Session :=
  mkSession (provider s) (window s) (tracker s) (next_id s) (sent s ++ [m]) (reports s).

(** [CorrelationId::new] *)
Definition new_id (s : Session) : Z * Session :=
  (next_id s, mkSession (provider s) (window s) (tracker s) (next_id s + 1) (sent s) (reports s)).

(** Every session has a progress sink here; a reader without one drops the report. *)
Definition report_progress (s : Session) (chain_id head cursor : Z) : Session :=
  mkSession (provider s) (window s) (tracker s) (next_id s) (sent s)
    (reports s ++ [mkProgress chain_id head cursor]).

(** The loop of [fetch_chunk_adapting]: its fuel bounds the requests, at most one narrowing per
    bit of the width and three attempts. *)
Fixpoint fetch_chunk_loop (fuel : nat) (filter : Filter) (cursor to : Z) (attempt shrinks : Z)
    (p : P) (w : LogWindow) : result (list Log * Z) ReadError * P * LogWindow :=
  match fuel with
  | O => (Err OutOfFuel, p, w)
  | S fuel =>
      let stop := end_for w cursor to in
      let '(answer, p) := fetch_logs (to_block (from_block filter cursor) stop) p in
      match answer with
      | Ok logs => (Ok (merge_sort log_le logs, stop), p, w)
      | Err message =>
          if is_range_limit_error message then
            let '(narrowed, w) := shrink w in
            if negb narrowed then (Err (RangeRejected cursor stop shrinks message), p, w)
            else fetch_chunk_loop fuel filter cursor to attempt (shrinks + 1) p w
          else if GET_LOGS_MAX_RETRIES <=? attempt then
            (Err (LogsFailed cursor stop (width w) message), p, w)
          else fetch_chunk_loop fuel filter cursor to (attempt + 1) shrinks p w
      end
  end.

Definition chunk_fuel (w : LogWindow) : nat := Z.to_nat (Z.log2 (width w) + 3).

Definition fetch_chunk_adapting (filter : Filter) (cursor to : Z) (s : Session)
    : result (list Log * Z) ReadError * Session :=
  let '(r, p, w) := fetch_chunk_loop (chunk_fuel (window s)) filter cursor to 1 0 (provider s) (window s) in
  (r, mkSession p w (tracker s) (next_id s) (sent s) (reports s)).

(** [fetch_logs_adapting]: the reads before the session, over a window of their own. *)
Fixpoint fetch_logs_loop (fuel : nat) (filter : Filter) (cursor to : Z) (p : P) (w : LogWindow)
    (logs : list Log) : result (list Log) ReadError * P :=
  if to <? cursor then (Ok logs, p)
  else match fuel with
  | O => (Err OutOfFuel, p)
  | S fuel =>
      let '(r, p, w) := fetch_chunk_loop (chunk_fuel w) filter cursor to 1 0 p w in
      match r with
      | Err e => (Err e, p)
      | Ok (chunk, stop) =>
          let logs := logs ++ chunk in
          if to <=? stop then (Ok logs, p) else fetch_logs_loop fuel filter (u64_succ stop) to p w logs
      end
  end.

Definition fetch_logs_adapting (filter : Filter) (from to : Z) (max_log_window : Z) (p : P)
    : result (list Log) ReadError * P :=
  if to <? from then (Ok [], p)
  else fetch_logs_loop (Z.to_nat (to - from + 1)) filter from to p (with_max max_log_window) [].

(** [TimestampTracker::get]: the retries of the lookup, then the tracker. *)
Fixpoint lookup_timestamp (attempts : nat) (bn : Z) (last : string) (p : P) : result Z string * P :=
  match attempts with
  | O => (Err last, p)
  | S attempts =>
      match fetch_block_timestamp bn p with
      | (Ok timestamp, p) => (Ok timestamp, p)
      | (Err e, p) => lookup_timestamp attempts bn e p
      end
  end.

Definition get_timestamp (s : Session) (bn log_timestamp : option Z) : result Z ReadError * Session :=
  match bn with
  | None => (Err MissingBlockNumber, s)
  | Some bn =>
      let fetch :=
        match lookup_timestamp BLOCK_TIMESTAMP_MAX_ATTEMPTS bn ""%string (provider s) with
        | (Ok timestamp, p) => (Ok timestamp, set_tracker (set_provider s p) (Some (bn, timestamp)))
        | (Err e, p) => (Err (TimestampFailed e), set_provider s p)
        end in
      match log_timestamp with
      | Some ts => (Ok ts, set_tracker s (Some (bn, ts)))
      | None =>
          match tracker s with
          | Some (cached_bn, ts) => if bn =? cached_bn then (Ok ts, s) else fetch
          | None => fetch
          end
      end
  end.

(** [dispatch_chunk]: every timestamp first, then the logs in order. *)
Fixpoint resolve_logs (chain_id : Z) (logs : list Log) (s : Session) : result (list EvmLog) ReadError * Session :=
  match logs with
  | [] => (Ok [], s)
  | log :: rest =>
      match get_timestamp s (block_number log) (block_timestamp log) with
      | (Err e, s) => (Err e, s)
      | (Ok timestamp, s) =>
          let '(id, s) := new_id s in
          match resolve_logs chain_id rest s with
          | (Err e, s) => (Err e, s)
          | (Ok events, s) => (Ok (mkEvmLog id log timestamp chain_id :: events), s)
          end
      end
  end.

Definition dispatch_chunk (chain_id : Z) (logs : list Log) (s : Session) : result (option Z) ReadError * Session :=
  match resolve_logs chain_id logs s with
  | (Err e, s) => (Err e, s)
  | (Ok events, s) =>
      (Ok (last (el_id <$> events)), foldl (λ s e, do_send s (MsgLog e)) s events)
  end.

(** ** The historical sync *)

Record HistoricalSync := mkSync { cursor : Z; head : option Z; last_id : option Z }.

Definition sync_new (start_block : Z) : HistoricalSync := mkSync start_block None None.

Fixpoint fetch_to_loop (fuel : nat) (filter : Filter) (to chain_id : Z) (h : HistoricalSync) (s : Session)
    : result () ReadError * HistoricalSync * Session :=
  if to <? cursor h then (Ok tt, h, s)
  else match fuel with
  | O => (Err OutOfFuel, h, s)
  | S fuel =>
      match fetch_chunk_adapting filter (cursor h) to s with
      | (Err e, s) => (Err e, h, s)
      | (Ok (logs, chunk_end), s) =>
          match dispatch_chunk chain_id logs s with
          | (Err e, s) => (Err e, h, s)
          | (Ok id, s) =>
              let last_id := match id with Some id => Some id | None => last_id h end in
              let s := report_progress s chain_id to chunk_end in
              fetch_to_loop fuel filter to chain_id (mkSync (u64_succ chunk_end) (head h) last_id) s
          end
      end
  end.

(** One chunk covers at least one block. *)
Definition fetch_to (filter : Filter) (to chain_id : Z) (h : HistoricalSync) (s : Session)
    : result () ReadError * HistoricalSync * Session :=
  fetch_to_loop (Z.to_nat (to - cursor h + 1)) filter to chain_id h s.

(** [HistoricalSync::run] *)
Definition sync_run (filter : Filter) (confs chain_id : Z) (h : HistoricalSync) (s : Session)
    : result Z ReadError * HistoricalSync * Session :=
  match fetch_block_number (provider s) with
  | (Err e, p) => (Err (HeadFailed e), h, set_provider s p)
  | (Ok raw_head, p) =>
      let s := set_provider s p in
      let confirmed := confirmed_head raw_head confs in
      let to := default confirmed (head h) in
      let h := mkSync (cursor h) (Some to) (last_id h) in
      if negb (to <=? confirmed) then (Err (HeadBehind confirmed to), h, s)
      else match fetch_to filter to chain_id h s with
           | (Err e, h, s) => (Err e, h, s)
           | (Ok _, h, s) => (Ok to, h, s)
           end
  end.

(** ** The backfill and the live loop *)

Fixpoint backfill_loop (fuel : nat) (filter : Filter) (current_head chain_id : Z) (cursor last_block : Z) (s : Session)
    : result () ReadError * Z * Session :=
  if current_head <? cursor then (Ok tt, last_block, s)
  else match fuel with
  | O => (Err OutOfFuel, last_block, s)
  | S fuel =>
      match fetch_chunk_adapting filter cursor current_head s with
      | (Err e, s) => (Err e, last_block, s)
      | (Ok (logs, chunk_end), s) =>
          match dispatch_chunk chain_id logs s with
          | (Err e, s) => (Err e, last_block, s)
          | (Ok _, s) => backfill_loop fuel filter current_head chain_id (u64_succ chunk_end) chunk_end s
          end
      end
  end.

Definition backfill_to_head (filter : Filter) (chain_id confs : Z) (last_block : Z) (s : Session)
    : result () ReadError * Z * Session :=
  match fetch_block_number (provider s) with
  | (Err e, p) => (Err (HeadFailed e), last_block, set_provider s p)
  | (Ok raw_head, p) =>
      let s := set_provider s p in
      let current_head := confirmed_head raw_head confs in
      let gap_start := u64_succ last_block in
      if current_head <? gap_start then (Ok tt, last_block, report_progress s chain_id raw_head last_block)
      else match backfill_loop (Z.to_nat (current_head - gap_start + 1)) filter current_head chain_id gap_start last_block s with
           | (Err e, last_block, s) => (Err e, last_block, s)
           | (Ok _, last_block, s) => (Ok tt, last_block, report_progress s chain_id raw_head last_block)
           end
  end.

Definition handle_live_log (log : Log) (filter : Filter) (chain_id confs : Z) (last_block : Z) (s : Session)
    : result () ReadError * Z * Session :=
  if 0 <? confs then (Ok tt, last_block, s)
  else match block_number log with
       | Some block => if block <=? last_block then (Ok tt, last_block, s) else backfill_to_head filter chain_id confs last_block s
       | None => backfill_to_head filter chain_id confs last_block s
       end.

Inductive LiveStop := LiveShutdown | StreamEnded | LiveLogBackfillFailed (e : ReadError) | PollBackfillFailed (e : ReadError).

(** What the [select!] of [consume_live_logs] picks. *)
Inductive LiveInput := Announced (log : Log) | StreamClosed | PollTick | ShutdownSignal.

(** One turn of the loop of [consume_live_logs]. *)
Definition live_turn (input : LiveInput) (filter : Filter) (chain_id confs : Z) (last_block : Z) (s : Session)
    : option LiveStop * Z * Session :=
  match input with
  | StreamClosed => (Some StreamEnded, last_block, s)
  | Announced log =>
      match handle_live_log log filter chain_id confs last_block s with
      | (Err e, last_block, s) => (Some (LiveLogBackfillFailed e), last_block, s)
      | (Ok _, last_block, s) => (None, last_block, s)
      end
  | PollTick =>
      match backfill_to_head filter chain_id confs last_block s with
      | (Err e, last_block, s) => (Some (PollBackfillFailed e), last_block, s)
      | (Ok _, last_block, s) => (None, last_block, s)
      end
  | ShutdownSignal => (Some LiveShutdown, last_block, s)
  end.
End Fetching.

(** ** Provider recovery: utils/src/retry.rs, effects/provider_recovery.rs *)

Definition MAX_RECONNECT_DELAY_SECS : Z := 60.
Definition PROVIDER_RECREATE_MAX_ATTEMPTS : Z := 3.
Definition MAX_RETRIES_BEFORE_RECREATE : Z := 3.

Inductive RetryError := RetryFailure | RetryAgain.

(** [retry_with_backoff] on the outcomes of the operation in order; [None] while the operation
    has not returned. *)
Fixpoint retry_with_backoff {T} (current_attempt max_attempts : Z) (outcomes : list (result T RetryError))
    : option (result T ()) :=
  match outcomes with
  | [] => None
  | Ok value :: _ => Some (Ok value)
  | Err RetryAgain :: rest =>
      if max_attempts <=? current_attempt then Some (Err tt)
      else retry_with_backoff (current_attempt + 1) max_attempts rest
  | Err RetryFailure :: _ => Some (Err tt)
  end.

Inductive ReaderStop := StopShutdown | StopFailed (reason : StopReason).

(** What the environment decides in one turn of [recreate_provider]: whether the shutdown signal
    is there first or arrives during the delay, and what the factory gives each time it is
    called, a provider with its chain id or nothing. *)
Record RecreateRound (P : Type) := mkRound
  { shutdown_first : bool; shutdown_in_delay : bool; factory_calls : list (option (P * Z)) }.
Arguments mkRound {P} _ _ _.
Arguments shutdown_first {P} _.
Arguments shutdown_in_delay {P} _.
Arguments factory_calls {P} _.

(** What the environment decides in one step of the reader. *)
Record ReaderInput (P : Type) := mkInput
  { in_subscribed : bool; in_live : LiveInput; in_shutdown_in_delay : bool;
    in_rounds : list (RecreateRound P); in_report_accepted : bool }.
Arguments mkInput {P} _ _ _ _ _.
Arguments in_subscribed {P} _.
Arguments in_live {P} _.
Arguments in_shutdown_in_delay {P} _.
Arguments in_rounds {P} _.
Arguments in_report_accepted {P} _.

(** Where [read_chain] is: in the historical sync, at the top of the live loop, consuming a
    subscription, or returned. *)
Inductive ReaderPhase :=
| Syncing (h : HistoricalSync)
| Reconnecting (last_block : Z)
| Subscribed (last_block : Z)
| Finished (stop : ReaderStop).

Inductive BusError := SubscribeFailed | StopNotReported (reason : StopReason).

Record Reader (P D : Type) := mkReader
  { session : Session P D; backoff : Backoff; consecutive_failures : Z; phase : ReaderPhase;
    bus_errors : list BusError }.
Arguments mkReader {P D} _ _ _ _ _.
Arguments session {P D} _.
Arguments backoff {P D} _.
Arguments consecutive_failures {P D} _.
Arguments phase {P D} _.
Arguments bus_errors {P D} _.

Section Reader.
Context {P D : Type} `{LogProvider P}.
(** The chain of the reader's first provider, whether it has a provider factory, its filters. *)
Variables (chain_id : Z) (has_factory : bool) (filters : Filters).
Abbreviation Reader := (Reader P D).

(** The operation that [recreate_provider] retries: create a provider and check its head. *)
Definition create_checked (call : option (P * Z)) : result (P * Z) RetryError :=
  match call with
  | None => Err RetryAgain
  | Some (p, id) => match fetch_block_number p with (Ok _, p) => Ok (p, id) | (Err _, _) => Err RetryAgain end
  end.

Fixpoint recreate_provider (rounds : list (RecreateRound P)) (b : Backoff) : option (result P ReaderStop * Backoff) :=
  match rounds with
  | [] => None
  | round :: rest =>
      if shutdown_first round then Some (Err StopShutdown, b)
      else
        let b := (next_delay b).2 in
        if shutdown_in_delay round then Some (Err StopShutdown, b)
        else match retry_with_backoff 1 PROVIDER_RECREATE_MAX_ATTEMPTS (create_checked <$> factory_calls round) with
             | None => None
             | Some (Err _) => recreate_provider rest b
             | Some (Ok (p, new_chain_id)) =>
                 if negb (new_chain_id =? chain_id) then Some (Err (StopFailed (WrongChain new_chain_id)), b)
                 else Some (Ok p, backoff_reset b)
             end
  end.

Definition get_new_provider_or_exit (rounds : list (RecreateRound P)) (b : Backoff) : option (result P ReaderStop * Backoff) :=
  if has_factory then recreate_provider rounds b else Some (Err (StopFailed NoProviderFactory), b).

(** [read_chain] returns, and [stream_from_evm] reports a reader that cannot continue. *)
Definition reader_stop (report_accepted : bool) (stop : ReaderStop) (r : Reader) : Reader :=
  match stop with
  | StopShutdown => mkReader (session r) (backoff r) (consecutive_failures r) (Finished stop) (bus_errors r)
  | StopFailed reason =>
      let '(id, s) := new_id (session r) in
      if report_accepted then
        mkReader (do_send s (MsgReaderStopped (mkReaderStopped id chain_id reason))) (backoff r)
          (consecutive_failures r) (Finished stop) (bus_errors r)
      else mkReader s (backoff r) (consecutive_failures r) (Finished stop) (bus_errors r ++ [StopNotReported reason])
  end.

(** A failed sync, backfill, subscription or stream: after the third in a row the provider is
    recreated, before that the reader waits.  [publish] is the subscription failure's report,
    which only the waiting branch makes. *)
Definition after_failure (input : ReaderInput P) (publish : list BusError) (r : Reader) : option Reader :=
  let failures := consecutive_failures r + 1 in
  if MAX_RETRIES_BEFORE_RECREATE <=? failures then
    match get_new_provider_or_exit (in_rounds input) (backoff r) with
    | None => None
    | Some (Ok p, b) => Some (mkReader (set_provider (session r) p) b 0 (phase r) (bus_errors r))
    | Some (Err stop, b) =>
        Some (reader_stop (in_report_accepted input) stop (mkReader (session r) b failures (phase r) (bus_errors r)))
    end
  else
    let r := mkReader (session r) (next_delay (backoff r)).2 failures (phase r) (bus_errors r ++ publish) in
    Some (if in_shutdown_in_delay input then reader_stop (in_report_accepted input) StopShutdown r else r).

Definition reader_new (p : P) (first_id : Z) : Reader :=
  mkReader (mkSession p (log_window filters) None first_id [] []) (backoff_new MAX_RECONNECT_DELAY_SECS) 0
    (Syncing (sync_new (start_block filters))) [].

(** One turn of [read_chain]: an attempt of the historical sync, a backfill with the
    subscription that follows it, or one input of the live loop.  [None] after the reader
    stopped, and while the factory has not given enough answers. *)
Definition reader_step (input : ReaderInput P) (r : Reader) : option Reader :=
  match phase r with
  | Syncing h =>
      match sync_run (historical filters) (confirmations filters) chain_id h (session r) with
      | (Ok latest, h, s) =>
          let '(id, s) := new_id s in
          Some (mkReader (do_send s (MsgSyncComplete (mkSyncComplete chain_id (last_id h) id)))
                  (backoff_reset (backoff r)) 0 (Reconnecting latest) (bus_errors r))
      | (Err _, h, s) => after_failure input [] (mkReader s (backoff r) (consecutive_failures r) (Syncing h) (bus_errors r))
      end
  | Reconnecting last_block =>
      match backfill_to_head (current filters) chain_id (confirmations filters) last_block (session r) with
      | (Err _, last_block, s) =>
          after_failure input [] (mkReader s (backoff r) (consecutive_failures r) (Reconnecting last_block) (bus_errors r))
      | (Ok _, last_block, s) =>
          let b := backoff_reset (backoff r) in
          if in_subscribed input then Some (mkReader s b 0 (Subscribed last_block) (bus_errors r))
          else after_failure input [SubscribeFailed] (mkReader s b 0 (Reconnecting last_block) (bus_errors r))
      end
  | Subscribed last_block =>
      match live_turn (in_live input) (current filters) chain_id (confirmations filters) last_block (session r) with
      | (None, last_block, s) => Some (mkReader s (backoff r) (consecutive_failures r) (Subscribed last_block) (bus_errors r))
      | (Some LiveShutdown, last_block, s) =>
          Some (reader_stop (in_report_accepted input) StopShutdown
                  (mkReader s (backoff r) (consecutive_failures r) (Subscribed last_block) (bus_errors r)))
      | (Some _, last_block, s) =>
          after_failure input [] (mkReader s (backoff r) (consecutive_failures r) (Reconnecting last_block) (bus_errors r))
      end
  | Finished _ => None
  end.

Fixpoint reader_run (inputs : list (ReaderInput P)) (r : Reader) : option Reader :=
  match inputs with
  | [] => Some r
  | input :: rest => match reader_step input r with Some r => reader_run rest r | None => None end
  end.
End Reader.

(** ** The window and the fetch of a chunk *)

Definition window_ok (w : LogWindow) : Prop := 1 ≤ width w.

Lemma with_max_ok m : window_ok (with_max m).
Proof. unfold window_ok, with_max, MIN_LOG_WINDOW; simpl. lia. Qed.

Lemma end_for_bounds w c to : window_ok w → c ≤ to → to ≤ U64_MAX → c ≤ end_for w c to ≤ to ∧ end_for w c to - c + 1 ≤ width w.
Proof. unfold window_ok, end_for, saturating_add. lia. Qed.

Lemma shrink_ok w b w' : window_ok w → shrink w = (b, w') → window_ok w' ∧ width w' ≤ width w.
Proof.
  unfold shrink, window_ok, MIN_LOG_WINDOW. intros Hw E. case_match; simplify_eq/=; bool_to_prop; [lia|].
  split; [lia|]. apply Z.max_lub; [|lia]. apply Z.div_le_upper_bound; lia.
Qed.

(** A narrowing takes one bit of the width. *)
Lemma shrink_log2 w w' : window_ok w → shrink w = (true, w') → Z.log2 (width w') + 1 = Z.log2 (width w).
Proof.
  unfold shrink, window_ok, MIN_LOG_WINDOW. intros Hw E. case_match; simplify_eq/=; bool_to_prop.
  assert (1 ≤ width w / 2) by (apply Z.div_le_lower_bound; lia). rewrite Z.max_l by done.
  rewrite <- (Z.shiftr_div_pow2 _ 1) by lia. rewrite Z.log2_shiftr by lia. assert (1 ≤ Z.log2 (width w)) by (apply Z.log2_le_pow2; lia). lia.
Qed.

Lemma shrink_half w w' : window_ok w → shrink w = (true, w') → width w' = width w / 2.
Proof.
  unfold shrink, window_ok, MIN_LOG_WINDOW. intros Hw E. case_match; simplify_eq/=; bool_to_prop.
  rewrite Z.max_l; [done|]. apply Z.div_le_lower_bound; lia.
Qed.

Section FetchProofs.
Context {P D : Type} `{LogProvider P}.
Abbreviation Session := (Session P D).

(** What a provider becomes by answering requests. *)
Inductive calls : P → P → Prop :=
| calls_refl p : calls p p
| calls_logs f p p' : calls (fetch_logs f p).2 p' → calls p p'
| calls_head p p' : calls (fetch_block_number p).2 p' → calls p p'
| calls_timestamp n p p' : calls (fetch_block_timestamp n p).2 p' → calls p p'.

Global Instance calls_preorder : PreOrder calls.
Proof.
  split; [intros p; constructor|]. intros p q z Hpq. induction Hpq as [|f p q _ IH|p q _ IH|n p q _ IH]; intros Hz; [done| | |].
  - by eapply calls_logs, IH.
  - by eapply calls_head, IH.
  - by eapply calls_timestamp, IH.
Qed.

(** The answer that a chunk is made of: a request for exactly the blocks from the cursor to the
    end that the fetch returns. *)
Definition served (f : Filter) (a b : Z) (p : P) (logs : list Log) : Prop :=
  ∃ p0 p1 raw, calls p p0 ∧ fetch_logs (to_block (from_block f a) b) p0 = (Ok raw, p1) ∧ logs = merge_sort log_le raw.

Lemma fetch_chunk_loop_spec fuel f c to a n p w r p' w' :
  fetch_chunk_loop fuel f c to a n p w = (r, p', w') → window_ok w → c ≤ to → to ≤ U64_MAX →
  calls p p' ∧ window_ok w' ∧ width w' ≤ width w ∧
  (∀ logs stop, r = Ok (logs, stop) → served f c stop p logs ∧ c ≤ stop ≤ to).
Proof.
  revert a n p w. induction fuel as [|fuel IH]; intros a n p w E Hw Hc Hto; simpl in E.
  { simplify_eq. split; [done|]. split_and!; [done|lia|done]. }
  destruct (fetch_logs _ p) as [answer p1] eqn:Ef.
  assert (calls p p1) as Hp. { eapply (calls_logs _ p). rewrite Ef. constructor. }
  assert (∀ q w1 fuel' a' n', fuel' = fuel → calls p q → window_ok w1 → width w1 ≤ width w →
    fetch_chunk_loop fuel' f c to a' n' q w1 = (r, p', w') → calls p p' ∧ window_ok w' ∧ width w' ≤ width w ∧
    (∀ logs stop, r = Ok (logs, stop) → served f c stop p logs ∧ c ≤ stop ≤ to)) as Hrec.
  { intros q w1 fuel' a' n' -> Hq Hw1 Hle Er. destruct (IH _ _ _ _ Er Hw1 Hc Hto) as (? & ? & ? & Hs).
    split_and!; [by etrans|done|lia|]. intros logs stop ->. destruct (Hs _ _ eq_refl) as ((p0 & q1 & raw & ? & ? & ?) & ?).
    split; [|done]. exists p0, q1, raw. split_and!; [by etrans|done..]. }
  destruct answer as [logs|m].
  - simplify_eq. pose proof (end_for_bounds w' c to Hw Hc Hto). split_and!; [done|done|lia|].
    intros l stop [= <- <-]. split; [|lia]. by exists p, p', logs.
  - destruct (is_range_limit_error m) eqn:Em.
    + destruct (shrink w) as [b w1] eqn:Es. destruct (shrink_ok _ _ _ Hw Es) as [Hw1 Hle].
      destruct b; simpl in E; [by eapply Hrec|]. simplify_eq. done.
    + destruct (_ <=? a); [by simplify_eq|]. by eapply Hrec.
Qed.

(** The fuel is enough: one request per bit of the width and per attempt left. *)
Lemma fetch_chunk_loop_fuel fuel f c to a n p w :
  window_ok w → a ≤ GET_LOGS_MAX_RETRIES → Z.log2 (width w) + (GET_LOGS_MAX_RETRIES - a) < Z.of_nat fuel →
  (fetch_chunk_loop fuel f c to a n p w).1.1 ≠ Err OutOfFuel.
Proof.
  unfold GET_LOGS_MAX_RETRIES. revert a n p w. induction fuel as [|fuel IH]; intros a n p w Hw Ha Hf.
  { pose proof (Z.log2_nonneg (width w)). lia. }
  simpl. destruct (fetch_logs _ p) as [[logs|m] p1]; [done|].
  destruct (is_range_limit_error m).
  - destruct (shrink w) as [b w1] eqn:Es. destruct b; [|done]. simpl. pose proof (shrink_log2 _ _ Hw Es).
    apply IH; [by eapply shrink_ok|done|lia].
  - unfold GET_LOGS_MAX_RETRIES. destruct (3 <=? a) eqn:E; [done|]. bool_to_prop. apply IH; [done|lia|lia].
Qed.

Lemma chunk_returns f c to s : window_ok (window s) → (fetch_chunk_adapting (D := D) f c to s).1 ≠ Err OutOfFuel.
Proof.
  intros Hw. unfold fetch_chunk_adapting. pose proof (fetch_chunk_loop_fuel (chunk_fuel (window s)) f c to 1 0 (provider s) (window s) Hw) as Hf.
  destruct (fetch_chunk_loop _ _ _ _ _ _ _ _) as [[r p] w]. apply Hf; [done|].
  unfold chunk_fuel, GET_LOGS_MAX_RETRIES. pose proof (Z.log2_nonneg (width (window s))). lia.
Qed.

(** What a fetch or a dispatch may change of a session: nothing but the provider, a window that
    only narrows, the tracker and the ids. *)
Definition advances (s s' : Session) : Prop :=
  calls (provider s) (provider s') ∧ (window_ok (window s) → window_ok (window s') ∧ width (window s') ≤ width (window s)) ∧
  next_id s ≤ next_id s'.

Global Instance advances_preorder : PreOrder advances.
Proof.
  split; [intros s; split_and!; [done|by intros; split; [|lia]|lia]|]. intros s1 s2 s3 (? & Hw1 & ?) (? & Hw2 & ?).
  split_and!; [by etrans| |lia]. intros Hw. destruct (Hw1 Hw) as [Hw' ?]. destruct (Hw2 Hw'). split; [done|lia].
Qed.

Lemma fetch_chunk_spec f c to s r s' :
  fetch_chunk_adapting f c to s = (r, s') → window_ok (window s) → c ≤ to → to ≤ U64_MAX →
  advances s s' ∧ sent s' = sent s ∧ next_id s' = next_id s ∧
  (∀ logs stop, r = Ok (logs, stop) → served f c stop (provider s) logs ∧ c ≤ stop ≤ to).
Proof.
  unfold fetch_chunk_adapting. intros E Hw Hc Hto. destruct (fetch_chunk_loop _ _ _ _ _ _ _ _) as [[r0 p] w] eqn:El.
  simplify_eq/=. destruct (fetch_chunk_loop_spec _ _ _ _ _ _ _ _ _ _ _ El Hw Hc Hto) as (? & ? & ? & ?).
  unfold advances; simpl. split_and!; [done|done|lia|done..].
Qed.

(** ** Dispatch *)

Lemma lookup_timestamp_calls n bn e p : calls p (lookup_timestamp n bn e p).2.
Proof.
  revert e p. induction n as [|n IH]; intros e p; simpl; [done|].
  eapply (calls_timestamp bn). destruct (fetch_block_timestamp bn p) as [[ts|m] p1]; simpl; [done|]. apply IH.
Qed.

Lemma get_timestamp_spec (s : Session) bn ts r s' :
  get_timestamp s bn ts = (r, s') → advances s s' ∧ sent s' = sent s ∧ next_id s' = next_id s.
Proof.
  unfold get_timestamp, set_tracker, set_provider. intros E.
  pose proof (λ n e, lookup_timestamp_calls BLOCK_TIMESTAMP_MAX_ATTEMPTS n e (provider s)) as Hl.
  destruct bn as [n|]; [|by simplify_eq]. specialize (Hl n ""%string).
  destruct (lookup_timestamp _ n _ _) as [lr p]. unfold advances.
  repeat case_match; simplify_eq/=; split_and!; try done; try lia; (intros; split; [done|lia]).
Qed.

Lemma resolve_logs_spec cid logs (s : Session) r s' :
  resolve_logs cid logs s = (r, s') → advances s s' ∧ sent s' = sent s ∧
  (∀ events, r = Ok events → el_log <$> events = logs ∧ Forall (λ e, el_chain_id e = cid) events ∧
     StronglySorted Z.lt (el_id <$> events) ∧ Forall (λ e, next_id s ≤ el_id e < next_id s') events).
Proof.
  revert s r s'. induction logs as [|log logs IH]; intros s r s' E; cbn [resolve_logs] in E.
  { simplify_eq. split_and!; [done|done|]. intros ? [= <-]. split_and!; [done|constructor..]. }
  destruct (get_timestamp s _ _) as [[ts|e] s1] eqn:Et; destruct (get_timestamp_spec _ _ _ _ _ Et) as (Ha & Hs & Hn); [|by simplify_eq].
  destruct (new_id s1) as [id s2] eqn:En. unfold new_id in En. cbn beta iota in E. destruct (resolve_logs cid logs s2) as [r1 s3] eqn:Er.
  destruct (IH _ _ _ Er) as (Ha2 & Hs2 & Hok).
  assert (advances s1 s2) as Ha1 by (simplify_eq; unfold advances; simpl; split_and!; [done|by intros; split; [|lia]|lia]).
  assert (next_id s2 = next_id s + 1 ∧ id = next_id s ∧ sent s2 = sent s) as (Hn2 & -> & Hs1) by (simplify_eq/=; split_and!; [lia|done|done]).
  assert (next_id s2 ≤ next_id s3) by apply Ha2.
  assert (s' = s3) as -> by (destruct r1; congruence). split; [by etrans; [exact Ha|etrans]|]. split; [congruence|].
  intros events ->. destruct r1 as [evs|]; simplify_eq/=. destruct (Hok _ eq_refl) as (<- & Hc & Hsort & Hr).
  split_and!; [done|by constructor| |].
  - constructor; [done|]. rewrite Forall_fmap. eapply Forall_impl; [exact Hr|]. simpl. lia.
  - constructor; [simpl; lia|]. eapply Forall_impl; [exact Hr|]. simpl. lia.
Qed.

Lemma foldl_do_send (events : list EvmLog) (s : Session) :
  foldl (λ s e, do_send s (MsgLog e)) s events
  = mkSession (provider s) (window s) (tracker s) (next_id s) (sent s ++ (MsgLog <$> events)) (reports s).
Proof.
  revert s. induction events as [|e events IH]; intros [p w t n l rs]; simpl; [by rewrite app_nil_r|].
  rewrite IH. unfold do_send; simpl. by rewrite <- app_assoc.
Qed.

(** A chunk is dispatched whole, in order, under fresh ids, or not at all. *)
Lemma dispatch_chunk_spec cid logs (s : Session) r s' :
  dispatch_chunk cid logs s = (r, s') → advances s s' ∧
  ((∃ e, r = Err e) ∧ sent s' = sent s ∨
   ∃ events, r = Ok (last (el_id <$> events)) ∧ sent s' = sent s ++ (MsgLog <$> events) ∧ el_log <$> events = logs ∧
     StronglySorted Z.lt (el_id <$> events) ∧ Forall (λ e, next_id s ≤ el_id e < next_id s') events).
Proof.
  unfold dispatch_chunk. intros E. destruct (resolve_logs cid logs s) as [[events|e] s1] eqn:Er;
    destruct (resolve_logs_spec _ _ _ _ _ Er) as (Ha & Hs & Hok); simplify_eq.
  - rewrite foldl_do_send. split; [done|]. right. exists events. destruct (Hok _ eq_refl) as (? & _ & ? & ?).
    simpl. split_and!; [done|by rewrite Hs|done..].
  - split; [done|]. left. eauto.
Qed.
End FetchProofs.

(** ** A chain and the providers that serve it *)

(** The logs of the blocks [a] to [b]. *)
Definition in_blocks (a b : Z) (l : Log) : bool :=
  match block_number l with Some n => (a <=? n) && (n <=? b) | None => false end.
Definition blocks (chain : list Log) (a b : Z) : list Log := List.filter (in_blocks a b) chain.

(** A chain's logs have positions and are listed by them. *)
Definition log_lt (a b : Log) : Prop := log_le a b ∧ ¬ log_le b a.
Definition chain_wf (chain : list Log) : Prop :=
  StronglySorted log_lt chain ∧ Forall (λ l, ∃ n, block_number l = Some n ∧ 0 ≤ n) chain.

(** What a provider of a chain promises.  Blocks up to [final p] are settled at the provider [p]:
    a request for such blocks that is answered is answered with exactly their logs of the
    filtered addresses, in any order; later blocks may still change and a request for them may be
    answered with anything.  The head that a provider reports, less the confirmations, is
    settled, and no request unsettles a block.  Every request may fail. *)
Class CanonicalProvider (P : Type) `{LogProvider P} (addresses : list Z) (confs : Z) (chain : list Log) (final : P → Z) : Prop := {
  canonical_chain : chain_wf chain;
  canonical_logs f a b p logs p' :
    f_addresses f = addresses → f_from f = Some (Number a) → f_to f = Some (Number b) → b ≤ final p →
    fetch_logs f p = (Ok logs, p') → logs ≡ₚ blocks chain a b;
  canonical_head p h p' : fetch_block_number p = (Ok h, p') → 0 ≤ h < U64_MAX ∧ confirmed_head h confs ≤ final p';
  final_logs f p : final p ≤ final (fetch_logs f p).2;
  final_head p : final p ≤ final (fetch_block_number p).2;
  final_timestamp n p : final p ≤ final (fetch_block_timestamp n p).2;
}.

Global Instance log_le_total : Total log_le.
Proof. intros a b. unfold log_le. lia. Qed.
Global Instance log_le_trans : Transitive log_le.
Proof. intros a b c. unfold log_le. lia. Qed.

Lemma log_lt_le a b : log_lt a b → log_le a b.
Proof. by intros [? _]. Qed.

Lemma StronglySorted_impl {A} (R S : A → A → Prop) l : (∀ x y, R x y → S x y) → StronglySorted R l → StronglySorted S l.
Proof. intros Hi. induction 1 as [|x l _ IH Hx]; constructor; [done|]. eapply Forall_impl; [exact Hx|]. eauto. Qed.

(** Sorting any answer for settled blocks gives the chain's order. *)
Lemma sorted_answer chain a b logs : chain_wf chain → logs ≡ₚ blocks chain a b → merge_sort log_le logs = blocks chain a b.
Proof.
  intros [Hs _] Hp. unfold blocks in *. pose proof (sorted_filter log_lt (in_blocks a b) chain Hs) as Hf.
  apply (StronglySorted_unique_strong log_le).
  - intros x y Hx Hy Hxy Hyx. rewrite merge_sort_Permutation, Hp in Hx. clear - Hf Hx Hy Hxy Hyx.
    induction Hf as [|z l Hl IH Hz]; [by apply not_elem_of_nil in Hx|]. rewrite Forall_forall in Hz.
    apply elem_of_cons in Hx as [->|Hx]; apply elem_of_cons in Hy as [->|Hy]; [done| | |by apply IH].
    + by destruct (Hz y Hy) as [_ []].
    + by destruct (Hz x Hx) as [_ []].
  - apply (StronglySorted_merge_sort log_le).
  - eapply StronglySorted_impl; [|exact Hf]. apply log_lt_le.
  - by rewrite merge_sort_Permutation.
Qed.

Lemma in_blocks_at a b l n : block_number l = Some n → in_blocks a b l = (a <=? n) && (n <=? b).
Proof. unfold in_blocks. by intros ->. Qed.

(** Adjacent ranges of blocks follow each other in the chain. *)
Lemma blocks_app chain a b c : chain_wf chain → a ≤ b + 1 → b ≤ c → blocks chain a b ++ blocks chain (b + 1) c = blocks chain a c.
Proof.
  intros [Hs Hn] Hab Hbc. unfold blocks. induction Hs as [|l chain Hs IH Hl]; [done|]. inversion_clear Hn as [|? ? (n & En & Hn0) Hns].
  specialize (IH Hns). simpl. rewrite !(in_blocks_at _ _ l n En).
  destruct (a <=? n) eqn:E1, (n <=? b) eqn:E2, (b + 1 <=? n) eqn:E3, (n <=? c) eqn:E4; bool_to_prop; try lia; simpl; try (rewrite <- IH; done).
  (* the first block beyond [b]: no later log is in the first range *)
  rewrite <- IH. assert (List.filter (in_blocks a b) chain = []) as ->; [|done].
  clear - Hl Hns En E3. induction chain as [|k chain IH]; [done|]. inversion_clear Hl as [|? ? [Hk _] ?]. inversion_clear Hns as [|? ? (m & Em & _) ?].
  simpl. rewrite (in_blocks_at _ _ k m Em). unfold log_le in Hk. rewrite En, Em in Hk. simpl in Hk. destruct ((a <=? m) && (m <=? b)) eqn:E; [bool_to_prop; lia|]. by apply IH.
Qed.

Lemma blocks_empty chain a b : b < a → blocks chain a b = [].
Proof.
  intros Hab. unfold blocks. induction chain as [|l chain IH]; [done|]. simpl. destruct (block_number l) as [n|] eqn:En; [|unfold in_blocks at 1; by rewrite En].
  rewrite (in_blocks_at _ _ l n En). destruct ((a <=? n) && (n <=? b)) eqn:E; [bool_to_prop; lia|done].
Qed.

Lemma u64_succ_small n : 0 ≤ n < U64_MAX → u64_succ n = n + 1.
Proof. unfold u64_succ, U64_MAX. intros. apply Z.mod_small. lia. Qed.

(** The logs among the messages, and the shape of what a reader sends. *)
Definition logs_only {D} (events : list EvmLog) : list (InterfoldEvmEvent D) := MsgLog <$> events.

Section CanonicalProofs.
Context {P D : Type} `{HP : LogProvider P} (addresses : list Z) (confs : Z) (chain : list Log) (final : P → Z).
Context `{HC : !CanonicalProvider P addresses confs chain final}.
Abbreviation Session := (Session P D).

Lemma calls_final p p' : calls p p' → final p ≤ final p'.
Proof.
  induction 1 as [|f p q _ IH|p q _ IH|n p q _ IH]; [done| | |].
  - pose proof (final_logs f p). lia.
  - pose proof (final_head p). lia.
  - pose proof (final_timestamp n p). lia.
Qed.

Lemma served_blocks f a b p logs : f_addresses f = addresses → b ≤ final p → served f a b p logs → logs = blocks chain a b.
Proof.
  intros Hf Hb (p0 & p1 & raw & Hc & E & ->). apply sorted_answer; [apply canonical_chain|].
  eapply canonical_logs; [| | | |exact E]; [done..|]. pose proof (calls_final _ _ Hc). lia.
Qed.

(** What a run of chunks adds to a session: the logs of the blocks from [a] to [b], in order,
    each once, under fresh increasing ids. *)
Definition adds (a b : Z) (s s' : Session) (events : list EvmLog) : Prop :=
  advances s s' ∧ sent s' = sent s ++ logs_only events ∧ el_log <$> events = blocks chain a b ∧
  StronglySorted Z.lt (el_id <$> events) ∧ Forall (λ e, next_id s ≤ el_id e < next_id s') events.

Lemma adds_nothing a b s s' : b < a → advances s s' → sent s' = sent s → adds a b s s' [].
Proof. intros Hab Ha Hs. split; [done|]. rewrite Hs, blocks_empty by done. unfold logs_only; simpl. rewrite app_nil_r. split_and!; [done|done|constructor..]. Qed.

Lemma adds_trans a b c s1 s2 s3 l1 l2 : a ≤ b + 1 → b ≤ c → adds a b s1 s2 l1 → adds (b + 1) c s2 s3 l2 → adds a c s1 s3 (l1 ++ l2).
Proof.
  intros Hab Hbc (Ha1 & Hs1 & Hl1 & Hi1 & Hr1) (Ha2 & Hs2 & Hl2 & Hi2 & Hr2). pose proof Ha1 as (_ & _ & Hn1). pose proof Ha2 as (_ & _ & Hn2).
  split; [by etrans|]. unfold logs_only in *. rewrite !fmap_app, Hs2, Hs1, Hl1, Hl2, <- app_assoc. split; [done|]. split; [apply blocks_app; [apply canonical_chain|done..]|].
  split; [|apply Forall_app; split; eapply Forall_impl; eauto; simpl; intros; lia].
  clear - Hi1 Hi2 Hr1 Hr2. induction l1 as [|e l1 IH]; [done|]. simpl in *. inversion_clear Hi1. inversion_clear Hr1 as [|? ? He Hr]. constructor; [by apply IH|].
  apply Forall_app. split; [done|]. rewrite Forall_fmap. eapply Forall_impl; [exact Hr2|]. simpl. lia.
Qed.

Lemma adds_window a b s s' l : adds a b s s' l → window_ok (window s) → window_ok (window s').
Proof. intros ((_ & Hw & _) & _) ?. by apply Hw. Qed.

Lemma adds_final a b s s' l : adds a b s s' l → final (provider s) ≤ final (provider s').
Proof. intros ((Hc & _) & _). by apply calls_final. Qed.

(** One chunk: fetched and dispatched, or nothing sent. *)
Lemma chunk_step f c to cid s r s1 r2 s2 :
  f_addresses f = addresses → window_ok (window s) → c ≤ to → to ≤ U64_MAX → to ≤ final (provider s) →
  fetch_chunk_adapting f c to s = (r, s1) →
  match r with
  | Err _ => adds c (c - 1) s s1 []
  | Ok (logs, stop) =>
      dispatch_chunk cid logs s1 = (r2, s2) → c ≤ stop ≤ to ∧
      match r2 with
      | Err _ => adds c (c - 1) s s2 []
      | Ok id => ∃ events, adds c stop s s2 events ∧ id = last (el_id <$> events)
      end
  end.
Proof.
  intros Hf Hw Hc Hto Hfin E. destruct (fetch_chunk_spec _ _ _ _ _ _ E Hw Hc Hto) as (Ha & Hs & Hn & Hok).
  destruct r as [[logs stop]|e]; [|apply adds_nothing; [lia|done|done]].
  intros Ed. destruct (Hok _ _ eq_refl) as [Hserved Hb]. split; [done|]. destruct (dispatch_chunk_spec _ _ _ _ _ Ed) as (Ha2 & [[[e ->] Hs2]|(events & -> & Hs2 & Hl & Hi & Hr)]).
  - apply adds_nothing; [lia|by etrans|congruence].
  - exists events. split; [|done]. split; [by etrans|]. rewrite Hs2, Hs, Hl. split; [done|]. split; [eapply served_blocks; eauto; lia|]. split; [done|].
    by rewrite <- Hn.
Qed.
End CanonicalProofs.

(** ** The loops over chunks *)

Section LoopProofs.
Context {P D : Type} `{HP : LogProvider P} (addresses : list Z) (confs : Z) (chain : list Log) (final : P → Z).
Context `{HC : !CanonicalProvider P addresses confs chain final}.
Abbreviation Session := (Session P D).
Abbreviation adds := (adds (P := P) (D := D) chain).

(** The id of the last log dispatched, or the one before. *)
Definition or_last (id : option Z) (events : list EvmLog) : option Z :=
  match last (el_id <$> events) with Some i => Some i | None => id end.

Lemma or_last_app id l1 l2 : or_last id (l1 ++ l2) = or_last (or_last id l1) l2.
Proof.
  unfold or_last. rewrite fmap_app, last_app. destruct (last (el_id <$> l2)); [done|]. by destruct (last (el_id <$> l1)).
Qed.

Lemma dispatch_returns cid logs (s : Session) : (dispatch_chunk cid logs s).1 ≠ Err OutOfFuel.
Proof.
  unfold dispatch_chunk. assert ((resolve_logs cid logs s).1 ≠ Err OutOfFuel) as Hr; [|destruct (resolve_logs cid logs s) as [[] ?]; simpl in *; congruence].
  revert s. induction logs as [|log logs IH]; intros s; [done|]. cbn [resolve_logs].
  assert ((get_timestamp s (block_number log) (block_timestamp log)).1 ≠ Err OutOfFuel) as Hg; [by unfold get_timestamp; repeat case_match|].
  destruct (get_timestamp s _ _) as [[ts|e] s1]; [|simpl in *; congruence].
  destruct (new_id s1) as [id s2]. specialize (IH s2). destruct (resolve_logs cid logs s2) as [[] ?]; simpl in *; congruence.
Qed.

Lemma fetch_to_loop_spec fuel f to cid h s r h' s' :
  fetch_to_loop fuel f to cid h s = (r, h', s') → f_addresses f = addresses → window_ok (window s) →
  0 ≤ cursor h → to < U64_MAX → to ≤ final (provider s) →
  cursor h ≤ cursor h' ≤ Z.max (cursor h) (to + 1) ∧ head h' = head h ∧ (is_ok r = true → to < cursor h') ∧
  (to - cursor h < Z.of_nat fuel → r ≠ Err OutOfFuel) ∧
  ∃ events, adds (cursor h) (cursor h' - 1) s s' events ∧ last_id h' = or_last (last_id h) events.
Proof.
  revert h s. induction fuel as [|fuel IH]; intros h s E Hf Hw Hc Hto Hfin; cbn [fetch_to_loop] in E; destruct (to <? cursor h) eqn:Ec; bool_to_prop.
  1, 3: simplify_eq; split_and!; [lia|lia|done|done|done|exists []; split; [apply adds_nothing; [lia|done|done]|done]].
  { simplify_eq. split_and!; [lia|lia|done|done|lia|exists []; split; [apply adds_nothing; [lia|done|done]|done]]. }
  pose proof (chunk_returns f (cursor h) to s Hw) as Hret.
  destruct (fetch_chunk_adapting f (cursor h) to s) as [r1 s1] eqn:E1.
  pose proof (λ r2 s2, chunk_step addresses confs chain final f (cursor h) to cid s r1 s1 r2 s2 Hf Hw ltac:(lia) ltac:(lia) Hfin E1) as Hstep.
  destruct r1 as [[logs stop]|e].
  2: { simplify_eq. split_and!; [lia|lia|done|done|intros _ [= ->]; by apply Hret|exists []; split; [by apply (Hstep (Err e) s')|done]]. }
  pose proof (dispatch_returns cid logs s1) as Hret2.
  destruct (dispatch_chunk cid logs s1) as [r2 s2] eqn:E2. destruct (Hstep _ _ eq_refl) as [Hb Hadd].
  destruct r2 as [id|e].
  2: { simplify_eq. split_and!; [lia|lia|done|done|intros _ [= ->]; by apply Hret2|exists []; by split]. }
  destruct Hadd as (events & Hadd & ->). assert (u64_succ stop = stop + 1) as Hu by (apply u64_succ_small; lia). rewrite Hu in E.
  pose proof (adds_final addresses confs chain final _ _ _ _ _ Hadd) as Hx. pose proof (adds_window chain _ _ _ _ _ Hadd Hw) as Hw2.
  destruct (IH _ _ E) as (Hcur & Hh & Hok & Hfuel & events' & Hadd' & Hid); [done|done|simpl; lia|done|simpl; lia|]. simpl in *.
  split_and!; [lia|lia|done|done|intros; apply Hfuel; lia|]. exists (events ++ events'). split.
  - eapply (adds_trans addresses confs chain final); [| |exact Hadd|]; [lia|lia|exact Hadd'].
  - rewrite or_last_app. exact Hid.
Qed.

Lemma confirmed_head_bounds h : 0 ≤ confs → 0 ≤ h < U64_MAX → 0 ≤ confirmed_head h confs < U64_MAX.
Proof. unfold confirmed_head, saturating_sub. lia. Qed.

(** Reading the head: what it says is settled afterwards. *)
Lemma head_read (s : Session) r p :
  fetch_block_number (provider s) = (r, p) →
  advances s (set_provider s p) ∧ ∀ h, r = Ok h → 0 ≤ h < U64_MAX ∧ confirmed_head h confs ≤ final p.
Proof.
  intros E. split.
  - unfold advances; simpl. split_and!; [|by intros; split; [|lia]|lia]. eapply calls_head. by rewrite E.
  - intros h ->. by apply (canonical_head (P := P) (final := final) _ _ _ E).
Qed.

Lemma adds_before a b s s0 s' l : advances s s0 → sent s0 = sent s → next_id s0 = next_id s → adds a b s0 s' l → adds a b s s' l.
Proof. intros Ha Hs Hn (Ha' & Hs' & ? & ? & ?). split; [by etrans|]. rewrite <- Hs, <- Hn. done. Qed.

(** An attempt of the sync: it always returns, it keeps the end that the first attempt fixed, and
    it adds the blocks by which the cursor moved. *)
Lemma sync_run_spec f cid h s r h' s' :
  sync_run f confs cid h s = (r, h', s') → f_addresses f = addresses → 0 ≤ confs → window_ok (window s) → 0 ≤ cursor h →
  (∀ to, head h = Some to → 0 ≤ to < U64_MAX) →
  cursor h ≤ cursor h' ∧ r ≠ Err OutOfFuel ∧ (∀ to, head h = Some to → head h' = Some to) ∧
  (∀ to, head h' = Some to → 0 ≤ to < U64_MAX ∧ cursor h' ≤ Z.max (cursor h) (to + 1)) ∧
  (∀ e, r = Ok e → head h' = Some e ∧ e < cursor h') ∧ (head h' = None → cursor h' = cursor h) ∧
  ∃ events, adds (cursor h) (cursor h' - 1) s s' events ∧ last_id h' = or_last (last_id h) events.
Proof.
  unfold sync_run. intros E Hf Hconfs Hw Hc Hhead. destruct (fetch_block_number (provider s)) as [[raw|m] p] eqn:Eh;
    destruct (head_read s _ _ Eh) as [Hadv Hraw].
  2: { simplify_eq. split_and!; [lia|done|done|intros; split; [by apply Hhead|lia]|done|done|]. exists []. split; [by apply adds_nothing; [lia| |]|done]. }
  destruct (Hraw raw eq_refl) as [Hr1 Hr2]. pose proof (confirmed_head_bounds raw Hconfs Hr1) as Hcb. clear Hraw.
  set (to := default (confirmed_head raw confs) (head h)) in E.
  assert (0 ≤ to < U64_MAX) as Hto by (unfold to; destruct (head h) as [t|]; simpl; [by apply Hhead|done]).
  assert (∀ t, head h = Some t → to = t) as Hkeep by (unfold to; by intros t ->).
  destruct (to <=? confirmed_head raw confs) eqn:El; simpl in E; bool_to_prop.
  - unfold fetch_to in E. destruct (fetch_to_loop _ _ _ _ _ _) as [[r1 h1] s1] eqn:E1.
    destruct (fetch_to_loop_spec _ _ _ _ _ _ _ _ _ E1) as (Hcur & Hh & Hok & Hfuel & events & Hadd & Hid); [done|done|done|lia|simpl; lia|]. simpl in *.
    assert (r1 ≠ Err OutOfFuel) as Hne by (apply Hfuel; lia).
    assert (h' = h1 ∧ s' = s1) as [-> ->] by (destruct r1; split; congruence).
    split_and!; [lia|destruct r1; congruence|intros t Et; rewrite Hh; f_equal; by apply Hkeep| | |by rewrite Hh|].
    + intros t. rewrite Hh. intros [= <-]. split; [done|lia].
    + intros e ->. destruct r1; simplify_eq. split; [done|]. by apply Hok.
    + exists events. split; [|done]. by eapply adds_before; [exact Hadv| | |exact Hadd].
  - simplify_eq. simpl. split_and!; [lia|done|intros t Et; f_equal; by apply Hkeep|intros t [= <-]; split; [done|lia]|done|done|].
    exists []. split; [by apply adds_nothing; [lia| |]|done].
Qed.

Lemma backfill_loop_spec fuel f ch cid lb s r lb' s' :
  backfill_loop fuel f ch cid (lb + 1) lb s = (r, lb', s') → f_addresses f = addresses → window_ok (window s) →
  0 ≤ lb → ch < U64_MAX → ch ≤ final (provider s) →
  lb ≤ lb' ≤ Z.max lb ch ∧ (is_ok r = true → ch ≤ lb') ∧ (ch - lb - 1 < Z.of_nat fuel → r ≠ Err OutOfFuel) ∧
  ∃ events, adds (lb + 1) lb' s s' events.
Proof.
  revert lb s. induction fuel as [|fuel IH]; intros lb s E Hf Hw Hc Hto Hfin; cbn [backfill_loop] in E; destruct (ch <? lb + 1) eqn:Ec; bool_to_prop.
  1, 3: simplify_eq; split_and!; [lia|lia|lia|done|exists []; apply adds_nothing; [lia|done|done]].
  { simplify_eq. split_and!; [lia|lia|done|lia|exists []; apply adds_nothing; [lia|done|done]]. }
  pose proof (chunk_returns f (lb + 1) ch s Hw) as Hret.
  destruct (fetch_chunk_adapting f (lb + 1) ch s) as [r1 s1] eqn:E1.
  pose proof (λ r2 s2, chunk_step addresses confs chain final f (lb + 1) ch cid s r1 s1 r2 s2 Hf Hw ltac:(lia) ltac:(lia) Hfin E1) as Hstep.
  replace (lb + 1 - 1) with lb in Hstep by lia.
  destruct r1 as [[logs stop]|e].
  2: { simplify_eq. split_and!; [lia|lia|done|intros _ [= ->]; by apply Hret|exists []; by apply (Hstep (Err e) s')]. }
  pose proof (dispatch_returns cid logs s1) as Hret2.
  destruct (dispatch_chunk cid logs s1) as [r2 s2] eqn:E2. destruct (Hstep _ _ eq_refl) as [Hb Hadd].
  destruct r2 as [id|e].
  2: { simplify_eq. split_and!; [lia|lia|done|intros _ [= ->]; by apply Hret2|by exists []]. }
  destruct Hadd as (events & Hadd & ->). assert (u64_succ stop = stop + 1) as Hu by (apply u64_succ_small; lia). rewrite Hu in E.
  pose proof (adds_final addresses confs chain final _ _ _ _ _ Hadd) as Hx. pose proof (adds_window chain _ _ _ _ _ Hadd Hw) as Hw2.
  destruct (IH _ _ E) as (Hcur & Hok & Hfuel & events' & Hadd'); [done|done|lia|done|lia|].
  split_and!; [lia|lia|done|intros; apply Hfuel; lia|]. exists (events ++ events').
  eapply (adds_trans addresses confs chain final); [| |exact Hadd|exact Hadd']; lia.
Qed.

Lemma backfill_spec f cid lb s r lb' s' :
  backfill_to_head f cid confs lb s = (r, lb', s') → f_addresses f = addresses → 0 ≤ confs → window_ok (window s) → 0 ≤ lb < U64_MAX →
  lb ≤ lb' < U64_MAX ∧ r ≠ Err OutOfFuel ∧ ∃ events, adds (lb + 1) lb' s s' events.
Proof.
  unfold backfill_to_head. intros E Hf Hconfs Hw Hlb. rewrite u64_succ_small in E by done.
  destruct (fetch_block_number (provider s)) as [[raw|m] p] eqn:Eh; destruct (head_read s _ _ Eh) as [Hadv Hraw].
  2: { simplify_eq. split_and!; [lia|lia|done|]. exists []. apply adds_nothing; [lia|done|done]. }
  destruct (Hraw raw eq_refl) as [Hr1 Hr2]. pose proof (confirmed_head_bounds raw Hconfs Hr1) as Hcb.
  destruct (confirmed_head raw confs <? lb + 1) eqn:Ec; bool_to_prop.
  { simplify_eq. split_and!; [lia|lia|done|]. exists []. apply adds_nothing; [lia|exact Hadv|done]. }
  destruct (backfill_loop _ _ _ _ _ _ _) as [[r1 lb1] s1] eqn:E1.
  destruct (backfill_loop_spec _ _ _ _ _ _ _ _ _ E1) as (Hb & _ & Hfuel & events & Hadd); [done|done|lia|lia|simpl; lia|].
  assert (r1 ≠ Err OutOfFuel) as Hne by (apply Hfuel; lia). apply (adds_before _ _ s) in Hadd; [|done..].
  destruct r1; simplify_eq; (split_and!; [lia|lia|done|by exists events]).
Qed.

Lemma live_turn_spec input f cid lb s r lb' s' :
  live_turn input f cid confs lb s = (r, lb', s') → f_addresses f = addresses → 0 ≤ confs → window_ok (window s) → 0 ≤ lb < U64_MAX →
  lb ≤ lb' < U64_MAX ∧ ∃ events, adds (lb + 1) lb' s s' events.
Proof.
  intros E Hf Hconfs Hw Hlb. assert (adds (lb + 1) lb s s []) as Hstay by (apply adds_nothing; [lia|done|done]).
  assert (∀ r0 lb0 s0, backfill_to_head f cid confs lb s = (r0, lb0, s0) → lb ≤ lb0 < U64_MAX ∧ ∃ events, adds (lb + 1) lb0 s s0 events) as Hbf.
  { intros r0 lb0 s0 E0. destruct (backfill_spec _ _ _ _ _ _ _ E0 Hf Hconfs Hw Hlb) as (? & _ & ?). done. }
  destruct input; simpl in E.
  - assert (∀ r0 lb0 s0, handle_live_log log f cid confs lb s = (r0, lb0, s0) → lb ≤ lb0 < U64_MAX ∧ ∃ events, adds (lb + 1) lb0 s s0 events) as Hl.
    { unfold handle_live_log. intros r0 lb0 s0 E0. repeat case_match; simplify_eq; eauto using Z.le_refl. all: split; [lia|by exists []]. }
    destruct (handle_live_log log f cid confs lb s) as [[[] ?] ?]; simplify_eq; by eapply Hl.
  - simplify_eq. split; [lia|by exists []].
  - destruct (backfill_to_head f cid confs lb s) as [[[] ?] ?]; simplify_eq; by eapply Hbf.
  - simplify_eq. split; [lia|by exists []].
Qed.
End LoopProofs.

(** ** What a reader sends *)

Section ReaderProofs.
Context {P D : Type} `{HP : LogProvider P} (chain : list Log) (final : P → Z).
Variables (chain_id : Z) (has_factory : bool) (filters : Filters).
Abbreviation addresses := (f_addresses (historical filters)).
Context `{HC : !CanonicalProvider P addresses (confirmations filters) chain final}.
Abbreviation Reader := (Reader P D).
Abbreviation start := (start_block filters).

(** During the sync: the logs of the blocks up to [upto], and the id of the last one. *)
Definition sent_history (upto : Z) (id : option Z) (l : list (InterfoldEvmEvent D)) : Prop :=
  ∃ hist, l = logs_only hist ∧ el_log <$> hist = blocks chain start upto ∧ id = last (el_id <$> hist).

(** After it: the history up to the block [e] where the sync ended, the marker with the id of its
    last log, and the logs of every later block up to the watermark. *)
Definition sent_live (lb : Z) (l : list (InterfoldEvmEvent D)) : Prop :=
  ∃ e hist m live, e ≤ lb ∧ l = logs_only hist ++ MsgSyncComplete m :: logs_only live ∧
    el_log <$> hist = blocks chain start e ∧ prev_event m = last (el_id <$> hist) ∧ hsc_chain_id m = chain_id ∧
    el_log <$> live = blocks chain (e + 1) lb.

Definition delivered (ph : ReaderPhase) (l : list (InterfoldEvmEvent D)) : Prop :=
  match ph with
  | Syncing h => sent_history (cursor h - 1) (last_id h) l
  | Reconnecting lb | Subscribed lb => sent_live lb l
  | Finished stop =>
      ∃ before report, l = before ++ report ∧ ((∃ upto id, sent_history upto id before) ∨ ∃ lb, sent_live lb before) ∧
        (report = [] ∨ ∃ id reason, stop = StopFailed reason ∧ report = [MsgReaderStopped (mkReaderStopped id chain_id reason)])
  end.

(** The ids of the messages increase. *)
Definition fresh_ids (s : Session P D) : Prop :=
  StronglySorted Z.lt (get_id <$> sent s) ∧ Forall (λ m, get_id m < next_id s) (sent s).

Definition phase_ok (ph : ReaderPhase) : Prop :=
  match ph with
  | Syncing h => start ≤ cursor h ∧ (head h = None → cursor h = start) ∧ ∀ to, head h = Some to → 0 ≤ to < U64_MAX ∧ cursor h ≤ Z.max start (to + 1)
  | Reconnecting lb | Subscribed lb => 0 ≤ lb < U64_MAX
  | Finished _ => True
  end.

Definition reader_inv (r : Reader) : Prop :=
  window_ok (window (session r)) ∧ fresh_ids (session r) ∧ phase_ok (phase r) ∧ delivered (phase r) (sent (session r)).

Lemma StronglySorted_snoc_list (l k : list Z) m :
  StronglySorted Z.lt l → Forall (λ x, x < m) l → StronglySorted Z.lt k → Forall (λ x, m ≤ x) k → StronglySorted Z.lt (l ++ k).
Proof.
  intros Hl Hlt Hk Hge. induction Hl as [|x l Hl IH Hx]; [done|]. inversion_clear Hlt. simpl. constructor; [by apply IH|].
  apply Forall_app. split; [done|]. eapply Forall_impl; [exact Hge|]. simpl. lia.
Qed.

Lemma get_id_logs (events : list EvmLog) : get_id <$> logs_only (D := D) events = el_id <$> events.
Proof. unfold logs_only. rewrite <- list_fmap_compose. by apply list_fmap_ext. Qed.

Lemma adds_fresh a b (s s' : Session P D) events : adds chain a b s s' events → fresh_ids s → fresh_ids s'.
Proof.
  intros ((_ & _ & Hn) & Hs & _ & Hi & Hr) [Hsort Hlt]. unfold fresh_ids. rewrite Hs, fmap_app, get_id_logs. split.
  - eapply StronglySorted_snoc_list; [done| |done|]; [by apply Forall_fmap|]. rewrite Forall_fmap. eapply Forall_impl; [exact Hr|]. simpl. lia.
  - apply Forall_app. split; [eapply Forall_impl; [exact Hlt|]; simpl; lia|]. unfold logs_only. rewrite Forall_fmap. eapply Forall_impl; [exact Hr|]. simpl. lia.
Qed.

(** A message under a new id. *)
Lemma send_fresh (s : Session P D) m : get_id m = next_id s → fresh_ids s → fresh_ids (do_send (new_id s).2 m).
Proof.
  intros Hm [Hsort Hlt]. unfold fresh_ids; simpl. rewrite fmap_app. split.
  - eapply (StronglySorted_snoc_list _ _ (next_id s)); [done|by apply Forall_fmap|repeat constructor|]. repeat constructor. lia.
  - apply Forall_app. split; [eapply Forall_impl; [exact Hlt|]; simpl; lia|]. repeat constructor. lia.
Qed.

Lemma blocks_to_end e c : e < c → c ≤ Z.max start (e + 1) → blocks chain start (c - 1) = blocks chain start e.
Proof. intros ? ?. destruct (decide (start ≤ e)); [by replace (c - 1) with e by lia|]. by rewrite !blocks_empty by lia. Qed.

Lemma live_adds lb lb' s s' events :
  sent_live lb (sent s) → lb ≤ lb' → adds chain (lb + 1) lb' s s' events → sent_live lb' (sent s').
Proof.
  intros (e & hist & m & live & He & Hl & Hh & Hm & Hc & Hv) Hlb (_ & Hs & Ha & _).
  exists e, hist, m, (live ++ events). rewrite Hs, Hl, <- app_assoc. unfold logs_only in *. rewrite !fmap_app. split_and!; [lia|done|done..|].
  rewrite Hv, Ha. apply blocks_app; [apply (canonical_chain (P := P) (final := final))|lia|done].
Qed.

(** Stopping, with or without the report. *)
Lemma stop_inv accepted stop (r : Reader) : reader_inv r → (∀ s', phase r ≠ Finished s') → reader_inv (reader_stop chain_id accepted stop r).
Proof.
  intros (Hw & Hf & Hp & Hd) Hph. assert ((∃ upto id, sent_history upto id (sent (session r))) ∨ ∃ lb, sent_live lb (sent (session r))) as Hb.
  { destruct (phase r); simpl in Hd; [left|right|right|]; eauto. by destruct (Hph stop0). }
  destruct stop as [|reason]; [|destruct accepted].
  - refine (conj Hw (conj Hf (conj I _))). exists (sent (session r)), []. rewrite app_nil_r. auto.
  - pose proof (send_fresh (session r) (MsgReaderStopped (mkReaderStopped (next_id (session r)) chain_id reason)) eq_refl Hf) as Hf'.
    refine (conj Hw (conj Hf' (conj I _))). exists (sent (session r)), [MsgReaderStopped (mkReaderStopped (next_id (session r)) chain_id reason)]. split_and!; [done|done|]. right. eauto.
  - refine (conj Hw (conj _ (conj I _))).
    + split; [apply Hf|]. eapply Forall_impl; [apply Hf|]. simpl. lia.
    + exists (sent (session r)), []. rewrite app_nil_r. auto.
Qed.

Lemma after_failure_inv input publish (r r' : Reader) :
  reader_inv r → (∀ s', phase r ≠ Finished s') → after_failure chain_id has_factory input publish r = Some r' → reader_inv r'.
Proof.
  unfold after_failure. intros Hi Hph E. destruct (_ <=? _).
  - destruct (get_new_provider_or_exit _ _ _ _) as [[[p|stop] b]|]; simplify_eq.
    + exact Hi.
    + by apply stop_inv.
  - destruct (in_shutdown_in_delay input); simplify_eq; [|exact Hi]. by apply stop_inv.
Qed.

(** An attempt of the historical sync. *)
Lemma sync_attempt h (s : Session P D) res h' s' :
  0 ≤ start → 0 ≤ confirmations filters → window_ok (window s) → fresh_ids s → phase_ok (Syncing h) →
  sent_history (cursor h - 1) (last_id h) (sent s) →
  sync_run (historical filters) (confirmations filters) chain_id h s = (res, h', s') →
  window_ok (window s') ∧ fresh_ids s' ∧ phase_ok (Syncing h') ∧ sent_history (cursor h' - 1) (last_id h') (sent s') ∧
  ∀ e, res = Ok e → 0 ≤ e < U64_MAX ∧ blocks chain start (cursor h' - 1) = blocks chain start e.
Proof.
  intros Hst Hconfs Hw Hf (Hc & Hn & Hh) (hist & Hs & Hl & Hid) Er.
  destruct (sync_run_spec addresses (confirmations filters) chain final _ _ _ _ _ _ _ Er) as (Hcc & _ & Hk & Hh' & Hok & Hn' & events & Hadd & Hid'); [done|done|done|lia|by intros to Eto; apply Hh|].
  assert (∀ to, head h' = Some to → 0 ≤ to < U64_MAX ∧ cursor h' ≤ Z.max start (to + 1)) as Hhead.
  { intros to Eto. destruct (Hh' _ Eto) as [Hto Hle]. split; [done|]. destruct (head h) as [t|] eqn:Et.
    - pose proof (Hk _ eq_refl). simplify_eq. destruct (Hh _ eq_refl). lia.
    - by rewrite Hn in Hle. }
  split; [by eapply adds_window|]. split; [by eapply adds_fresh|]. split; [split; [lia|split; [|done]]|split].
  - intros Ehn. rewrite (Hn' Ehn). apply Hn. destruct (head h) as [t|] eqn:Et; [|done]. by rewrite (Hk _ eq_refl) in Ehn.
  - exists (hist ++ events). destruct Hadd as (_ & Hs' & Hl' & _). unfold logs_only in *. rewrite Hs', Hs, !fmap_app. split; [done|]. split.
    + rewrite Hl, Hl'. replace (cursor h) with (cursor h - 1 + 1) at 2 by lia. apply blocks_app; [apply (canonical_chain (P := P) (final := final))|lia|lia].
    + rewrite Hid', Hid. unfold or_last. rewrite last_app. by destruct (last (el_id <$> events)).
  - intros e ->. destruct (Hok _ eq_refl) as [He Hlt]. destruct (Hhead _ He) as [Hb Hle]. split; [done|]. by apply blocks_to_end.
Qed.

(** A backfill or a turn of the live loop. *)
Lemma live_attempt lb lb' (s s' : Session P D) events :
  window_ok (window s) → fresh_ids s → sent_live lb (sent s) → lb ≤ lb' < U64_MAX → 0 ≤ lb → adds chain (lb + 1) lb' s s' events →
  window_ok (window s') ∧ fresh_ids s' ∧ 0 ≤ lb' < U64_MAX ∧ sent_live lb' (sent s').
Proof.
  intros Hw Hf Hd Hlb H0 Hadd. split; [by eapply adds_window|]. split; [by eapply adds_fresh|]. split; [lia|]. by eapply live_adds; [exact Hd|lia|exact Hadd].
Qed.

Lemma reader_step_inv input (r r' : Reader) :
  0 ≤ start → 0 ≤ confirmations filters → f_addresses (current filters) = addresses →
  reader_inv r → reader_step chain_id has_factory filters input r = Some r' → reader_inv r'.
Proof.
  intros Hst Hconfs Hcur (Hw & Hf & Hp & Hd) E. unfold reader_step in E. destruct (phase r) as [h|lb|lb|stop] eqn:Eph; [| | |done].
  - destruct (sync_run _ _ _ _ _) as [[res h'] s'] eqn:Er. destruct (sync_attempt _ _ _ _ _ Hst Hconfs Hw Hf Hp Hd Er) as (Hw' & Hf' & Hp' & Hd' & Hok).
    destruct res as [latest|err]; [|by eapply after_failure_inv; [| |exact E]; [exact (conj Hw' (conj Hf' (conj Hp' Hd')))|by intros]].
    destruct (Hok _ eq_refl) as [Hb Hend]. destruct Hd' as (hist & Hs & Hl & Hid).
    pose proof (send_fresh s' (MsgSyncComplete (mkSyncComplete chain_id (last_id h') (next_id s'))) eq_refl Hf') as Hf2.
    injection E as <-. refine (conj Hw' (conj Hf2 (conj Hb _))). exists latest, hist, (mkSyncComplete chain_id (last_id h') (next_id s')), [].
    simpl. rewrite Hs, <- Hend, (blocks_empty _ (latest + 1)) by lia. done.
  - destruct (backfill_to_head _ _ _ _ _) as [[res lb'] s'] eqn:Eb.
    destruct (backfill_spec addresses (confirmations filters) chain final _ _ _ _ _ _ _ Eb Hcur Hconfs Hw Hp) as (Hlb & _ & events & Hadd).
    destruct (live_attempt _ _ _ _ _ Hw Hf Hd Hlb ltac:(apply Hp) Hadd) as (Hw' & Hf' & Hp' & Hd').
    destruct res; [destruct (in_subscribed input)|]; [simplify_eq; done| |]; (eapply after_failure_inv; [| |exact E]; [exact (conj Hw' (conj Hf' (conj Hp' Hd')))|by intros]).
  - destruct (live_turn _ _ _ _ _ _) as [[res lb'] s'] eqn:Eb.
    destruct (live_turn_spec addresses (confirmations filters) chain final _ _ _ _ _ _ _ _ Eb Hcur Hconfs Hw Hp) as (Hlb & events & Hadd).
    destruct (live_attempt _ _ _ _ _ Hw Hf Hd Hlb ltac:(apply Hp) Hadd) as (Hw' & Hf' & Hp' & Hd').
    destruct res as [[]|]; try (eapply after_failure_inv; [| |exact E]; [exact (conj Hw' (conj Hf' (conj Hp' Hd')))|by intros]).
    + apply (inj Some) in E as <-. apply stop_inv; [exact (conj Hw' (conj Hf' (conj Hp' Hd')))|by intros].
    + injection E as <-. exact (conj Hw' (conj Hf' (conj Hp' Hd'))).
Qed.

Lemma reader_new_inv p first_id : reader_inv (reader_new filters p first_id).
Proof.
  split; [apply with_max_ok|]. split; [split; constructor|]. split; [simpl; split_and!; [lia|done|done]|].
  exists []. simpl. rewrite blocks_empty by lia. done.
Qed.

Lemma reader_run_inv inputs (r r' : Reader) :
  0 ≤ start → 0 ≤ confirmations filters → f_addresses (current filters) = addresses →
  reader_inv r → reader_run chain_id has_factory filters inputs r = Some r' → reader_inv r'.
Proof.
  intros ? ? ?. revert r. induction inputs as [|input rest IH]; intros r Hi E; simpl in E; [by simplify_eq|].
  destruct (reader_step _ _ _ input r) eqn:Es; [|done]. eapply IH; [|exact E]. by eapply reader_step_inv.
Qed.

(** C13: For every provider that serves one chain, every pattern of failed requests, lagging or
    recreated providers, closed streams and announcements, and every confirmation depth: what a
    reader has sent is the chain's logs of the blocks from its start block, in chain order, each
    once and without a gap, up to its cursor during the sync; once the sync has ended at some
    block, the logs up to that block, then one [HistoricalSyncComplete] that names the last of
    them, then the logs of every block after it up to the watermark; a reader that stopped has
    sent such a sequence, and after it at most its stop report.  The ids of the messages
    increase. *)
Theorem reader_delivers_the_chain inputs p first_id (r : Reader) :
  0 ≤ start → 0 ≤ confirmations filters → f_addresses (current filters) = addresses →
  reader_run chain_id has_factory filters inputs (reader_new filters p first_id) = Some r →
  delivered (phase r) (sent (session r)) ∧ StronglySorted Z.lt (get_id <$> sent (session r)).
Proof.
  intros Hs Hc Hcur E. destruct (reader_run_inv _ _ _ Hs Hc Hcur (reader_new_inv p first_id) E) as (_ & [Hi _] & _ & Hd). done.
Qed.
End ReaderProofs.

(** ** Providers with a range cap *)

(** A provider that answers every request of at most [cap] blocks and refuses a wider one, if it
    does, with a message that names the range. *)
Class CappedProvider (P : Type) `{LogProvider P} (cap : Z) : Prop := {
  cap_positive : 1 ≤ cap;
  cap_serves f a b p : f_from f = Some (Number a) → f_to f = Some (Number b) → b - a + 1 ≤ cap → is_ok (fetch_logs f p).1 = true;
  cap_refuses f p m p' : fetch_logs f p = (Err m, p') → is_range_limit_error m = true;
  cap_numbered f p logs p' : fetch_logs f p = (Ok logs, p') → Forall (λ l, is_Some (block_number l)) logs;
  cap_head p : ∃ h p', fetch_block_number p = (Ok h, p') ∧ 0 ≤ h < U64_MAX;
  cap_timestamp n p : is_ok (fetch_block_timestamp n p).1 = true;
}.

Section CappedProofs.
Context {P D : Type} `{HP : LogProvider P} (cap : Z) `{HC : !CappedProvider P cap}.
Abbreviation Session := (Session P D).

(** A window that was not wider than the cap stays; a wider one keeps at least half of it. *)
Definition keeps_width (w w' : LogWindow) : Prop := Z.min (width w) ((cap + 1) / 2) ≤ width w'.

Lemma keeps_width_trans w1 w2 w3 : keeps_width w1 w2 → keeps_width w2 w3 → keeps_width w1 w3.
Proof. unfold keeps_width. lia. Qed.

Lemma capped_chunk fuel f c to a n p w :
  window_ok w → c ≤ to → to ≤ U64_MAX → Z.log2 (width w) < Z.of_nat fuel →
  ∃ logs stop p' w', fetch_chunk_loop fuel f c to a n p w = (Ok (logs, stop), p', w') ∧ c ≤ stop ≤ to ∧
    window_ok w' ∧ keeps_width w w' ∧ Forall (λ l, is_Some (block_number l)) logs.
Proof.
  revert n p w. induction fuel as [|fuel IH]; intros n p w Hw Hc Hto Hf; [pose proof (Z.log2_nonneg (width w)); lia|]. simpl.
  pose proof (end_for_bounds w c to Hw Hc Hto) as Hb. destruct (fetch_logs _ p) as [[logs|m] p1] eqn:Ef.
  { eexists _, _, _, _. split; [done|]. split; [lia|]. split; [done|]. split; [unfold keeps_width; lia|]. rewrite merge_sort_Permutation. by eapply (cap_numbered (cap := cap)). }
  rewrite (cap_refuses (cap := cap) _ _ _ _ Ef).
  assert (cap < width w) as Hwide.
  { apply Z.nle_gt. intros Hle. pose proof (cap_serves (cap := cap) (to_block (from_block f c) (end_for w c to)) c (end_for w c to) p eq_refl eq_refl ltac:(lia)) as Hs. by rewrite Ef in Hs. }
  pose proof (cap_positive (P := P) (cap := cap)) as Hcp. destruct (shrink w) as [b w1] eqn:Es.
  assert (b = true) as ->. { unfold shrink, MIN_LOG_WINDOW in Es. destruct (width w <=? 1) eqn:E1; bool_to_prop; [lia|congruence]. }
  simpl. pose proof (shrink_log2 _ _ Hw Es). pose proof (shrink_half _ _ Hw Es) as Hh.
  assert ((cap + 1) / 2 ≤ width w1) by (rewrite Hh; apply Z.div_le_mono; lia).
  destruct (IH (n + 1) p1 w1) as (logs & stop & p' & w' & -> & ? & ? & ? & ?); [by eapply shrink_ok|done|done|lia|].
  eexists _, _, _, _. split; [done|]. split; [lia|]. split; [done|]. split; [|done]. unfold keeps_width in *. lia.
Qed.

Lemma capped_resolve cid logs (s : Session) :
  Forall (λ l, is_Some (block_number l)) logs → ∃ events s', resolve_logs cid logs s = (Ok events, s') ∧ window s' = window s.
Proof.
  revert s. induction logs as [|log logs IH]; intros s Hl; [by eexists _, _|]. inversion_clear Hl as [|? ? [n Hn] Hl']. cbn [resolve_logs]. rewrite Hn.
  assert (∃ ts s1, get_timestamp s (Some n) (block_timestamp log) = (Ok ts, s1) ∧ window s1 = window s) as (ts & s1 & -> & Hs1).
  { unfold get_timestamp, BLOCK_TIMESTAMP_MAX_ATTEMPTS. cbn [lookup_timestamp]. pose proof (cap_timestamp (cap := cap) n (provider s)) as Ht.
    destruct (fetch_block_timestamp n (provider s)) as [[t|] p']; [|done]. repeat case_match; eauto. }
  destruct (new_id s1) as [id s2] eqn:En. unfold new_id in En. destruct (IH s2 Hl') as (events & s' & -> & Hw). eexists _, _. split; [done|]. rewrite Hw. simplify_eq. done.
Qed.

Lemma capped_fetch_to fuel f to cid h (s : Session) :
  window_ok (window s) → 0 ≤ cursor h → to < U64_MAX → to - cursor h < Z.of_nat fuel →
  ∃ h' s', fetch_to_loop fuel f to cid h s = (Ok tt, h', s') ∧ window_ok (window s') ∧ keeps_width (window s) (window s').
Proof.
  revert h s. induction fuel as [|fuel IH]; intros h s Hw Hc Hto Hf; cbn [fetch_to_loop]; destruct (to <? cursor h) eqn:Ec; bool_to_prop;
    try (eexists _, _; split; [done|]; split; [done|unfold keeps_width; lia]); [lia|].
  unfold fetch_chunk_adapting. destruct (capped_chunk (chunk_fuel (window s)) f (cursor h) to 1 0 (provider s) (window s)) as (logs & stop & p & w & -> & Hb & Hw1 & Hk1 & Hn); [done|lia|lia| |].
  { unfold chunk_fuel. pose proof (Z.log2_nonneg (width (window s))). lia. }
  unfold dispatch_chunk. destruct (capped_resolve cid logs (mkSession p w (tracker s) (next_id s) (sent s) (reports s)) Hn) as (events & s2 & -> & Hs2).
  simpl in Hs2. rewrite foldl_do_send, u64_succ_small by lia.
  match goal with |- ∃ h' s', fetch_to_loop _ _ _ _ ?h1 ?s1 = _ ∧ _ => destruct (IH h1 s1) as (h' & s' & E & Hw' & Hk') end;
    [simpl; by rewrite Hs2|simpl; lia|done|simpl; lia|].
  exists h', s'. split; [exact E|]. split; [done|]. simpl in Hk'. rewrite Hs2 in Hk'. by eapply keeps_width_trans.
Qed.

(** C21: Against any provider that caps the range of a request and says so, whatever the cap, the
    first attempt of a historical sync succeeds without an operator's setting: it ends at the
    confirmed head, and the window it leaves for the rest of the session is at least half the
    cap, or the configured range where that is narrower. *)
Theorem any_range_cap_is_found f confs cid start_block (s : Session) :
  window_ok (window s) → 0 ≤ start_block → 0 ≤ confs →
  ∃ h s' raw_head p, fetch_block_number (provider s) = (Ok raw_head, p) ∧
    sync_run f confs cid (sync_new start_block) s = (Ok (confirmed_head raw_head confs), h, s') ∧
    Z.min (width (window s)) ((cap + 1) / 2) ≤ width (window s').
Proof.
  intros Hw Hst Hc. unfold sync_run. destruct (cap_head (cap := cap) (provider s)) as (raw & p & Eh & Hr). rewrite Eh. simpl.
  rewrite (proj2 (Z.leb_le _ _)) by lia. simpl. unfold fetch_to.
  edestruct (capped_fetch_to (Z.to_nat (confirmed_head raw confs - start_block + 1)) f (confirmed_head raw confs) cid
    (mkSync start_block (Some (confirmed_head raw confs)) None) (set_provider s p)) as (h & s' & E & _ & Hk); [done|done| |simpl; lia|].
  { unfold confirmed_head, saturating_sub. lia. }
  simpl in E |- *. rewrite E. eexists _, _, _, _. split; [done|]. split; [done|exact Hk].
Qed.
End CappedProofs.

(** ** The reads before the session *)

Section StartupProofs.
Context {P : Type} `{HP : LogProvider P} (addresses : list Z) (confs : Z) (chain : list Log) (final : P → Z).
Context `{HC : !CanonicalProvider P addresses confs chain final}.

Lemma fetch_logs_loop_spec fuel f c to p w acc r p' :
  fetch_logs_loop fuel f c to p w acc = (r, p') → f_addresses f = addresses → window_ok w → 0 ≤ c → to ≤ U64_MAX → to ≤ final p →
  (to - c < Z.of_nat fuel → r ≠ Err OutOfFuel) ∧ ∀ logs, r = Ok logs → logs = acc ++ blocks chain c to.
Proof.
  revert c p w acc. induction fuel as [|fuel IH]; intros c p w acc E Hf Hw Hc Hto Hfin; cbn [fetch_logs_loop] in E; destruct (to <? c) eqn:Ec; bool_to_prop.
  1, 3: simplify_eq; split; [done|]; intros logs [= <-]; by rewrite blocks_empty, app_nil_r by lia.
  { simplify_eq. split; [lia|done]. }
  destruct (fetch_chunk_loop _ _ _ _ _ _ _ _) as [[r1 p1] w1] eqn:E1.
  destruct (fetch_chunk_loop_spec _ _ _ _ _ _ _ _ _ _ _ E1 Hw ltac:(lia) Hto) as (Hcalls & Hw1 & _ & Hok).
  assert (r1 ≠ Err OutOfFuel) as Hne.
  { pose proof (fetch_chunk_loop_fuel (chunk_fuel w) f c to 1 0 p w Hw) as Hfu. rewrite E1 in Hfu. apply Hfu; [done|]. unfold chunk_fuel, GET_LOGS_MAX_RETRIES. pose proof (Z.log2_nonneg (width w)). lia. }
  destruct r1 as [[chunk stop]|e]; [|simplify_eq; split; [congruence|done]]. destruct (Hok _ _ eq_refl) as [Hs Hb].
  rewrite (served_blocks addresses confs chain final f c stop p chunk Hf ltac:(lia) Hs) in E.
  destruct (to <=? stop) eqn:Es; bool_to_prop.
  - simplify_eq. split; [done|]. intros logs [= <-]. by replace stop with to by lia.
  - rewrite u64_succ_small in E by (unfold U64_MAX in *; lia). pose proof (calls_final addresses confs chain final _ _ Hcalls).
    destruct (IH _ _ _ _ E) as [Hfuel Hlogs]; [done|done|lia|done|lia|]. split; [intros; apply Hfuel; lia|].
    intros logs ->. rewrite (Hlogs _ eq_refl), <- app_assoc. f_equal. apply blocks_app; [apply (canonical_chain (P := P) (final := final))|lia|lia].
Qed.

(** The reads that run before the session: over blocks that are settled, up to and including
    the last block number, the adaptive read returns, and what it returns is the chain's logs of
    the range, in chain order, whatever width it starts at and whatever the provider refused. *)
Theorem startup_read_exact f from to max_width p :
  f_addresses f = addresses → 0 ≤ from → to ≤ U64_MAX → to ≤ final p →
  match (fetch_logs_adapting f from to max_width p).1 with
  | Ok logs => logs = blocks chain from to
  | Err e => e ≠ OutOfFuel
  end.
Proof.
  intros Hf Hfrom Hto Hfin. unfold fetch_logs_adapting. destruct (to <? from) eqn:E; bool_to_prop; [simpl; by rewrite blocks_empty by lia|].
  destruct (fetch_logs_loop _ _ _ _ _ _ _) as [r p'] eqn:El. destruct (fetch_logs_loop_spec _ _ _ _ _ _ _ _ _ El) as [Hfuel Hok]; [done|apply with_max_ok|done|done|done|].
  simpl. destruct r as [logs|e]; [by apply Hok|]. intros ->. apply Hfuel; [lia|done].
Qed.
End StartupProofs.

(** ** A concrete chain and its providers *)

Module ReaderExample.

Definition log_at (block index : Z) : Log := mkLog (Some block) (Some index) (Some (block * 12)) 7 [block; index] [].

Definition example_chain : list Log := [log_at 2 0; log_at 2 1; log_at 5 0; log_at 9 3; log_at 11 0].

(** A provider whose head grows by three blocks a read, with a cap of three blocks on a range,
    whose next requests fail as listed.  It serves the logs of a range backwards. *)
Record Node := mkNode { nd_head : Z; nd_failures : list bool }.

Definition node_height (p : Node) : Z := Z.max 0 (Z.min 1000 (nd_head p)).

Definition fails (p : Node) : bool * Node :=
  match nd_failures p with [] => (false, p) | b :: rest => (b, mkNode (nd_head p) rest) end.

Definition range_of (f : Filter) : option (Z * Z) :=
  match f_from f, f_to f with Some (Number a), Some (Number b) => Some (a, b) | _, _ => None end.

Definition serve (f : Filter) : result (list Log) string :=
  match range_of f with
  | Some (a, b) => if 3 <? b - a + 1 then Err "eth_getLogs is limited to a 3 block range"%string else Ok (rev (blocks example_chain a b))
  | None => Err "range too large"%string
  end.

Global Instance node_provider : LogProvider Node := {
  fetch_logs f p := let '(b, p) := fails p in (if b then Err "connection reset"%string else serve f, p);
  fetch_block_number p := (Ok (node_height p), mkNode (node_height p + 3) (nd_failures p));
  fetch_block_timestamp n p := (Ok (n * 12), p);
}.

Lemma example_chain_wf : chain_wf example_chain.
Proof.
  split; [|repeat constructor; eexists; split; reflexivity || lia].
  repeat constructor; unfold log_le; simpl; lia.
Qed.

Lemma fails_head p : nd_head (fails p).2 = nd_head p.
Proof. unfold fails. by destruct (nd_failures p). Qed.

Lemma serve_blocks f a b logs : f_from f = Some (Number a) → f_to f = Some (Number b) → serve f = Ok logs → logs ≡ₚ blocks example_chain a b.
Proof. unfold serve, range_of. intros -> -> E. case_match; simplify_eq. symmetry. apply Permutation_rev. Qed.

Global Instance node_canonical addresses confs : 0 ≤ confs → CanonicalProvider Node addresses confs example_chain node_height.
Proof.
  intros Hc. split.
  - apply example_chain_wf.
  - intros f a b p logs p' _ Ha Hb _ E. simpl in E. destruct (fails p) as [[] q]; simplify_eq. by eapply serve_blocks.
  - intros p h p'. simpl. unfold node_height, confirmed_head, saturating_sub. intros [= <- <-]. simpl. unfold U64_MAX. lia.
  - intros f p. simpl. pose proof (fails_head p) as Hf. destruct (fails p) as [b q]. simpl in *. unfold node_height. rewrite Hf. done.
  - intros p. simpl. unfold node_height. simpl. lia.
  - done.
Qed.

Definition example_filters : Filters := with_max_log_window (with_confirmations (filters_new [7] 1) 2) 8.

Definition quiet : ReaderInput Node := mkInput true PollTick false [] true.

(** Two attempts of the sync fail, the second after a chunk; the third request failure in a row
    recreates the provider, first in vain; the recreated one lags, then the sync ends, the reader
    subscribes, polls, loses the stream, and polls again. *)
Definition example_inputs : list (ReaderInput Node) :=
  [ quiet; quiet;
    mkInput true PollTick false
      [mkRound false false [None; None; None]; mkRound false false [None; Some (mkNode 1 [], 1)]] true;
    quiet; quiet; quiet; quiet; mkInput true StreamClosed false [] true; quiet; quiet ].

Definition example_start : Node := mkNode 8 [true; true; true; false; false; false; true; true; true; true; true; true].

Abbreviation example_run := (reader_run (D := ()) 1 true example_filters example_inputs (reader_new example_filters example_start 100)).

Lemma example_runs : match example_run with Some r => phase r = Subscribed 17 | None => False end.
Proof. vm_compute. reflexivity. Qed.

Lemma reader_delivers_the_chain_witness :
  match example_run with
  | Some r => delivered example_chain 1 example_filters (phase r) (sent (session r)) ∧ StronglySorted Z.lt (get_id <$> sent (session r))
  | None => False
  end.
Proof.
  pose proof example_runs as Hr. destruct example_run as [r|] eqn:E; [|destruct Hr].
  exact (reader_delivers_the_chain (D := ()) (HC := node_canonical [7] 2 ltac:(lia)) example_chain node_height 1 true example_filters
    example_inputs example_start 100 r ltac:(simpl; lia) ltac:(simpl; lia) eq_refl E).
Defined.

(** The messages sent in that run: block numbers, and the marker with the id it names. *)
Example example_sent :
  (λ r, (λ m, match m with MsgLog e => inl (el_id e, block_number (el_log e)) | MsgSyncComplete m => inr (prev_event m) | _ => inr None end)
          <$> sent (session r)) <$> example_run
  = Some [inl (100, Some 2); inl (101, Some 2); inl (102, Some 5); inr (Some 102); inl (104, Some 9); inl (105, Some 11)].
Proof. vm_compute. reflexivity. Qed.

(** A provider with the same chain and cap whose requests never fail otherwise. *)
Record Steady := mkSteady { st_head : Z }.

Global Instance steady_provider : LogProvider Steady := {
  fetch_logs f p := (serve f, p);
  fetch_block_number p := (Ok (Z.max 0 (Z.min 1000 (st_head p))), p);
  fetch_block_timestamp n p := (Ok (n * 12), p);
}.

Global Instance steady_capped : CappedProvider Steady 3.
Proof.
  split.
  - lia.
  - intros f a b p Ha Hb Hle. simpl. unfold serve, range_of. rewrite Ha, Hb. case_match eqn:E; [bool_to_prop; lia|done].
  - intros f p m p'. simpl. unfold serve. intros [= E _]. repeat case_match; simplify_eq; vm_compute; reflexivity.
  - intros f p logs p'. cbn [fetch_logs steady_provider]. unfold serve. intros E'. apply (f_equal fst) in E' as E. cbn [fst] in E. destruct (range_of f) as [[a b]|]; [|done]. destruct (3 <? b - a + 1); [done|]. assert (logs = rev (blocks example_chain a b)) as -> by congruence. apply Forall_rev, Forall_forall.
    intros l. unfold blocks. rewrite list_elem_of_In, filter_In. unfold in_blocks. intros [_ Hl]. by destruct (block_number l).
  - intros p. eexists _, _. split; [reflexivity|]. unfold U64_MAX. lia.
  - done.
Qed.

Lemma any_range_cap_is_found_witness :
  ∃ (h : HistoricalSync) (s' : Session Steady ()) raw_head p,
    fetch_block_number (mkSteady 12) = (Ok raw_head, p) ∧
    sync_run (historical example_filters) 2 1 (sync_new 1) (mkSession (mkSteady 12) (mkWindow 1000) None 0 [] [])
      = (Ok (confirmed_head raw_head 2), h, s') ∧ Z.min 1000 ((3 + 1) / 2) ≤ width (window s').
Proof.
  exact (any_range_cap_is_found 3 (historical example_filters) 2 1 1 (mkSession (mkSteady 12) (mkWindow 1000) None 0 [] [])
    ltac:(unfold window_ok; simpl; lia) ltac:(lia) ltac:(lia)).
Defined.

Lemma startup_read_exact_witness :
  match (fetch_logs_adapting (historical example_filters) 1 10 500 (mkNode 12 [false; true])).1 with
  | Ok logs => logs = blocks example_chain 1 10
  | Err e => e ≠ OutOfFuel
  end.
Proof.
  exact (startup_read_exact [7] 0 example_chain node_height (HC := node_canonical [7] 0 ltac:(lia)) (historical example_filters) 1 10 500
    (mkNode 12 [false; true]) eq_refl ltac:(lia) ltac:(unfold U64_MAX; lia) ltac:(unfold node_height; simpl; lia)).
Defined.

Example startup_read_example :
  match (fetch_logs_adapting (historical example_filters) 1 10 500 (mkNode 12 [false; true])).1 with Ok l => Some (map block_number l) | Err _ => None end
  = Some [Some 2; Some 2; Some 5; Some 9].
Proof. vm_compute. reflexivity. Qed.

(** Refusals that providers make, and errors that are not refusals of a range. *)
Example refusals_recognized :
  forallb is_range_limit_error
    [ "server returned an error response: error code -32701: exceed maximum block range: 50000";
      "eth_getLogs is limited to 0 - 50 blocks range"; "RANGE TOO LARGE";
      "Query timeout exceeded. Consider reducing your block range" ]%string = true ∧
  existsb is_range_limit_error
    [ "429 Too Many Requests"; "You are limited to a maximum of 25 requests per second";
      "query timeout exceeded"; "execution reverted" ]%string = false.
Proof. vm_compute. split; reflexivity. Qed.

End ReaderExample.
