(* ===== verification/ChainGateway.v ===== *)
(** * EVM ingestion: routing, ordering and the chain gateway

    Model of the pipeline between a chain reader and the event bus: the router
    (crates/evm/runtime/src/event_router.rs), the parsers of the contracts (event_decoding/actor.rs)
    with the timestamp of a log (chain_reader/log_timestamp.rs), the order fixer that holds the
    sync marker back (historical_order/workflow.rs), the mailboxes between them as chain_system.rs
    connects them, the gateway of a chain (chain_gateway/state.rs, actor.rs, handlers.rs), and the
    collector of the chains' histories (crates/state/sync/src/collect_history.rs).

    The bloom filter of the fixer, the extractors of the contracts and the parser of a topic are
    parameters.  The filter may report ids that it was never given, as bloom filters do; what the
    marker then does is part of the theorems.  The event bus's clock is shared with the rest of the node, so its state is an
    argument of the conversion that reads it; what the bus answers to a dispatch is an argument of
    the message that causes it.  Payloads that no code here reads are tokens. *)

From S2P Require Import Prelude Hlc NodeRegistry ChainReader.
Local Open Scope Z_scope.

(** ** The timestamp of a log: log_timestamp.rs *)

Definition saturating_mul (m a b : Z) : Z := Z.min m (a * b).

Definition from_log_chain_id_to_ts (block_timestamp log_index chain_id : Z) : Z :=
  to_u128 (mkTs (saturating_mul U64_MAX block_timestamp 1000000) (log_index mod 2 ^ 32) (chain_id mod 2 ^ 32)).

(** ** Events: messages.rs *)

(** The fields of an observed log that the gateway reads. *)
Record EvmLogObserved := mkObserved { ob_contract : string; ob_event_name : string; ob_topics : list string }.

(** The payloads that the gateway stamps with the chain's position, the observed logs that it
    reads, and every other payload. *)
Inductive EventData :=
| BondOwnerSet (owner : Z)
| BondOwnerSetAt (owner : Z) (timepoint : Z)
| TicketBalanceUpdated (balance : Z)
| TicketBalanceUpdatedAt (balance : Z) (position : ChainPosition)
| OperatorActivationChanged (activation : Z)
| OperatorActivationChangedAt (activation : Z) (position : ChainPosition)
| ConfigurationUpdated (configuration : Z)
| ConfigurationUpdatedAt (configuration : Z) (position : ChainPosition)
| EligibilityConfigurationVersionUpdated (update : Z)
| EligibilityConfigurationVersionUpdatedAt (update : Z) (position : ChainPosition)
| BondingAssetConfigUpdated (config : Z)
| BondingAssetConfigUpdatedAt (config : Z) (position : ChainPosition)
| ObservedLog (log : EvmLogObserved)
| OtherData (data : Z).

Abbreviation EvmMsg := (InterfoldEvmEvent EventData).

(** [InterfoldEvent<Unsequenced>] from the EVM. *)
Record ChainEvent := mkChainEvent { ce_data : EventData; ce_ts : Z; ce_block : Z }.

Definition at_position (data : EventData) (position : ChainPosition) : EventData :=
  match data with
  | BondOwnerSet owner => BondOwnerSetAt owner (timepoint position)
  | TicketBalanceUpdated balance => TicketBalanceUpdatedAt balance position
  | OperatorActivationChanged activation => OperatorActivationChangedAt activation position
  | ConfigurationUpdated configuration => ConfigurationUpdatedAt configuration position
  | EligibilityConfigurationVersionUpdated update => EligibilityConfigurationVersionUpdatedAt update position
  | BondingAssetConfigUpdated config => BondingAssetConfigUpdatedAt config position
  | data => data
  end.

(** [EvmEvent::into_interfold_event] under the bus's clock. *)
Definition into_interfold_event (clock : Hlc) (reading : clock_reading) (e : EvmEvent EventData) : result ChainEvent HlcError :=
  let data := at_position (ee_data e) (from_log_timestamp (ee_ts e)) in
  let? t := (receive clock reading (from_u128 (ee_ts e))).2 in
  Ok (mkChainEvent data (to_u128 t) (ee_block e)).

(** ** The parsers: event_decoding/actor.rs *)

(** An extractor, strict or aware of versions, on the data, the topics and the chain id. *)
Inductive Extractor :=
| Strict (extract : list Z → list Z → Z → option EventData)
| VersionAware (extract : list Z → list Z → Z → result (option EventData) ()).

Definition parse_log (extractor : Extractor) (log : EvmLog) : result (option (EvmEvent EventData)) RejectReason :=
  match block_number (el_log log) with
  | None => Err NoBlockNumber
  | Some block =>
      match ChainReader.log_index (el_log log) with
      | None => Err NoLogIndex
      | Some index =>
          let event := match extractor with
            | Strict extract =>
                match extract (log_data (el_log log)) (log_topics (el_log log)) (el_chain_id log) with
                | Some e => Ok (Some e) | None => Err Undecodable end
            | VersionAware extract =>
                match extract (log_data (el_log log)) (log_topics (el_log log)) (el_chain_id log) with
                | Ok e => Ok e | Err _ => Err ExtractorFailed end
            end in
          let? event := event in
          match event with
          | None => Ok None
          | Some event =>
              Ok (Some (mkEvmEvent (el_id log) event block
                          (from_log_chain_id_to_ts (el_timestamp log) index (el_chain_id log)) (el_chain_id log)))
          end
      end
  end.

(** What a parser sends on for a message, to the fixer. *)
Definition parser_handle (extractor : Extractor) (msg : EvmMsg) : list EvmMsg :=
  match msg with
  | MsgLog log =>
      match parse_log extractor log with
      | Ok (Some event) => [MsgEvent event]
      | Ok None => [MsgProcessed (el_id log)]
      | Err reason => [MsgRejected (mkRejected (el_id log) (el_chain_id log) reason)]
      end
  | MsgSyncComplete _ => [msg]
  | _ => []
  end.

(** ** The router: event_router.rs *)

(** Where a message goes: to the parser of a contract, or to the fallback, which
    [configure_router] sets to the fixer. *)
Inductive Route := ToParser (address : Z) (msg : EvmMsg) | ToFallback (msg : EvmMsg).

Definition router_handle (routes : gmap Z Extractor) (msg : EvmMsg) : Route :=
  match msg with
  | MsgLog log =>
      let address := log_address (el_log log) in
      match routes !! address with
      | Some _ => ToParser address msg
      | None => ToFallback (MsgRejected (mkRejected (el_id log) (el_chain_id log) (NoRoute address)))
      end
  | _ => ToFallback msg
  end.

(** ** The order fixer: historical_order/workflow.rs *)

(** The [bloom] crate's filter.  It never forgets an id; it may report an id that was never
    inserted. *)
Class BloomFilter (B : Type) := {
  bloom_new : B;
  bloom_insert : Z → B → B;
  bloom_contains : Z → B → bool;
}.

Class BloomLaws (B : Type) `{BloomFilter B} : Prop := {
  bloom_inserted id b : bloom_contains id (bloom_insert id b) = true;
  bloom_kept id other b : bloom_contains id b = true → bloom_contains id (bloom_insert other b) = true;
}.

Record HistoricalOrderFixer (B : Type) := mkFixer
  { pending_sync_complete : option HistoricalSyncComplete; seen_ids : B }.
Arguments mkFixer {B} _ _.
Arguments pending_sync_complete {B} _.
Arguments seen_ids {B} _.

Section Fixer.
Context {B : Type} `{BloomFilter B}.
Abbreviation Fixer := (HistoricalOrderFixer B).

Definition fixer_new : Fixer := mkFixer None bloom_new.

Definition track_id (id : Z) (f : Fixer) : Fixer := mkFixer (pending_sync_complete f) (bloom_insert id (seen_ids f)).

Definition take_ready_pending (f : Fixer) : option HistoricalSyncComplete * Fixer :=
  match pending_sync_complete f with
  | Some m =>
      match prev_event m with
      | Some id => if bloom_contains id (seen_ids f) then (Some m, mkFixer None (seen_ids f)) else (None, f)
      | None => (None, f)
      end
  | None => (None, f)
  end.

Definition fixer_process (f : Fixer) (msg : EvmMsg) : list EvmMsg * Fixer :=
  let '(out, f) :=
    match msg with
    | MsgSyncComplete m =>
        match prev_event m with
        | None => ([msg], f)
        | Some _ => ([], mkFixer (Some m) (seen_ids f))
        end
    | MsgProcessed id => ([], track_id id f)
    | other => ([other], track_id (get_id other) f)
    end in
  match take_ready_pending f with
  | (Some pending, f) => (out ++ [MsgSyncComplete pending], f)
  | (None, f) => (out, f)
  end.

Fixpoint fixer_run (f : Fixer) (msgs : list EvmMsg) : list EvmMsg * Fixer :=
  match msgs with
  | [] => ([], f)
  | m :: rest => let '(out, f) := fixer_process f m in let '(outs, f) := fixer_run f rest in (out ++ outs, f)
  end.

(** ** The mailboxes: chain_system.rs

    Every actor handles its own mailbox in order; nothing orders the turns of different actors.
    A turn handles one message of the named actor. *)

Inductive ActorName := RouterActor | ParserActor (address : Z) | FixerActor.

Record Pipeline := mkPipeline
  { routes : gmap Z Extractor; router_box : list EvmMsg; parser_boxes : gmap Z (list EvmMsg);
    fixer_box : list EvmMsg; fixer_state : Fixer; to_gateway : list EvmMsg }.

Definition pipeline_turn (actor : ActorName) (p : Pipeline) : option Pipeline :=
  match actor with
  | RouterActor =>
      match router_box p with
      | [] => None
      | msg :: rest =>
          match router_handle (routes p) msg with
          | ToParser address msg =>
              Some (mkPipeline (routes p) rest (<[address := default [] (parser_boxes p !! address) ++ [msg]]> (parser_boxes p))
                      (fixer_box p) (fixer_state p) (to_gateway p))
          | ToFallback msg =>
              Some (mkPipeline (routes p) rest (parser_boxes p) (fixer_box p ++ [msg]) (fixer_state p) (to_gateway p))
          end
      end
  | ParserActor address =>
      match routes p !! address, parser_boxes p !! address with
      | Some extractor, Some (msg :: rest) =>
          Some (mkPipeline (routes p) (router_box p) (<[address := rest]> (parser_boxes p))
                  (fixer_box p ++ parser_handle extractor msg) (fixer_state p) (to_gateway p))
      | _, _ => None
      end
  | FixerActor =>
      match fixer_box p with
      | [] => None
      | msg :: rest =>
          let '(out, f) := fixer_process (fixer_state p) msg in
          Some (mkPipeline (routes p) (router_box p) (parser_boxes p) rest f (to_gateway p ++ out))
      end
  end.

Fixpoint pipeline_run (turns : list ActorName) (p : Pipeline) : option Pipeline :=
  match turns with
  | [] => Some p
  | a :: rest => match pipeline_turn a p with Some p => pipeline_run rest p | None => None end
  end.

Definition pipeline_new (routes : gmap Z Extractor) (sent : list EvmMsg) : Pipeline :=
  mkPipeline routes sent ∅ [] fixer_new [].

(** Every mailbox is empty. *)
Definition drained (p : Pipeline) : Prop :=
  router_box p = [] ∧ fixer_box p = [] ∧ ∀ a l, parser_boxes p !! a = Some l → l = [].
End Fixer.
Arguments Pipeline B : clear implicits.
Arguments mkPipeline {B} _ _ _ _ _ _.

(** ** The gateway: chain_gateway/state.rs *)

Inductive BufferState := InInit | InForward | InBufferUntilLive.

Inductive GatewayError :=
| NoSender
| CannotForward
| CannotBuffer
| CannotGoLive
| BufferAfterLive
| AlreadyFailed (reason : GatewayError)
| BufferFull (state : BufferState) (limit : nat)
| UnparsedLog
| LogRejected (rejected : EvmLogRejected)
| OrderingMarker
| ReaderIsStopped (stopped : EvmReaderStopped)
| ClockFailed (e : HlcError)
| SyncActorRefused
| NoManagerTopic
| ManagerReplaced (current replacement : Z)
| AdmissionIsClosed
| DispatchFailed
| StoppedBeforeLive.

(** [S] of the source is the sync actor's address, here a number. *)
Inductive SyncStatus :=
| Init (buffer : list ChainEvent) (pending_sync_complete : option HistoricalSyncComplete)
| ForwardToSyncActor (sender : option Z) (buffer : list ChainEvent)
| BufferUntilLive (buffer : list ChainEvent)
| Live
| Failed (reason : GatewayError).

Definition status_default : SyncStatus := Init [] None.

Definition push_limited (state : BufferState) (limit : nat) (buffer : list ChainEvent) (event : ChainEvent)
    (put : list ChainEvent → SyncStatus) : result () GatewayError * SyncStatus :=
  if (limit <=? length buffer)%nat then (Err (BufferFull state limit), Failed (BufferFull state limit))
  else (Ok tt, put (buffer ++ [event])).

Definition add_buffered_event (status : SyncStatus) (event : ChainEvent) (limit : nat) : result () GatewayError * SyncStatus :=
  match status with
  | Init buffer pending => push_limited InInit limit buffer event (λ b, Init b pending)
  | ForwardToSyncActor sender buffer => push_limited InForward limit buffer event (ForwardToSyncActor sender)
  | BufferUntilLive buffer => push_limited InBufferUntilLive limit buffer event BufferUntilLive
  | Live => (Err BufferAfterLive, status)
  | Failed reason => (Err (AlreadyFailed reason), status)
  end.

Definition forward_to_sync_actor (status : SyncStatus) (sender : Z)
    : result (list ChainEvent * option HistoricalSyncComplete) GatewayError * SyncStatus :=
  match status with
  | Init buffer pending => (Ok (buffer, pending), ForwardToSyncActor (Some sender) [])
  | _ => (Err CannotForward, status)
  end.

Definition buffer_until_live (status : SyncStatus) : result (option Z * list ChainEvent) GatewayError * SyncStatus :=
  match status with
  | ForwardToSyncActor sender buffer => (Ok (sender, buffer), BufferUntilLive [])
  | _ => (Err CannotBuffer, status)
  end.

Definition go_live (status : SyncStatus) : result (list ChainEvent) GatewayError * SyncStatus :=
  match status with
  | BufferUntilLive buffer => (Ok buffer, Live)
  | _ => (Err CannotGoLive, status)
  end.

(** ** Its actor: actor.rs, handlers.rs *)

Definition DEFAULT_MAX_BUFFERED_EVM_EVENTS : nat := Z.to_nat 100000.

(** The readiness channel: absent, open, or used. *)
Inductive Readiness := NoReadiness | Waiting | Signalled (outcome : result () GatewayError).

Record Gateway := mkGateway
  { status : SyncStatus; max_buffered_events : nat; readiness : Readiness; failure : option GatewayError;
    slashing_manager : option Z; stopped : bool;
    (** dispatched to the bus, and sent to the sync actor with the chain id *)
    published : list ChainEvent; batches : list (Z * Z * list ChainEvent); reported : list GatewayError }.

Definition gateway_new (limit : nat) (ready : Readiness) (manager : option Z) : Gateway :=
  mkGateway status_default limit ready None manager false [] [] [].

Definition set_status (g : Gateway) (s : SyncStatus) : Gateway :=
  mkGateway s (max_buffered_events g) (readiness g) (failure g) (slashing_manager g) (stopped g) (published g) (batches g) (reported g).

Definition signal_startup (g : Gateway) (outcome : result () GatewayError) : Gateway :=
  match readiness g with
  | Waiting => mkGateway (status g) (max_buffered_events g) (Signalled outcome) (failure g) (slashing_manager g) (stopped g) (published g) (batches g) (reported g)
  | _ => g
  end.

Definition fail_closed (g : Gateway) (error : GatewayError) : Gateway :=
  let g := signal_startup (set_status g (Failed error)) (Err error) in
  mkGateway (status g) (max_buffered_events g) (readiness g) (Some error) (slashing_manager g) true (published g) (batches g) (reported g ++ [error]).

(** What the bus answers to one dispatch. *)
Inductive DispatchOutcome := Dispatched | AdmissionClosed | DispatchError.

Section Gateway.
(** [str::parse::<B256>] of a topic. *)
Variable parse_b256 : string → option Z.

Definition interfold_slashing_manager_set (log : EvmLogObserved) : option (result Z GatewayError) :=
  if negb (bool_decide (ob_contract log = "Interfold"%string)) || negb (bool_decide (ob_event_name log = "SlashingManagerSet"%string)) then None
  else Some match ob_topics log !! 1%nat with
            | Some topic => match parse_b256 topic with Some word => Ok (word mod 2 ^ 160) | None => Err NoManagerTopic end
            | None => Err NoManagerTopic
            end.

Definition check_slashing_manager (current : option Z) (event : ChainEvent) : result () GatewayError :=
  match current, ce_data event with
  | Some current, ObservedLog log =>
      match interfold_slashing_manager_set log with
      | None => Ok tt
      | Some (Err e) => Err e
      | Some (Ok replacement) => if replacement =? current then Ok tt else Err (ManagerReplaced current replacement)
      end
  | _, _ => Ok tt
  end.

(** The future of [publish_evm_events]: the events that were dispatched, and its result. *)
Fixpoint publish_loop (manager : option Z) (events : list ChainEvent) (outcomes : list DispatchOutcome)
    : list ChainEvent * result () GatewayError :=
  match events with
  | [] => ([], Ok tt)
  | event :: rest =>
      match check_slashing_manager manager event with
      | Err e => ([], Err e)
      | Ok _ =>
          match outcomes with
          | AdmissionClosed :: _ => ([], Err AdmissionIsClosed)
          | DispatchError :: _ => ([], Err DispatchFailed)
          | _ => let '(done, r) := publish_loop manager rest (tl outcomes) in (event :: done, r)
          end
      end
  end.

Definition publish_evm_events (g : Gateway) (events : list ChainEvent) (outcomes : list DispatchOutcome) : Gateway :=
  let '(done, r) := publish_loop (slashing_manager g) events outcomes in
  let g := mkGateway (status g) (max_buffered_events g) (readiness g) (failure g) (slashing_manager g) (stopped g)
             (published g ++ done) (batches g) (reported g) in
  match r with
  | Ok _ => signal_startup g (Ok tt)
  | Err AdmissionIsClosed => signal_startup g (Err AdmissionIsClosed)
  | Err error => fail_closed g error
  end.

(** [process_evm_event] *)
Definition process_evm_event (g : Gateway) (event : ChainEvent) (outcomes : list DispatchOutcome) : result () GatewayError * Gateway :=
  match status g with
  | Live => (Ok tt, publish_evm_events g [event] outcomes)
  | _ => let '(r, s) := add_buffered_event (status g) event (max_buffered_events g) in (r, set_status g s)
  end.

(** [accepts] is the sync actor's answer to [try_send]. *)
Definition forward_historical_sync_complete (g : Gateway) (m : HistoricalSyncComplete) (accepts : bool) : result () GatewayError * Gateway :=
  match status g with
  | Init buffer _ => (Ok tt, set_status g (Init buffer (Some m)))
  | _ =>
      match buffer_until_live (status g) with
      | (Err e, s) => (Err e, set_status g s)
      | (Ok (sender, buffer), s) =>
          let g := set_status g s in
          match sender with
          | None => (Err NoSender, g)
          | Some sender =>
              if accepts then
                (Ok tt, mkGateway (status g) (max_buffered_events g) (readiness g) (failure g) (slashing_manager g) (stopped g)
                          (published g) (batches g ++ [(sender, hsc_chain_id m, buffer)]) (reported g))
              else (Err SyncActorRefused, g)
          end
      end
  end.

Fixpoint process_buffer (g : Gateway) (buffer : list ChainEvent) : result () GatewayError * Gateway :=
  match buffer with
  | [] => (Ok tt, g)
  | event :: rest => match process_evm_event g event [] with (Ok _, g) => process_buffer g rest | (Err e, g) => (Err e, g) end
  end.

Definition handle_sync_start (g : Gateway) (sender : option Z) (accepts : bool) : result () GatewayError * Gateway :=
  match sender with
  | None => (Err NoSender, g)
  | Some sender =>
      match forward_to_sync_actor (status g) sender with
      | (Err e, s) => (Err e, set_status g s)
      | (Ok (buffer, pending), s) =>
          match process_buffer (set_status g s) buffer with
          | (Err e, g) => (Err e, g)
          | (Ok _, g) =>
              match pending with
              | Some m => forward_historical_sync_complete g m accepts
              | None => (Ok tt, g)
              end
          end
      end
  end.

Definition handle_sync_ended (g : Gateway) (outcomes : list DispatchOutcome) : result () GatewayError * Gateway :=
  match go_live (status g) with
  | (Err e, s) => (Err e, set_status g s)
  | (Ok buffer, s) => (Ok tt, publish_evm_events (set_status g s) buffer outcomes)
  end.

Definition handle_evm_event (g : Gateway) (msg : EvmMsg) (clock : Hlc) (reading : clock_reading) (outcomes : list DispatchOutcome) (accepts : bool)
    : result () GatewayError * Gateway :=
  match msg with
  | MsgSyncComplete m => forward_historical_sync_complete g m accepts
  | MsgEvent e =>
      match into_interfold_event clock reading e with
      | Err err => (Err (ClockFailed err), g)
      | Ok event => process_evm_event g event outcomes
      end
  | MsgLog _ => (Err UnparsedLog, g)
  | MsgRejected rejected => (Err (LogRejected rejected), g)
  | MsgProcessed _ => (Err OrderingMarker, g)
  | MsgReaderStopped stopped => (Err (ReaderIsStopped stopped), g)
  end.

(** A message of the gateway's mailbox with what the rest of the node answers while it is
    handled: the bus's clock and its reading, the dispatches, and the sync actor. *)
Inductive GatewayInput :=
| FromChain (msg : EvmMsg) (clock : Hlc) (reading : clock_reading) (outcomes : list DispatchOutcome) (accepts : bool)
| SyncStarts (sender : option Z) (accepts : bool)
| SyncEnds (outcomes : list DispatchOutcome)
| OtherBusEvent
| ActorStopped.

(** The handlers: an error fails the gateway closed, and a stopped actor handles nothing.  The
    [stopped] hook reports a startup that never came. *)
Definition gateway_step (g : Gateway) (input : GatewayInput) : Gateway :=
  let trap r := match r with (Ok _, g) => g | (Err e, g) => fail_closed g e end in
  if stopped g then g
  else match input with
       | FromChain msg clock reading outcomes accepts => trap (handle_evm_event g msg clock reading outcomes accepts)
       | SyncStarts sender accepts => trap (handle_sync_start g sender accepts)
       | SyncEnds outcomes => trap (handle_sync_ended g outcomes)
       | OtherBusEvent => g
       | ActorStopped =>
           let g := signal_startup g (Err StoppedBeforeLive) in
           mkGateway (status g) (max_buffered_events g) (readiness g) (failure g) (slashing_manager g) true (published g) (batches g) (reported g)
       end.

Definition gateway_run (inputs : list GatewayInput) (g : Gateway) : Gateway := foldl gateway_step g inputs.

(** The events that reach the gateway. *)
Definition arriving (input : GatewayInput) : option ChainEvent :=
  match input with
  | FromChain (MsgEvent e) clock reading _ _ => match into_interfold_event clock reading e with Ok event => Some event | Err _ => None end
  | _ => None
  end.
End Gateway.

(** ** The collector of the chains' histories: collect_history.rs *)

Record HistoricalEvmCollector := mkCollector { expected : gset Z; received : gset Z; results : list ChainEvent }.

Inductive CollectOutcome := Recorded (chains_received chains_expected : nat) | Skipped.

Definition collector_new (chains : gset Z) : HistoricalEvmCollector := mkCollector chains ∅ [].
Definition is_complete (c : HistoricalEvmCollector) : bool := (size (expected c) <=? size (received c))%nat.

Definition record (c : HistoricalEvmCollector) (chain_id : Z) (events : list ChainEvent) : CollectOutcome * HistoricalEvmCollector :=
  if bool_decide (chain_id ∈ expected c) && negb (bool_decide (chain_id ∈ received c)) then
    let c := mkCollector (expected c) ({[chain_id]} ∪ received c) (results c ++ events) in
    (Recorded (size (received c)) (size (expected c)), c)
  else (Skipped, c).

Definition remaining (c : HistoricalEvmCollector) : list Z := merge_sort Z.le (elements (expected c ∖ received c)).

(** ** The gateway loses nothing *)

(** What has left the gateway, in order, and what it holds. *)
Definition delivered_by (g : Gateway) : list ChainEvent := concat (snd <$> batches g) ++ published g.
Definition held (s : SyncStatus) : list ChainEvent :=
  match s with Init b _ | ForwardToSyncActor _ b | BufferUntilLive b => b | Live | Failed _ => [] end.

(** The bus is not shutting down while the input is handled. *)
Definition admission_open (input : GatewayInput) : Prop :=
  match input with
  | FromChain _ _ _ outcomes _ | SyncEnds outcomes => AdmissionClosed ∉ outcomes
  | _ => True
  end.

(** Nothing leaves before the sync actor takes the history, nothing is published before Live. *)
Definition gateway_shape (g : Gateway) : Prop :=
  match status g with
  | Init _ _ => batches g = [] ∧ published g = []
  | ForwardToSyncActor sender _ => batches g = [] ∧ published g = [] ∧ is_Some sender
  | BufferUntilLive _ => length (batches g) = 1%nat ∧ published g = []
  | Live => length (batches g) = 1%nat
  | Failed _ => False
  end.

Definition running (g : Gateway) (seen : list ChainEvent) : Prop :=
  stopped g = false ∧ gateway_shape g ∧ delivered_by g ++ held (status g) = seen.

Definition gateway_inv (g : Gateway) (seen : list ChainEvent) : Prop :=
  running g seen ∨ stopped g = true ∧ delivered_by g `prefix_of` seen.

Section GatewayProofs.
Variable parse_b256 : string → option Z.
Abbreviation gateway_step := (gateway_step parse_b256).
Abbreviation gateway_run := (gateway_run parse_b256).

Lemma signal_delivered g o : delivered_by (signal_startup g o) = delivered_by g ∧ status (signal_startup g o) = status g ∧
  stopped (signal_startup g o) = stopped g ∧ batches (signal_startup g o) = batches g ∧ published (signal_startup g o) = published g.
Proof. unfold signal_startup. by destruct (readiness g). Qed.

Lemma signal_running g o seen : running g seen → running (signal_startup g o) seen.
Proof.
  destruct (signal_delivered g o) as (Hd & Hs & Ht & Hb & Hp). unfold running, gateway_shape. rewrite Hd, Hs, Ht, Hb, Hp. done.
Qed.

Lemma fail_closed_inv g e seen : delivered_by g `prefix_of` seen → gateway_inv (fail_closed g e) seen.
Proof.
  intros Hp. right. unfold fail_closed. destruct (signal_delivered (set_status g (Failed e)) (Err e)) as (Hd & _). split; [done|].
  unfold delivered_by in *. simpl in *. by rewrite Hd.
Qed.

Lemma publish_loop_spec manager events outcomes done r :
  publish_loop parse_b256 manager events outcomes = (done, r) →
  done `prefix_of` events ∧ (is_ok r = true → done = events) ∧ (AdmissionClosed ∉ outcomes → r ≠ Err AdmissionIsClosed) ∧
  Forall (λ e, check_slashing_manager parse_b256 manager e = Ok tt) done.
Proof.
  revert outcomes done r. induction events as [|event rest IH]; intros outcomes done r E; simpl in E.
  { simplify_eq. split_and!; [done|done|done|constructor]. }
  assert (∀ e, check_slashing_manager parse_b256 manager event = Err e → e ≠ AdmissionIsClosed) as Hck.
  { intros e. unfold check_slashing_manager, interfold_slashing_manager_set. repeat case_match; congruence. }
  destruct (check_slashing_manager parse_b256 manager event) as [[]|e] eqn:Ec.
  2: { simplify_eq. split_and!; [apply prefix_nil|done|intros _ [= ->]; by apply (Hck AdmissionIsClosed)|constructor]. }
  destruct outcomes as [|[] outs]; simpl in E.
  3: { simplify_eq. split_and!; [apply prefix_nil|done|intros Hn; set_solver|constructor]. }
  3: { simplify_eq. split_and!; [apply prefix_nil|done|done|constructor]. }
  all: destruct (publish_loop parse_b256 manager rest _) as [d r1] eqn:El; destruct (IH _ _ _ El) as (Hp & Hok & Hn & Hf); simplify_eq.
  all: split_and!; [by apply prefix_cons|by intros Hr; rewrite Hok|intros Hx; apply Hn; set_solver|by constructor].
Qed.

Lemma publish_inv g events outcomes seen :
  status g = Live → stopped g = false → length (batches g) = 1%nat → delivered_by g ++ events = seen → AdmissionClosed ∉ outcomes →
  gateway_inv (publish_evm_events parse_b256 g events outcomes) seen.
Proof.
  intros Hs Ht Hb Hd Hn. unfold publish_evm_events. destruct (publish_loop _ _ _ _) as [done r] eqn:El.
  destruct (publish_loop_spec _ _ _ _ _ El) as (Hp & Hok & Hc & _). specialize (Hc Hn).
  set (g' := mkGateway _ _ _ _ _ _ _ _ _). assert (delivered_by g' = delivered_by g ++ done) as Hd' by (unfold delivered_by; simpl; by rewrite app_assoc).
  destruct r as [[]|e].
  - left. apply signal_running. rewrite (Hok eq_refl) in Hd'. split_and!; [done|unfold gateway_shape; simpl; by rewrite Hs|].
    simpl. rewrite Hs. simpl. by rewrite Hd', app_nil_r.
  - assert (gateway_inv (fail_closed g' e) seen) as Hf; [|by destruct e]. apply fail_closed_inv. rewrite Hd', <- Hd. by apply prefix_app.
Qed.

(** The outcome of a handler, as the mailbox's entry points take it. *)
Definition trap (r : result () GatewayError * Gateway) : Gateway := match r with (Ok _, g) => g | (Err e, g) => fail_closed g e end.

Lemma process_inv g event outcomes seen :
  running g seen → AdmissionClosed ∉ outcomes → gateway_inv (trap (process_evm_event parse_b256 g event outcomes)) (seen ++ [event]).
Proof.
  intros (Ht & Hs & Hd) Hn. unfold process_evm_event.
  assert (∀ state b put, delivered_by g ++ b = seen → gateway_shape (set_status g (put (b ++ [event]))) → held (put (b ++ [event])) = b ++ [event] →
    gateway_inv (trap (let '(r, s) := push_limited state (max_buffered_events g) b event put in (r, set_status g s))) (seen ++ [event])) as Hpush.
  { intros state b put Hb Hsh Hh. unfold push_limited. destruct (_ <=? _)%nat; simpl.
    - apply fail_closed_inv. rewrite <- Hb. unfold delivered_by; simpl. rewrite <- app_assoc. by apply prefix_app_r.
    - left. split_and!; [done|done|]. simpl. rewrite Hh, <- Hb. unfold delivered_by; simpl. by rewrite !app_assoc. }
  unfold gateway_shape in Hs. destruct (status g) as [b pend|sender b|b| |reason] eqn:Es; simpl in Hd.
  - by apply (Hpush InInit b (λ b, Init b pend)).
  - by apply (Hpush InForward b (ForwardToSyncActor sender)).
  - by apply (Hpush InBufferUntilLive b BufferUntilLive).
  - simpl. apply publish_inv; [done|done|done| |done]. by rewrite <- Hd, app_nil_r.
  - done.
Qed.

Lemma sync_complete_inv g m accepts seen :
  running g seen → gateway_inv (trap (forward_historical_sync_complete g m accepts)) seen.
Proof.
  intros (Ht & Hs & Hd). unfold forward_historical_sync_complete, gateway_shape in *.
  assert (gateway_inv (fail_closed g CannotBuffer) seen) as Hfail by (apply fail_closed_inv; rewrite <- Hd; by apply prefix_app_r).
  destruct (status g) as [b pend|sender b|b| |reason] eqn:Es; simpl in *; try done.
  - left. split_and!; [done|done|exact Hd].
  - destruct Hs as (Hb & Hp & [snd ->]). destruct accepts; simpl.
    + left. split_and!; [done|simpl; by rewrite Hb|]. simpl. rewrite <- Hd. unfold delivered_by. simpl. rewrite Hb, Hp. simpl. by rewrite !app_nil_r.
    + apply fail_closed_inv. rewrite <- Hd. unfold delivered_by; simpl. apply prefix_app_r. done.
Qed.

(** The buffered events pass on, or the limit stops the gateway. *)
Lemma process_buffer_spec g sender b0 buf r g' :
  process_buffer parse_b256 (set_status g (ForwardToSyncActor sender b0)) buf = (r, g') →
  r = Ok tt ∧ g' = set_status g (ForwardToSyncActor sender (b0 ++ buf)) ∨ (∃ e, r = Err e) ∧ delivered_by g' = delivered_by g.
Proof.
  revert b0. induction buf as [|event buf IH]; intros b0 E; simpl in E.
  { simplify_eq. left. by rewrite app_nil_r. }
  unfold process_evm_event in E. simpl in E. unfold push_limited in E. destruct (_ <=? _)%nat; [simplify_eq; right; eauto|].
  destruct (IH (b0 ++ [event]) E) as [[-> ->]|?]; [left|by right]. by rewrite <- app_assoc.
Qed.

Lemma sync_start_inv g sender accepts seen :
  running g seen → gateway_inv (trap (handle_sync_start parse_b256 g sender accepts)) seen.
Proof.
  intros Hr. pose proof Hr as (Ht & Hs & Hd). assert (∀ e s, gateway_inv (fail_closed (set_status g s) e) seen) as Hfail.
  { intros e s. apply fail_closed_inv. rewrite <- Hd. unfold delivered_by; simpl. apply prefix_app_r. done. }
  unfold handle_sync_start, forward_to_sync_actor. destruct sender as [sender|]; [|by apply fail_closed_inv; rewrite <- Hd; apply prefix_app_r].
  unfold gateway_shape in Hs. destruct (status g) as [b pend|? b|b| |reason] eqn:Es; try apply Hfail. simpl in Hd.
  destruct (process_buffer _ _ _) as [r g'] eqn:Ep. destruct (process_buffer_spec _ _ _ _ _ _ Ep) as [[-> ->]|[[e ->] Hdel]].
  2: { simpl. apply fail_closed_inv. rewrite Hdel, <- Hd. by apply prefix_app_r. }
  assert (running (set_status g (ForwardToSyncActor (Some sender) b)) seen) as Hr'.
  { split; [done|]. split; [|exact Hd]. destruct Hs. unfold gateway_shape; simpl. eauto. }
  simpl. destruct pend as [m|]; [by apply sync_complete_inv|by left].
Qed.

Lemma sync_ended_inv g outcomes seen :
  running g seen → AdmissionClosed ∉ outcomes → gateway_inv (trap (handle_sync_ended parse_b256 g outcomes)) seen.
Proof.
  intros (Ht & Hs & Hd) Hn. unfold handle_sync_ended, go_live, gateway_shape in *.
  assert (∀ e s, gateway_inv (fail_closed (set_status g s) e) seen) as Hfail.
  { intros e s. apply fail_closed_inv. rewrite <- Hd. unfold delivered_by; simpl. apply prefix_app_r. done. }
  destruct (status g) as [b pend|? b|b| |reason] eqn:Es; try apply Hfail. simpl in *. destruct Hs as [Hb _]. by apply publish_inv.
Qed.

(** The events that an input brings. *)
Definition arrivals (input : GatewayInput) : list ChainEvent := option_list (arriving input).

Lemma gateway_step_inv g input seen : gateway_inv g seen → admission_open input → gateway_inv (gateway_step g input) (seen ++ arrivals input).
Proof.
  intros [Hr|[Ht Hp]] Hopen; unfold ChainGateway.gateway_step.
  2: { rewrite Ht. right. split; [done|]. by apply prefix_app_r. }
  pose proof Hr as (Ht & Hs & Hd). rewrite Ht. change (λ r, match r with (Ok _, g) => g | (Err e, g) => fail_closed g e end) with trap.
  assert (∀ e l, gateway_inv (fail_closed g e) (seen ++ l)) as Hfail.
  { intros e l. apply fail_closed_inv. rewrite <- Hd, <- app_assoc. by apply prefix_app_r. }
  destruct input as [msg clock reading outcomes accepts|sender accepts|outcomes| |]; unfold arrivals; simpl.
  - destruct msg as [m|e|log|rej|id|st]; simpl; try apply (Hfail _ []).
    + rewrite app_nil_r. by apply sync_complete_inv.
    + destruct (into_interfold_event clock reading e) as [event|err]; simpl; [by apply process_inv|apply (Hfail _ [])].
  - rewrite app_nil_r. by apply sync_start_inv.
  - rewrite app_nil_r. by apply sync_ended_inv.
  - rewrite app_nil_r. by left.
  - rewrite app_nil_r. right. destruct (signal_delivered g (Err StoppedBeforeLive)) as (Hd' & _ & _ & Hb & Hpub).
    split; [done|]. unfold delivered_by in *. simpl. rewrite Hb, Hpub, <- Hd. by apply prefix_app_r.
Qed.

Lemma gateway_run_inv inputs g seen :
  gateway_inv g seen → Forall admission_open inputs → gateway_inv (gateway_run inputs g) (seen ++ omap arriving inputs).
Proof.
  revert g seen. induction inputs as [|input inputs IH]; intros g seen Hg Ho; [by rewrite app_nil_r|]. inversion_clear Ho.
  replace (seen ++ omap arriving (input :: inputs)) with ((seen ++ arrivals input) ++ omap arriving inputs); [by apply IH; [apply gateway_step_inv|]|].
  unfold arrivals. simpl. rewrite <- app_assoc. by destruct (arriving input).
Qed.

(** C14: Whatever messages a gateway handles, in whatever order, while the bus is not shutting
    down: as long as it has not stopped, the events that reached it are exactly those of the
    batch that it gave to the sync actor, then those that it published, then those that it
    holds, in the order of their arrival; and a gateway that stopped had delivered a prefix of
    them.  It delivers at most one batch, and publishes nothing before that. *)
Theorem gateway_keeps_every_event inputs limit ready manager :
  Forall admission_open inputs →
  let g := gateway_run inputs (gateway_new limit ready manager) in
  (stopped g = false → delivered_by g ++ held (status g) = omap arriving inputs ∧ (length (batches g) ≤ 1)%nat ∧ (published g ≠ [] → length (batches g) = 1%nat)) ∧
  delivered_by g `prefix_of` omap arriving inputs.
Proof.
  intros Ho g. assert (gateway_inv g (omap arriving inputs)) as [(Ht & Hs & Hd)|[Ht Hp]].
  { apply (gateway_run_inv inputs (gateway_new limit ready manager) []); [|done]. left. split_and!; done. }
  - split; [intros _|rewrite <- Hd; by apply prefix_app_r]. split; [done|]. unfold gateway_shape in Hs. clearbody g.
    destruct (status g); [destruct Hs as [-> ->]|destruct Hs as (-> & -> & _)|destruct Hs as [-> _]|rewrite Hs|done]; (split; [simpl; lia|done]).
  - split; [congruence|done].
Qed.
End GatewayProofs.

(** ** What is published, and when the chain is ready *)

Section PublishProofs.
Variable parse_b256 : string → option Z.
Abbreviation gateway_step := (gateway_step parse_b256).
Abbreviation gateway_run := (gateway_run parse_b256).
Abbreviation check := (check_slashing_manager parse_b256).

(** [g'] comes from [g] by publishing events that pass the check. *)
Definition publishes_checked (g g' : Gateway) : Prop :=
  slashing_manager g' = slashing_manager g ∧ ∃ done, published g' = published g ++ done ∧ Forall (λ e, check (slashing_manager g) e = Ok tt) done.

(** [g'] differs from [g] in its status, its batches and its reports only. *)
Definition same_published (g g' : Gateway) : Prop := slashing_manager g' = slashing_manager g ∧ published g' = published g.

Lemma same_checked g g' : same_published g g' → publishes_checked g g'.
Proof. intros [Hs Hp]. split; [done|]. exists []. rewrite Hp, app_nil_r. split; [done|constructor]. Qed.

Lemma same_trans g1 g2 g3 : same_published g1 g2 → same_published g2 g3 → same_published g1 g3.
Proof. unfold same_published. intros [-> ->] [-> ->]. done. Qed.

Lemma same_signal g o : same_published g (signal_startup g o).
Proof. unfold signal_startup. by destruct (readiness g). Qed.

Lemma same_fail g e : same_published g (fail_closed g e).
Proof. unfold fail_closed. destruct (same_signal (set_status g (Failed e)) (Err e)) as [Hs Hp]. split; [exact Hs|exact Hp]. Qed.

Lemma checked_then_same g1 g2 g3 : publishes_checked g1 g2 → same_published g2 g3 → publishes_checked g1 g3.
Proof. intros [Hs (d & Hd & Hf)] [Hs' Hp']. split; [congruence|]. exists d. by rewrite Hp'. Qed.

Lemma publish_checked g events outcomes : publishes_checked g (publish_evm_events parse_b256 g events outcomes).
Proof.
  unfold publish_evm_events. destruct (publish_loop _ _ _ _) as [done r] eqn:El. destruct (publish_loop_spec _ _ _ _ _ _ El) as (_ & _ & _ & Hf).
  set (g' := mkGateway _ _ _ _ _ _ _ _ _). assert (publishes_checked g g') as Hc by (split; [done|]; by exists done).
  destruct r as [[]|[]]; (eapply checked_then_same; [exact Hc|apply same_signal || apply same_fail]).
Qed.

Lemma process_checked g event outcomes : publishes_checked g (process_evm_event parse_b256 g event outcomes).2.
Proof.
  unfold process_evm_event. destruct (status g); try (apply publish_checked); apply same_checked; simpl; unfold push_limited; try done; by destruct (_ <=? _)%nat.
Qed.

Lemma sync_complete_same g m accepts : same_published g (forward_historical_sync_complete g m accepts).2.
Proof.
  unfold forward_historical_sync_complete. destruct (status g) as [|sender b| | |]; simpl; try done. destruct sender; [|done]. by destruct accepts.
Qed.

Lemma sync_start_same g sender accepts : same_published g (handle_sync_start parse_b256 g sender accepts).2.
Proof.
  unfold handle_sync_start, forward_to_sync_actor. destruct sender as [sender|]; [|done]. destruct (status g) as [b pend| | | |]; try done.
  destruct (process_buffer _ _ _) as [r g'] eqn:Ep.
  assert (same_published g g') as Hg.
  { clear pend. revert Ep. generalize ([] : list ChainEvent) as b0. induction b as [|event b IH]; intros b0 Ep; simpl in Ep; [by simplify_eq|].
    unfold process_evm_event in Ep. simpl in Ep. unfold push_limited in Ep. destruct (_ <=? _)%nat; [by simplify_eq|]. by eapply IH. }
  destruct r; [|done]. destruct pend; [|done]. eapply same_trans; [done|apply sync_complete_same].
Qed.

Lemma gateway_step_checked g input : publishes_checked g (gateway_step g input).
Proof.
  assert (∀ r : result () GatewayError * Gateway, publishes_checked g r.2 → publishes_checked g (trap r)) as Htrap.
  { intros [[[]|e] g'] Hg; [done|]. eapply checked_then_same; [exact Hg|apply same_fail]. }
  unfold ChainGateway.gateway_step. change (λ r, match r with (Ok _, g) => g | (Err e, g) => fail_closed g e end) with trap.
  destruct (stopped g); [by apply same_checked|]. destruct input as [msg clock reading outcomes accepts|sender accepts|outcomes| |].
  - apply Htrap. destruct msg as [m|e| | | |]; simpl; try (by apply same_checked).
    + apply same_checked, sync_complete_same.
    + destruct (into_interfold_event _ _ _); [apply process_checked|by apply same_checked].
  - apply Htrap, same_checked, sync_start_same.
  - apply Htrap. unfold handle_sync_ended, go_live. destruct (status g) as [| |b| |]; try (by apply same_checked).
    destruct (publish_checked (set_status g Live) b outcomes) as [? ?]. done.
  - by apply same_checked.
  - apply same_checked. apply (same_trans _ (signal_startup g (Err StoppedBeforeLive))); [apply same_signal|done].
Qed.

(** A node that signs for a SlashingManager never publishes a log in which the Interfold
    contract replaces it, or one whose manager it cannot read: of everything that a gateway ever
    publishes, before or after it stops, every event passes the check, for every history of
    messages and answers. *)
Theorem no_replaced_manager_is_published inputs limit ready manager :
  Forall (λ e, check manager e = Ok tt) (published (gateway_run inputs (gateway_new limit ready manager))).
Proof.
  assert (∀ g, slashing_manager g = manager → Forall (λ e, check manager e = Ok tt) (published g) →
    Forall (λ e, check manager e = Ok tt) (published (gateway_run inputs g))) as Hall; [|apply Hall; [done|constructor]].
  induction inputs as [|input inputs IH]; intros g Hm Hg; [done|]. simpl. destruct (gateway_step_checked g input) as [Hs (done & Hp & Hf)].
  apply IH; [congruence|]. rewrite Hp. apply Forall_app. split; [done|]. by rewrite <- Hm.
Qed.

(** A gateway that is live has answered its readiness channel. *)
Definition ready_inv (g : Gateway) : Prop := status g = Live → readiness g ≠ Waiting.

Lemma signal_answered g o : readiness (signal_startup g o) ≠ Waiting.
Proof. unfold signal_startup. destruct (readiness g) eqn:E; simpl; congruence. Qed.

Lemma fail_answered g e : readiness (fail_closed g e) ≠ Waiting.
Proof. unfold fail_closed. apply (signal_answered (set_status g (Failed e))). Qed.

Lemma publish_answered g events outcomes : readiness (publish_evm_events parse_b256 g events outcomes) ≠ Waiting.
Proof.
  unfold publish_evm_events. destruct (publish_loop _ _ _ _) as [done r]. destruct r as [[]|[]]; apply signal_answered || apply fail_answered.
Qed.

Lemma signal_ok g o : readiness g = Waiting → readiness (signal_startup g o) = Signalled o.
Proof. unfold signal_startup. by intros ->. Qed.

Lemma fail_signal g e : readiness g = Waiting → readiness (fail_closed g e) = Signalled (Err e).
Proof. intros Hr. unfold fail_closed. simpl. by apply (signal_ok (set_status g (Failed e))). Qed.

(** A handler that publishes nothing leaves the channel alone and does not go live. *)
Definition quiet_step (g g' : Gateway) : Prop := readiness g' = readiness g ∧ status g' ≠ Live.

Lemma process_quiet g event outcomes : status g ≠ Live → quiet_step g (process_evm_event parse_b256 g event outcomes).2.
Proof.
  intros Hs. unfold process_evm_event. destruct (status g) eqn:E; simpl; unfold push_limited; try (by destruct (_ <=? _)%nat); done.
Qed.

Lemma sync_complete_quiet g m accepts : status g ≠ Live → quiet_step g (forward_historical_sync_complete g m accepts).2.
Proof.
  intros Hs. unfold forward_historical_sync_complete. destruct (status g) as [|sender b| | |] eqn:E; simpl; try done. destruct sender; [|done]. by destruct accepts.
Qed.

Lemma sync_start_quiet g sender accepts : status g ≠ Live → quiet_step g (handle_sync_start parse_b256 g sender accepts).2.
Proof.
  intros Hs. unfold handle_sync_start, forward_to_sync_actor. destruct sender as [sender|]; [|done]. destruct (status g) as [b pend| | | |] eqn:E; try done.
  destruct (process_buffer _ _ _) as [r g'] eqn:Ep.
  assert (quiet_step g g') as Hg.
  { clear E Hs. revert Ep. generalize ([] : list ChainEvent) as b0. induction b as [|event b IH]; intros b0 Ep; simpl in Ep; [by simplify_eq|].
    unfold process_evm_event in Ep. simpl in Ep. unfold push_limited in Ep. destruct (_ <=? _)%nat; [by simplify_eq|]. by eapply IH. }
  destruct r; [|done]. destruct pend as [m|]; [|done]. destruct Hg as [Hr Hl]. destruct (sync_complete_quiet g' m accepts Hl) as [Hr' Hl']. split; [congruence|done].
Qed.

(** The steps of a gateway that has not answered. *)
Lemma step_ready g input :
  readiness g = Waiting → status g ≠ Live →
  let g' := gateway_step g input in
  (readiness g' = Waiting ∧ status g' ≠ Live) ∨ (∃ e, readiness g' = Signalled (Err e)) ∨
  ∃ outcomes b, input = SyncEnds outcomes ∧ status g = BufferUntilLive b ∧ readiness g' = Signalled (Ok tt) ∧ published g' = published g ++ b.
Proof.
  intros Hr Hs g'. subst g'. unfold ChainGateway.gateway_step. change (λ r, match r with (Ok _, g) => g | (Err e, g) => fail_closed g e end) with trap.
  destruct (stopped g); [by left|].
  assert (∀ r : result () GatewayError * Gateway, quiet_step g r.2 → (readiness (trap r) = Waiting ∧ status (trap r) ≠ Live) ∨ ∃ e, readiness (trap r) = Signalled (Err e)) as Htrap.
  { intros [[[]|e] g'] [Hq Hl]; simpl in *; [left; split; congruence|right]. exists e. apply fail_signal. congruence. }
  destruct input as [msg clock reading outcomes accepts|sender accepts|outcomes| |].
  - destruct msg as [m|e| | | |]; simpl; try (by right; left; eexists; apply fail_signal).
    + destruct (Htrap _ (sync_complete_quiet g m accepts Hs)); auto.
    + destruct (into_interfold_event _ _ _); [|by right; left; eexists; apply fail_signal]. destruct (Htrap _ (process_quiet g t outcomes Hs)); auto.
  - destruct (Htrap _ (sync_start_quiet g sender accepts Hs)); auto.
  - unfold handle_sync_ended, go_live. destruct (status g) as [| |b| |] eqn:Es; try (by right; left; eexists; apply fail_signal).
    simpl. unfold publish_evm_events. destruct (publish_loop _ _ _ _) as [done r] eqn:El. destruct (publish_loop_spec _ _ _ _ _ _ El) as (_ & Hok & _). simpl.
    set (g' := mkGateway _ _ _ _ _ _ _ _ _). assert (readiness g' = Waiting) as Hg' by done.
    destruct r as [[]|e]; [|by right; left; destruct e; eexists; (apply signal_ok || apply fail_signal)].
    right; right. exists outcomes, b. split_and!; [done|done|by apply signal_ok|]. destruct (same_signal g' (Ok tt)) as [_ ->]. simpl. by rewrite (Hok eq_refl).
  - by left.
  - right; left. eexists. simpl. by apply signal_ok.
Qed.

(** An answered channel stays answered. *)
Lemma signal_keeps g o o' : readiness g = Signalled o → readiness (signal_startup g o') = Signalled o.
Proof. intros Hr. unfold signal_startup. by rewrite Hr. Qed.

Lemma fail_keeps g e o : readiness g = Signalled o → readiness (fail_closed g e) = Signalled o.
Proof. intros Hr. unfold fail_closed. simpl. by apply (signal_keeps (set_status g (Failed e))). Qed.

Lemma publish_keeps g events outcomes o : readiness g = Signalled o → readiness (publish_evm_events parse_b256 g events outcomes) = Signalled o.
Proof.
  intros Hr. unfold publish_evm_events. destruct (publish_loop _ _ _ _) as [done r]. destruct r as [[]|[]]; by (apply signal_keeps || apply fail_keeps).
Qed.

Lemma process_keeps g event outcomes o :
  readiness g = Signalled o → readiness (process_evm_event parse_b256 g event outcomes).2 = Signalled o.
Proof.
  intros Hr. unfold process_evm_event. destruct (status g); try (by apply publish_keeps); simpl; unfold push_limited; try done; by destruct (_ <=? _)%nat.
Qed.

Lemma sync_start_keeps g sender accepts o :
  readiness g = Signalled o → readiness (handle_sync_start parse_b256 g sender accepts).2 = Signalled o.
Proof.
  intros Hr. assert (status g = Live ∨ status g ≠ Live) as [Hl|Hl] by (destruct (status g); auto); [|destruct (sync_start_quiet g sender accepts Hl); congruence].
  unfold handle_sync_start, forward_to_sync_actor. rewrite Hl. by destruct sender.
Qed.

Lemma sync_complete_keeps g m accepts o : readiness g = Signalled o → readiness (forward_historical_sync_complete g m accepts).2 = Signalled o.
Proof.
  intros Hr. assert (status g = Live ∨ status g ≠ Live) as [Hl|Hl] by (destruct (status g); auto); [|destruct (sync_complete_quiet g m accepts Hl); congruence].
  unfold forward_historical_sync_complete. by rewrite Hl.
Qed.

Lemma step_keeps g input o : readiness g = Signalled o → readiness (gateway_step g input) = Signalled o.
Proof.
  intros Hr. unfold ChainGateway.gateway_step. change (λ r, match r with (Ok _, g) => g | (Err e, g) => fail_closed g e end) with trap.
  assert (∀ r : result () GatewayError * Gateway, readiness r.2 = Signalled o → readiness (trap r) = Signalled o) as Htrap.
  { intros [[[]|e] g'] Hg; [done|]. by apply fail_keeps. }
  destruct (stopped g); [done|]. destruct input as [msg clock reading outcomes accepts|sender accepts|outcomes| |].
  - apply Htrap. destruct msg; simpl; try done; [by apply sync_complete_keeps|]. destruct (into_interfold_event _ _ _); [by apply process_keeps|done].
  - by apply Htrap, sync_start_keeps.
  - apply Htrap. unfold handle_sync_ended, go_live. destruct (status g); try done. by apply publish_keeps.
  - done.
  - simpl. by apply signal_keeps.
Qed.

(** C22: The node learns that a chain is live only when it is: the readiness channel answers
    success only by the end of the sync, from the state that buffers until then, and when it does
    every event of that buffer has been published, in order. *)
Theorem ready_means_the_backlog_is_published inputs limit manager :
  let start := gateway_new limit Waiting manager in
  readiness (gateway_run inputs start) = Signalled (Ok tt) →
  ∃ before outcomes after backlog, inputs = before ++ SyncEnds outcomes :: after ∧
    status (gateway_run before start) = BufferUntilLive backlog ∧
    published (gateway_run (before ++ [SyncEnds outcomes]) start) = published (gateway_run before start) ++ backlog.
Proof.
  intros start. assert (∀ l i, gateway_run (l ++ [i]) start = gateway_step (gateway_run l start) i) as Hsnoc by (intros; unfold ChainGateway.gateway_run; by rewrite foldl_app).
  assert (match readiness (gateway_run inputs start) with
    | NoReadiness => False
    | Waiting => status (gateway_run inputs start) ≠ Live
    | Signalled (Err _) => True
    | Signalled (Ok _) => ∃ before outcomes after backlog, inputs = before ++ SyncEnds outcomes :: after ∧
        status (gateway_run before start) = BufferUntilLive backlog ∧
        published (gateway_run (before ++ [SyncEnds outcomes]) start) = published (gateway_run before start) ++ backlog
    end) as Hinv; [|intros Hr; by rewrite Hr in Hinv].
  induction inputs as [|input inputs IH] using rev_ind; [done|]. rewrite Hsnoc. set (g := gateway_run inputs start) in *.
  destruct (readiness g) as [| |o] eqn:Er; [done| |].
  - destruct (step_ready g input Er IH) as [[-> Hl]|[[e ->]|(outcomes & b & -> & Hs & -> & Hp)]]; [done|done|].
    exists inputs, outcomes, [], b. rewrite Hsnoc. done.
  - rewrite (step_keeps g input o Er). destruct o as [[]|e]; [|done]. destruct IH as (before & outcomes & after & b & -> & Hs & Hp).
    exists before, outcomes, (after ++ [input]), b. by rewrite <- app_assoc.
Qed.
End PublishProofs.

(** ** The order fixer *)

Definition is_marker (m : EvmMsg) : bool := match m with MsgSyncComplete _ => true | _ => false end.
Definition passes (m : EvmMsg) : bool := match m with MsgSyncComplete _ | MsgProcessed _ => false | _ => true end.

(** What is forwarded of messages without a marker. *)
Definition forwarded (msgs : list EvmMsg) : list EvmMsg := List.filter passes msgs.
Definition no_marker (msgs : list EvmMsg) : Prop := Forall (λ m, is_marker m = false) msgs.

Lemma forwarded_app l k : forwarded (l ++ k) = forwarded l ++ forwarded k.
Proof. apply List.filter_app. Qed.

Lemma forwarded_cons m l : forwarded (m :: l) = forwarded [m] ++ forwarded l.
Proof. apply (forwarded_app [m]). Qed.

Section FixerProofs.
Context {B : Type} `{HB : BloomFilter B} `{HL : !BloomLaws B}.
Abbreviation Fixer := (HistoricalOrderFixer B).

(** The filter after the ids of some messages. *)
Definition tracked (b : B) (msgs : list EvmMsg) : B := foldl (λ b m, bloom_insert (get_id m) b) b msgs.

Lemma tracked_keeps id b msgs : bloom_contains id b = true → bloom_contains id (tracked b msgs) = true.
Proof. revert b. induction msgs as [|m msgs IH]; intros b Hb; [done|]. apply IH. by apply bloom_kept. Qed.

Lemma tracked_elem id b msgs : id ∈ get_id <$> msgs → bloom_contains id (tracked b msgs) = true.
Proof.
  revert b. induction msgs as [|m msgs IH]; intros b; simpl; [set_solver|]. rewrite elem_of_cons. intros [->|Hin]; [|by apply IH].
  apply tracked_keeps, bloom_inserted.
Qed.

Lemma fixer_run_app (f : Fixer) l k :
  fixer_run f (l ++ k) = let '(out, f) := fixer_run f l in let '(outs, f) := fixer_run f k in (out ++ outs, f).
Proof.
  revert f. induction l as [|m l IH]; intros f; simpl; [by destruct (fixer_run f k)|].
  destruct (fixer_process f m) as [o f1]. rewrite IH. destruct (fixer_run f1 l) as [o2 f2]. destruct (fixer_run f2 k) as [o3 f3]. by rewrite app_assoc.
Qed.

(** A message that is no marker, for a fixer with nothing pending and for one that waits. *)
Lemma process_idle b m : is_marker m = false → fixer_process (mkFixer None b) m = (forwarded [m], mkFixer None (bloom_insert (get_id m) b)).
Proof. by destruct m. Qed.

Lemma process_waiting b m sc id : is_marker m = false → prev_event sc = Some id →
  fixer_process (mkFixer (Some sc) b) m
  = if bloom_contains id (bloom_insert (get_id m) b) then (forwarded [m] ++ [MsgSyncComplete sc], mkFixer None (bloom_insert (get_id m) b))
    else (forwarded [m], mkFixer (Some sc) (bloom_insert (get_id m) b)).
Proof. intros Hm Hid. destruct m; try done; unfold fixer_process, take_ready_pending; simpl; rewrite Hid; by destruct (bloom_contains _ _). Qed.

Lemma fixer_run_idle b msgs : no_marker msgs → fixer_run (mkFixer None b) msgs = (forwarded msgs, mkFixer None (tracked b msgs)).
Proof.
  revert b. induction msgs as [|m msgs IH]; intros b Hn; [done|]. inversion_clear Hn. cbn [fixer_run]. rewrite process_idle, IH by done. by rewrite (forwarded_cons m msgs).
Qed.

(** A waiting fixer releases the marker with the first message after which its filter has the id. *)
Lemma fixer_run_waiting b msgs sc id :
  no_marker msgs → prev_event sc = Some id → bloom_contains id b = false → bloom_contains id (tracked b msgs) = true →
  ∃ pre post, msgs = pre ++ post ∧ bloom_contains id (tracked b pre) = true ∧
    (∀ k, k `prefix_of` pre → k ≠ pre → bloom_contains id (tracked b k) = false) ∧
    fixer_run (mkFixer (Some sc) b) msgs = (forwarded pre ++ [MsgSyncComplete sc] ++ forwarded post, mkFixer None (tracked b msgs)).
Proof.
  intros Hn Hid. revert b. induction msgs as [|m msgs IH]; intros b Hb Ht; [simpl in Ht; congruence|]. inversion_clear Hn as [|? ? Hm Hns]. cbn [fixer_run].
  rewrite (process_waiting b m sc id) by done. destruct (bloom_contains id (bloom_insert (get_id m) b)) eqn:Ec.
  - exists [m], msgs. split; [done|]. split; [done|]. split.
    + intros k Hk Hne. destruct k as [|x k]; [done|]. exfalso. apply Hne. destruct Hk as [t Ht']. simpl in Ht'. simplify_eq.
      by destruct k.
    + rewrite fixer_run_idle by done. by rewrite <- app_assoc.
  - destruct (IH Hns _ Ec Ht) as (pre & post & -> & Hc & Hmin & ->). exists (m :: pre), post. split; [done|]. split; [done|]. split.
    + intros k Hk Hne. destruct k as [|x k]; [done|]. destruct Hk as [t Ht']. simpl in Ht'. injection Ht' as <- Hpre. simpl. apply Hmin; [by exists t|congruence].
    + by rewrite (forwarded_cons m pre), <- app_assoc.
Qed.

Definition marker_position (id : Z) (before pre : list EvmMsg) : Prop :=
  before `prefix_of` pre ∧ bloom_contains id (tracked bloom_new pre) = true ∧
  ∀ k, before `prefix_of` k → k `prefix_of` pre → k ≠ pre → bloom_contains id (tracked bloom_new k) = false.

(** A sync marker that names an event passes the order fixer once, and only once the fixer's
    filter has that event's id: immediately where it has it, else right after the first later
    message that brings it; every other message keeps its place, the internal ordering markers
    dropped.  As the filter never forgets an id, an event that passes the fixer at any time, before
    or after its marker, is enough. *)
Theorem marker_follows_its_event before m after id :
  no_marker (before ++ after) → prev_event m = Some id → id ∈ get_id <$> (before ++ after) →
  ∃ pre post, before ++ after = pre ++ post ∧ marker_position id before pre ∧
    (fixer_run (B := B) fixer_new (before ++ MsgSyncComplete m :: after)).1 = forwarded pre ++ [MsgSyncComplete m] ++ forwarded post.
Proof.
  intros Hn Hid Hin. pose proof (tracked_elem id bloom_new _ Hin) as Hall. unfold tracked in Hall. rewrite foldl_app in Hall. fold (tracked bloom_new before) in Hall.
  apply Forall_app in Hn as [Hnb Hna]. rewrite fixer_run_app. unfold fixer_new. rewrite fixer_run_idle by done.
  cbn [fixer_run]. unfold fixer_process, take_ready_pending. rewrite Hid. simpl. rewrite Hid.
  destruct (bloom_contains id (tracked bloom_new before)) eqn:Ec.
  - exists before, after. split; [done|]. split; [|rewrite fixer_run_idle by done; done]. split; [done|]. split; [done|].
    intros k Hk1 Hk2 Hne. destruct Hne. by apply (anti_symm prefix).
  - destruct (fixer_run_waiting _ _ _ _ Hna Hid Ec Hall) as (pre & post & -> & Hc & Hmin & ->).
    assert (∀ k, tracked bloom_new (before ++ k) = tracked (tracked bloom_new before) k) as Happ by (intros; apply foldl_app).
    exists (before ++ pre), post. split; [by rewrite app_assoc|]. split; [|simpl; by rewrite forwarded_app, <- app_assoc]. split; [by apply prefix_app_r|].
    split; [by rewrite Happ|]. intros k [k' ->] Hk Hne. rewrite Happ. apply Hmin; [by apply prefix_app_inv in Hk|congruence].
Qed.
End FixerProofs.

(** ** The pipeline of one contract *)

(** What the parser makes of a log: one message with the log's id. *)
Definition parsed (extractor : Extractor) (log : EvmLog) : EvmMsg :=
  match parse_log extractor log with
  | Ok (Some event) => MsgEvent event
  | Ok None => MsgProcessed (el_id log)
  | Err reason => MsgRejected (mkRejected (el_id log) (el_chain_id log) reason)
  end.

Lemma parser_handle_log extractor log : parser_handle extractor (MsgLog log) = [parsed extractor log].
Proof. unfold parser_handle, parsed. by destruct (parse_log extractor log) as [[]|]. Qed.

Lemma parsed_id extractor log : get_id (parsed extractor log) = el_id log.
Proof.
  unfold parsed. destruct (parse_log extractor log) as [[event|]|] eqn:E; [|done..]. unfold parse_log in E. repeat case_match; by simplify_eq.
Qed.

Lemma parsed_no_marker extractor logs : no_marker (parsed extractor <$> logs).
Proof. apply Forall_fmap, Forall_forall. intros log _. unfold parsed. simpl. by destruct (parse_log extractor log) as [[]|]. Qed.

Section PipelineProofs.
Context {B : Type} `{HB : BloomFilter B} `{HL : !BloomLaws B}.
Variables (address : Z) (extractor : Extractor) (hist live : list EvmLog) (m : HistoricalSyncComplete).
(** Every log comes from the one contract. *)
Hypothesis Haddr : Forall (λ e, log_address (el_log e) = address) (hist ++ live).

Abbreviation logs := (logs_only (D := EventData)).
Abbreviation parse := (λ l, parsed extractor <$> l).
Abbreviation table := ({[address := extractor]} : gmap Z Extractor).

(** Where the messages are: the fixer has handled [done]. *)
Definition pipeline_inv (p : Pipeline B) : Prop :=
  routes p = table ∧ (∀ x, x ≠ address → parser_boxes p !! x = None) ∧
  ∃ handled inbox routed, fixer_run fixer_new handled = (to_gateway p, fixer_state p) ∧
    default [] (parser_boxes p !! address) = logs inbox ∧
    ((∃ u, handled ++ fixer_box p = parse u ∧ router_box p = logs routed ++ MsgSyncComplete m :: logs live ∧ hist = u ++ inbox ++ routed) ∨
     (∃ u v, handled ++ fixer_box p = parse u ++ MsgSyncComplete m :: parse v ∧ router_box p = logs routed ∧
        u ++ v ++ inbox ++ routed = hist ++ live ∧ u `prefix_of` hist)).

Lemma pipeline_start : pipeline_inv (pipeline_new table (logs hist ++ MsgSyncComplete m :: logs live)).
Proof.
  split; [done|]. split; [done|]. exists [], [], hist. split; [done|]. split; [done|]. left. by exists [].
Qed.

Lemma route_log log : log ∈ hist ++ live → router_handle table (MsgLog log) = ToParser address (MsgLog log).
Proof. intros Hin. rewrite Forall_forall in Haddr. unfold router_handle. rewrite (Haddr _ Hin). by rewrite lookup_singleton_eq. Qed.

Lemma pipeline_router p p' : pipeline_inv p → pipeline_turn RouterActor p = Some p' → pipeline_inv p'.
Proof.
  intros (Hr & Hx & handled & inbox & routed & Hrun & Hin & Hcase) E. simpl in E. rewrite Hr in E.
  assert (∀ log rest, router_box p = MsgLog log :: rest → log ∈ hist ++ live →
    p' = mkPipeline table rest (<[address := logs (inbox ++ [log])]> (parser_boxes p)) (fixer_box p) (fixer_state p) (to_gateway p)) as Hlog.
  { intros log rest Hbox Hl. rewrite Hbox, (route_log log Hl) in E. rewrite Hin in E. injection E as <-. unfold logs_only. by rewrite fmap_app. }
  assert (∀ l x, x ≠ address → (<[address := l]> (parser_boxes p)) !! x = None) as Hx' by (intros; rewrite lookup_insert_ne by done; by apply Hx).
  destruct Hcase as [(u & Hf & Hbox & Hh)|(u & v & Hf & Hbox & Hall & Hu)]; (destruct routed as [|log routed]; [|]); simpl in Hbox.
  - rewrite Hbox in E. simpl in E. injection E as <-. split; [done|]. split; [done|]. exists handled, inbox, live. split; [done|]. split; [done|].
    right. exists u, []. simpl. rewrite app_assoc, Hf. split; [done|]. split; [done|]. rewrite app_nil_r in Hh. split; [by rewrite Hh, <- app_assoc|]. rewrite Hh. by apply prefix_app_r.
  - rewrite (Hlog log _ Hbox) by (rewrite Hh; set_solver). split; [done|]. split; [simpl; eauto|]. exists handled, (inbox ++ [log]), routed. simpl.
    rewrite lookup_insert_eq. split; [done|]. split; [done|]. left. exists u. split; [done|]. split; [done|]. by rewrite Hh, <- app_assoc.
  - by rewrite Hbox in E.
  - rewrite (Hlog log _ Hbox) by (rewrite <- Hall; set_solver). split; [done|]. split; [simpl; eauto|]. exists handled, (inbox ++ [log]), routed. simpl.
    rewrite lookup_insert_eq. split; [done|]. split; [done|]. right. exists u, v. split; [done|]. split; [done|]. split; [|done]. rewrite <- Hall. by rewrite <- !app_assoc.
Qed.

Lemma pipeline_parser x p p' : pipeline_inv p → pipeline_turn (ParserActor x) p = Some p' → pipeline_inv p'.
Proof.
  intros (Hr & Hx & handled & inbox & routed & Hrun & Hin & Hcase) E. simpl in E. rewrite Hr in E. destruct (decide (x = address)) as [->|Hne].
  2: { by rewrite lookup_singleton_ne in E. }
  rewrite lookup_singleton_eq in E. destruct (parser_boxes p !! address) as [box|] eqn:Eb; [|done]. simpl in Hin. subst box.
  destruct inbox as [|log inbox]; [done|]. cbn [logs_only fmap list_fmap] in E. rewrite parser_handle_log in E. injection E as <-.
  split; [done|]. split; [simpl; intros; rewrite lookup_insert_ne by done; by apply Hx|]. exists handled, inbox, routed. simpl. rewrite lookup_insert_eq. split; [done|]. split; [done|].
  destruct Hcase as [(u & Hf & Hbox & Hh)|(u & v & Hf & Hbox & Hall & Hu)]; [left; exists (u ++ [log])|right; exists u, (v ++ [log])]; rewrite app_assoc, Hf, fmap_app; simpl.
  - split; [done|]. split; [done|]. by rewrite Hh, <- app_assoc.
  - rewrite <- !app_assoc. simpl. split; [done|]. split; [done|]. split; [|done]. rewrite <- Hall. done.
Qed.

Lemma pipeline_fixer p p' : pipeline_inv p → pipeline_turn FixerActor p = Some p' → pipeline_inv p'.
Proof.
  intros (Hr & Hx & handled & inbox & routed & Hrun & Hin & Hcase) E. simpl in E. destruct (fixer_box p) as [|msg rest] eqn:Eb; [done|].
  destruct (fixer_process (fixer_state p) msg) as [out f] eqn:Ef. injection E as <-. split; [done|]. split; [done|]. exists (handled ++ [msg]), inbox, routed.
  split; [|split; [done|]; simpl; rewrite <- app_assoc; exact Hcase]. rewrite fixer_run_app, Hrun. simpl. by rewrite Ef, app_nil_r.
Qed.

Lemma pipeline_run_inv turns p p' : pipeline_inv p → pipeline_run turns p = Some p' → pipeline_inv p'.
Proof.
  revert p. induction turns as [|a turns IH]; intros p Hp E; simpl in E; [by simplify_eq|]. destruct (pipeline_turn a p) as [q|] eqn:Et; [|done].
  eapply IH; [|exact E]. destruct a; [by eapply pipeline_router|by eapply pipeline_parser|by eapply pipeline_fixer].
Qed.

(** The prefix of the history's messages that first has its last id is all of them. *)
Lemma prefix_of_hist_unique id pre :
  StronglySorted Z.lt (el_id <$> hist ++ live) → last (el_id <$> hist) = Some id → id ∈ get_id <$> pre → get_id <$> parse hist = el_id <$> hist →
  pre `prefix_of` parse hist ++ parse live → (parse hist ≠ pre → parse hist `prefix_of` pre → False) → pre = parse hist.
Proof.
  intros Hids Hlast Hin Hgi Hp Hlong. destruct (prefix_weak_total pre (parse hist) (parse hist ++ parse live)) as [Hpre|Hpre]; [done|by apply prefix_app_r| |].
  2: { destruct (decide (length pre = length (parse hist))) as [Hlen|Hlen]; [symmetry; by apply prefix_length_eq; [|rewrite Hlen]|]. exfalso. apply Hlong; [congruence|done]. }
  destruct Hpre as [k Hk]. destruct k as [|y k] using rev_ind; [by rewrite app_nil_r in Hk|]. clear IHk. exfalso.
  rewrite fmap_app in Hids. assert (NoDup (el_id <$> hist)) as Hnd.
  { apply (f_equal (fmap get_id)) in Hk as _. clear - Hids. induction hist as [|x l IH]; [constructor|]. simpl in Hids. inversion_clear Hids as [|? ? Hs Hx]. constructor; [|by apply IH].
    intros Hxl. apply Forall_app in Hx as [Hx _]. rewrite Forall_forall in Hx. specialize (Hx _ Hxl). lia. }
  rewrite <- Hgi, Hk in Hnd, Hlast. rewrite app_assoc, fmap_app, last_app in Hlast. simpl in Hlast. injection Hlast as <-.
  rewrite !fmap_app in Hnd. apply NoDup_app in Hnd as (_ & Hdis & _). apply (Hdis _ Hin). set_solver.
Qed.

(** C15: With one contract: whatever the order in which the reader, the router, the parser and the
    fixer take their turns, once every mailbox is empty the gateway has been sent every event of the
    history and of the later blocks once and in chain order, and the sync marker once: never after an
    event of a later block, and after the whole history, so that the batch given to the sync actor
    is the whole history, unless the fixer's Bloom filter at that point reports the id of the
    history's last event without having been given it, a false positive. *)
Theorem one_contract_keeps_chain_order turns p :
  StronglySorted Z.lt (el_id <$> hist ++ live) → prev_event m = last (el_id <$> hist) →
  pipeline_run turns (pipeline_new table (logs hist ++ MsgSyncComplete m :: logs live)) = Some p → drained p →
  ∃ pre post, to_gateway p = forwarded pre ++ MsgSyncComplete m :: forwarded post ∧
    pre ++ post = parse hist ++ parse live ∧ pre `prefix_of` parse hist ∧
    (pre = parse hist ∨
     ∃ id, prev_event m = Some id ∧ id ∉ get_id <$> pre ∧ bloom_contains id (tracked (B := B) bloom_new pre) = true).
Proof.
  intros Hids Hprev E (Hd1 & Hd2 & Hd3). destruct (pipeline_run_inv _ _ _ pipeline_start E) as (_ & _ & handled & inbox & routed & Hrun & Hin & Hcase).
  rewrite Hd1, Hd2, app_nil_r in Hcase. destruct Hcase as [(u & _ & Hbox & _)|(u & v & -> & Hbox & Hall & Hu)]; [by destruct routed|].
  assert (routed = []) as -> by (by destruct routed). assert (inbox = []) as ->.
  { destruct (parser_boxes p !! address) as [l|] eqn:El; simpl in Hin; [rewrite (Hd3 _ _ El) in Hin|]; by destruct inbox. }
  rewrite !app_nil_r in Hall. assert (to_gateway p = (fixer_run (B := B) fixer_new (parse u ++ MsgSyncComplete m :: parse v)).1) as -> by (by rewrite Hrun).
  assert (parse u ++ parse v = parse hist ++ parse live) as Hparse by (rewrite <- !fmap_app; by rewrite Hall).
  assert (parse u `prefix_of` parse hist) as Hup by (destruct Hu as [t ->]; rewrite fmap_app; by apply prefix_app_r).
  destruct (last (el_id <$> hist)) as [id|] eqn:Elast.
  2: { (* no history: the marker passes at once *)
    assert (hist = []) as Hnil. { destruct hist as [|x l] using rev_ind; [done|]. rewrite fmap_app, last_app in Elast. done. }
    rewrite Hnil in Hu, Hall |- *. apply prefix_nil_inv in Hu as ->. simpl in Hall. subst v. exists [], (parse live).
    cbn [fmap list_fmap app fixer_run]. unfold fixer_process, take_ready_pending, fixer_new. rewrite Hprev. cbn [pending_sync_complete app].
    rewrite fixer_run_idle by apply parsed_no_marker. split_and!; [done..|by left]. }
  assert (get_id <$> parse hist = el_id <$> hist) as Hgi.
  { rewrite <- list_fmap_compose. apply list_fmap_ext. intros i x _. apply parsed_id. }
  assert (id ∈ get_id <$> parse hist) as Hinh. { rewrite Hgi. by apply last_Some_elem_of. }
  destruct (marker_follows_its_event (parse u) m (parse v) id) as (pre & post & Hsplit & (Hbp & Hc & Hmin) & ->).
  - rewrite Hparse. apply Forall_app. split; apply parsed_no_marker.
  - done.
  - rewrite Hparse, fmap_app. set_solver.
  - rewrite Hparse in Hsplit.
    assert (parse hist ≠ pre → parse hist `prefix_of` pre → False) as Hlong.
    { intros Hne Hl. pose proof (Hmin _ Hup Hl Hne) as Hf. by rewrite (tracked_elem id bloom_new (parse hist) Hinh) in Hf. }
    assert (pre `prefix_of` parse hist ++ parse live) as Hpre by (rewrite Hsplit; by apply prefix_app_r).
    exists pre, post. split; [done|]. split; [done|]. split.
    + destruct (prefix_weak_total pre (parse hist) (parse hist ++ parse live)) as [?|Hl]; [done|by apply prefix_app_r|done|].
      destruct (decide (length pre = length (parse hist))) as [Hlen|Hlen]; [|exfalso; apply Hlong; [congruence|done]].
      assert (parse hist = pre) as <-; [|done]. by apply prefix_length_eq; [|rewrite Hlen].
    + destruct (decide (id ∈ get_id <$> pre)) as [Hip|Hip]; [left; by apply (prefix_of_hist_unique id)|right; by exists id].
Qed.
End PipelineProofs.

(** ** Timestamps and positions *)

Lemma log_ts_wf bt index cid : 0 ≤ bt → ts_wf (mkTs (saturating_mul U64_MAX bt 1000000) (index mod 2 ^ 32) (cid mod 2 ^ 32)).
Proof. intros. unfold ts_wf, in_u, saturating_mul, U64_MAX; simpl. pose proof (Z.mod_pos_bound index (2 ^ 32)). pose proof (Z.mod_pos_bound cid (2 ^ 32)). lia. Qed.

Lemma log_position bt index cid :
  0 ≤ bt → bt * 1000000 ≤ U64_MAX → 0 ≤ index < 2 ^ 32 → from_log_timestamp (from_log_chain_id_to_ts bt index cid) = mkPos bt index.
Proof.
  intros Hbt Hmax Hi. unfold from_log_timestamp, from_log_chain_id_to_ts. rewrite from_to_u128 by by apply log_ts_wf. simpl.
  unfold saturating_mul. rewrite Z.min_r by lia. rewrite Z.div_mul by lia. by rewrite Z.mod_small by lia.
Qed.

Lemma parse_log_event extractor log e :
  parse_log extractor log = Ok (Some e) →
  ∃ block index, block_number (el_log log) = Some block ∧ ChainReader.log_index (el_log log) = Some index ∧
    ee_block e = block ∧ ee_id e = el_id log ∧ ee_ts e = from_log_chain_id_to_ts (el_timestamp log) index (el_chain_id log).
Proof. unfold parse_log. intros E. repeat case_match; simplify_eq; eauto 10. Qed.

(** A log's timestamp and index within the bounds of the encoding. *)
Definition log_in_range (log : EvmLog) : Prop :=
  0 ≤ el_timestamp log ∧ el_timestamp log * 1000000 ≤ U64_MAX ∧ ∀ i, ChainReader.log_index (el_log log) = Some i → 0 ≤ i < 2 ^ 32.

(** C38: The position of a log survives the bus: whatever the node's clock has advanced to when
    the event enters the bus, the payload is stamped with the timestamp of the log's block in
    seconds and its index in the block, and keeps its block; and the raw timestamps of two logs
    of a chain are ordered as the logs are, first by block timestamp and then by index. *)
Theorem positions_survive_the_bus extractor log e clock reading event :
  parse_log extractor log = Ok (Some e) → log_in_range log → into_interfold_event clock reading e = Ok event →
  (∃ index, ChainReader.log_index (el_log log) = Some index ∧ ce_data event = at_position (ee_data e) (mkPos (el_timestamp log) index)) ∧
  block_number (el_log log) = Some (ce_block event) ∧
  ∀ log' e', parse_log extractor log' = Ok (Some e') → log_in_range log' → el_chain_id log' = el_chain_id log →
    (ee_ts e < ee_ts e' ↔ pos_lt (from_log_timestamp (ee_ts e)) (from_log_timestamp (ee_ts e'))).
Proof.
  intros Ep (H0 & Hmax & Hi) Ei. destruct (parse_log_event _ _ _ Ep) as (block & index & Hb & Hx & Heb & _ & Hts). specialize (Hi _ Hx).
  unfold into_interfold_event in Ei. destruct (receive clock reading _).2 as [t|]; [|done]. injection Ei as <-. simpl. split_and!.
  - exists index. split; [done|]. by rewrite Hts, log_position.
  - by rewrite Heb.
  - intros log' e' Ep' (H0' & Hmax' & Hi') Hcid. destruct (parse_log_event _ _ _ Ep') as (block' & index' & _ & Hx' & _ & _ & Hts'). specialize (Hi' _ Hx').
    rewrite Hts, Hts', !log_position by done. unfold pos_lt; simpl. unfold from_log_chain_id_to_ts. rewrite !to_u128_value by by apply log_ts_wf.
    simpl. unfold saturating_mul. rewrite !Z.min_r, !(Z.mod_small index), !(Z.mod_small index'), Hcid by lia. lia.
Qed.

(** ** The collector *)

Definition collect (chains : gset Z) (msgs : list (Z * list ChainEvent)) : HistoricalEvmCollector :=
  foldl (λ c m, (record c m.1 m.2).2) (collector_new chains) msgs.

(** The first report of every expected chain. *)
Fixpoint first_reports (chains : gset Z) (msgs : list (Z * list ChainEvent)) : list (list ChainEvent) :=
  match msgs with
  | [] => []
  | (chain_id, events) :: rest =>
      if bool_decide (chain_id ∈ chains) then events :: first_reports (chains ∖ {[chain_id]}) rest else first_reports chains rest
  end.

Lemma record_new c chain_id events : chain_id ∈ expected c → chain_id ∉ received c →
  (record c chain_id events).2 = mkCollector (expected c) ({[chain_id]} ∪ received c) (results c ++ events).
Proof. intros He Hr. unfold record. by rewrite bool_decide_eq_true_2, bool_decide_eq_false_2. Qed.

Lemma record_skips c chain_id events : chain_id ∉ expected c ∨ chain_id ∈ received c → (record c chain_id events).2 = c.
Proof. intros Hs. unfold record. destruct Hs as [He|Hr]; [by rewrite bool_decide_eq_false_2|]. rewrite (bool_decide_eq_true_2 (chain_id ∈ received c)) by done. by rewrite andb_false_r. Qed.

Lemma collect_spec c msgs :
  received c ⊆ expected c →
  let c' := foldl (λ c m, (record c m.1 m.2).2) c msgs in
  expected c' = expected c ∧ received c' = received c ∪ (expected c ∩ list_to_set msgs.*1) ∧
  results c' = results c ++ concat (first_reports (expected c ∖ received c) msgs).
Proof.
  revert c. induction msgs as [|[chain_id events] msgs IH]; intros c Hsub.
  { simpl. split_and!; [done|set_solver|by rewrite app_nil_r]. }
  cbn [foldl fst snd]. destruct (decide (chain_id ∈ expected c ∧ chain_id ∉ received c)) as [[He Hr]|Hs].
  - rewrite record_new by done. destruct (IH (mkCollector (expected c) ({[chain_id]} ∪ received c) (results c ++ events))) as (-> & -> & ->); [simpl; set_solver|]. simpl.
    rewrite bool_decide_eq_true_2 by set_solver. split_and!; [done|set_solver|]. simpl. rewrite <- app_assoc. do 3 f_equal. f_equal. set_solver.
  - assert (chain_id ∉ expected c ∨ chain_id ∈ received c) as Hskip by (destruct (decide (chain_id ∈ received c)); naive_solver). clear Hs.
    rewrite record_skips by done. destruct (IH c Hsub) as (-> & -> & ->). clear IH. cbn [first_reports fmap list_fmap fst list_to_set].
    assert (chain_id ∉ expected c ∖ received c) as Hout by (destruct Hskip; set_solver). rewrite (bool_decide_eq_false_2 _ Hout).
    split_and!; [done| |done]. destruct Hskip; set_solver.
Qed.

Lemma diff_inter_empty (X Y : gset Z) : X ∖ (X ∩ Y) = ∅ ↔ X ⊆ Y.
Proof. split; [|set_solver]. intros E x Hx. destruct (decide (x ∈ Y)); set_solver. Qed.

Lemma remaining_nil c : remaining c = [] ↔ expected c ∖ received c = ∅.
Proof.
  unfold remaining. split; [|intros ->; by rewrite elements_empty].
  intros Hnil. apply leibniz_equiv, elements_empty_inv, Permutation_nil_r. by rewrite <- (merge_sort_Permutation Z.le), Hnil.
Qed.

(** The collector of the startup sync is complete exactly when every configured chain has
    reported, and what it collected is then the first report of each, in the order of arrival:
    an unconfigured chain or a second report changes nothing, and counting the chains is the
    same as having them all. *)
Theorem collector_complete_iff_every_chain_reported chains msgs :
  (is_complete (collect chains msgs) = true ↔ ∀ chain_id, chain_id ∈ chains → chain_id ∈ msgs.*1) ∧
  results (collect chains msgs) = concat (first_reports chains msgs) ∧
  (remaining (collect chains msgs) = [] ↔ is_complete (collect chains msgs) = true).
Proof.
  unfold collect. destruct (collect_spec (collector_new chains) msgs) as (He & Hr & Hres); [set_solver|]. simpl in *.
  set (c := foldl _ _ _) in *. rewrite difference_empty_L in Hres. assert (received c = chains ∩ list_to_set msgs.*1) as Hr' by set_solver.
  assert (is_complete c = true ↔ chains ⊆ list_to_set (C := gset Z) msgs.*1) as Hcomp.
  { unfold is_complete. rewrite He, Hr', Nat.leb_le. split; [|intros Hsub; by replace (chains ∩ list_to_set msgs.*1) with chains by set_solver].
    intros Hsize. assert (chains ∩ list_to_set msgs.*1 ≡ chains) as Heq by (apply set_subseteq_size_equiv; [set_solver|done]). set_solver. }
  split; [rewrite Hcomp; clear; set_solver|]. split; [done|]. by rewrite Hcomp, remaining_nil, He, Hr', diff_inter_empty.
Qed.

(** ** Concrete runs *)

Module GatewayExample.

(** A filter without false reports: the set of the ids. *)
Global Instance id_set : BloomFilter (gset Z) :=
  { bloom_new := ∅; bloom_insert id s := {[id]} ∪ s; bloom_contains id s := bool_decide (id ∈ s) }.

Global Instance id_set_laws : BloomLaws (gset Z).
Proof. split; intros; simpl in *; rewrite ?bool_decide_eq_true in *; set_solver. Qed.

Lemma id_set_exact id msgs : bloom_contains id (tracked (B := gset Z) bloom_new msgs) = true → id ∈ get_id <$> msgs.
Proof.
  simpl. rewrite bool_decide_eq_true. assert (∀ s : gset Z, id ∈ tracked s msgs → id ∈ s ∨ id ∈ get_id <$> msgs) as Hs.
  { induction msgs as [|m msgs IH]; intros s; simpl; [auto|]. intros Hin. destruct (IH _ Hin) as [Hi|Hi]; [|set_solver]. simpl in Hi. set_solver. }
  intros Hin. destruct (Hs _ Hin); set_solver.
Qed.

Definition extract_any : Extractor := Strict (λ _ topics chain_id, Some (match topics with t :: _ => TicketBalanceUpdated t | [] => OtherData chain_id end)).

Definition a_log (address id block : Z) : EvmLog := mkEvmLog id (mkLog (Some block) (Some 0) None address [id] []) (block * 12) 1.

Definition marker (prev : option Z) : HistoricalSyncComplete := mkSyncComplete 1 prev 50.

Definition a_clock : Hlc := mkHlc (mkInner 0 0) 9 1000000.
Definition a_reading : clock_reading := InjectedClock 1700000000000000.

Definition no_b256 (_ : string) : option Z := None.

(** ** One contract *)

Definition one_hist : list EvmLog := [a_log 7 1 10; a_log 7 2 11].
Definition one_live : list EvmLog := [a_log 7 4 12].

(** The marker reaches the fixer before the events do. *)
Definition one_turns : list ActorName :=
  [RouterActor; RouterActor; RouterActor; FixerActor; ParserActor 7; RouterActor; FixerActor; ParserActor 7; ParserActor 7; FixerActor; FixerActor].

Abbreviation one_pipeline := (pipeline_run (B := gset Z) one_turns
  (pipeline_new {[7 := extract_any]} (logs_only one_hist ++ MsgSyncComplete (marker (Some 2)) :: logs_only one_live))).

Lemma one_pipeline_drains : match one_pipeline with Some p => router_box p = [] ∧ fixer_box p = [] ∧ parser_boxes p = {[7 := []]} | None => False end.
Proof. vm_compute. done. Qed.

Lemma one_contract_keeps_chain_order_witness :
  match one_pipeline with
  | Some p => to_gateway p = forwarded (parsed extract_any <$> one_hist) ++ MsgSyncComplete (marker (Some 2)) :: forwarded (parsed extract_any <$> one_live)
  | None => False
  end.
Proof.
  pose proof one_pipeline_drains as Hd. destruct one_pipeline as [p|] eqn:E; [|exact Hd].
  destruct (one_contract_keeps_chain_order (B := gset Z) 7 extract_any one_hist one_live (marker (Some 2)) ltac:(repeat constructor) one_turns p)
    as (pre & post & Hout & Hall & _ & Hcase).
  - repeat constructor; lia.
  - reflexivity.
  - exact E.
  - destruct Hd as (H1 & H2 & H3). split; [exact H1|]. split; [exact H2|]. intros a l. rewrite H3. intros [_ <-]%lookup_singleton_Some. reflexivity.
  - clear E. destruct Hcase as [->|(id & _ & Hno & Hyes)]; [|destruct (Hno (id_set_exact id pre Hyes))].
    apply (inj (app _)) in Hall as ->. exact Hout.
Defined.

(** A filter that reports every id lets the marker pass before its history. *)
#[local] Instance careless : BloomFilter unit := { bloom_new := tt; bloom_insert _ _ := tt; bloom_contains _ _ := true }.

Theorem false_positive_marker_early :
  (λ p, map is_marker (to_gateway p)) <$>
  pipeline_run (B := unit) one_turns
    (pipeline_new {[7 := extract_any]} (logs_only one_hist ++ MsgSyncComplete (marker (Some 2)) :: logs_only one_live))
  = Some [true; false; false; false].
Proof. vm_compute. reflexivity. Qed.

Lemma marker_follows_its_event_witness :
  ∃ pre post, [parsed extract_any (a_log 7 1 10); parsed extract_any (a_log 8 3 11)] = pre ++ post ∧
    marker_position (B := gset Z) 3 [parsed extract_any (a_log 7 1 10)] pre ∧
    (fixer_run (B := gset Z) fixer_new ([parsed extract_any (a_log 7 1 10)] ++ MsgSyncComplete (marker (Some 3)) :: [parsed extract_any (a_log 8 3 11)])).1
    = forwarded pre ++ [MsgSyncComplete (marker (Some 3))] ++ forwarded post.
Proof.
  apply (marker_follows_its_event (B := gset Z) [parsed extract_any (a_log 7 1 10)] (marker (Some 3)) [parsed extract_any (a_log 8 3 11)] 3).
  - repeat constructor.
  - reflexivity.
  - simpl. apply list_elem_of_In. simpl. right. left. reflexivity.
Defined.

(** ** Two contracts *)

(** Three logs of two contracts and the marker, all sent before the router's first turn; every
    actor then handles its whole mailbox, in the order in which the first message reached it. *)
Definition two_sent : list EvmMsg :=
  logs_only [a_log 7 1 10; a_log 8 2 11; a_log 7 3 12] ++ [MsgSyncComplete (marker (Some 3))].
Definition two_turns : list ActorName :=
  [RouterActor; RouterActor; RouterActor; RouterActor; ParserActor 7; ParserActor 7; ParserActor 8; FixerActor; FixerActor; FixerActor; FixerActor].

Abbreviation two_pipeline := (pipeline_run (B := gset Z) two_turns (pipeline_new {[7 := extract_any; 8 := extract_any]} two_sent)).

(** The gateway that has been told to start, on those messages. *)
Definition two_gateway : option Gateway :=
  (λ p, gateway_run no_b256 (SyncStarts (Some 77) true :: ((λ m, FromChain m a_clock a_reading [] true) <$> to_gateway p))
          (gateway_new 100 Waiting None)) <$> two_pipeline.

Lemma two_pipeline_drains :
  match two_pipeline with
  | Some p => map get_id (to_gateway p) = [1; 3; 50; 2] ∧ router_box p = [] ∧ fixer_box p = [] ∧ parser_boxes p = {[7 := []; 8 := []]}
  | None => False
  end.
Proof. vm_compute. split_and!; reflexivity. Qed.

Lemma two_gateway_holds :
  match two_gateway with
  | Some g => map (λ b, (b.1.1, map ce_block b.2)) (batches g) = [(77, [10; 12])] ∧ map ce_block (held (status g)) = [11]
  | None => False
  end.
Proof. vm_compute. split; reflexivity. Qed.

(** The marker waits for the last log only, so with two contracts it overtakes a historical event
    of the other one: the history that the sync actor gets lacks the event of block 11, which the
    gateway holds with the live events. *)
Theorem marker_overtakes_another_contract :
  match two_pipeline, two_gateway with
  | Some p, Some g =>
      map get_id (to_gateway p) = [1; 3; 50; 2] ∧ drained p ∧
      map (λ b, (b.1.1, map ce_block b.2)) (batches g) = [(77, [10; 12])] ∧ map ce_block (held (status g)) = [11]
  | _, _ => False
  end.
Proof.
  pose proof two_pipeline_drains as Hp. pose proof two_gateway_holds as Hg.
  destruct two_pipeline as [p|]; [|exact Hp]. destruct two_gateway as [g|]; [|exact Hg]. destruct Hp as (H1 & H2 & H3 & H4).
  split; [exact H1|]. split; [|exact Hg]. split; [exact H2|]. split; [exact H3|]. intros a l. rewrite H4. clear. rewrite lookup_insert_Some, lookup_singleton_Some. naive_solver.
Qed.

(** ** The gateway *)

Definition an_event (id block : Z) : EvmMsg := parsed extract_any (a_log 7 id block).

(** An event and the marker before the sync starts, two events while it runs, its end, one live. *)
Definition gateway_inputs : list GatewayInput :=
  [ FromChain (an_event 1 10) a_clock a_reading [] true; FromChain (MsgSyncComplete (marker (Some 1))) a_clock a_reading [] true;
    SyncStarts (Some 77) true; FromChain (an_event 2 11) a_clock a_reading [] true; FromChain (an_event 3 12) a_clock a_reading [] true;
    SyncEnds [Dispatched; Dispatched]; FromChain (an_event 4 13) a_clock a_reading [Dispatched] true ].

Abbreviation example_gateway inputs := (gateway_run no_b256 inputs (gateway_new 10 Waiting None)).

Lemma gateway_keeps_every_event_witness :
  let g := example_gateway gateway_inputs in
  (stopped g = false → delivered_by g ++ held (status g) = omap arriving gateway_inputs ∧ (length (batches g) ≤ 1)%nat ∧ (published g ≠ [] → length (batches g) = 1%nat)) ∧
  delivered_by g `prefix_of` omap arriving gateway_inputs.
Proof.
  apply (gateway_keeps_every_event no_b256 gateway_inputs 10 Waiting None). repeat constructor; simpl; rewrite list_elem_of_In; simpl; naive_solver.
Defined.

Example gateway_example :
  let g := example_gateway gateway_inputs in
  (stopped g, map (λ b, map ce_block b.2) (batches g), map ce_block (published g), readiness g) = (false, [[10]], [11; 12; 13], Signalled (Ok tt)).
Proof. vm_compute. reflexivity. Qed.

Lemma gateway_is_ready : readiness (example_gateway gateway_inputs) = Signalled (Ok tt).
Proof. vm_compute. reflexivity. Qed.

Lemma ready_means_the_backlog_is_published_witness :
  ∃ before outcomes after backlog, gateway_inputs = before ++ SyncEnds outcomes :: after ∧
    status (example_gateway before) = BufferUntilLive backlog ∧
    published (example_gateway (before ++ [SyncEnds outcomes])) = published (example_gateway before) ++ backlog.
Proof. apply (ready_means_the_backlog_is_published no_b256 gateway_inputs 10 None). apply gateway_is_ready. Defined.

Lemma positions_survive_the_bus_witness :
  match parse_log extract_any (a_log 7 1 10) with
  | Ok (Some e) =>
      match into_interfold_event a_clock a_reading e with
      | Ok event => ∃ index, ChainReader.log_index (el_log (a_log 7 1 10)) = Some index ∧ ce_data event = at_position (ee_data e) (mkPos 120 index)
      | Err _ => False
      end
  | _ => False
  end.
Proof.
  destruct (parse_log extract_any (a_log 7 1 10)) as [[e|]|] eqn:Ep; [|vm_compute in Ep; discriminate Ep..].
  destruct (into_interfold_event a_clock a_reading e) as [event|] eqn:Ei.
  - refine (proj1 (positions_survive_the_bus extract_any (a_log 7 1 10) e a_clock a_reading event Ep _ Ei)).
    split; [simpl; lia|]. split; [simpl; unfold U64_MAX; lia|]. simpl. intros i [= <-]. lia.
  - vm_compute in Ep. injection Ep as <-. vm_compute in Ei. discriminate Ei.
Defined.

End GatewayExample.
